(* ===== verification/_CoqProject ===== *)
-Q . S2P
Prelude.v
Strings.v
Collections.v
Names.v
Version.v
VersionOrder.v
VersionText.v
Compat.v
RangeData.v
Reasons.v
CompatCheck.v
Intersection.v
VersionRange.v
RangeTheory.v
RangeCases.v
Components.v
Options.v
Idents.v
Requests.v
RequestEq.v
Opts.v
Requirements.v
ComponentSpecs.v
Builds.v
Satisfy.v
Embedded.v
PackageSpec.v
Installs.v
MergeTheory.v
Encoding.v
RequestPools.v
Solution.v
SolverState.v
SolverTheory.v
SolverRequests.v
Validation.v
ValidationTheory.v
Decisions.v
DecisionTheory.v
BuildKeys.v
PackageIterators.v
IteratorTheory.v
Graph.v
GraphTheory.v
ImpossibleChecks.v
ImpossibleTheory.v
StepSolver.v
StepState.v
SolverRuntime.v
World.v
SoundStates.v
StepSound.v
SolveSound.v
StepTheory.v
TagSpec.v
Tags.v
TagFile.v
TagStorage.v
TagTheory.v
Entry.v
Manifest.v
Layers.v
Diffs.v
Objects.v
ObjectTheory.v
ObjectStore.v
TagListing.v
Clean.v
CleanTheory.v
CleanCases.v
Sync.v
SyncTheory.v
SyncEnds.v
GraphManifest.v
Check.v
CheckTheory.v
CheckReport.v
SyncCases.v
Repositories.v
RepositoryTheory.v
