(* ===== verification/Prelude.v ===== *)
(** * Verification of the core of spk and spfs

    spk is a package manager; spfs is the layered, content-addressed file system
    it stores and mounts packages with.  The program is a set of Rust crates
    under src/crates.  This library models the parts below, from the source,
    as executable functions, and proves what makes each of them correct.

    ** The modelled program

    - Names (spk-schema/crates/foundation/src/name): validated package, option,
      repository and release-tag names.
    - Versions (.../version): dotted parts with an epsilon, pre- and
      post-release tag sets, their ordering, equality, hash, printed forms and
      parser.
    - Compatibility contracts (.../version/compat): the [x.a.b] rule strings and
      [check_compat]; incompatibility reasons and their sameness.
    - Version ranges (.../version_range): twelve kinds of range, their bounds,
      applicability, containment and intersection, and [VersionFilter], the
      conjunction the solver narrows with [restrict].
    - Packages (.../ident, .../ident_build, .../ident_component, .../option_map
      and spk-schema/src): components and what they use, option maps, builds and
      identifiers, requests and their merging, build options, requirements
      lists, variants and build digests, built packages and whether they satisfy
      a request.
    - Package files (.../src/component_spec.rs, embedded_packages_list.rs,
      install_spec.rs): component specifications, the packages embedded in
      another one, and what reading an install section makes of them.
    - Solver states (spk-solve/crates/graph/src/graph.rs, solution,
      promotion_patterns.rs): the states a solve moves through, their identifiers
      and shared caches, the changes decisions are made of, the queries on
      states, and solutions with the environment they amount to.
    - Decisions and validators (graph.rs, spk-solve/crates/validation): the
      checks a package must pass, the changes that bring it into a state, and the
      check against the packages resolved already.
    - Searching (spk-solve/crates/package-iterator, graph.rs, validation's
      impossible_checks.rs): build keys and the cursors over versions and builds,
      the graph of a solve and the walk over it, the checks for requests that no
      build answers.
    - The step solver (spk-solve/src/solvers/step/solver.rs): its configuration
      and statistics, a step, and the stream of steps with stepping back, errors
      and the solves made for builds from source.
    - Binary encoding (spfs-encoding, spfs-proto/src/digest.rs): the readers and
      writers persisted objects are made of, and the hashing writer.
    - Tags (spfs/src/tracking/tag.rs, spfs/src/storage/tag.rs,
      spfs/src/storage/fs/tag.rs): references such as [spi/main~4], tags, tag
      files and the tag database of a file-system repository.
    - Manifests (spfs/src/tracking/entry.rs, manifest.rs, diff.rs): the tree of
      entries a layer of the file system consists of, layering, lookup,
      creation, walking and comparison.
    - The object graph (spfs/src/graph): platforms, layers, manifests and blobs,
      their headers, digests and binary form; the manifest that is stored for a
      tracked one, and back.
    - Repositories (spfs/src/storage/fs, graph/database.rs): the objects and
      payloads of a file-system repository, and the listing of its tags.
    - Cleaning (spfs/src/clean.rs, prune.rs): pruning tags, the concurrent visit of
      what the others reach, and the removal of the rest.
    - Syncing (spfs/src/sync.rs, sync/reporter.rs): copying what an environment
      needs from one repository to another, concurrently.
    - Checking (spfs/src/check.rs): what a repository lacks of what its tags, its
      objects or an environment refer to, and its repair by syncing.

    - Package repositories (spk-storage/src/storage/repository.rs, mem.rs): reading,
      publishing, updating and removing packages with the stubs of the packages
      they embed, over any storage, and the storage in memory.

    The parts interact as follows.  A package's version is compared, printed to
    the tag path it is stored under, and tested against ranges; a range asks the
    version ordering for its bounds and the package's contract for satisfaction;
    the requests of packages hold ranges, components and options, are merged in
    requirements lists, and are answered by the packages that satisfy them.  A
    solver's state holds requests and the packages that were chosen for them.  A
    step asks the state for the next request, takes versions and builds from a
    cursor kept in the graph's node, drops what the validators refuse, and makes
    a decision, whose changes lead to the state of the next node; when there is no
    build left, the stream of steps goes back to a node of its history.  The
    cursors and the checks ask repositories, which are the interface
    [PackageIterators.RepoOps]; what they are answered from is what was published
    ([Repositories.publish_package]), on top of a storage
    ([Repositories.Storage]).  On the side of spfs,
    a publish pushes a tag, which is encoded into a tag file under a lock and is
    resolved later by reading the file backwards.  A tag's target is the digest of
    an object, which refers to others down to blobs and their payloads; cleaning
    lists the tags, follows them through the objects and removes what it did not
    meet, syncing follows them in one repository and writes them to another, and
    checking follows them and syncs what it does not find.

    ** Files

    - [Prelude] (this file): results of fallible code ([res], with panics as a
      third outcome), machine integers, Rust's [Ord] as the class [Cmp] with its
      contract [CmpLaws], list searches.
    - [Strings]: strings as lists of Unicode scalar values with byte offsets,
      splitting and joining, decimal integers.
    - [Collections]: [BTreeMap] and [BTreeSet] as sorted lists, slice sorting.
    - [Names], [Version], [Compat], [RangeData], [Reasons], [CompatCheck],
      [Intersection], [VersionRange]: one file per component of the foundation
      crate, definitions named after the source.
    - [VersionOrder], [VersionText], [RangeTheory], [RangeCases]: the theory of
      versions and ranges.
    - [Components], [Options], [Idents], [Requests], [Opts], [Requirements],
      [Builds], [Satisfy], [PackageSpec]: the schema of packages, one file per
      source module, each with its theorems; [MergeTheory]: what merging
      requests means for the packages that satisfy them; [RequestEq]: derived
      equality of requests; [RequestPools]: sets of requests that can be merged
      in any order; [ComponentSpecs], [Embedded], [Installs]: components and
      embedded packages as they are written in package files.
    - [Solution]: resolved packages; [SolverState]: states and changes;
      [SolverTheory]: identifiers and caches in every state of a solve;
      [SolverRequests]: the requests of a state and what changes make of them.
    - [Validation], [Decisions]: validators and decisions, with their theory in
      [ValidationTheory] and [DecisionTheory].
    - [BuildKeys], [PackageIterators], [Graph], [ImpossibleChecks]: the parts of a
      search, with theory in [IteratorTheory], [GraphTheory], [ImpossibleTheory].
    - [StepSolver], [StepState], [SolverRuntime]: the step solver.  [World]:
      repositories that are lists, for computing whole solves.  [SoundStates],
      [StepSound], [SolveSound]: a solve only reaches sound states; [StepTheory]:
      a step ends.
    - [Encoding], [TagSpec], [Tags], [TagFile], [TagStorage]: the components of
      spfs; [TagTheory]: the tag storage as an abstract database.
    - [Entry], [Manifest]: manifest entries, manifests and diffs; [Layers],
      [Diffs]: their theory.
    - [Objects]: the contents of objects, their encodings and digests, with their
      theory in [ObjectTheory]; [GraphManifest]: from tracked manifests to stored
      ones and back; [ObjectStore]: objects and payloads of a repository;
      [TagListing]: listing and finding tags.
    - [Clean]: pruning and cleaning, with theory in [CleanTheory] (what is kept and
      what is removed, against the interface [CleanTheory.TagDatabaseLaws], and
      that it ends) and [CleanCases] (the interface for the tags of a file-system
      repository, and runs).
    - [Sync]: syncing, with theory in [SyncTheory] (what is copied) and [SyncEnds] (it
      ends, and only adds).
    - [Check]: checking, with theory in [CheckTheory] (the invariant of its futures)
      and [CheckReport] (what the reports say, and that it ends); [SyncCases]: runs
      of syncs and checks.
    - [Repositories]: package repositories; [RepositoryTheory]: the laws of storages
      ([RepositoryTheory.StorageLaws]), that the storage in memory has them, and what
      the operations do on any storage that has them.

    ** State and effects

    Pure functions are functions; fallible ones return [res].  A reader of a
    stream is the list of chunks its buffer will hold, so every statement about
    readers holds for each way of buffering the stream.  The tag iterator is a
    state machine advanced by one I/O response at a time ([TagFile.poll_arm]); its
    theorems quantify over all sequences of responses.  The tag storage passes
    its directory tree through a state monad that keeps changes on errors.  The
    states of a solver share lazily filled caches; these are cells of a store
    ([SolverState.Store]) in a state monad, and a solve ([SolverTheory.solve]) is
    any sequence of changes and queries on the states that are alive.  A step of
    the solver runs in the monad [StepState.St] over the solver, the store, the
    cursor and the notes, and keeps what was changed when it fails.  The stream of
    steps is a function from the state of the runtime to what it yields next
    ([SolverRuntime.iter_turn]).  Nodes of the graph are shared references in the
    source and keys of a map here; a lock that would never be given, and the end
    of the fuel, are [Panicked].

    A repository of objects ([ObjectStore.Repo]) is two maps, and a parameter says
    which calls of the operating system fail.  The futures of a cleaning, a sync or a
    check are values of an inductive type ([Clean.Future], [Sync.SyncFuture],
    [Check.CheckFuture]), one constructor for every point at which they may be suspended; a step function
    takes them to the next one and changes the shared state (the repository and the
    set of digests that were met), and a schedule, any function, says which of them
    takes the next step.  The theorems hold for all schedules.  The operations of a
    package repository run in the monad [Repositories.Op] over its storage and the
    events that were announced, and keep what was changed when they fail.

    ** What the theorems show

    - Ordering: version comparison is positional, total and agrees with
      equality; the hash and [strip_trailing_zeros] are canonical; storage
      strings identify versions.
    - Text: versions, wildcard and compat ranges, tag specs print and parse
      back; parsers only build well-formed values; where error reporting panics.
    - Compatibility: which position of a contract decides, and what the default
      contract means.
    - Ranges: [restrict] and simplification keep exactly the versions all rules
      accept, [contains] is sound, [intersects] complete; all for the interval
      fragment ([RangeTheory.interval]: the kinds [>=], [>], [<], [<=], [==],
      [~], [^] and compat over versions without release tags), with the
      counterexamples outside of it ([=], inequalities and wildcards).
    - Requests: a package answers a merged request exactly when it answers both
      (over interval rules; counterexamples outside); requirements lists hold
      one request under a name; which options a request is given.
    - Packages: [resolve_uses] ends and computes what is needed; what the
      readers of lists accept; the options of a variant, their values, and that
      the digested text identifies them; the cached requirements are fresh;
      tag paths identify builds.
    - Solving: the incremental identifier of a state is that of its parts and no
      shared cache is ever stale, in every state of a solve; the requests of a
      state ask what was asked of it, merged or not; which request is next; what
      a solution holds and that its variables survive in an environment.
    - Searching: cursors yield every version once, the highest first, and builds
      in the order of their keys; adding branches keeps the graph well-formed,
      and walking it ends and yields what can be reached; the impossible-request
      checks answer exactly, in whatever order their tasks finish.
    - Decisions: what the validators accept fits the state; a decision demands all
      the package requires, and leaves the resolved packages acceptable.
    - Whole solves: a step ends ([StepTheory.step_ends]); whatever a solve returns
      answers every request made of the solver and every requirement of the
      packages in it ([SolveSound.solution_meets_requests]).  The latter rests on
      the parts: merging ([MergeTheory], [RequestPools]), states
      ([SolverRequests]), decisions ([DecisionTheory]) and the cursors.  Its
      hypotheses say which requests and packages are meant: the requests for a name
      form a pool (interval rules), no package embeds another, and
      requirements are grounded by a rank, since the solver does not
      check what a package requires of itself ([World.own_requirement_ignored]).
    - Encoding: every reader inverts its writer; short writes through the
      hasher; characters cut by buffering.
    - Tags: the iterator yields a file's tags newest first and ends; insert,
      remove, resolve and push implement a database of sorted streams.
    - Manifests: what a stack of layers shows at each path, that equality is
      equality of what is shown, that walks and diffs are complete and exact,
      and what [mknod] changes.
    - Objects: encoding and decoding are inverse in the legacy format; digests tell
      objects apart, but for layers without a manifest, as far as SHA-256 tells
      their texts apart; stacks; a manifest that is stored makes the tracked one
      again.
    - Cleaning: it ends; if there are not more streams of tags than run at a time,
      whatever a remaining tag reaches is kept, however it ends, and
      an object that cannot be read stops it; after a cleaning without errors
      nothing old is left that no tag reached.  [CleanCases] shows where results of
      tasks are lost, and what the age limit does not protect.
    - Syncing: it ends, whatever the destination lacks; a sync that succeeds leaves
      everything below what was asked for in the destination, but below what was
      missing there of an object that was stored; none takes anything away.  [SyncCases] shows that a
      sync that fails can leave a gap which the next one does not close.
    - Checking: without repairs it ends, changes nothing, and its report is exact;
      with repairs, whatever it can reach is reported or is there.  [SyncCases]
      shows a repair, and what summaries count twice.
    - Package repositories: removing undoes publishing; what an update makes of
      the stubs of embedded packages; the highest version is exact; stubs and packages
      stay apart, unless a stub is updated.  [RepositoryTheory] shows what a storage in memory still lists
      after a removal, and a package that can be published and not removed.

    ** Fuel and bounds

    [Strings.dec] is given one more step than the number has bits, enough for
    its decimal digits ([dec_value]).  [VersionRange.simplify_loop] gets one
    round more than there are rules, since each round removes one; running out
    would be [Panicked], which the theorems exclude.  [Encoding.io_write_all]
    gets the length of the buffer.  [TagStorage.read_tag_file] gets twelve I/O
    responses per byte and two, which [TagTheory.read_tag_file_spec] shows to be
    enough for every file of tags.  [Manifest.walk] gets one call more than
    there are entries ([Diffs.walk_preorder]).  [Components.resolve_uses] gets the
    requests plus, for every component, its uses and the number of components
    ([Components.resolve_uses_loop_spec]).  A cursor gets one turn more than it has
    versions to visit ([PackageIterators.turns_left]), the walk of a graph four
    turns for every recorded decision and three more ([GraphTheory.walk_exact]),
    the loop of a step two turns more than its cursor has left
    ([StepTheory.step_ends]).  The functions that make the changes of a request
    follow the requirements of components, which may be circular: their fuel is a
    parameter, enough when the requirements are grounded
    ([DecisionTheory.pkg_request_to_changes_ends]), and none is when they are not.
    [SolverRuntime.solve] has a fuel for steps and a depth for solves inside of
    solves; no bound is claimed for them, since a solve can hang
    ([World.stepping_back_hangs]).  The tasks of a cleaning and the futures of a
    sync or a check get fuel for their steps, of which there is enough
    ([CleanTheory.clean_ends], [SyncEnds.sync_ends], [CheckReport.check_ends]; no bound
    is claimed for a check that repairs); reading the trees of a manifest
    takes as much as they are deep ([GraphManifest.manifest_survives]).  Integers
    that may overflow keep
    their width ([u32_add], [u64_add]); offsets into tag files are in range for
    files shorter than 2^63 bytes.

    ** Parameters

    Third-party code is a parameter: itertools' [permutations(2)] (a function
    with [RangeTheory.permutations2_spec]), chrono's timestamps (class
    [Tags.Timestamp] with [TimestampLaws]), SHA-256 (a function;
    where a theorem needs it, to 32 bytes, and one that does not confuse the texts
    at hand), the
    standard library's unspecified hasher (class [SolverState.Hasher] and a
    function for text, of which nothing is assumed), glob patterns (class [SolverState.GlobOps]), the
    relative_path crate (a function in [TagStorage]; class [Manifest.RelPath] with
    [Diffs.RelPathLaws]; class
    [Idents.RelJoinLaw]), Unicode lowercasing (a function).  The orders in which
    [HashMap]s are walked are functions, permutations where a theorem needs it.
    What the step solver needs besides is the class [StepSolver.SolveParameters]:
    the configuration file's lists, the order in which concurrent tasks finish
    and messages arrive, the priority queue of the history (a function that pops
    an entry of the queue), the parsers made with nom, the derived equality of
    embedded packages, and the texts of errors and reasons.  Repositories, and how
    recipes are built, are the interfaces [PackageIterators.RepoOps] and
    [StepSolver.BuildableRecipe]; a repository answers the same throughout a
    solve.  For the object graph they are the flatbuffers crate's layout (class
    [Objects.Flatbuffers]), the operating system and configuration (class
    [ObjectStore.FileSystem]), the tags as cleaning, syncing and checking use
    them (classes [Clean.TagDatabase], [Sync.TagSync] and [Check.TagCheck]), and the order in which directories are
    listed.  For package repositories they are the sending of messages, the
    derived equality of package specs, and the storage (with the laws
    [RepositoryTheory.StorageLaws], which the storage in memory has).  Whether the
    program is built with debug assertions is the class [Manifest.BuildProfile]
    where one can fail; those of the cursors of nodes cannot
    ([Graph.copied_iterators], [StepState.get_iterator_asserts]).  Each law assumed has a concrete instance in a witness.

    ** Not modelled

    Parsers made of nom combinators (idents, ranges, [Compat::from_str]) are
    functions given to the definitions that call them, as is SHA-1 with base 32 in
    build digests.  The resolvo solver (spk-solve/src/solvers/resolvo) hands the
    problem to a third-party SAT solver.  The soundness of whole solves is about
    packages that embed no others.  The semaphores of a sync or a check only
    delay futures; the permissions of files, the renders and proxies of a
    repository, and reporters, are left out.  Reading manifests from disk, command lines,
    mounts, RPC, rendering, runtimes and configuration are I/O around the modelled
    logic. *)

From Stdlib Require Export Sorted.
From stdpp Require Export base list numbers option sets.
From Stdlib Require String Ascii.
Export String.StringSyntax.
Delimit Scope string_scope with string.
Bind Scope string_scope with String.string.

#[export] Set Default Goal Selector "!".

(** ** Results of fallible code

    [Ok] and [Err] are the two variants of Rust's [Result]; [Panicked] is the
    outcome of code that unwinds (slicing off a character boundary, indexing
    out of range, [unreachable!]). *)
Inductive res (E A : Type) : Type :=
| Ok (a : A)
| Err (e : E)
| Panicked.
Arguments Ok {E A} a.
Arguments Err {E A} e.
Arguments Panicked {E A}.

#[export] Instance Ok_inj E A : Inj (=) (=) (@Ok E A).
Proof. by intros ?? [= ->]. Qed.
#[export] Instance res_ret E : MRet (res E) := fun A a => Ok a.
#[export] Instance res_bind E : MBind (res E) := fun A B f m =>
  match m with Ok a => f a | Err e => Err e | Panicked => Panicked end.
#[export] Instance res_fmap E : FMap (res E) := fun A B f m =>
  match m with Ok a => Ok (f a) | Err e => Err e | Panicked => Panicked end.

Definition res_is_ok {E A} (r : res E A) : bool :=
  match r with Ok _ => true | _ => false end.

Definition res_ok {E A} (r : res E A) : option A :=
  match r with Ok a => Some a | _ => None end.

(** A result that cannot be an error. *)
Definition total {E A} (r : res Empty_set A) : res E A :=
  match r with Ok a => Ok a | Err e => match e with end | Panicked => Panicked end.
Lemma total_Ok {E A} (r : res Empty_set A) a : total (E := E) r = Ok a <-> r = Ok a.
Proof. destruct r as [|[]|]; naive_solver. Qed.

Lemma bind_Ok {E A B} (r : res E A) (f : A -> res E B) b :
  r ≫= f = Ok b -> exists a, r = Ok a /\ f a = Ok b.
Proof. destruct r; simpl; [eauto|done..]. Qed.

Definition map_error {E E' A} (f : E -> E') (r : res E A) : res E' A :=
  match r with Ok a => Ok a | Err e => Err (f e) | Panicked => Panicked end.

(** A loop that stops at the first error. *)
Fixpoint try_fold {E A S} (f : S -> A -> res E S) (s : S) (l : list A) : res E S :=
  match l with
  | [] => Ok s
  | x :: l => s ← f s x; try_fold f s l
  end.
Lemma try_fold_app {E A S} (f : S -> A -> res E S) s l k :
  try_fold f s (l ++ k) = (s ← try_fold f s l; try_fold f s k).
Proof. revert s. induction l as [|x l IH]; intros s; [done|]. cbn [try_fold app]. destruct (f s x); [apply IH|done..]. Qed.

(** [Iterator::collect] into a [Result]: the values up to the first error. *)
Fixpoint try_map {E A B} (f : A -> res E B) (l : list A) : res E (list B) :=
  match l with
  | [] => Ok []
  | x :: l => y ← f x; ys ← try_map f l; Ok (y :: ys)
  end.
Lemma try_map_Ok {E A B} (f : A -> res E B) l l' :
  try_map f l = Ok l' <-> Forall2 (fun x y => f x = Ok y) l l'.
Proof.
  split.
  - revert l'. induction l as [|x l IH]; intros l'; cbn [try_map]; [by intros [= <-]|].
    intros (y & Hy & (ys & Hys & [= <-])%bind_Ok)%bind_Ok. constructor; [done|]. by apply IH.
  - induction 1 as [|x y l l' Hx _ IH]; [done|]. cbn [try_map]. by rewrite Hx, IH.
Qed.

(** ** Machine integers *)
Definition u32_max : N := 4294967295.
Definition u64_max : N := 18446744073709551615.
Definition is_u32 (n : N) : Prop := (n <= u32_max)%N.
Definition is_u64 (n : N) : Prop := (n <= u64_max)%N.

(** Addition of two [u32] values in a release build: wraps around. *)
Definition u32_add (a b : N) : N := ((a + b) mod (u32_max + 1))%N.
(** The same for [u64], also [AtomicU64::fetch_add]. *)
Definition u64_add (a b : N) : N := ((a + b) mod (u64_max + 1))%N.

(** ** Characters and strings

    A Rust [str] is the list of its characters (Unicode scalar values); byte
    lengths and byte offsets are computed from the UTF-8 width of each one. *)
Abbreviation char := N.
Abbreviation rstr := (list N).

Definition lit (s : String.string) : rstr :=
  Ascii.N_of_ascii <$> String.list_ascii_of_string s.
Arguments lit s%_string.

(** ** Orderings

    [cmp] is Rust's [Ord::cmp].  [CmpLaws] is its contract: a total preorder
    whose [Eq] classes are congruence classes. *)
Class Cmp (A : Type) := cmp : A -> A -> comparison.

Class CmpLaws (A : Type) `{!Cmp A} : Prop := {
  cmp_antisym (x y : A) : cmp y x = CompOpp (cmp x y);
  cmp_lt_trans (x y z : A) : cmp x y = Lt -> cmp y z = Lt -> cmp x z = Lt;
  cmp_eq_cong (x y z : A) : cmp x y = Eq -> cmp x z = cmp y z;
}.

(** [cmp] decides Leibniz equality. *)
Class CmpLeibniz (A : Type) `{!Cmp A} : Prop :=
  cmp_eq (x y : A) : cmp x y = Eq -> x = y.

(** Sequencing of comparisons: the first difference decides. *)
Definition thenc (c d : comparison) : comparison :=
  match c with Eq => d | _ => c end.

#[export] Instance cmp_N : Cmp N := N.compare.
#[export] Instance cmp_nat : Cmp nat := Nat.compare.
#[export] Instance cmp_bool : Cmp bool := fun a b =>
  match a, b with false, true => Lt | true, false => Gt | _, _ => Eq end.

(** Derived [Ord] on tuples and structs: lexicographic, field by field. *)
#[export] Instance cmp_prod {A B} `{Cmp A, Cmp B} : Cmp (A * B) := fun p q =>
  thenc (cmp p.1 q.1) (cmp p.2 q.2).

(** [Ord] on slices and vectors: lexicographic, a strict prefix is smaller. *)
Section list_cmp.
Context {A : Type} (cmpA : Cmp A).
Fixpoint list_cmp (l k : list A) : comparison :=
  match l, k with
  | [], [] => Eq
  | [], _ :: _ => Lt
  | _ :: _, [] => Gt
  | x :: l, y :: k => thenc (cmp x y) (list_cmp l k)
  end.
End list_cmp.
Arguments list_cmp {A} {cmpA} l k.
#[export] Instance cmp_list {A} `{Cmp A} : Cmp (list A) := list_cmp.

(** Derived [Ord] on [Option]: [None] is the smallest. *)
#[export] Instance cmp_option {A} `{Cmp A} : Cmp (option A) := fun o p =>
  match o, p with
  | None, None => Eq
  | None, Some _ => Lt
  | Some _, None => Gt
  | Some x, Some y => cmp x y
  end.

(** The ordering that compares the images under [f]. *)
Definition cmp_on {A B} `{Cmp B} (f : A -> B) : Cmp A := fun x y => cmp (f x) (f y).

Definition ltb {A} `{Cmp A} (x y : A) : bool :=
  match cmp x y with Lt => true | _ => false end.
Definition leb {A} `{Cmp A} (x y : A) : bool :=
  match cmp x y with Gt => false | _ => true end.
Definition geb {A} `{Cmp A} (x y : A) : bool :=
  match cmp x y with Lt => false | _ => true end.
Definition gtb {A} `{Cmp A} (x y : A) : bool :=
  match cmp x y with Gt => true | _ => false end.
(** [Ord::min] keeps the first argument on ties, [Ord::max] the second. *)
Definition cmp_min {A} `{Cmp A} (x y : A) : A :=
  match cmp x y with Gt => y | _ => x end.
Definition cmp_max {A} `{Cmp A} (x y : A) : A :=
  match cmp x y with Gt => x | _ => y end.

Definition clt {A} `{Cmp A} (x y : A) : Prop := cmp x y = Lt.
Definition cle {A} `{Cmp A} (x y : A) : Prop := cmp x y <> Gt.
Definition ceq {A} `{Cmp A} (x y : A) : Prop := cmp x y = Eq.

(** ** Shared tactics and hint databases *)
Create HintDb spk discriminated.

(** Case analysis on every [match] of the goal, keeping the equations. *)
Ltac case_matches :=
  repeat (case_match; simplify_eq/=; try done).

(** Expose the boolean comparisons of [Cmp] as comparisons. *)
Ltac unfold_cmp :=
  unfold ltb, leb, geb, gtb, clt, cle, ceq, cmp_min, cmp_max in *.

Section cmp_laws.
Context {A : Type} `{CmpLaws A}.
Implicit Types x y z : A.

Lemma cmp_refl x : cmp x x = Eq.
Proof. pose proof (cmp_antisym x x). by destruct (cmp x x). Qed.

Lemma cmp_gt_lt x y : cmp x y = Gt <-> cmp y x = Lt.
Proof. rewrite (cmp_antisym x y). by destruct (cmp x y). Qed.

Lemma cmp_eq_sym x y : cmp x y = Eq -> cmp y x = Eq.
Proof. intros E. by rewrite (cmp_antisym x y), E. Qed.

Lemma cmp_eq_cong_r x y z : cmp x y = Eq -> cmp z x = cmp z y.
Proof.
  intros E. rewrite (cmp_antisym x z), (cmp_antisym y z). f_equal.
  by apply cmp_eq_cong.
Qed.

Lemma cle_refl x : cle x x.
Proof. unfold cle. by rewrite cmp_refl. Qed.

Lemma cle_cases x y : cle x y <-> clt x y \/ ceq x y.
Proof. unfold_cmp. destruct (cmp x y); naive_solver. Qed.

Lemma clt_cle x y : clt x y -> cle x y.
Proof. unfold_cmp. congruence. Qed.

Lemma clt_irrefl x : ~ clt x x.
Proof. unfold_cmp. by rewrite cmp_refl. Qed.

Lemma clt_not_cle x y : clt x y <-> ~ cle y x.
Proof.
  unfold_cmp. rewrite <-(cmp_gt_lt y x). destruct (cmp y x); naive_solver.
Qed.

Lemma cle_not_clt x y : cle x y <-> ~ clt y x.
Proof. unfold_cmp. by rewrite <-(cmp_gt_lt x y). Qed.

Lemma clt_cle_trans x y z : clt x y -> cle y z -> clt x z.
Proof.
  intros Hxy [Hyz|Hyz]%cle_cases; unfold_cmp; [by eapply cmp_lt_trans|].
  by rewrite <-(cmp_eq_cong_r y z x).
Qed.

Lemma cle_clt_trans x y z : cle x y -> clt y z -> clt x z.
Proof.
  intros [Hxy|Hxy]%cle_cases Hyz; unfold_cmp; [by eapply cmp_lt_trans|].
  by rewrite (cmp_eq_cong x y z).
Qed.

Lemma cle_trans x y z : cle x y -> cle y z -> cle x z.
Proof.
  intros Hxy [Hyz|Hyz]%cle_cases.
  - by apply clt_cle, (cle_clt_trans _ y).
  - unfold_cmp. by rewrite <-(cmp_eq_cong_r y z x).
Qed.

Lemma cle_total x y : cle x y \/ clt y x.
Proof. rewrite cle_not_clt. unfold clt. destruct (cmp y x); naive_solver. Qed.

Lemma ltb_clt x y : ltb x y = true <-> clt x y.
Proof. unfold_cmp. by destruct (cmp x y). Qed.
Lemma leb_cle x y : leb x y = true <-> cle x y.
Proof. unfold_cmp. by destruct (cmp x y). Qed.
Lemma geb_cle x y : geb x y = true <-> cle y x.
Proof. unfold_cmp. rewrite (cmp_antisym x y). by destruct (cmp x y). Qed.
Lemma gtb_clt x y : gtb x y = true <-> clt y x.
Proof. unfold_cmp. rewrite (cmp_antisym x y). by destruct (cmp x y). Qed.
Lemma ltb_ge x y : ltb x y = false <-> cle y x.
Proof. rewrite cle_not_clt. unfold_cmp. by destruct (cmp x y). Qed.
Lemma geb_lt x y : geb x y = false <-> clt x y.
Proof. unfold_cmp. by destruct (cmp x y). Qed.
Lemma leb_gt x y : leb x y = false <-> clt y x.
Proof. unfold_cmp. rewrite (cmp_antisym x y). by destruct (cmp x y). Qed.
Lemma gtb_le x y : gtb x y = false <-> cle x y.
Proof. unfold_cmp. by destruct (cmp x y). Qed.
End cmp_laws.

#[export] Hint Resolve cmp_refl cle_refl clt_cle : spk.

(** *** Instances of the ordering laws *)

Section cmp_transfer.
Context {A B : Type} `{!Cmp A} `{CmpLaws B}.

(** An ordering computed from a key inherits the laws of the key's ordering. *)
Lemma cmp_laws_by_key (f : A -> B) :
  (forall x y, cmp x y = cmp (f x) (f y)) -> CmpLaws A.
Proof.
  intros Hf. split; intros *; rewrite !Hf.
  - apply cmp_antisym.
  - apply cmp_lt_trans.
  - apply cmp_eq_cong.
Qed.

Lemma cmp_leibniz_by_key `{!CmpLeibniz B} (f : A -> B) `{!Inj (=) (=) f} :
  (forall x y, cmp x y = cmp (f x) (f y)) -> CmpLeibniz A.
Proof. intros Hf x y. rewrite Hf. by intros ->%cmp_eq%(inj f). Qed.
End cmp_transfer.

#[export] Instance cmp_N_laws : CmpLaws N.
Proof.
  split; unfold cmp, cmp_N; intros x y.
  - apply N.compare_antisym.
  - intros z. rewrite !N.compare_lt_iff. lia.
  - by intros z ->%N.compare_eq_iff.
Qed.
#[export] Instance cmp_N_leibniz : CmpLeibniz N.
Proof. intros x y. by rewrite N.compare_eq_iff. Qed.

#[export] Instance cmp_nat_laws : CmpLaws nat.
Proof.
  split; unfold cmp, cmp_nat; intros x y.
  - apply Nat.compare_antisym.
  - intros z. rewrite !Nat.compare_lt_iff. lia.
  - by intros z ->%Nat.compare_eq_iff.
Qed.
#[export] Instance cmp_nat_leibniz : CmpLeibniz nat.
Proof. intros x y. by rewrite Nat.compare_eq_iff. Qed.

#[export] Instance cmp_bool_laws : CmpLaws bool.
Proof. split; by intros [] []; try intros []. Qed.
#[export] Instance cmp_bool_leibniz : CmpLeibniz bool.
Proof. by intros [] []. Qed.

Lemma thenc_eq c d : thenc c d = Eq <-> c = Eq /\ d = Eq.
Proof. destruct c; naive_solver. Qed.
Lemma thenc_lt c d : thenc c d = Lt <-> c = Lt \/ c = Eq /\ d = Lt.
Proof. destruct c; naive_solver. Qed.
Lemma thenc_opp c d : CompOpp (thenc c d) = thenc (CompOpp c) (CompOpp d).
Proof. by destruct c. Qed.

(** Lexicographic composition of two laws-abiding comparisons. *)
Lemma thenc_lt_trans {A} `{CmpLaws A} (x y z : A) (c d e : comparison) :
  (cmp x y = Eq -> cmp y z = Eq -> c = Lt -> d = Lt -> e = Lt) ->
  thenc (cmp x y) c = Lt -> thenc (cmp y z) d = Lt -> thenc (cmp x z) e = Lt.
Proof.
  intros Hcde [Hxy|[Hxy ->]]%thenc_lt [Hyz|[Hyz ->]]%thenc_lt; apply thenc_lt.
  - left. by eapply cmp_lt_trans.
  - left. by rewrite <-(cmp_eq_cong_r y z x).
  - left. by rewrite (cmp_eq_cong x y z).
  - right. rewrite (cmp_eq_cong x y z) by done. auto.
Qed.

Lemma cmp_pair {A B} `{Cmp A, Cmp B} (a a' : A) (b b' : B) :
  cmp (a, b) (a', b') = thenc (cmp a a') (cmp b b').
Proof. done. Qed.

#[export] Instance cmp_prod_laws {A B} `{CmpLaws A, CmpLaws B} : CmpLaws (A * B).
Proof.
  split; unfold cmp, cmp_prod; intros x y.
  - by rewrite thenc_opp, (cmp_antisym x.1), (cmp_antisym x.2).
  - intros z. apply thenc_lt_trans. intros _ _. apply cmp_lt_trans.
  - intros z [E1 E2]%thenc_eq.
    by rewrite (cmp_eq_cong _ _ _ E1), (cmp_eq_cong _ _ _ E2).
Qed.
#[export] Instance cmp_prod_leibniz {A B} `{CmpLeibniz A, CmpLeibniz B} :
  CmpLeibniz (A * B).
Proof. intros [] [] [?%cmp_eq ?%cmp_eq]%thenc_eq. simpl in *. by subst. Qed.

(** The laws of an ordering with one argument fixed: what an induction on that
    argument establishes for orderings of nested data. *)
Definition cmp_laws_at {A} `{Cmp A} (x : A) : Prop := forall y z,
  cmp y x = CompOpp (cmp x y) /\
  (cmp x y = Lt -> cmp y z = Lt -> cmp x z = Lt) /\
  (cmp x y = Eq -> cmp x z = cmp y z) /\
  (cmp y z = Eq -> cmp x y = cmp x z).

Lemma cmp_laws_from_at {A} `{Cmp A} : (forall x : A, cmp_laws_at x) -> CmpLaws A.
Proof. intros Hat. split; intros x y; [exact (proj1 (Hat x y y))|..]; intros z; by apply (Hat x y z). Qed.

Lemma cmp_laws_at_of_laws {A} `{CmpLaws A} (x : A) : cmp_laws_at x.
Proof.
  intros y z. split_and!.
  - apply cmp_antisym.
  - apply cmp_lt_trans.
  - apply cmp_eq_cong.
  - apply cmp_eq_cong_r.
Qed.

Lemma list_cmp_laws_at {A} `{Cmp A} (l : list A) :
  Forall cmp_laws_at l -> @cmp_laws_at _ cmp_list l.
Proof.
  unfold cmp_laws_at at 2, cmp at 1 2 3 4 5 6 7 8 9 10 11, cmp_list.
  induction 1 as [|x l Hx Hl IH]; intros k m; [destruct k, m; simpl; naive_solver|].
  split.
  { destruct k as [|y k]; simpl; [done|]. rewrite thenc_opp.
    by rewrite (proj1 (Hx y y)), (proj1 (IH k k)). }
  destruct k as [|y k], m as [|z m]; simpl; try done.
  destruct (Hx y z) as (_ & Htr & Hc & Hr), (IH k m) as (_ & IHtr & IHc & IHr).
  split_and!.
  - destruct (cmp x y) eqn:Exy, (cmp y z) eqn:Eyz; simpl; try done.
    + rewrite (Hc eq_refl). simpl. auto.
    + by rewrite (Hc eq_refl).
    + intros. by rewrite <-(Hr eq_refl).
    + by rewrite Htr.
  - intros [Exy El]%thenc_eq. by rewrite (Hc Exy), (IHc El).
  - intros [Eyz El]%thenc_eq. by rewrite (Hr Eyz), (IHr El).
Qed.

#[export] Instance cmp_list_laws {A} `{CmpLaws A} : CmpLaws (list A).
Proof.
  split; unfold cmp, cmp_list.
  - intros l. induction l as [|x l IH]; intros [|y k]; simpl; try done.
    by rewrite thenc_opp, (cmp_antisym x), IH.
  - intros l. induction l as [|x l IH]; intros [|y k] [|z m]; simpl; try done.
    apply thenc_lt_trans. intros _ _. apply IH.
  - intros l. induction l as [|x l IH]; intros [|y k] [|z m]; simpl; try done.
    intros [E1 E2]%thenc_eq. by rewrite (cmp_eq_cong _ _ _ E1), (IH k).
Qed.
#[export] Instance cmp_list_leibniz {A} `{CmpLeibniz A} : CmpLeibniz (list A).
Proof.
  intros l. unfold cmp, cmp_list.
  induction l as [|x l IH]; intros [|y k]; simpl; try done.
  intros [->%cmp_eq ->%IH]%thenc_eq. done.
Qed.

#[export] Instance cmp_option_laws {A} `{CmpLaws A} : CmpLaws (option A).
Proof.
  split; intros [x|] [y|]; try intros [z|]; unfold cmp, cmp_option; simpl; try done.
  - apply cmp_antisym.
  - apply cmp_lt_trans.
  - apply cmp_eq_cong.
Qed.

#[export] Instance cmp_option_leibniz {A} `{CmpLeibniz A} : CmpLeibniz (option A).
Proof. intros [x|] [y|]; unfold cmp, cmp_option; try done. by intros ->%cmp_eq. Qed.

(** ** Lists *)

(** [Iterator::rposition]: the last index whose element satisfies [p]. *)
Fixpoint rposition {A} (p : A -> bool) (l : list A) : option nat :=
  match l with
  | [] => None
  | x :: l =>
      match rposition p l with
      | Some i => Some (S i)
      | None => if p x then Some 0 else None
      end
  end.

(** [Iterator::position]: the first index whose element satisfies [p]. *)
Fixpoint position {A} (p : A -> bool) (l : list A) : option nat :=
  match l with
  | [] => None
  | x :: l => if p x then Some 0 else S <$> position p l
  end.

Lemma rposition_Some {A} (p : A -> bool) l i :
  rposition p l = Some i ->
  exists x, l !! i = Some x /\ p x = true /\
            forallb (fun y => negb (p y)) (drop (S i) l) = true.
Proof.
  revert i. induction l as [|y l IH]; intros i; simpl; [done|].
  destruct (rposition p l) as [j|] eqn:E; intros; simplify_eq/=; [by apply IH|].
  destruct (p y) eqn:Hy; simplify_eq/=. exists y. split_and!; try done.
  rewrite drop_0. clear IH. induction l as [|z l IH]; simpl in *; [done|].
  destruct (rposition p l); [done|]. destruct (p z); [done|]. by apply IH.
Qed.

Lemma rposition_None {A} (p : A -> bool) l :
  rposition p l = None <-> forallb (fun y => negb (p y)) l = true.
Proof.
  induction l as [|y l IH]; simpl; [done|]. rewrite andb_true_iff, <-IH.
  destruct (rposition p l), (p y); naive_solver.
Qed.

Lemma position_Some {A} (p : A -> bool) l i :
  position p l = Some i ->
  exists x, l !! i = Some x /\ p x = true /\
            forallb (fun y => negb (p y)) (take i l) = true.
Proof.
  revert i. induction l as [|y l IH]; intros i; simpl; [done|].
  destruct (p y) eqn:Hy; intros; simplify_eq/=; [by exists y|].
  destruct (position p l) as [j|]; simplify_eq/=.
  destruct (IH j) as (x & ? & ? & ?); [done|]. exists x. by rewrite Hy.
Qed.

Lemma position_None {A} (p : A -> bool) l :
  position p l = None <-> forallb (fun y => negb (p y)) l = true.
Proof.
  induction l as [|y l IH]; simpl; [done|].
  destruct (p y) eqn:Hy; simpl; [done|]. rewrite <-IH. by destruct (position p l).
Qed.

(** ** Equality of sequences *)

(** [PartialEq for Vec], over the elements' [PartialEq]. *)
Fixpoint list_eqb {A} (eqb : A -> A -> bool) (l k : list A) : bool :=
  match l, k with
  | [], [] => true
  | x :: l, y :: k => eqb x y && list_eqb eqb l k
  | _, _ => false
  end.
Lemma list_eqb_refl {A} (eqb : A -> A -> bool) l : (forall x, eqb x x = true) -> list_eqb eqb l l = true.
Proof. intros Hx. induction l as [|x l IH]; simpl; [done|]. by rewrite Hx, IH. Qed.
