(* ===== verification/Strings.v ===== *)
(** * Strings, characters and decimal integers

    What the source uses of [str], [char] and integer formatting/parsing from
    the Rust standard library, on strings as lists of Unicode scalar values. *)

From S2P Require Import Prelude.

(** ** Characters *)

(** The number of bytes of a character's UTF-8 encoding ([char::len_utf8]). *)
Definition len_utf8 (c : char) : N :=
  if (c <? 128)%N then 1 else if (c <? 2048)%N then 2
  else if (c <? 65536)%N then 3 else 4.

Definition is_ascii_digit (c : char) : bool := ((48 <=? c) && (c <=? 57))%N.
Definition is_ascii_lowercase (c : char) : bool := ((97 <=? c) && (c <=? 122))%N.
Definition is_ascii_uppercase (c : char) : bool := ((65 <=? c) && (c <=? 90))%N.
Definition is_ascii_alphabetic (c : char) : bool :=
  is_ascii_lowercase c || is_ascii_uppercase c.
Definition is_ascii_alphanumeric (c : char) : bool :=
  is_ascii_alphabetic c || is_ascii_digit c.

(** The characters the source compares with. *)
Abbreviation c_plus := 43%N.
Abbreviation c_comma := 44%N.
Abbreviation c_hyphen := 45%N.
Abbreviation c_dot := 46%N.
Abbreviation c_slash := 47%N.
Abbreviation c_colon := 58%N.
Abbreviation c_underscore := 95%N.
Abbreviation c_tilde := 126%N.

(** ** Strings *)

(** [str::len]: the length in bytes. *)
Definition str_len (s : rstr) : N := foldr (fun c n => len_utf8 c + n)%N 0%N s.

(** [str::is_empty]. *)
Definition str_is_empty (s : rstr) : bool :=
  match s with [] => true | _ => false end.

(** [str::contains] on a character pattern. *)
Definition str_contains (c : char) (s : rstr) : bool := existsb (N.eqb c) s.

(** [str::starts_with] and [str::contains] with a string pattern. *)
Fixpoint str_starts_with (pat s : rstr) : bool :=
  match pat, s with
  | [], _ => true
  | p :: pat, c :: s => (p =? c)%N && str_starts_with pat s
  | _ :: _, [] => false
  end.
Fixpoint str_contains_str (pat s : rstr) : bool :=
  str_starts_with pat s || match s with [] => false | _ :: s => str_contains_str pat s end.

(** The suffix [&s[n..]] by byte offset: [None] when [n] is not on a character
    boundary or is out of range (the expression panics). *)
Fixpoint slice_from (s : rstr) (n : N) : option rstr :=
  if (n =? 0)%N then Some s else
  match s with
  | [] => None
  | c :: s => if (n <? len_utf8 c)%N then None else slice_from s (n - len_utf8 c)
  end.

(** The prefix [&s[..n]] by byte offset. *)
Fixpoint slice_to (s : rstr) (n : N) : option rstr :=
  if (n =? 0)%N then Some [] else
  match s with
  | [] => None
  | c :: s =>
      if (n <? len_utf8 c)%N then None
      else cons c <$> slice_to s (n - len_utf8 c)
  end.

(** [str::split] on a one-character separator. *)
Fixpoint split (sep : char) (s : rstr) : list rstr :=
  match s with
  | [] => [[]]
  | c :: s =>
      if (c =? sep)%N then [] :: split sep s
      else match split sep s with
           | w :: ws => (c :: w) :: ws
           | [] => [[c]]
           end
  end.

(** [str::split_once]: around the first separator. *)
Fixpoint split_once (sep : char) (s : rstr) : option (rstr * rstr) :=
  match s with
  | [] => None
  | c :: s =>
      if (c =? sep)%N then Some ([], s)
      else prod_map (cons c) id <$> split_once sep s
  end.

(** [str::rsplit_once]: around the last separator. *)
Fixpoint rsplit_once (sep : char) (s : rstr) : option (rstr * rstr) :=
  match s with
  | [] => None
  | c :: s =>
      match rsplit_once sep s with
      | Some (a, b) => Some (c :: a, b)
      | None => if (c =? sep)%N then Some ([], s) else None
      end
  end.

(** [[String]::join]. *)
Fixpoint join (sep : rstr) (ws : list rstr) : rstr :=
  match ws with
  | [] => []
  | [w] => w
  | w :: ws => w ++ sep ++ join sep ws
  end.

(** [str::trim_end_matches] on a character. *)
Fixpoint trim_end_matches (c : char) (s : rstr) : rstr :=
  match s with
  | [] => []
  | x :: s =>
      match trim_end_matches c s with
      | [] => if (x =? c)%N then [] else [x]
      | t => x :: t
      end
  end.

(** ** Decimal integers *)

(** [u32::to_string] and [u64::to_string].  [fuel] bounds the digits. *)
Fixpoint dec_aux (fuel : nat) (n : N) (acc : rstr) : rstr :=
  match fuel with
  | O => acc
  | S fuel =>
      let acc := (48 + n mod 10)%N :: acc in
      if (n / 10 =? 0)%N then acc else dec_aux fuel (n / 10) acc
  end.
Definition dec (n : N) : rstr := dec_aux (S (N.to_nat (N.size n))) n [].

(** The digit loop of [from_str_radix(_, 10)], with its overflow checks. *)
Fixpoint parse_digits (max acc : N) (s : rstr) : option N :=
  match s with
  | [] => Some acc
  | c :: s =>
      if is_ascii_digit c then
        let acc := (acc * 10 + (c - 48))%N in
        if (acc <=? max)%N then parse_digits max acc s else None
      else None
  end.

(** [str::parse] to an unsigned integer with maximum [max]: a leading ['+'] is
    accepted, the empty string and a lone sign are not. *)
Definition parse_uint (max : N) (s : rstr) : option N :=
  match s with
  | [] => None
  | [c] => parse_digits max 0 [c]
  | c :: s' => if (c =? c_plus)%N then parse_digits max 0 s' else parse_digits max 0 s
  end.
Definition parse_u32 := parse_uint u32_max.
Definition parse_u64 := parse_uint u64_max.

(** ** Facts *)

Lemma split_nonempty sep s : split sep s <> [].
Proof. destruct s as [|c s]; simpl; [done|]. by repeat case_match. Qed.

Lemma split_app_sep sep w s :
  str_contains sep w = false -> split sep (w ++ sep :: s) = w :: split sep s.
Proof.
  unfold str_contains. induction w as [|c w IH]; simpl.
  - by rewrite N.eqb_refl.
  - intros [Hc Hw]%orb_false_iff. rewrite N.eqb_sym, Hc. by rewrite IH.
Qed.

Lemma split_no_sep sep w : str_contains sep w = false -> split sep w = [w].
Proof.
  unfold str_contains. induction w as [|c w IH]; simpl; [done|].
  intros [Hc Hw]%orb_false_iff. rewrite N.eqb_sym, Hc. by rewrite IH.
Qed.

(** Splitting undoes joining when no word contains the separator. *)
Lemma split_join sep ws :
  ws <> [] -> Forall (fun w => str_contains sep w = false) ws ->
  split sep (join [sep] ws) = ws.
Proof.
  intros Hne Hall. induction Hall as [|w ws Hw Hall IH]; [done|].
  destruct ws as [|w' ws]; simpl.
  - by apply split_no_sep.
  - rewrite split_app_sep by done. f_equal. by apply IH.
Qed.

Lemma join_split sep s : join [sep] (split sep s) = s.
Proof.
  induction s as [|c s IH]; simpl; [done|].
  destruct (N.eqb_spec c sep) as [->|_].
  - destruct (split sep s) eqn:E; [by apply split_nonempty in E|]. simpl. by f_equal.
  - destruct (split sep s) as [|w ws]; simpl in *; [by subst|].
    destruct ws; simpl in *; by subst.
Qed.

Lemma split_once_None sep s : split_once sep s = None <-> str_contains sep s = false.
Proof.
  unfold str_contains. induction s as [|c s IH]; simpl; [done|].
  rewrite (N.eqb_sym sep c). destruct (c =? sep)%N; simpl; [done|].
  rewrite <-IH. by destruct (split_once sep s).
Qed.

Lemma split_once_app sep a b :
  str_contains sep a = false -> split_once sep (a ++ sep :: b) = Some (a, b).
Proof.
  unfold str_contains. induction a as [|c a IH]; simpl; [by rewrite N.eqb_refl|].
  intros [Hc Ha]%orb_false_iff. rewrite N.eqb_sym, Hc. by rewrite IH.
Qed.

Lemma split_once_Some sep s a b :
  split_once sep s = Some (a, b) -> s = a ++ sep :: b /\ str_contains sep a = false.
Proof.
  unfold str_contains. revert a. induction s as [|c s IH]; intros a; simpl; [done|].
  destruct (N.eqb_spec c sep) as [->|Hc]; [naive_solver|].
  destruct (split_once sep s) as [[a' b']|]; intros; simplify_eq/=.
  destruct (IH a') as [-> Ha]; [done|]. split; [done|].
  rewrite Ha, orb_false_r. apply N.eqb_neq. congruence.
Qed.

Lemma rsplit_once_None sep s : rsplit_once sep s = None <-> str_contains sep s = false.
Proof.
  unfold str_contains. induction s as [|c s IH]; simpl; [done|].
  rewrite (N.eqb_sym sep c). destruct (rsplit_once sep s) as [[]|].
  - destruct (c =? sep)%N; simpl; naive_solver.
  - destruct (c =? sep)%N; simpl; naive_solver.
Qed.

Lemma rsplit_once_app sep a b :
  str_contains sep b = false -> rsplit_once sep (a ++ sep :: b) = Some (a, b).
Proof.
  intros Hb. induction a as [|c a IH]; simpl.
  - apply rsplit_once_None in Hb as ->. by rewrite N.eqb_refl.
  - by rewrite IH.
Qed.

Lemma str_contains_app c s t :
  str_contains c (s ++ t) = str_contains c s || str_contains c t.
Proof. apply existsb_app. Qed.

(** A character class that excludes [c] keeps [c] out of the string. *)
Lemma str_contains_class (p : char -> bool) c s :
  forallb p s = true -> p c = false -> str_contains c s = false.
Proof.
  unfold str_contains. intros Hs Hc. induction s as [|x s IH]; simpl in *; [done|].
  apply andb_true_iff in Hs as [Hx Hs]. rewrite IH by done.
  rewrite orb_false_r. apply N.eqb_neq. congruence.
Qed.

(** On ASCII-only strings byte and character offsets coincide. *)
Lemma str_len_ascii s :
  forallb (fun c => c <? 128)%N s = true -> str_len s = N.of_nat (length s).
Proof.
  induction s as [|c s IH]; simpl; [done|].
  intros [Hc Hs]%andb_true_iff. rewrite IH by done. unfold len_utf8. rewrite Hc. lia.
Qed.

Lemma slice_to_app s t :
  forallb (fun c => c <? 128)%N s = true ->
  slice_to (s ++ t) (N.of_nat (length s)) = Some s.
Proof.
  induction s as [|c s IH]; [destruct t; simpl; done|].
  intros [Hc Hs]%andb_true_iff. cbn [app slice_to length].
  destruct (N.eqb_spec (N.of_nat (S (length s))) 0); [lia|].
  unfold len_utf8. rewrite Hc.
  destruct (N.ltb_spec (N.of_nat (S (length s))) 1); [lia|].
  replace (N.of_nat (S (length s)) - 1)%N with (N.of_nat (length s)) by lia.
  by rewrite IH.
Qed.

Lemma slice_from_app s c t :
  forallb (fun c => c <? 128)%N s = true ->
  slice_from (s ++ c :: t) (N.of_nat (length s) + 1) =
  if (c <? 128)%N then Some t else None.
Proof.
  induction s as [|x s IH].
  - intros _. simpl. unfold len_utf8. destruct (c <? 128)%N; simpl; [by destruct t|].
    by destruct (c <? 2048)%N, (c <? 65536)%N.
  - intros [Hx Hs]%andb_true_iff. cbn [app slice_from length].
    destruct (N.eqb_spec (N.of_nat (S (length s)) + 1) 0); [lia|].
    unfold len_utf8 at 1 2. rewrite Hx.
    destruct (N.ltb_spec (N.of_nat (S (length s)) + 1) 1); [lia|].
    replace (N.of_nat (S (length s)) + 1 - 1)%N with (N.of_nat (length s) + 1)%N by lia.
    by apply IH.
Qed.

(** *** Decimal round trip *)

Definition digits_value (a : N) (s : rstr) : N :=
  foldl (fun a c => a * 10 + (c - 48))%N a s.

Lemma dec_aux_S f n acc :
  dec_aux (S f) n acc =
  if (n / 10 =? 0)%N then (48 + n mod 10)%N :: acc
  else dec_aux f (n / 10) ((48 + n mod 10)%N :: acc).
Proof. done. Qed.

Lemma dec_aux_value f n acc :
  (n < 10 ^ N.of_nat (S f))%N ->
  digits_value 0 (dec_aux (S f) n acc) = digits_value n acc.
Proof.
  unfold digits_value. revert n acc. induction f as [|f IH]; intros n acc Hn.
  - simpl. change (10 ^ N.of_nat 1)%N with 10%N in Hn. rewrite N.div_small by done.
    simpl. rewrite N.mod_small by done. f_equal. lia.
  - rewrite dec_aux_S.
    destruct (N.eqb_spec (n / 10) 0) as [E|E].
    + simpl. apply N.div_small_iff in E; [|lia]. rewrite N.mod_small by done. f_equal. lia.
    + rewrite IH.
      * cbn [foldl]. f_equal. rewrite (N.add_comm 48), N.add_sub.
        pose proof (N.div_mod n 10 ltac:(done)). lia.
      * apply N.Div0.div_lt_upper_bound. rewrite Nat2N.inj_succ, N.pow_succ_r' in Hn. lia.
Qed.

Lemma dec_aux_digits f n acc :
  forallb is_ascii_digit acc = true -> forallb is_ascii_digit (dec_aux f n acc) = true.
Proof.
  revert n acc. induction f as [|f IH]; intros n acc Hacc; simpl; [done|].
  assert (is_ascii_digit (48 + n mod 10) = true) as Hd.
  { unfold is_ascii_digit. pose proof (N.mod_lt n 10 ltac:(done)) as Hm.
    revert Hm. generalize (n mod 10)%N. intros m Hm.
    apply andb_true_iff. rewrite !N.leb_le. lia. }
  destruct (_ =? 0)%N; simpl; [by rewrite Hd|]. apply IH. simpl. by rewrite Hd.
Qed.

Lemma dec_aux_nonempty f n acc : dec_aux (S f) n acc <> [].
Proof.
  revert n acc. induction f as [|f IH]; intros n acc; [simpl; by case_match|].
  rewrite dec_aux_S. by case_match.
Qed.

Lemma dec_digits n : forallb is_ascii_digit (dec n) = true.
Proof. by apply dec_aux_digits. Qed.

Lemma dec_nonempty n : dec n <> [].
Proof. apply dec_aux_nonempty. Qed.

Lemma dec_value n : digits_value 0 (dec n) = n.
Proof.
  unfold dec. rewrite dec_aux_value; [done|].
  apply N.lt_le_trans with (2 ^ N.size n)%N; [apply N.size_gt|].
  rewrite Nat2N.inj_succ, N2Nat.id, N.pow_succ_r'.
  assert (2 ^ N.size n <= 10 ^ N.size n)%N by (apply N.pow_le_mono_l; lia). lia.
Qed.

Lemma digits_value_ge a s : (a <= digits_value a s)%N.
Proof.
  unfold digits_value. revert a. induction s as [|c s IH]; intros a; simpl; [done|].
  specialize (IH (a * 10 + (c - 48))%N). lia.
Qed.

Lemma parse_digits_value max a s :
  forallb is_ascii_digit s = true -> (digits_value a s <= max)%N ->
  parse_digits max a s = Some (digits_value a s).
Proof.
  unfold digits_value. revert a. induction s as [|c s IH]; intros a; simpl; [done|].
  intros [Hc Hs]%andb_true_iff Hv. rewrite Hc.
  pose proof (digits_value_ge (a * 10 + (c - 48)) s) as Hge. unfold digits_value in Hge.
  rewrite (proj2 (N.leb_le _ _)) by lia. by apply IH.
Qed.

Lemma parse_uint_digits max s :
  s <> [] -> forallb is_ascii_digit s = true ->
  parse_uint max s = parse_digits max 0 s.
Proof.
  destruct s as [|c [|c' s]]; [done|done|]. intros _ [Hc _]%andb_true_iff.
  unfold parse_uint. destruct (N.eqb_spec c c_plus) as [->|]; done.
Qed.

(** Printing an integer that fits and parsing it back is the identity. *)
Lemma parse_uint_dec max n : (n <= max)%N -> parse_uint max (dec n) = Some n.
Proof.
  intros Hn. rewrite parse_uint_digits by auto using dec_nonempty, dec_digits.
  rewrite parse_digits_value, dec_value; [done|apply dec_digits|by rewrite dec_value].
Qed.

Lemma parse_digits_le max a s n :
  (a <= max)%N -> parse_digits max a s = Some n -> (n <= max)%N.
Proof.
  revert a. induction s as [|c s IH]; intros a Ha; simpl; [naive_solver|].
  destruct (is_ascii_digit c); [|done].
  destruct (N.leb_spec (a * 10 + (c - 48)) max); [by apply IH|done].
Qed.

Lemma parse_uint_le max s n : parse_uint max s = Some n -> (n <= max)%N.
Proof.
  destruct s as [|c [|c' s]]; [done| |]; unfold parse_uint.
  - apply parse_digits_le. lia.
  - case_match; apply parse_digits_le; lia.
Qed.

Lemma dec_inj m n : dec m = dec n -> m = n.
Proof. intros E. by rewrite <-(dec_value m), E, dec_value. Qed.

#[export] Hint Resolve dec_nonempty dec_digits : spk.
