(* ===== verification/Collections.v ===== *)
(** * Ordered collections of the standard library

    [BTreeMap] and [BTreeSet] as lists sorted by the key ordering (what their
    iterators yield), and slice sorting.  The operations follow the documented
    behaviour of the Rust collections on keys that compare equal: [insert]
    keeps the stored key, collecting from an iterator keeps the last one. *)

From S2P Require Import Prelude.

Section bmap.
Context {K V : Type} `{!Cmp K}.
Implicit Types (k : K) (v : V) (m : list (K * V)).

(** [BTreeMap::get]. *)
Fixpoint bmap_get k m : option V :=
  match m with
  | [] => None
  | (k', v') :: m => match cmp k k' with Eq => Some v' | _ => bmap_get k m end
  end.

(** [BTreeMap::contains_key]. *)
Definition bmap_contains_key k m : bool :=
  match bmap_get k m with Some _ => true | None => false end.

(** [BTreeMap::insert]. *)
Fixpoint bmap_insert k v m : list (K * V) :=
  match m with
  | [] => [(k, v)]
  | (k', v') :: m' =>
      match cmp k k' with
      | Lt => (k, v) :: m
      | Eq => (k', v) :: m'
      | Gt => (k', v') :: bmap_insert k v m'
      end
  end.

(** [BTreeMap::remove], the map afterwards. *)
Definition bmap_remove k m : list (K * V) :=
  List.filter (fun e => match cmp k e.1 with Eq => false | _ => true end) m.

(** [Extend for BTreeMap], also what [append] does. *)
Definition bmap_extend m l : list (K * V) := foldl (fun m e => bmap_insert e.1 e.2 m) m l.

(** [FromIterator for BTreeMap]: of equal keys the last value is kept. *)
Definition bmap_collect l : list (K * V) := bmap_extend [] l.

(** The invariant of a [BTreeMap]: keys strictly ascending. *)
Definition bmap_wf m : Prop := StronglySorted (fun a b => clt a.1 b.1) m.
End bmap.

Section bset.
Context {K : Type} `{!Cmp K}.
Implicit Types (x : K) (s l : list K).

(** [BTreeSet::contains]. *)
Definition bset_contains x s : bool :=
  existsb (fun y => match cmp x y with Eq => true | _ => false end) s.

(** [BTreeSet::insert]: an equal element already present is kept. *)
Fixpoint bset_insert x s : list K :=
  match s with
  | [] => [x]
  | y :: s' =>
      match cmp x y with
      | Lt => x :: s
      | Eq => s
      | Gt => y :: bset_insert x s'
      end
  end.

(** [BTreeSet::replace]: an equal element already present is replaced. *)
Fixpoint bset_replace x s : list K :=
  match s with
  | [] => [x]
  | y :: s' =>
      match cmp x y with
      | Lt => x :: s
      | Eq => x :: s'
      | Gt => y :: bset_replace x s'
      end
  end.

(** [Extend for BTreeSet]. *)
Definition bset_extend s l : list K := foldl (fun s x => bset_insert x s) s l.

(** [FromIterator for BTreeSet]: a stable sort, then of equal elements the
    last one is kept. *)
Definition bset_collect l : list K := foldl (fun s x => bset_replace x s) [] l.

(** [BTreeSet::remove], the set afterwards. *)
Definition bset_remove x s : list K :=
  List.filter (fun y => match cmp x y with Eq => false | _ => true end) s.

(** [Sub for &BTreeSet] and [BTreeSet::difference]: the elements of the first set not in the second. *)
Definition bset_sub s l : list K := List.filter (fun x => negb (bset_contains x l)) s.

(** The invariant of a [BTreeSet]: strictly ascending. *)
Definition bset_wf s : Prop := StronglySorted clt s.
End bset.

Section sort.
Context {A : Type} `{!Cmp A}.

(** Slice sorting, as a stable insertion sort. *)
Fixpoint sort_insert (x : A) (l : list A) : list A :=
  match l with
  | [] => [x]
  | y :: l' => match cmp x y with Gt => y :: sort_insert x l' | _ => x :: l end
  end.
Definition sort_slice (l : list A) : list A := foldr sort_insert [] l.
End sort.

(** ** Maps *)

Section bmap_facts.
Context {K V : Type} `{CmpLaws K}.
Implicit Types (k : K) (v : V) (m : list (K * V)).

Lemma bmap_insert_Forall (P : K * V -> Prop) k v m :
  (forall k', cmp k k' = Eq -> P (k', v)) -> Forall P m -> Forall P (bmap_insert k v m).
Proof.
  intros Hk Hm. induction Hm as [|[k' v'] m Hx Hm IH]; simpl.
  - constructor; [apply Hk, cmp_refl|done].
  - destruct (cmp k k') eqn:E; repeat constructor; auto. apply Hk, cmp_refl.
Qed.

Lemma bmap_insert_wf k v m : bmap_wf m -> bmap_wf (bmap_insert k v m).
Proof.
  unfold bmap_wf. induction 1 as [|[k' v'] m Hm IH Hall]; simpl.
  - by repeat constructor.
  - destruct (cmp k k') eqn:E; constructor; auto.
    + by constructor.
    + constructor; [done|]. eapply Forall_impl; [exact Hall|].
      intros [k'' v'']; simpl. apply cmp_lt_trans, E.
    + apply bmap_insert_Forall; [|done]. intros k'' E'. simpl.
      apply cmp_gt_lt in E. unfold clt. by rewrite <-(cmp_eq_cong_r k k'' k').
Qed.

Lemma bmap_get_Forall k m :
  Forall (fun p => clt k p.1) m -> bmap_get k m = None.
Proof. induction 1 as [|[k' v'] m Hx Hm IH]; simpl in *; [done|]. by rewrite Hx. Qed.

Lemma bmap_get_insert k k' v m :
  bmap_wf m ->
  bmap_get k (bmap_insert k' v m) =
  match cmp k k' with Eq => Some v | _ => bmap_get k m end.
Proof.
  unfold bmap_wf. induction 1 as [|[k1 v1] m Hm IH Hall]; simpl; [done|].
  destruct (cmp k' k1) eqn:E; simpl.
  - rewrite (cmp_eq_cong_r _ _ k E). by destruct (cmp k k1).
  - by destruct (cmp k k').
  - rewrite IH. destruct (cmp k k') eqn:E'; [|by destruct (cmp k k1)..].
    by rewrite (cmp_eq_cong _ _ k1 E'), E.
Qed.

Lemma bmap_get_elem_of k v m : bmap_get k m = Some v -> exists k', (k', v) ∈ m /\ cmp k k' = Eq.
Proof.
  induction m as [|[k' v'] m IH]; simpl; [done|].
  destruct (cmp k k') eqn:E; intros Hg; simplify_eq.
  - exists k'. by split; [left|].
  - destruct (IH Hg) as (k2 & ? & ?). exists k2. by split; [right|].
  - destruct (IH Hg) as (k2 & ? & ?). exists k2. by split; [right|].
Qed.

Lemma bmap_wf_get k v m : bmap_wf m -> (k, v) ∈ m -> bmap_get k m = Some v.
Proof.
  unfold bmap_wf. induction 1 as [|[k' v'] m Hm IH Hall]; intros Hin; [by inversion Hin|].
  apply elem_of_cons in Hin as [[= -> ->]|Hin]; simpl.
  - by rewrite cmp_refl.
  - rewrite Forall_forall in Hall. specialize (Hall _ Hin). simpl in Hall.
    apply cmp_gt_lt in Hall. rewrite Hall. by apply IH.
Qed.

Lemma bmap_insert_not_nil k v m : bmap_insert k v m <> [].
Proof. destruct m as [|[k' v'] m]; simpl; [done|]. by destruct (cmp k k'). Qed.

(** Appending a key above all others is insertion. *)
Lemma bmap_insert_last k v m :
  Forall (fun p => clt p.1 k) m -> bmap_insert k v m = m ++ [(k, v)].
Proof.
  induction 1 as [|[k' v'] m Hx Hm IH]; simpl in *; [done|].
  apply cmp_gt_lt in Hx. rewrite Hx. by rewrite IH.
Qed.
End bmap_facts.

(** Two maps with the same lookups are equal when [cmp] decides equality. *)
Lemma bmap_ext {K V} `{CmpLaws K, !CmpLeibniz K} (m1 m2 : list (K * V)) :
  bmap_wf m1 -> bmap_wf m2 -> (forall k, bmap_get k m1 = bmap_get k m2) -> m1 = m2.
Proof.
  intros Hm1. revert m2. induction Hm1 as [|[k1 v1] m1 Hm1 IH Hall1]; intros m2 Hm2 Hget.
  - destruct m2 as [|[k2 v2] m2]; [done|]. specialize (Hget k2). simpl in Hget.
    by rewrite cmp_refl in Hget.
  - destruct Hm2 as [|[k2 v2] m2 Hm2 Hall2].
    { specialize (Hget k1). simpl in Hget. by rewrite cmp_refl in Hget. }
    assert (k1 = k2) as <-.
    { apply cmp_eq. destruct (cmp k1 k2) eqn:E; [done| |].
      - specialize (Hget k1). simpl in Hget. rewrite cmp_refl, E in Hget.
        rewrite bmap_get_Forall in Hget; [done|]. eapply Forall_impl; [exact Hall2|].
        intros ? ?. by eapply cmp_lt_trans.
      - specialize (Hget k2). simpl in Hget. rewrite cmp_refl in Hget.
        apply cmp_gt_lt in E. rewrite E in Hget.
        rewrite bmap_get_Forall in Hget; [done|]. eapply Forall_impl; [exact Hall1|].
        intros ? ?. by eapply cmp_lt_trans. }
    assert (v1 = v2) as <-.
    { specialize (Hget k1). simpl in Hget. rewrite cmp_refl in Hget. congruence. }
    f_equal. apply IH; [done|]. intros k. specialize (Hget k). simpl in Hget.
    destruct (cmp k k1) eqn:E; [|done..]. apply cmp_eq in E as ->.
    by rewrite !bmap_get_Forall.
Qed.

(** ** Sets *)

Section bset_facts.
Context {K : Type} `{CmpLaws K}.
Implicit Types (x y : K) (s l : list K).

Lemma bset_insert_elem x y s : y ∈ bset_insert x s -> y = x \/ y ∈ s.
Proof.
  induction s as [|z s IH]; simpl; [set_solver|].
  destruct (cmp x z); set_solver.
Qed.

Lemma bset_insert_mono x y s : y ∈ s -> y ∈ bset_insert x s.
Proof.
  induction s as [|z s IH]; simpl; [set_solver|].
  destruct (cmp x z); set_solver.
Qed.

(** After [insert x] the set holds an element equal to [x]. *)
Lemma bset_insert_has x s : exists y, y ∈ bset_insert x s /\ cmp x y = Eq.
Proof.
  induction s as [|z s IH]; simpl.
  - exists x. split; [set_solver|apply cmp_refl].
  - destruct (cmp x z) eqn:E.
    + exists z. set_solver.
    + exists x. split; [set_solver|apply cmp_refl].
    + destruct IH as (y & ? & ?). exists y. set_solver.
Qed.

Lemma bset_extend_elem y s l : y ∈ bset_extend s l -> y ∈ s \/ y ∈ l.
Proof.
  unfold bset_extend. revert s. induction l as [|x l IH]; intros s; simpl; [by left|].
  intros [Hy|Hy]%IH; [|set_solver]. apply bset_insert_elem in Hy. set_solver.
Qed.

Lemma bset_extend_mono y s l : y ∈ s -> y ∈ bset_extend s l.
Proof.
  unfold bset_extend. revert s. induction l as [|x l IH]; intros s Hy; simpl; [done|].
  by apply IH, bset_insert_mono.
Qed.

Lemma bset_extend_has x s l : x ∈ l -> exists y, y ∈ bset_extend s l /\ cmp x y = Eq.
Proof.
  intros Hx. revert s. induction Hx as [x l|x z l Hx IH]; intros s; simpl.
  - destruct (bset_insert_has x s) as (y & Hy & E). exists y.
    split; [by apply bset_extend_mono|done].
  - apply IH.
Qed.

Lemma bset_replace_elem x y s : y ∈ bset_replace x s -> y = x \/ y ∈ s.
Proof.
  induction s as [|z s IH]; simpl; [set_solver|].
  destruct (cmp x z); set_solver.
Qed.

Lemma bset_replace_has x y s :
  y = x \/ y ∈ s -> exists z, z ∈ bset_replace x s /\ cmp y z = Eq.
Proof.
  induction s as [|w s IH]; simpl.
  - intros [->|Hy]; [|set_solver]. exists x. split; [set_solver|apply cmp_refl].
  - destruct (cmp x w) eqn:E; intros Hy.
    + assert (y = x \/ y = w \/ y ∈ s) as [->|[->|Hs]] by set_solver.
      * exists x. split; [set_solver|apply cmp_refl].
      * exists x. split; [set_solver|]. by apply cmp_eq_sym.
      * exists y. split; [set_solver|apply cmp_refl].
    + exists y. split; [set_solver|apply cmp_refl].
    + assert (y = w \/ y = x \/ y ∈ s) as [->|Hs] by set_solver.
      * exists w. split; [set_solver|apply cmp_refl].
      * destruct (IH Hs) as (z & ? & ?). exists z. set_solver.
Qed.

Lemma bset_contains_elem x s :
  bset_contains x s = true <-> exists y, y ∈ s /\ cmp x y = Eq.
Proof.
  unfold bset_contains. rewrite existsb_exists. split.
  - intros (y & Hy%list_elem_of_In & E). exists y. by destruct (cmp x y).
  - intros (y & Hy%list_elem_of_In & E). exists y. by rewrite E.
Qed.

(** [collect] only ever holds elements of the iterator, and one equal to each. *)
Lemma bset_collect_elem y l : y ∈ bset_collect l -> y ∈ l.
Proof.
  unfold bset_collect. enough (forall s, y ∈ foldl (fun s x => bset_replace x s) s l ->
    y ∈ s \/ y ∈ l) as Hs by (intros Hy; apply Hs in Hy; set_solver).
  induction l as [|x l IH]; intros s; simpl; [by left|].
  intros [Hy|Hy]%IH; [apply bset_replace_elem in Hy|]; set_solver.
Qed.

Lemma bset_collect_has x l : x ∈ l -> exists y, y ∈ bset_collect l /\ cmp x y = Eq.
Proof.
  unfold bset_collect. enough (forall s x, x ∈ s \/ x ∈ l ->
    exists y, y ∈ foldl (fun s x => bset_replace x s) s l /\ cmp x y = Eq) as Hs
    by (intros Hx; apply Hs; by right).
  clear x. induction l as [|z l IH]; intros s x Hx; simpl.
  - exists x. split; [set_solver|apply cmp_refl].
  - assert ((x = z \/ x ∈ s) \/ x ∈ l) as [Hx'|Hx'] by set_solver.
    + apply bset_replace_has in Hx' as (w & Hw & E).
      destruct (IH (bset_replace z s) w) as (y & Hy & E'); [by left|].
      exists y. split; [done|]. by rewrite (cmp_eq_cong _ _ _ E).
    + apply IH. by right.
Qed.

Lemma bset_wf_insert x s : bset_wf s -> bset_wf (bset_insert x s).
Proof.
  unfold bset_wf. induction 1 as [|y s Hs IH Hall]; simpl.
  - by repeat constructor.
  - destruct (cmp x y) eqn:E; constructor; auto.
    + by constructor.
    + constructor; [done|]. eapply Forall_impl; [exact Hall|].
      intros z. apply cmp_lt_trans, E.
    + rewrite Forall_forall in *. intros z [->|Hz]%bset_insert_elem; [|auto].
      by apply cmp_gt_lt.
Qed.

Lemma bset_wf_extend s l : bset_wf s -> bset_wf (bset_extend s l).
Proof.
  unfold bset_extend. revert s. induction l as [|x l IH]; intros s Hs; simpl; [done|].
  by apply IH, bset_wf_insert.
Qed.
End bset_facts.

(** ** Sorting *)

(** Sorting is stable: elements that all compare equal keep their order. *)
Section sort_stable.
Context {A : Type} `{!Cmp A} (p : A -> bool).
Context (Hp : forall x y, p x = true -> p y = true -> cmp x y = Eq).

Lemma sort_insert_filter x l : List.filter p (sort_insert x l) = List.filter p (x :: l).
Proof.
  induction l as [|y l IH]; [done|]. cbn [sort_insert]. destruct (cmp x y) eqn:E; [done..|].
  change (List.filter p (y :: sort_insert x l)) with
    (if p y then y :: List.filter p (sort_insert x l) else List.filter p (sort_insert x l)).
  rewrite IH. cbn [List.filter]. destruct (p x) eqn:Ex, (p y) eqn:Ey; try done.
  by rewrite Hp in E.
Qed.
Lemma sort_slice_filter l : List.filter p (sort_slice l) = List.filter p l.
Proof.
  induction l as [|x l IH]; [done|]. cbn [sort_slice foldr]. rewrite sort_insert_filter.
  cbn [List.filter]. fold (sort_slice l). by rewrite IH.
Qed.
End sort_stable.

Section sort_facts.
Context {A : Type} `{CmpLaws A}.
Implicit Types (x : A) (l : list A).

Lemma sort_insert_perm x l : sort_insert x l ≡ₚ x :: l.
Proof.
  induction l as [|y l IH]; simpl; [done|]. destruct (cmp x y); [done..|].
  rewrite IH. constructor.
Qed.

Lemma sort_slice_perm l : sort_slice l ≡ₚ l.
Proof. induction l as [|x l IH]; simpl; [done|]. by rewrite sort_insert_perm, IH. Qed.

Lemma sort_insert_sorted x l : StronglySorted cle l -> StronglySorted cle (sort_insert x l).
Proof.
  induction 1 as [|y l Hl IH Hall]; simpl; [by repeat constructor|].
  destruct (cmp x y) eqn:E.
  3: { constructor; [done|]. rewrite Forall_forall in *. intros z.
       rewrite sort_insert_perm, elem_of_cons. intros [->|Hz]; [|auto].
       apply cmp_gt_lt in E. by apply clt_cle. }
  all: constructor; [by constructor|]; constructor; [unfold cle; congruence|];
    (eapply Forall_impl; [exact Hall|]); intros z; apply cle_trans; unfold cle; congruence.
Qed.

Lemma sort_slice_sorted l : StronglySorted cle (sort_slice l).
Proof. induction l; simpl; [constructor|]. by apply sort_insert_sorted. Qed.

(** Sorting a sorted slice changes nothing. *)
Lemma sort_slice_id l : StronglySorted cle l -> sort_slice l = l.
Proof.
  induction 1 as [|x l Hl IH Hall]; simpl; [done|]. rewrite IH.
  destruct Hall as [|y l Hxy]; simpl; [done|]. unfold cle in Hxy. by destruct (cmp x y).
Qed.
End sort_facts.

(** ** Sets and maps whose ordering decides equality *)

Section leibniz_facts.
Context {K V : Type} `{CmpLaws K, !CmpLeibniz K}.
Implicit Types (x y k : K) (s l : list K) (v : V) (m : list (K * V)).

Lemma cmp_eq_iff x y : cmp x y = Eq <-> x = y.
Proof. split; [apply cmp_eq|]. intros ->. apply cmp_refl. Qed.

Lemma bset_contains_iff x s : bset_contains x s = true <-> x ∈ s.
Proof.
  rewrite bset_contains_elem. setoid_rewrite cmp_eq_iff. naive_solver.
Qed.
Lemma bset_contains_false x s : bset_contains x s = false <-> x ∉ s.
Proof. rewrite <-bset_contains_iff. by destruct (bset_contains x s). Qed.

Lemma elem_of_bset_insert x y s : y ∈ bset_insert x s <-> y = x \/ y ∈ s.
Proof.
  split; [apply bset_insert_elem|]. intros [->|?]; [|by apply bset_insert_mono].
  destruct (bset_insert_has x s) as (z & Hz & ->%cmp_eq). done.
Qed.
Lemma elem_of_bset_extend y s l : y ∈ bset_extend s l <-> y ∈ s \/ y ∈ l.
Proof.
  split; [apply bset_extend_elem|]. intros [?|Hl]; [by apply bset_extend_mono|].
  destruct (bset_extend_has y s l Hl) as (z & Hz & ->%cmp_eq). done.
Qed.
Lemma elem_of_bset_collect y l : y ∈ bset_collect l <-> y ∈ l.
Proof.
  split; [apply bset_collect_elem|]. intros Hl.
  destruct (bset_collect_has y l Hl) as (z & Hz & ->%cmp_eq). done.
Qed.
Lemma elem_of_bset_remove x y s : y ∈ bset_remove x s <-> y <> x /\ y ∈ s.
Proof.
  unfold bset_remove. rewrite list_elem_of_In, filter_In, <-list_elem_of_In.
  pose proof (cmp_eq_iff x y). destruct (cmp x y); naive_solver.
Qed.
Lemma elem_of_bset_sub y s l : y ∈ bset_sub s l <-> y ∈ s /\ y ∉ l.
Proof.
  unfold bset_sub. rewrite list_elem_of_In, filter_In, <-list_elem_of_In, negb_true_iff.
  by rewrite bset_contains_false.
Qed.

Lemma bset_replace_insert x s : bset_replace x s = bset_insert x s.
Proof.
  induction s as [|y s IH]; simpl; [done|]. destruct (cmp x y) eqn:E; [|done|by rewrite IH].
  by apply cmp_eq_iff in E as ->.
Qed.
Lemma bset_wf_collect l : bset_wf (bset_collect l).
Proof.
  unfold bset_collect. assert (bset_wf (@nil K)) as Hs by constructor. revert Hs.
  generalize (@nil K). induction l as [|x l IH]; intros s Hs; [done|]. simpl. apply IH.
  rewrite bset_replace_insert. by apply bset_wf_insert.
Qed.
Lemma bset_wf_filter (p : K -> bool) s : bset_wf s -> bset_wf (List.filter p s).
Proof.
  unfold bset_wf. induction 1 as [|x s Hs IH Hall]; simpl; [constructor|].
  destruct (p x); [|done]. constructor; [done|]. rewrite Forall_forall in *.
  intros y [Hy _]%list_elem_of_In%filter_In. by apply Hall, list_elem_of_In.
Qed.

Lemma bset_wf_NoDup s : bset_wf s -> NoDup s.
Proof.
  unfold bset_wf. induction 1 as [|x s Hs IH Hall]; constructor; [|done].
  rewrite Forall_forall in Hall. intros Hx%Hall. by apply clt_irrefl in Hx.
Qed.

Lemma bset_insert_present x s : bset_wf s -> x ∈ s -> bset_insert x s = s.
Proof.
  unfold bset_wf. induction 1 as [|y s Hs IH Hall]; simpl; [set_solver|].
  intros [->|Hx]%elem_of_cons; [by rewrite cmp_refl|].
  rewrite Forall_forall in Hall. specialize (Hall _ Hx). unfold clt in Hall.
  apply cmp_gt_lt in Hall. rewrite Hall. by rewrite IH.
Qed.

(** A set is determined by its elements. *)
Lemma bset_ext s l : bset_wf s -> bset_wf l -> (forall x, x ∈ s <-> x ∈ l) -> s = l.
Proof.
  unfold bset_wf. intros Hs. revert l. induction Hs as [|x s Hs IH Hx]; intros l Hl E.
  - destruct l as [|y l]; [done|]. specialize (E y). set_solver.
  - destruct Hl as [|y l Hl Hy]; [specialize (E x); set_solver|].
    rewrite Forall_forall in Hx, Hy.
    assert (x = y) as <-.
    { assert (x ∈ y :: l) as [->|Hxl]%elem_of_cons by (apply E; set_solver); [done|].
      assert (y ∈ x :: s) as [->|Hys]%elem_of_cons by (apply E; set_solver); [done|].
      specialize (Hx _ Hys). specialize (Hy _ Hxl). exfalso.
      apply (clt_irrefl x). unfold clt in *. by eapply cmp_lt_trans. }
    f_equal. apply IH; [done|]. intros z. specialize (E z). rewrite !elem_of_cons in E.
    assert (forall r : list K, (forall w, w ∈ r -> clt x w) -> z ∈ r -> z <> x) as Hne.
    { intros r Hr Hz ->. by apply (clt_irrefl x), Hr. }
    pose proof (Hne s Hx). pose proof (Hne l Hy). naive_solver.
Qed.

Lemma bmap_get_insert_eq k v m : bmap_wf m -> bmap_get k (bmap_insert k v m) = Some v.
Proof. intros Hm. rewrite bmap_get_insert by done. by rewrite cmp_refl. Qed.
Lemma bmap_get_insert_ne k k' v m :
  bmap_wf m -> k <> k' -> bmap_get k (bmap_insert k' v m) = bmap_get k m.
Proof. intros Hm. rewrite bmap_get_insert by done. pose proof (cmp_eq k k'). destruct (cmp k k'); naive_solver. Qed.

Lemma bmap_wf_extend m (l : list (K * V)) : bmap_wf m -> bmap_wf (bmap_extend m l).
Proof.
  unfold bmap_extend. revert m. induction l as [|[k v] l IH]; intros m Hm; [done|].
  by apply IH, bmap_insert_wf.
Qed.

Lemma bmap_wf_cons_get k v m : bmap_wf ((k, v) :: m) -> bmap_get k m = None.
Proof. intros Hm. apply bmap_get_Forall. by inversion Hm. Qed.

(** Extending by another map: its entries win. *)
Lemma bmap_get_extend k m (l : list (K * V)) :
  bmap_wf m -> bmap_wf l ->
  bmap_get k (bmap_extend m l) = match bmap_get k l with Some v => Some v | None => bmap_get k m end.
Proof.
  unfold bmap_extend. intros Hm Hl. revert m Hm.
  induction l as [|[k' v'] l IH]; intros m Hm; [done|]. simpl.
  rewrite IH; [|by inversion Hl|by apply bmap_insert_wf].
  rewrite bmap_get_insert by done. destruct (cmp k k') eqn:E; [|done..].
  apply cmp_eq in E as ->. by rewrite (bmap_wf_cons_get k' v').
Qed.

Lemma bmap_wf_filter (p : K * V -> bool) m : bmap_wf m -> bmap_wf (List.filter p m).
Proof.
  unfold bmap_wf. induction 1 as [|x s Hs IH Hall]; simpl; [constructor|].
  destruct (p x); [|done]. constructor; [done|]. rewrite Forall_forall in *.
  intros y [Hy _]%list_elem_of_In%filter_In. by apply Hall, list_elem_of_In.
Qed.

Lemma bmap_get_filter (p : K * V -> bool) k m :
  bmap_wf m ->
  bmap_get k (List.filter p m) =
  match bmap_get k m with Some v => if p (k, v) then Some v else None | None => None end.
Proof.
  unfold bmap_wf. induction 1 as [|[k' v'] m Hm IH Hall]; [done|].
  simpl. destruct (cmp k k') eqn:E.
  - apply cmp_eq in E as ->. destruct (p (k', v')) eqn:Hp; simpl; [by rewrite cmp_refl|].
    rewrite IH. by rewrite bmap_get_Forall.
  - destruct (p (k', v')); simpl; [by rewrite E|done].
  - destruct (p (k', v')); simpl; [by rewrite E|done].
Qed.

(** Collecting from a sorted list of distinct keys changes nothing. *)
Lemma bmap_collect_id m : bmap_wf m -> bmap_collect m = m.
Proof.
  intros Hm. apply bmap_ext; [apply bmap_wf_extend; constructor|done|].
  intros k. unfold bmap_collect. rewrite bmap_get_extend; [|constructor|done].
  by destruct (bmap_get k m).
Qed.
End leibniz_facts.
