(* ===== verification/Names.v ===== *)
(** * Package, option, repository and release-tag names

    Models crates/spk-schema/crates/foundation/src/name/mod.rs: the validation
    of names, the namespace operations of option names and the lossy
    construction of option names. *)

From S2P Require Import Prelude Strings.

(** ** Definitions *)

(** The name sorts that appear in the error messages. *)
Inductive name_sort := PackageName | OptionName | ReleaseTagName.

(** [InvalidNameError], one constructor per message the code formats. *)
Inductive InvalidNameError :=
| NameTooShort (sort : name_sort) (name : rstr) (len : N)
| NameTooLong (sort : name_sort) (name : rstr) (len : N)
| NameLeadingHyphen (name : rstr)
| NameInvalidAt (sort : name_sort) (pos : N) (before : rstr) (c : char) (after : rstr).

Definition MIN_LEN : N := 2.
Definition MAX_LEN : N := 64.

Definition is_valid_pkg_name_char (c : char) : bool :=
  is_ascii_lowercase c || is_ascii_digit c || (c =? c_hyphen)%N.

Definition is_valid_opt_name_char (c : char) : bool :=
  is_valid_pkg_name_char c || (c =? c_underscore)%N.

(** Returns -1 if valid, or the index of the invalid character. *)
Definition validate_source_str (source : rstr) (validator : char -> bool) : Z :=
  (fix go (i : Z) (cs : rstr) : Z :=
     match cs with
     | [] => (-1)%Z
     | c :: cs => if validator c then go (i + 1)%Z cs else i
     end) 0%Z source.

(** The error for an invalid character at [index]: the message slices the name
    by byte offset on both sides of the character. *)
Definition invalid_char_error (sort : name_sort) (name : rstr) (index : N) :
    res InvalidNameError unit :=
  match slice_to name index, name !! N.to_nat index, slice_from name (index + 1) with
  | Some before, Some c, Some after => Err (NameInvalidAt sort index before c after)
  | _, _, _ => Panicked
  end.

Definition check_chars (sort : name_sort) (name : rstr) (validator : char -> bool) :
    res InvalidNameError unit :=
  let index := validate_source_str name validator in
  if (index >? -1)%Z then invalid_char_error sort name (Z.to_N index) else Ok tt.

Definition validate_pkg_name (name : rstr) : res InvalidNameError unit :=
  if (str_len name <? MIN_LEN)%N then Err (NameTooShort PackageName name (str_len name))
  else if (MAX_LEN <? str_len name)%N then Err (NameTooLong PackageName name (str_len name))
  else match name with
       | c :: _ => if (c =? c_hyphen)%N then Err (NameLeadingHyphen name)
                   else check_chars PackageName name is_valid_pkg_name_char
       | [] => check_chars PackageName name is_valid_pkg_name_char
       end.

Definition validate_opt_base_name (name : rstr) : res InvalidNameError unit :=
  if (str_len name <? MIN_LEN)%N then Err (NameTooShort OptionName name (str_len name))
  else if (MAX_LEN <? str_len name)%N then Err (NameTooLong OptionName name (str_len name))
  else check_chars OptionName name is_valid_opt_name_char.

Definition validate_opt_name (name : rstr) : res InvalidNameError unit :=
  match split_once c_dot name with
  | Some (ns, opt) => _ ← validate_pkg_name ns; validate_opt_base_name opt
  | None => validate_opt_base_name name
  end.

(** Check if a name is a valid pre/post release tag name. *)
Definition validate_tag_name (name : rstr) : res InvalidNameError unit :=
  check_chars ReleaseTagName name is_ascii_alphanumeric.

(** Repository names are validated like package names. *)
Definition RepositoryName_validate (name : rstr) : res InvalidNameError unit :=
  validate_pkg_name name.

Definition RepositoryNameBuf_is_local (name : rstr) : bool :=
  bool_decide (name = lit "local").

Definition OptName_base_name (self : rstr) : rstr :=
  match split_once c_dot self with Some (_, n) => n | None => self end.

Definition OptName_namespace (self : rstr) : option rstr :=
  fst <$> split_once c_dot self.

Definition OptName_with_default_namespace (self ns : rstr) : rstr :=
  default ns (OptName_namespace self) ++ [c_dot] ++ OptName_base_name self.

Definition OptName_with_namespace (self ns : rstr) : rstr :=
  ns ++ [c_dot] ++ OptName_base_name self.

Definition OptName_without_namespace (self : rstr) : rstr := OptName_base_name self.

(** [EnvName] for option names: ['-'] becomes ['_']. *)
Definition OptName_env_name (self : rstr) : rstr :=
  (fun c => if (c =? c_hyphen)%N then c_underscore else c) <$> self.

(** [OptNameBuf::new_lossy]; [to_lowercase] is the Unicode case mapping. *)
Definition OptNameBuf_new_lossy (to_lowercase : rstr -> rstr) (s : rstr) :
    res InvalidNameError rstr :=
  match validate_opt_base_name s with
  | Panicked => Panicked
  | Ok _ => Ok s
  | Err _ =>
      let new_name := List.filter is_valid_opt_name_char (to_lowercase s) in
      let length := str_len new_name in
      if (length <? MIN_LEN)%N then
        Ok (new_name ++ repeat c_underscore (N.to_nat (MIN_LEN - length)))
      else if (MAX_LEN <? length)%N then
        match slice_to new_name MAX_LEN with Some t => Ok t | None => Panicked end
      else Ok new_name
  end.

(** ** What validity means *)

(** A name is within the length limits. *)
Definition name_len_ok (s : rstr) : bool :=
  (MIN_LEN <=? str_len s)%N && (str_len s <=? MAX_LEN)%N.

Definition starts_with_hyphen (s : rstr) : bool :=
  match s with c :: _ => (c =? c_hyphen)%N | [] => false end.

(** The first character outside the class is not an ASCII character. *)
Definition first_invalid_not_ascii (p : char -> bool) (s : rstr) : bool :=
  match List.find (fun c => negb (p c)) s with
  | Some c => (128 <=? c)%N
  | None => false
  end.

(** ** Lemmas *)

Lemma pkg_char_ascii c : is_valid_pkg_name_char c = true -> (c <? 128)%N = true.
Proof.
  unfold is_valid_pkg_name_char, is_ascii_lowercase, is_ascii_digit.
  rewrite !orb_true_iff, !andb_true_iff, !N.leb_le, N.eqb_eq, N.ltb_lt. lia.
Qed.

Lemma opt_char_ascii c : is_valid_opt_name_char c = true -> (c <? 128)%N = true.
Proof.
  unfold is_valid_opt_name_char. rewrite orb_true_iff, N.eqb_eq.
  intros [?%pkg_char_ascii| ->]; done.
Qed.

Lemma alphanumeric_ascii c : is_ascii_alphanumeric c = true -> (c <? 128)%N = true.
Proof.
  unfold is_ascii_alphanumeric, is_ascii_alphabetic, is_ascii_lowercase,
    is_ascii_uppercase, is_ascii_digit.
  rewrite !orb_true_iff, !andb_true_iff, !N.leb_le, N.ltb_lt. lia.
Qed.

Lemma forallb_weaken {A} (p q : A -> bool) l :
  (forall x, p x = true -> q x = true) -> forallb p l = true -> forallb q l = true.
Proof. rewrite !forallb_forall. auto. Qed.

(** The scan either finds every character valid or splits the string at the
    first invalid one. *)
Lemma validate_source_str_spec p s :
  (forallb p s = true /\ validate_source_str s p = (-1)%Z) \/
  (exists a c b, s = a ++ c :: b /\ forallb p a = true /\ p c = false /\
                 validate_source_str s p = Z.of_nat (length a)).
Proof.
  unfold validate_source_str.
  match goal with |- context [?f 0%Z s] => set (go := f) end.
  enough (forall i, (forallb p s = true /\ go i s = (-1)%Z) \/
    (exists a c b, s = a ++ c :: b /\ forallb p a = true /\ p c = false /\
                   go i s = (i + Z.of_nat (length a))%Z)) as Hs by apply (Hs 0%Z).
  induction s as [|x s IH]; intros i; [by left|]. simpl. destruct (p x) eqn:Hx.
  - destruct (IH (i + 1)%Z) as [[-> ->]|(a & c & b & -> & Ha & Hc & ->)]; [by left|].
    right. exists (x :: a), c, b. simpl. rewrite Hx. split_and!; try done. lia.
  - right. exists [], x, s. split_and!; try done. simpl. lia.
Qed.

Lemma find_app_first {A} (p : A -> bool) a c b :
  forallb p a = true -> p c = false ->
  List.find (fun c => negb (p c)) (a ++ c :: b) = Some c.
Proof.
  induction a as [|x a IH]; simpl; [by intros _ ->|].
  intros [-> Ha]%andb_true_iff Hc. by apply IH.
Qed.

(** The outcome of the character check, for classes of ASCII characters. *)
Lemma check_chars_outcome sort p s :
  (forall c, p c = true -> (c <? 128)%N = true) ->
  match check_chars sort s p with
  | Ok _ => forallb p s = true
  | Err _ => forallb p s = false /\ first_invalid_not_ascii p s = false
  | Panicked => forallb p s = false /\ first_invalid_not_ascii p s = true
  end.
Proof.
  intros Hp. unfold check_chars.
  destruct (validate_source_str_spec p s) as [[Hs ->]|(a & c & b & -> & Ha & Hc & ->)];
    [done|].
  destruct (Z.gtb_spec (Z.of_nat (length a)) (-1)); [|lia].
  unfold invalid_char_error, first_invalid_not_ascii.
  rewrite find_app_first by done.
  replace (Z.to_N (Z.of_nat (length a))) with (N.of_nat (length a)) by lia.
  rewrite slice_to_app, slice_from_app by eauto using forallb_weaken.
  rewrite Nat2N.id, list_lookup_middle by done.
  assert (forallb p (a ++ c :: b) = false) as ->.
  { rewrite forallb_app. simpl. by rewrite Hc, andb_false_r. }
  destruct (N.ltb_spec c 128), (N.leb_spec 128 c); by try lia.
Qed.

Lemma forallb_no_first_invalid p s :
  forallb p s = true -> first_invalid_not_ascii p s = false.
Proof.
  unfold first_invalid_not_ascii. induction s as [|c s IH]; simpl; [done|].
  by intros [-> ?]%andb_true_iff; auto.
Qed.

Lemma validate_opt_base_name_outcome s :
  match validate_opt_base_name s with
  | Ok _ => name_len_ok s && forallb is_valid_opt_name_char s = true
  | Err _ => name_len_ok s && forallb is_valid_opt_name_char s = false /\
             name_len_ok s && first_invalid_not_ascii is_valid_opt_name_char s = false
  | Panicked => name_len_ok s && first_invalid_not_ascii is_valid_opt_name_char s = true
  end.
Proof.
  unfold validate_opt_base_name, name_len_ok.
  destruct (N.ltb_spec (str_len s) MIN_LEN), (N.leb_spec MIN_LEN (str_len s)); try lia.
  destruct (N.ltb_spec MAX_LEN (str_len s)), (N.leb_spec (str_len s) MAX_LEN); try lia.
  pose proof (check_chars_outcome OptionName is_valid_opt_name_char s opt_char_ascii) as Hc.
  revert Hc. simpl. destruct (check_chars _ _ _); naive_solver.
Qed.

Lemma validate_opt_base_name_ok s :
  validate_opt_base_name s = Ok tt <->
  name_len_ok s && forallb is_valid_opt_name_char s = true.
Proof.
  pose proof (validate_opt_base_name_outcome s) as H.
  destruct (validate_opt_base_name s) as [[]| |]; [naive_solver| |].
  - destruct H as [-> _]. done.
  - split; [done|]. intros [_ Hs]%andb_true_iff.
    apply forallb_no_first_invalid in Hs. by rewrite Hs, andb_false_r in H.
Qed.

Lemma opt_chars_no_dot s : forallb is_valid_opt_name_char s = true -> str_contains c_dot s = false.
Proof. intros Hs. by eapply str_contains_class. Qed.

Lemma pkg_chars_no_dot s : forallb is_valid_pkg_name_char s = true -> str_contains c_dot s = false.
Proof. intros Hs. by eapply str_contains_class. Qed.

Lemma validate_opt_name_base s :
  forallb is_valid_opt_name_char s = true -> validate_opt_name s = validate_opt_base_name s.
Proof.
  intros Hs%opt_chars_no_dot%split_once_None. unfold validate_opt_name. by rewrite Hs.
Qed.

(** The outcome of package-name validation on every input: it succeeds exactly
    on names of 2 to 64 bytes of lowercase letters, digits and hyphens that do
    not start with a hyphen. *)
Definition pkg_name_ok (s : rstr) : bool :=
  name_len_ok s && negb (starts_with_hyphen s) && forallb is_valid_pkg_name_char s.

Lemma validate_pkg_name_outcome s :
  match validate_pkg_name s with
  | Ok _ => pkg_name_ok s = true
  | Err _ => pkg_name_ok s = false /\
      name_len_ok s && negb (starts_with_hyphen s) &&
      first_invalid_not_ascii is_valid_pkg_name_char s = false
  | Panicked => name_len_ok s && negb (starts_with_hyphen s) &&
      first_invalid_not_ascii is_valid_pkg_name_char s = true
  end.
Proof.
  unfold pkg_name_ok, validate_pkg_name, name_len_ok.
  destruct (N.ltb_spec (str_len s) MIN_LEN), (N.leb_spec MIN_LEN (str_len s)); try lia.
  destruct (N.ltb_spec MAX_LEN (str_len s)), (N.leb_spec (str_len s) MAX_LEN); try lia.
  pose proof (check_chars_outcome PackageName is_valid_pkg_name_char s pkg_char_ascii) as Hc.
  revert Hc. destruct s as [|c s]; [by destruct (check_chars _ _ _); naive_solver|].
  unfold starts_with_hyphen. destruct (c =? c_hyphen)%N; [done|].
  destruct (check_chars _ _ _); naive_solver.
Qed.

Lemma validate_pkg_name_ok s : validate_pkg_name s = Ok tt <-> pkg_name_ok s = true.
Proof.
  pose proof (validate_pkg_name_outcome s) as H.
  destruct (validate_pkg_name s) as [[]| |]; [naive_solver| |].
  - destruct H as [-> _]. done.
  - split; [done|]. unfold pkg_name_ok. intros [_ Hs]%andb_true_iff.
    apply forallb_no_first_invalid in Hs. by rewrite Hs, andb_false_r in H.
Qed.

(** A lossless length bound for strings of one-byte characters. *)
Lemma opt_chars_len s :
  forallb is_valid_opt_name_char s = true -> str_len s = N.of_nat (length s).
Proof. intros Hs. apply str_len_ascii. eauto using forallb_weaken, opt_char_ascii. Qed.

Lemma forallb_filter {A} (p : A -> bool) l : forallb p (List.filter p l) = true.
Proof. apply forallb_forall. intros x [_ Hx]%filter_In. done. Qed.

Lemma forallb_repeat {A} (p : A -> bool) x n : p x = true -> forallb p (repeat x n) = true.
Proof. intros Hx. induction n; simpl; [done|]. by rewrite Hx. Qed.

(** ** Theorems *)

(** [validate_pkg_name] decides exactly the documented grammar: it returns
    [Ok] if and only if the name has 2 to 64 bytes, does not begin with a
    hyphen and holds only lowercase ASCII letters, digits and hyphens. *)
Theorem validate_pkg_name_exact s :
  res_is_ok (validate_pkg_name s) = pkg_name_ok s.
Proof.
  apply eq_bool_prop_intro. rewrite !Is_true_true, <-validate_pkg_name_ok.
  by destruct (validate_pkg_name s) as [[]| |].
Qed.

(** Every valid package name is a valid option name, the assumption under
    which [AsRef<OptName> for PkgName] skips validation. *)
Theorem pkg_name_is_opt_name s :
  validate_pkg_name s = Ok tt -> validate_opt_name s = Ok tt.
Proof.
  intros Hs%validate_pkg_name_ok. unfold pkg_name_ok in Hs.
  apply andb_true_iff in Hs as [[Hlen _]%andb_true_iff Hs].
  assert (forallb is_valid_opt_name_char s = true) as Hopt.
  { eapply forallb_weaken; [|exact Hs]. intros c Hc.
    unfold is_valid_opt_name_char. by rewrite Hc. }
  rewrite validate_opt_name_base by done. apply validate_opt_base_name_ok.
  by rewrite Hlen, Hopt.
Qed.

Lemma pkg_name_is_opt_name_witness :
  validate_pkg_name (lit "my-pkg") = Ok tt /\ validate_opt_name (lit "my-pkg") = Ok tt.
Proof. split; [reflexivity|]. apply (pkg_name_is_opt_name (lit "my-pkg")). reflexivity. Defined.

(** The only inputs on which [validate_pkg_name] unwinds instead of
    returning are the names within the length limits, not starting with a
    hyphen, whose first illegal character is not ASCII: the error message is
    sliced at [index + 1], which is then inside that character. *)
Theorem validate_pkg_name_panics s :
  validate_pkg_name s = Panicked <->
  name_len_ok s = true /\ starts_with_hyphen s = false /\
  first_invalid_not_ascii is_valid_pkg_name_char s = true.
Proof.
  pose proof (validate_pkg_name_outcome s) as H. revert H. unfold pkg_name_ok.
  destruct (name_len_ok s), (starts_with_hyphen s),
    (first_invalid_not_ascii is_valid_pkg_name_char s) eqn:E,
    (forallb is_valid_pkg_name_char s) eqn:F, (validate_pkg_name s); simpl; try naive_solver.
  by rewrite (forallb_no_first_invalid _ _ F) in E.
Qed.

(** The namespace and base name of [ns.base]. *)
Lemma with_namespace_split opt ns :
  str_contains c_dot ns = false ->
  split_once c_dot (OptName_with_namespace opt ns) = Some (ns, OptName_base_name opt).
Proof. intros Hns. unfold OptName_with_namespace. by apply split_once_app. Qed.

Lemma validate_opt_name_base_name s :
  validate_opt_name s = Ok tt -> validate_opt_base_name (OptName_base_name s) = Ok tt.
Proof.
  unfold validate_opt_name, OptName_base_name.
  destruct (split_once c_dot s) as [[ns opt]|]; [|done].
  unfold mbind, res_bind. by destruct (validate_pkg_name ns).
Qed.

Lemma pkg_name_ok_no_dot s : validate_pkg_name s = Ok tt -> str_contains c_dot s = false.
Proof.
  intros Hs%validate_pkg_name_ok. apply andb_true_iff in Hs as [_ Hs].
  by apply pkg_chars_no_dot.
Qed.

(** Putting a valid package namespace on a valid option name gives a valid
    option name whose namespace is that package and whose base name is
    unchanged, and removing the namespace gives a valid name again. *)
Theorem with_namespace_valid opt ns :
  validate_opt_name opt = Ok tt -> validate_pkg_name ns = Ok tt ->
  let opt' := OptName_with_namespace opt ns in
  validate_opt_name opt' = Ok tt /\
  OptName_namespace opt' = Some ns /\
  OptName_base_name opt' = OptName_base_name opt /\
  validate_opt_name (OptName_without_namespace opt') = Ok tt.
Proof.
  intros Hopt Hns opt'. pose proof (with_namespace_split opt ns (pkg_name_ok_no_dot _ Hns)) as Hs.
  apply validate_opt_name_base_name in Hopt.
  unfold OptName_without_namespace, OptName_namespace, opt'.
  assert (OptName_base_name (OptName_with_namespace opt ns) = OptName_base_name opt) as Hb.
  { unfold OptName_base_name at 1. by rewrite Hs. }
  rewrite Hb, Hs. split_and!; [|done|done|].
  - unfold validate_opt_name. rewrite Hs. unfold mbind, res_bind. by rewrite Hns.
  - rewrite validate_opt_name_base; [done|].
    by apply validate_opt_base_name_ok, andb_true_iff in Hopt as [_ ?].
Qed.

Lemma with_namespace_valid_witness :
  let opt' := OptName_with_namespace (lit "python.abi") (lit "maya") in
  validate_opt_name opt' = Ok tt /\
  OptName_namespace opt' = Some (lit "maya") /\
  OptName_base_name opt' = OptName_base_name (lit "python.abi") /\
  validate_opt_name (OptName_without_namespace opt') = Ok tt.
Proof. apply (with_namespace_valid (lit "python.abi") (lit "maya")); reflexivity. Defined.

(** The cleaned-up name is within the limits and all its characters are legal. *)
Lemma new_lossy_cleanup t :
  let n := List.filter is_valid_opt_name_char t in
  let r := if (str_len n <? MIN_LEN)%N then
             Ok (n ++ repeat c_underscore (N.to_nat (MIN_LEN - str_len n)))
           else if (MAX_LEN <? str_len n)%N then
             match slice_to n MAX_LEN with Some t => Ok t | None => Panicked end
           else Ok n in
  exists m, r = @Ok InvalidNameError _ m /\
            name_len_ok m && forallb is_valid_opt_name_char m = true.
Proof.
  intros n r. pose proof (forallb_filter is_valid_opt_name_char t) as Hn.
  fold n in Hn. pose proof (opt_chars_len n Hn) as Hlen. subst r. clearbody n.
  unfold name_len_ok.
  destruct (N.ltb_spec (str_len n) MIN_LEN) as [Hs|Hs];
    [|destruct (N.ltb_spec MAX_LEN (str_len n)) as [Hl|Hl]].
  - eexists; split; [done|].
    assert (forallb is_valid_opt_name_char
      (n ++ repeat c_underscore (N.to_nat (MIN_LEN - str_len n))) = true) as Hm.
    { rewrite forallb_app, Hn. by apply forallb_repeat. }
    rewrite Hm, (opt_chars_len _ Hm), length_app, List.repeat_length, andb_true_r.
    apply andb_true_iff. rewrite !N.leb_le. unfold MIN_LEN, MAX_LEN in *. lia.
  - rewrite <-(take_drop (N.to_nat MAX_LEN) n), forallb_app in Hn. apply andb_true_iff in Hn as [Hn _].
    assert (length (take (N.to_nat MAX_LEN) n) = N.to_nat MAX_LEN) as Hk.
    { rewrite length_take. lia. }
    pose proof (slice_to_app (take (N.to_nat MAX_LEN) n) (drop (N.to_nat MAX_LEN) n)) as Hsl.
    rewrite Hk, N2Nat.id, take_drop in Hsl. rewrite Hsl by eauto using forallb_weaken, opt_char_ascii.
    eexists; split; [done|]. rewrite Hn, opt_chars_len, Hk by done. done.
  - exists n. split; [done|]. rewrite Hn, andb_true_r.
    apply andb_true_iff. rewrite !N.leb_le. lia.
Qed.

(** Whatever the Unicode case mapping does, [OptNameBuf::new_lossy] either
    unwinds, exactly when the input is within the length limits and its first
    illegal character is not ASCII, or returns a valid option name; a name that
    is already a valid base name is returned unchanged. *)
Theorem new_lossy_valid (to_lowercase : rstr -> rstr) s :
  match OptNameBuf_new_lossy to_lowercase s with
  | Ok n => validate_opt_name n = Ok tt /\ (validate_opt_base_name s = Ok tt -> n = s)
  | Err _ => False
  | Panicked => name_len_ok s = true /\
                first_invalid_not_ascii is_valid_opt_name_char s = true
  end.
Proof.
  pose proof (validate_opt_base_name_outcome s) as Hs. unfold OptNameBuf_new_lossy.
  destruct (validate_opt_base_name s) as [[]|e|] eqn:E.
  - apply andb_true_iff in Hs as [_ Hs]. by rewrite validate_opt_name_base.
  - destruct (new_lossy_cleanup (to_lowercase s)) as (m & -> & Hm). split; [|done].
    rewrite validate_opt_name_base; [by apply validate_opt_base_name_ok|].
    by apply andb_true_iff in Hm as [_ ?].
  - by apply andb_true_iff in Hs.
Qed.
