(* ===== verification/Version.v ===== *)
(** * Versions

    Models crates/spk-schema/crates/foundation/src/version/mod.rs and
    version/parts_iter.rs: release tag sets, the numeric parts with their
    epsilon, version ordering and equality, the display, storage and tag-path
    forms, and parsing. *)

From S2P Require Import Prelude Strings Collections Names.

(** ** Position labels *)

Definition SENTINEL_LABEL : rstr := lit "Tail".
Definition POSITION_LABELS : list rstr := [lit "Major"; lit "Minor"; lit "Patch"].

Definition get_version_position_label (pos : nat) : rstr :=
  if length POSITION_LABELS <=? pos then SENTINEL_LABEL
  else default [] (POSITION_LABELS !! pos).

(** ** Errors *)

(** [version::Error]: [InvalidVersionError] with one constructor per message,
    and the name errors of tag validation. *)
Inductive VersionError :=
| TagSegmentForm (tag : rstr)
| DuplicateTag (name : rstr)
| NotAnInteger (p : rstr) (i : nat) (version : rstr)
| TagNameError (e : InvalidNameError).

Definition lift_name_error {A} (r : res InvalidNameError A) : res VersionError A :=
  match r with Ok a => Ok a | Err e => Err (TagNameError e) | Panicked => Panicked end.

(** ** Release tag sets *)

(** [TagSet]: a [BTreeMap] from tag names to numbers. *)
Record TagSet := mkTagSet { tags : list (rstr * N) }.

Definition TagSet_default : TagSet := mkTagSet [].

Definition TagSet_single (name : rstr) (value : N) : TagSet :=
  mkTagSet (bmap_insert name value []).

Definition TagSet_double (name_1 : rstr) (value_1 : N) (name_2 : rstr) (value_2 : N) : TagSet :=
  mkTagSet (bmap_insert name_2 value_2 (bmap_insert name_1 value_1 [])).

Definition TagSet_is_empty (self : TagSet) : bool := length (tags self) =? 0.

Definition fmt_tag (t : rstr * N) : rstr := t.1 ++ [c_dot] ++ dec t.2.

(** [Display for TagSet]. *)
Definition TagSet_to_string (self : TagSet) : rstr :=
  join [c_comma] (fmt_tag <$> tags self).

(** The loop of [Ord for TagSet] over the zipped entries. *)
Fixpoint TagSet_cmp_entries (self_entries other_entries : list (rstr * N)) :
    comparison + unit :=
  match self_entries, other_entries with
  | (self_name, self_value) :: self_entries, (other_name, other_value) :: other_entries =>
      match cmp self_name other_name with
      | Eq => match cmp self_value other_value with
              | Eq => TagSet_cmp_entries self_entries other_entries
              | r => inl r
              end
      | r => inl r
      end
  | _, _ => inr tt
  end.

(** [Ord for TagSet]. *)
Definition TagSet_cmp (self other : TagSet) : comparison :=
  match TagSet_cmp_entries (sort_slice (tags self)) (sort_slice (tags other)) with
  | inl r => r
  | inr _ => cmp (length (tags self)) (length (tags other))
  end.
#[export] Instance cmp_TagSet : Cmp TagSet := TagSet_cmp.

(** Derived [PartialEq]: the maps have the same entries in order. *)
#[export] Instance TagSet_eq_dec : EqDecision TagSet.
Proof. solve_decision. Defined.
Definition TagSet_eq (a b : TagSet) : bool := bool_decide (a = b).

Definition break_string (string : rstr) (sep : char) : rstr * rstr :=
  match split_once sep string with Some (a, b) => (a, b) | None => (string, []) end.

(** The loop of [parse_tag_set] over the comma-separated segments. *)
Fixpoint parse_tag_segments (segments : list rstr) (tag_set : list (rstr * N)) :
    res VersionError TagSet :=
  match segments with
  | [] => Ok (mkTagSet tag_set)
  | tag :: segments =>
      let (name, num) := break_string tag c_dot in
      if str_is_empty name || str_is_empty num then Err (TagSegmentForm tag)
      else if bmap_contains_key name tag_set then Err (DuplicateTag name)
      else
        _ ← lift_name_error (validate_tag_name name);
        match parse_u32 num with
        | Some num => parse_tag_segments segments (bmap_insert name num tag_set)
        | None => Err (TagSegmentForm tag)
        end
  end.

Definition parse_tag_set (s : rstr) : res VersionError TagSet :=
  if str_is_empty s then Ok TagSet_default
  else parse_tag_segments (split c_comma s) [].

(** ** Version parts *)

Inductive Epsilon := EpsMinus | EpsNone | EpsPlus.
#[export] Instance Epsilon_eq_dec : EqDecision Epsilon.
Proof. solve_decision. Defined.

Definition Epsilon_rank (e : Epsilon) : nat :=
  match e with EpsMinus => 0 | EpsNone => 1 | EpsPlus => 2 end.
(** Derived [Ord]: by the order of the variants. *)
#[export] Instance cmp_Epsilon : Cmp Epsilon := cmp_on Epsilon_rank.

Record VersionParts := mkParts { parts : list N; epsilon : Epsilon }.

Definition MINIMUM_PARTS_FOR_DISPLAY : nat := 3.
Definition MINIMUM_PARTS_FOR_STORAGE : nat := 3.

(** *** The part iterators of parts_iter.rs *)

Record NormalizedPartsIter := mkNormalizedPartsIter {
  npi_parts : list N;
  npi_pos : nat;
  npi_skipped_zeros : nat;
  npi_next_non_zero : option N;
}.

Definition NormalizedPartsIter_new (parts : list N) : NormalizedPartsIter :=
  mkNormalizedPartsIter parts 0 0 None.

(** The [loop] inside [NormalizedPartsIter::next]. *)
Fixpoint npi_loop (parts : list N) (pos skipped_zeros : nat) (next_non_zero : option N) :
    option N * NormalizedPartsIter :=
  match next_non_zero with
  | Some non_zero =>
      if 0 <? skipped_zeros then
        (Some 0%N, mkNormalizedPartsIter parts pos (skipped_zeros - 1) (Some non_zero))
      else (Some non_zero, mkNormalizedPartsIter parts pos skipped_zeros None)
  | None =>
      match parts with
      | [] =>
          if pos - 1 <? MINIMUM_PARTS_FOR_STORAGE then
            (Some 0%N, mkNormalizedPartsIter [] pos skipped_zeros None)
          else (None, mkNormalizedPartsIter [] pos skipped_zeros None)
      | next :: parts =>
          if (next =? 0)%N then npi_loop parts pos (skipped_zeros + 1) None
          else npi_loop parts pos skipped_zeros (Some next)
      end
  end.

Definition NormalizedPartsIter_next (self : NormalizedPartsIter) :
    option N * NormalizedPartsIter :=
  npi_loop (npi_parts self) (npi_pos self + 1) (npi_skipped_zeros self)
    (npi_next_non_zero self).

Record MinimumPartsPartIter := mkMinimumPartsPartIter {
  mpi_parts : list N;
  mpi_minimum_parts : nat;
  mpi_pos : nat;
}.

Definition MinimumPartsPartIter_new (parts : list N) (minimum_parts : nat) :
    MinimumPartsPartIter := mkMinimumPartsPartIter parts minimum_parts 0.

Definition MinimumPartsPartIter_next (self : MinimumPartsPartIter) :
    option N * MinimumPartsPartIter :=
  let pos := mpi_pos self + 1 in
  match mpi_parts self with
  | part :: parts => (Some part, mkMinimumPartsPartIter parts (mpi_minimum_parts self) pos)
  | [] =>
      if pos - 1 <? mpi_minimum_parts self then
        (Some 0%N, mkMinimumPartsPartIter [] (mpi_minimum_parts self) pos)
      else (None, mkMinimumPartsPartIter [] (mpi_minimum_parts self) pos)
  end.

(** Draining an iterator: [None] when [fuel] calls of [next] do not reach its
    end. *)
Fixpoint iter_collect {S A} (next : S -> option A * S) (fuel : nat) (st : S) :
    option (list A) :=
  match fuel with
  | O => None
  | S fuel =>
      match next st with
      | (None, _) => Some []
      | (Some a, st) => cons a <$> iter_collect next fuel st
      end
  end.

(** [iter_for_display] and [iter_for_storage], drained.  Each call of [next]
    yields a stored part or one of the padding zeros, so one call more than the
    longer of the two lengths reaches the end. *)
Definition iter_for_display (self : VersionParts) (minimum_parts : nat) : list N :=
  default [] (iter_collect MinimumPartsPartIter_next
    (S (Nat.max (length (parts self)) minimum_parts))
    (MinimumPartsPartIter_new (parts self) minimum_parts)).

Definition iter_for_storage (self : VersionParts) : list N :=
  default [] (iter_collect NormalizedPartsIter_next
    (S (Nat.max (length (parts self)) MINIMUM_PARTS_FOR_STORAGE))
    (NormalizedPartsIter_new (parts self))).

Definition nonzero (p : N) : bool := negb (p =? 0)%N.

Definition strip_trailing_zeros (self : VersionParts) : VersionParts :=
  match rposition nonzero (parts self) with
  | Some index_of_last_non_zero =>
      if index_of_last_non_zero =? length (parts self) - 1 then self
      else mkParts (take (index_of_last_non_zero + 1) (parts self)) (epsilon self)
  | None => mkParts [0%N] (epsilon self)
  end.

(** [PartialEq for VersionParts]. *)
Definition VersionParts_eq (self other : VersionParts) : bool :=
  if negb (bool_decide (epsilon self = epsilon other)) then false
  else match rposition nonzero (parts self), rposition nonzero (parts other) with
       | Some self_last, Some other_last =>
           bool_decide (take (S self_last) (parts self) = take (S other_last) (parts other))
       | None, None => true
       | _, _ => false
       end.

(** What [Hash for VersionParts] feeds to the hasher. *)
Definition VersionParts_hash (self : VersionParts) : option (list N) * Epsilon :=
  ((fun last_nonzero => take (S last_nonzero) (parts self))
     <$> rposition nonzero (parts self), epsilon self).

(** ** Versions *)

Record Version := mkVersion { vparts : VersionParts; pre : TagSet; post : TagSet }.

Definition Version_default : Version :=
  mkVersion (mkParts [] EpsNone) TagSet_default TagSet_default.

(** [From<Vec<u32>> for VersionParts] and [From<VersionParts> for Version]. *)
Definition VersionParts_from (parts : list N) : VersionParts := mkParts parts EpsNone.
Definition Version_from (parts : VersionParts) : Version :=
  mkVersion parts TagSet_default TagSet_default.
Definition from_parts (parts : list N) : Version := Version_from (VersionParts_from parts).

Definition Version_new (major minor patch : N) : Version := from_parts [major; minor; patch].

Definition major (self : Version) : N := default 0%N (parts (vparts self) !! 0).
Definition minor (self : Version) : N := default 0%N (parts (vparts self) !! 1).
Definition patch (self : Version) : N := default 0%N (parts (vparts self) !! 2).

Definition minus_epsilon (self : Version) : Version :=
  mkVersion (mkParts (parts (vparts self)) EpsMinus) (pre self) (post self).
Definition plus_epsilon (self : Version) : Version :=
  mkVersion (mkParts (parts (vparts self)) EpsPlus) (pre self) (post self).

(** Derived [PartialEq for Version]. *)
Definition Version_eq (self other : Version) : bool :=
  VersionParts_eq (vparts self) (vparts other) &&
  TagSet_eq (pre self) (pre other) && TagSet_eq (post self) (post other).

(** [Version::format_tags]. *)
Definition format_tags (self : Version) : rstr :=
  (if negb (TagSet_is_empty (pre self)) then [c_hyphen] ++ TagSet_to_string (pre self) else [])
  ++ (if negb (TagSet_is_empty (post self)) then [c_plus] ++ TagSet_to_string (post self) else []).

Definition c_epsilon : char := 949.

(** [Version::base] on the parts yielded by an iterator. *)
Definition base (self : Version) (iter : list N) : rstr :=
  let s := join [c_dot] (dec <$> iter) in
  let s := if str_is_empty s then lit "0" else s in
  match epsilon (vparts self) with
  | EpsNone => s
  | EpsPlus => s ++ [c_plus; c_epsilon]
  | EpsMinus => s ++ [c_hyphen; c_epsilon]
  end.

Definition base_normalized (self : Version) : rstr :=
  base self (iter_for_display (vparts self) MINIMUM_PARTS_FOR_DISPLAY).
Definition base_verbatim (self : Version) : rstr := base self (parts (vparts self)).

Definition is_zero (self : Version) : bool :=
  if negb (TagSet_is_empty (pre self)) || negb (TagSet_is_empty (post self)) then false
  else negb (existsb (fun x => 0 <? x)%N (parts (vparts self))).

(** [Display for Version]; [alternate] is the [{:#}] flag. *)
Definition Version_fmt (alternate : bool) (self : Version) : rstr :=
  (if alternate then base_verbatim self else base_normalized self) ++ format_tags self.
Definition Version_to_string : Version -> rstr := Version_fmt false.

(** [Serialize for Version]: the string that is serialized. *)
Definition Version_serialize (self : Version) : rstr := Version_fmt true self.

Definition to_storage_string (self : Version) : rstr :=
  join [c_dot] (dec <$> iter_for_storage (vparts self))
  ++ (if TagSet_is_empty (pre self) then [] else [c_hyphen]) ++ TagSet_to_string (pre self)
  ++ (if TagSet_is_empty (post self) then [] else [c_plus]) ++ TagSet_to_string (post self).

(** [MetadataPath] and [TagPath for Version]. *)
Definition metadata_path (self : Version) : rstr := Version_to_string self.

Definition tag_path (self : Version) : rstr :=
  join [c_dot] (dec <$> iter_for_storage (vparts self))
  ++ (if TagSet_is_empty (pre self) then [] else [c_hyphen]) ++ TagSet_to_string (pre self)
  ++ (if TagSet_is_empty (post self) then [] else [c_dot; c_dot]) ++ TagSet_to_string (post self).

Definition verbatim_tag_path (self : Version) : rstr :=
  join [c_dot] (dec <$> iter_for_display (vparts self) 1)
  ++ (if TagSet_is_empty (pre self) then [] else [c_hyphen]) ++ TagSet_to_string (pre self)
  ++ (if TagSet_is_empty (post self) then [] else [c_dot; c_dot]) ++ TagSet_to_string (post self).

(** The loop over the parts in [Ord for Version]: a decision, or the parts of
    [other] that are left. *)
Fixpoint Version_cmp_parts (self_parts other_parts : list N) : comparison + list N :=
  match self_parts with
  | [] => inr other_parts
  | self_part :: self_parts =>
      match other_parts with
      | other_part :: other_parts =>
          match cmp self_part other_part with
          | Eq => Version_cmp_parts self_parts other_parts
          | r => inl r
          end
      | [] => if (self_part =? 0)%N then Version_cmp_parts self_parts [] else inl Gt
      end
  end.

(** [Iterator::max]. *)
Fixpoint iter_max (l : list N) : option N :=
  match l with
  | [] => None
  | x :: l => match iter_max l with Some m => Some (N.max x m) | None => Some x end
  end.

(** [Ord for Version]. *)
Definition Version_cmp (self other : Version) : comparison :=
  match Version_cmp_parts (parts (vparts self)) (parts (vparts other)) with
  | inl r => r
  | inr other_parts =>
      match (match iter_max other_parts with None => true | Some m => (m =? 0)%N end) with
      | false => Lt
      | true =>
          match cmp (epsilon (vparts self)) (epsilon (vparts other)) with
          | Eq =>
              match (match TagSet_is_empty (pre self), TagSet_is_empty (pre other) with
                     | true, true => Eq
                     | true, false => Gt
                     | false, true => Lt
                     | false, false => cmp (pre self) (pre other)
                     end) with
              | Eq => cmp (post self) (post other)
              | r => r
              end
          | r => r
          end
      end
  end.
#[export] Instance cmp_Version : Cmp Version := Version_cmp.

(** The loop of [parse_version] over the dot-separated parts. *)
Fixpoint parse_parts (version : rstr) (i : nat) (str_parts : list rstr) (acc : list N) :
    res VersionError (list N) :=
  match str_parts with
  | [] => Ok acc
  | p :: str_parts =>
      match parse_u32 p with
      | Some n => parse_parts version (S i) str_parts (acc ++ [n])
      | None => Err (NotAnInteger p i version)
      end
  end.

Definition parse_version (version : rstr) : res VersionError Version :=
  if str_is_empty version then Ok Version_default
  else
    let (version, post) := break_string version c_plus in
    let (version, pre) := break_string version c_hyphen in
    parts ← parse_parts version 0 (split c_dot version) [];
    pre ← parse_tag_set pre;
    post ← parse_tag_set post;
    Ok (mkVersion (VersionParts_from parts) pre post).

(** [PartialEq<S: AsRef<str>> for Version]. *)
Definition Version_eq_str (self : Version) (other : rstr) : bool :=
  match parse_version other with Ok v => Version_eq self v | _ => false end.
