(* ===== verification/VersionOrder.v ===== *)
(** * Version ordering and equality

    The hand-written [Ord], [PartialEq] and [Hash] of
    crates/spk-schema/crates/foundation/src/version/mod.rs, related to one
    canonical key: the parts without trailing zeros, the epsilon, whether the
    version has pre-release tags, and the two sorted tag lists. *)

From S2P Require Import Prelude Strings Collections Names Version.

(** ** Trailing zeros *)

(** Reference definition: the list without its trailing zeros. *)
Fixpoint strip0 (l : list N) : list N :=
  match l with
  | [] => []
  | x :: l => match strip0 l with
              | [] => if (x =? 0)%N then [] else [x]
              | l' => x :: l'
              end
  end.

Lemma strip0_cons x l : strip0 l <> [] -> strip0 (x :: l) = x :: strip0 l.
Proof. simpl. by destruct (strip0 l). Qed.

Lemma strip0_zeros l : strip0 l = [] <-> forallb (fun x => negb (nonzero x)) l = true.
Proof.
  unfold nonzero. induction l as [|x l IH]; simpl; [done|].
  rewrite andb_true_iff, <-IH, negb_involutive.
  destruct (strip0 l), (x =? 0)%N; naive_solver.
Qed.

Lemma strip0_rposition l :
  match rposition nonzero l with
  | Some i => strip0 l = take (S i) l /\ strip0 l <> []
  | None => strip0 l = []
  end.
Proof.
  induction l as [|x l IH]; simpl; [done|].
  destruct (rposition nonzero l) as [i|].
  - destruct IH as [E IH]. destruct (strip0 l) as [|y l'] eqn:El; [done|].
    by rewrite E.
  - rewrite IH. unfold nonzero. destruct (x =? 0)%N; simpl; [done|]. by rewrite take_0.
Qed.

(** Only zeros are stripped. *)
Lemma strip0_app_zeros l : exists k, l = strip0 l ++ repeat 0%N k.
Proof.
  induction l as [|x l [k IH]]; [by exists 0|].
  destruct (strip0 l) as [|y l'] eqn:E; simpl in *; rewrite E.
  - destruct (N.eqb_spec x 0) as [->|]; [exists (S k)|exists k]; simpl; by rewrite IH at 1.
  - exists k. simpl. by rewrite IH at 1.
Qed.

Lemma strip0_zeros_r l k : strip0 (l ++ repeat 0%N k) = strip0 l.
Proof.
  induction l as [|x l IH]; simpl; [|by rewrite IH].
  induction k as [|k IH]; simpl; [done|]. by rewrite IH.
Qed.

Lemma strip0_idemp l : strip0 (strip0 l) = strip0 l.
Proof. destruct (strip0_app_zeros l) as [k Hk]. rewrite Hk at 2. by rewrite strip0_zeros_r. Qed.

Lemma strip0_Forall (P : N -> Prop) l : Forall P l -> Forall P (strip0 l).
Proof. destruct (strip0_app_zeros l) as [k Hk]. rewrite Hk at 1. by intros [? _]%Forall_app. Qed.

Lemma strip0_length l : length (strip0 l) <= length l.
Proof.
  destruct (strip0_app_zeros l) as [k Hk]. rewrite Hk at 2. rewrite length_app. lia.
Qed.

(** ** The ordering of the parts *)

Definition all_zero (l : list N) : bool :=
  match iter_max l with None => true | Some m => (m =? 0)%N end.

Lemma all_zero_cons x l : all_zero (x :: l) = (x =? 0)%N && all_zero l.
Proof.
  unfold all_zero. simpl. destruct (iter_max l) as [m|]; [|by rewrite andb_true_r].
  destruct (N.eqb_spec x 0), (N.eqb_spec m 0), (N.eqb_spec (N.max x m) 0); simpl; lia || done.
Qed.

Lemma all_zero_strip0 l : all_zero l = true <-> strip0 l = [].
Proof.
  induction l as [|x l IH]; [done|]. rewrite all_zero_cons, andb_true_iff, IH. simpl.
  destruct (strip0 l), (x =? 0)%N; naive_solver.
Qed.

Definition cmp_parts_outcome (l k : list N) : comparison :=
  match Version_cmp_parts l k with
  | inl r => r
  | inr o => if all_zero o then Eq else Lt
  end.

Lemma strip0_cases x l :
  (x <> 0%N \/ strip0 l <> []) /\ strip0 (x :: l) = x :: strip0 l \/
  x = 0%N /\ strip0 l = [] /\ strip0 (x :: l) = [].
Proof. simpl. destruct (strip0 l); [|by left; auto]. destruct (N.eqb_spec x 0); auto. Qed.

Lemma cmp_parts_outcome_spec l k : cmp_parts_outcome l k = cmp (strip0 l) (strip0 k).
Proof.
  unfold cmp_parts_outcome, cmp, cmp_list.
  revert k. induction l as [|x l IH]; intros k; cbn [Version_cmp_parts].
  - pose proof (all_zero_strip0 k). destruct (all_zero k), (strip0 k); naive_solver.
  - destruct k as [|y k].
    + destruct (N.eqb_spec x 0) as [->|Hx].
      * rewrite IH. simpl. by destruct (strip0 l).
      * destruct (strip0_cases x l) as [[_ ->]|(? & _)]; done.
    + unfold cmp, cmp_N. specialize (IH k).
      destruct (N.compare_spec x y) as [<-|Hxy|Hxy].
      * rewrite IH. destruct (strip0_cases x l) as [[Hl ->]|(-> & Hl & ->)];
          [|simpl; rewrite Hl; by destruct (strip0 k)].
        destruct (strip0_cases x k) as [[_ ->]|(-> & Hk & ->)]; simpl.
        -- unfold cmp, cmp_N. by rewrite N.compare_refl.
        -- rewrite Hk. destruct (strip0 l); naive_solver.
      * destruct (strip0_cases y k) as [[_ ->]|(-> & _)]; [|lia].
        destruct (strip0_cases x l) as [[_ ->]|(-> & _ & ->)]; simpl; [|done].
        apply N.compare_lt_iff in Hxy. unfold cmp, cmp_N. by rewrite Hxy.
      * destruct (strip0_cases x l) as [[_ ->]|(-> & _)]; [|lia].
        destruct (strip0_cases y k) as [[_ ->]|(-> & _ & ->)]; simpl; [|done].
        apply N.compare_gt_iff in Hxy. unfold cmp, cmp_N. by rewrite Hxy.
Qed.

Lemma Version_cmp_parts_not_eq l k : Version_cmp_parts l k <> inl Eq.
Proof.
  revert k. induction l as [|x l IH]; intros [|y k]; simpl; try done.
  - by destruct (x =? 0)%N.
  - by destruct (cmp x y).
Qed.

(** ** Tag sets *)

Lemma TagSet_cmp_entries_spec l k :
  match TagSet_cmp_entries l k with inl r => r | inr _ => cmp (length l) (length k) end = cmp l k.
Proof.
  revert k. induction l as [|[n v] l IH]; intros [|[n' v'] k]; try done.
  specialize (IH k). cbn [TagSet_cmp_entries length].
  change (cmp ((n, v) :: l) ((n', v') :: k)) with
    (thenc (thenc (cmp n n') (cmp v v')) (cmp l k)). rewrite <-IH.
  by destruct (cmp n n'), (cmp v v').
Qed.

Lemma TagSet_cmp_spec a b : cmp a b = cmp (sort_slice (tags a)) (sort_slice (tags b)).
Proof.
  unfold cmp at 1, cmp_TagSet, TagSet_cmp. rewrite <-TagSet_cmp_entries_spec.
  by rewrite !(Permutation_length (sort_slice_perm _)).
Qed.

#[export] Instance TagSet_cmp_laws : CmpLaws TagSet.
Proof. exact (cmp_laws_by_key _ TagSet_cmp_spec). Qed.

Definition TagSet_wf (t : TagSet) : Prop := bmap_wf (tags t).

Lemma TagSet_sorted t : TagSet_wf t -> sort_slice (tags t) = tags t.
Proof.
  intros Ht. apply sort_slice_id. unfold TagSet_wf, bmap_wf in Ht.
  induction Ht as [|x l Hl IH Hall]; constructor; [done|].
  eapply Forall_impl; [exact Hall|]. intros y Hxy. apply clt_cle.
  unfold clt, cmp, cmp_prod. by rewrite Hxy.
Qed.

Lemma TagSet_cmp_eq a b : TagSet_wf a -> TagSet_wf b -> cmp a b = Eq <-> a = b.
Proof.
  intros Ha Hb. rewrite TagSet_cmp_spec, !TagSet_sorted by done. split.
  - intros E%cmp_eq. destruct a, b. simpl in *. by subst.
  - intros ->. apply cmp_refl.
Qed.

Lemma TagSet_is_empty_nil t : TagSet_is_empty t = true <-> tags t = [].
Proof. unfold TagSet_is_empty. by destruct (tags t). Qed.

(** ** The key of a version *)

#[export] Instance Epsilon_cmp_laws : CmpLaws Epsilon.
Proof. exact (cmp_laws_by_key Epsilon_rank (fun _ _ => eq_refl)). Qed.
#[export] Instance Epsilon_cmp_leibniz : CmpLeibniz Epsilon.
Proof. by intros [] []. Qed.

Definition version_key (v : Version) :=
  (strip0 (parts (vparts v)),
   (epsilon (vparts v),
    ((TagSet_is_empty (pre v), sort_slice (tags (pre v))), sort_slice (tags (post v))))).

Lemma pre_cmp_spec a b :
  match TagSet_is_empty a, TagSet_is_empty b with
  | true, true => Eq
  | true, false => Gt
  | false, true => Lt
  | false, false => cmp a b
  end = cmp (TagSet_is_empty a, sort_slice (tags a)) (TagSet_is_empty b, sort_slice (tags b)).
Proof.
  unfold cmp at 2, cmp_prod; simpl. rewrite <-TagSet_cmp_spec.
  pose proof (TagSet_is_empty_nil a). pose proof (TagSet_is_empty_nil b).
  destruct (TagSet_is_empty a), (TagSet_is_empty b); simpl; try done.
  destruct a as [a], b as [b]; simpl in *.
  by rewrite (proj1 H eq_refl), (proj1 H0 eq_refl).
Qed.

Lemma Version_cmp_key a b : cmp a b = cmp (version_key a) (version_key b).
Proof.
  unfold version_key. rewrite (cmp_pair (strip0 _)), (cmp_pair (epsilon _)), (cmp_pair (_, _)).
  rewrite <-cmp_parts_outcome_spec, <-pre_cmp_spec, <-TagSet_cmp_spec.
  unfold cmp at 1, cmp_Version, Version_cmp, cmp_parts_outcome, all_zero.
  pose proof (Version_cmp_parts_not_eq (parts (vparts a)) (parts (vparts b))).
  destruct (Version_cmp_parts _ _) as [[]|o]; try done.
  destruct (iter_max o) as [m|]; [destruct (m =? 0)%N; [|done]|].
  all: simpl; destruct (cmp (epsilon (vparts a)) _); try done; simpl.
  all: destruct (TagSet_is_empty (pre a)), (TagSet_is_empty (pre b)); try done.
  all: by destruct (cmp (pre a) (pre b)).
Qed.

#[export] Instance Version_cmp_laws : CmpLaws Version.
Proof. exact (cmp_laws_by_key _ Version_cmp_key). Qed.

(** ** Equality and hashing *)

Definition Version_wf (v : Version) : Prop := TagSet_wf (pre v) /\ TagSet_wf (post v).

Lemma VersionParts_eq_spec a b :
  VersionParts_eq a b = true <-> strip0 (parts a) = strip0 (parts b) /\ epsilon a = epsilon b.
Proof.
  unfold VersionParts_eq. rewrite <-(and_comm (epsilon a = epsilon b)).
  case_bool_decide; simpl; [|naive_solver].
  pose proof (strip0_rposition (parts a)) as Ha.
  pose proof (strip0_rposition (parts b)) as Hb.
  destruct (rposition nonzero (parts a)), (rposition nonzero (parts b)).
  - destruct Ha as [<- _], Hb as [<- _]. rewrite bool_decide_eq_true. naive_solver.
  - rewrite Hb. naive_solver.
  - rewrite Ha. naive_solver.
  - rewrite Ha, Hb. naive_solver.
Qed.

Lemma Version_eq_spec a b :
  Version_eq a b = true <->
  strip0 (parts (vparts a)) = strip0 (parts (vparts b)) /\
  epsilon (vparts a) = epsilon (vparts b) /\ pre a = pre b /\ post a = post b.
Proof.
  unfold Version_eq, TagSet_eq. rewrite !andb_true_iff, VersionParts_eq_spec, !bool_decide_eq_true.
  naive_solver.
Qed.

Lemma Version_cmp_eq a b : Version_wf a -> Version_wf b -> cmp a b = Eq <-> Version_eq a b = true.
Proof.
  intros [Ha1 Ha2] [Hb1 Hb2]. rewrite Version_eq_spec, Version_cmp_key. unfold version_key.
  rewrite !TagSet_sorted by done. split.
  - intros E%cmp_eq. simplify_eq. destruct a as [? [] []], b as [? [] []]; simpl in *. naive_solver.
  - intros (-> & -> & -> & ->). apply cmp_refl.
Qed.

Lemma VersionParts_hash_spec a :
  VersionParts_hash a =
  ((match strip0 (parts a) with [] => None | l => Some l end), epsilon a).
Proof.
  unfold VersionParts_hash. pose proof (strip0_rposition (parts a)) as Ha.
  destruct (rposition nonzero (parts a)); simpl; [|by rewrite Ha].
  destruct Ha as [<- ?]. by destruct (strip0 (parts a)).
Qed.

(** ** Properties *)

(** The component at position [i]; positions past the end read as zero. *)
Definition part_at (v : Version) (i : nat) : N := default 0%N (parts (vparts v) !! i).

Lemma strip0_lookup l i : default 0%N (strip0 l !! i) = default 0%N (l !! i).
Proof.
  destruct (strip0_app_zeros l) as [k Hk]. rewrite Hk at 2.
  destruct (decide (i < length (strip0 l))).
  - by rewrite lookup_app_l.
  - rewrite lookup_app_r, (lookup_ge_None_2 (strip0 l)) by lia.
    destruct (repeat 0%N k !! (i - length (strip0 l))) as [x|] eqn:E; [|done].
    apply list_elem_of_lookup_2, list_elem_of_In, repeat_spec in E. by subst.
Qed.

Lemma strip0_ext l k :
  (forall i, default 0%N (l !! i) = default 0%N (k !! i)) -> strip0 l = strip0 k.
Proof.
  revert k. induction l as [|x l IH]; intros k Hi.
  - symmetry. apply strip0_zeros. simpl in Hi. apply forallb_forall.
    intros y [i Hy]%list_elem_of_In%list_elem_of_lookup_1. specialize (Hi i).
    rewrite Hy in Hi. simpl in Hi. unfold nonzero. by subst.
  - destruct k as [|y k].
    + rewrite (proj2 (strip0_zeros _)); [done|]. apply forallb_forall.
      intros y [i Hy]%list_elem_of_In%list_elem_of_lookup_1. specialize (Hi i).
      rewrite Hy in Hi. simpl in Hi. unfold nonzero. by subst.
    + pose proof (Hi 0) as H0. simpl in H0. subst y. simpl.
      rewrite (IH k); [done|]. intros i. exact (Hi (S i)).
Qed.

Lemma list_cmp_first_difference (l k : list N) i :
  (forall j, j < i -> default 0%N (l !! j) = default 0%N (k !! j)) ->
  (default 0 (l !! i) < default 0 (k !! i))%N ->
  cmp (strip0 l) (strip0 k) = Lt.
Proof.
  unfold cmp, cmp_list. revert l k. induction i as [|i IH]; intros l k Hj Hi.
  - destruct k as [|y k]; simpl in Hi; [lia|].
    destruct (strip0_cases y k) as [[_ ->]|(-> & _)]; [|lia].
    destruct l as [|x l]; [done|]. simpl in Hi.
    destruct (strip0_cases x l) as [[_ ->]|(-> & _ & ->)]; [|done]. simpl.
    apply N.compare_lt_iff in Hi. unfold cmp, cmp_N. by rewrite Hi.
  - pose proof (Hj 0 ltac:(lia)) as H0.
    assert (list_cmp (strip0 (tail l)) (strip0 (tail k)) = Lt) as IH'.
    { apply IH; [|by destruct l, k].
      intros j ?. specialize (Hj (S j) ltac:(lia)). by destruct l, k. }
    assert (Hx : forall x, list_cmp (strip0 (x :: tail l)) (strip0 (x :: tail k)) = Lt).
    { intros x. simpl. destruct (strip0 (tail k)) as [|b k'], (strip0 (tail l)) as [|a l']; try done.
      - destruct (x =? 0)%N; simpl; [done|]. unfold cmp, cmp_N. by rewrite N.compare_refl.
      - simpl. unfold cmp at 1, cmp_N. by rewrite N.compare_refl. }
    destruct l as [|x l], k as [|y k]; simpl in H0; subst; simpl in IH'; try done.
    all: apply (Hx 0%N) || apply Hx.
Qed.

(** C2: [Ord for Version] decides by the first position at which the two
    versions differ, missing positions counting as zero; when no position
    differs it goes by the epsilon, then a version without pre-release tags is
    above one with them, then by the pre-release and the post-release tags. *)
Theorem Version_cmp_positional a b :
  (forall i, (forall j, j < i -> part_at a j = part_at b j) ->
     (part_at a i < part_at b i)%N -> Version_cmp a b = Lt /\ Version_cmp b a = Gt) /\
  ((forall i, part_at a i = part_at b i) ->
     Version_cmp a b =
     thenc (cmp (epsilon (vparts a)) (epsilon (vparts b)))
       (thenc (match TagSet_is_empty (pre a), TagSet_is_empty (pre b) with
               | true, true => Eq | true, false => Gt | false, true => Lt
               | false, false => cmp (pre a) (pre b) end)
          (cmp (post a) (post b)))).
Proof.
  change (Version_cmp a b) with (cmp a b). change (Version_cmp b a) with (cmp b a).
  split.
  - intros i Hj Hi. assert (cmp a b = Lt) as E.
    { rewrite Version_cmp_key. unfold version_key. rewrite cmp_pair.
      by rewrite (list_cmp_first_difference _ _ i). }
    split; [done|]. by apply cmp_gt_lt.
  - intros Hi. rewrite Version_cmp_key. unfold version_key.
    rewrite (strip0_ext _ _ Hi), (cmp_pair (strip0 _)), cmp_refl.
    by rewrite (cmp_pair (epsilon _)), (cmp_pair (_, _)), <-pre_cmp_spec, <-TagSet_cmp_spec.
Qed.

Lemma Version_cmp_positional_witness :
  Version_cmp (from_parts [1; 2]%N) (from_parts [1; 2; 0; 1]%N) = Lt /\
  Version_cmp (from_parts [1; 2; 0; 1]%N) (from_parts [1; 2]%N) = Gt.
Proof.
  refine (proj1 (Version_cmp_positional (from_parts [1; 2]%N) (from_parts [1; 2; 0; 1]%N)) 3 _ _).
  - intros [|[|[|j]]] ?; [reflexivity..|lia].
  - reflexivity.
Defined.

(** The ordering of versions is a total order up to [==]: swapping the
    arguments reverses the outcome, [<] is transitive, and two versions compare
    equal exactly when [PartialEq] says they are equal. *)
Theorem Version_total_order a b c :
  Version_cmp b a = CompOpp (Version_cmp a b) /\
  (Version_cmp a b = Lt -> Version_cmp b c = Lt -> Version_cmp a c = Lt) /\
  (Version_wf a -> Version_wf b -> Version_cmp a b = Eq <-> Version_eq a b = true).
Proof.
  split_and!.
  - apply (cmp_antisym a b).
  - apply (cmp_lt_trans a b c).
  - apply (Version_cmp_eq a b).
Qed.

Lemma Version_total_order_witness :
  Version_cmp (from_parts [1]%N) (from_parts [1; 1]%N) = Lt /\
  Version_cmp (from_parts [1]%N) (from_parts [2]%N) = Lt /\
  Version_eq (from_parts [1]%N) (from_parts [1; 0]%N) = true.
Proof.
  destruct (Version_total_order (from_parts [1]%N) (from_parts [1; 1]%N) (from_parts [2]%N))
    as (_ & Htrans & _).
  destruct (Version_total_order (from_parts [1]%N) (from_parts [1; 0]%N) (from_parts [2]%N))
    as (_ & _ & Heq).
  split_and!; [reflexivity|apply Htrans; reflexivity|].
  apply Heq; [split; constructor|split; constructor|reflexivity].
Defined.

(** Versions that differ only in trailing zeros hash the same: two versions'
    numeric parts are [==] exactly when they feed the hasher the same values. *)
Theorem VersionParts_hash_eq a b :
  VersionParts_eq a b = true <-> VersionParts_hash a = VersionParts_hash b.
Proof.
  rewrite VersionParts_eq_spec, !VersionParts_hash_spec.
  rewrite pair_equal_spec.
  destruct (strip0 (parts a)), (strip0 (parts b)); split; intros [? ?]; by simplify_eq.
Qed.

(** An epsilon nudges a version past every version with the same numeric
    parts, whatever its pre- and post-release tags, and past nothing else: the
    other versions compare with the nudged version as they do with the plain
    one. *)
Theorem epsilon_brackets v w :
  epsilon (vparts w) = EpsNone ->
  if VersionParts_eq (VersionParts_from (parts (vparts v))) (vparts w)
  then Version_cmp (minus_epsilon v) w = Lt /\ Version_cmp (plus_epsilon v) w = Gt
  else Version_cmp (minus_epsilon v) w = Version_cmp v w /\
       Version_cmp (plus_epsilon v) w = Version_cmp v w.
Proof.
  intros Hw. change Version_cmp with (@cmp Version _). rewrite !Version_cmp_key.
  pose proof (VersionParts_eq_spec (VersionParts_from (parts (vparts v))) (vparts w)) as Heq.
  simpl in Heq. unfold version_key. rewrite !(cmp_pair (strip0 _)), !(cmp_pair (epsilon _)).
  simpl. rewrite Hw in *. destruct (VersionParts_eq _ _).
  - rewrite (proj1 (proj1 Heq eq_refl)), cmp_refl. done.
  - destruct (cmp (strip0 _) (strip0 _)) eqn:E; [|done..].
    apply cmp_eq in E. discriminate (proj2 Heq (conj E eq_refl)).
Qed.

Lemma epsilon_brackets_witness :
  Version_cmp (plus_epsilon (from_parts [1]%N))
    (mkVersion (VersionParts_from [1; 0]%N) TagSet_default (TagSet_single (lit "r") 7)) = Gt.
Proof.
  exact (proj2 (epsilon_brackets (from_parts [1]%N)
    (mkVersion (VersionParts_from [1; 0]%N) TagSet_default (TagSet_single (lit "r") 7)) eq_refl)).
Defined.

Lemma strip0_last l : strip0 l <> [] -> exists l' x, strip0 l = l' ++ [x] /\ x <> 0%N.
Proof.
  induction l as [|y l IH]; [done|].
  destruct (strip0_cases y l) as [[Hy ->]|(_ & _ & ->)]; [|done]. intros _.
  destruct (strip0 l) as [|z l'] eqn:E.
  - exists [], y. naive_solver.
  - destruct IH as (l'' & x & -> & ?); [done|]. by exists (y :: l''), x.
Qed.

Lemma strip_trailing_zeros_spec a :
  strip_trailing_zeros a =
  mkParts (match strip0 (parts a) with [] => [0%N] | l => l end) (epsilon a).
Proof.
  unfold strip_trailing_zeros. pose proof (strip0_rposition (parts a)) as Ha.
  destruct (rposition nonzero (parts a)) as [i|]; [|by rewrite Ha].
  destruct Ha as [E ?]. replace (i + 1) with (S i) by lia.
  destruct (Nat.eqb_spec i (length (parts a) - 1)).
  - rewrite take_ge in E by lia. rewrite E. destruct a as [[] ?]; done.
  - rewrite <-E. by destruct (strip0 (parts a)).
Qed.

(** [strip_trailing_zeros] is a canonical form: two parts are [==] exactly
    when their stripped forms are identical, stripping keeps a value [==] to
    the original, and the result has one part or a nonzero last part. *)
Theorem strip_trailing_zeros_canonical a b :
  (VersionParts_eq a b = true <-> strip_trailing_zeros a = strip_trailing_zeros b) /\
  VersionParts_eq (strip_trailing_zeros a) a = true /\
  (parts (strip_trailing_zeros a) = [0%N] \/
   exists l x, parts (strip_trailing_zeros a) = l ++ [x] /\ x <> 0%N).
Proof.
  assert (forall a, strip0 (parts (strip_trailing_zeros a)) = strip0 (parts a)) as Hidem.
  { intros c. rewrite strip_trailing_zeros_spec. simpl. pose proof (strip0_idemp (parts c)).
    by destruct (strip0 (parts c)). }
  split_and!.
  - rewrite VersionParts_eq_spec. split.
    + intros [E1 E2]. by rewrite !strip_trailing_zeros_spec, E1, E2.
    + intros E. rewrite <-(Hidem a), <-(Hidem b), E. split; [done|].
      rewrite !strip_trailing_zeros_spec in E. naive_solver.
  - rewrite VersionParts_eq_spec. split; [apply Hidem|]. by rewrite strip_trailing_zeros_spec.
  - rewrite strip_trailing_zeros_spec. simpl. pose proof (strip0_last (parts a)).
    destruct (strip0 (parts a)); [by left|right; auto].
Qed.
