(* ===== verification/VersionText.v ===== *)
(** * Versions as text

    The part iterators of version/parts_iter.rs against their closed forms, and
    the printers of version/mod.rs ([Display] in both modes, the storage
    string, the tag path) against [parse_version]. *)

From S2P Require Import Prelude Strings Collections Names Version VersionOrder.

(** ** Draining the part iterators *)

(** An iterator whose states are related to what they still have to yield is
    drained in one call per element and one more for the end. *)
Lemma iter_collect_yields {S A} (next : S -> option A * S) (R : S -> list A -> Prop) :
  (forall st, R st [] -> (next st).1 = None) ->
  (forall st a l, R st (a :: l) -> exists st', next st = (Some a, st') /\ R st' l) ->
  forall l st fuel, R st l -> length l < fuel -> iter_collect next fuel st = Some l.
Proof.
  intros Hnil Hcons l. induction l as [|a l IH]; intros st [|fuel] HR Hlen; simpl in *; try lia.
  - apply Hnil in HR. destruct (next st) as [o st']. simpl in HR. by subst.
  - destruct (Hcons _ _ _ HR) as (st' & -> & HR'). by rewrite (IH st') by (done || lia).
Qed.

(** [l] padded with zeros to at least [n] elements. *)
Definition pad0 (n : nat) (l : list N) : list N := l ++ repeat 0%N (n - length l).

Lemma repeat_cons_inv {A} (x a : A) n l : repeat x n = a :: l -> a = x /\ exists m, n = S m /\ l = repeat x m.
Proof. destruct n as [|n]; intros; simplify_eq/=. eauto. Qed.

Lemma iter_for_display_spec self n : iter_for_display self n = pad0 n (parts self).
Proof.
  unfold iter_for_display.
  rewrite (iter_collect_yields MinimumPartsPartIter_next (fun st out =>
    out = mpi_parts st ++ repeat 0%N (mpi_minimum_parts st - (mpi_pos st + length (mpi_parts st)))))
    with (l := pad0 n (parts self)); [done|..].
  - intros [l m pos] E. simpl in *. symmetry in E. apply app_eq_nil in E as [-> E].
    unfold MinimumPartsPartIter_next. simpl.
    destruct (Nat.ltb_spec (pos + 1 - 1) m); [|done]. simpl in E.
    destruct (m - (pos + 0)) eqn:Em; [lia|done].
  - intros [l m pos] a out E. unfold MinimumPartsPartIter_next. simpl in *.
    destruct l as [|x l]; simpl in *.
    + symmetry in E. apply repeat_cons_inv in E as (-> & k & Hk & ->).
      destruct (Nat.ltb_spec (pos + 1 - 1) m); [|lia]. eexists; split; [done|]. simpl.
      f_equal. lia.
    + simplify_eq. eexists; split; [done|]. simpl. do 2 f_equal. lia.
  - simpl. unfold pad0. done.
  - unfold pad0. rewrite length_app, repeat_length. lia.
Qed.

(** What a [NormalizedPartsIter] has not yielded yet: the zeros it skipped, the
    part it holds back and the rest of the slice. *)
Definition npi_rest (l : list N) (skipped : nat) (held : option N) : list N :=
  repeat 0%N skipped ++ match held with Some x => x :: l | None => l end.

Definition npi_inv (st : NormalizedPartsIter) (out : list N) : Prop :=
  npi_next_non_zero st <> Some 0%N /\
  let rest := strip0 (npi_rest (npi_parts st) (npi_skipped_zeros st) (npi_next_non_zero st)) in
  out = rest ++ repeat 0%N (MINIMUM_PARTS_FOR_STORAGE - (npi_pos st + length rest)).

Lemma strip0_keep l x k : x <> 0%N -> strip0 (l ++ x :: k) <> [].
Proof.
  intros Hx E%strip0_zeros. rewrite forallb_app in E. simpl in E. unfold nonzero in E.
  destruct (N.eqb_spec x 0); simpl in E; [done|]. by rewrite andb_false_r in E.
Qed.

Lemma npi_loop_spec l pos skipped held :
  held <> Some 0%N ->
  match strip0 (npi_rest l skipped held), npi_loop l pos skipped held with
  | [], (o, st) =>
      o = (if pos - 1 <? MINIMUM_PARTS_FOR_STORAGE then Some 0%N else None) /\
      npi_pos st = pos /\ npi_next_non_zero st <> Some 0%N /\
      strip0 (npi_rest (npi_parts st) (npi_skipped_zeros st) (npi_next_non_zero st)) = []
  | y :: rest, (o, st) =>
      o = Some y /\ npi_pos st = pos /\ npi_next_non_zero st <> Some 0%N /\
      strip0 (npi_rest (npi_parts st) (npi_skipped_zeros st) (npi_next_non_zero st)) = rest
  end.
Proof.
  revert skipped held. induction l as [|x l IH]; intros skipped held Hheld;
    (destruct held as [h|]; [destruct skipped as [|skipped]|]);
    cbn [npi_loop npi_rest repeat app Nat.ltb Nat.leb].
  - unfold npi_rest; simpl. destruct (N.eqb_spec h 0); [naive_solver|]. done.
  - unfold npi_rest; cbn [repeat app].
    pose proof (strip0_keep (repeat 0%N skipped) h [] ltac:(congruence)).
    rewrite strip0_cons by done. simpl. rewrite Nat.sub_0_r. done.
  - pose proof (strip0_zeros_r [] skipped) as Hz. simpl in Hz.
    unfold npi_rest. rewrite app_nil_r, Hz.
    simpl. by destruct (pos - 1 <=? 2); simpl; rewrite app_nil_r.
  - unfold npi_rest; cbn [repeat app].
    assert (strip0 (h :: x :: l) = h :: strip0 (x :: l)) as ->; [|done].
    destruct (strip0_cases h (x :: l)) as [[_ ->]|(-> & _)]; [done|naive_solver].
  - unfold npi_rest; cbn [repeat app].
    pose proof (strip0_keep (repeat 0%N skipped) h (x :: l) ltac:(congruence)).
    rewrite strip0_cons by done. simpl. rewrite Nat.sub_0_r. done.
  - destruct (N.eqb_spec x 0) as [->|Hx].
    + specialize (IH (skipped + 1) None ltac:(done)).
      replace (npi_rest (0%N :: l) skipped None) with (npi_rest l (skipped + 1) None); [done|].
      unfold npi_rest. rewrite repeat_app. by rewrite <-(assoc_L (++)).
    + exact (IH skipped (Some x) ltac:(congruence)).
Qed.

Lemma iter_for_storage_spec self :
  iter_for_storage self = pad0 MINIMUM_PARTS_FOR_STORAGE (strip0 (parts self)).
Proof.
  unfold iter_for_storage.
  rewrite (iter_collect_yields NormalizedPartsIter_next npi_inv)
    with (l := pad0 MINIMUM_PARTS_FOR_STORAGE (strip0 (parts self))); [done|..].
  - intros [l pos sk held] [Hh E]. simpl in *. symmetry in E. apply app_eq_nil in E as [E1 E2].
    unfold NormalizedPartsIter_next; simpl.
    pose proof (npi_loop_spec l (pos + 1) sk held Hh) as Hl. rewrite E1 in Hl, E2.
    destruct (npi_loop _ _ _ _) as [o st]. destruct Hl as [-> _]. simpl in *.
    destruct (Nat.ltb_spec (pos + 1 - 1) MINIMUM_PARTS_FOR_STORAGE); [|done].
    unfold MINIMUM_PARTS_FOR_STORAGE in *. destruct (3 - (pos + 0)) eqn:?; [lia|done].
  - intros [l pos sk held] a out [Hh E]. simpl in *.
    unfold NormalizedPartsIter_next; simpl.
    pose proof (npi_loop_spec l (pos + 1) sk held Hh) as Hl.
    destruct (npi_loop _ _ _ _) as [o st]. exists st.
    destruct (strip0 (npi_rest l sk held)) as [|y rest]; simpl in E.
    + symmetry in E. apply repeat_cons_inv in E as (-> & k & Hk & ->).
      destruct Hl as (-> & Hp & Hh' & Hr). unfold MINIMUM_PARTS_FOR_STORAGE in *.
      destruct (Nat.ltb_spec (pos + 1 - 1) 3); [|lia]. split; [done|]. split; [done|].
      rewrite Hr, Hp. simpl. f_equal. unfold MINIMUM_PARTS_FOR_STORAGE. lia.
    + simplify_eq. destruct Hl as (-> & Hp & Hh' & Hr). split; [done|]. split; [done|].
      rewrite Hr, Hp. do 2 f_equal. lia.
  - split; [done|]. by simpl.
  - unfold pad0. rewrite length_app, repeat_length. pose proof (strip0_length (parts self)).
    unfold MINIMUM_PARTS_FOR_STORAGE. lia.
Qed.

(** ** Well-formed text *)

Definition tag_ok (t : rstr * N) : Prop :=
  t.1 <> [] /\ forallb is_ascii_alphanumeric t.1 = true /\ is_u32 t.2.
Definition TagSet_text_wf (t : TagSet) : Prop := TagSet_wf t /\ Forall tag_ok (tags t).
Definition Version_text_wf (v : Version) : Prop :=
  epsilon (vparts v) = EpsNone /\ Forall is_u32 (parts (vparts v)) /\
  TagSet_text_wf (pre v) /\ TagSet_text_wf (post v).

Lemma str_is_empty_nil s : str_is_empty s = true <-> s = [].
Proof. by destruct s. Qed.
Lemma str_is_empty_cons s : str_is_empty s = false <-> s <> [].
Proof. by destruct s. Qed.

Lemma join_cons sep w w' ws : join sep (w :: w' :: ws) = w ++ sep ++ join sep (w' :: ws).
Proof. done. Qed.

Lemma join_no_char c sep ws :
  str_contains c sep = false -> Forall (fun w => str_contains c w = false) ws ->
  str_contains c (join sep ws) = false.
Proof.
  intros Hsep Hws. induction Hws as [|w ws Hw Hws IH]; [done|].
  destruct ws as [|w' ws]; [done|]. rewrite join_cons, !str_contains_app.
  by rewrite Hw, Hsep, IH.
Qed.

Lemma join_nonempty sep ws : ws <> [] -> Forall (fun w => w <> []) ws -> join sep ws <> [].
Proof.
  intros Hne Hws. destruct ws as [|w ws]; [done|]. apply Forall_cons in Hws as [Hw _].
  destruct ws; simpl; [done|]. by destruct w. Qed.

Lemma digits_no_char c n : is_ascii_digit c = false -> str_contains c (dec n) = false.
Proof. intros Hc. eapply str_contains_class; [apply dec_digits|done]. Qed.

Lemma fmt_tag_no_char c t :
  is_ascii_alphanumeric c = false -> is_ascii_digit c = false -> (c =? c_dot)%N = false ->
  tag_ok t -> str_contains c (fmt_tag t) = false.
Proof.
  intros Hc Hd Hdot (_ & Hn & _). unfold fmt_tag. rewrite !str_contains_app.
  rewrite (str_contains_class _ _ _ Hn Hc), digits_no_char by done. simpl.
  by rewrite Hdot.
Qed.

Lemma TagSet_to_string_no_char c t :
  is_ascii_alphanumeric c = false -> is_ascii_digit c = false ->
  (c =? c_dot)%N = false -> (c =? c_comma)%N = false ->
  Forall tag_ok (tags t) -> str_contains c (TagSet_to_string t) = false.
Proof.
  intros Hc Hd Hdot Hcomma Ht. apply join_no_char; [simpl; by rewrite Hcomma|].
  apply Forall_fmap. eapply Forall_impl; [exact Ht|]. intros. by apply fmt_tag_no_char.
Qed.

Lemma break_string_app sep a b :
  str_contains sep a = false -> break_string (a ++ sep :: b) sep = (a, b).
Proof. intros Ha. unfold break_string. by rewrite split_once_app. Qed.

Lemma break_string_none sep a : str_contains sep a = false -> break_string a sep = (a, []).
Proof. intros Ha%split_once_None. unfold break_string. by rewrite Ha. Qed.

Lemma break_string_spec sep s a b :
  break_string s sep = (a, b) -> str_contains sep a = false /\ (s = a ++ sep :: b \/ s = a /\ b = []).
Proof.
  unfold break_string. destruct (split_once sep s) as [[a' b']|] eqn:E; intros; simplify_eq.
  - apply split_once_Some in E as [-> ?]. auto.
  - apply split_once_None in E. auto.
Qed.

(** ** Tag sets *)

Lemma validate_tag_name_ok s :
  lift_name_error (validate_tag_name s) = Ok tt <-> forallb is_ascii_alphanumeric s = true.
Proof.
  unfold validate_tag_name.
  pose proof (check_chars_outcome ReleaseTagName is_ascii_alphanumeric s alphanumeric_ascii) as Hc.
  destruct (check_chars _ _ _) as [[]| |]; simpl; [done|..]; destruct Hc as [-> _]; done.
Qed.

Lemma bmap_contains_key_above {V} k (m : list (rstr * V)) :
  Forall (fun p => clt p.1 k) m -> bmap_contains_key k m = false.
Proof.
  unfold bmap_contains_key. induction 1 as [|[k' v'] m Hx Hm IH]; simpl in *; [done|].
  apply cmp_gt_lt in Hx. by rewrite Hx.
Qed.

Lemma bmap_wf_app_cons {V} (acc m : list (rstr * V)) x :
  bmap_wf (acc ++ x :: m) -> Forall (fun p => clt p.1 x.1) acc.
Proof.
  unfold bmap_wf. induction acc as [|y acc IH]; simpl; [done|].
  intros [Hs Hall]%StronglySorted_inv. constructor; [|by apply IH].
  rewrite Forall_forall in Hall. apply Hall. set_solver.
Qed.

Lemma parse_tag_segments_fmt m acc :
  bmap_wf (acc ++ m) -> Forall tag_ok m ->
  parse_tag_segments (fmt_tag <$> m) acc = Ok (mkTagSet (acc ++ m)).
Proof.
  intros Hwf Hm. revert acc Hwf. induction Hm as [|[n v] m (Hn & Ha & Hv) Hm IH]; intros acc Hwf.
  - by rewrite app_nil_r.
  - cbn [fmap list_fmap parse_tag_segments]. simpl in Hn, Ha, Hv.
    change (fmt_tag (n, v)) with (n ++ c_dot :: dec v). rewrite break_string_app.
    2: { by apply (str_contains_class _ _ _ Ha). }
    pose proof (dec_nonempty v) as Hd.
    rewrite (proj2 (str_is_empty_cons n) Hn), (proj2 (str_is_empty_cons (dec v)) Hd). simpl.
    pose proof (bmap_wf_app_cons _ _ _ Hwf) as Hlt. simpl in Hlt.
    rewrite bmap_contains_key_above by done.
    rewrite (proj2 (validate_tag_name_ok n) Ha). simpl.
    unfold parse_u32. rewrite parse_uint_dec by done.
    rewrite bmap_insert_last by done. fold (fmt_tag <$> m).
    rewrite IH; by rewrite <-(assoc_L (++)).
Qed.

(** Parsing a printed tag set gives it back. *)
Lemma parse_tag_set_to_string t :
  TagSet_text_wf t -> parse_tag_set (TagSet_to_string t) = Ok t.
Proof.
  intros [Hwf Hok]. unfold parse_tag_set. destruct t as [[|x m]]; [done|].
  assert (TagSet_to_string (mkTagSet (x :: m)) <> []) as Hne.
  { apply join_nonempty; [done|]. apply Forall_fmap, Forall_forall. intros [] _. unfold fmt_tag.
    simpl. by destruct l. }
  rewrite (proj2 (str_is_empty_cons _) Hne). unfold TagSet_to_string. rewrite split_join.
  - by apply (parse_tag_segments_fmt _ []).
  - done.
  - apply Forall_fmap. eapply Forall_impl; [exact Hok|]. intros. by apply fmt_tag_no_char.
Qed.

Lemma parse_tag_segments_wf segs acc t :
  bmap_wf acc -> Forall tag_ok acc -> parse_tag_segments segs acc = Ok t -> TagSet_text_wf t.
Proof.
  revert acc. induction segs as [|seg segs IH]; intros acc Hwf Hok; simpl.
  - intros [= <-]. done.
  - destruct (break_string seg c_dot) as [n v].
    destruct (str_is_empty n) eqn:Hn, (str_is_empty v); try done. simpl.
    destruct (bmap_contains_key n acc); [done|].
    destruct (lift_name_error (validate_tag_name n)) as [[]| |] eqn:Hname; try done. simpl.
    destruct (parse_u32 v) as [k|] eqn:Hv; [|done]. apply IH.
    + by apply bmap_insert_wf.
    + apply bmap_insert_Forall; [|done]. intros n' <-%cmp_eq. split_and!; simpl.
      * by apply str_is_empty_cons.
      * by apply validate_tag_name_ok.
      * by apply parse_uint_le in Hv.
Qed.

Lemma parse_tag_set_wf s t : parse_tag_set s = Ok t -> TagSet_text_wf t.
Proof.
  unfold parse_tag_set. destruct (str_is_empty s).
  - intros [= <-]. by split; constructor.
  - apply parse_tag_segments_wf; constructor.
Qed.

Lemma parse_tag_set_empty t : TagSet_text_wf t -> TagSet_is_empty t = true -> TagSet_to_string t = [].
Proof. intros _ E%TagSet_is_empty_nil. unfold TagSet_to_string. by rewrite E. Qed.

(** ** Versions *)

Definition base_text (l : list N) : rstr := join [c_dot] (dec <$> l).
Definition sep_text (sep : rstr) (t : TagSet) : rstr :=
  if TagSet_is_empty t then [] else sep ++ TagSet_to_string t.

Lemma parse_parts_dec version i l acc :
  Forall is_u32 l -> parse_parts version i (dec <$> l) acc = Ok (acc ++ l).
Proof.
  intros Hl. revert i acc. induction Hl as [|n l Hn Hl IH]; intros i acc; simpl.
  - by rewrite app_nil_r.
  - unfold parse_u32. rewrite parse_uint_dec by done. rewrite IH. by rewrite <-(assoc_L (++)).
Qed.

Lemma base_text_no_char c l :
  is_ascii_digit c = false -> (c =? c_dot)%N = false -> str_contains c (base_text l) = false.
Proof.
  intros Hc Hd. apply join_no_char; [simpl; by rewrite Hd|].
  apply Forall_fmap, Forall_forall. intros. by apply digits_no_char.
Qed.

Lemma base_text_nonempty l : l <> [] -> base_text l <> [].
Proof.
  intros Hl. apply join_nonempty; [by destruct l|]. apply Forall_fmap, Forall_forall.
  intros. apply dec_nonempty.
Qed.

Lemma break_sep_text sep a t :
  str_contains sep a = false -> break_string (a ++ sep_text [sep] t) sep = (a, TagSet_to_string t).
Proof.
  intros Ha. unfold sep_text. destruct (TagSet_is_empty t) eqn:E.
  - rewrite app_nil_r, break_string_none by done. apply TagSet_is_empty_nil in E.
    unfold TagSet_to_string. by rewrite E.
  - by apply break_string_app.
Qed.

Lemma sep_text_no_char c sep t :
  is_ascii_alphanumeric c = false -> is_ascii_digit c = false ->
  (c =? c_dot)%N = false -> (c =? c_comma)%N = false -> str_contains c sep = false ->
  Forall tag_ok (tags t) -> str_contains c (sep_text sep t) = false.
Proof.
  intros. unfold sep_text. destruct (TagSet_is_empty t); [done|].
  rewrite str_contains_app, TagSet_to_string_no_char by done. by rewrite orb_false_r.
Qed.

(** Parsing a base and its tags gives the version they were printed from. *)
Lemma parse_version_text l pre post :
  l <> [] -> Forall is_u32 l -> TagSet_text_wf pre -> TagSet_text_wf post ->
  parse_version (base_text l ++ sep_text [c_hyphen] pre ++ sep_text [c_plus] post) =
  Ok (mkVersion (VersionParts_from l) pre post).
Proof.
  intros Hne Hl Hpre Hpost. unfold parse_version. rewrite (assoc_L (++)).
  pose proof (base_text_nonempty l Hne) as Hb.
  assert (str_is_empty ((base_text l ++ sep_text [c_hyphen] pre) ++ sep_text [c_plus] post) = false)
    as -> by (apply str_is_empty_cons; by destruct (base_text l)).
  rewrite break_sep_text.
  2: { rewrite str_contains_app, base_text_no_char by done.
       by apply sep_text_no_char; [..|apply Hpre]. }
  rewrite break_sep_text by by apply base_text_no_char.
  unfold base_text at 2. rewrite split_join.
  - rewrite parse_parts_dec by done. simpl. by rewrite !parse_tag_set_to_string.
  - by destruct l.
  - apply Forall_fmap, Forall_forall. intros. by apply digits_no_char.
Qed.

Definition parts_or_zero (l : list N) : list N := match l with [] => [0%N] | _ => l end.

Lemma parts_or_zero_u32 l : Forall is_u32 l -> Forall is_u32 (parts_or_zero l).
Proof. intros. destruct l; [|done]. repeat constructor. unfold is_u32. lia. Qed.

Lemma parts_or_zero_nonempty l : parts_or_zero l <> [].
Proof. by destruct l. Qed.

Lemma parts_or_zero_strip0 l : strip0 (parts_or_zero l) = strip0 l.
Proof. by destruct l. Qed.

Lemma Version_fmt_text alternate v :
  epsilon (vparts v) = EpsNone ->
  Version_fmt alternate v =
  base_text (parts_or_zero (if alternate then parts (vparts v) else pad0 3 (parts (vparts v))))
  ++ sep_text [c_hyphen] (pre v) ++ sep_text [c_plus] (post v).
Proof.
  intros He. unfold Version_fmt, base_verbatim, base_normalized, base, format_tags, sep_text.
  rewrite He, iter_for_display_spec.
  assert (forall l, (if str_is_empty (base_text l) then lit "0" else base_text l) =
    base_text (parts_or_zero l)) as Hb.
  { intros [|n l]; [done|]. pose proof (base_text_nonempty (n :: l) ltac:(done)).
    change (parts_or_zero (n :: l)) with (n :: l). by destruct (base_text (n :: l)). }
  fold (base_text (parts (vparts v))). fold (base_text (pad0 3 (parts (vparts v)))).
  change MINIMUM_PARTS_FOR_DISPLAY with 3. fold (base_text (pad0 3 (parts (vparts v)))).
  destruct alternate.
  all: rewrite Hb; destruct (TagSet_is_empty (pre v)), (TagSet_is_empty (post v)); simpl.
  all: done.
Qed.

Lemma to_storage_string_text v :
  to_storage_string v =
  base_text (pad0 3 (strip0 (parts (vparts v))))
  ++ sep_text [c_hyphen] (pre v) ++ sep_text [c_plus] (post v).
Proof.
  unfold to_storage_string, sep_text. rewrite iter_for_storage_spec.
  assert (forall t, TagSet_is_empty t = true -> TagSet_to_string t = []) as Ht.
  { intros t E%TagSet_is_empty_nil. unfold TagSet_to_string. by rewrite E. }
  f_equal. destruct (TagSet_is_empty (pre v)) eqn:E1, (TagSet_is_empty (post v)) eqn:E2;
    by rewrite ?(Ht _ E1), ?(Ht _ E2), ?app_nil_r, <-?(assoc_L (++)).
Qed.

Lemma pad0_u32 n l : Forall is_u32 l -> Forall is_u32 (pad0 n l).
Proof.
  intros Hl. apply Forall_app_2; [done|]. apply Forall_forall.
  intros x Hx%list_elem_of_In%repeat_spec. by subst.
Qed.

Lemma pad0_strip0 n l : strip0 (pad0 n l) = strip0 l.
Proof. apply strip0_zeros_r. Qed.

Lemma pad0_S_nonempty n l : pad0 (S n) l <> [].
Proof. by destruct l. Qed.

(** *** Tag paths

    A tag path spells the ["+"] of a storage string as [".."].  Reading the
    first [".."] back as ["+"] recovers the storage string, because neither the
    base nor the pre-release tags contain two dots in a row. *)

Fixpoint undots (s : rstr) : rstr :=
  match s with
  | c :: s' =>
      match s' with
      | c' :: s'' => if (c =? c_dot)%N && (c' =? c_dot)%N then c_plus :: s'' else c :: undots s'
      | [] => [c]
      end
  | [] => []
  end.

(** No two dots in a row, none at the end, and none at the start when [prev]. *)
Fixpoint dots_ok (prev : bool) (s : rstr) : bool :=
  match s with
  | [] => negb prev
  | c :: s => if (c =? c_dot)%N then negb prev && dots_ok true s else dots_ok false s
  end.

Lemma dots_ok_weaken s : dots_ok true s = true -> dots_ok false s = true.
Proof. destruct s; simpl; [done|]. by destruct (n =? c_dot)%N. Qed.

Lemma dots_ok_app prev s t :
  dots_ok prev s = true -> dots_ok false t = true -> dots_ok prev (s ++ t) = true.
Proof.
  revert prev. induction s as [|c s IH]; intros prev; simpl.
  - by destruct prev.
  - destruct (c =? c_dot)%N; [|apply IH]. rewrite !andb_true_iff. naive_solver.
Qed.

Lemma dots_ok_class (p : char -> bool) prev s :
  p c_dot = false -> s <> [] -> forallb p s = true -> dots_ok prev s = true.
Proof.
  intros Hp Hs Hall. destruct s as [|c s]; [done|]. clear Hs.
  revert prev c Hall. induction s as [|d s IH]; intros prev c; simpl.
  - rewrite andb_true_r. intros Hc. destruct (N.eqb_spec c c_dot); congruence.
  - intros [Hc Hall]%andb_true_iff. destruct (N.eqb_spec c c_dot); [congruence|]. by apply (IH false d).
Qed.

Lemma dots_ok_join prev sep ws :
  (forall s, dots_ok true s = true -> dots_ok false (sep :: s) = true) ->
  ws <> [] -> Forall (fun w => forall p, dots_ok p w = true) ws ->
  dots_ok prev (join [sep] ws) = true.
Proof.
  intros Hsep Hne Hws. revert prev. induction Hws as [|w ws Hw Hws IH]; intros prev; [done|].
  destruct ws as [|w' ws]; [apply Hw|]. rewrite join_cons.
  apply dots_ok_app; [apply Hw|]. apply Hsep, IH. done.
Qed.

Lemma undots_cons c d s :
  dots_ok false (c :: d :: s) = true ->
  dots_ok false (d :: s) = true /\
  forall t, undots (c :: d :: s ++ t) = c :: undots (d :: s ++ t).
Proof.
  cbn [dots_ok undots]. destruct (N.eqb_spec c c_dot), (N.eqb_spec d c_dot); done.
Qed.

Lemma undots_dots s t : dots_ok false s = true -> undots (s ++ c_dot :: c_dot :: t) = s ++ c_plus :: t.
Proof.
  induction s as [|c s IH]; [done|]. destruct s as [|d s]; intros Hs.
  - simpl in *. by destruct (c =? c_dot)%N.
  - apply undots_cons in Hs as [Hs Hu]. cbn [app] in *. by rewrite Hu, IH.
Qed.

Lemma undots_id s : dots_ok false s = true -> undots s = s.
Proof.
  induction s as [|c s IH]; [done|]. destruct s as [|d s]; intros Hs; [done|].
  apply undots_cons in Hs as [Hs Hu]. specialize (Hu []). rewrite app_nil_r in Hu.
  by rewrite Hu, IH.
Qed.

Lemma base_text_dots prev l : l <> [] -> dots_ok prev (base_text l) = true.
Proof.
  intros Hl. apply dots_ok_join; [done|by destruct l|].
  apply Forall_fmap, Forall_forall. intros n _ p.
  apply (dots_ok_class is_ascii_digit); [done|apply dec_nonempty|apply dec_digits].
Qed.

Lemma TagSet_to_string_dots prev t :
  Forall tag_ok (tags t) -> TagSet_is_empty t = false -> dots_ok prev (TagSet_to_string t) = true.
Proof.
  intros Ht He. apply dots_ok_join; [apply dots_ok_weaken|by destruct t as [[]]|].
  apply Forall_fmap. eapply Forall_impl; [exact Ht|]. intros [n v] (Hn & Ha & _) p. simpl in *.
  change (fmt_tag (n, v)) with (n ++ c_dot :: dec v). apply dots_ok_app.
  - by apply (dots_ok_class is_ascii_alphanumeric).
  - change (dots_ok true (dec v) = true). apply (dots_ok_class is_ascii_digit); [done|apply dec_nonempty|apply dec_digits].
Qed.

Lemma tag_path_text v :
  tag_path v =
  base_text (pad0 3 (strip0 (parts (vparts v))))
  ++ sep_text [c_hyphen] (pre v) ++ sep_text [c_dot; c_dot] (post v).
Proof.
  unfold tag_path, sep_text. rewrite iter_for_storage_spec.
  assert (forall t, TagSet_is_empty t = true -> TagSet_to_string t = []) as Ht.
  { intros t E%TagSet_is_empty_nil. unfold TagSet_to_string. by rewrite E. }
  f_equal. destruct (TagSet_is_empty (pre v)) eqn:E1, (TagSet_is_empty (post v)) eqn:E2;
    by rewrite ?(Ht _ E1), ?(Ht _ E2), ?app_nil_r, <-?(assoc_L (++)).
Qed.

Lemma undots_tag_path v : Version_text_wf v -> undots (tag_path v) = to_storage_string v.
Proof.
  intros (_ & _ & [_ Hpre] & _). rewrite tag_path_text, to_storage_string_text, !(assoc_L (++)).
  assert (dots_ok false (base_text (pad0 3 (strip0 (parts (vparts v)))) ++
    sep_text [c_hyphen] (pre v)) = true) as Hd.
  { apply dots_ok_app; [apply base_text_dots, pad0_S_nonempty|]. unfold sep_text.
    destruct (TagSet_is_empty (pre v)) eqn:E; [done|]. simpl. by apply TagSet_to_string_dots. }
  unfold sep_text at 2 4. destruct (TagSet_is_empty (post v)).
  - rewrite !app_nil_r. by apply undots_id.
  - by apply undots_dots.
Qed.

(** ** Properties *)

(** C37: printing a version and parsing the text gives it back.  The [{:#}] form,
    which serialization uses, gives back the very same value (a version without
    parts prints as ["0"] and comes back with that one part); the normalized
    form gives back a version that is [==] to it. *)
Theorem parse_version_display v :
  Version_text_wf v ->
  parse_version (Version_serialize v) =
    Ok (mkVersion (VersionParts_from (parts_or_zero (parts (vparts v))))
          (pre v) (post v)) /\
  exists v', parse_version (Version_to_string v) = Ok v' /\ Version_eq v' v = true.
Proof.
  intros (He & Hl & Hpre & Hpost).
  unfold Version_serialize, Version_to_string. rewrite !Version_fmt_text by done. split.
  - apply parse_version_text; auto using parts_or_zero_u32, parts_or_zero_nonempty.
  - eexists. rewrite parse_version_text
      by auto using parts_or_zero_u32, parts_or_zero_nonempty, pad0_u32. split; [done|].
    apply Version_eq_spec. simpl. by rewrite parts_or_zero_strip0, pad0_strip0.
Qed.

Lemma Version_text_wf_parts l : Forall is_u32 l -> Version_text_wf (from_parts l).
Proof. intros. split_and!; try done; by split; constructor. Qed.

Lemma parse_version_display_witness :
  parse_version (Version_serialize (from_parts [1; 0]%N)) = Ok (from_parts [1; 0]%N).
Proof.
  refine (proj1 (parse_version_display (from_parts [1; 0]%N) _)).
  apply Version_text_wf_parts. repeat constructor; vm_compute; discriminate.
Defined.

Lemma parse_parts_wf version i ws acc l :
  parse_parts version i ws acc = Ok l -> Forall is_u32 acc ->
  Forall is_u32 l /\ length l = length acc + length ws.
Proof.
  revert i acc. induction ws as [|w ws IH]; intros i acc; simpl.
  - intros [= <-]. split; [done|lia].
  - destruct (parse_u32 w) as [n|] eqn:E; [|done]. intros H Hacc.
    apply IH in H as [H1 H2]; [rewrite length_app in H2; simpl in H2; split; [done|lia]|].
    apply Forall_app_2; [done|]. repeat constructor. by apply parse_uint_le in E.
Qed.

(** What [parse_version] accepts is well-formed text: no epsilon, every
    number fits a [u32], tags are in order with valid names, and at least one
    part unless the input is empty.  So a parsed version survives
    serialization unchanged. *)
Theorem parse_version_wf s v :
  parse_version s = Ok v ->
  Version_text_wf v /\ (s <> [] -> parts (vparts v) <> []) /\
  (s <> [] -> parse_version (Version_serialize v) = Ok v).
Proof.
  unfold parse_version at 1. destruct (str_is_empty s) eqn:Hs.
  - intros [= <-]. apply str_is_empty_nil in Hs. split_and!; try done.
    split_and!; try done; by split; constructor.
  - destruct (break_string s c_plus) as [s1 spost]. destruct (break_string s1 c_hyphen) as [s2 spre].
    destruct (parse_parts s2 0 (split c_dot s2) []) as [l| |] eqn:El; simpl; try done.
    destruct (parse_tag_set spre) as [tpre| |] eqn:E1; simpl; try done.
    destruct (parse_tag_set spost) as [tpost| |] eqn:E2; simpl; try done. intros [= <-].
    apply parse_parts_wf in El as [Hl Hlen]; [|constructor].
    apply parse_tag_set_wf in E1, E2. pose proof (split_nonempty c_dot s2) as Hne.
    assert (l <> []) as Hl' by (intros ->; by destruct (split c_dot s2)).
    assert (Version_text_wf (mkVersion (VersionParts_from l) tpre tpost)) as Hwf by done.
    split_and!; try done. intros _. unfold Version_serialize. rewrite Version_fmt_text by done.
    simpl. rewrite parse_version_text; by destruct l.
Qed.

Lemma parse_version_wf_witness :
  parse_version (Version_serialize (from_parts [7]%N)) = Ok (from_parts [7]%N).
Proof. exact (proj2 (proj2 (parse_version_wf (lit "7") (from_parts [7]%N) eq_refl)) ltac:(done)). Defined.

Lemma storage_strings_spec a b :
  Version_text_wf a -> Version_text_wf b ->
  (to_storage_string a = to_storage_string b <-> Version_eq a b = true) /\
  (tag_path a = tag_path b <-> Version_eq a b = true).
Proof.
  intros Ha Hb.
  assert (to_storage_string a = to_storage_string b -> Version_eq a b = true) as Hinj.
  { intros E%(f_equal parse_version). rewrite !to_storage_string_text in E.
    destruct Ha as (Ea & ? & ? & ?), Hb as (Eb & ? & ? & ?).
    rewrite !parse_version_text in E
      by auto using pad0_S_nonempty, pad0_u32, strip0_Forall.
    apply Version_eq_spec. injection E as E Epre Epost. split_and!; try done.
    - apply (f_equal strip0) in E. by rewrite !pad0_strip0, !strip0_idemp in E.
    - congruence. }
  split; split; try done.
  - intros (E1 & _ & E2 & E3)%Version_eq_spec. by rewrite !to_storage_string_text, E1, E2, E3.
  - intros E%(f_equal undots). rewrite !undots_tag_path in E by done. auto.
  - intros (E1 & _ & E2 & E3)%Version_eq_spec. by rewrite !tag_path_text, E1, E2, E3.
Qed.


(** C32: the storage string and the tag path identify a version up to [==]: two
    versions share either of them exactly when they are equal, so versions
    never collide in a repository and [1.0] and [1.0.0] share one tag. *)
Theorem storage_string_identifies a b :
  Version_text_wf a -> Version_text_wf b ->
  (to_storage_string a = to_storage_string b <-> Version_eq a b = true) /\
  (tag_path a = tag_path b <-> Version_eq a b = true).
Proof. apply storage_strings_spec. Qed.
Lemma storage_string_identifies_witness :
  tag_path (from_parts [1]%N) = tag_path (from_parts [1; 0; 0; 0]%N).
Proof.
  refine (proj2 (proj2 (storage_string_identifies (from_parts [1]%N) (from_parts [1; 0; 0; 0]%N)
    _ _)) eq_refl); apply Version_text_wf_parts; repeat constructor; vm_compute; discriminate.
Defined.
