(* ===== verification/Compat.v ===== *)
(** * Compatibility specifications

    Models the data and printing half of
    crates/spk-schema/crates/foundation/src/version/compat/mod.rs:
    [CompatRule], [CompatRuleSet] and [Compat]. *)

From S2P Require Import Prelude Strings Collections Version.

Inductive CompatRule := RuleNone | RuleAPI | RuleBinary.
#[export] Instance CompatRule_eq_dec : EqDecision CompatRule.
Proof. solve_decision. Defined.

(** [AsRef<str>]: the one-letter names. *)
Definition CompatRule_as_ref (r : CompatRule) : rstr :=
  match r with
  | RuleNone => lit "x"
  | RuleAPI => lit "a"
  | RuleBinary => lit "b"
  end.

(** [Display]; with the alternate flag the long names, where [None] is
    unreachable. *)
Definition CompatRule_fmt (alternate : bool) (r : CompatRule) : res Empty_set rstr :=
  if alternate then
    match r with
    | RuleNone => Panicked
    | RuleAPI => Ok (lit "API")
    | RuleBinary => Ok (lit "Binary")
    end
  else Ok (CompatRule_as_ref r).

(** [FromStr]: the long names; [None] is an error. *)
Definition CompatRule_from_str (s : rstr) : option CompatRule :=
  if bool_decide (s = lit "API") then Some RuleAPI
  else if bool_decide (s = lit "Binary") then Some RuleBinary
  else None.

(** [Ord]: by the one-letter names. *)
#[export] Instance cmp_CompatRule : Cmp CompatRule := cmp_on CompatRule_as_ref.

(** [CompatRuleSet]: a [BTreeSet] of rules. *)
Record CompatRuleSet := mkRuleSet { rule_set : list CompatRule }.
#[export] Instance CompatRuleSet_eq_dec : EqDecision CompatRuleSet.
Proof. solve_decision. Defined.
#[export] Instance cmp_CompatRuleSet : Cmp CompatRuleSet := cmp_on rule_set.

Definition CompatRuleSet_to_string (self : CompatRuleSet) : rstr :=
  join [] (CompatRule_as_ref <$> rule_set self).

Definition CompatRuleSet_single (first : CompatRule) : CompatRuleSet :=
  mkRuleSet (bset_collect [first]).
Definition CompatRuleSet_double (first second : CompatRule) : CompatRuleSet :=
  mkRuleSet (bset_collect [first; second]).
Definition CompatRuleSet_triple (first second third : CompatRule) : CompatRuleSet :=
  mkRuleSet (bset_collect [first; second; third]).

Record Compat := mkCompat {
  compat_parts : list CompatRuleSet;
  compat_pre : option CompatRuleSet;
  compat_post : option CompatRuleSet;
}.
#[export] Instance Compat_eq_dec : EqDecision Compat.
Proof. solve_decision. Defined.

(** [Default]: ["x.a.b"]. *)
Definition Compat_default : Compat :=
  mkCompat [CompatRuleSet_single RuleNone; CompatRuleSet_single RuleAPI;
            CompatRuleSet_single RuleBinary] None None.

Definition Compat_is_default (self : Compat) : bool := bool_decide (self = Compat_default).

Definition Compat_double (first second : CompatRuleSet) : Compat :=
  mkCompat [first; second] None None.
Definition Compat_triple (first second third : CompatRuleSet) : Compat :=
  mkCompat [first; second; third] None None.

Definition Compat_to_string (self : Compat) : rstr :=
  join [c_dot] (CompatRuleSet_to_string <$> compat_parts self)
  ++ match compat_pre self with Some pre => [c_hyphen] ++ CompatRuleSet_to_string pre | None => [] end
  ++ match compat_post self with Some post => [c_plus] ++ CompatRuleSet_to_string post | None => [] end.

(** The first [n] elements of [parts] followed by zeros for ever. *)
Fixpoint take_or_zero (parts : list N) (n : nat) : list N :=
  match n with
  | O => []
  | S n => match parts with
           | [] => 0%N :: take_or_zero [] n
           | p :: parts => p :: take_or_zero parts n
           end
  end.

(** [Compat::render]. *)
Definition Compat_render (self : Compat) (version : Version) : rstr :=
  lit "~" ++ join [c_dot] (dec <$> take_or_zero (parts (vparts version)) (length (compat_parts self))).

(** ** The order of the rules *)

#[export] Instance CompatRule_cmp_laws : CmpLaws CompatRule.
Proof. exact (cmp_laws_by_key CompatRule_as_ref (fun _ _ => eq_refl)). Qed.
#[export] Instance CompatRule_cmp_leibniz : CmpLeibniz CompatRule.
Proof. by intros [] []. Qed.

Definition rule_in (r : CompatRule) (s : CompatRuleSet) : bool := bset_contains r (rule_set s).

Lemma rule_in_elem r s : rule_in r s = true <-> r ∈ rule_set s.
Proof.
  unfold rule_in. rewrite bset_contains_elem. split.
  - by intros (y & ? & ->%cmp_eq).
  - intros ?. exists r. split; [done|apply cmp_refl].
Qed.
