(* ===== verification/RangeData.v ===== *)
(** * Version range data

    The range structures of
    crates/spk-schema/crates/foundation/src/version_range/mod.rs with their
    constructors, the [VersionRange] enum that nests filters, and the derived
    ordering that keys the [BTreeSet] of a filter's rules. *)

From S2P Require Import Prelude Strings Collections Version VersionOrder Compat.

Record SemverRange := mkSemver { semver_minimum : Version }.
Record WildcardRange := mkWildcard { wildcard_specified : nat; wildcard_parts : list (option N) }.
Record LowestSpecifiedRange := mkLowest { lowest_specified : nat; lowest_base : Version }.
Record GreaterThanRange := mkGt { gt_bound : Version }.
Record LessThanRange := mkLt { lt_bound : Version }.
Record GreaterThanOrEqualToRange := mkGte { gte_bound : Version }.
Record LessThanOrEqualToRange := mkLte { lte_bound : Version }.
Record EqualsVersion := mkEquals { equals_version : Version }.
Record NotEqualsVersion := mkNotEquals { ne_specified : nat; ne_base : Version }.
Record DoubleEqualsVersion := mkDoubleEquals { deq_version : Version }.
Record DoubleNotEqualsVersion := mkDoubleNotEquals { dne_specified : nat; dne_base : Version }.
Record CompatRange := mkCompatRange { cr_base : Version; cr_required : option CompatRule }.

#[local] Set Warnings "-register-all".

(** [VersionRange]; [Filter] holds the rules of a [VersionFilter], a
    [BTreeSet] of ranges. *)
Inductive VersionRange :=
| Range_Compat (r : CompatRange)
| Range_DoubleEquals (r : DoubleEqualsVersion)
| Range_DoubleNotEquals (r : DoubleNotEqualsVersion)
| Range_Equals (r : EqualsVersion)
| Range_Filter (rules : list VersionRange)
| Range_GreaterThan (r : GreaterThanRange)
| Range_GreaterThanOrEqualTo (r : GreaterThanOrEqualToRange)
| Range_LessThan (r : LessThanRange)
| Range_LessThanOrEqualTo (r : LessThanOrEqualToRange)
| Range_LowestSpecified (r : LowestSpecifiedRange)
| Range_NotEquals (r : NotEqualsVersion)
| Range_Semver (r : SemverRange)
| Range_Wildcard (r : WildcardRange).

(** ** Constructors *)

Definition WildcardRange_any_version : WildcardRange := mkWildcard 1 [None].

Definition WildcardRange_new_unchecked (parts : list (option N)) : WildcardRange :=
  mkWildcard (length parts) parts.

(** The loop of [WildcardRange::new_version_range] over the dotted parts. *)
Fixpoint parse_wildcard_parts (ws : list rstr) (parts : list (option N)) :
    option (list (option N)) :=
  match ws with
  | [] => Some parts
  | part :: ws =>
      if bool_decide (part = lit "*") then parse_wildcard_parts ws (parts ++ [None])
      else match parse_u32 part with
           | Some num => parse_wildcard_parts ws (parts ++ [Some num])
           | None => None
           end
  end.

Inductive RangeError :=
| WildcardNotNumeric (minimum : rstr)
| WildcardCount (range : WildcardRange)
| TooFewDigits (base : Version)
| RangeVersionError (e : VersionError)
| UnknownCompatRule (s : rstr)
| FilterEmpty
| FilterNotSingle
| NotAVersion (rule : VersionRange).

Definition is_none (p : option N) : bool := match p with None => true | Some _ => false end.

Definition WildcardRange_new_version_range (minimum : rstr) : res RangeError VersionRange :=
  match parse_wildcard_parts (split c_dot minimum) [] with
  | None => Err (WildcardNotNumeric minimum)
  | Some parts =>
      let range := mkWildcard (length parts) parts in
      if negb (length (List.filter is_none parts) =? 1) then Err (WildcardCount range)
      else Ok (Range_Wildcard range)
  end.

Definition REQUIRED_NUMBER_OF_DIGITS : nat := 2.

(** The [while] loop of [LowestSpecifiedRange::new]; [fuel] bounds the pushes. *)
Fixpoint push_zeros (fuel : nat) (parts : list N) : list N :=
  match fuel with
  | O => parts
  | S fuel => if length parts <? REQUIRED_NUMBER_OF_DIGITS
              then push_zeros fuel (parts ++ [0%N]) else parts
  end.

Definition LowestSpecifiedRange_new (base : Version) : LowestSpecifiedRange :=
  let ps := push_zeros REQUIRED_NUMBER_OF_DIGITS (parts (vparts base)) in
  mkLowest (length ps) (mkVersion (mkParts ps (epsilon (vparts base))) (pre base) (post base)).

(** [TryFrom<Version> for LowestSpecifiedRange]. *)
Definition LowestSpecifiedRange_try_from (base : Version) : res RangeError LowestSpecifiedRange :=
  let specified := length (parts (vparts base)) in
  if specified <? REQUIRED_NUMBER_OF_DIGITS then Err (TooFewDigits base)
  else Ok (mkLowest specified base).

(** [From<Version>] for the two inequality ranges. *)
Definition NotEqualsVersion_from (base : Version) : NotEqualsVersion :=
  mkNotEquals (length (parts (vparts base))) base.
Definition DoubleNotEqualsVersion_from (base : Version) : DoubleNotEqualsVersion :=
  mkDoubleNotEquals (length (parts (vparts base))) base.

Definition lift_version_error {A} (r : res VersionError A) : res RangeError A :=
  match r with Ok a => Ok a | Err e => Err (RangeVersionError e) | Panicked => Panicked end.

(** The [new_version_range] constructors that take a version's text. *)
Definition SemverRange_new_version_range (minimum : rstr) : res RangeError VersionRange :=
  v ← lift_version_error (parse_version minimum); Ok (Range_Semver (mkSemver v)).
Definition GreaterThanRange_new_version_range (boundary : rstr) : res RangeError VersionRange :=
  v ← lift_version_error (parse_version boundary); Ok (Range_GreaterThan (mkGt v)).
Definition LessThanRange_new_version_range (boundary : rstr) : res RangeError VersionRange :=
  v ← lift_version_error (parse_version boundary); Ok (Range_LessThan (mkLt v)).
Definition GreaterThanOrEqualToRange_new_version_range (boundary : rstr) :
    res RangeError VersionRange :=
  v ← lift_version_error (parse_version boundary); Ok (Range_GreaterThanOrEqualTo (mkGte v)).
Definition LessThanOrEqualToRange_new_version_range (boundary : rstr) :
    res RangeError VersionRange :=
  v ← lift_version_error (parse_version boundary); Ok (Range_LessThanOrEqualTo (mkLte v)).

Definition CompatRange_new_version_range (range : rstr) : res RangeError VersionRange :=
  match rsplit_once c_colon range with
  | Some (prefix, version) =>
      base ← lift_version_error (parse_version version);
      match CompatRule_from_str prefix with
      | Some r => Ok (Range_Compat (mkCompatRange base (Some r)))
      | None => Err (UnknownCompatRule prefix)
      end
  | None =>
      base ← lift_version_error (parse_version range);
      Ok (Range_Compat (mkCompatRange base None))
  end.

(** ** The derived ordering *)

Definition range_index (r : VersionRange) : nat :=
  match r with
  | Range_Compat _ => 0 | Range_DoubleEquals _ => 1 | Range_DoubleNotEquals _ => 2
  | Range_Equals _ => 3 | Range_Filter _ => 4 | Range_GreaterThan _ => 5
  | Range_GreaterThanOrEqualTo _ => 6 | Range_LessThan _ => 7 | Range_LessThanOrEqualTo _ => 8
  | Range_LowestSpecified _ => 9 | Range_NotEquals _ => 10 | Range_Semver _ => 11
  | Range_Wildcard _ => 12
  end.

(** The fields of a range other than a filter's rules, in declaration order
    (absent ones constant): what the derived [Ord] of its struct compares. *)
Definition range_fields (r : VersionRange) :
    Version * (option CompatRule * (nat * (Version * list (option N)))) :=
  let v0 := Version_default in
  match r with
  | Range_Compat r => (cr_base r, (cr_required r, (0, (v0, []))))
  | Range_DoubleEquals r => (deq_version r, (None, (0, (v0, []))))
  | Range_DoubleNotEquals r => (v0, (None, (dne_specified r, (dne_base r, []))))
  | Range_Equals r => (equals_version r, (None, (0, (v0, []))))
  | Range_Filter _ => (v0, (None, (0, (v0, []))))
  | Range_GreaterThan r => (gt_bound r, (None, (0, (v0, []))))
  | Range_GreaterThanOrEqualTo r => (gte_bound r, (None, (0, (v0, []))))
  | Range_LessThan r => (lt_bound r, (None, (0, (v0, []))))
  | Range_LessThanOrEqualTo r => (lte_bound r, (None, (0, (v0, []))))
  | Range_LowestSpecified r => (v0, (None, (lowest_specified r, (lowest_base r, []))))
  | Range_NotEquals r => (v0, (None, (ne_specified r, (ne_base r, []))))
  | Range_Semver r => (semver_minimum r, (None, (0, (v0, []))))
  | Range_Wildcard r => (v0, (None, (wildcard_specified r, (v0, wildcard_parts r))))
  end.

(** Derived [Ord for VersionRange]: the variant, then the fields; filters by
    their rules in order. *)
Fixpoint VersionRange_cmp (self other : VersionRange) : comparison :=
  thenc (cmp (range_index self) (range_index other))
    (match self, other with
     | Range_Filter a, Range_Filter b => @list_cmp _ VersionRange_cmp a b
     | _, _ => cmp (range_fields self) (range_fields other)
     end).
#[export] Instance cmp_VersionRange : Cmp VersionRange := VersionRange_cmp.

(** ** The ordering is lawful *)

Section VersionRange_ind'.
Variable P : VersionRange -> Prop.
Hypothesis Hleaf : forall r, (forall rules, r <> Range_Filter rules) -> P r.
Hypothesis Hfilter : forall rules, Forall P rules -> P (Range_Filter rules).

(** Induction that reaches the rules nested in filters. *)
Lemma VersionRange_nested_ind r : P r.
Proof.
  revert r. fix IH 1. intros []; try by apply Hleaf.
  apply Hfilter. induction rules as [|x l IHl]; constructor; [apply IH|exact IHl].
Qed.
End VersionRange_ind'.

Definition is_leaf (r : VersionRange) : bool :=
  match r with Range_Filter _ => false | _ => true end.

(** Away from filters the ordering compares the variant and the fields. *)
Definition leaf_key (r : VersionRange) := (range_index r, range_fields r).

Lemma VersionRange_cmp_leaf a b :
  is_leaf a = true -> cmp a b = cmp (leaf_key a) (leaf_key b).
Proof. by destruct a, b. Qed.

Lemma VersionRange_cmp_leaf_r a b :
  is_leaf b = true -> cmp a b = cmp (leaf_key a) (leaf_key b).
Proof. by destruct a, b. Qed.

Lemma VersionRange_cmp_filter a b :
  cmp (Range_Filter a) b =
  match b with
  | Range_Filter b => cmp a b
  | _ => cmp (range_index (Range_Filter a)) (range_index b)
  end.
Proof. by destruct b. Qed.

Lemma range_index_filter r : range_index r = 4 -> is_leaf r = false.
Proof. by destruct r. Qed.

Lemma leaf_cmp_laws_at r : is_leaf r = true -> cmp_laws_at r.
Proof.
  intros Hr y z.
  destruct (is_leaf y) eqn:Hy.
  - rewrite !(VersionRange_cmp_leaf r), !(VersionRange_cmp_leaf y) by done.
    apply (cmp_laws_at_of_laws (leaf_key r)).
  - destruct y as [| | | |a| | | | | | | |]; try done.
    destruct (is_leaf z) eqn:Hz.
    + rewrite !(VersionRange_cmp_leaf r), !(VersionRange_cmp_leaf_r _ z),
        (VersionRange_cmp_leaf_r _ r) by done.
      apply (cmp_laws_at_of_laws (leaf_key r)).
    + destruct z; try done. rewrite !(VersionRange_cmp_leaf r), (VersionRange_cmp_leaf_r _ r) by done.
      destruct r; try done; simpl; split_and!; done.
Qed.

Lemma filter_cmp_laws_at rules : Forall cmp_laws_at rules -> cmp_laws_at (Range_Filter rules).
Proof.
  intros Hrules%list_cmp_laws_at y z. destruct (is_leaf y) eqn:Hy.
  - rewrite (VersionRange_cmp_leaf y), !(VersionRange_cmp_leaf_r _ y) by done.
    destruct (is_leaf z) eqn:Hz.
    + rewrite !(VersionRange_cmp_leaf y), !(VersionRange_cmp_leaf_r _ z) by done.
      apply (cmp_laws_at_of_laws (leaf_key (Range_Filter rules))).
    + destruct y, z; try done; simpl; split_and!; done.
  - destruct y as [| | | |a| | | | | | | |]; try done.
    destruct (is_leaf z) eqn:Hz.
    + rewrite !VersionRange_cmp_filter. destruct (Hrules a a) as (? & _).
      split_and!; [done|by destruct z..].
    + destruct z; try done. rewrite !VersionRange_cmp_filter. apply Hrules.
Qed.

#[export] Instance VersionRange_cmp_laws : CmpLaws VersionRange.
Proof.
  apply cmp_laws_from_at. apply VersionRange_nested_ind.
  - intros r Hr. apply leaf_cmp_laws_at. destruct r; try done. by destruct (Hr rules).
  - apply filter_cmp_laws_at.
Qed.
