(* ===== verification/Reasons.v ===== *)
(** * Incompatibility reasons

    Models crates/spk-schema/crates/foundation/src/version/compat/problems.rs
    and the [IncompatibleReason] and [Compatibility] types of
    version/compat/mod.rs, with [IsSameReasonAs], the relation the solver uses
    to group equal problems.  The display strings are not modelled. *)

From S2P Require Import Prelude Strings Collections Version Compat RangeData.

Inductive CompatNotCompatible :=
| NotCompatible
| NotRequiredCompatibility (required : CompatRule).

Inductive CompatNotCompatibleSpan :=
| PreOrPostVersion (this_compat : Compat) (desc : rstr) (has requires : TagSet)
| VersionPart (this_compat : Compat) (pos : nat) (label : rstr) (has requires : N)
| VersionPartTooLow (this_compat : Compat) (pos : nat) (label : rstr) (has requires : N)
| NotSpecified (required : CompatRule).

Inductive VersionForClause :=
| CompatVersion (v : Version)
| GteVersion (v : Version)
| LtVersion (v : Version).

Inductive VersionRangeProblem :=
| TooHigh (c : VersionForClause)
| TooLow (c : VersionForClause)
| NotHighEnough (op : rstr) (bound : Version)
| NotLowEnough (op : rstr) (bound : Version).

Record VersionNotCompatibleProblem := mkVersionNotCompatible {
  vnc_required_compat : CompatNotCompatible;
  vnc_base : Version;
  vnc_span : CompatNotCompatibleSpan;
}.

Inductive VersionNotDifferentProblem :=
| NotEqual (version : NotEqualsVersion)
| NotPreciselyEqual (version : DoubleNotEqualsVersion).

Inductive VersionNotEqualProblem :=
| PartsNotEqual (this_version : EqualsVersion) (other_version : Version)
| PreNotEqual (this_version : EqualsVersion) (other_version : Version)
| PostNotEqual (this_version : EqualsVersion) (other_version : Version)
| PartsNotEqualPrecisely (this_version : DoubleEqualsVersion) (other_version : Version)
| PreNotEqualPrecisely (this_version : DoubleEqualsVersion) (other_version : Version)
| PostNotEqualPrecisely (this_version : DoubleEqualsVersion) (other_version : Version).

Inductive RangeSupersetProblem :=
| ContainProblem (case index : nat) (this_range other_range : rstr)
| StrongerCompatibilityRequirements (this_range other_range : rstr).

Inductive PackageNameProblem :=
| PackageName_PkgRequest (self_name other_name : rstr)
| PackageName_VersionSelector (self_name other_name : rstr).

(** [ident_build::Build] and what it holds. *)
Inductive Component := ComponentAll | ComponentBuild | ComponentRun | ComponentSource
| ComponentNamed (name : rstr).
Record IdentPartsBuf := mkIdentParts {
  ip_repository_name : option rstr;
  ip_pkg_name : rstr;
  ip_version_str : option rstr;
  ip_build_str : option rstr;
}.
Record EmbeddedSourcePackage := mkEmbeddedSourcePackage {
  esp_ident : IdentPartsBuf;
  esp_components : list Component;
  esp_unparsed : option rstr;
}.
Inductive EmbeddedSource := EmbeddedPackage (p : EmbeddedSourcePackage) | EmbeddedUnknown.
Inductive Build := BuildSource | BuildEmbedded (e : EmbeddedSource) | BuildBuildId (id : rstr).

Inductive BuildIdProblem :=
| BuildId_PkgRequest (self_build : Build) (requested : option Build)
| BuildId_VersionSelector (self_ident other_ident : rstr).

Inductive PackageRepoProblem :=
| EmbeddedInPackageFromWrongRepository (parent_ident : rstr)
| FromRecipeFromWrongRepository
| InternalTest
| WrongSourceRepository (self_repo their_repo : rstr)
| PackageRepo_Restrict (pkg self_repo their_repo : rstr).

Inductive VarRequestProblem :=
| DifferentNamespace (self_var other_var : rstr)
| DifferentValue (self_value other_value : rstr)
| DifferentVar (self_var other_var : rstr)
| Incomparable.

Inductive InclusionPolicyProblem :=
| Prerelease (our_policy other_policy : rstr)
| Standard (our_policy other_policy : rstr).

(** [CommaSeparated<BTreeSet<String>>] as the set's elements in order. *)
Inductive ComponentsMissingProblem :=
| ComponentsNotDefined (missing available : list rstr)
| ComponentsNotProvided (package : rstr) (needed have : list rstr)
| EmbeddedComponentsNotProvided (embedder embedded : rstr) (needed have : list rstr).

(** [OptionMap]: a [BTreeMap] of option values. *)
Definition OptionMap := list (rstr * rstr).

Inductive IncompatibleReason :=
| AlreadyEmbeddedPackage (embedded embedded_by : rstr)
| BuildDeprecated
| BuildFromSourceDisabled
| BuildIdMismatch (p : BuildIdProblem)
| BuildIdNotSuperset (p : BuildIdProblem)
| BuildOptionMismatch (name : rstr) (inner_reason : IncompatibleReason)
| BuildOptionsMissing (options : OptionMap)
| ComponentsMissing (p : ComponentsMissingProblem)
| ConflictingEmbeddedPackage (pkg : rstr)
| ConflictingEmbeddedPackageRequirement (pkg component embedded : rstr) (inner_reason : IncompatibleReason)
| ConflictingRequirement (p : ConflictingRequirementProblem)
| EmbeddedIncompatible (pkg : rstr) (inner_reason : IncompatibleReason)
| ImpossibleRequest (p : ImpossibleRequestProblem)
| InclusionPolicyNotSuperset (p : InclusionPolicyProblem)
| InternalError (msg : rstr)
| NoCompatibleBuilds (pkg_version request : rstr)
| OptionNotSatisfied (inner_reason : IncompatibleReason)
| OptionResolveError
| PackageNameMismatch (p : PackageNameProblem)
| PackageNotAnEmbeddedPackage
| PackageRepoMismatch (p : PackageRepoProblem)
| PrereleasesNotAllowed
| RangesDoNotIntersect (self_valid_range other_valid_range : rstr)
| RangeNotSuperset (p : RangeSupersetProblem)
| RecipeDeprecated
| RequirementsNotSuperset (name : rstr)
| Restrict (pkg : rstr) (inner_reason : IncompatibleReason)
| VarOptionIllegalChoice (value : rstr) (choices : list rstr)
| VarOptionMismatch (p : VarOptionProblem)
| VarOptionMissing (name : rstr)
| VarRequestNotSuperset (p : VarRequestProblem)
| VarRequirementMismatch (var requested name value : rstr)
| VersionRangeInvalid (value option err : rstr)
| VersionTooHigh (p : VersionRangeProblem)
| VersionTooLow (p : VersionRangeProblem)
| VersionNotCompatible (p : VersionNotCompatibleProblem)
| VersionNotDifferent (p : VersionNotDifferentProblem)
| VersionNotEqual (p : VersionNotEqualProblem)
| VersionOutOfRange (wildcard : WildcardRange) (pos : nat) (pos_label : rstr) (has requires : N)
with VarOptionProblem :=
| VarOption_Incompatible (assigned value : rstr)
| IncompatibleBuildOption (var_request exact request_value : rstr)
| IncompatibleBuildOptionInvalidVersion (var_request base request_value : rstr)
| IncompatibleBuildOptionWithContext (var_request exact request_value : rstr) (context : IncompatibleReason)
| RequiredButMissing (opt_name : rstr)
with ImpossibleRequestProblem :=
| ImpossibleRequest_Cached (pkg combined_request : rstr)
| ImpossibleRequest_Restrict (pkg unresolved_request : rstr) (inner_reason : IncompatibleReason)
with ConflictingRequirementProblem :=
| ExistingPackage (pkg : rstr) (inner_reason : IncompatibleReason)
| PkgRequirement (inner_reason : IncompatibleReason).

(** [==] on strings, string sets and option maps. *)
Definition str_eqb (a b : rstr) : bool := bool_decide (a = b).
Definition str_set_eqb (a b : list rstr) : bool := bool_decide (a = b).
Definition OptionMap_eqb (a b : OptionMap) : bool := bool_decide (a = b).

Definition ComponentsMissingProblem_is_same_reason_as (self other : ComponentsMissingProblem) : bool :=
  match self, other with
  | ComponentsNotDefined a _, ComponentsNotDefined b _ => str_set_eqb a b
  | ComponentsNotProvided a b _, ComponentsNotProvided c d _ => str_eqb a c && str_set_eqb b d
  | _, _ => false
  end.

(** [IsSameReasonAs] for reasons and the problems that contain reasons. *)
Fixpoint is_same_reason_as (self other : IncompatibleReason) {struct self} : bool :=
  match self, other with
  | AlreadyEmbeddedPackage a b, AlreadyEmbeddedPackage c d => str_eqb a c && str_eqb b d
  | BuildDeprecated, BuildDeprecated => true
  | BuildFromSourceDisabled, BuildFromSourceDisabled => true
  | BuildIdMismatch _, BuildIdMismatch _ => true
  | BuildIdNotSuperset _, BuildIdNotSuperset _ => true
  | BuildOptionMismatch a _, BuildOptionMismatch b _ => str_eqb a b
  | BuildOptionsMissing a, BuildOptionsMissing b => OptionMap_eqb a b
  | ComponentsMissing a, ComponentsMissing b => ComponentsMissingProblem_is_same_reason_as a b
  | ConflictingEmbeddedPackage a, ConflictingEmbeddedPackage b => str_eqb a b
  | ConflictingEmbeddedPackageRequirement a b c d, ConflictingEmbeddedPackageRequirement e f g h =>
      str_eqb a e && str_eqb b f && str_eqb c g && is_same_reason_as d h
  | ConflictingRequirement a, ConflictingRequirement b => ConflictingRequirement_is_same_reason_as a b
  | ImpossibleRequest _, ImpossibleRequest _ => true
  | InclusionPolicyNotSuperset _, InclusionPolicyNotSuperset _ => true
  | InternalError a, InternalError b => str_eqb a b
  | NoCompatibleBuilds _ _, NoCompatibleBuilds _ _ => true
  | OptionResolveError, OptionResolveError => true
  | PackageNameMismatch _, PackageNameMismatch _ => true
  | PackageNotAnEmbeddedPackage, PackageNotAnEmbeddedPackage => true
  | PackageRepoMismatch _, PackageRepoMismatch _ => true
  | PrereleasesNotAllowed, PrereleasesNotAllowed => true
  | RangesDoNotIntersect _ _, RangesDoNotIntersect _ _ => true
  | RangeNotSuperset _, RangeNotSuperset _ => true
  | RecipeDeprecated, RecipeDeprecated => true
  | RequirementsNotSuperset _, RequirementsNotSuperset _ => true
  | VarOptionIllegalChoice a _, VarOptionIllegalChoice b _ => str_eqb a b
  | VarOptionMismatch a, VarOptionMismatch b => VarOption_is_same_reason_as a b
  | VarOptionMissing a, VarOptionMissing b => str_eqb a b
  | VarRequestNotSuperset _, VarRequestNotSuperset _ => true
  | VarRequirementMismatch a _ _ _, VarRequirementMismatch b _ _ _ => str_eqb a b
  | VersionRangeInvalid _ a b, VersionRangeInvalid _ c d => str_eqb a c && str_eqb b d
  | VersionTooHigh _, VersionTooHigh _ => true
  | VersionTooLow _, VersionTooLow _ => true
  | VersionNotCompatible _, VersionNotCompatible _ => true
  | VersionNotDifferent _, VersionNotDifferent _ => true
  | VersionNotEqual _, VersionNotEqual _ => true
  | VersionOutOfRange _ _ _ _ _, VersionOutOfRange _ _ _ _ _ => true
  | _, _ => false
  end
with VarOption_is_same_reason_as (self other : VarOptionProblem) {struct self} : bool :=
  match self, other with
  | VarOption_Incompatible _ a, VarOption_Incompatible _ b => str_eqb a b
  | IncompatibleBuildOption a _ _, IncompatibleBuildOption b _ _ => str_eqb a b
  | IncompatibleBuildOptionInvalidVersion a _ _, IncompatibleBuildOptionInvalidVersion b _ _ =>
      str_eqb a b
  | IncompatibleBuildOptionWithContext a _ _ b, IncompatibleBuildOptionWithContext c _ _ d =>
      str_eqb a c && is_same_reason_as b d
  | _, _ => false
  end
with ConflictingRequirement_is_same_reason_as (self other : ConflictingRequirementProblem)
    {struct self} : bool :=
  match self, other with
  | ExistingPackage a b, ExistingPackage c d => str_eqb a c && is_same_reason_as b d
  | PkgRequirement a, PkgRequirement b => is_same_reason_as a b
  | _, _ => false
  end.

Inductive Compatibility := Compatible | Incompatible (reason : IncompatibleReason).

Definition Compatibility_is_same_reason_as (self other : Compatibility) : bool :=
  match self, other with
  | Incompatible a, Incompatible b => is_same_reason_as a b
  | _, _ => false
  end.

Definition embedded_conflict (conflicting_package_name : rstr) : Compatibility :=
  Incompatible (ConflictingEmbeddedPackage conflicting_package_name).

(** [is_ok], and the two ways to ask for its negation: [Not] and [is_err]. *)
Definition is_ok (c : Compatibility) : bool :=
  match c with Compatible => true | Incompatible _ => false end.
Definition Compatibility_not (c : Compatibility) : bool :=
  match c with Compatible => false | Incompatible _ => true end.
Definition is_err (c : Compatibility) : bool :=
  match c with Compatible => false | Incompatible _ => true end.
Definition Compatibility_unwrap (c : Compatibility) : res Empty_set unit :=
  match c with Compatible => Ok tt | Incompatible _ => Panicked end.

(** ** [IsSameReasonAs] is a partial equivalence *)

Lemma str_eqb_sym a b : str_eqb a b = str_eqb b a.
Proof. unfold str_eqb. by apply bool_decide_ext. Qed.
Lemma str_set_eqb_sym a b : str_set_eqb a b = str_set_eqb b a.
Proof. unfold str_set_eqb. by apply bool_decide_ext. Qed.
Lemma OptionMap_eqb_sym a b : OptionMap_eqb a b = OptionMap_eqb b a.
Proof. unfold OptionMap_eqb. by apply bool_decide_ext. Qed.

Scheme IncompatibleReason_mut := Induction for IncompatibleReason Sort Prop
with VarOptionProblem_mut := Induction for VarOptionProblem Sort Prop
with ImpossibleRequestProblem_mut := Induction for ImpossibleRequestProblem Sort Prop
with ConflictingRequirementProblem_mut := Induction for ConflictingRequirementProblem Sort Prop.

(** Reasons that [is_same_reason_as] has no arm for, on their own or inside the
    reasons it looks into. *)
Fixpoint ungrouped (r : IncompatibleReason) : bool :=
  match r with
  | EmbeddedIncompatible _ _ | OptionNotSatisfied _ | Restrict _ _ => true
  | ComponentsMissing (EmbeddedComponentsNotProvided _ _ _ _) => true
  | ConflictingEmbeddedPackageRequirement _ _ _ d => ungrouped d
  | ConflictingRequirement (ExistingPackage _ d) => ungrouped d
  | ConflictingRequirement (PkgRequirement d) => ungrouped d
  | VarOptionMismatch (RequiredButMissing _) => true
  | VarOptionMismatch (IncompatibleBuildOptionWithContext _ _ _ d) => ungrouped d
  | _ => false
  end.

Ltac split_andb := repeat match goal with
  | H : _ && _ = true |- _ => apply andb_true_iff in H as [? ?]
  | H : str_eqb _ _ = true |- _ => apply bool_decide_eq_true in H as <-
  | H : str_set_eqb _ _ = true |- _ => apply bool_decide_eq_true in H as <-
  | H : OptionMap_eqb _ _ = true |- _ => apply bool_decide_eq_true in H as <-
  end.

Ltac solve_same := split_andb; simpl;
  rewrite ?andb_true_iff; unfold str_eqb, str_set_eqb, OptionMap_eqb;
  rewrite ?bool_decide_eq_true; repeat split; eauto.

Lemma ComponentsMissing_same_sym a b :
  ComponentsMissingProblem_is_same_reason_as a b = true ->
  ComponentsMissingProblem_is_same_reason_as b a = true.
Proof. destruct a, b; simpl; intros; try done; solve_same. Qed.

Lemma ComponentsMissing_same_trans a b c :
  ComponentsMissingProblem_is_same_reason_as a b = true ->
  ComponentsMissingProblem_is_same_reason_as b c = true ->
  ComponentsMissingProblem_is_same_reason_as a c = true.
Proof. destruct a, b; simpl; intros; try done; destruct c; simpl in *; try done; solve_same. Qed.

Lemma is_same_reason_as_sym r :
  forall r', is_same_reason_as r r' = true -> is_same_reason_as r' r = true.
Proof.
  induction r using IncompatibleReason_mut with
    (P0 := fun p => forall p', VarOption_is_same_reason_as p p' = true ->
                               VarOption_is_same_reason_as p' p = true)
    (P1 := fun _ => True)
    (P2 := fun p => forall p', ConflictingRequirement_is_same_reason_as p p' = true ->
                               ConflictingRequirement_is_same_reason_as p' p = true);
    try done; intros []; simpl; intros; try done;
    solve [solve_same | by apply ComponentsMissing_same_sym].
Qed.

Lemma is_same_reason_as_trans r :
  forall r' r'', is_same_reason_as r r' = true -> is_same_reason_as r' r'' = true ->
                 is_same_reason_as r r'' = true.
Proof.
  induction r using IncompatibleReason_mut with
    (P0 := fun p => forall p' p'', VarOption_is_same_reason_as p p' = true ->
             VarOption_is_same_reason_as p' p'' = true -> VarOption_is_same_reason_as p p'' = true)
    (P1 := fun _ => True)
    (P2 := fun p => forall p' p'', ConflictingRequirement_is_same_reason_as p p' = true ->
             ConflictingRequirement_is_same_reason_as p' p'' = true ->
             ConflictingRequirement_is_same_reason_as p p'' = true);
    try done; intros r' r'' H1 H2; destruct r'; simpl in H1; try done;
    destruct r''; simpl in *; try done;
    solve [solve_same | by eapply ComponentsMissing_same_trans].
Qed.

Lemma is_same_reason_as_refl r : is_same_reason_as r r = negb (ungrouped r).
Proof.
  induction r using IncompatibleReason_mut with
    (P0 := fun p => VarOption_is_same_reason_as p p = negb (ungrouped (VarOptionMismatch p)))
    (P1 := fun _ => True)
    (P2 := fun p => ConflictingRequirement_is_same_reason_as p p =
                    negb (ungrouped (ConflictingRequirement p)));
    try done; simpl; unfold str_eqb, str_set_eqb, OptionMap_eqb;
    rewrite ?bool_decide_true by done; rewrite ?andb_true_l; try done.
  destruct p; simpl; unfold str_eqb, str_set_eqb; by rewrite ?bool_decide_true.
Qed.

(** [IsSameReasonAs] is symmetric and transitive, so it groups problems into
    classes; a reason is the same as itself unless it is, or hides, one of the
    reasons the match has no arm for (an incompatible embedded package, an
    unsatisfied option, a failed restriction, a missing required option,
    missing embedded components), which never form a class. *)
Theorem is_same_reason_as_partial_equivalence a b c :
  (is_same_reason_as a b = is_same_reason_as b a) /\
  (is_same_reason_as a b = true -> is_same_reason_as b c = true -> is_same_reason_as a c = true) /\
  is_same_reason_as a a = negb (ungrouped a).
Proof.
  split_and!.
  - apply eq_bool_prop_intro. split; intros H%Is_true_true; apply Is_true_true;
      by apply is_same_reason_as_sym.
  - apply is_same_reason_as_trans.
  - apply is_same_reason_as_refl.
Qed.

Lemma is_same_reason_as_partial_equivalence_witness :
  is_same_reason_as (VersionTooLow (TooLow (GteVersion Version_default)))
    (VersionTooLow (TooHigh (LtVersion Version_default))) = true /\
  is_same_reason_as (OptionNotSatisfied BuildDeprecated) (OptionNotSatisfied BuildDeprecated) = false.
Proof.
  split.
  - apply (proj1 (proj2 (is_same_reason_as_partial_equivalence
      (VersionTooLow (TooLow (GteVersion Version_default)))
      (VersionTooLow (TooLow (LtVersion Version_default)))
      (VersionTooLow (TooHigh (LtVersion Version_default)))))); reflexivity.
  - exact (proj2 (proj2 (is_same_reason_as_partial_equivalence
      (OptionNotSatisfied BuildDeprecated) BuildDeprecated BuildDeprecated))).
Defined.
