(* ===== verification/CompatCheck.v ===== *)
(** * Compatibility checking

    [Compat::check_compat] of
    crates/spk-schema/crates/foundation/src/version/compat/mod.rs and the
    [Versioned] interface of spec_ops/versioned.rs through which packages are
    checked against it. *)

From S2P Require Import Prelude Strings Collections Version VersionOrder Compat RangeData Reasons.

(** The error built in the arms of [check_compat]. *)
Definition version_not_compatible (required_compat : CompatNotCompatible) (base : Version)
    (span : CompatNotCompatibleSpan) : Compatibility :=
  Incompatible (VersionNotCompatible (mkVersionNotCompatible required_compat base span)).

(** The loop over the pre- and post-release rules: the first problem found. *)
Fixpoint check_tags (self : Compat) (base : Version) (required : CompatRule)
    (items : list (bool * option CompatRuleSet * rstr * TagSet * TagSet)) : Compatibility :=
  match items with
  | [] => Compatible
  | (matches, optruleset, desc, a, b) :: items =>
      if (matches : bool) then check_tags self base required items
      else match optruleset with
           | Some ruleset =>
               if rule_in RuleNone ruleset then
                 version_not_compatible NotCompatible base (PreOrPostVersion self desc b a)
               else if negb (rule_in required ruleset) then
                 version_not_compatible (NotRequiredCompatibility required) base
                   (PreOrPostVersion self desc b a)
               else check_tags self base required items
           | None => check_tags self base required items
           end
  end.

(** The loop over the rules of the parts, from position [i]. *)
Fixpoint check_parts (self : Compat) (base other : Version) (required : CompatRule)
    (rules : list CompatRuleSet) (i : nat) : Compatibility :=
  match rules with
  | [] => version_not_compatible NotCompatible base (NotSpecified required)
  | rule :: rules =>
      let a := parts (vparts base) !! i in
      let b := parts (vparts other) !! i in
      match a with
      | None => Compatible
      | Some a =>
          if rule_in RuleNone rule then
            match b with
            | Some b =>
                if negb (a =? b)%N then
                  version_not_compatible NotCompatible base
                    (VersionPart self (i + 1) (get_version_position_label i) b a)
                else check_parts self base other required rules (S i)
            | None => check_parts self base other required rules (S i)
            end
          else if negb (rule_in required rule) then
            match b with
            | Some b =>
                if (a =? b)%N then check_parts self base other required rules (S i)
                else version_not_compatible NotCompatible base
                       (VersionPart self (i + 1) (get_version_position_label i) b a)
            | None => check_parts self base other required rules (S i)
            end
          else
            match b with
            | Some b =>
                if (b <? a)%N then
                  version_not_compatible (NotRequiredCompatibility required) base
                    (VersionPartTooLow self (i + 1) (get_version_position_label i) b a)
                else Compatible
            | None => Compatible
            end
      end
  end.

Definition check_compat (self : Compat) (base other : Version) (required : CompatRule) :
    Compatibility :=
  if VersionParts_eq (vparts base) (vparts other) then
    let pre_matches := TagSet_eq (pre base) (pre other) in
    let post_matches := TagSet_eq (post base) (post other) in
    if (pre_matches || negb (bool_decide (is_Some (compat_pre self)))) &&
       (post_matches || negb (bool_decide (is_Some (compat_post self))))
    then Compatible
    else check_tags self base required
           [(pre_matches, compat_pre self, lit "pre", pre base, pre other);
            (post_matches, compat_post self, lit "post", post base, post other)]
  else check_parts self base other required (compat_parts self) 0.

Definition is_api_compatible (self : Compat) (base other : Version) : Compatibility :=
  check_compat self base other RuleAPI.
Definition is_binary_compatible (self : Compat) (base other : Version) : Compatibility :=
  check_compat self base other RuleBinary.

(** [HasVersion] and [Versioned]: an item with a version and a compatibility
    contract. *)
Class Versioned (V : Type) := {
  spec_version : V -> Version;
  spec_compat : V -> Compat;
}.

Definition spec_is_api_compatible {V} `{Versioned V} (self : V) (base : Version) : Compatibility :=
  is_api_compatible (spec_compat self) base (spec_version self).
Definition spec_is_binary_compatible {V} `{Versioned V} (self : V) (base : Version) : Compatibility :=
  is_binary_compatible (spec_compat self) base (spec_version self).

(** The simplest versioned item. *)
#[export] Instance Versioned_pair : Versioned (Version * Compat) :=
  {| spec_version := fst; spec_compat := snd |}.

(** ** What the loop over the parts decides *)

(** The contract at position [i], read off the compat string: may [b] stand for
    [a] there, and does the position settle the question? *)
Inductive position_verdict := Mismatch | NextPosition | Settled.

Definition position_rule (rule : CompatRuleSet) (required : CompatRule) (a : N) (b : option N) :
    position_verdict :=
  let same := match b with Some b => (a =? b)%N | None => true end in
  let enough := match b with Some b => (a <=? b)%N | None => true end in
  if rule_in RuleNone rule || negb (rule_in required rule)
  then if same then NextPosition else Mismatch
  else if enough then Settled else Mismatch.

Lemma check_parts_step self base other required rule rules i :
  is_ok (check_parts self base other required (rule :: rules) i) =
  match parts (vparts base) !! i with
  | None => true
  | Some a =>
      match position_rule rule required a (parts (vparts other) !! i) with
      | Mismatch => false
      | NextPosition => is_ok (check_parts self base other required rules (S i))
      | Settled => true
      end
  end.
Proof.
  cbn [check_parts]. unfold position_rule. destruct (parts (vparts base) !! i) as [a|]; [|done].
  destruct (parts (vparts other) !! i) as [b|], (rule_in RuleNone rule); simpl.
  - by destruct (a =? b)%N.
  - destruct (rule_in required rule); simpl; [|by destruct (a =? b)%N].
    rewrite N.leb_antisym. by destruct (b <? a)%N.
  - done.
  - by destruct (rule_in required rule).
Qed.

(** The loop succeeds exactly when some position decides in favour and every
    position before it passes. *)
Lemma check_parts_ok self base other required rules i :
  is_ok (check_parts self base other required rules i) = true <->
  exists n rule, rules !! n = Some rule /\
    (forall m rule', m < n -> rules !! m = Some rule' ->
       exists a, parts (vparts base) !! (i + m) = Some a /\
         position_rule rule' required a (parts (vparts other) !! (i + m)) = NextPosition) /\
    (parts (vparts base) !! (i + n) = None \/
     exists a, parts (vparts base) !! (i + n) = Some a /\
       position_rule rule required a (parts (vparts other) !! (i + n)) = Settled).
Proof.
  revert i. induction rules as [|rule rules IH]; intros i.
  - simpl. split; [done|]. intros (n & rule & ? & _). by rewrite lookup_nil in *.
  - rewrite check_parts_step. split.
    + destruct (parts (vparts base) !! i) as [a|] eqn:Ea.
      * destruct (position_rule rule required a _) eqn:Ev; [done|..].
        -- intros (n & r & Hr & Hbefore & Hat)%IH. exists (S n), r. split; [done|].
           rewrite Nat.add_succ_r. split; [|done].
           intros [|m] r' Hm Hr'; [|rewrite Nat.add_succ_r; apply (Hbefore m r'); [lia|done]].
           rewrite Nat.add_0_r. simplify_eq/=. eauto.
        -- intros _. exists 0, rule. rewrite Nat.add_0_r.
           split_and!; [done|intros; lia|right; eauto].
      * intros _. exists 0, rule. rewrite Nat.add_0_r. split_and!; [done|intros; lia|by left].
    + intros ([|n] & r & Hr & Hbefore & Hat).
      * rewrite Nat.add_0_r in Hat. simplify_eq/=.
        destruct Hat as [->|(a & -> & ->)]; done.
      * destruct (Hbefore 0 rule) as (a & Ha & Hv); [lia|done|].
        rewrite Nat.add_0_r in *. rewrite Ha, Hv. apply IH. exists n, r.
        rewrite Nat.add_succ_r in Hat. split_and!; [done| |done].
        intros m r' Hm Hr'. destruct (Hbefore (S m) r') as (a' & ?); [lia|done|].
        rewrite Nat.add_succ_r in *. eauto.
Qed.

(** ** Properties *)

(** What a contract says of different pre- or post-release tags: no rule allows
    them, as does one that grants the required compatibility. *)
Definition tags_allowed (ruleset : option CompatRuleSet) (required : CompatRule) (a b : TagSet) : Prop :=
  TagSet_eq a b = true \/ ruleset = None \/
  exists rules, ruleset = Some rules /\ rule_in RuleNone rules = false /\ rule_in required rules = true.
Lemma check_tags_ok self base required items :
  is_ok (check_tags self base required items) = true <->
  Forall (fun '(matches, ruleset, _, _, _) => matches = true \/ ruleset = None \/
    exists rules, ruleset = Some rules /\ rule_in RuleNone rules = false /\ rule_in required rules = true) items.
Proof.
  induction items as [|[[[[matches ruleset] desc] a] b] items IH]; cbn [check_tags]; [done|]. rewrite Forall_cons, <-IH.
  destruct matches; [by split; [auto|intros [_ ?]]|]. destruct ruleset as [rules|]; [|by split; [auto|intros [_ ?]]].
  destruct (rule_in RuleNone rules) eqn:E; [|destruct (rule_in required rules) eqn:E'; cbn [negb]].
  - split; [done|]. intros [[[=]|[[=]|(r & [= <-] & ? & _)]] _]. congruence.
  - split; [|by intros [_ ?]]. intros H. split; [|done]. right. right. by exists rules.
  - split; [done|]. intros [[[=]|[[=]|(r & [= <-] & _ & ?)]] _]. congruence.
Qed.

(** C33: [check_compat] says yes of versions with equal numeric parts exactly when
    the contract's rules allow what differs in the tags; and of others exactly when
    some position of the compat string settles it (the base has no such part, or
    the rule grants the required compatibility and the part is not lower) and at
    every earlier position the parts agree. *)
Theorem check_compat_decisive_position self base other required :
  is_ok (check_compat self base other required) = true <->
  if VersionParts_eq (vparts base) (vparts other) then
    tags_allowed (compat_pre self) required (pre base) (pre other) /\
    tags_allowed (compat_post self) required (post base) (post other)
  else
    exists n rule, compat_parts self !! n = Some rule /\
      (forall m rule', m < n -> compat_parts self !! m = Some rule' ->
         exists a, parts (vparts base) !! m = Some a /\
           position_rule rule' required a (parts (vparts other) !! m) = NextPosition) /\
      (parts (vparts base) !! n = None \/
       exists a, parts (vparts base) !! n = Some a /\
         position_rule rule required a (parts (vparts other) !! n) = Settled).
Proof.
  unfold check_compat. destruct (VersionParts_eq (vparts base) (vparts other)); [|apply (check_parts_ok _ _ _ _ _ 0)].
  pose proof (check_tags_ok self base required
    [(TagSet_eq (pre base) (pre other), compat_pre self, lit "pre", pre base, pre other);
     (TagSet_eq (post base) (post other), compat_post self, lit "post", post base, post other)]) as Htags.
  rewrite !Forall_cons, Forall_nil, (right_id True and) in Htags.
  fold (tags_allowed (compat_pre self) required (pre base) (pre other)) in Htags.
  fold (tags_allowed (compat_post self) required (post base) (post other)) in Htags.
  assert (forall tags rules, tags || negb (bool_decide (is_Some rules)) = true <-> tags = true \/ rules = None (A := CompatRuleSet)) as Hnone.
  { intros tags rules. rewrite orb_true_iff, negb_true_iff, bool_decide_eq_false, eq_None_not_Some. done. }
  destruct (_ && _) eqn:E; [|done]. apply andb_true_iff in E as [[E1|E1]%Hnone [E2|E2]%Hnone];
    (split; [intros _|done]); unfold tags_allowed; auto.
Qed.

(** The contract "x.a.b": a higher minor part is API compatible; a contract
    without compatible positions accepts equal versions only. *)
Example check_compat_minor :
  is_ok (check_compat Compat_default (from_parts [1; 2; 0]%N) (from_parts [1; 3; 0]%N) RuleAPI) = true /\
  is_ok (check_compat Compat_default (from_parts [1; 3; 0]%N) (from_parts [1; 2; 0]%N) RuleAPI) = false.
Proof. split; reflexivity. Qed.
Example check_compat_strict :
  let strict := mkCompat (repeat (CompatRuleSet_single RuleNone) 3) None None in
  is_ok (check_compat strict (from_parts [1; 0; 0]%N) (from_parts [1; 0; 0]%N) RuleAPI) = true /\
  is_ok (check_compat strict (from_parts [1; 0; 0]%N) (from_parts [1; 0; 1]%N) RuleAPI) = false.
Proof. split; reflexivity. Qed.

Lemma three_parts_eq a0 a1 a2 b0 b1 b2 :
  VersionParts_eq (VersionParts_from [a0; a1; a2]) (VersionParts_from [b0; b1; b2]) = true <->
  a0 = b0 /\ a1 = b1 /\ a2 = b2.
Proof.
  rewrite VersionParts_eq_spec. split.
  - intros [E _]. simpl parts in E.
    pose proof (fun i => strip0_lookup [a0; a1; a2] i) as Ha.
    pose proof (fun i => strip0_lookup [b0; b1; b2] i) as Hb.
    rewrite E in Ha. split_and!; [specialize (Ha 0); specialize (Hb 0)|
      specialize (Ha 1); specialize (Hb 1)|specialize (Ha 2); specialize (Hb 2)];
      simpl in *; congruence.
  - by intros (-> & -> & ->).
Qed.

(** Under the default contract ["x.a.b"] and three-part versions, another
    version is API compatible when the major parts agree and the minor part is
    not lower, and binary compatible when major and minor agree and the patch
    part is not lower; so binary compatibility implies API compatibility. *)
Theorem default_compat_meaning a0 a1 a2 b0 b1 b2 :
  let base := Version_new a0 a1 a2 in
  let other := Version_new b0 b1 b2 in
  (is_ok (is_api_compatible Compat_default base other) = true <-> a0 = b0 /\ (a1 <= b1)%N) /\
  (is_ok (is_binary_compatible Compat_default base other) = true <->
     a0 = b0 /\ a1 = b1 /\ (a2 <= b2)%N).
Proof.
  intros base other. pose proof (three_parts_eq a0 a1 a2 b0 b1 b2) as Heq.
  unfold is_api_compatible, is_binary_compatible, check_compat. simpl vparts.
  destruct (VersionParts_eq _ _).
  - destruct (proj1 Heq eq_refl) as (-> & -> & ->). simpl.
    split; split; try done; intros _; split_and!; done || lia.
  - change (compat_parts Compat_default) with
      [CompatRuleSet_single RuleNone; CompatRuleSet_single RuleAPI; CompatRuleSet_single RuleBinary].
    rewrite !check_parts_step. subst base other. cbn. unfold position_rule. cbn.
    destruct (N.eqb_spec a0 b0), (N.eqb_spec a1 b1), (N.leb_spec a1 b1), (N.leb_spec a2 b2);
      cbn; split; split; intros; try done; split_and?; subst; try done; lia.
Qed.

Lemma base_part_le base other i :
  cle base other -> (forall j, j < i -> part_at base j = part_at other j) ->
  (part_at base i <= part_at other i)%N.
Proof.
  intros Hle Hprefix. destruct (N.le_gt_cases (part_at base i) (part_at other i)); [done|].
  exfalso. apply Hle, cmp_gt_lt. rewrite Version_cmp_key. unfold version_key. rewrite cmp_pair.
  rewrite (list_cmp_first_difference _ _ i); [done| |done].
  intros j Hj. symmetry. by apply Hprefix.
Qed.

(** A position reads a missing part of the other version as it reads a zero. *)
Lemma position_rule_missing rule required : 
  position_rule rule required 0 (Some 0%N) = position_rule rule required 0 None.
Proof. done. Qed.

Lemma check_parts_respects_eq self base other other' required rules i :
  cle base other -> (forall j, part_at other j = part_at other' j) ->
  (forall j, j < i -> part_at base j = part_at other j) ->
  is_ok (check_parts self base other required rules i) =
  is_ok (check_parts self base other' required rules i).
Proof.
  intros Hle Hsame. revert i. induction rules as [|rule rules IH]; intros i Hprefix; [done|].
  rewrite !check_parts_step. destruct (parts (vparts base) !! i) as [a|] eqn:Ea; [|done].
  pose proof (base_part_le base other i Hle Hprefix) as Hi.
  pose proof (Hsame i) as Hs. unfold part_at in Hi, Hs. rewrite Ea in Hi. simpl in Hi.
  assert (position_rule rule required a (parts (vparts other) !! i) =
          position_rule rule required a (parts (vparts other') !! i)) as <-.
  { destruct (parts (vparts other) !! i) as [b|], (parts (vparts other') !! i) as [b'|];
      simpl in *; subst; try done; assert (a = 0%N) as -> by lia; done. }
  destruct (position_rule rule required a _) eqn:Ev; [done| |done]. apply IH.
  intros j Hj. destruct (decide (j = i)) as [->|]; [|apply Hprefix; lia].
  unfold part_at. rewrite Ea. simpl. unfold position_rule in Ev.
  destruct (parts (vparts other) !! i) as [b|]; simpl in *; [|lia].
  destruct (rule_in RuleNone rule || negb (rule_in required rule)).
  - by destruct (N.eqb_spec a b).
  - by destruct (a <=? b)%N.
Qed.

Lemma Version_eq_part_at a b : Version_eq a b = true -> forall i, part_at a i = part_at b i.
Proof.
  intros (E & _)%Version_eq_spec i. unfold part_at.
  by rewrite <-strip0_lookup, E, strip0_lookup.
Qed.

(** For a version that is not below the base, the outcome of [check_compat]
    does not depend on how the version is written: versions that are [==], such
    as [1.2] and [1.2.0], get the same answer. *)
Lemma check_compat_respects_eq self base other other' required :
  cle base other -> Version_eq other other' = true ->
  is_ok (check_compat self base other required) = is_ok (check_compat self base other' required).
Proof.
  intros Hle Heq. pose proof (Version_eq_part_at _ _ Heq) as Hsame.
  apply Version_eq_spec in Heq as (Ep & Ee & Epre & Epost). unfold check_compat.
  assert (VersionParts_eq (vparts base) (vparts other) = VersionParts_eq (vparts base) (vparts other'))
    as ->.
  { apply eq_bool_prop_intro. split; intros H%Is_true_true; apply Is_true_true; revert H;
      rewrite !VersionParts_eq_spec; by rewrite Ep, Ee. }
  rewrite <-Epre, <-Epost. destruct (VersionParts_eq _ _); [done|].
  apply check_parts_respects_eq; [done|done|lia].
Qed.

(** Below the base the spelling matters: [1] and [1.0.0] are [==], and
    [1.0.0] is not API compatible with a base of [1.2.3], but [1] is, because
    the loop accepts at a rule that grants compatibility when the part is
    missing. *)
Theorem check_compat_missing_part_accepted :
  Version_eq (from_parts [1]%N) (from_parts [1; 0; 0]%N) = true /\
  is_api_compatible Compat_default (from_parts [1; 2; 3]%N) (from_parts [1]%N) = Compatible /\
  is_ok (is_api_compatible Compat_default (from_parts [1; 2; 3]%N) (from_parts [1; 0; 0]%N)) = false.
Proof. vm_compute. done. Qed.

(** A version is compatible with itself at every level, whatever the
    contract. *)
Theorem check_compat_refl self v required : check_compat self v v required = Compatible.
Proof.
  unfold check_compat. rewrite (proj2 (VersionParts_eq_spec _ _)) by done.
  unfold TagSet_eq. by rewrite !(bool_decide_true (_ = _)) by done.
Qed.
