(* ===== verification/Intersection.v ===== *)
(** * Intersection of version intervals

    Models crates/spk-schema/crates/foundation/src/version_range/intersection.rs:
    the intervals a range's two bounds describe, how the second bound is
    combined with the first, and the test for a common version. *)

From S2P Require Import Prelude Strings Version VersionOrder VersionText.

Inductive LimitedValidRange :=
| RangeFrom (start : Version)
| RangeTo (stop : Version)
| Range (start stop : Version).

(** Valid versions: all, an interval, or two intervals. *)
Inductive ValidRange :=
| Total
| Limited (r : LimitedValidRange)
| Pair (p1 p2 : LimitedValidRange).

Definition intersects_nonempty (self other : LimitedValidRange) : bool :=
  match self, other with
  | RangeFrom _, RangeFrom _ => true
  | RangeFrom a, RangeTo b => ltb a b
  | RangeFrom a, Range _ b2 => ltb a b2
  | RangeTo a, RangeFrom b => gtb a b
  | RangeTo _, RangeTo _ => true
  | RangeTo a, Range b1 _ => gtb a b1
  | Range _ a2, RangeFrom b => gtb a2 b
  | Range a1 _, RangeTo b => ltb a1 b
  | Range a1 a2, Range b1 b2 => (geb a1 b1 && ltb a1 b2) || (leb a1 b1 && gtb a2 b1)
  end.

Definition LimitedValidRange_intersects (self : LimitedValidRange) (other : ValidRange) : bool :=
  match other with
  | Total => true
  | Limited r => intersects_nonempty self r
  | Pair p1 p2 => intersects_nonempty self p1 || intersects_nonempty self p2
  end.

Definition ValidRange_intersects (self other : ValidRange) : bool :=
  match self with
  | Total => true
  | Limited r => LimitedValidRange_intersects r other
  | Pair r1 r2 => LimitedValidRange_intersects r1 other || LimitedValidRange_intersects r2 other
  end.

(** [Display], in Rust's range syntax. *)
Definition LimitedValidRange_to_string (r : LimitedValidRange) : rstr :=
  match r with
  | RangeFrom a => Version_to_string a ++ lit ".."
  | RangeTo a => lit ".." ++ Version_to_string a
  | Range a b => Version_to_string a ++ lit ".." ++ Version_to_string b
  end.

Definition ValidRange_to_string (r : ValidRange) : rstr :=
  match r with
  | Total => lit ".."
  | Limited r => LimitedValidRange_to_string r
  | Pair p1 p2 => LimitedValidRange_to_string p1 ++ lit "," ++ LimitedValidRange_to_string p2
  end.

(** [CombineWith<RangeFrom>]; the last two arms are [unreachable!]. *)
Definition restrict_from (self : ValidRange) (start : Version) : res Empty_set ValidRange :=
  match self with
  | Total => Ok (Limited (RangeFrom start))
  | Limited (RangeFrom lhs) => Ok (Limited (RangeFrom (cmp_min lhs start)))
  | Limited (RangeTo lhs) =>
      if ltb lhs start then Ok (Pair (RangeTo lhs) (RangeFrom start))
      else Ok (Limited (Range start lhs))
  | Limited (Range _ _) => Panicked
  | Pair _ _ => Panicked
  end.

(** [CombineWith<RangeTo>]; the last two arms are [unreachable!]. *)
Definition restrict_to (self : ValidRange) (stop : Version) : res Empty_set ValidRange :=
  match self with
  | Total => Ok (Limited (RangeTo stop))
  | Limited (RangeFrom lhs) =>
      if ltb lhs stop then Ok (Limited (Range lhs stop))
      else Ok (Pair (RangeTo stop) (RangeFrom lhs))
  | Limited (RangeTo lhs) => Ok (Limited (RangeTo (cmp_max lhs stop)))
  | Limited (Range _ _) => Panicked
  | Pair _ _ => Panicked
  end.

(** How [Ranged::intersects] builds the valid range of a pair of bounds: first
    the lower bound, then the upper. *)
Definition valid_range (lower upper : option Version) : res Empty_set ValidRange :=
  r ← match lower with Some v => restrict_from Total v | None => Ok Total end;
  match upper with Some v => restrict_to r v | None => Ok r end.

(** ** What the ranges mean *)

Definition in_limited (r : LimitedValidRange) (v : Version) : Prop :=
  match r with
  | RangeFrom a => cle a v
  | RangeTo b => clt v b
  | Range a b => cle a v /\ clt v b
  end.

Definition in_valid (r : ValidRange) (v : Version) : Prop :=
  match r with
  | Total => True
  | Limited r => in_limited r v
  | Pair p1 p2 => in_limited p1 v \/ in_limited p2 v
  end.

Definition inhabited_limited (r : LimitedValidRange) : Prop := exists v, in_limited r v.
Definition inhabited_valid (r : ValidRange) : Prop :=
  match r with
  | Total => True
  | Limited r => inhabited_limited r
  | Pair p1 p2 => inhabited_limited p1 /\ inhabited_limited p2
  end.

(** A pair of bounds admits the versions between them; when the lower bound is
    not below the upper one the pair means everything outside. *)
Definition admits (lower upper : option Version) (v : Version) : Prop :=
  match lower, upper with
  | None, None => True
  | Some l, None => cle l v
  | None, Some u => clt v u
  | Some l, Some u => if ltb l u then cle l v /\ clt v u else clt v u \/ cle l v
  end.

(** ** Lemmas *)

(** The greater of two versions is above both, the smaller below both. *)
Lemma cmp_max_bounds {A} `{CmpLaws A} (a b : A) : cle a (cmp_max a b) /\ cle b (cmp_max a b).
Proof.
  unfold cmp_max. destruct (cmp a b) eqn:E; split; eauto with spk; unfold cle; try congruence.
  apply cmp_gt_lt in E. congruence.
Qed.

Lemma cmp_max_case {A} `{Cmp A} (a b : A) (P : A -> Prop) : P a -> P b -> P (cmp_max a b).
Proof. unfold cmp_max. by destruct (cmp a b). Qed.

Lemma cmp_min_case {A} `{Cmp A} (a b : A) (P : A -> Prop) : P a -> P b -> P (cmp_min a b).
Proof. unfold cmp_min. by destruct (cmp a b). Qed.

Lemma cmp_min_bounds {A} `{CmpLaws A} (a b : A) : cle (cmp_min a b) a /\ cle (cmp_min a b) b.
Proof.
  unfold cmp_min. destruct (cmp a b) eqn:E; split; eauto with spk; unfold cle; try congruence.
  apply cmp_gt_lt in E. congruence.
Qed.

Lemma cle_clt_exists a b : clt a b <-> exists v : Version, cle a v /\ clt v b.
Proof.
  split.
  - intros. exists a. split; [apply cle_refl|done].
  - intros (v & ? & ?). by eapply cle_clt_trans.
Qed.

Ltac cmp_bools := repeat rewrite ?orb_true_iff, ?andb_true_iff, ?ltb_clt, ?gtb_clt, ?leb_cle, ?geb_cle.

Lemma range_inhabited a b : inhabited_limited (Range a b) <-> clt a b.
Proof. unfold inhabited_limited. simpl. by rewrite cle_clt_exists. Qed.

Lemma intersects_nonempty_spec a b :
  inhabited_limited a -> inhabited_limited b ->
  intersects_nonempty a b = true <-> exists v, in_limited a v /\ in_limited b v.
Proof.
  intros Ha Hb.
  destruct a as [x|x|x1 x2], b as [y|y|y1 y2]; simpl; cmp_bools;
    try (apply range_inhabited in Ha); try (apply range_inhabited in Hb).
  - split; [|done]. intros _. exists (cmp_max x y). apply cmp_max_bounds.
  - apply cle_clt_exists.
  - split.
    + intros ?. exists (cmp_max x y1). destruct (cmp_max_bounds x y1). split_and!; [done..|].
      by apply cmp_max_case.
    + intros (v & ? & ? & ?). by eapply cle_clt_trans.
  - rewrite cle_clt_exists. naive_solver.
  - split; [|done]. intros _. destruct Ha as [v1 H1], Hb as [v2 H2]. simpl in *.
    exists (cmp_min v1 v2). destruct (cmp_min_bounds v1 v2).
    split; eapply cle_clt_trans; [|exact H1| |exact H2]; done.
  - split.
    + intros ?. exists y1. split_and!; [done|apply cle_refl|done].
    + intros (v & ? & ? & ?). by eapply cle_clt_trans.
  - split.
    + intros ?. exists (cmp_max x1 y). destruct (cmp_max_bounds x1 y). split_and!; [done| |done].
      by apply cmp_max_case.
    + intros (v & [? ?] & ?). by eapply cle_clt_trans.
  - split.
    + intros ?. exists x1. split_and!; [apply cle_refl|done..].
    + intros (v & [? ?] & ?). by eapply cle_clt_trans.
  - split.
    + intros [[? ?]|[? ?]]; [exists x1|exists y1]; split_and!; done || apply cle_refl.
    + intros (v & [? ?] & [? ?]). destruct (cle_total y1 x1) as [|?%clt_cle]; [left|right];
        (split; [done|]); by eapply cle_clt_trans.
Qed.

Lemma valid_range_spec lower upper :
  exists r, valid_range lower upper = Ok r /\ forall v, in_valid r v <-> admits lower upper v.
Proof.
  unfold valid_range, admits. destruct lower as [l|], upper as [u|]; simpl; eauto.
  destruct (ltb l u); simpl; eauto.
Qed.

(** An upper bound with some version below it. *)
Definition bounds_ok (upper : option Version) : Prop :=
  match upper with Some u => exists v, clt v u | None => True end.

Lemma valid_range_inhabited lower upper r :
  bounds_ok upper -> valid_range lower upper = Ok r -> inhabited_valid r.
Proof.
  unfold valid_range. destruct lower as [l|], upper as [u|]; simpl; intros Hok E.
  - destruct (ltb l u) eqn:Hlu; simplify_eq; simpl.
    + by apply range_inhabited, ltb_clt.
    + split; [done|]. exists l. apply cle_refl.
  - simplify_eq. exists l. apply cle_refl.
  - simplify_eq. done.
  - by simplify_eq.
Qed.

Lemma LimitedValidRange_intersects_spec a r :
  inhabited_limited a -> inhabited_valid r ->
  LimitedValidRange_intersects a r = true <-> exists v, in_limited a v /\ in_valid r v.
Proof.
  intros Ha Hr. destruct r as [|r|p1 p2]; simpl in *.
  - destruct Ha as [v ?]. split; [|done]. intros _. by exists v.
  - by apply intersects_nonempty_spec.
  - destruct Hr as [? ?]. rewrite orb_true_iff, !intersects_nonempty_spec by done. naive_solver.
Qed.

Lemma ValidRange_intersects_spec a b :
  inhabited_valid a -> inhabited_valid b ->
  ValidRange_intersects a b = true <-> exists v, in_valid a v /\ in_valid b v.
Proof.
  intros Ha Hb. destruct a as [|a|a1 a2]; simpl in *.
  - split; [|done]. intros _. destruct b as [|b|b1 b2]; simpl in *.
    + by exists Version_default.
    + destruct Hb as [v ?]. by exists v.
    + destruct Hb as [[v ?] _]. exists v. auto.
  - by apply LimitedValidRange_intersects_spec.
  - destruct Ha as [? ?]. rewrite orb_true_iff, !LimitedValidRange_intersects_spec by done.
    naive_solver.
Qed.

(** ** Properties *)

(** Combining a range's two bounds never reaches the [unreachable!] arms,
    and the intersection test is exact: two pairs of bounds intersect exactly
    when some version lies in both ranges they describe. *)
Theorem intersects_exact l1 u1 l2 u2 :
  bounds_ok u1 -> bounds_ok u2 ->
  exists r1 r2, valid_range l1 u1 = Ok r1 /\ valid_range l2 u2 = Ok r2 /\
    (ValidRange_intersects r1 r2 = true <-> exists v, admits l1 u1 v /\ admits l2 u2 v).
Proof.
  intros H1 H2.
  destruct (valid_range_spec l1 u1) as (r1 & E1 & Hr1), (valid_range_spec l2 u2) as (r2 & E2 & Hr2).
  exists r1, r2. split_and!; [done..|]. rewrite ValidRange_intersects_spec
    by eauto using valid_range_inhabited.
  by setoid_rewrite Hr1; setoid_rewrite Hr2.
Qed.

Lemma intersects_exact_witness :
  exists r1 r2,
    valid_range (Some (from_parts [1]%N)) (Some (from_parts [2]%N)) = Ok r1 /\
    valid_range None (Some (from_parts [1; 5]%N)) = Ok r2 /\
    (ValidRange_intersects r1 r2 = true <-> exists v,
       admits (Some (from_parts [1]%N)) (Some (from_parts [2]%N)) v /\
       admits None (Some (from_parts [1; 5]%N)) v).
Proof. apply intersects_exact; exists (from_parts [1]%N); reflexivity. Defined.
