(* ===== verification/VersionRange.v ===== *)
(** * Version ranges

    The [Ranged] operations of
    crates/spk-schema/crates/foundation/src/version_range/mod.rs for every kind
    of range, and [VersionFilter]: restriction, simplification, flattening,
    conversion to a version, printing. *)

From S2P Require Import Prelude Strings Collections Version VersionOrder VersionText.
From S2P Require Import Compat RangeData Reasons CompatCheck Intersection.

(** ** Bounds *)

(** [*last += 1] on a slice, if it has a last element. *)
Fixpoint bump_last (l : list N) : list N :=
  match l with
  | [] => []
  | [x] => [u32_add x 1]
  | x :: l => x :: bump_last l
  end.

(** The loop of [SemverRange::less_than]: the parts up to the first nonzero one,
    which is incremented. *)
Fixpoint semver_bump (l : list N) : option (list N) :=
  match l with
  | [] => None
  | p :: l => if (p =? 0)%N then cons p <$> semver_bump l else Some [u32_add p 1]
  end.

Definition SemverRange_less_than (self : SemverRange) : option Version :=
  let ps := vparts (semver_minimum self) in
  match semver_bump (parts ps) with
  | Some l => Some (from_parts l)
  | None => Some (Version_from (mkParts (bump_last (parts ps)) (epsilon ps)))
  end.

Definition WildcardRange_greater_or_equal_to (self : WildcardRange) : option Version :=
  Some (from_parts ((fun p => default 0%N p) <$> wildcard_parts self)).

(** The loop of [WildcardRange::less_than] over the parts, with one of
    lookahead. *)
Fixpoint wildcard_upper (ps : list (option N)) : list N :=
  match ps with
  | [] => []
  | x :: ps =>
      match x, ps with
      | None, [] => []
      | None, _ :: _ => [0%N]
      | Some element_before_wildcard, None :: _ =>
          u32_add element_before_wildcard 1 :: wildcard_upper ps
      | Some x, _ => x :: wildcard_upper ps
      end
  end.

Definition WildcardRange_less_than (self : WildcardRange) : option Version :=
  match wildcard_upper (wildcard_parts self) with
  | [] => None
  | new_parts => Some (from_parts new_parts)
  end.

(** The slice is in range for the values the constructors build, which have
    [2 <= specified = len]; see [LowestSpecifiedRange_slice]. *)
Definition LowestSpecifiedRange_less_than (self : LowestSpecifiedRange) : option Version :=
  let ps := take (lowest_specified self - 1) (parts (vparts (lowest_base self))) in
  Some (minus_epsilon (from_parts (bump_last ps))).

(** [Iterator::max] and [Iterator::min]: of equal elements the last, and the
    first. *)
Fixpoint max_version (l : list Version) : option Version :=
  match l with
  | [] => None
  | v :: l => match max_version l with Some w => Some (cmp_max v w) | None => Some v end
  end.
Fixpoint min_version (l : list Version) : option Version :=
  match l with
  | [] => None
  | v :: l => match min_version l with Some w => Some (cmp_min v w) | None => Some v end
  end.

(** The [Some] values of an iterator ([filter_map]). *)
Fixpoint somes {A} (l : list (option A)) : list A :=
  match l with
  | [] => []
  | Some a :: l => a :: somes l
  | None :: l => somes l
  end.

Fixpoint greater_or_equal_to (self : VersionRange) : option Version :=
  match self with
  | Range_Compat r => Some (cr_base r)
  | Range_DoubleEquals r => Some (deq_version r)
  | Range_DoubleNotEquals r => Some (plus_epsilon (dne_base r))
  | Range_Equals r => Some (equals_version r)
  | Range_Filter rules => max_version (somes (List.map greater_or_equal_to rules))
  | Range_GreaterThan r => Some (plus_epsilon (gt_bound r))
  | Range_GreaterThanOrEqualTo r => Some (gte_bound r)
  | Range_LessThan _ => None
  | Range_LessThanOrEqualTo _ => None
  | Range_LowestSpecified r => Some (lowest_base r)
  | Range_NotEquals r => Some (plus_epsilon (ne_base r))
  | Range_Semver r => Some (semver_minimum r)
  | Range_Wildcard r => WildcardRange_greater_or_equal_to r
  end.

Fixpoint less_than (self : VersionRange) : option Version :=
  match self with
  | Range_Compat _ => None
  | Range_DoubleEquals r => Some (plus_epsilon (deq_version r))
  | Range_DoubleNotEquals r => Some (dne_base r)
  | Range_Equals r => Some (plus_epsilon (equals_version r))
  | Range_Filter rules => min_version (somes (List.map less_than rules))
  | Range_GreaterThan _ => None
  | Range_GreaterThanOrEqualTo _ => None
  | Range_LessThan r => Some (lt_bound r)
  | Range_LessThanOrEqualTo r => Some (plus_epsilon (lte_bound r))
  | Range_LowestSpecified r => LowestSpecifiedRange_less_than r
  | Range_NotEquals r => Some (ne_base r)
  | Range_Semver r => SemverRange_less_than r
  | Range_Wildcard r => WildcardRange_less_than r
  end.

(** ** Applicability *)

(** The default [Ranged::is_applicable]: between the two bounds. *)
Definition default_is_applicable (lower upper : option Version) (other : Version) : Compatibility :=
  match (match lower with
         | Some gt => if ltb other gt
                      then Some (Incompatible (VersionTooLow (TooLow (GteVersion gt)))) else None
         | None => None
         end) with
  | Some problem => problem
  | None =>
      match upper with
      | Some lt => if geb other lt
                   then Incompatible (VersionTooHigh (TooHigh (LtVersion lt))) else Compatible
      | None => Compatible
      end
  end.

(** The loop of [WildcardRange::is_applicable] over the zipped parts. *)
Fixpoint wildcard_applicable (self : WildcardRange) (i : nat) (ps : list (option N))
    (version : list N) : Compatibility :=
  match ps, version with
  | a :: ps, b :: version =>
      match a with
      | Some a =>
          if negb (a =? b)%N
          then Incompatible (VersionOutOfRange self (i + 1) (get_version_position_label i) b a)
          else wildcard_applicable self (S i) ps version
      | None => wildcard_applicable self (S i) ps version
      end
  | _, _ => Compatible
  end.

Definition WildcardRange_is_applicable (self : WildcardRange) (version : Version) : Compatibility :=
  wildcard_applicable self 0 (wildcard_parts self) (parts (vparts version)).

Definition GreaterThanRange_is_applicable (self : GreaterThanRange) (version : Version) :=
  if leb version (gt_bound self)
  then Incompatible (VersionTooLow (NotHighEnough (lit ">") (gt_bound self))) else Compatible.
Definition LessThanRange_is_applicable (self : LessThanRange) (version : Version) :=
  if geb version (lt_bound self)
  then Incompatible (VersionTooHigh (NotLowEnough (lit "<") (lt_bound self))) else Compatible.
Definition GreaterThanOrEqualToRange_is_applicable (self : GreaterThanOrEqualToRange)
    (version : Version) :=
  if ltb version (gte_bound self)
  then Incompatible (VersionTooLow (NotHighEnough (lit ">=") (gte_bound self))) else Compatible.
Definition LessThanOrEqualToRange_is_applicable (self : LessThanOrEqualToRange)
    (version : Version) :=
  if gtb version (lte_bound self)
  then Incompatible (VersionTooHigh (NotLowEnough (lit "<=") (lte_bound self))) else Compatible.

(** The loop of [EqualsVersion::is_applicable] over the specified post tags. *)
Fixpoint post_tags_present (post : list (rstr * N)) (other : TagSet) : bool :=
  match post with
  | [] => true
  | (name, value) :: post =>
      match bmap_get name (tags other) with
      | Some v => if (v =? value)%N then post_tags_present post other else false
      | None => false
      end
  end.

Definition EqualsVersion_is_applicable (self : EqualsVersion) (other : Version) : Compatibility :=
  let v := equals_version self in
  if negb (VersionParts_eq (vparts v) (vparts other)) then
    Incompatible (VersionNotEqual (PartsNotEqual self other))
  else if negb (TagSet_eq (pre v) (pre other)) then
    Incompatible (VersionNotEqual (PreNotEqual self other))
  else if post_tags_present (tags (post v)) (post other) then Compatible
  else Incompatible (VersionNotEqual (PostNotEqual self other)).

Definition DoubleEqualsVersion_is_applicable (self : DoubleEqualsVersion) (other : Version) :
    Compatibility :=
  let v := deq_version self in
  if negb (VersionParts_eq (vparts v) (vparts other)) then
    Incompatible (VersionNotEqual (PartsNotEqualPrecisely self other))
  else if negb (TagSet_eq (pre v) (pre other)) then
    Incompatible (VersionNotEqual (PreNotEqualPrecisely self other))
  else if negb (TagSet_eq (post v) (post other)) then
    Incompatible (VersionNotEqual (PostNotEqualPrecisely self other))
  else Compatible.

(** Some part differs among the first [specified] zipped parts. *)
Definition specified_part_differs (specified : nat) (version base : Version) : bool :=
  existsb (fun '(l, r) => negb (l =? r)%N)
    (take specified (combine (parts (vparts version)) (parts (vparts base)))).

Definition NotEqualsVersion_is_applicable (self : NotEqualsVersion) (version : Version) :
    Compatibility :=
  if specified_part_differs (ne_specified self) version (ne_base self) then Compatible
  else if negb (TagSet_is_empty (post (ne_base self))) &&
          negb (TagSet_eq (post (ne_base self)) (post version)) then Compatible
  else Incompatible (VersionNotDifferent (NotEqual self)).

Definition DoubleNotEqualsVersion_is_applicable (self : DoubleNotEqualsVersion) (version : Version) :
    Compatibility :=
  if specified_part_differs (dne_specified self) version (dne_base self) then Compatible
  else if negb (TagSet_eq (post (dne_base self)) (post version)) then Compatible
  else Incompatible (VersionNotDifferent (NotPreciselyEqual self)).

(** Run a check over the items in order and return the first problem. *)
Section first_problem.
Context {A : Type} (check : A -> Compatibility).
Fixpoint first_problem (l : list A) : Compatibility :=
  match l with
  | [] => Compatible
  | x :: l => match check x with Compatible => first_problem l | problem => problem end
  end.
End first_problem.

Fixpoint is_applicable (self : VersionRange) (version : Version) : Compatibility :=
  match self with
  | Range_Compat r => default_is_applicable (Some (cr_base r)) None version
  | Range_DoubleEquals r => DoubleEqualsVersion_is_applicable r version
  | Range_DoubleNotEquals r => DoubleNotEqualsVersion_is_applicable r version
  | Range_Equals r => EqualsVersion_is_applicable r version
  | Range_Filter rules => first_problem (fun r => is_applicable r version) rules
  | Range_GreaterThan r => GreaterThanRange_is_applicable r version
  | Range_GreaterThanOrEqualTo r => GreaterThanOrEqualToRange_is_applicable r version
  | Range_LessThan r => LessThanRange_is_applicable r version
  | Range_LessThanOrEqualTo r => LessThanOrEqualToRange_is_applicable r version
  | Range_LowestSpecified r =>
      default_is_applicable (Some (lowest_base r)) (LowestSpecifiedRange_less_than r) version
  | Range_NotEquals r => NotEqualsVersion_is_applicable r version
  | Range_Semver r =>
      default_is_applicable (Some (semver_minimum r)) (SemverRange_less_than r) version
  | Range_Wildcard r => WildcardRange_is_applicable r version
  end.

(** ** Satisfaction by a package *)

Definition CompatRange_is_satisfied_by {V} `{Versioned V} (self : CompatRange) (spec : V)
    (required : CompatRule) : Compatibility :=
  if ltb (spec_version spec) (cr_base self) then
    Incompatible (VersionTooLow (TooLow (CompatVersion (cr_base self))))
  else
    match (match cr_required self with Some r => r | None => required end) with
    | RuleNone => Compatible
    | RuleAPI => spec_is_api_compatible spec (cr_base self)
    | RuleBinary => spec_is_binary_compatible spec (cr_base self)
    end.

Fixpoint is_satisfied_by {V} `{Versioned V} (self : VersionRange) (spec : V)
    (required : CompatRule) : Compatibility :=
  match self with
  | Range_Compat r => CompatRange_is_satisfied_by r spec required
  | Range_Filter rules => first_problem (fun r => is_satisfied_by r spec required) rules
  | r => is_applicable r (spec_version spec)
  end.

(** ** Printing *)

Definition LowestSpecifiedRange_fmt (self : LowestSpecifiedRange) : rstr :=
  lit "~" ++ join [c_dot] (dec <$> take (lowest_specified self) (parts (vparts (lowest_base self))))
  ++ format_tags (lowest_base self).

Definition WildcardRange_fmt (self : WildcardRange) : rstr :=
  join [c_dot] ((fun p => match p with Some p => dec p | None => lit "*" end) <$> wildcard_parts self).

Definition not_equals_fmt (op : rstr) (specified : nat) (base : Version) : rstr :=
  op ++ join [c_dot] (dec <$> take specified (parts (vparts base))) ++ format_tags base.

Definition CompatRange_fmt (alternate : bool) (self : CompatRange) : res Empty_set rstr :=
  prefix ← match cr_required self with
           | Some r => s ← CompatRule_fmt true r; Ok (s ++ [c_colon])
           | None => Ok []
           end;
  Ok (prefix ++ Version_fmt alternate (cr_base self)).

(** [VersionFilter::is_empty], on the rule and on the filter. *)
Fixpoint is_empty_filter (r : VersionRange) : bool :=
  match r with
  | Range_Filter rules => forallb is_empty_filter rules
  | _ => false
  end.
Definition VersionFilter_is_empty (rules : list VersionRange) : bool :=
  forallb is_empty_filter rules.

(** [Display for VersionRange] and for [VersionFilter], whose printed rules are
    sorted and which skips nested filters that are empty. *)
Fixpoint VersionRange_fmt (alternate : bool) (self : VersionRange) : res Empty_set rstr :=
  match self with
  | Range_Compat r => CompatRange_fmt alternate r
  | Range_DoubleEquals r => Ok (lit "==" ++ Version_to_string (deq_version r))
  | Range_DoubleNotEquals r => Ok (not_equals_fmt (lit "!==") (dne_specified r) (dne_base r))
  | Range_Equals r => Ok (lit "=" ++ Version_to_string (equals_version r))
  | Range_Filter rules =>
      strs ← (fix go (l : list VersionRange) : res Empty_set (list rstr) :=
        match l with
        | [] => Ok []
        | r :: l =>
            if is_empty_filter r then go l
            else s ← VersionRange_fmt alternate r; ss ← go l; Ok (s :: ss)
        end) rules;
      Ok (join [c_comma] (sort_slice strs))
  | Range_GreaterThan r => Ok (lit ">" ++ Version_to_string (gt_bound r))
  | Range_GreaterThanOrEqualTo r => Ok (lit ">=" ++ Version_to_string (gte_bound r))
  | Range_LessThan r => Ok (lit "<" ++ Version_to_string (lt_bound r))
  | Range_LessThanOrEqualTo r => Ok (lit "<=" ++ Version_to_string (lte_bound r))
  | Range_LowestSpecified r => Ok (LowestSpecifiedRange_fmt r)
  | Range_NotEquals r => Ok (not_equals_fmt (lit "!=") (ne_specified r) (ne_base r))
  | Range_Semver r => Ok (lit "^" ++ Version_to_string (semver_minimum r))
  | Range_Wildcard r => Ok (WildcardRange_fmt r)
  end.
Definition VersionRange_to_string : VersionRange -> res Empty_set rstr := VersionRange_fmt false.

(** ** Intersection and containment *)

(** [Ranged::rules]. *)
Definition rules (self : VersionRange) : list VersionRange :=
  match self with
  | Range_Filter rules => rules
  | r => bset_insert r []
  end.

Definition get_compat_rule (self : VersionRange) : option CompatRule :=
  match self with
  | Range_Compat r => cr_required r
  | _ => None
  end.

(** The default [Ranged::intersects], on the bounds of the two ranges. *)
Definition default_intersects (self other : VersionRange) : res Empty_set Compatibility :=
  self_valid_range ← valid_range (greater_or_equal_to self) (less_than self);
  other_valid_range ← valid_range (greater_or_equal_to other) (less_than other);
  if ValidRange_intersects self_valid_range other_valid_range then Ok Compatible
  else
    s ← VersionRange_to_string self;
    o ← VersionRange_to_string other;
    Ok (Incompatible (RangesDoNotIntersect s o)).

(** [first_problem] for checks that can panic. *)
Section first_problem_res.
Context {E A : Type} (check : A -> res E Compatibility).
Fixpoint first_problem_res (l : list A) : res E Compatibility :=
  match l with
  | [] => Ok Compatible
  | x :: l =>
      compat ← check x;
      match compat with Compatible => first_problem_res l | problem => Ok problem end
  end.
End first_problem_res.

(** [Ranged::intersects]: a filter compares each of its rules with each rule of
    the other range that it does not have already. *)
Fixpoint intersects (self other : VersionRange) : res Empty_set Compatibility :=
  match self with
  | Range_Filter self_rules =>
      first_problem_res (fun new_rule =>
        first_problem_res (fun old_rule => intersects old_rule new_rule) self_rules)
        (bset_sub (rules other) self_rules)
  | _ => default_intersects self other
  end.

(** One round of the bounds loop of [Ranged::contains]: the failing case, if
    any. *)
Definition contain_case (left_bound right_bound right_opposite_bound : option Version) : option nat :=
  match left_bound, right_bound, right_opposite_bound with
  | None, None, _ => None
  | None, Some _, None => Some 1
  | None, Some right_bound, Some right_opposite_bound =>
      if ltb right_opposite_bound right_bound then Some 2 else None
  | Some left_bound, None, Some right_opposite_bound =>
      if gtb right_opposite_bound left_bound then Some 3 else None
  | Some _, None, None => Some 4
  | Some left_bound, Some right_bound, _ =>
      if gtb left_bound right_bound then Some 5 else None
  end.

(** The two rounds: lower bounds, then upper bounds; the failing case and the
    index of its round. *)
Definition contain_problem (self other : VersionRange) : option (nat * nat) :=
  let self_lower := greater_or_equal_to self in
  let self_upper := less_than self in
  let other_lower := greater_or_equal_to other in
  let other_upper := less_than other in
  match contain_case self_lower other_lower other_upper with
  | Some case => Some (case, 0)
  | None =>
      match contain_case other_upper self_upper self_lower with
      | Some case => Some (case, 1)
      | None => None
      end
  end.

(** The guard of [Ranged::contains] on the compatibility rules: true when
    [self] asks for more than [other]. *)
Definition stronger_compat_requirements (self other : VersionRange) : bool :=
  match get_compat_rule self, get_compat_rule other with
  | Some _, None =>
      let other_v := match other with
                     | Range_DoubleEquals v => Some (deq_version v)
                     | Range_Equals v => Some (equals_version v)
                     | _ => None
                     end in
      match other_v, self with
      | Some other_v, Range_Compat c => negb (Version_eq (cr_base c) other_v)
      | _, _ => true
      end
  | Some x, Some y => gtb x y
  | _, _ => false
  end.

Definition default_contains (self other : VersionRange) : res Empty_set Compatibility :=
  if stronger_compat_requirements self other then
    s ← VersionRange_to_string self;
    o ← VersionRange_to_string other;
    Ok (Incompatible (RangeNotSuperset (StrongerCompatibilityRequirements s o)))
  else
    match contain_problem self other with
    | Some (case, index) =>
        s ← VersionRange_to_string self;
        o ← VersionRange_to_string other;
        Ok (Incompatible (RangeNotSuperset (ContainProblem case index s o)))
    | None => default_intersects self other
    end.

(** [Ranged::contains]. *)
Fixpoint contains (self other : VersionRange) : res Empty_set Compatibility :=
  match self with
  | Range_Filter self_rules =>
      first_problem_res (fun new_rule =>
        first_problem_res (fun old_rule => contains old_rule new_rule) self_rules)
        (bset_sub (rules other) self_rules)
  | _ => default_contains self other
  end.

(** ** [VersionFilter] *)

Definition VersionFilter_new (rules : list VersionRange) : list VersionRange := bset_collect rules.
Definition VersionFilter_single (item : VersionRange) : list VersionRange := bset_insert item [].
(** [From<Version> for VersionFilter]. *)
Definition VersionFilter_from (version : Version) : list VersionRange :=
  VersionFilter_single (Range_DoubleEquals (mkDoubleEquals version)).
Definition VersionFilter_len (rules : list VersionRange) : nat := length rules.

(** [VersionFilter::flatten]: nested filters are flattened, then their rules
    take their place. *)
Fixpoint flatten_rule (r : VersionRange) : VersionRange :=
  match r with
  | Range_Filter rs =>
      Range_Filter (bset_collect (List.flat_map (fun r => rules (flatten_rule r)) rs))
  | r => r
  end.
Definition VersionFilter_flatten (rs : list VersionRange) : list VersionRange :=
  bset_collect (List.flat_map (fun r => rules (flatten_rule r)) rs).

(** [VersionFilter::try_into_version]. *)
Fixpoint rule_try_into_version (rule : VersionRange) : res RangeError Version :=
  match rule with
  | Range_Compat v => Ok (cr_base v)
  | Range_Equals v => Ok (equals_version v)
  | Range_DoubleEquals v => Ok (deq_version v)
  | Range_Filter rs =>
      match rs with
      | [] => Err FilterEmpty
      | [r] => rule_try_into_version r
      | _ :: _ :: _ => Err FilterNotSingle
      end
  | _ => Err (NotAVersion rule)
  end.
Definition VersionFilter_try_into_version (rs : list VersionRange) : res RangeError Version :=
  rule_try_into_version (Range_Filter rs).

Inductive RestrictMode := RequireIntersectingRanges | AllowNonIntersectingRanges.

(** Whether [simplify_rules] skips a pair because of compat ranges. *)
Definition skip_compat_pair (lhs rhs : VersionRange) : bool :=
  match lhs, rhs with
  | Range_Compat l, Range_Equals r =>
      if Version_eq (cr_base l) (equals_version r) then false else true
  | Range_Compat l, Range_DoubleEquals r =>
      if Version_eq (cr_base l) (deq_version r) then false else true
  | _, Range_Compat _ => true
  | Range_Compat _, _ => true
  | _, _ => false
  end.

Section simplify.
(** [itertools]' [permutations(2)] on the enumerated rules: the ordered pairs of
    distinct positions, in the iterator's order. *)
Variable permutations2 : forall A : Type, list A -> list (A * A).

(** The [for] loop over the candidate pairs: the index of the first left-hand
    rule that contains its right-hand rule. *)
Fixpoint find_redundant (allow_compat_ranges_to_merge : bool)
    (candidates : list ((nat * VersionRange) * (nat * VersionRange))) : res Empty_set (option nat) :=
  match candidates with
  | [] => Ok None
  | ((lhs_index, lhs_vr), (_, rhs_vr)) :: candidates =>
      if negb allow_compat_ranges_to_merge && skip_compat_pair lhs_vr rhs_vr
      then find_redundant allow_compat_ranges_to_merge candidates
      else
        compat ← contains lhs_vr rhs_vr;
        if is_ok compat then Ok (Some lhs_index)
        else find_redundant allow_compat_ranges_to_merge candidates
  end.

(** The ['start_over] loop.  Every round but the last removes a rule, so one
    round more than there are rules is enough; [Panicked] out of fuel. *)
Fixpoint simplify_loop (fuel : nat) (allow : bool) (rules_as_vec : list VersionRange) :
    res Empty_set (list VersionRange) :=
  match fuel with
  | O => Panicked
  | S fuel =>
      index_to_remove ←
        find_redundant allow (permutations2 _ (imap pair rules_as_vec));
      match index_to_remove with
      | Some index => simplify_loop fuel allow (delete index rules_as_vec)
      | None => Ok rules_as_vec
      end
  end.

Definition simplify_rules (allow_compat_ranges_to_merge : bool) (rs : list VersionRange) :
    res Empty_set (list VersionRange) :=
  if length rs <=? 1 then Ok rs
  else
    rules_as_vec ← simplify_loop (S (length rs)) allow_compat_ranges_to_merge rs;
    Ok (bset_collect rules_as_vec).

(** [VersionFilter::restrict]: the outcome and the filter afterwards. *)
Definition VersionFilter_restrict (self : list VersionRange) (other : VersionRange)
    (mode : RestrictMode) : res Empty_set (Compatibility * list VersionRange) :=
  compat ← intersects (Range_Filter self) other;
  match compat with
  | Incompatible _ =>
      match mode with
      | AllowNonIntersectingRanges => Ok (Compatible, bset_extend self (rules other))
      | RequireIntersectingRanges => Ok (compat, self)
      end
  | Compatible =>
      rs ← simplify_rules false (bset_extend self (rules other));
      Ok (Compatible, rs)
  end.

(** [parse_version_range] after the text is parsed to a filter. *)
Definition parse_version_range_rules (filter : list VersionRange) : res Empty_set VersionRange :=
  filter ← simplify_rules true filter;
  match filter with
  | [r] => Ok r
  | _ => Ok (Range_Filter filter)
  end.
End simplify.
