(* ===== verification/RangeTheory.v ===== *)
(** * Correctness of version ranges

    Interval ranges (everything but inequalities, wildcards and [=]) over plain
    bounds, for which the tests [contains] and [intersects] of
    version_range/mod.rs are shown sound against [is_applicable], and with them
    restriction and simplification of filters. *)

From S2P Require Import Prelude Strings Collections Version VersionOrder VersionText.
From S2P Require Import Compat RangeData Reasons CompatCheck Intersection VersionRange.

(** ** Plain bounds *)

(** A version without pre- or post-release tags, nudged or not. *)
Definition tagless (v : Version) : Prop := tags (pre v) = [] /\ tags (post v) = [].
Definition plain (v : Version) : Prop := epsilon (vparts v) = EpsNone /\ tagless v.

Definition numbers (v : Version) : list N := strip0 (parts (vparts v)).

Lemma cmp_tagless a b :
  tagless a -> tagless b ->
  cmp a b = thenc (cmp (numbers a) (numbers b)) (cmp (epsilon (vparts a)) (epsilon (vparts b))).
Proof.
  intros [Ha1 Ha2] [Hb1 Hb2]. rewrite Version_cmp_key. unfold version_key, TagSet_is_empty.
  rewrite Ha1, Ha2, Hb1, Hb2, !cmp_pair. simpl.
  unfold numbers. destruct (cmp (strip0 _) _); simpl; try done. by destruct (cmp (epsilon _) _).
Qed.

(** The version with its tags replaced by the epsilon on their side: a
    pre-release is just below its numbers, a post-release just above. *)
Definition tag_side (v : Version) : Epsilon :=
  if negb (TagSet_is_empty (pre v)) then EpsMinus
  else if negb (TagSet_is_empty (post v)) then EpsPlus else EpsNone.
Definition round_tags (v : Version) : Version :=
  Version_from (mkParts (parts (vparts v)) (tag_side v)).

Lemma round_tags_tagless v : tagless (round_tags v).
Proof. done. Qed.

(** Against a plain bound only the side of the tags matters. *)
Lemma cmp_plain v x :
  epsilon (vparts v) = EpsNone -> plain x ->
  cmp v x = thenc (cmp (numbers v) (numbers x)) (cmp (tag_side v) EpsNone).
Proof.
  intros Hv (Hx & Hx1 & Hx2). rewrite Version_cmp_key. unfold version_key, tag_side.
  assert (TagSet_is_empty (pre x) = true) as -> by by apply TagSet_is_empty_nil.
  rewrite Hx, Hx1, Hx2, Hv, !cmp_pair. cbn [sort_slice foldr]. unfold numbers.
  destruct (cmp (strip0 _) (strip0 _)); simpl; try done.
  destruct (TagSet_is_empty (pre v)) eqn:E1; simpl; [|done].
  apply TagSet_is_empty_nil in E1 as ->. simpl.
  pose proof (TagSet_is_empty_nil (post v)) as E2.
  pose proof (Permutation_length (sort_slice_perm (tags (post v)))) as Hlen.
  destruct (TagSet_is_empty (post v)); simpl.
  - by rewrite (proj1 E2 eq_refl).
  - destruct (tags (post v)) eqn:E; [naive_solver|]. by destruct (sort_slice _).
Qed.

Lemma cmp_round v b : tagless b ->
  cmp (round_tags v) b = thenc (cmp (numbers v) (numbers b)) (cmp (tag_side v) (epsilon (vparts b))).
Proof. intros Hb. by rewrite cmp_tagless. Qed.

Lemma plain_nudge x e :
  plain x -> tagless (mkVersion (mkParts (parts (vparts x)) e) (pre x) (post x)).
Proof. by intros (_ & ? & ?). Qed.

Section against_plain.
Context (v x : Version) (Hv : epsilon (vparts v) = EpsNone) (Hx : plain x).

Lemma cmp_round_plain : cmp (round_tags v) x = cmp v x.
Proof. rewrite (cmp_plain v), cmp_round by (done || apply Hx). by destruct Hx as [-> _]. Qed.

Lemma plain_le : cle x v <-> cle x (round_tags v).
Proof. unfold cle. rewrite !(cmp_antisym _ x), cmp_round_plain. done. Qed.

Lemma plain_gt : clt x v <-> cle (plus_epsilon x) (round_tags v).
Proof.
  unfold clt, cle. rewrite (cmp_antisym v x), (cmp_antisym (round_tags v)).
  rewrite cmp_plain by done. rewrite cmp_round by apply plain_nudge, Hx.
  change (numbers (plus_epsilon x)) with (numbers x). simpl.
  by destruct (cmp (numbers v) (numbers x)), (tag_side v).
Qed.

Lemma plain_lt : clt v x <-> clt (round_tags v) x.
Proof. unfold clt. by rewrite cmp_round_plain. Qed.

Lemma plain_lte : cle v x <-> clt (round_tags v) (plus_epsilon x).
Proof.
  unfold clt, cle. rewrite cmp_plain by done. rewrite cmp_round by apply plain_nudge, Hx.
  change (numbers (plus_epsilon x)) with (numbers x). simpl.
  by destruct (cmp (numbers v) (numbers x)), (tag_side v).
Qed.

Lemma plain_lt_minus : clt v (minus_epsilon x) <-> clt (round_tags v) (minus_epsilon x).
Proof.
  unfold clt. rewrite (cmp_round v (minus_epsilon x)) by apply plain_nudge, Hx.
  assert (cmp v (minus_epsilon x) = thenc (cmp (numbers v) (numbers x)) Gt) as ->.
  { rewrite Version_cmp_key. unfold version_key. rewrite (cmp_pair (strip0 _)), (cmp_pair (epsilon _)).
    by rewrite Hv. }
  change (numbers (minus_epsilon x)) with (numbers x). simpl.
  by destruct (cmp (numbers v) (numbers x)), (tag_side v).
Qed.
End against_plain.

(** ** Interval ranges *)

Definition normal_bounds (r : VersionRange) : Prop :=
  forall l u, greater_or_equal_to r = Some l -> less_than r = Some u -> clt l u.

(** The interval kinds over plain bounds: [>=], [>], [<], [<=], [==], [~], [^]
    and compat ranges.  [~] has the shape its constructors give it, and [^] a
    nonzero part. *)
Definition interval (r : VersionRange) : Prop :=
  match r with
  | Range_Compat c => plain (cr_base c) /\ cr_required c <> Some RuleNone
  | Range_DoubleEquals d => plain (deq_version d)
  | Range_GreaterThan g => plain (gt_bound g)
  | Range_GreaterThanOrEqualTo g => plain (gte_bound g)
  | Range_LessThan l => plain (lt_bound l)
  | Range_LessThanOrEqualTo l => plain (lte_bound l)
  | Range_LowestSpecified l =>
      plain (lowest_base l) /\ lowest_specified l = length (parts (vparts (lowest_base l))) /\
      normal_bounds r
  | Range_Semver s => plain (semver_minimum s) /\ numbers (semver_minimum s) <> [] /\ normal_bounds r
  | _ => False
  end.

(** Between the bounds of a range. *)
Definition in_bounds (r : VersionRange) (v : Version) : Prop :=
  match greater_or_equal_to r with Some l => cle l v | None => True end /\
  match less_than r with Some u => clt v u | None => True end.

Lemma default_applicable_iff lower upper v :
  is_ok (default_is_applicable lower upper v) = true <->
  match lower with Some l => cle l v | None => True end /\
  match upper with Some u => clt v u | None => True end.
Proof.
  unfold default_is_applicable. destruct lower as [l|]; simpl.
  - destruct (ltb v l) eqn:E; [apply ltb_clt in E|apply ltb_ge in E]; simpl.
    + split; [done|]. intros [Hl _]. by apply clt_not_cle in E.
    + destruct upper as [u|]; [|done].
      destruct (geb v u) eqn:E'; [apply geb_cle in E'|apply geb_lt in E']; simpl; [|done].
      split; [done|]. intros [_ Hu]. by apply clt_not_cle in Hu.
  - destruct upper as [u|]; [|done].
    destruct (geb v u) eqn:E'; [apply geb_cle in E'|apply geb_lt in E']; simpl; [|done].
    split; [done|]. intros [_ Hu]. by apply clt_not_cle in Hu.
Qed.

Lemma plain_from_parts l : plain (from_parts l).
Proof. done. Qed.

Lemma semver_upper_plain s : plain (semver_minimum s) ->
  exists z, SemverRange_less_than s = Some z /\ plain z.
Proof.
  intros [Hs _]. unfold SemverRange_less_than. by destruct (semver_bump _); eexists; split.
Qed.

Lemma double_equals_applicable d v :
  epsilon (vparts v) = EpsNone -> plain (deq_version d) ->
  is_ok (DoubleEqualsVersion_is_applicable d v) = true <->
  cle (deq_version d) v /\ cle v (deq_version d).
Proof.
  intros Hv Hx. set (x := deq_version d) in *.
  assert (cle x v /\ cle v x <-> cmp v x = Eq) as ->.
  { unfold cle. rewrite (cmp_antisym v x). destruct (cmp v x); naive_solver. }
  rewrite cmp_plain by done. rewrite thenc_eq. destruct Hx as (Hx & Hx1 & Hx2).
  unfold DoubleEqualsVersion_is_applicable. fold x.
  pose proof (VersionParts_eq_spec (vparts x) (vparts v)) as Hp.
  destruct (VersionParts_eq _ _); simpl.
  - destruct (proj1 Hp eq_refl) as [Hn _]. unfold numbers. rewrite Hn, cmp_refl.
    unfold tag_side, TagSet_eq, TagSet_is_empty.
    destruct (pre x) as [tpre], (post x) as [tpost], (pre v) as [vpre], (post v) as [vpost].
    simpl in *. subst. destruct vpre, vpost; simpl; naive_solver.
  - split; [done|]. intros [E _]. apply cmp_eq in E. unfold numbers in E.
    destruct (proj2 Hp); [|done]. split; [done|]. congruence.
Qed.

(** An interval range is applicable to a version exactly when the version, its
    tags rounded to an epsilon, lies between the range's bounds. *)
Lemma interval_applicable r v :
  interval r -> epsilon (vparts v) = EpsNone ->
  is_ok (is_applicable r v) = true <-> in_bounds r (round_tags v).
Proof.
  unfold in_bounds. destruct r; simpl; intros Hr Hv; try done.
  - destruct Hr as [Hr _]. rewrite default_applicable_iff. by rewrite (plain_le v).
  - rewrite double_equals_applicable by done.
    by rewrite (plain_le v (deq_version r)), (plain_lte v (deq_version r)).
  - unfold GreaterThanRange_is_applicable. rewrite <-plain_gt by done.
    destruct (leb v (gt_bound r)) eqn:E; [apply leb_cle in E|apply leb_gt in E]; simpl; [|done].
    apply cle_not_clt in E. naive_solver.
  - unfold GreaterThanOrEqualToRange_is_applicable. rewrite <-plain_le by done.
    destruct (ltb v (gte_bound r)) eqn:E; [apply ltb_clt in E|apply ltb_ge in E]; simpl; [|done].
    apply clt_not_cle in E. naive_solver.
  - unfold LessThanRange_is_applicable. rewrite <-plain_lt by done.
    destruct (geb v (lt_bound r)) eqn:E; [apply geb_cle in E|apply geb_lt in E]; simpl; [|done].
    apply cle_not_clt in E. naive_solver.
  - unfold LessThanOrEqualToRange_is_applicable. rewrite <-plain_lte by done.
    destruct (gtb v (lte_bound r)) eqn:E; [apply gtb_clt in E|apply gtb_le in E]; simpl; [|done].
    apply clt_not_cle in E. naive_solver.
  - destruct Hr as [Hr _]. rewrite default_applicable_iff. unfold LowestSpecifiedRange_less_than.
    rewrite (plain_le v (lowest_base r)) by done. by rewrite plain_lt_minus.
  - destruct Hr as [Hr _]. rewrite default_applicable_iff.
    destruct (semver_upper_plain r Hr) as (z & -> & Hz). by rewrite (plain_le v (semver_minimum r)), (plain_lt v z).
Qed.

Lemma interval_normal r : interval r -> normal_bounds r.
Proof.
  destruct r; simpl; try done; try naive_solver.
  intros (Hx & Ht) l u [= <-] [= <-]. unfold clt. rewrite cmp_tagless by done. simpl.
  rewrite cmp_refl, Hx. done.
Qed.

Lemma interval_leaf r : interval r -> is_leaf r = true.
Proof. by destruct r. Qed.

Lemma interval_to_string r : interval r -> exists s, VersionRange_to_string r = Ok s.
Proof.
  destruct r; simpl; try (intros; eexists; reflexivity); try done.
  intros [_ Hr]. unfold VersionRange_to_string. cbn [VersionRange_fmt].
  unfold CompatRange_fmt. destruct (cr_required r) as [[]|]; [done|eexists; reflexivity..].
Qed.

(** The default test never panics on interval ranges, and is the test on the
    valid ranges of the bounds. *)
Lemma default_intersects_interval a b :
  interval a -> interval b ->
  exists c, default_intersects a b = Ok c /\
    (bounds_ok (less_than a) -> bounds_ok (less_than b) ->
     is_ok c = true <-> exists v, admits (greater_or_equal_to a) (less_than a) v /\
                                  admits (greater_or_equal_to b) (less_than b) v).
Proof.
  intros Ha Hb. unfold default_intersects.
  destruct (valid_range_spec (greater_or_equal_to a) (less_than a)) as (r1 & E1 & Hr1).
  destruct (valid_range_spec (greater_or_equal_to b) (less_than b)) as (r2 & E2 & Hr2).
  rewrite E1, E2. simpl.
  destruct (interval_to_string a Ha) as [sa ->], (interval_to_string b Hb) as [sb ->].
  assert (bounds_ok (less_than a) -> bounds_ok (less_than b) ->
    ValidRange_intersects r1 r2 = true <-> exists v, admits (greater_or_equal_to a) (less_than a) v /\
      admits (greater_or_equal_to b) (less_than b) v) as Hspec.
  { intros. rewrite ValidRange_intersects_spec by eauto using valid_range_inhabited.
    by setoid_rewrite Hr1; setoid_rewrite Hr2. }
  simpl. destruct (ValidRange_intersects r1 r2); eexists; split; try done; naive_solver.
Qed.

Lemma normal_admits r v : normal_bounds r -> 
  in_bounds r v <-> admits (greater_or_equal_to r) (less_than r) v.
Proof.
  unfold normal_bounds, in_bounds, admits. intros Hn.
  destruct (greater_or_equal_to r) as [l|], (less_than r) as [u|]; try tauto.
  rewrite (proj2 (ltb_clt l u)) by by apply Hn. done.
Qed.

Lemma in_bounds_ok r v : in_bounds r v -> bounds_ok (less_than r).
Proof. unfold in_bounds, bounds_ok. destruct (less_than r); naive_solver. Qed.

(** Two interval ranges with a common version intersect. *)
Lemma interval_intersects a b v :
  interval a -> interval b -> in_bounds a v -> in_bounds b v ->
  default_intersects a b = Ok Compatible.
Proof.
  intros Ha Hb Hav Hbv. destruct (default_intersects_interval a b Ha Hb) as (c & -> & Hc).
  destruct c; [done|]. exfalso.
  assert (is_ok (Incompatible reason) = true); [|done].
  apply Hc; eauto using in_bounds_ok. exists v. by rewrite <-!normal_admits by eauto using interval_normal.
Qed.

(** The bounds of [b] are within those of [a]. *)
Definition bounds_within (b a : VersionRange) : Prop :=
  match greater_or_equal_to a with
  | Some l => exists l', greater_or_equal_to b = Some l' /\ cle l l'
  | None => True
  end /\
  match less_than a with
  | Some u => exists u', less_than b = Some u' /\ cle u' u
  | None => True
  end.

Lemma bounds_within_in a b v : bounds_within b a -> in_bounds b v -> in_bounds a v.
Proof.
  unfold bounds_within, in_bounds. intros [Hl Hu] [Hbl Hbu]. split.
  - destruct (greater_or_equal_to a); [|done]. destruct Hl as (l' & E & ?). rewrite E in Hbl.
    by eapply cle_trans.
  - destruct (less_than a); [|done]. destruct Hu as (u' & E & ?). rewrite E in Hbu.
    by eapply clt_cle_trans.
Qed.

Lemma contain_case_5 l r o : contain_case (Some l) (Some r) o = None -> cle l r.
Proof. simpl. destruct (gtb l r) eqn:E; [done|]. intros _. by apply gtb_le. Qed.

(** Intervals with one bound each that meet at most at an end do not intersect. *)
Lemma apart_not_intersecting a b l u :
  greater_or_equal_to a = Some l -> less_than b = Some u -> cle u l ->
  normal_bounds a -> normal_bounds b -> greater_or_equal_to b = None ->
  default_intersects a b <> Ok Compatible.
Proof.
  intros Ha Hb Hul Hna Hnb Hb'. unfold default_intersects, valid_range.
  rewrite Ha, Hb, Hb'. simpl.
  assert (ltb l u = false) as Hlu by by apply ltb_ge.
  destruct (less_than a) as [u'|] eqn:Ea; simpl.
  - rewrite (proj2 (ltb_clt l u')) by by apply Hna. simpl. rewrite Hlu.
    by destruct (VersionRange_to_string a), (VersionRange_to_string b).
  - rewrite Hlu. by destruct (VersionRange_to_string a), (VersionRange_to_string b).
Qed.

Lemma contain_problem_within a b :
  normal_bounds a -> normal_bounds b -> contain_problem a b = None ->
  default_intersects a b = Ok Compatible -> bounds_within b a.
Proof.
  intros Hna Hnb Hp Hi. unfold contain_problem in Hp. unfold bounds_within.
  destruct (contain_case _ _ _) eqn:E0 in Hp; [done|].
  destruct (contain_case _ _ _) eqn:E1 in Hp; [done|]. clear Hp. split.
  - destruct (greater_or_equal_to a) as [la|] eqn:Ela; [|done].
    destruct (greater_or_equal_to b) as [lb|] eqn:Elb; [eauto using contain_case_5|].
    destruct (less_than b) as [ub|] eqn:Eub; [|done]. simpl in E0.
    destruct (gtb ub la) eqn:Eg; [done|]. apply gtb_le in Eg.
    by destruct (apart_not_intersecting a b la ub).
  - destruct (less_than a) as [ua|] eqn:Eua; [|done].
    destruct (less_than b) as [ub|] eqn:Eub; [eauto using contain_case_5|].
    destruct (greater_or_equal_to a) as [la|] eqn:Ela; [|done]. simpl in E1.
    by rewrite (proj2 (ltb_clt la ua)) in E1 by by apply Hna.
Qed.

(** ** Containment *)

Lemma default_contains_ok a b :
  default_contains a b = Ok Compatible ->
  contain_problem a b = None /\ default_intersects a b = Ok Compatible.
Proof.
  unfold default_contains.
  destruct (stronger_compat_requirements a b), (contain_problem a b) as [[]|]; try done;
    by destruct (VersionRange_to_string a), (VersionRange_to_string b).
Qed.

Lemma contains_leaf a b : is_leaf a = true -> contains a b = default_contains a b.
Proof. by destruct a. Qed.
Lemma intersects_leaf a b : is_leaf a = true -> intersects a b = default_intersects a b.
Proof. by destruct a. Qed.

Lemma is_ok_compatible c : is_ok c = true -> c = Compatible.
Proof. by destruct c. Qed.

Lemma interval_contains a b v :
  interval a -> interval b -> contains a b = Ok Compatible ->
  in_bounds b v -> in_bounds a v.
Proof.
  intros Ha Hb Hc. rewrite contains_leaf in Hc by by apply interval_leaf.
  apply default_contains_ok in Hc as [Hp Hi].
  apply bounds_within_in, contain_problem_within; auto using interval_normal.
Qed.

Lemma interval_contains_total a b :
  interval a -> interval b -> exists c, contains a b = Ok c.
Proof.
  intros Ha Hb. rewrite contains_leaf by by apply interval_leaf. unfold default_contains.
  destruct (interval_to_string a Ha) as [sa ->], (interval_to_string b Hb) as [sb ->].
  destruct (default_intersects_interval a b Ha Hb) as (c & -> & _).
  destruct (stronger_compat_requirements a b), (contain_problem a b) as [[]|]; simpl; eauto.
Qed.

(** ** Equal rules *)

Lemma semver_bump_app l k : strip0 l <> [] -> semver_bump (l ++ k) = semver_bump l.
Proof.
  induction l as [|x l IH]; [done|]. intros Hne. simpl.
  destruct (N.eqb_spec x 0) as [->|]; [|done]. rewrite IH; [done|].
  intros E. apply Hne. simpl. by rewrite E.
Qed.

Lemma semver_bump_strip0 l : strip0 l <> [] -> semver_bump l = semver_bump (strip0 l).
Proof.
  intros Hne. destruct (strip0_app_zeros l) as [k Hk]. rewrite Hk at 1.
  apply semver_bump_app. by rewrite strip0_idemp.
Qed.

Lemma semver_bump_some l : strip0 l <> [] -> exists k, semver_bump l = Some k.
Proof.
  induction l as [|x l IH]; [done|]. intros Hne. simpl.
  destruct (N.eqb_spec x 0) as [->|]; [|eauto]. destruct IH as [k ->]; [|simpl; eauto].
  intros E. apply Hne. simpl. by rewrite E.
Qed.

Lemma strip0_length_inj l k : strip0 l = strip0 k -> length l = length k -> l = k.
Proof.
  intros E Hlen. destruct (strip0_app_zeros l) as [i Hi], (strip0_app_zeros k) as [j Hj].
  rewrite Hi, Hj, !length_app, !repeat_length, E in Hlen. rewrite Hi, Hj, E.
  do 2 f_equal. lia.
Qed.

Lemma plain_ceq_numbers a b : plain a -> plain b -> cmp a b = Eq -> numbers a = numbers b.
Proof. intros [_ Ha] [_ Hb]. rewrite cmp_tagless by done. by intros [E%cmp_eq _]%thenc_eq. Qed.

Lemma tagless_ceq a b :
  tagless a -> tagless b -> numbers a = numbers b -> epsilon (vparts a) = epsilon (vparts b) ->
  cmp a b = Eq.
Proof. intros ? ? E1 E2. by rewrite cmp_tagless, E1, E2, !cmp_refl. Qed.

Definition opt_ceq (a b : option Version) : Prop := cmp a b = Eq.

(** Rules that a filter's [BTreeSet] takes for the same have the same bounds. *)
Lemma interval_ceq_bounds a b :
  interval a -> interval b -> cmp a b = Eq ->
  opt_ceq (greater_or_equal_to a) (greater_or_equal_to b) /\ opt_ceq (less_than a) (less_than b).
Proof.
  intros Ha Hb. rewrite VersionRange_cmp_leaf by by apply interval_leaf.
  unfold leaf_key. rewrite !cmp_pair, !thenc_eq. intros [Hi%cmp_eq Hf].
  unfold opt_ceq. destruct a, b; try done; simpl in *; rewrite !cmp_pair, !thenc_eq in Hf; try tauto.
  - destruct Hf as [Hf _]. split; [done|].
    apply tagless_ceq; [by apply plain_nudge..|exact (plain_ceq_numbers _ _ Ha Hb Hf)|done].
  - destruct Hf as [Hf _]. split; [|done].
    apply tagless_ceq; [by apply plain_nudge..|exact (plain_ceq_numbers _ _ Ha Hb Hf)|done].
  - destruct Hf as [Hf _]. split; [done|].
    apply tagless_ceq; [by apply plain_nudge..|exact (plain_ceq_numbers _ _ Ha Hb Hf)|done].
  - destruct Hf as (_ & _ & Hs%cmp_eq & Hf & _), Ha as (Ha & Hla & _), Hb as (Hb & Hlb & _).
    split; [done|]. unfold LowestSpecifiedRange_less_than.
    pose proof (plain_ceq_numbers _ _ Ha Hb Hf) as E. unfold numbers in E.
    apply strip0_length_inj in E; [|congruence]. rewrite E, Hs. apply (cmp_refl (Some _)).
  - destruct Hf as [Hf _], Ha as (Ha & Hna & _), Hb as (Hb & Hnb & _). split; [done|].
    pose proof (plain_ceq_numbers _ _ Ha Hb Hf) as E. unfold numbers in *.
    unfold SemverRange_less_than. rewrite (semver_bump_strip0 (parts (vparts (semver_minimum r)))),
      (semver_bump_strip0 (parts (vparts (semver_minimum r0)))), <-E by done.
    destruct (semver_bump_some (strip0 (parts (vparts (semver_minimum r))))) as [k ->];
      [by rewrite strip0_idemp|]. apply (cmp_refl (Some _)).
Qed.

Lemma interval_ceq_in a b v :
  interval a -> interval b -> cmp a b = Eq -> in_bounds a v <-> in_bounds b v.
Proof.
  intros Ha Hb E. destruct (interval_ceq_bounds a b Ha Hb E) as [Hl Hu]. unfold opt_ceq in *.
  unfold in_bounds. destruct (greater_or_equal_to a), (greater_or_equal_to b),
    (less_than a), (less_than b); try done; unfold cmp, cmp_option in Hl, Hu;
    unfold cle, clt; rewrite ?(cmp_eq_cong _ _ v Hl), ?(cmp_eq_cong_r _ _ v Hu); done.
Qed.

(** ** Filters of interval rules *)

Lemma first_problem_ok {A} (f : A -> Compatibility) l :
  is_ok (first_problem f l) = true <-> Forall (fun x => is_ok (f x) = true) l.
Proof.
  induction l as [|x l IH]; simpl; [done|]. rewrite Forall_cons, <-IH.
  destruct (f x); simpl; naive_solver.
Qed.

Lemma first_problem_res_total {A} (f : A -> res Empty_set Compatibility) l :
  Forall (fun x => exists c, f x = Ok c) l ->
  exists c, first_problem_res f l = Ok c /\
            (is_ok c = true <-> Forall (fun x => f x = Ok Compatible) l).
Proof.
  induction 1 as [|x l [c Hc] Hl (c' & Hc' & Hok)]; simpl.
  - exists Compatible. by split.
  - rewrite Hc. simpl. destruct c; simpl; [exists c'|eexists]; (split; [done|]);
      rewrite Forall_cons, ?Hok, ?Hc; naive_solver.
Qed.

Definition intervals (rs : list VersionRange) : Prop := Forall interval rs /\ bset_wf rs.
Definition all_in (rs : list VersionRange) (v : Version) : Prop := Forall (fun r => in_bounds r v) rs.

(** An interval range, or a filter of them. *)
Definition interval_range (r : VersionRange) : Prop := interval r \/ exists rs, r = Range_Filter rs /\ intervals rs.

Lemma rules_leaf r : is_leaf r = true -> rules r = [r].
Proof. by destruct r. Qed.

Lemma interval_range_rules r : interval_range r -> intervals (rules r).
Proof.
  intros [Hr|(rs & -> & Hrs)]; [|done].
  rewrite rules_leaf by by apply interval_leaf. split; [by constructor|by repeat constructor].
Qed.

Lemma filter_intersects self other :
  Forall interval self -> Forall interval (rules other) ->
  exists c, intersects (Range_Filter self) other = Ok c /\
    forall v, all_in self v -> all_in (rules other) v -> c = Compatible.
Proof.
  intros Hs Ho. simpl.
  assert (forall new, new ∈ bset_sub (rules other) self ->
    new ∈ rules other) as Hsub.
  { intros new Hin. unfold bset_sub in Hin. by apply list_elem_of_In, filter_In, proj1, list_elem_of_In in Hin. }
  rewrite Forall_forall in Ho, Hs.
  assert (forall new old, new ∈ rules other -> old ∈ self ->
    exists c, intersects old new = Ok c) as Hpair.
  { intros new old Hn Hold. rewrite intersects_leaf by auto using interval_leaf.
    destruct (default_intersects_interval old new) as (c & -> & _); eauto. }
  set (f := fun new_rule => first_problem_res (fun old_rule => intersects old_rule new_rule) self).
  destruct (first_problem_res_total f (bset_sub (rules other) self)) as (c & Hc & Hok).
  { apply Forall_forall. intros new Hn. unfold f.
    destruct (first_problem_res_total (fun old => intersects old new) self) as (c & -> & _); [|eauto].
    apply Forall_forall. eauto. }
  exists c. split; [done|]. intros v Hsv Hov. apply is_ok_compatible, Hok, Forall_forall.
  intros new Hn. unfold f.
  destruct (first_problem_res_total (fun old => intersects old new) self) as (c' & -> & Hok').
  { apply Forall_forall. eauto. }
  f_equal. apply is_ok_compatible, Hok', Forall_forall. intros old Hold.
  rewrite intersects_leaf by auto using interval_leaf. unfold all_in in *.
  rewrite Forall_forall in Hsv, Hov. by apply (interval_intersects _ _ v); auto.
Qed.

Lemma bset_collect_sorted {K} `{CmpLaws K} (l : list K) : bset_wf l -> bset_collect l = l.
Proof.
  unfold bset_collect. enough (forall s, bset_wf (s ++ l) ->
    foldl (fun s x => bset_replace x s) s l = s ++ l) as He by exact (He []).
  induction l as [|x l IH]; intros s Hs; simpl; [by rewrite app_nil_r|].
  assert (bset_replace x s = s ++ [x]) as ->.
  { clear IH. induction s as [|y s IH]; [done|]. apply StronglySorted_inv in Hs as [Hs Hy].
    simpl. rewrite Forall_forall in Hy. specialize (Hy x ltac:(set_solver)).
    apply cmp_gt_lt in Hy. by rewrite Hy, IH. }
  rewrite IH; by rewrite <-(assoc_L (++)).
Qed.

Lemma bset_wf_delete {K} `{CmpLaws K} (l : list K) i : bset_wf l -> bset_wf (delete i l).
Proof.
  unfold bset_wf. intros Hl. revert i.
  induction Hl as [|x l Hl IH Hx]; intros [|i]; try done; try constructor; [apply IH|].
  rewrite Forall_forall in *. intros y Hy%list_elem_of_delete_inv. by apply Hx.
Qed.

(** Extending a filter by rules, for a property that a rule dropped as equal to
    another gets from it. *)
Lemma extend_Forall (P : VersionRange -> Prop) self new :
  (forall x y, x ∈ new -> y ∈ self \/ y ∈ new -> cmp x y = Eq -> P y -> P x) ->
  Forall P (bset_extend self new) <-> Forall P self /\ Forall P new.
Proof.
  intros HP. rewrite !Forall_forall. split.
  - intros Hall. split; [intros r Hr; by apply Hall, bset_extend_mono|].
    intros r Hr. destruct (bset_extend_has r self new Hr) as (r' & Hr' & E).
    apply bset_extend_elem in Hr' as Hr''. by apply (HP r r'); auto.
  - intros [H1 H2] r [Hr|Hr]%bset_extend_elem; auto.
Qed.

(** It keeps exactly the common versions. *)
Lemma extend_all_in self new v :
  Forall interval self -> Forall interval new ->
  all_in (bset_extend self new) v <-> all_in self v /\ all_in new v.
Proof.
  intros Hs Hn. rewrite Forall_forall in Hs, Hn. apply extend_Forall.
  intros x y Hx Hy E. apply (interval_ceq_in x y); naive_solver.
Qed.

Lemma extend_intervals self new : intervals self -> intervals new -> intervals (bset_extend self new).
Proof.
  intros [H1 W1] [H2 _]. split; [|by apply bset_wf_extend].
  rewrite Forall_forall in *. intros r [?|?]%bset_extend_elem; auto.
Qed.

(** The documented behaviour of [permutations(2)]: it yields exactly the ordered
    pairs of elements at distinct positions. *)
Definition permutations2_spec (permutations2 : forall A : Type, list A -> list (A * A)) : Prop :=
  forall A (l : list A) x y,
    (x, y) ∈ permutations2 A l <-> exists i j, i <> j /\ l !! i = Some x /\ l !! j = Some y.

(** One function that behaves so: by the left position, then the right. *)
Definition permutations2_lex (A : Type) (l : list A) : list (A * A) :=
  mjoin (imap (fun i x => pair x <$> delete i l) l).

Lemma elem_of_delete_ne {A} (l : list A) i j y : i <> j -> l !! j = Some y -> y ∈ delete i l.
Proof.
  intros Hij Hj. apply list_elem_of_lookup_2 with (i := if decide (j < i) then j else j - 1).
  case_decide.
  - by rewrite list_lookup_delete_lt.
  - rewrite list_lookup_delete_ge by lia. by replace (S (j - 1)) with j by lia.
Qed.

Lemma permutations2_lex_spec : permutations2_spec permutations2_lex.
Proof.
  intros A l x y. unfold permutations2_lex. rewrite list_elem_of_join. split.
  - intros (k & Hk & (i & x' & -> & Hi)%elem_of_lookup_imap).
    apply list_elem_of_fmap in Hk as (y' & [= -> ->] & [j Hj]%list_elem_of_lookup_1).
    destruct (decide (j < i)).
    + rewrite list_lookup_delete_lt in Hj by done. exists i, j. split_and!; [lia|done..].
    + rewrite list_lookup_delete_ge in Hj by lia. exists i, (S j). split_and!; [lia|done..].
  - intros (i & j & Hij & Hi & Hj). exists (pair x <$> delete i l). split.
    + apply list_elem_of_fmap. exists y. split; [done|]. by apply (elem_of_delete_ne _ _ j).
    + by apply (elem_of_lookup_imap_2 (fun i x => pair x <$> delete i l)).
Qed.

Section simplification.
Context (permutations2 : forall A : Type, list A -> list (A * A)).
Context (Hperm : permutations2_spec permutations2).

Lemma permutations2_enumerated (rs : list VersionRange) i x j y :
  ((i, x), (j, y)) ∈ permutations2 _ (imap pair rs) <->
  i <> j /\ rs !! i = Some x /\ rs !! j = Some y.
Proof.
  rewrite (Hperm _ (imap pair rs) (i, x) (j, y)). split.
  - intros (i' & j' & Hne & (x' & Hi & [= -> ->])%list_lookup_imap_Some
      & (y' & Hj & [= -> ->])%list_lookup_imap_Some). done.
  - intros (Hne & Hi & Hj). exists i, j. rewrite !list_lookup_imap, Hi, Hj. done.
Qed.

(** What the scan over the candidate pairs finds. *)
Lemma find_redundant_spec allow cands :
  Forall (fun '((_, x), (_, y)) => interval x /\ interval y) cands ->
  exists o, find_redundant allow cands = Ok o /\
  match o with
  | Some i => exists x j y, ((i, x), (j, y)) ∈ cands /\
      negb allow && skip_compat_pair x y = false /\ contains x y = Ok Compatible
  | None => forall i x j y, ((i, x), (j, y)) ∈ cands ->
      negb allow && skip_compat_pair x y = false -> contains x y <> Ok Compatible
  end.
Proof.
  induction 1 as [|[[i x] [j y]] cands [Hx Hy] Hc (o & Ho & Hspec)]; simpl.
  - exists None. split; [done|]. intros * Hin. set_solver.
  - destruct (negb allow && skip_compat_pair x y) eqn:Hskip.
    + exists o. split; [done|]. destruct o as [k|].
      * destruct Hspec as (x' & j' & y' & ? & ?). exists x', j', y'. split; [by right|done].
      * intros i' x' j' y' [[= -> -> -> ->]|Hin]%elem_of_cons Hs; [congruence|eauto].
    + destruct (interval_contains_total x y Hx Hy) as [c Hc']. rewrite Hc'. simpl.
      destruct c; simpl.
      * exists (Some i). split; [done|]. exists x, j, y. split_and!; [by left|done..].
      * exists o. split; [done|]. destruct o as [k|].
        -- destruct Hspec as (x' & j' & y' & ? & ?). exists x', j', y'. split; [by right|done].
        -- intros i' x' j' y' [[= -> -> -> ->]|Hin]%elem_of_cons Hs; [congruence|eauto].
Qed.

Lemma enumerated_intervals rs :
  Forall interval rs ->
  Forall (fun '((_, x), (_, y)) => interval x /\ interval y) (permutations2 _ (imap pair rs)).
Proof.
  intros Hrs. apply Forall_forall. intros [[i x] [j y]] (_ & Hi & Hj)%permutations2_enumerated.
  rewrite Forall_forall in Hrs. split; by eapply Hrs, list_elem_of_lookup_2.
Qed.

(** No rule that is not skipped contains another one. *)
Definition irredundant (allow : bool) (rs : list VersionRange) : Prop :=
  forall i j x y, i <> j -> rs !! i = Some x -> rs !! j = Some y ->
    negb allow && skip_compat_pair x y = false -> contains x y <> Ok Compatible.

(** A property of rules that a removed rule gets from the rule it contains. *)
Definition inherited (allow : bool) (P : VersionRange -> Prop) : Prop :=
  forall x y, interval x -> interval y -> negb allow && skip_compat_pair x y = false ->
    contains x y = Ok Compatible -> P y -> P x.

Lemma in_bounds_inherited allow v : inherited allow (fun r => in_bounds r v).
Proof. intros x y Hx Hy _. by apply interval_contains. Qed.

Lemma delete_inherited allow P rs i j x y :
  inherited allow P -> Forall interval rs -> i <> j -> rs !! i = Some x -> rs !! j = Some y ->
  negb allow && skip_compat_pair x y = false -> contains x y = Ok Compatible ->
  Forall P (delete i rs) <-> Forall P rs.
Proof.
  intros HP Hrs Hij Hi Hj Hskip Hc. rewrite !Forall_forall in *. split.
  - intros Hall r [k Hk]%list_elem_of_lookup_1.
    destruct (decide (i = k)) as [<-|Hik]; [|by eapply Hall, elem_of_delete_ne].
    simplify_eq. apply (HP x y); eauto using list_elem_of_lookup_2, elem_of_delete_ne.
  - intros Hall r Hr%list_elem_of_delete_inv. auto.
Qed.

Lemma simplify_loop_spec fuel allow rs :
  intervals rs -> length rs < fuel ->
  exists rs', simplify_loop permutations2 fuel allow rs = Ok rs' /\ intervals rs' /\
    irredundant allow rs' /\ forall P, inherited allow P -> Forall P rs' <-> Forall P rs.
Proof.
  revert rs. induction fuel as [|fuel IH]; intros rs [Hrs Hwf] Hlen; [lia|]. simpl.
  destruct (find_redundant_spec allow _ (enumerated_intervals rs Hrs)) as (o & -> & Ho). simpl.
  destruct o as [i|].
  - destruct Ho as (x & j & y & (Hij & Hi & Hj)%permutations2_enumerated & Hskip & Hc).
    pose proof (lookup_lt_Some _ _ _ Hi).
    destruct (IH (delete i rs)) as (rs' & -> & Hrs' & Hirr & Hall).
    + split; [|by apply bset_wf_delete]. apply Forall_forall. rewrite Forall_forall in Hrs.
      intros r Hr%list_elem_of_delete_inv. auto.
    + rewrite length_delete by eauto. lia.
    + exists rs'. split_and!; [done..|]. intros P HP. rewrite Hall by done. by eapply delete_inherited.
  - exists rs. split_and!; try done. intros i j x y Hij Hi Hj. apply (Ho i x j y).
    by apply permutations2_enumerated.
Qed.

Lemma simplify_rules_spec allow rs :
  intervals rs ->
  exists rs', simplify_rules permutations2 allow rs = Ok rs' /\ intervals rs' /\
    irredundant allow rs' /\ forall P, inherited allow P -> Forall P rs' <-> Forall P rs.
Proof.
  intros Hrs. unfold simplify_rules. destruct (Nat.leb_spec (length rs) 1).
  - exists rs. split_and!; try done. intros i j x y Hij Hi%lookup_lt_Some Hj%lookup_lt_Some. lia.
  - destruct (simplify_loop_spec (S (length rs)) allow rs) as (rs' & -> & Hrs' & ? & ?); [done|lia|].
    exists rs'. simpl. rewrite bset_collect_sorted by apply Hrs'. done.
Qed.

Lemma restrict_spec self other mode :
  intervals self -> interval_range other ->
  exists c rs', VersionFilter_restrict permutations2 self other mode = Ok (c, rs') /\ intervals rs' /\
    if is_ok c
    then forall P, inherited false P -> Forall P rs' <-> Forall P (bset_extend self (rules other))
    else mode = RequireIntersectingRanges /\ rs' = self /\
         forall v, ~ (all_in self v /\ all_in (rules other) v).
Proof.
  intros Hs Ho%interval_range_rules. unfold VersionFilter_restrict.
  destruct (filter_intersects self other) as (c & -> & Hc); [apply Hs|apply Ho|]. simpl.
  pose proof (extend_intervals _ _ Hs Ho) as Hext.
  destruct c as [|reason].
  - destruct (simplify_rules_spec false _ Hext) as (rs' & -> & Hrs' & _ & Hall). simpl.
    by exists Compatible, rs'.
  - destruct mode; eexists _, _; (split; [done|]); simpl.
    + split_and!; [done..|]. intros v [H1 H2]. by specialize (Hc v H1 H2).
    + done.
Qed.
End simplification.

(** ** Upper bounds and overflow *)

(** The first nonzero part, which [^] increments. *)
Definition first_nonzero (l : list N) : N := default 0%N (List.find nonzero l).

Lemma u32_add_1 x : is_u32 x -> u32_add x 1 = if (x =? u32_max)%N then 0%N else (x + 1)%N.
Proof.
  unfold is_u32, u32_add. intros Hx. destruct (N.eqb_spec x u32_max) as [->|]; [done|].
  apply N.mod_small. unfold u32_max in *. lia.
Qed.

Lemma semver_bump_order l k :
  Forall is_u32 l -> semver_bump l = Some k ->
  cmp (strip0 l) (strip0 k) = if (first_nonzero l =? u32_max)%N then Gt else Lt.
Proof.
  unfold first_nonzero, cmp, cmp_list. intros Hl. revert k.
  induction Hl as [|x l Hx Hl IH]; intros k; [done|].
  cbn [semver_bump List.find]. unfold nonzero at 1.
  destruct (N.eqb_spec x 0) as [->|Hx0]; cbn -[strip0 list_cmp].
  - destruct (semver_bump l) as [k'|] eqn:Ek; cbn -[strip0 list_cmp]; intros [= <-]. specialize (IH k' eq_refl).
    assert (strip0 l <> []) as Hne.
    { intros E. clear -E Ek. revert k' Ek. induction l as [|y l IHl]; [done|]. intros k'.
      simpl in *. destruct (strip0 l); [|done]. destruct (y =? 0)%N; [|done].
      destruct (semver_bump l); [|done]. by destruct (IHl eq_refl l0). }
    simpl. destruct (strip0 l) as [|a l']; [done|].
    destruct (strip0 k') as [|b k'']; [done|]. exact IH.
  - intros [= <-]. destruct (strip0_cases x l) as [[_ ->]|(? & _)]; [|done].
    rewrite u32_add_1 by done. destruct (N.eqb_spec x u32_max) as [->|Hm]; [done|].
    simpl. destruct (N.eqb_spec (x + 1) 0); [lia|]. simpl. unfold cmp, cmp_N.
    by rewrite (proj2 (N.compare_lt_iff x (x + 1)) ltac:(lia)).
Qed.

(** C40: a [^] range over a plain version with a nonzero part includes that very
    version exactly when the part it increments is below [u32::MAX]; at the
    maximum the increment wraps to zero in a release build and the range
    excludes its own minimum. *)
Theorem semver_includes_minimum v :
  plain v -> numbers v <> [] -> Forall is_u32 (parts (vparts v)) ->
  is_ok (is_applicable (Range_Semver (mkSemver v)) v) =
  negb (first_nonzero (parts (vparts v)) =? u32_max)%N.
Proof.
  intros Hv Hne Hu. apply eq_bool_prop_intro. rewrite !Is_true_true. simpl.
  rewrite default_applicable_iff. unfold SemverRange_less_than. simpl.
  destruct (semver_bump_some (parts (vparts v)) Hne) as [k Hk]. rewrite Hk.
  pose proof (semver_bump_order _ _ Hu Hk) as Ho. unfold clt.
  rewrite (cmp_tagless v (from_parts k)) by (apply Hv || done).
  change (numbers v) with (strip0 (parts (vparts v))). change (numbers (from_parts k)) with (strip0 k).
  rewrite Ho. destruct (first_nonzero _ =? u32_max)%N; simpl; [naive_solver|].
  split; [done|]. intros _. split; [apply cle_refl|done].
Qed.

Lemma semver_includes_minimum_witness :
  is_ok (is_applicable (Range_Semver (mkSemver (from_parts [0; 4294967295]%N)))
           (from_parts [0; 4294967295]%N)) = false /\
  is_ok (is_applicable (Range_Semver (mkSemver (from_parts [1; 2]%N))) (from_parts [1; 2]%N)) = true.
Proof.
  split.
  - refine (semver_includes_minimum (from_parts [0; 4294967295]%N) _ _ _);
      [done|done|repeat constructor; vm_compute; discriminate].
  - refine (semver_includes_minimum (from_parts [1; 2]%N) _ _ _);
      [done|done|repeat constructor; vm_compute; discriminate].
Defined.

(** The constructors of [~] ranges give the shape that [less_than] slices. *)
Lemma LowestSpecifiedRange_slice base :
  let r := LowestSpecifiedRange_new base in
  2 <= lowest_specified r /\ lowest_specified r = length (parts (vparts (lowest_base r))) /\
  forall r', LowestSpecifiedRange_try_from base = Ok r' ->
    2 <= lowest_specified r' /\ lowest_specified r' = length (parts (vparts (lowest_base r'))).
Proof.
  unfold LowestSpecifiedRange_new, LowestSpecifiedRange_try_from, REQUIRED_NUMBER_OF_DIGITS. simpl.
  destruct base as [[l e] p q]; simpl. split_and!.
  - destruct l as [|a [|b l]]; simpl; lia.
  - done.
  - intros r'. destruct (Nat.ltb_spec (length l) 2); intros [= <-]. simpl. lia.
Qed.

(** ** Properties *)

Lemma filter_applicable rs v :
  Forall interval rs -> epsilon (vparts v) = EpsNone ->
  is_ok (is_applicable (Range_Filter rs) v) = true <-> all_in rs (round_tags v).
Proof.
  intros Hrs Hv. simpl. rewrite first_problem_ok. unfold all_in. rewrite !Forall_forall in *.
  split; intros H r Hr; apply interval_applicable; auto.
Qed.

Lemma range_applicable r v :
  interval_range r -> epsilon (vparts v) = EpsNone ->
  is_ok (is_applicable r v) = true <-> all_in (rules r) (round_tags v).
Proof.
  intros [Hr|(rs & -> & Hrs & _)] Hv; [|by apply filter_applicable].
  rewrite rules_leaf by by apply interval_leaf. unfold all_in.
  rewrite Forall_singleton. by apply interval_applicable.
Qed.

(** [contains] is sound on interval ranges: when it says that one range
    contains another, every version applicable to the second is applicable to
    the first. *)
Theorem contains_sound a b v :
  interval a -> interval b -> contains a b = Ok Compatible ->
  epsilon (vparts v) = EpsNone ->
  is_ok (is_applicable b v) = true -> is_ok (is_applicable a v) = true.
Proof.
  intros Ha Hb Hc Hv. rewrite !interval_applicable by done. by apply interval_contains.
Qed.

Lemma contains_sound_witness :
  is_ok (is_applicable (Range_GreaterThanOrEqualTo (mkGte (from_parts [1]%N)))
           (from_parts [2; 5]%N)) = true.
Proof.
  apply (contains_sound _ (Range_GreaterThan (mkGt (from_parts [2]%N)))); try done; by vm_compute.
Defined.

(** [intersects] never rejects two interval ranges that a version satisfies
    together. *)
Theorem intersects_complete a b v :
  interval a -> interval b -> epsilon (vparts v) = EpsNone ->
  is_ok (is_applicable a v) = true -> is_ok (is_applicable b v) = true ->
  intersects a b = Ok Compatible.
Proof.
  intros Ha Hb Hv. rewrite !interval_applicable by done. intros Hav Hbv.
  rewrite intersects_leaf by by apply interval_leaf. by eapply interval_intersects.
Qed.

Lemma intersects_complete_witness :
  intersects (Range_GreaterThan (mkGt (from_parts [1]%N)))
    (Range_LessThanOrEqualTo (mkLte (from_parts [1; 1]%N))) = Ok Compatible.
Proof. apply (intersects_complete _ _ (from_parts [1; 0; 5]%N)); done || by vm_compute. Defined.

(** C1: [VersionFilter::restrict] on interval rules.  It always returns.  If it
    succeeds, the filter afterwards accepts exactly the versions that both the
    filter and the other range accepted, although redundant rules are gone; if
    it fails, the mode required an intersection, the filter is unchanged and no
    version is accepted by both. *)
Theorem restrict_exact permutations2 self other mode :
  permutations2_spec permutations2 -> intervals self -> interval_range other ->
  exists c rs', VersionFilter_restrict permutations2 self other mode = Ok (c, rs') /\ intervals rs' /\
    if is_ok c
    then forall v, epsilon (vparts v) = EpsNone ->
      is_ok (is_applicable (Range_Filter rs') v) =
      is_ok (is_applicable (Range_Filter self) v) && is_ok (is_applicable other v)
    else mode = RequireIntersectingRanges /\ rs' = self /\
      forall v, epsilon (vparts v) = EpsNone ->
        is_ok (is_applicable (Range_Filter self) v) && is_ok (is_applicable other v) = false.
Proof.
  intros Hperm Hs Ho.
  destruct (restrict_spec permutations2 Hperm self other mode Hs Ho) as (c & rs' & E & Hrs' & H).
  exists c, rs'. split_and!; [done|done|]. destruct (is_ok c).
  - intros v Hv. apply eq_bool_prop_intro. rewrite !Is_true_true, andb_true_iff.
    rewrite !filter_applicable, range_applicable by (apply Hrs' || apply Hs || done).
    unfold all_in. rewrite H by apply in_bounds_inherited.
    apply extend_all_in; [apply Hs|apply interval_range_rules, Ho].
  - destruct H as (-> & -> & H). split_and!; [done..|]. intros v Hv.
    apply not_true_is_false. rewrite andb_true_iff, filter_applicable, range_applicable
      by (apply Hs || done). apply H.
Qed.

Lemma restrict_exact_witness :
  exists c rs',
    VersionFilter_restrict permutations2_lex
      (VersionFilter_single (Range_GreaterThanOrEqualTo (mkGte (from_parts [1]%N))))
      (Range_GreaterThan (mkGt (from_parts [2]%N))) RequireIntersectingRanges = Ok (c, rs') /\
    intervals rs' /\ rs' = [Range_GreaterThan (mkGt (from_parts [2]%N))].
Proof.
  destruct (restrict_exact permutations2_lex
      (VersionFilter_single (Range_GreaterThanOrEqualTo (mkGte (from_parts [1]%N))))
      (Range_GreaterThan (mkGt (from_parts [2]%N))) RequireIntersectingRanges) as (c & rs' & E & H & _).
  - apply permutations2_lex_spec.
  - split; repeat constructor.
  - by left.
  - exists c, rs'. split_and!; [exact E|exact H|]. vm_compute in E. by injection E as _ <-.
Defined.

(** ** Rules without compat ranges *)

Definition is_compat (r : VersionRange) : Prop :=
  match r with Range_Compat _ => True | _ => False end.
#[export] Instance is_compat_dec r : Decision (is_compat r).
Proof. destruct r; simpl; apply _. Defined.

(** Simplifying invents no rules. *)
Lemma simplify_rules_incl permutations2 allow rs rs' r :
  simplify_rules permutations2 allow rs = Ok rs' -> r ∈ rs' -> r ∈ rs.
Proof.
  unfold simplify_rules. destruct (length rs <=? 1); [by intros [= <-]|].
  intros (rs1 & Hloop & [= <-])%bind_Ok Hr%bset_collect_elem. revert Hr.
  generalize (S (length rs)) as fuel, Hloop. clear Hloop. intros fuel. revert rs.
  induction fuel as [|fuel IH]; intros rs Hloop; [done|].
  apply bind_Ok in Hloop as ([i|] & _ & Hloop); [|by injection Hloop as <-].
  intros Hr. by eapply list_elem_of_delete_inv, IH.
Qed.

Lemma interval_satisfied_by_applicable {V} `{Versioned V} r (spec : V) required :
  interval r -> (forall c, r <> Range_Compat c) ->
  is_satisfied_by r spec required = is_applicable r (spec_version spec).
Proof. destruct r; try done. intros _ Hr. by destruct (Hr r). Qed.

Lemma filter_satisfied {V} `{Versioned V} rs (spec : V) required :
  is_ok (is_satisfied_by (Range_Filter rs) spec required) = true <->
  Forall (fun r => is_ok (is_satisfied_by r spec required) = true) rs.
Proof. apply first_problem_ok. Qed.

Lemma filter_satisfied_applicable {V} `{Versioned V} rs (spec : V) required :
  Forall interval rs -> Forall (fun r => ~ is_compat r) rs ->
  is_ok (is_satisfied_by (Range_Filter rs) spec required) =
  is_ok (is_applicable (Range_Filter rs) (spec_version spec)).
Proof.
  rewrite !Forall_forall. intros Hrs Hnc. apply eq_bool_prop_intro. rewrite !Is_true_true.
  simpl. rewrite !first_problem_ok, !Forall_forall.
  split; intros Hall r Hr; specialize (Hall r Hr);
    rewrite interval_satisfied_by_applicable in * by (auto; intros c ->; by destruct (Hnc _ Hr));
    done.
Qed.

(** C31: simplifying the rules of a parsed range, when they are interval
    ranges.  It only drops rules, and leaves none that contains another.  The
    range then applies to the same versions, and is satisfied by every package
    that satisfied all the rules.  If there is no compat range among the rules
    it is satisfied by no other package; of two compat ranges one may be
    dropped, as [merged_compat_ranges] shows. *)
Theorem parse_simplification_exact permutations2 rs :
  permutations2_spec permutations2 -> intervals rs ->
  exists r, parse_version_range_rules permutations2 rs = Ok r /\ irredundant true (rules r) /\
    (forall rule, rule ∈ rules r -> rule ∈ rs) /\
    (forall v, epsilon (vparts v) = EpsNone ->
      is_ok (is_applicable r v) = is_ok (is_applicable (Range_Filter rs) v)) /\
    forall V (HV : Versioned V) (spec : V) required, epsilon (vparts (spec_version spec)) = EpsNone ->
      (is_ok (is_satisfied_by (Range_Filter rs) spec required) = true ->
       is_ok (is_satisfied_by r spec required) = true) /\
      (Forall (fun rule => ~ is_compat rule) rs ->
       is_ok (is_satisfied_by r spec required) = is_ok (is_satisfied_by (Range_Filter rs) spec required)).
Proof.
  intros Hperm Hrs. unfold parse_version_range_rules.
  destruct (simplify_rules_spec permutations2 Hperm true rs Hrs) as (rs' & Hs & Hrs' & Hirr & Hall).
  pose proof (fun x => simplify_rules_incl _ _ _ _ x Hs) as Hincl. rewrite Hs. cbn [mbind res_bind].
  set (r := match rs' with [r] => r | _ => Range_Filter rs' end).
  assert (rules r = rs' /\ interval_range r /\
    forall V (HV : Versioned V) (spec : V) required,
      is_ok (is_satisfied_by r spec required) = is_ok (is_satisfied_by (Range_Filter rs') spec required))
    as (Hrules & Hr & Hsat).
  { unfold r. destruct rs' as [|r' [|]]; [by split_and!; [|right; eauto|]| |by split_and!; [|right; eauto|]].
    destruct Hrs' as [[Hr' _]%Forall_cons _].
    split_and!; [by apply rules_leaf, interval_leaf|by left|]. intros. simpl.
    by destruct (is_satisfied_by r' spec required). }
  assert (forall v, epsilon (vparts v) = EpsNone ->
    is_ok (is_applicable (Range_Filter rs') v) = is_ok (is_applicable (Range_Filter rs) v)) as Happ.
  { intros v Hv. apply eq_bool_prop_intro. rewrite !Is_true_true, !filter_applicable by (apply Hrs || apply Hrs' || done).
    apply Hall, in_bounds_inherited. }
  exists r. split_and!; [by destruct rs' as [|? []]|by rewrite Hrules|by rewrite Hrules|..].
  - intros v Hv. rewrite <-Happ by done. apply eq_bool_prop_intro.
    by rewrite !Is_true_true, range_applicable, filter_applicable, Hrules by (apply Hrs' || done).
  - intros V HV spec required Hv. rewrite Hsat. split.
    + rewrite !filter_satisfied, !Forall_forall. auto.
    + intros Hnc. assert (Forall (fun rule => ~ is_compat rule) rs') by (rewrite !Forall_forall in *; auto).
      rewrite !filter_satisfied_applicable by (done || apply Hrs || apply Hrs').
      by apply Happ.
Qed.

(** [2019,2020] is parsed as [2020], which a package of version 2020.1 satisfies
    although it is not compatible with 2019. *)
Example merged_compat_ranges :
  let compat n := Range_Compat (mkCompatRange (from_parts [n]%N) None) in
  let spec := (from_parts [2020; 1]%N, Compat_default) in
  parse_version_range_rules permutations2_lex (VersionFilter_new [compat 2019%N; compat 2020%N]) = Ok (compat 2020%N) /\
  is_ok (is_satisfied_by (compat 2020%N) spec RuleBinary) = true /\
  is_ok (is_satisfied_by (compat 2019%N) spec RuleBinary) = false.
Proof. by vm_compute. Qed.

Lemma parse_simplification_exact_witness :
  exists r, parse_version_range_rules permutations2_lex
      (VersionFilter_new [Range_GreaterThan (mkGt (from_parts [1]%N));
                          Range_GreaterThan (mkGt (from_parts [2]%N))]) = Ok r /\
    r = Range_GreaterThan (mkGt (from_parts [2]%N)).
Proof.
  destruct (parse_simplification_exact permutations2_lex
      (VersionFilter_new [Range_GreaterThan (mkGt (from_parts [1]%N));
                          Range_GreaterThan (mkGt (from_parts [2]%N))])) as (r & E & _).
  - apply permutations2_lex_spec.
  - split; repeat constructor.
  - exists r. split; [exact E|]. vm_compute in E. by injection E as <-.
Defined.
