(* ===== verification/RangeCases.v ===== *)
(** * Further properties of version ranges

    Satisfaction by packages, the text forms of wildcard and compat ranges, and
    the inputs on which version_range/mod.rs departs from its intent. *)

From S2P Require Import Prelude Strings Collections Names Version VersionOrder VersionText.
From S2P Require Import Compat RangeData Reasons CompatCheck Intersection VersionRange RangeTheory.

(** ** Satisfaction *)

Lemma Version_eq_cmp a b c : Version_eq a b = true -> cmp a c = cmp b c.
Proof.
  intros (E1 & E2 & E3 & E4)%Version_eq_spec. rewrite !Version_cmp_key. unfold version_key.
  by rewrite E1, E2, E3, E4.
Qed.

Lemma Version_eq_round a b c : Version_eq a b = true -> cmp (round_tags a) c = cmp (round_tags b) c.
Proof.
  intros (E1 & E2 & E3 & E4)%Version_eq_spec. apply Version_eq_cmp, Version_eq_spec.
  unfold round_tags, tag_side. simpl. by rewrite E3, E4.
Qed.

Lemma Version_eq_in_bounds r a b :
  Version_eq a b = true -> in_bounds r (round_tags a) <-> in_bounds r (round_tags b).
Proof.
  intros E. unfold in_bounds, cle, clt.
  destruct (greater_or_equal_to r) as [l|], (less_than r) as [u|];
    rewrite ?(cmp_antisym _ l), ?(Version_eq_round a b) by done; done.
Qed.

Lemma CompatRange_satisfied_respects_eq {V} `{Versioned V} c (s s' : V) required :
  Version_eq (spec_version s) (spec_version s') = true -> spec_compat s = spec_compat s' ->
  is_ok (CompatRange_is_satisfied_by c s required) = is_ok (CompatRange_is_satisfied_by c s' required).
Proof.
  intros Heq Hc. unfold CompatRange_is_satisfied_by.
  assert (ltb (spec_version s) (cr_base c) = ltb (spec_version s') (cr_base c)) as ->.
  { unfold ltb. by rewrite (Version_eq_cmp _ _ _ Heq). }
  destruct (ltb (spec_version s') (cr_base c)) eqn:Hlt; [done|]. apply ltb_ge in Hlt.
  assert (cle (cr_base c) (spec_version s)) as Hle.
  { unfold cle in *. by rewrite (cmp_antisym (spec_version s)), (Version_eq_cmp _ _ _ Heq),
      <-(cmp_antisym (spec_version s')). }
  unfold spec_is_api_compatible, spec_is_binary_compatible, is_api_compatible, is_binary_compatible.
  destruct (match cr_required c with Some r => r | None => required end); [done|..];
    rewrite <-Hc; by apply check_compat_respects_eq.
Qed.

(** Whether a package satisfies an interval range does not depend on how its
    version is written: packages with the same contract and [==] versions, such
    as [1.2] and [1.2.0], are accepted or refused together. *)
Theorem satisfied_respects_eq {V} `{Versioned V} r (s s' : V) required :
  interval r -> epsilon (vparts (spec_version s)) = EpsNone ->
  Version_eq (spec_version s) (spec_version s') = true -> spec_compat s = spec_compat s' ->
  is_ok (is_satisfied_by r s required) = is_ok (is_satisfied_by r s' required).
Proof.
  intros Hr Hs Heq Hc.
  assert (epsilon (vparts (spec_version s')) = EpsNone) as Hs'.
  { apply Version_eq_spec in Heq as (_ & <- & _). done. }
  destruct (is_leaf r && match r with Range_Compat _ => true | _ => false end) eqn:E.
  - destruct r; try done. by apply CompatRange_satisfied_respects_eq.
  - rewrite !interval_satisfied_by_applicable by (done || by intros c ->).
    apply eq_bool_prop_intro. rewrite !Is_true_true, !interval_applicable by done.
    by apply Version_eq_in_bounds.
Qed.

Lemma satisfied_respects_eq_witness :
  is_ok (is_satisfied_by (Range_Compat (mkCompatRange (from_parts [1; 2]%N) None))
           (from_parts [1; 3]%N, Compat_default) RuleBinary) =
  is_ok (is_satisfied_by (Range_Compat (mkCompatRange (from_parts [1; 2]%N) None))
           (from_parts [1; 3; 0]%N, Compat_default) RuleBinary).
Proof. apply satisfied_respects_eq; reflexivity || done. Defined.

(** The four comparison ranges come in complementary pairs: every version is
    applicable to exactly one of [>x] and [<=x], and to exactly one of [>=x] and
    [<x]. *)
Theorem comparison_ranges_complement x v :
  is_ok (is_applicable (Range_LessThanOrEqualTo (mkLte x)) v) =
    negb (is_ok (is_applicable (Range_GreaterThan (mkGt x)) v)) /\
  is_ok (is_applicable (Range_LessThan (mkLt x)) v) =
    negb (is_ok (is_applicable (Range_GreaterThanOrEqualTo (mkGte x)) v)).
Proof.
  cbn [is_applicable]. unfold LessThanOrEqualToRange_is_applicable, GreaterThanRange_is_applicable,
    LessThanRange_is_applicable, GreaterThanOrEqualToRange_is_applicable, gtb, leb, geb, ltb.
  simpl. by destruct (cmp v x).
Qed.

(** ** Text forms *)

Definition wildcard_ok (w : WildcardRange) : Prop :=
  wildcard_specified w = length (wildcard_parts w) /\
  length (List.filter is_none (wildcard_parts w)) = 1 /\
  Forall (fun p => match p with Some n => is_u32 n | None => True end) (wildcard_parts w).

Definition fmt_wildcard_part (p : option N) : rstr := match p with Some p => dec p | None => lit "*" end.

Lemma dec_not_star n : dec n <> lit "*".
Proof. intros E. pose proof (dec_digits n) as Hd. by rewrite E in Hd. Qed.

Lemma parse_wildcard_fmt ps acc :
  Forall (fun p => match p with Some n => is_u32 n | None => True end) ps ->
  parse_wildcard_parts (fmt_wildcard_part <$> ps) acc = Some (acc ++ ps).
Proof.
  intros Hps. revert acc. induction Hps as [|p ps Hp Hps IH]; intros acc; [by rewrite app_nil_r|].
  cbn [fmap list_fmap parse_wildcard_parts]. destruct p as [n|].
  - simpl. rewrite bool_decide_false by apply dec_not_star. unfold parse_u32.
    rewrite parse_uint_dec by done. fold (fmt_wildcard_part <$> ps). rewrite IH.
    by rewrite <-(assoc_L (++)).
  - simpl. fold (fmt_wildcard_part <$> ps). rewrite IH.
    by rewrite <-(assoc_L (++)).
Qed.

Lemma parse_wildcard_parts_ok ws acc ps :
  parse_wildcard_parts ws acc = Some ps ->
  Forall (fun p => match p with Some n => is_u32 n | None => True end) acc ->
  Forall (fun p => match p with Some n => is_u32 n | None => True end) ps.
Proof.
  revert acc. induction ws as [|w ws IH]; intros acc; simpl; [by intros [= <-]|].
  case_bool_decide.
  - intros H1 H2. eapply IH; [exact H1|]. apply Forall_app_2; [done|]. by repeat constructor.
  - destruct (parse_u32 w) as [n|] eqn:E; [|done]. intros H1 H2. eapply IH; [exact H1|].
    apply Forall_app_2; [done|]. repeat constructor. by apply parse_uint_le in E.
Qed.

(** [WildcardRange::new_version_range] accepts only ranges with exactly one
    wildcard and numbers that fit a [u32], and reads back what [Display] prints
    for every such range. *)
Theorem wildcard_roundtrip :
  (forall s r, WildcardRange_new_version_range s = Ok r ->
     exists w, r = Range_Wildcard w /\ wildcard_ok w) /\
  (forall w, wildcard_ok w ->
     WildcardRange_new_version_range (WildcardRange_fmt w) = Ok (Range_Wildcard w)).
Proof.
  unfold WildcardRange_new_version_range. split.
  - intros s r. destruct (parse_wildcard_parts _ _) as [ps|] eqn:E; [|done].
    destruct (Nat.eqb_spec (length (List.filter is_none ps)) 1); [|done].
    intros [= <-]. eexists. split; [done|]. split_and!; [done..|].
    by apply (parse_wildcard_parts_ok _ _ _ E).
  - intros [n ps] (Hn & H1 & Hu). simpl in *. unfold WildcardRange_fmt. simpl.
    fold fmt_wildcard_part. rewrite split_join.
    + rewrite parse_wildcard_fmt by done. simpl. by rewrite H1, <-Hn.
    + by destruct ps.
    + apply Forall_fmap, Forall_forall. intros [m|] _; [by apply digits_no_char|done].
Qed.

Lemma wildcard_roundtrip_witness :
  WildcardRange_new_version_range (WildcardRange_fmt (mkWildcard 2 [Some 1%N; None])) =
  Ok (Range_Wildcard (mkWildcard 2 [Some 1%N; None])).
Proof.
  apply (proj2 wildcard_roundtrip). split_and!; try done.
  repeat constructor; vm_compute; discriminate.
Defined.

Lemma sep_text_no_colon sep t :
  str_contains c_colon sep = false -> Forall tag_ok (tags t) -> str_contains c_colon (sep_text sep t) = false.
Proof. intros. by apply sep_text_no_char. Qed.

Lemma Version_fmt_no_colon alternate v :
  Version_text_wf v -> str_contains c_colon (Version_fmt alternate v) = false.
Proof.
  intros (He & _ & [_ Hpre] & [_ Hpost]). rewrite Version_fmt_text by done.
  by rewrite !str_contains_app, base_text_no_char, !sep_text_no_colon.
Qed.

(** A compat range prints (in the [{:#}] form) to text that
    [CompatRange::new_version_range] reads back as the same range, with and
    without an explicit API or Binary requirement; a requirement of [None]
    panics in the printer. *)
Theorem compat_range_roundtrip c :
  Version_text_wf (cr_base c) -> parts (vparts (cr_base c)) <> [] ->
  match cr_required c with
  | Some RuleNone => CompatRange_fmt true c = Panicked
  | _ => exists s, CompatRange_fmt true c = Ok s /\
                   CompatRange_new_version_range s = Ok (Range_Compat c)
  end.
Proof.
  intros Hwf Hne. destruct c as [base req]. simpl in *.
  assert (parse_version (Version_fmt true base) = Ok base) as Hp.
  { rewrite Version_fmt_text by apply Hwf. destruct Hwf as (He & Hu & ? & ?).
    rewrite parse_version_text by auto using parts_or_zero_u32, parts_or_zero_nonempty.
    destruct base as [[l e] p q]. simpl in *. subst. by destruct l. }
  pose proof (Version_fmt_no_colon true base Hwf) as Hc.
  unfold CompatRange_new_version_range. destruct req as [[]|]; [done|..].
  - exists (lit "API" ++ c_colon :: Version_fmt true base). split; [done|].
    rewrite rsplit_once_app by done. by rewrite Hp.
  - exists (lit "Binary" ++ c_colon :: Version_fmt true base). split; [done|].
    rewrite rsplit_once_app by done. by rewrite Hp.
  - exists (Version_fmt true base). split; [done|].
    apply rsplit_once_None in Hc as ->. by rewrite Hp.
Qed.

Lemma compat_range_roundtrip_witness :
  exists s, CompatRange_fmt true (mkCompatRange (from_parts [1; 2]%N) (Some RuleBinary)) = Ok s /\
    CompatRange_new_version_range s =
      Ok (Range_Compat (mkCompatRange (from_parts [1; 2]%N) (Some RuleBinary))).
Proof.
  refine (compat_range_roundtrip (mkCompatRange (from_parts [1; 2]%N) (Some RuleBinary)) _ _); [|done].
  apply Version_text_wf_parts. repeat constructor; vm_compute; discriminate.
Defined.

(** ** Inputs on which simplification and applicability go wrong *)

Definition gte_1_0 : VersionRange := Range_GreaterThanOrEqualTo (mkGte (from_parts [1; 0]%N)).
Definition ne_1_5 : VersionRange := Range_NotEquals (NotEqualsVersion_from (from_parts [1; 5]%N)).

(** Simplification drops a bound next to an inequality: parsing the rules
    [>=1.0,!=1.5] leaves only [!=1.5], which accepts [0.5]. *)
Theorem simplify_drops_bound :
  parse_version_range_rules permutations2_lex (VersionFilter_new [gte_1_0; ne_1_5]) = Ok ne_1_5 /\
  is_ok (is_applicable (Range_Filter (VersionFilter_new [gte_1_0; ne_1_5])) (from_parts [0; 5]%N)) = false /\
  is_ok (is_applicable ne_1_5 (from_parts [0; 5]%N)) = true.
Proof. vm_compute. done. Qed.

(** Wildcard and inequality ranges depend on how a version is written: [1]
    and [1.0.0] are [==], but [1.2.*] accepts the first and refuses the second,
    and [!=1.2] refuses the first and accepts the second. *)
Theorem zip_ranges_depend_on_spelling :
  Version_eq (from_parts [1]%N) (from_parts [1; 0; 0]%N) = true /\
  is_ok (is_applicable (Range_Wildcard (mkWildcard 3 [Some 1; Some 2; None]%N)) (from_parts [1]%N)) = true /\
  is_ok (is_applicable (Range_Wildcard (mkWildcard 3 [Some 1; Some 2; None]%N)) (from_parts [1; 0; 0]%N)) = false /\
  is_ok (is_applicable (Range_NotEquals (NotEqualsVersion_from (from_parts [1; 2]%N))) (from_parts [1]%N)) = false /\
  is_ok (is_applicable (Range_NotEquals (NotEqualsVersion_from (from_parts [1; 2]%N))) (from_parts [1; 0; 0]%N)) = true.
Proof. vm_compute. done. Qed.

(** A filter takes [^0] and [^0.0] for the same rule, although only the
    first accepts [0.5]: collecting the two rules keeps whichever came last. *)
Theorem semver_zero_conflated :
  let a := Range_Semver (mkSemver (from_parts [0]%N)) in
  let b := Range_Semver (mkSemver (from_parts [0; 0]%N)) in
  (VersionFilter_new [a; b] = [b]) /\ (VersionFilter_new [b; a] = [a]) /\
  (is_ok (is_applicable a (from_parts [0; 5]%N)) = true) /\
  (is_ok (is_applicable b (from_parts [0; 5]%N)) = false).
Proof. vm_compute. done. Qed.
