(* ===== verification/Components.v ===== *)
(** * Components

    Models crates/spk-schema/crates/foundation/src/ident_component (component
    names and sets of them), spec_ops/component_ops.rs (the [ComponentOps]
    trait) and crates/spk-schema/src/component_spec_list.rs: which components
    a request for some of them brings in ([resolve_uses]), and what the reader
    of a component list accepts.

    [Component] itself is declared in [Reasons]. *)

From S2P Require Import Prelude Strings Collections Names Reasons.

#[export] Instance Component_eq_dec : EqDecision Component.
Proof. solve_decision. Defined.

(** Derived [Ord]: by variant, then by name. *)
Definition Component_key (c : Component) : nat * rstr :=
  match c with
  | ComponentAll => (0, [])
  | ComponentBuild => (1, [])
  | ComponentRun => (2, [])
  | ComponentSource => (3, [])
  | ComponentNamed n => (4, n)
  end.
#[export] Instance cmp_Component : Cmp Component := cmp_on Component_key.
#[export] Instance cmp_Component_laws : CmpLaws Component.
Proof. by apply (cmp_laws_by_key Component_key). Qed.
#[export] Instance Component_key_inj : Inj (=) (=) Component_key.
Proof. by intros [] [] ?; simplify_eq/=. Qed.
#[export] Instance cmp_Component_leibniz : CmpLeibniz Component.
Proof. by apply (cmp_leibniz_by_key Component_key). Qed.

Definition Component_default_for_build : Component := ComponentBuild.
Definition Component_default_for_run : Component := ComponentRun.

(** [Component::parse]; component names follow the rules of package names. *)
Definition Component_parse (source : rstr) : res InvalidNameError Component :=
  _ ← validate_pkg_name source;
  Ok (if bool_decide (source = lit "all") then ComponentAll
      else if bool_decide (source = lit "run") then ComponentRun
      else if bool_decide (source = lit "build") then ComponentBuild
      else if bool_decide (source = lit "src") then ComponentSource
      else ComponentNamed source).

Definition Component_as_str (self : Component) : rstr :=
  match self with
  | ComponentAll => lit "all"
  | ComponentRun => lit "run"
  | ComponentBuild => lit "build"
  | ComponentSource => lit "src"
  | ComponentNamed value => value
  end.

Definition Component_is_all (self : Component) : bool :=
  match self with ComponentAll => true | _ => false end.
Definition Component_is_run (self : Component) : bool :=
  match self with ComponentRun => true | _ => false end.
Definition Component_is_build (self : Component) : bool :=
  match self with ComponentBuild => true | _ => false end.
Definition Component_is_source (self : Component) : bool :=
  match self with ComponentSource => true | _ => false end.
Definition Component_is_named (self : Component) : bool :=
  match self with ComponentNamed _ => true | _ => false end.

(** [Components::fmt_component_set] for a [BTreeSet]. *)
Definition fmt_component_set (self : list Component) : rstr :=
  match self with
  | [] => []
  | [c] => [c_colon] ++ join [c_comma] (Component_as_str <$> self)
  | _ => [c_colon] ++ lit "{" ++ join [c_comma] (Component_as_str <$> self) ++ lit "}"
  end.

(** [FormatComponents for ComponentSet]: the elements of the [HashSet] in any
    order; [dimmed] is the terminal styling of the colored crate. *)
Definition format_components (dimmed : rstr -> rstr) (self : list Component) : rstr :=
  let components := sort_slice (Component_as_str <$> self) in
  let out := join [c_comma] components in
  if 1 <? length components then dimmed (lit "{") ++ out ++ dimmed (lit "}") else out.

(** [ComponentBTreeSet::satisfies]. *)
Definition ComponentBTreeSet_satisfies (self other : list Component) : bool :=
  if bset_contains ComponentAll self then true
  else if bset_contains ComponentAll other then false
  else forallb (fun c => bset_contains c self) other.

(** ** Component lists *)

Inductive ComponentFileMatchMode := MatchAll | MatchRemaining.

(** [ComponentOps], what a component list knows of its elements. *)
Class ComponentOps (C : Type) := {
  co_file_match_mode : C -> ComponentFileMatchMode;
  co_name : C -> Component;
  co_uses : C -> list Component;
}.

(** [ComponentSpecDefaults]. *)
Class ComponentSpecDefaults (C : Type) := { default_build : C; default_run : C }.

Section component_list.
Context {C : Type} `{!ComponentOps C}.
Implicit Types (specs : list C) (c d r : Component).

(** [ComponentSpecList::names], in any order. *)
Definition list_names specs : list Component := remove_dups (co_name <$> specs).

(** The order in which a [HashMap] yields its keys: some permutation. *)
Variable hash_order : list Component -> list Component.

(** [by_name]: collecting into a map keeps the last spec of each name. *)
Definition by_name_get specs c : option C :=
  List.find (fun s => bool_decide (co_name s = c)) (reverse specs).
Definition by_name_keys specs : list Component := hash_order (list_names specs).

(** The [while let] loop; [to_visit] holds the vector's last element first.
    [None] when out of fuel. *)
Fixpoint resolve_uses_loop (fuel : nat) specs (to_visit visited : list Component) :
    option (list Component) :=
  match fuel, to_visit with
  | O, _ => None
  | S _, [] => Some visited
  | S fuel, requested :: to_visit =>
      if bset_contains requested visited then resolve_uses_loop fuel specs to_visit visited
      else
        let to_visit := if Component_is_all requested
                        then reverse (by_name_keys specs) ++ to_visit else to_visit in
        let to_visit := match by_name_get specs requested with
                        | Some cmpt => reverse (co_uses cmpt) ++ to_visit
                        | None => to_visit
                        end in
        resolve_uses_loop fuel specs to_visit (bset_insert requested visited)
  end.

Definition uses_len specs c : nat :=
  match by_name_get specs c with Some cmpt => length (co_uses cmpt) | None => 0 end.

(** What remains to be pushed and popped when [visited] has been visited. *)
Definition pending specs (visited : list Component) : nat :=
  (if bset_contains ComponentAll visited then 0 else length (by_name_keys specs)) +
  sum_list_with (fun c => if bset_contains c visited then 0 else uses_len specs c)
    (list_names specs).

Definition resolve_fuel specs (requests : list Component) : nat :=
  S (length requests + pending specs []).

(** [ComponentSpecList::resolve_uses]. *)
Definition resolve_uses specs (requests : list Component) : list Component :=
  match resolve_uses_loop (resolve_fuel specs requests) specs (reverse requests) [] with
  | Some visited => bset_remove ComponentAll visited
  | None => []
  end.

(** [ComponentSpecList::get]. *)
Definition list_get specs c : option C := List.find (fun s => bool_decide (co_name s = c)) specs.

(** [ComponentSpecList::get_or_insert_with]: the list afterwards and the
    position of the component the caller may change. *)
Definition get_or_insert_with specs c (dflt : unit -> C) : list C * nat :=
  match position (fun s => bool_decide (co_name s = c)) specs with
  | Some p => (specs, p)
  | None => let specs := specs ++ [dflt tt] in (specs, length specs - 1)
  end.

(** What a request needs: the components requested, every component once [all]
    is needed, and whatever a needed component uses. *)
Inductive needs specs (requests : list Component) : Component -> Prop :=
| needs_request c : c ∈ requests -> needs specs requests c
| needs_all c : needs specs requests ComponentAll -> c ∈ list_names specs -> needs specs requests c
| needs_uses c d cmpt :
    needs specs requests c -> by_name_get specs c = Some cmpt -> d ∈ co_uses cmpt ->
    needs specs requests d.
End component_list.

(** ** Reading a component list *)

Inductive ComponentListError (E : Type) :=
| ComponentElementError (e : E)
| MultipleComponents (component_name : Component)
| AllComponentReserved
| ComponentUsesUnknown (component name : Component).
Arguments ComponentElementError {E} e.
Arguments MultipleComponents {E} component_name.
Arguments AllComponentReserved {E}.
Arguments ComponentUsesUnknown {E} component name.

Section visit_seq.
Context {E C : Type} `{!ComponentOps C, !ComponentSpecDefaults C}.
Implicit Types (components : list C) (seen : list Component).

(** The [while let] loop over the sequence's elements. *)
Fixpoint read_components (seq : list (res E C)) seen components :
    res (ComponentListError E) (list Component * list C) :=
  match seq with
  | [] => Ok (seen, components)
  | Err e :: _ => Err (ComponentElementError e)
  | Panicked :: _ => Panicked
  | Ok component :: seq =>
      if bool_decide (co_name component ∈ seen) then Err (MultipleComponents (co_name component))
      else read_components seq (co_name component :: seen) (components ++ [component])
  end.

(** The inner and the outer loop over the [uses] of the components. *)
Fixpoint check_use_names seen (component : Component) (uses : list Component) :
    res (ComponentListError E) unit :=
  match uses with
  | [] => Ok tt
  | name :: uses =>
      if bool_decide (name ∈ seen) then check_use_names seen component uses
      else Err (ComponentUsesUnknown component name)
  end.
Fixpoint check_uses seen components : res (ComponentListError E) unit :=
  match components with
  | [] => Ok tt
  | component :: components =>
      _ ← check_use_names seen (co_name component) (co_uses component);
      check_uses seen components
  end.

Definition add_default seen components (name : Component) (dflt : C) : list Component * list C :=
  if bool_decide (name ∈ seen) then (seen, components) else (name :: seen, components ++ [dflt]).

Definition is_remaining (component : C) : bool :=
  match co_file_match_mode component with MatchRemaining => true | MatchAll => false end.

(** [ComponentSpecListVisitor::visit_seq]. *)
Definition visit_seq (seq : list (res E C)) : res (ComponentListError E) (list C) :=
  '(seen, components) ← read_components seq [] [];
  let '(seen, components) := add_default seen components ComponentBuild default_build in
  let '(seen, components) := add_default seen components ComponentRun default_run in
  if bool_decide (ComponentAll ∈ seen) then Err AllComponentReserved
  else
    _ ← check_uses seen components;
    Ok (if existsb is_remaining components then components
        else @sort_slice C (cmp_on co_name) components).
End visit_seq.

(** What the rest of the code relies on of a component list. *)
Record component_list_wf {C} `{!ComponentOps C} (specs : list C) : Prop := {
  clw_nodup : NoDup (co_name <$> specs);
  clw_build : ComponentBuild ∈ (co_name <$> specs);
  clw_run : ComponentRun ∈ (co_name <$> specs);
  clw_all : ComponentAll ∉ (co_name <$> specs);
  clw_uses : forall s, s ∈ specs -> forall d, d ∈ co_uses s -> d ∈ (co_name <$> specs);
}.

(** The default components carry the names they are inserted for. *)
Class DefaultsLaws (C : Type) `{!ComponentOps C, !ComponentSpecDefaults C} : Prop := {
  default_build_name : co_name default_build = ComponentBuild;
  default_run_name : co_name default_run = ComponentRun;
  default_build_uses : co_uses default_build = [];
  default_run_uses : co_uses default_run = [];
}.

(** ** [resolve_uses] computes what is needed *)

Lemma sum_list_with_drop {A} `{EqDecision A} (f g : A -> nat) (a : A) (l : list A) :
  NoDup l -> a ∈ l -> g a = 0 -> (forall b, b <> a -> g b = f b) ->
  sum_list_with g l + f a = sum_list_with f l.
Proof.
  intros Hl Ha Hga Hg. induction Hl as [|b l Hb Hl IH]; [set_solver|]. cbn [sum_list_with].
  apply elem_of_cons in Ha as [<-|Ha].
  - rewrite Hga. enough (sum_list_with g l = sum_list_with f l) by lia. clear IH.
    induction l as [|b l IH]; [done|]. cbn [sum_list_with]. rewrite Hg by set_solver.
    rewrite IH; [done|set_solver|]. by inversion Hl.
  - rewrite Hg by (intros ->; done). specialize (IH Ha). lia.
Qed.

Lemma sum_list_with_mono {A} (f g : A -> nat) (l : list A) :
  (forall a, g a <= f a) -> sum_list_with g l <= sum_list_with f l.
Proof. intros Hg. induction l as [|a l IH]; cbn [sum_list_with]; [done|]. specialize (Hg a). lia. Qed.

Section resolve_uses.
Context {C : Type} `{!ComponentOps C}.
Context (hash_order : list Component -> list Component).
Implicit Types (specs : list C) (c d r : Component) (vs tv : list Component).

Lemma by_name_get_Some specs c s : by_name_get specs c = Some s -> s ∈ specs /\ co_name s = c.
Proof.
  unfold by_name_get. intros [Hs Hn]%find_some. rewrite bool_decide_eq_true in Hn.
  split; [|done]. by apply elem_of_reverse, list_elem_of_In.
Qed.
Lemma by_name_get_name specs c s : by_name_get specs c = Some s -> c ∈ list_names specs.
Proof.
  intros [Hs <-]%by_name_get_Some. by apply elem_of_remove_dups, list_elem_of_fmap_2.
Qed.
Lemma by_name_get_None specs c : by_name_get specs c = None -> c ∉ list_names specs.
Proof.
  unfold by_name_get. intros Hf Hc. apply elem_of_remove_dups, list_elem_of_fmap in Hc as (s & -> & Hs).
  eapply find_none in Hf; [|by apply list_elem_of_In, elem_of_reverse].
  by rewrite bool_decide_eq_false in Hf.
Qed.

Lemma contains_after_insert c r vs :
  bset_contains c (bset_insert r vs) = bset_contains c vs || bool_decide (c = r).
Proof.
  apply eq_true_iff_eq. rewrite orb_true_iff, bool_decide_eq_true, !bset_contains_iff.
  rewrite elem_of_bset_insert. naive_solver.
Qed.

(** Visiting a new component pays for what it pushes. *)
Lemma pending_insert specs r vs :
  bset_contains r vs = false ->
  pending hash_order specs (bset_insert r vs) + uses_len specs r +
    (if Component_is_all r then length (by_name_keys hash_order specs) else 0) <=
  pending hash_order specs vs.
Proof.
  intros Hr. unfold pending. rewrite !contains_after_insert.
  set (f := fun c => if bset_contains c vs then 0 else uses_len specs c).
  set (g := fun c => if bset_contains c (bset_insert r vs) then 0 else uses_len specs c).
  assert (sum_list_with g (list_names specs) + uses_len specs r <= sum_list_with f (list_names specs)).
  { assert (forall b, b <> r -> g b = f b) as Hg.
    { intros b Hb. unfold f, g. rewrite contains_after_insert.
      rewrite (bool_decide_false (b = r)) by done. by rewrite orb_false_r. }
    assert (g r = 0) as Hgr.
    { unfold g. by rewrite contains_after_insert, bool_decide_true, orb_true_r. }
    destruct (by_name_get specs r) as [s|] eqn:E.
    - rewrite <-(sum_list_with_drop f g r); [|apply NoDup_remove_dups|by eapply by_name_get_name|done..].
      unfold f at 1. rewrite Hr. lia.
    - unfold uses_len at 1. rewrite E.
      enough (sum_list_with g (list_names specs) <= sum_list_with f (list_names specs)) by lia.
      apply sum_list_with_mono. intros a. destruct (decide (a = r)) as [->|?]; [lia|].
      by rewrite Hg. }
  destruct r; cbn [Component_is_all]; destruct (bset_contains ComponentAll vs) eqn:Eall;
    try congruence; rewrite ?bool_decide_eq_true_2 by done;
    rewrite ?bool_decide_eq_false_2 by done; simpl; lia.
Qed.

(** What the components visited bring in is visited or on the stack. *)
Definition visited_closed specs (requests vs tv : list Component) : Prop :=
  (forall c, c ∈ requests -> c ∈ vs \/ c ∈ tv) /\
  (ComponentAll ∈ vs -> forall d, d ∈ list_names specs -> d ∈ vs \/ d ∈ tv) /\
  (forall c s d, c ∈ vs -> by_name_get specs c = Some s -> d ∈ co_uses s -> d ∈ vs \/ d ∈ tv).

Lemma visited_closed_needs specs requests vs :
  visited_closed specs requests vs [] -> forall c, needs specs requests c -> c ∈ vs.
Proof.
  intros (Hreq & Hall & Huse). induction 1 as [c Hc|c _ IH Hc|c d s _ IH Hs Hd].
  - destruct (Hreq _ Hc); set_solver.
  - destruct (Hall IH _ Hc); set_solver.
  - destruct (Huse _ _ _ IH Hs Hd); set_solver.
Qed.

Context (Hperm : forall l, hash_order l ≡ₚ l).

Lemma elem_of_by_name_keys specs d : d ∈ by_name_keys hash_order specs <-> d ∈ list_names specs.
Proof. unfold by_name_keys. by rewrite Hperm. Qed.

Definition push_all specs r tv : list Component :=
  if Component_is_all r then reverse (by_name_keys hash_order specs) ++ tv else tv.
Definition push_uses specs r tv : list Component :=
  match by_name_get specs r with Some s => reverse (co_uses s) ++ tv | None => tv end.

Lemma elem_of_push_all specs r tv d :
  d ∈ push_all specs r tv <-> (r = ComponentAll /\ d ∈ list_names specs) \/ d ∈ tv.
Proof.
  unfold push_all. destruct r; cbn [Component_is_all]; try naive_solver.
  rewrite elem_of_app, elem_of_reverse, elem_of_by_name_keys. naive_solver.
Qed.
Lemma elem_of_push_uses specs r tv d :
  d ∈ push_uses specs r tv <->
  (exists s, by_name_get specs r = Some s /\ d ∈ co_uses s) \/ d ∈ tv.
Proof.
  unfold push_uses. destruct (by_name_get specs r) as [s|]; [|naive_solver].
  rewrite elem_of_app, elem_of_reverse. naive_solver.
Qed.
Lemma length_push specs r tv :
  length (push_uses specs r (push_all specs r tv)) =
  length tv + uses_len specs r +
  (if Component_is_all r then length (by_name_keys hash_order specs) else 0).
Proof.
  unfold push_uses, push_all, uses_len.
  destruct (by_name_get specs r), (Component_is_all r);
    rewrite ?length_app, ?length_reverse; lia.
Qed.

(** Visiting [r] keeps both halves of the invariant. *)
Lemma visit_closed specs requests r vs tv :
  visited_closed specs requests vs (r :: tv) ->
  visited_closed specs requests (bset_insert r vs) (push_uses specs r (push_all specs r tv)).
Proof.
  intros (Hreq & Hall & Huse). unfold visited_closed.
  setoid_rewrite elem_of_push_uses. setoid_rewrite elem_of_push_all.
  setoid_rewrite elem_of_bset_insert. split_and!.
  - intros c [?|[->|?]%elem_of_cons]%Hreq; auto.
  - intros [<-|Ha] d Hd; [by auto|]. destruct (Hall Ha d Hd) as [?|[->|?]%elem_of_cons]; auto.
  - intros c s d [->|Hc] Hs Hd; [by eauto|].
    destruct (Huse c s d Hc Hs Hd) as [?|[->|?]%elem_of_cons]; auto.
Qed.
Lemma visit_needs specs requests r vs tv :
  (forall c, c ∈ vs \/ c ∈ r :: tv -> needs specs requests c) ->
  forall c, c ∈ bset_insert r vs \/ c ∈ push_uses specs r (push_all specs r tv) ->
    needs specs requests c.
Proof.
  intros Hn c. assert (needs specs requests r) as Hr by (apply Hn; set_solver).
  rewrite elem_of_push_uses, elem_of_push_all, elem_of_bset_insert.
  intros [[->|?]|[(s & Hs & Hc)|[[-> ?]|?]]].
  - done.
  - apply Hn. by left.
  - by eapply needs_uses.
  - by apply needs_all.
  - apply Hn. set_solver.
Qed.

Lemma resolve_uses_loop_spec fuel specs requests tv vs :
  length tv + pending hash_order specs vs < fuel -> bset_wf vs ->
  (forall c, c ∈ vs \/ c ∈ tv -> needs specs requests c) ->
  visited_closed specs requests vs tv ->
  exists out, resolve_uses_loop hash_order fuel specs tv vs = Some out /\ bset_wf out /\
    forall c, c ∈ out <-> needs specs requests c.
Proof.
  revert tv vs. induction fuel as [|fuel IH]; intros tv vs Hfuel Hwf Hn Hcl; [lia|].
  destruct tv as [|r tv]; cbn [resolve_uses_loop].
  - exists vs. split_and!; [done..|]. intros c. split; [auto|]. by apply visited_closed_needs.
  - cbn [length] in Hfuel. destruct (bset_contains r vs) eqn:Er.
    + apply bset_contains_iff in Er. apply IH; [lia|done|set_solver|].
      destruct Hcl as (H1 & H2 & H3). split_and!.
      * intros c Hc. destruct (H1 c Hc); set_solver.
      * intros Ha d Hd. destruct (H2 Ha d Hd); set_solver.
      * intros c s d Hc Hs Hd. destruct (H3 c s d Hc Hs Hd); set_solver.
    + fold (push_all specs r tv). fold (push_uses specs r (push_all specs r tv)).
      apply IH; [|by apply bset_wf_insert|by apply visit_needs|by apply visit_closed].
      rewrite length_push. pose proof (pending_insert specs r vs Er). lia.
Qed.

Lemma resolve_uses_spec specs requests :
  bset_wf (resolve_uses hash_order specs requests) /\
  forall c, c ∈ resolve_uses hash_order specs requests <->
    c <> ComponentAll /\ needs specs requests c.
Proof.
  unfold resolve_uses.
  destruct (resolve_uses_loop_spec (resolve_fuel hash_order specs requests) specs requests
              (reverse requests) []) as (out & -> & Hwf & Hout).
  - unfold resolve_fuel. rewrite length_reverse. lia.
  - constructor.
  - intros c [?|Hc]; [set_solver|]. by apply needs_request, elem_of_reverse.
  - split_and!; intros *; rewrite ?elem_of_reverse; set_solver.
  - split; [by apply bset_wf_filter|]. intros c. by rewrite elem_of_bset_remove, Hout.
Qed.
End resolve_uses.

(** ** What the reader accepts *)

Section visit_seq_facts.
Context {E C : Type} `{DefaultsLaws C}.
Implicit Types (components cs : list C) (seen : list Component).

Lemma read_components_Ok cs seen components :
  seen ≡ₚ (co_name <$> components) -> NoDup seen ->
  NoDup (co_name <$> (components ++ cs)) ->
  exists seen', read_components (E := E) (Ok <$> cs) seen components = Ok (seen', components ++ cs) /\
    seen' ≡ₚ (co_name <$> (components ++ cs)).
Proof.
  revert seen components. induction cs as [|c cs IH]; intros seen components Hseen Hnd Hcs.
  { exists seen. by rewrite app_nil_r. }
  rewrite fmap_app, fmap_cons in Hcs. cbn [read_components fmap list_fmap].
  apply NoDup_app in Hcs as (Hc1 & Hdis & [Hc2 Hc3]%NoDup_cons).
  assert (co_name c ∉ seen) as Hin by (rewrite Hseen; intros ?%Hdis; set_solver).
  rewrite bool_decide_eq_false_2 by done.
  destruct (IH (co_name c :: seen) (components ++ [c])) as (seen' & E' & Hp).
  - rewrite fmap_app, Hseen. by rewrite Permutation_cons_append.
  - by constructor.
  - rewrite <-app_assoc. rewrite fmap_app. apply NoDup_app. split_and!; [done|set_solver|].
    by constructor.
  - exists seen'. change (list_fmap (res E C) (res E C)) with (@fmap list _ C (res E C)).
    rewrite <-app_assoc in E', Hp. split; [exact E'|exact Hp].
Qed.

Lemma read_components_inv (seq : list (res E C)) seen components out :
  seen ≡ₚ (co_name <$> components) -> NoDup seen ->
  read_components seq seen components = Ok out ->
  exists cs, seq = Ok <$> cs /\ out.2 = components ++ cs /\
    out.1 ≡ₚ (co_name <$> out.2) /\ NoDup out.1.
Proof.
  revert seen components. induction seq as [|[c|e|] seq IH]; intros seen components Hseen Hnd; simpl.
  - intros [= <-]. exists []. by rewrite app_nil_r.
  - case_bool_decide as Hin; [done|]. intros Hr.
    destruct (IH (co_name c :: seen) (components ++ [c])) as (cs & -> & E2 & E1 & E3).
    + rewrite fmap_app, Hseen. by rewrite Permutation_cons_append.
    + by constructor.
    + done.
    + exists (c :: cs). by rewrite <-app_assoc in E2.
  - done.
  - done.
Qed.

Lemma check_use_names_Ok seen c uses :
  check_use_names (E := E) seen c uses = Ok tt <-> forall d, d ∈ uses -> d ∈ seen.
Proof.
  induction uses as [|d uses IH]; simpl; [set_solver|].
  case_bool_decide; [rewrite IH; set_solver|]. set_solver.
Qed.
Lemma check_uses_Ok seen components :
  check_uses (E := E) seen components = Ok tt <->
  forall s, s ∈ components -> forall d, d ∈ co_uses s -> d ∈ seen.
Proof.
  induction components as [|s components IH]; simpl; [set_solver|]. split.
  - intros ([] & Hs & Hr)%bind_Ok. rewrite check_use_names_Ok in Hs. rewrite IH in Hr. set_solver.
  - intros Hall. rewrite (proj2 (check_use_names_Ok seen (co_name s) (co_uses s))) by set_solver.
    simpl. apply IH. set_solver.
Qed.

(** The list with the default components added where they are missing. *)
Definition with_default cs (name : Component) (dflt : C) : list C :=
  if bool_decide (name ∈ (co_name <$> cs)) then cs else cs ++ [dflt].
Definition with_defaults cs : list C :=
  with_default (with_default cs ComponentBuild default_build) ComponentRun default_run.

Lemma add_default_spec seen components name dflt :
  seen ≡ₚ (co_name <$> components) -> co_name dflt = name ->
  exists seen', add_default seen components name dflt = (seen', with_default components name dflt) /\
    seen' ≡ₚ (co_name <$> with_default components name dflt).
Proof.
  intros Hp Hn. unfold add_default, with_default.
  destruct (decide (name ∈ seen)) as [Hin|Hin].
  - rewrite !bool_decide_eq_true_2; [by exists seen|by rewrite <-Hp|done].
  - rewrite !bool_decide_eq_false_2; [|by rewrite <-Hp|done]. exists (name :: seen).
    split; [done|]. rewrite fmap_app. simpl. rewrite Hn, Hp. by rewrite Permutation_cons_append.
Qed.

Lemma with_default_nodup cs name dflt :
  co_name dflt = name -> NoDup (co_name <$> cs) -> NoDup (co_name <$> with_default cs name dflt).
Proof.
  intros Hn Hcs. unfold with_default. case_bool_decide as Hin; [done|].
  rewrite fmap_app. apply NoDup_app. split_and!; [done| |apply NoDup_singleton].
  simpl. rewrite Hn. set_solver.
Qed.
Lemma elem_of_with_default cs name dflt s :
  s ∈ with_default cs name dflt <-> s ∈ cs \/ (s = dflt /\ name ∉ co_name <$> cs).
Proof. unfold with_default. case_bool_decide; set_solver. Qed.
Lemma names_with_default cs name dflt d :
  co_name dflt = name ->
  d ∈ (co_name <$> with_default cs name dflt) <-> d ∈ (co_name <$> cs) \/ d = name.
Proof.
  intros Hn. unfold with_default. case_bool_decide as Hin; [set_solver|].
  rewrite fmap_app, elem_of_app. simpl. rewrite Hn. set_solver.
Qed.
Lemma names_with_defaults cs d :
  d ∈ (co_name <$> with_defaults cs) <->
  d ∈ (co_name <$> cs) \/ d = ComponentBuild \/ d = ComponentRun.
Proof.
  unfold with_defaults. rewrite !names_with_default by (apply default_build_name || apply default_run_name).
  naive_solver.
Qed.
Lemma with_defaults_nodup cs : NoDup (co_name <$> cs) -> NoDup (co_name <$> with_defaults cs).
Proof.
  intros Hcs. unfold with_defaults. apply with_default_nodup; [apply default_run_name|].
  by apply with_default_nodup; [apply default_build_name|].
Qed.

(** The whole reader on elements that were read without error. *)
Lemma visit_seq_Ok cs out :
  visit_seq (E := E) (Ok <$> cs) = Ok out <->
  (NoDup (co_name <$> cs) /\ (ComponentAll ∉ (co_name <$> cs)) /\
   (forall s, s ∈ cs -> forall d, d ∈ co_uses s -> d ∈ co_name <$> with_defaults cs)) /\
  out = (if existsb is_remaining (with_defaults cs) then with_defaults cs
         else @sort_slice C (cmp_on co_name) (with_defaults cs)).
Proof.
  set (body := fun '((seen, components) : list Component * list C) =>
    let '(seen, components) := add_default seen components ComponentBuild default_build in
    let '(seen, components) := add_default seen components ComponentRun default_run in
    if bool_decide (ComponentAll ∈ seen) then Err AllComponentReserved
    else _ ← check_uses seen components;
      Ok (if existsb is_remaining components then components
          else @sort_slice C (cmp_on co_name) components) : res (ComponentListError E) (list C)).
  assert (forall seen, seen ≡ₚ (co_name <$> cs) -> body (seen, cs) = Ok out <->
    ((ComponentAll ∉ (co_name <$> cs)) /\
     (forall s, s ∈ cs -> forall d, d ∈ co_uses s -> d ∈ co_name <$> with_defaults cs)) /\
    out = (if existsb is_remaining (with_defaults cs) then with_defaults cs
           else @sort_slice C (cmp_on co_name) (with_defaults cs))) as Hbody.
  { intros seen Hseen. unfold body.
    destruct (add_default_spec seen cs ComponentBuild default_build Hseen default_build_name)
      as (seen1 & -> & H1).
    destruct (add_default_spec seen1 _ ComponentRun default_run H1 default_run_name)
      as (seen2 & -> & H2). fold (with_defaults cs) in *.
    assert (ComponentAll ∈ seen2 <-> ComponentAll ∈ co_name <$> cs) as Hall
      by (rewrite H2, names_with_defaults; naive_solver).
    case_bool_decide as Ha; [naive_solver|].
    assert (check_uses (E := E) seen2 (with_defaults cs) = Ok tt <->
      forall s, s ∈ cs -> forall d, d ∈ co_uses s -> d ∈ co_name <$> with_defaults cs) as Huses.
    { rewrite check_uses_Ok. setoid_rewrite H2. split; intros Hu s Hs d Hd.
      - eapply Hu; [|done]. unfold with_defaults. rewrite !elem_of_with_default. auto.
      - unfold with_defaults in Hs. rewrite !elem_of_with_default in Hs.
        destruct Hs as [[Hs|[-> _]]|[-> _]]; [by eapply Hu| |].
        + rewrite default_build_uses in Hd. set_solver.
        + rewrite default_run_uses in Hd. set_solver. }
    destruct (check_uses seen2 (with_defaults cs)) as [[]|e|]; simpl; naive_solver. }
  change (visit_seq (Ok <$> cs)) with (read_components (Ok <$> cs) [] [] ≫= body). split.
  - intros ([seen components] & Hr & Hb)%bind_Ok.
    apply read_components_inv in Hr as (cs' & Ecs & E2 & E1 & Hnd); [|done|constructor].
    apply (inj (fmap Ok)) in Ecs as <-. simpl in *. subst components.
    rewrite Hbody in Hb by done. rewrite E1 in Hnd. naive_solver.
  - intros [(Hnd & Hall & Huses) ->].
    destruct (read_components_Ok cs [] []) as (seen' & -> & Hp); [done|constructor|done|].
    simpl. apply (Hbody seen'); [done|]. auto.
Qed.

Lemma visit_seq_perm cs out :
  visit_seq (E := E) (Ok <$> cs) = Ok out -> out ≡ₚ with_defaults cs.
Proof. intros [_ ->]%visit_seq_Ok. destruct (existsb _ _); [done|]. apply sort_slice_perm. Qed.

Lemma visit_seq_wf cs out : visit_seq (E := E) (Ok <$> cs) = Ok out -> component_list_wf out.
Proof.
  intros Hv. pose proof (visit_seq_perm _ _ Hv) as Hp.
  apply visit_seq_Ok in Hv as [(Hnd & Hall & Huses) _].
  assert (co_name <$> out ≡ₚ co_name <$> with_defaults cs) as Hn by (by rewrite Hp).
  split; rewrite ?Hn.
  - by apply with_defaults_nodup.
  - rewrite names_with_defaults. auto.
  - rewrite names_with_defaults. auto.
  - rewrite names_with_defaults. naive_solver.
  - intros s Hs d Hd. rewrite Hn. rewrite Hp in Hs. unfold with_defaults in Hs.
    rewrite !elem_of_with_default in Hs. destruct Hs as [[Hs|[-> _]]|[-> _]]; [by eapply Huses| |].
    + rewrite default_build_uses in Hd. set_solver.
    + rewrite default_run_uses in Hd. set_solver.
Qed.
End visit_seq_facts.

(** The least a component can be: a name, a mode and what it uses. *)
#[export] Instance ComponentOps_tuple :
    ComponentOps (Component * ComponentFileMatchMode * list Component) :=
  {| co_file_match_mode := fun c => c.1.2; co_name := fun c => c.1.1; co_uses := snd |}.
#[export] Instance ComponentSpecDefaults_tuple :
    ComponentSpecDefaults (Component * ComponentFileMatchMode * list Component) :=
  {| default_build := (ComponentBuild, MatchAll, []); default_run := (ComponentRun, MatchAll, []) |}.
#[export] Instance DefaultsLaws_tuple :
  DefaultsLaws (Component * ComponentFileMatchMode * list Component).
Proof. done. Qed.

(** A name is parsed to a component exactly when it is a valid package name, and
    the component's text is that name. *)
Lemma Component_parse_as_str s c : Component_parse s = Ok c -> Component_as_str c = s.
Proof.
  unfold Component_parse. intros ([] & _ & [= <-])%bind_Ok. by repeat case_bool_decide.
Qed.

(** Component names round trip.  Parsing a component's text gives the
    component back whenever that text is a valid package name and does not hide
    a reserved word in a custom name; the four reserved components always
    survive. *)
Theorem component_roundtrip c :
  validate_pkg_name (Component_as_str c) = Ok tt ->
  (forall n, c = ComponentNamed n -> n ∉ [lit "all"; lit "run"; lit "build"; lit "src"]) ->
  Component_parse (Component_as_str c) = Ok c.
Proof.
  intros Hv Hn. unfold Component_parse. rewrite Hv. destruct c as [| | | |n]; simpl.
  all: try by vm_compute.
  specialize (Hn n eq_refl). rewrite !not_elem_of_cons in Hn. destruct Hn as (? & ? & ? & ? & _).
  by rewrite !bool_decide_eq_false_2.
Qed.
Lemma component_roundtrip_witness :
  Component_parse (lit "debug-info") = Ok (ComponentNamed (lit "debug-info")).
Proof.
  apply (component_roundtrip (ComponentNamed (lit "debug-info"))); [by vm_compute|].
  intros n [= <-]. apply (bool_decide_unpack _). by vm_compute.
Defined.

Section list_properties.
Context {C : Type} `{!ComponentOps C}.
Implicit Types (specs : list C) (requests : list Component).

Lemma needs_inside specs requests c :
  component_list_wf specs ->
  (forall r, r ∈ requests -> r = ComponentAll \/ r ∈ (co_name <$> specs)) ->
  needs specs requests c -> c = ComponentAll \/ c ∈ (co_name <$> specs).
Proof.
  intros Hwf Hreq. induction 1 as [c Hc|c _ _ Hc|c d s _ _ Hs Hd].
  - auto.
  - right. by apply elem_of_remove_dups.
  - right. apply by_name_get_Some in Hs as [Hs _]. by eapply clw_uses.
Qed.
End list_properties.

(** [ComponentSpecList::resolve_uses] terminates within its fuel for every
    component list, also one with cyclic [uses], and yields, sorted and whatever
    order the hash map yields its keys in, exactly the components a request
    needs: those requested, all of them when [all] is needed, and whatever a
    needed component uses; [all] itself is not in the result. *)
Theorem resolve_uses_exact {C} `{!ComponentOps C} hash_order (specs : list C) requests :
  (forall l, hash_order l ≡ₚ l) ->
  bset_wf (resolve_uses hash_order specs requests) /\
  forall c, c ∈ resolve_uses hash_order specs requests <->
    c <> ComponentAll /\ needs specs requests c.
Proof. intros Hperm. by apply resolve_uses_spec. Qed.
Lemma resolve_uses_exact_witness :
  let specs := [(ComponentBuild, MatchAll, [ComponentRun]); (ComponentRun, MatchAll, [ComponentBuild])] in
  (forall c, c ∈ resolve_uses reverse specs [ComponentRun] <->
    c <> ComponentAll /\ needs specs [ComponentRun] c) /\
  resolve_uses reverse specs [ComponentRun] = [ComponentBuild; ComponentRun].
Proof.
  split; [|by vm_compute].
  apply (resolve_uses_exact reverse [(ComponentBuild, MatchAll, [ComponentRun]);
    (ComponentRun, MatchAll, [ComponentBuild])]). apply reverse_Permutation.
Defined.

(** The reader of component lists accepts exactly the lists with distinct
    names, without the reserved [all], whose [uses] name components of the list
    or the two default ones; what it returns has the default components, is
    closed under [uses] and is sorted by name unless a component matches only
    the remaining files. *)
Theorem visit_seq_exact {E C} `{DefaultsLaws C} (cs : list C) :
  (forall out, visit_seq (E := E) (Ok <$> cs) = Ok out ->
     component_list_wf out /\ out ≡ₚ with_defaults cs /\
     (existsb is_remaining out = false -> StronglySorted (fun a b => cle (co_name a) (co_name b)) out)) /\
  ((exists out, visit_seq (E := E) (Ok <$> cs) = Ok out) <->
   NoDup (co_name <$> cs) /\ (ComponentAll ∉ (co_name <$> cs)) /\
   forall s, s ∈ cs -> forall d, d ∈ co_uses s -> d ∈ (co_name <$> with_defaults cs)).
Proof.
  split.
  - intros out Hv. split_and!; [by eapply visit_seq_wf|by eapply visit_seq_perm|].
    pose proof (visit_seq_perm _ _ Hv) as Hp. apply visit_seq_Ok in Hv as [_ ->].
    destruct (existsb is_remaining (with_defaults cs)) eqn:Er; [congruence|].
    intros _. exact (@sort_slice_sorted C (cmp_on co_name)
      (cmp_laws_by_key co_name (fun _ _ => eq_refl)) (with_defaults cs)).
  - setoid_rewrite visit_seq_Ok. naive_solver.
Qed.
Lemma visit_seq_exact_witness :
  component_list_wf [(ComponentBuild, MatchAll, [ComponentRun]); (ComponentRun, MatchAll, [])].
Proof.
  apply (visit_seq_exact (E := unit) [(ComponentBuild, MatchAll, [ComponentRun])]).
  by vm_compute.
Defined.

(** In a component list the reader accepted, resolving requests for
    components of the list, or for [all], only ever needs components of the
    list, so no request for existing components can fail for a missing one; and
    [all] needs every component. *)
Theorem resolve_uses_inside {E C} `{DefaultsLaws C} hash_order (cs out : list C) requests :
  (forall l, hash_order l ≡ₚ l) ->
  visit_seq (E := E) (Ok <$> cs) = Ok out ->
  (forall r, r ∈ requests -> r = ComponentAll \/ r ∈ (co_name <$> out)) ->
  (forall c, c ∈ resolve_uses hash_order out requests -> c ∈ (co_name <$> out)) /\
  (ComponentAll ∈ requests -> forall c, c ∈ (co_name <$> out) -> c ∈ resolve_uses hash_order out requests).
Proof.
  intros Hperm Hv%visit_seq_wf Hreq.
  destruct (resolve_uses_spec hash_order Hperm out requests) as [_ Hspec]. split.
  - intros c [Hc Hn]%Hspec. by destruct (needs_inside _ _ _ Hv Hreq Hn).
  - intros Ha c Hc. apply Hspec. split; [intros ->; by apply (clw_all _ Hv)|].
    apply needs_all; [by apply needs_request|by apply elem_of_remove_dups].
Qed.
Lemma resolve_uses_inside_witness :
  let cs := [(ComponentNamed (lit "debug"), MatchAll, [ComponentRun])] in
  let out := [(ComponentBuild, MatchAll, []); (ComponentRun, MatchAll, []);
              (ComponentNamed (lit "debug"), MatchAll, [ComponentRun])] in
  visit_seq (E := unit) (Ok <$> cs) = Ok out /\
  forall c, c ∈ resolve_uses reverse out [ComponentNamed (lit "debug")] -> c ∈ (co_name <$> out).
Proof.
  split; [by vm_compute|].
  apply (resolve_uses_inside (E := unit) reverse [(ComponentNamed (lit "debug"), MatchAll, [ComponentRun])]).
  - apply reverse_Permutation.
  - by vm_compute.
  - intros r ->%list_elem_of_singleton. right. by apply (bool_decide_unpack _).
Defined.
