(* ===== verification/Options.v ===== *)
(** * Option maps

    Models the [OptionMap] of
    crates/spk-schema/crates/foundation/src/option_map/mod.rs: the values of
    package options by option name, the part of them relevant to one package,
    and their rendering into environment variables.  [OptionMap] itself is
    declared in [Reasons]; the environment is a [HashMap], a [gmap] here. *)

From stdpp Require Import gmap.
From S2P Require Import Prelude Strings Collections Names Reasons.

Implicit Types (self : OptionMap) (name value : rstr).

(** [Display for OptionMap]. *)
Definition OptionMap_to_string self : rstr :=
  lit "{" ++ join (lit ", ") ((fun '(n, v) => n ++ lit ": " ++ v) <$> self) ++ lit "}".

(** [OptionMap::to_environment]. *)
Definition pkg_var_name (namespace : rstr) name : rstr :=
  lit "SPK_PKG_" ++ OptName_env_name namespace ++ lit "_OPT_" ++
  OptName_env_name (OptName_without_namespace name).
Definition opt_var_name name : rstr := lit "SPK_OPT_" ++ OptName_env_name name.
Definition to_environment_step (out : gmap rstr rstr) (entry : rstr * rstr) : gmap rstr rstr :=
  let '(name, value) := entry in
  match OptName_namespace name with
  | Some namespace => <[opt_var_name name := value]> (<[pkg_var_name namespace name := value]> out)
  | None => <[opt_var_name name := value]> out
  end.
Definition to_environment self : gmap rstr rstr := foldl to_environment_step ∅ self.

(** [OptionMap::global_options]. *)
Definition global_options self : OptionMap :=
  bmap_collect (List.filter (fun '(k, _) => negb (str_contains c_dot k)) self).

(** [OptionMap::package_options_without_global]. *)
Definition package_options_step (pkg : rstr) (options : OptionMap) (entry : rstr * rstr) : OptionMap :=
  let '(name, value) := entry in
  if bool_decide (OptName_namespace name = Some pkg)
  then bmap_insert (OptName_without_namespace name) value options else options.
Definition package_options_without_global self (pkg : rstr) : OptionMap :=
  foldl (package_options_step pkg) [] self.

(** [OptionMap::package_options]. *)
Definition package_options self (name : rstr) : OptionMap :=
  bmap_extend (global_options self) (package_options_without_global self name).

(** [OptionMap::clean_environment]. *)
Definition is_option_variable name : bool :=
  str_starts_with (lit "SPK_OPT_") name ||
  (str_starts_with (lit "SPK_PKG_") name && str_contains_str (lit "_OPT_") name).
Definition clean_environment (env : gmap rstr rstr) : gmap rstr rstr :=
  let to_remove := List.filter is_option_variable (map_to_list env).*1 in
  foldl (fun env name => delete name env) env to_remove.

(** ** The options of one package *)

Lemma namespace_Some name ns :
  OptName_namespace name = Some ns -> name = ns ++ [c_dot] ++ OptName_base_name name.
Proof.
  unfold OptName_namespace, OptName_base_name.
  destruct (split_once c_dot name) as [[a b]|] eqn:E; [|done].
  intros [= <-]. by apply split_once_Some in E as [-> _].
Qed.

Lemma namespace_None name : OptName_namespace name = None <-> str_contains c_dot name = false.
Proof.
  unfold OptName_namespace. rewrite <-split_once_None.
  by destruct (split_once c_dot name) as [[]|].
Qed.

Lemma namespace_app ns b :
  str_contains c_dot ns = false -> OptName_namespace (ns ++ [c_dot] ++ b) = Some ns.
Proof. intros Hns. unfold OptName_namespace. simpl. by rewrite split_once_app. Qed.
Lemma base_name_app ns b :
  str_contains c_dot ns = false -> OptName_base_name (ns ++ [c_dot] ++ b) = b.
Proof. intros Hns. unfold OptName_base_name. simpl. by rewrite split_once_app. Qed.

Section package_options.
Context (pkg : rstr) (Hpkg : str_contains c_dot pkg = false).

Lemma package_options_wf options l :
  bmap_wf options -> bmap_wf (foldl (package_options_step pkg) options l).
Proof.
  revert options. induction l as [|[n v] l IH]; intros options Ho; [done|]. simpl.
  apply IH. case_bool_decide; [by apply bmap_insert_wf|done].
Qed.

(** The last entry for [pkg.k] decides. *)
Lemma package_options_get k options l :
  bmap_wf options -> bmap_wf l ->
  bmap_get k (foldl (package_options_step pkg) options l) =
  match bmap_get (pkg ++ [c_dot] ++ k) l with
  | Some v => Some v
  | None => bmap_get k options
  end.
Proof.
  intros Ho Hl. revert options Ho. induction l as [|[n v] l IH]; intros options Ho; [done|].
  assert (bmap_wf l) as Hl' by (by inversion Hl). cbn [foldl bmap_get].
  rewrite IH; [|done|unfold package_options_step; case_bool_decide; [by apply bmap_insert_wf|done]].
  unfold package_options_step. destruct (cmp (pkg ++ [c_dot] ++ k) n) eqn:E.
  - apply cmp_eq in E as <-. rewrite (bmap_wf_cons_get _ v) by done.
    rewrite namespace_app, bool_decide_eq_true_2 by done. unfold OptName_without_namespace.
    rewrite base_name_app by done. by rewrite bmap_get_insert_eq.
  - case_bool_decide as Hns; [|done]. destruct (bmap_get (pkg ++ [c_dot] ++ k) l); [done|].
    apply bmap_get_insert_ne; [done|]. intros ->. apply namespace_Some in Hns.
    unfold OptName_without_namespace in E. rewrite <-Hns, cmp_refl in E. done.
  - case_bool_decide as Hns; [|done]. destruct (bmap_get (pkg ++ [c_dot] ++ k) l); [done|].
    apply bmap_get_insert_ne; [done|]. intros ->. apply namespace_Some in Hns.
    unfold OptName_without_namespace in E. rewrite <-Hns, cmp_refl in E. done.
Qed.

Lemma global_options_get k self :
  bmap_wf self ->
  bmap_get k (global_options self) = if str_contains c_dot k then None else bmap_get k self.
Proof.
  intros Hself. unfold global_options. rewrite bmap_collect_id by (by apply bmap_wf_filter).
  rewrite bmap_get_filter by done. by destruct (bmap_get k self), (str_contains c_dot k).
Qed.
Lemma global_options_wf self : bmap_wf self -> bmap_wf (global_options self).
Proof. intros _. apply bmap_wf_extend. constructor. Qed.
End package_options.

(** ** Environment variables *)

Lemma str_starts_with_app pat s : str_starts_with pat (pat ++ s) = true.
Proof. induction pat as [|c pat IH]; simpl; [done|]. by rewrite N.eqb_refl. Qed.
Lemma str_contains_str_app a pat s : str_contains_str pat (a ++ pat ++ s) = true.
Proof.
  induction a as [|c a IH]; [|by simpl; rewrite IH, orb_true_r]. rewrite app_nil_l.
  destruct (pat ++ s) as [|c t] eqn:E; cbn [str_contains_str];
    by rewrite <-E, str_starts_with_app.
Qed.

Lemma opt_var_is_option name : is_option_variable (opt_var_name name) = true.
Proof. unfold is_option_variable, opt_var_name. by rewrite str_starts_with_app. Qed.
Lemma pkg_var_is_option ns name : is_option_variable (pkg_var_name ns name) = true.
Proof.
  unfold is_option_variable, pkg_var_name. rewrite str_starts_with_app.
  rewrite (app_assoc (lit "SPK_PKG_")), str_contains_str_app. apply orb_true_r.
Qed.

Lemma delete_all_lookup (l : list rstr) (env : gmap rstr rstr) k :
  foldl (fun env name => delete name env) env l !! k = if decide (k ∈ l) then None else env !! k.
Proof.
  revert env. induction l as [|n l IH]; intros env; cbn [foldl].
  { case_decide; [set_solver|done]. }
  rewrite IH. destruct (decide (k = n)) as [->|Hne].
  - rewrite lookup_delete_eq. repeat case_decide; try done; exfalso; set_solver.
  - rewrite lookup_delete_ne by done. repeat case_decide; try done; exfalso; set_solver.
Qed.

Lemma clean_environment_lookup env k :
  clean_environment env !! k = if is_option_variable k then None else env !! k.
Proof.
  unfold clean_environment. rewrite delete_all_lookup.
  destruct (is_option_variable k) eqn:Hk; case_decide as Hin; try done.
  - rewrite list_elem_of_In, filter_In in Hin. destruct (env !! k) as [v|] eqn:E; [|done].
    exfalso. apply Hin. split; [|done]. apply list_elem_of_In, list_elem_of_fmap.
    exists (k, v). split; [done|]. by apply elem_of_map_to_list.
  - rewrite list_elem_of_In, filter_In in Hin. destruct Hin. congruence.
Qed.

(** Only option variables are ever set, and each is set by the last option that
    has it. *)
Lemma to_environment_options self out k :
  is_option_variable k = false -> foldl to_environment_step out self !! k = out !! k.
Proof.
  intros Hk. revert out. induction self as [|[n v] self IH]; intros out; [done|]. simpl.
  assert (k <> opt_var_name n) by (intros ->; by rewrite opt_var_is_option in Hk).
  rewrite IH. destruct (OptName_namespace n) as [ns|]; rewrite !lookup_insert_ne; try done.
  intros <-. by rewrite pkg_var_is_option in Hk.
Qed.

(** ** Theorems *)

(** The options of a package are the global options overridden by the
    options in the package's namespace: an option [k] has the value of [pkg.k]
    if that is set, and otherwise the value of [k] when [k] itself has no
    namespace. *)
Theorem package_options_exact self pkg k :
  bmap_wf self -> str_contains c_dot pkg = false ->
  bmap_get k (package_options self pkg) =
  match bmap_get (pkg ++ [c_dot] ++ k) self with
  | Some v => Some v
  | None => if str_contains c_dot k then None else bmap_get k self
  end.
Proof.
  intros Hself Hpkg. unfold package_options, package_options_without_global.
  rewrite bmap_get_extend; [|by apply global_options_wf|by apply package_options_wf; constructor].
  rewrite package_options_get by (constructor || done). rewrite global_options_get by done.
  by destruct (bmap_get (pkg ++ [c_dot] ++ k) self).
Qed.
Lemma package_options_exact_witness :
  bmap_get (lit "debug") (package_options
    [(lit "debug", lit "off"); (lit "my-pkg.debug", lit "on")] (lit "my-pkg")) = Some (lit "on").
Proof.
  rewrite (package_options_exact [(lit "debug", lit "off"); (lit "my-pkg.debug", lit "on")]
    (lit "my-pkg") (lit "debug")); [by vm_compute| |by vm_compute].
  repeat constructor.
Defined.

(** [clean_environment] undoes [to_environment]: whatever environment the
    option variables were added to, cleaning it gives what cleaning the original
    environment gives, and every other variable keeps its value. *)
Theorem clean_environment_undoes self (env : gmap rstr rstr) :
  clean_environment (to_environment self ∪ env) = clean_environment env /\
  forall k, is_option_variable k = false -> clean_environment (to_environment self ∪ env) !! k = env !! k.
Proof.
  assert (forall k, is_option_variable k = false -> (to_environment self ∪ env) !! k = env !! k) as Hk.
  { intros k Hk. unfold to_environment. rewrite lookup_union, to_environment_options by done.
    rewrite lookup_empty. apply (left_id_L None (union_with (fun x _ => Some x))). }
  split.
  - apply map_eq. intros k. rewrite !clean_environment_lookup.
    destruct (is_option_variable k) eqn:E; [done|by apply Hk].
  - intros k E. rewrite clean_environment_lookup, E. by apply Hk.
Qed.
