(* ===== verification/Idents.v ===== *)
(** * Builds and package identifiers

    Models crates/spk-schema/crates/foundation/src/ident_build (builds and build
    ids) and src/ident: the identifiers of package versions and builds, their
    text and tag paths, and the [RangeIdent] of range_ident.rs that requests
    use.  [Build] and what it holds are declared in [Reasons].  Parsing is made
    of nom combinators and not modelled. *)

From S2P Require Import Prelude Strings Collections Names Version VersionOrder VersionText.
From S2P Require Import Compat RangeData Reasons VersionRange Components.

(** ** Builds *)

Definition SRC : rstr := lit "src".
Definition EMBEDDED : rstr := lit "embedded".
Definition EMBEDDED_BY_PREFIX : rstr := lit "embedded-by-".
Definition BUILD_ID_SIZE : nat := 8.

#[export] Instance IdentPartsBuf_eq_dec : EqDecision IdentPartsBuf.
Proof. solve_decision. Defined.

(** Derived [Eq]: the unparsed text of an embedded source is not compared. *)
Definition EmbeddedSourcePackage_eq (a b : EmbeddedSourcePackage) : bool :=
  bool_decide (esp_ident a = esp_ident b) && bool_decide (esp_components a = esp_components b).
Definition EmbeddedSource_eq (a b : EmbeddedSource) : bool :=
  match a, b with
  | EmbeddedPackage a, EmbeddedPackage b => EmbeddedSourcePackage_eq a b
  | EmbeddedUnknown, EmbeddedUnknown => true
  | _, _ => false
  end.
Definition Build_eq (a b : Build) : bool :=
  match a, b with
  | BuildSource, BuildSource => true
  | BuildEmbedded a, BuildEmbedded b => EmbeddedSource_eq a b
  | BuildBuildId a, BuildBuildId b => bool_decide (a = b)
  | _, _ => false
  end.
Definition opt_Build_eq (a b : option Build) : bool :=
  match a, b with
  | Some a, Some b => Build_eq a b
  | None, None => true
  | _, _ => false
  end.

(** [BuildId: TryFrom<Vec<char>>]. *)
Definition BuildId_try_from (value : rstr) : option rstr :=
  if length value =? BUILD_ID_SIZE then Some value else None.

Definition slash_part (s : option rstr) : rstr :=
  match s with Some s => [c_slash] ++ s | None => [] end.

(** [Display for EmbeddedSource]. *)
Definition EmbeddedSource_to_string (self : EmbeddedSource) : rstr :=
  EMBEDDED ++
  match self with
  | EmbeddedPackage package =>
      lit "[" ++ ip_pkg_name (esp_ident package) ++ fmt_component_set (esp_components package) ++
      slash_part (ip_version_str (esp_ident package)) ++ slash_part (ip_build_str (esp_ident package)) ++
      lit "]"
  | EmbeddedUnknown => []
  end.

Definition Build_empty : Build := BuildBuildId (lit "3I42H3S6").
Definition Build_null : Build := BuildBuildId (lit "AAAAAAAA").
Definition Build_is_null (self : Build) : bool := Build_eq self Build_null.

(** [Build::digest], also its [Display]. *)
Definition Build_digest (self : Build) : rstr :=
  match self with
  | BuildSource => SRC
  | BuildEmbedded by_ => EmbeddedSource_to_string by_
  | BuildBuildId d => d
  end.
Definition Build_is_buildid (self : Build) : bool :=
  match self with BuildBuildId _ => true | _ => false end.
Definition Build_is_source (self : Build) : bool :=
  match self with BuildSource => true | _ => false end.
Definition Build_is_embedded (self : Build) : bool :=
  match self with BuildEmbedded _ => true | _ => false end.
Definition Build_is_embed_stub (self : Build) : bool :=
  match self with BuildEmbedded (EmbeddedPackage _) => true | _ => false end.

(** ** Identifiers *)

Record Ident (Base Target : Type) := mkIdent { id_base : Base; id_target : Target }.
Arguments mkIdent {Base Target}.
Arguments id_base {Base Target}.
Arguments id_target {Base Target}.

Abbreviation VersionIdent := (Ident rstr Version).
Abbreviation OptVersionIdent := (Ident rstr (option Version)).
Abbreviation AnyIdent := (Ident VersionIdent (option Build)).
Abbreviation BuildIdent := (Ident VersionIdent Build).
Abbreviation LocatedBuildIdent := (Ident rstr BuildIdent).

Definition with_base {B T} (self : Ident B T) (base : B) : Ident B T := mkIdent base (id_target self).
Definition with_target {B T} (self : Ident B T) (target : T) : Ident B T := mkIdent (id_base self) target.

Definition VersionIdent_new_zero (name : rstr) : VersionIdent := mkIdent name Version_default.
Definition VersionIdent_to_any_ident (self : VersionIdent) (build : option Build) : AnyIdent :=
  mkIdent self build.
Definition VersionIdent_to_build_ident (self : VersionIdent) (build : Build) : BuildIdent :=
  mkIdent self build.

(** [Display for VersionIdent], [OptVersionIdent], [BuildIdent] and
    [LocatedBuildIdent]. *)
Definition VersionIdent_fmt (alternate : bool) (self : VersionIdent) : rstr :=
  id_base self ++ [c_slash] ++ Version_fmt alternate (id_target self).
Definition OptVersionIdent_fmt (alternate : bool) (self : OptVersionIdent) : rstr :=
  id_base self ++
  match id_target self with
  | Some version => [c_slash] ++ Version_fmt alternate version
  | None => []
  end.
Definition BuildIdent_fmt (alternate : bool) (self : BuildIdent) : rstr :=
  VersionIdent_fmt alternate (id_base self) ++ [c_slash] ++ Build_digest (id_target self).
Definition LocatedBuildIdent_to_string (self : LocatedBuildIdent) : rstr :=
  id_base self ++ [c_slash] ++ BuildIdent_fmt false (id_target self).

(** [AnyIdent::version_and_build] and its [Display]. *)
Definition version_and_build (alternate : bool) (self : AnyIdent) : option rstr :=
  let version := id_target (id_base self) in
  match id_target self with
  | Some build => Some (Version_fmt alternate version ++ [c_slash] ++ Build_digest build)
  | None => if is_zero version then None else Some (Version_fmt alternate version)
  end.
Definition AnyIdent_fmt (alternate : bool) (self : AnyIdent) : rstr :=
  id_base (id_base self) ++ slash_part (version_and_build alternate self).

(** Conversions between identifiers. *)
Definition AnyIdent_into_build_ident (self : AnyIdent) : option BuildIdent :=
  (fun build => mkIdent (id_base self) build) <$> id_target self.
Definition BuildIdent_to_any_ident (self : BuildIdent) : AnyIdent :=
  mkIdent (id_base self) (Some (id_target self)).
Definition AnyIdent_can_embed (self : AnyIdent) : bool :=
  match id_target self with Some (BuildBuildId _) => true | _ => false end.
Definition AnyIdent_is_embedded (self : AnyIdent) : bool :=
  match id_target self with Some (BuildEmbedded _) => true | _ => false end.
Definition AnyIdent_is_source (self : AnyIdent) : bool :=
  match id_target self with Some build => Build_is_source build | None => false end.
Definition try_into_located_build_ident (self : AnyIdent) (repository_name : rstr) :
    option LocatedBuildIdent :=
  (fun build => mkIdent repository_name (mkIdent (id_base self) build)) <$> id_target self.

(** [IdentPartsBuf: From<&BuildIdent>] and its comparison with a [BuildIdent]. *)
Definition IdentPartsBuf_from (ident : BuildIdent) : IdentPartsBuf :=
  mkIdentParts None (id_base (id_base ident)) (Some (to_storage_string (id_target (id_base ident))))
    (Some (Build_digest (id_target ident))).
Definition IdentPartsBuf_eq_BuildIdent (self : IdentPartsBuf) (other : BuildIdent) : bool :=
  negb (bool_decide (is_Some (ip_repository_name self))) &&
  bool_decide (ip_pkg_name self = id_base (id_base other)) &&
  bool_decide (ip_version_str self = Some (to_storage_string (id_target (id_base other)))) &&
  bool_decide (ip_build_str self = Some (Build_digest (id_target other))).

Section paths.
(** The relative_path crate's [join] and the base32 encoding without padding of
    the data_encoding crate. *)
Variable rel_join : rstr -> rstr -> rstr.
Variable base32_nopad : rstr -> rstr.

(** [MetadataPath for EmbeddedSource] and for [Build], also its tag paths. *)
Definition EmbeddedSource_metadata_path (self : EmbeddedSource) : rstr :=
  match self with
  | EmbeddedPackage esp =>
      EMBEDDED_BY_PREFIX ++
      base32_nopad (match esp_unparsed esp with
                    | Some unparsed => EMBEDDED ++ unparsed
                    | None => EmbeddedSource_to_string self
                    end)
  | EmbeddedUnknown => lit "embedded"
  end.
Definition Build_metadata_path (self : Build) : rstr :=
  match self with
  | BuildSource | BuildBuildId _ => Build_digest self
  | BuildEmbedded embedded => EmbeddedSource_metadata_path embedded
  end.
Definition Build_tag_path (self : Build) : rstr := Build_metadata_path self.

(** [MetadataPath] and [TagPath for BuildIdent]; a [LocatedBuildIdent] has the
    paths of the identifier it locates. *)
Definition BuildIdent_metadata_path (self : BuildIdent) : rstr :=
  rel_join (rel_join (id_base (id_base self)) (metadata_path (id_target (id_base self))))
    (Build_metadata_path (id_target self)).
Definition BuildIdent_tag_path (self : BuildIdent) : rstr :=
  rel_join (rel_join (id_base (id_base self)) (tag_path (id_target (id_base self))))
    (Build_tag_path (id_target self)).
Definition LocatedBuildIdent_tag_path (self : LocatedBuildIdent) : rstr :=
  BuildIdent_tag_path (id_target self).
Definition VersionIdent_tag_path (self : VersionIdent) : rstr :=
  rel_join (id_base self) (tag_path (id_target self)).
(** [TagPath for AnyIdent]. *)
Definition AnyIdent_tag_path (self : AnyIdent) : rstr :=
  let version := id_target (id_base self) in
  match id_target self with
  | Some build =>
      rel_join (rel_join (id_base (id_base self)) (tag_path version)) (Build_tag_path build)
  | None =>
      if is_zero version then id_base (id_base self)
      else rel_join (id_base (id_base self)) (tag_path version)
  end.
End paths.

(** ** Range identifiers *)

Record RangeIdent := mkRangeIdent {
  ri_repository_name : option rstr;
  ri_name : rstr;
  ri_components : list Component;
  ri_version : list VersionRange;
  ri_build : option Build;
}.

(** [Display for RangeIdent]. *)
Definition RangeIdent_fmt (alternate : bool) (self : RangeIdent) : res Empty_set rstr :=
  version ← (if VersionFilter_is_empty (ri_version self) then Ok []
             else s ← VersionRange_fmt alternate (Range_Filter (ri_version self));
                  Ok ([c_slash] ++ s));
  Ok (match ri_repository_name self with Some name => name ++ [c_slash] | None => [] end ++
      ri_name self ++ fmt_component_set (ri_components self) ++ version ++
      slash_part (Build_digest <$> ri_build self)).
Definition RangeIdent_to_string : RangeIdent -> res Empty_set rstr := RangeIdent_fmt false.

(** [RangeIdent::new], [double_equals] and [equals]. *)
Definition RangeIdent_new (ident : AnyIdent) (version_range : VersionRange)
    (components : list Component) : RangeIdent :=
  mkRangeIdent None (id_base (id_base ident)) (bset_collect components)
    (VersionFilter_single version_range) (id_target ident).
Definition RangeIdent_double_equals (ident : AnyIdent) (components : list Component) : RangeIdent :=
  RangeIdent_new ident (Range_DoubleEquals (mkDoubleEquals (id_target (id_base ident)))) components.
Definition RangeIdent_equals (ident : AnyIdent) (components : list Component) : RangeIdent :=
  RangeIdent_new ident (Range_Equals (mkEquals (id_target (id_base ident)))) components.

Definition RangeIdent_is_source (self : RangeIdent) : bool :=
  match ri_build self with Some build => Build_is_source build | None => false end.

(** [RangeIdent::is_applicable]. *)
Definition RangeIdent_is_applicable (self : RangeIdent) (pkg : AnyIdent) : bool :=
  if negb (bool_decide (id_base (id_base pkg) = ri_name self)) then false
  else if negb (is_ok (is_applicable (Range_Filter (ri_version self)) (id_target (id_base pkg))))
  then false
  else if bool_decide (is_Some (ri_build self)) && negb (opt_Build_eq (ri_build self) (id_target pkg))
  then false
  else true.

(** [RangeIdent::contains]. *)
Definition RangeIdent_contains (self other : RangeIdent) : res Empty_set Compatibility :=
  if negb (bool_decide (ri_name other = ri_name self)) then
    Ok (Incompatible (PackageNameMismatch (PackageName_VersionSelector (ri_name self) (ri_name other))))
  else
    compat ← contains (Range_Filter (ri_version self)) (Range_Filter (ri_version other));
    if negb (is_ok compat) then Ok compat
    else if negb (bool_decide (is_Some (ri_build other))) ||
            opt_Build_eq (ri_build self) (ri_build other) ||
            negb (bool_decide (is_Some (ri_build self)))
    then Ok Compatible
    else
      self_ident ← RangeIdent_to_string self;
      other_ident ← RangeIdent_to_string other;
      Ok (Incompatible (BuildIdNotSuperset (BuildId_VersionSelector self_ident other_ident))).

Section restrict.
Variable permutations2 : forall A : Type, list A -> list (A * A).

(** The repository names: [None] on a mismatch, else the name afterwards. *)
Definition restrict_repository (ours theirs : option rstr) : option (option rstr) :=
  match ours, theirs with
  | None, None => Some None
  | Some ours, None => Some (Some ours)
  | Some ours, Some theirs => if bool_decide (ours = theirs) then Some (Some ours) else None
  | None, Some theirs => Some (Some theirs)
  end.

(** The components afterwards. *)
Definition restrict_components (ours theirs : list Component) : list Component :=
  foldl (fun cs cmpt => if negb (bset_contains cmpt cs) then bset_insert cmpt cs else cs) ours theirs.

(** [RangeIdent::restrict]: the outcome and the identifier afterwards.  What was
    assigned before an incompatibility is found stays assigned. *)
Definition RangeIdent_restrict (self other : RangeIdent) (mode : RestrictMode) :
    res Empty_set (Compatibility * RangeIdent) :=
  match restrict_repository (ri_repository_name self) (ri_repository_name other) with
  | None =>
      Ok (Incompatible (PackageRepoMismatch (PackageRepo_Restrict (ri_name self)
            (default [] (ri_repository_name self)) (default [] (ri_repository_name other)))), self)
  | Some repository_name =>
      '(compat, version) ←
        VersionFilter_restrict permutations2 (ri_version self) (Range_Filter (ri_version other)) mode;
      match compat with
      | Incompatible incompatible =>
          Ok (Incompatible (Restrict (ri_name self) incompatible),
              mkRangeIdent repository_name (ri_name self) (ri_components self) version (ri_build self))
      | Compatible =>
          let components := restrict_components (ri_components self) (ri_components other) in
          let self' := mkRangeIdent repository_name (ri_name self) components version (ri_build self) in
          if negb (bool_decide (is_Some (ri_build other))) then Ok (Compatible, self')
          else if opt_Build_eq (ri_build self) (ri_build other) ||
                  negb (bool_decide (is_Some (ri_build self)))
          then Ok (Compatible,
                   mkRangeIdent repository_name (ri_name self) components version (ri_build other))
          else
            self_ident ← RangeIdent_to_string self';
            other_ident ← RangeIdent_to_string other;
            Ok (Incompatible (BuildIdMismatch (BuildId_VersionSelector self_ident other_ident)), self')
      end
  end.
End restrict.

Definition RangeIdent_with_components (self : RangeIdent) (components : list Component) : RangeIdent :=
  mkRangeIdent (ri_repository_name self) (ri_name self) (bset_collect components)
    (ri_version self) (ri_build self).

(** [RangeIdent::to_version_and_build_string]. *)
Definition to_version_and_build_string (self : RangeIdent) : res Empty_set rstr :=
  if VersionFilter_is_empty (ri_version self) then Ok []
  else
    s ← VersionRange_fmt false (Range_Filter (ri_version self));
    Ok (s ++ slash_part (Build_digest <$> ri_build self)).

(** [RangeIdent: From<LocatedBuildIdent>], [From<AnyIdent>], [From<VersionIdent>]
    and [From<BuildIdent>]. *)
Definition RangeIdent_from_any (ident : AnyIdent) : RangeIdent :=
  mkRangeIdent None (id_base (id_base ident)) [] (VersionFilter_from (id_target (id_base ident)))
    (id_target ident).
Definition RangeIdent_from_version (ident : VersionIdent) : RangeIdent :=
  mkRangeIdent None (id_base ident) [] (VersionFilter_from (id_target ident)) None.
Definition RangeIdent_from_build (ident : BuildIdent) : RangeIdent :=
  mkRangeIdent None (id_base (id_base ident)) [] (VersionFilter_from (id_target (id_base ident)))
    (Some (id_target ident)).
Definition RangeIdent_from_located (ident : LocatedBuildIdent) : RangeIdent :=
  mkRangeIdent (Some (id_base ident)) (id_base (id_base (id_target ident))) []
    (VersionFilter_from (id_target (id_base (id_target ident)))) (Some (id_target (id_target ident))).

(** [AnyIdent: TryFrom<RangeIdent>] and [BuildIdent: TryFrom<RangeIdent>]. *)
Definition AnyIdent_try_from (ri : RangeIdent) : res RangeError AnyIdent :=
  version ← VersionFilter_try_into_version (ri_version ri);
  Ok (mkIdent (mkIdent (ri_name ri) version) (ri_build ri)).
Inductive IdentError := IdentRangeError (e : RangeError) | BuildRequired.
Definition BuildIdent_try_from (ri : RangeIdent) : res IdentError BuildIdent :=
  match ri_build ri with
  | None => Err BuildRequired
  | Some build =>
      match VersionFilter_try_into_version (ri_version ri) with
      | Ok version => Ok (mkIdent (mkIdent (ri_name ri) version) build)
      | Err e => Err (IdentRangeError e)
      | Panicked => Panicked
      end
  end.

(** ** Tag paths identify packages *)

(** What [join] does with a path that does not end in a separator and a part
    that is not empty and does not begin with one. *)
Class RelJoinLaw (rel_join : rstr -> rstr -> rstr) : Prop :=
  rel_join_plain a c d b :
    (c =? c_slash)%N = false -> (d =? c_slash)%N = false ->
    rel_join (a ++ [c]) (d :: b) = (a ++ [c]) ++ [c_slash] ++ d :: b.

Lemma rel_join_no_slash rel_join `{!RelJoinLaw rel_join} p a b :
  a <> [] -> b <> [] -> str_contains c_slash a = false -> str_contains c_slash b = false ->
  rel_join (p ++ a) b = p ++ a ++ [c_slash] ++ b.
Proof.
  intros Ha Hb Hsa Hsb. destruct a as [|c a _] using rev_ind; [done|]. clear Ha.
  destruct b as [|d b]; [done|]. unfold str_contains in *. rewrite existsb_app in Hsa.
  cbn [existsb] in *. apply orb_false_iff in Hsa as [_ [Hc _]%orb_false_iff].
  apply orb_false_iff in Hsb as [Hd _]. rewrite N.eqb_sym in Hc, Hd.
  rewrite (assoc_L (++)), rel_join_plain by done. by rewrite <-!(assoc_L (++)).
Qed.

Lemma tag_path_no_slash v : Version_text_wf v -> str_contains c_slash (tag_path v) = false.
Proof.
  intros (_ & _ & [_ Hpre] & [_ Hpost]). rewrite tag_path_text, !str_contains_app.
  by rewrite base_text_no_char, !sep_text_no_char.
Qed.
Lemma build_tag_path_nonempty v : tag_path v <> [].
Proof.
  rewrite tag_path_text. intros [E _]%app_eq_nil. revert E. apply base_text_nonempty.
  apply pad0_S_nonempty.
Qed.

Lemma pkg_name_no_slash s : validate_pkg_name s = Ok tt -> str_contains c_slash s = false /\ s <> [].
Proof.
  intros Hs%validate_pkg_name_ok. unfold pkg_name_ok in Hs.
  apply andb_true_iff in Hs as [[Hl _]%andb_true_iff Hc]. split; [by eapply str_contains_class|].
  by intros ->.
Qed.

(** The build ids [BuildId] can hold. *)
Definition plain_build (b : Build) : Prop :=
  match b with
  | BuildSource => True
  | BuildBuildId d => length d = BUILD_ID_SIZE /\ str_contains c_slash d = false
  | BuildEmbedded _ => False
  end.
Lemma plain_build_text b : plain_build b -> Build_digest b <> [] /\ str_contains c_slash (Build_digest b) = false.
Proof. destruct b as [| |d]; simpl; [by vm_compute|done|]. intros [Hl Hs]. by destruct d. Qed.
Lemma plain_build_inj a b : plain_build a -> plain_build b -> Build_digest a = Build_digest b -> a = b.
Proof.
  destruct a as [| |da], b as [| |db]; simpl; try done.
  - intros _ [Hl _] <-. by vm_compute in Hl.
  - intros [Hl _] _ ->. by vm_compute in Hl.
  - by intros _ _ ->.
Qed.

Lemma split_slash_inj a b a' b' :
  str_contains c_slash a = false -> str_contains c_slash a' = false ->
  a ++ [c_slash] ++ b = a' ++ [c_slash] ++ b' -> a = a' /\ b = b'.
Proof.
  intros Ha Ha' E%(f_equal (split_once c_slash)). simpl in E.
  rewrite !split_once_app in E by done. by simplify_eq.
Qed.

(** The identifiers that name a published build. *)
Definition plain_ident (i : BuildIdent) : Prop :=
  validate_pkg_name (id_base (id_base i)) = Ok tt /\ Version_text_wf (id_target (id_base i)) /\
  plain_build (id_target i).

Lemma BuildIdent_tag_path_text rel_join base32 `{!RelJoinLaw rel_join} i :
  plain_ident i ->
  BuildIdent_tag_path rel_join base32 i =
  id_base (id_base i) ++ [c_slash] ++ tag_path (id_target (id_base i)) ++ [c_slash] ++
  Build_digest (id_target i).
Proof.
  intros ([Hn1 Hn2]%pkg_name_no_slash & Hv & Hb). unfold BuildIdent_tag_path, Build_tag_path.
  pose proof (plain_build_text _ Hb) as [Hb1 Hb2].
  assert (Build_metadata_path base32 (id_target i) = Build_digest (id_target i)) as ->
    by (by destruct (id_target i)).
  rewrite <-(app_nil_l (id_base (id_base i))) at 1.
  rewrite rel_join_no_slash by (done || apply build_tag_path_nonempty || by apply tag_path_no_slash).
  rewrite app_nil_l, (assoc_L (++)) at 1.
  rewrite rel_join_no_slash by (done || apply build_tag_path_nonempty || by apply tag_path_no_slash).
  by rewrite <-!(assoc_L (++)).
Qed.

(** Two published builds have the same tag path exactly when they have the
    same package name, equal versions and the same build, so publishing a build
    never overwrites the tag of a different one. *)
Theorem BuildIdent_tag_path_identifies rel_join base32 `{!RelJoinLaw rel_join} (i j : BuildIdent) :
  plain_ident i -> plain_ident j ->
  BuildIdent_tag_path rel_join base32 i = BuildIdent_tag_path rel_join base32 j <->
  id_base (id_base i) = id_base (id_base j) /\
  Version_eq (id_target (id_base i)) (id_target (id_base j)) = true /\ id_target i = id_target j.
Proof.
  intros Hi Hj. rewrite !BuildIdent_tag_path_text by done.
  destruct Hi as ([Hi1 _]%pkg_name_no_slash & Hiv & Hib), Hj as ([Hj1 _]%pkg_name_no_slash & Hjv & Hjb).
  rewrite <-(proj2 (storage_strings_spec _ _ Hiv Hjv)). split.
  - intros [-> E]%split_slash_inj; [|done..].
    apply split_slash_inj in E as [-> E]; [|by apply tag_path_no_slash..].
    split_and!; [done..|]. by apply plain_build_inj.
  - by intros (-> & -> & ->).
Qed.
Lemma BuildIdent_tag_path_identifies_witness :
  let join_plain a b := a ++ [c_slash] ++ b in
  let i := mkIdent (mkIdent (lit "my-pkg") (from_parts [1]%N)) Build_null in
  let j := mkIdent (mkIdent (lit "my-pkg") (from_parts [1; 0]%N)) Build_null in
  BuildIdent_tag_path join_plain id i = BuildIdent_tag_path join_plain id j.
Proof.
  intros join_plain i j.
  refine (proj2 (@BuildIdent_tag_path_identifies join_plain id (fun _ _ _ _ _ _ => eq_refl) i j _ _) _).
  3: by vm_compute.
  all: split_and!; [by vm_compute| |by vm_compute].
  all: apply Version_text_wf_parts; repeat constructor; by vm_compute.
Defined.
