(* ===== verification/Requests.v ===== *)
(** * Requests

    Models crates/spk-schema/crates/foundation/src/ident/pinnable_request.rs,
    pinned_request.rs, pkg_request_with_options.rs and request_with_options.rs:
    the requests for packages and variables that recipes, users and the solver
    exchange, how two requests for one package are merged ([restrict]), when
    one stands for another ([contains]) and how pins are rendered. *)

From S2P Require Import Prelude Strings Collections Names Version VersionOrder VersionText.
From S2P Require Import Compat RangeData Reasons VersionRange Components Idents.

(** ** Policies *)

Inductive PreReleasePolicy := ExcludeAll | IncludeAll.
Inductive InclusionPolicy := Always | IfAlreadyPresent.
Inductive PinPolicy := Required | IfPresentInBuildEnv.

#[export] Instance PreReleasePolicy_eq_dec : EqDecision PreReleasePolicy.
Proof. solve_decision. Defined.
#[export] Instance InclusionPolicy_eq_dec : EqDecision InclusionPolicy.
Proof. solve_decision. Defined.
#[export] Instance PinPolicy_eq_dec : EqDecision PinPolicy.
Proof. solve_decision. Defined.

(** Derived [Ord]: in declaration order. *)
Definition PreReleasePolicy_index (p : PreReleasePolicy) : nat :=
  match p with ExcludeAll => 0 | IncludeAll => 1 end.
Definition InclusionPolicy_index (p : InclusionPolicy) : nat :=
  match p with Always => 0 | IfAlreadyPresent => 1 end.
#[export] Instance cmp_PreReleasePolicy : Cmp PreReleasePolicy := cmp_on PreReleasePolicy_index.
#[export] Instance cmp_InclusionPolicy : Cmp InclusionPolicy := cmp_on InclusionPolicy_index.

Definition PreReleasePolicy_to_string (p : PreReleasePolicy) : rstr :=
  match p with ExcludeAll => lit "ExcludeAll" | IncludeAll => lit "IncludeAll" end.
Definition InclusionPolicy_to_string (p : InclusionPolicy) : rstr :=
  match p with Always => lit "Always" | IfAlreadyPresent => lit "IfAlreadyPresent" end.
Definition PinPolicy_to_string (p : PinPolicy) : rstr :=
  match p with IfPresentInBuildEnv => lit "true" | Required => lit "false" end.

(** ** Requests for variables *)

Inductive PinnableValue := FromBuildEnv | FromBuildEnvIfPresent | Pinned (value : rstr).
Abbreviation PinnedValue := rstr.

Record VarRequest (T : Type) := mkVarRequest {
  vr_var : rstr;
  vr_value : T;
  vr_description : option rstr;
}.
Arguments mkVarRequest {T}.
Arguments vr_var {T}.
Arguments vr_value {T}.
Arguments vr_description {T}.

Definition PinnableValue_is_from_build_env (self : PinnableValue) : bool :=
  match self with FromBuildEnv | FromBuildEnvIfPresent => true | Pinned _ => false end.
Definition PinnableValue_is_from_build_env_if_present (self : PinnableValue) : bool :=
  match self with FromBuildEnvIfPresent => true | _ => false end.
Definition PinnableValue_as_pinned (self : PinnableValue) : option rstr :=
  match self with FromBuildEnv | FromBuildEnvIfPresent => None | Pinned v => Some v end.
Definition PinnableValue_is_pinned (self : PinnableValue) : bool :=
  match self with Pinned _ => true | _ => false end.

Definition VarRequest_new_with_value {T} (name : rstr) (value : T) : VarRequest T :=
  mkVarRequest name value None.

Inductive RequestError :=
| NoPinToRender
| PinXUnsupported (position : rstr)
| CannotPinUnpinned
| CannotPinSuppression
| RequestRangeError (e : RangeError).

(** [VarRequest::render_pin]. *)
Definition VarRequest_render_pin (self : VarRequest PinnableValue) (value : rstr) :
    res RequestError (VarRequest PinnedValue) :=
  if negb (PinnableValue_is_from_build_env (vr_value self)) then Err NoPinToRender
  else Ok (mkVarRequest (vr_var self) value (vr_description self)).

(** The checks [contains] starts with: [None] to go on with the values. *)
Definition var_contains_names (self other : rstr) : option Compatibility :=
  if negb (bool_decide (OptName_base_name self = OptName_base_name other)) then
    Some (Incompatible (VarRequestNotSuperset (DifferentVar self other)))
  else
    let ns := OptName_namespace self in
    if bool_decide (is_Some ns) && negb (bool_decide (ns = OptName_namespace other)) then
      Some (Incompatible (VarRequestNotSuperset (DifferentNamespace self other)))
    else None.
Definition var_contains_values (self_value other_value : rstr) : Compatibility :=
  if negb (str_is_empty other_value) && negb (bool_decide (self_value = other_value)) then
    Incompatible (VarRequestNotSuperset (DifferentValue self_value other_value))
  else Compatible.

(** [VarRequest<PinnableValue>::contains]. *)
Definition VarRequest_contains (self other : VarRequest PinnableValue) : Compatibility :=
  match var_contains_names (vr_var self) (vr_var other) with
  | Some problem => problem
  | None =>
      match PinnableValue_as_pinned (vr_value self), PinnableValue_as_pinned (vr_value other) with
      | Some self_value, Some other_value => var_contains_values self_value other_value
      | _, _ => Incompatible (VarRequestNotSuperset Incomparable)
      end
  end.
(** [Contains<PinnableValue> for VarRequest<PinnedValue>]. *)
Definition VarRequest_pinned_contains_pinnable (self : VarRequest PinnedValue)
    (other : VarRequest PinnableValue) : Compatibility :=
  match var_contains_names (vr_var self) (vr_var other) with
  | Some problem => problem
  | None =>
      match PinnableValue_as_pinned (vr_value other) with
      | Some other_value => var_contains_values (vr_value self) other_value
      | None => Incompatible (VarRequestNotSuperset Incomparable)
      end
  end.
(** [Contains<PinnedValue> for VarRequest<PinnedValue>]. *)
Definition VarRequest_pinned_contains (self other : VarRequest PinnedValue) : Compatibility :=
  match var_contains_names (vr_var self) (vr_var other) with
  | Some problem => problem
  | None => var_contains_values (vr_value self) (vr_value other)
  end.

(** [Display for VarRequest], pinnable and pinned. *)
Definition VarRequest_to_string (self : VarRequest PinnableValue) : rstr :=
  lit "var: " ++ vr_var self ++
  match PinnableValue_as_pinned (vr_value self) with
  | Some v => [c_slash] ++ v
  | None => lit "/<fromBuildEnv>"
  end.
Definition VarRequest_pinned_to_string (self : VarRequest PinnedValue) : rstr :=
  lit "var: " ++ vr_var self ++ [c_slash] ++ vr_value self.

(** [From<VarRequest<PinnedValue>>] and [TryFrom<VarRequest<PinnableValue>>]. *)
Definition VarRequest_to_pinnable (req : VarRequest PinnedValue) : VarRequest PinnableValue :=
  mkVarRequest (vr_var req) (Pinned (vr_value req)) (vr_description req).
Definition VarRequest_try_pinned (req : VarRequest PinnableValue) :
    res RequestError (VarRequest PinnedValue) :=
  match vr_value req with
  | Pinned v => Ok (mkVarRequest (vr_var req) v (vr_description req))
  | FromBuildEnv | FromBuildEnvIfPresent => Err CannotPinUnpinned
  end.

(** ** Requests for packages *)

Inductive RequestedBy :=
| OldUnusedCommandLine
| CommandLineRequest (original_request : rstr)
| RequestedBy_Embedded (ident : BuildIdent)
| SourceBuild (ident : AnyIdent)
| BinaryBuild (ident : BuildIdent)
| SourceTest (ident : AnyIdent)
| BuildTest (ident : AnyIdent)
| InstallTest (ident : VersionIdent)
| CurrentEnvironment
| RequestedBy_Unknown
| DoesNotMatter
| NoState
| SpkInternalTest
| PackageBuild (ident : BuildIdent)
| PackageVersion (ident : VersionIdent)
| Variant.

Definition RequestedBy_to_string (self : RequestedBy) : rstr :=
  match self with
  | OldUnusedCommandLine => lit "command line"
  | CommandLineRequest original_request => original_request ++ lit " on the command line"
  | RequestedBy_Embedded ident => lit "embedded in " ++ BuildIdent_fmt false ident
  | SourceBuild ident => AnyIdent_fmt false ident ++ lit " source build"
  | BinaryBuild ident => BuildIdent_fmt false ident ++ lit " binary build"
  | SourceTest ident => AnyIdent_fmt false ident ++ lit " source test"
  | BuildTest ident => AnyIdent_fmt false ident ++ lit " build test"
  | InstallTest ident => VersionIdent_fmt false ident ++ lit " install test"
  | CurrentEnvironment => lit "current environment"
  | RequestedBy_Unknown => lit "unknown"
  | DoesNotMatter => lit "n/a"
  | NoState => lit "no state? this should not happen?"
  | SpkInternalTest => lit "spk's test suite"
  | PackageBuild ident => BuildIdent_fmt false ident
  | PackageVersion ident => VersionIdent_fmt false ident ++ lit " recipe"
  | Variant => lit "target variant"
  end.

(** [BTreeMap<String, Vec<RequestedBy>>]. *)
Abbreviation requesters := (list (rstr * list RequestedBy)).

Record PkgRequest := mkPkgRequest {
  pr_pkg : RangeIdent;
  pr_prerelease_policy : option PreReleasePolicy;
  pr_inclusion_policy : InclusionPolicy;
  pr_pin : option rstr;
  pr_pin_policy : PinPolicy;
  pr_required_compat : option CompatRule;
  pr_requested_by : requesters;
}.

(** [entry(key).or_default().push(requester)]. *)
Definition push_requester (key : rstr) (m : requesters) (requester : RequestedBy) : requesters :=
  bmap_insert key (default [] (bmap_get key m) ++ [requester]) m.

(** [PkgRequest::new], [add_requester] and [get_requesters]. *)
Definition PkgRequest_new (pkg : RangeIdent) (requester : RequestedBy) : res Empty_set PkgRequest :=
  key ← RangeIdent_to_string pkg;
  Ok (mkPkgRequest pkg None Always None Required (Some RuleBinary) [(key, [requester])]).
Definition PkgRequest_add_requester (self : PkgRequest) (requester : RequestedBy) :
    res Empty_set PkgRequest :=
  key ← RangeIdent_to_string (pr_pkg self);
  Ok (mkPkgRequest (pr_pkg self) (pr_prerelease_policy self) (pr_inclusion_policy self) (pr_pin self)
        (pr_pin_policy self) (pr_required_compat self)
        (push_requester key (pr_requested_by self) requester)).
Definition get_requesters (self : PkgRequest) : list RequestedBy :=
  concat (pr_requested_by self).*2.

(** [PkgRequest::from_ident] and [from_ident_exact]. *)
Definition PkgRequest_from_ident (pkg : AnyIdent) (requester : RequestedBy) : res Empty_set PkgRequest :=
  PkgRequest_new (mkRangeIdent None (id_base (id_base pkg)) []
    (VersionFilter_single (Range_Equals (mkEquals (id_target (id_base pkg))))) (id_target pkg)) requester.
Definition PkgRequest_from_ident_exact (pkg : AnyIdent) (requester : RequestedBy) :
    res Empty_set PkgRequest :=
  PkgRequest_new (mkRangeIdent None (id_base (id_base pkg)) []
    (VersionFilter_single (Range_DoubleEquals (mkDoubleEquals (id_target (id_base pkg)))))
    (id_target pkg)) requester.

(** [with_prerelease], [with_inclusion], [with_pin] and [with_compat]. *)
Definition with_prerelease (self : PkgRequest) (p : option PreReleasePolicy) : PkgRequest :=
  mkPkgRequest (pr_pkg self) p (pr_inclusion_policy self) (pr_pin self) (pr_pin_policy self)
    (pr_required_compat self) (pr_requested_by self).
Definition with_inclusion (self : PkgRequest) (p : InclusionPolicy) : PkgRequest :=
  mkPkgRequest (pr_pkg self) (pr_prerelease_policy self) p (pr_pin self) (pr_pin_policy self)
    (pr_required_compat self) (pr_requested_by self).
Definition with_pin (self : PkgRequest) (pin : option rstr) : PkgRequest :=
  mkPkgRequest (pr_pkg self) (pr_prerelease_policy self) (pr_inclusion_policy self) pin
    (pr_pin_policy self) (pr_required_compat self) (pr_requested_by self).
Definition with_compat (self : PkgRequest) (c : option CompatRule) : PkgRequest :=
  mkPkgRequest (pr_pkg self) (pr_prerelease_policy self) (pr_inclusion_policy self) (pr_pin self)
    (pr_pin_policy self) c (pr_requested_by self).
Definition with_pkg (self : PkgRequest) (pkg : RangeIdent) : PkgRequest :=
  mkPkgRequest pkg (pr_prerelease_policy self) (pr_inclusion_policy self) (pr_pin self)
    (pr_pin_policy self) (pr_required_compat self) (pr_requested_by self).

(** [PkgRequest::is_version_applicable]. *)
Definition excludes_prereleases (p : option PreReleasePolicy) : bool :=
  bool_decide (p = None) || bool_decide (p = Some ExcludeAll).
Definition is_version_applicable (self : PkgRequest) (version : Version) : Compatibility :=
  if excludes_prereleases (pr_prerelease_policy self) && negb (TagSet_is_empty (pre version))
  then Incompatible PrereleasesNotAllowed
  else is_applicable (Range_Filter (ri_version (pr_pkg self))) version.

(** [PkgRequest::contains]. *)
Definition policy_text (p : option PreReleasePolicy) : rstr :=
  match p with Some p => PreReleasePolicy_to_string p | None => lit "None" end.
Definition prerelease_contains (ours theirs : option PreReleasePolicy) : bool :=
  if gtb ours theirs then
    match ours, theirs with
    | Some ExcludeAll, None => true
    | a, b => negb (gtb a b)
    end
  else true.
Definition PkgRequest_contains (self other : PkgRequest) : res Empty_set Compatibility :=
  compat ← RangeIdent_contains (pr_pkg self) (pr_pkg other);
  if negb (is_ok compat) then Ok compat
  else if negb (prerelease_contains (pr_prerelease_policy self) (pr_prerelease_policy other)) then
    Ok (Incompatible (InclusionPolicyNotSuperset (Prerelease
          (policy_text (pr_prerelease_policy self)) (policy_text (pr_prerelease_policy other)))))
  else if gtb (pr_inclusion_policy self) (pr_inclusion_policy other) then
    Ok (Incompatible (InclusionPolicyNotSuperset (Standard
          (InclusionPolicy_to_string (pr_inclusion_policy self))
          (InclusionPolicy_to_string (pr_inclusion_policy other)))))
  else Ok Compatible.

(** How [restrict] merges the pre-release policies: no policy acts like
    [ExcludeAll], but either policy takes precedence over it. *)
Definition merge_prerelease (ours theirs : option PreReleasePolicy) : option PreReleasePolicy :=
  match ours, theirs with
  | Some a, Some b => Some (cmp_min a b)
  | a, b => match a with Some _ => a | None => b end
  end.
Definition restrict_mode (p : InclusionPolicy) : RestrictMode :=
  match p with
  | IfAlreadyPresent => AllowNonIntersectingRanges
  | Always => RequireIntersectingRanges
  end.
Definition merge_requesters (ours theirs : requesters) : requesters :=
  foldl (fun m '(key, request_list) => foldl (push_requester key) m request_list) ours theirs.

Section restrict.
Variable permutations2 : forall A : Type, list A -> list (A * A).

(** [PkgRequest::restrict]: the outcome and the request afterwards.  The
    policies are merged, and the identifier restricted as far as it goes, also
    when the outcome is an incompatibility. *)
Definition PkgRequest_restrict (self other : PkgRequest) : res Empty_set (Compatibility * PkgRequest) :=
  let prerelease_policy := merge_prerelease (pr_prerelease_policy self) (pr_prerelease_policy other) in
  let inclusion_policy := cmp_min (pr_inclusion_policy self) (pr_inclusion_policy other) in
  '(compatibility, pkg) ←
    RangeIdent_restrict permutations2 (pr_pkg self) (pr_pkg other) (restrict_mode inclusion_policy);
  Ok (compatibility,
      mkPkgRequest pkg prerelease_policy inclusion_policy (pr_pin self) (pr_pin_policy self)
        (pr_required_compat self)
        (if is_ok compatibility then merge_requesters (pr_requested_by self) (pr_requested_by other)
         else pr_requested_by self)).
End restrict.

(** *** Rendering pins *)

Definition API_STR : rstr := lit "API".
Definition BINARY_STR : rstr := lit "Binary".

Inductive ScannerMode := ModeBase | ModePre | ModePost.

Section render_pin.
(** [VersionFilter: FromStr], a nom parser. *)
Variable VersionFilter_from_str : rstr -> res RangeError (list VersionRange).

(** [PkgRequest::rendered_to_pkgrequest]. *)
Definition rendered_to_pkgrequest (self : PkgRequest) (rendered : rstr) : res RequestError PkgRequest :=
  match VersionFilter_from_str rendered with
  | Ok version =>
      let pkg := pr_pkg self in
      Ok (with_pin (with_pkg self (mkRangeIdent (ri_repository_name pkg) (ri_name pkg)
            (ri_components pkg) version (ri_build pkg))) None)
  | Err e => Err (RequestRangeError e)
  | Panicked => Panicked
  end.

(** The [for] loop over the characters of the pin; [digits] are the parts of
    the version that are left, followed by zeros. *)
Fixpoint scan_pin (version : Version) (pin : rstr) (mode : ScannerMode) (digits : list N)
    (rendered : rstr) : res RequestError rstr :=
  match pin with
  | [] => Ok rendered
  | c :: pin =>
      if (c =? 120)%N then (* 'x' *)
        match mode with
        | ModeBase =>
            scan_pin version pin mode (tail digits) (rendered ++ dec (hd 0%N digits))
        | ModePre => Err (PinXUnsupported (lit "pre-release"))
        | ModePost => Err (PinXUnsupported (lit "post-release"))
        end
      else if (c =? 88)%N && match mode with ModePre => true | _ => false end then (* 'X' *)
        scan_pin version pin mode digits (rendered ++ TagSet_to_string (pre version))
      else if (c =? 88)%N && match mode with ModePost => true | _ => false end then
        scan_pin version pin mode digits (rendered ++ TagSet_to_string (post version))
      else if (c =? 118)%N && match mode with ModeBase => true | _ => false end then (* 'v' *)
        scan_pin version pin mode digits (rendered ++ base_normalized version)
      else if (c =? 86)%N && match mode with ModeBase => true | _ => false end then (* 'V' *)
        scan_pin version pin mode digits (rendered ++ Version_to_string version)
      else
        let mode := if (c =? c_hyphen)%N then ModePre else if (c =? c_plus)%N then ModePost else mode in
        scan_pin version pin mode digits (rendered ++ [c])
  end.

(** The [loop] that removes trailing ['+'] and ['-']. *)
Fixpoint strip_leading_signs (s : rstr) : rstr :=
  match s with
  | c :: s' => if (c =? c_plus)%N || (c =? c_hyphen)%N then strip_leading_signs s' else s
  | [] => []
  end.
Definition strip_trailing_signs (rendered : rstr) : rstr :=
  reverse (strip_leading_signs (reverse rendered)).

(** [PkgRequest::render_pin]. *)
Definition render_pin (self : PkgRequest) (pkg : BuildIdent) : res RequestError PkgRequest :=
  let version := id_target (id_base pkg) in
  match pr_pin self with
  | None => Err NoPinToRender
  | Some pin =>
      if bool_decide (pin = API_STR) || bool_decide (pin = BINARY_STR) then
        rendered_to_pkgrequest self (pin ++ [c_colon] ++ base_normalized version)
      else
        rendered ← scan_pin version pin ModeBase (parts (vparts version)) [];
        rendered_to_pkgrequest self (strip_trailing_signs rendered)
  end.
End render_pin.

(** ** Requests with options *)

Inductive PkgRequestOptionValue := Complete (v : rstr) | Partial (v : rstr).
Definition option_value (self : PkgRequestOptionValue) : rstr :=
  match self with Complete v | Partial v => v end.
Definition option_is_complete (self : PkgRequestOptionValue) : bool :=
  match self with Complete _ => true | Partial _ => false end.
Definition convert_to_partial (self : PkgRequestOptionValue) : PkgRequestOptionValue :=
  match self with Complete v => Partial v | Partial _ => self end.

Abbreviation PkgRequestOptions := (list (rstr * PkgRequestOptionValue)).

Record PkgRequestWithOptions := mkPkgRequestWithOptions {
  pkg_request : PkgRequest;
  pro_options : PkgRequestOptions;
}.

Definition PkgRequestWithOptions_new (pkg : RangeIdent) (requester : RequestedBy) :
    res Empty_set PkgRequestWithOptions :=
  r ← PkgRequest_new pkg requester; Ok (mkPkgRequestWithOptions r []).
Definition PkgRequestWithOptions_from_ident (pkg : AnyIdent) (requester : RequestedBy) :
    res Empty_set PkgRequestWithOptions :=
  r ← PkgRequest_from_ident pkg requester; Ok (mkPkgRequestWithOptions r []).

(** The first loop of [restrict]: options only we have become partial. *)
Definition partial_missing (other options : PkgRequestOptions) : PkgRequestOptions :=
  (fun '(key, value) => (key, if bmap_contains_key key other then value else convert_to_partial value))
  <$> options.
(** The second loop: the options of the other request, in order. *)
Fixpoint merge_options (other options : PkgRequestOptions) : Compatibility * PkgRequestOptions :=
  match other with
  | [] => (Compatible, options)
  | (key, value) :: other =>
      match bmap_get key options with
      | Some self_value =>
          if negb (bool_decide (option_value self_value = option_value value)) then
            (Incompatible (VarOptionMismatch
               (VarOption_Incompatible (option_value self_value) (option_value value))), options)
          else
            match self_value with
            | Partial _ => merge_options other options
            | Complete _ =>
                if option_is_complete value then merge_options other options
                else merge_options other (bmap_insert key value options)
            end
      | None => merge_options other (bmap_insert key (Partial (option_value value)) options)
      end
  end.

(** [PkgRequestWithOptions::restrict]. *)
Definition PkgRequestWithOptions_restrict (permutations2 : forall A : Type, list A -> list (A * A))
    (self other : PkgRequestWithOptions) : res Empty_set (Compatibility * PkgRequestWithOptions) :=
  '(compat, request) ← PkgRequest_restrict permutations2 (pkg_request self) (pkg_request other);
  if negb (is_ok compat) then Ok (compat, mkPkgRequestWithOptions request (pro_options self))
  else
    let '(compat, options) :=
      merge_options (pro_options other) (partial_missing (pro_options other) (pro_options self)) in
    Ok (compat, mkPkgRequestWithOptions request options).

(** ** The sorts of request *)

Inductive PinnableRequest :=
| PinnableRequest_Pkg (r : PkgRequest)
| PinnableRequest_Var (r : VarRequest PinnableValue)
| PinnableRequest_Suppress (var comment : rstr).
Inductive PinnedRequest :=
| PinnedRequest_Pkg (r : PkgRequest)
| PinnedRequest_Var (r : VarRequest PinnedValue).
Inductive RequestWithOptions :=
| RequestWithOptions_Pkg (r : PkgRequestWithOptions)
| RequestWithOptions_Var (r : VarRequest PinnedValue).

(** [Named<OptName>], the name a requirements list keys its requests by. *)
Class Named (R : Type) := request_name : R -> rstr.
#[export] Instance Named_PinnableRequest : Named PinnableRequest := fun r =>
  match r with
  | PinnableRequest_Pkg r => ri_name (pr_pkg r)
  | PinnableRequest_Var r => vr_var r
  | PinnableRequest_Suppress var _ => var
  end.
#[export] Instance Named_PinnedRequest : Named PinnedRequest := fun r =>
  match r with
  | PinnedRequest_Pkg r => ri_name (pr_pkg r)
  | PinnedRequest_Var r => vr_var r
  end.
#[export] Instance Named_RequestWithOptions : Named RequestWithOptions := fun r =>
  match r with
  | RequestWithOptions_Pkg r => ri_name (pr_pkg (pkg_request r))
  | RequestWithOptions_Var r => vr_var r
  end.

(** The conversions between them. *)
Definition PinnableRequest_from_pinned (req : PinnedRequest) : PinnableRequest :=
  match req with
  | PinnedRequest_Pkg p => PinnableRequest_Pkg p
  | PinnedRequest_Var v => PinnableRequest_Var (VarRequest_to_pinnable v)
  end.
Definition PinnableRequest_from_with_options (r : RequestWithOptions) : PinnableRequest :=
  match r with
  | RequestWithOptions_Pkg pkg => PinnableRequest_Pkg (pkg_request pkg)
  | RequestWithOptions_Var var => PinnableRequest_Var (VarRequest_to_pinnable var)
  end.
Definition PinnedRequest_from_with_options (r : RequestWithOptions) : PinnedRequest :=
  match r with
  | RequestWithOptions_Pkg r => PinnedRequest_Pkg (pkg_request r)
  | RequestWithOptions_Var r => PinnedRequest_Var r
  end.
Definition PinnedRequest_try_from (req : PinnableRequest) : res RequestError PinnedRequest :=
  match req with
  | PinnableRequest_Pkg r => Ok (PinnedRequest_Pkg r)
  | PinnableRequest_Var r => v ← VarRequest_try_pinned r; Ok (PinnedRequest_Var v)
  | PinnableRequest_Suppress _ _ => Err CannotPinSuppression
  end.
Definition RequestWithOptions_from_pinned (r : PinnedRequest) : RequestWithOptions :=
  match r with
  | PinnedRequest_Pkg pr => RequestWithOptions_Pkg (mkPkgRequestWithOptions pr [])
  | PinnedRequest_Var vr => RequestWithOptions_Var vr
  end.

(** ** Reading requests *)

(** [NameAndValue: FromStr], for names checked by [parse]. *)
Definition NameAndValue_from_str {Er} (parse : rstr -> res Er rstr) (v : rstr) :
    res Er (rstr * option rstr) :=
  match split_once c_slash v with
  | Some (n, value) => name ← parse n; Ok (name, Some value)
  | None => name ← parse v; Ok (name, None)
  end.

(** [PinValue] and its conversions. *)
Inductive PinValue := PinValue_None | PinValue_True | PinValue_String (s : rstr).
Definition into_pkg_pin (self : PinValue) : option rstr :=
  match self with
  | PinValue_None => None
  | PinValue_True => Some BINARY_STR
  | PinValue_String s => Some s
  end.
Inductive ReadError (Er : Type) :=
| ReadValueError (e : Er)
| PinWithVersion (name version : rstr)
| PinWithValue (var value : rstr)
| PinNeedsValue (var : rstr)
| PinNotBoolean (var found : rstr)
| PinnedValueMissing
| PinnedValueEmpty
| BothPkgAndVar
| NeitherPkgNorVar.
Arguments ReadValueError {Er} e.
Arguments PinWithVersion {Er} name version.
Arguments PinWithValue {Er} var value.
Arguments PinNeedsValue {Er} var.
Arguments PinNotBoolean {Er} var found.
Arguments PinnedValueMissing {Er}.
Arguments PinnedValueEmpty {Er}.
Arguments BothPkgAndVar {Er}.
Arguments NeitherPkgNorVar {Er}.
Definition into_var_pin {Er} (self : PinValue) (var : rstr) (value : option rstr) :
    res (ReadError Er) PinnableValue :=
  match value, self with
  | Some value, PinValue_True => Err (PinWithValue var value)
  | None, PinValue_None => Err (PinNeedsValue var)
  | Some value, PinValue_None => Ok (Pinned value)
  | None, PinValue_True => Ok FromBuildEnv
  | _, PinValue_String s => Err (PinNotBoolean var s)
  end.
Definition PinValue_is_some (self : PinValue) : bool :=
  match self with PinValue_None => false | _ => true end.

(** What the two [RequestVisitor]s collect.  [rv_suppress] holds the comment a
    suppression is rendered to. *)
Record RequestVisitor := mkRequestVisitor {
  rv_pkg : option RangeIdent;
  rv_prerelease_policy : option PreReleasePolicy;
  rv_inclusion_policy : option InclusionPolicy;
  rv_var : option rstr;
  rv_value : option rstr;
  rv_description : option rstr;
  rv_suppress : option rstr;
  rv_pin : option PinValue;
  rv_pin_policy : option PinPolicy;
}.

Definition visited_pkg_request (self : RequestVisitor) (pkg : RangeIdent) : PkgRequest :=
  mkPkgRequest pkg (rv_prerelease_policy self) (default Always (rv_inclusion_policy self))
    (into_pkg_pin (default PinValue_None (rv_pin self))) (default Required (rv_pin_policy self))
    None [].

(** The guard of the first arm: a pin next to a version. *)
Definition pin_with_version {Er} (self : RequestVisitor) (pkg : RangeIdent) :
    res (ReadError Er) unit :=
  if PinValue_is_some (default PinValue_None (rv_pin self)) && negb (VersionFilter_is_empty (ri_version pkg))
  then match VersionRange_fmt true (Range_Filter (ri_version pkg)) with
       | Ok version => Err (PinWithVersion (ri_name pkg) version)
       | _ => Panicked
       end
  else Ok tt.

(** The final [match] of [RequestVisitor::visit_map] for [PinnableRequest]. *)
Definition PinnableRequest_from_visitor {Er} (self : RequestVisitor) :
    res (ReadError Er) PinnableRequest :=
  match rv_pkg self, rv_var self with
  | Some pkg, None =>
      _ ← pin_with_version self pkg; Ok (PinnableRequest_Pkg (visited_pkg_request self pkg))
  | None, Some var =>
      match rv_suppress self with
      | Some comment => Ok (PinnableRequest_Suppress var comment)
      | None =>
          value ← into_var_pin (default PinValue_None (rv_pin self)) var (rv_value self);
          let value := if negb (PinnableValue_is_pinned value) &&
                          bool_decide (rv_pin_policy self = Some IfPresentInBuildEnv)
                       then FromBuildEnvIfPresent else value in
          Ok (PinnableRequest_Var (mkVarRequest var value (rv_description self)))
      end
  | Some _, Some _ => Err BothPkgAndVar
  | None, None => Err NeitherPkgNorVar
  end.

(** The same for [PinnedRequest]. *)
Definition PinnedRequest_from_visitor {Er} (self : RequestVisitor) : res (ReadError Er) PinnedRequest :=
  match rv_pkg self, rv_var self with
  | Some pkg, None =>
      _ ← pin_with_version self pkg; Ok (PinnedRequest_Pkg (visited_pkg_request self pkg))
  | None, Some var =>
      match rv_value self with
      | None => Err PinnedValueMissing
      | Some value =>
          if str_is_empty value then Err PinnedValueEmpty
          else Ok (PinnedRequest_Var (mkVarRequest var value (rv_description self)))
      end
  | Some _, Some _ => Err BothPkgAndVar
  | None, None => Err NeitherPkgNorVar
  end.

(** One entry of the mapping a request is read from: the field its key names,
    whatever the case of the key, and the value or the error serde decodes. *)
Inductive RequestField (Er : Type) :=
| Field_pkg (v : res Er RangeIdent)
| Field_prereleasepolicy (v : res Er PreReleasePolicy)
| Field_ifpresentinbuildenv (v : res Er PinPolicy)
| Field_include (v : res Er InclusionPolicy)
| Field_frombuildenv (v : res Er PinValue)
| Field_var (v : res Er (rstr * option rstr))
| Field_value (v : res Er rstr)
| Field_description (v : res Er rstr)
| Field_suppress (v : res Er rstr)
| Field_unrecognized (v : res Er unit).
Arguments Field_pkg {Er} v.
Arguments Field_prereleasepolicy {Er} v.
Arguments Field_ifpresentinbuildenv {Er} v.
Arguments Field_include {Er} v.
Arguments Field_frombuildenv {Er} v.
Arguments Field_var {Er} v.
Arguments Field_value {Er} v.
Arguments Field_description {Er} v.
Arguments Field_suppress {Er} v.
Arguments Field_unrecognized {Er} v.

(** The body of the [while let] loop over the entries. *)
Definition visit_request_field {Er} (self : RequestVisitor) (f : RequestField Er) :
    res Er RequestVisitor :=
  let 'mkRequestVisitor pkg pre incl var value desc supp pin policy := self in
  match f with
  | Field_pkg v => v ← v; Ok (mkRequestVisitor (Some v) pre incl var value desc supp pin policy)
  | Field_prereleasepolicy v =>
      v ← v; Ok (mkRequestVisitor pkg (Some v) incl var value desc supp pin policy)
  | Field_ifpresentinbuildenv v =>
      v ← v; Ok (mkRequestVisitor pkg pre incl var value desc supp pin (Some v))
  | Field_include v => v ← v; Ok (mkRequestVisitor pkg pre (Some v) var value desc supp pin policy)
  | Field_frombuildenv v => v ← v; Ok (mkRequestVisitor pkg pre incl var value desc supp (Some v) policy)
  | Field_var v =>
      '(name, value) ← v; Ok (mkRequestVisitor pkg pre incl (Some name) value desc supp pin policy)
  | Field_value v => v ← v; Ok (mkRequestVisitor pkg pre incl var (Some v) desc supp pin policy)
  | Field_description v => v ← v; Ok (mkRequestVisitor pkg pre incl var value (Some v) supp pin policy)
  | Field_suppress v => v ← v; Ok (mkRequestVisitor pkg pre incl var value desc (Some v) pin policy)
  | Field_unrecognized v => _ ← v; Ok self
  end.
Fixpoint visit_request_fields {Er} (self : RequestVisitor) (map : list (RequestField Er)) :
    res Er RequestVisitor :=
  match map with
  | [] => Ok self
  | f :: map => self ← visit_request_field self f; visit_request_fields self map
  end.
Definition RequestVisitor_default : RequestVisitor :=
  mkRequestVisitor None None None None None None None None None.

Definition lift_read {Er A} (r : res Er A) : res (ReadError Er) A :=
  match r with Ok a => Ok a | Err e => Err (ReadValueError e) | Panicked => Panicked end.

(** [Deserialize for PinnableRequest] on the entries of the mapping. *)
Definition PinnableRequest_read {Er} (map : list (RequestField Er)) : res (ReadError Er) PinnableRequest :=
  visitor ← lift_read (visit_request_fields RequestVisitor_default map);
  PinnableRequest_from_visitor visitor.
(** [Deserialize for PinnedRequest], where [suppress] is not a field of its own. *)
Definition forget_suppress {Er} (f : RequestField Er) : RequestField Er :=
  match f with
  | Field_suppress v => Field_unrecognized (match v with Ok _ => Ok tt | Err e => Err e | Panicked => Panicked end)
  | f => f
  end.
Definition PinnedRequest_read {Er} (map : list (RequestField Er)) : res (ReadError Er) PinnedRequest :=
  visitor ← lift_read (visit_request_fields RequestVisitor_default (forget_suppress <$> map));
  PinnedRequest_from_visitor visitor.

(** ** What is read *)

(** The order of the entries decides what a variable request means: the
    entry [var] overwrites the value an earlier entry [value] gave, so a
    mapping with [value] before a [var] without a value of its own is read as
    if it had no value, while the same entries in the other order are read with
    it. *)
Theorem var_after_value_loses_value {Er} (name value : rstr) :
  PinnedRequest_read (Er := Er) [Field_var (Ok (name, None)); Field_value (Ok value)] =
    (if str_is_empty value then Err PinnedValueEmpty
     else Ok (PinnedRequest_Var (mkVarRequest name value None))) /\
  PinnedRequest_read (Er := Er) [Field_value (Ok value); Field_var (Ok (name, None))] =
    Err PinnedValueMissing /\
  PinnableRequest_read (Er := Er) [Field_var (Ok (name, None)); Field_value (Ok value)] =
    Ok (PinnableRequest_Var (mkVarRequest name (Pinned value) None)) /\
  PinnableRequest_read (Er := Er) [Field_value (Ok value); Field_var (Ok (name, None))] =
    Err (PinNeedsValue name).
Proof. done. Qed.
