(* ===== verification/RequestEq.v ===== *)
(** * Equality of requests

    The derived [PartialEq] of the identifiers and requests of
    crates/spk-schema/crates/foundation/src/ident, which the solver and its
    solutions compare requests with: versions and ranges are compared by their
    own [Eq], builds without the unparsed text of an embedded source. *)

From S2P Require Import Prelude Strings Collections Names Version VersionOrder.
From S2P Require Import Compat RangeData Reasons VersionRange Components Idents Requests.

Definition VersionIdent_eq (a b : VersionIdent) : bool :=
  bool_decide (id_base a = id_base b) && Version_eq (id_target a) (id_target b).
Definition BuildIdent_eq (a b : BuildIdent) : bool :=
  VersionIdent_eq (id_base a) (id_base b) && Build_eq (id_target a) (id_target b).
Definition AnyIdent_eq (a b : AnyIdent) : bool :=
  VersionIdent_eq (id_base a) (id_base b) && opt_Build_eq (id_target a) (id_target b).

Definition RequestedBy_eq (a b : RequestedBy) : bool :=
  match a, b with
  | CommandLineRequest a, CommandLineRequest b => bool_decide (a = b)
  | RequestedBy_Embedded a, RequestedBy_Embedded b => BuildIdent_eq a b
  | SourceBuild a, SourceBuild b => AnyIdent_eq a b
  | BinaryBuild a, BinaryBuild b => BuildIdent_eq a b
  | SourceTest a, SourceTest b => AnyIdent_eq a b
  | BuildTest a, BuildTest b => AnyIdent_eq a b
  | InstallTest a, InstallTest b => VersionIdent_eq a b
  | PackageBuild a, PackageBuild b => BuildIdent_eq a b
  | PackageVersion a, PackageVersion b => VersionIdent_eq a b
  | OldUnusedCommandLine, OldUnusedCommandLine => true
  | CurrentEnvironment, CurrentEnvironment => true
  | RequestedBy_Unknown, RequestedBy_Unknown => true
  | DoesNotMatter, DoesNotMatter => true
  | NoState, NoState => true
  | SpkInternalTest, SpkInternalTest => true
  | Variant, Variant => true
  | _, _ => false
  end.

Definition RangeIdent_eq (a b : RangeIdent) : bool :=
  bool_decide (ri_repository_name a = ri_repository_name b) && bool_decide (ri_name a = ri_name b) &&
  bool_decide (ri_components a = ri_components b) &&
  match cmp (ri_version a) (ri_version b) with Eq => true | _ => false end &&
  opt_Build_eq (ri_build a) (ri_build b).

Definition requester_entry_eq (a b : rstr * list RequestedBy) : bool :=
  bool_decide (a.1 = b.1) && list_eqb RequestedBy_eq a.2 b.2.
Definition PkgRequest_eq (a b : PkgRequest) : bool :=
  RangeIdent_eq (pr_pkg a) (pr_pkg b) &&
  bool_decide (pr_prerelease_policy a = pr_prerelease_policy b) &&
  bool_decide (pr_inclusion_policy a = pr_inclusion_policy b) &&
  bool_decide (pr_pin a = pr_pin b) && bool_decide (pr_pin_policy a = pr_pin_policy b) &&
  bool_decide (pr_required_compat a = pr_required_compat b) &&
  list_eqb requester_entry_eq (pr_requested_by a) (pr_requested_by b).

#[export] Instance PkgRequestOptionValue_eq_dec : EqDecision PkgRequestOptionValue.
Proof. solve_decision. Defined.
Definition PkgRequestWithOptions_eq (a b : PkgRequestWithOptions) : bool :=
  PkgRequest_eq (pkg_request a) (pkg_request b) && bool_decide (pro_options a = pro_options b).

Lemma Version_eq_refl v : Version_eq v v = true.
Proof. by apply Version_eq_spec. Qed.
Lemma EmbeddedSource_eq_refl e : EmbeddedSource_eq e e = true.
Proof. destruct e; [|done]. simpl. unfold EmbeddedSourcePackage_eq. by rewrite !bool_decide_eq_true_2. Qed.
Lemma Build_eq_refl b : Build_eq b b = true.
Proof. destruct b; simpl; [done|apply EmbeddedSource_eq_refl|by rewrite bool_decide_eq_true_2]. Qed.
Lemma opt_Build_eq_refl b : opt_Build_eq b b = true.
Proof. destruct b; [apply Build_eq_refl|done]. Qed.
Lemma VersionIdent_eq_refl a : VersionIdent_eq a a = true.
Proof. unfold VersionIdent_eq. by rewrite bool_decide_eq_true_2, Version_eq_refl. Qed.
Lemma BuildIdent_eq_refl a : BuildIdent_eq a a = true.
Proof. unfold BuildIdent_eq. by rewrite VersionIdent_eq_refl, Build_eq_refl. Qed.
Lemma AnyIdent_eq_refl a : AnyIdent_eq a a = true.
Proof. unfold AnyIdent_eq. by rewrite VersionIdent_eq_refl, opt_Build_eq_refl. Qed.
Lemma RequestedBy_eq_refl a : RequestedBy_eq a a = true.
Proof.
  destruct a; simpl; auto using bool_decide_eq_true_2, BuildIdent_eq_refl, AnyIdent_eq_refl,
    VersionIdent_eq_refl.
Qed.
Lemma RangeIdent_eq_refl a : RangeIdent_eq a a = true.
Proof.
  unfold RangeIdent_eq. by rewrite !bool_decide_eq_true_2, cmp_refl, opt_Build_eq_refl.
Qed.
Lemma PkgRequestWithOptions_eq_refl a : PkgRequestWithOptions_eq a a = true.
Proof.
  unfold PkgRequestWithOptions_eq, PkgRequest_eq. rewrite !bool_decide_eq_true_2, RangeIdent_eq_refl by done.
  rewrite list_eqb_refl; [done|]. intros [k l]. unfold requester_entry_eq.
  rewrite bool_decide_eq_true_2 by done. by apply list_eqb_refl, RequestedBy_eq_refl.
Qed.
Lemma PkgRequestWithOptions_eq_name a b :
  PkgRequestWithOptions_eq a b = true -> ri_name (pr_pkg (pkg_request a)) = ri_name (pr_pkg (pkg_request b)).
Proof.
  unfold PkgRequestWithOptions_eq, PkgRequest_eq, RangeIdent_eq. rewrite !andb_true_iff, !bool_decide_eq_true.
  tauto.
Qed.
