(* ===== verification/Opts.v ===== *)
(** * Package options

    Models crates/spk-schema/src/option.rs: the options a package build takes,
    their values, validation and inheritance, and how they are read.  Parsing
    of version ranges and identifiers (nom) is a parameter. *)

From S2P Require Import Prelude Strings Collections Names Version VersionOrder VersionText.
From S2P Require Import Compat RangeData Reasons CompatCheck VersionRange Components Idents Requests.

Inductive Inheritance := Weak | StrongForBuildOnly | Strong.
#[export] Instance Inheritance_eq_dec : EqDecision Inheritance.
Proof. solve_decision. Defined.

Record VarOpt := mkVarOpt {
  vo_var : rstr;
  vo_default : rstr;
  vo_choices : list rstr;
  vo_inheritance : Inheritance;
  vo_description : option rstr;
  vo_compat : option Compat;
  vo_required : bool;
  vo_value : option rstr;
}.
Record PkgOpt := mkPkgOpt {
  po_pkg : rstr;
  po_components : list Component;
  po_default : rstr;
  po_prerelease_policy : option PreReleasePolicy;
  po_required_compat : option CompatRule;
  po_value : option rstr;
}.
Inductive Opt := Opt_Pkg (o : PkgOpt) | Opt_Var (o : VarOpt).

(** ** Variable options *)

(** [VarOpt::inheritance]: a required variable is inherited strongly. *)
Definition VarOpt_inheritance (self : VarOpt) : Inheritance :=
  if vo_required self then Strong else vo_inheritance self.

Definition VarOpt_with_default_namespace (self : VarOpt) (namespace : rstr) : VarOpt :=
  mkVarOpt (OptName_with_default_namespace (vo_var self) namespace) (vo_default self)
    (vo_choices self) (vo_inheritance self) (vo_description self) (vo_compat self)
    (vo_required self) (vo_value self).
Definition VarOpt_with_value (self : VarOpt) (value : option rstr) : VarOpt :=
  mkVarOpt (vo_var self) (vo_default self) (vo_choices self) (vo_inheritance self)
    (vo_description self) (vo_compat self) (vo_required self) value.

(** [VarOpt::get_value]. *)
Definition VarOpt_get_value (self : VarOpt) (given : option rstr) : option rstr :=
  match vo_value self with
  | Some ((_ :: _) as v) => Some v
  | _ =>
      match given with
      | Some v => Some v
      | None => if negb (str_is_empty (vo_default self)) then Some (vo_default self) else None
      end
  end.

(** [VarOpt::pin_with_default]. *)
Definition pin_with_default (self : VarOpt) : VarOpt :=
  if bool_decide (is_Some (vo_value self)) || str_is_empty (vo_default self) then self
  else VarOpt_with_value self (Some (vo_default self)).

Inductive OptError :=
| InvalidVarValue (value var : rstr) (choices : list rstr)
| InvalidPkgValue (value pkg : rstr)
| PkgOptMissing (pkg : rstr).

Definition illegal_choice (self : VarOpt) (value : rstr) : bool :=
  negb (bool_decide (vo_choices self = [])) && negb (bool_decide (value ∈ vo_choices self)).

(** [VarOpt::set_value]. *)
Definition VarOpt_set_value (self : VarOpt) (value : rstr) : res OptError VarOpt :=
  if negb (bool_decide (vo_choices self = [])) && negb (str_is_empty value) &&
     negb (bool_decide (value ∈ vo_choices self))
  then Err (InvalidVarValue value (vo_var self) (vo_choices self))
  else Ok (VarOpt_with_value self (Some value)).

(** [VarOpt::validate] for a value that is given, and for one that may not be. *)
Definition VarOpt_validate_given (self : VarOpt) (value : rstr) : Compatibility :=
  match vo_value self with
  | Some assigned =>
      if bool_decide (value = assigned) then Compatible
      else Incompatible (VarOptionMismatch (VarOption_Incompatible assigned value))
  | None =>
      if illegal_choice self value
      then Incompatible (VarOptionIllegalChoice value (vo_choices self)) else Compatible
  end.
Definition VarOpt_validate (self : VarOpt) (value : option rstr) : Compatibility :=
  match value with
  | Some value => VarOpt_validate_given self value
  | None =>
      if vo_required self then
        Incompatible (VarOptionMismatch (RequiredButMissing (vo_var self)))
      else match vo_value self with
           | Some assigned => VarOpt_validate_given self assigned
           | None => Compatible
           end
  end.

(** [VarOpt::to_request]. *)
Definition VarOpt_to_request (self : VarOpt) (given_value : option rstr) : VarRequest PinnedValue :=
  mkVarRequest (vo_var self) (default [] (VarOpt_get_value self given_value)) (vo_description self).

(** ** Package options *)

Definition PkgOpt_with_value (self : PkgOpt) (value : option rstr) : PkgOpt :=
  mkPkgOpt (po_pkg self) (po_components self) (po_default self) (po_prerelease_policy self)
    (po_required_compat self) value.

(** [PkgOpt::get_value]. *)
Definition PkgOpt_get_value (self : PkgOpt) (given : option rstr) : option rstr :=
  match po_value self with
  | Some v => Some v
  | None => match given with Some v => Some v | None => Some (po_default self) end
  end.

Section pkg_opt.
(** Whether [version_filter_and_build] consumes a whole text, the parser of
    version ranges with the text of its error, and [parse_ident_range]. *)
Variable is_version_filter_and_build : rstr -> bool.
Variable VersionRange_from_str : rstr -> res rstr VersionRange.
Context {Er : Type}.
Variable parse_ident_range : rstr -> res Er RangeIdent.

(** [PkgOpt::set_value]: the empty text is accepted. *)
Definition PkgOpt_set_value (self : PkgOpt) (value : rstr) : res OptError PkgOpt :=
  if str_is_empty value || is_version_filter_and_build value
  then Ok (PkgOpt_with_value self (Some value)) else Err (InvalidPkgValue value (po_pkg self)).

(** [PkgOpt::validate]. *)
Definition PkgOpt_validate (self : PkgOpt) (value : option rstr) : res Empty_set Compatibility :=
  let value := default [] value in
  match po_value self with
  | None => Ok Compatible
  | Some base =>
      match VersionRange_from_str base with
      | Err err => Ok (Incompatible (VersionRangeInvalid base (po_pkg self) err))
      | Panicked => Panicked
      | Ok base_range =>
          match VersionRange_from_str value with
          | Err err => Ok (Incompatible (VersionRangeInvalid value (po_pkg self) err))
          | Panicked => Panicked
          | Ok value_range => intersects value_range base_range
          end
      end
  end.

(** [PkgOpt::to_request]. *)
Definition PkgOpt_to_request (self : PkgOpt) (given_value : option rstr) (requester : RequestedBy) :
    res Er PkgRequest :=
  let value := default [] (PkgOpt_get_value self given_value) in
  let ident_range := if str_is_empty value then po_pkg self else po_pkg self ++ [c_slash] ++ value in
  pkg ← parse_ident_range ident_range;
  let pkg := mkRangeIdent (ri_repository_name pkg) (ri_name pkg) (po_components self)
               (ri_version pkg) (ri_build pkg) in
  match PkgRequest_new pkg requester with
  | Ok r => Ok (with_compat (with_pin (with_inclusion
                  (with_prerelease r (po_prerelease_policy self)) Always) None) (po_required_compat self))
  | _ => Panicked
  end.

(** ** Options of either sort *)

Definition Opt_full_name (self : Opt) : rstr :=
  match self with Opt_Pkg opt => po_pkg opt | Opt_Var opt => vo_var opt end.
Definition Opt_base_name (self : Opt) : rstr :=
  match self with Opt_Pkg opt => po_pkg opt | Opt_Var opt => OptName_base_name (vo_var opt) end.
Definition Opt_namespace (self : Opt) : option rstr :=
  match self with Opt_Pkg opt => Some (po_pkg opt) | Opt_Var opt => OptName_namespace (vo_var opt) end.
Definition Opt_validate (self : Opt) (value : option rstr) : res Empty_set Compatibility :=
  match self with
  | Opt_Pkg opt => PkgOpt_validate opt value
  | Opt_Var opt => Ok (VarOpt_validate opt value)
  end.
Definition Opt_set_value (self : Opt) (value : rstr) : res OptError Opt :=
  match self with
  | Opt_Pkg opt => o ← PkgOpt_set_value opt value; Ok (Opt_Pkg o)
  | Opt_Var opt => o ← VarOpt_set_value opt value; Ok (Opt_Var o)
  end.
Definition Opt_get_value (self : Opt) (given : option rstr) : rstr :=
  let value := match self with
               | Opt_Pkg opt => PkgOpt_get_value opt given
               | Opt_Var opt => VarOpt_get_value opt given
               end in
  match value, given with
  | Some v, _ => v
  | _, Some v => v
  | None, None => []
  end.

(** [Opt::render_all_pins]; [resolved_by_name] looks a package up by name. *)
Definition Opt_render_all_pins {V} `{!Versioned V} (self : Opt) (options : OptionMap)
    (resolved_by_name : rstr -> option V) (require_pkg_in_resolved : bool) : res OptError Opt :=
  match self with
  | Opt_Var opt =>
      let value := match bmap_get (vo_var opt) options with
                   | Some v => Some v
                   | None =>
                       match bmap_get (OptName_without_namespace (vo_var opt)) options with
                       | Some v => Some v
                       | None => VarOpt_get_value opt None
                       end
                   end in
      o ← VarOpt_set_value opt (default [] value); Ok (Opt_Var o)
  | Opt_Pkg opt =>
      match resolved_by_name (po_pkg opt) with
      | None => if require_pkg_in_resolved then Err (PkgOptMissing (po_pkg opt)) else Ok (Opt_Pkg opt)
      | Some resolved =>
          o ← PkgOpt_set_value opt (Compat_render (spec_compat resolved) (spec_version resolved));
          Ok (Opt_Pkg o)
      end
  end.

(** [Opt: TryFrom<RequestWithOptions>]. *)
Definition Opt_try_from (request : RequestWithOptions) : res Empty_set Opt :=
  match request with
  | RequestWithOptions_Pkg r =>
      let request := pkg_request r in
      dflt ← to_version_and_build_string (pr_pkg request);
      Ok (Opt_Pkg (mkPkgOpt (ri_name (pr_pkg request)) (ri_components (pr_pkg request)) dflt
            (pr_prerelease_policy request) (pr_required_compat request) None))
  | RequestWithOptions_Var r =>
      Ok (Opt_Var (mkVarOpt (vr_var r) (vr_value r) [] Weak (vr_description r) None false None))
  end.
End pkg_opt.

(** ** Reading options *)

(** [PkgNameWithComponents] and its reader, on the parsed [RangeIdent]. *)
Record PkgNameWithComponents := mkPkgNameWithComponents {
  pnc_name : rstr;
  pnc_components : list Component;
  pnc_default : option rstr;
}.
Inductive PkgNameError := RepositoryNotSupported | BuildNotSupported.
Definition PkgNameWithComponents_from (range_ident : RangeIdent) : res PkgNameError PkgNameWithComponents :=
  if bool_decide (is_Some (ri_repository_name range_ident)) then Err RepositoryNotSupported
  else if bool_decide (is_Some (ri_build range_ident)) then Err BuildNotSupported
  else
    dflt ← (if VersionFilter_is_empty (ri_version range_ident) then Ok None
            else match VersionRange_fmt false (Range_Filter (ri_version range_ident)) with
                 | Ok s => Ok (Some s)
                 | _ => Panicked
                 end);
    Ok (mkPkgNameWithComponents (ri_name range_ident) (ri_components range_ident) dflt).

(** One entry of the mapping an option is read from. *)
Inductive OptField (Er : Type) :=
| OptField_pkg (v : res Er PkgNameWithComponents)
| OptField_prereleasepolicy (v : res Er PreReleasePolicy)
| OptField_var (v : res Er (rstr * option rstr))
| OptField_choices (v : res Er (list rstr))
| OptField_inheritance (v : res Er Inheritance)
| OptField_default (v : res Er rstr)
| OptField_static (v : res Er rstr)
| OptField_description (v : res Er rstr)
| OptField_compat (v : res Er Compat)
| OptField_required (v : res Er bool)
| OptField_unrecognized (v : res Er unit).
Arguments OptField_pkg {Er} v.
Arguments OptField_prereleasepolicy {Er} v.
Arguments OptField_var {Er} v.
Arguments OptField_choices {Er} v.
Arguments OptField_inheritance {Er} v.
Arguments OptField_default {Er} v.
Arguments OptField_static {Er} v.
Arguments OptField_description {Er} v.
Arguments OptField_compat {Er} v.
Arguments OptField_required {Er} v.
Arguments OptField_unrecognized {Er} v.

Record OptVisitor := mkOptVisitor {
  ov_pkg : option PkgNameWithComponents;
  ov_prerelease_policy : option PreReleasePolicy;
  ov_var : option rstr;
  ov_choices : option (list rstr);
  ov_inheritance : option Inheritance;
  ov_compat : option Compat;
  ov_required : bool;
  ov_default : option rstr;
  ov_value : option rstr;
  ov_description : option rstr;
}.
Definition OptVisitor_default : OptVisitor :=
  mkOptVisitor None None None None None None false None None None.

Inductive OptReadError (Er : Type) :=
| OptValueError (e : Er)
| DefaultTwice
| OptBothPkgAndVar
| OptNeitherPkgNorVar.
Arguments OptValueError {Er} e.
Arguments DefaultTwice {Er}.
Arguments OptBothPkgAndVar {Er}.
Arguments OptNeitherPkgNorVar {Er}.

Definition lift_opt {Er A} (r : res Er A) : res (OptReadError Er) A :=
  match r with Ok a => Ok a | Err e => Err (OptValueError e) | Panicked => Panicked end.

(** [check_existing_default]. *)
Definition check_existing_default {Er} (dflt : option rstr) : res (OptReadError Er) unit :=
  if bool_decide (is_Some dflt) then Err DefaultTwice else Ok tt.

(** Collecting into an [IndexSet]: the first of equal elements is kept. *)
Definition index_set_collect (l : list rstr) : list rstr :=
  foldl (fun s x => if bool_decide (x ∈ s) then s else s ++ [x]) [] l.

(** The body of the loop of [OptVisitor::visit_map]. *)
Definition visit_opt_field {Er} (self : OptVisitor) (f : OptField Er) : res (OptReadError Er) OptVisitor :=
  let 'mkOptVisitor pkg pre var choices inh compat req dflt value desc := self in
  match f with
  | OptField_pkg v =>
      v ← lift_opt v;
      dflt ← (if bool_decide (is_Some (pnc_default v))
              then _ ← check_existing_default dflt; Ok (pnc_default v) else Ok dflt);
      Ok (mkOptVisitor (Some v) pre var choices inh compat req dflt value desc)
  | OptField_prereleasepolicy v =>
      v ← lift_opt v; Ok (mkOptVisitor pkg (Some v) var choices inh compat req dflt value desc)
  | OptField_var v =>
      '(name, v) ← lift_opt v;
      _ ← (if bool_decide (is_Some v) then check_existing_default dflt else Ok tt);
      Ok (mkOptVisitor pkg pre (Some name) choices inh compat req v value desc)
  | OptField_choices v =>
      v ← lift_opt v;
      Ok (mkOptVisitor pkg pre var (Some (index_set_collect v)) inh compat req dflt value desc)
  | OptField_inheritance v =>
      v ← lift_opt v; Ok (mkOptVisitor pkg pre var choices (Some v) compat req dflt value desc)
  | OptField_default v =>
      _ ← check_existing_default dflt;
      v ← lift_opt v; Ok (mkOptVisitor pkg pre var choices inh compat req (Some v) value desc)
  | OptField_static v =>
      v ← lift_opt v; Ok (mkOptVisitor pkg pre var choices inh compat req dflt (Some v) desc)
  | OptField_description v =>
      v ← lift_opt v; Ok (mkOptVisitor pkg pre var choices inh compat req dflt value (Some v))
  | OptField_compat v =>
      v ← lift_opt v; Ok (mkOptVisitor pkg pre var choices inh (Some v) req dflt value desc)
  | OptField_required v =>
      v ← lift_opt v; Ok (mkOptVisitor pkg pre var choices inh compat v dflt value desc)
  | OptField_unrecognized v => _ ← lift_opt v; Ok self
  end.
Fixpoint visit_opt_fields {Er} (self : OptVisitor) (map : list (OptField Er)) :
    res (OptReadError Er) OptVisitor :=
  match map with
  | [] => Ok self
  | f :: map => self ← visit_opt_field self f; visit_opt_fields self map
  end.

(** The final [match]. *)
Definition Opt_from_visitor {Er} (self : OptVisitor) : res (OptReadError Er) Opt :=
  match ov_pkg self, ov_var self with
  | Some pkg, None =>
      Ok (Opt_Pkg (mkPkgOpt (pnc_name pkg) (pnc_components pkg) (default [] (ov_default self))
            (ov_prerelease_policy self) None (ov_value self)))
  | None, Some var =>
      Ok (Opt_Var (mkVarOpt var (default [] (ov_default self)) (default [] (ov_choices self))
            (default Weak (ov_inheritance self)) (ov_description self) (ov_compat self)
            (ov_required self) (ov_value self)))
  | Some _, Some _ => Err OptBothPkgAndVar
  | None, None => Err OptNeitherPkgNorVar
  end.

(** [Deserialize for Opt] on the entries of the mapping. *)
Definition Opt_read {Er} (map : list (OptField Er)) : res (OptReadError Er) Opt :=
  visitor ← visit_opt_fields OptVisitor_default map; Opt_from_visitor visitor.

(** ** Theorems *)

(** The default of a variable option depends on the order of the entries it
    is read from: after [var] the entry [default] is kept, before a [var]
    without a default of its own it is dropped without an error. *)
Theorem opt_var_drops_default {Er} (name dflt : rstr) :
  Opt_read (Er := Er) [OptField_var (Ok (name, None)); OptField_default (Ok dflt)] =
    Ok (Opt_Var (mkVarOpt name dflt [] Weak None None false None)) /\
  Opt_read (Er := Er) [OptField_default (Ok dflt); OptField_var (Ok (name, None))] =
    Ok (Opt_Var (mkVarOpt name [] [] Weak None None false None)).
Proof. done. Qed.

Lemma validate_assigned (o : VarOpt) assigned v :
  vo_value o = Some assigned -> VarOpt_validate o (Some v) = Compatible <-> v = assigned.
Proof.
  unfold VarOpt_validate, VarOpt_validate_given. intros ->. case_bool_decide; naive_solver.
Qed.

(** A value assigned to a variable option is what later reads see: after
    [set_value] of a nonempty value every [get_value] returns it whatever is
    given, validation accepts exactly that value, and the value is one of the
    choices when the option has any. *)
Theorem set_value_wins (self self' : VarOpt) (value : rstr) :
  VarOpt_set_value self value = Ok self' -> value <> [] ->
  (forall given, VarOpt_get_value self' given = Some value) /\
  (forall v, VarOpt_validate self' (Some v) = Compatible <-> v = value) /\
  (vo_choices self' <> [] -> value ∈ vo_choices self').
Proof.
  unfold VarOpt_set_value. intros Hset Hv.
  destruct (_ && _) eqn:Hc in Hset; [done|]. injection Hset as <-. split_and!.
  - intros given. by destruct value.
  - intros v. by apply validate_assigned.
  - change (vo_choices (VarOpt_with_value self (Some value))) with (vo_choices self).
    intros Hch. rewrite bool_decide_eq_false_2 in Hc by done. destruct value; [done|].
    apply negb_false_iff, bool_decide_eq_true in Hc. done.
Qed.
Lemma set_value_wins_witness :
  let o := mkVarOpt (lit "abi") [] [lit "cp37"; lit "cp39"] Weak None None false None in
  forall given, VarOpt_get_value (VarOpt_with_value o (Some (lit "cp39"))) given = Some (lit "cp39").
Proof.
  intros o. apply (set_value_wins o (VarOpt_with_value o (Some (lit "cp39"))) (lit "cp39"));
    [by vm_compute|done].
Defined.
