(* ===== verification/Requirements.v ===== *)
(** * Requirements lists

    Models crates/spk-schema/src/requirements_list.rs: the list of the requests
    a package makes, at most one under a name, which are merged when they are
    inserted, pinned when the package is built, and given the options in scope
    when they are handed to the solver.  [insert_or_merge_pinnable], [_pinned]
    and [_with_options] are [insert_or_merge] at the three sorts of request,
    through the class [Restrictable]. *)

From stdpp Require Import gmap.
From S2P Require Import Prelude Strings Collections Names Version VersionOrder.
From S2P Require Import Compat RangeData Reasons CompatCheck Intersection VersionRange.
From S2P Require Import Components Options Idents Requests Opts.

(** ** Lists of named requests *)

Section named.
Context {R : Type} `{!Named R}.
Implicit Types self : list R.

Definition requirements_get self (name : rstr) : option R :=
  List.find (fun r => bool_decide (request_name r = name)) self.

(** [insert_or_replace]: the replaced request and the list afterwards; the new
    request is a [Named] that converts to the list's sort. *)
Fixpoint insert_or_replace {R2} `{!Named R2} (into : R2 -> R) (request : R2) self : option R * list R :=
  match self with
  | [] => (None, [into request])
  | existing :: self =>
      if bool_decide (request_name existing = request_name request)
      then (Some existing, into request :: self)
      else let '(replaced, self) := insert_or_replace into request self in (replaced, existing :: self)
  end.

Definition remove_all (name : rstr) self : list R :=
  filter (fun existing => request_name existing <> name) self.
End named.

(** ** Inserting or merging *)

(** [restrict], for two requests for packages: the outcome and the request
    afterwards; [None] when one of the two is of another sort. *)
Class Restrictable (R : Type) :=
  try_restrict : R -> R -> option (res Empty_set (Compatibility * R)).

Inductive RequirementsError :=
| CannotInsert (reason : IncompatibleReason)
| AlreadyExists (name : rstr)
| PackageNotPresent (name : rstr)
| VariableNotSet (var : rstr)
| PinError (e : RequestError).

Section insert_or_merge.
Context {R : Type} `{!Named R, !Restrictable R}.
Implicit Types self : list R.

(** The outcome and the list afterwards; a request that fails to merge stays as
    far as it was restricted. *)
Fixpoint insert_or_merge (request : R) self : res Empty_set (option RequirementsError * list R) :=
  match self with
  | [] => Ok (None, [request])
  | existing :: self =>
      if negb (bool_decide (request_name existing = request_name request)) then
        '(outcome, self) ← insert_or_merge request self; Ok (outcome, existing :: self)
      else
        match try_restrict existing request with
        | Some restricted =>
            '(compat, existing) ← restricted;
            match compat with
            | Incompatible incompatible => Ok (Some (CannotInsert incompatible), existing :: self)
            | Compatible => Ok (None, existing :: self)
            end
        | None => Ok (Some (AlreadyExists (request_name request)), existing :: self)
        end
  end.

(** [try_from_iter]. *)
Definition try_from_iter_step (out : res RequirementsError (list R)) (item : R) :
    res RequirementsError (list R) :=
  out ← out;
  match insert_or_merge item out with
  | Ok (None, out) => Ok out
  | Ok (Some e, _) => Err e
  | Err e => match e with end
  | Panicked => Panicked
  end.
Definition try_from_iter (value : list R) : res RequirementsError (list R) :=
  foldl try_from_iter_step (Ok []) value.
End insert_or_merge.

Section merge_instances.
Context (permutations2 : forall A : Type, list A -> list (A * A)).

Definition Restrictable_PinnableRequest : Restrictable PinnableRequest := fun existing request =>
  match existing, request with
  | PinnableRequest_Pkg existing, PinnableRequest_Pkg request =>
      Some ('(c, r) ← PkgRequest_restrict permutations2 existing request; Ok (c, PinnableRequest_Pkg r))
  | _, _ => None
  end.
Definition Restrictable_PinnedRequest : Restrictable PinnedRequest := fun existing request =>
  match existing, request with
  | PinnedRequest_Pkg existing, PinnedRequest_Pkg request =>
      Some ('(c, r) ← PkgRequest_restrict permutations2 existing request; Ok (c, PinnedRequest_Pkg r))
  | _, _ => None
  end.
Definition Restrictable_RequestWithOptions : Restrictable RequestWithOptions := fun existing request =>
  match existing, request with
  | RequestWithOptions_Pkg existing, RequestWithOptions_Pkg request =>
      Some ('(c, r) ← PkgRequestWithOptions_restrict permutations2 existing request;
            Ok (c, RequestWithOptions_Pkg r))
  | _, _ => None
  end.
Definition insert_or_merge_pinnable := insert_or_merge (Restrictable0 := Restrictable_PinnableRequest).
Definition insert_or_merge_pinned := insert_or_merge (Restrictable0 := Restrictable_PinnedRequest).
Definition insert_or_merge_with_options :=
  insert_or_merge (Restrictable0 := Restrictable_RequestWithOptions).
End merge_instances.

(** ** Containment *)

(** The two [contains_request].  The second component of the loop's state is the
    global variable request seen last. *)
Fixpoint contains_request_loop {R} (as_pkg : R -> option PkgRequest) (as_var : R -> option (VarRequest PinnedValue))
    (self : list R) (theirs : RequestWithOptions) (global_opt_request : option Compatibility) :
    res Empty_set Compatibility :=
  match self with
  | [] =>
      match global_opt_request with
      | Some compat => Ok compat
      | None => Ok (Incompatible (RequirementsNotSuperset (request_name theirs)))
      end
  | ours :: self =>
      let continue := contains_request_loop as_pkg as_var self theirs in
      match theirs with
      | RequestWithOptions_Pkg theirs =>
          match as_pkg ours with
          | Some ours =>
              if bool_decide (ri_name (pr_pkg ours) = ri_name (pr_pkg (pkg_request theirs)))
              then PkgRequest_contains ours (pkg_request theirs)
              else continue global_opt_request
          | None => continue global_opt_request
          end
      | RequestWithOptions_Var theirs =>
          match as_var ours with
          | Some ours =>
              if bool_decide (vr_var ours = vr_var theirs) then Ok (VarRequest_pinned_contains ours theirs)
              else if bool_decide (is_Some (OptName_namespace (vr_var theirs))) &&
                      bool_decide (vr_var ours = OptName_base_name (vr_var theirs))
              then continue (Some (VarRequest_pinned_contains ours theirs))
              else continue global_opt_request
          | None => continue global_opt_request
          end
      end
  end.
Definition contains_request_pinned (self : list PinnedRequest) (theirs : RequestWithOptions) :=
  contains_request_loop
    (fun r => match r with PinnedRequest_Pkg r => Some r | _ => None end)
    (fun r => match r with PinnedRequest_Var r => Some r | _ => None end) self theirs None.
Definition contains_request (self : list RequestWithOptions) (theirs : RequestWithOptions) :=
  contains_request_loop
    (fun r => match r with RequestWithOptions_Pkg r => Some (pkg_request r) | _ => None end)
    (fun r => match r with RequestWithOptions_Var r => Some r | _ => None end) self theirs None.

(** ** Pinning *)

Section render_all_pins.
Variable VersionFilter_from_str : rstr -> res RangeError (list VersionRange).

Definition pin_error {A} (r : res RequestError A) : res RequirementsError A :=
  match r with Ok a => Ok a | Err e => Err (PinError e) | Panicked => Panicked end.

Definition render_pkg_pin (resolved_by_name : gmap rstr BuildIdent) (pkg_request : PkgRequest) :
    option (res RequirementsError PinnedRequest) :=
  let if_present := bool_decide (pr_pin_policy pkg_request = IfPresentInBuildEnv) in
  match resolved_by_name !! ri_name (pr_pkg pkg_request), pr_pin pkg_request with
  | None, None => if if_present then None else Some (Ok (PinnedRequest_Pkg pkg_request))
  | Some _, None => Some (Ok (PinnedRequest_Pkg pkg_request))
  | None, Some _ =>
      if if_present then None else Some (Err (PackageNotPresent (ri_name (pr_pkg pkg_request))))
  | Some resolved, Some _ =>
      Some (PinnedRequest_Pkg <$> pin_error (render_pin VersionFilter_from_str pkg_request resolved))
  end.
Definition render_var_pin (options : OptionMap) (var_request : VarRequest PinnableValue) :
    option (res RequirementsError PinnedRequest) :=
  match vr_value var_request with
  | Pinned value => Some (Ok (PinnedRequest_Var (mkVarRequest (vr_var var_request) value (vr_description var_request))))
  | _ =>
      let opts := match OptName_namespace (vr_var var_request) with
                  | Some ns => package_options options ns
                  | None => options
                  end in
      match bmap_get (OptName_without_namespace (vr_var var_request)) opts with
      | None =>
          if PinnableValue_is_from_build_env_if_present (vr_value var_request) then None
          else Some (Err (VariableNotSet (vr_var var_request)))
      | Some opt => Some (PinnedRequest_Var <$> pin_error (VarRequest_render_pin var_request opt))
      end
  end.
Definition render_request_pin (options : OptionMap) (resolved_by_name : gmap rstr BuildIdent)
    (request : PinnableRequest) : option (res RequirementsError PinnedRequest) :=
  match request with
  | PinnableRequest_Pkg r => render_pkg_pin resolved_by_name r
  | PinnableRequest_Var r => render_var_pin options r
  | PinnableRequest_Suppress _ _ => None
  end.

(** [render_all_pins]: the rendered requests up to the first error. *)
Fixpoint render_all_pins (self : list PinnableRequest) (options : OptionMap)
    (resolved_by_name : gmap rstr BuildIdent) : res RequirementsError (list PinnedRequest) :=
  match self with
  | [] => Ok []
  | request :: self =>
      match render_request_pin options resolved_by_name request with
      | None => render_all_pins self options resolved_by_name
      | Some rendered =>
          r ← rendered; rs ← render_all_pins self options resolved_by_name; Ok (r :: rs)
      end
  end.
End render_all_pins.

(** ** Reading *)

(** What [next_element] and then [from_value] give for an entry. *)
Inductive SeqEntry (Er R : Type) :=
| EntryError (e : Er)
| EntryValue (r : res Er R).
Arguments EntryError {Er R} e.
Arguments EntryValue {Er R} r.
Inductive ListReadError (Er : Type) :=
| SequenceError (e : Er)
| DuplicateRequest (name : rstr)
| RequestReadError (e : Er).
Arguments SequenceError {Er} e.
Arguments DuplicateRequest {Er} name.
Arguments RequestReadError {Er} e.

Section visit_seq.
Context {Er R : Type} `{!Named R}.
(** The text of an error. *)
Variable err_msg : Er -> rstr.

(** Old packages hold pinned variables without a value, which are skipped. *)
Definition tolerated (e : Er) : bool :=
  str_contains_str (lit "expected a value for a pinned var request") (err_msg e) ||
  str_contains_str (lit "a pinned var request must include a non-empty value") (err_msg e).

(** [RequirementsListVisitor::visit_seq]; [requirement_names] is a set. *)
Fixpoint visit_requirements (seq : list (SeqEntry Er R)) (requirement_names : list rstr)
    (requirements : list R) : res (ListReadError Er) (list R) :=
  match seq with
  | [] => Ok requirements
  | EntryError e :: _ => Err (SequenceError e)
  | EntryValue value :: seq =>
      match value with
      | Ok request =>
          let name := request_name request in
          if bool_decide (name ∈ requirement_names) then Err (DuplicateRequest name)
          else visit_requirements seq (name :: requirement_names) (requirements ++ [request])
      | Err err =>
          if tolerated err then visit_requirements seq requirement_names requirements
          else Err (RequestReadError err)
      | Panicked => Panicked
      end
  end.
Definition RequirementsList_read (seq : list (SeqEntry Er R)) : res (ListReadError Er) (list R) :=
  visit_requirements seq [] [].
End visit_seq.

(** ** Conversions *)

Definition RequirementsList_from_pinned (value : list PinnedRequest) : list PinnableRequest :=
  PinnableRequest_from_pinned <$> value.
Definition RequirementsList_forget_options (value : list RequestWithOptions) : list PinnedRequest :=
  PinnedRequest_from_with_options <$> value.
(** [TryFrom<RequirementsList>]. *)
Fixpoint RequirementsList_try_pinned (requirements : list PinnableRequest) :
    res RequirementsError (list PinnedRequest) :=
  match requirements with
  | [] => Ok []
  | req :: requirements =>
      r ← pin_error (PinnedRequest_try_from req);
      rs ← RequirementsList_try_pinned requirements;
      Ok (r :: rs)
  end.

(** [AsOptNameAndValue for &Opt]. *)
Definition as_opt_name_and_value (self : Opt) : option (rstr * rstr) :=
  match self with
  | Opt_Pkg _ => None
  | Opt_Var var_opt => pair (vo_var var_opt) <$> VarOpt_get_value var_opt None
  end.

(** The index of [convert_requests_to_requests_with_options]: by namespace, the
    options in it.  A name with two values reaches a [todo!]. *)
Abbreviation OptionIndex := (gmap rstr PkgRequestOptions).
Definition index_option (index : OptionIndex) (opt : rstr * rstr) : res Empty_set OptionIndex :=
  let '(opt_name, value) := opt in
  match OptName_namespace opt_name with
  | None => Ok index
  | Some ns =>
      let options := default [] (index !! ns) in
      match bmap_get opt_name options with
      | None => Ok (<[ns := bmap_insert opt_name (Complete value) options]> index)
      | Some present =>
          if bool_decide (option_value present = value) then Ok (<[ns := options]> index) else Panicked
      end
  end.
Fixpoint index_options (opts : list (rstr * rstr)) (index : OptionIndex) : res Empty_set OptionIndex :=
  match opts with
  | [] => Ok index
  | opt :: opts => index ← index_option index opt; index_options opts index
  end.
(** The variable requests go through the same steps. *)
Definition var_requests (requirements : list PinnedRequest) : list (rstr * rstr) :=
  omap (fun req => match req with
                   | PinnedRequest_Pkg _ => None
                   | PinnedRequest_Var r => Some (vr_var r, vr_value r)
                   end) requirements.
Definition request_with_indexed_options (index : OptionIndex) (req : PinnedRequest) : RequestWithOptions :=
  match req with
  | PinnedRequest_Pkg pkg_req =>
      RequestWithOptions_Pkg (mkPkgRequestWithOptions pkg_req (default [] (index !! ri_name (pr_pkg pkg_req))))
  | PinnedRequest_Var var_req => RequestWithOptions_Var var_req
  end.
Definition convert_requests_to_requests_with_options (options : list (rstr * rstr))
    (requirements : list PinnedRequest) : res Empty_set (list RequestWithOptions) :=
  index ← index_options options ∅;
  index ← index_options (var_requests requirements) index;
  Ok (request_with_indexed_options index <$> requirements).
(** [From<(I, &RequirementsList<PinnedRequest>)>] for build options, and without
    options in scope. *)
Definition RequirementsList_with_options (options : list Opt) (requirements : list PinnedRequest) :=
  convert_requests_to_requests_with_options (omap as_opt_name_and_value options) requirements.
Definition RequirementsList_without_options (requirements : list PinnedRequest) :=
  convert_requests_to_requests_with_options [] requirements.

(** ** Lemmas *)

Definition unique_names {R} `{!Named R} (rs : list R) : Prop := NoDup (request_name <$> rs).

Section named_facts.
Context {R : Type} `{!Named R}.
Implicit Types self : list R.

Lemma names_insert_or_replace {R2} `{!Named R2} (into : R2 -> R) request self :
  request_name (into request) = request_name request ->
  request_name <$> (insert_or_replace into request self).2 =
  if decide (request_name request ∈ request_name <$> self) then request_name <$> self
  else (request_name <$> self) ++ [request_name request].
Proof.
  intros Hinto. induction self as [|x self IH].
  - rewrite decide_False by (simpl; set_solver). cbn. by rewrite Hinto.
  - cbn [insert_or_replace]. rewrite fmap_cons. case_bool_decide as Hx.
    + rewrite decide_True by (rewrite Hx; set_solver). cbn [snd]. by rewrite fmap_cons, Hinto, Hx.
    + destruct (insert_or_replace into request self) as [o self']. cbn [snd] in *.
      rewrite fmap_cons, IH. destruct (decide (request_name request ∈ request_name <$> self)) as [Hin|Hin].
      * by rewrite decide_True by (by right).
      * by rewrite decide_False by (intros [?|?]%elem_of_cons; congruence).
Qed.

Lemma unique_snoc (names : list rstr) name :
  NoDup names -> NoDup (if decide (name ∈ names) then names else names ++ [name]).
Proof.
  intros Hn. destruct (decide (name ∈ names)); [done|]. apply NoDup_app.
  split_and!; [done| |apply NoDup_singleton]. intros x Hx ->%list_elem_of_singleton. done.
Qed.

Lemma unique_remove_all name self : unique_names self -> unique_names (remove_all name self).
Proof.
  unfold unique_names, remove_all. intros Hs. eapply sublist_NoDup; [exact Hs|].
  apply fmap_sublist, sublist_filter.
Qed.
End named_facts.

(** [restrict] never renames a request. *)
Class RestrictKeepsName (R : Type) `{!Named R, !Restrictable R} : Prop :=
  restrict_keeps_name (a b m : R) c :
    try_restrict a b = Some (Ok (c, m)) -> request_name m = request_name a.

Lemma RangeIdent_restrict_name p2 a b mode c m :
  RangeIdent_restrict p2 a b mode = Ok (c, m) -> ri_name m = ri_name a.
Proof.
  unfold RangeIdent_restrict. destruct (restrict_repository _ _); [|by intros [= _ <-]].
  intros ([[] version] & _ & H)%bind_Ok; [|by injection H as _ <-].
  destruct (negb _); [by injection H as _ <-|].
  destruct (opt_Build_eq _ _ || _); [by injection H as _ <-|].
  apply bind_Ok in H as (s1 & _ & (s2 & _ & [= _ <-])%bind_Ok). done.
Qed.
Lemma PkgRequest_restrict_name p2 a b c m :
  PkgRequest_restrict p2 a b = Ok (c, m) -> ri_name (pr_pkg m) = ri_name (pr_pkg a).
Proof.
  unfold PkgRequest_restrict. intros ([c' pkg] & H%RangeIdent_restrict_name & [= _ <-])%bind_Ok. done.
Qed.

Lemma restrict_with_options_name p2 a b c m :
  PkgRequestWithOptions_restrict p2 a b = Ok (c, m) ->
  ri_name (pr_pkg (pkg_request m)) = ri_name (pr_pkg (pkg_request a)).
Proof.
  unfold PkgRequestWithOptions_restrict. intros ([c' r] & H%PkgRequest_restrict_name & Hm)%bind_Ok.
  destruct (negb _); [by injection Hm as _ <-|]. destruct (merge_options _ _). by injection Hm as _ <-.
Qed.

Lemma RestrictKeepsName_PinnableRequest p2 :
  RestrictKeepsName PinnableRequest (Restrictable0 := Restrictable_PinnableRequest p2).
Proof.
  intros [a| |] [b| |] m c; try done. intros [= ([c' r] & H & [= _ <-])%bind_Ok].
  by eapply PkgRequest_restrict_name.
Qed.
Lemma RestrictKeepsName_PinnedRequest p2 :
  RestrictKeepsName PinnedRequest (Restrictable0 := Restrictable_PinnedRequest p2).
Proof.
  intros [a|] [b|] m c; try done. intros [= ([c' r] & H & [= _ <-])%bind_Ok].
  by eapply PkgRequest_restrict_name.
Qed.
Lemma RestrictKeepsName_RequestWithOptions p2 :
  RestrictKeepsName RequestWithOptions (Restrictable0 := Restrictable_RequestWithOptions p2).
Proof.
  intros [a|] [b|] m c; try done. intros [= ([c' r] & H & [= _ <-])%bind_Ok].
  by eapply restrict_with_options_name.
Qed.

Section insert_or_merge_facts.
Context {R : Type} `{!Named R, !Restrictable R, !RestrictKeepsName R}.
Implicit Types self : list R.

Lemma names_insert_or_merge request self o self' :
  insert_or_merge request self = Ok (o, self') ->
  request_name <$> self' =
  if decide (request_name request ∈ request_name <$> self) then request_name <$> self
  else (request_name <$> self) ++ [request_name request].
Proof.
  revert o self'. induction self as [|x self IH]; intros o self'.
  - intros [= <- <-]. by rewrite decide_False by (simpl; set_solver).
  - cbn [insert_or_merge]. rewrite fmap_cons. case_bool_decide as Hx; cbn [negb].
    + rewrite decide_True by (rewrite Hx; set_solver).
      destruct (try_restrict x request) as [r|] eqn:Er; [|by intros [= _ <-]].
      intros ([c m] & -> & Hm)%bind_Ok. apply restrict_keeps_name in Er.
      destruct c; injection Hm as _ <-; by rewrite fmap_cons, Er.
    + intros ([o1 s1] & H%IH & [= _ <-])%bind_Ok. rewrite fmap_cons, H.
      destruct (decide (request_name request ∈ request_name <$> self)) as [Hin|Hin].
      * by rewrite decide_True by (by right).
      * by rewrite decide_False by (intros [?|?]%elem_of_cons; congruence).
Qed.

Lemma unique_insert_or_merge request self o self' :
  unique_names self -> insert_or_merge request self = Ok (o, self') -> unique_names self'.
Proof.
  unfold unique_names. intros Hs H%names_insert_or_merge. rewrite H. by apply unique_snoc.
Qed.

Lemma unique_try_from_iter value out : try_from_iter value = Ok out -> unique_names out.
Proof.
  unfold try_from_iter. enough (forall acc, (forall o, acc = Ok o -> unique_names o) ->
    foldl try_from_iter_step acc value = Ok out -> unique_names out) as H.
  { apply H. intros o [= <-]. constructor. }
  induction value as [|x value IH]; intros acc Hacc; [by apply Hacc|].
  cbn [foldl]. apply IH. intros o. destruct acc as [a| |]; try done.
  unfold try_from_iter_step. cbn [mbind res_bind].
  destruct (insert_or_merge x a) as [[[] ?]|[]|] eqn:E; try done. intros [= <-].
  eapply unique_insert_or_merge, E. by apply Hacc.
Qed.
End insert_or_merge_facts.

Section visit_facts.
Context {Er R : Type} `{!Named R} (err_msg : Er -> rstr).

Definition readable (value : res Er R) : Prop :=
  match value with Ok _ => True | Err e => tolerated err_msg e = true | Panicked => False end.

Lemma visit_requirements_Ok seq names reqs out :
  visit_requirements err_msg seq names reqs = Ok out <->
  exists values, seq = EntryValue <$> values /\ Forall readable values /\
    out = reqs ++ omap res_ok values /\
    NoDup (request_name <$> omap res_ok values) /\
    Forall (fun n => n ∉ names) (request_name <$> omap res_ok values).
Proof.
  revert names reqs. induction seq as [|[e|[r|e|]] seq IH]; intros names reqs; cbn [visit_requirements].
  - split.
    + intros [= <-]. exists []. cbn. rewrite app_nil_r. split_and!; constructor.
    + intros ([|] & Hs & _ & -> & _); [|done]. cbn. by rewrite app_nil_r.
  - split; [done|]. by intros ([|] & ? & _).
  - case_bool_decide as Hin.
    + split; [done|]. intros ([|v values] & Hs & _ & _ & _ & Hall); [done|].
      injection Hs as <- ->. cbn in Hall. by apply Forall_cons in Hall as [? _].
    + rewrite IH. split.
      * intros (values & -> & Hr & -> & Hnd & Hall). exists (Ok r :: values). cbn.
        rewrite Forall_forall in Hall. split_and!; [done|by constructor|by rewrite <-app_assoc| |].
        -- constructor; [|done]. intros Hn. apply (Hall _ Hn). by left.
        -- constructor; [done|]. apply Forall_forall. intros n Hn Hn'. apply (Hall _ Hn). by right.
      * intros ([|v values] & Hs & Hr & -> & Hnd & Hall); [done|]. injection Hs as <- ->.
        cbn in Hnd, Hall |- *. apply NoDup_cons in Hnd as [Hr' Hnd]. apply Forall_cons in Hall as [_ Hall].
        exists values. rewrite <-app_assoc. apply Forall_cons in Hr as [_ Hr]. split_and!; try done.
        rewrite Forall_forall in *. intros n Hn [->|Hn']%elem_of_cons; [done|]. by apply (Hall n).
  - destruct (tolerated err_msg e) eqn:Et.
    + rewrite IH. split.
      * intros (values & -> & Hr & ?). exists (Err e :: values). split; [done|]. split; [by constructor|done].
      * intros ([|v values] & Hs & Hr & ?); [done|]. injection Hs as <- ->. exists values.
        split; [done|]. split; [by apply Forall_cons in Hr as [_ ?]|done].
    + split; [done|]. intros ([|v values] & Hs & Hr & _); [done|]. injection Hs as <- ->.
      apply Forall_cons in Hr as [Hr _]. cbn in Hr. congruence.
  - split; [done|]. intros ([|v values] & Hs & Hr & _); [done|]. injection Hs as <- ->.
    by apply Forall_cons in Hr as [Hr _].
Qed.
End visit_facts.

Section index_facts.
Implicit Types (index : OptionIndex) (opts : list (rstr * rstr)).

Definition options_in index (ns : rstr) : PkgRequestOptions := default [] (index !! ns).

Lemma options_in_insert_eq index ns o : options_in (<[ns := o]> index) ns = o.
Proof. unfold options_in. by rewrite lookup_insert_eq. Qed.
Lemma options_in_insert_ne index ns ns' o :
  ns <> ns' -> options_in (<[ns := o]> index) ns' = options_in index ns'.
Proof. intros Hne. unfold options_in. by rewrite lookup_insert_ne. Qed.

(** The index of some options: well formed, everything in it complete and in its
    namespace, and nothing in it but those options. *)
Definition indexes index opts : Prop :=
  forall ns, bmap_wf (options_in index ns) /\
    forall n x, bmap_get n (options_in index ns) = Some x <->
      exists v, x = Complete v /\ (n, v) ∈ opts /\ OptName_namespace n = Some ns.

Lemma indexes_cons index opts opt :
  OptName_namespace opt.1 = None -> indexes index opts -> indexes index (opt :: opts).
Proof.
  intros Hopt Hi ns. destruct (Hi ns) as [Hwf Hget]. split; [done|]. intros n x. rewrite Hget.
  split; intros (v & -> & Hin & Hns); exists v; split_and!; try done; [by right|].
  apply elem_of_cons in Hin as [<-|?]; [|done]. cbn [fst] in Hopt. congruence.
Qed.

Lemma index_option_spec index opts n v :
  indexes index opts ->
  match index_option index (n, v) with
  | Ok index' => indexes index' ((n, v) :: opts)
  | Err _ => False
  | Panicked => is_Some (OptName_namespace n) /\ exists w, (n, w) ∈ opts /\ v <> w
  end.
Proof.
  intros Hi. unfold index_option. cbv zeta. destruct (OptName_namespace n) as [ns|] eqn:Ens.
  2: by apply indexes_cons.
  change (default [] (index !! ns)) with (options_in index ns).
  destruct (Hi ns) as [Hwf Hget].
  destruct (bmap_get n (options_in index ns)) as [x|] eqn:Ex.
  - apply Hget in Ex as Hx. destruct Hx as (w & -> & Hin & _). cbn [option_value].
    case_bool_decide as Hw; [subst w|split; [by eexists|]; exists w; split; [done|congruence]].
    intros ns'. destruct (decide (ns = ns')) as [<-|Hne].
    + rewrite options_in_insert_eq. split; [done|]. intros n' x. rewrite Hget.
      split; intros (u & -> & Hu & Hns'); exists u; split_and!; try done; [by right|].
      apply elem_of_cons in Hu as [[= -> ->]|?]; done.
    + rewrite options_in_insert_ne by done. destruct (Hi ns') as [Hwf' Hget']. split; [done|].
      intros n' x. rewrite Hget'. split; intros (u & -> & Hu & Hns'); exists u; split_and!; try done; [by right|].
      apply elem_of_cons in Hu as [[= -> ->]|?]; [congruence|done].
  - assert (forall u, (n, u) ∉ opts) as Hno.
    { intros u Hu. assert (bmap_get n (options_in index ns) = Some (Complete u)); [|congruence].
      apply Hget. eauto. }
    intros ns'. destruct (decide (ns = ns')) as [<-|Hne].
    + rewrite options_in_insert_eq. split; [by apply bmap_insert_wf|]. intros n' x.
      destruct (decide (n' = n)) as [->|Hn].
      * rewrite bmap_get_insert_eq by done. split.
        -- intros [= <-]. exists v. split_and!; [done|by left|done].
        -- intros (u & -> & [[= ->]|Hu]%elem_of_cons & _); [done|by destruct (Hno u)].
      * rewrite bmap_get_insert_ne, Hget by done.
        split; intros (u & -> & Hu & Hns'); exists u; split_and!; try done; [by right|].
        apply elem_of_cons in Hu as [[= -> ->]|?]; done.
    + rewrite options_in_insert_ne by done. destruct (Hi ns') as [Hwf' Hget']. split; [done|].
      intros n' x. rewrite Hget'. split; intros (u & -> & Hu & Hns'); exists u; split_and!; try done; [by right|].
      apply elem_of_cons in Hu as [[= -> ->]|?]; [congruence|done].
Qed.

Lemma index_options_spec index opts before :
  indexes index before ->
  match index_options opts index with
  | Ok index' => indexes index' (reverse opts ++ before) /\
      forall n v w, (n, v) ∈ opts -> (n, w) ∈ opts ++ before -> is_Some (OptName_namespace n) -> v = w
  | Err _ => False
  | Panicked => exists n v w, is_Some (OptName_namespace n) /\
      (n, v) ∈ opts /\ (n, w) ∈ opts ++ before /\ v <> w
  end.
Proof.
  revert index before. induction opts as [|[n v] opts IH]; intros index before Hi.
  { cbn. split; [done|set_solver]. }
  cbn [index_options]. pose proof (index_option_spec index before n v Hi) as Hstep.
  destruct (index_option index (n, v)) as [index'| |]; cbn [mbind res_bind]; [|done|].
  2: { destruct Hstep as (Hns & w & Hw & Hne). exists n, v, w. split_and!; [done|by left| |done].
       apply elem_of_app. by right. }
  specialize (IH index' _ Hstep). destruct (index_options opts index') as [index''| |]; [|done|].
  2: { destruct IH as (n' & v' & w' & Hns & Hv & Hw & Hne). exists n', v', w'. set_solver. }
  rewrite reverse_cons, <-app_assoc. destruct IH as [IH Hsame]. split; [exact IH|].
  intros n' v' w' [[= -> ->]|Hv]%elem_of_cons Hw Hns.
  - destruct Hns as [ns Hns]. destruct (IH ns) as [_ Hget].
    assert (bmap_get n (options_in index'' ns) = Some (Complete v)) as H1 by (apply Hget; set_solver).
    assert (bmap_get n (options_in index'' ns) = Some (Complete w')) as H2 by (apply Hget; set_solver).
    congruence.
  - apply (Hsame n'); set_solver.
Qed.

Lemma indexes_empty : indexes ∅ [].
Proof.
  intros ns. unfold options_in. rewrite lookup_empty. split; [constructor|]. intros n x. cbn.
  split; [done|]. intros (v & _ & Hv & _). set_solver.
Qed.

(** Both loops. *)
Lemma index_both_spec options requirements :
  let opts := options ++ var_requests requirements in
  match (index ← index_options options ∅; index_options (var_requests requirements) index) with
  | Ok index => indexes index opts /\
      forall n v w, (n, v) ∈ opts -> (n, w) ∈ opts -> is_Some (OptName_namespace n) -> v = w
  | Err _ => False
  | Panicked => exists n v w, is_Some (OptName_namespace n) /\ (n, v) ∈ opts /\ (n, w) ∈ opts /\ v <> w
  end.
Proof.
  intros opts. pose proof (index_options_spec ∅ options [] indexes_empty) as H1.
  destruct (index_options options ∅) as [index| |]; cbn [mbind res_bind]; [|done|].
  2: { destruct H1 as (n & v & w & Hns & Hv & Hw & Hne). exists n, v, w. subst opts. set_solver. }
  destruct H1 as [Hi _].
  pose proof (index_options_spec index (var_requests requirements) _ Hi) as H2.
  assert (forall p : rstr * rstr, p ∈ var_requests requirements ++ reverse options ++ [] <-> p ∈ opts) as Hin.
  { intros p. subst opts. rewrite app_nil_r, !elem_of_app, elem_of_reverse. tauto. }
  destruct (index_options _ index) as [index'| |]; [|done|].
  2: { destruct H2 as (n & v & w & Hns & Hv & Hw & Hne). exists n, v, w. rewrite <-!Hin. set_solver. }
  destruct H2 as [Hi' _].
  assert (indexes index' opts) as Hall.
  { intros ns. destruct (Hi' ns) as [Hwf Hget]. split; [done|]. intros n x. rewrite Hget.
    setoid_rewrite <-Hin. setoid_rewrite elem_of_app. by setoid_rewrite elem_of_reverse. }
  split; [done|]. intros n v w Hv Hw [ns Hns]. destruct (Hall ns) as [_ Hget].
  assert (Some (Complete v) = Some (Complete w)) as [= ->]; [|done].
  transitivity (bmap_get n (options_in index' ns)); [symmetry|]; apply Hget; eauto.
Qed.
End index_facts.

(** ** Theorems *)

(** C34: at most one request under a name, the type of a requirements list: the
    reader only returns such lists, as do [try_from_iter] and every operation
    on one, also the merge that fails. *)
Theorem requirements_unique {R Er : Type} `{!Named R, !Restrictable R, !RestrictKeepsName R}
    (err_msg : Er -> rstr) (self : list R) :
  unique_names self ->
  (forall request, unique_names (insert_or_replace id request self).2) /\
  (forall name, unique_names (remove_all name self)) /\
  (forall request o self', insert_or_merge request self = Ok (o, self') -> unique_names self') /\
  (forall value out, try_from_iter value = Ok out -> unique_names out) /\
  (forall seq out, RequirementsList_read (R := R) err_msg seq = Ok out -> unique_names out).
Proof.
  intros Hs. split_and!.
  - intros request. unfold unique_names. rewrite names_insert_or_replace by done. by apply unique_snoc.
  - intros name. by apply unique_remove_all.
  - intros request o self'. by apply unique_insert_or_merge.
  - intros value out. apply unique_try_from_iter.
  - intros seq out (values & _ & _ & -> & Hnd & _)%visit_requirements_Ok. exact Hnd.
Qed.

Definition example_var (name value : rstr) : PinnedRequest := PinnedRequest_Var (mkVarRequest name value None).

Lemma requirements_unique_witness :
  unique_names (remove_all (lit "os") [example_var (lit "os") (lit "linux"); example_var (lit "arch") (lit "x86")]).
Proof.
  pose proof (RestrictKeepsName_PinnedRequest (fun _ _ => [])) as HR.
  refine (proj1 (proj2 (@requirements_unique PinnedRequest rstr _ _ HR id
    [example_var (lit "os") (lit "linux"); example_var (lit "arch") (lit "x86")] _)) (lit "os")).
  repeat constructor; set_solver.
Defined.

(** Reading a requirements list succeeds exactly when every entry can be
    read, or is a pinned variable without a value as old versions wrote, and no
    two entries read have one name; the list is then the entries read, in
    order. *)
Theorem requirements_read_exact {Er R : Type} `{!Named R} (err_msg : Er -> rstr) seq (out : list R) :
  RequirementsList_read err_msg seq = Ok out <->
  exists values, seq = EntryValue <$> values /\ Forall (readable err_msg) values /\
    out = omap res_ok values /\ unique_names out.
Proof.
  unfold RequirementsList_read. rewrite visit_requirements_Ok. split.
  - intros (values & -> & Hr & -> & Hnd & _). by exists values.
  - intros (values & -> & Hr & -> & Hnd). exists values. split_and!; try done.
    apply Forall_forall. intros n _. apply not_elem_of_nil.
Qed.

(** The options in scope of each package request.  The conversion returns
    unless a namespaced option is given two values, when it reaches a [todo!];
    the requests then keep their order and their contents, and every package
    request has exactly the options and variable requests in its namespace, all
    of them complete. *)
Theorem options_in_scope_exact options requirements :
  let opts := options ++ var_requests requirements in
  (convert_requests_to_requests_with_options options requirements = Panicked <->
     exists n v w, is_Some (OptName_namespace n) /\ (n, v) ∈ opts /\ (n, w) ∈ opts /\ v <> w) /\
  forall out, convert_requests_to_requests_with_options options requirements = Ok out ->
    PinnedRequest_from_with_options <$> out = requirements /\
    forall r, RequestWithOptions_Pkg r ∈ out ->
      forall n x, bmap_get n (pro_options r) = Some x <->
        exists v, x = Complete v /\ (n, v) ∈ opts /\
          OptName_namespace n = Some (ri_name (pr_pkg (pkg_request r))).
Proof.
  intros opts. pose proof (index_both_spec options requirements) as H. fold opts in H.
  unfold convert_requests_to_requests_with_options.
  assert (forall X Y : Type, forall (r : res Empty_set X) (f : X -> res Empty_set X) (g : X -> Y),
    (a ← r; b ← f a; Ok (g b)) = (b ← (a ← r; f a); Ok (g b))) as Hassoc by (by intros X Y []).
  rewrite Hassoc. clear Hassoc.
  destruct (index ← index_options options ∅; index_options (var_requests requirements) index)
    as [index| |]; cbn [mbind res_bind]; [|done|by split].
  destruct H as [Hi Hsame]. split.
  - split; [done|]. intros (n & v & w & Hns & Hv & Hw & Hne). by destruct Hne; apply (Hsame n).
  - intros out [= <-]. split.
    + rewrite <-list_fmap_compose. rewrite <-(list_fmap_id requirements) at 2.
      apply list_fmap_ext. by intros _ [] _.
    + intros r Hr n x. apply list_elem_of_fmap in Hr as ([p|] & Hr & _); [|done].
      injection Hr as ->. cbn [pro_options pkg_request].
      destruct (Hi (ri_name (pr_pkg p))) as [_ Hget]. apply Hget.
Qed.

(** A build option and an install requirement that give one variable two values
    make the conversion, and with it the reading of the package, panic. *)
Lemma conflicting_options_panic :
  RequirementsList_with_options
    [Opt_Var (mkVarOpt (lit "python.abi") (lit "cp37") [] Weak None None false None)]
    [example_var (lit "python.abi") (lit "cp39")] = Panicked.
Proof. by vm_compute. Qed.

Lemma options_in_scope_exact_witness :
  exists r, convert_requests_to_requests_with_options [(lit "python.abi", lit "cp37")]
      [PinnedRequest_Pkg (mkPkgRequest (mkRangeIdent None (lit "python") [] [] None) None Always None Required None [])]
    = Ok [RequestWithOptions_Pkg r] /\
    bmap_get (lit "python.abi") (pro_options r) = Some (Complete (lit "cp37")).
Proof.
  pose (req := PinnedRequest_Pkg
    (mkPkgRequest (mkRangeIdent None (lit "python") [] [] None) None Always None Required None [])).
  destruct (options_in_scope_exact [(lit "python.abi", lit "cp37")] [req]) as [_ H].
  eexists. split; [vm_compute; reflexivity|].
  eapply (proj2 (H _ eq_refl)); [by left|]. exists (lit "cp37"). split_and!; [done|by left|by vm_compute].
Defined.
