(* ===== verification/ComponentSpecs.v ===== *)
(** * Component specifications

    Models crates/spk-schema/src/component_spec.rs, the components of built
    packages, v0/recipe_component_spec.rs, those of recipes, and
    component_embedded_packages.rs, which names the packages a component embeds;
    with the lists of component_spec_list.rs made of them.

    A file matcher (foundation's spec_ops/file_matcher.rs) is its rules, which
    the ignore crate compiles.  Requirements with options are cached in a
    private field. *)

From stdpp Require Import gmap.
From S2P Require Import Prelude Strings Collections Names Version VersionOrder.
From S2P Require Import Compat RangeData Reasons VersionRange Components Options Idents Requests Opts Requirements.

(** ** File matchers *)

Definition FileMatcher : Type := list rstr.
Definition FileMatcher_default : FileMatcher := [].
Definition FileMatcher_all : FileMatcher := [lit "*"].
(** [FileMatcher::new]; the builder of the ignore crate accepts a line or not,
    and may fail to compile the lines. *)
Inductive FileMatcherError := InvalidFilePattern (rule : rstr) | FailedToCompile.
Fixpoint add_lines (add_line : rstr -> bool) (rules : list rstr) : res FileMatcherError unit :=
  match rules with
  | [] => Ok tt
  | rule :: rules => if add_line rule then add_lines add_line rules else Err (InvalidFilePattern rule)
  end.
Definition FileMatcher_new (add_line : rstr -> bool) (build : list rstr -> bool) (rules : list rstr) :
    res FileMatcherError FileMatcher :=
  _ ← add_lines add_line rules;
  if build rules then Ok rules else Err FailedToCompile.

(** ** Embedded packages of a component *)

(** [components] is a [BTreeSet]. *)
Record ComponentEmbeddedPackage := mkComponentEmbeddedPackage {
  cep_pkg : OptVersionIdent;
  cep_components : list Component;
}.
Definition ComponentEmbeddedPackage_new (pkg : OptVersionIdent) (component : Component) :
    ComponentEmbeddedPackage := mkComponentEmbeddedPackage pkg [component].

Inductive ReplaceAllError := AllNotAllowed | ComponentsWouldBeEmpty.
Fixpoint insert_no_all (components iter : list Component) : res ReplaceAllError (list Component) :=
  match iter with
  | [] => Ok components
  | component :: iter =>
      if Component_is_all component then Err AllNotAllowed
      else insert_no_all (bset_insert component components) iter
  end.
Definition replace_all (self : ComponentEmbeddedPackage) (iter : list Component) :
    res ReplaceAllError ComponentEmbeddedPackage :=
  components ← insert_no_all (List.filter (fun c => negb (Component_is_all c)) (cep_components self)) iter;
  if bool_decide (components = []) then Err ComponentsWouldBeEmpty
  else Ok (mkComponentEmbeddedPackage (cep_pkg self) components).

Definition ComponentEmbeddedPackage_to_string (self : ComponentEmbeddedPackage) : rstr :=
  id_base (cep_pkg self) ++ fmt_component_set (cep_components self) ++
  match id_target (cep_pkg self) with
  | Some version => lit "/" ++ Version_to_string version
  | None => []
  end.

(** The end of [visit_str], after [request_pkg_name_and_version] returned. *)
Inductive EmbeddedReadError (E : Type) := EmbeddedSyntax (e : E) | EmbeddedComponentsEmpty.
Arguments EmbeddedSyntax {E} e.
Arguments EmbeddedComponentsEmpty {E}.
Definition ComponentEmbeddedPackage_read {E}
    (request_pkg_name_and_version : rstr -> res E (rstr * list Component * option Version)) (v : rstr) :
    res (EmbeddedReadError E) ComponentEmbeddedPackage :=
  match request_pkg_name_and_version v with
  | Ok (name, components, opt_version) =>
      if bool_decide (components = []) then Err EmbeddedComponentsEmpty
      else Ok (mkComponentEmbeddedPackage (mkIdent name opt_version) components)
  | Err e => Err (EmbeddedSyntax e)
  | Panicked => Panicked
  end.

Record ComponentEmbeddedPackagesList := mkComponentEmbeddedPackagesList {
  cel_components : list ComponentEmbeddedPackage;
  cel_fabricated : bool;
}.
Definition ComponentEmbeddedPackagesList_default : ComponentEmbeddedPackagesList :=
  mkComponentEmbeddedPackagesList [] false.
Definition is_fabricated (self : ComponentEmbeddedPackagesList) : bool := cel_fabricated self.
Definition set_fabricated (self : ComponentEmbeddedPackagesList) : ComponentEmbeddedPackagesList :=
  mkComponentEmbeddedPackagesList (cel_components self) true.
Definition ComponentEmbeddedPackagesList_from (items : list ComponentEmbeddedPackage) :
    ComponentEmbeddedPackagesList := mkComponentEmbeddedPackagesList items false.

(** What is used of a component beyond [ComponentOps]: the packages it embeds. *)
Class ComponentEmbeds (C : Type) := {
  co_embedded : C -> ComponentEmbeddedPackagesList;
  set_embedded : ComponentEmbeddedPackagesList -> C -> C;
}.
Class ComponentEmbedsLaws (C : Type) `{!ComponentOps C, !ComponentEmbeds C} : Prop := {
  co_name_set_embedded : forall e (c : C), co_name (set_embedded e c) = co_name c;
  co_uses_set_embedded : forall e (c : C), co_uses (set_embedded e c) = co_uses c;
  co_embedded_set_embedded : forall e (c : C), co_embedded (set_embedded e c) = e;
}.
(** And what it requires when it is selected. *)
Class ComponentRequires (C : Type) := co_requirements : C -> list RequestWithOptions.

(** ** Components of recipes *)

Record RecipeComponentSpec := mkRecipeComponentSpec {
  rc_name : Component;
  rc_files : FileMatcher;
  rc_uses : list Component;
  rc_requirements : list PinnableRequest;
  rc_embedded : ComponentEmbeddedPackagesList;
  rc_file_match_mode : ComponentFileMatchMode;
}.
Definition empty_recipe_component (name : Component) (files : FileMatcher) : RecipeComponentSpec :=
  mkRecipeComponentSpec name files [] [] ComponentEmbeddedPackagesList_default MatchAll.
Definition RecipeComponentSpec_new (name : rstr) : res InvalidNameError RecipeComponentSpec :=
  name ← Component_parse name; Ok (empty_recipe_component name FileMatcher_default).
Definition RecipeComponentSpec_default_build : RecipeComponentSpec :=
  empty_recipe_component ComponentBuild FileMatcher_all.
Definition RecipeComponentSpec_default_run : RecipeComponentSpec :=
  empty_recipe_component ComponentRun FileMatcher_all.

#[export] Instance ComponentOps_RecipeComponentSpec : ComponentOps RecipeComponentSpec :=
  {| co_file_match_mode := rc_file_match_mode; co_name := rc_name; co_uses := rc_uses |}.
#[export] Instance ComponentSpecDefaults_RecipeComponentSpec : ComponentSpecDefaults RecipeComponentSpec :=
  {| default_build := RecipeComponentSpec_default_build; default_run := RecipeComponentSpec_default_run |}.
#[export] Instance ComponentEmbeds_RecipeComponentSpec : ComponentEmbeds RecipeComponentSpec :=
  {| co_embedded := rc_embedded;
     set_embedded := fun e c => mkRecipeComponentSpec (rc_name c) (rc_files c) (rc_uses c) (rc_requirements c) e
                                  (rc_file_match_mode c) |}.

(** ** Components of built packages *)

Record ComponentSpec := mkComponentSpec {
  cs_name : Component;
  cs_files : FileMatcher;
  cs_uses : list Component;
  cs_requirements : list PinnedRequest;
  cs_embedded : ComponentEmbeddedPackagesList;
  cs_file_match_mode : ComponentFileMatchMode;
  cs_requirements_with_options : list RequestWithOptions;
}.
Definition empty_component (name : Component) (files : FileMatcher) : ComponentSpec :=
  mkComponentSpec name files [] [] ComponentEmbeddedPackagesList_default MatchAll [].
Definition ComponentSpec_new (name : rstr) : res InvalidNameError ComponentSpec :=
  name ← Component_parse name; Ok (empty_component name FileMatcher_default).
Definition ComponentSpec_default_build : ComponentSpec := empty_component ComponentBuild FileMatcher_all.
Definition ComponentSpec_default_run : ComponentSpec := empty_component ComponentRun FileMatcher_all.
Definition ComponentSpec_default_source : ComponentSpec := empty_component ComponentSource FileMatcher_all.

(** [update_requirements_with_options], [requirements_mut] for a closure that
    returns nothing, and [From<RawComponentSpec>]. *)
Definition update_requirements_with_options (self : ComponentSpec) : res Empty_set ComponentSpec :=
  requirements ← RequirementsList_without_options (cs_requirements self);
  Ok (mkComponentSpec (cs_name self) (cs_files self) (cs_uses self) (cs_requirements self) (cs_embedded self)
        (cs_file_match_mode self) requirements).
Definition requirements_mut (f : list PinnedRequest -> list PinnedRequest) (self : ComponentSpec) :
    res Empty_set ComponentSpec :=
  update_requirements_with_options
    (mkComponentSpec (cs_name self) (cs_files self) (cs_uses self) (f (cs_requirements self)) (cs_embedded self)
       (cs_file_match_mode self) (cs_requirements_with_options self)).
Definition ComponentSpec_from_raw (name : Component) (files : FileMatcher) (uses : list Component)
    (requirements : list PinnedRequest) (embedded : ComponentEmbeddedPackagesList)
    (file_match_mode : ComponentFileMatchMode) : res Empty_set ComponentSpec :=
  update_requirements_with_options
    (mkComponentSpec name files uses requirements embedded file_match_mode []).
Definition ComponentSpec_new_unchecked (name : Component) (uses : list Component) (files : FileMatcher)
    (options : OptionMap) (requirements : list PinnedRequest) (embedded : ComponentEmbeddedPackagesList) :
    res Empty_set ComponentSpec :=
  with_options ← convert_requests_to_requests_with_options options requirements;
  Ok (mkComponentSpec name files uses requirements embedded MatchAll with_options).

(** The instances for the traits of components. *)
#[export] Instance ComponentOps_ComponentSpec : ComponentOps ComponentSpec :=
  {| co_file_match_mode := cs_file_match_mode; co_name := cs_name; co_uses := cs_uses |}.
#[export] Instance ComponentSpecDefaults_ComponentSpec : ComponentSpecDefaults ComponentSpec :=
  {| default_build := ComponentSpec_default_build; default_run := ComponentSpec_default_run |}.
#[export] Instance ComponentEmbeds_ComponentSpec : ComponentEmbeds ComponentSpec :=
  {| co_embedded := cs_embedded;
     set_embedded := fun e c => mkComponentSpec (cs_name c) (cs_files c) (cs_uses c) (cs_requirements c) e
                                  (cs_file_match_mode c) (cs_requirements_with_options c) |}.
#[export] Instance ComponentRequires_ComponentSpec : ComponentRequires ComponentSpec :=
  cs_requirements_with_options.
#[export] Instance DefaultsLaws_ComponentSpec : DefaultsLaws ComponentSpec.
Proof. done. Qed.
#[export] Instance ComponentEmbedsLaws_ComponentSpec : ComponentEmbedsLaws ComponentSpec.
Proof. done. Qed.
#[export] Instance ComponentEmbedsLaws_RecipeComponentSpec : ComponentEmbedsLaws RecipeComponentSpec.
Proof. done. Qed.
#[export] Instance DefaultsLaws_RecipeComponentSpec : DefaultsLaws RecipeComponentSpec.
Proof. done. Qed.

(** ** From recipes to packages and back *)

Section render_components.
Variable VersionFilter_from_str : rstr -> res RangeError (list VersionRange).
Context (options : OptionMap) (resolved_by_name : gmap rstr BuildIdent).

(** [new_from_recipe], which is [RecipeComponentSpec::render_all_pins]. *)
Definition new_from_recipe (spec : RecipeComponentSpec) : res RequirementsError ComponentSpec :=
  requirements ← render_all_pins VersionFilter_from_str (rc_requirements spec) options resolved_by_name;
  with_options ← total (convert_requests_to_requests_with_options options requirements);
  Ok (mkComponentSpec (rc_name spec) (rc_files spec) (rc_uses spec) requirements (rc_embedded spec)
        (rc_file_match_mode spec) with_options).

(** [ComponentSpecList::render_all_pins]. *)
Definition render_components (self : list RecipeComponentSpec) : res RequirementsError (list ComponentSpec) :=
  try_map new_from_recipe self.
End render_components.

Definition RecipeComponentSpec_from (other : ComponentSpec) : RecipeComponentSpec :=
  mkRecipeComponentSpec (cs_name other) (cs_files other) (cs_uses other)
    (RequirementsList_from_pinned (cs_requirements other)) (cs_embedded other) (cs_file_match_mode other).
Definition RecipeComponentSpecList_from (value : list ComponentSpec) : list RecipeComponentSpec :=
  RecipeComponentSpec_from <$> value.
