(* ===== verification/Builds.v ===== *)
(** * Variants and build options

    Models crates/spk-schema/src/build_spec.rs and variant.rs and
    v0/variant.rs: the variant a package is built in, the options of the build
    for it, the values they resolve to, and the digest that names the build;
    and [get_build_requirements] of v0/recipe_spec.rs.  v0/recipe_build_spec.rs
    repeats the functions of build_spec.rs. *)

From stdpp Require Import gmap.
From S2P Require Import Prelude Strings Collections Names Version VersionOrder.
From S2P Require Import Compat RangeData Reasons CompatCheck Intersection VersionRange.
From S2P Require Import Components Options Idents Requests Opts Requirements.

(** ** Variants *)

(** What the [Variant] trait answers: the input option values, and the additional
    requirements. *)
Record Variant := mkVariant {
  va_options : OptionMap;
  va_additional_requirements : list RequestWithOptions;
}.
(** [Variant for OptionMap]. *)
Definition Variant_from_options (options : OptionMap) : Variant := mkVariant options [].
(** [Variant for Override]. *)
Definition with_overrides (inner : Variant) (overrides : OptionMap) : Variant :=
  mkVariant (bmap_extend (va_options inner) overrides) (va_additional_requirements inner).

(** [v0::Variant]. *)
Record V0Variant := mkV0Variant {
  v0_options : OptionMap;
  v0_requirements : list PinnedRequest;
}.
(** [crate::Variant for v0::Variant]. *)
Definition Variant_from_v0 (self : V0Variant) : res Empty_set Variant :=
  additional ← convert_requests_to_requests_with_options (v0_options self) (v0_requirements self);
  Ok (mkVariant (v0_options self) additional).

(** [v0::Variant::from_build_options]. *)
Definition from_build_options (build_options : list Opt) (options : OptionMap) : V0Variant :=
  mkV0Variant
    (bmap_collect (omap (fun o =>
       match o with
       | Opt_Var o =>
           if str_is_empty (vo_default o) then None
           else Some (vo_var o, default (vo_default o) (bmap_get (vo_var o) options))
       | Opt_Pkg _ => None
       end) build_options)) [].

(** [VariantSpecEntryKey], where a package name carries its components. *)
Inductive VariantSpecEntryKey :=
| PkgOrOpt (name : rstr) (components : list Component)
| KeyOpt (opt : rstr).

Section from_spec.
Variable VersionRange_from_str : rstr -> res rstr VersionRange.

Definition entry_name (key : VariantSpecEntryKey) : rstr :=
  match key with PkgOrOpt name _ => name | KeyOpt opt => opt end.
(** A package request of a variant. *)
Definition variant_request (name : rstr) (components : list Component) (version_range : VersionRange) :
    res Empty_set PinnedRequest :=
  r ← PkgRequest_new (mkRangeIdent None name components (VersionFilter_single version_range) None)
        Requests.Variant;
  Ok (PinnedRequest_Pkg r).
(** The request an entry adds, if any. *)
Definition entry_request (build_options : list Opt) (key : VariantSpecEntryKey) (value : rstr) :
    res rstr (option PinnedRequest) :=
  let name := entry_name key in
  let components := match key with PkgOrOpt _ components => components | KeyOpt _ => [] end in
  let pkg components range :=
    match variant_request name components range with Ok r => Ok (Some r) | _ => Panicked end in
  let var := Ok (Some (PinnedRequest_Var (VarRequest_new_with_value name value))) in
  if negb (bool_decide (components = [])) then
    match VersionRange_from_str value with
    | Ok version_range => pkg components version_range
    | Err _ => Err value
    | Panicked => Panicked
    end
  else if existsb (fun o => bool_decide (Opt_full_name o = name)) build_options then Ok None
  else
    match validate_pkg_name name with
    | Panicked => Panicked
    | Err _ => var
    | Ok _ =>
        match VersionRange_from_str value with
        | Ok version_range => pkg [] version_range
        | Err _ => var
        | Panicked => Panicked
        end
    end.

(** [v0::Variant::from_spec]. *)
Fixpoint from_spec_loop (entries : list (VariantSpecEntryKey * rstr)) (build_options : list Opt)
    (out : V0Variant) : res rstr V0Variant :=
  match entries with
  | [] => Ok out
  | (key, value) :: entries =>
      let options := bmap_insert (entry_name key) value (v0_options out) in
      request ← entry_request build_options key value;
      let requirements :=
        match request with
        | Some r => (insert_or_replace id r (v0_requirements out)).2
        | None => v0_requirements out
        end in
      from_spec_loop entries build_options (mkV0Variant options requirements)
  end.
Definition from_spec entries build_options : res rstr V0Variant :=
  from_spec_loop entries build_options (mkV0Variant [] []).
End from_spec.

(** ** The options of a build *)

(** What [opts_for_variant] keeps: the options, their names, and where the
    package options are. *)
Record KnownOpts := mkKnownOpts {
  ko_opts : list Opt;
  ko_known : gset rstr;
  ko_pkg_index : gmap rstr nat;
}.
Definition Opt_is_pkg (o : Opt) : bool := match o with Opt_Pkg _ => true | Opt_Var _ => false end.

(** The two [collect]s it starts with. *)
Definition index_pkg_options (opts : list Opt) : gmap rstr nat :=
  foldl (fun index '(i, o) => if Opt_is_pkg o then <[Opt_full_name o := i]> index else index)
    ∅ (imap pair opts).
Definition known_opts (opts : list Opt) : KnownOpts :=
  mkKnownOpts opts (list_to_set (Opt_full_name <$> opts)) (index_pkg_options opts).

(** Merging a package option of the variant into one of the package. *)
Definition merge_pkg_opt (pkg_in_opts pkg : PkgOpt) : PkgOpt :=
  mkPkgOpt (po_pkg pkg_in_opts) (bset_extend (po_components pkg_in_opts) (po_components pkg))
    (po_default pkg) (po_prerelease_policy pkg_in_opts) (po_required_compat pkg_in_opts)
    (po_value pkg_in_opts).
(** One round of the loop; the [debug_assert]s are those of a release build. *)
Definition add_requirement (s : KnownOpts) (req : RequestWithOptions) : res Empty_set KnownOpts :=
  opt ← Opt_try_from req;
  let name := Opt_full_name opt in
  if bool_decide (name ∉ ko_known s) then
    Ok (mkKnownOpts (ko_opts s ++ [opt]) ({[name]} ∪ ko_known s)
          (if Opt_is_pkg opt then <[name := length (ko_opts s)]> (ko_pkg_index s) else ko_pkg_index s))
  else
    match opt with
    | Opt_Var _ => Ok s
    | Opt_Pkg pkg =>
        match ko_pkg_index s !! po_pkg pkg with
        | None => Ok s
        | Some idx =>
            match ko_opts s !! idx with
            | None => Panicked
            | Some (Opt_Var _) => Ok s
            | Some (Opt_Pkg pkg_in_opts) =>
                Ok (mkKnownOpts (<[idx := Opt_Pkg (merge_pkg_opt pkg_in_opts pkg)]> (ko_opts s))
                      (ko_known s) (ko_pkg_index s))
            end
        end
    end.
Fixpoint add_requirements (s : KnownOpts) (reqs : list RequestWithOptions) : res Empty_set KnownOpts :=
  match reqs with
  | [] => Ok s
  | req :: reqs => s ← add_requirement s req; add_requirements s reqs
  end.

(** [BuildSpec::opts_for_variant]. *)
Definition opts_for_variant (options : list Opt) (variant : Variant) : res Empty_set (list Opt) :=
  s ← add_requirements (known_opts options) (va_additional_requirements variant); Ok (ko_opts s).

(** ** Resolving the options *)

Section resolve.
Variable VersionRange_from_str : rstr -> res rstr VersionRange.

(** The value the variant gives an option. *)
Definition given_value (pkg_name : rstr) (given : OptionMap) (full_name : rstr) : option rstr :=
  match OptName_namespace full_name with
  | Some _ =>
      match bmap_get full_name given with
      | Some v => Some v
      | None => bmap_get (OptName_without_namespace full_name) given
      end
  | None =>
      match bmap_get (OptName_with_namespace full_name pkg_name) given with
      | Some v => Some v
      | None => bmap_get full_name given
      end
  end.
Definition resolved_value (pkg_name : rstr) (given : OptionMap) (opt : Opt) : rstr :=
  Opt_get_value opt (given_value pkg_name given (Opt_full_name opt)).
Fixpoint resolve_each (pkg_name : rstr) (given : OptionMap) (opts : list Opt) (resolved : OptionMap) :
    res IncompatibleReason OptionMap :=
  match opts with
  | [] => Ok resolved
  | opt :: opts =>
      let value := resolved_value pkg_name given opt in
      match Opt_validate VersionRange_from_str opt (Some value) with
      | Ok Compatible => resolve_each pkg_name given opts (bmap_insert (Opt_full_name opt) value resolved)
      | Ok (Incompatible reason) => Err reason
      | Err e => match e with end
      | Panicked => Panicked
      end
  end.
(** [BuildSpec::resolve_options_for_pkg_name]. *)
Definition resolve_options_for_pkg_name (options : list Opt) (pkg_name : rstr) (variant : Variant) :
    res IncompatibleReason (OptionMap * list Opt) :=
  match opts_for_variant options variant with
  | Ok opts => resolved ← resolve_each pkg_name (va_options variant) opts []; Ok (resolved, opts)
  | _ => Panicked
  end.

(** ** The digest of a build *)

(** SHA-1 of a text's bytes, of the ring crate, and the base-32 encoding of the
    data_encoding crate. *)
Variable sha1 : rstr -> list N.
Variable base32 : list N -> rstr.

Definition nul : rstr := [0%N].
Definition soh : rstr := [1%N].
Definition option_text (entry : rstr * rstr) : rstr := entry.1 ++ lit "=" ++ entry.2 ++ nul.
Definition components_text (requirement : PkgOpt) : rstr :=
  if bool_decide (po_components requirement = []) then []
  else po_pkg requirement ++ lit "=" ++
       concat ((fun c => Component_as_str c ++ lit ",") <$> po_components requirement) ++ soh.
Definition pkg_opts (opts : list Opt) : list PkgOpt :=
  omap (fun o => match o with Opt_Pkg pkg => Some pkg | Opt_Var _ => None end) opts.
(** What the hasher is given. *)
Definition digest_text (options : OptionMap) (opts : list Opt) : rstr :=
  concat (option_text <$> options) ++
  concat (components_text <$> @sort_slice PkgOpt (cmp_on po_pkg) (pkg_opts opts)).
(** [BuildId::new_from_bytes]. *)
Definition BuildId_new_from_bytes (bytes : list N) : rstr :=
  take BUILD_ID_SIZE (base32 bytes ++ replicate BUILD_ID_SIZE 48%N).
(** [BuildSpec::build_digest]. *)
Definition build_digest (options : list Opt) (pkg_name : rstr) (variant : Variant) :
    res IncompatibleReason rstr :=
  '(resolved, opts) ← resolve_options_for_pkg_name options pkg_name variant;
  Ok (BuildId_new_from_bytes (sha1 (digest_text resolved opts))).
End resolve.

(** ** Requirements of a build *)

Section build_requirements.
Context {Er : Type}.
Variable parse_ident_range : rstr -> res Er RangeIdent.
Variable permutations2 : forall A : Type, list A -> list (A * A).

Inductive BuildRequirementsError :=
| RequestParseError (e : Er)
| RequirementError (e : RequirementsError).

Definition merged {R} (r : res Empty_set (option RequirementsError * list R)) :
    res BuildRequirementsError (list R) :=
  match r with
  | Ok (None, requests) => Ok requests
  | Ok (Some e, _) => Err (RequirementError e)
  | Err e => match e with end
  | Panicked => Panicked
  end.
(** The request for a package option; without components it is for the default
    one of a build. *)
Definition build_pkg_request (opt : PkgOpt) (given : option rstr) (ident : BuildIdent) :
    res BuildRequirementsError PkgRequest :=
  match PkgOpt_to_request parse_ident_range opt given (BinaryBuild ident) with
  | Panicked => Panicked
  | Err e => Err (RequestParseError e)
  | Ok req =>
      let pkg := pr_pkg req in
      Ok (if bool_decide (ri_components pkg = [])
          then with_pkg req (mkRangeIdent (ri_repository_name pkg) (ri_name pkg)
                 [Component_default_for_build] (ri_version pkg) (ri_build pkg))
          else req)
  end.

(** [build_requirements_from_build_options] of v0/package_spec.rs. *)
Fixpoint build_requirements_from_build_options (ident : BuildIdent) (build_options : list Opt)
    (requests : list PinnedRequest) : res BuildRequirementsError (list PinnedRequest) :=
  match build_options with
  | [] => Ok requests
  | Opt_Pkg opt :: build_options =>
      req ← build_pkg_request opt None ident;
      requests ← merged (insert_or_merge_pinned permutations2 (PinnedRequest_Pkg req) requests);
      build_requirements_from_build_options ident build_options requests
  | Opt_Var opt :: build_options =>
      match VarOpt_get_value opt None with
      | Some ((_ :: _) as value) =>
          requests ← merged (insert_or_merge_pinned permutations2
            (PinnedRequest_Var (VarOpt_to_request opt (Some value))) requests);
          build_requirements_from_build_options ident build_options requests
      | _ => build_requirements_from_build_options ident build_options requests
      end
  end.

(** [RecipeSpec::get_build_requirements], from the options of the build and
    their resolved values. *)
Definition index_resolved (options : OptionMap) (index : OptionIndex) (opt : Opt) : OptionIndex :=
  match opt with
  | Opt_Pkg _ => index
  | Opt_Var var_opt =>
      match OptName_namespace (vo_var var_opt), bmap_get (vo_var var_opt) options with
      | Some ns, Some ((_ :: _) as value) =>
          <[ns := bmap_insert (vo_var var_opt) (Complete value) (default [] (index !! ns))]> index
      | _, _ => index
      end
  end.
Fixpoint recipe_requirements (ident : BuildIdent) (options : OptionMap) (opts : list Opt)
    (pkg_var_options : OptionIndex) (requests : list RequestWithOptions) :
    res BuildRequirementsError (list RequestWithOptions) :=
  match opts with
  | [] => Ok requests
  | Opt_Pkg opt :: opts =>
      req ← build_pkg_request opt (bmap_get (po_pkg opt) options) ident;
      let pkg_options := default [] (pkg_var_options !! po_pkg opt) in
      requests ← merged (insert_or_merge_with_options permutations2
        (RequestWithOptions_Pkg (mkPkgRequestWithOptions req pkg_options)) requests);
      recipe_requirements ident options opts (delete (po_pkg opt) pkg_var_options) requests
  | Opt_Var opt :: opts =>
      match bmap_get (vo_var opt) options with
      | Some ((_ :: _) as value) =>
          requests ← merged (insert_or_merge_with_options permutations2
            (RequestWithOptions_Var (VarOpt_to_request opt (Some value))) requests);
          recipe_requirements ident options opts pkg_var_options requests
      | _ => recipe_requirements ident options opts pkg_var_options requests
      end
  end.
Definition get_build_requirements (ident : BuildIdent) (options : OptionMap) (opts : list Opt) :=
  recipe_requirements ident options opts (foldl (index_resolved options) ∅ opts) [].
End build_requirements.

(** ** Lemmas: the options of a variant *)

Definition opt_names (opts : list Opt) : list rstr := Opt_full_name <$> opts.

(** What the loop of [opts_for_variant] maintains, having started from
    [options]: names are known and unique, the package index is right, and the
    options the package has are still there, variables as they were. *)
Record known_wf (options : list Opt) (s : KnownOpts) : Prop := {
  kw_nodup : NoDup (opt_names (ko_opts s));
  kw_known : forall n, n ∈ ko_known s <-> n ∈ opt_names (ko_opts s);
  kw_index : forall n i, ko_pkg_index s !! n = Some i -> exists p, ko_opts s !! i = Some (Opt_Pkg p) /\ po_pkg p = n;
  kw_kept : forall i o, options !! i = Some o ->
    exists o', ko_opts s !! i = Some o' /\ Opt_full_name o' = Opt_full_name o /\
      (Opt_is_pkg o = false -> o' = o);
}.

Lemma known_opts_wf options : NoDup (opt_names options) -> known_wf options (known_opts options).
Proof.
  intros Hnd. split; cbn [known_opts ko_opts ko_known ko_pkg_index]; [done| | |eauto].
  - intros n. apply elem_of_list_to_set.
  - intros n i. unfold index_pkg_options.
    enough (forall l (index : gmap rstr nat), (forall n i, index !! n = Some i -> exists p, options !! i = Some (Opt_Pkg p) /\ po_pkg p = n) ->
      (forall i o, (i, o) ∈ l -> options !! i = Some o) ->
      foldl (fun index '(i, o) => if Opt_is_pkg o then <[Opt_full_name o := i]> index else index) index l !! n = Some i ->
      exists p, options !! i = Some (Opt_Pkg p) /\ po_pkg p = n) as H.
    { apply (H (imap pair options) ∅); [by intros ??|].
      by intros i' o (j & o' & [= -> ->] & Hj)%elem_of_lookup_imap. }
    induction l as [|[j o] l IH]; intros index Hindex Hl; [apply Hindex|]. cbn [foldl].
    apply IH; [|intros; apply Hl; by right]. destruct o as [p|]; [|done]. cbn [Opt_is_pkg Opt_full_name].
    intros n' i' [[<- <-]|[_ Hi]]%lookup_insert_Some; [|by apply Hindex].
    exists p. split; [|done]. apply Hl. by left.
Qed.

Lemma opt_names_insert opts idx o o' :
  opts !! idx = Some o -> Opt_full_name o' = Opt_full_name o ->
  opt_names (<[idx := o']> opts) = opt_names opts.
Proof.
  intros Hidx Hn. unfold opt_names. rewrite list_fmap_insert, Hn. apply list_insert_id.
  by rewrite list_lookup_fmap, Hidx.
Qed.

Lemma add_requirement_wf options s req s' :
  known_wf options s -> add_requirement s req = Ok s' ->
  known_wf options s' /\ request_name req ∈ opt_names (ko_opts s') /\
  (forall n, n ∈ opt_names (ko_opts s) -> n ∈ opt_names (ko_opts s')).
Proof.
  intros [Hnd Hknown Hindex Hkept]. unfold add_requirement. intros (opt & Hopt & Hs)%bind_Ok.
  assert (Opt_full_name opt = request_name req) as Hname.
  { destruct req as [r|r]; cbn in Hopt; [|by injection Hopt as <-].
    apply bind_Ok in Hopt as (d & _ & [= <-]). done. }
  rewrite <-Hname. cbv zeta in Hs. case_bool_decide as Hin.
  - injection Hs as <-. cbn [ko_opts]. rewrite Hknown in Hin. unfold opt_names in *.
    rewrite fmap_app. split_and!; [|set_solver|set_solver]. split; cbn [ko_opts ko_known ko_pkg_index].
    + unfold opt_names. rewrite fmap_app. apply NoDup_app. split_and!; [done|set_solver|apply NoDup_singleton].
    + intros n. unfold opt_names. rewrite fmap_app, elem_of_union, elem_of_app, Hknown. set_solver.
    + intros n i Hi.
      assert ((Opt_is_pkg opt = true /\ n = Opt_full_name opt /\ i = length (ko_opts s)) \/ ko_pkg_index s !! n = Some i)
        as [(Hp & -> & ->)|Hi'].
      { destruct (Opt_is_pkg opt); [|by right]. apply lookup_insert_Some in Hi. naive_solver. }
      * destruct opt as [p|]; [|done]. exists p. by rewrite list_lookup_middle.
      * destruct (Hindex n i Hi') as (p & Hp & Hn). exists p. split; [|done]. by apply lookup_app_l_Some.
    + intros i o Hi. destruct (Hkept i o Hi) as (o' & Ho' & Hrest). exists o'. split; [|done].
      by apply lookup_app_l_Some.
  - rewrite Hknown in Hin.
    assert (s' = s -> known_wf options s' /\ Opt_full_name opt ∈ opt_names (ko_opts s') /\
      (forall n, n ∈ opt_names (ko_opts s) -> n ∈ opt_names (ko_opts s'))) as Hsame by (by intros ->).
    destruct opt as [pkg|v]; [|injection Hs as <-; by apply Hsame].
    destruct (ko_pkg_index s !! po_pkg pkg) as [idx|] eqn:Eidx; [|injection Hs as <-; by apply Hsame].
    destruct (Hindex _ _ Eidx) as (p & Hp & Hpn). rewrite Hp in Hs. injection Hs as <-. clear Hsame.
    assert (opt_names (<[idx := Opt_Pkg (merge_pkg_opt p pkg)]> (ko_opts s)) = opt_names (ko_opts s)) as Hnames
      by (by eapply opt_names_insert).
    cbn [ko_opts]. rewrite Hnames. split_and!; [|done..]. split; cbn [ko_opts ko_known ko_pkg_index].
    + by rewrite Hnames.
    + by rewrite Hnames.
    + intros n i Hi. destruct (Hindex n i Hi) as (p' & Hp' & Hn'). destruct (decide (idx = i)) as [<-|Hne].
      * rewrite list_lookup_insert_eq by by eapply lookup_lt_Some. simplify_eq. eauto.
      * rewrite list_lookup_insert_ne by done. eauto.
    + intros i o Hi. destruct (Hkept i o Hi) as (o' & Ho' & Hn' & Hv). destruct (decide (idx = i)) as [<-|Hne].
      * rewrite list_lookup_insert_eq by by eapply lookup_lt_Some. simplify_eq.
        eexists. split; [done|]. split; [done|]. intros Hov. by specialize (Hv Hov) as <-.
      * rewrite list_lookup_insert_ne by done. eauto.
Qed.

Lemma add_requirements_wf options reqs s s' :
  known_wf options s -> add_requirements s reqs = Ok s' ->
  known_wf options s' /\ (forall n, n ∈ opt_names (ko_opts s) -> n ∈ opt_names (ko_opts s')) /\
  (forall req, req ∈ reqs -> request_name req ∈ opt_names (ko_opts s')).
Proof.
  revert s. induction reqs as [|req reqs IH]; intros s Hs.
  - intros [= <-]. split_and!; [done..|]. set_solver.
  - cbn [add_requirements]. intros (s1 & H1 & H2)%bind_Ok.
    destruct (add_requirement_wf _ _ _ _ Hs H1) as (Hw & Hreq & Hmono).
    destruct (IH s1 Hw H2) as (Hw' & Hmono' & Hreqs). split_and!; [done|auto|].
    intros r [->|Hr]%elem_of_cons; auto.
Qed.

(** ** Lemmas: the text that is digested *)

(** Both kinds of entry: a name, a body and the byte that ends it. *)
Definition entry_text (e : rstr * rstr * N) : rstr := e.1.1 ++ lit "=" ++ e.1.2 ++ [e.2].
Definition clean_body (s : rstr) : Prop := Forall (fun c => (1 < c)%N) s.
Definition clean_entry (e : rstr * rstr * N) : Prop :=
  str_contains 61 e.1.1 = false /\ clean_body e.1.2 /\ (e.2 <= 1)%N.

Lemma body_ends a b t u r s :
  clean_body a -> clean_body b -> (t <= 1)%N -> (u <= 1)%N ->
  a ++ t :: r = b ++ u :: s -> a = b /\ t = u /\ r = s.
Proof.
  intros Ha. revert b. induction Ha as [|c a Hc Ha IH]; intros b Hb Ht Hu; destruct Hb as [|d b Hd Hb]; cbn.
  - by intros [= -> ->].
  - intros [= -> _]. lia.
  - intros [= -> _]. lia.
  - intros [= -> E]. destruct (IH b Hb Ht Hu E) as (-> & -> & ->). done.
Qed.

Lemma entry_texts_inj l1 l2 :
  Forall clean_entry l1 -> Forall clean_entry l2 ->
  concat (entry_text <$> l1) = concat (entry_text <$> l2) -> l1 = l2.
Proof.
  assert (forall e l, exists c s, concat (entry_text <$> e :: l) = c :: s) as Hcons.
  { intros [[[|c n] b] t] l; by eexists _, _. }
  intros H1. revert l2. induction H1 as [|[[n b] t] l1 (Hn & Hb & Ht) H1 IH]; intros l2 H2.
  - destruct H2 as [|e l2 _ _]; [done|]. destruct (Hcons e l2) as (c & s & ->). done.
  - destruct H2 as [|[[n' b'] t'] l2 (Hn' & Hb' & Ht') H2].
    { destruct (Hcons (n, b, t) l1) as (c & s & ->). done. }
    rewrite !fmap_cons. cbn [concat entry_text fst snd] in *. unfold entry_text. cbn [fst snd].
    intros E. rewrite <-!app_assoc in E. cbn [app] in E.
    assert (Some (n, b ++ t :: concat (entry_text <$> l1)) = Some (n', b' ++ t' :: concat (entry_text <$> l2)))
      as [= -> E'].
    { rewrite <-(split_once_app 61 n), <-(split_once_app 61 n') by done. f_equal. exact E. }
    destruct (body_ends _ _ _ _ _ _ Hb Hb' Ht Ht' E') as (-> & -> & E''). by rewrite (IH l2).
Qed.

Lemma components_texts_inj (l1 l2 : list rstr) :
  Forall (fun s => str_contains 44 s = false) l1 -> Forall (fun s => str_contains 44 s = false) l2 ->
  concat ((fun s => s ++ lit ",") <$> l1) = concat ((fun s => s ++ lit ",") <$> l2) -> l1 = l2.
Proof.
  intros H1. revert l2. induction H1 as [|s l1 Hs H1 IH]; intros l2 H2; destruct H2 as [|s' l2 Hs' H2].
  - done.
  - rewrite fmap_cons. by destruct s'.
  - rewrite fmap_cons. by destruct s.
  - rewrite !fmap_cons. cbn [concat]. rewrite <-!app_assoc. intros E.
    assert (Some (s, concat ((fun s => s ++ lit ",") <$> l1)) = Some (s', concat ((fun s => s ++ lit ",") <$> l2)))
      as [= -> E'].
    { rewrite <-(split_once_app 44 s), <-(split_once_app 44 s') by done. f_equal. exact E. }
    by rewrite (IH l2).
Qed.

Definition option_entry (e : rstr * rstr) : rstr * rstr * N := (e.1, e.2, 0%N).
Definition component_entry (p : PkgOpt) : rstr * rstr * N :=
  (po_pkg p, concat ((fun s => s ++ lit ",") <$> (Component_as_str <$> po_components p)), 1%N).
Definition has_components (p : PkgOpt) : Prop := po_components p <> [].
#[export] Instance has_components_dec p : Decision (has_components p).
Proof. unfold has_components. apply _. Defined.

(** The package options a digest counts, in its order. *)
Definition digested_pkgs (opts : list Opt) : list PkgOpt :=
  filter has_components (@sort_slice PkgOpt (cmp_on po_pkg) (pkg_opts opts)).

Lemma digest_text_entries options opts :
  digest_text options opts =
  concat (entry_text <$> ((option_entry <$> options) ++ (component_entry <$> digested_pkgs opts))).
Proof.
  unfold digest_text, digested_pkgs. rewrite fmap_app, concat_app. f_equal.
  - rewrite <-list_fmap_compose. done.
  - generalize (@sort_slice PkgOpt (cmp_on po_pkg) (pkg_opts opts)) as l. clear opts.
    induction l as [|p l IH]; [done|]. rewrite fmap_cons. cbn [concat]. rewrite IH.
    unfold components_text. destruct (decide (has_components p)) as [Hp|Hp].
    + rewrite filter_cons_True by done. rewrite bool_decide_eq_false_2 by done.
      rewrite !fmap_cons. cbn [concat]. f_equal. unfold entry_text, component_entry. cbn [fst snd].
      by rewrite <-list_fmap_compose.
    + rewrite filter_cons_False by done. rewrite bool_decide_eq_true_2; [done|]. by apply dec_stable.
Qed.

(** ** Theorems *)

(** The options of a variant, for a package whose options have distinct
    names: their names stay distinct, every option of the package is still at
    its place under its name, its variables unchanged, and every additional
    requirement of the variant has an option. *)
Theorem opts_for_variant_exact options variant out :
  NoDup (opt_names options) -> opts_for_variant options variant = Ok out ->
  NoDup (opt_names out) /\
  (forall i o, options !! i = Some o -> exists o', out !! i = Some o' /\
     Opt_full_name o' = Opt_full_name o /\ (Opt_is_pkg o = false -> o' = o)) /\
  (forall req, req ∈ va_additional_requirements variant -> request_name req ∈ opt_names out).
Proof.
  intros Hnd (s & Hs & [= <-])%bind_Ok.
  destruct (add_requirements_wf options _ _ _ (known_opts_wf _ Hnd) Hs) as ([Hn _ _ Hk] & _ & Hreq).
  done.
Qed.

Definition example_pkg_opt : PkgOpt := mkPkgOpt (lit "python") [] (lit "3.7") None None None.
Definition example_pkg_request : RequestWithOptions :=
  RequestWithOptions_Pkg (mkPkgRequestWithOptions
    (mkPkgRequest (mkRangeIdent None (lit "python") [ComponentBuild] [] None) None Always None Required None []) []).

Lemma opts_for_variant_exact_witness :
  exists out, opts_for_variant [Opt_Pkg example_pkg_opt] (mkVariant [] [example_pkg_request]) = Ok out /\
    NoDup (opt_names out).
Proof.
  eexists. split; [reflexivity|].
  apply (opts_for_variant_exact [Opt_Pkg example_pkg_opt] (mkVariant [] [example_pkg_request]));
    [repeat constructor; set_solver|reflexivity].
Defined.

(** The values options resolve to.  When resolving succeeds, every option has
    the value chosen for it, which it accepts, and nothing else has one. *)
Theorem resolve_options_exact from_str options pkg_name variant resolved opts :
  NoDup (opt_names options) ->
  resolve_options_for_pkg_name from_str options pkg_name variant = Ok (resolved, opts) ->
  bmap_wf resolved /\ forall n v, bmap_get n resolved = Some v <->
    exists opt, opt ∈ opts /\ Opt_full_name opt = n /\ v = resolved_value pkg_name (va_options variant) opt /\
      Opt_validate from_str opt (Some v) = Ok Compatible.
Proof.
  intros Hnd. unfold resolve_options_for_pkg_name.
  destruct (opts_for_variant options variant) as [out| |] eqn:Eo; [|done..].
  intros (r & Hr & [= -> ->])%bind_Ok.
  assert (NoDup (opt_names opts)) as Hnd'.
  { apply bind_Ok in Eo as (s & Hs & [= <-]).
    by destruct (add_requirements_wf options _ _ _ (known_opts_wf _ Hnd) Hs) as ([Hn _ _ _] & _). }
  clear Eo Hnd. enough (forall acc, bmap_wf acc -> (forall n, n ∈ opt_names opts -> bmap_get n acc = None) ->
    resolve_each from_str pkg_name (va_options variant) opts acc = Ok resolved ->
    bmap_wf resolved /\ forall n v, bmap_get n resolved = Some v <->
      bmap_get n acc = Some v \/ exists opt, opt ∈ opts /\ Opt_full_name opt = n /\
        v = resolved_value pkg_name (va_options variant) opt /\
        Opt_validate from_str opt (Some v) = Ok Compatible) as H.
  { destruct (H []) as [Hw Hg]; [constructor|done|done|]. split; [done|]. intros n v. rewrite Hg.
    split; [intros [?|?]; done|by right]. }
  clear Hr. induction opts as [|opt opts IH]; intros acc Hacc Hnone.
  { intros [= ->]. split; [done|]. intros n v. split; [by left|]. intros [?|(opt & Ho & _)]; [done|set_solver]. }
  apply NoDup_cons in Hnd' as [Hopt Hnd']. cbn [resolve_each]. cbv zeta.
  set (value := resolved_value pkg_name (va_options variant) opt).
  destruct (Opt_validate from_str opt (Some value)) as [[|reason]| |] eqn:Ev; [|done..].
  intros Hr. apply (IH Hnd') in Hr as [Hw Hg]; [|by apply bmap_insert_wf|].
  2: { intros n Hn. rewrite bmap_get_insert_ne; [|done|intros ->; by apply Hopt].
       apply Hnone. unfold opt_names. rewrite fmap_cons. by right. }
  split; [done|]. intros n v. rewrite Hg. destruct (decide (n = Opt_full_name opt)) as [->|Hne].
  - rewrite bmap_get_insert_eq by done. rewrite (Hnone (Opt_full_name opt))
      by (unfold opt_names; rewrite fmap_cons; by left). split.
    + intros [[= <-]|(o & Ho & Hn & _)]; [right; exists opt; split_and!; [by left|done..]|].
      destruct Hopt. rewrite <-Hn. by apply list_elem_of_fmap_2.
    + intros [?|(o & [->|Ho]%elem_of_cons & Hn & Hv & _)]; [done|left; by rewrite Hv|].
      destruct Hopt. rewrite <-Hn. by apply list_elem_of_fmap_2.
  - rewrite bmap_get_insert_ne by done. split.
    + intros [?|(o & Ho & ?)]; [by left|]. right. exists o. split; [by right|done].
    + intros [?|(o & [->|Ho]%elem_of_cons & Hn & ?)]; [by left|done|]. right. by exists o.
Qed.

Lemma resolve_options_exact_witness :
  exists resolved opts,
    resolve_options_for_pkg_name (fun s => Err s) [Opt_Var (mkVarOpt (lit "os") (lit "linux") [] Weak None None false None)]
      (lit "my-pkg") (mkVariant [] []) = Ok (resolved, opts) /\ bmap_wf resolved.
Proof.
  eexists _, _. split; [reflexivity|].
  refine (proj1 (resolve_options_exact (fun s => Err s)
    [Opt_Var (mkVarOpt (lit "os") (lit "linux") [] Weak None None false None)]
    (lit "my-pkg") (mkVariant [] []) _ _ _ _)); [repeat constructor; set_solver|reflexivity].
Defined.

(** What valid names and ordinary values are: no [=] in a name, no comma in a
    component, and none of the bytes 0 and 1. *)
Definition digestible (options : OptionMap) (opts : list Opt) : Prop :=
  Forall (fun e => str_contains 61 e.1 = false /\ clean_body e.2) options /\
  Forall (fun p => str_contains 61 (po_pkg p) = false /\
    Forall (fun c => clean_body (Component_as_str c) /\ str_contains 44 (Component_as_str c) = false)
      (po_components p)) (pkg_opts opts).

Lemma digestible_entries options opts :
  digestible options opts ->
  Forall clean_entry ((option_entry <$> options) ++ (component_entry <$> digested_pkgs opts)) /\
  Forall (fun p => Forall (fun s => str_contains 44 s = false) (Component_as_str <$> po_components p))
    (digested_pkgs opts).
Proof.
  intros [Ho Hp]. unfold digested_pkgs.
  assert (Forall (fun p => str_contains 61 (po_pkg p) = false /\
    Forall (fun c => clean_body (Component_as_str c) /\ str_contains 44 (Component_as_str c) = false)
      (po_components p)) (filter has_components (@sort_slice PkgOpt (cmp_on po_pkg) (pkg_opts opts)))) as Hd.
  { rewrite Forall_forall in Hp |- *. intros p [_ Hin]%list_elem_of_filter.
    apply Hp. by rewrite sort_slice_perm in Hin. }
  clear Hp. rewrite Forall_app. split; [split|].
  - apply Forall_fmap. eapply Forall_impl; [exact Ho|]. intros [n v] [Hn Hv]. by split_and!.
  - apply Forall_fmap. eapply Forall_impl; [exact Hd|]. intros p [Hn Hc]. split_and!; [done| |done].
    cbn. clear Hn. induction Hc as [|c l [Hc _] _ IH]; [constructor|]. rewrite !fmap_cons. cbn [concat].
    apply Forall_app. split; [|exact IH]. apply Forall_app. split; [exact Hc|]. by repeat constructor.
  - eapply Forall_impl; [exact Hd|]. intros p [_ Hc]. apply Forall_fmap.
    eapply Forall_impl; [exact Hc|]. by intros c [_ ?].
Qed.

(** C39: the text a build's digest is made of identifies what the build was
    resolved to: of two builds whose option names have no "=", whose values and
    component names have no character that ends an entry, and whose component names
    have no ",", equal texts mean equal option values, and that the package options
    with components name the same components of the same packages. *)
Theorem digest_text_identifies options options' opts opts' :
  digestible options opts -> digestible options' opts' ->
  digest_text options opts = digest_text options' opts' ->
  options = options' /\
  (fun p => (po_pkg p, Component_as_str <$> po_components p)) <$> digested_pkgs opts =
  (fun p => (po_pkg p, Component_as_str <$> po_components p)) <$> digested_pkgs opts'.
Proof.
  intros [H1 C1]%digestible_entries [H2 C2]%digestible_entries.
  rewrite !digest_text_entries. intros E%entry_texts_inj; [|done..]. clear H1 H2.
  revert C1 C2 E. generalize (digested_pkgs opts) as l1, (digested_pkgs opts') as l2.
  intros l1 l2 C1 C2. revert options'. induction options as [|[n v] options IH]; intros [|[n' v'] options'];
    rewrite ?fmap_cons; cbn [app].
  - clear -C1 C2. revert l2 C2. induction C1 as [|p l1 Hp C1 IH]; intros l2 C2; destruct C2 as [|p' l2 Hp' C2];
      rewrite ?fmap_cons; try done.
    intros E. injection E as En Ec El. destruct (IH l2 C2 El) as [_ IH'].
    apply components_texts_inj in Ec; [|done..]. split; [done|]. rewrite IH'. by rewrite En, Ec.
  - destruct l1; [done|]. by rewrite fmap_cons.
  - destruct l2; [done|]. by rewrite fmap_cons.
  - intros [= -> -> E]. by destruct (IH options' E) as [-> ?].
Qed.

(** Builds that differ in a component, or in the value of an option, have
    different texts; the order in which the packages are given makes none. *)
Definition python_opt (components : list Component) : Opt :=
  Opt_Pkg (mkPkgOpt (lit "python") components [] None None None).
Definition gcc_opt : Opt := Opt_Pkg (mkPkgOpt (lit "gcc") [ComponentRun] [] None None None).
Example digest_text_order :
  digest_text [(lit "os", lit "linux")] [python_opt [ComponentBuild]; gcc_opt] =
  digest_text [(lit "os", lit "linux")] [gcc_opt; python_opt [ComponentBuild]].
Proof. vm_compute. reflexivity. Qed.
Lemma digest_text_identifies_witness :
  digest_text [(lit "os", lit "linux")] [python_opt [ComponentBuild]; gcc_opt] <>
  digest_text [(lit "os", lit "linux")] [gcc_opt; python_opt [ComponentRun]] /\
  digest_text [(lit "os", lit "linux")] [gcc_opt] <> digest_text [(lit "os", lit "darwin")] [gcc_opt].
Proof.
  split; intros E; apply digest_text_identifies in E as [Eo Ec]; [vm_compute in Ec; done| | |done| |];
    (split; repeat constructor).
Defined.
