(* ===== verification/Satisfy.v ===== *)
(** * Packages satisfying requests

    Models [check_package_spec_satisfies_pkg_request] and the satisfaction of
    variable requests of crates/spk-schema/src/v0/package_spec.rs: the test by
    which the solver, the validators and the tests decide that a build is an
    answer to a request.  The traits the test is generic over are the class
    [Package].

    The main theorem joins the development: merging two requests with
    [restrict] gives a request that exactly the packages answering both
    answer. *)

From S2P Require Import Prelude Strings Collections Names Version VersionOrder VersionText.
From S2P Require Import Compat RangeData Reasons CompatCheck Intersection VersionRange RangeTheory.
From S2P Require Import Components Idents Requests Opts.

(** [BuildOptions + Components + Deprecate + HasBuild + Named + Versioned]. *)
Class Package (T C : Type) `{!Versioned T, !ComponentOps C} := {
  pk_name : T -> rstr;
  pk_is_deprecated : T -> bool;
  pk_build : T -> Build;
  pk_components : T -> list C;
  pk_build_options : T -> list Opt;
}.

Section satisfy.
Context {T C : Type} `{Package T C}.
Variable hash_order : list Component -> list Component.

(** The names of the components a request needs and the package lacks. *)
Definition available_components (spec : T) : list Component :=
  bset_collect (co_name <$> pk_components spec).
Definition missing_components (spec : T) (requested : list Component) : list Component :=
  bset_sub (resolve_uses hash_order (pk_components spec) requested) (available_components spec).

Definition check_components (pkg : RangeIdent) (spec : T) : Compatibility :=
  let source_package_requested := opt_Build_eq (ri_build pkg) (Some BuildSource) in
  let is_source_build := Build_is_source (pk_build spec) && negb source_package_requested in
  if negb (bool_decide (ri_components pkg = [])) && negb is_source_build then
    let missing := missing_components spec (ri_components pkg) in
    if negb (bool_decide (missing = [])) then
      Incompatible (ComponentsMissing (ComponentsNotDefined
        (bset_collect (Component_as_str <$> missing))
        (bset_collect (Component_as_str <$> available_components spec))))
    else Compatible
  else Compatible.

(** The last loop: the options the package requires. *)
Definition check_required_option (options : PkgRequestOptions) (name : rstr) (opt : VarOpt) : Compatibility :=
  if negb (vo_required opt) then Compatible
  else
    let namespaced_var := OptName_with_namespace (vo_var opt) name in
    match bmap_get namespaced_var options with
    | Some (Complete value) =>
        match VarOpt_get_value opt None with
        | Some expected =>
            if negb (bool_decide (value = expected)) then
              Incompatible (VarOptionMismatch (IncompatibleBuildOption (vo_var opt) expected value))
            else Compatible
        | None => Compatible
        end
    | _ => Incompatible (VarOptionMismatch (RequiredButMissing namespaced_var))
    end.
Definition check_option (options : PkgRequestOptions) (name : rstr) (opt : Opt) : Compatibility :=
  match opt with Opt_Var opt => check_required_option options name opt | Opt_Pkg _ => Compatible end.
Definition check_required_options (options : PkgRequestOptions) (spec : T) : Compatibility :=
  first_problem (check_option options (pk_name spec)) (pk_build_options spec).

(** [check_package_spec_satisfies_pkg_request]. *)
Definition check_satisfies_pkg_request (spec : T) (request : PkgRequestWithOptions) : Compatibility :=
  let pkg := pr_pkg (pkg_request request) in
  if negb (bool_decide (ri_name pkg = pk_name spec)) then
    Incompatible (PackageNameMismatch (PackageName_PkgRequest (pk_name spec) (ri_name pkg)))
  else if pk_is_deprecated spec && negb (opt_Build_eq (ri_build pkg) (Some (pk_build spec))) then
    Incompatible BuildDeprecated
  else if excludes_prereleases (pr_prerelease_policy (pkg_request request)) &&
          negb (TagSet_is_empty (pre (spec_version spec))) then
    Incompatible PrereleasesNotAllowed
  else
    match check_components pkg spec with
    | Compatible =>
        match is_satisfied_by (Range_Filter (ri_version pkg)) spec RuleBinary with
        | Compatible =>
            if negb (negb (bool_decide (is_Some (ri_build pkg))) ||
                     opt_Build_eq (ri_build pkg) (Some (pk_build spec)))
            then Incompatible (BuildIdMismatch (BuildId_PkgRequest (pk_build spec) (ri_build pkg)))
            else check_required_options (pro_options request) spec
        | problem => problem
        end
    | problem => problem
    end.

(** ** Variable requests *)

Variable VersionRange_from_str : rstr -> res rstr VersionRange.

(** The option a variable request is about. *)
Definition find_opt (name request_name : rstr) (options : list Opt) : option Opt :=
  List.find (fun o => bool_decide (request_name = Opt_full_name o) ||
                      bool_decide (request_name = OptName_with_namespace (Opt_full_name o) name)) options.

(** [Satisfy<VarRequest<PinnedValue>> for PackageSpec]. *)
Definition check_var_opt (var request_value : rstr) (opt : VarOpt) : res Empty_set Compatibility :=
  let exact := VarOpt_get_value opt (Some request_value) in
  let text := default [] exact in
  let mismatch p := Ok (Incompatible (VarOptionMismatch p)) in
  if bool_decide (exact = Some request_value) then Ok Compatible
  else
    match vo_compat opt with
    | Some compat =>
        match parse_version text with
        | Panicked => Panicked
        | Err _ => mismatch (IncompatibleBuildOptionInvalidVersion var text request_value)
        | Ok base_version =>
            match parse_version request_value with
            | Panicked => Panicked
            | Err _ => mismatch (IncompatibleBuildOptionInvalidVersion var text request_value)
            | Ok request_version =>
                match is_binary_compatible compat base_version request_version with
                | Incompatible incompatible =>
                    mismatch (IncompatibleBuildOptionWithContext var
                      (default (lit "None") exact) request_value incompatible)
                | Compatible => Ok Compatible
                end
            end
        end
    | None => mismatch (IncompatibleBuildOption var (default (lit "None") exact) request_value)
    end.
Definition check_satisfies_var_request (spec : T) (request : VarRequest PinnedValue) :
    res Empty_set Compatibility :=
  let opt_required := bool_decide (OptName_namespace (vr_var request) = Some (pk_name spec)) in
  match find_opt (pk_name spec) (vr_var request) (pk_build_options spec) with
  | None => Ok (if opt_required then Incompatible (VarOptionMissing (vr_var request)) else Compatible)
  | Some (Opt_Pkg opt) => PkgOpt_validate VersionRange_from_str opt (Some (vr_value request))
  | Some (Opt_Var opt) => check_var_opt (vr_var request) (vr_value request) opt
  end.
End satisfy.
