(* ===== verification/Embedded.v ===== *)
(** * Embedded packages

    Models the packages that are embedded in another one, as a recipe
    (crates/spk-schema/src/v0/embedded_recipe_spec.rs, embedded_build_spec.rs,
    embedded_recipe_install_spec.rs) and as part of a built package
    (v0/embedded_package_spec.rs, embedded_install_spec.rs), and the lists of
    them (embedded_packages_list.rs).

    The fields no function here reads (metadata, sources, tests) are left out.
    Like a package, an embedded package caches its requirements with options. *)

From stdpp Require Import gmap.
From S2P Require Import Prelude Strings Collections Names Version VersionOrder.
From S2P Require Import Compat RangeData Reasons CompatCheck Intersection VersionRange.
From S2P Require Import Components Options Idents Requests Opts Requirements ComponentSpecs Satisfy.

(** ** Build sections *)

(** [TryFrom<RawEmbeddedBuildSpec>], which only has options. *)
Inductive EmbeddedBuildError := HasBuildScript | HasVariants | HasAutoHostVars.
Definition EmbeddedBuildSpec_try_from {Script Value : Type} `{!EqDecision Script} (default_script : Script)
    (options : list Opt) (script : option Script) (variants auto_host_vars : option Value) :
    res EmbeddedBuildError (list Opt) :=
  if match script with Some script => negb (bool_decide (script = default_script)) | None => false end
  then Err HasBuildScript
  else if bool_decide (is_Some variants) then Err HasVariants
  else if bool_decide (is_Some auto_host_vars) then Err HasAutoHostVars
  else Ok options.

(** [EmbeddedBuildSpec::render_all_pins]: options up to the first error. *)
Definition render_options (is_version_filter_and_build : rstr -> bool) {V} `{!Versioned V} (build : list Opt)
    (options : OptionMap) (resolved_by_name : rstr -> option V) : res OptError (list Opt) :=
  try_map (fun opt => Opt_render_all_pins is_version_filter_and_build opt options resolved_by_name false) build.

(** ** Lists of embedded packages *)

(** What they know of their elements: [AsVersionIdent], [Named], and the names
    of the components. *)
Class EmbeddedOps (E : Type) := {
  emb_ident : E -> VersionIdent;
  emb_component_names : E -> list Component;
}.
Section embedded_list.
Context {E : Type} `{!EmbeddedOps E}.
Definition emb_name (embedded : E) : rstr := id_base (emb_ident embedded).
Definition emb_version (embedded : E) : Version := id_target (emb_ident embedded).

Definition matches_embedded_package (embedded_package : ComponentEmbeddedPackage) (embedded : E) : bool :=
  bool_decide (emb_name embedded = id_base (cep_pkg embedded_package)) &&
  match id_target (cep_pkg embedded_package) with
  | None => true
  | Some version => Version_eq (emb_version embedded) version
  end.
Definition packages_matching_embedded_package (self : list E) (embedded_package : ComponentEmbeddedPackage) :
    list E := List.filter (matches_embedded_package embedded_package) self.
End embedded_list.

(** ** Embedded in built packages *)

Record EmbeddedInstallSpec (C : Type) := mkEmbeddedInstallSpec {
  ei_requirements : list PinnedRequest;
  ei_components : list C;
}.
Arguments mkEmbeddedInstallSpec {C} ei_requirements ei_components.
Arguments ei_requirements {C} e.
Arguments ei_components {C} e.

Record EmbeddedPackageSpec (C : Type) := mkEmbeddedPackageSpec {
  em_pkg : BuildIdent;
  em_compat : Compat;
  em_deprecated : bool;
  em_build : list Opt;
  em_install : EmbeddedInstallSpec C;
  em_install_requirements_with_options : list RequestWithOptions;
}.
Arguments mkEmbeddedPackageSpec {C} em_pkg em_compat em_deprecated em_build em_install
  em_install_requirements_with_options.
Arguments em_pkg {C} e.
Arguments em_compat {C} e.
Arguments em_deprecated {C} e.
Arguments em_build {C} e.
Arguments em_install {C} e.
Arguments em_install_requirements_with_options {C} e.

Section embedded_package.
Context {C : Type} `{!ComponentOps C, !ComponentSpecDefaults C}.
Implicit Types self : EmbeddedPackageSpec C.

Definition EmbeddedInstallSpec_default : EmbeddedInstallSpec C :=
  mkEmbeddedInstallSpec [] [default_build; default_run].
Definition EmbeddedPackageSpec_new (ident : BuildIdent) : EmbeddedPackageSpec C :=
  mkEmbeddedPackageSpec ident Compat_default false [] EmbeddedInstallSpec_default [].
Definition EmbeddedPackageSpec_new_unchecked (ident : BuildIdent) (compat : Compat) (build : list Opt)
    (requirements_with_options : list RequestWithOptions) (install : EmbeddedInstallSpec C) :
    EmbeddedPackageSpec C :=
  mkEmbeddedPackageSpec ident compat false build install requirements_with_options.

Definition em_calculate_requirements (build : list Opt) (install : EmbeddedInstallSpec C) :
    res Empty_set (list RequestWithOptions) := RequirementsList_with_options build (ei_requirements install).
(** [build_mut] for a closure that returns nothing. *)
Definition em_build_mut (f : list Opt -> list Opt) self : res Empty_set (EmbeddedPackageSpec C) :=
  requirements ← em_calculate_requirements (f (em_build self)) (em_install self);
  Ok (mkEmbeddedPackageSpec (em_pkg self) (em_compat self) (em_deprecated self) (f (em_build self))
        (em_install self) requirements).
(** [DeprecateMut]. *)
Definition em_set_deprecated (deprecated : bool) self : EmbeddedPackageSpec C :=
  mkEmbeddedPackageSpec (em_pkg self) (em_compat self) deprecated (em_build self) (em_install self)
    (em_install_requirements_with_options self).
(** The derived reader skips the cache. *)
Definition EmbeddedPackageSpec_read (pkg : BuildIdent) (compat : Compat) (deprecated : bool)
    (build : list Opt) (install : EmbeddedInstallSpec C) : EmbeddedPackageSpec C :=
  mkEmbeddedPackageSpec pkg compat deprecated build install [].

Definition em_name self : rstr := id_base (id_base (em_pkg self)).
Definition em_option_values self : OptionMap :=
  foldl (fun opts opt => bmap_insert (Opt_full_name opt) (Opt_get_value opt None) opts) [] (em_build self).

#[export] Instance EmbeddedOps_EmbeddedPackageSpec : EmbeddedOps (EmbeddedPackageSpec C) :=
  {| emb_ident := fun self => id_base (em_pkg self);
     emb_component_names := fun self => list_names (ei_components (em_install self)) |}.
#[export] Instance Versioned_EmbeddedPackageSpec : Versioned (EmbeddedPackageSpec C) :=
  {| spec_version := fun self => id_target (id_base (em_pkg self)); spec_compat := em_compat |}.
#[export] Instance Package_EmbeddedPackageSpec : Package (EmbeddedPackageSpec C) C :=
  {| pk_name := em_name;
     pk_is_deprecated := em_deprecated;
     pk_build := fun self => id_target (em_pkg self);
     pk_components := fun self => ei_components (em_install self);
     pk_build_options := em_build |}.

(** [Satisfy<PkgRequestWithOptions>]. *)
Definition em_check_satisfies_request (hash_order : list Component -> list Component) self
    (pkg_request : PkgRequestWithOptions) : Compatibility :=
  check_satisfies_pkg_request hash_order self pkg_request.
End embedded_package.

(** ** Embedded in recipes *)

Record EmbeddedRecipeInstallSpec := mkEmbeddedRecipeInstallSpec {
  eri_requirements : list PinnableRequest;
  eri_components : list RecipeComponentSpec;
}.
Record EmbeddedRecipeSpec := mkEmbeddedRecipeSpec {
  er_pkg : VersionIdent;
  er_compat : Compat;
  er_deprecated : bool;
  er_build : list Opt;
  er_install : EmbeddedRecipeInstallSpec;
}.

(** [version_ident_from_any_ident], of the identifier that was read. *)
Definition version_ident_from_any_ident (ident : AnyIdent) : VersionIdent := id_base ident.
(** [DeprecateMut]. *)
Definition er_set_deprecated (deprecated : bool) (self : EmbeddedRecipeSpec) : EmbeddedRecipeSpec :=
  mkEmbeddedRecipeSpec (er_pkg self) (er_compat self) deprecated (er_build self) (er_install self).

#[export] Instance EmbeddedOps_EmbeddedRecipeSpec : EmbeddedOps EmbeddedRecipeSpec :=
  {| emb_ident := er_pkg;
     emb_component_names := fun self => list_names (eri_components (er_install self)) |}.
#[export] Instance Versioned_EmbeddedRecipeSpec : Versioned EmbeddedRecipeSpec :=
  {| spec_version := fun self => id_target (er_pkg self); spec_compat := er_compat |}.

Definition EmbeddedRecipeInstallSpec_from (install : EmbeddedInstallSpec ComponentSpec) :
    EmbeddedRecipeInstallSpec :=
  mkEmbeddedRecipeInstallSpec (RequirementsList_from_pinned (ei_requirements install))
    (RecipeComponentSpecList_from (ei_components install)).
Definition EmbeddedRecipeSpec_from (pkg_spec : EmbeddedPackageSpec ComponentSpec) : EmbeddedRecipeSpec :=
  mkEmbeddedRecipeSpec (id_base (em_pkg pkg_spec)) (em_compat pkg_spec) (em_deprecated pkg_spec)
    (em_build pkg_spec) (EmbeddedRecipeInstallSpec_from (em_install pkg_spec)).

(** [crate::Error] where it is made of the errors below. *)
Inductive RenderError := RenderRequirements (e : RequirementsError) | RenderOption (e : OptError).
Definition render_requirements_error {A} (r : res RequirementsError A) : res RenderError A :=
  match r with Ok a => Ok a | Err e => Err (RenderRequirements e) | Panicked => Panicked end.
Definition render_option_error {A} (r : res OptError A) : res RenderError A :=
  match r with Ok a => Ok a | Err e => Err (RenderOption e) | Panicked => Panicked end.

Section render_embedded.
Variable VersionFilter_from_str : rstr -> res RangeError (list VersionRange).
Variable is_version_filter_and_build : rstr -> bool.
(** The resolved packages: their identifiers, and what is [Versioned]. *)
Context {V : Type} `{!Versioned V}.
Context (options : OptionMap) (resolved_idents : gmap rstr BuildIdent) (resolved_by_name : rstr -> option V).

Definition render_embedded_install (self : EmbeddedRecipeInstallSpec) :
    res RequirementsError (EmbeddedInstallSpec ComponentSpec) :=
  requirements ← render_all_pins VersionFilter_from_str (eri_requirements self) options resolved_idents;
  components ← render_components VersionFilter_from_str options resolved_idents (eri_components self);
  Ok (mkEmbeddedInstallSpec requirements components).

(** [new_binary_package_from_recipe], which is
    [EmbeddedRecipeSpec::render_all_pins]. *)
Definition new_binary_package_from_recipe (recipe : EmbeddedRecipeSpec) :
    res RenderError (EmbeddedPackageSpec ComponentSpec) :=
  install ← render_requirements_error (render_embedded_install (er_install recipe));
  with_options ← total (convert_requests_to_requests_with_options
    (omap as_opt_name_and_value (er_build recipe) ++ options) (ei_requirements install));
  build ← render_option_error (render_options is_version_filter_and_build (er_build recipe) options resolved_by_name);
  Ok (mkEmbeddedPackageSpec (VersionIdent_to_build_ident (er_pkg recipe) (BuildEmbedded EmbeddedUnknown))
        (er_compat recipe) (er_deprecated recipe) build install with_options).

(** [EmbeddedPackagesList::render_all_pins]. *)
Definition render_embedded (self : list EmbeddedRecipeSpec) :
    res RenderError (list (EmbeddedPackageSpec ComponentSpec)) :=
  try_map new_binary_package_from_recipe self.
End render_embedded.
