(* ===== verification/PackageSpec.v ===== *)
(** * Built packages

    Models the [PackageSpec] of crates/spk-schema/src/v0/package_spec.rs: the
    specification of a built package, what it requires at run time and of the
    packages built on it, its option values and the filters over them.

    The requirements with options in scope are cached in a private field;
    [cache_fresh] is the invariant that they are those of the build options and
    the install requirements.  The fields no function here reads (metadata,
    sources, tests, environment) are left out. *)

From stdpp Require Import gmap.
From S2P Require Import Prelude Strings Collections Names Version VersionOrder.
From S2P Require Import Compat RangeData Reasons CompatCheck Intersection VersionRange.
From S2P Require Import Components Options Idents Requests Opts Requirements Builds.
From S2P Require Import ComponentSpecs Satisfy Embedded.

(** [ComponentSpec::default_source]. *)
Class ComponentSourceDefault (C : Type) := default_source : C.
#[export] Instance ComponentSourceDefault_ComponentSpec : ComponentSourceDefault ComponentSpec :=
  ComponentSpec_default_source.

Section package_spec.
Context {C : Type} `{!ComponentOps C, !ComponentSpecDefaults C, !ComponentSourceDefault C}.

(** [InstallSpec<PinnedRequest>]. *)
Record InstallSpec := mkInstallSpec {
  is_requirements : list PinnedRequest;
  is_embedded : list (EmbeddedPackageSpec C);
  is_components : list C;
}.
Definition InstallSpec_default : InstallSpec := mkInstallSpec [] [] [default_build; default_run].

(** [ps_build] are the options of the [BuildSpec], its only field. *)
Record PackageSpec := mkPackageSpec {
  ps_pkg : BuildIdent;
  ps_compat : Compat;
  ps_deprecated : bool;
  ps_build : list Opt;
  ps_install : InstallSpec;
  ps_install_requirements_with_options : list RequestWithOptions;
}.
Implicit Types self : PackageSpec.

Definition PackageSpec_name self : rstr := id_base (id_base (ps_pkg self)).
Definition PackageSpec_version self : Version := id_target (id_base (ps_pkg self)).

Definition calculate_install_requirements_with_options (build : list Opt) (install : InstallSpec) :
    res Empty_set (list RequestWithOptions) :=
  RequirementsList_with_options build (is_requirements install).

(** [new] and [new_from_parts]. *)
Definition PackageSpec_new (ident : BuildIdent) : PackageSpec :=
  mkPackageSpec ident Compat_default false [] InstallSpec_default [].
Definition new_from_parts (pkg : BuildIdent) (compat : Compat) (deprecated : bool) (build : list Opt)
    (install : InstallSpec) : res Empty_set PackageSpec :=
  requirements ← calculate_install_requirements_with_options build install;
  Ok (mkPackageSpec pkg compat deprecated build install requirements).

(** [build_mut] and [install_mut], for a closure that returns nothing. *)
Definition build_mut (f : list Opt -> list Opt) self : res Empty_set PackageSpec :=
  new_from_parts (ps_pkg self) (ps_compat self) (ps_deprecated self) (f (ps_build self)) (ps_install self).
Definition install_mut (f : InstallSpec -> InstallSpec) self : res Empty_set PackageSpec :=
  new_from_parts (ps_pkg self) (ps_compat self) (ps_deprecated self) (ps_build self) (f (ps_install self)).

(** [prune_for_source_build] leaves the cached requirements alone. *)
Definition prune_for_source_build self : PackageSpec :=
  mkPackageSpec (ps_pkg self) (ps_compat self) (ps_deprecated self) []
    (mkInstallSpec [] (is_embedded (ps_install self)) [default_source])
    (ps_install_requirements_with_options self).

(** [new_source_package_from_recipe_with_root], of a recipe's parts. *)
Definition new_source_package (ident : VersionIdent) (compat : Compat) (deprecated : bool)
    (build : list Opt) : res Empty_set PackageSpec :=
  spec ← new_from_parts (VersionIdent_to_build_ident ident BuildSource) compat deprecated build
           InstallSpec_default;
  Ok (prune_for_source_build spec).

(** [DeprecateMut] and [set_build]. *)
Definition set_deprecated (deprecated : bool) self : PackageSpec :=
  mkPackageSpec (ps_pkg self) (ps_compat self) deprecated (ps_build self) (ps_install self)
    (ps_install_requirements_with_options self).
Definition set_build (build : Build) self : PackageSpec :=
  mkPackageSpec (with_target (ps_pkg self) build) (ps_compat self) (ps_deprecated self) (ps_build self)
    (ps_install self) (ps_install_requirements_with_options self).

(** [insert_or_merge_install_requirement]: the cache is refreshed also when the
    requirement could not be merged. *)
Definition insert_or_merge_install_requirement (permutations2 : forall A : Type, list A -> list (A * A))
    (req : PinnedRequest) self : res Empty_set (option RequirementsError * PackageSpec) :=
  let install := ps_install self in
  '(outcome, requirements) ← insert_or_merge_pinned permutations2 req (is_requirements install);
  spec ← install_mut (fun install =>
    mkInstallSpec requirements (is_embedded install) (is_components install)) self;
  Ok (outcome, spec).

(** *** The traits of a package *)

#[export] Instance Versioned_PackageSpec : Versioned PackageSpec :=
  {| spec_version := PackageSpec_version; spec_compat := ps_compat |}.
#[export] Instance Package_PackageSpec : Package PackageSpec C :=
  {| pk_name := PackageSpec_name;
     pk_is_deprecated := ps_deprecated;
     pk_build := fun self => id_target (ps_pkg self);
     pk_components := fun self => is_components (ps_install self);
     pk_build_options := ps_build |}.

Definition option_values self : OptionMap :=
  foldl (fun opts opt => bmap_insert (Opt_full_name opt) (Opt_get_value opt None) opts) [] (ps_build self).
Definition runtime_requirements self : list RequestWithOptions := ps_install_requirements_with_options self.

(** [matches_all_filters]: [None] for no filters; a filter is a name and a value. *)
Definition matches_filter (from_str : rstr -> res rstr VersionRange) self (filter : rstr * rstr) :
    res Empty_set bool :=
  if negb (bmap_contains_key filter.1 (option_values self)) then Ok true
  else
    compat ← check_satisfies_var_request from_str self (VarRequest_new_with_value filter.1 filter.2);
    Ok (is_ok compat).
Fixpoint matches_filters (from_str : rstr -> res rstr VersionRange) self (filters : list (rstr * rstr)) :
    res Empty_set bool :=
  match filters with
  | [] => Ok true
  | filter :: filters =>
      match matches_filter from_str self filter with
      | Ok true => matches_filters from_str self filters
      | problem => problem
      end
  end.
Definition matches_all_filters from_str self (filter_by : option (list (rstr * rstr))) : res Empty_set bool :=
  match filter_by with
  | Some filters => matches_filters from_str self filters
  | None => Ok true
  end.

(** [downstream_requirements]: the variables of the package and of the packages
    embedded in it that pass the filter; a name met twice fails an [expect]. *)
Definition namespaced_vars (name : rstr) (options : list Opt) : list VarOpt :=
  omap (fun opt => match opt with
                   | Opt_Var v => Some (VarOpt_with_default_namespace v name)
                   | Opt_Pkg _ => None
                   end) options.
Definition downstream_vars self : list VarOpt :=
  namespaced_vars (PackageSpec_name self) (ps_build self) ++
  concat ((fun embed => namespaced_vars (em_name embed) (em_build embed)) <$> is_embedded (ps_install self)).
Definition downstream_request (o : VarOpt) : RequestWithOptions :=
  RequestWithOptions_Var (mkVarRequest (vo_var o) (default [] (VarOpt_get_value o None)) (vo_description o)).
Definition downstream_of (permutations2 : forall A : Type, list A -> list (A * A))
    (keep : VarOpt -> bool) (vars : list VarOpt) : res Empty_set (list RequestWithOptions) :=
  match try_from_iter (Restrictable0 := Restrictable_RequestWithOptions permutations2)
          (downstream_request <$> List.filter keep vars) with
  | Ok requests => Ok requests
  | _ => Panicked
  end.
Definition downstream_requirements permutations2 (keep : VarOpt -> bool) self :=
  downstream_of permutations2 keep (downstream_vars self).
Definition for_build (o : VarOpt) : bool := negb (bool_decide (VarOpt_inheritance o = Weak)).
Definition for_runtime (o : VarOpt) : bool := bool_decide (VarOpt_inheritance o = Strong) || vo_required o.
Definition downstream_build_requirements permutations2 self :=
  downstream_requirements permutations2 for_build self.
Definition downstream_runtime_requirements permutations2 self :=
  downstream_requirements permutations2 for_runtime self.

(** The same of an embedded package, of its own variables. *)
Definition em_downstream_requirements permutations2 (keep : VarOpt -> bool) (self : EmbeddedPackageSpec C) :=
  downstream_of permutations2 keep (namespaced_vars (em_name self) (em_build self)).
Definition em_downstream_build_requirements permutations2 (self : EmbeddedPackageSpec C) :=
  em_downstream_requirements permutations2 for_build self.
Definition em_downstream_runtime_requirements permutations2 (self : EmbeddedPackageSpec C) :=
  em_downstream_requirements permutations2 for_runtime self.

(** [From<EmbeddedPackageSpec>] with [From<EmbeddedInstallSpec>], and
    [embedded_as_packages]. *)
Definition InstallSpec_from (embedded : EmbeddedInstallSpec C) : InstallSpec :=
  mkInstallSpec (ei_requirements embedded) [] (ei_components embedded).
Definition PackageSpec_from (embed : EmbeddedPackageSpec C) : PackageSpec :=
  mkPackageSpec (em_pkg embed) (em_compat embed) (em_deprecated embed) (em_build embed)
    (InstallSpec_from (em_install embed)) (em_install_requirements_with_options embed).
Definition embedded_as_packages self : list (PackageSpec * option Component) :=
  (fun embed => (PackageSpec_from embed, None)) <$> is_embedded (ps_install self).

(** [get_build_env]. *)
Definition get_build_env self : gmap rstr rstr :=
  let version := PackageSpec_version self in
  list_to_map [ (lit "SPK_PKG", BuildIdent_fmt false (ps_pkg self));
    (lit "SPK_PKG_NAME", PackageSpec_name self);
    (lit "SPK_PKG_VERSION", Version_to_string version);
    (lit "SPK_PKG_BUILD", Build_digest (id_target (ps_pkg self)));
    (lit "SPK_PKG_VERSION_MAJOR", dec (major version));
    (lit "SPK_PKG_VERSION_MINOR", dec (minor version));
    (lit "SPK_PKG_VERSION_PATCH", dec (patch version));
    (lit "SPK_PKG_VERSION_BASE", join [c_dot] (dec <$> parts (vparts version))) ].

(** The end of [SpecVisitor::visit_map] and of [Deserialize], on the fields read. *)
Definition PackageSpec_read (pkg : BuildIdent) (compat : Compat) (deprecated : bool) (build : list Opt)
    (install : InstallSpec) : res Empty_set PackageSpec :=
  spec ← new_from_parts pkg compat deprecated build install;
  Ok (if Build_is_source (id_target (ps_pkg spec)) then prune_for_source_build spec else spec).
End package_spec.
Arguments InstallSpec C : clear implicits.
Arguments PackageSpec C : clear implicits.

(** ** Theorems *)

Section package_spec_facts.
Context {C : Type} `{!ComponentOps C, !ComponentSpecDefaults C, !ComponentSourceDefault C}.
Implicit Types self spec : PackageSpec C.

(** The cached requirements are the install requirements with the options in
    scope. *)
Definition cache_fresh self : Prop :=
  calculate_install_requirements_with_options (ps_build self) (ps_install self) =
  Ok (ps_install_requirements_with_options self).

Lemma fresh_from_parts pkg compat deprecated build (install : InstallSpec C) spec :
  new_from_parts pkg compat deprecated build install = Ok spec -> cache_fresh spec.
Proof. unfold new_from_parts. by intros (r & Hr & [= <-])%bind_Ok. Qed.

Lemma no_requirements_cached pkg compat deprecated build (install : InstallSpec C) spec :
  is_requirements install = [] -> new_from_parts pkg compat deprecated build install = Ok spec ->
  ps_install_requirements_with_options spec = [].
Proof.
  intros Hi. unfold new_from_parts, calculate_install_requirements_with_options, RequirementsList_with_options,
    convert_requests_to_requests_with_options. rewrite Hi.
  intros (r & (index & _ & (index' & _ & [= <-])%bind_Ok)%bind_Ok & [= <-])%bind_Ok. done.
Qed.

(** The cached runtime requirements are never stale: every constructor makes
    them, and every operation that changes the package keeps them, those of the
    current build options and install requirements, and so does reading a
    package that is not a source package. *)
Theorem requirements_cache_fresh permutations2 ident vident compat deprecated build (install : InstallSpec C) self :
  cache_fresh self ->
  cache_fresh (PackageSpec_new (C := C) ident) /\
  (forall spec, new_from_parts ident compat deprecated build install = Ok spec -> cache_fresh spec) /\
  (forall spec, new_source_package (C := C) vident compat deprecated build = Ok spec -> cache_fresh spec) /\
  (forall f spec, build_mut f self = Ok spec -> cache_fresh spec) /\
  (forall f spec, install_mut f self = Ok spec -> cache_fresh spec) /\
  (forall d, cache_fresh (set_deprecated d self)) /\ (forall b, cache_fresh (set_build b self)) /\
  (forall req o spec, insert_or_merge_install_requirement permutations2 req self = Ok (o, spec) -> cache_fresh spec) /\
  (forall spec, Build_is_source (id_target ident) = false ->
     PackageSpec_read ident compat deprecated build install = Ok spec -> cache_fresh spec).
Proof.
  intros Hf. split_and!; try done.
  - intros spec. apply fresh_from_parts.
  - intros spec (s & Hs & [= <-])%bind_Ok. unfold cache_fresh. cbn [prune_for_source_build ps_build ps_install
      ps_install_requirements_with_options]. by rewrite (no_requirements_cached _ _ _ _ InstallSpec_default s eq_refl Hs).
  - intros f spec. apply fresh_from_parts.
  - intros f spec. apply fresh_from_parts.
  - intros req o spec ([o' rs] & _ & (s & Hs & [= _ <-])%bind_Ok)%bind_Ok. by eapply fresh_from_parts.
  - intros spec Hb (s & Hs & [= <-])%bind_Ok. assert (ps_pkg s = ident) as ->.
    { by apply bind_Ok in Hs as (r & _ & [= <-]). }
    rewrite Hb. by eapply fresh_from_parts.
Qed.
End package_spec_facts.

#[export] Instance ComponentSourceDefault_tuple :
    ComponentSourceDefault (Component * ComponentFileMatchMode * list Component) :=
  (ComponentSource, MatchAll, []).

Abbreviation TupleSpec := (PackageSpec (Component * ComponentFileMatchMode * list Component)).

Definition example_ident (build : Build) : BuildIdent :=
  mkIdent (mkIdent (lit "my-pkg") (from_parts [1]%N)) build.

Lemma requirements_cache_fresh_witness :
  exists spec : TupleSpec,
    install_mut (fun install => mkInstallSpec [example_var (lit "python.abi") (lit "cp37")]
      (is_embedded install) (is_components install)) (PackageSpec_new (example_ident Build_empty)) = Ok spec /\
    cache_fresh spec.
Proof.
  eexists. split; [vm_compute; reflexivity|].
  destruct (requirements_cache_fresh (C := Component * ComponentFileMatchMode * list Component)
    (fun _ _ => []) (example_ident Build_empty) (mkIdent (lit "my-pkg") (from_parts [1]%N))
    Compat_default false [] InstallSpec_default (PackageSpec_new (example_ident Build_empty)))
    as (_ & _ & _ & _ & H & _); [reflexivity|].
  apply (H (fun install => mkInstallSpec [example_var (lit "python.abi") (lit "cp37")]
      (is_embedded install) (is_components install))). vm_compute. reflexivity.
Defined.

(** Reading a source package prunes its requirements and leaves them in the
    cache: [runtime_requirements] still answers them. *)
Lemma read_source_keeps_requirements :
  exists spec : TupleSpec,
    PackageSpec_read (example_ident BuildSource) Compat_default false []
      (mkInstallSpec [example_var (lit "python") (lit "3.7")] [] []) = Ok spec /\
    is_requirements (ps_install spec) = [] /\ runtime_requirements spec <> [] /\ ~ cache_fresh spec.
Proof. eexists. split; [vm_compute; reflexivity|]. by split_and!; vm_compute. Qed.

(** A package with an option given both with and without its own namespace
    has distinct option names, and makes [downstream_requirements] panic. *)
Lemma namespaced_twice_panics permutations2 :
  downstream_runtime_requirements permutations2
    (mkPackageSpec (example_ident Build_empty) Compat_default false
      [Opt_Var (mkVarOpt (lit "abi") (lit "cp37") [] Strong None None false None);
       Opt_Var (mkVarOpt (lit "my-pkg.abi") (lit "cp37") [] Strong None None false None)]
      (InstallSpec_default (C := Component * ComponentFileMatchMode * list Component)) [])  = Panicked.
Proof. by vm_compute. Qed.
