(* ===== verification/Installs.v ===== *)
(** * Install sections

    Models what reading the [install] section of a built package
    (crates/spk-schema/src/install_spec.rs) and of a recipe
    (v0/recipe_install_spec.rs) does to the components in it: which components
    of which embedded packages each of them embeds; and the rendering of a
    recipe's install section.  Environment operations are left out. *)

From stdpp Require Import gmap.
From S2P Require Import Prelude Strings Collections Names Version VersionOrder.
From S2P Require Import Compat RangeData Reasons CompatCheck Intersection VersionRange.
From S2P Require Import Components Options Idents Requests Opts Requirements Builds.
From S2P Require Import ComponentSpecs Satisfy Embedded PackageSpec.

Section populate.
Context {C E : Type} `{!ComponentOps C, !ComponentEmbeds C, !EmbeddedOps E}.
Implicit Types (embedded : list E) (component : C) (embedded_package : ComponentEmbeddedPackage).

(** Equality of the [HashSet]s of component names. *)
Definition same_names (a b : E) : bool :=
  bool_decide (bset_collect (emb_component_names a) = bset_collect (emb_component_names b)).

(** The expansion of "all" in an entry; the [expect] may panic. *)
Definition expand_all embedded embedded_package : res Empty_set ComponentEmbeddedPackage :=
  if negb (bset_contains ComponentAll (cep_components embedded_package)) then Ok embedded_package
  else
    match packages_matching_embedded_package embedded embedded_package with
    | [] => Ok embedded_package
    | target :: matching =>
        if negb (forallb (fun another => same_names another target) matching) then Ok embedded_package
        else
          let new_components := emb_component_names target in
          if bool_decide (new_components = []) then Ok embedded_package
          else match replace_all embedded_package new_components with
               | Ok embedded_package => Ok embedded_package
               | _ => Panicked
               end
    end.
Definition expand_component embedded component : res Empty_set C :=
  let list := co_embedded component in
  components ← try_map (expand_all embedded) (cel_components list);
  Ok (set_embedded (mkComponentEmbeddedPackagesList components (cel_fabricated list)) component).

(** The default for a component that embeds nothing. *)
Definition default_entry component (embedded : E) : option ComponentEmbeddedPackage :=
  if bool_decide (co_name component ∈ emb_component_names embedded)
  then Some (ComponentEmbeddedPackage_new (mkIdent (emb_name embedded) None) (co_name component))
  else None.
Definition populate_default embedded component : C :=
  if negb (bool_decide (cel_components (co_embedded component) = [])) then component
  else set_embedded (set_fabricated (ComponentEmbeddedPackagesList_from (omap (default_entry component) embedded)))
         component.

Definition populate embedded (components : list C) : res Empty_set (list C) :=
  if bool_decide (embedded = []) then Ok components
  else
    components ← try_map (expand_component embedded) components;
    Ok (if bool_decide (NoDup (emb_name <$> embedded)) then (populate_default embedded <$> components : list C)
        else components).
End populate.

(** [From<RawInstallSpec>]. *)
Definition InstallSpec_from_raw (requirements : list PinnedRequest)
    (embedded : list (EmbeddedPackageSpec ComponentSpec)) (components : list ComponentSpec) :
    res Empty_set (InstallSpec ComponentSpec) :=
  components ← populate embedded components; Ok (mkInstallSpec requirements embedded components).

Record RecipeInstallSpec := mkRecipeInstallSpec {
  ri_requirements : list PinnableRequest;
  ri_embedded : list EmbeddedRecipeSpec;
  ri_spec_components : list RecipeComponentSpec;
}.
(** [From<RawRecipeInstallSpec>]. *)
Definition RecipeInstallSpec_from_raw (requirements : list PinnableRequest)
    (embedded : list EmbeddedRecipeSpec) (components : list RecipeComponentSpec) :
    res Empty_set RecipeInstallSpec :=
  components ← populate embedded components; Ok (mkRecipeInstallSpec requirements embedded components).

(** [From<InstallSpec<PinnedRequest>>]. *)
Definition RecipeInstallSpec_from (install : InstallSpec ComponentSpec) : RecipeInstallSpec :=
  mkRecipeInstallSpec (RequirementsList_from_pinned (is_requirements install))
    (EmbeddedRecipeSpec_from <$> is_embedded install)
    (RecipeComponentSpecList_from (is_components install)).

Section render_install.
Variable VersionFilter_from_str : rstr -> res RangeError (list VersionRange).
Variable is_version_filter_and_build : rstr -> bool.
Context {V : Type} `{!Versioned V}.
Context (options : OptionMap) (resolved_idents : gmap rstr BuildIdent) (resolved_by_name : rstr -> option V).

(** [RecipeInstallSpec::render_all_pins]. *)
Definition render_install (self : RecipeInstallSpec) : res RenderError (InstallSpec ComponentSpec) :=
  requirements ← render_requirements_error
    (render_all_pins VersionFilter_from_str (ri_requirements self) options resolved_idents);
  embedded ← render_embedded VersionFilter_from_str is_version_filter_and_build options resolved_idents
    resolved_by_name (ri_embedded self);
  components ← render_requirements_error
    (render_components VersionFilter_from_str options resolved_idents (ri_spec_components self));
  Ok (mkInstallSpec requirements embedded components).
End render_install.

(** ** Theorems *)

Section populate_facts.
Context {C E : Type} `{!ComponentOps C, !ComponentEmbeds C, !ComponentEmbedsLaws C, !EmbeddedOps E}.
Implicit Types (embedded : list E) (component : C) (p : ComponentEmbeddedPackage).

Lemma same_names_iff (a b : E) :
  same_names a b = true <-> forall c, c ∈ emb_component_names a <-> c ∈ emb_component_names b.
Proof.
  unfold same_names. rewrite bool_decide_eq_true. split.
  - intros H c. by rewrite <-(elem_of_bset_collect c (emb_component_names a)), H, elem_of_bset_collect.
  - intros H. apply bset_ext; [apply bset_wf_collect..|]. intros c. by rewrite !elem_of_bset_collect.
Qed.

(** The embedded packages an entry means, and whether they agree on what all of
    their components are. *)
Definition means embedded p (e : E) : Prop := e ∈ embedded /\ matches_embedded_package p e = true.
Definition expands embedded p : Prop :=
  ComponentAll ∈ cep_components p /\
  (exists e c, means embedded p e /\ c ∈ emb_component_names e) /\
  forall e e' c, means embedded p e -> means embedded p e' -> c ∈ emb_component_names e -> c ∈ emb_component_names e'.

Lemma elem_of_matching embedded p e :
  e ∈ packages_matching_embedded_package embedded p <-> means embedded p e.
Proof.
  unfold packages_matching_embedded_package, means. by rewrite list_elem_of_In, filter_In, <-list_elem_of_In.
Qed.

Lemma insert_no_all_spec components iter :
  ComponentAll ∉ iter ->
  exists l, insert_no_all components iter = Ok l /\ forall c, c ∈ l <-> c ∈ components \/ c ∈ iter.
Proof.
  revert components. induction iter as [|d iter IH]; intros components Hall; cbn [insert_no_all].
  - exists components. split; [done|]. intros c. rewrite elem_of_nil. tauto.
  - apply not_elem_of_cons in Hall as [Hd Hall]. replace (Component_is_all d) with false by by destruct d.
    destruct (IH (bset_insert d components) Hall) as (l & -> & Hl). exists l. split; [done|].
    intros c. rewrite Hl, elem_of_bset_insert, elem_of_cons. tauto.
Qed.
Lemma replace_all_spec p iter :
  ComponentAll ∉ iter -> iter <> [] ->
  exists p', replace_all p iter = Ok p' /\ cep_pkg p' = cep_pkg p /\
    forall c, c ∈ cep_components p' <-> (c ∈ cep_components p /\ c <> ComponentAll) \/ c ∈ iter.
Proof.
  intros Hall Hne. unfold replace_all.
  destruct (insert_no_all_spec (List.filter (fun c => negb (Component_is_all c)) (cep_components p)) iter Hall)
    as (l & -> & Hl). cbn [mbind res_bind]. rewrite bool_decide_eq_false_2.
  - eexists. split_and!; [done..|]. cbn [cep_components]. intros c. rewrite Hl.
    rewrite list_elem_of_In, filter_In, <-list_elem_of_In. destruct c; cbn; intuition congruence.
  - intros ->. destruct iter as [|c iter]; [done|]. apply (not_elem_of_nil c), Hl. right. by left.
Qed.

(** What becomes of an entry. *)
Record expanded embedded p p' : Prop := {
  expanded_pkg : cep_pkg p' = cep_pkg p;
  expanded_in : expands embedded p -> forall c, c ∈ cep_components p' <->
    (c ∈ cep_components p /\ c <> ComponentAll) \/ exists e, means embedded p e /\ c ∈ emb_component_names e;
  expanded_not : ~ expands embedded p -> p' = p;
}.

Lemma expand_all_spec embedded p :
  Forall (fun e => ComponentAll ∉ emb_component_names e) embedded ->
  exists p', expand_all embedded p = Ok p' /\ expanded embedded p p'.
Proof.
  intros Hwf. rewrite Forall_forall in Hwf. unfold expand_all.
  destruct (bset_contains ComponentAll (cep_components p)) eqn:Hall; cbn [negb].
  2:{ apply bset_contains_false in Hall. exists p. split; [done|]. split; [done| |done].
      by intros [? _]. }
  apply bset_contains_iff in Hall. pose proof (elem_of_matching embedded p) as Hm.
  destruct (packages_matching_embedded_package embedded p) as [|target matching] eqn:Ep.
  { exists p. split; [done|]. split; [done| |done]. intros (_ & (e & c & He%Hm & _) & _).
    by apply elem_of_nil in He. }
  assert (means embedded p target) as Ht by (apply Hm; by left).
  destruct (forallb (fun another => same_names another target) matching) eqn:Hsame; cbn [negb].
  2:{ exists p. split; [done|]. split; [done| |done]. intros (_ & _ & Heq). exfalso.
      enough (forallb (fun another => same_names another target) matching = true) by congruence.
      apply forallb_forall. intros e He%list_elem_of_In. apply same_names_iff. intros c.
      assert (means embedded p e) by (apply Hm; by right). split; by apply Heq. }
  assert (forall e c, means embedded p e -> c ∈ emb_component_names e <-> c ∈ emb_component_names target) as Heq.
  { intros e c He%Hm. apply elem_of_cons in He as [->|He]; [done|].
    rewrite forallb_forall in Hsame. apply list_elem_of_In, Hsame in He. by rewrite same_names_iff in He. }
  case_bool_decide as Hnil.
  { exists p. split; [done|]. split; [done| |done]. intros (_ & (e & c & He & Hc) & _).
    rewrite (Heq e c He), Hnil in Hc. by apply elem_of_nil in Hc. }
  destruct (replace_all_spec p (emb_component_names target)) as (p' & -> & Hpkg & Hp'); [by apply Hwf, Ht|done|].
  exists p'. split; [done|]. split; [done| |].
  - intros _ c. rewrite Hp'. split; (intros [?|Hc]; [by left|right]).
    + by exists target.
    + destruct Hc as (e & He & Hc). by rewrite <-(Heq e c He).
  - intros Hn. exfalso. apply Hn. split; [done|]. split.
    + destruct (emb_component_names target) as [|c l] eqn:El; [done|]. exists target, c. rewrite El.
      split; [done|by left].
    + intros e e' c He He'. by rewrite (Heq e c He), (Heq e' c He').
Qed.

(** What becomes of a component. *)
Record populated embedded (c c' : C) : Prop := {
  populated_name : co_name c' = co_name c;
  populated_uses : co_uses c' = co_uses c;
  populated_given : cel_components (co_embedded c) <> [] ->
    Forall2 (expanded embedded) (cel_components (co_embedded c)) (cel_components (co_embedded c')) /\
    is_fabricated (co_embedded c') = is_fabricated (co_embedded c);
  populated_default : cel_components (co_embedded c) = [] -> NoDup (emb_name <$> embedded) ->
    is_fabricated (co_embedded c') = true /\
    forall p, p ∈ cel_components (co_embedded c') <->
      exists e, e ∈ embedded /\ co_name c ∈ emb_component_names e /\
        p = mkComponentEmbeddedPackage (mkIdent (emb_name e) None) [co_name c];
  populated_ambiguous : cel_components (co_embedded c) = [] -> ~ NoDup (emb_name <$> embedded) ->
    co_embedded c' = co_embedded c;
}.

Lemma expand_component_spec embedded (c : C) :
  Forall (fun e => ComponentAll ∉ emb_component_names e) embedded ->
  exists c', expand_component embedded c = Ok c' /\ co_name c' = co_name c /\ co_uses c' = co_uses c /\
    Forall2 (expanded embedded) (cel_components (co_embedded c)) (cel_components (co_embedded c')) /\
    cel_fabricated (co_embedded c') = cel_fabricated (co_embedded c).
Proof.
  intros Hwf. unfold expand_component.
  assert (exists l, try_map (expand_all embedded) (cel_components (co_embedded c)) = Ok l /\
    Forall2 (expanded embedded) (cel_components (co_embedded c)) l) as (l & Hl & Hex).
  { induction (cel_components (co_embedded c)) as [|p ps (l & Hl & Hex)]; [by exists []|].
    destruct (expand_all_spec embedded p Hwf) as (p' & Hp & Hp'). exists (p' :: l). cbn [try_map].
    rewrite Hp, Hl. split; [done|by constructor]. }
  rewrite Hl. eexists. split; [done|].
  by rewrite co_name_set_embedded, co_uses_set_embedded, co_embedded_set_embedded.
Qed.

Lemma populate_default_name embedded (c : C) : co_name (populate_default embedded c) = co_name c.
Proof. unfold populate_default. destruct (negb _); [done|apply co_name_set_embedded]. Qed.
Lemma populate_default_uses embedded (c : C) : co_uses (populate_default embedded c) = co_uses c.
Proof. unfold populate_default. destruct (negb _); [done|apply co_uses_set_embedded]. Qed.
Lemma populate_default_spec embedded (c : C) : cel_components (co_embedded c) = [] ->
  is_fabricated (co_embedded (populate_default embedded c)) = true /\
  forall p, p ∈ cel_components (co_embedded (populate_default embedded c)) <->
    exists e, e ∈ embedded /\ co_name c ∈ emb_component_names e /\
      p = mkComponentEmbeddedPackage (mkIdent (emb_name e) None) [co_name c].
Proof.
  intros Hc. unfold populate_default. rewrite bool_decide_eq_true_2 by done. cbn [negb].
  rewrite co_embedded_set_embedded. split; [done|].
  cbn [set_fabricated ComponentEmbeddedPackagesList_from cel_components]. intros p.
  rewrite list_elem_of_omap. unfold default_entry. split; intros (e & He & Hp); exists e.
  - case_bool_decide; [|done]. by injection Hp as <-.
  - destruct Hp as [Hp ->]. by rewrite bool_decide_eq_true_2.
Qed.

(** Reading an install section settles which components of which embedded packages
    every component embeds.  An entry for all components of a package becomes
    one for exactly the components the packages it means have, if they agree;
    a component without entries gets one for every embedded package that has a
    component of its name, provided no package is embedded twice; all else
    stays as written.  Reading never panics when no embedded package calls a
    component "all", which the reader of component lists rules out. *)
Theorem populate_exact embedded (components : list C) :
  embedded <> [] -> Forall (fun e => ComponentAll ∉ emb_component_names e) embedded ->
  exists components', populate embedded components = Ok components' /\
    Forall2 (populated embedded) components components'.
Proof.
  intros Hne Hwf. unfold populate. rewrite bool_decide_eq_false_2 by done.
  assert (exists l, try_map (expand_component embedded) components = Ok l /\
    Forall2 (fun c c' => co_name c' = co_name c /\ co_uses c' = co_uses c /\
      Forall2 (expanded embedded) (cel_components (co_embedded c)) (cel_components (co_embedded c')) /\
      cel_fabricated (co_embedded c') = cel_fabricated (co_embedded c)) components l) as (l & -> & Hex).
  { induction components as [|c cs (l & Hl & Hex)]; [by exists []|].
    destruct (expand_component_spec embedded c Hwf) as (c' & Hc & Hc'). exists (c' :: l). cbn [try_map].
    rewrite Hc, Hl. split; [done|by constructor]. }
  eexists. split; [done|].
  assert (forall c' c, Forall2 (expanded embedded) (cel_components (co_embedded c)) (cel_components (co_embedded c')) ->
    cel_components (co_embedded c) = [] <-> cel_components (co_embedded c') = []) as Hnil.
  { intros c' c Hf%Forall2_length. rewrite <-!length_zero_iff_nil. by rewrite Hf. }
  case_bool_decide as Hnd.
  - apply Forall2_fmap_r. eapply Forall2_impl; [exact Hex|]. intros c c' (Hn & Hu & Hf & Hfab).
    change (populated embedded c (populate_default embedded c')).
    destruct (decide (cel_components (co_embedded c) = [])) as [Hc|Hc].
    + assert (cel_components (co_embedded c') = []) as Hc' by (by apply (Hnil c' c Hf)).
      destruct (populate_default_spec embedded c' Hc') as [Hf' Hp].
      split; [by rewrite populate_default_name|by rewrite populate_default_uses|done| |done].
      intros _ _. split; [done|]. by rewrite <-Hn.
    + assert (populate_default embedded c' = c') as ->; [|by split].
      unfold populate_default. rewrite bool_decide_eq_false_2; [done|]. intros Hc'. by apply Hc, (Hnil c' c Hf).
  - eapply Forall2_impl; [exact Hex|]. intros c c' (Hn & Hu & Hf & Hfab). split; try done.
    intros Hc _. assert (cel_components (co_embedded c') = []) as Hc' by (by apply (Hnil c' c Hf)).
    destruct (co_embedded c) as [l1 f1], (co_embedded c') as [l2 f2]. cbn in *. by subst.
Qed.
End populate_facts.

Definition example_embedded (name : rstr) (components : list Component) : EmbeddedPackageSpec ComponentSpec :=
  mkEmbeddedPackageSpec (mkIdent (mkIdent name (from_parts [1]%N)) (BuildEmbedded EmbeddedUnknown))
    Compat_default false []
    (mkEmbeddedInstallSpec [] ((fun c => empty_component c FileMatcher_all) <$> components)) [].

Lemma populate_exact_witness :
  exists components', populate [example_embedded (lit "python") [ComponentBuild; ComponentRun]]
    [ComponentSpec_default_run] = Ok components' /\
    Forall2 (populated [example_embedded (lit "python") [ComponentBuild; ComponentRun]])
      [ComponentSpec_default_run] components'.
Proof.
  apply (populate_exact (C := ComponentSpec)); [done|]. apply Forall_singleton. vm_compute.
  intros [H|[H|[]%elem_of_nil]%elem_of_cons]%elem_of_cons; discriminate.
Defined.

(** ** Reading and rendering embedded packages *)

(** An embedded package that is read comes without its requirements: the field
    that caches them is skipped, and unlike that of a package it is not
    recomputed.  As a package of its own it requires nothing at run time,
    whatever its install section says. *)
Lemma read_embedded_requires_nothing {C} pkg compat deprecated build (install : EmbeddedInstallSpec C) :
  runtime_requirements (PackageSpec_from (EmbeddedPackageSpec_read pkg compat deprecated build install)) = [].
Proof. done. Qed.
Lemma read_embedded_not_fresh :
  exists embedded : EmbeddedPackageSpec ComponentSpec,
    embedded = EmbeddedPackageSpec_read (example_ident (BuildEmbedded EmbeddedUnknown)) Compat_default false []
      (mkEmbeddedInstallSpec [example_var (lit "python") (lit "3.7")] []) /\
    ~ cache_fresh (PackageSpec_from embedded).
Proof. eexists. split; [done|]. by vm_compute. Qed.

(** A namespaced option of an embedded recipe whose value the options in scope
    should override makes rendering panic. *)
Lemma overridden_option_panics VersionFilter_from_str is_version_filter_and_build :
  new_binary_package_from_recipe VersionFilter_from_str is_version_filter_and_build
    [(lit "python.abi", lit "cp39")] ∅ (fun _ => None : option TupleSpec)
    (mkEmbeddedRecipeSpec (mkIdent (lit "my-pkg") (from_parts [1]%N)) Compat_default false
       [Opt_Var (mkVarOpt (lit "python.abi") (lit "cp37") [] Weak None None false None)]
       (mkEmbeddedRecipeInstallSpec [] [])) = Panicked.
Proof. by vm_compute. Qed.
