(* ===== verification/MergeTheory.v ===== *)
(** * Merging requests

    The theory of [restrict] on requests: the options of the merged request,
    its components and its build, and the theorem that the merged request is
    answered by exactly the packages that answer both requests. *)

From S2P Require Import Prelude Strings Collections Names Version VersionOrder VersionText.
From S2P Require Import Compat RangeData Reasons CompatCheck Intersection VersionRange RangeTheory RangeCases.
From S2P Require Import Components Idents Requests Opts Satisfy PackageSpec.

(** ** Options *)

(** What merging makes of the two values of an option: complete only when both
    requests give it completely. *)
Definition merge_value (a b : option PkgRequestOptionValue) : option PkgRequestOptionValue :=
  match a, b with
  | Some (Complete v), Some (Complete _) => Some (Complete v)
  | Some x, _ => Some (Partial (option_value x))
  | None, Some y => Some (Partial (option_value y))
  | None, None => None
  end.
(** The two requests give an option different values. *)
Definition values_clash (a b : option PkgRequestOptionValue) : Prop :=
  match a, b with Some x, Some y => option_value x <> option_value y | _, _ => False end.

Section options.
Implicit Types (options other : PkgRequestOptions).

Lemma bmap_get_partial_missing k other options :
  bmap_get k (partial_missing other options) =
  (fun v => if bmap_contains_key k other then v else convert_to_partial v) <$> bmap_get k options.
Proof.
  unfold partial_missing. induction options as [|[k' v'] options IH]; [done|].
  rewrite fmap_cons. cbn [bmap_get]. destruct (cmp k k') eqn:E; [|done..].
  by apply cmp_eq in E as ->.
Qed.
Lemma partial_missing_wf other options : bmap_wf options -> bmap_wf (partial_missing other options).
Proof.
  unfold bmap_wf, partial_missing. induction 1 as [|[k v] options Ho IH Hall]; [constructor|].
  rewrite fmap_cons. constructor; [done|]. apply Forall_fmap. eapply Forall_impl; [exact Hall|].
  by intros [].
Qed.

(** One round of the second loop. *)
Definition merge_step (value : PkgRequestOptionValue) (self : option PkgRequestOptionValue) :
    option PkgRequestOptionValue :=
  match self with
  | Some (Partial v) => Some (Partial v)
  | Some (Complete v) => if option_is_complete value then Some (Complete v) else Some value
  | None => Some (Partial (option_value value))
  end.

Lemma merge_options_get other options out k :
  bmap_wf options -> bmap_wf other -> merge_options other options = (Compatible, out) ->
  bmap_wf out /\
  bmap_get k out = match bmap_get k other with
                   | Some value => merge_step value (bmap_get k options)
                   | None => bmap_get k options
                   end /\
  ~ values_clash (bmap_get k options) (bmap_get k other).
Proof.
  intros Ho Hother. revert options Ho. induction other as [|[k' v'] other IH]; intros options Ho.
  { simpl. intros [= <-]. split_and!; [done..|]. destruct (bmap_get k options); simpl; tauto. }
  assert (bmap_wf other) as Hw by (by inversion Hother).
  assert (k = k' -> bmap_get k other = None) as Hk by (intros ->; by eapply bmap_wf_cons_get).
  cbn [merge_options bmap_get]. intros Hm.
  assert (exists o', bmap_wf o' /\ merge_options other o' = (Compatible, out) /\
    bmap_get k o' = (if decide (k = k') then merge_step v' (bmap_get k options) else bmap_get k options) /\
    (k = k' -> ~ values_clash (bmap_get k options) (Some v'))) as (o' & Ho' & Hm' & Hg & Hc).
  { destruct (bmap_get k' options) as [sv|] eqn:Esv.
    - case_bool_decide as Hval; [|done]. cbn [negb] in Hm.
      destruct sv as [sv|sv]; [destruct (option_is_complete v') eqn:Ec|].
      + exists options. split_and!; [done..| |]; [|intros ->; rewrite Esv; simpl in *; tauto].
        destruct (decide (k = k')) as [->|]; [|done]. rewrite Esv. simpl. by rewrite Ec.
      + exists (bmap_insert k' v' options). split_and!; [by apply bmap_insert_wf|done| |].
        * destruct (decide (k = k')) as [->|]; [|by apply bmap_get_insert_ne].
          rewrite bmap_get_insert_eq by done. rewrite Esv. simpl. by rewrite Ec.
        * intros ->. rewrite Esv. simpl in *. tauto.
      + exists options. split_and!; [done..| |]; [|intros ->; rewrite Esv; simpl in *; tauto].
        destruct (decide (k = k')) as [->|]; [|done]. by rewrite Esv.
    - exists (bmap_insert k' (Partial (option_value v')) options).
      split_and!; [by apply bmap_insert_wf|done| |intros ->; rewrite Esv; simpl; tauto].
      destruct (decide (k = k')) as [->|]; [|by apply bmap_get_insert_ne].
      rewrite bmap_get_insert_eq by done. by rewrite Esv. }
  destruct (IH Hw o' Ho' Hm') as (Hout & Hget & Hncl). split; [done|].
  destruct (decide (k = k')) as [->|Hne].
  - rewrite cmp_refl. rewrite Hget, Hk by done. split; [done|]. by apply Hc.
  - assert (match cmp k k' with Eq => Some v' | _ => bmap_get k other end = bmap_get k other) as ->.
    { pose proof (cmp_eq k k'). destruct (cmp k k'); naive_solver. }
    rewrite Hg in Hget, Hncl. done.
Qed.

Lemma merge_options_fail other options reason out :
  bmap_wf options -> bmap_wf other -> merge_options other options = (Incompatible reason, out) ->
  exists k, values_clash (bmap_get k options) (bmap_get k other).
Proof.
  intros Ho Hother. revert options Ho. induction other as [|[k' v'] other IH]; intros options Ho; [done|].
  assert (bmap_wf other) as Hw by (by inversion Hother).
  assert (bmap_get k' other = None) as Hk' by (by eapply bmap_wf_cons_get).
  cbn [merge_options]. intros Hm.
  assert (forall o', bmap_wf o' -> (forall k, k <> k' -> bmap_get k o' = bmap_get k options) ->
    merge_options other o' = (Incompatible reason, out) ->
    exists k, values_clash (bmap_get k options) (bmap_get k ((k', v') :: other))) as Hrec.
  { intros o' Ho' Hsame Hr. destruct (IH Hw o' Ho' Hr) as [k Hcl]. exists k.
    assert (k <> k') as Hne by (intros ->; rewrite Hk' in Hcl; by destruct (bmap_get k' o')).
    cbn [bmap_get]. rewrite <-Hsame by done.
    pose proof (cmp_eq k k'). destruct (cmp k k'); naive_solver. }
  destruct (bmap_get k' options) as [sv|] eqn:Esv.
  - case_bool_decide as Hval; cbn [negb] in Hm.
    + destruct sv as [sv|sv]; [destruct (option_is_complete v')|]; (eapply Hrec; [| |exact Hm]); try done.
      * by apply bmap_insert_wf.
      * intros k Hne. by apply bmap_get_insert_ne.
    + exists k'. rewrite Esv. cbn [bmap_get]. by rewrite cmp_refl.
  - eapply Hrec; [| |exact Hm]; [by apply bmap_insert_wf|]. intros k Hne. by apply bmap_get_insert_ne.
Qed.

(** Both loops together. *)
Lemma restrict_options_spec self other :
  bmap_wf self -> bmap_wf other ->
  exists c out, merge_options other (partial_missing other self) = (c, out) /\
    if is_ok c
    then bmap_wf out /\ forall k, bmap_get k out = merge_value (bmap_get k self) (bmap_get k other) /\
           ~ values_clash (bmap_get k self) (bmap_get k other)
    else exists k, values_clash (bmap_get k self) (bmap_get k other).
Proof.
  intros Hs Ho. destruct (merge_options other (partial_missing other self)) as [[|reason] out] eqn:E.
  - exists Compatible, out. split; [done|]. simpl. split.
    + by eapply (merge_options_get _ _ _ []), E; [apply partial_missing_wf|].
    + intros k.
      destruct (merge_options_get _ _ _ k (partial_missing_wf other self Hs) Ho E) as (_ & -> & Hcl).
      rewrite bmap_get_partial_missing in *. unfold bmap_contains_key in *.
      destruct (bmap_get k self) as [[]|], (bmap_get k other) as [[]|]; simpl in *; try tauto.
      split; [|tauto]. by apply dec_stable in Hcl as ->.
  - exists (Incompatible reason), out. split; [done|]. simpl.
    apply merge_options_fail in E as [k Hcl]; [|by apply partial_missing_wf|done]. exists k.
    rewrite bmap_get_partial_missing in Hcl. unfold bmap_contains_key in Hcl.
    by destruct (bmap_get k self) as [[]|], (bmap_get k other) as [[]|].
Qed.
End options.

(** ** Versions *)

(** Restricting invents no rules. *)
Lemma restrict_rules_from permutations2 self other mode c rs' r :
  VersionFilter_restrict permutations2 self other mode = Ok (c, rs') -> r ∈ rs' -> r ∈ self \/ r ∈ rules other.
Proof.
  intros ([|reason] & _ & Hr)%bind_Ok Hin.
  - apply bind_Ok in Hr as (rs & Hs & [= _ <-]). eapply bset_extend_elem, simplify_rules_incl; done.
  - destruct mode; injection Hr as <- <-; [by left|by apply bset_extend_elem].
Qed.

Section satisfied.
Context {V : Type} `{!Versioned V} (spec : V).
Context (Hspec : epsilon (vparts (spec_version spec)) = EpsNone).

Abbreviation satisfied := (fun r => is_ok (is_satisfied_by r spec RuleBinary) = true).

(** A package satisfies only rules whose bounds its version is in. *)
Lemma satisfied_in_bounds r : interval r -> satisfied r -> in_bounds r (round_tags (spec_version spec)).
Proof.
  intros Hr Hs. apply interval_applicable; [done..|]. destruct r; try done.
  revert Hs. simpl. unfold CompatRange_is_satisfied_by, default_is_applicable.
  by destruct (ltb (spec_version spec) (cr_base r)).
Qed.

Lemma compat_satisfied_same c d :
  Version_eq (cr_base c) (deq_version d) = true ->
  satisfied (Range_DoubleEquals d) -> satisfied (Range_Compat c).
Proof.
  simpl. unfold DoubleEqualsVersion_is_applicable. intros Hcd Hd.
  assert (Version_eq (deq_version d) (spec_version spec) = true) as Hds.
  { revert Hd. unfold Version_eq. destruct (VersionParts_eq _ _), (TagSet_eq (pre _) _), (TagSet_eq (post _) _); done. }
  clear Hd. unfold CompatRange_is_satisfied_by, ltb.
  rewrite cmp_antisym, (Version_eq_cmp _ _ _ Hcd), (Version_eq_cmp _ _ _ Hds), cmp_refl. simpl.
  assert (forall rule, is_ok (check_compat (spec_compat spec) (cr_base c) (spec_version spec) rule) = true)
    as Hcheck.
  { assert (Version_eq (cr_base c) (spec_version spec) = true) as Hcs.
    { rewrite Version_eq_spec in *. naive_solver congruence. }
    unfold Version_eq in Hcs. rewrite !andb_true_iff in Hcs. destruct Hcs as [[H1 H2] H3].
    intros rule. unfold check_compat. by rewrite H1, H2, H3. }
  destruct (match cr_required c with Some r => r | None => RuleBinary end); [done|apply Hcheck..].
Qed.

Lemma satisfied_inherited : inherited false satisfied.
Proof.
  intros x y Hx Hy Hskip Hc Hsat. cbv beta in *. cbn [negb andb] in Hskip.
  destruct (decide (is_compat x)) as [Hcx|Hcx].
  - destruct x; try done. destruct y; try done. simpl in Hskip.
    destruct (Version_eq _ _) eqn:E; [|done]. by eapply compat_satisfied_same.
  - assert (forall c, y <> Range_Compat c) by (intros c' ->; by destruct x).
    rewrite interval_satisfied_by_applicable in Hsat |- * by (done || by intros c' ->; destruct Hcx).
    rewrite interval_applicable in Hsat |- * by done. by apply (interval_contains x y).
Qed.

Lemma satisfied_equal_rules x y :
  interval x -> interval y -> cmp x y = Eq -> (is_compat x -> x = y) -> satisfied y -> satisfied x.
Proof.
  cbv beta. intros Hx Hy E Hxy Hsat. destruct (decide (is_compat x)) as [Hcx|Hcx]; [by rewrite Hxy|].
  assert (forall c, y <> Range_Compat c) by (intros c' ->; by destruct x).
  rewrite interval_satisfied_by_applicable in Hsat |- * by (done || by intros c' ->; destruct Hcx).
  rewrite interval_applicable in Hsat |- * by done. by apply (interval_ceq_in x y).
Qed.
End satisfied.

(** ** Builds *)

#[export] Instance Build_eq_equivalence : Equivalence (fun a b => Build_eq a b = true).
Proof.
  assert (forall a b, EmbeddedSourcePackage_eq a b = true <->
    esp_ident a = esp_ident b /\ esp_components a = esp_components b) as Hesp.
  { intros a b. unfold EmbeddedSourcePackage_eq. by rewrite andb_true_iff, !bool_decide_eq_true. }
  split.
  - intros [|[p|]|d]; simpl; rewrite ?Hesp, ?bool_decide_eq_true; done.
  - intros [|[p|]|d] [|[p'|]|d']; simpl; rewrite ?Hesp, ?bool_decide_eq_true; naive_solver.
  - intros [|[p|]|d] [|[p'|]|d'] [|[p''|]|d'']; simpl; rewrite ?Hesp, ?bool_decide_eq_true;
      naive_solver congruence.
Qed.

Lemma Build_eq_sym a b : Build_eq a b = true -> Build_eq b a = true.
Proof. apply (symmetry (R := fun a b => Build_eq a b = true)). Qed.
Lemma Build_eq_trans a b c : Build_eq a b = true -> Build_eq b c = true -> Build_eq a c = true.
Proof. apply (transitivity (R := fun a b => Build_eq a b = true)). Qed.

(** The package has a build that a request allows. *)
Definition build_allowed (build : option Build) (b : Build) : Prop :=
  match build with Some x => Build_eq x b = true | None => True end.

Lemma build_allowed_check build b :
  negb (bool_decide (is_Some build)) || opt_Build_eq build (Some b) = true <-> build_allowed build b.
Proof. destruct build; simpl; [done|naive_solver]. Qed.

(** ** Components *)

Section components.
Context {C : Type} `{!ComponentOps C}.
Implicit Types (specs : list C).

Lemma needs_nothing specs c : ~ needs specs [] c.
Proof. induction 1; set_solver. Qed.

Lemma needs_mono specs xs ys c : (forall d, d ∈ xs -> d ∈ ys) -> needs specs xs c -> needs specs ys c.
Proof.
  intros Hsub. induction 1; [by apply needs_request, Hsub|by apply needs_all|by eapply needs_uses].
Qed.

(** What two requests need together is needed by one of them. *)
Lemma needs_union specs xs ys zs c :
  (forall d, d ∈ zs <-> d ∈ xs \/ d ∈ ys) ->
  needs specs zs c <-> needs specs xs c \/ needs specs ys c.
Proof.
  intros Hz. split; [|intros [Hn|Hn]; revert Hn; apply needs_mono; intros d Hd; apply Hz; auto].
  induction 1 as [c [Hc|Hc]%Hz|c _ [IH|IH] Hc|c d s _ [IH|IH] Hs Hd];
    eauto using needs_request, needs_all, needs_uses.
Qed.

Lemma elem_of_restrict_components xs ys d : d ∈ restrict_components xs ys <-> d ∈ xs \/ d ∈ ys.
Proof.
  unfold restrict_components. revert xs. induction ys as [|y ys IH]; intros xs; [set_solver|].
  cbn [foldl]. rewrite IH. destruct (bset_contains y xs) eqn:E; cbn [negb].
  - apply bset_contains_iff in E. set_solver.
  - rewrite elem_of_bset_insert. set_solver.
Qed.
End components.

(** ** What a package must be to answer a request *)

Section answers.
Context {T C : Type} `{!Versioned T, !ComponentOps C, !Package T C}.
Context (hash_order : list Component -> list Component).
Context (Hperm : forall l, hash_order l ≡ₚ l).

Abbreviation answers spec r := (is_ok (check_satisfies_pkg_request (C := C) hash_order spec r)).

(** A package whose answer does not turn on the build that was asked for: a
    built package that is not deprecated. *)
Record usable (spec : T) : Prop := {
  usable_live : pk_is_deprecated spec = false;
  usable_built : Build_is_source (pk_build spec) = false;
  usable_version : epsilon (vparts (spec_version spec)) = EpsNone;
}.

Definition has_needed (spec : T) (requested : list Component) : Prop :=
  forall c, c <> ComponentAll -> needs (pk_components spec) requested c ->
    c ∈ (co_name <$> pk_components spec).

Lemma has_needed_union spec xs ys zs :
  (forall d, d ∈ zs <-> d ∈ xs \/ d ∈ ys) ->
  has_needed spec zs <-> has_needed spec xs /\ has_needed spec ys.
Proof.
  intros Hz. unfold has_needed. split.
  - intros H. split; intros c Hc Hn; apply H; try done; apply (needs_union _ xs ys); auto.
  - intros [H1 H2] c Hc Hn. apply (needs_union _ xs ys) in Hn; naive_solver.
Qed.

Lemma check_components_ok pkg spec :
  Build_is_source (pk_build spec) = false ->
  is_ok (check_components hash_order pkg spec) = true <-> has_needed spec (ri_components pkg).
Proof.
  intros Hb. unfold check_components. rewrite Hb. cbn [andb negb]. rewrite andb_true_r.
  case_bool_decide as Hc; cbn [negb].
  - rewrite Hc. split; [|done]. intros _ c _ []%needs_nothing.
  - set (missing := missing_components _ _ _).
    assert (forall c, c ∈ missing <-> (c ∉ (co_name <$> pk_components spec)) /\ c <> ComponentAll /\
      needs (pk_components spec) (ri_components pkg) c) as Hm.
    { intros c. unfold missing, missing_components, available_components.
      rewrite elem_of_bset_sub, elem_of_bset_collect.
      rewrite (proj2 (resolve_uses_spec hash_order Hperm _ _)). tauto. }
    case_bool_decide as Hnil; cbn [negb is_ok].
    + split; [|done]. intros _ c Hall Hn. apply dec_stable. intros Hin.
      eapply (not_elem_of_nil (A := Component)). rewrite <-Hnil. by apply Hm.
    + split; [done|]. intros Hall. destruct Hnil. apply elem_of_nil_inv. intros c.
      rewrite Hm. intros (Hin & Hc' & Hn). auto.
Qed.

(** The whole test, as the conjunction of what it tests. *)
Lemma answers_iff spec r :
  usable spec ->
  let pkg := pr_pkg (pkg_request r) in
  answers spec r = true <->
  ri_name pkg = pk_name spec /\
  (excludes_prereleases (pr_prerelease_policy (pkg_request r)) = true ->
     TagSet_is_empty (pre (spec_version spec)) = true) /\
  has_needed spec (ri_components pkg) /\
  is_ok (is_satisfied_by (Range_Filter (ri_version pkg)) spec RuleBinary) = true /\
  build_allowed (ri_build pkg) (pk_build spec) /\
  Forall (fun opt => is_ok (check_option (pro_options r) (pk_name spec) opt) = true)
    (pk_build_options spec).
Proof.
  intros [Hdep Hsrc _] pkg. rewrite <-check_components_ok, <-build_allowed_check by done.
  rewrite <-(first_problem_ok (check_option (pro_options r) (pk_name spec))).
  unfold check_satisfies_pkg_request, check_required_options. fold pkg. rewrite Hdep. cbn [andb].
  case_bool_decide as Hname; cbn [negb is_ok]; [|split; [done|]; by intros [? _]].
  destruct (excludes_prereleases _), (TagSet_is_empty _); cbn [andb negb is_ok];
    try (split; [done|]; intros (_ & Hpre & _); by specialize (Hpre eq_refl));
    (destruct (check_components _ _ _); [|cbn [is_ok]; split; [done|]; by intros (_ & _ & ? & _)]);
    (destruct (is_satisfied_by _ _ _); [|cbn [is_ok]; split; [done|]; by intros (_ & _ & _ & ? & _)]);
    (destruct (orb (negb (bool_decide (is_Some (ri_build pkg)))) _); cbn [negb is_ok];
      [tauto|split; [done|]; by intros (_ & _ & _ & _ & ? & _)]).
Qed.

(** ** The merged request *)

Section merged.
Context (permutations2 : forall A : Type, list A -> list (A * A)).
Context (Hp2 : permutations2_spec permutations2).

(** Two requests for the same package that can be compared: their version rules
    are interval rules, compat rules that are equal are written alike, and not
    one without a pre-release policy and the other with [IncludeAll], which
    [restrict] lets prevail. *)
Record mergeable (a b : PkgRequestWithOptions) : Prop := {
  merge_name : ri_name (pr_pkg (pkg_request a)) = ri_name (pr_pkg (pkg_request b));
  merge_rules_a : intervals (ri_version (pr_pkg (pkg_request a)));
  merge_rules_b : intervals (ri_version (pr_pkg (pkg_request b)));
  merge_compat x y :
    x ∈ ri_version (pr_pkg (pkg_request b)) ->
    y ∈ ri_version (pr_pkg (pkg_request a)) \/ y ∈ ri_version (pr_pkg (pkg_request b)) ->
    cmp x y = Eq -> is_compat x -> x = y;
  merge_policy :
    ~ (pr_prerelease_policy (pkg_request a) = None /\ pr_prerelease_policy (pkg_request b) = Some IncludeAll) /\
    ~ (pr_prerelease_policy (pkg_request a) = Some IncludeAll /\ pr_prerelease_policy (pkg_request b) = None);
  merge_options_a : bmap_wf (pro_options a);
  merge_options_b : bmap_wf (pro_options b);
}.

Lemma excludes_merge p q :
  ~ (p = None /\ q = Some IncludeAll) /\ ~ (p = Some IncludeAll /\ q = None) ->
  excludes_prereleases (merge_prerelease p q) = excludes_prereleases p || excludes_prereleases q.
Proof. intros [H1 H2]. destruct p as [[]|], q as [[]|]; try done; naive_solver. Qed.

Lemma filter_to_string rs : Forall interval rs -> exists s, VersionRange_to_string (Range_Filter rs) = Ok s.
Proof.
  intros Hrs. unfold VersionRange_to_string. cbn [VersionRange_fmt].
  match goal with |- exists s, mbind _ (?go rs) = _ => assert (exists ss, go rs = Ok ss) as [ss ->] end;
    [|by eexists].
  induction Hrs as [|r rs Hr Hrs [ss IH]]; [by eexists|]. destruct (is_empty_filter r); [by eexists|].
  destruct (interval_to_string r Hr) as [s Hs]. unfold VersionRange_to_string in Hs.
  rewrite Hs. cbn [mbind res_bind]. rewrite IH. by eexists.
Qed.
Lemma RangeIdent_to_string_total r : Forall interval (ri_version r) -> exists s, RangeIdent_to_string r = Ok s.
Proof.
  intros Hr. unfold RangeIdent_to_string, RangeIdent_fmt.
  destruct (VersionFilter_is_empty _); [by eexists|].
  destruct (filter_to_string _ Hr) as [s Hs]. unfold VersionRange_to_string in Hs. rewrite Hs. by eexists.
Qed.

(** Whatever the outcome, the rules and the repository of the identifier
    afterwards come from one of the two. *)
Record ident_from (a b m : RangeIdent) : Prop := {
  from_name : ri_name m = ri_name a;
  from_repository : ri_repository_name m = ri_repository_name a \/ ri_repository_name m = ri_repository_name b;
  from_intervals : intervals (ri_version m);
  from_rules r : r ∈ ri_version m -> r ∈ ri_version a \/ r ∈ ri_version b;
  from_bounds v : all_in (ri_version m) v /\ all_in (ri_version b) v <->
                  all_in (ri_version a) v /\ all_in (ri_version b) v;
}.
(** No version is in the bounds of all rules, or no build is allowed by both. *)
Definition exclusive (a b : RangeIdent) : Prop :=
  (forall v, ~ (all_in (ri_version a) v /\ all_in (ri_version b) v)) \/
  (forall x, ~ (build_allowed (ri_build a) x /\ build_allowed (ri_build b) x)).

(** The identifier: it restricts whenever the repositories agree and the builds
    and the versions can. *)
Lemma RangeIdent_restrict_spec a b mode :
  intervals (ri_version a) -> intervals (ri_version b) ->
  exists c m, RangeIdent_restrict permutations2 a b mode = Ok (c, m) /\ ident_from a b m /\
    if is_ok c
    then (forall P, inherited false P -> Forall P (ri_version m) <->
            Forall P (bset_extend (ri_version a) (ri_version b))) /\
    (forall d, d ∈ ri_components m <-> d ∈ ri_components a \/ d ∈ ri_components b) /\
    (forall x, build_allowed (ri_build m) x <->
            build_allowed (ri_build a) x /\ build_allowed (ri_build b) x)
    else restrict_repository (ri_repository_name a) (ri_repository_name b) = None \/
         exclusive a b /\ exclusive m b.
Proof.
  intros Ha Hb. unfold RangeIdent_restrict.
  destruct (restrict_repository _ _) as [name|] eqn:Er.
  2: { eexists _, a. split_and!; [done| |by left]. split; auto. }
  assert (name = ri_repository_name a \/ name = ri_repository_name b) as Hname.
  { revert Er. unfold restrict_repository. destruct (ri_repository_name a), (ri_repository_name b);
      repeat case_bool_decide; naive_solver. }
  destruct (restrict_spec permutations2 Hp2 (ri_version a) (Range_Filter (ri_version b)) mode Ha)
    as (c & rs & Hrestrict & Hrs & Hc); [by right; eauto|].
  assert (forall r, r ∈ rs -> r ∈ ri_version a \/ r ∈ ri_version b) as Hfrom.
  { intros r. by apply (restrict_rules_from permutations2 _ (Range_Filter (ri_version b)) mode c). }
  rewrite Hrestrict. cbn [mbind res_bind].
  assert (forall v, all_in rs v /\ all_in (ri_version b) v <-> all_in (ri_version a) v /\ all_in (ri_version b) v)
    as Hin.
  { intros v. destruct c; cbn [is_ok rules] in Hc; [|by destruct Hc as (_ & -> & _)].
    unfold all_in at 1. rewrite Hc by apply in_bounds_inherited. fold (all_in (bset_extend (ri_version a) (ri_version b)) v).
    rewrite extend_all_in by (apply Ha || apply Hb). tauto. }
  assert (forall cs build, ident_from a b (mkRangeIdent name (ri_name a) cs rs build)) as Hid by (by split).
  destruct c as [|reason]; cbn [is_ok rules] in Hc.
  2: { destruct Hc as (_ & -> & Hc). eexists _, _. split_and!; [done..|]. right. split; by left. }
  pose proof (elem_of_restrict_components (ri_components a) (ri_components b)) as Hcs.
  destruct (ri_build b) as [bb|] eqn:Eb; simpl.
  2: { eexists _, _. split_and!; [done..|]. split_and!; [done..|]. simpl. tauto. }
  destruct (ri_build a) as [ba|] eqn:Ea; simpl.
  2: { eexists _, _. split_and!; [done..|]. split_and!; [done..|]. simpl. tauto. }
  destruct (Build_eq ba bb) eqn:Eab; simpl.
  { eexists _, _. split_and!; [done..|]. split_and!; [done..|]. simpl. intros x.
    split; [|tauto]. intros Hx. split; [|done].
    by eapply Build_eq_trans. }
  destruct (RangeIdent_to_string_total (mkRangeIdent name (ri_name a)
    (restrict_components (ri_components a) (ri_components b)) rs (Some ba))) as [s1 ->]; [apply Hrs|].
  destruct (RangeIdent_to_string_total b) as [s2 ->]; [apply Hb|].
  assert (forall x, ~ (Build_eq ba x = true /\ Build_eq bb x = true)) as Hno.
  { intros x [H1 H2]. assert (Build_eq ba bb = true); [|congruence]. by eapply Build_eq_trans, Build_eq_sym. }
  eexists _, _. split_and!; [done..|]. right. unfold exclusive. cbn [ri_build]. rewrite Ea, Eb.
  split; by right.
Qed.

(** The options: required options are given completely by both requests exactly
    when the merged request gives them completely. *)
Lemma check_option_merge options x y name opt :
  (forall k, bmap_get k options = merge_value (bmap_get k x) (bmap_get k y) /\
    ~ values_clash (bmap_get k x) (bmap_get k y)) ->
  is_ok (check_option options name opt) = is_ok (check_option x name opt) && is_ok (check_option y name opt).
Proof.
  intros Hk. destruct opt as [opt|opt]; [done|]. simpl. unfold check_required_option.
  destruct (vo_required opt); [|done]. cbn [negb].
  destruct (Hk (OptName_with_namespace (vo_var opt) name)) as [-> Hcl].
  destruct (bmap_get _ x) as [[v|v]|], (bmap_get _ y) as [[w|w]|]; simpl in *;
    rewrite ?andb_false_r; try done.
  apply dec_stable in Hcl as ->. destruct (VarOpt_get_value opt None); [|done].
  case_bool_decide; done.
Qed.

(** A successful merge. *)
Lemma merged_answers a b m spec :
  mergeable a b -> usable spec ->
  ri_name (pr_pkg (pkg_request m)) = ri_name (pr_pkg (pkg_request a)) ->
  pr_prerelease_policy (pkg_request m) =
    merge_prerelease (pr_prerelease_policy (pkg_request a)) (pr_prerelease_policy (pkg_request b)) ->
  (forall P, inherited false P -> Forall P (ri_version (pr_pkg (pkg_request m))) <->
     Forall P (bset_extend (ri_version (pr_pkg (pkg_request a))) (ri_version (pr_pkg (pkg_request b))))) ->
  (forall d, d ∈ ri_components (pr_pkg (pkg_request m)) <->
     d ∈ ri_components (pr_pkg (pkg_request a)) \/ d ∈ ri_components (pr_pkg (pkg_request b))) ->
  (forall x, build_allowed (ri_build (pr_pkg (pkg_request m))) x <->
     build_allowed (ri_build (pr_pkg (pkg_request a))) x /\
     build_allowed (ri_build (pr_pkg (pkg_request b))) x) ->
  (forall k, bmap_get k (pro_options m) = merge_value (bmap_get k (pro_options a)) (bmap_get k (pro_options b)) /\
     ~ values_clash (bmap_get k (pro_options a)) (bmap_get k (pro_options b))) ->
  answers spec m = answers spec a && answers spec b.
Proof.
  intros [Hname [Ha _] [Hb _] Hcompat Hpolicy _ _] Hspec Hmn Hmp Hmv Hmc Hmb Hmo.
  apply eq_bool_prop_intro. rewrite !Is_true_true, andb_true_iff, !answers_iff by done.
  rewrite Hmn, <-Hname, Hmp, excludes_merge, orb_true_iff, Hmb by done.
  rewrite (has_needed_union spec _ _ _ Hmc).
  cbn [is_satisfied_by]. rewrite !first_problem_ok, Hmv by apply satisfied_inherited, Hspec.
  rewrite extend_Forall.
  2: { rewrite Forall_forall in Ha, Hb. intros x y Hx Hy E.
       apply satisfied_equal_rules; eauto; [apply Hspec|naive_solver]. }
  setoid_rewrite (fun opt => check_option_merge _ _ _ (pk_name spec) opt Hmo).
  setoid_rewrite andb_true_iff. rewrite Forall_and. tauto.
Qed.

(** A merge that fails for the versions or the builds. *)
Lemma refused_together a b spec :
  intervals (ri_version (pr_pkg (pkg_request a))) -> intervals (ri_version (pr_pkg (pkg_request b))) ->
  exclusive (pr_pkg (pkg_request a)) (pr_pkg (pkg_request b)) ->
  usable spec -> answers spec a && answers spec b = false.
Proof.
  intros [Ha _] [Hb _] Hno Hspec. apply not_true_is_false.
  rewrite andb_true_iff, !answers_iff by done. cbn [is_satisfied_by]. rewrite !first_problem_ok.
  intros [(_ & _ & _ & Hva & Hba & _) (_ & _ & _ & Hvb & Hbb & _)].
  destruct Hno as [Hno|Hno]; [|by apply (Hno (pk_build spec))].
  apply (Hno (round_tags (spec_version spec))). unfold all_in. rewrite !Forall_forall in *.
  split; intros r Hr; apply satisfied_in_bounds; auto; apply Hspec.
Qed.

(** C5: merging two requests for a package is exact. [restrict] always returns;
    if it succeeds, a package answers the merged request exactly when it answers
    both; if it fails, the two name different repositories, or disagree on an
    option, or no package answers both.

    The requests are for one name and by interval rules, whose equal compat
    rules are written alike, and not one of them includes all pre-releases while
    the other says nothing of them ([mergeable]; [merge_forgets_spelling] and
    [merge_admits_prereleases] show why). The packages are built, not
    deprecated, and of versions without an epsilon ([usable]). *)
Theorem merged_request_exact a b :
  mergeable a b ->
  exists c m, PkgRequestWithOptions_restrict permutations2 a b = Ok (c, m) /\
    if is_ok c
    then forall spec, usable spec -> answers spec m = answers spec a && answers spec b
    else restrict_repository (ri_repository_name (pr_pkg (pkg_request a)))
           (ri_repository_name (pr_pkg (pkg_request b))) = None \/
         (exists k, values_clash (bmap_get k (pro_options a)) (bmap_get k (pro_options b))) \/
         forall spec, usable spec -> answers spec a && answers spec b = false.
Proof.
  intros [Hname Ha Hb Hcompat Hpolicy Hoa Hob].
  unfold PkgRequestWithOptions_restrict, PkgRequest_restrict.
  destruct (RangeIdent_restrict_spec (pr_pkg (pkg_request a)) (pr_pkg (pkg_request b))
    (restrict_mode (cmp_min (pr_inclusion_policy (pkg_request a)) (pr_inclusion_policy (pkg_request b))))
    Ha Hb) as (c & m & -> & Hm & Hc). cbn [mbind res_bind].
  destruct c as [|reason]; cbn [is_ok negb] in Hc |- *.
  - destruct (restrict_options_spec (pro_options a) (pro_options b) Hoa Hob) as (c & out & -> & Ho).
    eexists c, _. split; [done|]. destruct (is_ok c); [|by right; left].
    intros spec Hspec. destruct Hc as (Hv & Hcs & Hbs), Ho as [_ Ho].
    by apply merged_answers; try done; (apply Hm || constructor).
  - eexists _, _. split; [done|]. cbn [is_ok]. destruct Hc as [Hc|[Hc _]]; [by left|]. right; right.
    intros spec Hspec. by apply (refused_together _ _ _ Ha Hb Hc).
Qed.
End merged.
End answers.

(** A request for a package named [my-pkg], at some version rules. *)
Definition example_request (rules : list VersionRange) (build : option Build) : PkgRequestWithOptions :=
  mkPkgRequestWithOptions
    (mkPkgRequest (mkRangeIdent None (lit "my-pkg") [ComponentRun] rules build) None Always None Required None [])
    [].
Definition example_package (version : Version) (compat : Compat) : TupleSpec :=
  mkPackageSpec (mkIdent (mkIdent (lit "my-pkg") version) Build_empty) compat false [] InstallSpec_default [].
Definition example_answers (spec : TupleSpec) (r : PkgRequestWithOptions) : bool :=
  is_ok (check_satisfies_pkg_request (C := Component * ComponentFileMatchMode * list Component) id spec r).

Lemma merged_request_exact_witness :
  exists m,
    PkgRequestWithOptions_restrict permutations2_lex
      (example_request [Range_GreaterThanOrEqualTo (mkGte (from_parts [1]%N))] None)
      (example_request [Range_LessThan (mkLt (from_parts [2]%N))] (Some Build_empty)) = Ok (Compatible, m) /\
    example_answers (example_package (from_parts [1; 5]%N) Compat_default) m = true.
Proof.
  pose (a := example_request [Range_GreaterThanOrEqualTo (mkGte (from_parts [1]%N))] None).
  pose (b := example_request [Range_LessThan (mkLt (from_parts [2]%N))] (Some Build_empty)).
  assert (mergeable a b) as Hab.
  { split; [done|by repeat constructor..| | |constructor|constructor].
    - intros x y ->%list_elem_of_singleton [->%list_elem_of_singleton| ->%list_elem_of_singleton]; done.
    - by split; intros []. }
  destruct (merged_request_exact (T := TupleSpec) id (fun l => reflexivity l) permutations2_lex
    permutations2_lex_spec a b Hab) as (c & m & E & H).
  assert (is_ok c = true) as Hc by (vm_compute in E; by injection E as <- _).
  destruct c; [|done]. exists m. split; [exact E|].
  transitivity (example_answers (example_package (from_parts [1; 5]%N) Compat_default) a &&
                example_answers (example_package (from_parts [1; 5]%N) Compat_default) b); [|by vm_compute].
  apply H. by split.
Defined.

(** Two compat rules that are equal as versions but written differently are one
    rule of the merged request, the first: a package whose contract is read by
    position answers the merged request and not both. *)
Definition strict_compat : Compat :=
  mkCompat [CompatRuleSet_single RuleNone; CompatRuleSet_single RuleNone; CompatRuleSet_single RuleNone] None None.
Lemma merge_forgets_spelling :
  let a := example_request [Range_Compat (mkCompatRange (from_parts [1; 0]%N) None)] None in
  let b := example_request [Range_Compat (mkCompatRange (from_parts [1; 0; 0]%N) None)] None in
  let spec := example_package (from_parts [1; 0; 5]%N) strict_compat in
  exists m, PkgRequestWithOptions_restrict permutations2_lex a b = Ok (Compatible, m) /\
    example_answers spec m = true /\ example_answers spec a = true /\ example_answers spec b = false.
Proof. eexists. split; [by vm_compute|]. by split_and!; vm_compute. Qed.

(** Merging a request without a pre-release policy into one that includes
    pre-releases lets them in, which the first request alone refuses. *)
Definition prerelease_version : Version := mkVersion (VersionParts_from [1]%N) (mkTagSet [(lit "beta", 1%N)]) (mkTagSet []).
Lemma merge_admits_prereleases :
  let a := example_request [] None in
  let b := mkPkgRequestWithOptions (with_prerelease (pkg_request a) (Some IncludeAll)) [] in
  let spec := example_package prerelease_version Compat_default in
  exists m, PkgRequestWithOptions_restrict permutations2_lex a b = Ok (Compatible, m) /\
    example_answers spec m = true /\ example_answers spec a = false.
Proof. eexists. split; [by vm_compute|]. by split_and!; vm_compute. Qed.

(** [PkgRequest::contains] says that a request for any version contains a request
    for one version, though the first is satisfied by packages that do not
    satisfy the second. *)
Lemma contains_is_not_restrictive :
  let any := example_request [] None in
  let one := example_request [Range_DoubleEquals (mkDoubleEquals (from_parts [1]%N))] None in
  let spec := example_package (from_parts [2]%N) Compat_default in
  PkgRequest_contains (pkg_request any) (pkg_request one) = Ok Compatible /\
  example_answers spec any = true /\ example_answers spec one = false.
Proof. by split_and!; vm_compute. Qed.
