(* ===== verification/Encoding.v ===== *)
(** * Binary encoding

    Models crates/spfs-encoding/src/binary.rs (the readers and writers all
    persisted objects are made of), the sync [Hasher] of
    crates/spfs-encoding/src/hash.rs and [Digest::from_bytes] of
    crates/spfs-proto/src/digest.rs.  A writer is the bytes written so far; a
    buffered reader is the list of chunks its buffer will hold in turn, so that
    every theorem about readers holds for every way the stream is cut. *)

From S2P Require Import Prelude Strings.

(** ** UTF-8 *)

(** The Unicode scalar values. *)
Definition is_scalar (c : char) : bool :=
  ((c <? 55296) || ((57344 <=? c) && (c <=? 1114111)))%N.

Definition utf8_char (c : char) : list N :=
  (if c <? 128 then [c]
   else if c <? 2048 then [192 + c / 64; 128 + c mod 64]
   else if c <? 65536 then [224 + c / 4096; 128 + c / 64 mod 64; 128 + c mod 64]
   else [240 + c / 262144; 128 + c / 4096 mod 64; 128 + c / 64 mod 64; 128 + c mod 64])%N.

(** [str::as_bytes]. *)
Definition as_bytes (s : rstr) : list N := List.flat_map utf8_char s.

Definition is_cont (b : N) : bool := ((128 <=? b) && (b <? 192))%N.

(** [std::str::from_utf8]: truncated, overlong and out-of-range sequences are
    errors. *)
Fixpoint from_utf8 (bs : list N) : option rstr :=
  match bs with
  | [] => Some []
  | b0 :: bs =>
      if (b0 <? 128)%N then cons b0 <$> from_utf8 bs
      else if (b0 <? 192)%N then None
      else if (b0 <? 224)%N then
        match bs with
        | b1 :: bs =>
            let c := ((b0 - 192) * 64 + (b1 - 128))%N in
            if is_cont b1 && (128 <=? c)%N then cons c <$> from_utf8 bs else None
        | [] => None
        end
      else if (b0 <? 240)%N then
        match bs with
        | b1 :: b2 :: bs =>
            let c := ((b0 - 224) * 4096 + (b1 - 128) * 64 + (b2 - 128))%N in
            if is_cont b1 && is_cont b2 && (2048 <=? c)%N && is_scalar c
            then cons c <$> from_utf8 bs else None
        | _ => None
        end
      else if (b0 <? 248)%N then
        match bs with
        | b1 :: b2 :: b3 :: bs =>
            let c := ((b0 - 240) * 262144 + (b1 - 128) * 4096 + (b2 - 128) * 64 + (b3 - 128))%N in
            if is_cont b1 && is_cont b2 && is_cont b3 && (65536 <=? c)%N && is_scalar c
            then cons c <$> from_utf8 bs else None
        | _ => None
        end
      else None
  end.

(** ** Errors, readers and writers *)

Inductive EncodingError :=
| FailedRead
| FailedWrite
| InvalidHeader (wanted got : list N)
| InvalidStringEncoding
| StringHasNull
| InvalidDigestLength (len : nat)
| InvalidPartialDigest (reason given : rstr).

(** The chunks a [BufRead] still has to offer, none of them empty. *)
Definition reader := list (list N).
Definition reader_ok (r : reader) : Prop := Forall (fun c => c <> []) r.
Definition remaining (r : reader) : list N := mjoin r.

(** What is left of the first chunk after [n] bytes are consumed. *)
Definition push_chunk (c : list N) (r : reader) : reader :=
  match c with [] => r | _ => c :: r end.

(** [Read::read_exact]. *)
Fixpoint read_exact (n : nat) (r : reader) : res EncodingError (list N * reader) :=
  match r with
  | [] => if n =? 0 then Ok ([], []) else Err FailedRead
  | c :: r =>
      if n <=? length c then Ok (take n c, push_chunk (drop n c) r)
      else
        '(bs, r) ← read_exact (n - length c) r;
        Ok (c ++ bs, r)
  end.

Definition write_all (writer bytes : list N) : list N := writer ++ bytes.

(** ** Headers *)

Definition c_newline : N := 10.

Definition consume_header (r : reader) (header : list N) : res EncodingError (unit * reader) :=
  '(buf, r) ← read_exact (length header + 1) r;
  if negb (bool_decide (take (length header) buf = header)) ||
     negb (bool_decide (last buf = Some c_newline))
  then Err (InvalidHeader header buf) else Ok (tt, r).

Definition write_header (writer header : list N) : res EncodingError (list N) :=
  Ok (write_all (write_all writer header) [c_newline]).

(** ** Integers, big endian *)

Fixpoint be_bytes (k : nat) (n : N) : list N :=
  match k with
  | O => []
  | S k => be_bytes k (n / 256) ++ [(n mod 256)%N]
  end.
Definition from_be_bytes (bs : list N) : N := foldl (fun acc b => acc * 256 + b)%N 0%N bs.

(** [i64] as the [u64] with the same bits. *)
Definition i64_bits (z : Z) : N := Z.to_N (z mod 18446744073709551616).
Definition i64_of_bits (n : N) : Z :=
  if (n <? 9223372036854775808)%N then Z.of_N n else (Z.of_N n - 18446744073709551616)%Z.

Definition write_int (writer : list N) (value : Z) : res EncodingError (list N) :=
  Ok (write_all writer (be_bytes 8 (i64_bits value))).
Definition read_int (r : reader) : res EncodingError (Z * reader) :=
  '(buf, r) ← read_exact 8 r; Ok (i64_of_bits (from_be_bytes buf), r).

Definition write_uint64 (writer : list N) (value : N) : res EncodingError (list N) :=
  Ok (write_all writer (be_bytes 8 value)).
Definition read_uint64 (r : reader) : res EncodingError (N * reader) :=
  '(buf, r) ← read_exact 8 r; Ok (from_be_bytes buf, r).

Definition write_uint8 (writer : list N) (value : N) : res EncodingError (list N) :=
  Ok (write_all writer (be_bytes 1 value)).
Definition read_uint8 (r : reader) : res EncodingError (N * reader) :=
  '(buf, r) ← read_exact 1 r; Ok (from_be_bytes buf, r).

(** ** Digests *)

Definition DIGEST_SIZE : nat := 32.
(** The 32 bytes of [[u8; 32]], as numbers: that there are 32 and that they are
    bytes is a condition ([digest_ok]) of the statements that turn on it, and what
    is read is checked.  No statement asks that a hash has no collisions at all. *)
Record Digest := mkDigest { digest_bytes : list N }.
#[export] Instance Digest_eq_dec : EqDecision Digest.
Proof. solve_decision. Defined.
(** [Ord for Digest]: by its bytes. *)
#[export] Instance cmp_Digest : Cmp Digest := cmp_on digest_bytes.

Definition NULL_DIGEST : Digest := mkDigest (repeat 0%N DIGEST_SIZE).

(** [Digest::from_bytes]. *)
Definition Digest_from_bytes (bs : list N) : res EncodingError Digest :=
  if length bs =? DIGEST_SIZE then Ok (mkDigest bs) else Err (InvalidDigestLength (length bs)).

Definition write_digest (writer : list N) (digest : Digest) : res EncodingError (list N) :=
  Ok (write_all writer (digest_bytes digest)).
Definition read_digest (r : reader) : res EncodingError (Digest * reader) :=
  '(buf, r) ← read_exact DIGEST_SIZE r; d ← Digest_from_bytes buf; Ok (d, r).

(** ** Strings *)

Definition write_string (writer : list N) (s : rstr) : res EncodingError (list N) :=
  if str_contains 0%N s then Err StringHasNull
  else Ok (write_all (write_all writer (as_bytes s)) [0%N]).

(** The loop of [read_string]: each buffered chunk is decoded on its own. *)
Fixpoint read_string_loop (r : reader) (acc : rstr) : res EncodingError (rstr * reader) :=
  match r with
  | [] => Err FailedRead
  | buf :: r =>
      match position (fun c => c =? 0)%N buf with
      | Some index =>
          match from_utf8 (take index buf) with
          | Some s => Ok (acc ++ s, push_chunk (drop (index + 1) buf) r)
          | None => Err InvalidStringEncoding
          end
      | None =>
          match buf with
          | [] => Err FailedRead
          | _ => match from_utf8 buf with
                 | Some s => read_string_loop r (acc ++ s)
                 | None => Err InvalidStringEncoding
                 end
          end
      end
  end.
Definition read_string (r : reader) : res EncodingError (rstr * reader) := read_string_loop r [].

(** ** The sync hasher *)

Section hasher.
(** A write target: what one [write] call does to its state and how many bytes
    it says it took. *)
Context {W : Type} (target_write : W -> list N -> res EncodingError (nat * W)).

(** The bytes fed to the digest context, and the target. *)
Record Hasher := mkHasher { hasher_ctx : list N; hasher_target : W }.

(** [Write::write] for [Hasher]. *)
Definition Hasher_write (self : Hasher) (buf : list N) : res EncodingError (nat * Hasher) :=
  '(count, target) ← target_write (hasher_target self) buf;
  if length buf <? count then Panicked
  else Ok (length buf, mkHasher (hasher_ctx self ++ take count buf) target).
End hasher.
Arguments Hasher W : clear implicits.
Arguments mkHasher {W} hasher_ctx hasher_target.
Arguments hasher_ctx {W} _.
Arguments hasher_target {W} _.

(** The provided [Write::write_all]: call [write] until the buffer is used up;
    [fuel] is the length of the buffer, since every call takes a byte. *)
Fixpoint io_write_all {W} (write : W -> list N -> res EncodingError (nat * W)) (fuel : nat)
    (w : W) (buf : list N) : res EncodingError W :=
  match buf with
  | [] => Ok w
  | _ =>
      match fuel with
      | O => Err FailedWrite
      | S fuel =>
          '(count, w) ← write w buf;
          if count =? 0 then Err FailedWrite else io_write_all write fuel w (drop count buf)
      end
  end.

(** ** Reading back *)

(** [read] consumes exactly [bytes] from any stream that starts with them,
    however the stream is cut into chunks, and returns [a]. *)
Definition decodes {E A} (read : reader -> res E (A * reader)) (bytes : list N) (a : A) : Prop :=
  forall r rest, reader_ok r -> remaining r = bytes ++ rest ->
    exists r', read r = Ok (a, r') /\ remaining r' = rest /\ reader_ok r'.

Lemma push_chunk_remaining c r : remaining (push_chunk c r) = c ++ remaining r.
Proof. by destruct c. Qed.

Lemma push_chunk_ok c r : reader_ok r -> reader_ok (push_chunk c r).
Proof. intros. destruct c; [done|]. by constructor. Qed.

Lemma read_exact_spec n r :
  reader_ok r ->
  if n <=? length (remaining r)
  then exists r', read_exact n r = Ok (take n (remaining r), r') /\
                  remaining r' = drop n (remaining r) /\ reader_ok r'
  else read_exact n r = Err FailedRead.
Proof.
  intros Hr. revert n. induction Hr as [|c r Hc Hr IH]; intros n; simpl.
  - destruct n; simpl; eauto using Forall_nil_2. eexists. split_and!; done || constructor.
  - unfold remaining in *. simpl. rewrite length_app.
    destruct (Nat.leb_spec n (length c)) as [Hn|Hn].
    + destruct (Nat.leb_spec n (length c + length (mjoin r))); [|lia].
      eexists. split_and!.
      * by rewrite take_app_le.
      * rewrite drop_app_le by done. apply (push_chunk_remaining (drop n c) r).
      * by apply push_chunk_ok.
    + specialize (IH (n - length c)).
      destruct (Nat.leb_spec n (length c + length (mjoin r))) as [Hle|Hle],
        (Nat.leb_spec (n - length c) (length (mjoin r))); try lia.
      * destruct IH as (r' & -> & Hrem & Hok). simpl. exists r'. split_and!; [|rewrite Hrem|done].
        -- by rewrite take_app_ge by lia.
        -- by rewrite drop_app_ge by lia.
      * by rewrite IH.
Qed.

Lemma read_exact_decodes bytes : decodes (read_exact (length bytes)) bytes bytes.
Proof.
  intros r rest Hr Hrem. pose proof (read_exact_spec (length bytes) r Hr) as Hs.
  rewrite Hrem, length_app, take_app_length, drop_app_length in Hs.
  destruct (Nat.leb_spec (length bytes) (length bytes + length rest)); [done|lia].
Qed.

(** Reading fixed-size data: the bytes, then a check on them. *)
Lemma decodes_map {A} n (f : list N -> res EncodingError A) bytes a :
  length bytes = n -> f bytes = Ok a ->
  decodes (fun r => '(buf, r) ← read_exact n r; x ← f buf; Ok (x, r)) bytes a.
Proof.
  intros <- Hf r rest Hr Hrem.
  destruct (read_exact_decodes bytes r rest Hr Hrem) as (r' & -> & ? & ?). simpl.
  rewrite Hf. simpl. eauto.
Qed.

Lemma be_bytes_length k n : length (be_bytes k n) = k.
Proof. revert n. induction k as [|k IH]; intros n; simpl; [done|]. rewrite length_app, IH. simpl. lia. Qed.

Lemma from_be_bytes_be_bytes k n : (n < 256 ^ N.of_nat k)%N -> from_be_bytes (be_bytes k n) = n.
Proof.
  unfold from_be_bytes. revert n. induction k as [|k IH]; intros n Hn.
  - simpl in *. lia.
  - rewrite Nat2N.inj_succ, N.pow_succ_r' in Hn. cbn [be_bytes]. rewrite foldl_app. simpl.
    rewrite IH by (apply N.Div0.div_lt_upper_bound; lia).
    pose proof (N.div_mod' n 256). lia.
Qed.

Lemma i64_bits_roundtrip z :
  (-9223372036854775808 <= z < 9223372036854775808)%Z ->
  i64_of_bits (i64_bits z) = z /\ (i64_bits z < 256 ^ 8)%N.
Proof.
  intros Hz. unfold i64_of_bits, i64_bits.
  pose proof (Z.mod_pos_bound z 18446744073709551616 ltac:(lia)) as Hb.
  pose proof (Z.div_mod z 18446744073709551616 ltac:(lia)) as Hd.
  set (m := (z mod 18446744073709551616)%Z) in *.
  set (q := (z / 18446744073709551616)%Z) in *.
  split; [|change (256 ^ 8)%N with 18446744073709551616%N; lia].
  destruct (N.ltb_spec (Z.to_N m) 9223372036854775808); rewrite Z2N.id by lia; lia.
Qed.

(** *** Strings *)

Lemma utf8_char_nonzero c : c <> 0%N -> Forall (fun b => b <> 0)%N (utf8_char c).
Proof.
  intros Hc. unfold utf8_char.
  repeat case_match; repeat apply Forall_cons_2; try apply Forall_nil_2; cbv beta;
    try done; apply N.neq_0_lt_0; apply N.add_pos_l; lia.
Qed.

(** Decide the comparisons of numbers that linear arithmetic settles. *)
Ltac decide_bounds := repeat match goal with
  | |- context [(?a <? ?b)%N] =>
      first [rewrite (proj2 (N.ltb_lt a b)) by lia | rewrite (proj2 (N.ltb_ge a b)) by lia]
  | |- context [(?a <=? ?b)%N] =>
      first [rewrite (proj2 (N.leb_le a b)) by lia | rewrite (proj2 (N.leb_gt a b)) by lia]
  end.

Lemma from_utf8_char c bs :
  is_scalar c = true -> from_utf8 (utf8_char c ++ bs) = cons c <$> from_utf8 bs.
Proof.
  intros Hc. unfold utf8_char.
  pose proof (N.div_mod' c 64) as D0. pose proof (N.mod_lt c 64 ltac:(done)) as M0.
  pose proof (N.div_mod' (c / 64) 64) as D1. pose proof (N.mod_lt (c / 64) 64 ltac:(done)) as M1.
  pose proof (N.div_mod' (c / 4096) 64) as D2. pose proof (N.mod_lt (c / 4096) 64 ltac:(done)) as M2.
  rewrite N.Div0.div_div in D1. change (64 * 64)%N with 4096%N in D1.
  rewrite N.Div0.div_div in D2. change (4096 * 64)%N with 262144%N in D2.
  set (q0 := (c / 64)%N) in *. set (r0 := (c mod 64)%N) in *. set (q1 := (c / 4096)%N) in *.
  set (r1 := (q0 mod 64)%N) in *. set (q2 := (c / 262144)%N) in *. set (r2 := (q1 mod 64)%N) in *.
  destruct (N.ltb_spec c 128) as [H128|H128].
  { cbn [app from_utf8]. by decide_bounds. }
  destruct (N.ltb_spec c 2048) as [H2|H2].
  { cbn [app from_utf8]. unfold is_cont.
    replace ((192 + q0 - 192) * 64 + (128 + r0 - 128))%N with c by lia. by decide_bounds. }
  destruct (N.ltb_spec c 65536) as [H3|H3].
  { cbn [app from_utf8]. unfold is_cont.
    replace ((224 + q1 - 224) * 4096 + (128 + r1 - 128) * 64 + (128 + r0 - 128))%N with c by lia.
    rewrite Hc. by decide_bounds. }
  assert (c <= 1114111)%N as Hmax.
  { unfold is_scalar in Hc. destruct (N.ltb_spec c 55296); [lia|].
    destruct (N.leb_spec c 1114111); [done|]. by rewrite andb_false_r in Hc. }
  cbn [app from_utf8]. unfold is_cont.
  replace ((240 + q2 - 240) * 262144 + (128 + r2 - 128) * 4096 + (128 + r1 - 128) * 64 +
    (128 + r0 - 128))%N with c by lia.
  rewrite Hc. by decide_bounds.
Qed.

Lemma from_utf8_as_bytes s : forallb is_scalar s = true -> from_utf8 (as_bytes s) = Some s.
Proof.
  unfold as_bytes. induction s as [|c s IH]; simpl; [done|].
  intros [Hc Hs]%andb_true_iff. rewrite from_utf8_char by done. by rewrite IH.
Qed.

Lemma as_bytes_nonzero s : str_contains 0%N s = false -> Forall (fun b => b <> 0)%N (as_bytes s).
Proof.
  unfold as_bytes, str_contains. induction s as [|c s IH]; simpl; [constructor|].
  intros [Hc Hs]%orb_false_iff. apply Forall_app_2; [|by apply IH].
  apply utf8_char_nonzero. by destruct c.
Qed.

Lemma as_bytes_ascii s : forallb (fun c => c <? 128)%N s = true -> as_bytes s = s.
Proof.
  unfold as_bytes. induction s as [|c s IH]; simpl; [done|].
  intros [Hc Hs]%andb_true_iff. unfold utf8_char at 1. rewrite Hc. simpl. by rewrite IH.
Qed.

Lemma from_utf8_ascii bs : forallb (fun c => c <? 128)%N bs = true -> from_utf8 bs = Some bs.
Proof.
  induction bs as [|b bs IH]; simpl; [done|]. intros [Hb Hbs]%andb_true_iff.
  rewrite Hb. by rewrite IH.
Qed.

Lemma position_nul_app a b :
  Forall (fun b => b <> 0)%N a -> position (fun c => c =? 0)%N (a ++ 0%N :: b) = Some (length a).
Proof.
  induction 1 as [|x a Hx Ha IH]; simpl; [done|]. destruct (N.eqb_spec x 0); [done|]. by rewrite IH.
Qed.

Lemma position_nul_none a : Forall (fun b => b <> 0)%N a -> position (fun c => c =? 0)%N a = None.
Proof.
  induction 1 as [|x a Hx Ha IH]; simpl; [done|]. destruct (N.eqb_spec x 0); [done|]. by rewrite IH.
Qed.

(** An ASCII string is read back from any chunking. *)
Lemma read_string_loop_ascii s r rest acc :
  forallb (fun c => c <? 128)%N s = true -> Forall (fun b => b <> 0)%N s ->
  reader_ok r -> remaining r = s ++ 0%N :: rest ->
  exists r', read_string_loop r acc = Ok (acc ++ s, r') /\ remaining r' = rest /\ reader_ok r'.
Proof.
  intros Hs Hn Hr. revert s acc Hs Hn. induction Hr as [|c r Hc Hr IH]; intros s acc Hs Hn Hrem.
  { by destruct s. }
  unfold remaining in *. simpl in Hrem. cbn [read_string_loop].
  destruct (decide (length c <= length s)) as [Hle|Hgt].
  - assert (exists s', s = c ++ s') as [s' ->].
    { exists (drop (length c) s). rewrite <-(take_drop (length c) s) at 1. f_equal.
      apply (f_equal (take (length c))) in Hrem. rewrite take_app_length, take_app_le in Hrem by done.
      done. }
    rewrite forallb_app in Hs. apply andb_true_iff in Hs as [Hs1 Hs2].
    apply Forall_app in Hn as [Hn1 Hn2]. rewrite <-(assoc_L (++)) in Hrem. apply app_inv_head in Hrem.
    rewrite position_nul_none by done. destruct c as [|b c]; [done|].
    rewrite from_utf8_ascii by done.
    destruct (IH s' (acc ++ b :: c) Hs2 Hn2 Hrem) as (r' & -> & ? & ?).
    exists r'. split_and!; [|done..]. by rewrite (assoc_L (++)).
  - assert (exists d, c = s ++ 0%N :: d) as [d ->].
    { exists (drop (S (length s)) c). rewrite <-(take_drop (S (length s)) c) at 1.
      apply (f_equal (take (S (length s)))) in Hrem. rewrite take_app_le in Hrem by lia.
      rewrite Hrem. rewrite take_app_ge by lia. replace (S (length s) - length s) with 1 by lia.
      simpl. by rewrite <-(assoc_L (++)). }
    rewrite position_nul_app, take_app_length, from_utf8_ascii by done.
    rewrite <-(assoc_L (++)) in Hrem. apply app_inv_head in Hrem. injection Hrem as Hrem.
    eexists. split_and!; [done| |by apply push_chunk_ok].
    rewrite push_chunk_remaining, drop_app_ge by lia.
    by replace (length s + 1 - length s) with 1 by lia.
Qed.

(** A string of any characters is read back when one chunk holds all of it. *)
Lemma read_string_one_chunk s rest r :
  forallb is_scalar s = true -> str_contains 0%N s = false ->
  read_string ((as_bytes s ++ 0%N :: rest) :: r) = Ok (s, push_chunk rest r).
Proof.
  intros Hs Hn. unfold read_string. cbn [read_string_loop].
  rewrite position_nul_app, take_app_length, from_utf8_as_bytes by auto using as_bytes_nonzero.
  rewrite drop_app_ge by lia. by replace (length (as_bytes s) + 1 - length (as_bytes s)) with 1 by lia.
Qed.

Lemma ascii_nonzero s :
  forallb (fun c => c <? 128)%N s = true -> str_contains 0%N s = false ->
  Forall (fun b => b <> 0)%N s.
Proof. intros Hs Hn. rewrite <-(as_bytes_ascii s Hs). by apply as_bytes_nonzero. Qed.

Lemma read_string_decodes s :
  forallb (fun c => c <? 128)%N s = true -> str_contains 0%N s = false ->
  decodes read_string (s ++ [0%N]) s.
Proof.
  intros Hs Hn r rest Hr Hrem. rewrite <-(assoc_L (++)) in Hrem.
  exact (read_string_loop_ascii s r rest [] Hs (ascii_nonzero s Hs Hn) Hr Hrem).
Qed.

Lemma read_digest_decodes d :
  length (digest_bytes d) = DIGEST_SIZE -> decodes read_digest (digest_bytes d) d.
Proof.
  intros Hd. apply (decodes_map DIGEST_SIZE Digest_from_bytes); [done|].
  unfold Digest_from_bytes. rewrite Hd. by destruct d.
Qed.

(** ** Properties *)

(** Integers, digests and headers written to a stream are read back
    unchanged, consuming exactly their bytes, however the stream is buffered:
    every [u64], [i64] and [u8], every 32-byte digest, every header. *)
Theorem binary_roundtrip writer (u : N) (z : Z) (b : N) (d : Digest) (header : list N) :
  is_u64 u -> (-9223372036854775808 <= z < 9223372036854775808)%Z -> (b < 256)%N ->
  length (digest_bytes d) = DIGEST_SIZE ->
  (exists bs, write_uint64 writer u = Ok (writer ++ bs) /\ decodes read_uint64 bs u) /\
  (exists bs, write_int writer z = Ok (writer ++ bs) /\ decodes read_int bs z) /\
  (exists bs, write_uint8 writer b = Ok (writer ++ bs) /\ decodes read_uint8 bs b) /\
  (exists bs, write_digest writer d = Ok (writer ++ bs) /\ decodes read_digest bs d) /\
  (exists bs, write_header writer header = Ok (writer ++ bs) /\
              decodes (fun r => consume_header r header) bs tt).
Proof.
  intros Hu Hz Hb Hd. split_and!.
  - exists (be_bytes 8 u). split; [done|].
    apply (decodes_map 8 (fun buf => Ok (from_be_bytes buf))); [apply be_bytes_length|].
    by rewrite from_be_bytes_be_bytes by (unfold is_u64, u64_max in Hu; lia).
  - exists (be_bytes 8 (i64_bits z)). split; [done|].
    destruct (i64_bits_roundtrip z Hz) as [E Hlt].
    apply (decodes_map 8 (fun buf => Ok (i64_of_bits (from_be_bytes buf)))); [apply be_bytes_length|].
    by rewrite from_be_bytes_be_bytes, E.
  - exists (be_bytes 1 b). split; [done|].
    apply (decodes_map 1 (fun buf => Ok (from_be_bytes buf))); [apply be_bytes_length|].
    by rewrite from_be_bytes_be_bytes.
  - exists (digest_bytes d). split; [done|]. by apply read_digest_decodes.
  - exists (header ++ [c_newline]). split.
    { unfold write_header, write_all. by rewrite <-(assoc_L (++)). }
    intros r rest Hr Hrem. unfold consume_header.
    replace (length header + 1) with (length (header ++ [c_newline])) by (rewrite length_app; done).
    destruct (read_exact_decodes _ r rest Hr Hrem) as (r' & -> & ? & ?). cbn [mbind res_bind].
    rewrite take_app_length, last_snoc, !bool_decide_true by done. simpl. eauto.
Qed.

Lemma binary_roundtrip_witness :
  exists bs, write_int [] (-2)%Z = Ok ([] ++ bs) /\ decodes read_int bs (-2)%Z.
Proof.
  exact (proj1 (proj2 (binary_roundtrip [] 5%N (-2)%Z 7%N NULL_DIGEST [65%N]
    ltac:(vm_compute; discriminate) ltac:(lia) ltac:(reflexivity) ltac:(reflexivity)))).
Defined.

(** Strings.  A string with a NUL is refused.  Any other string is written
    as its UTF-8 bytes and a NUL, and is read back from a stream that has it in
    one buffered chunk; an ASCII string is read back however the stream is
    buffered. *)
Theorem string_roundtrip writer s :
  forallb is_scalar s = true ->
  if str_contains 0%N s then write_string writer s = Err StringHasNull
  else write_string writer s = Ok (writer ++ as_bytes s ++ [0%N]) /\
       (forall rest r, read_string ((as_bytes s ++ 0%N :: rest) :: r) = Ok (s, push_chunk rest r)) /\
       (forallb (fun c => c <? 128)%N s = true -> decodes read_string (as_bytes s ++ [0%N]) s).
Proof.
  intros Hs. unfold write_string. destruct (str_contains 0%N s) eqn:Hn; [done|]. split_and!.
  - unfold write_all. by rewrite <-(assoc_L (++)).
  - intros. by apply read_string_one_chunk.
  - intros Ha. rewrite as_bytes_ascii by done. by apply read_string_decodes.
Qed.

Lemma string_roundtrip_witness :
  write_string [] [104; 233]%N = Ok ([] ++ as_bytes [104; 233]%N ++ [0%N]).
Proof. exact (proj1 (string_roundtrip [] [104; 233]%N eq_refl)). Defined.

(** A character whose bytes straddle two buffered chunks makes [read_string]
    fail, although the stream holds a valid string. *)
Theorem read_string_split_char :
  remaining [[195]; [169; 0]]%N = as_bytes [233]%N ++ [0%N] /\
  read_string [as_bytes [233]%N ++ [0%N]] = Ok ([233]%N, []) /\
  read_string [[195]; [169; 0]]%N = Err InvalidStringEncoding.
Proof. vm_compute. done. Qed.

(** A target that takes at most [k] bytes per call. *)
Definition limited_target (k : nat) (w buf : list N) : res EncodingError (nat * list N) :=
  Ok (Nat.min k (length buf), w ++ take k buf).

Lemma io_write_all_once {W} (write : W -> list N -> res EncodingError (nat * W)) w w' buf :
  buf <> [] -> write w buf = Ok (length buf, w') -> io_write_all write (length buf) w buf = Ok w'.
Proof.
  intros Hne Hw. destruct buf as [|b buf]; [done|]. cbn [io_write_all length]. rewrite Hw.
  cbn [mbind res_bind Nat.eqb]. rewrite drop_all. by destruct (length buf).
Qed.

(** [Hasher] over a target that accepts every buffer whole forwards and
    digests exactly the bytes written; over a target that takes fewer bytes per
    call it still reports the whole buffer as written, so [write_all] succeeds
    while the rest of the buffer reaches neither the target nor the digest. *)
Theorem hasher_write_all :
  (forall (target : list N -> list N -> res EncodingError (nat * list N)) ctx w buf,
     (forall w buf, target w buf = Ok (length buf, w ++ buf)) ->
     io_write_all (Hasher_write target) (length buf) (mkHasher ctx w) buf =
     Ok (mkHasher (ctx ++ buf) (w ++ buf))) /\
  (forall k ctx w buf, 0 < k -> buf <> [] ->
     io_write_all (Hasher_write (limited_target k)) (length buf) (mkHasher ctx w) buf =
     Ok (mkHasher (ctx ++ take k buf) (w ++ take k buf))).
Proof.
  split.
  - intros target ctx w buf Ht. destruct (decide (buf = [])) as [->|Hne].
    { simpl. by rewrite !app_nil_r. }
    apply io_write_all_once; [done|]. unfold Hasher_write. simpl. rewrite Ht. simpl.
    by rewrite Nat.ltb_irrefl, firstn_all.
  - intros k ctx w buf Hk Hne. apply io_write_all_once; [done|].
    unfold Hasher_write, limited_target. simpl.
    destruct (Nat.ltb_spec (length buf) (Nat.min k (length buf))); [lia|]. do 3 f_equal.
    destruct (Nat.le_ge_cases k (length buf)); [by rewrite Nat.min_l|].
    rewrite Nat.min_r by done. by rewrite firstn_all, take_ge.
Qed.

Lemma hasher_write_all_witness :
  io_write_all (Hasher_write (limited_target 1)) 2 (mkHasher [] []) [1; 2]%N =
  Ok (mkHasher [1]%N [1]%N).
Proof. exact (proj2 hasher_write_all 1 [] [] [1; 2]%N ltac:(lia) ltac:(done)). Defined.
