(* ===== verification/RequestPools.v ===== *)
(** * Pools of requests

    A pool is a set of requests for one package that can be merged in any order
    without losing track of what they ask: the theory of [restrict]
    ([MergeTheory]) closed under merging.  The requests of a solve are merged one
    after another, so what holds of two requests is needed of the request a
    merge leaves behind, whether the merge succeeded or not. *)

From S2P Require Import Prelude Strings Collections Names Version VersionOrder VersionText.
From S2P Require Import Compat RangeData Reasons CompatCheck Intersection VersionRange RangeTheory RangeCases.
From S2P Require Import Components Idents Requests Opts Satisfy PackageSpec MergeTheory.

(** The package, its repository when one is named, the version rules, whether
    pre-releases are included or left to the default, and the options' values. *)
Record Pool := mkPool {
  pool_name : rstr;
  pool_repository : rstr;
  pool_rules : list VersionRange;
  pool_prereleases : bool;
  pool_options : rstr -> rstr;
}.

(** Compat rules that are equal are written alike. *)
Definition pool_canonical (p : Pool) : Prop :=
  forall x y, x ∈ pool_rules p -> y ∈ pool_rules p -> cmp x y = Eq -> is_compat x -> x = y.

(** A request of the pool: it has one of the two compatible sorts of pre-release
    policy, interval rules of the pool, and the pool's repository and option
    values where it has any. *)
Record in_pool (p : Pool) (r : PkgRequestWithOptions) : Prop := {
  ip_name : ri_name (pr_pkg (pkg_request r)) = pool_name p;
  ip_repository :
    ri_repository_name (pr_pkg (pkg_request r)) = None \/
    ri_repository_name (pr_pkg (pkg_request r)) = Some (pool_repository p);
  ip_intervals : intervals (ri_version (pr_pkg (pkg_request r)));
  ip_rules x : x ∈ ri_version (pr_pkg (pkg_request r)) -> x ∈ pool_rules p;
  ip_policy : pr_prerelease_policy (pkg_request r) <> (if pool_prereleases p then None else Some IncludeAll);
  ip_options : bmap_wf (pro_options r);
  ip_values k v : bmap_get k (pro_options r) = Some v -> option_value v = pool_options p k;
}.

Section pools.
Context {T C : Type} `{!Versioned T, !ComponentOps C, !Package T C}.
Context (hash_order : list Component -> list Component).
Context (Hperm : forall l, hash_order l ≡ₚ l).
Context (permutations2 : forall A : Type, list A -> list (A * A)).
Context (Hp2 : permutations2_spec permutations2).
Implicit Types (p : Pool) (a b m : PkgRequestWithOptions) (spec : T).

Abbreviation answers spec r := (is_ok (check_satisfies_pkg_request (C := C) hash_order spec r)).

Lemma in_pool_mergeable p a b : pool_canonical p -> in_pool p a -> in_pool p b -> mergeable a b.
Proof.
  intros Hp [Hna _ Hia Hra Hpa Hoa _] [Hnb _ Hib Hrb Hpb Hob _].
  split; [congruence|done..| | |done|done].
  - intros x y Hx Hy. apply Hp; [auto|destruct Hy; auto].
  - destruct (pool_prereleases p); split; intros []; congruence.
Qed.

Lemma in_pool_no_clash p a b k :
  in_pool p a -> in_pool p b -> ~ values_clash (bmap_get k (pro_options a)) (bmap_get k (pro_options b)).
Proof.
  intros [_ _ _ _ _ _ Ha] [_ _ _ _ _ _ Hb]. specialize (Ha k). specialize (Hb k).
  destruct (bmap_get k (pro_options a)), (bmap_get k (pro_options b)); try (by intros []).
  intros Hne. apply Hne. by rewrite Ha, Hb.
Qed.

Lemma merge_value_option_value x y v : merge_value x y = Some v ->
  (exists u, x = Some u /\ option_value u = option_value v) \/
  (exists u, y = Some u /\ option_value u = option_value v).
Proof. destruct x as [[]|], y as [[]|]; naive_solver. Qed.

Lemma in_pool_repositories p a b :
  in_pool p a -> in_pool p b ->
  restrict_repository (ri_repository_name (pr_pkg (pkg_request a)))
    (ri_repository_name (pr_pkg (pkg_request b))) <> None.
Proof.
  intros [_ Ha _ _ _ _ _] [_ Hb _ _ _ _ _].
  destruct Ha as [-> | ->], Hb as [-> | ->]; simpl; by rewrite ?bool_decide_eq_true_2.
Qed.

Lemma merge_prerelease_excluded (e : bool) x y :
  x <> (if e then None else Some IncludeAll) -> y <> (if e then None else Some IncludeAll) ->
  merge_prerelease x y <> (if e then None else Some IncludeAll).
Proof. destruct e, x as [[]|], y as [[]|]; cbv; congruence. Qed.

(** What is asked of the things [x] that may be resolved, of packages or of
    their versions, and that merging keeps: if it succeeds, exactly what
    satisfies both requests satisfies the result; in any case the result, which
    goes on to be merged with other requests, asks no more and no less than the
    first together with the second. *)
Definition merges {X} (ask : X -> PkgRequestWithOptions -> bool) (good : X -> Prop) p : Prop :=
  forall a b, in_pool p a -> in_pool p b ->
  exists c m, PkgRequestWithOptions_restrict permutations2 a b = Ok (c, m) /\ in_pool p m /\
    forall x, good x -> (is_ok c = true -> ask x m = ask x a && ask x b) /\
      ask x m && ask x b = ask x a && ask x b.

(** The version of a package fits a request. *)
Definition admits (v : Version) (r : PkgRequestWithOptions) : bool := is_ok (is_version_applicable (pkg_request r) v).
Definition plain_version (v : Version) : Prop := epsilon (vparts v) = EpsNone.

Lemma admits_iff r v : intervals (ri_version (pr_pkg (pkg_request r))) -> plain_version v ->
  admits v r = true <->
  (excludes_prereleases (pr_prerelease_policy (pkg_request r)) = true -> TagSet_is_empty (pre v) = true) /\
  all_in (ri_version (pr_pkg (pkg_request r))) (round_tags v).
Proof.
  intros [Hr _] Hv. unfold admits, is_version_applicable. rewrite <-filter_applicable by done.
  destruct (excludes_prereleases _), (TagSet_is_empty _); cbn [andb negb is_ok]; naive_solver.
Qed.

(** Both ways of asking at once: merging stays in the pool, and if it fails no
    package answers both requests, nor the second and what is left of the first. *)
Lemma restrict_in_pool p a b :
  pool_canonical p -> in_pool p a -> in_pool p b ->
  exists c m, PkgRequestWithOptions_restrict permutations2 a b = Ok (c, m) /\ in_pool p m /\
    (forall spec, usable (C := C) spec ->
      if is_ok c then answers spec m = answers spec a && answers spec b
      else answers spec a && answers spec b = false /\ answers spec m && answers spec b = false) /\
    (forall v, plain_version v ->
      (is_ok c = true -> admits v m = admits v a && admits v b) /\
      admits v m && admits v b = admits v a && admits v b).
Proof.
  intros Hp Ha Hb. pose proof (in_pool_mergeable _ _ _ Hp Ha Hb) as Hab.
  pose proof (in_pool_repositories _ _ _ Ha Hb) as Hrepo.
  unfold PkgRequestWithOptions_restrict, PkgRequest_restrict.
  destruct (RangeIdent_restrict_spec permutations2 Hp2 (pr_pkg (pkg_request a)) (pr_pkg (pkg_request b))
    (restrict_mode (cmp_min (pr_inclusion_policy (pkg_request a)) (pr_inclusion_policy (pkg_request b)))))
    as (c & pkg & -> & [Hn Hr Hi Hfrom Hbounds] & Hc); [apply Ha|apply Hb|]. cbn [mbind res_bind].
  set (policy := merge_prerelease _ _). set (inclusion := cmp_min _ _).
  assert (forall requesters options, bmap_wf options ->
    (forall k v, bmap_get k options = Some v -> option_value v = pool_options p k) ->
    in_pool p (mkPkgRequestWithOptions (mkPkgRequest pkg policy inclusion (pr_pin (pkg_request a))
      (pr_pin_policy (pkg_request a)) (pr_required_compat (pkg_request a)) requesters) options)) as Hin.
  { intros requesters options Ho Hv. split; try done; cbn [pkg_request pr_pkg pr_prerelease_policy].
    - rewrite Hn. apply Ha.
    - destruct Hr as [-> | ->]; [apply Ha|apply Hb].
    - intros x [Hx|Hx]%Hfrom; [by eapply (ip_rules p a)|by eapply (ip_rules p b)].
    - apply merge_prerelease_excluded; [apply Ha|apply Hb]. }
  assert (forall requesters options v, plain_version v ->
    let m := mkPkgRequestWithOptions (mkPkgRequest pkg policy inclusion (pr_pin (pkg_request a))
      (pr_pin_policy (pkg_request a)) (pr_required_compat (pkg_request a)) requesters) options in
    ((forall P, inherited false P -> Forall P (ri_version pkg) <->
        Forall P (bset_extend (ri_version (pr_pkg (pkg_request a))) (ri_version (pr_pkg (pkg_request b))))) ->
     admits v m = admits v a && admits v b) /\
    admits v m && admits v b = admits v a && admits v b) as Hadmits.
  { intros requesters options v Hv m. pose proof (ip_intervals p a Ha) as Hia. pose proof (ip_intervals p b Hb) as Hib.
    assert (excludes_prereleases (pr_prerelease_policy (pkg_request m)) =
      excludes_prereleases (pr_prerelease_policy (pkg_request a)) ||
      excludes_prereleases (pr_prerelease_policy (pkg_request b))) as He by apply excludes_merge, Hab.
    split; [intros Hall|]; apply eq_bool_prop_intro; rewrite !Is_true_true, !andb_true_iff;
      rewrite !admits_iff, He, orb_true_iff by (try done; apply Hi).
    - replace (all_in (ri_version (pr_pkg (pkg_request m))) (round_tags v))
        with (all_in (ri_version pkg) (round_tags v)) by done.
      unfold all_in at 1. rewrite Hall by apply in_bounds_inherited.
      fold (all_in (bset_extend (ri_version (pr_pkg (pkg_request a))) (ri_version (pr_pkg (pkg_request b)))) (round_tags v)).
      rewrite extend_all_in by (apply Hia || apply Hib). tauto.
    - specialize (Hbounds (round_tags v)). cbn [pkg_request pr_pkg m] in *. tauto. }
  destruct c as [|reason]; cbn [is_ok negb] in Hc |- *.
  - destruct (restrict_options_spec (pro_options a) (pro_options b)) as (c & out & -> & Ho);
      [apply Ha|apply Hb|].
    destruct c; cbn [is_ok] in Ho |- *.
    2: { destruct Ho as [k Hk]. destruct (in_pool_no_clash p a b k Ha Hb Hk). }
    destruct Ho as [Hwf Ho], Hc as (Hv & Hcs & Hbs). eexists Compatible, _. split; [done|]. split_and!.
    + apply Hin; [done|]. intros k v Hk. rewrite (proj1 (Ho k)) in Hk.
      apply merge_value_option_value in Hk as [(u & Hu & <-)|(u & Hu & <-)];
        [by eapply (ip_values p a)|by eapply (ip_values p b)].
    + intros spec Hspec. by apply (merged_answers hash_order Hperm).
    + intros v Hplain. split; [intros _|]; by apply Hadmits.
  - destruct Hc as [Hc|[Hno Hno']]; [done|]. eexists (Incompatible reason), _. split; [done|]. split_and!.
    + apply Hin; [apply Ha|apply Ha].
    + intros spec Hspec. split; apply (refused_together hash_order Hperm); try done; try apply Ha; apply Hb.
    + intros v Hplain. split; [done|by apply Hadmits].
Qed.

Lemma answers_merges p :
  pool_canonical p -> merges (fun (spec : T) r => answers spec r) (usable (C := C)) p.
Proof.
  intros Hp a b Ha Hb. destruct (restrict_in_pool p a b Hp Ha Hb) as (c & m & E & Hm & H & _).
  exists c, m. split_and!; [done..|]. intros spec Hspec. specialize (H spec Hspec). destruct c; cbn [is_ok] in *.
  - split; [done|]. rewrite H. by destruct (answers spec a), (answers spec b).
  - destruct H as [-> ->]. done.
Qed.
Lemma admits_merges p : pool_canonical p -> merges admits plain_version p.
Proof.
  intros Hp a b Ha Hb. destruct (restrict_in_pool p a b Hp Ha Hb) as (c & m & E & Hm & _ & H). by exists c, m.
Qed.
End pools.
