(* ===== verification/Solution.v ===== *)
(** * Solutions

    Models crates/spk-solve/crates/solution/src/solution.rs: where a resolved
    package comes from ([PackageSource]), resolved requests with the components
    and layers they bring in, the list of them a solver returns, and the
    environment variables they are exported as.  Formatting for terminals is
    not modelled.

    A [HashMap] is the list of its entries and a [HashSet] that of its elements,
    in the order they are walked. *)

From stdpp Require Import gmap.
From S2P Require Import Prelude Strings Collections Names Version VersionOrder VersionText.
From S2P Require Import Compat RangeData Reasons CompatCheck VersionRange Components Options Idents.
From S2P Require Import Requests RequestEq Opts Satisfy Encoding.

(** ** Sources *)

(** What is used of repositories and recipes. *)
Class SourceOps (Repo Recipe : Type) := {
  repo_name : Repo -> rstr;
  repo_address : Repo -> rstr;
  recipe_ident : Recipe -> VersionIdent;
}.

Inductive SolutionError :=
| EmbeddedHasNoComponentLayers
| InternalTestHasNoComponentLayers
| NeedsBuilding (request : rstr) (resolved : BuildIdent)
| NoRecipe.

Inductive PackageSource (Repo Recipe : Type) :=
| Source_Repository (repo : Repo) (components : list (Component * Digest))
| Source_BuildFromSource (recipe : Recipe)
| Source_Embedded (parent : BuildIdent) (components : list Component)
| Source_InternalTest.
Arguments Source_Repository {Repo Recipe} repo components.
Arguments Source_BuildFromSource {Repo Recipe} recipe.
Arguments Source_Embedded {Repo Recipe} parent components.
Arguments Source_InternalTest {Repo Recipe}.

Section solution.
Context {Repo Recipe T C : Type} `{!SourceOps Repo Recipe} `{Package T C}.
Implicit Types (source : PackageSource Repo Recipe) (spec : T).

Definition is_build_from_source source : bool :=
  match source with Source_BuildFromSource _ => true | _ => false end.

(** [read_recipe]; reading from a repository is the argument. *)
Definition read_recipe (repo_read_recipe : Repo -> VersionIdent -> res SolutionError Recipe) source
    (ident : VersionIdent) : res SolutionError Recipe :=
  match source with
  | Source_BuildFromSource recipe => Ok recipe
  | Source_Repository repo _ => repo_read_recipe repo ident
  | Source_Embedded _ _ | Source_InternalTest => Err NoRecipe
  end.

(** [Ord for PackageSource]; [None] when out of fuel. *)
Fixpoint PackageSource_cmp (fuel : nat) (self other : PackageSource Repo Recipe) : option comparison :=
  match fuel with
  | O => None
  | S fuel =>
      match self, other with
      | Source_Repository _ _, Source_Repository _ _ => PackageSource_cmp fuel self other
      | Source_Repository _ _, _ => Some Lt
      | _, Source_Repository _ _ => Some Gt
      | Source_Embedded _ _, Source_Embedded _ _ => Some Eq
      | Source_Embedded _ _, Source_InternalTest => Some Gt
      | Source_InternalTest, Source_Embedded _ _ => Some Lt
      | Source_BuildFromSource this, Source_BuildFromSource other =>
          Some (thenc (cmp (id_base (recipe_ident this)) (id_base (recipe_ident other)))
                      (cmp (id_target (recipe_ident this)) (id_target (recipe_ident other))))
      | (Source_Embedded _ _ | Source_InternalTest), Source_BuildFromSource _ => Some Lt
      | Source_BuildFromSource _, (Source_Embedded _ _ | Source_InternalTest) => Some Gt
      | Source_InternalTest, Source_InternalTest => Some Eq
      end
  end.

(** ** Resolved requests *)

(** [spec.ident()]. *)
Definition pk_ident spec : BuildIdent := mkIdent (mkIdent (pk_name spec) (spec_version spec)) (pk_build spec).

Record SolvedRequest := mkSolvedRequest {
  sr_request : PkgRequestWithOptions;
  sr_spec : T;
  sr_source : PackageSource Repo Recipe;
}.
Implicit Types sr : SolvedRequest.

Definition is_source_build sr : bool := is_build_from_source (sr_source sr).

(** [SolvedRequest::selected_components]. *)
Definition sr_components sr : list Component := ri_components (pr_pkg (pkg_request (sr_request sr))).
Definition provided_components sr : list Component :=
  match sr_source sr with
  | Source_Repository _ components => components.*1
  | _ => list_names (pk_components (sr_spec sr))
  end.
Definition selected_components sr : list Component :=
  let installed := sr_components sr in
  if bool_decide (installed = []) then bset_extend installed (provided_components sr)
  else if bset_contains ComponentAll installed
  then bset_extend (bset_remove ComponentAll installed) (provided_components sr)
  else installed.

(** [SolvedRequest::component_layers]. *)
Definition component_layers sr : res SolutionError (list (Component * Digest)) :=
  match sr_source sr with
  | Source_Embedded _ _ => Err EmbeddedHasNoComponentLayers
  | Source_BuildFromSource _ =>
      match RangeIdent_to_string (pr_pkg (pkg_request (sr_request sr))) with
      | Ok request => Err (NeedsBuilding request (pk_ident (sr_spec sr)))
      | _ => Panicked
      end
  | Source_Repository _ components =>
      if bset_contains ComponentAll (sr_components sr) then Ok components
      else Ok (List.filter (fun '(c, _) => bset_contains c (sr_components sr)) components)
  | Source_InternalTest => Err InternalTestHasNoComponentLayers
  end.

Definition sr_repo_name sr : option rstr :=
  match sr_source sr with Source_Repository repo _ => Some (repo_name repo) | _ => None end.

(** [get_spfs_layers_to_packages]: by the bytes of a digest, the first request
    that has the layer and the components found for it. *)
Abbreviation LayerMap := (gmap (list N) (SolvedRequest * list Component)).
Definition add_layer sr (layers : LayerMap) (entry : Component * Digest) : LayerMap :=
  let '(component, layer) := entry in
  match layers !! digest_bytes layer with
  | Some (first, components) => <[digest_bytes layer := (first, components ++ [component])]> layers
  | None => <[digest_bytes layer := (sr, [component])]> layers
  end.
Fixpoint layers_to_packages (resolved_items : list SolvedRequest) (layers : LayerMap) :
    res SolutionError LayerMap :=
  match resolved_items with
  | [] => Ok layers
  | resolved :: resolved_items =>
      match component_layers resolved with
      | Ok spfs_layers => layers_to_packages resolved_items (foldl (add_layer resolved) layers spfs_layers)
      | Err EmbeddedHasNoComponentLayers | Err InternalTestHasNoComponentLayers =>
          layers_to_packages resolved_items layers
      | Err e => Err e
      | Panicked => Panicked
      end
  end.
Definition get_spfs_layers_to_packages (resolved_items : list SolvedRequest) : res SolutionError LayerMap :=
  layers_to_packages resolved_items ∅.

(** ** Solutions *)

Record Solution := mkSolution { sol_options : OptionMap; sol_resolved : list SolvedRequest }.
Implicit Types self : Solution.

Definition Solution_new (options : OptionMap) : Solution := mkSolution options [].
Definition items self : list SolvedRequest := sol_resolved self.
Definition sr_name sr : rstr := ri_name (pr_pkg (pkg_request (sr_request sr))).
Definition Solution_get self (name : rstr) : option SolvedRequest :=
  List.find (fun r => bool_decide (sr_name r = name)) (sol_resolved self).
Definition Solution_len self : nat := length (sol_resolved self).
Definition Solution_is_empty self : bool := match sol_resolved self with [] => true | _ => false end.

(** [Solution::add]: the first item with an equal request is replaced. *)
Fixpoint replace_item (new : SolvedRequest) (resolved : list SolvedRequest) : list SolvedRequest :=
  match resolved with
  | [] => [new]
  | r :: resolved =>
      if PkgRequestWithOptions_eq (sr_request r) (sr_request new) then new :: resolved
      else r :: replace_item new resolved
  end.
Definition Solution_add self (request : PkgRequestWithOptions) (spec : T) source : Solution :=
  mkSolution (sol_options self) (replace_item (mkSolvedRequest request spec source) (sol_resolved self)).

(** [Solution::repositories]. *)
Definition sr_repo sr : option Repo :=
  match sr_source sr with Source_Repository repo _ => Some repo | _ => None end.
Fixpoint collect_repositories (resolved : list SolvedRequest) (seen : list rstr) (repos : list Repo) : list Repo :=
  match resolved with
  | [] => repos
  | r :: resolved =>
      match sr_repo r with
      | Some repo =>
          let addr := repo_address repo in
          if bool_decide (addr ∈ seen) then collect_repositories resolved seen repos
          else collect_repositories resolved (addr :: seen) (repos ++ [repo])
      | None => collect_repositories resolved seen repos
      end
  end.
Definition repositories self : list Repo := collect_repositories (sol_resolved self) [] [].

(** *** Environment variables *)

Definition is_pkg_variable (name : rstr) : bool := str_starts_with (lit "SPK_PKG_") name.
Definition command_line_text (r : RequestedBy) : option rstr :=
  match r with CommandLineRequest req => Some req | _ => None end.
Definition initial_requests self : list rstr :=
  omap (fun i => head (omap command_line_text (get_requesters (pkg_request (sr_request i)))))
    (sol_resolved self).
Definition pkg_env_name (name suffix : rstr) : rstr := lit "SPK_PKG_" ++ OptName_env_name name ++ suffix.
Definition spec_variables spec : list (rstr * rstr) :=
  let var suffix := pkg_env_name (pk_name spec) suffix in
  let version := spec_version spec in
  [ (var [], BuildIdent_fmt false (pk_ident spec));
    (var (lit "_VERSION"), Version_to_string version);
    (var (lit "_BUILD"), Build_digest (pk_build spec));
    (var (lit "_VERSION_MAJOR"), dec (major version));
    (var (lit "_VERSION_MINOR"), dec (minor version));
    (var (lit "_VERSION_PATCH"), dec (patch version));
    (var (lit "_VERSION_BASE"), join [c_dot] (dec <$> parts (vparts version))) ].
Definition insert_all (out : gmap rstr rstr) (l : list (rstr * rstr)) : gmap rstr rstr :=
  foldl (fun out e => <[e.1 := e.2]> out) out l.

(** [Solution::to_environment]. *)
Definition Solution_to_environment self (base : option (gmap rstr rstr)) : gmap rstr rstr :=
  let out := default ∅ base in
  let out := filter (fun e => is_pkg_variable e.1 = false) out in
  let out := <[lit "SPK_INITIAL_PKG_REQUESTS" := join (lit " ") (initial_requests self)]> out in
  let out := <[lit "SPK_ACTIVE_PREFIX" := lit "/spfs"]> out in
  let out := foldl (fun out r => insert_all out (spec_variables (sr_spec r))) out (sol_resolved self) in
  to_environment (sol_options self) ∪ out.

(** [find_highest_package_version]; a repository answers with its highest version. *)
Fixpoint find_highest_from (max_version : Version) (answers : list (res SolutionError (option Version))) :
    res SolutionError Version :=
  match answers with
  | [] => Ok max_version
  | answer :: answers =>
      highest ← answer;
      find_highest_from
        (match highest with
         | Some highest_version => if gtb highest_version max_version then highest_version else max_version
         | None => max_version
         end) answers
  end.
Definition find_highest_package_version (answers : list (res SolutionError (option Version))) :
    res SolutionError Version := find_highest_from Version_default answers.
End solution.
Arguments SolvedRequest Repo Recipe T : clear implicits.
Arguments Solution Repo Recipe T : clear implicits.

(** ** Theorems *)

(** Comparing the sources of two packages from repositories calls itself with
    the same arguments: it does not end. *)
Lemma repository_sources_never_compare {Repo Recipe} `{!SourceOps Repo Recipe} fuel r1 c1 r2 c2 :
  PackageSource_cmp (Recipe := Recipe) fuel (Source_Repository r1 c1) (Source_Repository r2 c2) = None.
Proof. by induction fuel. Qed.

(** *** The environment *)

Definition upper (c : char) : Prop := (65 <= c <= 90)%N.
Definition plain_name (name : rstr) : Prop := forallb is_valid_pkg_name_char name = true.

Lemma plain_name_chars name : plain_name name ->
  Forall (fun c => is_valid_pkg_name_char c = true) name.
Proof. unfold plain_name. rewrite forallb_forall, Forall_forall. setoid_rewrite list_elem_of_In. done. Qed.
Lemma pkg_char_cases c : is_valid_pkg_name_char c = true ->
  (97 <= c <= 122 \/ 48 <= c <= 57 \/ c = c_hyphen)%N.
Proof.
  unfold is_valid_pkg_name_char, is_ascii_lowercase, is_ascii_digit.
  rewrite !orb_true_iff, !andb_true_iff, !N.leb_le, N.eqb_eq. tauto.
Qed.
Lemma env_name_not_upper name : plain_name name -> Forall (fun c => ~ upper c) (OptName_env_name name).
Proof.
  intros Hn%plain_name_chars. unfold OptName_env_name. apply Forall_fmap. eapply Forall_impl; [exact Hn|].
  intros c Hc%pkg_char_cases. change (~ upper (if (c =? c_hyphen)%N then c_underscore else c)).
  unfold upper. destruct (c =? c_hyphen)%N; lia.
Qed.
Lemma env_name_inj a b : plain_name a -> plain_name b -> OptName_env_name a = OptName_env_name b -> a = b.
Proof.
  intros Ha%plain_name_chars Hb%plain_name_chars. revert b Hb.
  induction Ha as [|x a Hx Ha IH]; intros [|y b] Hb; try done. apply Forall_cons in Hb as [Hy Hb].
  unfold OptName_env_name. rewrite !fmap_cons. intros [= E1 E2]. f_equal; [|by apply IH].
  apply pkg_char_cases in Hx, Hy. revert E1.
  destruct (N.eqb_spec x c_hyphen), (N.eqb_spec y c_hyphen); subst; lia.
Qed.

(** The part of a variable's name from its last underscore in front of a
    capital letter on. *)
Lemma split_at_upper a b (u v : char) s t :
  Forall (fun c => ~ upper c) a -> Forall (fun c => ~ upper c) b -> upper u -> upper v ->
  a ++ c_underscore :: u :: s = b ++ c_underscore :: v :: t -> a = b /\ u = v /\ s = t.
Proof.
  assert (~ upper c_underscore) as Hus by (unfold upper; lia).
  intros Ha. revert b. induction Ha as [|x a Hx Ha IH]; intros b Hb Hu Hv E.
  - destruct b as [|y b]; [by injection E as -> ->|]. apply Forall_cons in Hb as [Hy Hb].
    injection E as <- E. destruct b as [|z b]; [injection E as -> _; done|].
    apply Forall_cons in Hb as [Hz Hb]. injection E as -> _. done.
  - destruct b as [|y b].
    + injection E as -> E. destruct a as [|z a]; [injection E as <- _; done|].
      apply Forall_cons in Ha as [Hz Ha]. injection E as -> _. done.
    + apply Forall_cons in Hb as [Hy Hb]. injection E as -> E.
      destruct (IH b Hb Hu Hv E) as (-> & -> & ->). done.
Qed.
Lemma no_upper_suffix a b (u : char) s :
  Forall (fun c => ~ upper c) a -> upper u -> a <> b ++ c_underscore :: u :: s.
Proof.
  intros Ha Hu ->. apply Forall_app in Ha as [_ Ha]. apply Forall_cons in Ha as [_ Ha].
  by apply Forall_cons in Ha as [? _].
Qed.

Lemma insert_all_app out l k : insert_all out (l ++ k) = insert_all (insert_all out l) k.
Proof. apply foldl_app. Qed.
Lemma insert_all_lookup out l k v :
  (k, v) ∈ l -> (forall v', (k, v') ∈ l -> v' = v) -> insert_all out l !! k = Some v.
Proof.
  induction l as [|e l IH] using rev_ind; [by intros ?%elem_of_nil|]. intros Hin Hall.
  rewrite insert_all_app. cbn [insert_all foldl]. destruct (decide (e.1 = k)) as [<-|Hne].
  - rewrite lookup_insert_eq. f_equal. apply Hall, elem_of_app. right. apply list_elem_of_singleton. by destruct e.
  - rewrite lookup_insert_ne by done. apply IH.
    + apply elem_of_app in Hin as [Hin|Hin]; [done|]. apply list_elem_of_singleton in Hin as <-. done.
    + intros v' Hv'. apply Hall, elem_of_app. by left.
Qed.
Lemma to_environment_other self out k :
  (forall n, k <> opt_var_name n) ->
  (forall n v ns, (n, v) ∈ self -> OptName_namespace n = Some ns -> k <> pkg_var_name ns n) ->
  foldl to_environment_step out self !! k = out !! k.
Proof.
  intros Hopt. revert out. induction self as [|[n v] self IH]; intros out Hpkg; [done|]. cbn [foldl].
  rewrite IH by (intros n' v' ns' Hin; apply (Hpkg n' v'); by right). cbn [to_environment_step].
  destruct (OptName_namespace n) as [ns|] eqn:E.
  - rewrite !lookup_insert_ne; [done| |]; apply not_eq_sym; [|done]. eapply Hpkg; [by left|done].
  - rewrite lookup_insert_ne; [done|]. by apply not_eq_sym.
Qed.

Definition suffix_ok (s : rstr) : bool :=
  match s with
  | [] => true
  | c :: u :: _ => ((c =? c_underscore) && ((u =? 66) || (u =? 86)))%N (* 'B', 'V' *)
  | _ => false
  end.
Lemma suffix_ok_cases s : suffix_ok s = true -> 
  s = [] \/ exists u t, s = c_underscore :: u :: t /\ upper u /\ u <> 79%N.
Proof.
  destruct s as [|c [|u t]]; [by left|done|]. cbn [suffix_ok].
  rewrite andb_true_iff, orb_true_iff, !N.eqb_eq. intros (-> & Hu). right. exists u, t.
  split; [done|]. unfold upper. lia.
Qed.
Lemma pkg_env_name_inj a b s t :
  plain_name a -> plain_name b -> suffix_ok s = true -> suffix_ok t = true ->
  pkg_env_name a s = pkg_env_name b t -> a = b /\ s = t.
Proof.
  intros Ha Hb Hs Ht E. unfold pkg_env_name in E. apply (inj (app (lit "SPK_PKG_"))) in E.
  pose proof (env_name_not_upper a Ha) as Hua. pose proof (env_name_not_upper b Hb) as Hub.
  apply suffix_ok_cases in Hs as [->|(u & s' & -> & Hu & _)], Ht as [->|(v & t' & -> & Hv & _)].
  - rewrite !app_nil_r in E. split; [by apply env_name_inj|done].
  - rewrite app_nil_r in E. by apply no_upper_suffix in E.
  - rewrite app_nil_r in E. symmetry in E. by apply no_upper_suffix in E.
  - apply split_at_upper in E as (E & -> & ->); try done. split; [by apply env_name_inj|done].
Qed.

Section environment.
Context {Repo Recipe T C : Type} `{!SourceOps Repo Recipe} `{!Versioned T, !ComponentOps C, !Package T C}.
Implicit Types (self : Solution Repo Recipe T) (spec : T).

Lemma spec_variables_suffix spec k v :
  (k, v) ∈ spec_variables spec -> exists s, k = pkg_env_name (pk_name spec) s /\ suffix_ok s = true /\
    forall v', (k, v') ∈ spec_variables spec -> v' = v.
Proof.
  unfold spec_variables. intros Hin. rewrite !elem_of_cons, elem_of_nil in Hin.
  destruct Hin as [E|[E|[E|[E|[E|[E|[E|[]]]]]]]]; injection E as -> ->; eexists;
    (split; [reflexivity|]; split; [reflexivity|]); intros v' Hv';
    rewrite !elem_of_cons, elem_of_nil in Hv';
    destruct Hv' as [E|[E|[E|[E|[E|[E|[E|[]]]]]]]]; apply pair_equal_spec in E as [E ->]; try done;
    (apply (inj (app (lit "SPK_PKG_"))) in E; apply (inj (app _)) in E; done).
Qed.

(** The environment of a solution holds, for every package of it, the identifier,
    the version and its parts, and the build under the package's own variables:
    no other package and no option ever takes their names, whatever the
    environment was before.  (For packages with valid and distinct names, and
    options whose namespaces are valid package names.) *)
Theorem solution_environment_exact self base x k v :
  Forall (fun y => plain_name (pk_name (sr_spec y))) (sol_resolved self) ->
  NoDup ((fun y => pk_name (sr_spec y)) <$> sol_resolved self) ->
  Forall (fun o => forall ns, OptName_namespace o.1 = Some ns -> plain_name ns) (sol_options self) ->
  x ∈ sol_resolved self -> (k, v) ∈ spec_variables (sr_spec x) ->
  Solution_to_environment self base !! k = Some v.
Proof.
  intros Hnames Hnd Hopts Hx Hk. rewrite Forall_forall in Hnames.
  pose proof (proj1 (Forall_forall _ _) Hopts) as Hopts'.
  destruct (spec_variables_suffix _ _ _ Hk) as (s & -> & Hs & Huniq).
  unfold Solution_to_environment, to_environment. rewrite lookup_union_r.
  - assert (forall out l, foldl (fun out r => insert_all out (spec_variables (sr_spec r))) out l =
      insert_all out (concat ((fun r : SolvedRequest Repo Recipe T => spec_variables (sr_spec r)) <$> l))) as Hflat.
    { intros out l. revert out. induction l as [|r l IH]; intros out; [done|]. cbn [foldl]. rewrite IH.
      rewrite fmap_cons. cbn [concat]. by rewrite insert_all_app. }
    rewrite Hflat. apply insert_all_lookup.
    + apply list_elem_of_In, in_concat. exists (spec_variables (sr_spec x)).
      rewrite <-!list_elem_of_In. split; [|done]. apply list_elem_of_fmap. by exists x.
    + intros v' Hv'. apply list_elem_of_In, in_concat in Hv' as (l & Hl & Hv').
      apply list_elem_of_In in Hl, Hv'. apply list_elem_of_fmap in Hl as (y & -> & Hy).
      destruct (spec_variables_suffix _ _ _ Hv') as (t & E & Ht & _).
      apply pkg_env_name_inj in E as [En <-]; [|by apply Hnames|by apply Hnames|done|done].
      assert (x = y) as ->; [|by apply Huniq].
      apply list_elem_of_lookup_1 in Hx as [i Hi], Hy as [j Hj].
      assert (i = j) as <-; [|congruence].
      apply (NoDup_lookup _ _ _ (pk_name (sr_spec x)) Hnd); rewrite list_lookup_fmap; [by rewrite Hi|].
      rewrite Hj. cbn. by rewrite En.
  - rewrite (to_environment_other (sol_options self) ∅); [apply lookup_empty|by intros n [=]|].
    intros n w ns Hin Hns E. specialize (Hopts' _ Hin ns Hns).
    unfold pkg_env_name, pkg_var_name in E. apply (inj (app (lit "SPK_PKG_"))) in E.
    pose proof (env_name_not_upper _ Hopts') as Hu.
    pose proof (env_name_not_upper _ (Hnames x Hx)) as Hu'.
    change (lit "_OPT_") with (c_underscore :: 79%N :: lit "PT_") in E.
    assert (upper 79) as HO by (unfold upper; lia).
    apply suffix_ok_cases in Hs as [->|(u & t & -> & Hup & Hne)].
    + rewrite app_nil_r in E. by apply no_upper_suffix in E.
    + cbn [app] in E. by apply split_at_upper in E as (_ & -> & _).
Qed.
End environment.
