(* ===== verification/SolverState.v ===== *)
(** * States of the solver

    Models crates/spk-solve/crates/graph/src/graph.rs up to the graph itself:
    the immutable [State] a solve moves through (requests, options and resolved
    packages), its incrementally updated [StateId], the changes a [Decision] is
    made of and how they are applied, and the queries the solver asks of a state
    (the merged request for a package, the next request to resolve, the solution
    it amounts to); with package-iterator/src/promotion_patterns.rs.

    States share what did not change, among it two lazily filled caches: a cache
    is a cell of the [Store] that operations pass along, together with the
    statistics counters.  The hasher, which the standard library leaves
    unspecified, and the glob crate are parameters. *)

From stdpp Require Import gmap.
From S2P Require Import Prelude Strings Collections Names Version VersionOrder VersionText.
From S2P Require Import Compat RangeData Reasons CompatCheck Intersection VersionRange Components Options.
From S2P Require Import Idents Requests RequestEq Opts Satisfy Encoding Solution.

(** ** Promotion of names *)

Class GlobOps (Pattern : Type) := {
  glob_new : rstr -> option Pattern;
  glob_matches : Pattern -> rstr -> bool;
}.

(** [slice::sort_by_cached_key], a stable sort by a key. *)
Definition sort_by_key {A K} `{!Cmp K} (key : A -> K) (l : list A) : list A := @sort_slice A (cmp_on key) l.

Section promotion.
Context {Pattern : Type} `{!GlobOps Pattern}.
Definition PromotionPatterns_new (comma_separated_patterns : rstr) : list Pattern :=
  omap glob_new (split c_comma comma_separated_patterns).
Definition promotion_key (patterns : list Pattern) (name : rstr) : N :=
  match position (fun pattern => glob_matches pattern name) patterns with
  | Some index => N.of_nat index
  | None => u64_max
  end.
Definition promote_names {A} (patterns : list Pattern) (f : A -> rstr) (names : list A) : list A :=
  sort_by_key (fun name => promotion_key patterns (f name)) names.
End promotion.

(** ** Hashes *)

(** What [Hash for PkgRequest] and [PkgRequestWithOptions] feed the hasher: not
    the requesters and not the pin policy. *)
Record RequestKey := mkRequestKey {
  key_pkg : RangeIdent;
  key_prerelease_policy : option PreReleasePolicy;
  key_inclusion_policy : InclusionPolicy;
  key_pin : option rstr;
  key_required_compat : option CompatRule;
  key_options : PkgRequestOptions;
}.
Definition request_key (r : PkgRequestWithOptions) : RequestKey :=
  let p := pkg_request r in
  mkRequestKey (pr_pkg p) (pr_prerelease_policy p) (pr_inclusion_policy p) (pr_pin p)
    (pr_required_compat p) (pro_options r).

(** [DefaultHasher]: what a new one returns after it was fed a value, or a
    sequence of [u64]s.  Nothing is assumed of it, not even its range: theorems
    hold for hashes that collide as for those that do not. *)
Class Hasher (T : Type) := {
  hash_words : list N -> N;
  hash_request : RequestKey -> N;
  hash_var : VarRequest PinnedValue -> N;
  hash_options : OptionMap -> N;
  hash_spec : T -> N;
}.

Record CachedHash (A : Type) := mkCachedHash { ch_object : A; ch_hash : N }.
Arguments mkCachedHash {A} ch_object ch_hash.
Arguments ch_object {A} c.
Arguments ch_hash {A} c.

(** Derived [Ord for VarRequest]. *)
#[export] Instance cmp_VarRequest : Cmp (VarRequest PinnedValue) :=
  cmp_on (fun r => (vr_var r, (vr_value r, vr_description r))).
#[export] Instance cmp_VarRequest_laws : CmpLaws (VarRequest PinnedValue).
Proof. by apply (cmp_laws_by_key (fun r : VarRequest PinnedValue => (vr_var r, (vr_value r, vr_description r)))). Qed.
#[export] Instance VarRequest_key_inj :
  Inj (=) (=) (fun r : VarRequest PinnedValue => (vr_var r, (vr_value r, vr_description r))).
Proof. by intros [] [] ?; simplify_eq/=. Qed.
#[export] Instance cmp_VarRequest_leibniz : CmpLeibniz (VarRequest PinnedValue).
Proof.
  by apply (cmp_leibniz_by_key (fun r : VarRequest PinnedValue => (vr_var r, (vr_value r, vr_description r)))).
Qed.

Record StateId := mkStateId {
  pkg_requests_hash : N;
  var_requests_hash : N;
  var_requests_membership : gset N;
  packages_hash : N;
  options_hash : N;
  full_hash : N;
}.

(** ** Errors and effects *)

(** The cause of a conflict is the name and the reason its text is made of. *)
Inductive GetMergedRequestError :=
| NoRequestFor (name : rstr)
| Conflict (request : PkgRequest) (name : rstr) (incompatible : IncompatibleReason).
Inductive GraphError :=
| RecursionError
| RequestError (e : GetMergedRequestError).

Record Store := mkStore {
  option_maps : gmap nat OptionMap;
  unresolved_maps : gmap nat (gmap rstr PkgRequestWithOptions);
  next_cell : nat;
  requests_for_same_package_count : N;
  duplicate_requests_count : N;
  step_back_counters : gmap nat N;
}.
Definition Store_empty : Store := mkStore ∅ ∅ 0 0 0 ∅.

(** Operations on the store; an error leaves what was done. *)
Definition SM (A : Type) : Type := Store -> res GraphError A * Store.
#[export] Instance SM_ret : MRet SM := fun A a σ => (Ok a, σ).
#[export] Instance SM_bind : MBind SM := fun A B f m σ =>
  match m σ with
  | (Ok a, σ) => f a σ
  | (Err e, σ) => (Err e, σ)
  | (Panicked, σ) => (Panicked, σ)
  end.
Definition SM_lift {A} (r : res GraphError A) : SM A := fun σ => (r, σ).

(** [Arc::new(OnceCell::new())]: a cell that was not used before. *)
Definition new_cell : SM nat := fun σ =>
  (Ok (next_cell σ),
   mkStore (option_maps σ) (unresolved_maps σ) (S (next_cell σ)) (requests_for_same_package_count σ)
     (duplicate_requests_count σ) (step_back_counters σ)).
Definition set_option_map (cell : nat) (m : OptionMap) : SM unit := fun σ =>
  (Ok tt, mkStore (<[cell := m]> (option_maps σ)) (unresolved_maps σ) (next_cell σ)
            (requests_for_same_package_count σ) (duplicate_requests_count σ) (step_back_counters σ)).
Definition set_unresolved_map (cell : nat) (m : gmap rstr PkgRequestWithOptions) : SM unit := fun σ =>
  (Ok tt, mkStore (option_maps σ) (<[cell := m]> (unresolved_maps σ)) (next_cell σ)
            (requests_for_same_package_count σ) (duplicate_requests_count σ) (step_back_counters σ)).
(** [AtomicU64::fetch_add]. *)
Definition count_request (same duplicate : bool) : SM unit := fun σ =>
  (Ok tt, mkStore (option_maps σ) (unresolved_maps σ) (next_cell σ)
            (if same then u64_add (requests_for_same_package_count σ) 1
             else requests_for_same_package_count σ)
            (if duplicate then u64_add (duplicate_requests_count σ) 1 else duplicate_requests_count σ)
            (step_back_counters σ)).
Definition count_step_back (counter : nat) : SM unit := fun σ =>
  (Ok tt, mkStore (option_maps σ) (unresolved_maps σ) (next_cell σ) (requests_for_same_package_count σ)
            (duplicate_requests_count σ)
            (<[counter := u64_add (default 0%N (step_back_counters σ !! counter)) 1]>
               (step_back_counters σ))).

(** ** States *)

Section state.
Context {Repo Recipe T C Pattern : Type} `{!SourceOps Repo Recipe} `{Package T C} `{!Hasher T}.
Context `{!GlobOps Pattern}.
(** The configured priority order of requests, and itertools' permutations. *)
Context (request_priority_order : list Pattern).
Context (permutations2 : forall A : Type, list A -> list (A * A)).

Abbreviation Source := (PackageSource Repo Recipe).
Abbreviation Req := PkgRequestWithOptions.

Definition CachedHash_request (object : Req) : CachedHash Req :=
  mkCachedHash object (hash_request (request_key object)).
Definition CachedHash_spec (object : T) : CachedHash T := mkCachedHash object (hash_spec object).

(** By package name: the package, its source and the id of the state it was
    added to. *)
Abbreviation StatePackages := (list (rstr * (CachedHash T * Source * StateId))).

(** *** Identifiers *)

Definition StateId_new (pkg_requests var_requests : N) (membership : gset N) (packages options : N) : StateId :=
  mkStateId pkg_requests var_requests membership packages options
    (hash_words [pkg_requests; var_requests; packages; options]).
Definition StateId_pkg_requests_hash (pkg_requests : list (CachedHash Req)) : N :=
  hash_words (N.of_nat (length pkg_requests) :: (ch_hash <$> pkg_requests)).
Definition StateId_packages_hash (packages : StatePackages) : N :=
  hash_words ((fun e => ch_hash e.2.1.1) <$> packages).
Definition StateId_var_requests_hash (var_requests : list (VarRequest PinnedValue)) : N * gset N :=
  let hashes := hash_var <$> var_requests in (hash_words hashes, list_to_set hashes).

Definition StateId_with_options (self : StateId) (options : OptionMap) : StateId :=
  StateId_new (pkg_requests_hash self) (var_requests_hash self) (var_requests_membership self)
    (packages_hash self) (hash_options options).
Definition StateId_with_pkg_requests (self : StateId) (pkg_requests : list (CachedHash Req)) : StateId :=
  StateId_new (StateId_pkg_requests_hash pkg_requests) (var_requests_hash self)
    (var_requests_membership self) (packages_hash self) (options_hash self).
Definition StateId_with_packages (self : StateId) (packages : StatePackages) : StateId :=
  StateId_new (pkg_requests_hash self) (var_requests_hash self) (var_requests_membership self)
    (StateId_packages_hash packages) (options_hash self).
Definition StateId_with_var_requests_and_options (self : StateId)
    (var_requests : list (VarRequest PinnedValue)) (options : OptionMap) : StateId :=
  let '(var_requests_hash, membership) := StateId_var_requests_hash var_requests in
  StateId_new (pkg_requests_hash self) var_requests_hash membership (packages_hash self)
    (hash_options options).

(** *** The state *)

Record State := mkState {
  st_pkg_requests : list (CachedHash Req);
  st_var_requests : list (VarRequest PinnedValue);
  st_packages : StatePackages;
  st_packages_in_solve_order : list T;
  st_options : OptionMap;
  st_id : StateId;
  st_cached_option_map : nat;
  st_depth : N;
  st_cached_unresolved : nat;
}.
Implicit Types self parent base : State.

(** The four ways a state is made from another.  What stays the same is shared,
    a cache included. *)
Definition with_options self parent (options : OptionMap) : SM State :=
  option_cell ← new_cell;
  mret (mkState (st_pkg_requests self) (st_var_requests self) (st_packages self)
          (st_packages_in_solve_order self) options (StateId_with_options (st_id self) options)
          option_cell (u64_add (st_depth parent) 1) (st_cached_unresolved self)).
Definition append_package self (parent : option State) (spec : T) (source : Source) : SM State :=
  let packages := bmap_insert (pk_name spec) (CachedHash_spec spec, source, st_id self) (st_packages self) in
  unresolved_cell ← new_cell;
  mret (mkState (st_pkg_requests self) (st_var_requests self) packages
          (st_packages_in_solve_order self ++ [spec]) (st_options self)
          (StateId_with_packages (st_id self) packages) (st_cached_option_map self)
          (match parent with Some p => u64_add (st_depth p) 1 | None => 0 end) unresolved_cell).
Definition with_pkg_requests self parent (pkg_requests : list (CachedHash Req)) : SM State :=
  unresolved_cell ← new_cell;
  mret (mkState pkg_requests (st_var_requests self) (st_packages self) (st_packages_in_solve_order self)
          (st_options self) (StateId_with_pkg_requests (st_id self) pkg_requests)
          (st_cached_option_map self) (u64_add (st_depth parent) 1) unresolved_cell).
Definition with_var_requests_and_options self parent (var_requests : list (VarRequest PinnedValue))
    (options : OptionMap) : SM State :=
  option_cell ← new_cell;
  mret (mkState (st_pkg_requests self) var_requests (st_packages self) (st_packages_in_solve_order self)
          options (StateId_with_var_requests_and_options (st_id self) var_requests options)
          option_cell (u64_add (st_depth parent) 1) (st_cached_unresolved self)).

(** [State::new]: the packages' hash starts as zero. *)
Fixpoint append_packages self (packages : list (T * Source)) : SM State :=
  match packages with
  | [] => mret self
  | (package, source) :: packages =>
      s ← append_package self None package source; append_packages s packages
  end.
Definition State_new (pkg_requests : list Req) (var_requests : list (VarRequest PinnedValue))
    (packages : list (T * Source)) (options : list (rstr * rstr)) : SM State :=
  let pkg_requests := CachedHash_request <$> pkg_requests in
  let var_requests := bset_collect var_requests in
  let options := bmap_collect options in
  let '(var_requests_hash, membership) := StateId_var_requests_hash var_requests in
  let state_id := StateId_new (StateId_pkg_requests_hash pkg_requests) var_requests_hash membership 0
                    (hash_options options) in
  option_cell ← new_cell;
  unresolved_cell ← new_cell;
  append_packages (mkState pkg_requests var_requests [] [] options state_id option_cell 0 unresolved_cell)
    packages.
Definition default_state : SM State := State_new [] [] [] [].

(** *** Queries *)

Definition State_full_id self : N := full_hash (st_id self).
Definition contains_var_request self (var_request : VarRequest PinnedValue) : bool :=
  bool_decide (hash_var var_request ∈ var_requests_membership (st_id self)).
Definition get_current_resolve self (name : rstr) : option (CachedHash T * Source * StateId) :=
  bmap_get name (st_packages self).

Definition req_name (r : Req) : rstr := ri_name (pr_pkg (pkg_request r)).

(** The requesters of [request] added to those of a conflicting request. *)
Definition extend_requesters (conflict : PkgRequest) (request : Req) : PkgRequest :=
  mkPkgRequest (pr_pkg conflict) (pr_prerelease_policy conflict) (pr_inclusion_policy conflict)
    (pr_pin conflict) (pr_pin_policy conflict) (pr_required_compat conflict)
    (foldl (fun m e => bmap_insert e.1 (default [] (bmap_get e.1 m) ++ e.2) m)
       (pr_requested_by conflict) (pr_requested_by (pkg_request request))).

(** [get_merged_request]: the loop over the requests. *)
Fixpoint merge_requests (name : rstr) (merged : option Req) (requests : list Req) :
    res GetMergedRequestError Req :=
  match requests with
  | [] => match merged with Some merged => Ok merged | None => Err (NoRequestFor name) end
  | request :: requests =>
      match merged with
      | None =>
          if negb (bool_decide (req_name request = name)) then merge_requests name None requests
          else merge_requests name (Some request) requests
      | Some merged =>
          if negb (bool_decide (req_name request = req_name merged))
          then merge_requests name (Some merged) requests
          else
            '(compat, merged) ← total (PkgRequestWithOptions_restrict permutations2 merged request);
            match compat with
            | Compatible => merge_requests name (Some merged) requests
            | Incompatible reason =>
                Err (Conflict (extend_requesters (pkg_request merged) request) name reason)
            end
      end
  end.
Definition requests_of self : list Req := ch_object <$> st_pkg_requests self.
Definition get_merged_request self (name : rstr) : res GetMergedRequestError Req :=
  merge_requests name None (requests_of self).

Definition conflicting_request_for_package self (name : rstr) : option PkgRequest :=
  match List.filter (fun r => bool_decide (req_name r = name)) (requests_of self) with
  | [] => None
  | first :: requests => Some (foldl extend_requesters (pkg_request first) requests)
  end.

Inductive NextRequest :=
| NextRequest_Request (request : Req)
| NextRequest_Conflict (request : PkgRequest) (name : rstr) (cause : option IncompatibleReason).

(** [get_next_request]; the [expect] of its last arm may panic. *)
Definition next_request self (name : rstr) : res Empty_set NextRequest :=
  match get_merged_request self name with
  | Ok request => Ok (NextRequest_Request request)
  | Err (Conflict request n cause) => Ok (NextRequest_Conflict request n (Some cause))
  | Err (NoRequestFor n) =>
      match conflicting_request_for_package self name with
      | Some request => Ok (NextRequest_Conflict request n None)
      | None => Panicked
      end
  | Panicked => Panicked
  end.
(** A request that is passed over: for a resolved package, or one only wanted
    if it is already present. *)
Definition passed_over self (request : Req) : bool :=
  bmap_contains_key (req_name request) (st_packages self) ||
  bool_decide (pr_inclusion_policy (pkg_request request) = IfAlreadyPresent).
Fixpoint first_unresolved self (requests : list Req) : res Empty_set (option NextRequest) :=
  match requests with
  | [] => Ok None
  | request :: requests =>
      if passed_over self request then first_unresolved self requests
      else n ← next_request self (req_name request); Ok (Some n)
  end.
Definition get_next_request self : res Empty_set (option NextRequest) :=
  first_unresolved self (requests_of self).

(** [get_option_map] and [get_unresolved_requests], through the caches. *)
Definition get_option_map self : SM OptionMap := fun σ =>
  match option_maps σ !! st_cached_option_map self with
  | Some m => (Ok m, σ)
  | None => (_ ← set_option_map (st_cached_option_map self) (st_options self);
             mret (st_options self)) σ
  end.
Fixpoint unresolved_requests self (unresolved : gmap rstr Req) (requests : list Req) :
    res GraphError (gmap rstr Req) :=
  match requests with
  | [] => Ok unresolved
  | req :: requests =>
      match unresolved !! req_name req with
      | Some _ => unresolved_requests self unresolved requests
      | None =>
          match get_current_resolve self (req_name req) with
          | Some _ => unresolved_requests self unresolved requests
          | None =>
              match get_merged_request self (req_name req) with
              | Ok merged => unresolved_requests self (<[req_name req := merged]> unresolved) requests
              | Err e => Err (RequestError e)
              | Panicked => Panicked
              end
          end
      end
  end.
Definition compute_unresolved self : res GraphError (gmap rstr Req) :=
  unresolved_requests self ∅ (requests_of self).
Definition get_unresolved_requests self : SM (gmap rstr Req) := fun σ =>
  match unresolved_maps σ !! st_cached_unresolved self with
  | Some m => (Ok m, σ)
  | None => (m ← SM_lift (compute_unresolved self);
             _ ← set_unresolved_map (st_cached_unresolved self) m;
             mret m) σ
  end.

(** [as_solution]. *)
Fixpoint add_resolved self (solution : Solution Repo Recipe T) (packages : list T) :
    res GraphError (Solution Repo Recipe T) :=
  match packages with
  | [] => Ok solution
  | package :: packages =>
      match bmap_get (pk_name package) (st_packages self) with
      | None => add_resolved self solution packages
      | Some (spec, source, _) =>
          match get_merged_request self (pk_name (ch_object spec)) with
          | Ok req => add_resolved self (Solution_add solution req (ch_object spec) source) packages
          | Err e => Err (RequestError e)
          | Panicked => Panicked
          end
      end
  end.
Definition as_solution self : res GraphError (Solution Repo Recipe T) :=
  add_resolved self (Solution_new (st_options self)) (st_packages_in_solve_order self).

(** ** Changes *)

Inductive Change :=
| Change_RequestPackage (request : Req) (prioritize : bool)
| Change_RequestVar (request : VarRequest PinnedValue)
| Change_SetOptions (options : OptionMap)
| Change_SetPackage (spec : T) (source : Source)
| Change_SetPackageBuild (spec : T) (source : Source)
| Change_StepBack (destination : State) (global_counter : nat).

(** [RequestPackage::new], [prioritize], and [SetPackageBuild::new]. *)
Definition RequestPackage_new (request : Req) : Change := Change_RequestPackage request false.
Definition RequestPackage_prioritize (request : Req) : Change := Change_RequestPackage request true.
Definition SetPackageBuild_new (spec : T) (recipe : Recipe) : Change :=
  Change_SetPackageBuild spec (Source_BuildFromSource recipe).

(** The first part of [RequestPackage::apply]: the new request is merged into
    the first request it can be merged with.  A failed attempt leaves its traces
    in the request that goes on to the next. *)
Fixpoint merge_into (name : rstr) (cloned_request : option Req) (requests : list (CachedHash Req)) :
    res Empty_set (option Req * list (CachedHash Req)) :=
  match requests with
  | [] => Ok (cloned_request, [])
  | existing :: requests =>
      match cloned_request with
      | Some request =>
          if negb (bool_decide (req_name (ch_object existing) = name)) then
            '(cloned, requests) ← merge_into name cloned_request requests;
            Ok (cloned, existing :: requests)
          else
            '(compat, request) ← PkgRequestWithOptions_restrict permutations2 request (ch_object existing);
            match compat with
            | Compatible =>
                '(cloned, requests) ← merge_into name None requests;
                Ok (cloned, CachedHash_request request :: requests)
            | Incompatible _ =>
                '(cloned, requests) ← merge_into name (Some request) requests;
                Ok (cloned, existing :: requests)
            end
      | None =>
          '(cloned, requests) ← merge_into name None requests;
          Ok (cloned, existing :: requests)
      end
  end.

(** The requests in which the sort looks for others of the package.  The
    standard library computes no keys for fewer than two elements. *)
Definition keyed {A} (l : list A) : list A := if length l <? 2 then [] else l.
Definition same_package (name : rstr) (requests : list (CachedHash Req)) : bool :=
  existsb (fun r => bool_decide (req_name (ch_object r) = name)) (keyed requests).
Definition duplicate_request (request : Req) (requests : list (CachedHash Req)) : bool :=
  existsb (fun r => bool_decide (req_name (ch_object r) = req_name request) &&
                    RangeIdent_eq (pr_pkg (pkg_request (ch_object r))) (pr_pkg (pkg_request request)))
    (keyed requests).
(** The key of both sorts: zero for the requests of the package, else one. *)
Definition package_key (name : rstr) (r : CachedHash Req) : N :=
  if bool_decide (req_name (ch_object r) = name) then 0 else 1.
Definition append_request (request : Req) (requests : list (CachedHash Req)) : list (CachedHash Req) :=
  promote_names request_priority_order (fun r => req_name (ch_object r))
    (sort_by_key (package_key (req_name request)) requests ++ [CachedHash_request request]).

Definition RequestPackage_apply (request : Req) (prioritize : bool) parent base : SM State :=
  '(cloned, new_requests) ←
    SM_lift (total (merge_into (req_name request) (Some request) (st_pkg_requests base)));
  new_requests ←
    match cloned with
    | Some _ =>
        _ ← count_request (same_package (req_name request) new_requests)
              (duplicate_request request new_requests);
        mret (append_request request new_requests)
    | None => mret new_requests
    end;
  with_pkg_requests base parent
    (if prioritize then sort_by_key (package_key (req_name request)) new_requests else new_requests).

(** [SetOptions::compute_new_options]. *)
Definition new_option (update_empty : bool) (options : OptionMap) (entry : rstr * rstr) : OptionMap :=
  if bmap_contains_key entry.1 options && str_is_empty entry.2 && negb update_empty then options
  else bmap_insert entry.1 entry.2 options.
Definition compute_new_options base (new_options : list (rstr * rstr)) (update_empty : bool) : OptionMap :=
  foldl (new_option update_empty) (st_options base) new_options.

Definition RequestVar_apply (request : VarRequest PinnedValue) parent base : SM State :=
  let new_requests := if contains_var_request base request then st_var_requests base
                      else bset_insert request (st_var_requests base) in
  with_var_requests_and_options base parent new_requests
    (compute_new_options base [(vr_var request, vr_value request)] true).
Definition SetOptions_apply (options : OptionMap) parent base : SM State :=
  with_options base parent (compute_new_options base options false).
Definition SetPackage_apply (spec : T) (source : Source) parent base : SM State :=
  append_package base (Some parent) spec source.
Definition StepBack_apply (destination : State) (global_counter : nat) : SM State :=
  _ ← count_step_back global_counter; mret destination.

Definition Change_apply (self : Change) parent base : SM State :=
  match self with
  | Change_RequestPackage request prioritize => RequestPackage_apply request prioritize parent base
  | Change_RequestVar request => RequestVar_apply request parent base
  | Change_SetOptions options => SetOptions_apply options parent base
  | Change_SetPackage spec source | Change_SetPackageBuild spec source =>
      SetPackage_apply spec source parent base
  | Change_StepBack destination counter => StepBack_apply destination counter
  end.

(** [Decision::apply]: every change gets the base of the decision as its
    parent. *)
Fixpoint apply_changes base (state : State) (changes : list Change) : SM State :=
  match changes with
  | [] => mret state
  | change :: changes => s ← Change_apply change base state; apply_changes base s changes
  end.
Definition Decision_apply (changes : list Change) base : SM State := apply_changes base base changes.

(** [Solver::get_initial_state]. *)
Definition get_initial_state (initial_state_builders : list Change) : SM State :=
  base ← default_state; Decision_apply initial_state_builders base.
End state.
Arguments State Repo Recipe T : clear implicits.
Arguments Change Repo Recipe T : clear implicits.

(** ** Notes *)

Inductive SkipPackageNoteReason :=
| SkipReason_String (s : rstr)
| SkipReason_Compatibility (c : Compatibility).
Record SkipPackageNote := mkSkipPackageNote { skip_pkg : AnyIdent; skip_reason : SkipPackageNoteReason }.
Inductive Note :=
| Note_SkipPackage (note : SkipPackageNote)
| Note_Other (s : rstr).

Definition SkipPackageNoteReason_is_same_reason_as (self other : SkipPackageNoteReason) : bool :=
  match self, other with
  | SkipReason_String s1, SkipReason_String s2 => bool_decide (s1 = s2)
  | SkipReason_Compatibility c1, SkipReason_Compatibility c2 => Compatibility_is_same_reason_as c1 c2
  | _, _ => false
  end.
Definition SkipPackageNote_is_same_reason_as (self other : SkipPackageNote) : bool :=
  bool_decide (id_base (id_base (skip_pkg self)) = id_base (id_base (skip_pkg other))) &&
  SkipPackageNoteReason_is_same_reason_as (skip_reason self) (skip_reason other).
