(* ===== verification/SolverTheory.v ===== *)
(** * Theory of solver states

    What holds of every state a solve can reach ([SolverState]): its identifier
    is that of its parts however it was reached, the caches its copies share are
    never stale, the merged request for a package is answered by exactly the
    packages that answer every request for it, adding a request adds what it
    asks, the next request is the first one to resolve, and the solution holds
    every resolved package once. *)

From stdpp Require Import gmap.
From S2P Require Import Prelude Strings Collections Names Version VersionOrder VersionText.
From S2P Require Import Compat RangeData Reasons CompatCheck Intersection VersionRange RangeTheory.
From S2P Require Import Components Options Idents Requests RequestEq Opts Satisfy PackageSpec.
From S2P Require Import MergeTheory RequestPools Encoding Solution SolverState.

(** ** Effects *)

Lemma SM_bind_Ok {A B} (x : SM A) (f : A -> SM B) σ b σ' :
  (x ≫= f) σ = (Ok b, σ') -> exists a σ1, x σ = (Ok a, σ1) /\ f a σ1 = (Ok b, σ').
Proof. unfold mbind, SM_bind. destruct (x σ) as [[a|e|] σ1]; naive_solver. Qed.
Lemma SM_lift_Ok {A} (r : res GraphError A) σ a σ' : SM_lift r σ = (Ok a, σ') -> r = Ok a /\ σ' = σ.
Proof. by intros [= -> ->]. Qed.
(** An operation that fills no cache and takes no cell back. *)
Record extends (σ σ' : Store) : Prop := {
  ext_option_maps : option_maps σ' = option_maps σ;
  ext_unresolved_maps : unresolved_maps σ' = unresolved_maps σ;
  ext_next : next_cell σ <= next_cell σ';
}.
#[export] Instance extends_preorder : PreOrder extends.
Proof.
  split; [by split|]. intros σ1 σ2 σ3 [H1 H2 H3] [H4 H5 H6]. split; [by rewrite H4|by rewrite H5|lia].
Qed.

Lemma new_cell_Ok σ c σ' :
  new_cell σ = (Ok c, σ') -> c = next_cell σ /\ extends σ σ' /\ next_cell σ' = S (next_cell σ).
Proof. intros [= <- <-]. split_and!; [done| |done]. split; simpl; (done || lia). Qed.
Lemma count_request_Ok a b σ u σ' : count_request a b σ = (Ok u, σ') -> extends σ σ'.
Proof. intros [= _ <-]. by split. Qed.
Lemma count_step_back_Ok c σ u σ' : count_step_back c σ = (Ok u, σ') -> extends σ σ'.
Proof. intros [= _ <-]. by split. Qed.

Lemma sort_by_key_perm {A K} `{CmpLaws K} (key : A -> K) l : sort_by_key key l ≡ₚ l.
Proof.
  apply (@sort_slice_perm A (cmp_on key)).
Qed.
(** Elements with equal keys keep their order. *)
Lemma sort_by_key_filter {A K} `{CmpLaws K} (key : A -> K) (p : A -> bool) l :
  (forall x y, p x = true -> p y = true -> key x = key y) ->
  List.filter p (sort_by_key key l) = List.filter p l.
Proof.
  intros Hp. apply (@sort_slice_filter A (cmp_on key)). intros x y Hx Hy. unfold cmp, cmp_on.
  rewrite (Hp x y Hx Hy). apply cmp_refl.
Qed.

Section theory.
Context {Repo Recipe T C Pattern : Type} `{!SourceOps Repo Recipe} `{!Versioned T, !ComponentOps C, !Package T C}.
Context `{!Hasher T, !GlobOps Pattern}.
Context (request_priority_order : list Pattern).
Context (permutations2 : forall A : Type, list A -> list (A * A)).
Implicit Types (s parent base : State Repo Recipe T) (σ : Store) (live : list (State Repo Recipe T)).

Abbreviation Change_apply := (Change_apply request_priority_order permutations2).
Abbreviation get_unresolved_requests := (get_unresolved_requests permutations2).

(** ** What a state is made of *)

(** The identifier of a state, computed from its parts. *)
Definition packages_word (packages : list T) : N :=
  match packages with [] => 0%N | _ => hash_words (hash_spec <$> packages) end.
Lemma packages_word_cons l : l <> [] -> packages_word l = hash_words (hash_spec <$> l).
Proof. by destruct l. Qed.
Definition resolved_specs s : list T := (fun e => ch_object e.2.1.1) <$> st_packages s.
Definition id_of s : StateId :=
  let requests := requests_of s in
  StateId_new
    (hash_words (N.of_nat (length requests) :: (hash_request ∘ request_key <$> requests)))
    (hash_words (hash_var (T := T) <$> st_var_requests s))
    (list_to_set (hash_var (T := T) <$> st_var_requests s))
    (packages_word (resolved_specs s)) (hash_options (st_options s)).

Record state_wf s : Prop := {
  wf_requests : Forall (fun c => c = CachedHash_request (ch_object c)) (st_pkg_requests s);
  wf_var_requests : bset_wf (st_var_requests s);
  wf_packages : bmap_wf (st_packages s);
  wf_specs : Forall (fun e => e.1 = pk_name (ch_object e.2.1.1) /\ e.2.1.1 = CachedHash_spec (ch_object e.2.1.1))
               (st_packages s);
  wf_order n : bmap_get n (st_packages s) <> None <-> n ∈ (pk_name <$> st_packages_in_solve_order s);
  wf_options : bmap_wf (st_options s);
  wf_id : st_id s = id_of s;
}.

Lemma with_options_wf self parent options σ s σ' :
  state_wf self -> bmap_wf options -> with_options self parent options σ = (Ok s, σ') -> state_wf s.
Proof.
  intros [Hr Hv Hp Hs Ho _ Hid] Hwf (c & σ1 & _ & [= <- _])%SM_bind_Ok.
  split; try done. cbn [st_id]. by rewrite Hid.
Qed.
Lemma with_pkg_requests_wf self parent requests σ s σ' :
  state_wf self -> Forall (fun c => c = CachedHash_request (ch_object c)) requests ->
  with_pkg_requests self parent requests σ = (Ok s, σ') -> state_wf s.
Proof.
  intros [Hr Hv Hp Hs Ho Hopt Hid] Hwf (c & σ1 & _ & [= <- _])%SM_bind_Ok.
  split; try done. cbn [st_id]. rewrite Hid. unfold StateId_with_pkg_requests, id_of. cbn.
  f_equal. unfold StateId_pkg_requests_hash, requests_of. rewrite length_fmap, <-list_fmap_compose.
  do 2 f_equal. apply list_fmap_ext. intros i x Hx. rewrite Forall_lookup in Hwf.
  by rewrite (Hwf i x Hx).
Qed.
Lemma with_var_requests_wf self parent vars options σ s σ' :
  state_wf self -> bset_wf vars -> bmap_wf options ->
  with_var_requests_and_options self parent vars options σ = (Ok s, σ') -> state_wf s.
Proof.
  intros [Hr Hv Hp Hs Ho _ Hid] Hwf Hopt (c & σ1 & _ & [= <- _])%SM_bind_Ok.
  split; try done. cbn [st_id]. by rewrite Hid.
Qed.
Lemma append_package_wf self (from : option (State Repo Recipe T)) (spec : T) source σ s σ' :
  state_wf self -> append_package self from spec source σ = (Ok s, σ') -> state_wf s.
Proof.
  intros [Hr Hv Hp Hs Ho Hopt Hid] (c & σ1 & _ & [= <- _])%SM_bind_Ok.
  assert (Forall (fun e => e.1 = pk_name (ch_object e.2.1.1) /\ e.2.1.1 = CachedHash_spec (ch_object e.2.1.1))
    (bmap_insert (pk_name spec) (CachedHash_spec spec, source, st_id self) (st_packages self))) as Hs'.
  { apply bmap_insert_Forall; [|done]. by intros k <-%cmp_eq. }
  split; try done.
  - by apply bmap_insert_wf.
  - intros n. cbn [st_packages st_packages_in_solve_order]. rewrite bmap_get_insert, fmap_app by done.
    rewrite elem_of_app, <-Ho. cbn. rewrite list_elem_of_singleton.
    pose proof (cmp_eq n (pk_name spec)). destruct (cmp n (pk_name spec)) eqn:E.
    + naive_solver.
    + assert (n <> pk_name spec) by (intros ->; by rewrite cmp_refl in E). tauto.
    + assert (n <> pk_name spec) by (intros ->; by rewrite cmp_refl in E). tauto.
  - cbn [st_id]. set (packages := bmap_insert _ _ _) in *. rewrite Hid.
    unfold StateId_with_packages, id_of, resolved_specs. cbn [st_packages].
    assert (StateId_packages_hash packages = packages_word ((fun e => ch_object e.2.1.1) <$> packages)) as Hh.
    { rewrite packages_word_cons by (intros Hnil%fmap_nil_inv; by apply bmap_insert_not_nil in Hnil).
      unfold StateId_packages_hash. rewrite <-list_fmap_compose. f_equal. apply list_fmap_ext.
      intros i x Hx. rewrite Forall_lookup in Hs'. by destruct (Hs' i x Hx) as [_ ->]. }
    by rewrite Hh.
Qed.

Definition cached (c : CachedHash PkgRequestWithOptions) : Prop := c = CachedHash_request (T := T) (ch_object c).

Lemma merge_into_cached name cloned requests cloned' requests' :
  Forall cached requests -> merge_into (T := T) permutations2 name cloned requests = Ok (cloned', requests') ->
  Forall cached requests'.
Proof.
  intros Hr. revert cloned cloned' requests'.
  induction Hr as [|c l Hc Hr IH]; intros cloned cloned' requests'; cbn [merge_into].
  { by intros [= _ <-]. }
  destruct cloned as [request|].
  - destruct (negb _).
    + intros ([cl l'] & Hl & [= _ <-])%bind_Ok. constructor; eauto.
    + intros ([[|reason] m] & _ & ([cl l'] & Hl & [= _ <-])%bind_Ok)%bind_Ok; constructor; eauto; done.
  - intros ([cl l'] & Hl & [= _ <-])%bind_Ok. constructor; eauto.
Qed.

Lemma append_request_cached request requests :
  Forall cached requests -> Forall cached (append_request (T := T) request_priority_order request requests).
Proof.
  intros Hr. unfold append_request, promote_names. rewrite sort_by_key_perm.
  apply Forall_app. split; [|by repeat constructor]. by rewrite sort_by_key_perm.
Qed.

Lemma compute_new_options_wf base options update :
  bmap_wf (st_options base) -> bmap_wf (compute_new_options base options update).
Proof.
  unfold compute_new_options. generalize (st_options base). induction options as [|[k v] options IH];
    intros m Hm; [done|]. apply IH. unfold new_option. destruct (_ && _ && _); [done|].
  by apply bmap_insert_wf.
Qed.

(** Where the destination of a step back is. *)
Definition change_wf (change : Change Repo Recipe T) : Prop :=
  match change with Change_StepBack destination _ => state_wf destination | _ => True end.

Lemma Change_apply_wf change parent base σ s σ' :
  state_wf base -> change_wf change -> Change_apply change parent base σ = (Ok s, σ') -> state_wf s.
Proof.
  intros Hb Hc. destruct change as [request prioritize|request|options|spec source|spec source|dest counter];
    cbn [SolverState.Change_apply].
  - intros ([cloned requests] & σ1 & [Hm%total_Ok ->]%SM_lift_Ok & Ha)%SM_bind_Ok.
    assert (Forall cached requests) as Hr by (eapply merge_into_cached, Hm; apply Hb).
    apply SM_bind_Ok in Ha as (requests' & σ2 & Hr' & Ha).
    assert (Forall cached requests') as Hc'.
    { destruct cloned; [|by injection Hr' as <- _].
      apply SM_bind_Ok in Hr' as (_ & σ3 & _ & [= <- _]). by apply append_request_cached. }
    eapply with_pkg_requests_wf; [done| |exact Ha]. destruct prioritize; [|done].
    by rewrite sort_by_key_perm.
  - intros Ha. eapply with_var_requests_wf; [done| |by apply compute_new_options_wf, Hb|exact Ha].
    destruct (contains_var_request base request); [apply Hb|apply bset_wf_insert, Hb].
  - intros Ha. eapply with_options_wf; [done|by apply compute_new_options_wf, Hb|exact Ha].
  - by apply append_package_wf.
  - by apply append_package_wf.
  - by intros (_ & σ1 & _ & [= <- _])%SM_bind_Ok.
Qed.

Lemma append_packages_wf s packages σ s' σ' :
  state_wf s -> append_packages s packages σ = (Ok s', σ') -> state_wf s'.
Proof.
  revert s σ. induction packages as [|[spec source] packages IH]; intros s σ Hs.
  - by intros [= <- _].
  - intros (s1 & σ1 & Ha & Hp)%SM_bind_Ok. eapply IH, Hp. by eapply append_package_wf.
Qed.
Lemma State_new_wf requests vars packages options σ s σ' :
  State_new requests vars packages options σ = (Ok s, σ') -> state_wf s.
Proof.
  unfold State_new, StateId_var_requests_hash. cbv beta iota zeta.
  intros (c1 & σ1 & _ & (c2 & σ2 & _ & Hp)%SM_bind_Ok)%SM_bind_Ok. eapply append_packages_wf, Hp.
  split; try done.
  - cbn [st_pkg_requests]. apply Forall_fmap, Forall_true. by intros r.
  - apply bset_wf_collect.
  - constructor.
  - cbn. intros n. split; [done|]. by intros ?%elem_of_nil.
  - apply bmap_wf_extend. constructor.
  - cbn [st_id]. unfold id_of, requests_of, resolved_specs. cbn. unfold StateId_pkg_requests_hash.
    rewrite length_fmap, <-!list_fmap_compose, length_fmap. done.
Qed.

(** ** The states of a solve

    The program around the states: it makes new states, applies changes to the
    states it has, and asks them for what they cache.  All of its states stay
    reachable, since any may be copied. *)
Inductive solve : Store -> list (State Repo Recipe T) -> Prop :=
| solve_start : solve Store_empty []
| solve_new σ live requests vars packages options s σ' :
    solve σ live -> State_new requests vars packages options σ = (Ok s, σ') -> solve σ' (s :: live)
| solve_change σ live change parent base s σ' :
    solve σ live -> parent ∈ live -> base ∈ live ->
    match change with Change_StepBack destination _ => destination ∈ live | _ => True end ->
    Change_apply change parent base σ = (Ok s, σ') -> solve σ' (s :: live)
| solve_options σ live s r σ' :
    solve σ live -> s ∈ live -> get_option_map s σ = (r, σ') -> solve σ' live
| solve_unresolved σ live s r σ' :
    solve σ live -> s ∈ live -> get_unresolved_requests s σ = (r, σ') -> solve σ' live.

Lemma solve_wf σ live : solve σ live -> Forall state_wf live.
Proof.
  induction 1 as [|σ live requests vars packages options s σ' _ IH Hs
                  |σ live change parent base s σ' _ IH Hp Hb Hc Hs|? ? ? ? ? _ IH _ _|? ? ? ? ? _ IH _ _]; try done.
  - constructor; [by eapply State_new_wf|done].
  - rewrite Forall_forall in IH. constructor; [|by apply Forall_forall].
    eapply Change_apply_wf, Hs; [by apply IH|]. destruct change; try done. by apply IH.
Qed.

(** ** The caches *)

(** States that share a cell agree on what it caches; a filled cell holds it. *)
Record caches_ok σ live : Prop := {
  co_option_cells s : s ∈ live -> st_cached_option_map s < next_cell σ;
  co_unresolved_cells s : s ∈ live -> st_cached_unresolved s < next_cell σ;
  co_options_filled c : is_Some (option_maps σ !! c) -> c < next_cell σ;
  co_unresolved_filled c : is_Some (unresolved_maps σ !! c) -> c < next_cell σ;
  co_options_shared s s' : s ∈ live -> s' ∈ live ->
    st_cached_option_map s = st_cached_option_map s' -> st_options s = st_options s';
  co_unresolved_shared s s' : s ∈ live -> s' ∈ live ->
    st_cached_unresolved s = st_cached_unresolved s' ->
    st_pkg_requests s = st_pkg_requests s' /\ st_packages s = st_packages s';
  co_options_fresh s m : s ∈ live -> option_maps σ !! st_cached_option_map s = Some m -> m = st_options s;
  co_unresolved_fresh s m : s ∈ live ->
    unresolved_maps σ !! st_cached_unresolved s = Some m -> compute_unresolved permutations2 s = Ok m;
}.

Lemma compute_unresolved_same s s' :
  st_pkg_requests s = st_pkg_requests s' -> st_packages s = st_packages s' ->
  compute_unresolved permutations2 s = compute_unresolved permutations2 s'.
Proof.
  intros Hr Hp. unfold compute_unresolved.
  assert (requests_of s = requests_of s') as E by (unfold requests_of; by rewrite Hr).
  rewrite E. generalize (requests_of s') as l. generalize (∅ : gmap rstr PkgRequestWithOptions) as m.
  intros m l. revert m. induction l as [|req l IH]; intros m; [done|]. cbn [unresolved_requests].
  unfold get_current_resolve, get_merged_request. rewrite Hp, E.
  destruct (m !! req_name req); [apply IH|]. destruct (bmap_get _ _); [apply IH|].
  destruct (merge_requests _ _ _ _); [apply IH|done..].
Qed.

(** A state made by [extends]: each of its cells is new, or that of a state with
    the same contents. *)
Record made_from σ σ' live s : Prop := {
  mf_extends : extends σ σ';
  mf_options : next_cell σ <= st_cached_option_map s < next_cell σ' \/
    exists b, b ∈ live /\ st_cached_option_map s = st_cached_option_map b /\ st_options s = st_options b;
  mf_unresolved : next_cell σ <= st_cached_unresolved s < next_cell σ' \/
    exists b, b ∈ live /\ st_cached_unresolved s = st_cached_unresolved b /\
      st_pkg_requests s = st_pkg_requests b /\ st_packages s = st_packages b;
}.

Lemma caches_ok_add σ σ' live s : caches_ok σ live -> made_from σ σ' live s -> caches_ok σ' (s :: live).
Proof.
  intros [Ho Hu Hof Huf Hos Hus Hofr Hufr] [[Eo Eu Hn] Hso Hsu].
  assert (forall m, option_maps σ !! st_cached_option_map s = Some m -> m = st_options s) as Hsf.
  { intros m Hm. destruct Hso as [[Hc _]|(b & Hb & Hc & ->)].
    - assert (st_cached_option_map s < next_cell σ) by (apply Hof; by eexists). lia.
    - rewrite Hc in Hm. by apply Hofr. }
  assert (forall m, unresolved_maps σ !! st_cached_unresolved s = Some m ->
    compute_unresolved permutations2 s = Ok m) as Hsuf.
  { intros m Hm. destruct Hsu as [[Hc _]|(b & Hb & Hc & Hr & Hp)].
    - assert (st_cached_unresolved s < next_cell σ) by (apply Huf; by eexists). lia.
    - rewrite Hc in Hm. rewrite (compute_unresolved_same _ _ Hr Hp). by apply Hufr. }
  assert (forall x, x ∈ live -> st_cached_option_map s = st_cached_option_map x -> st_options s = st_options x) as Hsh.
  { intros x Hx E. destruct Hso as [[Hc _]|(b & Hb & Hc & ->)]; [specialize (Ho x Hx); lia|].
    apply Hos; [done..|congruence]. }
  assert (forall x, x ∈ live -> st_cached_unresolved s = st_cached_unresolved x ->
    st_pkg_requests s = st_pkg_requests x /\ st_packages s = st_packages x) as Hshu.
  { intros x Hx E. destruct Hsu as [[Hc _]|(b & Hb & Hc & -> & ->)]; [specialize (Hu x Hx); lia|].
    apply Hus; [done..|congruence]. }
  split; rewrite ?Eo, ?Eu.
  - intros x [->|Hx]%elem_of_cons; [|specialize (Ho x Hx); lia].
    destruct Hso as [?|(b & Hb & -> & _)]; [lia|]. specialize (Ho b Hb). lia.
  - intros x [->|Hx]%elem_of_cons; [|specialize (Hu x Hx); lia].
    destruct Hsu as [?|(b & Hb & -> & _)]; [lia|]. specialize (Hu b Hb). lia.
  - intros c Hc%Hof. lia.
  - intros c Hc%Huf. lia.
  - intros x y [->|Hx]%elem_of_cons [->|Hy]%elem_of_cons E; [done|by apply Hsh| |by apply Hos].
    symmetry. by apply Hsh.
  - intros x y [->|Hx]%elem_of_cons [->|Hy]%elem_of_cons E; [done|by apply Hshu| |by apply Hus].
    destruct (Hshu x Hx) as [-> ->]; done.
  - intros x m [->|Hx]%elem_of_cons; [apply Hsf|by apply Hofr].
  - intros x m [->|Hx]%elem_of_cons; [apply Hsuf|by apply Hufr].
Qed.

Lemma caches_ok_fill_option σ live s :
  caches_ok σ live -> s ∈ live ->
  forall u σ', set_option_map (st_cached_option_map s) (st_options s) σ = (Ok u, σ') -> caches_ok σ' live.
Proof.
  intros [Ho Hu Hof Huf Hos Hus Hofr Hufr] Hs u σ' [= _ <-]. split; cbn; try done.
  - intros c. destruct (decide (c = st_cached_option_map s)) as [->|Hc]; [by intros _; apply Ho|].
    rewrite lookup_insert_ne by done. apply Hof.
  - intros x m Hx. destruct (decide (st_cached_option_map s = st_cached_option_map x)) as [E|Hc].
    + rewrite E, lookup_insert_eq. intros [= <-]. by apply Hos.
    + rewrite lookup_insert_ne by done. by apply Hofr.
Qed.
Lemma caches_ok_fill_unresolved σ live s m :
  caches_ok σ live -> s ∈ live -> compute_unresolved permutations2 s = Ok m ->
  forall u σ', set_unresolved_map (st_cached_unresolved s) m σ = (Ok u, σ') -> caches_ok σ' live.
Proof.
  intros [Ho Hu Hof Huf Hos Hus Hofr Hufr] Hs Hm u σ' [= _ <-]. split; cbn; try done.
  - intros c. destruct (decide (c = st_cached_unresolved s)) as [->|Hc]; [by intros _; apply Hu|].
    rewrite lookup_insert_ne by done. apply Huf.
  - intros x m' Hx. destruct (decide (st_cached_unresolved s = st_cached_unresolved x)) as [E|Hc].
    + rewrite E, lookup_insert_eq. intros [= <-]. destruct (Hus s x Hs Hx E) as [Hr Hp].
      by rewrite <-(compute_unresolved_same _ _ Hr Hp).
    + rewrite lookup_insert_ne by done. by apply Hufr.
Qed.

(** Every operation makes its state from what it is given. *)
Lemma append_packages_made s packages σ s' σ' :
  append_packages s packages σ = (Ok s', σ') ->
  extends σ σ' /\ st_cached_option_map s' = st_cached_option_map s /\
  (st_cached_unresolved s' = st_cached_unresolved s \/ next_cell σ <= st_cached_unresolved s' < next_cell σ').
Proof.
  revert s σ. induction packages as [|[spec source] packages IH]; intros s σ.
  - intros [= <- <-]. split_and!; [done..|by left].
  - intros (s1 & σ1 & (c & σ2 & (-> & Hext & Hn)%new_cell_Ok & [= <- <-])%SM_bind_Ok & Hp)%SM_bind_Ok.
    apply IH in Hp as (Hext' & Ho & Hu). split_and!; [by etransitivity|done|]. right.
    destruct Hext as [_ _ Hx], Hext' as [_ _ Hx']. cbn in Hu. destruct Hu as [->|Hu]; lia.
Qed.
Lemma State_new_made live requests vars packages options σ s σ' :
  State_new requests vars packages options σ = (Ok s, σ') -> made_from σ σ' live s.
Proof.
  unfold State_new, StateId_var_requests_hash. cbv beta iota zeta.
  intros (c1 & σ1 & (-> & [E1 E2 Hx] & Hn1)%new_cell_Ok &
    (c2 & σ2 & (-> & [E3 E4 Hx2] & Hn2)%new_cell_Ok & Hp)%SM_bind_Ok)%SM_bind_Ok.
  apply append_packages_made in Hp as ([E5 E6 Hx3] & Ho & Hu). cbn in Ho, Hu.
  split; [|left; lia|left; destruct Hu as [->|Hu]; lia].
  split; [by rewrite E5, E3|by rewrite E6, E4|lia].
Qed.
Lemma Change_apply_made live change parent base σ s σ' :
  base ∈ live -> match change with Change_StepBack destination _ => destination ∈ live | _ => True end ->
  Change_apply change parent base σ = (Ok s, σ') -> made_from σ σ' live s.
Proof.
  intros Hb Hc. destruct change as [request prioritize|request|options|spec source|spec source|dest counter];
    cbn [SolverState.Change_apply].
  - intros ([cloned requests] & σ1 & [_ ->]%SM_lift_Ok & (requests' & σ2 & Hr & Hw)%SM_bind_Ok)%SM_bind_Ok.
    assert (extends σ σ2) as [E1 E2 Hx].
    { destruct cloned; [|by injection Hr as _ <-].
      apply SM_bind_Ok in Hr as (u & σ3 & Hu%count_request_Ok & [= _ <-]). done. }
    apply SM_bind_Ok in Hw as (c & σ3 & (-> & [E3 E4 Hx'] & Hn)%new_cell_Ok & [= <- <-]).
    split; [split; [by rewrite E3|by rewrite E4|lia]|right; by exists base|left; simpl; lia].
  - intros (c & σ1 & (-> & Hext & Hn)%new_cell_Ok & [= <- <-])%SM_bind_Ok.
    split; [done|left; simpl; lia|right; by exists base].
  - intros (c & σ1 & (-> & Hext & Hn)%new_cell_Ok & [= <- <-])%SM_bind_Ok.
    split; [done|left; simpl; lia|right; by exists base].
  - intros (c & σ1 & (-> & Hext & Hn)%new_cell_Ok & [= <- <-])%SM_bind_Ok.
    split; [done|right; by exists base|left; simpl; lia].
  - intros (c & σ1 & (-> & Hext & Hn)%new_cell_Ok & [= <- <-])%SM_bind_Ok.
    split; [done|right; by exists base|left; simpl; lia].
  - intros (u & σ1 & Hext%count_step_back_Ok & [= <- <-])%SM_bind_Ok.
    split; [done|right; by exists dest|right; by exists dest].
Qed.

Lemma get_option_map_ok σ live s r σ' :
  caches_ok σ live -> s ∈ live -> get_option_map s σ = (r, σ') -> r = Ok (st_options s) /\ caches_ok σ' live.
Proof.
  intros Hok Hs. unfold get_option_map. destruct (option_maps σ !! _) as [m|] eqn:E.
  - intros [= <- <-]. split; [|done]. f_equal. by eapply co_options_fresh.
  - intros [= <- <-]. split; [done|]. by eapply caches_ok_fill_option.
Qed.
Lemma get_unresolved_requests_ok σ live s r σ' :
  caches_ok σ live -> s ∈ live -> get_unresolved_requests s σ = (r, σ') ->
  r = compute_unresolved permutations2 s /\ caches_ok σ' live.
Proof.
  intros Hok Hs. unfold SolverState.get_unresolved_requests.
  destruct (unresolved_maps σ !! _) as [m|] eqn:E.
  - intros [= <- <-]. split; [|done]. symmetry. by eapply co_unresolved_fresh.
  - unfold mbind, SM_bind, SM_lift. destruct (compute_unresolved permutations2 s) as [m|e|] eqn:Em.
    + intros [= <- <-]. split; [done|]. by eapply caches_ok_fill_unresolved.
    + by intros [= <- <-].
    + by intros [= <- <-].
Qed.

Lemma solve_caches σ live : solve σ live -> caches_ok σ live.
Proof.
  induction 1 as [|σ live requests vars packages options s σ' _ IH Hs
                  |σ live change parent base s σ' _ IH Hp Hb Hc Hs|σ live s r σ' _ IH Hs Hr|σ live s r σ' _ IH Hs Hr].
  - split; try (by intros ? ?%elem_of_nil); try (by intros ? ? ?%elem_of_nil); by intros c [? [=]].
  - by eapply caches_ok_add, State_new_made.
  - by eapply caches_ok_add, Change_apply_made.
  - by eapply get_option_map_ok in Hr as [_ ?].
  - by eapply get_unresolved_requests_ok in Hr as [_ ?].
Qed.

(** ** Theorems *)

(** C35: the identifier of every state of a solve, which is updated from that of the
    state before it, is the identifier computed from the state's parts: from
    what its requests ask (not who asked), its variable requests, the packages
    it resolved, and its options.  States that agree on these have the same
    identifier, however they were reached. *)
Theorem state_id_exact σ live s s' :
  solve σ live -> s ∈ live -> s' ∈ live ->
  st_id s = id_of s /\
  (request_key <$> requests_of s = request_key <$> requests_of s' ->
   st_var_requests s = st_var_requests s' -> resolved_specs s = resolved_specs s' ->
   st_options s = st_options s' -> State_full_id s = State_full_id s').
Proof.
  intros Hl%solve_wf Hs Hs'. rewrite Forall_forall in Hl.
  pose proof (wf_id _ (Hl s Hs)) as Hid. pose proof (wf_id _ (Hl s' Hs')) as Hid'. split; [done|].
  intros Hr Hv Hp Ho. unfold State_full_id. rewrite Hid, Hid'. unfold id_of.
  rewrite !list_fmap_compose, Hr, Hv, Hp, Ho.
  by rewrite <-(length_fmap request_key (requests_of s)), Hr, length_fmap.
Qed.

(** The caches that states share are never stale: whatever was cached by this
    state or by any state it shares a cell with, [get_option_map] answers the
    options of the state, and [get_unresolved_requests] the merged requests for
    its unresolved packages, or the error of computing them. *)
Theorem caches_exact σ live s :
  solve σ live -> s ∈ live ->
  (get_option_map s σ).1 = Ok (st_options s) /\
  (get_unresolved_requests s σ).1 = compute_unresolved permutations2 s.
Proof.
  intros Hl%solve_caches Hs. split.
  - destruct (get_option_map s σ) as [r σ'] eqn:E. by eapply get_option_map_ok in E as [-> _].
  - destruct (get_unresolved_requests s σ) as [r σ'] eqn:E.
    by eapply get_unresolved_requests_ok in E as [-> _].
Qed.

(** Requesting a variable adds the request, if no other request of the state
    has its hash, and assigns the variable, also the empty value; every other
    option stays as it was. *)
Theorem request_var_exact request parent base σ :
  state_wf base ->
  (forall r, r ∈ st_var_requests base -> hash_var (T := T) r = hash_var (T := T) request -> r = request) ->
  exists s σ', Change_apply (Change_RequestVar request) parent base σ = (Ok s, σ') /\
    (forall r, r ∈ st_var_requests s <-> r = request \/ r ∈ st_var_requests base) /\
    (forall k, bmap_get k (st_options s) =
       if decide (k = vr_var request) then Some (vr_value request) else bmap_get k (st_options base)) /\
    requests_of s = requests_of base /\ st_packages s = st_packages base.
Proof.
  intros Hwf Hhash. eexists _, _. split; [done|]. cbn [st_var_requests st_options]. split_and!; try done.
  - intros r. unfold contains_var_request. case_bool_decide as Hin; [|by rewrite elem_of_bset_insert].
    rewrite (wf_id _ Hwf) in Hin. cbn in Hin.
    apply elem_of_list_to_set, list_elem_of_fmap in Hin as (r' & Hr' & Hin).
    apply (Hhash r') in Hin as E; [|done]. subst r'. naive_solver.
  - intros k. unfold compute_new_options, new_option. cbn [foldl fst snd]. rewrite andb_false_r.
    pose proof (wf_options _ Hwf). destruct (decide (k = vr_var request)) as [->|].
    + by apply bmap_get_insert_eq.
    + by apply bmap_get_insert_ne.
Qed.

(** Setting options keeps those that are set and given an empty value. *)
Lemma compute_new_options_get k base options :
  bmap_wf (st_options base) -> bmap_wf options ->
  bmap_get k (compute_new_options base options false) =
  match bmap_get k options, bmap_get k (st_options base) with
  | Some v, Some old => Some (if str_is_empty v then old else v)
  | Some v, None => Some v
  | None, old => old
  end.
Proof.
  intros Hb Ho. unfold compute_new_options. revert Hb. generalize (st_options base) as m.
  induction options as [|[k' v'] options IH]; intros m Hm; [by cbn; destruct (bmap_get k m)|].
  assert (bmap_wf options) as Ho' by (by inversion Ho). cbn [foldl bmap_get].
  assert (bmap_wf (new_option false m (k', v'))) as Hm'.
  { unfold new_option. destruct (_ && _ && _); [done|by apply bmap_insert_wf]. }
  rewrite IH by done. unfold new_option. cbn [fst snd negb]. rewrite andb_true_r.
  unfold bmap_contains_key. destruct (decide (k = k')) as [->|Hne].
  - rewrite cmp_refl, (bmap_wf_cons_get _ v') by done.
    destruct (bmap_get k' m) eqn:E, (str_is_empty v') eqn:Ev; cbn [andb];
      rewrite ?bmap_get_insert_eq by done; done.
  - assert (match cmp k k' with Eq => Some v' | _ => bmap_get k options end = bmap_get k options) as ->.
    { pose proof (cmp_eq k k'). destruct (cmp k k'); naive_solver. }
    destruct (bmap_get k' m), (str_is_empty v'); cbn [andb]; rewrite ?bmap_get_insert_ne by done; done.
Qed.

(** A decision of changes that are not steps back makes a state one level below
    the decision's base, however many changes it has. *)
Definition steps_back (change : Change Repo Recipe T) : bool :=
  match change with Change_StepBack _ _ => true | _ => false end.
Lemma decision_depth changes base σ s σ' :
  Forall (fun c => steps_back c = false) changes -> changes <> [] ->
  Decision_apply request_priority_order permutations2 changes base σ = (Ok s, σ') ->
  st_depth s = u64_add (st_depth base) 1.
Proof.
  intros Hc Hne. unfold Decision_apply.
  generalize base at 2 as state. revert σ Hne.
  induction Hc as [|change changes Hc Hcs IH]; intros σ Hne state; [done|].
  intros (s1 & σ1 & H1 & H2)%SM_bind_Ok.
  assert (st_depth s1 = u64_add (st_depth base) 1) as Hd.
  { destruct change as [request prioritize|request|options|spec source|spec source|dest counter]; try done;
      cbn [SolverState.Change_apply] in H1.
    - apply SM_bind_Ok in H1 as ([cloned requests] & σ2 & _ & H1).
      apply SM_bind_Ok in H1 as (requests' & σ3 & _ & H1). by injection H1 as <- _.
    - by injection H1 as <- _.
    - by injection H1 as <- _.
    - by injection H1 as <- _.
    - by injection H1 as <- _. }
  destruct changes as [|change' changes]; [by injection H2 as <- _|]. by eapply IH, H2.
Qed.
End theory.

(** ** A concrete instance

    Repositories and recipes are names, the hasher is a polynomial over what the
    requests hold, and patterns match themselves. *)

#[export] Instance SourceOps_example : SourceOps rstr VersionIdent :=
  {| repo_name := id; repo_address := id; recipe_ident := id |}.
Definition hash_bytes (l : list N) : N := foldl (fun h w => (h * 31 + w) mod 18446744073709551616)%N 7%N l.
#[export] Instance Hasher_example : Hasher TupleSpec :=
  {| hash_words := hash_bytes;
     hash_request := fun k => hash_bytes (ri_name (key_pkg k));
     hash_var := fun r => hash_bytes (vr_var r ++ 0%N :: vr_value r);
     hash_options := fun m => hash_bytes (concat ((fun e => e.1 ++ e.2) <$> m));
     hash_spec := fun spec => hash_bytes (PackageSpec_name spec) |}.
#[export] Instance GlobOps_example : GlobOps rstr :=
  {| glob_new := Some; glob_matches := fun p name => bool_decide (p = name) |}.

Abbreviation ExampleState := (State rstr VersionIdent TupleSpec).
Abbreviation ExampleComponent := (Component * ComponentFileMatchMode * list Component)%type.
Definition example_state_new (packages : list (TupleSpec * PackageSource rstr VersionIdent)) : SM ExampleState :=
  State_new [example_request [Range_GreaterThanOrEqualTo (mkGte (from_parts [1]%N))] None]
    [VarRequest_new_with_value (lit "os") (lit "linux")] packages [(lit "os", lit "linux")].

Lemma state_id_exact_witness :
  exists (s : ExampleState) σ,
    example_state_new [(example_package (from_parts [1; 5]%N) Compat_default, Source_InternalTest)]
      Store_empty = (Ok s, σ) /\ st_id s = id_of s.
Proof.
  destruct (example_state_new [(example_package (from_parts [1; 5]%N) Compat_default, Source_InternalTest)]
    Store_empty) as [[s|e|] σ] eqn:E; [|vm_compute in E; discriminate..].
  exists s, σ. split; [done|].
  refine (proj1 (state_id_exact (C := ExampleComponent) [] permutations2_lex σ [s] s s _ _ _)); [|by left|by left].
  eapply solve_new; [apply solve_start|exact E].
Defined.

(** A state whose options were asked for shares the cell with the state that a
    request makes from it. *)
Lemma caches_exact_witness :
  exists (s s' : ExampleState) σ σ1 m σ2,
    example_state_new [] Store_empty = (Ok s, σ) /\ get_option_map s σ = (Ok m, σ1) /\
    Change_apply (C := ExampleComponent) [] permutations2_lex
      (RequestPackage_new (example_request [Range_LessThan (mkLt (from_parts [2]%N))] None)) s s σ1 = (Ok s', σ2) /\
    option_maps σ2 !! st_cached_option_map s' = Some m /\ (get_option_map s' σ2).1 = Ok (st_options s').
Proof.
  destruct (example_state_new [] Store_empty) as [[s|e|] σ] eqn:E; [|vm_compute in E; discriminate..].
  destruct (get_option_map s σ) as [[m|e|] σ1] eqn:E1;
    [|vm_compute in E; injection E as <- <-; vm_compute in E1; discriminate..].
  destruct (Change_apply (C := ExampleComponent) [] permutations2_lex
    (RequestPackage_new (example_request [Range_LessThan (mkLt (from_parts [2]%N))] None)) s s σ1)
    as [[s'|e|] σ2] eqn:E2;
    [|vm_compute in E; injection E as <- <-; vm_compute in E1; injection E1 as <- <-; vm_compute in E2; discriminate..].
  exists s, s', σ, σ1, m, σ2. split_and!; try done.
  - vm_compute in E. injection E as <- <-. vm_compute in E1. injection E1 as <- <-.
    vm_compute in E2. injection E2 as <- <-. vm_compute. reflexivity.
  - refine (proj1 (caches_exact (C := ExampleComponent) [] permutations2_lex σ2 [s'; s] s' _ _)); [|by left].
    eapply (solve_change _ _ σ1 [s] (RequestPackage_new _) s s); [|by left|by left|exact I|exact E2].
    eapply (solve_options _ _ σ [s] s); [|by left|exact E1]. eapply solve_new; [apply solve_start|exact E].
Defined.

Lemma request_var_exact_witness :
  exists (base s : ExampleState) σ σ',
    example_state_new [] Store_empty = (Ok base, σ) /\
    Change_apply (C := ExampleComponent) [] permutations2_lex
      (Change_RequestVar (VarRequest_new_with_value (lit "debug") [])) base base σ = (Ok s, σ') /\
    bmap_get (lit "debug") (st_options s) = Some [] /\ bmap_get (lit "os") (st_options s) = Some (lit "linux").
Proof.
  destruct (example_state_new [] Store_empty) as [[base|e|] σ] eqn:E; [|vm_compute in E; discriminate..].
  destruct (request_var_exact (C := ExampleComponent) [] permutations2_lex
    (VarRequest_new_with_value (lit "debug") []) base base σ) as (s & σ' & Hs & _ & Ho & _).
  - by eapply State_new_wf.
  - intros r Hr Hh. vm_compute in E. injection E as <- _. apply list_elem_of_singleton in Hr as ->.
    vm_compute in Hh. discriminate.
  - exists base, s, σ, σ'. split; [done|]. split; [exact Hs|]. rewrite !Ho. split; [done|].
    vm_compute in E. by injection E as <- _.
Defined.
