(* ===== verification/SolverRequests.v ===== *)
(** * The requests of a solver state

    What the merged request for a package means, what requesting a package adds
    to a state, which request is resolved next, and the solution a state amounts
    to ([SolverState]), over the theory of merging ([RequestPools]). *)

From stdpp Require Import gmap.
From S2P Require Import Prelude Strings Collections Names Version VersionOrder VersionText.
From S2P Require Import Compat RangeData Reasons CompatCheck Intersection VersionRange RangeTheory.
From S2P Require Import Components Options Idents Requests RequestEq Opts Satisfy PackageSpec.
From S2P Require Import MergeTheory RequestPools Encoding Solution SolverState SolverTheory.

(** Sorting by a key of zeros and ones moves the zeros to the front. *)
Lemma sort_by_key_partition {A} (q : A -> bool) (l : list A) :
  sort_by_key (fun x => if q x then 0%N else 1%N) l =
  List.filter q l ++ List.filter (fun x => negb (q x)) l.
Proof.
  unfold sort_by_key. induction l as [|x l IH]; [done|]. cbn [sort_slice foldr].
  fold (sort_slice (Cmp0 := cmp_on (fun x => if q x then 0%N else 1%N)) l). rewrite IH. clear IH.
  assert (Forall (fun y => q y = true) (List.filter q l)) as Hf.
  { apply Forall_forall. intros y. rewrite list_elem_of_In, filter_In. tauto. }
  assert (Forall (fun y => q y = false) (List.filter (fun x => negb (q x)) l)) as Hg.
  { apply Forall_forall. intros y. rewrite list_elem_of_In, filter_In, negb_true_iff. tauto. }
  revert Hf Hg. cbn [List.filter]. generalize (List.filter q l) as f, (List.filter (fun x => negb (q x)) l) as g.
  intros f g Hf Hg.
  assert (forall y, @cmp A (cmp_on (fun x => if q x then 0%N else 1%N)) x y =
    N.compare (if q x then 0%N else 1%N) (if q y then 0%N else 1%N)) as Hcmp by done.
  destruct (q x) eqn:Ex; cbn [negb app].
  - destruct f as [|y f]; [destruct g as [|y g]; [done|]|]; cbn [app sort_insert]; rewrite Hcmp; by destruct (q y).
  - induction Hf as [|y f Hy Hf IH]; cbn [app sort_insert].
    + destruct Hg as [|y g Hy Hg]; [done|]. cbn [sort_insert]. by rewrite Hcmp, Hy.
    + by rewrite Hcmp, Hy, IH.
Qed.

Section requests.
Context {Repo Recipe T C Pattern : Type} `{!SourceOps Repo Recipe} `{!Versioned T, !ComponentOps C, !Package T C}.
Context `{!Hasher T, !GlobOps Pattern}.
Context (request_priority_order : list Pattern).
Context (hash_order : list Component -> list Component).
Context (Hperm : forall l, hash_order l ≡ₚ l).
Context (permutations2 : forall A : Type, list A -> list (A * A)).
Context (Hp2 : permutations2_spec permutations2).
Implicit Types (s parent base : State Repo Recipe T) (r m : PkgRequestWithOptions) (spec : T) (p : Pool).

Abbreviation answers spec r := (is_ok (check_satisfies_pkg_request (C := C) hash_order spec r)).
Abbreviation get_merged_request := (get_merged_request permutations2).
Abbreviation get_next_request := (get_next_request permutations2).
Abbreviation next_request := (next_request permutations2).

(** The requests for one package, in order. *)
Definition named (name : rstr) (rs : list PkgRequestWithOptions) : list PkgRequestWithOptions :=
  List.filter (fun r => bool_decide (req_name r = name)) rs.
Definition requests_for s (name : rstr) : list PkgRequestWithOptions := named name (requests_of s).
(** A package answers all requests for it. *)
Definition answers_all (spec : T) (rs : list PkgRequestWithOptions) : bool :=
  forallb (fun r => answers spec r) rs.

Lemma answers_all_cons (spec : T) r rs : answers_all spec (r :: rs) = answers spec r && answers_all spec rs.
Proof. done. Qed.

Lemma restrict_name a b c m :
  PkgRequestWithOptions_restrict permutations2 a b = Ok (c, m) -> req_name m = req_name a.
Proof.
  intros ([c1 r] & ([c2 pkg] & Hpkg & [= <- <-])%bind_Ok & Ho)%bind_Ok.
  assert (ri_name pkg = ri_name (pr_pkg (pkg_request a))) as Hn.
  { unfold RangeIdent_restrict in Hpkg. destruct (restrict_repository _ _); [|by injection Hpkg as _ <-].
    apply bind_Ok in Hpkg as ([[|reason] version] & _ & Hpkg); [|by injection Hpkg as _ <-].
    destruct (negb _); [by injection Hpkg as _ <-|]. destruct (_ || _); [by injection Hpkg as _ <-|].
    apply bind_Ok in Hpkg as (s1 & _ & Hpkg). apply bind_Ok in Hpkg as (s2 & _ & Hpkg).
    by injection Hpkg as _ <-. }
  destruct (negb _); [by injection Ho as _ <-|]. destruct (merge_options _ _) as [c3 out].
  by injection Ho as _ <-.
Qed.

Lemma named_all name rs : Forall (fun r => req_name r = name) (named name rs).
Proof.
  apply Forall_forall. intros r. unfold named. rewrite list_elem_of_In, filter_In, bool_decide_eq_true. tauto.
Qed.

(** Only the requests for the package matter. *)
Lemma merge_requests_named name merged rs :
  (forall m, merged = Some m -> req_name m = name) ->
  merge_requests permutations2 name merged rs = merge_requests permutations2 name merged (named name rs).
Proof.
  revert merged. induction rs as [|r rs IH]; intros merged Hm; [done|]. cbn [merge_requests named List.filter].
  fold (named name rs). destruct merged as [m|].
  - rewrite (Hm m) by done. case_bool_decide as Hr; cbn [negb]; [|by rewrite IH].
    cbn [merge_requests]. rewrite (Hm m), bool_decide_eq_true_2 by done. cbn [negb].
    destruct (PkgRequestWithOptions_restrict permutations2 m r) as [[[|reason] m']|[]|] eqn:E; try done.
    cbn. apply IH. intros m'' [= <-]. rewrite (restrict_name _ _ _ _ E). auto.
  - case_bool_decide as Hr; cbn [negb]; [|by apply IH].
    cbn [merge_requests]. rewrite bool_decide_eq_true_2 by done. cbn [negb]. apply IH. by intros m [= <-].
Qed.

(** The error for a missing request: there is none. *)
Lemma merge_requests_none name merged rs n :
  merge_requests permutations2 name merged rs = Err (NoRequestFor n) -> merged = None /\ named name rs = [] /\ n = name.
Proof.
  revert merged. induction rs as [|r rs IH]; intros merged; cbn [merge_requests].
  - destruct merged; [done|]. by intros [= ->].
  - destruct merged as [m|].
    + destruct (negb _); [by intros [? _]%IH|].
      destruct (PkgRequestWithOptions_restrict permutations2 m r) as [[[|reason] m']|[]|]; try done.
      by intros [? _]%IH.
    + case_bool_decide as Hr; cbn [negb]; [by intros [? _]%IH|]. intros (_ & Hn & ->)%IH.
      split_and!; try done. cbn [named List.filter]. by rewrite bool_decide_eq_false_2.
Qed.
Lemma get_merged_request_none s name n :
  get_merged_request s name = Err (NoRequestFor n) <-> requests_for s name = [] /\ n = name.
Proof.
  split.
  - by intros (_ & ? & ->)%merge_requests_none.
  - intros [Hn ->]. unfold SolverState.get_merged_request. rewrite merge_requests_named by done.
    unfold requests_for in Hn. by rewrite Hn.
Qed.

(** Merging the requests of a pool. *)
Lemma merge_requests_pool p m rs :
  pool_canonical p -> in_pool p m -> Forall (in_pool p) rs ->
  match merge_requests permutations2 (pool_name p) (Some m) rs with
  | Ok m' => in_pool p m' /\ forall spec, usable (C := C) spec -> answers spec m' = answers spec m && answers_all spec rs
  | Err e => (exists request n reason, e = Conflict request n reason) /\
      forall spec, usable (C := C) spec -> answers spec m && answers_all spec rs = false
  | Panicked => False
  end.
Proof.
  intros Hp Hm Hrs. revert m Hm. induction Hrs as [|r rs Hr Hrs IH]; intros m Hm; cbn [merge_requests].
  { split; [done|]. intros spec _. by rewrite andb_true_r. }
  rewrite bool_decide_eq_true_2 by (unfold req_name; by rewrite (ip_name p m Hm), (ip_name p r Hr)).
  cbn [negb]. destruct (restrict_in_pool hash_order Hperm permutations2 Hp2 p m r Hp Hm Hr)
    as (c & m' & -> & Hm' & Ha & _). cbn [total mbind res_bind].
  destruct c as [|reason]; cbn [is_ok] in Ha.
  - specialize (IH m' Hm'). destruct (merge_requests _ _ _ _) as [m''|e|]; [| |done].
    + destruct IH as [Hin IH]. split; [done|]. intros spec Hspec. rewrite IH, Ha by done.
      cbn [answers_all forallb]. by rewrite andb_assoc.
    + destruct IH as [He IH]. split; [done|]. intros spec Hspec. specialize (IH spec Hspec).
      rewrite Ha in IH by done. cbn [answers_all forallb]. by rewrite andb_assoc.
  - split; [by eexists _, _, _|]. intros spec Hspec. destruct (Ha spec Hspec) as [Hno _].
    cbn [answers_all forallb]. by rewrite andb_assoc, Hno.
Qed.

(** ** Adding a request *)

Lemma named_cached name (l : list (CachedHash PkgRequestWithOptions)) :
  named name (ch_object <$> l) = ch_object <$> List.filter (fun c => bool_decide (req_name (ch_object c) = name)) l.
Proof.
  induction l as [|c l IH]; [done|]. rewrite fmap_cons. cbn [named List.filter]. fold (named name (ch_object <$> l)).
  rewrite IH. by destruct (bool_decide _).
Qed.
(** Sorting by a key that depends on the name keeps the requests of one name in
    order. *)
Lemma named_sort {K} `{CmpLaws K} (key : rstr -> K) name (l : list (CachedHash PkgRequestWithOptions)) :
  named name (ch_object <$> sort_by_key (fun c => key (req_name (ch_object c))) l) = named name (ch_object <$> l).
Proof.
  rewrite !named_cached, sort_by_key_filter; [done|].
  by intros x y ->%bool_decide_eq_true ->%bool_decide_eq_true.
Qed.
Lemma named_package_sort n name (l : list (CachedHash PkgRequestWithOptions)) :
  named name (ch_object <$> sort_by_key (package_key n) l) = named name (ch_object <$> l).
Proof. pose (key := fun k : rstr => if bool_decide (k = n) then 0%N else 1%N). apply (named_sort key). Qed.
Lemma named_app name l k : named name (l ++ k) = named name l ++ named name k.
Proof. apply List.filter_app. Qed.

Lemma named_append name r (l : list (CachedHash PkgRequestWithOptions)) :
  named name (ch_object <$> append_request (T := T) request_priority_order r l) =
  named name (ch_object <$> l) ++ named name [r].
Proof.
  unfold append_request, promote_names. rewrite (named_sort (promotion_key request_priority_order)).
  rewrite fmap_app, named_app, named_package_sort. done.
Qed.

Lemma named_other r name : req_name r <> name -> named name [r] = [].
Proof. intros Hr. cbn [named List.filter]. by rewrite bool_decide_eq_false_2. Qed.
Lemma named_same r name : req_name r = name -> named name [r] = [r].
Proof. intros Hr. cbn [named List.filter]. by rewrite bool_decide_eq_true_2. Qed.
Lemma named_cons name r l : named name (r :: l) = named name [r] ++ named name l.
Proof. by rewrite <-named_app. Qed.

Lemma merge_into_none name l : merge_into (T := T) permutations2 name None l = Ok (None, l).
Proof. induction l as [|c l IH]; [done|]. cbn [merge_into]. by rewrite IH. Qed.

(** The requests as a whole, of anything that is asked of what may be resolved. *)
Section asked.
Context {X : Type} (ask : X -> PkgRequestWithOptions -> bool) (good : X -> Prop).
Abbreviation asks x rs := (forallb (ask x) rs).

Lemma merge_requests_asked p m rs m' :
  merges permutations2 ask good p -> in_pool p m -> Forall (in_pool p) rs ->
  merge_requests permutations2 (pool_name p) (Some m) rs = Ok m' ->
  in_pool p m' /\ forall x, good x -> ask x m' = ask x m && asks x rs.
Proof.
  intros Hp Hm Hrs. revert m Hm. induction Hrs as [|r rs Hr Hrs IH]; intros m Hm; cbn [merge_requests].
  { intros [= <-]. split; [done|]. intros x _. by rewrite andb_true_r. }
  rewrite bool_decide_eq_true_2 by (unfold req_name; by rewrite (ip_name p m Hm), (ip_name p r Hr)).
  cbn [negb]. destruct (Hp m r Hm Hr) as (c & m1 & -> & Hm1 & Ha). cbn [total mbind res_bind].
  destruct c as [|reason]; [|done]. intros [Hin H]%IH; [|done]. split; [done|]. intros x Hx.
  rewrite H, (proj1 (Ha x Hx) eq_refl) by done. cbn [forallb]. by rewrite andb_assoc.
Qed.
Lemma get_merged_request_asked p s m :
  merges permutations2 ask good p -> Forall (in_pool p) (requests_for s (pool_name p)) ->
  get_merged_request s (pool_name p) = Ok m ->
  in_pool p m /\ forall x, good x -> ask x m = asks x (requests_for s (pool_name p)).
Proof.
  intros Hp Hin. unfold SolverState.get_merged_request. rewrite merge_requests_named by done.
  fold (requests_for s (pool_name p)). pose proof (named_all (pool_name p) (requests_of s)) as Hn.
  fold (requests_for s (pool_name p)) in Hn. destruct Hin as [|r rs Hr Hrs]; [done|].
  apply Forall_cons in Hn as [Hn _]. cbn [merge_requests]. rewrite bool_decide_eq_true_2 by done. cbn [negb].
  by apply merge_requests_asked.
Qed.

(** The first part of the operation: the request is merged into another one, or
    the list is unchanged. *)
Lemma merge_into_pool p r l :
  merges permutations2 ask good p -> in_pool p r -> Forall (in_pool p) (named (pool_name p) (ch_object <$> l)) ->
  exists cloned l', merge_into (T := T) permutations2 (pool_name p) (Some r) l = Ok (cloned, l') /\
    (forall name, name <> pool_name p -> named name (ch_object <$> l') = named name (ch_object <$> l)) /\
    Forall (in_pool p) (named (pool_name p) (ch_object <$> l')) /\
    match cloned with
    | Some _ => l' = l
    | None => forall x, good x ->
        asks x (named (pool_name p) (ch_object <$> l')) = asks x (named (pool_name p) (ch_object <$> l)) && ask x r
    end.
Proof.
  intros Hp. revert r. induction l as [|c l IH]; intros r Hr Hl; cbn [merge_into].
  { by eexists _, _. }
  rewrite fmap_cons, named_cons in Hl. case_bool_decide as Hc; cbn [negb].
  2: { rewrite named_other in Hl by done. destruct (IH r Hr Hl) as (cloned & l' & -> & Hn & Hin & Ha).
       eexists _, (c :: l'). split; [done|]. split_and!.
       - intros name Hne. by rewrite !fmap_cons, named_cons, (named_cons _ (ch_object c) (ch_object <$> l)), Hn.
       - by rewrite fmap_cons, named_cons, named_other.
       - destruct cloned; [by rewrite Ha|]. intros x Hx.
         rewrite !fmap_cons, named_cons, (named_cons _ (ch_object c) (ch_object <$> l)), named_other by done. auto. }
  rewrite named_same in Hl by done. apply Forall_cons in Hl as [Hcin Hl].
  destruct (Hp r (ch_object c) Hr Hcin) as (compat & m & -> & Hm & Ha). cbn [mbind res_bind].
  destruct compat as [|reason].
  - rewrite merge_into_none. cbn [mbind res_bind].
    assert (req_name m = pool_name p) as Hmn by (unfold req_name; apply Hm).
    eexists _, _. split; [done|]. rewrite !fmap_cons. cbn [ch_object CachedHash_request]. split_and!.
    + intros name Hne. rewrite named_cons, (named_cons _ (ch_object c)), !named_other; congruence.
    + rewrite named_cons, named_same by done. by constructor.
    + intros x Hx. rewrite named_cons, (named_cons _ (ch_object c)), !named_same by done.
      cbn [app forallb]. rewrite (proj1 (Ha x Hx) eq_refl).
      destruct (ask x r), (ask x (ch_object c)); cbn [andb]; by rewrite ?andb_true_r, ?andb_false_r.
  - destruct (IH m Hm Hl) as (cloned & l' & -> & Hn & Hin & Ha'). eexists _, (c :: l'). split; [done|].
    rewrite !fmap_cons. split_and!.
    + intros name Hne. by rewrite named_cons, (named_cons _ (ch_object c) (ch_object <$> l)), Hn.
    + rewrite named_cons, named_same by done. by constructor.
    + destruct cloned; [by rewrite Ha'|]. intros x Hx.
      rewrite named_cons, (named_cons _ (ch_object c) (ch_object <$> l)), named_same by done.
      cbn [app forallb]. rewrite Ha' by done. pose proof (proj2 (Ha x Hx)) as H.
      destruct (ask x (ch_object c)); [|done]. rewrite !andb_true_r in H. cbn [andb]. by rewrite H.
Qed.

Lemma request_package_asked p r (prioritize : bool) parent base (σ : Store) :
  merges permutations2 ask good p -> in_pool p r -> Forall (in_pool p) (requests_for base (pool_name p)) ->
  exists s σ', RequestPackage_apply request_priority_order permutations2 r prioritize parent base σ = (Ok s, σ') /\
    (forall name, name <> pool_name p -> requests_for s name = requests_for base name) /\
    Forall (in_pool p) (requests_for s (pool_name p)) /\
    (forall x, good x -> asks x (requests_for s (pool_name p)) = asks x (requests_for base (pool_name p)) && ask x r) /\
    (prioritize = true -> exists rest, requests_of s = requests_for s (pool_name p) ++ rest).
Proof.
  intros Hp Hr Hin. assert (req_name r = pool_name p) as Hn by apply Hr.
  destruct (merge_into_pool p r (st_pkg_requests base) Hp Hr Hin) as (cloned & l' & Hm & Hother & Hin' & Ha).
  set (requests := match cloned with
                   | Some _ => append_request (T := T) request_priority_order r l'
                   | None => l'
                   end).
  set (requests' := if prioritize then sort_by_key (package_key (pool_name p)) requests else requests).
  assert (forall name, named name (ch_object <$> requests') = named name (ch_object <$> requests)) as Hsort.
  { intros name. unfold requests'. destruct prioritize; [apply named_package_sort|done]. }
  assert (exists s σ', RequestPackage_apply request_priority_order permutations2 r prioritize parent base σ = (Ok s, σ') /\
    st_pkg_requests s = requests') as (s & σ' & Hs & Hrs).
  { unfold RequestPackage_apply. rewrite Hn, Hm. destruct cloned; by eexists _, _. }
  exists s, σ'. split; [done|]. unfold requests_for, requests_of. rewrite !Hrs.
  setoid_rewrite Hsort. unfold requests. split_and!.
  - intros name Hne. destruct cloned; [|by apply Hother].
    rewrite named_append, Hother, (named_other r) by (done || congruence). by rewrite app_nil_r.
  - destruct cloned; [|done]. rewrite named_append, (named_same r) by done.
    apply Forall_app. split; [done|by constructor].
  - intros x Hx. destruct cloned; [|by apply Ha].
    rewrite named_append, (named_same r), Ha, forallb_app by done. cbn [forallb]. by rewrite andb_true_r.
  - intros ->. rewrite <-Hsort. unfold requests'. rewrite named_package_sort, named_cached.
    unfold package_key. rewrite sort_by_key_partition, fmap_app. by eexists.
Qed.
End asked.

(** ** Theorems *)

Lemma get_merged_request_pool p s :
  pool_canonical p -> Forall (in_pool p) (requests_for s (pool_name p)) ->
  match get_merged_request s (pool_name p) with
  | Ok m => in_pool p m /\ forall spec, usable (C := C) spec ->
      answers spec m = answers_all spec (requests_for s (pool_name p))
  | Err (NoRequestFor name) => requests_for s (pool_name p) = [] /\ name = pool_name p
  | Err (Conflict _ _ _) => forall spec, usable (C := C) spec ->
      answers_all spec (requests_for s (pool_name p)) = false
  | Panicked => False
  end.
Proof.
  intros Hp Hin. unfold SolverState.get_merged_request. rewrite merge_requests_named by done.
  fold (requests_for s (pool_name p)). pose proof (named_all (pool_name p) (requests_of s)) as Hn.
  fold (requests_for s (pool_name p)) in Hn. destruct Hin as [|r rs Hr Hrs]; [done|].
  apply Forall_cons in Hn as [Hn _]. cbn [merge_requests]. rewrite bool_decide_eq_true_2 by done. cbn [negb].
  pose proof (merge_requests_pool p r rs Hp Hr Hrs) as H.
  destruct (merge_requests _ _ _ _) as [m|e|]; [done| |done].
  destruct H as [(request & n & reason & ->) H]. done.
Qed.

(** C6: the merged request for a package is exact: if it is an error there is no
    request for the package or no package answers all of them; if not, exactly
    the packages that answer every request for it answer the merged request; and
    computing it never panics. The requests belong to a pool whose equal compat
    rules are written alike ([RequestPools.in_pool]); the packages are built,
    not deprecated, and of versions without an epsilon. *)
Theorem get_merged_request_exact p s :
  pool_canonical p -> Forall (in_pool p) (requests_for s (pool_name p)) ->
  match get_merged_request s (pool_name p) with
  | Ok m => in_pool p m /\ forall spec, usable (C := C) spec ->
      answers spec m = answers_all spec (requests_for s (pool_name p))
  | Err (NoRequestFor name) => requests_for s (pool_name p) = [] /\ name = pool_name p
  | Err (Conflict _ _ _) => forall spec, usable (C := C) spec ->
      answers_all spec (requests_for s (pool_name p)) = false
  | Panicked => False
  end.
Proof. apply get_merged_request_pool. Qed.

(** Requesting a package adds to a state exactly what the request asks.  It
    returns a new state, in which the packages that answer every request for
    the package are those that did before and answer the new request, whether it
    was merged into another request, possibly after attempts that failed, or
    appended; the requests for every other package are untouched and in order;
    and a prioritized request is moved, with the others for its package, to the
    front. *)
Theorem request_package_exact p r (prioritize : bool) parent base (σ : Store) :
  pool_canonical p -> in_pool p r -> Forall (in_pool p) (requests_for base (pool_name p)) ->
  exists s σ', RequestPackage_apply request_priority_order permutations2 r prioritize parent base σ = (Ok s, σ') /\
    (forall name, name <> pool_name p -> requests_for s name = requests_for base name) /\
    Forall (in_pool p) (requests_for s (pool_name p)) /\
    (forall spec, usable (C := C) spec ->
       answers_all spec (requests_for s (pool_name p)) =
       answers_all spec (requests_for base (pool_name p)) && answers spec r) /\
    (prioritize = true -> exists rest, requests_of s = requests_for s (pool_name p) ++ rest).
Proof.
  intros Hp. by apply (request_package_asked _ _ p r prioritize parent base σ
    (answers_merges hash_order Hperm permutations2 Hp2 p Hp)).
Qed.

(** A request that must be resolved: for a package that is not, and always. *)
Definition wanted s r : Prop :=
  get_current_resolve s (req_name r) = None /\ pr_inclusion_policy (pkg_request r) = Always.
Lemma passed_over_wanted s r : passed_over s r = false <-> wanted s r.
Proof.
  unfold passed_over, wanted, get_current_resolve, bmap_contains_key. rewrite orb_false_iff, bool_decide_eq_false.
  destruct (bmap_get (req_name r) (st_packages s)), (pr_inclusion_policy (pkg_request r)); naive_solver.
Qed.
Lemma first_unresolved_spec s l :
  match first_unresolved permutations2 s l with
  | Ok None => Forall (fun r => ~ wanted s r) l
  | Ok (Some n) => exists l0 r l', l = l0 ++ r :: l' /\ Forall (fun r => ~ wanted s r) l0 /\
      wanted s r /\ next_request s (req_name r) = Ok n
  | Err _ => False
  | Panicked => exists r, r ∈ l /\ next_request s (req_name r) = Panicked
  end.
Proof.
  induction l as [|r l IH]; [by constructor|]. cbn [first_unresolved].
  destruct (passed_over s r) eqn:Er.
  - assert (~ wanted s r) as Hr by (rewrite <-passed_over_wanted, Er; done).
    destruct (first_unresolved _ s l) as [[n|]|[]|]; [..|].
    + destruct IH as (l0 & x & l' & -> & Hl0 & Hx & Hn). exists (r :: l0), x, l'.
      split_and!; [done|by constructor|done..].
    + by constructor.
    + destruct IH as (x & Hx & Hn). exists x. split; [by right|done].
  - apply passed_over_wanted in Er. destruct (next_request s (req_name r)) as [n|[]|] eqn:En; cbn [mbind res_bind].
    + exists [], r, l. split_and!; [done|constructor|done..].
    + exists r. split; [by left|done].
Qed.
Lemma merged_request_exists s r n : r ∈ requests_of s ->
  get_merged_request s (req_name r) <> Err (NoRequestFor n).
Proof.
  intros Hr [Hnil _]%get_merged_request_none. apply (not_elem_of_nil (A := PkgRequestWithOptions) r).
  rewrite <-Hnil. unfold requests_for, named.
  rewrite list_elem_of_In, filter_In, bool_decide_eq_true, <-list_elem_of_In. done.
Qed.

(** The next request is the merged request, or the conflict, of the first
    package in the list of requests that is not resolved and that this request
    wants always; there is none exactly when no request is such.  The [expect] in
    it never fails: it panics only if merging does. *)
Theorem get_next_request_exact s :
  match get_next_request s with
  | Ok None => Forall (fun r => ~ wanted s r) (requests_of s)
  | Ok (Some n) => exists l r l', requests_of s = l ++ r :: l' /\
      Forall (fun r => ~ wanted s r) l /\ wanted s r /\
      match n with
      | NextRequest_Request m => get_merged_request s (req_name r) = Ok m
      | NextRequest_Conflict request name cause => exists reason, cause = Some reason /\
          get_merged_request s (req_name r) = Err (Conflict request name reason)
      end
  | Err _ => False
  | Panicked => exists r, r ∈ requests_of s /\ get_merged_request s (req_name r) = Panicked
  end.
Proof.
  unfold SolverState.get_next_request. pose proof (first_unresolved_spec s (requests_of s)) as H.
  unfold SolverState.next_request in H.
  destruct (first_unresolved _ s _) as [[n|]|[]|]; [|done|].
  - destruct H as (l & r & l' & Hl & Hpass & Hr & Hn). exists l, r, l'. split_and!; [done..|].
    assert (r ∈ requests_of s) as Hin by (rewrite Hl; apply elem_of_app; right; by left).
    destruct (SolverState.get_merged_request permutations2 s (req_name r)) as [m|[name|request name reason]|] eqn:E.
    + by injection Hn as <-.
    + by destruct (merged_request_exists s r name Hin).
    + injection Hn as <-. by eexists.
    + done.
  - destruct H as (r & Hin & Hn). exists r. split; [done|].
    destruct (SolverState.get_merged_request permutations2 s (req_name r)) as [m|[name|request name reason]|] eqn:E;
      try done. by destruct (merged_request_exists s r name Hin).
Qed.

(** ** Solutions *)

Lemma get_merged_request_name s name m : get_merged_request s name = Ok m -> req_name m = name.
Proof.
  unfold SolverState.get_merged_request. assert (forall m, None = Some m -> req_name m = name) as Hm by done.
  revert Hm. generalize (@None PkgRequestWithOptions) as merged. induction (requests_of s) as [|r rs IH];
    intros merged Hm; cbn [merge_requests].
  - destruct merged; [|done]. intros [= <-]. by apply Hm.
  - destruct merged as [x|].
    + case_bool_decide; cbn [negb]; [|by apply IH].
      destruct (PkgRequestWithOptions_restrict permutations2 x r) as [[[|reason] x']|[]|] eqn:E; try done.
      cbn. apply IH. intros y [= <-]. rewrite (restrict_name _ _ _ _ E). by apply Hm.
    + case_bool_decide; cbn [negb]; [|by apply IH]. apply IH. by intros y [= <-].
Qed.

(** What a solution should hold for a name. *)
Definition solved s (name : rstr) : option (SolvedRequest Repo Recipe T) :=
  match get_current_resolve s name, get_merged_request s name with
  | Some (spec, source, _), Ok req => Some (mkSolvedRequest req (ch_object spec) source)
  | _, _ => None
  end.

Lemma replace_item_solved (entry : rstr -> option (SolvedRequest Repo Recipe T)) new l :
  (forall x, x ∈ l -> entry (sr_name x) = Some x) -> entry (sr_name new) = Some new ->
  (replace_item new l = l /\ new ∈ l) \/ (replace_item new l = l ++ [new] /\ sr_name new ∉ (sr_name <$> l)).
Proof.
  intros Hl Hnew. induction l as [|x l IH]; cbn [replace_item].
  { right. split; [done|]. apply not_elem_of_nil. }
  assert (sr_name x = sr_name new -> x = new) as Hx.
  { intros E. assert (entry (sr_name x) = Some x) as Ex by (apply Hl; by left). rewrite E in Ex. congruence. }
  destruct (PkgRequestWithOptions_eq (sr_request x) (sr_request new)) eqn:E.
  - apply PkgRequestWithOptions_eq_name, Hx in E as ->. left. split; [done|by left].
  - destruct IH as [[-> Hin]|[-> Hin]]; [intros y Hy; apply Hl; by right| |].
    + left. split; [done|by right].
    + right. split; [done|]. rewrite fmap_cons, not_elem_of_cons. split; [|done]. intros En.
      rewrite (Hx (eq_sym En)) in E. by rewrite PkgRequestWithOptions_eq_refl in E.
Qed.

Lemma add_resolved_spec s packages solution sol :
  state_wf s ->
  NoDup (sr_name <$> sol_resolved solution) ->
  (forall x, x ∈ sol_resolved solution -> solved s (sr_name x) = Some x) ->
  add_resolved permutations2 s solution packages = Ok sol ->
  sol_options sol = sol_options solution /\ NoDup (sr_name <$> sol_resolved sol) /\
  (forall x, x ∈ sol_resolved sol -> solved s (sr_name x) = Some x) /\
  (forall x, x ∈ sol_resolved solution -> x ∈ sol_resolved sol) /\
  (forall n, n ∈ (pk_name <$> packages) -> get_current_resolve s n <> None ->
     exists x, x ∈ sol_resolved sol /\ sr_name x = n).
Proof.
  intros Hwf. revert solution. induction packages as [|package packages IH]; intros solution Hnd Hs.
  { intros [= <-]. split_and!; try done. by intros n ?%elem_of_nil. }
  cbn [add_resolved]. destruct (bmap_get (pk_name package) (st_packages s)) as [[[spec source] id]|] eqn:E.
  2: { intros Ha. destruct (IH solution Hnd Hs Ha) as (Ho & Hnd' & Hs' & Hsub & Hall). split_and!; try done.
       intros n. rewrite fmap_cons, elem_of_cons. intros [->|Hn]; [|by apply Hall]. done. }
  assert (pk_name (ch_object spec) = pk_name package) as Hn.
  { pose proof (wf_specs _ Hwf) as Hspecs. rewrite Forall_forall in Hspecs.
    apply bmap_get_elem_of in E as (k & Hin & ->%cmp_eq). destruct (Hspecs _ Hin) as [Hk _]. by cbn in Hk. }
  rewrite Hn. destruct (SolverState.get_merged_request permutations2 s (pk_name package)) as [req|e|] eqn:Em; [|done..].
  set (new := mkSolvedRequest req (ch_object spec) source).
  assert (sr_name new = pk_name package) as Hnew by (by apply (get_merged_request_name s)).
  assert (solved s (sr_name new) = Some new) as Hsnew.
  { rewrite Hnew. unfold solved, get_current_resolve. by rewrite E, Em. }
  intros Ha.
  destruct (replace_item_solved (solved s) new (sol_resolved solution) Hs Hsnew) as [[Hr Hin]|[Hr Hin]].
  - destruct (IH (Solution_add solution req (ch_object spec) source)) as (Ho & Hnd' & Hs' & Hsub & Hall);
      cbn [Solution_add sol_resolved]; fold new; rewrite ?Hr; try done.
    cbn [Solution_add sol_resolved] in Hsub. fold new in Hsub. rewrite Hr in Hsub.
    split_and!; try done. intros n. rewrite fmap_cons, elem_of_cons. intros [->|Hn']; [|by apply Hall].
    intros _. exists new. by auto.
  - destruct (IH (Solution_add solution req (ch_object spec) source)) as (Ho & Hnd' & Hs' & Hsub & Hall);
      cbn [Solution_add sol_resolved]; fold new; rewrite ?Hr; try done.
    + rewrite fmap_app. apply NoDup_app. split_and!; [done| |apply NoDup_singleton].
      intros n Hn' ->%list_elem_of_singleton. done.
    + intros x [Hx|Hx]%elem_of_app; [by apply Hs|]. apply list_elem_of_singleton in Hx as ->. done.
    + cbn [Solution_add sol_resolved] in Hsub. fold new in Hsub. rewrite Hr in Hsub.
      split_and!; try done.
      * intros x Hx. apply Hsub, elem_of_app. by left.
      * intros n. rewrite fmap_cons, elem_of_cons. intros [->|Hn']; [|by apply Hall].
        intros _. exists new. split; [|done]. apply Hsub, elem_of_app. right. by apply list_elem_of_singleton.
Qed.

Lemma Solution_get_unique (sol : Solution Repo Recipe T) x :
  NoDup (sr_name <$> sol_resolved sol) -> x ∈ sol_resolved sol -> Solution_get sol (sr_name x) = Some x.
Proof.
  unfold Solution_get. induction (sol_resolved sol) as [|y l IH]; [by intros _ ?%elem_of_nil|].
  rewrite fmap_cons, NoDup_cons. intros [Hy Hnd] Hx. cbn [List.find].
  apply elem_of_cons in Hx as [->|Hx]; [by rewrite bool_decide_eq_true_2|].
  rewrite bool_decide_eq_false_2; [by apply IH|]. intros E. apply Hy. rewrite E. by apply list_elem_of_fmap_2.
Qed.

Lemma as_solution_spec s sol :
  state_wf s -> as_solution permutations2 s = Ok sol ->
  sol_options sol = st_options s /\ NoDup (sr_name <$> items sol) /\
  forall n, Solution_get sol n = solved s n /\ (is_Some (Solution_get sol n) <-> is_Some (get_current_resolve s n)).
Proof.
  intros Hwf Ha.
  destruct (add_resolved_spec s (st_packages_in_solve_order s) (Solution_new (st_options s)) sol)
    as (Ho & Hnd & Hs & _ & Hall); [done|constructor|by intros x ?%elem_of_nil|done|].
  split_and!; [done..|]. intros n.
  assert (is_Some (get_current_resolve s n) -> exists x, x ∈ sol_resolved sol /\ sr_name x = n) as Hres.
  { intros [e He]. apply Hall; [|by rewrite He]. apply (wf_order _ Hwf). unfold get_current_resolve in He. by rewrite He. }
  destruct (Solution_get sol n) as [x|] eqn:E.
  - apply find_some in E as [Hx%list_elem_of_In <-%bool_decide_eq_true]. rewrite Hs by done. split; [done|].
    split; [|by eexists]. intros _. specialize (Hs x Hx). unfold solved in Hs.
    destruct (get_current_resolve s (sr_name x)); [by eexists|done].
  - assert (get_current_resolve s n = None) as Hn.
    { apply eq_None_not_Some. intros (x & Hx & <-)%Hres. by rewrite Solution_get_unique in E. }
    split.
    + unfold solved. by rewrite Hn.
    + rewrite Hn. by split; intros [? [=]].
Qed.

(** The solution of a state has the state's options and one item for every
    resolved package, with the package, its source and the merged request for
    it, and no other, also when a package was added twice. *)
Theorem as_solution_exact s sol :
  state_wf s -> as_solution permutations2 s = Ok sol ->
  sol_options sol = st_options s /\ NoDup (sr_name <$> items sol) /\
  forall n, Solution_get sol n = solved s n /\ (is_Some (Solution_get sol n) <-> is_Some (get_current_resolve s n)).
Proof. apply as_solution_spec. Qed.
End requests.

(** ** A concrete instance *)

Definition example_pool : Pool :=
  mkPool (lit "my-pkg") (lit "origin")
    [Range_GreaterThanOrEqualTo (mkGte (from_parts [1]%N)); Range_LessThan (mkLt (from_parts [2]%N))]
    false (fun _ => []).
Definition request_from_one : PkgRequestWithOptions :=
  example_request [Range_GreaterThanOrEqualTo (mkGte (from_parts [1]%N))] None.
Definition request_below_two : PkgRequestWithOptions :=
  example_request [Range_LessThan (mkLt (from_parts [2]%N))] None.

Lemma example_pool_canonical : pool_canonical example_pool.
Proof.
  intros x y Hx Hy. cbn in Hx, Hy. rewrite !elem_of_cons, elem_of_nil in Hx, Hy.
  destruct Hx as [->|[->|[]]], Hy as [->|[->|[]]]; done.
Qed.
Lemma request_from_one_in : in_pool example_pool request_from_one.
Proof.
  split; [done|by left|by repeat constructor| |done|constructor|done].
  intros x ->%list_elem_of_singleton. by left.
Qed.
Lemma request_below_two_in : in_pool example_pool request_below_two.
Proof.
  split; [done|by left|by repeat constructor| |done|constructor|done].
  intros x ->%list_elem_of_singleton. right. by left.
Qed.

Definition example_spec : TupleSpec := example_package (from_parts [1; 5]%N) Compat_default.

Lemma get_merged_request_exact_witness :
  exists (s : ExampleState) σ m,
    State_new [request_from_one; request_below_two] [] [] [] Store_empty = (Ok s, σ) /\
    get_merged_request permutations2_lex s (lit "my-pkg") = Ok m /\
    is_ok (check_satisfies_pkg_request (C := ExampleComponent) id example_spec m) = true.
Proof.
  destruct (State_new (T := TupleSpec) (C := ExampleComponent) (Repo := rstr) (Recipe := VersionIdent)
    [request_from_one; request_below_two] [] [] [] Store_empty) as [[s|e|] σ] eqn:E;
    [|vm_compute in E; discriminate..].
  assert (requests_for s (lit "my-pkg") = [request_from_one; request_below_two]) as Hrs.
  { vm_compute in E. injection E as <- _. vm_compute. reflexivity. }
  pose proof (get_merged_request_exact (C := ExampleComponent) (T := TupleSpec) id (fun l => reflexivity l)
    permutations2_lex permutations2_lex_spec example_pool s example_pool_canonical) as H.
  change (pool_name example_pool) with (lit "my-pkg") in H. rewrite Hrs in H.
  specialize (H (Forall_cons_2 _ _ _ request_from_one_in (Forall_cons_2 _ _ _ request_below_two_in (Forall_nil_2 _)))).
  destruct (get_merged_request permutations2_lex s (lit "my-pkg")) as [m|e|] eqn:Em.
  - exists s, σ, m. split_and!; [done..|]. destruct H as [_ H]. rewrite H by by split. by vm_compute.
  - vm_compute in E. injection E as <- _. vm_compute in Em. discriminate.
  - vm_compute in E. injection E as <- _. vm_compute in Em. discriminate.
Defined.

Lemma request_package_exact_witness :
  exists (base s : ExampleState) σ σ',
    State_new [request_from_one] [] [] [] Store_empty = (Ok base, σ) /\
    RequestPackage_apply [] permutations2_lex request_below_two true base base σ = (Ok s, σ') /\
    answers_all (C := ExampleComponent) id example_spec (requests_for s (lit "my-pkg")) = true.
Proof.
  destruct (State_new (T := TupleSpec) (C := ExampleComponent) (Repo := rstr) (Recipe := VersionIdent)
    [request_from_one] [] [] [] Store_empty) as [[base|e|] σ] eqn:E; [|vm_compute in E; discriminate..].
  assert (requests_for base (lit "my-pkg") = [request_from_one]) as Hrs.
  { vm_compute in E. injection E as <- _. vm_compute. reflexivity. }
  destruct (request_package_exact (C := ExampleComponent) (T := TupleSpec) [] id (fun l => reflexivity l)
    permutations2_lex permutations2_lex_spec example_pool request_below_two true base base σ)
    as (s & σ' & Hs & _ & _ & Ha & _); [apply example_pool_canonical|apply request_below_two_in| |].
  - change (pool_name example_pool) with (lit "my-pkg"). rewrite Hrs. constructor; [apply request_from_one_in|constructor].
  - exists base, s, σ, σ'. split_and!; [done|exact Hs|]. change (lit "my-pkg") with (pool_name example_pool).
    rewrite Ha by by split. change (pool_name example_pool) with (lit "my-pkg"). rewrite Hrs. by vm_compute.
Defined.

Lemma as_solution_exact_witness :
  exists (s : ExampleState) σ sol,
    example_state_new [(example_spec, Source_InternalTest); (example_spec, Source_InternalTest)] Store_empty
      = (Ok s, σ) /\
    as_solution permutations2_lex s = Ok sol /\ NoDup (sr_name <$> items sol) /\
    is_Some (Solution_get sol (lit "my-pkg")).
Proof.
  destruct (example_state_new [(example_spec, Source_InternalTest); (example_spec, Source_InternalTest)]
    Store_empty) as [[s|e|] σ] eqn:E; [|vm_compute in E; discriminate..].
  destruct (as_solution permutations2_lex s) as [sol|e|] eqn:Es.
  - destruct (as_solution_exact (C := ExampleComponent) permutations2_lex s sol) as (_ & Hnd & H);
      [by eapply State_new_wf|done|].
    exists s, σ, sol. split_and!; try done. apply H. vm_compute in E. injection E as <- _. by eexists.
  - vm_compute in E. injection E as <- _. vm_compute in Es. discriminate.
  - vm_compute in E. injection E as <- _. vm_compute in Es. discriminate.
Defined.

Lemma solution_environment_exact_witness :
  exists v, Solution_to_environment (C := ExampleComponent)
    (mkSolution [(lit "other-pkg.color", lit "red")]
      [mkSolvedRequest request_from_one example_spec (Source_InternalTest (Repo := rstr) (Recipe := VersionIdent))])
    (Some (<[lit "SPK_PKG_my_pkg_VERSION" := lit "9"]> ∅)) !! lit "SPK_PKG_my_pkg_VERSION" = Some v.
Proof.
  eexists. eapply (solution_environment_exact (C := ExampleComponent)).
  - by repeat constructor.
  - apply NoDup_singleton.
  - apply Forall_singleton. intros ns Hns. vm_compute in Hns. injection Hns as <-. by vm_compute.
  - by left.
  - right. left.
Defined.
