(* ===== verification/Validation.v ===== *)
(** * Validators

    Models crates/spk-solve/crates/validation/src/validation.rs and validators/,
    the checks a package must pass before the solver puts it into a state, and
    the loops over them in solvers/step/solver.rs.  The debug assertion of the
    embedded package validator, which release builds leave out, is not part of
    the model. *)

From stdpp Require Import gmap.
From S2P Require Import Prelude Strings Collections Names Version VersionOrder VersionText.
From S2P Require Import Compat RangeData Reasons CompatCheck Intersection VersionRange.
From S2P Require Import Components Options Idents Requests RequestEq Opts Requirements ComponentSpecs.
From S2P Require Import Satisfy Embedded PackageSpec Encoding Solution SolverState.

(** ** What the solver uses of packages and recipes *)

Class SolverPackage (T C : Type) `{Package T C} := {
  sp_runtime_requirements : T -> list RequestWithOptions;
  sp_option_values : T -> OptionMap;
  sp_embedded : T -> list (EmbeddedPackageSpec C);
  sp_from_embedded : EmbeddedPackageSpec C -> T;
}.
#[export] Instance SolverPackage_PackageSpec {C} `{!ComponentOps C} : SolverPackage (PackageSpec C) C :=
  {| sp_runtime_requirements := runtime_requirements;
     sp_option_values := option_values;
     sp_embedded := fun self => is_embedded (ps_install self);
     sp_from_embedded := PackageSpec_from |}.

Class SolverRecipe (Recipe : Type) := {
  recipe_is_deprecated : Recipe -> bool;
  recipe_options_resolve : Recipe -> OptionMap -> bool;
}.

Inductive Validators :=
| Validator_BinaryOnly
| Validator_Components
| Validator_Deprecation
| Validator_EmbeddedPackage
| Validator_Options
| Validator_PackageRequest
| Validator_PkgRequirements
| Validator_VarRequirements.
#[export] Instance Validators_eq_dec : EqDecision Validators.
Proof. solve_decision. Defined.

Definition default_validators : list Validators :=
  [ Validator_Deprecation; Validator_PackageRequest; Validator_Components; Validator_Options;
    Validator_VarRequirements; Validator_PkgRequirements; Validator_EmbeddedPackage ].

Inductive ValidationError :=
| ValidationNotImplemented
| ValidationRequestError (e : GetMergedRequestError)
| ValidationGraphError (e : GraphError).

Section validation.
Context {Repo Recipe T C : Type} `{!SourceOps Repo Recipe} `{!Versioned T, !ComponentOps C, !Package T C}.
Context `{!ComponentEmbeds C, !SolverPackage T C, !SolverRecipe Recipe}.
Context (hash_order : list Component -> list Component).
Context (permutations2 : forall A : Type, list A -> list (A * A)).
Context (VersionRange_from_str : rstr -> res rstr VersionRange).
(** How an incompatibility is printed. *)
Context (display_reason : IncompatibleReason -> rstr).
Implicit Types (state : State Repo Recipe T) (spec : T) (source : PackageSource Repo Recipe)
  (recipe : Recipe).

Abbreviation Req := PkgRequestWithOptions.
Abbreviation Checked := (res ValidationError Compatibility).
Abbreviation resolve_uses := (resolve_uses hash_order).

(** [GetMergedRequest], a state's [get_merged_request] or another source. *)
Abbreviation MergedRequests := (rstr -> res GetMergedRequestError Req).
Definition question_mark {A} (r : res GetMergedRequestError A) : res ValidationError A :=
  match r with Ok a => Ok a | Err e => Err (ValidationRequestError e) | Panicked => Panicked end.
Definition state_requests state : MergedRequests := SolverState.get_merged_request permutations2 state.

Definition req_build (r : Req) : option Build := ri_build (pr_pkg (pkg_request r)).
Definition req_components (r : Req) : list Component := ri_components (pr_pkg (pkg_request r)).

(** *** BinaryOnly and Deprecation *)

Definition binary_only_against_request (requests : MergedRequests) spec : Checked :=
  request ← question_mark (requests (pk_name spec));
  Ok (if Build_is_source (pk_build spec) && negb (opt_Build_eq (req_build request) (Some (pk_build spec)))
      then Incompatible BuildFromSourceDisabled else Compatible).

Definition deprecation_against_request (requests : MergedRequests) spec : Checked :=
  if negb (pk_is_deprecated spec) then Ok Compatible
  else
    request ← question_mark (requests (pk_name spec));
    Ok (if opt_Build_eq (req_build request) (Some (pk_build spec)) then Compatible
        else Incompatible BuildDeprecated).

(** *** PackageRequest *)

Definition merged_request_text (e : GetMergedRequestError) : rstr :=
  match e with
  | NoRequestFor name => lit "No requests for '" ++ name ++ lit "' [INTERNAL ERROR]"
  | Conflict _ name reason => lit "Incompatible requests for '" ++ name ++ lit "': " ++ display_reason reason
  end.
Definition request_problem (name : rstr) (e : GetMergedRequestError) : Compatibility :=
  Incompatible (InternalError
    match e with
    | NoRequestFor _ => lit "package '" ++ merged_request_text e ++ lit "' was not requested"
    | Conflict _ _ _ =>
        lit "package '" ++ name ++ lit "' has an invalid request stack: " ++ merged_request_text e
    end).
(** A request that names a repository is for packages of it only. *)
Definition repository_problem (request : Req) source : option PackageRepoProblem :=
  match ri_repository_name (pr_pkg (pkg_request request)) with
  | None => None
  | Some rn =>
      match source with
      | Source_Repository repo _ =>
          if negb (bool_decide (repo_name repo = rn)) then Some (WrongSourceRepository rn (repo_name repo))
          else None
      | Source_Embedded parent _ => Some (EmbeddedInPackageFromWrongRepository (BuildIdent_fmt false parent))
      | Source_BuildFromSource _ => Some FromRecipeFromWrongRepository
      | Source_InternalTest => Some InternalTest
      end
  end.
Definition pkg_request_against_request (requests : MergedRequests) spec source : Checked :=
  match requests (pk_name spec) with
  | Err e => Ok (request_problem (pk_name spec) e)
  | Panicked => Panicked
  | Ok request =>
      match repository_problem request source with
      | Some problem => Ok (Incompatible (PackageRepoMismatch problem))
      | None =>
          match is_version_applicable (pkg_request request) (spec_version spec) with
          | Compatible => Ok (check_satisfies_pkg_request hash_order spec request)
          | problem => Ok problem
          end
      end
  end.

(** *** EmbeddedPackage *)

Definition validate_embedded_package_against_state spec (embedded : EmbeddedPackageSpec C) state : Checked :=
  let conflict :=
    match bmap_get (em_name embedded) (st_packages state) with
    | None => None
    | Some (existing, _, _) =>
        match pk_build (ch_object existing) with
        | BuildEmbedded (EmbeddedPackage package) =>
            if IdentPartsBuf_eq_BuildIdent (esp_ident package) (pk_ident spec) then None
            else Some (pk_name (ch_object existing))
        | _ => Some (pk_name (ch_object existing))
        end
    end in
  match conflict with
  | Some name => Ok (embedded_conflict name)
  | None =>
      match state_requests state (em_name embedded) with
      | Err (NoRequestFor _) => Ok Compatible
      | Err e => Err (ValidationRequestError e)
      | Panicked => Panicked
      | Ok existing =>
          match em_check_satisfies_request hash_order embedded existing with
          | Incompatible incompatible => Ok (Incompatible (EmbeddedIncompatible (em_name embedded) incompatible))
          | Compatible => Ok Compatible
          end
      end
  end.

(** The packages embedded in a component. *)
Definition embedded_in spec (component : C) : list (EmbeddedPackageSpec C) :=
  concat (packages_matching_embedded_package (sp_embedded spec) <$> cel_components (co_embedded component)).
Definition validate_embedded_packages_in_required_components spec (request : Req) state : Checked :=
  let required_components := resolve_uses (pk_components spec) (req_components request) in
  first_problem_res (fun component =>
    if bool_decide (co_name component ∉ required_components) then Ok Compatible
    else first_problem_res (fun embedded => validate_embedded_package_against_state spec embedded state)
           (embedded_in spec component)) (pk_components spec).
Definition validate_embedded spec state : Checked :=
  request ← question_mark (state_requests state (pk_name spec));
  validate_embedded_packages_in_required_components spec request state.

(** *** Components *)

(** The components of a package from a source. *)
Definition source_components spec source : list Component :=
  match source with
  | Source_Repository _ components => components.*1
  | Source_Embedded _ components => components
  | Source_BuildFromSource _ | Source_InternalTest => list_names (pk_components spec)
  end.
Definition component_set (components : list Component) : list rstr :=
  bset_collect (Component_as_str <$> components).
Definition check_for_missing_components (request : Req) spec source : Compatibility :=
  let available_components := source_components spec source in
  let required_components := resolve_uses (pk_components spec) (req_components request) in
  let missing_components := List.filter (fun n => negb (bool_decide (n ∈ available_components))) required_components in
  if negb (bool_decide (missing_components = []))
  then Incompatible (ComponentsMissing (ComponentsNotDefined (component_set missing_components)
         (component_set available_components)))
  else Compatible.
Definition components_against_request (requests : MergedRequests) spec source : Checked :=
  if Build_is_embedded (pk_build spec) then Ok Compatible
  else
    request ← question_mark (requests (pk_name spec));
    Ok (check_for_missing_components request spec source).
Definition validate_components spec source state : Checked :=
  if Build_is_embedded (pk_build spec) then Ok Compatible
  else
    request ← question_mark (state_requests state (pk_name spec));
    match check_for_missing_components request spec source with
    | Compatible => validate_embedded_packages_in_required_components spec request state
    | problem => Ok problem
    end.

(** *** Options *)

Definition qualified_request spec (r : VarRequest PinnedValue) : option rstr :=
  if bool_decide (OptName_namespace (vr_var r) = Some (pk_name spec))
  then Some (OptName_without_namespace (vr_var r)) else None.
(** A request for a variable of any package that one for this package overrides. *)
Definition superseded spec (requests : list (VarRequest PinnedValue)) (request : VarRequest PinnedValue) : bool :=
  bool_decide (OptName_namespace (vr_var request) = None) &&
  bool_decide (vr_var request ∈ omap (qualified_request spec) requests).
Definition validate_options spec state : Checked :=
  let requests := st_var_requests state in
  first_problem_res (fun request =>
    if superseded spec requests request then Ok Compatible
    else
      compat ← total (check_satisfies_var_request VersionRange_from_str spec request);
      match compat with
      | Incompatible incompatible => Ok (Incompatible (OptionNotSatisfied incompatible))
      | Compatible => Ok Compatible
      end) requests.

(** *** VarRequirements *)

Definition relevant_option (request : VarRequest PinnedValue) (name : rstr) : bool :=
  bool_decide (name = vr_var request) ||
  bool_decide (OptName_namespace (vr_var request) = None) &&
  bool_decide (OptName_base_name (vr_var request) = OptName_base_name name).
Definition check_option_value (request : VarRequest PinnedValue) (option : rstr * rstr) : Compatibility :=
  let '(name, value) := option in
  if negb (relevant_option request name) then Compatible
  else if str_is_empty value then Compatible
  else if negb (bool_decide (vr_value request = value))
  then Incompatible (VarRequirementMismatch (vr_var request) (vr_value request) name value)
  else Compatible.
Definition validate_var_requirements spec (options : OptionMap) : Compatibility :=
  first_problem (fun request =>
    match request with
    | RequestWithOptions_Var request => first_problem (check_option_value request) options
    | RequestWithOptions_Pkg _ => Compatible
    end) (sp_runtime_requirements spec).

(** *** PkgRequirements *)

Definition validate_request_against_existing_resolve (request : Req) (resolved : T)
    (provided_components : list Component) : Compatibility :=
  match check_satisfies_pkg_request hash_order resolved request with
  | Incompatible compat => Incompatible (ConflictingRequirement (ExistingPackage (req_name request) compat))
  | Compatible =>
      let required_components := resolve_uses (pk_components resolved) (req_components request) in
      let missing_components :=
        List.filter (fun c => negb (bool_decide (c ∈ provided_components))) required_components in
      if negb (bool_decide (missing_components = []))
      then Incompatible (ComponentsMissing (ComponentsNotProvided (req_name request)
             (component_set missing_components) (component_set provided_components)))
      else Compatible
  end.
(** The name of the package it is embedded in goes into the reason. *)
Definition embedded_components_reason (was_embedded : option BuildIdent) (reason : IncompatibleReason) :
    IncompatibleReason :=
  match reason, was_embedded with
  | ComponentsMissing (ComponentsNotProvided package needed have), Some parent =>
      ComponentsMissing (EmbeddedComponentsNotProvided (id_base (id_base parent)) package needed have)
  | _, _ => reason
  end.
Definition embedding_parent source : option BuildIdent :=
  match source with Source_Embedded parent _ => Some parent | _ => None end.
Definition validate_added_embedded (existing request : Req) (resolved : T) state : Checked :=
  let existing_components := resolve_uses (pk_components resolved) (req_components existing) in
  let required_components := resolve_uses (pk_components resolved) (req_components request) in
  first_problem_res (fun component =>
    if bool_decide (co_name component ∈ existing_components) then Ok Compatible
    else if bool_decide (co_name component ∉ required_components) then Ok Compatible
    else first_problem_res (fun embedded =>
           compat ← validate_embedded_package_against_state resolved embedded state;
           match compat with
           | Incompatible compat =>
               Ok (Incompatible (ConflictingEmbeddedPackageRequirement (pk_name resolved)
                 (Component_as_str (co_name component)) (em_name embedded) compat))
           | Compatible => Ok Compatible
           end) (embedded_in resolved component)) (pk_components resolved).
Definition validate_request_against_existing_state state (request : RequestWithOptions) : Checked :=
  match request with
  | RequestWithOptions_Var _ => Ok Compatible
  | RequestWithOptions_Pkg request =>
      match state_requests state (req_name request) with
      | Err (NoRequestFor _) => Ok Compatible
      | Err e => Err (ValidationRequestError e)
      | Panicked => Panicked
      | Ok existing =>
          '(compat, restricted) ← total (PkgRequestWithOptions_restrict permutations2 existing request);
          match compat with
          | Incompatible incompatible => Ok (Incompatible (ConflictingRequirement (PkgRequirement incompatible)))
          | Compatible =>
              match get_current_resolve state (req_name restricted) with
              | None => Ok Compatible
              | Some (resolved, source, _) =>
                  let resolved := ch_object resolved in
                  match validate_request_against_existing_resolve restricted resolved
                          (source_components resolved source) with
                  | Incompatible reason =>
                      Ok (Incompatible (embedded_components_reason (embedding_parent source) reason))
                  | Compatible => validate_added_embedded existing restricted resolved state
                  end
              end
          end
      end
  end.
Definition validate_pkg_requirements spec state : Checked :=
  first_problem_res (validate_request_against_existing_state state) (sp_runtime_requirements spec).

(** ** The validators *)

Definition validate_package (self : Validators) state spec source : Store -> Checked * Store := fun σ =>
  match self with
  | Validator_BinaryOnly => (Ok Compatible, σ)
  | Validator_Components => (validate_components spec source state, σ)
  | Validator_Deprecation => (deprecation_against_request (state_requests state) spec, σ)
  | Validator_EmbeddedPackage => (validate_embedded spec state, σ)
  | Validator_Options => (validate_options spec state, σ)
  | Validator_PackageRequest => (pkg_request_against_request (state_requests state) spec source, σ)
  | Validator_PkgRequirements => (validate_pkg_requirements spec state, σ)
  | Validator_VarRequirements =>
      match get_option_map state σ with
      | (Ok options, σ) => (Ok (validate_var_requirements spec options), σ)
      | (Err e, σ) => (Err (ValidationGraphError e), σ)
      | (Panicked, σ) => (Panicked, σ)
      end
  end.
Definition validate_package_against_request (self : Validators) (requests : MergedRequests) spec source : Checked :=
  match self with
  | Validator_BinaryOnly => binary_only_against_request requests spec
  | Validator_Components => components_against_request requests spec source
  | Validator_Deprecation => deprecation_against_request requests spec
  | Validator_PackageRequest => pkg_request_against_request requests spec source
  | Validator_EmbeddedPackage | Validator_Options | Validator_PkgRequirements | Validator_VarRequirements =>
      Err ValidationNotImplemented
  end.

(** [validate_recipe]; those of the requirements and components accept all. *)
Definition validate_recipe_request state recipe : Checked :=
  let name := id_base (recipe_ident recipe) in
  match state_requests state name with
  | Err e => Ok (request_problem name e)
  | Panicked => Panicked
  | Ok request => Ok (is_version_applicable (pkg_request request) (id_target (recipe_ident recipe)))
  end.
Definition validate_recipe (self : Validators) state recipe : Store -> Checked * Store := fun σ =>
  match self with
  | Validator_BinaryOnly => (Ok (Incompatible BuildFromSourceDisabled), σ)
  | Validator_Deprecation =>
      (Ok (if recipe_is_deprecated recipe then Incompatible RecipeDeprecated else Compatible), σ)
  | Validator_PackageRequest => (validate_recipe_request state recipe, σ)
  | Validator_Options =>
      match get_option_map state σ with
      | (Ok options, σ) =>
          (Ok (if recipe_options_resolve recipe options then Compatible else Incompatible OptionResolveError), σ)
      | (Err e, σ) => (Err (ValidationGraphError e), σ)
      | (Panicked, σ) => (Panicked, σ)
      end
  | Validator_Components | Validator_EmbeddedPackage | Validator_PkgRequirements | Validator_VarRequirements =>
      (Ok Compatible, σ)
  end.

(** ** The solver's loops *)

(** The validators are asked in order up to the first that objects. *)
Fixpoint ask_all (ask : Validators -> Store -> Checked * Store) (validators : list Validators) :
    Store -> Checked * Store := fun σ =>
  match validators with
  | [] => (Ok Compatible, σ)
  | validator :: validators =>
      match ask validator σ with
      | (Ok Compatible, σ) => ask_all ask validators σ
      | problem => problem
      end
  end.
Definition Solver_validate_package (validators : list Validators) state spec source : Store -> Checked * Store :=
  ask_all (fun validator => validate_package validator state spec source) validators.
Definition Solver_validate_recipe (validators : list Validators) state recipe : Store -> Checked * Store :=
  ask_all (fun validator => validate_recipe validator state recipe) validators.

(** [Solver::set_binary_only], of its validators. *)
Definition set_binary_only (binary_only : bool) (validators : list Validators) : list Validators :=
  let has_binary_only := bool_decide (Validator_BinaryOnly ∈ validators) in
  if negb (xorb has_binary_only binary_only) then validators
  else if binary_only then Validator_BinaryOnly :: validators
  else List.filter (fun v => negb (bool_decide (v = Validator_BinaryOnly))) validators.
End validation.
