(* ===== verification/ValidationTheory.v ===== *)
(** * What validation promises

    A package that passes the default validators ([Validation]) fits the state
    it was validated against: it answers the requests for it and what it
    requires fits the packages and options that are there. *)

From stdpp Require Import gmap.
From S2P Require Import Prelude Strings Collections Names Version VersionOrder VersionText.
From S2P Require Import Compat RangeData Reasons CompatCheck Intersection VersionRange RangeTheory.
From S2P Require Import Components Options Idents Requests RequestEq Opts Requirements ComponentSpecs.
From S2P Require Import Satisfy Embedded PackageSpec MergeTheory RequestPools Encoding Solution.
From S2P Require Import SolverState SolverTheory SolverRequests Validation.

Lemma first_problem_res_compatible {E A} (f : A -> res E Compatibility) l :
  first_problem_res f l = Ok Compatible <-> Forall (fun x => f x = Ok Compatible) l.
Proof.
  induction l as [|x l IH]; [by split|]. cbn [first_problem_res]. rewrite Forall_cons.
  destruct (f x) as [[|reason]|e|]; cbn [mbind res_bind].
  - rewrite IH. tauto.
  - split; [done|]. by intros [[=] _].
  - split; [done|]. by intros [[=] _].
  - split; [done|]. by intros [[=] _].
Qed.
Lemma first_problem_compatible {A} (f : A -> Compatibility) l :
  first_problem f l = Compatible <-> Forall (fun x => f x = Compatible) l.
Proof.
  assert (forall c, c = Compatible <-> is_ok c = true) as Hok by by intros [].
  rewrite Hok, first_problem_ok. apply Forall_proper; [|done]. intros x. by rewrite Hok.
Qed.

Section facts.
Context {Repo Recipe T C : Type} `{!SourceOps Repo Recipe} `{!Versioned T, !ComponentOps C, !Package T C}.
Context {Pattern : Type} `{!ComponentEmbeds C, !SolverPackage T C, !Hasher T, !GlobOps Pattern}.
Context (request_priority_order : list Pattern).
Context (hash_order : list Component -> list Component).
Context (Hperm : forall l, hash_order l ≡ₚ l).
Context (permutations2 : forall A : Type, list A -> list (A * A)).
Context (Hp2 : permutations2_spec permutations2).
Context (VersionRange_from_str : rstr -> res rstr VersionRange).
Context (display_reason : IncompatibleReason -> rstr).
Implicit Types (state : State Repo Recipe T) (spec : T) (resolved : CachedHash T) (source : PackageSource Repo Recipe) (p : Pool).

Abbreviation answers spec r := (is_ok (check_satisfies_pkg_request (C := C) hash_order spec r)).
Abbreviation answers_all := (answers_all (C := C) hash_order).

(** What each validator settles. *)
Lemma pkg_request_validated state spec source :
  pkg_request_against_request hash_order display_reason (state_requests permutations2 state) spec source = Ok Compatible ->
  exists m, get_merged_request permutations2 state (pk_name spec) = Ok m /\ repository_problem m source = None /\
    is_ok (is_version_applicable (pkg_request m) (spec_version spec)) = true /\ answers spec m = true.
Proof.
  unfold pkg_request_against_request, state_requests.
  destruct (get_merged_request permutations2 state (pk_name spec)) as [m|e|]; [|done|done].
  destruct (repository_problem m source) eqn:Er; [done|].
  destruct (is_version_applicable _ _) eqn:Ev; [|done]. intros [= Hs]. exists m. by rewrite Er, Hs, Ev.
Qed.

Lemma var_requirement_validated spec (options : OptionMap) r name value :
  validate_var_requirements spec options = Compatible ->
  RequestWithOptions_Var r ∈ sp_runtime_requirements spec -> (name, value) ∈ options ->
  relevant_option r name = true -> value <> [] -> value = vr_value r.
Proof.
  unfold validate_var_requirements. rewrite first_problem_compatible, Forall_forall. intros H Hr%H Hin Hrel Hne.
  rewrite first_problem_compatible, Forall_forall in Hr. apply Hr in Hin. revert Hin. cbn [check_option_value].
  rewrite Hrel. cbn [negb]. destruct value as [|c value]; [done|]. cbn [str_is_empty].
  by case_bool_decide.
Qed.

Lemma pkg_requirement_validated p state r resolved source id :
  pool_canonical p -> in_pool p r -> Forall (in_pool p) (requests_for state (pool_name p)) ->
  requests_for state (pool_name p) <> [] -> usable (C := C) (ch_object resolved) ->
  validate_request_against_existing_state hash_order permutations2 state (RequestWithOptions_Pkg r) = Ok Compatible ->
  get_current_resolve state (pool_name p) = Some (resolved, source, id) ->
  answers (ch_object resolved) r = true /\ answers_all (ch_object resolved) (requests_for state (pool_name p)) = true.
Proof.
  intros Hp Hr Hin Hne Hx. assert (req_name r = pool_name p) as Hn by apply Hr.
  unfold validate_request_against_existing_state, state_requests. rewrite Hn.
  pose proof (get_merged_request_pool hash_order Hperm permutations2 Hp2 p state Hp Hin) as Hm.
  destruct (get_merged_request permutations2 state (pool_name p)) as [m|[n|req n reason]|] eqn:Em.
  2:{ by destruct Hm as [? _]. }
  2:{ done. }
  2:{ done. }
  destruct Hm as [Hpool Hm].
  destruct (restrict_in_pool hash_order Hperm permutations2 Hp2 p m r Hp Hpool Hr) as (c & m' & -> & Hm' & Hc & _).
  cbn [total mbind res_bind]. destruct c as [|reason]; [|done]. specialize (Hc _ Hx). cbn [is_ok] in Hc.
  assert (req_name m' = pool_name p) as -> by apply Hm'. intros Hv Hres. rewrite Hres in Hv.
  destruct (validate_request_against_existing_resolve _ _ _ _) as [|reason] eqn:Ev; [|done].
  unfold validate_request_against_existing_resolve in Ev.
  destruct (check_satisfies_pkg_request hash_order (ch_object resolved) m') eqn:Es; [|done].
  cbn [is_ok] in Hc. symmetry in Hc. apply andb_true_iff in Hc as [H1 H2]. split; [done|].
  by rewrite <-(Hm _ Hx).
Qed.
Abbreviation solve := (SolverTheory.solve request_priority_order permutations2).
Abbreviation validate_package := (Solver_validate_package hash_order permutations2 VersionRange_from_str display_reason
  default_validators).

(** All that the default validators ask. *)
Lemma validated_all state spec source σ σ' live :
  solve σ live -> state ∈ live -> validate_package state spec source σ = (Ok Compatible, σ') ->
  deprecation_against_request (state_requests permutations2 state) spec = Ok Compatible /\
  pkg_request_against_request hash_order display_reason (state_requests permutations2 state) spec source = Ok Compatible /\
  validate_components hash_order permutations2 spec source state = Ok Compatible /\
  validate_options VersionRange_from_str spec state = Ok Compatible /\
  validate_var_requirements spec (st_options state) = Compatible /\
  validate_pkg_requirements hash_order permutations2 spec state = Ok Compatible /\
  validate_embedded hash_order permutations2 spec state = Ok Compatible.
Proof.
  intros Hl%solve_caches Hs. unfold Solver_validate_package, default_validators.
  cbn [ask_all Validation.validate_package].
  destruct (deprecation_against_request _ _) as [[]|e|]; [|done..].
  destruct (pkg_request_against_request _ _ _ _ _) as [[]|e|]; [|done..].
  destruct (validate_components _ _ _ _ _) as [[]|e|]; [|done..].
  destruct (validate_options _ _ _) as [[]|e|]; [|done..].
  destruct (get_option_map state σ) as [r σ1] eqn:Eo.
  eapply get_option_map_ok in Eo as [-> _]; [|done..].
  destruct (validate_var_requirements _ _) as [|reason]; [|done].
  destruct (validate_pkg_requirements _ _ _ _) as [[]|e|]; [|done..].
  destruct (validate_embedded _ _ _ _) as [[]|e|]; [|done..]. done.
Qed.
Lemma components_validated state spec source m :
  get_merged_request permutations2 state (pk_name spec) = Ok m -> Build_is_embedded (pk_build spec) = false ->
  validate_components hash_order permutations2 spec source state = Ok Compatible ->
  forall c, c ∈ resolve_uses hash_order (pk_components spec) (req_components m) -> c ∈ source_components spec source.
Proof.
  intros Hm Hb. unfold validate_components. rewrite Hb. unfold state_requests. rewrite Hm. cbn [question_mark mbind res_bind].
  unfold check_for_missing_components. case_bool_decide as Hnil; cbn [negb]; [|done]. intros _ c Hc. apply dec_stable. intros Hno.
  apply (not_elem_of_nil c). rewrite <-Hnil. apply list_elem_of_In, filter_In.
  by rewrite <-list_elem_of_In, negb_true_iff, bool_decide_eq_false.
Qed.
(** What a package embeds can be put beside what is there: its name is not resolved
    already, but by this package, and it answers the requests for that name. *)
Definition embeddable state spec (embedded : EmbeddedPackageSpec C) : Prop :=
  (forall existing src id, bmap_get (em_name embedded) (st_packages state) = Some (existing, src, id) ->
     exists package, pk_build (ch_object existing) = BuildEmbedded (EmbeddedPackage package) /\
       IdentPartsBuf_eq_BuildIdent (esp_ident package) (pk_ident spec) = true) /\
  (forall m, get_merged_request permutations2 state (em_name embedded) = Ok m ->
     em_check_satisfies_request hash_order embedded m = Compatible).
Lemma embedded_validated state spec embedded :
  validate_embedded_package_against_state hash_order permutations2 spec embedded state = Ok Compatible ->
  embeddable state spec embedded.
Proof.
  unfold validate_embedded_package_against_state, embeddable, state_requests.
  assert (forall m, match em_check_satisfies_request hash_order embedded m with
    | Compatible => Ok Compatible
    | Incompatible incompatible => Ok (E := ValidationError) (Incompatible (EmbeddedIncompatible (em_name embedded) incompatible))
    end = Ok Compatible -> em_check_satisfies_request hash_order embedded m = Compatible) as Hem.
  { intros m. by destruct (em_check_satisfies_request _ _ _). }
  assert (forall (A : Prop), A -> match get_merged_request permutations2 state (em_name embedded) with
    | Ok existing => match em_check_satisfies_request hash_order embedded existing with
        | Compatible => Ok Compatible
        | Incompatible incompatible => Ok (Incompatible (EmbeddedIncompatible (em_name embedded) incompatible)) end
    | Err (NoRequestFor _) => Ok Compatible
    | Err (Conflict _ _ _ as e) => Err (ValidationRequestError e)
    | Panicked => Panicked end = Ok Compatible ->
    A /\ forall m, get_merged_request permutations2 state (em_name embedded) = Ok m ->
      em_check_satisfies_request hash_order embedded m = Compatible) as Hrest.
  { intros A HA H. split; [done|]. intros m Hm. rewrite Hm in H. by apply Hem. }
  destruct (bmap_get (em_name embedded) (st_packages state)) as [[[existing src] id]|]; [|by apply Hrest].
  destruct (pk_build (ch_object existing)) as [|[package|]|] eqn:Eb; [done| |done..].
  destruct (IdentPartsBuf_eq_BuildIdent _ _) eqn:Ei; [|done]. apply Hrest. intros e s i [= <- <- <-]. by exists package.
Qed.
Lemma all_embedded_validated state spec m :
  get_merged_request permutations2 state (pk_name spec) = Ok m ->
  validate_embedded hash_order permutations2 spec state = Ok Compatible ->
  forall component embedded, component ∈ pk_components spec ->
    co_name component ∈ resolve_uses hash_order (pk_components spec) (req_components m) ->
    embedded ∈ embedded_in spec component -> embeddable state spec embedded.
Proof.
  intros Hm. unfold validate_embedded, state_requests. rewrite Hm. cbn [question_mark mbind res_bind].
  unfold validate_embedded_packages_in_required_components. rewrite first_problem_res_compatible, Forall_forall.
  intros H component embedded Hc%H Hin He. rewrite bool_decide_eq_false_2 in Hc by (intros Hno; by apply Hno).
  rewrite first_problem_res_compatible, Forall_forall in Hc. by apply embedded_validated, Hc.
Qed.

(** A package that fits a state: what the requests, the options and the packages of
    the state and the package ask of each other.  What is said of all requests for a
    package is said of requests of a pool and of built packages that are not
    deprecated. *)
Record fits p state spec source : Prop := {
  (** It answers every request for it, of which there is one. *)
  fits_requests : pk_name spec = pool_name p -> usable (C := C) spec ->
    requests_for state (pool_name p) <> [] /\ answers_all spec (requests_for state (pool_name p)) = true;
  (** Its build is asked for, if it is deprecated. *)
  fits_deprecation : pk_is_deprecated spec = true -> exists m,
    get_merged_request permutations2 state (pk_name spec) = Ok m /\ opt_Build_eq (req_build m) (Some (pk_build spec)) = true;
  (** The components that are asked for come from its source, and what they embed
      can be put beside what is there. *)
  fits_components : exists m, get_merged_request permutations2 state (pk_name spec) = Ok m /\
    let required := resolve_uses hash_order (pk_components spec) (req_components m) in
    (Build_is_embedded (pk_build spec) = false -> forall c, c ∈ required -> c ∈ source_components spec source) /\
    forall component embedded, component ∈ pk_components spec -> co_name component ∈ required ->
      embedded ∈ embedded_in spec component -> embeddable state spec embedded;
  (** It has the variables that were requested of it, but for requests that one for
      it alone takes precedence over. *)
  fits_options r : r ∈ st_var_requests state -> superseded spec (st_var_requests state) r = false ->
    check_satisfies_var_request VersionRange_from_str spec r = Ok Compatible;
  (** The variables it requires have the values of the state's options. *)
  fits_variables r name value : RequestWithOptions_Var r ∈ sp_runtime_requirements spec ->
    (name, value) ∈ st_options state -> relevant_option r name = true -> value <> [] -> value = vr_value r;
  (** The packages it requires that are there answer its requirements. *)
  fits_requirements r resolved src id : RequestWithOptions_Pkg r ∈ sp_runtime_requirements spec -> in_pool p r ->
    get_current_resolve state (pool_name p) = Some (resolved, src, id) -> usable (C := C) (ch_object resolved) ->
    requests_for state (pool_name p) <> [] ->
    answers (ch_object resolved) r = true /\ answers_all (ch_object resolved) (requests_for state (pool_name p)) = true;
}.

(** C16: a package that passes the seven default validators fits the state
    ([fits]): the requests for it, its deprecation, its components and what they
    embed, its options and variables, and what it requires.  The statements on all
    requests for a package are for those of a pool and for usable packages. *)
Theorem validated_package_fits p state spec source σ σ' live :
  solve σ live -> state ∈ live -> validate_package state spec source σ = (Ok Compatible, σ') ->
  pool_canonical p -> Forall (in_pool p) (requests_for state (pool_name p)) ->
  fits p state spec source.
Proof.
  intros Hl Hs Hv Hp Hin. destruct (validated_all _ _ _ _ _ _ Hl Hs Hv) as (Hdep & Hreq & Hcomp & Hopt & Hvar & Hpkg & Hemb).
  apply pkg_request_validated in Hreq as (m & Hm & _ & _ & Ha). split.
  - intros Hn Hspec. rewrite Hn in Hm.
    pose proof (get_merged_request_pool hash_order Hperm permutations2 Hp2 p state Hp Hin) as H.
    rewrite Hm in H. destruct H as [_ H]. split; [|by rewrite <-H].
    intros Hnil. assert (get_merged_request permutations2 state (pool_name p) = Err (NoRequestFor (pool_name p)))
      by (by apply get_merged_request_none). congruence.
  - intros Hd. exists m. split; [done|]. unfold deprecation_against_request, state_requests in Hdep. rewrite Hd, Hm in Hdep.
    cbn [negb question_mark mbind res_bind] in Hdep. by destruct (opt_Build_eq _ _).
  - exists m. split; [done|]. split; [intros Hb; by eapply components_validated|by apply all_embedded_validated].
  - intros r Hr Hsup. unfold validate_options in Hopt. rewrite first_problem_res_compatible, Forall_forall in Hopt.
    apply Hopt in Hr. rewrite Hsup in Hr.
    destruct (check_satisfies_var_request VersionRange_from_str spec r) as [[]|[]|]; done.
  - intros r name value. by apply var_requirement_validated.
  - intros r resolved src id Hr Hpool Hres Hu Hne. unfold validate_pkg_requirements in Hpkg.
    rewrite first_problem_res_compatible, Forall_forall in Hpkg. apply Hpkg in Hr.
    by eapply pkg_requirement_validated.
Qed.
End facts.

#[export] Instance ComponentEmbeds_example : ComponentEmbeds ExampleComponent :=
  {| co_embedded := fun _ => ComponentEmbeddedPackagesList_default; set_embedded := fun _ c => c |}.

Lemma validated_package_fits_witness :
  exists (s : ExampleState) σ σ',
    solve (C := ExampleComponent) [] permutations2_lex σ [s] /\
    Solver_validate_package (C := ExampleComponent) id permutations2_lex (fun _ => Err []) (fun _ => [])
      default_validators s example_spec Source_InternalTest σ = (Ok Compatible, σ') /\
    answers_all (C := ExampleComponent) id example_spec (requests_for s (lit "my-pkg")) = true.
Proof.
  destruct (State_new (T := TupleSpec) (C := ExampleComponent) (Repo := rstr) (Recipe := VersionIdent)
    [request_from_one; request_below_two] [] [] [] Store_empty) as [[s|e|] σ] eqn:E;
    [|vm_compute in E; discriminate..].
  assert (solve (C := ExampleComponent) [] permutations2_lex σ [s]) as Hl.
  { eapply solve_new; [apply solve_start|exact E]. }
  assert (requests_for s (lit "my-pkg") = [request_from_one; request_below_two]) as Hrs.
  { vm_compute in E. injection E as <- _. vm_compute. reflexivity. }
  destruct (Solver_validate_package (C := ExampleComponent) id permutations2_lex (fun _ => Err []) (fun _ => [])
    default_validators s example_spec Source_InternalTest σ) as [r σ'] eqn:Ev.
  assert (r = Ok Compatible) as ->.
  { vm_compute in E. injection E as <- <-. vm_compute in Ev. by injection Ev as <- _. }
  exists s, σ, σ'. split; [exact Hl|]. split; [exact Ev|].
  destruct (validated_package_fits (C := ExampleComponent) [] id (fun l => reflexivity l)
    permutations2_lex permutations2_lex_spec (fun _ => Err []) (fun _ => []) example_pool s example_spec
    Source_InternalTest σ σ' [s] Hl) as [H _ _ _ _ _]; [by left|exact Ev|apply example_pool_canonical| |].
  - change (pool_name example_pool) with (lit "my-pkg"). rewrite Hrs.
    constructor; [apply request_from_one_in|constructor; [apply request_below_two_in|constructor]].
  - apply H; [reflexivity|]. by split.
Defined.
