(* ===== verification/Decisions.v ===== *)
(** * Decisions

    Models the [DecisionBuilder] of crates/spk-solve/crates/graph/src/graph.rs:
    the changes that bring a package, with what it requires and embeds, into a
    state, and those that go back to reconsider one; and the check of
    solvers/step/solver.rs that a decision leaves the packages valid that are
    resolved already.

    The functions that call each other on the requirements of packages already
    resolved may not return; they get fuel, and [Panicked] stands for the
    stack that overflows. *)

From stdpp Require Import gmap.
From S2P Require Import Prelude Strings Collections Names Version VersionOrder VersionText.
From S2P Require Import Compat RangeData Reasons CompatCheck Intersection VersionRange.
From S2P Require Import Components Options Idents Requests RequestEq Opts Requirements ComponentSpecs.
From S2P Require Import Satisfy Embedded PackageSpec Encoding Solution SolverState Validation.

(** ** The parent of an embedded package *)

Inductive ParentError :=
| ParentHasNoVersion
| ParentHasNoBuild
| ParentNameInvalid (e : InvalidNameError)
| ParentVersionInvalid (version : rstr)
| ParentBuildInvalid (build : rstr).

(** [EmbeddedSourcePackage::to_pkg_request]; the parser of builds is a parameter. *)
Definition to_pkg_request (Build_from_str : rstr -> option Build) (self : EmbeddedSourcePackage)
    (requester : RequestedBy) : res ParentError PkgRequest :=
  match ip_version_str (esp_ident self), ip_build_str (esp_ident self) with
  | None, _ => Err ParentHasNoVersion
  | _, None => Err ParentHasNoBuild
  | Some version_str, Some build_str =>
      match validate_pkg_name (ip_pkg_name (esp_ident self)) with
      | Err e => Err (ParentNameInvalid e)
      | Panicked => Panicked
      | Ok _ =>
          match parse_version version_str with
          | Err _ => Err (ParentVersionInvalid version_str)
          | Panicked => Panicked
          | Ok version =>
              match Build_from_str build_str with
              | None => Err (ParentBuildInvalid build_str)
              | Some build =>
                  total (PkgRequest_new (mkRangeIdent None (ip_pkg_name (esp_ident self)) (esp_components self)
                    (VersionFilter_single (Range_DoubleEquals (mkDoubleEquals version))) (Some build)) requester)
              end
          end
      end
  end.

(** ** Building decisions *)

Record Decision (Repo Recipe T : Type) := mkDecision {
  dec_changes : list (Change Repo Recipe T);
  dec_notes : list Note;
}.
Arguments mkDecision {Repo Recipe T} dec_changes dec_notes.
Arguments dec_changes {Repo Recipe T} d.
Arguments dec_notes {Repo Recipe T} d.

Section decisions.
Context {Repo Recipe T C : Type} `{!SourceOps Repo Recipe} `{!Versioned T, !ComponentOps C, !Package T C}.
Context `{!ComponentEmbeds C, !ComponentRequires C, !SolverPackage T C}.
Context (hash_order : list Component -> list Component).
Context (permutations2 : forall A : Type, list A -> list (A * A)).
Context (Build_from_str : rstr -> option Build).
(** The derived equality of embedded packages, and the order in which a
    [HashMap] of them is walked. *)
Context (same_embedded : EmbeddedPackageSpec C -> EmbeddedPackageSpec C -> bool).
Context (entries_order : list (EmbeddedPackageSpec C * list Component) ->
                         list (EmbeddedPackageSpec C * list Component)).

Abbreviation Change := (Change Repo Recipe T).
Abbreviation State := (State Repo Recipe T).
Abbreviation Req := PkgRequestWithOptions.
Abbreviation Source := (PackageSource Repo Recipe).
Abbreviation Changes := (res ParentError (list Change)).
Abbreviation resolve_uses := (resolve_uses hash_order).

Definition Decision_new (changes : list Change) : Decision Repo Recipe T := mkDecision changes [].
Definition as_decision (self : Change) : Decision Repo Recipe T := Decision_new [self].
Definition add_notes (notes : list Note) (self : Decision Repo Recipe T) : Decision Repo Recipe T :=
  mkDecision (dec_changes self) (dec_notes self ++ notes).

(** The base of the builder, and the components selected ([with_components]). *)
Context (base : State) (selected : list Component).

Definition concat_changes {A} (f : A -> Changes) (l : list A) : Changes :=
  changes ← try_map f l; Ok (concat changes).

Definition with_request_components (components : list Component) (req : Req) : Req :=
  let p := pr_pkg (pkg_request req) in
  mkPkgRequestWithOptions (with_pkg (pkg_request req)
    (mkRangeIdent (ri_repository_name p) (ri_name p) components (ri_version p) (ri_build p)))
    (pro_options req).
Definition with_requester (req : Req) (requested_by : RequestedBy) : res ParentError Req :=
  p ← total (PkgRequest_add_requester (pkg_request req) requested_by);
  Ok (mkPkgRequestWithOptions p (pro_options req)).

(** *** Requests *)

(** [requirements_to_changes], given [pkg_request_to_changes]. *)
Definition requirements_changes (pkg_request_to_changes : Req -> Changes)
    (requirements : list RequestWithOptions) (requested_by : RequestedBy) : Changes :=
  concat_changes (fun req =>
    match req with
    | RequestWithOptions_Pkg req => req ← with_requester req requested_by; pkg_request_to_changes req
    | RequestWithOptions_Var req => Ok [Change_RequestVar req]
    end) requirements.

(** Without components a request is for the default one to run. *)
Definition default_components (req : Req) : Req :=
  if bool_decide (req_components req = []) then with_request_components [Component_default_for_run] req
  else req.
(** The components a request adds to those of a package that are in use. *)
Definition added_components (spec : T) (existing req : Req) : list Component :=
  let existing_components := resolve_uses (pk_components spec) (req_components existing) in
  List.filter (fun c => negb (bool_decide (c ∈ existing_components)))
    (resolve_uses (pk_components spec) (req_components req)).
Fixpoint pkg_request_to_changes (fuel : nat) (req : Req) : Changes :=
  match fuel with
  | O => Panicked
  | S fuel =>
      let req := default_components req in
      let changes := [RequestPackage_new req] in
      match get_current_resolve base (req_name req) with
      | None => Ok changes
      | Some (spec, _, _) =>
          let spec := ch_object spec in
          match SolverState.get_merged_request permutations2 base (req_name req) with
          | Err _ => Ok changes
          | Panicked => Panicked
          | Ok existing =>
              let added_components := added_components spec existing req in
              if bool_decide (added_components = []) then Ok changes
              else
                more ← concat_changes (fun component =>
                  if negb (bool_decide (co_name component ∈ added_components)) then Ok []
                  else requirements_changes (pkg_request_to_changes fuel) (co_requirements component)
                         (PackageBuild (pk_ident spec))) (pk_components spec);
                Ok (changes ++ more)
          end
      end
  end.
Definition requirements_to_changes (fuel : nat) : list RequestWithOptions -> RequestedBy -> Changes :=
  requirements_changes (pkg_request_to_changes fuel).

(** The default component of a build, for the requests of the build component. *)
Definition default_build_components (component : C) (req : Req) : Req :=
  if bool_decide (co_name component = ComponentBuild) && bool_decide (req_components req = []) &&
     negb (RangeIdent_is_source (pr_pkg (pkg_request req)))
  then with_request_components [Component_default_for_build] req else req.
Definition components_to_changes (fuel : nat) (components : list C) (requester : BuildIdent) : Changes :=
  let required := resolve_uses components selected in
  concat_changes (fun component =>
    if negb (bool_decide (co_name component ∈ required)) then Ok []
    else concat_changes (fun req =>
      match req with
      | RequestWithOptions_Pkg req =>
          req ← with_requester req (PackageBuild requester);
          pkg_request_to_changes fuel (default_build_components component req)
      | RequestWithOptions_Var req => Ok [Change_RequestVar req]
      end) (co_requirements component)) components.

(** *** Options *)

Definition option_to_set (spec : T) (opts : OptionMap) (entry : rstr * rstr) : OptionMap :=
  let '(name, value) := entry in
  if str_is_empty value then opts
  else bmap_insert (OptName_with_default_namespace name (pk_name spec)) value opts.
Definition options_to_change (spec : T) : Change :=
  Change_SetOptions (foldl (option_to_set spec)
    [(pk_name spec, Compat_render (spec_compat spec) (spec_version spec))] (sp_option_values spec)).

(** *** Embedded packages *)

(** The options of an embedded package that carry its own namespace. *)
Definition embedded_options (embedded : EmbeddedPackageSpec C) : PkgRequestOptions :=
  bmap_collect (omap (fun '(opt, val) =>
    if bool_decide (OptName_namespace opt = Some (em_name embedded)) then Some (opt, Complete val) else None)
    (em_option_values embedded)).
Definition embedded_request (embedded : EmbeddedPackageSpec C) (parent : BuildIdent) : res ParentError Req :=
  pkg_request ← total (PkgRequest_from_ident (BuildIdent_to_any_ident (em_pkg embedded))
                         (RequestedBy_Embedded parent));
  Ok (mkPkgRequestWithOptions pkg_request (embedded_options embedded)).

(** [merged_changes]: the components embedded, by embedded package. *)
Fixpoint merge_embedded (embedded : EmbeddedPackageSpec C) (components : list Component)
    (merged : list (EmbeddedPackageSpec C * list Component)) : list (EmbeddedPackageSpec C * list Component) :=
  match merged with
  | [] => [(embedded, bset_extend [] components)]
  | (e, cs) :: merged =>
      if same_embedded e embedded then (e, bset_extend cs components) :: merged
      else (e, cs) :: merge_embedded embedded components merged
  end.
Definition merged_embedded (embedded : list (EmbeddedPackageSpec C)) (components : list C)
    (required : list Component) : list (EmbeddedPackageSpec C * list Component) :=
  foldl (fun merged component =>
    if negb (bool_decide (co_name component ∈ required)) then merged
    else foldl (fun merged embedded_package =>
           foldl (fun merged e => merge_embedded e (cep_components embedded_package) merged) merged
             (packages_matching_embedded_package embedded embedded_package))
           merged (cel_components (co_embedded component))) [] components.

(** [embedded_to_changes], given [set_package]. *)
Definition embedded_changes (set_package : T -> Source -> Changes) (embedded : list (EmbeddedPackageSpec C))
    (components : list C) (parent : BuildIdent) : Changes :=
  let required := resolve_uses components selected in
  let merged_changes := merged_embedded embedded components required in
  if negb (bool_decide (required = [])) && negb (bool_decide (merged_changes = [])) then
    concat_changes (fun '(e, components) =>
      request ← embedded_request e parent;
      changes ← set_package (sp_from_embedded e) (Source_Embedded parent components);
      Ok (Change_RequestPackage (with_request_components components request) false :: changes))
      (entries_order merged_changes)
  else
    concat_changes (fun e =>
      request ← embedded_request e parent;
      changes ← set_package (sp_from_embedded e) (Source_Embedded parent []);
      Ok (RequestPackage_new request :: changes)) embedded.

(** *** Packages *)

(** The request of an embedded stub for the package that embeds it. *)
Definition parent_option (parent_name : rstr) (req : RequestWithOptions) : option (rstr * PkgRequestOptionValue) :=
  match req with
  | RequestWithOptions_Var var =>
      if bool_decide (OptName_namespace (vr_var var) = Some parent_name)
      then Some (vr_var var, Complete (vr_value var)) else None
  | RequestWithOptions_Pkg _ => None
  end.
Definition parent_changes (fuel : nat) (spec : T) : Changes :=
  match pk_build spec with
  | BuildEmbedded (EmbeddedPackage parent) =>
      pkg_request ← to_pkg_request Build_from_str parent (RequestedBy_Embedded (pk_ident spec));
      pkg_request_to_changes fuel (mkPkgRequestWithOptions pkg_request
        (bmap_collect (omap (parent_option (ri_name (pr_pkg pkg_request))) (sp_runtime_requirements spec))))
  | _ => Ok []
  end.
(** What [set_package] and [build_package] have in common: requirements,
    components, embedded packages and options, after the first changes. *)
Definition package_changes (set_package : T -> Source -> Changes) (fuel : nat) (first : list Change) (spec : T) :
    Changes :=
  let requester_ident := pk_ident spec in
  required ← requirements_to_changes fuel (sp_runtime_requirements spec) (PackageBuild requester_ident);
  components ← components_to_changes fuel (pk_components spec) requester_ident;
  embedded ← embedded_changes set_package (sp_embedded spec) (pk_components spec) requester_ident;
  Ok (first ++ required ++ components ++ embedded ++ [options_to_change spec]).
Fixpoint set_package (depth fuel : nat) (spec : T) (source : Source) : Changes :=
  match depth with
  | O => Panicked
  | S depth =>
      parent ← parent_changes fuel spec;
      package_changes (set_package depth fuel) fuel (Change_SetPackage spec source :: parent) spec
  end.

Definition resolve_package (depth fuel : nat) (spec : T) (source : Source) :
    res ParentError (Decision Repo Recipe T) :=
  changes ← set_package depth fuel spec source; Ok (Decision_new changes).
Definition build_package (depth fuel : nat) (recipe : Recipe) (spec : T) :
    res ParentError (Decision Repo Recipe T) :=
  changes ← package_changes (set_package depth fuel) fuel [SetPackageBuild_new spec recipe] spec;
  Ok (Decision_new changes).

(** [reconsider_package] and [reconsider_package_with_additional_components]
    differ in the text of the step back. *)
Definition reconsider_package (request : Req) (counter : nat) : Decision Repo Recipe T :=
  Decision_new [Change_StepBack base counter; RequestPackage_prioritize request].
End decisions.

(** ** The check of a decision *)

Section reconsider.
Context {Repo Recipe T C : Type} `{!SourceOps Repo Recipe} `{!Versioned T, !ComponentOps C, !Package T C}.
Context (permutations2 : forall A : Type, list A -> list (A * A)).
Abbreviation State := (State Repo Recipe T).
Abbreviation Req := PkgRequestWithOptions.

(** What the loop finds: nothing, a conflict that ends the branch, or a package
    to reconsider from the state it was added to. *)
Inductive Invalidated :=
| Invalidated_Abandon (request : PkgRequest) (reason : IncompatibleReason)
| Invalidated_Reconsider (request : Req) (state_id : StateId).

(** The problem a request makes for a resolved package of its name; whether it
    is a conflict between requests. *)
Definition stale_reason (resolved : T) (merged request : Req) : res Empty_set (option (bool * IncompatibleReason)) :=
  '(compat, merged) ← PkgRequestWithOptions_restrict permutations2 merged request;
  Ok match compat with
     | Incompatible reason => Some (true, reason)
     | Compatible =>
         match is_version_applicable (pkg_request merged) (spec_version resolved) with
         | Compatible => None
         | Incompatible reason => Some (false, reason)
         end
     end.
Definition invalidated_by (state : State) (request : Req) : res Empty_set (option Invalidated) :=
  match get_current_resolve state (req_name request) with
  | None => Ok None
  | Some (resolved, _, state_id) =>
      match SolverState.get_merged_request permutations2 state (req_name request) with
      | Err _ => Ok None
      | Panicked => Panicked
      | Ok merged =>
          let resolved := ch_object resolved in
          stale ← stale_reason resolved merged request;
          Ok match stale with
             | None => None
             | Some (requests_conflict, reason) =>
                 Some (if requests_conflict || Build_is_embedded (pk_build resolved)
                       then Invalidated_Abandon (pkg_request request) reason
                       else Invalidated_Reconsider request state_id)
             end
      end
  end.
(** [reconsider_invalidated_resolve], up to the lookup of the state's node. *)
Fixpoint reconsider_invalidated_resolve (state : State) (changes : list (Change Repo Recipe T)) :
    res Empty_set (option Invalidated) :=
  match changes with
  | [] => Ok None
  | Change_RequestPackage request _ :: changes =>
      found ← invalidated_by state request;
      match found with
      | Some problem => Ok (Some problem)
      | None => reconsider_invalidated_resolve state changes
      end
  | _ :: changes => reconsider_invalidated_resolve state changes
  end.
End reconsider.
