(* ===== verification/DecisionTheory.v ===== *)
(** * What decisions promise

    A decision to resolve a package ([Decisions]) makes requests that demand all
    the package requires, and a decision that passes the check against the
    packages resolved already leaves their versions acceptable.  The functions
    that build decisions end when the requirements of the components of resolved
    packages are not circular. *)

From stdpp Require Import gmap.
From S2P Require Import Prelude Strings Collections Names Version VersionOrder VersionText.
From S2P Require Import Compat RangeData Reasons CompatCheck Intersection VersionRange RangeTheory.
From S2P Require Import Components Options Idents Requests RequestEq Opts Requirements ComponentSpecs.
From S2P Require Import Satisfy Embedded PackageSpec MergeTheory RequestPools Encoding Solution.
From S2P Require Import SolverState SolverTheory SolverRequests Validation ValidationTheory Decisions.

Section theory.
Context {Repo Recipe T C Pattern : Type} `{!SourceOps Repo Recipe} `{!Versioned T, !ComponentOps C, !Package T C}.
Context `{!ComponentEmbeds C, !ComponentRequires C, !SolverPackage T C, !Hasher T, !GlobOps Pattern}.
Context (request_priority_order : list Pattern).
Context (hash_order : list Component -> list Component).
Context (permutations2 : forall A : Type, list A -> list (A * A)).
Implicit Types (s state base : State Repo Recipe T) (r m : PkgRequestWithOptions) (spec : T) (p : Pool)
  (change : Change Repo Recipe T) (changes : list (Change Repo Recipe T)).

Abbreviation Change := (Change Repo Recipe T).
Abbreviation answers spec r := (is_ok (check_satisfies_pkg_request (C := C) hash_order spec r)).
Abbreviation answers_all := (answers_all (C := C) hash_order).
Abbreviation Change_apply := (Change_apply request_priority_order permutations2).
Abbreviation apply_changes := (apply_changes request_priority_order permutations2).
Abbreviation Decision_apply := (Decision_apply request_priority_order permutations2).
Abbreviation pkg_request_to_changes := (pkg_request_to_changes (C := C) hash_order permutations2).
Abbreviation requirements_to_changes := (requirements_to_changes (C := C) hash_order permutations2).
Abbreviation components_to_changes := (components_to_changes (C := C) hash_order permutations2).

(** ** What changes make of a state *)

Definition request_made change : option PkgRequestWithOptions :=
  match change with Change_RequestPackage r _ => Some r | _ => None end.
(** The packages that changes request and resolve. *)
Definition made changes : list PkgRequestWithOptions := omap request_made changes.
Definition package_set change : option rstr :=
  match change with
  | Change_SetPackage spec _ | Change_SetPackageBuild spec _ => Some (pk_name spec)
  | _ => None
  end.
Definition forward changes : Prop := Forall (fun c => steps_back c = false) changes.

Lemma made_app l k : made (l ++ k) = made l ++ made k.
Proof. apply omap_app. Qed.
Lemma elem_of_made r changes : r ∈ made changes <-> exists prioritize, Change_RequestPackage r prioritize ∈ changes.
Proof.
  unfold made. rewrite list_elem_of_omap. split.
  - intros ([r' prioritize| | | | |] & Hc & [=]). exists prioritize. congruence.
  - intros [prioritize Hc]. by eexists.
Qed.

(** A pool for the requests of every package. *)
Context (pool : rstr -> Pool).
Definition pools_wf : Prop := forall n, pool_name (pool n) = n /\ pool_canonical (pool n).
Definition pooled (rs : list PkgRequestWithOptions) : Prop := Forall (fun r => in_pool (pool (req_name r)) r) rs.
Context (Hpool : pools_wf).

Lemma pooled_named rs : pooled rs <-> forall n, Forall (in_pool (pool n)) (named n rs).
Proof.
  unfold pooled. split.
  - intros H n. rewrite Forall_forall in H |- *. intros r.
    unfold named. rewrite list_elem_of_In, filter_In, <-list_elem_of_In, bool_decide_eq_true.
    intros [Hr <-]. auto.
  - intros H. apply Forall_forall. intros r Hr. specialize (H (req_name r)). rewrite Forall_forall in H.
    apply H. unfold named. rewrite list_elem_of_In, filter_In, <-list_elem_of_In, bool_decide_eq_true. done.
Qed.

Section asked.
Context {X : Type} (ask : X -> PkgRequestWithOptions -> bool) (good : X -> Prop).
Context (Hmerges : forall n, merges permutations2 ask good (pool n)).
Abbreviation asks x rs := (forallb (ask x) rs).

Lemma change_asked change parent s σ :
  steps_back change = false -> pooled (requests_of s) -> pooled (made [change]) ->
  exists s' σ', Change_apply change parent s σ = (Ok s', σ') /\ pooled (requests_of s') /\
    (forall n x, good x -> asks x (requests_for s' n) = asks x (requests_for s n) && asks x (named n (made [change]))) /\
    (bmap_wf (st_packages s) -> bmap_wf (st_packages s') /\
       forall n, package_set change <> Some n -> get_current_resolve s' n = get_current_resolve s n).
Proof.
  intros Hback Hs Hm.
  assert (forall s' σ', requests_of s' = requests_of s ->
    st_packages s' = match change with
                     | Change_SetPackage spec source | Change_SetPackageBuild spec source =>
                         bmap_insert (pk_name spec) (CachedHash_spec spec, source, st_id s) (st_packages s)
                     | _ => st_packages s
                     end ->
    made [change] = [] -> Change_apply change parent s σ = (Ok s', σ') ->
    exists s' σ', Change_apply change parent s σ = (Ok s', σ') /\ pooled (requests_of s') /\
    (forall n x, good x -> asks x (requests_for s' n) = asks x (requests_for s n) && asks x (named n (made [change]))) /\
    (bmap_wf (st_packages s) -> bmap_wf (st_packages s') /\
       forall n, package_set change <> Some n -> get_current_resolve s' n = get_current_resolve s n)) as Hsame.
  { intros s' σ' Hr Hpkgs Hmade E. exists s', σ'. unfold requests_for, get_current_resolve. rewrite Hr, Hmade, Hpkgs.
    split_and!; [done..| |].
    - intros n x _. by rewrite andb_true_r.
    - intros Hwf. destruct change; (split; [by try apply bmap_insert_wf|intros n Hn]); cbn in Hn; try done;
        apply bmap_get_insert_ne; congruence. }
  destruct change as [r prioritize|r|options|spec source|spec source|dest counter]; 
    [|eapply Hsame; [..|reflexivity]; reflexivity..|done].
  apply Forall_cons in Hm as [Hr _]. destruct (Hpool (req_name r)) as [Hn Hc].
  destruct (request_package_asked request_priority_order permutations2 ask good (pool (req_name r)) r prioritize
    parent s σ (Hmerges _) Hr) as (s' & σ' & E & Hother & Hin & Ha & _).
  { rewrite Hn. by apply pooled_named. }
  rewrite Hn in Hother, Hin, Ha. exists s', σ'. split; [done|]. split_and!.
  - apply pooled_named. intros n. destruct (decide (n = req_name r)) as [->|Hne]; [done|].
    change (Forall (in_pool (pool n)) (requests_for s' n)). rewrite Hother by done. by apply pooled_named.
  - intros n x Hx. cbn [made omap list_omap request_made]. destruct (decide (req_name r = n)) as [<-|Hne].
    + rewrite named_same, Ha by done. cbn [forallb]. by rewrite andb_true_r.
    + rewrite named_other, Hother by done. cbn [forallb]. by rewrite andb_true_r.
  - intros Hwf. assert (st_packages s' = st_packages s) as Hsp.
    { cbn [SolverState.Change_apply] in E. unfold RequestPackage_apply in E.
      apply SM_bind_Ok in E as ([cloned l] & σ1 & _ & E). apply SM_bind_Ok in E as (l' & σ2 & _ & E).
      by injection E as <- _. }
    unfold get_current_resolve. by rewrite Hsp.
Qed.

(** A decision without steps back always applies.  In the state it makes, what
    is asked of a package is what was asked before and what the decision asks,
    and the packages it does not set are still resolved as they were. *)
Lemma decision_asked changes parent s σ :
  forward changes -> pooled (requests_of s) -> pooled (made changes) -> bmap_wf (st_packages s) ->
  exists s' σ', apply_changes parent s changes σ = (Ok s', σ') /\ pooled (requests_of s') /\
    (forall n x, good x -> asks x (requests_for s' n) = asks x (requests_for s n) && asks x (named n (made changes))) /\
    forall n, Some n ∉ package_set <$> changes -> get_current_resolve s' n = get_current_resolve s n.
Proof.
  intros Hf. revert s σ. induction Hf as [|change changes Hc Hf IH]; intros s σ Hs Hm Hwf.
  { exists s, σ. split_and!; try done. intros n x _. by rewrite andb_true_r. }
  change (change :: changes) with ([change] ++ changes) in Hm. unfold pooled in Hm.
  rewrite made_app, Forall_app in Hm. destruct Hm as [Hm1 Hm2].
  destruct (change_asked change parent s σ Hc Hs Hm1) as (s1 & σ1 & E1 & Hs1 & Ha1 & Hres1).
  destruct (Hres1 Hwf) as [Hwf1 Hget1].
  destruct (IH s1 σ1 Hs1 Hm2 Hwf1) as (s2 & σ2 & E2 & Hs2 & Ha2 & Hres2).
  exists s2, σ2. cbn [SolverState.apply_changes]. split; [|split_and!].
  - unfold mbind, SM_bind. by rewrite E1.
  - done.
  - intros n x Hx. rewrite Ha2, Ha1 by done. change (change :: changes) with ([change] ++ changes).
    rewrite made_app, named_app, forallb_app. by rewrite andb_assoc.
  - intros n Hn. rewrite fmap_cons, elem_of_cons in Hn. rewrite Hres2 by tauto.
    apply Hget1. intros Heq. rewrite Heq in Hn. tauto.
Qed.
End asked.

(** ** The check against what is resolved *)

Lemma not_invalidated state changes :
  reconsider_invalidated_resolve permutations2 state changes = Ok None <->
  Forall (fun r => invalidated_by permutations2 state r = Ok None) (made changes).
Proof.
  induction changes as [|change changes IH]; [by split|].
  destruct change as [r prioritize| | | | |]; try done.
  cbn [reconsider_invalidated_resolve]. change (made (_ :: changes)) with (r :: made changes).
  rewrite Forall_cons, <-IH. destruct (invalidated_by permutations2 state r) as [[problem|]|[]|].
  - split; [done|]. by intros [[=] _].
  - tauto.
  - split; [done|]. by intros [[=] _].
Qed.

Section checked.
Context (Hperm : forall l, hash_order l ≡ₚ l).
Context (Hp2 : permutations2_spec permutations2).

Lemma admits_pool n : merges permutations2 admits plain_version (pool n).
Proof. apply (admits_merges (C := C) hash_order Hperm permutations2 Hp2), Hpool. Qed.
Lemma answers_pool n : merges permutations2 (fun spec r => answers spec r) (usable (C := C)) (pool n).
Proof. apply (answers_merges hash_order Hperm permutations2 Hp2), Hpool. Qed.

Lemma kept_admits state r resolved source id m :
  pooled (requests_of state) -> in_pool (pool (req_name r)) r ->
  get_current_resolve state (req_name r) = Some (resolved, source, id) ->
  get_merged_request permutations2 state (req_name r) = Ok m -> plain_version (spec_version (ch_object resolved)) ->
  invalidated_by permutations2 state r = Ok None -> admits (spec_version (ch_object resolved)) r = true.
Proof.
  intros Hs Hr Hres Hm Hv. unfold invalidated_by, stale_reason. rewrite Hres, Hm.
  destruct (Hpool (req_name r)) as [Hn Hc].
  destruct (get_merged_request_asked permutations2 admits plain_version (pool (req_name r)) state m (admits_pool _)) as [Hin _].
  { rewrite Hn. by apply pooled_named. }
  { by rewrite Hn. }
  destruct (admits_pool (req_name r) m r Hin Hr) as (c & m' & -> & _ & Ha). specialize (Ha _ Hv). cbn [mbind res_bind].
  destruct c as [|reason]; [|done]. destruct Ha as [Ha _]. specialize (Ha eq_refl). unfold admits at 1 in Ha.
  destruct (is_version_applicable (pkg_request m') _); [|done]. intros _. symmetry in Ha.
  by apply andb_true_iff in Ha as [_ ?].
Qed.

(** C17: a decision that passes the check against the packages resolved already
    keeps them acceptable. It applies, and if the version of a resolved package
    that the decision does not set itself fits every request for the package
    before, then the package is resolved as before in the state the decision
    makes, and its version fits every request for it there, the new ones
    included. For requests of pools, which can be merged, packages of versions
    without an epsilon, and decisions without steps back. What a package that
    the decision sets requires of itself is not checked. *)
Theorem decision_keeps_resolves state changes σ live name resolved source id m :
  solve request_priority_order permutations2 σ live -> state ∈ live ->
  forward changes -> pooled (requests_of state) -> pooled (made changes) ->
  Some name ∉ package_set <$> changes ->
  get_current_resolve state name = Some (resolved, source, id) -> plain_version (spec_version (ch_object resolved)) ->
  get_merged_request permutations2 state name = Ok m ->
  forallb (admits (spec_version (ch_object resolved))) (requests_for state name) = true ->
  reconsider_invalidated_resolve permutations2 state changes = Ok None ->
  exists state' σ', Decision_apply changes state σ = (Ok state', σ') /\
    get_current_resolve state' name = Some (resolved, source, id) /\
    forallb (admits (spec_version (ch_object resolved))) (requests_for state' name) = true.
Proof.
  intros Hl Hin Hf Hs Hm Hset Hres Hv Hmerged Hadm Hcheck.
  pose proof (solve_wf _ _ _ _ Hl) as Hwf. rewrite Forall_forall in Hwf. specialize (Hwf _ Hin).
  destruct (decision_asked admits plain_version admits_pool changes state state σ Hf Hs Hm) as
    (state' & σ' & E & _ & Ha & Hget); [apply Hwf|].
  exists state', σ'. split; [done|]. rewrite Hget, Ha, Hadm by done. split; [done|]. cbn [andb].
  apply not_invalidated in Hcheck. apply forallb_forall. intros r.
  unfold named. rewrite filter_In, bool_decide_eq_true, <-list_elem_of_In. intros [Hr <-].
  unfold pooled in Hm. rewrite Forall_forall in Hm, Hcheck. eapply kept_admits; eauto.
Qed.

(** ** What a decision requests *)

(** A request that asks at least what another asks: more components. *)
Record demands (r' r : PkgRequestWithOptions) : Prop := {
  dem_name : req_name r' = req_name r;
  dem_policy : pr_prerelease_policy (pkg_request r') = pr_prerelease_policy (pkg_request r);
  dem_version : ri_version (pr_pkg (pkg_request r')) = ri_version (pr_pkg (pkg_request r));
  dem_build : ri_build (pr_pkg (pkg_request r')) = ri_build (pr_pkg (pkg_request r));
  dem_options : pro_options r' = pro_options r;
  dem_inclusion : pr_inclusion_policy (pkg_request r') = pr_inclusion_policy (pkg_request r);
  dem_components c : c ∈ req_components r -> c ∈ req_components r';
}.
#[local] Instance demands_preorder : PreOrder demands.
Proof.
  split; [by split|]. intros r1 r2 r3 [H1 H2 H3 H4 H5 H6 H7] [K1 K2 K3 K4 K5 K6 K7]. split; try congruence. auto.
Qed.
Lemma demands_answers spec r' r :
  usable (C := C) spec -> demands r' r -> answers spec r' = true -> answers spec r = true.
Proof.
  intros Hspec [Hn Hp Hv Hb Ho _ Hc]. rewrite !answers_iff by done. unfold req_name in Hn.
  rewrite Hn, Hp, Hv, Hb, Ho. intros (? & ? & Hneed & ?). split_and!; try tauto.
  intros c Hall Hneeds. apply Hneed; [done|]. by eapply needs_mono.
Qed.
Lemma with_requester_demands r r' requested_by : with_requester r requested_by = Ok r' -> demands r' r.
Proof.
  intros (q & Hq%total_Ok & [= <-])%bind_Ok. apply bind_Ok in Hq as (key & _ & [= <-]). by split.
Qed.
Lemma with_components_demands components r : req_components r = [] -> demands (with_request_components components r) r.
Proof. intros Hr. split; try done. rewrite Hr. by intros c ?%elem_of_nil. Qed.
Lemma default_components_demands r : demands (default_components r) r.
Proof. unfold default_components. case_bool_decide; [by apply with_components_demands|done]. Qed.
Lemma default_build_demands (component : C) r : demands (default_build_components component r) r.
Proof.
  unfold default_build_components. destruct (bool_decide (co_name component = _)); [|done].
  case_bool_decide; [|done]. destruct (negb _); [by apply with_components_demands|done].
Qed.

(** Lists of changes made one element after another. *)
Lemma concat_changes_Ok {A} (f : A -> res ParentError (list Change)) l changes :
  concat_changes f l = Ok changes -> exists ls, Forall2 (fun x ys => f x = Ok ys) l ls /\ changes = concat ls.
Proof. intros (ls & Hls & [= <-])%bind_Ok. exists ls. by apply try_map_Ok in Hls. Qed.
Lemma concat_changes_elem {A} (f : A -> res ParentError (list Change)) l changes x :
  concat_changes f l = Ok changes -> x ∈ l -> exists ys, f x = Ok ys /\ forall y, y ∈ ys -> y ∈ changes.
Proof.
  intros (ls & Hls & ->)%concat_changes_Ok Hx. apply list_elem_of_lookup in Hx as [i Hi].
  destruct (Forall2_lookup_l _ _ _ _ _ Hls Hi) as (ys & Hys & Hf). exists ys. split; [done|].
  intros y Hy. apply list_elem_of_In, in_concat. exists ys. split; apply list_elem_of_In; [|done].
  by eapply list_elem_of_lookup_2.
Qed.
Lemma concat_changes_forward {A} (f : A -> res ParentError (list Change)) l changes :
  concat_changes f l = Ok changes -> (forall x ys, x ∈ l -> f x = Ok ys -> forward ys) -> forward changes.
Proof.
  intros (ls & Hls & ->)%concat_changes_Ok Hf. unfold forward. apply Forall_concat.
  apply Forall_forall. intros ys Hys. apply list_elem_of_lookup in Hys as [i Hi].
  destruct (Forall2_lookup_r _ _ _ _ _ Hls Hi) as (x & Hx & E). eapply Hf; [|exact E].
  by eapply list_elem_of_lookup_2.
Qed.

Section decided.
Context (Build_from_str : rstr -> option Build).
Context (same_embedded : EmbeddedPackageSpec C -> EmbeddedPackageSpec C -> bool).
Context (entries_order : list (EmbeddedPackageSpec C * list Component) ->
                         list (EmbeddedPackageSpec C * list Component)).
Abbreviation set_package :=
  (set_package (C := C) hash_order permutations2 Build_from_str same_embedded entries_order).
Abbreviation resolve_package :=
  (resolve_package (C := C) hash_order permutations2 Build_from_str same_embedded entries_order).

Section built.
Context (base : State Repo Recipe T) (selected : list Component).

Lemma requirements_changes_forward f requirements requested_by changes :
  (forall r ys, f r = Ok ys -> forward ys) ->
  requirements_changes f requirements requested_by = Ok changes -> forward changes.
Proof.
  intros Hf H. apply (concat_changes_forward _ _ _ H). intros [r|r] ys _.
  - intros (r' & _ & Hy)%bind_Ok. by eapply Hf.
  - intros [= <-]. by constructor.
Qed.
Lemma pkg_request_changes fuel r changes :
  pkg_request_to_changes base fuel r = Ok changes ->
  forward changes /\ Change_RequestPackage (default_components r) false ∈ changes.
Proof.
  revert r changes. induction fuel as [|fuel IH]; intros r changes; [done|]. cbn [Decisions.pkg_request_to_changes].
  assert (forall ys, Ok [RequestPackage_new (default_components r)] = Ok (E := ParentError) ys -> forward ys /\
    Change_RequestPackage (default_components r) false ∈ ys) as Hone.
  { intros ys [= <-]. split; [by constructor|by left]. }
  destruct (get_current_resolve _ _) as [[[resolved source] id]|]; [|by apply Hone].
  destruct (SolverState.get_merged_request _ _ _) as [m|e|]; [|by apply Hone|done].
  case_bool_decide; [by apply Hone|]. intros (more & Hmore & [= <-])%bind_Ok. split; [|by left].
  constructor; [done|]. apply (concat_changes_forward _ _ _ Hmore). intros component ys _. destruct (negb _).
  - intros [= <-]. constructor.
  - apply requirements_changes_forward. by intros q zs [? _]%IH.
Qed.
Lemma requirements_to_changes_forward fuel requirements requested_by changes :
  requirements_to_changes base fuel requirements requested_by = Ok changes -> forward changes.
Proof. apply requirements_changes_forward. by intros r ys [? _]%pkg_request_changes. Qed.
Lemma components_to_changes_forward fuel components requester changes :
  components_to_changes base selected fuel components requester = Ok changes -> forward changes.
Proof.
  intros H. apply (concat_changes_forward _ _ _ H). intros component ys _. destruct (negb _); [by intros [= <-]; constructor|].
  intros H'. apply (concat_changes_forward _ _ _ H'). intros [r|r] zs _.
  - intros (r' & _ & [? _]%pkg_request_changes)%bind_Ok. done.
  - intros [= <-]. by constructor.
Qed.
Lemma embedded_changes_forward (set : T -> PackageSource Repo Recipe -> res ParentError (list Change))
    embedded components parent changes :
  (forall spec source ys, set spec source = Ok ys -> forward ys) ->
  embedded_changes hash_order same_embedded entries_order selected set embedded components parent = Ok changes ->
  forward changes.
Proof.
  intros Hset. unfold embedded_changes. destruct (_ && _).
  - intros H. apply (concat_changes_forward _ _ _ H). intros [e cs] ys _ (r & _ & (zs & Hz & [= <-])%bind_Ok)%bind_Ok.
    constructor; [done|]. by eapply Hset.
  - intros H. apply (concat_changes_forward _ _ _ H). intros e ys _ (r & _ & (zs & Hz & [= <-])%bind_Ok)%bind_Ok.
    constructor; [done|]. by eapply Hset.
Qed.
Lemma set_package_forward depth fuel spec source changes :
  set_package base selected depth fuel spec source = Ok changes -> forward changes.
Proof.
  revert spec source changes. induction depth as [|depth IH]; intros spec source changes; [done|].
  cbn [Decisions.set_package]. intros (parent & Hparent & H)%bind_Ok.
  unfold package_changes in H. apply bind_Ok in H as (required & Hr & H). apply bind_Ok in H as (cs & Hc & H).
  apply bind_Ok in H as (embedded & He & [= <-]). unfold forward. cbn [app]. constructor; [done|].
  rewrite !Forall_app. split_and!.
  - unfold parent_changes in Hparent. destruct (pk_build spec) as [|[p|]|]; try by (injection Hparent as <-).
    apply bind_Ok in Hparent as (q & _ & Hq). by apply pkg_request_changes in Hq as [? _].
  - by eapply requirements_to_changes_forward.
  - by eapply components_to_changes_forward.
  - by eapply embedded_changes_forward.
  - by constructor.
Qed.

(** What a package requires at run time and, of the components that are used. *)
Definition required spec r : Prop :=
  RequestWithOptions_Pkg r ∈ sp_runtime_requirements spec \/
  exists component, component ∈ pk_components spec /\
    co_name component ∈ resolve_uses hash_order (pk_components spec) selected /\
    RequestWithOptions_Pkg r ∈ co_requirements component.

Lemma package_changes_demands set fuel first spec changes r :
  package_changes hash_order permutations2 same_embedded entries_order base selected set fuel first spec = Ok changes ->
  required spec r -> exists r', r' ∈ made changes /\ demands r' r.
Proof.
  intros H. unfold package_changes in H. apply bind_Ok in H as (rs & Hr & H). apply bind_Ok in H as (cs & Hc & H).
  apply bind_Ok in H as (embedded & _ & [= <-]). intros [Hreq|(component & Hin & Hused & Hreq)].
  - destruct (concat_changes_elem _ _ _ _ Hr Hreq) as (ys & Hy & Hsub).
    apply bind_Ok in Hy as (r1 & Hr1 & Hy). apply pkg_request_changes in Hy as [_ Hy].
    exists (default_components r1). split.
    + apply elem_of_made. exists false. rewrite !elem_of_app. right; left. by apply Hsub.
    + etrans; [apply default_components_demands|]. by eapply with_requester_demands.
  - destruct (concat_changes_elem _ _ _ _ Hc Hin) as (ys & Hy & Hsub).
    rewrite bool_decide_eq_true_2 in Hy by done. cbn [negb] in Hy.
    destruct (concat_changes_elem _ _ _ _ Hy Hreq) as (zs & Hz & Hsub').
    apply bind_Ok in Hz as (r1 & Hr1 & Hz). apply pkg_request_changes in Hz as [_ Hz].
    exists (default_components (default_build_components component r1)). split.
    + apply elem_of_made. exists false. rewrite !elem_of_app. right; right; left. by apply Hsub, Hsub'.
    + etrans; [apply default_components_demands|]. etrans; [apply default_build_demands|].
      by eapply with_requester_demands.
Qed.
Lemma set_package_demands depth fuel spec source changes r :
  set_package base selected depth fuel spec source = Ok changes -> required spec r ->
  exists r', r' ∈ made changes /\ demands r' r.
Proof.
  destruct depth as [|depth]; [done|]. cbn [Decisions.set_package]. intros (parent & _ & H)%bind_Ok.
  by eapply package_changes_demands.
Qed.
End built.

(** The decision to resolve a package meets what the package requires.  The
    decision applies, it resolves the package first, and in the state it makes a
    package answers all requests for it only if it answers each request that the
    resolved package, or one of its components that are used, has for it. *)
Theorem resolve_package_meets_requirements base selected depth fuel spec source d σ live :
  solve request_priority_order permutations2 σ live -> base ∈ live ->
  resolve_package base selected depth fuel spec source = Ok d ->
  pooled (requests_of base) -> pooled (made (dec_changes d)) ->
  head (dec_changes d) = Some (Change_SetPackage spec source) /\
  exists state σ', Decision_apply (dec_changes d) base σ = (Ok state, σ') /\
    forall r candidate, required selected spec r -> usable (C := C) candidate ->
      answers_all candidate (requests_for state (req_name r)) = true -> answers candidate r = true.
Proof.
  intros Hl Hin (changes & Hc & [= <-])%bind_Ok Hs Hm. cbn [dec_changes Decision_new] in *. split.
  { destruct depth; [done|]. apply bind_Ok in Hc as (parent & _ & Hc). unfold package_changes in Hc.
    apply bind_Ok in Hc as (rs & _ & Hc). apply bind_Ok in Hc as (cs & _ & Hc).
    by apply bind_Ok in Hc as (embedded & _ & [= <-]). }
  pose proof (solve_wf _ _ _ _ Hl) as Hwf. rewrite Forall_forall in Hwf. specialize (Hwf _ Hin).
  destruct (decision_asked _ _ answers_pool changes base base σ (set_package_forward _ _ _ _ _ _ _ Hc) Hs Hm)
    as (state & σ' & E & _ & Ha & _); [apply Hwf|].
  exists state, σ'. split; [done|]. intros r candidate Hreq Hu Hall.
  destruct (set_package_demands _ _ _ _ _ _ _ _ Hc Hreq) as (r' & Hr' & Hd).
  apply (demands_answers _ _ _ Hu Hd). unfold SolverRequests.answers_all in Hall. rewrite Ha in Hall by done.
  apply andb_true_iff in Hall as [_ Hall]. rewrite forallb_forall in Hall. apply Hall.
  unfold named. rewrite filter_In, bool_decide_eq_true, <-list_elem_of_In. split; [done|apply Hd].
Qed.
End decided.

(** ** Termination *)

Lemma try_map_ext {E A B} (f g : A -> res E B) l : (forall x, x ∈ l -> f x = g x) -> try_map f l = try_map g l.
Proof.
  induction l as [|x l IH]; intros H; [done|]. cbn [try_map]. rewrite H by by left.
  rewrite IH; [done|]. intros y Hy. apply H. by right.
Qed.
Lemma concat_changes_ext {A} (f g : A -> res ParentError (list Change)) l :
  (forall x, x ∈ l -> f x = g x) -> concat_changes f l = concat_changes g l.
Proof. intros H. unfold concat_changes. by rewrite (try_map_ext f g). Qed.
Lemma concat_changes_returns {A} (f : A -> res ParentError (list Change)) l :
  (forall x, x ∈ l -> exists ys, f x = Ok ys) -> exists changes, concat_changes f l = Ok changes.
Proof.
  intros H. unfold concat_changes. assert (exists ls, try_map f l = Ok ls) as [ls ->]; [|by eexists].
  induction l as [|x l IH]; [by eexists|]. destruct (H x) as [ys Hy]; [by left|].
  destruct IH as [ls Hls]; [intros y ?; apply H; by right|]. cbn [try_map]. rewrite Hy, Hls. by eexists.
Qed.

Section ends.
Context (base : State Repo Recipe T).
Context (rank : rstr -> nat).

(** The components of resolved packages require packages of a lower rank only,
    by requests that can be printed. *)
Definition grounded : Prop := forall n resolved source id component r,
  get_current_resolve base n = Some (resolved, source, id) -> component ∈ pk_components (ch_object resolved) ->
  RequestWithOptions_Pkg r ∈ co_requirements component ->
  rank (req_name r) < rank n /\ Forall interval (ri_version (pr_pkg (pkg_request r))).

Lemma default_components_name r : req_name (default_components r) = req_name r.
Proof. apply default_components_demands. Qed.

Lemma pkg_request_to_changes_fuel f1 f2 r :
  grounded -> rank (req_name r) < f1 -> rank (req_name r) < f2 ->
  pkg_request_to_changes base f1 r = pkg_request_to_changes base f2 r.
Proof.
  intros Hg. revert f2 r. induction f1 as [|f1 IH]; intros [|f2] r H1 H2; [lia..|].
  cbn [Decisions.pkg_request_to_changes]. rewrite default_components_name.
  destruct (get_current_resolve base (req_name r)) as [[[resolved source] id]|] eqn:Eres; [|done].
  destruct (SolverState.get_merged_request _ _ _) as [m|e|]; [|done..].
  case_bool_decide; [done|]. f_equal. apply concat_changes_ext. intros component Hc. destruct (negb _); [done|].
  apply concat_changes_ext. intros [q|q] Hq; [|done]. destruct (with_requester _ _) as [q'|e|] eqn:Eq; [|done..].
  cbn [mbind res_bind]. assert (req_name q' = req_name q) as Hn by (by eapply with_requester_demands).
  destruct (Hg _ _ _ _ _ _ Eres Hc Hq). apply IH; rewrite Hn; lia.
Qed.
Lemma pkg_request_to_changes_returns fuel r :
  grounded -> pooled (requests_of base) -> rank (req_name r) < fuel ->
  exists changes, pkg_request_to_changes base fuel r = Ok changes.
Proof.
  intros Hg Hs. revert r. induction fuel as [|fuel IH]; intros r Hr; [lia|].
  cbn [Decisions.pkg_request_to_changes]. rewrite default_components_name.
  destruct (get_current_resolve base (req_name r)) as [[[resolved source] id]|] eqn:Eres; [|by eexists].
  destruct (Hpool (req_name r)) as [Hn Hc].
  pose proof (get_merged_request_pool (C := C) hash_order Hperm permutations2 Hp2 (pool (req_name r)) base Hc) as Hm.
  rewrite Hn in Hm. destruct (SolverState.get_merged_request _ _ _) as [m|e|];
    [|by eexists|destruct Hm; by apply pooled_named].
  case_bool_decide; [by eexists|].
  match goal with |- exists changes, mbind _ (concat_changes ?f ?l) = _ =>
    destruct (concat_changes_returns f l) as [more ->]; [|by eexists] end.
  intros component Hcomponent. destruct (negb _); [by eexists|].
  apply concat_changes_returns. intros [q|q] Hq; [|by eexists].
  destruct (Hg _ _ _ _ _ _ Eres Hcomponent Hq) as [Hlt Hint].
  unfold with_requester, PkgRequest_add_requester. destruct (RangeIdent_to_string_total _ Hint) as [key ->].
  cbn [mbind res_bind total]. apply IH. change (rank (req_name q) < fuel). lia.
Qed.

(** Building the changes for a request ends when the components of the
    packages that are resolved do not require one another in a circle: with a
    rank that requirements lower, any fuel above the rank of the request's
    package gives the same changes, so the recursion has ended. *)
Theorem pkg_request_to_changes_ends r :
  grounded -> pooled (requests_of base) ->
  exists changes, forall fuel, rank (req_name r) < fuel -> pkg_request_to_changes base fuel r = Ok changes.
Proof.
  intros Hg Hs. destruct (pkg_request_to_changes_returns (S (rank (req_name r))) r Hg Hs) as [changes Hc]; [lia|].
  exists changes. intros fuel Hf. rewrite <-Hc. apply pkg_request_to_changes_fuel; [done|lia..].
Qed.
End ends.
End checked.

(** A component of a resolved package that requires itself, when it is not in
    use: the changes for a request for it are never complete.  The components in
    use are those of the base, and do not change on the way. *)
Lemma circular_requirements_never_end base n resolved source id existing component r :
  get_current_resolve base n = Some (resolved, source, id) ->
  get_merged_request permutations2 base n = Ok existing ->
  component ∈ pk_components (ch_object resolved) -> RequestWithOptions_Pkg r ∈ co_requirements component ->
  req_name r = n -> req_components r <> [] ->
  (forall q, req_components q = req_components r ->
     co_name component ∈ added_components hash_order (ch_object resolved) existing q) ->
  forall fuel q changes, pr_pkg (pkg_request q) = pr_pkg (pkg_request r) ->
    pkg_request_to_changes base fuel q <> Ok changes.
Proof.
  intros Hres Hm Hc Hr Hn Hne Hadd fuel. induction fuel as [|fuel IH]; intros q changes Hq; [done|].
  cbn [Decisions.pkg_request_to_changes].
  assert (req_components q = req_components r) as Hcs by (unfold req_components; by rewrite Hq).
  assert (default_components q = q) as -> by (unfold default_components; by rewrite Hcs, bool_decide_eq_false_2).
  assert (req_name q = n) as -> by (unfold req_name in *; by rewrite Hq).
  rewrite Hres, Hm. specialize (Hadd q Hcs). case_bool_decide as Hnil; [by rewrite Hnil in Hadd; apply elem_of_nil in Hadd|].
  intros (more & Hmore & _)%bind_Ok. destruct (concat_changes_elem _ _ _ _ Hmore Hc) as (ys & Hy & _).
  rewrite bool_decide_eq_true_2 in Hy by done. destruct (concat_changes_elem _ _ _ _ Hy Hr) as (zs & Hz & _).
  apply bind_Ok in Hz as (r' & Hr' & Hz). apply bind_Ok in Hr' as (p & Hp%total_Ok & [= <-]).
  apply bind_Ok in Hp as (key & _ & [= <-]). by eapply IH, Hz.
Qed.
End theory.

(** ** A concrete instance

    Every package has the pool of the example, under its own name; components
    require nothing. *)

Definition example_pools (n : rstr) : Pool :=
  mkPool n (pool_repository example_pool) (pool_rules example_pool) (pool_prereleases example_pool)
    (pool_options example_pool).
Lemma example_pools_wf : pools_wf example_pools.
Proof. intros n. split; [done|]. apply example_pool_canonical. Qed.
#[export] Instance ComponentRequires_example : ComponentRequires ExampleComponent := fun _ => [].

Lemma request_pooled (r : PkgRequestWithOptions) : in_pool example_pool r -> in_pool (example_pools (req_name r)) r.
Proof. intros [? ? ? ? ? ? ?]. by split. Qed.

(** A state in which [my-pkg] is resolved. *)
Definition resolved_state : SM ExampleState :=
  State_new [request_from_one] [] [(example_spec, Source_InternalTest)] [].
Definition request_change (r : PkgRequestWithOptions) : Change rstr VersionIdent TupleSpec := RequestPackage_new r.

Lemma decision_keeps_resolves_witness :
  exists (s s' : ExampleState) σ σ',
    resolved_state Store_empty = (Ok s, σ) /\
    Decision_apply [] permutations2_lex [request_change request_below_two] s σ = (Ok s', σ') /\
    forallb (admits (from_parts [1; 5]%N)) (requests_for s' (lit "my-pkg")) = true.
Proof.
  destruct (resolved_state Store_empty) as [[s|e|] σ] eqn:E; [|vm_compute in E; discriminate..].
  assert (solve (C := ExampleComponent) [] permutations2_lex σ [s]) as Hl.
  { eapply solve_new; [apply solve_start|exact E]. }
  assert (requests_of s = [request_from_one]) as Hrs by (vm_compute in E; injection E as <- _; reflexivity).
  destruct (get_merged_request permutations2_lex s (lit "my-pkg")) as [m|e|] eqn:Em;
    [|vm_compute in E; injection E as <- _; vm_compute in Em; discriminate..].
  destruct (get_current_resolve s (lit "my-pkg")) as [[[resolved source] id]|] eqn:Eres;
    [|vm_compute in E; injection E as <- _; vm_compute in Eres; discriminate].
  assert (ch_object resolved = example_spec) as Hspec.
  { vm_compute in E. injection E as <- _. vm_compute in Eres. injection Eres as <- _ _. reflexivity. }
  destruct (decision_keeps_resolves (C := ExampleComponent) [] (fun l => l) permutations2_lex example_pools
    example_pools_wf (fun l => reflexivity l) permutations2_lex_spec s [request_change request_below_two] σ [s]
    (lit "my-pkg") resolved source id m Hl) as (s' & σ' & Ha & _ & H).
  - by left.
  - by constructor.
  - rewrite Hrs. constructor; [|constructor]. apply request_pooled, request_from_one_in.
  - constructor; [|constructor]. apply request_pooled, request_below_two_in.
  - by intros [[=]|[]%elem_of_nil]%elem_of_cons.
  - exact Eres.
  - by rewrite Hspec.
  - exact Em.
  - unfold requests_for. rewrite Hspec, Hrs. by vm_compute.
  - vm_compute in E. injection E as <- _. by vm_compute.
  - exists s, s', σ, σ'. split_and!; [done..|]. by rewrite Hspec in H.
Defined.

(** A package that requires [my-pkg] at run time. *)
Definition example_app : TupleSpec :=
  mkPackageSpec (mkIdent (mkIdent (lit "my-app") (from_parts [1]%N)) Build_empty) Compat_default false []
    InstallSpec_default [RequestWithOptions_Pkg request_from_one].
Definition example_decision (s : ExampleState) :=
  resolve_package (C := ExampleComponent) (fun l => l) permutations2_lex (fun _ => None) (fun _ _ => false)
    (fun l => l) s [ComponentRun] 1 1 example_app Source_InternalTest.

Lemma resolve_package_meets_requirements_witness :
  exists (s s' : ExampleState) σ σ' d,
    State_new [] [] [] [] Store_empty = (Ok s, σ) /\ example_decision s = Ok d /\
    Decision_apply [] permutations2_lex (dec_changes d) s σ = (Ok s', σ') /\
    forall candidate, usable (C := ExampleComponent) candidate ->
      answers_all (C := ExampleComponent) (fun l => l) candidate (requests_for s' (lit "my-pkg")) = true ->
      example_answers candidate request_from_one = true.
Proof.
  destruct (State_new (T := TupleSpec) (C := ExampleComponent) (Repo := rstr) (Recipe := VersionIdent) [] [] [] []
    Store_empty) as [[s|e|] σ] eqn:E; [|vm_compute in E; discriminate..].
  assert (solve (C := ExampleComponent) [] permutations2_lex σ [s]) as Hl.
  { eapply solve_new; [apply solve_start|exact E]. }
  destruct (example_decision s) as [d|e|] eqn:Ed;
    [|vm_compute in E; injection E as <- _; vm_compute in Ed; discriminate..].
  assert (exists r, made (dec_changes d) = [r] /\ in_pool example_pool r) as (r & Hr & Hin).
  { vm_compute in E. injection E as <- _. vm_compute in Ed. injection Ed as <-. eexists. split; [reflexivity|].
    split; [done|by left|by repeat constructor| |done|constructor|done].
    intros x ->%list_elem_of_singleton. by left. }
  destruct (resolve_package_meets_requirements (C := ExampleComponent) [] (fun l => l) permutations2_lex
    example_pools example_pools_wf (fun l => reflexivity l) permutations2_lex_spec (fun _ => None) (fun _ _ => false)
    (fun l => l) s [ComponentRun] 1 1 example_app Source_InternalTest d σ [s] Hl)
    as (_ & s' & σ' & Ha & H).
  - by left.
  - exact Ed.
  - vm_compute in E. injection E as <- _. constructor.
  - rewrite Hr. constructor; [|constructor]. by apply request_pooled.
  - exists s, s', σ, σ', d. split_and!; [done..|]. intros candidate Hu Hall. apply H; [|done..]. left. by left.
Defined.

Lemma pkg_request_to_changes_ends_witness :
  exists (s : ExampleState) σ changes,
    resolved_state Store_empty = (Ok s, σ) /\
    pkg_request_to_changes (C := ExampleComponent) (fun l => l) permutations2_lex s 1 request_below_two = Ok changes.
Proof.
  destruct (resolved_state Store_empty) as [[s|e|] σ] eqn:E; [|vm_compute in E; discriminate..].
  destruct (pkg_request_to_changes_ends (C := ExampleComponent) (fun l => l) permutations2_lex example_pools
    example_pools_wf (fun l => reflexivity l) permutations2_lex_spec s (fun _ => 0) request_below_two) as [changes H].
  - by intros n resolved source id component r _ _ ?%elem_of_nil.
  - assert (requests_of s = [request_from_one]) as -> by (vm_compute in E; injection E as <- _; reflexivity).
    constructor; [|constructor]. apply request_pooled, request_from_one_in.
  - exists s, σ, changes. split; [done|]. apply H. constructor.
Defined.

(** The build component of a package that requires itself, requested when only
    the run component is in use. *)
Definition request_build : PkgRequestWithOptions := with_request_components [ComponentBuild] request_from_one.
Lemma circular_requirement_example :
  exists (s : ExampleState) σ, resolved_state Store_empty = (Ok s, σ) /\
    forall fuel changes,
      pkg_request_to_changes (C := ExampleComponent) (ComponentRequires0 := fun _ => [RequestWithOptions_Pkg request_build])
        (fun l => l) permutations2_lex s fuel request_build <> Ok changes.
Proof.
  destruct (resolved_state Store_empty) as [[s|e|] σ] eqn:E; [|vm_compute in E; discriminate..].
  exists s, σ. split; [done|]. intros fuel changes.
  destruct (get_merged_request permutations2_lex s (lit "my-pkg")) as [m|e|] eqn:Em;
    [|vm_compute in E; injection E as <- _; vm_compute in Em; discriminate..].
  destruct (get_current_resolve s (lit "my-pkg")) as [[[resolved source] id]|] eqn:Eres;
    [|vm_compute in E; injection E as <- _; vm_compute in Eres; discriminate].
  assert (ch_object resolved = example_spec) as Hspec.
  { vm_compute in E. injection E as <- _. vm_compute in Eres. injection Eres as <- _ _. reflexivity. }
  eapply (circular_requirements_never_end (C := ExampleComponent)
    (ComponentRequires0 := fun _ => [RequestWithOptions_Pkg request_build])); [exact Eres|exact Em| | | | | |reflexivity].
  - rewrite Hspec. by left.
  - by left.
  - done.
  - done.
  - intros q Hq. rewrite Hspec. unfold added_components. rewrite Hq.
    vm_compute in E. injection E as <- _. vm_compute in Em. injection Em as <-. vm_compute. left.
Qed.
