(* ===== verification/BuildKeys.v ===== *)
(** * Build keys

    Models crates/spk-solve/crates/package-iterator/src/build_key.rs: the keys by
    which the builds of a version are ordered, with their derived order.  The
    parser of version ranges and the standard library's hasher are parameters. *)

From S2P Require Import Prelude Strings Collections Names Version VersionOrder.
From S2P Require Import Compat RangeData Reasons VersionRange Components Options Idents.

(** ** Version numbers *)

Inductive BuildKeyVersionNumberPiece := Piece_Number (n : N) | Piece_Text (s : rstr).
Definition piece_key (p : BuildKeyVersionNumberPiece) : nat * (N * rstr) :=
  match p with Piece_Number n => (0, (n, [])) | Piece_Text s => (1, (0%N, s)) end.
#[export] Instance cmp_piece : Cmp BuildKeyVersionNumberPiece := cmp_on piece_key.
#[export] Instance piece_key_inj : Inj (=) (=) piece_key.
Proof. intros [] []; simpl; congruence. Qed.
#[export] Instance cmp_piece_laws : CmpLaws BuildKeyVersionNumberPiece.
Proof. by apply (cmp_laws_by_key piece_key). Qed.
#[export] Instance cmp_piece_leibniz : CmpLeibniz BuildKeyVersionNumberPiece.
Proof. by apply (cmp_leibniz_by_key piece_key). Qed.

Record BuildKeyVersionNumber := mkBuildKeyVersionNumber {
  bkv_digits : list BuildKeyVersionNumberPiece;
  bkv_epsilon : Epsilon;
  bkv_posttag : option (list BuildKeyVersionNumberPiece);
  bkv_notags : bool;
  bkv_pretag : option (list BuildKeyVersionNumberPiece);
}.
Definition version_number_key (v : BuildKeyVersionNumber) :=
  (bkv_digits v, (bkv_epsilon v, (bkv_posttag v, (bkv_notags v, bkv_pretag v)))).
#[export] Instance cmp_version_number : Cmp BuildKeyVersionNumber := cmp_on version_number_key.
#[export] Instance version_number_key_inj : Inj (=) (=) version_number_key.
Proof. intros [] []. unfold version_number_key. simpl. congruence. Qed.
#[export] Instance cmp_version_number_laws : CmpLaws BuildKeyVersionNumber.
Proof. by apply (cmp_laws_by_key version_number_key). Qed.
#[export] Instance cmp_version_number_leibniz : CmpLeibniz BuildKeyVersionNumber.
Proof. by apply (cmp_leibniz_by_key version_number_key). Qed.

(** The pieces of a set of release tags. *)
Definition tag_pieces (t : TagSet) : option (list BuildKeyVersionNumberPiece) :=
  if TagSet_is_empty t then None
  else Some (concat ((fun e => [Piece_Text e.1; Piece_Number e.2]) <$> tags t)).
Definition BuildKeyVersionNumber_new (v : Version) : BuildKeyVersionNumber :=
  let digits := Piece_Number <$> parts (vparts v) in
  let posttag := tag_pieces (post v) in
  let pretag := tag_pieces (pre v) in
  mkBuildKeyVersionNumber digits (epsilon (vparts v)) posttag
    (bool_decide (pretag = None) && bool_decide (posttag = None)) pretag.

Definition piece_to_string (p : BuildKeyVersionNumberPiece) : rstr :=
  match p with Piece_Number n => dec n | Piece_Text s => s end.
Definition pieces_to_string (ps : list BuildKeyVersionNumberPiece) : rstr := join [c_dot] (piece_to_string <$> ps).
Definition BuildKeyVersionNumber_to_string (self : BuildKeyVersionNumber) : rstr :=
  pieces_to_string (bkv_digits self)
  ++ (if length (bkv_digits self) <? 3 then lit ".0" else [])
  ++ match bkv_pretag self with Some tag => [c_hyphen] ++ pieces_to_string tag | None => [] end
  ++ match bkv_posttag self with Some tag => [c_plus] ++ pieces_to_string tag | None => [] end.

(** ** Version ranges *)

Record BuildKeyExpandedVersionRange := mkExpandedVersionRange {
  bke_max : BuildKeyVersionNumber;
  bke_min : BuildKeyVersionNumber;
  bke_tie_breaker : N;
}.
Definition expanded_key (r : BuildKeyExpandedVersionRange) := (bke_max r, (bke_min r, bke_tie_breaker r)).
#[export] Instance cmp_expanded : Cmp BuildKeyExpandedVersionRange := cmp_on expanded_key.
#[export] Instance expanded_key_inj : Inj (=) (=) expanded_key.
Proof. intros [] []. unfold expanded_key. simpl. congruence. Qed.
#[export] Instance cmp_expanded_laws : CmpLaws BuildKeyExpandedVersionRange.
Proof. by apply (cmp_laws_by_key expanded_key). Qed.
#[export] Instance cmp_expanded_leibniz : CmpLeibniz BuildKeyExpandedVersionRange.
Proof. by apply (cmp_leibniz_by_key expanded_key). Qed.
Definition BuildKeyExpandedVersionRange_to_string (self : BuildKeyExpandedVersionRange) : rstr :=
  BuildKeyVersionNumber_to_string (bke_max self) ++ lit ">v>=" ++ BuildKeyVersionNumber_to_string (bke_min self)
  ++ lit ":" ++ dec (bke_tie_breaker self).

(** ** Entries *)

Inductive BuildKeyEntry :=
| Entry_PossibleRequests (possible : bool)
| Entry_NotSet
| Entry_Text (s : rstr)
| Entry_ExpandedVersion (v : BuildKeyExpandedVersionRange).
Definition entry_key (e : BuildKeyEntry) : nat * (bool * (rstr * option BuildKeyExpandedVersionRange)) :=
  match e with
  | Entry_PossibleRequests b => (0, (b, ([], None)))
  | Entry_NotSet => (1, (false, ([], None)))
  | Entry_Text s => (2, (false, (s, None)))
  | Entry_ExpandedVersion v => (3, (false, ([], Some v)))
  end.
#[export] Instance cmp_entry : Cmp BuildKeyEntry := cmp_on entry_key.
#[export] Instance entry_key_inj : Inj (=) (=) entry_key.
Proof. intros [] []; simpl; congruence. Qed.
#[export] Instance cmp_entry_laws : CmpLaws BuildKeyEntry.
Proof. by apply (cmp_laws_by_key entry_key). Qed.
#[export] Instance cmp_entry_leibniz : CmpLeibniz BuildKeyEntry.
Proof. by apply (cmp_leibniz_by_key entry_key). Qed.
Definition BuildKeyEntry_to_string (self : BuildKeyEntry) : rstr :=
  match self with
  | Entry_PossibleRequests b => lit "All possible: " ++ (if b then lit "true" else lit "false")
  | Entry_NotSet => lit "NotSet"
  | Entry_Text s => s
  | Entry_ExpandedVersion v => BuildKeyExpandedVersionRange_to_string v
  end.

(** ** Keys *)

Inductive BuildKey :=
| Key_Src
| Key_Embed (ident : IdentPartsBuf)
| Key_Binary (entries : list BuildKeyEntry).

Definition ident_parts_key (i : IdentPartsBuf) : option rstr * (rstr * (option rstr * option rstr)) :=
  (ip_repository_name i, (ip_pkg_name i, (ip_version_str i, ip_build_str i))).
#[export] Instance cmp_ident_parts : Cmp IdentPartsBuf := cmp_on ident_parts_key.
#[export] Instance ident_parts_key_inj : Inj (=) (=) ident_parts_key.
Proof. intros [] []. unfold ident_parts_key. simpl. congruence. Qed.
#[export] Instance cmp_ident_parts_laws : CmpLaws IdentPartsBuf.
Proof. by apply (cmp_laws_by_key ident_parts_key). Qed.
#[export] Instance cmp_ident_parts_leibniz : CmpLeibniz IdentPartsBuf.
Proof. by apply (cmp_leibniz_by_key ident_parts_key). Qed.

Definition build_key_key (k : BuildKey) : nat * (option IdentPartsBuf * list BuildKeyEntry) :=
  match k with
  | Key_Src => (0, (None, []))
  | Key_Embed i => (1, (Some i, []))
  | Key_Binary l => (2, (None, l))
  end.
#[export] Instance cmp_build_key : Cmp BuildKey := cmp_on build_key_key.
#[export] Instance build_key_key_inj : Inj (=) (=) build_key_key.
Proof. intros [] []; simpl; congruence. Qed.
#[export] Instance cmp_build_key_laws : CmpLaws BuildKey.
Proof. by apply (cmp_laws_by_key build_key_key). Qed.
#[export] Instance cmp_build_key_leibniz : CmpLeibniz BuildKey.
Proof. by apply (cmp_leibniz_by_key build_key_key). Qed.

Definition BuildKey_to_string (self : BuildKey) : rstr :=
  match self with
  | Key_Src => lit "Src"
  | Key_Embed _ => lit "Embed"
  | Key_Binary v => join (lit ", ") (BuildKeyEntry_to_string <$> v)
  end.

Section keys.
Context (parse_version_range : rstr -> res rstr VersionRange).
(** [DefaultHasher] of a string. *)
Context (hash_str : rstr -> N).

Definition generate_tie_breaker (value : rstr) : N := hash_str value.
Definition parse_from_range_value (range : rstr) : res rstr BuildKeyExpandedVersionRange :=
  filter ← parse_version_range range;
  Ok (mkExpandedVersionRange
        (BuildKeyVersionNumber_new (default (Version_new u32_max u32_max u32_max) (less_than filter)))
        (BuildKeyVersionNumber_new (default (Version_new 0 0 0) (greater_or_equal_to filter)))
        (generate_tie_breaker range)).

(** The entry of an option: a range, up to a slash, or a text. *)
Definition option_entry (value : option rstr) : res Empty_set BuildKeyEntry :=
  match value with
  | Some value =>
      match parse_from_range_value (default [] (head (split c_slash value))) with
      | Ok expanded_version => Ok (Entry_ExpandedVersion expanded_version)
      | Err _ => Ok (Entry_Text value)
      | Panicked => Panicked
      end
  | None => Ok Entry_NotSet
  end.
Definition BuildKey_new (pkg : BuildIdent) (ordering : list rstr) (name_values : OptionMap)
    (makes_an_impossible_request : bool) : res Empty_set BuildKey :=
  match id_target pkg with
  | BuildSource => Ok Key_Src
  | BuildEmbedded (EmbeddedPackage package) => Ok (Key_Embed (esp_ident package))
  | _ =>
      entries ← try_map (fun name => option_entry (bmap_get name name_values)) ordering;
      Ok (Key_Binary ([Entry_PossibleRequests (negb makes_an_impossible_request)] ++ entries ++
                      [Entry_Text (Build_digest (id_target pkg))]))
  end.

(** ** The order of keys *)

(** The class of a build: sources below embedded stubs below all others, and of
    these the ones with impossible requests below. *)
Definition build_class (pkg : BuildIdent) (impossible : bool) : nat :=
  match id_target pkg with
  | BuildSource => 0
  | BuildEmbedded (EmbeddedPackage _) => 1
  | _ => if impossible then 2 else 3
  end.
Lemma BuildKey_new_shape pkg names values i k :
  BuildKey_new pkg names values i = Ok k ->
  match build_class pkg i with
  | 0 => k = Key_Src
  | 1 => exists ident, k = Key_Embed ident
  | n => exists rest, k = Key_Binary (Entry_PossibleRequests (n =? 3) :: rest)
  end.
Proof.
  unfold BuildKey_new, build_class. destruct (id_target pkg) as [|[e|]|d].
  - by intros [= <-].
  - intros [= <-]. by eexists.
  - intros (entries & _ & [= <-])%bind_Ok. destruct i; by eexists.
  - intros (entries & _ & [= <-])%bind_Ok. destruct i; by eexists.
Qed.
Lemma build_key_class pkg pkg' names values values' i i' k k' :
  BuildKey_new pkg names values i = Ok k -> BuildKey_new pkg' names values' i' = Ok k' ->
  cle k k' -> build_class pkg i <= build_class pkg' i'.
Proof.
  intros H1%BuildKey_new_shape H2%BuildKey_new_shape Hle.
  assert (build_class pkg i < 4) by (unfold build_class; destruct (id_target pkg) as [|[]|], i; lia).
  assert (build_class pkg' i' < 4) by (unfold build_class; destruct (id_target pkg') as [|[]|], i'; lia).
  destruct (build_class pkg i) as [|[|[|[|]]]], (build_class pkg' i') as [|[|[|[|]]]]; try lia; exfalso;
    repeat match goal with H : exists _, _ |- _ => destruct H end; subst; by destruct Hle.
Qed.
End keys.

(** ** Keys of versions *)

Lemma cmp_list_cons {A} `{Cmp A} (x y : A) l k : cmp (x :: l) (y :: k) = thenc (cmp x y) (cmp l k).
Proof. done. Qed.
Lemma cmp_piece_number (v v' : N) : cmp (Piece_Number v) (Piece_Number v') = cmp v v'.
Proof. unfold cmp at 1, cmp_piece, cmp_on, piece_key. rewrite !cmp_pair. cbn. by destruct (cmp v v'). Qed.
Lemma pieces_cmp (l k : list (rstr * N)) :
  cmp (concat ((fun e => [Piece_Text e.1; Piece_Number e.2]) <$> l))
      (concat ((fun e => [Piece_Text e.1; Piece_Number e.2]) <$> k)) = cmp l k.
Proof.
  revert k. induction l as [|[n v] l IH]; intros [|[n' v'] k]; try done.
  rewrite !fmap_cons. cbn [concat app fst snd]. rewrite !cmp_list_cons, cmp_piece_number, IH, cmp_pair.
  change (cmp (Piece_Text n) (Piece_Text n')) with (cmp n n'). by destruct (cmp n n'), (cmp v v').
Qed.
Lemma tag_pieces_cmp (a b : TagSet) : TagSet_wf a -> TagSet_wf b -> cmp (tag_pieces a) (tag_pieces b) = cmp a b.
Proof.
  intros Ha Hb. rewrite TagSet_cmp_spec, !TagSet_sorted by done.
  destruct a as [[|e l]], b as [[|e' k]]; try done. unfold tag_pieces. cbn [TagSet_is_empty tags length Nat.eqb].
  exact (pieces_cmp (e :: l) (e' :: k)).
Qed.

(** The parts of versions with the same number of parts. *)
Lemma cmp_strip0_same_length l k : length l = length k -> cmp (strip0 l) (strip0 k) = cmp l k.
Proof.
  revert k. induction l as [|x l IH]; intros [|y k]; try done. intros [= Hlen]. specialize (IH k Hlen).
  rewrite cmp_list_cons, <-IH.
  destruct (strip0_cases x l) as [[Hx ->]|(-> & Hl & ->)], (strip0_cases y k) as [[Hy ->]|(-> & Hk & ->)].
  - by rewrite cmp_list_cons.
  - rewrite Hk. destruct (strip0 l) as [|z l']; cbn.
    + destruct x; [by destruct Hx|done].
    + by destruct x.
  - rewrite Hl. destruct (strip0 k) as [|z k']; cbn.
    + destruct y; [by destruct Hy|done].
    + by destruct y.
  - by rewrite Hl, Hk.
Qed.

Lemma digits_cmp (l k : list N) : cmp (Piece_Number <$> l) (Piece_Number <$> k) = cmp l k.
Proof.
  revert k. induction l as [|x l IH]; intros [|y k]; try done.
  rewrite !fmap_cons, !cmp_list_cons, IH. by rewrite cmp_piece_number.
Qed.

(** The keys of versions order them as the versions are ordered, when they
    are written with the same number of parts and neither has both pre- and
    post-release tags. *)
Theorem build_key_orders_versions a b :
  Version_wf a -> Version_wf b ->
  length (parts (vparts a)) = length (parts (vparts b)) ->
  (TagSet_is_empty (pre a) || TagSet_is_empty (post a)) = true ->
  (TagSet_is_empty (pre b) || TagSet_is_empty (post b)) = true ->
  cmp (BuildKeyVersionNumber_new a) (BuildKeyVersionNumber_new b) = cmp a b.
Proof.
  intros [Ha1 Ha2] [Hb1 Hb2] Hlen Hta Htb. rewrite Version_cmp_key. unfold version_key.
  unfold cmp at 1, cmp_version_number, cmp_on, version_number_key, BuildKeyVersionNumber_new.
  cbn [bkv_digits bkv_epsilon bkv_posttag bkv_notags bkv_pretag].
  rewrite !cmp_pair, digits_cmp, cmp_strip0_same_length, !tag_pieces_cmp, <-!TagSet_cmp_spec by done.
  f_equal. f_equal. unfold tag_pieces.
  assert (forall t u : TagSet, TagSet_is_empty t = true -> TagSet_is_empty u = true -> cmp t u = Eq) as Hee.
  { intros t u H1%TagSet_is_empty_nil H2%TagSet_is_empty_nil. rewrite TagSet_cmp_spec. by rewrite H1, H2. }
  assert (forall t u : TagSet, TagSet_is_empty t = true -> TagSet_is_empty u = false -> cmp t u = Lt) as Hef.
  { intros t u H1%TagSet_is_empty_nil H2. destruct t as [l]. cbn in H1. subst l. destruct u as [[|[]]]; [done|].
    reflexivity. }
  assert (forall t u : TagSet, TagSet_is_empty t = false -> TagSet_is_empty u = true -> cmp t u = Gt) as Hfe.
  { intros t u H1 H2. rewrite cmp_antisym. by rewrite Hef. }
  destruct (TagSet_is_empty (pre a)) eqn:E1, (TagSet_is_empty (post a)) eqn:E2,
    (TagSet_is_empty (pre b)) eqn:E3, (TagSet_is_empty (post b)) eqn:E4; try done; cbn;
    rewrite ?(Hee _ _ E1 E3), ?(Hee _ _ E2 E4), ?(Hef _ _ E2 E4), ?(Hfe _ _ E2 E4), ?(Hef _ _ E1 E3), ?(Hfe _ _ E1 E3);
    cbn; try done; by destruct (cmp _ _).
Qed.

Definition tagged (ps : list N) (p q : TagSet) : Version := mkVersion (VersionParts_from ps) p q.
Lemma build_key_orders_versions_witness :
  cmp (from_parts [1; 10]%N) (from_parts [1; 9]%N) = Gt /\
  cmp (BuildKeyVersionNumber_new (from_parts [1; 10]%N)) (BuildKeyVersionNumber_new (from_parts [1; 9]%N)) = Gt.
Proof.
  assert (cmp (from_parts [1; 10]%N) (from_parts [1; 9]%N) = Gt) as H by reflexivity.
  split; [exact H|]. rewrite <-H. apply build_key_orders_versions; [by repeat constructor..|done|done|done].
Defined.

(** Written with different numbers of parts, or with both sorts of tags, versions
    may get keys in the other order. *)
Lemma build_key_part_count :
  let a := tagged [1; 1]%N (mkTagSet []) (mkTagSet [(lit "r", 1%N)]) in
  let b := from_parts [1; 1; 0]%N in
  cmp a b = Gt /\ cmp (BuildKeyVersionNumber_new a) (BuildKeyVersionNumber_new b) = Lt.
Proof. by split; vm_compute. Qed.
Lemma build_key_both_tags :
  let a := tagged [1]%N (mkTagSet [(lit "beta", 1%N)]) (mkTagSet [(lit "r", 1%N)]) in
  let b := from_parts [1]%N in
  cmp a b = Lt /\ cmp (BuildKeyVersionNumber_new a) (BuildKeyVersionNumber_new b) = Gt.
Proof. by split; vm_compute. Qed.
