(* ===== verification/PackageIterators.v ===== *)
(** * Package iterators

    Models crates/spk-solve/crates/package-iterator/src/package_iterator.rs: the
    cursors from which the solver takes versions and builds of a package, and
    the order of builds.  A repository answers the same throughout a solve; how
    it answers is a parameter, as are the orders in which [HashMap]s are walked.
    A map with keys that are compared by a derived equality is the list of its
    entries. *)

From stdpp Require Import gmap.
From S2P Require Import Prelude Strings Collections Names Version VersionOrder VersionText.
From S2P Require Import Compat RangeData Reasons CompatCheck VersionRange Components Options Idents.
From S2P Require Import Requests RequestEq Opts Requirements ComponentSpecs Satisfy Embedded PackageSpec.
From S2P Require Import Encoding Solution SolverState Validation BuildKeys.

(** ** Maps by an equality *)

Section hash_map.
Context {K V : Type} (eqb : K -> K -> bool).
Fixpoint hm_get (k : K) (m : list (K * V)) : option V :=
  match m with [] => None | (k', v) :: m => if eqb k' k then Some v else hm_get k m end.
(** [insert]: the key that is there stays. *)
Fixpoint hm_insert (k : K) (v : V) (m : list (K * V)) : list (K * V) :=
  match m with
  | [] => [(k, v)]
  | (k', v') :: m => if eqb k' k then (k', v) :: m else (k', v') :: hm_insert k v m
  end.
End hash_map.

(** ** Repositories *)

(** What the iterators ask of a repository; the two errors they tell apart. *)
Class RepoOps (Repo Recipe T Error : Type) := {
  list_package_versions : Repo -> rstr -> res Error (list Version);
  list_package_builds : Repo -> VersionIdent -> res Error (list BuildIdent);
  repo_recipe : Repo -> VersionIdent -> res Error Recipe;
  read_package : Repo -> BuildIdent -> res Error T;
  read_components : Repo -> BuildIdent -> res Error (list (Component * Digest));
  is_package_not_found : Error -> bool;
  is_invalid_package_spec : Error -> bool;
}.

(** [Error], of the crate. *)
Inductive IteratorError (Error : Type) :=
| IteratorStorage (e : Error)
| IteratorPackageNotFound (name : rstr)
| VersionNotInMap.
Arguments IteratorStorage {Error} e.
Arguments IteratorPackageNotFound {Error} name.
Arguments VersionNotInMap {Error}.

Section iterators.
Context {Repo Recipe T C Error Pattern : Type} `{!SourceOps Repo Recipe} `{!Versioned T, !ComponentOps C, !Package T C}.
Context `{!ComponentEmbeds C, !SolverPackage T C, !RepoOps Repo Recipe T Error, !GlobOps Pattern}.
(** The configured [BUILD_KEY_NAME_ORDER]; the parser of ranges and the hasher. *)
Context (build_key_name_order : list Pattern).
Context (parse_version_range : rstr -> res rstr VersionRange) (hash_str : rstr -> N).
(** The order of the entries of [builds_and_repos] and of the keys of
    [version_map]. *)
Context (builds_order : list (BuildIdent * list (rstr * Repo)) -> list (BuildIdent * list (rstr * Repo))).
Context (versions_order : list Version -> list Version).

Abbreviation Source := (PackageSource Repo Recipe).
Abbreviation Result A := (res (IteratorError Error) A).

Definition storage {A} (r : res Error A) : Result A :=
  match r with Ok a => Ok a | Err e => Err (IteratorStorage e) | Panicked => Panicked end.
Definition not_found {A} (r : res Error A) : bool :=
  match r with Err e => is_package_not_found (Repo := Repo) (Recipe := Recipe) (T := T) e | _ => false end.
(** [Err(PackageNotFound) => a]. *)
Definition or_if_not_found {A} (r : res Error A) (a : A) : Result A :=
  if not_found r then Ok a else storage r.

(** ** Builds *)

(** One build, with its specification and source in each repository. *)
Definition BuildWithRepos : Type := list (rstr * (T * Source)).

Inductive BuildIterator :=
| RepositoryBuildIterator (builds : list (BuildIdent * list (rstr * Repo)))
| EmptyBuildIterator
| SortedBuildIterator (builds : list BuildWithRepos).
Definition builds_is_empty (self : BuildIterator) : bool :=
  match self with
  | RepositoryBuildIterator builds => bool_decide (builds = [])
  | EmptyBuildIterator => true
  | SortedBuildIterator builds => bool_decide (builds = [])
  end.
Definition is_sorted_build_iterator (self : BuildIterator) : bool :=
  match self with SortedBuildIterator _ => true | _ => false end.
Definition builds_len (self : BuildIterator) : nat :=
  match self with
  | RepositoryBuildIterator builds => length builds
  | EmptyBuildIterator => 0
  | SortedBuildIterator builds => length builds
  end.

(** A build from the repositories that have it; [None] when one of them has no
    specification for it. *)
Fixpoint read_build (build : BuildIdent) (repos : list (rstr * Repo)) (result : BuildWithRepos) :
    Result (option BuildWithRepos) :=
  match repos with
  | [] => Ok (Some result)
  | (repo_name, repo) :: repos =>
      if not_found (read_package repo build) then Ok None
      else
        spec ← storage (read_package repo build);
        components ← or_if_not_found (read_components repo build) [];
        read_build build repos (hm_insert (fun a b => bool_decide (a = b)) repo_name (spec, Source_Repository repo components) result)
  end.
Fixpoint next_build (builds : list (BuildIdent * list (rstr * Repo))) :
    Result (option BuildWithRepos) * list (BuildIdent * list (rstr * Repo)) :=
  match builds with
  | [] => (Ok None, [])
  | (build, repos) :: builds =>
      match read_build build repos [] with
      | Ok None => next_build builds
      | result => (result, builds)
      end
  end.
Definition builds_next (self : BuildIterator) : Result (option BuildWithRepos) * BuildIterator :=
  match self with
  | RepositoryBuildIterator builds =>
      let '(result, builds) := next_build builds in (result, RepositoryBuildIterator builds)
  | EmptyBuildIterator => (Ok None, EmptyBuildIterator)
  | SortedBuildIterator [] => (Ok None, SortedBuildIterator [])
  | SortedBuildIterator (build :: builds) => (Ok (Some build), SortedBuildIterator builds)
  end.

(** [RepositoryBuildIterator::new]. *)
Definition add_build (embedded_stubs : bool) (repo_name : rstr) (repo : Repo)
    (builds_and_repos : list (BuildIdent * list (rstr * Repo))) (build : BuildIdent) :
    list (BuildIdent * list (rstr * Repo)) :=
  if xorb embedded_stubs (Build_is_embedded (id_target build)) then builds_and_repos
  else hm_insert BuildIdent_eq build
         (hm_insert (fun a b => bool_decide (a = b)) repo_name repo (default [] (hm_get BuildIdent_eq build builds_and_repos)))
         builds_and_repos.
Fixpoint add_builds (pkg : VersionIdent) (embedded_stubs : bool) (repos : list (rstr * Repo))
    (builds_and_repos : list (BuildIdent * list (rstr * Repo))) (recipe : option Recipe) :
    Result (list (BuildIdent * list (rstr * Repo))) :=
  match repos with
  | [] => Ok builds_and_repos
  | (repo_name, repo) :: repos =>
      builds ← storage (list_package_builds repo pkg);
      let builds_and_repos := foldl (add_build embedded_stubs repo_name repo) builds_and_repos builds in
      recipe ←
        match recipe with
        | Some recipe => Ok (Some recipe)
        | None =>
            if not_found (repo_recipe repo pkg) then Ok None
            else spec ← storage (repo_recipe repo pkg); Ok (Some spec)
        end;
      add_builds pkg embedded_stubs repos builds_and_repos recipe
  end.
(** The key is [!is_source]. *)
Definition RepositoryBuildIterator_new (pkg : VersionIdent) (repos : list (rstr * Repo)) (embedded_stubs : bool) :
    Result BuildIterator :=
  builds_and_repos ← add_builds pkg embedded_stubs repos [] None;
  Ok (RepositoryBuildIterator
        (sort_by_key (fun e => negb (Build_is_source (id_target e.1))) (builds_order builds_and_repos))).

(** ** Sorting builds *)

Record ChangeCounter := mkChangeCounter { cc_last : rstr; cc_count : N; cc_use_it : bool }.
Definition count_option (changes : list (rstr * ChangeCounter)) (option : rstr * rstr) : list (rstr * ChangeCounter) :=
  let '(name, value) := option in
  let counter := default (mkChangeCounter value 0 false) (bmap_get name changes) in
  bmap_insert name
    (mkChangeCounter (cc_last counter) (u64_add (cc_count counter) 1)
       (cc_use_it counter || negb (bool_decide (cc_last counter = value)))) changes.
(** The loop over the builds: how many are binary, their options, and the
    changes of each option. *)
Definition count_build (acc : N * list (BuildIdent * OptionMap) * list (rstr * ChangeCounter)) (build : T) :
    N * list (BuildIdent * OptionMap) * list (rstr * ChangeCounter) :=
  let '(number_non_src_builds, build_name_values, changes) := acc in
  if Build_is_source (pk_build build) then acc
  else
    let options_map := sp_option_values build in
    (u64_add number_non_src_builds 1, hm_insert BuildIdent_eq (pk_ident build) options_map build_name_values,
     foldl count_option changes options_map).
Definition sort_builds (builds : list T) : list rstr * list (BuildIdent * OptionMap) :=
  let '(number_non_src_builds, build_name_values, changes) := foldl count_build (0%N, [], []) builds in
  let key_entry_names :=
    List.map fst (List.filter (fun e => cc_use_it e.2 || negb (cc_count e.2 =? number_non_src_builds)%N) changes) in
  (promote_names build_key_name_order (fun n => n) (sort_slice key_entry_names), build_name_values).

Definition make_option_values_build_key (spec : T) (ordered_names : list rstr)
    (build_name_values : list (BuildIdent * OptionMap)) (makes_an_impossible_request : bool) : res Empty_set BuildKey :=
  BuildKey_new parse_version_range hash_str (pk_ident spec) ordered_names
    (default [] (hm_get BuildIdent_eq (pk_ident spec) build_name_values)) makes_an_impossible_request.

(** [sort_by_build_option_values]; the [expect] panics for a build of no
    repository, when there are at least two builds and keys are computed. *)
Definition build_key_of (names : list rstr) (values : list (BuildIdent * OptionMap)) (impossible : BuildIdent -> bool)
    (hm : BuildWithRepos) : res Empty_set BuildKey :=
  match hm with
  | [] => Panicked
  | (_, (spec, _)) :: _ => make_option_values_build_key spec names values (impossible (pk_ident spec))
  end.
Definition specs_of (hm : BuildWithRepos) : list T := List.map (fun e => e.2.1) hm.
(** [sort_by_cached_key] of [Reverse(key)]: a stable sort, highest keys first. *)
Definition cmp_reverse {K} `{Cmp K} : Cmp K := fun x y => cmp y x.
Definition sort_reverse {A K} `{Cmp K} (l : list (K * A)) : list (K * A) :=
  @sort_slice (K * A) (fun x y => cmp_reverse x.1 y.1) l.
Definition sort_by_build_option_values (builds : list BuildWithRepos) (impossible : BuildIdent -> bool) :
    res Empty_set (list BuildWithRepos) :=
  let '(key_entry_names, build_name_values) := sort_builds (concat (List.map specs_of builds)) in
  if length builds <? 2 then Ok builds
  else
    keys ← try_map (build_key_of key_entry_names build_name_values impossible) builds;
    Ok (List.map snd (sort_reverse (zip keys builds))).

(** [SortedBuildIterator::new] drains the source. *)
Fixpoint drain (builds : list (BuildIdent * list (rstr * Repo))) : Result (list BuildWithRepos) :=
  match builds with
  | [] => Ok []
  | (build, repos) :: builds =>
      item ← read_build build repos [];
      items ← drain builds;
      Ok (match item with Some item => item :: items | None => items end)
  end.
Definition drain_builds (self : BuildIterator) : Result (list BuildWithRepos) :=
  match self with
  | RepositoryBuildIterator builds => drain builds
  | EmptyBuildIterator => Ok []
  | SortedBuildIterator builds => Ok builds
  end.
Definition SortedBuildIterator_new (source : BuildIterator) (impossible : BuildIdent -> bool) : Result BuildIterator :=
  builds ← drain_builds source;
  builds ← total (sort_by_build_option_values builds impossible);
  Ok (SortedBuildIterator builds).

(** ** Packages *)

Definition VersionMap : Type := list (Version * list (rstr * Repo)).
Record RepositoryPackageIterator := mkPackageIterator {
  pi_package_name : rstr;
  pi_repos : list Repo;
  pi_versions : option (list Version);
  pi_version_map : VersionMap;
  pi_builds_map : list (Version * BuildIterator);
  pi_active_version : option Version;
  pi_embedded_stubs : bool;
}.
Abbreviation It := RepositoryPackageIterator.
Definition PackageIterator_new (package_name : rstr) (repos : list Repo) : It :=
  mkPackageIterator package_name repos None [] [] None false.
Definition with_versions (versions : option (list Version)) (self : It) : It :=
  mkPackageIterator (pi_package_name self) (pi_repos self) versions (pi_version_map self) (pi_builds_map self)
    (pi_active_version self) (pi_embedded_stubs self).
Definition with_active (active : option Version) (self : It) : It :=
  mkPackageIterator (pi_package_name self) (pi_repos self) (pi_versions self) (pi_version_map self) (pi_builds_map self)
    active (pi_embedded_stubs self).
Definition with_builds (builds : list (Version * BuildIterator)) (self : It) : It :=
  mkPackageIterator (pi_package_name self) (pi_repos self) (pi_versions self) (pi_version_map self) builds
    (pi_active_version self) (pi_embedded_stubs self).
Definition with_version_map (version_map : VersionMap) (self : It) : It :=
  mkPackageIterator (pi_package_name self) (pi_repos self) (pi_versions self) version_map (pi_builds_map self)
    (pi_active_version self) (pi_embedded_stubs self).
Definition set_builds (version : Version) (builds : BuildIterator) (self : It) : It :=
  with_builds (hm_insert Version_eq version builds (pi_builds_map self)) self.

(** [build_version_map]: the repositories that have a version, in reverse. *)
Definition add_version (repo : Repo) (version_map : VersionMap) (version : Version) : VersionMap :=
  hm_insert Version_eq version
    (hm_insert (fun a b => bool_decide (a = b)) (repo_name repo) repo (default [] (hm_get Version_eq version version_map)))
    version_map.
Fixpoint add_versions (package_name : rstr) (repos : list Repo) (version_map : VersionMap) : Result VersionMap :=
  match repos with
  | [] => Ok version_map
  | repo :: repos =>
      versions ← storage (list_package_versions repo package_name);
      add_versions package_name repos (foldl (add_version repo) version_map versions)
  end.
Definition build_version_map (self : It) : Result VersionMap :=
  version_map ← add_versions (pi_package_name self) (reverse (pi_repos self)) [];
  if bool_decide (length version_map = 0) then Err (IteratorPackageNotFound (pi_package_name self)) else Ok version_map.

Definition sorted_versions (version_map : VersionMap) : list Version :=
  reverse (sort_slice (versions_order version_map.*1)).
Definition restart_version_iterator (self : It) : It :=
  with_versions (Some (sorted_versions (pi_version_map self))) self.
Definition start (self : It) : Result It :=
  version_map ← build_version_map self; Ok (restart_version_iterator (with_version_map version_map self)).

(** [async_clone]. *)
Definition async_clone (self : It) : It :=
  let copy version_map :=
    mkPackageIterator (pi_package_name self) (pi_repos self) (pi_versions self) version_map [] None
      (pi_embedded_stubs self) in
  match pi_versions self with
  | Some _ => copy (pi_version_map self)
  | None =>
      match build_version_map self with
      | Ok version_map => copy version_map
      | Err (IteratorPackageNotFound _) => PackageIterator_new (pi_package_name self) (pi_repos self)
      | Err (IteratorStorage e) =>
          if is_package_not_found (Repo := Repo) (Recipe := Recipe) (T := T) e
          then PackageIterator_new (pi_package_name self) (pi_repos self) else copy (pi_version_map self)
      | Err VersionNotInMap | Panicked => copy (pi_version_map self)
      end
  end.

(** One turn of the loop of [next]: a result, or another turn. *)
Abbreviation Item := (AnyIdent * Version)%type.
Definition activate (self : It) : It :=
  match pi_active_version self, pi_versions self with
  | None, Some (version :: versions) => with_active (Some version) (with_versions (Some versions) self)
  | _, _ => self
  end.
Definition invalid_spec {A} (r : Result A) : bool :=
  match r with
  | Err (IteratorStorage e) => is_invalid_package_spec (Repo := Repo) (Recipe := Recipe) (T := T) e
  | _ => false
  end.
(** The builds of the active version, which may have to be looked up. *)
Definition version_builds (self : It) (version : Version) (repos : list (rstr * Repo)) : Result BuildIterator :=
  match hm_get Version_eq version (pi_builds_map self) with
  | Some builds => Ok builds
  | None => RepositoryBuildIterator_new (mkIdent (pi_package_name self) version) repos (pi_embedded_stubs self)
  end.
Definition next_turn (self : It) : (Result (option Item) * It) + It :=
  let self := activate self in
  match pi_active_version self with
  | Some version =>
      match hm_get Version_eq version (pi_version_map self) with
      | None => inl (Err VersionNotInMap, self)
      | Some repos =>
          let result := version_builds self version repos in
          match result with
          | Ok builds =>
              let self := match hm_get Version_eq version (pi_builds_map self) with
                          | Some _ => self
                          | None => set_builds version builds self
                          end in
              if builds_is_empty builds then inr (with_active None self)
              else inl (Ok (Some (mkIdent (mkIdent (pi_package_name self) version) None, version)), self)
          | Err e => if invalid_spec result then inr (with_active None self) else inl (Err e, self)
          | Panicked => inl (Panicked, self)
          end
      end
  | None =>
      if pi_embedded_stubs self then inl (Ok None, self)
      else inr (with_builds [] (restart_version_iterator
                  (mkPackageIterator (pi_package_name self) (pi_repos self) (pi_versions self) (pi_version_map self)
                     (pi_builds_map self) (pi_active_version self) true)))
  end.
Fixpoint next_loop (fuel : nat) (self : It) : Result (option Item) * It :=
  match fuel with
  | O => (Panicked, self)
  | S fuel => match next_turn self with inl result => result | inr self => next_loop fuel self end
  end.
(** [next]: the version map is built by the first call.  The turns that are left
    bound the fuel. *)
Definition turns_left (self : It) : nat :=
  length (default [] (pi_versions self)) + (if pi_active_version self is Some _ then 1 else 0) +
  (if pi_embedded_stubs self then 0 else S (length (sorted_versions (pi_version_map self)))).
Definition next (self : It) : Result (option Item) * It :=
  match pi_versions self with
  | Some _ => next_loop (S (turns_left self)) self
  | None =>
      match start self with
      | Ok self => next_loop (S (turns_left self)) self
      | Err e => (Err e, self)
      | Panicked => (Panicked, self)
      end
  end.
End iterators.
