(* ===== verification/IteratorTheory.v ===== *)
(** * What package iterators yield

    The cursor over the versions of a package ([PackageIterators]) yields every
    version with builds, from the highest down, and after them every version
    with embedded stubs; the builds of a version are sorted by what they are;
    and what a clone of the cursor leaves out. *)

From stdpp Require Import gmap.
From S2P Require Import Prelude Strings Collections Names Version VersionOrder VersionText.
From S2P Require Import Compat RangeData Reasons CompatCheck VersionRange Components Options Idents.
From S2P Require Import Requests RequestEq Opts Requirements ComponentSpecs Satisfy Embedded PackageSpec.
From S2P Require Import Encoding Solution SolverState SolverTheory Validation ValidationTheory BuildKeys PackageIterators.

(** ** Maps by an equality *)

Section hash_map.
Context {K V : Type} (eqb : K -> K -> bool).
Context (eqb_refl : forall x, eqb x x = true).
Context (eqb_trans : forall x y z, eqb x y = true -> eqb x z = eqb y z).

Lemma assoc_get_insert k k' (v : V) m :
  hm_get eqb k (hm_insert eqb k' v m) = if eqb k' k then Some v else hm_get eqb k m.
Proof.
  induction m as [|[k1 v1] m IH]; [done|]. cbn [hm_insert]. destruct (eqb k1 k') eqn:E1; cbn [hm_get].
  - rewrite (eqb_trans _ _ k E1). by destruct (eqb k' k).
  - rewrite IH. destruct (eqb k1 k) eqn:E2, (eqb k' k) eqn:E3; try done.
    rewrite (eqb_trans _ _ k' E2) in E1.
    assert (eqb k' k' = eqb k k') as E by (by apply eqb_trans). rewrite eqb_refl in E. congruence.
Qed.
(** Keys that differ. *)
Fixpoint distinct (l : list K) : Prop :=
  match l with [] => True | x :: l => Forall (fun y => eqb x y = false /\ eqb y x = false) l /\ distinct l end.
Lemma assoc_insert_keys k (v : V) m : (hm_insert eqb k v m).*1 = m.*1 \/ Forall (fun x => eqb x k = false) m.*1 /\ (hm_insert eqb k v m).*1 = m.*1 ++ [k].
Proof.
  induction m as [|[k1 v1] m IH]; [by right|]. cbn [hm_insert]. destruct (eqb k1 k) eqn:E; [by left|].
  rewrite !fmap_cons. cbn [fst]. destruct IH as [->|[Hf ->]]; [by left|]. right. split; [by constructor|done].
Qed.
Lemma distinct_snoc l k : distinct l -> Forall (fun x => eqb x k = false) l -> distinct (l ++ [k]).
Proof.
  induction l as [|x l IH]; [done|]. intros [Hx Hl] [Hk Hlk]%Forall_cons. cbn [app distinct]. split; [|by apply IH].
  apply Forall_app. split; [done|]. constructor; [|done]. split; [done|]. destruct (eqb k x) eqn:E; [|done].
  pose proof (eqb_trans k x k E) as Ht. rewrite eqb_refl in Ht. congruence.
Qed.
Lemma assoc_insert_distinct k (v : V) m : distinct m.*1 -> distinct (hm_insert eqb k v m).*1.
Proof. intros Hm. destruct (assoc_insert_keys k v m) as [->|[Hf ->]]; [done|by apply distinct_snoc]. Qed.
Lemma distinct_perm l l' : l ≡ₚ l' -> distinct l -> distinct l'.
Proof.
  induction 1 as [|x l l' Hp IH|x y l|l l1 l2 _ IH1 _ IH2]; [done| | |auto].
  - intros [Hx Hl]. split; [by rewrite <-Hp|auto].
  - intros [[[Hyx Hxy] Hy]%Forall_cons [Hx Hl]]. split; [by constructor|done].
Qed.
Lemma assoc_get_key k (m : list (K * V)) : k ∈ m.*1 -> is_Some (hm_get eqb k m).
Proof.
  induction m as [|[k1 v1] m IH]; [by intros ?%elem_of_nil|]. rewrite fmap_cons, elem_of_cons. cbn [hm_get fst].
  intros [->|Hk]; [by rewrite eqb_refl|]. destruct (eqb k1 k); [by eexists|auto].
Qed.
End hash_map.

Lemma Version_eq_trans x y z : Version_eq x y = true -> Version_eq x z = Version_eq y z.
Proof.
  intros (H1 & H2 & H3 & H4)%Version_eq_spec. apply eq_bool_prop_intro. rewrite !Is_true_true, !Version_eq_spec.
  by rewrite H1, H2, H3, H4.
Qed.

Lemma StronglySorted_reverse {A} (R : A -> A -> Prop) l : StronglySorted R l -> StronglySorted (fun x y => R y x) (reverse l).
Proof.
  induction 1 as [|x l Hl IH Hx]; [constructor|]. rewrite reverse_cons.
  assert (Forall (fun y => R x y) (reverse l)) as Hr by by rewrite reverse_Permutation.
  clear Hx Hl. induction IH as [|y k Hk IH Hy]; [by repeat constructor|]. apply Forall_cons in Hr as [Hxy Hr].
  cbn [app]. constructor; [by apply IH|]. apply Forall_app. by repeat constructor.
Qed.

(** Sorting by a key in reverse. *)
Section reverse.
Context {K A : Type} `{CmpLaws K}.
#[local] Instance cmp_reverse_fst : Cmp (K * A) := fun x y => cmp_reverse x.1 y.1.
#[local] Instance cmp_reverse_laws : CmpLaws (K * A).
Proof.
  split.
  - intros x y. change (cmp x.1 y.1 = CompOpp (cmp y.1 x.1)). apply cmp_antisym.
  - intros x y z. change (cmp y.1 x.1 = Lt -> cmp z.1 y.1 = Lt -> cmp z.1 x.1 = Lt).
    intros H1 H2. by apply (cmp_lt_trans z.1 y.1 x.1).
  - intros x y z. change (cmp y.1 x.1 = Eq -> cmp z.1 x.1 = cmp z.1 y.1). intros H1.
    rewrite (cmp_antisym x.1 z.1), (cmp_antisym y.1 z.1). f_equal. symmetry. by apply cmp_eq_cong.
Qed.
Lemma sort_reverse_perm (l : list (K * A)) : sort_reverse l ≡ₚ l.
Proof. apply (sort_slice_perm (A := K * A)). Qed.
Lemma sort_reverse_sorted (l : list (K * A)) : StronglySorted (fun x y => cle y.1 x.1) (sort_reverse l).
Proof. exact (sort_slice_sorted (A := K * A) l). Qed.
End reverse.

(** ** Sorted builds *)

Section iterators.
Context {Repo Recipe T C Error Pattern : Type} `{!SourceOps Repo Recipe} `{!Versioned T, !ComponentOps C, !Package T C}.
Context `{!ComponentEmbeds C, !SolverPackage T C, !RepoOps Repo Recipe T Error, !GlobOps Pattern}.

Section sorting.
Context (build_key_name_order : list Pattern) (parse_version_range : rstr -> res rstr VersionRange) (hash_str : rstr -> N).
Abbreviation sorted_by := (sort_by_build_option_values (Repo := Repo) (Recipe := Recipe) (T := T)
  build_key_name_order parse_version_range hash_str).

(** The class of a build, by the first of its specifications. *)
Definition class_of (impossible : BuildIdent -> bool) (hm : BuildWithRepos (Repo := Repo) (Recipe := Recipe) (T := T)) : nat :=
  match hm with [] => 0 | (_, (spec, _)) :: _ => build_class (pk_ident spec) (impossible (pk_ident spec)) end.

Context (parse_ok : forall r, parse_version_range r <> Panicked).

Lemma BuildKey_new_Ok pkg names values i : exists k, BuildKey_new parse_version_range hash_str pkg names values i = Ok k.
Proof using parse_ok.
  assert (exists entries, try_map (fun name => option_entry parse_version_range hash_str (bmap_get name values)) names = Ok entries)
    as [entries He].
  { induction names as [|n names [entries IH]]; [by eexists|]. cbn [try_map].
    destruct (option_entry parse_version_range hash_str (bmap_get n values)) as [e|[]|] eqn:Ee; cbn [mbind res_bind].
    - rewrite IH. by eexists.
    - exfalso. revert Ee. unfold option_entry, parse_from_range_value. destruct (bmap_get n values); [|done].
      match goal with |- context [parse_version_range ?r] => specialize (parse_ok r); by destruct (parse_version_range r) end. }
  unfold BuildKey_new. rewrite He. destruct (id_target pkg) as [|[]|]; by eexists.
Qed.
Lemma build_keys_Ok names values impossible builds :
  Forall (fun hm => hm <> []) builds ->
  exists keys, try_map (build_key_of (Repo := Repo) (Recipe := Recipe) (T := T) parse_version_range hash_str names values impossible)
                 builds = Ok keys /\ length keys = length builds.
Proof using parse_ok.
  induction 1 as [|hm builds Hhm _ (keys & IH & Hlen)]; [by exists []|].
  destruct hm as [|[r [spec src]] hm]; [done|].
  destruct (BuildKey_new_Ok (pk_ident spec) names (default [] (hm_get BuildIdent_eq (pk_ident spec) values))
    (impossible (pk_ident spec))) as [k Hk].
  exists (k :: keys). cbn [try_map build_key_of]. unfold make_option_values_build_key. rewrite Hk. cbn [mbind res_bind].
  rewrite IH. cbn [length]. by rewrite Hlen.
Qed.

(** Builds by descending keys. *)
Lemma keyed_sorted names values impossible (l : list (BuildKey * BuildWithRepos (Repo := Repo) (Recipe := Recipe) (T := T))) :
  Forall (fun e => build_key_of parse_version_range hash_str names values impossible e.2 = Ok e.1) l ->
  StronglySorted (fun x y => cle y.1 x.1) l ->
  StronglySorted (fun x y => class_of impossible y <= class_of impossible x) (List.map snd l) /\
  StronglySorted (fun x y => exists kx ky,
    build_key_of parse_version_range hash_str names values impossible x = Ok kx /\
    build_key_of parse_version_range hash_str names values impossible y = Ok ky /\ cle ky kx) (List.map snd l).
Proof using.
  intros Hall Hs. revert Hall. induction Hs as [|[k hm] l Hl IH Hx]; [by split; constructor|].
  intros [Hk Hall]%Forall_cons. destruct (IH Hall) as [IH1 IH2]. cbn [fst snd] in *.
  split; cbn [List.map snd]; (constructor; [done|]); apply Forall_map;
    apply (Forall_impl _ _ _ (proj2 (Forall_and _ _) (conj Hall Hx))); intros [k' hm'] [Hk' Hle]; cbn [fst snd] in *; [|by eauto].
  destruct hm as [|[r [spec src]] hm]; [done|]. destruct hm' as [|[r' [spec' src']] hm']; [done|].
  by eapply build_key_class.
Qed.

(** When the parser of ranges does not panic and every build is in a
    repository, sorting the builds of a version succeeds and permutes them:
    binary builds without impossible requests first, then the ones with them,
    then embedded stubs, and source packages last; and within this the builds
    are in descending order of their keys. *)
Theorem sort_by_build_option_values_exact impossible builds :
  Forall (fun hm => hm <> []) builds ->
  exists sorted, sorted_by builds impossible = Ok sorted /\ sorted ≡ₚ builds /\
    StronglySorted (fun x y => class_of impossible y <= class_of impossible x) sorted /\
    let '(names, values) := sort_builds (Pattern := Pattern) build_key_name_order (concat (List.map specs_of builds)) in
    StronglySorted (fun x y => exists kx ky,
      build_key_of parse_version_range hash_str names values impossible x = Ok kx /\
      build_key_of parse_version_range hash_str names values impossible y = Ok ky /\ cle ky kx) sorted.
Proof using parse_ok.
  intros Hne. unfold sort_by_build_option_values.
  destruct (sort_builds build_key_name_order (concat (List.map specs_of builds))) as [names values].
  match goal with |- context [if ?b then Ok builds else _] => destruct b eqn:Hlen end.
  { apply Nat.ltb_lt in Hlen. exists builds. split; [done|]. split; [done|].
    destruct builds as [|hm [|hm' builds]]; [|by repeat constructor|cbn in Hlen; lia]. split; constructor. }
  apply Nat.ltb_ge in Hlen. destruct (build_keys_Ok names values impossible builds Hne) as (keys & Hk & Hlk). rewrite Hk. cbn [mbind res_bind].
  apply try_map_Ok in Hk. eexists. split; [done|].
  assert (List.map snd (sort_reverse (zip keys builds)) ≡ₚ builds) as Hperm.
  { rewrite sort_reverse_perm. change (List.map snd (zip keys builds)) with ((zip keys builds).*2).
    by rewrite snd_zip by lia. }
  split; [done|].
  assert (Forall (fun e => build_key_of parse_version_range hash_str names values impossible e.2 = Ok e.1)
            (sort_reverse (zip keys builds))) as Hall.
  { rewrite sort_reverse_perm. clear Hperm Hne Hlen Hlk. induction Hk; by constructor. }
  apply keyed_sorted; [exact Hall|]. exact (sort_reverse_sorted (zip keys builds)).
Qed.
End sorting.

(** ** Versions *)

Section packages.
Context (builds_order : list (BuildIdent * list (rstr * Repo)) -> list (BuildIdent * list (rstr * Repo))).
Context (versions_order : list Version -> list Version).
Abbreviation It := (RepositoryPackageIterator (Repo := Repo) (Recipe := Recipe) (T := T)).
Abbreviation builds_of := (BuildIterator (Repo := Repo) (Recipe := Recipe) (T := T)).
Abbreviation turn := (next_turn builds_order versions_order).
Abbreviation loop := (next_loop builds_order versions_order).
Abbreviation step := (next builds_order versions_order).
Abbreviation left := (turns_left versions_order).

#[local] Ltac cases_in H :=
  repeat (match type of H with context [match ?x with _ => _ end] => destruct x end; try done).
(** A turn without a result brings the end closer: the fuel of [next] is
    enough. *)
Lemma turn_left (self self' : It) : turn self = inr self' -> left self' < left self.
Proof.
  unfold next_turn, turns_left. destruct self as [name repos vs vm bm act stubs]. unfold activate.
  destruct act as [v|]; [|destruct vs as [[|v vs]|]];
    cbn [pi_active_version pi_versions pi_version_map pi_builds_map pi_embedded_stubs pi_package_name pi_repos
         with_active with_versions default length];
    intros Ht; cases_in Ht; injection Ht as <-; cbn; try lia; destruct stubs; cbn; lia.
Qed.
Lemma loop_enough n m (self : It) : left self < n -> left self < m -> loop n self = loop m self.
Proof.
  revert m self. induction n as [|n IH]; intros [|m] self Hn Hm; [lia..|]. cbn [next_loop].
  destruct (turn self) as [r|self'] eqn:E; [done|]. apply turn_left in E. apply IH; lia.
Qed.
Lemma turn_versions (self self' : It) : turn self = inr self' -> is_Some (pi_versions self) -> is_Some (pi_versions self').
Proof.
  unfold next_turn. destruct self as [name repos vs vm bm act stubs]. unfold activate.
  destruct act as [v|]; [|destruct vs as [[|v vs]|]];
    cbn [pi_active_version pi_versions pi_version_map pi_builds_map pi_embedded_stubs pi_package_name pi_repos
         with_active with_versions default length];
    intros Ht Hv; cases_in Ht; injection Ht as <-; first [exact Hv|by eexists].
Qed.
Lemma next_turn_inr (self self' : It) : is_Some (pi_versions self) -> turn self = inr self' -> step self = step self'.
Proof.
  intros Hv Ht. pose proof (turn_versions _ _ Ht Hv) as [vs' Hv']. destruct Hv as [vs Hv]. unfold next.
  rewrite Hv, Hv'. cbn [next_loop]. rewrite Ht. pose proof (turn_left _ _ Ht).
  apply (loop_enough (left self) (S (left self')) self'); lia.
Qed.
Lemma next_turn_inl (self : It) r : is_Some (pi_versions self) -> turn self = inl r -> step self = r.
Proof. intros [vs Hv] Ht. unfold next. rewrite Hv. cbn [next_loop]. by rewrite Ht. Qed.

(** What a caller gets that takes every build of a version before the next call:
    the versions, each with its builds. *)
Inductive yields : It -> list (Version * builds_of) -> Prop :=
| yields_end self self' : step self = (Ok None, self') -> yields self []
| yields_next self self' pkg version builds l :
    step self = (Ok (Some (pkg, version)), self') ->
    hm_get Version_eq version (pi_builds_map self') = Some builds ->
    yields (set_builds version EmptyBuildIterator self') l ->
    yields self ((version, builds) :: l).
Lemma yields_step self self' l : step self = step self' -> yields self' l -> yields self l.
Proof. intros Ht. destruct 1; econstructor; eauto; by rewrite Ht. Qed.
Lemma yields_turn self self' l : is_Some (pi_versions self) -> turn self = inr self' -> yields self' l -> yields self l.
Proof. intros Hv Ht%next_turn_inr; [|done]. by apply yields_step. Qed.

(** The versions that have builds, of those with and those without stubs. *)
Definition listing (name : rstr) (vm : list (Version * list (rstr * Repo))) (stubs : bool) (vs : list Version) :
    list (Version * builds_of) :=
  omap (fun v =>
    match hm_get Version_eq v vm with
    | Some repos =>
        match RepositoryBuildIterator_new builds_order (mkIdent name v) repos stubs with
        | Ok builds => if builds_is_empty builds then None else Some (v, builds)
        | _ => None
        end
    | None => None
    end) vs.

Section walk.
Context (name : rstr) (vm : list (Version * list (rstr * Repo))).
(** Each version of the map can be read, or has an invalid specification. *)
Context (readable : forall v repos stubs, hm_get Version_eq v vm = Some repos ->
  let result := RepositoryBuildIterator_new (T := T) builds_order (mkIdent name v) repos stubs in
  (exists builds, result = Ok builds) \/
  exists e, result = Err e /\ invalid_spec (Repo := Repo) (Recipe := Recipe) (T := T) result = true).

(** Between two versions, with the versions that are left. *)
Definition walking (stubs : bool) (vs : list Version) (self : It) : Prop :=
  pi_package_name self = name /\ pi_version_map self = vm /\ pi_versions self = Some vs /\
  pi_active_version self = None /\ pi_embedded_stubs self = stubs /\
  Forall (fun v => is_Some (hm_get Version_eq v vm) /\ hm_get Version_eq v (pi_builds_map self) = None) vs /\
  distinct Version_eq vs.

Lemma walking_yields stubs vs tail self :
  walking stubs vs self ->
  (forall self', walking stubs [] self' -> yields self' tail) ->
  yields self (listing name vm stubs vs ++ tail).
Proof using readable.
  revert self. induction vs as [|v vs IH]; intros self Hw Htail; [by apply Htail|].
  destruct self as [name' repos vss vm' bm act stubs']. unfold walking in Hw.
  cbn [pi_package_name pi_version_map pi_versions pi_active_version pi_embedded_stubs pi_builds_map] in Hw.
  destruct Hw as (-> & -> & -> & -> & -> & [[[repos' Hrepos] Hbm] Hall]%Forall_cons & [Hv Hvs]).
  assert (forall b, Forall (fun v' => is_Some (hm_get Version_eq v' vm) /\
    hm_get Version_eq v' (hm_insert Version_eq v b bm) = None) vs) as Hins.
  { intros b. apply (Forall_impl _ _ _ (proj2 (Forall_and _ _) (conj Hall Hv))). intros v' [[? ?] [Hvv ?]].
    split; [done|]. by rewrite (assoc_get_insert Version_eq Version_eq_refl Version_eq_trans), Hvv. }
  cbn [listing omap list_omap]. fold (listing name vm stubs vs). rewrite Hrepos.
  destruct (readable v repos' stubs Hrepos) as [[builds Hb]|(e & He & Hinv)].
  - rewrite Hb. destruct (builds_is_empty builds) eqn:Ee.
    + eapply yields_turn; [by eexists| |apply IH; [|exact Htail]].
      * unfold next_turn, activate, version_builds. cbn. rewrite Hrepos, Hbm, Hb. cbn. rewrite Ee. reflexivity.
      * cbn. repeat (split; [done|]). split; [apply Hins|done].
    + eapply yields_next.
      * apply next_turn_inl; [by eexists|]. unfold next_turn, activate, version_builds. cbn.
        rewrite Hrepos, Hbm, Hb. cbn. rewrite Ee. reflexivity.
      * cbn. by rewrite (assoc_get_insert Version_eq Version_eq_refl Version_eq_trans), Version_eq_refl.
      * eapply yields_turn; [by eexists| |apply IH; [|exact Htail]].
        -- unfold next_turn, activate, version_builds. cbn. rewrite Hrepos.
           rewrite (assoc_get_insert Version_eq Version_eq_refl Version_eq_trans), Version_eq_refl. reflexivity.
        -- cbn. repeat (split; [done|]). split; [|done].
           apply (Forall_impl _ _ _ (proj2 (Forall_and _ _) (conj (Hins builds) Hv))). intros v' [[? ?] [Hvv ?]].
           split; [done|]. cbn [pi_builds_map with_active set_builds with_builds]. by rewrite (assoc_get_insert Version_eq Version_eq_refl Version_eq_trans), Hvv.
  - rewrite He. eapply yields_turn; [by eexists| |apply IH; [|exact Htail]].
    + unfold next_turn, activate, version_builds. cbn. rewrite Hrepos, Hbm, Hinv. rewrite He. reflexivity.
    + cbn. by repeat (split; [done|]).
Qed.
End walk.

(** The keys of the map of versions differ. *)
Lemma add_versions_distinct name repos vm vm' :
  add_versions (T := T) name repos vm = Ok vm' -> distinct Version_eq vm.*1 -> distinct Version_eq vm'.*1.
Proof.
  revert vm. induction repos as [|repo repos IH]; intros vm; cbn [add_versions]; [by intros [= <-]|].
  intros (versions & _ & H)%bind_Ok Hd. apply (IH _ H). clear IH H. revert vm Hd.
  induction versions as [|v versions IH]; intros vm Hd; [done|]. apply IH.
  by apply (assoc_insert_distinct _ Version_eq_refl Version_eq_trans).
Qed.
Lemma distinct_get {V} (m : list (Version * V)) k v :
  distinct Version_eq m.*1 -> (k, v) ∈ m -> hm_get Version_eq k m = Some v.
Proof.
  induction m as [|[k1 v1] m IH]; [by intros _ ?%elem_of_nil|]. intros [Hk Hm] [[= -> ->]|Hin]%elem_of_cons; cbn [hm_get].
  - by rewrite Version_eq_refl.
  - rewrite Forall_forall in Hk. cbn [fst] in Hk. destruct (Hk k) as [-> _]; [|by apply IH]. apply list_elem_of_fmap. by exists (k, v).
Qed.
Lemma assoc_get_elem {V} (m : list (Version * V)) k v : hm_get Version_eq k m = Some v -> exists k', Version_eq k' k = true /\ (k', v) ∈ m.
Proof.
  induction m as [|[k1 v1] m IH]; [done|]. cbn [hm_get]. destruct (Version_eq k1 k) eqn:E.
  - intros [= ->]. exists k1. split; [done|by left].
  - intros (k' & ? & ?)%IH. exists k'. split; [done|by right].
Qed.

(** C18: a cursor over the versions of a package yields first every version that
    has builds other than embedded stubs, from the highest down, and then, from
    the highest down again, every version with stubs; each with all its builds
    of that kind.  Versions with an invalid specification are skipped. *)
Theorem iterator_yields_exact name repos vm :
  (forall l, versions_order l ≡ₚ l) ->
  build_version_map (T := T) (PackageIterator_new name repos) = Ok vm ->
  (forall v repos stubs, hm_get Version_eq v vm = Some repos ->
     let result := RepositoryBuildIterator_new (T := T) builds_order (mkIdent name v) repos stubs in
     (exists builds, result = Ok builds) \/
     exists e, result = Err e /\ invalid_spec (Repo := Repo) (Recipe := Recipe) (T := T) result = true) ->
  let versions := sorted_versions versions_order vm in
  versions ≡ₚ vm.*1 /\ StronglySorted (fun v w => cle w v) versions /\
  yields (PackageIterator_new name repos) (listing name vm false versions ++ listing name vm true versions).
Proof.
  intros Hperm Hvm Hread versions.
  assert (versions ≡ₚ vm.*1) as Hvs by (unfold versions, sorted_versions; by rewrite reverse_Permutation, sort_slice_perm).
  assert (distinct Version_eq vm.*1) as Hd.
  { unfold build_version_map in Hvm. apply bind_Ok in Hvm as (vm' & Hvm' & Hif). case_bool_decide; [done|].
    injection Hif as <-. by eapply add_versions_distinct. }
  split; [done|]. split.
  { apply StronglySorted_reverse. apply sort_slice_sorted. }
  assert (forall stubs r act, act = None -> walking name vm stubs versions
            (mkPackageIterator name r (Some versions) vm [] act stubs)) as Hw.
  { intros stubs r act ->. repeat (split; [done|]). cbn [pi_builds_map]. split.
    - rewrite Forall_forall. intros v Hv. split; [|done]. rewrite Hvs in Hv.
      by apply (assoc_get_key _ Version_eq_refl).
    - by eapply (distinct_perm _ (vm.*1)). }
  eapply yields_step.
  - unfold next at 1, start. cbn [pi_versions PackageIterator_new]. rewrite Hvm. cbn [mbind res_bind].
    instantiate (1 := restart_version_iterator versions_order (with_version_map vm (PackageIterator_new name repos))).
    reflexivity.
  - apply (walking_yields name vm Hread false versions); [by apply Hw|].
    intros self' (Hn & Hm & Hv & Ha & Hs & _). destruct self' as [n r vs m bm act stubs]. cbn in Hn, Hm, Hv, Ha, Hs. subst.
    eapply yields_turn; [by eexists| |].
    + unfold next_turn, activate. cbn. reflexivity.
    + rewrite <-(app_nil_r (listing _ _ _ _)). apply (walking_yields name vm Hread true versions); [by apply Hw|].
      intros self' (Hn & Hm & Hv & Ha & Hs & _). destruct self' as [n r' vs m bm' act stubs]. cbn in Hn, Hm, Hv, Ha, Hs. subst.
      eapply yields_end. by apply next_turn_inl; [eexists|].
Qed.
End packages.
End iterators.

(** ** An example

    Every repository has two versions of a package: one with a source and a
    binary build, one with only an embedded stub. *)

Definition example_old : Version := from_parts [1]%N.
Definition example_new : Version := from_parts [2]%N.
Definition example_stub : Build :=
  BuildEmbedded (EmbeddedPackage (mkEmbeddedSourcePackage
    (mkIdentParts None (lit "parent") (Some (lit "1.0.0")) None) [] None)).
Definition example_builds (v : VersionIdent) : list BuildIdent :=
  List.map (mkIdent v) (if Version_eq (id_target v) example_new then [example_stub] else [BuildSource; Build_empty]).
Definition example_read (b : BuildIdent) : TupleSpec :=
  mkPackageSpec b Compat_default false [] InstallSpec_default [].
#[export] Instance RepoOps_example : RepoOps rstr VersionIdent TupleSpec bool :=
  {| list_package_versions := fun _ _ => Ok [example_old; example_new];
     list_package_builds := fun _ v => Ok (example_builds v);
     repo_recipe := fun _ v => Ok v;
     read_package := fun _ b => Ok (example_read b);
     read_components := fun _ _ => Ok [];
     is_package_not_found := id;
     is_invalid_package_spec := negb |}.
Abbreviation ExampleBuilds := (BuildIterator (Repo := rstr) (Recipe := VersionIdent) (T := TupleSpec)).

Definition example_hm (b : Build) : BuildWithRepos (Repo := rstr) (Recipe := VersionIdent) (T := TupleSpec) :=
  [(lit "origin", (example_read (mkIdent (mkIdent (lit "my-pkg") example_old) b), Source_Repository (lit "origin") []))].
Lemma sort_by_build_option_values_exact_witness :
  exists sorted,
    sort_by_build_option_values (C := ExampleComponent) (Pattern := rstr) [] (fun _ => Err []) (fun _ => 0%N)
      [example_hm BuildSource; example_hm Build_empty] (fun _ => false) = Ok sorted /\
    sorted ≡ₚ [example_hm BuildSource; example_hm Build_empty] /\
    List.map (class_of (fun _ => false)) sorted = [3; 0].
Proof.
  destruct (sort_by_build_option_values_exact (C := ExampleComponent) (Repo := rstr) (Recipe := VersionIdent) (Pattern := rstr) []
    (fun _ => Err []) (fun _ => 0%N) (fun _ H => ltac:(discriminate H)) (fun _ => false)
    [example_hm BuildSource; example_hm Build_empty]) as (sorted & Hs & Hp & _).
  - by repeat constructor.
  - exists sorted. split; [exact Hs|]. split; [exact Hp|]. vm_compute in Hs. injection Hs as <-. reflexivity.
Defined.

Lemma iterator_yields_exact_witness :
  exists builds stubs : ExampleBuilds,
    yields (Recipe := VersionIdent) (T := TupleSpec) (Error := bool) id id (PackageIterator_new (lit "my-pkg") [lit "origin"])
      [(example_old, builds); (example_new, stubs)] /\ builds_len builds = 2 /\ builds_len stubs = 1.
Proof.
  destruct (build_version_map (Recipe := VersionIdent) (T := TupleSpec)
    (PackageIterator_new (lit "my-pkg") [lit "origin"])) as [vm|e|] eqn:Hvm; [|vm_compute in Hvm; discriminate..].
  destruct (iterator_yields_exact (Recipe := VersionIdent) (T := TupleSpec) id id
    (lit "my-pkg") [lit "origin"] vm) as (_ & _ & H).
  - reflexivity.
  - exact Hvm.
  - intros v repos stubs Hr. left. vm_compute in Hvm. injection Hvm as <-.
    unfold RepositoryBuildIterator_new. cbn [hm_get] in Hr.
    assert (repos = [(lit "origin", lit "origin")]) as ->.
    { repeat match type of Hr with context [if ?b then _ else _] => destruct b end; [| |discriminate];
        injection Hr as <-; reflexivity. }
    by eexists.
  - vm_compute in Hvm. injection Hvm as <-. eexists _, _. split; [exact H|]. by split.
Defined.

(** The comment on sorting the builds says that source packages must come last;
    they come first. *)
Lemma source_builds_come_first :
  exists first second,
    RepositoryBuildIterator_new (Recipe := VersionIdent) (T := TupleSpec) id
      (mkIdent (lit "my-pkg") example_old) [(lit "origin", lit "origin")] false =
      Ok (RepositoryBuildIterator [first; second]) /\
    Build_is_source (id_target first.1) = true /\ Build_is_source (id_target second.1) = false.
Proof. eexists _, _. split; [vm_compute; reflexivity|]. by split. Qed.

(** A clone is documented to have its cursor at the same point; it skips the
    version that is active. *)
Lemma clone_skips_active_version :
  let step := next (Recipe := VersionIdent) (T := TupleSpec) (Repo := rstr) (Error := bool) id id in
  let it := (step (PackageIterator_new (lit "my-pkg") [lit "origin"])).2 in
  (exists pkg, (step it).1 = Ok (Some (pkg, example_old))) /\
  exists pkg, (step (async_clone it)).1 = Ok (Some (pkg, example_new)).
Proof. split; eexists; vm_compute; reflexivity. Qed.
