(* ===== verification/Graph.v ===== *)
(** * The graph of a solve

    Models [Graph], [Node] and [GraphIter] of
    crates/spk-solve/crates/graph/src/graph.rs.  Nodes are shared references in
    the source; here a reference to a node of the graph is its key.  A lock that
    would never be given is a [Panicked]. *)

From stdpp Require Import gmap.
From S2P Require Import Prelude Strings Collections Names Version VersionOrder VersionText.
From S2P Require Import Compat RangeData Reasons CompatCheck VersionRange Components Options Idents.
From S2P Require Import Requests RequestEq Opts Requirements ComponentSpecs Satisfy Embedded PackageSpec.
From S2P Require Import Encoding Solution SolverState Validation Decisions BuildKeys PackageIterators.

Section graph.
Context {Repo Recipe T C Error Pattern : Type} `{!SourceOps Repo Recipe} `{!Versioned T, !ComponentOps C, !Package T C}.
Context `{!Hasher T, !GlobOps Pattern, !RepoOps Repo Recipe T Error}.
Context (request_priority_order : list Pattern).
Context (permutations2 : forall A : Type, list A -> list (A * A)).

Abbreviation State := (State Repo Recipe T).
Abbreviation Decision := (Decision Repo Recipe T).
Abbreviation Iterator := (RepositoryPackageIterator (Repo := Repo) (Recipe := Recipe) (T := T)).
Abbreviation Decision_apply := (Decision_apply request_priority_order permutations2).

(** ** Nodes *)

Record Node := mkNode {
  nd_inputs : gset N;
  nd_inputs_decisions : list Decision;
  nd_outputs : gset N;
  nd_outputs_decisions : list Decision;
  nd_state : State;
  nd_iterators : gmap rstr Iterator;
}.
Definition Node_new (state : State) : Node := mkNode ∅ [] ∅ [] state ∅.
Definition Node_id (self : Node) : N := State_full_id (nd_state self).
Definition add_input (state : State) (decision : Decision) (self : Node) : Node :=
  mkNode ({[State_full_id state]} ∪ nd_inputs self) (nd_inputs_decisions self ++ [decision]) (nd_outputs self)
    (nd_outputs_decisions self) (nd_state self) (nd_iterators self).
Definition add_output (decision : Decision) (state : State) (self : Node) : res GraphError Node :=
  if bool_decide (State_full_id state ∈ nd_outputs self) then Err RecursionError
  else Ok (mkNode (nd_inputs self) (nd_inputs_decisions self) ({[State_full_id state]} ∪ nd_outputs self)
             (nd_outputs_decisions self ++ [decision]) (nd_state self) (nd_iterators self)).
Definition with_iterators (iterators : gmap rstr Iterator) (self : Node) : Node :=
  mkNode (nd_inputs self) (nd_inputs_decisions self) (nd_outputs self) (nd_outputs_decisions self) (nd_state self)
    iterators.
(** [get_iterator]; [set_iterator] keeps a clone.  What it asserts in a debug build,
    that there is none yet, holds wherever it is called: [copied_iterators] for the
    iterators of a new node, [StepState.get_iterator_asserts] for a new iterator. *)
Definition get_iterator (self : Node) (package_name : rstr) : option Iterator := nd_iterators self !! package_name.
Definition set_iterator (package_name : rstr) (iterator : Iterator) (self : Node) : Node :=
  with_iterators (<[package_name := async_clone (Error := Error) iterator]> (nd_iterators self)) self.
Definition set_iterator_asserts (package_name : rstr) (self : Node) : bool :=
  negb (bool_decide (is_Some (nd_iterators self !! package_name))).
(** The loop of [add_branch] over the iterators that are copied; none when an
    assertion fails. *)
Fixpoint copy_iterators (iterators : list (rstr * Iterator)) (self : Node) : option Node :=
  match iterators with
  | [] => Some self
  | (name, iterator) :: iterators =>
      if set_iterator_asserts name self then copy_iterators iterators (set_iterator name iterator self) else None
  end.
Lemma copied_iterators (iterators : list (rstr * Iterator)) (state : State) :
  NoDup (fst <$> iterators) ->
  copy_iterators iterators (Node_new state) =
  Some (with_iterators (async_clone (Error := Error) <$> list_to_map iterators) (Node_new state)).
Proof.
  intros Hnd.
  assert (forall m, (forall n, n ∈ fst <$> iterators -> m !! n = None) ->
    copy_iterators iterators (with_iterators m (Node_new state)) =
    Some (with_iterators ((async_clone (Error := Error) <$> list_to_map iterators) ∪ m) (Node_new state))) as H.
  { induction iterators as [|[name iterator] iterators IH]; intros m Hm; cbn [copy_iterators].
    - by rewrite list_to_map_nil, fmap_empty, (left_id_L ∅ (∪)).
    - rewrite fmap_cons in Hnd. apply NoDup_cons in Hnd as [Hname Hnd]. unfold set_iterator_asserts. cbn [nd_iterators with_iterators].
      rewrite Hm by by left. rewrite bool_decide_eq_false_2 by by intros [? ?]. cbn [negb]. unfold set_iterator. cbn [nd_iterators with_iterators]. rewrite list_to_map_cons, fmap_insert.
      change (with_iterators ?m (with_iterators _ ?node)) with (with_iterators m node). rewrite IH; [|done|].
      + do 2 f_equal. rewrite <-insert_union_l, <-insert_union_r; [done|]. rewrite lookup_fmap.
        by rewrite (not_elem_of_list_to_map_1 iterators name Hname).
      + intros n Hn. rewrite lookup_insert_ne by by intros ->. apply Hm. by right. }
  change (Node_new state) with (with_iterators ∅ (Node_new state)) at 1. rewrite H; [|done].
  by rewrite (right_id_L ∅ (∪)).
Qed.

(** ** The graph *)

Record Graph := mkGraph { g_root : N; g_nodes : gmap N Node }.
Definition Graph_new (dead_state : State) : Graph :=
  mkGraph (State_full_id dead_state) {[State_full_id dead_state := Node_new dead_state]}.
Definition set_node (node : Node) (self : Graph) : Graph :=
  mkGraph (g_root self) (<[Node_id node := node]> (g_nodes self)).

Definition is_step_back (decision : Decision) : bool :=
  match dec_changes decision with [Change_StepBack _ _] => true | _ => false end.
(** The node whose iterators a new node gets: after a step back with one more
    change, the one of the destination. *)
Definition iterators_from (self : Graph) (old_node : Node) (decision : Decision) : option Node :=
  match dec_changes decision with
  | [Change_StepBack destination _; _] => g_nodes self !! State_full_id destination
  | _ => Some old_node
  end.
(** The node of a state, a new one when there is none; its iterators are copied
    ([copied_iterators]). *)
Definition insert_node (self : Graph) (old_node : Node) (decision : Decision) (new_state : State) : res GraphError Graph :=
  match g_nodes self !! State_full_id new_state with
  | Some _ => Ok self
  | None =>
      match iterators_from self old_node decision with
      | None => Panicked
      | Some source =>
          Ok (set_node (with_iterators (async_clone (Error := Error) <$> nd_iterators source) (Node_new new_state)) self)
      end
  end.
(** The edge between two nodes, which may be the same. *)
Definition add_edge (self : Graph) (source_id new_id : N) (decision : Decision) : res GraphError Graph :=
  match g_nodes self !! source_id, g_nodes self !! new_id with
  | Some old_node, Some new_node =>
      old_node' ← add_output decision (nd_state new_node) old_node;
      let self := set_node old_node' self in
      match g_nodes self !! new_id with
      | None => Panicked
      | Some new_node => Ok (set_node (add_input (nd_state old_node) decision new_node) self)
      end
  | _, _ => Panicked
  end.
(** [add_branch]: an error leaves the graph with the node. *)
Definition add_branch (self : Graph) (source_id : N) (decision : Decision) : Store -> (res GraphError N * Graph) * Store :=
  fun σ =>
  match g_nodes self !! source_id with
  | None => ((Panicked, self), σ)
  | Some old_node =>
      match Decision_apply (dec_changes decision) (nd_state old_node) σ with
      | (Ok new_state, σ) =>
          match insert_node self old_node decision new_state with
          | Ok self =>
              if is_step_back decision then ((Ok (State_full_id new_state), self), σ)
              else
                match add_edge self source_id (State_full_id new_state) decision with
                | Ok self => ((Ok (State_full_id new_state), self), σ)
                | Err e => ((Err e, self), σ)
                | Panicked => ((Panicked, self), σ)
                end
          | Err e => ((Err e, self), σ)
          | Panicked => ((Panicked, self), σ)
          end
      | (Err e, σ) => ((Err e, self), σ)
      | (Panicked, σ) => ((Panicked, self), σ)
      end
  end.

(** ** Walking the graph *)

Inductive WalkState := ToProcessNonEmpty | YieldOuts | YieldNextNode (decision : Decision).
Record GraphIter := mkGraphIter {
  gi_node_outputs : gmap N (list Decision);
  gi_to_process : list N;
  gi_outs : option N;
  gi_iter_node : N;
  gi_walk_state : WalkState;
}.
Definition GraphIter_new (graph : Graph) : GraphIter :=
  mkGraphIter ∅ [g_root graph] None (g_root graph) ToProcessNonEmpty.

(** A turn of the loop of [iter]: an item is yielded, or not, or the stream ends. *)
Inductive Turn := Turn_Yield (item : Node * Decision) (next : GraphIter) | Turn_Continue (next : GraphIter) | Turn_Break.

(** The nodes the decisions of a node lead to; the last is looked up first. *)
Fixpoint destinations (graph : Graph) (state : State) (decisions : list Decision) : SM (list N) :=
  match decisions with
  | [] => mret []
  | decision :: decisions =>
      rest ← destinations graph state decisions;
      destination ← Decision_apply (dec_changes decision) state;
      if g_nodes graph !! State_full_id destination is Some _ then mret (State_full_id destination :: rest)
      else SM_lift Panicked
  end.
(** A node that is met for the first time. *)
Definition enter_node (graph : Graph) (id : N) (node : Node) (self : GraphIter) : SM GraphIter :=
  match gi_node_outputs self !! id with
  | Some _ => mret self
  | None =>
      next ← destinations graph (nd_state node) (nd_outputs_decisions node);
      mret (mkGraphIter (<[id := nd_outputs_decisions node]> (gi_node_outputs self)) (next ++ gi_to_process self)
              (gi_outs self) (gi_iter_node self) (gi_walk_state self))
  end.
Definition set_outputs (id : N) (outs : list Decision) (to_process : list N) (walk_state : WalkState) (self : GraphIter) :
    GraphIter :=
  mkGraphIter (<[id := outs]> (gi_node_outputs self)) to_process (gi_outs self) (gi_iter_node self) walk_state.
Definition walk_process (graph : Graph) (self : GraphIter) : SM Turn :=
  match gi_to_process self with
  | [] => mret (Turn_Continue (mkGraphIter (gi_node_outputs self) [] (gi_outs self) (gi_iter_node self) YieldOuts))
  | id :: to_process =>
      match g_nodes graph !! id with
      | None => SM_lift Panicked
      | Some node =>
          self ← enter_node graph id node
                   (mkGraphIter (gi_node_outputs self) to_process (gi_outs self) (gi_iter_node self) (gi_walk_state self));
          let self := mkGraphIter (gi_node_outputs self) (gi_to_process self) (Some id) (gi_iter_node self)
                        (gi_walk_state self) in
          match gi_node_outputs self !! id with
          | None => SM_lift Panicked
          | Some [] => mret (Turn_Continue self)
          | Some (decision :: outs) =>
              mret (Turn_Yield (node, decision)
                      (set_outputs id outs (gi_to_process self ++ [id]) (gi_walk_state self) self))
          end
      end
  end.
Definition walk_turn (graph : Graph) (self : GraphIter) : SM Turn :=
  match gi_walk_state self with
  | ToProcessNonEmpty => walk_process graph self
  | YieldOuts =>
      match gi_outs self with
      | None => SM_lift Panicked
      | Some id =>
          match gi_node_outputs self !! id, g_nodes graph !! gi_iter_node self with
          | None, _ | _, None => SM_lift Panicked
          | Some [], _ => mret Turn_Break
          | Some (decision :: outs), Some node =>
              mret (Turn_Yield (node, decision)
                      (set_outputs id outs (gi_to_process self) (YieldNextNode decision) self))
          end
      end
  | YieldNextNode decision =>
      match g_nodes graph !! gi_iter_node self with
      | None => SM_lift Panicked
      | Some node =>
          next_state ← Decision_apply (dec_changes decision) (nd_state node);
          if g_nodes graph !! State_full_id next_state is Some _ then
            mret (Turn_Continue (mkGraphIter (gi_node_outputs self) (gi_to_process self) (gi_outs self)
                                   (State_full_id next_state) YieldOuts))
          else SM_lift Panicked
      end
  end.
(** The items of a walk; the fuel bounds the turns. *)
Fixpoint walk_from (fuel : nat) (graph : Graph) (self : GraphIter) : SM (list (Node * Decision)) :=
  match fuel with
  | O => SM_lift Panicked
  | S fuel =>
      turn ← walk_turn graph self;
      match turn with
      | Turn_Break => mret []
      | Turn_Continue self => walk_from fuel graph self
      | Turn_Yield item self => rest ← walk_from fuel graph self; mret (item :: rest)
      end
  end.
Definition walk (fuel : nat) (graph : Graph) : SM (list (Node * Decision)) := walk_from fuel graph (GraphIter_new graph).
End graph.
Arguments Node Repo Recipe T : clear implicits.
Arguments Graph Repo Recipe T : clear implicits.
