(* ===== verification/GraphTheory.v ===== *)
(** * Theory of the solve graph

    What holds of every graph ([Graph]) that branches are added to: the key of
    a node is the identifier of its state, every decision recorded in a node
    leads to a node of the graph, and no two to the same one; what adding a
    branch changes; and what walking a graph yields. *)

From stdpp Require Import gmap.
From S2P Require Import Prelude Strings Collections Names Version VersionOrder VersionText.
From S2P Require Import Compat RangeData Reasons CompatCheck VersionRange Components Options Idents.
From S2P Require Import Requests RequestEq Opts Requirements ComponentSpecs Satisfy Embedded PackageSpec.
From S2P Require Import Intersection RangeTheory MergeTheory RequestPools Encoding Solution SolverState SolverTheory SolverRequests.
From S2P Require Import Validation ValidationTheory Decisions DecisionTheory BuildKeys PackageIterators IteratorTheory Graph.

Section theory.
Context {Repo Recipe T C Error Pattern : Type} `{!SourceOps Repo Recipe} `{!Versioned T, !ComponentOps C, !Package T C}.
Context `{!Hasher T, !GlobOps Pattern, !RepoOps Repo Recipe T Error}.
Context (request_priority_order : list Pattern).
Context (permutations2 : forall A : Type, list A -> list (A * A)).
Implicit Types (s : State Repo Recipe T) (d : Decision Repo Recipe T) (σ : Store) (g : Graph Repo Recipe T).
Implicit Types (n : Node Repo Recipe T).

Abbreviation Change_apply := (Change_apply request_priority_order permutations2).
Abbreviation apply_changes := (apply_changes request_priority_order permutations2).
Abbreviation Decision_apply := (Decision_apply request_priority_order permutations2).
Abbreviation add_branch := (add_branch (Error := Error) request_priority_order permutations2).
Abbreviation destinations := (destinations request_priority_order permutations2).
Abbreviation walk_from := (walk_from request_priority_order permutations2).
Abbreviation walk := (walk request_priority_order permutations2).

(** ** Decisions do not look at the store *)

(** A state without its caches. *)
Definition forget s : State Repo Recipe T :=
  mkState (st_pkg_requests s) (st_var_requests s) (st_packages s) (st_packages_in_solve_order s) (st_options s)
    (st_id s) 0 (st_depth s) 0.
Definition same_but_cells (r r' : res GraphError (State Repo Recipe T)) : Prop :=
  match r, r' with
  | Ok s, Ok s' => forget s = forget s'
  | Err e, Err e' => e = e'
  | Panicked, Panicked => True
  | _, _ => False
  end.
Lemma Change_apply_cells change parent parent' s s' σ σ' :
  forget parent = forget parent' -> forget s = forget s' ->
  same_but_cells (Change_apply change parent s σ).1 (Change_apply change parent' s' σ').1.
Proof.
  destruct parent, parent', s, s'. unfold forget. cbn. intros [= -> -> -> -> -> -> ->] [= -> -> -> -> -> -> ->].
  destruct change as [r prioritize|r|o|spec src|spec src|dest c]; cbn; try done.
  unfold RequestPackage_apply, mbind, SM_bind, SM_lift. cbn.
  destruct (merge_into _ _ _ _) as [[[cloned|] requests]|[]|]; cbn; done.
Qed.
Lemma apply_changes_cells changes parent parent' s s' σ σ' :
  forget parent = forget parent' -> forget s = forget s' ->
  same_but_cells (apply_changes parent s changes σ).1 (apply_changes parent' s' changes σ').1.
Proof.
  intros Hp. revert s s' σ σ'. induction changes as [|change changes IH]; intros s s' σ σ' Hs; [done|].
  cbn [SolverState.apply_changes]. unfold mbind, SM_bind.
  pose proof (Change_apply_cells change parent parent' s s' σ σ' Hp Hs) as Hc.
  destruct (Change_apply change parent s σ) as [[t|e|] σ1], (Change_apply change parent' s' σ') as [[t'|e'|] σ1'];
    try done. by apply IH.
Qed.

(** The state a decision leads to has this identifier. *)
Definition leads_to s d (id : N) : Prop :=
  exists σ s' σ', Decision_apply (dec_changes d) s σ = (Ok s', σ') /\ State_full_id s' = id.
Lemma leads_to_apply s d id σ :
  leads_to s d id -> exists s' σ', Decision_apply (dec_changes d) s σ = (Ok s', σ') /\ State_full_id s' = id.
Proof.
  intros (σ0 & s' & σ' & Ha & <-). unfold SolverState.Decision_apply in *.
  pose proof (apply_changes_cells (dec_changes d) s s s s σ0 σ eq_refl eq_refl) as Hc. rewrite Ha in Hc.
  destruct (apply_changes s s (dec_changes d) σ) as [[t|e|] σ1]; [|done..]. exists t, σ1. split; [done|].
  cbn in Hc. by injection Hc as _ _ _ _ _ Hid _; unfold State_full_id; rewrite Hid.
Qed.
Lemma leads_to_unique s d id id' : leads_to s d id -> leads_to s d id' -> id = id'.
Proof.
  intros H (σ & s' & σ' & Ha & <-). destruct (leads_to_apply s d id σ H) as (t & σ1 & Ht & <-).
  rewrite Ha in Ht. by injection Ht as <- _.
Qed.

(** ** The invariant *)

Definition node_wf g n : Prop :=
  exists ids, Forall2 (fun d id => leads_to (nd_state n) d id /\ is_Some (g_nodes g !! id)) (nd_outputs_decisions n) ids /\
    NoDup ids /\ nd_outputs n = list_to_set ids.
Record graph_wf g : Prop := {
  wf_root : is_Some (g_nodes g !! g_root g);
  wf_ids k n : g_nodes g !! k = Some n -> Node_id n = k;
  wf_edges k n : g_nodes g !! k = Some n -> node_wf g n;
}.

Lemma Graph_new_wf s : graph_wf (Graph_new s).
Proof.
  split; cbn [Graph_new g_nodes g_root]; [by exists (Node_new s); apply lookup_singleton_eq|..].
  - intros k n [<- <-]%lookup_singleton_Some. done.
  - intros k n [<- <-]%lookup_singleton_Some. exists []. split; [constructor|]. by split; [constructor|].
Qed.

(** What stays of a node. *)
Record same_node n n' : Prop := {
  same_state : nd_state n' = nd_state n;
  same_iterators : nd_iterators n' = nd_iterators n;
  same_outputs : nd_outputs_decisions n' = nd_outputs_decisions n;
  same_output_ids : nd_outputs n' = nd_outputs n;
}.
Lemma same_node_refl n : same_node n n.
Proof. by split. Qed.
Lemma node_wf_weaken g g' n n' :
  (forall k, is_Some (g_nodes g !! k) -> is_Some (g_nodes g' !! k)) ->
  nd_state n' = nd_state n -> nd_outputs_decisions n' = nd_outputs_decisions n -> nd_outputs n' = nd_outputs n ->
  node_wf g n -> node_wf g' n'.
Proof.
  intros Hg Hs Hd Ho (ids & Hf & Hn & Hi). exists ids. rewrite Hs, Hd, Ho. split; [|done].
  eapply Forall2_impl; [exact Hf|]. cbn. intros d id [? ?]. auto.
Qed.

(** A node is replaced, or added without edges. *)
Lemma set_node_wf g n :
  graph_wf g -> node_wf (set_node n g) n -> graph_wf (set_node n g).
Proof.
  intros [Hr Hi He] Hn. split; cbn [set_node g_nodes g_root].
  - destruct (decide (Node_id n = g_root g)) as [<-|Hne]; [by rewrite lookup_insert_eq|by rewrite lookup_insert_ne].
  - intros k n'. rewrite lookup_insert_Some. intros [[<- <-]|[_ H]]; auto.
  - intros k n' [[<- <-]|[_ H]]%lookup_insert_Some; [done|].
    eapply node_wf_weaken; [|done..|by eapply He]. intros j Hj. cbn.
    destruct (decide (Node_id n = j)) as [<-|Hne]; [by rewrite lookup_insert_eq|by rewrite lookup_insert_ne].
Qed.

Lemma insert_node_exact g old d s :
  graph_wf g -> is_Some (iterators_from g old d) ->
  exists g', insert_node (Error := Error) g old d s = Ok g' /\ graph_wf g' /\ g_root g' = g_root g /\
    (forall k, g_nodes g' !! k = if decide (k = State_full_id s) then
       match g_nodes g !! k with
       | Some n => Some n
       | None => (fun from => with_iterators (async_clone (Error := Error) <$> nd_iterators from) (Node_new s)) <$>
                   iterators_from g old d
       end else g_nodes g !! k).
Proof.
  intros Hwf [from Hfrom]. unfold insert_node. destruct (g_nodes g !! State_full_id s) as [n|] eqn:E.
  - exists g. split; [done|]. split; [done|]. split; [done|]. intros k. case_decide; [|done]. subst k. by rewrite E.
  - rewrite Hfrom. eexists. split; [done|]. split; [|split; [done|]].
    + apply set_node_wf; [done|]. exists []. by split; [constructor|split; [constructor|]].
    + intros k. cbn [set_node g_nodes]. change (Node_id _) with (State_full_id s). case_decide as Hk.
      * subst k. by rewrite lookup_insert_eq, E.
      * by rewrite lookup_insert_ne.
Qed.

Lemma add_input_wf g s d n : node_wf g n -> node_wf g (add_input s d n).
Proof. by apply node_wf_weaken. Qed.
Lemma add_output_wf g d s n n' :
  node_wf g n -> leads_to (nd_state n) d (State_full_id s) -> is_Some (g_nodes g !! State_full_id s) ->
  add_output d s n = Ok n' -> node_wf g n'.
Proof.
  intros (ids & Hf & Hn & Hi) Hl Hin. unfold add_output. case_bool_decide as Ho; [done|]. intros [= <-].
  rewrite Hi, elem_of_list_to_set in Ho. exists (ids ++ [State_full_id s]). cbn. split; [|split].
  - apply Forall2_app; [done|]. by repeat constructor.
  - apply NoDup_app. split; [done|]. split; [|apply NoDup_singleton]. by intros x Hx ->%list_elem_of_singleton.
  - rewrite Hi, list_to_set_app_L. cbn. set_solver.
Qed.

(** The outputs of a node, with the decision that was added. *)
Definition outputs_with (added : bool) d n : list (Decision Repo Recipe T) :=
  if added then nd_outputs_decisions n ++ [d] else nd_outputs_decisions n.
Lemma add_edge_exact g source id d old new :
  graph_wf g -> g_nodes g !! source = Some old -> g_nodes g !! id = Some new -> leads_to (nd_state old) d id ->
  if decide (id ∈ nd_outputs old) then add_edge g source id d = Err RecursionError else
  exists g', add_edge g source id d = Ok g' /\ graph_wf g' /\ g_root g' = g_root g /\
    (forall k, match g_nodes g !! k with
       | None => g_nodes g' !! k = None
       | Some n => exists n', g_nodes g' !! k = Some n' /\ nd_state n' = nd_state n /\
           nd_iterators n' = nd_iterators n /\ nd_outputs_decisions n' = outputs_with (bool_decide (k = source)) d n
       end).
Proof.
  intros Hwf Hold Hnew Hl. pose proof (wf_ids _ Hwf _ _ Hold) as Hoid. pose proof (wf_ids _ Hwf _ _ Hnew) as Hnid.
  unfold Node_id in Hoid, Hnid. unfold add_edge. rewrite Hold, Hnew.
  destruct (add_output d (nd_state new) old) as [old'|e|] eqn:Ea.
  2: { unfold add_output in Ea. rewrite Hnid in Ea. case_bool_decide; [|done]. injection Ea as <-. by rewrite decide_True. }
  2: { unfold add_output in Ea. by case_bool_decide. }
  assert ((id ∉ nd_outputs old) /\ nd_state old' = nd_state old /\ nd_iterators old' = nd_iterators old /\
    nd_outputs_decisions old' = nd_outputs_decisions old ++ [d]) as (Hni & Hs' & Hi' & Hd').
  { unfold add_output in Ea. rewrite Hnid in Ea. case_bool_decide; [done|]. by injection Ea as <-. }
  rewrite decide_False by done. cbn [mbind res_bind].
  assert (Node_id old' = source) as Hsid by by (unfold Node_id; rewrite Hs').
  assert (graph_wf (set_node old' g)) as Hwf'.
  { apply set_node_wf; [done|]. apply (add_output_wf _ d (nd_state new) old); [|by rewrite Hnid| |exact Ea].
    - apply (node_wf_weaken g _ old old); [|done..|by apply (wf_edges _ Hwf _ _ Hold)]. intros k Hk. cbn.
      destruct (decide (Node_id old' = k)) as [<-|Hne]; [by rewrite lookup_insert_eq|by rewrite lookup_insert_ne].
    - rewrite Hnid. cbn. destruct (decide (Node_id old' = id)) as [<-|Hne];
        [by rewrite lookup_insert_eq|rewrite lookup_insert_ne by done; by eexists]. }
  assert (exists new', g_nodes (set_node old' g) !! id = Some new' /\ nd_state new' = nd_state new /\
    nd_iterators new' = nd_iterators new /\
    nd_outputs_decisions new' = outputs_with (bool_decide (id = source)) d new) as (new' & Hnew' & Hns & Hni' & Hnd').
  { cbn. rewrite Hsid. destruct (decide (source = id)) as [<-|Hne].
    - rewrite lookup_insert_eq, bool_decide_true by done. rewrite Hold in Hnew. injection Hnew as <-. by exists old'.
    - rewrite lookup_insert_ne, bool_decide_false by congruence. by exists new. }
  rewrite Hnew'. eexists. split; [done|]. split; [|split; [done|]].
  - apply set_node_wf; [done|]. apply add_input_wf.
    apply (node_wf_weaken (set_node old' g) _ new' new'); [|done..|by apply (wf_edges _ Hwf' _ _ Hnew')].
    intros k Hk. cbn in *. destruct (decide (Node_id (add_input (nd_state old) d new') = k)) as [<-|Hne];
      [by rewrite lookup_insert_eq|by rewrite lookup_insert_ne].
  - intros k. cbn. assert (Node_id (add_input (nd_state old) d new') = id) as -> by by (unfold Node_id; cbn; rewrite Hns).
    destruct (decide (id = k)) as [<-|Hik].
    + rewrite Hnew, lookup_insert_eq. by eexists.
    + rewrite lookup_insert_ne by done. rewrite Hsid. destruct (decide (source = k)) as [<-|Hsk].
      * rewrite Hold, lookup_insert_eq, bool_decide_true by done. by exists old'.
      * rewrite lookup_insert_ne, bool_decide_false by congruence. destruct (g_nodes g !! k) as [n|] eqn:E; [|done]. by exists n.
Qed.

Lemma add_branch_wf g source old d id σ r σ' :
  graph_wf g -> g_nodes g !! source = Some old -> leads_to (nd_state old) d id -> is_Some (iterators_from g old d) ->
  add_branch g source d σ = (r, σ') -> graph_wf r.2.
Proof.
  intros Hwf Hold Hl Hfrom. destruct (leads_to_apply _ _ _ σ Hl) as (s & σ1 & Ha & Hid).
  destruct (insert_node_exact g old d s Hwf Hfrom) as (g1 & Hg1 & Hwf1 & Hroot1 & Hlk).
  unfold Graph.add_branch. rewrite Hold, Ha, Hg1, Hid. destruct (is_step_back d); [by intros [= <- _]|].
  assert (exists new, g_nodes g1 !! id = Some new) as [new Hnew].
  { rewrite Hlk, decide_True by done. destruct (g_nodes g !! id); [by eexists|]. destruct Hfrom as [from ->]. by eexists. }
  assert (g_nodes g1 !! source = Some old) as Hold1 by (rewrite Hlk; case_decide; [subst source|]; by rewrite Hold).
  pose proof (add_edge_exact g1 source id d old new Hwf1 Hold1 Hnew Hl) as He.
  case_decide; [rewrite He; by intros [= <- _]|]. destruct He as (g2 & -> & Hwf2 & _). by intros [= <- _].
Qed.

(** Adding a branch to a well-formed graph, from one of its nodes and by a
    decision that leads to some state, keeps the graph well-formed: keys are the
    identifiers of the states, recorded decisions lead to different nodes of the
    graph.  It returns the node of that state, or the error that the branch was
    attempted already exactly when a decision to the same state is recorded
    (a lone step back is never recorded).  Nodes keep their states and
    iterators and only the source gets the decision; a new node gets clones of
    the iterators of the source, or of the destination of the step back. *)
Theorem add_branch_exact g source old d id σ :
  graph_wf g -> g_nodes g !! source = Some old -> leads_to (nd_state old) d id -> is_Some (iterators_from g old d) ->
  let attempted := negb (is_step_back d) && bool_decide (id ∈ nd_outputs old) in
  exists g' σ',
    add_branch g source d σ = ((if attempted then Err RecursionError else Ok id, g'), σ') /\
    graph_wf g' /\ g_root g' = g_root g /\
    (forall k n, g_nodes g !! k = Some n -> exists n', g_nodes g' !! k = Some n' /\
       nd_state n' = nd_state n /\ nd_iterators n' = nd_iterators n /\
       nd_outputs_decisions n' = outputs_with (bool_decide (k = source) && negb (is_step_back d) && negb attempted) d n) /\
    (forall k n', g_nodes g !! k = None -> g_nodes g' !! k = Some n' -> k = id /\ nd_outputs_decisions n' = [] /\
       exists from, iterators_from g old d = Some from /\
         nd_iterators n' = async_clone (Error := Error) <$> nd_iterators from) /\
    is_Some (g_nodes g' !! id).
Proof.
  intros Hwf Hold Hl Hfrom attempted. destruct (leads_to_apply _ _ _ σ Hl) as (s & σ' & Ha & Hid).
  destruct (insert_node_exact g old d s Hwf Hfrom) as (g1 & Hg1 & Hwf1 & Hroot1 & Hlk). rewrite Hid in Hlk.
  assert (forall k n, g_nodes g !! k = Some n -> g_nodes g1 !! k = Some n) as Hkeep.
  { intros k n Hk. rewrite Hlk. case_decide; [|done]. subst k. by rewrite Hk. }
  assert (forall k n', g_nodes g !! k = None -> g_nodes g1 !! k = Some n' -> k = id /\ nd_outputs_decisions n' = [] /\
       exists from, iterators_from g old d = Some from /\
         nd_iterators n' = async_clone (Error := Error) <$> nd_iterators from) as Hadd.
  { intros k n' Hk. rewrite Hlk. case_decide as Hki; [|congruence]. subst k. rewrite Hk.
    destruct (iterators_from g old d) as [from|]; [|done]. intros [= <-]. split; [done|]. split; [done|]. by exists from. }
  assert (exists new, g_nodes g1 !! id = Some new) as [new Hnew].
  { rewrite Hlk, decide_True by done. destruct (g_nodes g !! id); [by eexists|]. destruct Hfrom as [from ->]. by eexists. }
  unfold Graph.add_branch. rewrite Hold, Ha, Hg1, Hid. unfold attempted. destruct (is_step_back d); cbn [negb andb].
  - exists g1, σ'. split; [done|]. do 2 (split; [done|]). split; [|split; [done|by exists new]].
    intros k n Hk. exists n. rewrite andb_false_r. by rewrite (Hkeep k n Hk).
  - pose proof (add_edge_exact g1 source id d old new Hwf1 (Hkeep _ _ Hold) Hnew Hl) as He.
    case_decide as Hin.
    + rewrite He, bool_decide_true by done. exists g1, σ'. split; [done|]. do 2 (split; [done|]).
      split; [|split; [done|by exists new]]. intros k n Hk. exists n. rewrite andb_false_r. by rewrite (Hkeep k n Hk).
    + destruct He as (g2 & -> & Hwf2 & Hroot2 & Hlk2). rewrite bool_decide_false by done. exists g2, σ'.
      split; [done|]. split; [done|]. split; [congruence|]. split; [|split].
      * intros k n Hk. specialize (Hlk2 k). rewrite (Hkeep k n Hk) in Hlk2. destruct Hlk2 as (n' & ? & ? & ? & ?).
        exists n'. by rewrite !andb_true_r.
      * intros k n' Hk Hk'. specialize (Hlk2 k). destruct (g_nodes g1 !! k) as [n|] eqn:E; [|congruence].
        destruct Hlk2 as (n2 & Hn2 & _ & Hi & Ho). rewrite Hk' in Hn2. injection Hn2 as <-.
        destruct (Hadd k n Hk E) as (-> & Hon & from & Hf & Hfi). split; [done|]. split; [|by exists from; rewrite Hi].
        rewrite Ho. unfold outputs_with. rewrite bool_decide_false; [done|]. intros ->. congruence.
      * specialize (Hlk2 id). rewrite Hnew in Hlk2. destruct Hlk2 as (n' & Hn' & _). by exists n'.
Qed.

(** ** Walking *)

Definition outputs_of g (k : N) : list (Decision Repo Recipe T) :=
  match g_nodes g !! k with Some n => nd_outputs_decisions n | None => [] end.
Definition children_of g (k id : N) : Prop :=
  exists n d, g_nodes g !! k = Some n /\ d ∈ nd_outputs_decisions n /\ leads_to (nd_state n) d id.
Definition reachable g (k : N) : Prop := rtc (children_of g) (g_root g) k.

Lemma destinations_exact g s ds ids σ :
  Forall2 (fun d id => leads_to s d id /\ is_Some (g_nodes g !! id)) ds ids ->
  exists σ', destinations g s ds σ = (Ok ids, σ').
Proof.
  revert σ. induction 1 as [|d id ds ids [Hd [n Hn]] _ IH]; [by eexists|]. cbn [Graph.destinations].
  destruct IH as [σ1 IH]. destruct (leads_to_apply s d id σ1 Hd) as (s' & σ2 & Ha & Hid).
  exists σ2. unfold mbind, SM_bind. rewrite IH, Ha, Hid, Hn. done.
Qed.

(** The decisions of a node that were not yielded yet. *)
Definition pending g (outputs : gmap N (list (Decision Repo Recipe T))) (k : N) : list (Decision Repo Recipe T) :=
  default (outputs_of g k) (outputs !! k).
(** The turns that are left, by node. *)
Definition turns_of g (outputs : gmap N (list (Decision Repo Recipe T))) (k : N) : nat :=
  match outputs !! k with Some ds => 2 * length ds | None => 4 * length (outputs_of g k) end.
Definition keys g : list N := (map_to_list (g_nodes g)).*1.
Definition turns g (it : GraphIter (Repo := Repo) (Recipe := Recipe) (T := T)) : nat :=
  length (gi_to_process it) + sum_list_with (turns_of g (gi_node_outputs it)) (keys g).
Lemma keys_NoDup g : NoDup (keys g).
Proof. apply NoDup_fst_map_to_list. Qed.
Lemma elem_of_keys g k : k ∈ keys g <-> is_Some (g_nodes g !! k).
Proof.
  unfold keys. rewrite list_elem_of_fmap. split.
  - intros ((k' & n) & -> & H%elem_of_map_to_list). by exists n.
  - intros [n Hn%elem_of_map_to_list]. by exists (k, n).
Qed.
Lemma sum_list_change {A} (f f' : A -> nat) l x :
  NoDup l -> x ∈ l -> (forall y, y <> x -> f' y = f y) -> sum_list_with f' l + f x = sum_list_with f l + f' x.
Proof.
  intros Hl Hx Hf. induction Hl as [|y l Hy Hl IH]; [by apply elem_of_nil in Hx|]. cbn.
  apply elem_of_cons in Hx as [->|Hx].
  - assert (sum_list_with f' l = sum_list_with f l) as ->; [|lia]. clear -Hy Hf.
    induction l as [|z l IH]; [done|]. apply not_elem_of_cons in Hy as [Hz Hy]. cbn. by rewrite IH, Hf.
  - rewrite Hf by congruence. specialize (IH Hx). lia.
Qed.
Lemma concat_change {A B} (f f' : A -> list B) l x y :
  NoDup l -> x ∈ l -> (forall z, z <> x -> f' z = f z) -> f x = y :: f' x ->
  concat (f <$> l) ≡ₚ y :: concat (f' <$> l).
Proof.
  intros Hl Hx Hf Hfx. induction Hl as [|z l Hz Hl IH]; [by apply elem_of_nil in Hx|]. cbn.
  apply elem_of_cons in Hx as [->|Hx].
  - rewrite Hfx. cbn. do 2 f_equiv. apply reflexive_eq. f_equal. apply list_fmap_ext. intros i w Hw.
    symmetry. apply Hf. intros ->. apply Hz. by eapply list_elem_of_lookup_2.
  - rewrite (Hf z) by congruence. rewrite IH by done. by rewrite Permutation_middle.
Qed.

Lemma children_destinations g k n ids :
  g_nodes g !! k = Some n ->
  Forall2 (fun d id => leads_to (nd_state n) d id /\ is_Some (g_nodes g !! id)) (nd_outputs_decisions n) ids ->
  forall id, children_of g k id <-> id ∈ ids.
Proof.
  intros Hk Hf id. split.
  - intros (n' & d & Hn' & Hd & Hl). rewrite Hk in Hn'. injection Hn' as <-.
    apply list_elem_of_lookup in Hd as [i Hi]. destruct (Forall2_lookup_l _ _ _ _ _ Hf Hi) as (id' & Hid' & Hl' & _).
    rewrite (leads_to_unique _ _ _ _ Hl Hl'). by eapply list_elem_of_lookup_2.
  - intros [i Hi]%list_elem_of_lookup. destruct (Forall2_lookup_r _ _ _ _ _ Hf Hi) as (d & Hd & Hl & _).
    exists n, d. split; [done|]. split; [by eapply list_elem_of_lookup_2|done].
Qed.
Lemma reachable_node g k : graph_wf g -> reachable g k -> is_Some (g_nodes g !! k).
Proof.
  intros Hwf [<-|(y & _ & Hy)]%rtc_inv_r; [apply (wf_root _ Hwf)|]. destruct Hy as (n & d & Hn & Hd & Hl).
  destruct (wf_edges _ Hwf _ _ Hn) as (ids & Hf & _). pose proof (children_destinations g y n ids Hn Hf k) as [Hk _].
  assert (k ∈ ids) as [i Hi]%list_elem_of_lookup by (apply Hk; by exists n, d).
  by destruct (Forall2_lookup_r _ _ _ _ _ Hf Hi) as (d' & _ & _ & ?).
Qed.

Record walking g (it : GraphIter (Repo := Repo) (Recipe := Recipe) (T := T)) : Prop := {
  wk_state : gi_walk_state it = ToProcessNonEmpty;
  wk_iter : gi_iter_node it = g_root g;
  wk_queue k : k ∈ gi_to_process it -> reachable g k;
  wk_visited k ds : gi_node_outputs it !! k = Some ds -> reachable g k /\ (ds <> [] -> k ∈ gi_to_process it);
  wk_children k id : is_Some (gi_node_outputs it !! k) -> children_of g k id ->
    id ∈ gi_to_process it \/ is_Some (gi_node_outputs it !! id);
  wk_root : g_root g ∈ gi_to_process it \/ is_Some (gi_node_outputs it !! g_root g);
  wk_outs : gi_to_process it = [] -> exists k, gi_outs it = Some k /\ gi_node_outputs it !! k = Some [];
}.

(** After a node was taken from the queue and entered. *)
Lemma enter_node_exact g it k q n σ :
  graph_wf g -> walking g it -> gi_to_process it = k :: q -> g_nodes g !! k = Some n ->
  exists it' σ', enter_node request_priority_order permutations2 g k n
      (mkGraphIter (gi_node_outputs it) q (gi_outs it) (gi_iter_node it) (gi_walk_state it)) σ = (Ok it', σ') /\
    gi_iter_node it' = g_root g /\ gi_walk_state it' = ToProcessNonEmpty /\
    (exists front, gi_to_process it' = front ++ q /\ (forall id, id ∈ front -> reachable g id) /\
       length front + turns_of g (gi_node_outputs it') k <= turns_of g (gi_node_outputs it) k) /\
    gi_node_outputs it' = <[k := pending g (gi_node_outputs it) k]> (gi_node_outputs it) /\
    (forall id, children_of g k id -> id ∈ gi_to_process it' \/ is_Some (gi_node_outputs it' !! id) \/ id = k).
Proof.
  intros Hwf Hw Hq Hn. destruct Hw as [Hs Hi Hqr Hv Hc Hr Ho]. unfold enter_node. cbn [gi_node_outputs].
  destruct (gi_node_outputs it !! k) as [ds|] eqn:E.
  - eexists _, σ. split; [done|]. cbn. split; [done|]. split; [done|]. split; [|split].
    + exists []. split; [done|]. split; [by intros id ?%elem_of_nil|]. cbn. done.
    + unfold pending. rewrite E. cbn. by rewrite insert_id.
    + intros id Hid. destruct (Hc k id) as [Hin|Hin]; [by rewrite E|done| |by auto].
      rewrite Hq in Hin. apply elem_of_cons in Hin as [->|Hin]; auto.
  - destruct (wf_edges _ Hwf _ _ Hn) as (ids & Hf & _). destruct (destinations_exact g _ _ ids σ Hf) as [σ' Hd].
    pose proof (children_destinations g k n ids Hn Hf) as Hch.
    eexists _, σ'. unfold mbind, SM_bind. rewrite Hd. split; [done|]. cbn. split; [done|]. split; [done|].
    split; [|split].
    + exists ids. split; [done|]. split.
      * intros id Hid%Hch. eapply rtc_r; [|exact Hid]. apply Hqr. rewrite Hq. by left.
      * unfold turns_of. rewrite lookup_insert_eq, E. unfold outputs_of. rewrite Hn.
        apply Forall2_length in Hf. lia.
    + unfold pending. rewrite E. cbn. unfold outputs_of. by rewrite Hn.
    + intros id Hid%Hch. left. apply elem_of_app. by left.
Qed.

Lemma walking_next g it k q rest queue :
  walking g it -> gi_to_process it = k :: q ->
  (forall id, id ∈ queue -> reachable g id) -> (forall id, id ∈ q -> id ∈ queue) -> (rest <> [] -> k ∈ queue) ->
  (forall id, children_of g k id -> id ∈ queue \/ is_Some (gi_node_outputs it !! id) \/ id = k) ->
  walking g (mkGraphIter (<[k := rest]> (gi_node_outputs it)) queue (Some k) (g_root g) ToProcessNonEmpty).
Proof.
  intros Hw Hq Hqueue Hsub Hrest Hch.
  assert (forall id, id = k \/ is_Some (gi_node_outputs it !! id) -> is_Some (<[k := rest]> (gi_node_outputs it) !! id)) as Hin.
  { intros id [->|H]; [by rewrite lookup_insert_eq|]. destruct (decide (k = id)) as [<-|Hne];
      [by rewrite lookup_insert_eq|by rewrite lookup_insert_ne]. }
  assert (forall id, id ∈ gi_to_process it \/ is_Some (gi_node_outputs it !! id) ->
    id ∈ queue \/ is_Some (<[k := rest]> (gi_node_outputs it) !! id)) as Hkeep.
  { intros id [H|H]; [|by auto]. rewrite Hq in H. apply elem_of_cons in H as [->|H]; auto. }
  split; cbn; [done|done|done| | | |].
  - intros j ds [[<- <-]|[Hne Hj]]%lookup_insert_Some.
    + split; [|done]. apply (wk_queue _ _ Hw). rewrite Hq. by left.
    + destruct (wk_visited _ _ Hw j ds Hj) as [Hr Hi]. split; [done|]. intros Hds. specialize (Hi Hds).
      rewrite Hq in Hi. apply elem_of_cons in Hi as [->|Hi]; [done|auto].
  - intros j id Hj Hid. destruct (decide (j = k)) as [->|Hne].
    + destruct (Hch id Hid) as [H|H]; [by left|right; apply Hin; naive_solver].
    + apply Hkeep. apply (wk_children _ _ Hw j id); [|done]. by rewrite lookup_insert_ne in Hj.
  - apply Hkeep, (wk_root _ _ Hw).
  - intros ->. exists k. split; [done|]. destruct rest as [|d rest]; [by rewrite lookup_insert_eq|].
    by apply elem_of_nil in Hrest.
Qed.

Definition items_of g (outputs : gmap N (list (Decision Repo Recipe T))) (k : N) :
    list (Node Repo Recipe T * Decision Repo Recipe T) :=
  match g_nodes g !! k with Some n => pair n <$> pending g outputs k | None => [] end.
(** The identifiers that can be reached, and the items of their nodes. *)
Definition yields_rest g outputs (items : list (Node Repo Recipe T * Decision Repo Recipe T)) : Prop :=
  exists ids, NoDup ids /\ (forall k, k ∈ ids <-> reachable g k) /\ items ≡ₚ concat (items_of g outputs <$> ids).

Lemma walking_done g it outputs σ fuel :
  graph_wf g -> walking g it -> gi_to_process it = [] -> gi_node_outputs it = outputs -> 2 <= fuel ->
  exists σ', walk_from fuel g it σ = (Ok [], σ') /\ yields_rest g outputs [].
Proof.
  intros Hwf Hw Hq Hout Hfuel. destruct it as [M q outs iter st]. cbn in Hq, Hout. subst q outputs.
  pose proof (wk_state _ _ Hw) as Hs. pose proof (wk_iter _ _ Hw) as Hi. cbn in Hs, Hi. subst st iter.
  destruct (wk_outs _ _ Hw eq_refl) as (k & Hk & Hks). cbn in Hk, Hks. subst outs.
  destruct (wf_root _ Hwf) as [root Hroot]. exists σ. split.
  - destruct fuel as [|[|fuel]]; [lia..|]. cbn [Graph.walk_from]. unfold walk_turn, walk_process, mbind, SM_bind. cbn.
    rewrite Hks, Hroot. done.
  - exists (elements (dom M)). split; [apply NoDup_elements|]. split.
    + intros j. rewrite elem_of_elements, elem_of_dom. split.
      * intros [ds Hds]. by apply (wk_visited _ _ Hw j ds).
      * revert j. apply (rtc_ind_r (fun j => is_Some (M !! j))).
        -- destruct (wk_root _ _ Hw) as [H|H]; [by apply elem_of_nil in H|done].
        -- intros x y _ Hxy IH. destruct (wk_children _ _ Hw x y) as [H|H]; [done..|by apply elem_of_nil in H|done].
    + assert (forall j, j ∈ elements (dom M) -> items_of g M j = []) as Hnil.
      { intros j [ds Hds]%elem_of_elements%elem_of_dom. unfold items_of, pending. rewrite Hds. cbn.
        destruct (wk_visited _ _ Hw j ds Hds) as [_ Hin]. destruct ds as [|d ds]; [by destruct (g_nodes g !! j)|].
        by destruct (elem_of_nil j) as [[] _]; apply Hin. }
      induction (elements (dom M)) as [|j l IH]; [done|]. cbn. rewrite Hnil by by left. apply IH.
      intros j' Hj'. apply Hnil. by right.
Qed.

Lemma pending_with g M k ds j : pending g (<[k := ds]> M) j = if decide (j = k) then ds else pending g M j.
Proof. unfold pending. case_decide as H; [subst; by rewrite lookup_insert_eq|by rewrite lookup_insert_ne]. Qed.
Lemma turns_with g M k ds j : turns_of g (<[k := ds]> M) j = if decide (j = k) then 2 * length ds else turns_of g M j.
Proof. unfold turns_of. case_decide as H; [subst; by rewrite lookup_insert_eq|by rewrite lookup_insert_ne]. Qed.
Lemma sum_turns_insert g M k ds :
  is_Some (g_nodes g !! k) ->
  sum_list_with (turns_of g (<[k := ds]> M)) (keys g) + turns_of g M k =
  sum_list_with (turns_of g M) (keys g) + 2 * length ds.
Proof.
  intros Hk%elem_of_keys.
  rewrite (sum_list_change (turns_of g M) (turns_of g (<[k := ds]> M)) (keys g) k (keys_NoDup g) Hk).
  - by rewrite turns_with, decide_True.
  - intros j Hj. by rewrite turns_with, decide_False.
Qed.
Lemma yields_rest_same g M k items :
  yields_rest g (<[k := pending g M k]> M) items -> yields_rest g M items.
Proof.
  intros (ids & Hn & Hr & Hp). exists ids. split; [done|]. split; [done|]. rewrite Hp. apply reflexive_eq. f_equal.
  apply list_fmap_ext. intros i j _. unfold items_of. destruct (g_nodes g !! j); [|done]. f_equal.
  rewrite pending_with. by case_decide; subst.
Qed.
Lemma yields_rest_next g M k n d ds items :
  g_nodes g !! k = Some n -> reachable g k -> pending g M k = d :: ds ->
  yields_rest g (<[k := ds]> M) items -> yields_rest g M ((n, d) :: items).
Proof.
  intros Hn Hk Hp (ids & Hnd & Hr & Hi). exists ids. split; [done|]. split; [done|].
  rewrite (concat_change (items_of g M) (items_of g (<[k := ds]> M)) ids k (n, d) Hnd); [by rewrite Hi|by apply Hr| |].
  - intros j Hj. unfold items_of. by rewrite pending_with, decide_False.
  - unfold items_of. by rewrite Hn, pending_with, decide_True, Hp.
Qed.

Lemma walk_from_exact g fuel it σ :
  graph_wf g -> walking g it -> turns g it + 2 <= fuel ->
  exists items σ', walk_from fuel g it σ = (Ok items, σ') /\ yields_rest g (gi_node_outputs it) items.
Proof.
  intros Hwf. revert it σ. induction fuel as [|fuel IH]; intros it σ Hw Hfuel; [lia|].
  destruct (gi_to_process it) as [|k q] eqn:Hq.
  { destruct (walking_done g it _ σ (S fuel) Hwf Hw Hq eq_refl) as (σ' & ? & ?); [lia|by exists [], σ']. }
  assert (reachable g k) as Hk by (apply (wk_queue _ _ Hw); rewrite Hq; by left).
  destruct (reachable_node g k Hwf Hk) as [n Hn].
  destruct (enter_node_exact g it k q n σ Hwf Hw Hq Hn) as (it' & σ' & He & Hiter & Hst & (front & Hq' & Hfr & Hlen) & Hout & Hch).
  assert (forall k', k' ∈ front ++ q -> reachable g k') as Hqueue.
  { intros k' [Hk'|Hk']%elem_of_app; [auto|]. apply (wk_queue _ _ Hw). rewrite Hq. by right. }
  unfold turns in Hfuel. rewrite Hq in Hfuel. cbn [length] in Hfuel.
  rewrite Hout, turns_with, decide_True in Hlen by done.
  cbn [Graph.walk_from]. unfold walk_turn. rewrite (wk_state _ _ Hw). unfold walk_process. rewrite Hq, Hn.
  unfold mbind, SM_bind. rewrite He. cbn [gi_node_outputs]. rewrite Hout, lookup_insert_eq.
  pose proof (sum_turns_insert g (gi_node_outputs it) k) as Hsum.
  destruct (pending g (gi_node_outputs it) k) as [|d ds] eqn:Hp.
  - destruct (IH (mkGraphIter (<[k := []]> (gi_node_outputs it)) (front ++ q) (Some k) (g_root g) ToProcessNonEmpty) σ')
      as (items & σ2 & Hi & Hy).
    + eapply walking_next; [done|exact Hq|exact Hqueue| |done|].
      * intros id Hid. apply elem_of_app. by right.
      * intros id Hid. destruct (Hch id Hid) as [H|[H|H]]; [left; by rewrite <-Hq'| |by auto]. rewrite Hout in H.
        destruct (decide (id = k)) as [->|Hne]; [by auto|]. rewrite lookup_insert_ne in H by done. by auto.
    + unfold turns. cbn [gi_to_process gi_node_outputs]. rewrite length_app.
      specialize (Hsum [] (mk_is_Some _ _ Hn)). cbn [length] in *. lia.
    + exists items, σ2. split; [|apply yields_rest_same with (k := k); by rewrite Hp].
      destruct it' as [M' q'' o' i' s']. cbn in Hq', Hout, Hiter, Hst |- *. subst. exact Hi.
  - destruct (IH (mkGraphIter (<[k := ds]> (gi_node_outputs it)) ((front ++ q) ++ [k]) (Some k) (g_root g) ToProcessNonEmpty) σ')
      as (items & σ2 & Hi & Hy).
    + eapply walking_next; [done|exact Hq| | | |].
      * intros id [Hid|Hid]%elem_of_app; [auto|]. by apply list_elem_of_singleton in Hid as ->.
      * intros id Hid. rewrite !elem_of_app. by auto.
      * intros _. apply elem_of_app. right. by left.
      * intros id Hid. destruct (Hch id Hid) as [H|[H|H]]; [left; apply elem_of_app; left; by rewrite <-Hq'| |by auto].
        rewrite Hout in H. destruct (decide (id = k)) as [->|Hne]; [by auto|].
        rewrite lookup_insert_ne in H by done. by auto.
    + unfold turns. cbn [gi_to_process gi_node_outputs]. rewrite !length_app.
      specialize (Hsum ds (mk_is_Some _ _ Hn)). cbn [length] in *. lia.
    + exists ((n, d) :: items), σ2. split; [|by eapply yields_rest_next].
      destruct it' as [M' q'' o' i' s']. cbn in Hq', Hout, Hiter, Hst |- *. subst.
      unfold set_outputs. cbn. rewrite insert_insert_eq, Hi. done.
Qed.

(** The decisions that are recorded in a graph. *)
Definition edge_count g : nat := sum_list_with (fun k => length (outputs_of g k)) (keys g).
Lemma start_turns g : turns g (GraphIter_new g) = S (4 * edge_count g).
Proof.
  unfold turns, edge_count. cbn [GraphIter_new gi_to_process gi_node_outputs length].
  induction (keys g) as [|k l IH]; [done|]. cbn [sum_list_with]. unfold turns_of at 1. rewrite lookup_empty. lia.
Qed.
Lemma walking_start g : walking g (GraphIter_new g).
Proof.
  split; cbn [GraphIter_new gi_walk_state gi_iter_node gi_to_process gi_node_outputs gi_outs]; [done|done|..|done].
  - intros k ->%list_elem_of_singleton. constructor.
  - intros k ds. by rewrite lookup_empty.
  - intros k id [ds H]. by rewrite lookup_empty in H.
  - left. by left.
Qed.

(** C19: walking a well-formed graph ends, and yields every decision that is
    recorded in a node that can be reached from the root, with its node, exactly
    once; whatever the decisions' cycles. *)
Theorem walk_exact g fuel σ :
  graph_wf g -> 4 * edge_count g + 3 <= fuel ->
  exists items σ' ids, walk fuel g σ = (Ok items, σ') /\
    NoDup ids /\ (forall k, k ∈ ids <-> reachable g k) /\
    items ≡ₚ concat ((fun k => match g_nodes g !! k with
                              | Some n => pair n <$> nd_outputs_decisions n | None => [] end) <$> ids).
Proof.
  intros Hwf Hfuel. destruct (walk_from_exact g fuel (GraphIter_new g) σ Hwf (walking_start g)) as (items & σ' & Hi & Hy).
  { rewrite start_turns. lia. }
  destruct Hy as (ids & Hn & Hr & Hp). exists items, σ', ids. do 3 (split; [done|]). rewrite Hp. apply reflexive_eq.
  f_equal. apply list_fmap_ext. intros i k _. unfold items_of. destruct (g_nodes g !! k) as [n|] eqn:E; [|done].
  f_equal. unfold pending, outputs_of. cbn [GraphIter_new gi_node_outputs]. by rewrite lookup_empty, E.
Qed.
End theory.

(** ** An example

    One branch from the dead state: a package is requested. *)

Abbreviation ExampleGraph := (Graph rstr VersionIdent TupleSpec).
Definition request_decision : Decision rstr VersionIdent TupleSpec :=
  Decision_new [RequestPackage_new request_from_one].
Definition example_branch (dead : ExampleState) : Store -> (res GraphError N * ExampleGraph) * Store :=
  add_branch (C := ExampleComponent) (Error := bool) [] permutations2_lex (Graph_new dead)
    (State_full_id dead) request_decision.
Definition example_dead : option ExampleState :=
  match default_state (C := ExampleComponent) (Repo := rstr) (Recipe := VersionIdent) (T := TupleSpec) Store_empty with
  | (Ok dead, _) => Some dead
  | _ => None
  end.
Lemma request_decision_leads dead : example_dead = Some dead ->
  leads_to (C := ExampleComponent) [] permutations2_lex dead request_decision
    (match (example_branch dead Store_empty).1.1 with Ok id => id | _ => 0%N end).
Proof.
  intros E. vm_compute in E. injection E as <-. eexists Store_empty, _, _. split; vm_compute; reflexivity.
Qed.

Lemma add_branch_exact_witness :
  exists dead id g' σ', example_dead = Some dead /\
    example_branch dead Store_empty = ((Ok id, g'), σ') /\ graph_wf (C := ExampleComponent) [] permutations2_lex g' /\
    is_Some (g_nodes g' !! id).
Proof.
  destruct example_dead as [dead|] eqn:E; [|vm_compute in E; discriminate].
  destruct (add_branch_exact (C := ExampleComponent) (Error := bool) [] permutations2_lex (Graph_new dead)
    (State_full_id dead) (Node_new dead) request_decision _ Store_empty (Graph_new_wf _ _ dead)
    (lookup_singleton_eq _ _) (request_decision_leads dead E)) as (g' & σ' & Ha & Hwf & _ & _ & _ & Hid).
  - by eexists.
  - eexists dead, _, g', σ'. split; [done|]. split; [exact Ha|]. by split.
Defined.

Lemma walk_exact_witness :
  exists dead g' σ' items, example_dead = Some dead /\
    (example_branch dead Store_empty).1.2 = g' /\
    (walk (C := ExampleComponent) [] permutations2_lex 7 g' Store_empty) = (Ok items, σ') /\
    List.map snd items = [request_decision].
Proof.
  destruct example_dead as [dead|] eqn:E; [|vm_compute in E; discriminate].
  destruct (example_branch dead Store_empty) as [r σ1] eqn:Eb.
  destruct (walk_exact (C := ExampleComponent) [] permutations2_lex r.2 7 Store_empty) as (items & σ' & ids & Hw & _).
  - eapply (add_branch_wf (Error := bool)); [apply (Graph_new_wf _ _ dead)|apply lookup_singleton_eq
      |by apply request_decision_leads|by eexists|exact Eb].
  - vm_compute in E. injection E as <-. vm_compute in Eb. injection Eb as <- _. vm_compute. lia.
  - exists dead, r.2, σ', items. split; [done|]. split; [by rewrite Eb|]. split; [exact Hw|].
    vm_compute in E. injection E as <-. vm_compute in Eb. injection Eb as <- _.
    vm_compute in Hw. injection Hw as <- _. reflexivity.
Defined.
