(* ===== verification/ImpossibleChecks.v ===== *)
(** * Impossible requests

    Models crates/spk-solve/crates/validation/src/impossible_checks.rs: whether
    some build in the repositories is valid for a request, which tasks find out
    that run at the same time, and the checker that remembers the answers.  The
    order in which the messages of the tasks arrive is a parameter. *)

From stdpp Require Import gmap.
From S2P Require Import Prelude Strings Collections Names Version VersionOrder VersionText.
From S2P Require Import Compat RangeData Reasons CompatCheck VersionRange Components Options Idents.
From S2P Require Import Requests RequestEq Opts Requirements ComponentSpecs Satisfy Embedded PackageSpec.
From S2P Require Import Encoding Solution SolverState Validation BuildKeys PackageIterators.

Definition default_impossible_version_validators : list Validators :=
  [Validator_Deprecation; Validator_PackageRequest; Validator_Components].

(** [Error], of the crate. *)
Inductive CheckError (Error : Type) :=
| CheckStorage (e : Error)
| CheckValidation (e : ValidationError).
Arguments CheckStorage {Error} e.
Arguments CheckValidation {Error} e.

(** The messages of the tasks; a task's handle is not looked at. *)
Inductive Comms :=
| NewVersionTask (pkg_version : AnyIdent)
| VersionTaskDone (build : AnyIdent) (compat : Compatibility) (builds_read : N)
| MakingTaskDone (launch_count : N).

Section checks.
Context {Repo Recipe T C Error : Type} `{!SourceOps Repo Recipe} `{!Versioned T, !ComponentOps C, !Package T C}.
Context `{!ComponentEmbeds C, !SolverPackage T C, !RepoOps Repo Recipe T Error}.
Context (hash_order : list Component -> list Component).
Context (permutations2 : forall A : Type, list A -> list (A * A)).
Context (display_reason : IncompatibleReason -> rstr).
(** [list_build_components] of a repository. *)
Context (list_build_components : Repo -> BuildIdent -> res Error (list Component)).
(** The order in which messages arrive. *)
Context (arrival : list Comms -> list Comms).

Abbreviation Req := PkgRequestWithOptions.
Abbreviation Result A := (res (CheckError Error) A).

(** ** A build for a request *)

(** [PotentialPackageRequest]: the request stands for the merged one. *)
Definition potential_request (request : Req) (name : rstr) : res GetMergedRequestError Req :=
  if bool_decide (req_name request = name) then Ok request else Err (NoRequestFor name).
Definition validate_against_pkg_request_with_options (validators : list Validators) (combined_request : Req)
    (spec : T) (source : PackageSource Repo Recipe) : res ValidationError Compatibility :=
  first_problem_res (fun validator =>
    validate_package_against_request hash_order display_reason validator (potential_request combined_request) spec source)
    validators.

(** The components of a build without their digests; any error but one is
    unwrapped. *)
Definition get_mock_build_components (repo : Repo) (build : BuildIdent) : Result (list (Component * Digest)) :=
  match list_build_components repo build with
  | Ok components => Ok (foldl (fun m c => hm_insert (fun a b => bool_decide (a = b)) c NULL_DIGEST m) [] components)
  | Err e => if is_package_not_found (Repo := Repo) (Recipe := Recipe) (T := T) e then Ok [] else Err (CheckStorage e)
  | Panicked => Panicked
  end.
Definition check_storage {A} (r : res Error A) : Result A :=
  match r with Ok a => Ok a | Err e => Err (CheckStorage e) | Panicked => Panicked end.

(** The message of a version's task, or why it sends none. *)
Definition valid_build (repo : Repo) (validators : list Validators) (request : Req) (build : BuildIdent) :
    Result Compatibility :=
  spec ← check_storage (read_package repo build);
  components ← match get_mock_build_components repo build with Err _ => Panicked | r => r end;
  match validate_against_pkg_request_with_options validators request spec (Source_Repository repo components) with
  | Ok compat => Ok compat
  | Err e => Err (CheckValidation e)
  | Panicked => Panicked
  end.
Definition no_compatible_builds (pkg_version : AnyIdent) (request : Req) : Result Compatibility :=
  text ← total (RangeIdent_to_string (pr_pkg (pkg_request request)));
  Ok (Incompatible (NoCompatibleBuilds (AnyIdent_fmt false pkg_version) text)).
Fixpoint any_valid_build (repo : Repo) (pkg_version : AnyIdent) (validators : list Validators) (request : Req)
    (builds : list BuildIdent) (builds_read : N) : Result Comms :=
  match builds with
  | [] =>
      nothing_valid ← no_compatible_builds pkg_version request;
      Ok (VersionTaskDone pkg_version nothing_valid builds_read)
  | build :: builds =>
      compat ← valid_build repo validators request build;
      if is_ok compat then Ok (VersionTaskDone (BuildIdent_to_any_ident build) compat (u64_add builds_read 1))
      else any_valid_build repo pkg_version validators request builds (u64_add builds_read 1)
  end.
Definition any_valid_build_in_version (repo : Repo) (pkg_version : AnyIdent) (validators : list Validators)
    (request : Req) : Result Comms :=
  builds ← check_storage (list_package_builds repo (id_base pkg_version));
  any_valid_build repo pkg_version validators request builds 0.

(** ** Tasks *)

Definition applicable_versions (request : Req) (versions : list Version) : list Version :=
  List.filter (fun version => is_ok (is_version_applicable (pkg_request request) version)) versions.
(** The versions [make_task_per_version] launches tasks for, up to the first
    repository that cannot list them; whether it comes to its end. *)
Fixpoint launched_tasks (package : rstr) (request : Req) (repos : list Repo) : list (Repo * AnyIdent) * bool :=
  match repos with
  | [] => ([], true)
  | repo :: repos =>
      match list_package_versions repo package with
      | Ok versions =>
          let tasks := List.map (fun version => (repo, mkIdent (mkIdent package version) None)) (applicable_versions request versions) in
          let '(rest, done) := launched_tasks package request repos in
          (tasks ++ rest, done)
      | _ => ([], false)
      end
  end.
(** Every message that is sent when nobody stops the tasks. *)
Definition messages (validators : list Validators) (request : Req) (repos : list Repo) : list Comms :=
  let '(tasks, done) := launched_tasks (req_name request) request repos in
  List.map (fun task => NewVersionTask task.2) tasks ++
  omap (fun '(repo, pkg_version) =>
          match any_valid_build_in_version repo pkg_version validators request with Ok m => Some m | _ => None end) tasks ++
  (if done then [MakingTaskDone (N.of_nat (length tasks))] else []).

(** ** The checker *)

Record ImpossibleRequestsChecker := mkChecker {
  ic_validators : list Validators;
  ic_impossible_requests : list (RangeIdent * N);
  ic_possible_requests : list (RangeIdent * N);
  num_ifalreadypresent_requests : N;
  num_impossible_requests_found : N;
  num_possible_requests_found : N;
  num_impossible_cache_hits : N;
  num_possible_cache_hits : N;
  num_build_specs_read : N;
  num_read_tasks_spawned : N;
  num_read_tasks_stopped : N;
}.
Abbreviation Checker := ImpossibleRequestsChecker.
Definition ImpossibleRequestsChecker_default : Checker :=
  mkChecker default_impossible_version_validators [] [] 0 0 0 0 0 0 0 0.
Definition checker_set_binary_only (binary_only : bool) (self : Checker) : Checker :=
  mkChecker (set_binary_only binary_only (ic_validators self)) (ic_impossible_requests self) (ic_possible_requests self)
    (num_ifalreadypresent_requests self) (num_impossible_requests_found self) (num_possible_requests_found self)
    (num_impossible_cache_hits self) (num_possible_cache_hits self) (num_build_specs_read self)
    (num_read_tasks_spawned self) (num_read_tasks_stopped self).
Definition checker_reset (self : Checker) : Checker := mkChecker (ic_validators self) [] [] 0 0 0 0 0 0 0 0.
Definition count_if_already_present (self : Checker) : Checker :=
  mkChecker (ic_validators self) (ic_impossible_requests self) (ic_possible_requests self)
    (u64_add (num_ifalreadypresent_requests self) 1) (num_impossible_requests_found self)
    (num_possible_requests_found self) (num_impossible_cache_hits self) (num_possible_cache_hits self)
    (num_build_specs_read self) (num_read_tasks_spawned self) (num_read_tasks_stopped self).
Definition count_not_combined (self : Checker) : Checker :=
  mkChecker (ic_validators self) (ic_impossible_requests self) (ic_possible_requests self)
    (num_ifalreadypresent_requests self) (u64_add (num_impossible_requests_found self) 1)
    (num_possible_requests_found self) (num_impossible_cache_hits self) (num_possible_cache_hits self)
    (num_build_specs_read self) (num_read_tasks_spawned self) (num_read_tasks_stopped self).

(** How often a request was seen, with this time. *)
Definition seen (request : RangeIdent) (cache : list (RangeIdent * N)) : N :=
  u64_add (default 0%N (hm_get RangeIdent_eq request cache)) 1.
Definition cache_and_count_impossible_request (request : RangeIdent) (self : Checker) : Checker :=
  let counter := seen request (ic_impossible_requests self) in
  let cache := hm_insert RangeIdent_eq request counter (ic_impossible_requests self) in
  mkChecker (ic_validators self) cache (ic_possible_requests self) (num_ifalreadypresent_requests self)
    (if (counter =? 1)%N then u64_add (num_impossible_requests_found self) 1 else num_impossible_requests_found self)
    (num_possible_requests_found self)
    (if (counter =? 1)%N then num_impossible_cache_hits self else u64_add (num_impossible_cache_hits self) 1)
    (num_possible_cache_hits self) (num_build_specs_read self) (num_read_tasks_spawned self) (num_read_tasks_stopped self).
Definition cache_and_count_possible_request (request : RangeIdent) (self : Checker) : Checker :=
  let counter := seen request (ic_possible_requests self) in
  let cache := hm_insert RangeIdent_eq request counter (ic_possible_requests self) in
  mkChecker (ic_validators self) (ic_impossible_requests self) cache (num_ifalreadypresent_requests self)
    (num_impossible_requests_found self)
    (if (counter =? 1)%N then u64_add (num_possible_requests_found self) 1 else num_possible_requests_found self)
    (num_impossible_cache_hits self)
    (if (counter =? 1)%N then num_possible_cache_hits self else u64_add (num_possible_cache_hits self) 1)
    (num_build_specs_read self) (num_read_tasks_spawned self) (num_read_tasks_stopped self).

(** ** Receiving messages *)

Definition count_spawned (self : Checker) : Checker :=
  mkChecker (ic_validators self) (ic_impossible_requests self) (ic_possible_requests self)
    (num_ifalreadypresent_requests self) (num_impossible_requests_found self) (num_possible_requests_found self)
    (num_impossible_cache_hits self) (num_possible_cache_hits self) (num_build_specs_read self)
    (u64_add (num_read_tasks_spawned self) 1) (num_read_tasks_stopped self).
Definition count_read (builds_read : N) (self : Checker) : Checker :=
  mkChecker (ic_validators self) (ic_impossible_requests self) (ic_possible_requests self)
    (num_ifalreadypresent_requests self) (num_impossible_requests_found self) (num_possible_requests_found self)
    (num_impossible_cache_hits self) (num_possible_cache_hits self) (u64_add (num_build_specs_read self) builds_read)
    (num_read_tasks_spawned self) (num_read_tasks_stopped self).
(** [stop_all_tasks]. *)
Definition stop_all_tasks (tasks : N) (self : Checker) : Checker :=
  mkChecker (ic_validators self) (ic_impossible_requests self) (ic_possible_requests self)
    (num_ifalreadypresent_requests self) (num_impossible_requests_found self) (num_possible_requests_found self)
    (num_impossible_cache_hits self) (num_possible_cache_hits self) (num_build_specs_read self)
    (num_read_tasks_spawned self) (u64_add (num_read_tasks_stopped self) tasks).

(** The loop of [any_build_valid_for_request]: how many tasks are known, done
    and launched. *)
Definition all_done (launched_count task_done_count : N) : bool :=
  (0 <? launched_count)%N && (task_done_count =? launched_count)%N.
Fixpoint receive (task_count task_done_count launched_count : N) (arriving : list Comms) (self : Checker) :
    bool * Checker :=
  match arriving with
  | [] => (false, self)
  | NewVersionTask _ :: arriving =>
      let self := count_spawned self in
      if all_done launched_count task_done_count then (false, self)
      else receive (task_count + 1) task_done_count launched_count arriving self
  | VersionTaskDone _ compat builds_read :: arriving =>
      let self := count_read builds_read self in
      if is_ok compat then (true, stop_all_tasks task_count self)
      else if all_done launched_count (task_done_count + 1) then (false, self)
      else receive task_count (task_done_count + 1) launched_count arriving self
  | MakingTaskDone launch_count :: arriving =>
      if (launch_count =? 0)%N || all_done launch_count task_done_count then (false, self)
      else receive task_count task_done_count launch_count arriving self
  end.
Definition any_build_valid_for_request (combined_request : Req) (repos : list Repo) (self : Checker) : bool * Checker :=
  receive 0 0 0 (arrival (messages (ic_validators self) combined_request repos)) self.

(** ** Checking the requirements of a package *)

(** The options of the package's own requirement for a name. *)
Definition options_required (requirements : list RequestWithOptions) (name : rstr) : option PkgRequestOptions :=
  head (omap (fun r =>
    match r with
    | RequestWithOptions_Pkg r => if bool_decide (req_name r = name) then Some (pro_options r) else None
    | RequestWithOptions_Var _ => None
    end) requirements).
(** An embedded package that is requested as well counts as a requirement. *)
Definition add_embedded (package : T) (unresolved : gmap rstr Req) (requirements : list RequestWithOptions)
    (embedded : EmbeddedPackageSpec C) : res Empty_set (list RequestWithOptions) :=
  let embedded_id := id_base (em_pkg embedded) in
  match unresolved !! id_base embedded_id with
  | None => Ok requirements
  | Some _ =>
      pkg_request ← PkgRequest_from_ident (VersionIdent_to_any_ident embedded_id None)
                      (RequestedBy_Embedded (pk_ident package));
      Ok (insert_or_replace id (RequestWithOptions_Pkg (mkPkgRequestWithOptions pkg_request
            (default [] (options_required (sp_runtime_requirements package) (id_base embedded_id))))) requirements).2
  end.
Fixpoint add_all_embedded (package : T) (unresolved : gmap rstr Req) (requirements : list RequestWithOptions)
    (embedded : list (EmbeddedPackageSpec C)) : res Empty_set (list RequestWithOptions) :=
  match embedded with
  | [] => Ok requirements
  | e :: embedded =>
      requirements ← add_embedded package unresolved requirements e;
      add_all_embedded package unresolved requirements embedded
  end.

(** A requirement combined with the unresolved request of its name. *)
Definition combined_request (unresolved : gmap rstr Req) (request : Req) : res Empty_set (Compatibility * Req) :=
  match unresolved !! req_name request with
  | None => Ok (Compatible, request)
  | Some unresolved_request => PkgRequestWithOptions_restrict permutations2 request unresolved_request
  end.
Definition restrict_problem (unresolved : gmap rstr Req) (request : Req) (incompatible : IncompatibleReason) :
    res Empty_set Compatibility :=
  pkg ← RangeIdent_to_string (pr_pkg (pkg_request request));
  unresolved_request ← match unresolved !! req_name request with
                       | Some r => RangeIdent_to_string (pr_pkg (pkg_request r))
                       | None => Ok []
                       end;
  Ok (Incompatible (ImpossibleRequest (ImpossibleRequest_Restrict pkg unresolved_request incompatible))).
Definition cached_problem (request combined : Req) : res Empty_set Compatibility :=
  pkg ← RangeIdent_to_string (pr_pkg (pkg_request request));
  combined_request ← RangeIdent_to_string (pr_pkg (pkg_request combined));
  Ok (Incompatible (ImpossibleRequest (ImpossibleRequest_Cached pkg combined_request))).
Definition in_cache (request : Req) (cache : list (RangeIdent * N)) : bool :=
  if hm_get RangeIdent_eq (pr_pkg (pkg_request request)) cache is Some _ then true else false.

(** A requirement: a problem ends the check. *)
Definition check_request (unresolved : gmap rstr Req) (repos : list Repo) (request : Req) (self : Checker) :
    res Empty_set Compatibility * Checker :=
  match combined_request unresolved request with
  | Err e => (Err e, self)
  | Panicked => (Panicked, self)
  | Ok (Incompatible incompatible, _) => (restrict_problem unresolved request incompatible, count_not_combined self)
  | Ok (Compatible, combined) =>
      let pkg := pr_pkg (pkg_request combined) in
      if bool_decide (pr_inclusion_policy (pkg_request combined) = IfAlreadyPresent)
      then (Ok Compatible, count_if_already_present self)
      else if in_cache combined (ic_impossible_requests self)
      then (cached_problem request combined, cache_and_count_impossible_request pkg self)
      else if in_cache combined (ic_possible_requests self)
      then (Ok Compatible, cache_and_count_possible_request pkg self)
      else
        let '(found_a_build, self) := any_build_valid_for_request combined repos self in
        if found_a_build then (Ok Compatible, cache_and_count_possible_request pkg self)
        else (cached_problem request combined, cache_and_count_impossible_request pkg self)
  end.
Fixpoint check_requests (unresolved : gmap rstr Req) (repos : list Repo) (requirements : list RequestWithOptions)
    (self : Checker) : res Empty_set Compatibility * Checker :=
  match requirements with
  | [] => (Ok Compatible, self)
  | RequestWithOptions_Var _ :: requirements => check_requests unresolved repos requirements self
  | RequestWithOptions_Pkg request :: requirements =>
      match check_request unresolved repos request self with
      | (Ok Compatible, self) => check_requests unresolved repos requirements self
      | problem => problem
      end
  end.
Definition validate_pkg_requests (package : T) (unresolved_requests : gmap rstr Req) (repos : list Repo) (self : Checker) :
    res Empty_set Compatibility * Checker :=
  match add_all_embedded package unresolved_requests (sp_runtime_requirements package) (sp_embedded package) with
  | Err e => (Err e, self)
  | Panicked => (Panicked, self)
  | Ok requirements => check_requests unresolved_requests repos requirements self
  end.
End checks.
