(* ===== verification/ImpossibleTheory.v ===== *)
(** * Theory of the impossible-request checks

    In whatever order the messages of the tasks arrive, a build is found exactly
    when there is a valid one ([ImpossibleChecks]); and the checker's caches
    answer for the first request of a range that was asked. *)

From stdpp Require Import gmap.
From S2P Require Import Prelude Strings Collections Names Version VersionOrder VersionText.
From S2P Require Import Compat RangeData Reasons CompatCheck Intersection VersionRange RangeTheory.
From S2P Require Import Components Options Idents Requests RequestEq Opts Requirements ComponentSpecs.
From S2P Require Import Satisfy Embedded PackageSpec MergeTheory RequestPools Encoding Solution SolverState SolverTheory.
From S2P Require Import SolverRequests Validation ValidationTheory BuildKeys PackageIterators IteratorTheory ImpossibleChecks.

(** ** Ranges as keys *)

Lemma opt_Build_eq_trans a b c : opt_Build_eq a b = true -> opt_Build_eq a c = opt_Build_eq b c.
Proof.
  destruct a as [a|], b as [b|], c as [c|]; cbn; try done. intros E. apply Bool.eq_iff_eq_true. split; intros H.
  - by eapply Build_eq_trans; [apply Build_eq_sym|].
  - by eapply Build_eq_trans.
Qed.
Lemma RangeIdent_eq_sym a b : RangeIdent_eq a b = RangeIdent_eq b a.
Proof.
  assert (forall a b, RangeIdent_eq a b = true -> RangeIdent_eq b a = true) as H.
  { clear. intros a b. unfold RangeIdent_eq. rewrite !andb_true_iff, !bool_decide_eq_true. intros [[[[-> ->] ->] Hc] Hb].
    split_and!; [done..| |].
    - destruct (cmp (ri_version a) (ri_version b)) eqn:E; [|done..]. by rewrite (cmp_eq_sym _ _ E).
    - rewrite <-(opt_Build_eq_trans _ _ _ Hb). apply opt_Build_eq_refl. }
  apply Bool.eq_iff_eq_true. split; apply H.
Qed.
Lemma RangeIdent_eq_trans a b c : RangeIdent_eq a b = true -> RangeIdent_eq a c = RangeIdent_eq b c.
Proof.
  unfold RangeIdent_eq. rewrite !andb_true_iff, !bool_decide_eq_true. intros [[[[-> ->] ->] Hc] Hb].
  destruct (cmp (ri_version a) (ri_version b)) eqn:E; [|done..].
  by rewrite (cmp_eq_cong _ _ (ri_version c) E), (opt_Build_eq_trans _ _ _ Hb).
Qed.
Lemma RangeIdent_eq_cong a b c : RangeIdent_eq a b = true -> RangeIdent_eq c a = RangeIdent_eq c b.
Proof. intros E. rewrite !(RangeIdent_eq_sym c). by apply RangeIdent_eq_trans. Qed.

(** ** Messages *)

Definition finds (m : Comms) : bool := match m with VersionTaskDone _ compat _ => is_ok compat | _ => false end.
Definition is_done (m : Comms) : bool := match m with VersionTaskDone _ _ _ => true | _ => false end.
Definition count_done (ms : list Comms) : N := N.of_nat (length (List.filter is_done ms)).
(** The maker counts the tasks right, if it gets to send the count. *)
Definition counts (n : N) (m : Comms) : Prop := match m with MakingTaskDone n' => n' = n | _ => True end.

Lemma no_done_finds ms : count_done ms = 0%N -> existsb finds ms = false.
Proof.
  unfold count_done. induction ms as [|m ms IH]; [done|]. destruct m; cbn; [auto|lia|auto].
Qed.
Lemma all_done_spec launched_count task_done_count :
  all_done launched_count task_done_count = true -> (0 < launched_count)%N /\ task_done_count = launched_count.
Proof. unfold all_done. rewrite andb_true_iff, N.ltb_lt, N.eqb_eq. done. Qed.
Lemma count_done_cons m ms : count_done (m :: ms) = ((if is_done m then 1 else 0) + count_done ms)%N.
Proof. unfold count_done. cbn. destruct (is_done m); cbn [length]; lia. Qed.

(** The loop stops early only when there is nothing left to find. *)
Lemma receive_exact n tasks finished launched ms self :
  Forall (counts n) ms -> (finished + count_done ms <= n)%N -> launched = 0%N \/ launched = n ->
  (receive tasks finished launched ms self).1 = existsb finds ms.
Proof.
  intros Hc. revert tasks finished launched self.
  induction Hc as [|m ms Hm Hc IH]; intros tasks finished launched self Hle Hl; [done|].
  rewrite count_done_cons in Hle. destruct m as [v|b compat read|count]; cbn [receive existsb finds is_done orb] in *.
  - destruct (all_done launched finished) eqn:E.
    + apply all_done_spec in E as [Hpos ->]. cbn [fst]. symmetry. apply no_done_finds. lia.
    + apply IH; [lia|done].
  - destruct (is_ok compat); [done|]. destruct (all_done launched (finished + 1)) eqn:E.
    + apply all_done_spec in E as [Hpos <-]. cbn [fst orb]. symmetry. apply no_done_finds. lia.
    + cbn [orb]. apply IH; [lia|done].
  - cbn [counts] in Hm. subst count. destruct (N.eqb_spec n 0) as [->|Hn]; cbn [orb].
    + cbn [fst]. symmetry. apply no_done_finds. lia.
    + destruct (all_done n finished) eqn:E.
      * apply all_done_spec in E as [Hpos ->]. cbn [fst]. symmetry. apply no_done_finds. lia.
      * apply IH; [lia|by right].
Qed.
Lemma count_done_app ms ms' : count_done (ms ++ ms') = (count_done ms + count_done ms')%N.
Proof. unfold count_done. rewrite List.filter_app, length_app. lia. Qed.
Lemma count_done_perm ms ms' : ms ≡ₚ ms' -> count_done ms = count_done ms'.
Proof.
  unfold count_done. intros Hp. f_equal. induction Hp as [|m l l' _ IH|m m' l|l l' l'' _ IH1 _ IH2]; cbn; [done|..].
  - destruct (is_done m); cbn; by rewrite ?IH.
  - by destruct (is_done m), (is_done m').
  - congruence.
Qed.
Lemma existsb_perm {A} (f : A -> bool) l l' : l ≡ₚ l' -> existsb f l = existsb f l'.
Proof.
  induction 1 as [|x l l' _ IH|x y l|l l1 l2 _ IH1 _ IH2]; cbn; [done|by rewrite IH| |congruence].
  by destruct (f x), (f y).
Qed.

Lemma length_omap_le {A B} (f : A -> option B) l : length (omap f l) <= length l.
Proof. induction l as [|x l IH]; [done|]. cbn. destruct (f x); cbn; lia. Qed.
Lemma count_done_le ms : (count_done ms <= N.of_nat (length ms))%N.
Proof. unfold count_done. induction ms as [|m ms IH]; [done|]. cbn. destruct (is_done m); cbn [length]; lia. Qed.

Section theory.
Context {Repo Recipe T C Error : Type} `{!SourceOps Repo Recipe} `{!Versioned T, !ComponentOps C, !Package T C}.
Context `{!ComponentEmbeds C, !SolverPackage T C, !RepoOps Repo Recipe T Error}.
Context (hash_order : list Component -> list Component).
Context (permutations2 : forall A : Type, list A -> list (A * A)).
Context (display_reason : IncompatibleReason -> rstr).
Context (list_build_components : Repo -> BuildIdent -> res Error (list Component)).
Implicit Types (repo : Repo) (repos : list Repo) (r request : PkgRequestWithOptions).

Abbreviation valid_build := (valid_build hash_order display_reason list_build_components).
Abbreviation task := (any_valid_build_in_version hash_order display_reason list_build_components).
Abbreviation messages := (messages hash_order display_reason list_build_components).

(** Some message of the tasks brings a build. *)
Definition available (validators : list Validators) repos r : bool := existsb finds (messages validators r repos).

Lemma builds_done repo v validators request builds read m :
  any_valid_build hash_order display_reason list_build_components repo v validators request builds read = Ok m ->
  is_done m = true.
Proof.
  revert read. induction builds as [|b builds IH]; intros read; cbn [any_valid_build].
  - by intros (c & _ & [= <-])%bind_Ok.
  - intros (c & _ & H)%bind_Ok. destruct (is_ok c); [by injection H as <-|by eapply IH].
Qed.
Lemma task_done repo v validators request m : task repo v validators request = Ok m -> is_done m = true.
Proof. intros (builds & _ & H)%bind_Ok. by eapply builds_done. Qed.

Lemma messages_count validators request repos ms :
  ms ≡ₚ messages validators request repos ->
  exists n, Forall (counts n) ms /\ (0 + count_done ms <= n)%N.
Proof.
  intros Hp. unfold ImpossibleChecks.messages in Hp. destruct (launched_tasks _ _ _) as [tasks complete] eqn:E.
  exists (N.of_nat (length tasks)). rewrite (count_done_perm _ _ Hp), Hp. split.
  - rewrite !Forall_app. split; [|split].
    + apply Forall_map, Forall_forall. done.
    + apply Forall_forall. intros m Hm. apply list_elem_of_omap in Hm as ((repo & v) & _ & Hm).
      destruct (task repo v validators request) as [m'| |] eqn:Et; [|done..]. injection Hm as ->.
      apply task_done in Et. by destruct m.
    + destruct complete; by repeat constructor.
  - rewrite !count_done_app.
    assert (count_done (List.map (fun t => NewVersionTask t.2) tasks) = 0%N) as ->.
    { unfold count_done. clear Hp E. induction tasks as [|t tasks IH]; [done|]. exact IH. }
    assert (count_done (if complete then [MakingTaskDone (N.of_nat (length tasks))] else []) = 0%N) as -> by by destruct complete.
    pose proof (count_done_le (omap (fun '(repo, pkg_version) =>
      match task repo pkg_version validators request with Ok m => Some m | _ => None end) tasks)) as H.
    pose proof (length_omap_le (fun '(repo, pkg_version) =>
      match task repo pkg_version validators request with Ok m => Some m | _ => None end) tasks) as H'. lia.
Qed.

(** A build that is valid for a request. *)
Definition has_valid_build (validators : list Validators) repos r : Prop :=
  exists repo versions version builds build,
    repo ∈ repos /\ list_package_versions repo (req_name r) = Ok versions /\ version ∈ versions /\
    is_ok (is_version_applicable (pkg_request r) version) = true /\
    list_package_builds repo (mkIdent (req_name r) version) = Ok builds /\ build ∈ builds /\
    valid_build repo validators r build = Ok Compatible.
(** Repositories that can be read, for all that a request asks. *)
Definition readable (validators : list Validators) repos r : Prop :=
  forall repo, repo ∈ repos ->
    exists versions, list_package_versions repo (req_name r) = Ok versions /\
      forall version, version ∈ versions ->
        exists builds, list_package_builds repo (mkIdent (req_name r) version) = Ok builds /\
          forall build, build ∈ builds -> exists compat, valid_build repo validators r build = Ok compat.
Definition printable r : Prop := exists text, RangeIdent_to_string (pr_pkg (pkg_request r)) = Ok text.

Lemma builds_exact repo v validators r builds read :
  printable r -> (forall b, b ∈ builds -> exists compat, valid_build repo validators r b = Ok compat) ->
  exists m, any_valid_build hash_order display_reason list_build_components repo v validators r builds read = Ok m /\
    (finds m = true <-> exists b, b ∈ builds /\ valid_build repo validators r b = Ok Compatible).
Proof.
  intros [text Htext]. revert read. induction builds as [|b builds IH]; intros read Hb; cbn [any_valid_build].
  - unfold no_compatible_builds. rewrite Htext. eexists. split; [done|]. cbn. split; [done|].
    by intros (b & ?%elem_of_nil & _).
  - destruct (Hb b) as [compat Hc]; [by left|]. rewrite Hc. cbn [mbind res_bind]. destruct compat as [|reason]; cbn [is_ok].
    + eexists. split; [done|]. cbn. split; [|done]. intros _. exists b. split; [by left|done].
    + destruct (IH (u64_add read 1)) as (m & Hm & Hf); [intros b' Hb'; apply Hb; by right|].
      exists m. split; [done|]. rewrite Hf. split.
      * intros (b' & Hb' & Hv). exists b'. split; [by right|done].
      * intros (b' & [->|Hb']%elem_of_cons & Hv); [congruence|by exists b'].
Qed.
Lemma launched_exact repos r package :
  (forall repo, repo ∈ repos -> exists versions, list_package_versions repo package = Ok versions) ->
  exists tasks, launched_tasks package r repos = (tasks, true) /\
    forall t, t ∈ tasks <-> exists repo versions version, repo ∈ repos /\ list_package_versions repo package = Ok versions /\
      version ∈ versions /\ is_ok (is_version_applicable (pkg_request r) version) = true /\
      t = (repo, mkIdent (mkIdent package version) None).
Proof.
  induction repos as [|repo repos IH]; intros Hr.
  { exists []. split; [done|]. intros t. split; [by intros ?%elem_of_nil|]. by intros (? & ? & ? & ?%elem_of_nil & _). }
  destruct (Hr repo) as [versions Hv]; [by left|]. destruct IH as (tasks & Ht & IH); [intros r' Hr'; apply Hr; by right|].
  cbn [launched_tasks]. rewrite Hv, Ht. eexists. split; [done|]. intros t. rewrite elem_of_app, IH.
  change (List.map ?f ?l) with (f <$> l). rewrite list_elem_of_fmap. split.
  - intros [(version & -> & Hin)|(r' & vs & v & Hin & H)].
    + exists repo, versions, version. unfold applicable_versions in Hin. apply list_elem_of_In, List.filter_In in Hin as [Hin Ha].
      apply list_elem_of_In in Hin. split; [by left|done].
    + exists r', vs, v. split; [by right|done].
  - intros (r' & vs & v & [->|Hin]%elem_of_cons & Hvs & Hin' & Ha & ->).
    + left. exists v. split; [done|]. rewrite Hv in Hvs. injection Hvs as <-. unfold applicable_versions.
      apply list_elem_of_In, List.filter_In. by rewrite <-list_elem_of_In.
    + right. by exists r', vs, v.
Qed.
Lemma available_exact validators repos r :
  printable r -> readable validators repos r -> (available validators repos r = true <-> has_valid_build validators repos r).
Proof.
  intros Hp Hr. destruct (launched_exact repos r (req_name r)) as (tasks & Ht & Htasks).
  { intros repo Hrepo. destruct (Hr repo Hrepo) as (versions & Hv & _). by exists versions. }
  assert (forall t, t ∈ tasks -> exists m, task t.1 t.2 validators r = Ok m /\
    (finds m = true <-> exists builds b, list_package_builds t.1 (id_base t.2) = Ok builds /\ b ∈ builds /\
       valid_build t.1 validators r b = Ok Compatible)) as Htask.
  { intros t (repo & versions & version & Hrepo & Hv & Hin & Ha & ->)%Htasks. cbn [fst snd id_base].
    destruct (Hr repo Hrepo) as (versions' & Hv' & Hb). rewrite Hv in Hv'. injection Hv' as <-.
    destruct (Hb version Hin) as (builds & Hbs & Hb'). unfold any_valid_build_in_version. cbn [id_base]. rewrite Hbs.
    destruct (builds_exact repo (mkIdent (mkIdent (req_name r) version) None) validators r builds 0 Hp Hb') as (m & Hm & Hf).
    exists m. split; [exact Hm|]. rewrite Hf. naive_solver. }
  unfold available, ImpossibleChecks.messages. rewrite Ht, !List.existsb_app.
  assert (existsb finds (List.map (fun t => NewVersionTask t.2) tasks) = false) as ->.
  { clear. induction tasks; [done|]. done. }
  cbn [existsb finds orb]. rewrite orb_false_r, List.existsb_exists. unfold has_valid_build. split.
  - intros (m & Hm%list_elem_of_In & Hf). apply list_elem_of_omap in Hm as ([repo v] & Hin & Hm).
    destruct (Htask (repo, v) Hin) as (m' & Hm' & Hf'). cbn [fst snd] in *. rewrite Hm' in Hm. injection Hm as ->.
    apply Hf' in Hf as (builds & b & Hbs & Hb & Hv).
    apply Htasks in Hin as (repo' & versions & version & Hrepo & Hvs & Hver & Ha & [= -> ->]).
    by exists repo', versions, version, builds, b.
  - intros (repo & versions & version & builds & b & Hrepo & Hvs & Hver & Ha & Hbs & Hb & Hv).
    assert ((repo, mkIdent (mkIdent (req_name r) version) None) ∈ tasks) as Hin by (apply Htasks; by exists repo, versions, version).
    destruct (Htask _ Hin) as (m & Hm & Hf). exists m. split.
    + apply list_elem_of_In, list_elem_of_omap. eexists. split; [exact Hin|]. cbv beta iota. cbn [fst snd] in Hm. by rewrite Hm.
    + apply Hf. by exists builds, b.
Qed.

Section arrival.
Context (arrival : list Comms -> list Comms) (arrival_perm : forall ms, arrival ms ≡ₚ ms).
Abbreviation any_build := (any_build_valid_for_request hash_order display_reason list_build_components arrival).
Abbreviation check_request := (check_request hash_order permutations2 display_reason list_build_components arrival).
Abbreviation check_requests := (check_requests hash_order permutations2 display_reason list_build_components arrival).
Abbreviation validate_pkg_requests :=
  (validate_pkg_requests hash_order permutations2 display_reason list_build_components arrival).

Lemma any_build_available r repos self : (any_build r repos self).1 = available (ic_validators self) repos r.
Proof using arrival_perm.
  unfold any_build_valid_for_request, available. destruct (messages_count (ic_validators self) r repos
    (arrival (messages (ic_validators self) r repos)) (arrival_perm _)) as (n & Hn & Hc).
  rewrite (receive_exact n) by (done || by left). by apply existsb_perm.
Qed.
Lemma receive_keeps tasks finished launched ms self :
  let self' := (receive tasks finished launched ms self).2 in
  ic_validators self' = ic_validators self /\ ic_impossible_requests self' = ic_impossible_requests self /\
  ic_possible_requests self' = ic_possible_requests self.
Proof using.
  revert tasks finished launched self. induction ms as [|m ms IH]; intros tasks finished launched self; [done|].
  destruct m as [v|b compat read|count]; cbn [receive].
  - destruct (all_done _ _); [done|]. exact (IH _ _ _ (count_spawned self)).
  - destruct (is_ok compat); [done|]. destruct (all_done _ _); [done|]. exact (IH _ _ _ (count_read read self)).
  - destruct (_ || _); [done|]. exact (IH _ _ _ self).
Qed.

(** Whatever the order in which the messages of the tasks arrive, the check
    ends with a valid build exactly when some repository has, for some version
    the request applies to, a build that every validator accepts. *)
Theorem any_build_valid_exact r repos self :
  printable r -> readable (ic_validators self) repos r ->
  ((any_build r repos self).1 = true <-> has_valid_build (ic_validators self) repos r).
Proof using arrival_perm. intros Hp Hr. rewrite any_build_available. by apply available_exact. Qed.

(** *** The caches *)

(** Ranges are the keys of the caches: of the requests with one range, the caches
    answer for the first whose builds were looked for.  [asked] are the requests
    that were, in their order. *)
Context (repos : list Repo) (validators : list Validators).
Definition same_range r r' : bool := RangeIdent_eq (pr_pkg (pkg_request r)) (pr_pkg (pkg_request r')).
Definition first_asked (asked : list PkgRequestWithOptions) r : option PkgRequestWithOptions :=
  List.find (fun r' => same_range r' r) asked.
Definition answer (asked : list PkgRequestWithOptions) r : bool := available validators repos (default r (first_asked asked r)).
Definition cached (self : ImpossibleRequestsChecker) r : option bool :=
  if in_cache r (ic_impossible_requests self) then Some false else if in_cache r (ic_possible_requests self) then Some true else None.
Record caches (asked : list PkgRequestWithOptions) (self : ImpossibleRequestsChecker) : Prop := {
  ok_validators : ic_validators self = validators;
  ok_cached r : cached self r = available validators repos <$> first_asked asked r;
}.
Lemma same_range_trans a b r : same_range a b = true -> same_range a r = same_range b r.
Proof using. apply RangeIdent_eq_trans. Qed.
Lemma in_cache_insert r c n cache : in_cache r (hm_insert RangeIdent_eq (pr_pkg (pkg_request c)) n cache) = same_range c r || in_cache r cache.
Proof using.
  unfold in_cache, same_range. rewrite (assoc_get_insert RangeIdent_eq RangeIdent_eq_refl RangeIdent_eq_trans).
  by destruct (RangeIdent_eq (pr_pkg (pkg_request c)) _).
Qed.
Lemma in_cache_cong c r cache : same_range c r = true -> in_cache c cache = in_cache r cache.
Proof using.
  intros E. unfold in_cache. induction cache as [|[k n] cache IH]; [done|]. cbn [hm_get].
  assert (RangeIdent_eq k (pr_pkg (pkg_request c)) = RangeIdent_eq k (pr_pkg (pkg_request r))) as -> by by apply RangeIdent_eq_cong.
  by destruct (RangeIdent_eq k _).
Qed.
Lemma first_asked_app asked c r : first_asked (asked ++ [c]) r =
  match first_asked asked r with Some r' => Some r' | None => if same_range c r then Some c else None end.
Proof using. unfold first_asked. induction asked as [|x asked IH]; [done|]. cbn. by destruct (same_range x r). Qed.
Lemma first_asked_cong asked c r : same_range c r = true -> first_asked asked c = first_asked asked r.
Proof using.
  intros E. unfold first_asked. induction asked as [|x asked IH]; [done|]. cbn [List.find].
  assert (same_range x c = same_range x r) as -> by by apply RangeIdent_eq_cong. by rewrite IH.
Qed.
(** Counting a hit changes no answer; a new answer is for a new request. *)
Lemma cached_possible r c self : cached (cache_and_count_possible_request (pr_pkg (pkg_request c)) self) r =
  match cached self r with Some b => Some b | None => if same_range c r then Some true else None end.
Proof using.
  unfold cached. change (ic_impossible_requests (cache_and_count_possible_request _ self)) with (ic_impossible_requests self).
  destruct (in_cache r (ic_impossible_requests self)); [done|]. unfold cache_and_count_possible_request. cbn [ic_possible_requests].
  rewrite in_cache_insert. by destruct (same_range c r), (in_cache r _).
Qed.
Lemma cached_impossible r c self : (cached self c = None \/ cached self c = Some false) ->
  cached (cache_and_count_impossible_request (pr_pkg (pkg_request c)) self) r =
  match cached self r with Some b => Some b | None => if same_range c r then Some false else None end.
Proof using.
  intros Hc. unfold cached in *. change (ic_possible_requests (cache_and_count_impossible_request _ self)) with (ic_possible_requests self).
  unfold cache_and_count_impossible_request. cbn [ic_impossible_requests]. rewrite in_cache_insert. destruct (same_range c r) eqn:E; cbn [orb]; [|by destruct (in_cache r (ic_impossible_requests self)), (in_cache r (ic_possible_requests self))].
  rewrite !(in_cache_cong c r) in Hc by done. destruct (in_cache r (ic_impossible_requests self)), (in_cache r (ic_possible_requests self)); naive_solver.
Qed.
Lemma cached_answer asked self r b : caches asked self -> cached self r = Some b -> answer asked r = b.
Proof using. intros [_ H] Hb. rewrite H in Hb. unfold answer. destruct (first_asked asked r); [by injection Hb|done]. Qed.
Lemma cached_problem_not_ok request combined compat : cached_problem request combined = Ok compat -> is_ok compat = false.
Proof using. by intros (a & _ & (b & _ & [= <-])%bind_Ok)%bind_Ok. Qed.

(** A requirement is held possible: it combines with the unresolved request, and is
    only wanted if the package is present, or what was asked first of its range has
    a valid build. *)
Definition possible (unresolved : gmap rstr PkgRequestWithOptions) (asked : list PkgRequestWithOptions) (request : PkgRequestWithOptions) : Prop :=
  exists combined, combined_request permutations2 unresolved request = Ok (Compatible, combined) /\
    (pr_inclusion_policy (pkg_request combined) = IfAlreadyPresent \/ answer asked combined = true).
Definition extends (asked asked' : list PkgRequestWithOptions) : Prop := exists new, asked' = asked ++ new.
(** The requests asked for are those of requirements, the first of their ranges. *)
Definition asked_for (unresolved : gmap rstr PkgRequestWithOptions) (requirements : list RequestWithOptions) (new : list PkgRequestWithOptions) : Prop :=
  forall c, c ∈ new -> exists r, RequestWithOptions_Pkg r ∈ requirements /\ combined_request permutations2 unresolved r = Ok (Compatible, c).

Lemma check_request_exact unresolved request asked self compat self' :
  caches asked self -> check_request unresolved repos request self = (Ok compat, self') ->
  exists new, caches (asked ++ new) self' /\ asked_for unresolved [RequestWithOptions_Pkg request] new /\
    (is_ok compat = true <-> possible unresolved (asked ++ new) request) /\
    (forall r, first_asked asked r <> None -> first_asked (asked ++ new) r = first_asked asked r) /\
    (forall combined, combined_request permutations2 unresolved request = Ok (Compatible, combined) ->
       pr_inclusion_policy (pkg_request combined) <> IfAlreadyPresent -> first_asked (asked ++ new) combined <> None).
Proof using arrival_perm.
  intros Hok. unfold ImpossibleChecks.check_request, possible, asked_for in *.
  assert (forall self1, ic_validators self1 = ic_validators self -> ic_impossible_requests self1 = ic_impossible_requests self ->
    ic_possible_requests self1 = ic_possible_requests self -> caches asked self1 /\ forall r, cached self1 r = cached self r) as Hsame.
  { intros self1 H1 H2 H3. assert (forall r, cached self1 r = cached self r) as Hc by (intros r; unfold cached; by rewrite H2, H3).
    split; [|done]. destruct Hok. split; [congruence|]. intros r. by rewrite Hc. }
  destruct (combined_request permutations2 unresolved request) as [[[|reason] combined]|[]|] eqn:Ec; [| |done].
  2: { intros [= Hr <-]. exists []. rewrite app_nil_r. split_and!; [by apply Hsame|by intros c []%elem_of_nil| |done|by intros c [=]].
       split; [|by intros (? & ? & _)]. apply bind_Ok in Hr as (a & _ & Hr). by apply bind_Ok in Hr as (b & _ & [= <-]). }
  case_bool_decide as Hpol.
  { intros [= <- <-]. exists []. rewrite app_nil_r. split_and!; [by apply Hsame|by intros c []%elem_of_nil| |done|intros c [= <-]; by intros []].
    split; [|done]. intros _. exists combined. auto. }
  assert (forall asked' b, answer asked' combined = b -> is_ok compat = b ->
    (is_ok compat = true <-> exists c, Ok (Compatible, combined) = Ok (E := Empty_set) (Compatible, c) /\
       (pr_inclusion_policy (pkg_request c) = IfAlreadyPresent \/ answer asked' c = true))) as Hiff.
  { intros asked' b Ha ->. split; [intros ->; exists combined; auto|]. by intros (c & [= <-] & [?|?]); congruence. }
  destruct (cached self combined) as [b|] eqn:Ec1.
  - (* the caches answer *)
    pose proof (cached_answer asked self combined b Hok Ec1) as Ha.
    assert (first_asked asked combined <> None) as Hfirst by (rewrite (ok_cached _ _ Hok) in Ec1; by destruct (first_asked asked combined)).
    assert (caches asked self' /\ is_ok compat = b -> exists new, caches (asked ++ new) self' /\
      (forall c, c ∈ new -> exists r, RequestWithOptions_Pkg r ∈ [RequestWithOptions_Pkg request] /\ combined_request permutations2 unresolved r = Ok (Compatible, c)) /\
      (is_ok compat = true <-> exists c, Ok (Compatible, combined) = Ok (E := Empty_set) (Compatible, c) /\
         (pr_inclusion_policy (pkg_request c) = IfAlreadyPresent \/ answer (asked ++ new) c = true)) /\
      (forall r, first_asked asked r <> None -> first_asked (asked ++ new) r = first_asked asked r) /\
      (forall c, Ok (Compatible, combined) = Ok (E := Empty_set) (Compatible, c) ->
         pr_inclusion_policy (pkg_request c) <> IfAlreadyPresent -> first_asked (asked ++ new) c <> None)) as Hdone.
    { intros [H1 H2]. exists []. rewrite app_nil_r. split_and!; [done|by intros c []%elem_of_nil|by apply (Hiff asked b)|done|by intros c [= <-]]. }
    assert (forall r, same_range combined r = true -> cached self r = Some b) as Hsim.
    { intros r E. rewrite (ok_cached _ _ Hok) in *. by rewrite <-(first_asked_cong _ _ _ E). }
    unfold cached in Ec1. destruct (in_cache combined (ic_impossible_requests self)) eqn:Ei; [injection Ec1 as <-|
      destruct (in_cache combined (ic_possible_requests self)) eqn:Ep; [injection Ec1 as <-|done]].
    + intros [= Hc%cached_problem_not_ok <-]. apply Hdone. split; [|done]. split; [apply Hok|]. intros r. rewrite <-(ok_cached _ _ Hok), cached_impossible.
      * destruct (cached self r) eqn:E; [done|]. destruct (same_range combined r) eqn:E'; [|done]. by rewrite Hsim in E.
      * right. unfold cached. by rewrite Ei.
    + intros [= <- <-]. apply Hdone. split; [|done]. split; [apply Hok|]. intros r. rewrite <-(ok_cached _ _ Hok), cached_possible.
      destruct (cached self r) eqn:E; [done|]. destruct (same_range combined r) eqn:E'; [|done]. by rewrite Hsim in E.
  - (* builds are looked for *)
    assert (first_asked asked combined = None) as Hnew by (rewrite (ok_cached _ _ Hok) in Ec1; by destruct (first_asked asked combined)).
    assert (in_cache combined (ic_impossible_requests self) = false /\ in_cache combined (ic_possible_requests self) = false) as [-> ->]
      by (unfold cached in Ec1; by destruct (in_cache combined (ic_impossible_requests self)), (in_cache combined (ic_possible_requests self))).
    pose proof (any_build_available combined repos self) as Hb. rewrite (ok_validators _ _ Hok) in Hb.
    destruct (receive_keeps 0 0 0 (arrival (messages (ic_validators self) combined repos)) self) as (H1 & H2 & H3).
    change (receive 0 0 0 _ self) with (any_build combined repos self) in H1, H2, H3.
    destruct (any_build combined repos self) as [found self1]. cbn [fst snd] in *.
    destruct (Hsame self1 H1 H2 H3) as [Hok1 Hc1].
    assert (first_asked (asked ++ [combined]) combined = Some combined) as Hf.
    { rewrite first_asked_app, Hnew. unfold same_range. by rewrite RangeIdent_eq_refl. }
    intros Hret. exists [combined].
    assert (caches (asked ++ [combined]) self' /\ is_ok compat = found) as [Hcaches Hcompat].
    { assert (forall r, available validators repos <$> first_asked (asked ++ [combined]) r =
        match cached self1 r with Some b => Some b | None => if same_range combined r then Some found else None end) as Hstep.
      { intros r. rewrite first_asked_app, (ok_cached _ _ Hok1). destruct (first_asked asked r); [done|]. cbn.
        destruct (same_range combined r); [|done]. cbn. by rewrite Hb. }
      destruct found.
      - injection Hret as <- <-. split; [|done]. split; [apply Hok1|]. intros r. by rewrite cached_possible, Hstep.
      - injection Hret as Hc%cached_problem_not_ok <-. split; [|done]. split; [apply Hok1|]. intros r.
        rewrite cached_impossible, Hstep; [done|]. left. by rewrite Hc1. }
    split_and!; [done| | |..].
    + intros c ->%list_elem_of_singleton. exists request. split; [by left|done].
    + apply (Hiff (asked ++ [combined]) found); [|done]. unfold answer. rewrite Hf. by rewrite Hb.
    + intros r Hr. rewrite first_asked_app. by destruct (first_asked asked r).
    + intros c [= <-] _. by rewrite Hf.
Qed.
(** What was answered stays. *)
Lemma possible_stays unresolved asked new r :
  (forall combined, combined_request permutations2 unresolved r = Ok (Compatible, combined) ->
     pr_inclusion_policy (pkg_request combined) <> IfAlreadyPresent -> first_asked (asked ++ new) combined = first_asked asked combined) ->
  possible unresolved (asked ++ new) r <-> possible unresolved asked r.
Proof using.
  intros H. unfold possible. split; intros (c & Hc & Ha); exists c; (split; [done|]); destruct Ha as [Ha|Ha]; [by left| |by left|];
    (destruct (decide (pr_inclusion_policy (pkg_request c) = IfAlreadyPresent)) as [?|Hne]; [by left|right]);
    unfold answer in *; by rewrite (H c Hc Hne) in *.
Qed.
Lemma check_requests_exact unresolved requirements asked self compat self' :
  caches asked self -> check_requests unresolved repos requirements self = (Ok compat, self') ->
  exists new, caches (asked ++ new) self' /\ asked_for unresolved requirements new /\
    (forall r, first_asked asked r <> None -> first_asked (asked ++ new) r = first_asked asked r) /\
    (is_ok compat = true <-> forall r, RequestWithOptions_Pkg r ∈ requirements -> possible unresolved (asked ++ new) r).
Proof using arrival_perm.
  revert asked self. induction requirements as [|[r|v] requirements IH]; intros asked self Hok; cbn [ImpossibleChecks.check_requests].
  - intros [= <- <-]. exists []. rewrite app_nil_r. split_and!; [done|by intros c []%elem_of_nil|done|]. split; [|done]. by intros _ r []%elem_of_nil.
  - destruct (check_request unresolved repos r self) as [[[|reason]|[]|] self1] eqn:E; [| |done].
    + destruct (check_request_exact unresolved r asked self _ _ Hok E) as (new1 & Hok1 & Hfor1 & [Hr _] & Hkeep1 & Hin).
      intros (new2 & Hok2 & Hfor2 & Hkeep2 & Hiff)%(IH (asked ++ new1)); [|done]. exists (new1 ++ new2). rewrite !(assoc_L (++)).
      split_and!; [done| | |].
      * intros c [(r' & Hr' & Hc)%Hfor1|(r' & Hr' & Hc)%Hfor2]%elem_of_app; exists r'; (split; [|done]).
        -- apply list_elem_of_singleton in Hr' as ->. by left.
        -- by right.
      * intros x Hx. rewrite Hkeep2; [by apply Hkeep1|]. by rewrite Hkeep1.
      * rewrite Hiff. split.
        -- intros Hall r' [[= ->]|Hr']%elem_of_cons; [|auto]. apply possible_stays; [|by apply Hr]. intros c Hc Hne. apply Hkeep2. by apply Hin.
        -- intros Hall r' Hr'. apply Hall. by right.
    + intros [= <- <-]. destruct (check_request_exact unresolved r asked self _ _ Hok E) as (new1 & Hok1 & Hfor1 & Hr & Hkeep1 & _).
      exists new1. split_and!; [done| |done|].
      * intros c (r' & Hr' & Hc)%Hfor1. exists r'. split; [|done]. apply list_elem_of_singleton in Hr' as ->. by left.
      * split; [done|]. intros Hall. apply Hr, Hall. by left.
  - intros (new & Hok2 & Hfor & Hkeep & Hiff)%(IH asked); [|done]. exists new. split_and!; [done| |done|].
    + intros c (r' & Hr' & Hc)%Hfor. exists r'. split; [by right|done].
    + rewrite Hiff. split.
      * intros Hall r' [[=]|Hr']%elem_of_cons. auto.
      * intros Hall r' Hr'. apply Hall. by right.
Qed.

(** The check returns for requests that can be combined and printed. *)
Definition checkable (unresolved : gmap rstr PkgRequestWithOptions) request : Prop :=
  printable request /\ (forall u, unresolved !! req_name request = Some u -> printable u) /\
  exists compat combined, combined_request permutations2 unresolved request = Ok (compat, combined) /\ printable combined.
Lemma check_request_returns unresolved request self :
  checkable unresolved request -> exists compat self', check_request unresolved repos request self = (Ok compat, self').
Proof using.
  intros ([text Ht] & Hu & compat & combined & Hc & [text' Ht']). unfold ImpossibleChecks.check_request. rewrite Hc.
  assert (exists c, cached_problem request combined = Ok c) as [c Hcp] by (unfold cached_problem; rewrite Ht, Ht'; by eexists).
  destruct compat as [|reason].
  - destruct (bool_decide _); [by do 2 eexists|]. destruct (in_cache _ _); [rewrite Hcp; by do 2 eexists|].
    destruct (in_cache _ _); [by do 2 eexists|]. destruct (any_build combined repos self) as [[] self1];
      [|rewrite Hcp]; by do 2 eexists.
  - unfold restrict_problem. rewrite Ht. cbn [mbind res_bind].
    destruct (unresolved !! req_name request) as [u|] eqn:Eu; [|by do 2 eexists].
    destruct (Hu u eq_refl) as [t Htu]. rewrite Htu. by do 2 eexists.
Qed.
Lemma check_requests_returns unresolved requirements self :
  (forall r, RequestWithOptions_Pkg r ∈ requirements -> checkable unresolved r) ->
  exists compat self', check_requests unresolved repos requirements self = (Ok compat, self').
Proof using.
  revert self. induction requirements as [|[r|v] requirements IH]; intros self Hc; cbn [ImpossibleChecks.check_requests].
  - by do 2 eexists.
  - destruct (check_request_returns unresolved r self) as (compat & self1 & ->); [apply Hc; by left|].
    destruct compat; [|by do 2 eexists]. apply IH. intros r' Hr'. apply Hc. by right.
  - apply IH. intros r' Hr'. apply Hc. by right.
Qed.

(** Where the range of a request decides, so does its own availability. *)
Lemma answer_by_range asked r :
  (forall r', r' ∈ asked -> same_range r' r = true -> available validators repos r' = available validators repos r) ->
  answer asked r = available validators repos r.
Proof using.
  intros H. unfold answer, first_asked. destruct (List.find _ asked) as [r'|] eqn:E; [|done]. apply find_some in E as [Hin Hs].
  apply H; [by apply list_elem_of_In|done].
Qed.
End arrival.
End theory.

(** ** An example

    Repositories hold one version of a package, a pre-release, with one build. *)

Definition beta : Version := mkVersion (VersionParts_from [1; 0; 0]%N) (mkTagSet [(lit "beta", 1%N)]) (mkTagSet []).
Definition beta_repo : RepoOps rstr VersionIdent TupleSpec bool :=
  {| list_package_versions := fun _ _ => Ok [beta];
     list_package_builds := fun _ v => Ok [mkIdent v Build_empty];
     repo_recipe := fun _ v => Ok v;
     read_package := fun _ b => Ok (example_read b);
     read_components := fun _ _ => Ok [];
     is_package_not_found := id;
     is_invalid_package_spec := negb |}.
Definition beta_components (_ : rstr) (_ : BuildIdent) : res bool (list Component) := Ok [ComponentRun; ComponentBuild].
Definition beta_request (policy : option PreReleasePolicy) : PkgRequestWithOptions :=
  mkPkgRequestWithOptions
    (mkPkgRequest (mkRangeIdent None (lit "my-pkg") [ComponentRun] [] None) policy Always None Required None []) [].
Definition beta_check (request : PkgRequestWithOptions) : ImpossibleRequestsChecker -> res Empty_set Compatibility * ImpossibleRequestsChecker :=
  check_request (RepoOps0 := beta_repo) (C := ExampleComponent) id permutations2_lex (fun _ => []) beta_components
    (fun ms => ms) ∅ [lit "origin"] request.

(** A request that excludes pre-releases makes the checker refuse one for the
    same range that includes them. *)
Lemma cache_ignores_prerelease_policy :
  let checker := (beta_check (beta_request None) ImpossibleRequestsChecker_default).2 in
  (beta_check (beta_request (Some IncludeAll)) ImpossibleRequestsChecker_default).1 = Ok Compatible /\
  exists reason, (beta_check (beta_request (Some IncludeAll)) checker).1 = Ok (Incompatible (ImpossibleRequest reason)).
Proof. split; [by vm_compute|]. eexists. vm_compute. reflexivity. Qed.

Definition beta_wanted : PkgRequestWithOptions := beta_request (Some IncludeAll).
Lemma beta_readable :
  readable (RepoOps0 := beta_repo) (C := ExampleComponent) id (fun _ => []) beta_components
    default_impossible_version_validators [lit "origin"] beta_wanted.
Proof.
  intros repo ->%list_elem_of_singleton. eexists. split; [reflexivity|]. intros version ->%list_elem_of_singleton.
  eexists. split; [reflexivity|]. intros build ->%list_elem_of_singleton. eexists. vm_compute. reflexivity.
Qed.
Lemma any_build_valid_exact_witness :
  (any_build_valid_for_request (RepoOps0 := beta_repo) (C := ExampleComponent) id (fun _ => []) beta_components
     (@reverse Comms) beta_wanted [lit "origin"] ImpossibleRequestsChecker_default).1 = true /\
  has_valid_build (RepoOps0 := beta_repo) (C := ExampleComponent) id (fun _ => []) beta_components
    default_impossible_version_validators [lit "origin"] beta_wanted.
Proof.
  assert ((any_build_valid_for_request (RepoOps0 := beta_repo) (C := ExampleComponent) id (fun _ => []) beta_components
     (@reverse Comms) beta_wanted [lit "origin"] ImpossibleRequestsChecker_default).1 = true) as H by by vm_compute.
  split; [exact H|]. eapply (any_build_valid_exact (RepoOps0 := beta_repo) (C := ExampleComponent) id (fun _ => [])
    beta_components (@reverse Comms) (fun ms => reverse_Permutation ms) beta_wanted [lit "origin"]
    ImpossibleRequestsChecker_default); [|exact beta_readable|exact H].
  eexists. vm_compute. reflexivity.
Defined.

(** A package that requires the pre-release is refused once builds for its range
    were looked for that are no pre-releases; a new checker accepts it. *)
Definition beta_app : TupleSpec :=
  mkPackageSpec (mkIdent (mkIdent (lit "app") (from_parts [1]%N)) Build_empty) Compat_default false [] InstallSpec_default
    [RequestWithOptions_Pkg beta_wanted].
Definition beta_asked : ImpossibleRequestsChecker := (beta_check (beta_request None) ImpossibleRequestsChecker_default).2.
Abbreviation beta_caches :=
  (caches (RepoOps0 := beta_repo) (C := ExampleComponent) id (fun _ => []) beta_components [lit "origin"]
    default_impossible_version_validators).
Abbreviation validate_beta_app :=
  (validate_pkg_requests (RepoOps0 := beta_repo) (C := ExampleComponent) id permutations2_lex (fun _ => [])
    beta_components (fun ms => ms) beta_app ∅ [lit "origin"]).
Lemma beta_checkable r :
  RequestWithOptions_Pkg r ∈ [RequestWithOptions_Pkg beta_wanted] -> checkable permutations2_lex ∅ r.
Proof.
  intros Hr%list_elem_of_singleton. injection Hr as ->. split; [eexists; vm_compute; reflexivity|].
  split; [intros u; by rewrite lookup_empty|]. exists Compatible, beta_wanted. split; [reflexivity|].
  eexists. vm_compute. reflexivity.
Qed.
Lemma beta_asked_caches : beta_caches [beta_request None] beta_asked.
Proof.
  split; [by vm_compute|]. intros r. unfold first_asked. cbn [List.find].
  assert (cached beta_asked r = if same_range (beta_request None) r then Some false else None) as ->.
  { assert (ic_impossible_requests beta_asked = [(pr_pkg (pkg_request (beta_request None)), 1%N)]) as Hi by by vm_compute.
    assert (ic_possible_requests beta_asked = []) as Hp by by vm_compute.
    unfold cached, in_cache. rewrite Hi, Hp. cbn [hm_get]. unfold same_range. by destruct (RangeIdent_eq _ _). }
  destruct (same_range (beta_request None) r); [|done]. by vm_compute.
Qed.
