(* ===== verification/StepSolver.v ===== *)
(** * The step solver

    Models the [Solver] of crates/spk-solve/src/solvers/step/solver.rs: its
    settings, counters and error statistics, and the requests and options it is
    configured with.  The steps it takes are in [StepState], the stream of them in
    [SolverRuntime]. *)

From stdpp Require Import gmap.
From S2P Require Import Prelude Strings Collections Names Version VersionOrder VersionText.
From S2P Require Import Compat RangeData Reasons CompatCheck VersionRange Components Options Idents.
From S2P Require Import Requests RequestEq Opts Requirements ComponentSpecs Satisfy Embedded PackageSpec.
From S2P Require Import Encoding Solution SolverState Validation Decisions BuildKeys PackageIterators.
From S2P Require Import Graph ImpossibleChecks.

(** ** What is around the solver *)

Record ImpossibleChecksSettings := mkChecksSettings {
  check_initial_requests : bool;
  check_before_resolving : bool;
  use_in_build_keys : bool;
}.

(** What the solver uses of the [Recipe] trait beyond [SolverRecipe], and the
    recipe that is written for an initial request to be checked, with the
    number of the request. *)
Class BuildableRecipe (Repo Recipe T : Type) := {
  recipe_resolve_options : Recipe -> OptionMap -> res rstr OptionMap;
  get_build_requirements : Recipe -> OptionMap -> res rstr (list RequestWithOptions);
  generate_binary_build : Recipe -> OptionMap -> Solution Repo Recipe T -> res rstr T;
  initial_request_recipe : nat -> PkgRequestWithOptions -> res rstr Recipe;
}.

(** Why the parts of an identifier do not make a build's. *)
Inductive IdentPartsError :=
| PartsHaveRepository
| PartsNameInvalid (e : InvalidNameError)
| PartsVersionInvalid (version : rstr)
| PartsBuildInvalid (build : rstr)
| PartsHaveNoBuild.

Inductive SolveError (Error : Type) :=
| OutOfOptions (request : PkgRequest) (notes : list Note)
| PackageNotFoundDuringSolve (request : PkgRequest)
| FailedToResolve
| SolveGraphError (e : GraphError)
| SolveParentError (e : ParentError)
| SolveIteratorError (e : IteratorError Error)
| SolveValidationError (e : ValidationError)
| SolveStorageError (e : Error)
| SolveSolutionError (e : SolutionError)
| SolveSpecError (text : rstr)
| SolveIdentError (e : IdentPartsError)
| SolveString (text : rstr)
| InitialRequestsContainImpossible (count : N)
| BuildFromSourceDependencyLoop (pkg : VersionIdent).
Arguments OutOfOptions {Error} request notes.
Arguments PackageNotFoundDuringSolve {Error} request.
Arguments FailedToResolve {Error}.
Arguments SolveGraphError {Error} e.
Arguments SolveParentError {Error} e.
Arguments SolveIteratorError {Error} e.
Arguments SolveValidationError {Error} e.
Arguments SolveStorageError {Error} e.
Arguments SolveSolutionError {Error} e.
Arguments SolveSpecError {Error} text.
Arguments SolveIdentError {Error} e.
Arguments SolveString {Error} text.
Arguments InitialRequestsContainImpossible {Error} count.
Arguments BuildFromSourceDependencyLoop {Error} pkg.

(** Configuration, third-party code and what the language leaves open: the
    orders in which [HashMap]s are walked and tasks finish, and the entry of
    lowest level that the history's priority queue pops.  Errors and
    incompatibilities are printed by functions; the last two bound the calls of
    [set_package] and [pkg_request_to_changes]. *)
Class SolveParameters (Repo T C Error Pattern : Type) := {
  request_priority_order : list Pattern;
  build_key_name_order : list Pattern;
  configured_checks : ImpossibleChecksSettings;
  hash_order : list Component -> list Component;
  permutations2 : forall A : Type, list A -> list (A * A);
  parse_version_range : rstr -> res rstr VersionRange;
  parse_build : rstr -> option Build;
  hash_str : rstr -> N;
  display_reason : IncompatibleReason -> rstr;
  display_error : SolveError Error -> rstr;
  not_found_ident : Error -> AnyIdent;
  same_embedded : EmbeddedPackageSpec C -> EmbeddedPackageSpec C -> bool;
  entries_order : list (EmbeddedPackageSpec C * list Component) -> list (EmbeddedPackageSpec C * list Component);
  builds_order : list (BuildIdent * list (rstr * Repo)) -> list (BuildIdent * list (rstr * Repo));
  versions_order : list Version -> list Version;
  idents_order : list BuildIdent -> list BuildIdent;
  requests_order : list PkgRequestWithOptions -> list PkgRequestWithOptions;
  list_build_components : Repo -> BuildIdent -> res Error (list Component);
  arrival : list Comms -> list Comms;
  finished_order : list T -> list T;
  pop_history : list (N * N * N) -> option ((N * N * N) * list (N * N * N));
  set_package_depth : nat;
  requirements_fuel : nat;
}.

(** ** Error statistics *)

Inductive ErrorDetails :=
| ErrorMessage (message : rstr)
| CouldNotSatisfy (request_string : rstr) (requesters : list RequestedBy).
Record CouldNotSatisfyRecord := mkCouldNotSatisfyRecord {
  cns_requesters : list RequestedBy;
  cns_first_example : list RequestedBy;
}.
Record ErrorFreq := mkErrorFreq { ef_counter : N; ef_record : option CouldNotSatisfyRecord }.

(** A [HashSet] of requesters is a list without two equal ones. *)
Definition contains_requester (requester : RequestedBy) (l : list RequestedBy) : bool :=
  existsb (fun r => RequestedBy_eq r requester) l.
Definition insert_requester (l : list RequestedBy) (requester : RequestedBy) : list RequestedBy :=
  if contains_requester requester l then l else l ++ [requester].

(** [ErrorFreq::get_message]. *)
Definition get_message (error_key : rstr) (self : ErrorFreq) : rstr :=
  match ef_record self with
  | None => error_key
  | Some r =>
      let message := lit "could not satisfy '" ++ error_key ++ lit "' as required by: " ++
                     join (lit ", ") (List.map RequestedBy_to_string (cns_first_example r)) in
      let num_others :=
        length (List.filter (fun reqby => negb (contains_requester reqby (cns_first_example r))) (cns_requesters r)) in
      if 0 <? num_others
      then message ++ lit " and " ++ dec (N.of_nat num_others) ++ lit " " ++
           (if 1 <? num_others then lit "others" else lit "other")
      else message
  end.
(** [increment_error_count].  An entry that was made for a message has no record
    of requesters: the [unwrap] panics if one has to be added to it. *)
Definition count_error (error_message : ErrorDetails) (frequency : gmap rstr ErrorFreq) :
    res Empty_set (gmap rstr ErrorFreq) :=
  match error_message with
  | ErrorMessage message =>
      let freq := default (mkErrorFreq 0 None) (frequency !! message) in
      Ok (<[message := mkErrorFreq (u64_add (ef_counter freq) 1) (ef_record freq)]> frequency)
  | CouldNotSatisfy request_string requesters =>
      let freq := default (mkErrorFreq 0 (Some (mkCouldNotSatisfyRecord [] requesters))) (frequency !! request_string) in
      match ef_record freq, requesters with
      | None, _ :: _ => Panicked
      | record, _ =>
          let record := (fun r => mkCouldNotSatisfyRecord (foldl insert_requester (cns_requesters r) requesters)
                                    (cns_first_example r)) <$> record in
          Ok (<[request_string := mkErrorFreq (u64_add (ef_counter freq) 1) record]> frequency)
      end
  end.
Definition count_problem_package (problem_package : rstr) (problem_packages : gmap rstr N) : gmap rstr N :=
  <[problem_package := u64_add (default 0%N (problem_packages !! problem_package)) 1]> problem_packages.

Section solver.
Context {Repo Recipe T C Error Pattern : Type} `{!SourceOps Repo Recipe} `{!Versioned T, !ComponentOps C, !Package T C}.
Context `{!ComponentEmbeds C, !ComponentRequires C, !SolverPackage T C, !SolverRecipe Recipe, !Hasher T}.
Context `{!GlobOps Pattern, !RepoOps Repo Recipe T Error, !BuildableRecipe Repo Recipe T}.
Context `{!SolveParameters Repo T C Error Pattern}.

Abbreviation State := (State Repo Recipe T).
Abbreviation Change := (Change Repo Recipe T).
Abbreviation Decision := (Decision Repo Recipe T).
Abbreviation Source := (PackageSource Repo Recipe).
Abbreviation Req := PkgRequestWithOptions.
Abbreviation Iterator := (RepositoryPackageIterator (Repo := Repo) (Recipe := Recipe) (T := T)).
Abbreviation Builds := (BuildIterator (Repo := Repo) (Recipe := Recipe) (T := T)).
Abbreviation SolveError := (SolveError Error).
Abbreviation Graph := (Graph Repo Recipe T).
Abbreviation Node := (Node Repo Recipe T).

(** ** The solver *)

(** The counter of steps back is shared: a cell of the store. *)
Record Solver := mkSolver {
  sv_repos : list Repo;
  sv_initial_state_builders : list Change;
  sv_validators : list Validators;
  sv_request_validator : ImpossibleRequestsChecker;
  sv_impossible_checks : ImpossibleChecksSettings;
  sv_number_of_steps : N;
  sv_number_builds_skipped : N;
  sv_number_incompat_versions : N;
  sv_number_incompat_builds : N;
  sv_number_total_builds : N;
  sv_number_of_steps_back : nat;
  sv_error_frequency : gmap rstr ErrorFreq;
  sv_problem_packages : gmap rstr N;
  sv_new_builds_started : list VersionIdent;
}.
(** [Default]: the counter is a new one. *)
Definition Solver_default (number_of_steps_back : nat) : Solver :=
  mkSolver [] [] default_validators ImpossibleRequestsChecker_default configured_checks 0 0 0 0 0
    number_of_steps_back ∅ ∅ [].

(** Assignments to fields. *)
Definition set_builders (f : list Change -> list Change) (self : Solver) : Solver :=
  mkSolver (sv_repos self) (f (sv_initial_state_builders self)) (sv_validators self) (sv_request_validator self)
    (sv_impossible_checks self) (sv_number_of_steps self) (sv_number_builds_skipped self)
    (sv_number_incompat_versions self) (sv_number_incompat_builds self) (sv_number_total_builds self)
    (sv_number_of_steps_back self) (sv_error_frequency self) (sv_problem_packages self) (sv_new_builds_started self).
Definition set_repos (f : list Repo -> list Repo) (self : Solver) : Solver :=
  mkSolver (f (sv_repos self)) (sv_initial_state_builders self) (sv_validators self) (sv_request_validator self)
    (sv_impossible_checks self) (sv_number_of_steps self) (sv_number_builds_skipped self)
    (sv_number_incompat_versions self) (sv_number_incompat_builds self) (sv_number_total_builds self)
    (sv_number_of_steps_back self) (sv_error_frequency self) (sv_problem_packages self) (sv_new_builds_started self).
Definition set_validators (f : list Validators -> list Validators) (self : Solver) : Solver :=
  mkSolver (sv_repos self) (sv_initial_state_builders self) (f (sv_validators self)) (sv_request_validator self)
    (sv_impossible_checks self) (sv_number_of_steps self) (sv_number_builds_skipped self)
    (sv_number_incompat_versions self) (sv_number_incompat_builds self) (sv_number_total_builds self)
    (sv_number_of_steps_back self) (sv_error_frequency self) (sv_problem_packages self) (sv_new_builds_started self).
Definition set_checker (f : ImpossibleRequestsChecker -> ImpossibleRequestsChecker) (self : Solver) : Solver :=
  mkSolver (sv_repos self) (sv_initial_state_builders self) (sv_validators self) (f (sv_request_validator self))
    (sv_impossible_checks self) (sv_number_of_steps self) (sv_number_builds_skipped self)
    (sv_number_incompat_versions self) (sv_number_incompat_builds self) (sv_number_total_builds self)
    (sv_number_of_steps_back self) (sv_error_frequency self) (sv_problem_packages self) (sv_new_builds_started self).
Definition set_checks (f : ImpossibleChecksSettings -> ImpossibleChecksSettings) (self : Solver) : Solver :=
  mkSolver (sv_repos self) (sv_initial_state_builders self) (sv_validators self) (sv_request_validator self)
    (f (sv_impossible_checks self)) (sv_number_of_steps self) (sv_number_builds_skipped self)
    (sv_number_incompat_versions self) (sv_number_incompat_builds self) (sv_number_total_builds self)
    (sv_number_of_steps_back self) (sv_error_frequency self) (sv_problem_packages self) (sv_new_builds_started self).
(** Additions to the counters of steps, builds skipped, incompatible versions,
    incompatible builds and builds considered. *)
Definition count (steps skipped versions builds total : N) (self : Solver) : Solver :=
  mkSolver (sv_repos self) (sv_initial_state_builders self) (sv_validators self) (sv_request_validator self)
    (sv_impossible_checks self) (u64_add (sv_number_of_steps self) steps)
    (u64_add (sv_number_builds_skipped self) skipped) (u64_add (sv_number_incompat_versions self) versions)
    (u64_add (sv_number_incompat_builds self) builds) (u64_add (sv_number_total_builds self) total)
    (sv_number_of_steps_back self) (sv_error_frequency self) (sv_problem_packages self) (sv_new_builds_started self).
Definition set_statistics (error_frequency : gmap rstr ErrorFreq) (problem_packages : gmap rstr N) (self : Solver) : Solver :=
  mkSolver (sv_repos self) (sv_initial_state_builders self) (sv_validators self) (sv_request_validator self)
    (sv_impossible_checks self) (sv_number_of_steps self) (sv_number_builds_skipped self)
    (sv_number_incompat_versions self) (sv_number_incompat_builds self) (sv_number_total_builds self)
    (sv_number_of_steps_back self) error_frequency problem_packages (sv_new_builds_started self).
Definition set_builds_started (f : list VersionIdent -> list VersionIdent) (self : Solver) : Solver :=
  mkSolver (sv_repos self) (sv_initial_state_builders self) (sv_validators self) (sv_request_validator self)
    (sv_impossible_checks self) (sv_number_of_steps self) (sv_number_builds_skipped self)
    (sv_number_incompat_versions self) (sv_number_incompat_builds self) (sv_number_total_builds self)
    (sv_number_of_steps_back self) (sv_error_frequency self) (sv_problem_packages self)
    (f (sv_new_builds_started self)).

(** [increment_error_count] and [increment_problem_package_count]. *)
Definition increment_error_count (error_message : ErrorDetails) (self : Solver) : res Empty_set Solver :=
  frequency ← count_error error_message (sv_error_frequency self);
  Ok (set_statistics frequency (sv_problem_packages self) self).
Definition increment_problem_package_count (problem_package : rstr) (self : Solver) : Solver :=
  set_statistics (sv_error_frequency self) (count_problem_package problem_package (sv_problem_packages self)) self.

(** *** Configuration *)

Definition add_repository (repo : Repo) (self : Solver) : Solver := set_repos (fun l => l ++ [repo]) self.
Definition update_options (options : OptionMap) (self : Solver) : Solver :=
  set_builders (fun l => l ++ [Change_SetOptions options]) self.
(** Without components, a request is for the source or the default one to run. *)
Definition initial_components (request : Req) : Req :=
  if bool_decide (req_components request = [])
  then with_request_components
         [if RangeIdent_is_source (pr_pkg (pkg_request request)) then ComponentSource else Component_default_for_run] request
  else request.
Definition add_request (request : RequestWithOptions) (self : Solver) : Solver :=
  set_builders (fun l => l ++
    [match request with
     | RequestWithOptions_Pkg request => RequestPackage_new (initial_components request)
     | RequestWithOptions_Var request => Change_RequestVar request
     end]) self.
Definition solver_set_binary_only (binary_only : bool) (self : Solver) : Solver :=
  set_validators (Validation.set_binary_only binary_only) (set_checker (checker_set_binary_only binary_only) self).
Definition set_initial_request_impossible_checks (enabled : bool) : Solver -> Solver :=
  set_checks (fun c => mkChecksSettings enabled (check_before_resolving c) (use_in_build_keys c)).
Definition set_resolve_validation_impossible_checks (enabled : bool) : Solver -> Solver :=
  set_checks (fun c => mkChecksSettings (check_initial_requests c) enabled (use_in_build_keys c)).
Definition set_build_key_impossible_checks (enabled : bool) : Solver -> Solver :=
  set_checks (fun c => mkChecksSettings (check_initial_requests c) (check_before_resolving c) enabled).
Definition any_impossible_checks_enabled (self : Solver) : bool :=
  let c := sv_impossible_checks self in check_initial_requests c || check_before_resolving c || use_in_build_keys c.
(** [reset], with the counter of steps back in the store. *)
Definition set_step_back_counter (counter : nat) (value : N) (σ : Store) : Store :=
  mkStore (option_maps σ) (unresolved_maps σ) (next_cell σ) (requests_for_same_package_count σ)
    (duplicate_requests_count σ) (<[counter := value]> (step_back_counters σ)).
Definition reset (self : Solver) (σ : Store) : Solver * Store :=
  (mkSolver [] [] default_validators (checker_reset (sv_request_validator self)) (sv_impossible_checks self) 0 0 0 0 0
     (sv_number_of_steps_back self) ∅ ∅ [],
   set_step_back_counter (sv_number_of_steps_back self) 0 σ).

(** [get_initial_state] and what is asked of it. *)
Definition solver_initial_state (self : Solver) : SM State :=
  get_initial_state request_priority_order permutations2 (sv_initial_state_builders self).
Definition get_options (self : Solver) : SM OptionMap := s ← solver_initial_state self; get_option_map s.
Definition get_pkg_requests (self : Solver) : SM (list Req) := s ← solver_initial_state self; mret (requests_of s).
Definition get_var_requests (self : Solver) : SM (list (VarRequest PinnedValue)) :=
  s ← solver_initial_state self; mret (st_var_requests s).
End solver.
Arguments Solver Repo Recipe T : clear implicits.
