(* ===== verification/StepState.v ===== *)
(** * A step of the solver

    Models [step_state] of crates/spk-solve/src/solvers/step/solver.rs and what it
    calls: it takes the next request of a node's state and looks for a build to
    resolve it with, in the order in which the cursor over the package's versions
    yields them.

    A step changes the solver, the caches of states, the cursor, and the notes it
    gathers: the parts of [StepEnv], which a monad passes along and which an error
    leaves as they are.  Locks that are waited for by who holds them are a
    [Panicked]. *)

From stdpp Require Import gmap.
From S2P Require Import Prelude Strings Collections Names Version VersionOrder VersionText.
From S2P Require Import Compat RangeData Reasons CompatCheck VersionRange Components Options Idents.
From S2P Require Import Requests RequestEq Opts Requirements ComponentSpecs Satisfy Embedded PackageSpec.
From S2P Require Import Encoding Solution SolverState Validation Decisions BuildKeys PackageIterators.
From S2P Require Import Graph ImpossibleChecks StepSolver.

Section step.
Context {Repo Recipe T C Error Pattern : Type} `{!SourceOps Repo Recipe} `{!Versioned T, !ComponentOps C, !Package T C}.
Context `{!ComponentEmbeds C, !ComponentRequires C, !SolverPackage T C, !SolverRecipe Recipe, !Hasher T}.
Context `{!GlobOps Pattern, !RepoOps Repo Recipe T Error, !BuildableRecipe Repo Recipe T}.
Context `{!SolveParameters Repo T C Error Pattern}.

Abbreviation State := (State Repo Recipe T).
Abbreviation Decision := (Decision Repo Recipe T).
Abbreviation Source := (PackageSource Repo Recipe).
Abbreviation Req := PkgRequestWithOptions.
Abbreviation Iterator := (RepositoryPackageIterator (Repo := Repo) (Recipe := Recipe) (T := T)).
Abbreviation Builds := (BuildIterator (Repo := Repo) (Recipe := Recipe) (T := T)).
Abbreviation SolveError := (SolveError Error).
Abbreviation Graph := (Graph Repo Recipe T).
Abbreviation Node := (Node Repo Recipe T).
Abbreviation Solver := (Solver Repo Recipe T).

(** ** Effects *)

(** [en_compat] is the variable that step_state keeps for the version at hand. *)
Record StepEnv := mkEnv {
  en_solver : Solver;
  en_store : Store;
  en_iterator : Iterator;
  en_notes : list Note;
  en_compat : Compatibility;
}.
Definition St (A : Type) : Type := StepEnv -> res SolveError A * StepEnv.
#[export] Instance St_ret : MRet St := fun A a e => (Ok a, e).
#[export] Instance St_bind : MBind St := fun A B f m e =>
  match m e with
  | (Ok a, e) => f a e
  | (Err x, e) => (Err x, e)
  | (Panicked, e) => (Panicked, e)
  end.
Definition lift {A} (r : res SolveError A) : St A := fun e => (r, e).
Definition throw {A} (x : SolveError) : St A := lift (Err x).
Definition asks {A} (f : StepEnv -> A) : St A := fun e => (Ok (f e), e).

Definition modify_solver (f : Solver -> Solver) : St unit := fun e =>
  (Ok tt, mkEnv (f (en_solver e)) (en_store e) (en_iterator e) (en_notes e) (en_compat e)).
Definition modify_iterator (f : Iterator -> Iterator) : St unit := fun e =>
  (Ok tt, mkEnv (en_solver e) (en_store e) (f (en_iterator e)) (en_notes e) (en_compat e)).
Definition push_note (note : Note) : St unit := fun e =>
  (Ok tt, mkEnv (en_solver e) (en_store e) (en_iterator e) (en_notes e ++ [note]) (en_compat e)).
Definition set_compat (compat : Compatibility) : St unit := fun e =>
  (Ok tt, mkEnv (en_solver e) (en_store e) (en_iterator e) (en_notes e) compat).
(** Operations on states and validators, and of the checker. *)
Definition with_store {E A} (error : E -> SolveError) (f : Store -> res E A * Store) : St A := fun e =>
  let '(r, σ) := f (en_store e) in
  (map_error error r, mkEnv (en_solver e) σ (en_iterator e) (en_notes e) (en_compat e)).
Definition with_checker {A} (f : ImpossibleRequestsChecker -> res Empty_set A * ImpossibleRequestsChecker) : St A := fun e =>
  let '(r, checker) := f (sv_request_validator (en_solver e)) in
  (total r, mkEnv (set_checker (fun _ => checker) (en_solver e)) (en_store e) (en_iterator e) (en_notes e) (en_compat e)).

(** ** Notes *)

Definition SkipPackageNote_new (pkg : AnyIdent) (reason : Compatibility) : Note :=
  Note_SkipPackage (mkSkipPackageNote pkg (SkipReason_Compatibility reason)).
Definition SkipPackageNote_new_from_message (pkg : AnyIdent) (reason : rstr) : Note :=
  Note_SkipPackage (mkSkipPackageNote pkg (SkipReason_String reason)).
Definition Compatibility_to_string (self : Compatibility) : rstr :=
  match self with Compatible => [] | Incompatible reason => display_reason reason end.
Definition GetMergedRequestError_to_string (e : GetMergedRequestError) : rstr :=
  match e with
  | NoRequestFor _ => lit "No request for: " ++ merged_request_text display_reason e
  | Conflict _ _ _ => merged_request_text display_reason e
  end.
Definition spec_any_ident (spec : T) : AnyIdent := BuildIdent_to_any_ident (pk_ident spec).
(** [skip_build]; and the same with a message. *)
Definition skip_build (spec : T) (compat : Compatibility) : St unit :=
  _ ← push_note (SkipPackageNote_new (spec_any_ident spec) compat); modify_solver (count 0 1 0 0 0).
Definition skip_with_message (spec : T) (message : rstr) : St unit :=
  _ ← push_note (SkipPackageNote_new_from_message (spec_any_ident spec) message); modify_solver (count 0 1 0 0 0).

(** ** Asking others *)

Definition merged_request (state : State) (name : rstr) : res GetMergedRequestError Req :=
  SolverState.get_merged_request permutations2 state name.
Definition validate (state : State) (spec : T) (source : Source) : St Compatibility :=
  validators ← asks (fun e => sv_validators (en_solver e));
  with_store SolveValidationError (Solver_validate_package (C := C) hash_order permutations2 parse_version_range display_reason
    validators state spec source).
Definition validate_the_recipe (state : State) (recipe : Recipe) : St Compatibility :=
  validators ← asks (fun e => sv_validators (en_solver e));
  with_store SolveValidationError (Solver_validate_recipe permutations2 display_reason validators state recipe).
Definition unresolved_requests_of (state : State) : St (gmap rstr Req) :=
  with_store SolveGraphError (SolverState.get_unresolved_requests permutations2 state).
(** [check_requirements_for_impossible_requests]. *)
Definition check_requirements (unresolved : gmap rstr Req) (spec : T) : St Compatibility :=
  repos ← asks (fun e => sv_repos (en_solver e));
  with_checker (validate_pkg_requests (Error := Error) (C := C) hash_order permutations2 display_reason
    list_build_components arrival spec unresolved repos).
(** [check_builds_for_impossible_requests], of a copy of the builds.  The tasks
    take turns, in the order in which they finish. *)
Fixpoint check_specs (unresolved : gmap rstr Req) (specs : list T) (found : list (BuildIdent * Compatibility)) :
    St (list (BuildIdent * Compatibility)) :=
  match specs with
  | [] => mret found
  | spec :: specs =>
      compat ← check_requirements unresolved spec;
      check_specs unresolved specs (if is_ok compat then found else hm_insert BuildIdent_eq (pk_ident spec) compat found)
  end.
Definition check_builds_for_impossible_requests (unresolved : gmap rstr Req) (builds : Builds) :
    St (list (BuildIdent * Compatibility)) :=
  items ← lift (map_error SolveIteratorError (drain_builds (Error := Error) builds));
  check_specs unresolved (finished_order (concat (List.map specs_of items))) [].

(** The state of the node with an identifier, which is read under its lock. *)
Definition target_state (graph : Graph) (current : N) (state_id : StateId) : St State :=
  match g_nodes graph !! full_hash state_id with
  | None => throw (SolveString (lit "state not found"))
  | Some node => if bool_decide (full_hash state_id = current) then lift Panicked else mret (nd_state node)
  end.

(** ** Builds *)

Section builds.
(** The graph, the node at hand and its state, the request to resolve, and
    [resolve_new_build]. *)
Context (resolve_new_build : Recipe -> State -> St T).
Context (graph : Graph) (current : N) (state : State) (request : Req).

(** A build that conflicts with a package in the solve: that package is
    reconsidered with this build in mind, unless it is embedded. *)
Definition already_embedded (name : rstr) (source : Source) : IncompatibleReason :=
  match source with
  | Source_Embedded parent _ => AlreadyEmbeddedPackage name (id_base (id_base parent))
  | _ => ConflictingEmbeddedPackage name
  end.
Definition reconsider_conflicting (spec : T) (name : rstr) : St (option Decision) :=
  match get_current_resolve state name with
  | None => throw (SolveString (lit "package not found in resolve"))
  | Some (conflicting_pkg, source, state_id) =>
      if Build_is_embedded (pk_build (ch_object conflicting_pkg))
      then _ ← skip_build spec (Incompatible (already_embedded name source)); mret None
      else
        target ← target_state graph current state_id;
        counter ← asks (fun e => sv_number_of_steps_back (en_solver e));
        mret (Some (reconsider_package target request counter))
  end.

(** Components of the embedder that embed the ones that are missing, and what is
    still missing; the loops are left early only when nothing is. *)
Definition find_component (embedded : rstr) (component : C) (acc : list Component * list Component)
    (embedded_package : ComponentEmbeddedPackage) : list Component * list Component :=
  let '(components_to_request, remaining) := acc in
  if negb (bool_decide (id_base (cep_pkg embedded_package) = embedded)) then acc
  else
    let overlapping := List.filter (fun c => bset_contains c (cep_components embedded_package)) remaining in
    if bool_decide (overlapping = []) then acc
    else (bset_insert (co_name component) components_to_request,
          List.filter (fun c => negb (bset_contains c overlapping)) remaining).
Definition find_components (embedded : rstr) (components : list C) (missing : list Component) :
    list Component * list Component :=
  foldl (fun acc component => foldl (find_component embedded component) acc (cel_components (co_embedded component)))
    ([], missing) components.
(** The request of a build for more components of the package that embeds the
    one it needs them of. *)
Definition additional_request (parent spec : T) (components_to_request : list Component) : res SolveError Req :=
  pkg_request ← total (PkgRequest_new (RangeIdent_from_any (spec_any_ident parent)) (PackageBuild (pk_ident spec)));
  match merged_request state (pk_name parent) with
  | Ok existing =>
      Ok (with_request_components (bset_extend (req_components existing) components_to_request)
            (mkPkgRequestWithOptions pkg_request (pro_options existing)))
  | Err err =>
      Err (SolveString (lit "could not find existing request for " ++ pk_name parent ++
             lit " to reconsider with additional components: " ++ GetMergedRequestError_to_string err))
  | Panicked => Panicked
  end.
Definition parse_components (needed : list rstr) : res SolveError (list Component) :=
  match try_map Component_parse needed with Ok components => Ok (bset_collect components) | _ => Panicked end.
Definition reconsider_embedder (spec : T) (compat : Compatibility) (embedder embedded : rstr) (needed : list rstr) :
    St (option Decision) :=
  match get_current_resolve state embedder with
  | None => _ ← skip_build spec compat; mret None
  | Some (parent_spec, _, state_id) =>
      let parent_spec := ch_object parent_spec in
      missing ← lift (parse_components needed);
      let '(components_to_request, remaining) := find_components embedded (pk_components parent_spec) missing in
      if negb (bool_decide (remaining = [])) then _ ← skip_build spec compat; mret None
      else
        target ← target_state graph current state_id;
        request ← lift (additional_request parent_spec spec components_to_request);
        counter ← asks (fun e => sv_number_of_steps_back (en_solver e));
        mret (Some (reconsider_package target request counter))
  end.

(** A build that is used as it is. *)
Definition resolve_build (spec : T) (source : Source) : St (option Decision) :=
  checks ← asks (fun e => sv_impossible_checks (en_solver e));
  possible ←
    (if check_before_resolving checks
     then unresolved ← unresolved_requests_of state; check_requirements unresolved spec
     else mret Compatible);
  if negb (is_ok possible) then _ ← skip_build spec possible; mret None
  else
    decision ← lift (map_error SolveParentError (resolve_package (C := C) hash_order permutations2 parse_build
                       same_embedded entries_order state (req_components request) set_package_depth requirements_fuel
                       spec source));
    mret (Some decision).
Definition try_binary_build (spec : T) (source : Source) : St (option Decision) :=
  compat ← validate state spec source;
  match compat with
  | Compatible => resolve_build spec source
  | Incompatible (ConflictingEmbeddedPackage conflicting_package_name) =>
      reconsider_conflicting spec conflicting_package_name
  | Incompatible (ComponentsMissing (EmbeddedComponentsNotProvided embedder embedded needed _)) =>
      reconsider_embedder spec compat embedder embedded needed
  | Incompatible _ => _ ← skip_build spec compat; mret None
  end.

(** A source package, which a build is made of. *)
Definition build_decision (spec : T) (recipe : Recipe) (new_spec : T) : St (option Decision) :=
  match build_package (C := C) hash_order permutations2 parse_build same_embedded entries_order state
          (req_components request) set_package_depth requirements_fuel recipe new_spec with
  | Ok decision => mret (Some decision)
  | Err err =>
      _ ← skip_with_message spec (lit "cannot build package from source: " ++ display_error (SolveParentError err));
      mret None
  | Panicked => lift Panicked
  end.
Definition catch {A} (m : St A) : St (res SolveError A) := fun e =>
  match m e with
  | (Panicked, e) => (Panicked, e)
  | (r, e) => (Ok r, e)
  end.
Definition try_recipe (spec : T) (recipe : Recipe) : St (option Decision) :=
  compat ← validate_the_recipe state recipe;
  _ ← set_compat compat;
  if negb (is_ok compat) then
    _ ← skip_with_message spec (lit "building from source is not possible with this recipe: " ++
                                Compatibility_to_string compat);
    mret None
  else
    built ← catch (resolve_new_build recipe state);
    match built with
    | Err err =>
        _ ← skip_with_message spec (lit "cannot resolve build env for source build: " ++ display_error err);
        mret None
    | Panicked => lift Panicked
    | Ok new_spec =>
        compat ← validate state new_spec (Source_BuildFromSource recipe);
        _ ← set_compat compat;
        if negb (is_ok compat) then
          _ ← skip_with_message spec (lit "building from source not possible: " ++ Compatibility_to_string compat);
          mret None
        else build_decision spec recipe new_spec
    end.
(** [PackageSource::read_recipe] with the errors of repositories. *)
Definition read_source_recipe (source : Source) (ident : VersionIdent) : res SolveError Recipe :=
  match source with
  | Source_BuildFromSource recipe => Ok recipe
  | Source_Repository repo _ => map_error SolveStorageError (repo_recipe repo ident)
  | Source_Embedded _ _ | Source_InternalTest => Err (SolveSolutionError NoRecipe)
  end.
Definition try_source_build (pkg : AnyIdent) (spec : T) (source : Source) : St (option Decision) :=
  match source with
  | Source_Embedded _ _ =>
      compat ← asks en_compat;
      _ ← skip_with_message spec (Compatibility_to_string compat);
      mret None
  | _ =>
      match read_source_recipe source (id_base (pk_ident spec)) with
      | Ok recipe =>
          if recipe_is_deprecated recipe then
            _ ← push_note (SkipPackageNote_new_from_message pkg (lit "cannot build from source, version is deprecated"));
            mret None
          else try_recipe spec recipe
      | Err (SolveStorageError err) =>
          if is_package_not_found (Repo := Repo) (Recipe := Recipe) (T := T) err then
            _ ← push_note (SkipPackageNote_new_from_message (not_found_ident err)
                             (lit "cannot build from source, recipe not available"));
            mret None
          else throw (SolveStorageError err)
      | Err err => throw err
      | Panicked => lift Panicked
      end
  end.

(** A decision is replaced when it invalidates a package resolved already. *)
Definition check_decision (decision : Decision) : St Decision :=
  found ← lift (total (reconsider_invalidated_resolve permutations2 state (dec_changes decision)));
  match found with
  | None => mret decision
  | Some (Invalidated_Abandon request reason) =>
      throw (OutOfOptions request
        [Note_Other (lit "request for " ++ ri_name (pr_pkg request) ++ lit " conflicts with the existing resolve: " ++
                     display_reason reason)])
  | Some (Invalidated_Reconsider request state_id) =>
      target ← target_state graph current state_id;
      counter ← asks (fun e => sv_number_of_steps_back (en_solver e));
      mret (reconsider_package target request counter)
  end.
Definition try_build (pkg : AnyIdent) (spec : T) (source : Source) : St (option Decision) :=
  let build_from_source := Build_is_source (pk_build spec) && negb (opt_Build_eq (req_build request) (Some BuildSource)) in
  found ← (if build_from_source then try_source_build pkg spec source else try_binary_build spec source);
  match found with
  | None => mret None
  | Some decision =>
      decision ← check_decision decision;
      notes ← asks en_notes;
      mret (Some (add_notes notes decision))
  end.
(** The same build in the repositories that have it. *)
Fixpoint try_repos (pkg : AnyIdent) (values : list (T * Source)) : St (option Decision) :=
  match values with
  | [] => mret None
  | (spec, source) :: values =>
      found ← try_build pkg spec source;
      match found with Some decision => mret (Some decision) | None => try_repos pkg values end
  end.
(** The builds are shared with the cursor: one that was taken is gone. *)
Fixpoint try_builds (pkg : AnyIdent) (version : Version) (builds : list (BuildWithRepos (Repo := Repo) (Recipe := Recipe) (T := T))) :
    St (option Decision) :=
  match builds with
  | [] => mret None
  | hm :: builds =>
      _ ← modify_iterator (PackageIterators.set_builds version (SortedBuildIterator builds));
      _ ← modify_solver (count 0 0 0 0 1);
      found ← try_repos pkg (List.map snd hm);
      match found with Some decision => mret (Some decision) | None => try_builds pkg version builds end
  end.

(** ** Versions *)

Definition sorted_builds (builds : Builds) : list (BuildWithRepos (Repo := Repo) (Recipe := Recipe) (T := T)) :=
  match builds with SortedBuildIterator builds => builds | _ => [] end.
Definition sort_version (version : Version) (builds : Builds) : St Builds :=
  if is_sorted_build_iterator builds then mret builds
  else
    checks ← asks (fun e => sv_impossible_checks (en_solver e));
    impossible ←
      (if use_in_build_keys checks
       then unresolved ← unresolved_requests_of state; check_builds_for_impossible_requests unresolved builds
       else mret []);
    _ ← with_store SolveGraphError (get_option_map state);
    builds ← lift (map_error SolveIteratorError (SortedBuildIterator_new build_key_name_order parse_version_range hash_str
                      builds (fun build => if hm_get BuildIdent_eq build impossible is Some _ then true else false)));
    _ ← modify_iterator (PackageIterators.set_builds version builds);
    mret builds.
Definition try_version (pkg : AnyIdent) (version : Version) : St (option Decision) :=
  let compat := is_version_applicable (pkg_request request) version in
  _ ← set_compat compat;
  builds ← asks (fun e => default EmptyBuildIterator (hm_get Version_eq version (pi_builds_map (en_iterator e))));
  if negb (is_ok compat) then
    _ ← modify_solver (count 0 0 1 (N.of_nat (builds_len builds)) 0);
    _ ← modify_iterator (PackageIterators.set_builds version EmptyBuildIterator);
    _ ← push_note (SkipPackageNote_new pkg compat);
    mret None
  else
    builds ← sort_version version builds;
    try_builds pkg version (sorted_builds builds).
(** A package that is missing is an error of its own. *)
Definition next_version : St (option (AnyIdent * Version)) := fun e =>
  let '(r, it) := next (Error := Error) builds_order versions_order (en_iterator e) in
  (match r with
   | Err (IteratorPackageNotFound _) => Err (PackageNotFoundDuringSolve (pkg_request request))
   | Err (IteratorStorage err) =>
       if is_package_not_found (Repo := Repo) (Recipe := Recipe) (T := T) err
       then Err (PackageNotFoundDuringSolve (pkg_request request)) else Err (SolveIteratorError (IteratorStorage err))
   | r => map_error SolveIteratorError r
   end, mkEnv (en_solver e) (en_store e) it (en_notes e) (en_compat e)).
Fixpoint try_versions (fuel : nat) : St Decision :=
  match fuel with
  | O => lift Panicked
  | S fuel =>
      item ← next_version;
      match item with
      | None => notes ← asks en_notes; throw (OutOfOptions (pkg_request request) notes)
      | Some (pkg, version) =>
          found ← try_version pkg version;
          match found with Some decision => mret decision | None => try_versions fuel end
      end
  end.
End builds.

(** ** The step *)

(** [TryFrom<&IdentPartsBuf> for BuildIdent]. *)
Definition BuildIdent_try_from_parts (parts : IdentPartsBuf) : res IdentPartsError BuildIdent :=
  if ip_repository_name parts is Some _ then Err PartsHaveRepository
  else
    _ ← map_error PartsNameInvalid (validate_pkg_name (ip_pkg_name parts));
    version ← match ip_version_str parts with
              | None => Ok Version_default
              | Some v => map_error (fun _ => PartsVersionInvalid v) (parse_version v)
              end;
    match ip_build_str parts with
    | None => Err PartsHaveNoBuild
    | Some b => match parse_build b with
                | None => Err (PartsBuildInvalid b)
                | Some build => Ok (mkIdent (mkIdent (ip_pkg_name parts) version) build)
                end
    end.

(** The resolved packages: the ones that embed others, with one they embed, and
    the ones that are not embedded. *)
Fixpoint sort_embeds (packages : list T) (embeds : list (BuildIdent * BuildIdent)) (non_embeds : list BuildIdent) :
    res IdentPartsError (list (BuildIdent * BuildIdent) * list BuildIdent) :=
  match packages with
  | [] => Ok (embeds, non_embeds)
  | spec :: packages =>
      match pk_build spec with
      | BuildEmbedded (EmbeddedPackage package) =>
          ident ← BuildIdent_try_from_parts (esp_ident package);
          sort_embeds packages (hm_insert BuildIdent_eq ident (pk_ident spec) embeds) non_embeds
      | _ => sort_embeds packages embeds (pk_ident spec :: non_embeds)
      end
  end.
(** A provider of an embedded package that is not part of the solve. *)
Definition missing_embed_providers (embeds : list (BuildIdent * BuildIdent)) (non_embeds : list BuildIdent) : list BuildIdent :=
  idents_order (List.filter (fun provider => negb (existsb (fun i => BuildIdent_eq i provider) non_embeds)) embeds.*1).
Definition check_providers (state : State) : St unit :=
  '(embeds, non_embeds) ← lift (map_error SolveIdentError
      (sort_embeds (List.map (fun e => ch_object e.2.1.1) (st_packages state)) [] []));
  match missing_embed_providers embeds non_embeds with
  | [] => mret tt
  | provider :: _ =>
      match hm_get BuildIdent_eq provider embeds with
      | None => lift Panicked
      | Some embedded =>
          _ ← push_note (Note_Other (lit "Embedded package " ++ BuildIdent_fmt false embedded ++
                         lit " missing its provider " ++ BuildIdent_fmt false provider));
          request ← lift (total (PkgRequest_new (RangeIdent_from_build provider) (PackageBuild embedded)));
          notes ← asks en_notes;
          throw (OutOfOptions request notes)
      end
  end.

(** The turns of the loop over versions that are left. *)
Definition started (it : Iterator) : Iterator :=
  match pi_versions it with
  | Some _ => it
  | None => match start (Error := Error) versions_order it with Ok it => it | _ => it end
  end.
Definition versions_fuel (it : Iterator) : nat := S (S (turns_left versions_order (started it))).

(** [make_iterator], whose debug assertion is that there are repositories, and
    [get_iterator]: the node keeps a clone of a new cursor, not the cursor that the
    step uses. *)
Definition make_iterator (self : Solver) (package_name : rstr) : Iterator :=
  PackageIterator_new package_name (sv_repos self).
Definition get_iterator (self : Solver) (node : Node) (package_name : rstr) : Iterator * Node :=
  match Graph.get_iterator node package_name with
  | Some iterator => (iterator, node)
  | None =>
      let iterator := make_iterator self package_name in
      (iterator, set_iterator (Error := Error) package_name iterator node)
  end.
Lemma get_iterator_asserts (self : Solver) (node : Node) (package_name : rstr) :
  (get_iterator self node package_name).2 = node \/ set_iterator_asserts package_name node = true.
Proof.
  unfold get_iterator, Graph.get_iterator, set_iterator_asserts.
  destruct (nd_iterators node !! package_name) as [it|] eqn:E; [by left|right]. by rewrite bool_decide_eq_false_2 by by intros [? ?].
Qed.
(** What becomes of the cursor: the node's own is advanced in place. *)
Definition put_iterator (before : Node) (package_name : rstr) (iterator : Iterator) (node : Node) : Node :=
  match Graph.get_iterator before package_name with
  | Some _ => with_iterators (<[package_name := iterator]> (nd_iterators node)) node
  | None => node
  end.

(** The text of a conflict that needs no build to be tried. *)
Definition conflict_note (name : rstr) (cause : option IncompatibleReason) (request : PkgRequest) : Note :=
  Note_Other match cause with
             | Some reason => GetMergedRequestError_to_string (Conflict request name reason)
             | None => GetMergedRequestError_to_string (NoRequestFor name)
             end.
(** [step_state]: the node comes back with the cursor advanced. *)
Definition step_state (resolve_new_build : Recipe -> State -> St T) (graph : Graph) (self : Solver) (node : Node)
    (σ : Store) : res SolveError (option Decision) * (Solver * Node * Store) :=
  let state := nd_state node in
  let env solver iterator := mkEnv solver σ iterator [] Compatible in
  match get_next_request permutations2 state with
  | Ok None =>
      let '(r, e) := check_providers state (env self (make_iterator self [])) in
      ((_ ← r; Ok None), (self, node, σ))
  | Ok (Some (NextRequest_Conflict request name cause)) =>
      (Err (OutOfOptions request [conflict_note name cause request]), (self, node, σ))
  | Ok (Some (NextRequest_Request request)) =>
      let self := count 1 0 0 0 0 self in
      let '(iterator, node') := get_iterator self node (req_name request) in
      let '(r, e) := try_versions resolve_new_build graph (Node_id node) state request (versions_fuel iterator)
                       (env self iterator) in
      ((fun d => Some d) <$> r,
       (en_solver e, put_iterator node (req_name request) (en_iterator e) node', en_store e))
  | Err e => match e with end
  | Panicked => (Panicked, (self, node, σ))
  end.
End step.
