(* ===== verification/SolverRuntime.v ===== *)
(** * The solver's runtime

    Models [SolverRuntime] and [solve] of
    crates/spk-solve/src/solvers/step/solver.rs: the stream of steps that adds
    branches to the graph and goes back to earlier nodes when one leads nowhere,
    the solution it ends with, and the solves that are made inside of a solve for
    packages that have to be built.

    A node is referred to by its key.  The stream's turn fills the caches of
    states, which are in the store. *)

From stdpp Require Import gmap.
From S2P Require Import Prelude Strings Collections Names Version VersionOrder VersionText.
From S2P Require Import Compat RangeData Reasons CompatCheck VersionRange Components Options Idents.
From S2P Require Import Requests RequestEq Opts Requirements ComponentSpecs Satisfy Embedded PackageSpec.
From S2P Require Import Encoding Solution SolverState Validation Decisions BuildKeys PackageIterators.
From S2P Require Import Graph ImpossibleChecks StepSolver StepState.

Section runtime.
Context {Repo Recipe T C Error Pattern : Type} `{!SourceOps Repo Recipe} `{!Versioned T, !ComponentOps C, !Package T C}.
Context `{!ComponentEmbeds C, !ComponentRequires C, !SolverPackage T C, !SolverRecipe Recipe, !Hasher T}.
Context `{!GlobOps Pattern, !RepoOps Repo Recipe T Error, !BuildableRecipe Repo Recipe T}.
Context `{!SolveParameters Repo T C Error Pattern}.

Abbreviation State := (State Repo Recipe T).
Abbreviation Decision := (Decision Repo Recipe T).
Abbreviation Req := PkgRequestWithOptions.
Abbreviation SolveError := (SolveError Error).
Abbreviation Graph := (Graph Repo Recipe T).
Abbreviation Node := (Node Repo Recipe T).
Abbreviation Solver := (Solver Repo Recipe T).

(** An entry of the history: the node, the number of steps that was taken when it
    was left, by which the entries are told apart, and its level. *)
Abbreviation Entry := (N * N * N)%type.
Definition push_history (entry : Entry) (history : list Entry) : list Entry :=
  let '(node, hash, level) := entry in
  if existsb (fun e => (e.1.2 =? hash)%N) history
  then List.map (fun e => if (e.1.2 =? hash)%N then (e.1, level) else e) history
  else history ++ [entry].

Record SolverRuntime := mkRuntime {
  rt_solver : Solver;
  rt_graph : Graph;
  rt_history : list Entry;
  rt_current_node : option N;
  rt_decision : option Decision;
}.
(** [SolverRuntime::new]; [DEAD_STATE] is the state of the graph's root. *)
Definition SolverRuntime_new (dead_state : State) (solver : Solver) : SolverRuntime :=
  mkRuntime solver (Graph_new dead_state) [] None (Some (Decision_new (sv_initial_state_builders solver))).

Definition with_solver (solver : Solver) (self : SolverRuntime) : SolverRuntime :=
  mkRuntime solver (rt_graph self) (rt_history self) (rt_current_node self) (rt_decision self).
Definition with_graph (graph : Graph) (self : SolverRuntime) : SolverRuntime :=
  mkRuntime (rt_solver self) graph (rt_history self) (rt_current_node self) (rt_decision self).
Definition with_history (history : list Entry) (self : SolverRuntime) : SolverRuntime :=
  mkRuntime (rt_solver self) (rt_graph self) history (rt_current_node self) (rt_decision self).
Definition with_current (current : option N) (self : SolverRuntime) : SolverRuntime :=
  mkRuntime (rt_solver self) (rt_graph self) (rt_history self) current (rt_decision self).
Definition with_decision (decision : option Decision) (self : SolverRuntime) : SolverRuntime :=
  mkRuntime (rt_solver self) (rt_graph self) (rt_history self) (rt_current_node self) decision.

(** ** Stepping back *)

Definition step_back_to (node : N) (self : SolverRuntime) : res SolveError SolverRuntime :=
  match g_nodes (rt_graph self) !! node with
  | None => Panicked
  | Some n =>
      Ok (with_decision
            (Some (as_decision (Change_StepBack (nd_state n) (sv_number_of_steps_back (rt_solver self))))) self)
  end.
(** [take_a_step_back]; the node that is popped is read, which waits forever for
    the one that is held. *)
Definition take_a_step_back (held : option N) (self : SolverRuntime) : res SolveError SolverRuntime :=
  match pop_history (rt_history self) with
  | Some ((node, _, _), history) =>
      if bool_decide (held = Some node) then Panicked else step_back_to node (with_history history self)
  | None => step_back_to (g_root (rt_graph self)) self
  end.
Definition add_notes_to_decision (notes : list Note) (self : SolverRuntime) : SolverRuntime :=
  with_decision (add_notes notes <$> rt_decision self) self.
(** All options that were skipped for the same reason are one note. *)
Definition Note_is_same_reason_as (n first : Note) : bool :=
  match n, first with
  | Note_SkipPackage n, Note_SkipPackage first => SkipPackageNote_is_same_reason_as n first
  | Note_Other n, Note_Other first => bool_decide (n = first)
  | _, _ => false
  end.
Definition SkipPackageNoteReason_to_string (self : SkipPackageNoteReason) : rstr :=
  match self with SkipReason_String s => s | SkipReason_Compatibility c => Compatibility_to_string (T := T) c end.
Definition condense_notes (notes : list Note) : list Note :=
  match notes with
  | [] => []
  | first :: _ =>
      if forallb (fun n => Note_is_same_reason_as n first) notes then
        [Note_Other match first with
                    | Note_SkipPackage first =>
                        lit "All options for '" ++ id_base (id_base (skip_pkg first)) ++ lit "' were skipped: " ++
                        SkipPackageNoteReason_to_string (skip_reason first)
                    | Note_Other first => lit "All options were skipped: " ++ first
                    end]
      else notes
  end.

(** The packages that made a request that leads nowhere are counted. *)
Definition count_problems (requested_by : list RequestedBy) (solver : Solver) : Solver :=
  foldl (fun solver req =>
    match req with
    | PackageBuild problem_package => increment_problem_package_count (id_base (id_base problem_package)) solver
    | _ => solver
    end) solver requested_by.
Definition count_error_of (details : ErrorDetails) (self : SolverRuntime) : res SolveError SolverRuntime :=
  solver ← total (increment_error_count details (rt_solver self)); Ok (with_solver solver self).
Definition request_conflict (err : SolveError) : option (PkgRequest * rstr) :=
  match err with
  | SolveGraphError (RequestError (Conflict request name cause))
  | SolveValidationError (ValidationRequestError (Conflict request name cause)) =>
      Some (request, merged_request_text display_reason (Conflict request name cause))
  | _ => None
  end.
Definition requirers (requested_by : list RequestedBy) : rstr := join (lit ", ") (List.map RequestedBy_to_string requested_by).

(** What follows an error of a step: whether it is yielded, and the runtime. *)
Definition recover (held : N) (request : PkgRequest) (notes : list Note) (self : SolverRuntime) :
    res SolveError SolverRuntime :=
  let requested_by := get_requesters request in
  let self := with_solver (count_problems requested_by (rt_solver self)) self in
  self ← take_a_step_back (Some held) self;
  pkg ← total (RangeIdent_to_string (pr_pkg request));
  self ← count_error_of (CouldNotSatisfy pkg requested_by) self;
  Ok (add_notes_to_decision notes self).
(** The command line cannot be changed; what was requested before it in the list
    is counted. *)
Fixpoint count_until_command_line (requested_by : list RequestedBy) (solver : Solver) : bool * Solver :=
  match requested_by with
  | [] => (false, solver)
  | CommandLineRequest _ :: _ => (true, solver)
  | req :: requested_by => count_until_command_line requested_by (count_problems [req] solver)
  end.
Definition not_found_cause (request : PkgRequest) : res Empty_set rstr :=
  pkg ← RangeIdent_to_string (pr_pkg request);
  Ok (lit "Package '" ++ pkg ++ lit "' not found during the solve as required by: " ++
      requirers (get_requesters request) ++ lit ". Please check the spelling of the package's name").
Definition recover_not_found (held : N) (request : PkgRequest) (self : SolverRuntime) :
    res SolveError (option SolveError * SolverRuntime) :=
  let '(command_line, solver) := count_until_command_line (get_requesters request) (rt_solver self) in
  let self := with_solver solver self in
  if command_line then Ok (Some (PackageNotFoundDuringSolve request), self)
  else
    cause ← total (not_found_cause request);
    self ← take_a_step_back (Some held) self;
    self ← count_error_of (ErrorMessage cause) self;
    Ok (None, self).
Definition after_error (held : N) (err : SolveError) (self : SolverRuntime) :
    res SolveError (option SolveError * SolverRuntime) :=
  match err with
  | OutOfOptions request notes =>
      self ← recover held request (condense_notes notes) self; Ok (None, self)
  | PackageNotFoundDuringSolve request => recover_not_found held request self
  | _ =>
      match request_conflict err with
      | Some (request, cause) => self ← recover held request [Note_Other cause] self; Ok (None, self)
      | None => self ← count_error_of (ErrorMessage (display_error err)) self; Ok (Some err, self)
      end
  end.

(** ** The stream of steps *)

(** [check_initial_requests_for_impossible_requests]: a package that has nothing
    but one of the requests is made for each of them. *)
Fixpoint initial_specs (count : nat) (requests : list Req) : res SolveError (list T) :=
  match requests with
  | [] => Ok []
  | req :: requests =>
      recipe ← map_error (fun err => SolveString (lit "Unable to generate dummy spec for initial checks: " ++ err))
                 (initial_request_recipe (S count) req);
      build_opts ← match recipe_resolve_options recipe [] with Ok opts => Ok (bmap_extend [] opts) | _ => Panicked end;
      dummy_spec ← map_error SolveSpecError (generate_binary_build recipe build_opts (Solution_new []));
      specs ← initial_specs (S count) requests;
      Ok (dummy_spec :: specs)
  end.
Fixpoint count_impossible (unresolved : gmap rstr Req) (specs : list T) : St (Repo := Repo) (Recipe := Recipe) (T := T) (Error := Error) N :=
  match specs with
  | [] => mret 0%N
  | spec :: specs =>
      compat ← check_requirements unresolved spec;
      rest ← count_impossible unresolved specs;
      mret (if is_ok compat then rest else rest + 1)%N
  end.
Definition check_initial_requests_for_impossible_requests (initial_state : State) : St (Repo := Repo) (Recipe := Recipe) (T := T) (Error := Error) unit :=
  initial_requests ← unresolved_requests_of initial_state;
  specs ← lift (initial_specs 0 (requests_order (map_to_list initial_requests).*2));
  impossible_request_count ← count_impossible initial_requests (finished_order specs);
  if (0 <? impossible_request_count)%N then throw (InitialRequestsContainImpossible impossible_request_count) else mret tt.

(** What a turn of the stream's loop yields. *)
Inductive Yielded := Yield_Item (item : Node * Decision) | Yield_Error (e : SolveError) | Yield_End | Yield_Panicked.

Section stream.
Context (resolve_new_build : Recipe -> State -> St (Repo := Repo) (Recipe := Recipe) (T := T) (Error := Error) T).

(** The step at the current node, which is held. *)
Definition step_current (id : N) (item : Node * Decision) (self : SolverRuntime) (σ : Store) :
    Yielded * SolverRuntime * Store :=
  match g_nodes (rt_graph self) !! id with
  | None => (Yield_Panicked, self, σ)
  | Some node =>
      let '(r, (solver, node', σ)) := step_state resolve_new_build (rt_graph self) (rt_solver self) node σ in
      let self := with_graph (set_node node' (rt_graph self)) (with_solver solver self) in
      match r with
      | Ok decision =>
          (Yield_Item item,
           with_history (push_history (id, sv_number_of_steps solver, st_depth (nd_state node)) (rt_history self))
             (with_decision decision self), σ)
      | Err err =>
          match after_error id err self with
          | Ok (None, self) => (Yield_Item item, self, σ)
          | Ok (Some err, self) => (Yield_Error err, self, σ)
          | _ => (Yield_Panicked, self, σ)
          end
      | Panicked => (Yield_Panicked, self, σ)
      end
  end.
(** The check of the first turn. *)
Definition check_first (id : N) (item : Node * Decision) (self : SolverRuntime) (σ : Store) :
    Yielded * SolverRuntime * Store :=
  match g_nodes (rt_graph self) !! id with
  | None => (Yield_Panicked, self, σ)
  | Some node =>
      let solver := rt_solver self in
      if check_initial_requests (sv_impossible_checks solver) then
        let '(r, e) := check_initial_requests_for_impossible_requests (nd_state node)
                         (mkEnv solver σ (make_iterator solver []) [] Compatible) in
        let self := with_solver (en_solver e) self in
        match r with
        | Ok _ => step_current id item self (en_store e)
        | Err err =>
            match count_error_of (ErrorMessage (display_error err)) self with
            | Ok self => (Yield_Error err, self, en_store e)
            | _ => (Yield_Panicked, self, en_store e)
            end
        | Panicked => (Yield_Panicked, self, en_store e)
        end
      else step_current id item self σ
  end.
(** A turn of [iter], and whether the next one is still the first to reach a
    node. *)
Definition iter_turn (first_iter : bool) (self : SolverRuntime) (σ : Store) : Yielded * (bool * SolverRuntime) * Store :=
  let root := g_root (rt_graph self) in
  match rt_decision self with
  | None => (Yield_End, (first_iter, self), σ)
  | Some decision =>
      if bool_decide (rt_current_node self = Some root) then (Yield_End, (first_iter, self), σ)
      else
        let source := default root (rt_current_node self) in
        match g_nodes (rt_graph self) !! source with
        | None => (Yield_Panicked, (first_iter, self), σ)
        | Some node =>
            let item := (node, decision) in
            match add_branch (Error := Error) request_priority_order permutations2 (rt_graph self) source decision σ with
            | ((Ok id, graph), σ) =>
                let self := with_current (Some id) (with_graph graph (with_decision None self)) in
                let '(yielded, self, σ) := (if first_iter then check_first else step_current) id item self σ in
                (yielded, (false, self), σ)
            | ((Err _, graph), σ) =>
                match take_a_step_back None (with_graph graph (with_decision None self)) with
                | Ok self => (Yield_Item item, (first_iter, self), σ)
                | _ => (Yield_Panicked, (first_iter, self), σ)
                end
            | ((Panicked, graph), σ) => (Yield_Panicked, (first_iter, self), σ)
            end
        end
  end.
(** The stream up to its end or an error; the fuel bounds the turns. *)
Fixpoint iterate (fuel : nat) (first_iter : bool) (self : SolverRuntime) (σ : Store) :
    res SolveError unit * SolverRuntime * Store :=
  match fuel with
  | O => (Panicked, self, σ)
  | S fuel =>
      match iter_turn first_iter self σ with
      | (Yield_Item _, (first_iter, self), σ) => iterate fuel first_iter self σ
      | (Yield_Error err, (_, self), σ) => (Err err, self, σ)
      | (Yield_End, (_, self), σ) => (Ok tt, self, σ)
      | (Yield_Panicked, (_, self), σ) => (Panicked, self, σ)
      end
  end.
End stream.

(** [current_solution]. *)
Definition current_solution (self : SolverRuntime) (σ : Store) : res SolveError (Solution Repo Recipe T) * Store :=
  match rt_current_node self with
  | None => (Err (SolveString (lit "Solver runtime has not been consumed")), σ)
  | Some id =>
      match g_nodes (rt_graph self) !! id with
      | None => (Panicked, σ)
      | Some node =>
          match get_pkg_requests (rt_solver self) σ with
          | (Ok requests, σ) =>
              if bool_decide (id = g_root (rt_graph self)) && negb (bool_decide (requests = []))
              then (Err FailedToResolve, σ)
              else (map_error SolveGraphError (as_solution permutations2 (nd_state node)), σ)
          | (Err e, σ) => (Err (SolveGraphError e), σ)
          | (Panicked, σ) => (Panicked, σ)
          end
      end
  end.

(** ** Solving *)

(** [solve]: the runtime works on a clone of the solver, which shares its checker. *)
Definition solve_with (resolve_new_build : Recipe -> State -> St (Repo := Repo) (Recipe := Recipe) (T := T) (Error := Error) T)
    (fuel : nat) (dead_state : State) (solver : Solver) (σ : Store) :
    res SolveError (Solution Repo Recipe T) * Solver * Store :=
  let '(r, runtime, σ) := iterate resolve_new_build fuel true (SolverRuntime_new dead_state solver) σ in
  let solver := set_checker (fun _ => sv_request_validator (rt_solver runtime)) solver in
  match r with
  | Ok _ => let '(solution, σ) := current_solution runtime σ in (solution, solver, σ)
  | Err err => (Err err, solver, σ)
  | Panicked => (Panicked, solver, σ)
  end.

(** [configure_for_build_environment]. *)
Definition configure_for_build_environment (recipe : Recipe) (self : Solver) (σ : Store) : res SolveError Solver * Store :=
  match get_options self σ with
  | (Ok options, σ) =>
      (build_options ← map_error SolveSpecError (recipe_resolve_options recipe options);
       requirements ← map_error SolveSpecError (get_build_requirements recipe build_options);
       Ok (foldl (fun self request => add_request request self) self requirements), σ)
  | (Err e, σ) => (Err (SolveGraphError e), σ)
  | (Panicked, σ) => (Panicked, σ)
  end.

(** The options of a new build: those of the state, and what was requested. *)
Definition option_unless_set (options : OptionMap) (name value : rstr) : OptionMap :=
  if bmap_contains_key name options then options else bmap_insert name value options.
Fixpoint request_options (requests : list Req) (options : OptionMap) : res Empty_set OptionMap :=
  match requests with
  | [] => Ok options
  | request :: requests =>
      if bmap_contains_key (req_name request) options then request_options requests options
      else
        version ← VersionRange_fmt false (Range_Filter (ri_version (pr_pkg (pkg_request request))));
        request_options requests (bmap_insert (req_name request) version options)
  end.
Definition build_options (state : State) (options : OptionMap) : res Empty_set OptionMap :=
  options ← request_options (requests_of state) options;
  Ok (foldl (fun options r => option_unless_set options (vr_var r) (vr_value r)) options (st_var_requests state)).

Section build.
(** [Solver::solve] of another solver. *)
Context (solve : Solver -> Store -> res SolveError (Solution Repo Recipe T) * Solver * Store).

Definition start_build (pkg : VersionIdent) : St (Repo := Repo) (Recipe := Recipe) (T := T) (Error := Error) unit :=
  builds_started ← asks (fun e => sv_new_builds_started (en_solver e));
  if existsb (fun i => VersionIdent_eq i pkg) builds_started then throw (BuildFromSourceDependencyLoop pkg)
  else modify_solver (set_builds_started (fun l => l ++ [pkg])).
(** The solver for the build environment: everything but the repositories and
    the builds that were started is as by default. *)
Definition build_solver (repos : list Repo) (builds_started : list VersionIdent) (options : OptionMap) (counter : nat) :
    Solver :=
  set_builds_started (fun _ => builds_started)
    (update_options options (set_repos (fun _ => repos) (Solver_default counter))).
Definition solve_build_environment (recipe : Recipe) (solver : Solver) (σ : Store) :
    res SolveError (Solution Repo Recipe T) * Store :=
  match configure_for_build_environment recipe solver σ with
  | (Ok solver, σ) => let '(solution, _, σ) := solve solver σ in (solution, σ)
  | (Err e, σ) => (Err e, σ)
  | (Panicked, σ) => (Panicked, σ)
  end.
Definition resolve_new_build (recipe : Recipe) (state : State) : St (Repo := Repo) (Recipe := Recipe) (T := T) (Error := Error) T :=
  _ ← start_build (recipe_ident recipe);
  options ← with_store SolveGraphError (get_option_map state);
  options ← lift (total (build_options state options));
  counter ← with_store SolveGraphError new_cell;
  solver ← asks (fun e => build_solver (sv_repos (en_solver e)) (sv_new_builds_started (en_solver e)) options counter);
  solution ← with_store id (solve_build_environment recipe solver);
  lift (map_error SolveSpecError (generate_binary_build recipe options solution)).
End build.

(** Solves inside of solves: the depth bounds how deep, the fuel how long. *)
Fixpoint solve (depth fuel : nat) (dead_state : State) (solver : Solver) (σ : Store) :
    res SolveError (Solution Repo Recipe T) * Solver * Store :=
  match depth with
  | O => (Panicked, solver, σ)
  | S depth => solve_with (resolve_new_build (solve depth fuel dead_state)) fuel dead_state solver σ
  end.
End runtime.
