(* ===== verification/World.v ===== *)
(** * A small world

    Repositories of packages that are lists, and the parameters of the step solver
    for them, so that whole solves can be computed ([SolverRuntime.solve]).  The
    hashes are codes, which never collide. *)

From stdpp Require Import gmap.
From S2P Require Import Prelude Strings Collections Names Version VersionOrder VersionText.
From S2P Require Import Compat RangeData Reasons CompatCheck Intersection VersionRange RangeTheory.
From S2P Require Import Components Options Idents Requests RequestEq Opts Requirements ComponentSpecs.
From S2P Require Import Satisfy Embedded PackageSpec MergeTheory RequestPools Encoding Solution.
From S2P Require Import SolverState SolverTheory SolverRequests Validation Decisions BuildKeys PackageIterators.
From S2P Require Import Graph ImpossibleChecks StepSolver StepState SolverRuntime.

Abbreviation Spec := (PackageSpec ComponentSpec).
Abbreviation WorldState := (State rstr VersionIdent Spec).
Abbreviation WorldSolver := (Solver rstr VersionIdent Spec).

(** Hashes without collisions. *)
Definition code {A} `{Countable A} (x : A) : N := Npos (encode x).
Definition text {E} (r : res E rstr) : rstr := match r with Ok s => s | _ => [] end.
#[export] Instance Hasher_world : Hasher Spec :=
  {| hash_words := code;
     hash_request := fun k => code (text (RangeIdent_to_string (key_pkg k)));
     hash_var := fun r => code (vr_var r, vr_value r);
     hash_options := fun m => code m;
     hash_spec := fun spec => code (PackageSpec_name spec, BuildIdent_fmt false (ps_pkg spec)) |}.

(** The queue pops an entry of the lowest level, the first of them. *)
Definition lowest (m e : N * N * N) : N * N * N := if (e.2 <? m.2)%N then e else m.
Definition pop_lowest (history : list (N * N * N)) : option ((N * N * N) * list (N * N * N)) :=
  match history with
  | [] => None
  | e :: rest => let m := foldl lowest e rest in Some (m, List.filter (fun e => negb (bool_decide (e = m))) history)
  end.
#[export] Instance SolveParameters_world : SolveParameters rstr Spec ComponentSpec bool rstr :=
  {| request_priority_order := []; build_key_name_order := []; configured_checks := mkChecksSettings false false false;
     hash_order := id; permutations2 := permutations2_lex; parse_version_range := fun _ => Err []; parse_build := fun _ => None;
     hash_str := code; display_reason := fun _ => []; display_error := fun _ => [];
     not_found_ident := fun _ => mkIdent (mkIdent [] (from_parts [])) None; same_embedded := fun _ _ => false;
     entries_order := id; builds_order := id; versions_order := id; idents_order := id; requests_order := id;
     list_build_components := fun _ _ => Ok []; arrival := id; finished_order := id; pop_history := pop_lowest;
     set_package_depth := 3; requirements_fuel := 3 |}.
#[export] Instance SolverRecipe_world : SolverRecipe VersionIdent :=
  {| recipe_is_deprecated := fun _ => false; recipe_options_resolve := fun _ _ => true |}.
(** Recipes are not built. *)
#[export] Instance BuildableRecipe_world : BuildableRecipe rstr VersionIdent Spec :=
  {| recipe_resolve_options := fun _ options => Ok options; get_build_requirements := fun _ _ => Ok [];
     generate_binary_build := fun _ _ _ => Err []; initial_request_recipe := fun _ _ => Err [] |}.

(** A repository of some packages, whatever its name. *)
Definition repo_of (world : list Spec) : RepoOps rstr VersionIdent Spec bool :=
  {| list_package_versions := fun _ n =>
       Ok (PackageSpec_version <$> List.filter (fun spec => bool_decide (PackageSpec_name spec = n)) world);
     list_package_builds := fun _ i => Ok (ps_pkg <$> List.filter (fun spec => VersionIdent_eq (id_base (ps_pkg spec)) i) world);
     repo_recipe := fun _ _ => Err true;
     read_package := fun _ build =>
       match List.find (fun spec => BuildIdent_eq (ps_pkg spec) build) world with Some spec => Ok spec | None => Err true end;
     read_components := fun _ _ => Ok [(ComponentRun, NULL_DIGEST)];
     is_package_not_found := id;
     is_invalid_package_spec := fun _ => false |}.

(** Packages, with the requirements of the package and of its run component. *)
Definition wants_version (name : rstr) (rules : list VersionRange) : PkgRequestWithOptions :=
  mkPkgRequestWithOptions (mkPkgRequest (mkRangeIdent None name [] rules None) None Always None Required (Some RuleBinary) []) [].
Definition package (name : rstr) (version : list N) (requirements component_requirements : list PkgRequestWithOptions) : Spec :=
  mkPackageSpec (mkIdent (mkIdent name (from_parts version)) Build_empty) Compat_default false []
    (mkInstallSpec [] []
       [mkComponentSpec ComponentRun FileMatcher_all [] [] ComponentEmbeddedPackagesList_default MatchAll
          (RequestWithOptions_Pkg <$> component_requirements)])
    (RequestWithOptions_Pkg <$> requirements).
Definition below (version : list N) : list VersionRange := [Range_LessThan (mkLt (from_parts version))].
Definition above (version : list N) : list VersionRange := [Range_GreaterThan (mkGt (from_parts version))].

(** A solver with requests, and its solve. *)
Definition world_solver (requests : list PkgRequestWithOptions) : WorldSolver :=
  foldl (fun self r => add_request (RequestWithOptions_Pkg r) self)
    (add_repository (lit "origin") (Solver_default (C := ComponentSpec) (Error := bool) (Pattern := rstr) 0)) requests.
Definition world_start : WorldState * Store :=
  match default_state (C := ComponentSpec) Store_empty with
  | (Ok state, σ) => (state, σ)
  | _ => (mkState [] [] [] [] [] (mkStateId 0 0 ∅ 0 0 0) 0 0 0, Store_empty)
  end.
Lemma world_start_default : default_state (C := ComponentSpec) Store_empty = (Ok world_start.1, world_start.2).
Proof. by vm_compute. Qed.
Definition world_solve (world : list Spec) (fuel : nat) (requests : list PkgRequestWithOptions) :
    res (SolveError bool) (Solution rstr VersionIdent Spec) * WorldSolver * Store :=
  solve (RepoOps0 := repo_of world) (C := ComponentSpec) (Error := bool) (Pattern := rstr) 2 fuel world_start.1
    (world_solver requests) world_start.2.
Definition solution_packages (solution : Solution rstr VersionIdent Spec) : list (rstr * list N) :=
  (fun item => (PackageSpec_name (sr_spec item), parts (vparts (PackageSpec_version (sr_spec item))))) <$> items solution.

(** An application that needs an old library, asked for after the library. *)
Definition old_library : list Spec :=
  [package (lit "app") [1]%N [wants_version (lit "lib") (below [2]%N)] [];
   package (lit "lib") [2]%N [] []; package (lit "lib") [1; 5]%N [] []].
Example library_reconsidered :
  match world_solve old_library 40 [wants_version (lit "lib") []; wants_version (lit "app") []] with
  | (Ok solution, _, _) => solution_packages solution
  | _ => []
  end = [(lit "lib", [1; 5]%N); (lit "app", [1]%N)].
Proof. vm_compute. reflexivity. Qed.

(** Stepping back reads the node that it pops while the current node is locked;
    here they are the same, and the solve hangs. *)
Definition missing_dependency : list Spec :=
  [package (lit "app") [1]%N [wants_version (lit "bad") (above [2]%N)] [wants_version (lit "lib") (below [2]%N)];
   package (lit "bad") [1]%N [] []; package (lit "lib") [3]%N [] []; package (lit "lib") [2]%N [] [];
   package (lit "lib") [1; 5]%N [] []; package (lit "lib") [1; 4]%N [] []].
Example stepping_back_hangs :
  (world_solve missing_dependency 100 [wants_version (lit "lib") []; wants_version (lit "app") []]).1.1 = Panicked.
Proof. vm_compute. reflexivity. Qed.

(** A requirement of a package for another version of itself is not checked. *)
Example own_requirement_ignored :
  match world_solve [package (lit "app") [2]%N [wants_version (lit "app") (below [2]%N)] []] 40 [wants_version (lit "app") []] with
  | (Ok solution, _, _) => solution_packages solution
  | _ => []
  end = [(lit "app", [2]%N)].
Proof. vm_compute. reflexivity. Qed.

(** Only the build of version 2 fails, but it is attempted twice, and the solver
    steps back twice: the cursor that a node's first step advanced is not the
    one that the node keeps. *)
Example first_build_attempted_twice :
  let '(answer, self, σ) :=
    world_solve [package (lit "app") [2]%N [wants_version (lit "lib") (above [2]%N)] []; package (lit "app") [1]%N [] [];
                 package (lit "lib") [2]%N [] []] 40 [wants_version (lit "app") []] in
  match answer with Ok solution => solution_packages solution | _ => [] end = [(lit "app", [1]%N)] /\
  step_back_counters σ !! sv_number_of_steps_back self = Some 2%N.
Proof. vm_compute. by split. Qed.

(** A solver that was reset still refuses builds from source in its checks. *)
Example reset_keeps_binary_only :
  let solver := (reset (solver_set_binary_only true (world_solver [])) Store_empty).1 in
  ic_validators (sv_request_validator solver) <> ic_validators (sv_request_validator (world_solver [])).
Proof. vm_compute. done. Qed.
