(* ===== verification/SoundStates.v ===== *)
(** * Sound states

    States in which every resolved package has a version that all requests for it
    accept and answers the first requests and the requirements of the others, and in
    which all it requires is requested; and that the changes a step of the solver
    ([StepState]) makes lead from sound states to sound states.

    What is kept of requests when they are merged is asked by questions: whether
    they admit a version, whether they leave a package out unless it is there,
    whether they agree with the build the package has, whether there are any, and
    whether a package answers them. *)

From stdpp Require Import gmap.
From S2P Require Import Prelude Strings Collections Names Version VersionOrder VersionText.
From S2P Require Import Compat RangeData Reasons CompatCheck Intersection VersionRange RangeTheory.
From S2P Require Import Components Options Idents Requests RequestEq Opts Requirements ComponentSpecs.
From S2P Require Import Satisfy Embedded PackageSpec MergeTheory RequestPools Encoding Solution.
From S2P Require Import SolverState SolverTheory SolverRequests Validation ValidationTheory Decisions DecisionTheory.

(** ** Questions *)

Inductive Question :=
| Q_admits (v : Version)
| Q_passive
| Q_agreed
| Q_none
| Q_fits (fits : PkgRequestWithOptions -> bool).

Section questions.
Context (permutations2 : forall A : Type, list A -> list (A * A)).
Context (Hp2 : permutations2_spec permutations2).
(** The build of each package that requests may name. *)
Context (agreed : rstr -> Build).
Implicit Types (a b m r : PkgRequestWithOptions) (p : Pool).

Definition agrees r : bool :=
  match req_build r with None => true | Some build => Build_eq build (agreed (req_name r)) end.
Definition ask (q : Question) r : bool :=
  match q with
  | Q_admits v => admits v r
  | Q_passive => bool_decide (pr_inclusion_policy (pkg_request r) = IfAlreadyPresent)
  | Q_agreed => agrees r
  | Q_none => false
  | Q_fits fits => fits r
  end.
(** A test that merging keeps, and that asking for less keeps. *)
Record kept (fits : PkgRequestWithOptions -> bool) : Prop := {
  kept_merged p a b c m :
    pool_canonical p -> in_pool p a -> in_pool p b -> PkgRequestWithOptions_restrict permutations2 a b = Ok (c, m) ->
    (is_ok c = true -> fits m = fits a && fits b) /\ fits m && fits b = fits a && fits b;
  kept_demands r' r : demands r' r -> fits r' = true -> fits r = true;
}.
Definition good_question (q : Question) : Prop :=
  match q with Q_admits v => plain_version v | Q_fits fits => kept fits | _ => True end.

(** What restricting does to the build and the inclusion policy. *)
Lemma restrict_build a b c m :
  PkgRequestWithOptions_restrict permutations2 a b = Ok (c, m) ->
  req_build m = req_build a /\ (is_ok c = true -> req_build b = None) \/
  req_build m = req_build b /\ (req_build a = None \/ opt_Build_eq (req_build a) (req_build b) = true).
Proof.
  intros ([c1 r] & ([c2 pkg] & Hpkg & [= <- <-])%bind_Ok & Ho)%bind_Ok.
  assert (forall cc mm, ri_build pkg = ri_build (pr_pkg (pkg_request a)) /\
    (is_ok cc = true -> req_build b = None) \/
    ri_build pkg = req_build b /\ (req_build a = None \/ opt_Build_eq (req_build a) (req_build b) = true) ->
    pr_pkg (pkg_request mm) = pkg ->
    req_build mm = req_build a /\ (is_ok cc = true -> req_build b = None) \/
    req_build mm = req_build b /\ (req_build a = None \/ opt_Build_eq (req_build a) (req_build b) = true)) as Hm.
  { intros cc mm H <-. exact H. }
  unfold RangeIdent_restrict in Hpkg. destruct (restrict_repository _ _).
  2: { injection Hpkg as <- <-. cbn in Ho. injection Ho as <- <-. apply Hm; [|done]. by left. }
  apply bind_Ok in Hpkg as ([[|reason] version] & _ & Hpkg).
  2: { injection Hpkg as <- <-. cbn in Ho. injection Ho as <- <-. apply Hm; [|done]. by left. }
  change (ri_build (pr_pkg (pkg_request b))) with (req_build b) in Hpkg.
  change (ri_build (pr_pkg (pkg_request a))) with (req_build a) in Hpkg.
  destruct (req_build b) as [bb|] eqn:Eb; cbn in Hpkg.
  2: { injection Hpkg as <- <-. cbn in Ho. destruct (merge_options _ _) as [cc out]. injection Ho as <- <-.
       apply Hm; [|done]. by left. }
  destruct (opt_Build_eq (req_build a) (Some bb) || negb (bool_decide (is_Some (req_build a)))) eqn:E; cbn in Hpkg.
  - injection Hpkg as <- <-. cbn in Ho. destruct (merge_options _ _) as [cc out]. injection Ho as <- <-.
    apply Hm; [|done]. right. cbn. split; [done|]. apply orb_true_iff in E as [E|E]; [by right|left].
    apply negb_true_iff, bool_decide_eq_false in E. by destruct (req_build a); [destruct E|].
  - apply bind_Ok in Hpkg as (s1 & _ & Hpkg). apply bind_Ok in Hpkg as (s2 & _ & Hpkg).
    injection Hpkg as <- <-. cbn in Ho. injection Ho as <- <-. apply Hm; [|done]. by left.
Qed.

Lemma agrees_merged a b c m :
  PkgRequestWithOptions_restrict permutations2 a b = Ok (c, m) -> req_name a = req_name b ->
  (is_ok c = true -> agrees m = agrees a && agrees b) /\ agrees m && agrees b = agrees a && agrees b.
Proof.
  intros E Hn. pose proof (restrict_name _ _ _ _ _ E) as Hm. unfold agrees. rewrite Hm, <-Hn.
  destruct (restrict_build _ _ _ _ E) as [[-> Hb]|[-> Hab]].
  - split; [|done]. intros Hc. by rewrite Hb, andb_true_r.
  - assert (forall x y : bool, (y = true -> x = true) -> y = x && y) as Hand by (by intros [] []; naive_solver).
    enough (match req_build b with None => true | Some b => Build_eq b (agreed (req_name a)) end = true ->
            match req_build a with None => true | Some b => Build_eq b (agreed (req_name a)) end = true) as H.
    { split; [intros _|]; rewrite <-(Hand _ _ H); [done|by destruct (match req_build b with None => _ | _ => _ end)]. }
    destruct Hab as [-> | Hab]; [done|]. destruct (req_build a) as [ba|]; [|done].
    destruct (req_build b) as [bb|]; [|done]. intros Hb. by eapply Build_eq_trans.
Qed.
Lemma passive_merged a b c m :
  PkgRequestWithOptions_restrict permutations2 a b = Ok (c, m) ->
  ask Q_passive m = ask Q_passive a && ask Q_passive b.
Proof.
  intros ([c1 r] & ([c2 pkg] & _ & [= <- <-])%bind_Ok & Ho)%bind_Ok. cbn [ask].
  assert (pr_inclusion_policy (pkg_request m) =
    cmp_min (pr_inclusion_policy (pkg_request a)) (pr_inclusion_policy (pkg_request b))) as ->.
  { destruct (negb _); [by injection Ho as _ <-|]. destruct (merge_options _ _). by injection Ho as _ <-. }
  by destruct (pr_inclusion_policy (pkg_request a)), (pr_inclusion_policy (pkg_request b)).
Qed.
Context {T C : Type} `{!Versioned T, !ComponentOps C, !Package T C}.
Context (hash_order : list Component -> list Component) (Hperm : forall l, hash_order l ≡ₚ l).

Lemma questions_merge p : pool_canonical p -> merges permutations2 ask good_question p.
Proof using All.
  intros Hp a b Ha Hb. destruct (admits_merges (C := C) hash_order Hperm permutations2 Hp2 p Hp a b Ha Hb)
    as (c & m & E & Hm & H). exists c, m. split_and!; [done..|].
  intros [v| | | |fits]; cbn [good_question]; [by apply H|intros _..|done|intros Hf; by apply (kept_merged _ Hf p)].
  - rewrite (passive_merged _ _ _ _ E). by destruct (ask Q_passive a), (ask Q_passive b).
  - apply (agrees_merged _ _ _ _ E). unfold req_name. by rewrite (ip_name p a Ha), (ip_name p b Hb).
Qed.

(** Whether a package answers a request is such a test. *)
Lemma answers_kept (spec : T) :
  usable (C := C) spec -> kept (fun r => is_ok (check_satisfies_pkg_request (C := C) hash_order spec r)).
Proof using Hperm Hp2.
  intros Hu. split; [|intros r' r; by apply (demands_answers hash_order Hperm)].
  intros p a b c m Hp Ha Hb E. destruct (restrict_in_pool (C := C) hash_order Hperm permutations2 Hp2 p a b Hp Ha Hb)
    as (c' & m' & E' & _ & H & _). rewrite E in E'. injection E' as <- <-. specialize (H spec Hu).
  destruct (is_ok c); [|by destruct H as [-> ->]]. split; [done|]. rewrite H.
  by destruct (is_ok (check_satisfies_pkg_request _ spec a)), (is_ok (check_satisfies_pkg_request _ spec b)).
Qed.

(** Requests for builds that agree, and some version for all, can be merged. *)
Lemma agreeing_restrict p a b v :
  pool_canonical p -> in_pool p a -> in_pool p b -> plain_version v ->
  admits v a = true -> admits v b = true -> agrees a = true -> agrees b = true ->
  exists m, PkgRequestWithOptions_restrict permutations2 a b = Ok (Compatible, m) /\ in_pool p m.
Proof.
  intros Hp Ha Hb Hv Hva Hvb Hba Hbb.
  destruct (admits_merges (C := C) hash_order Hperm permutations2 Hp2 p Hp a b Ha Hb) as (c & m & E & Hm & _).
  destruct c as [|reason]; [by exists m|]. exfalso. revert E.
  unfold PkgRequestWithOptions_restrict, PkgRequest_restrict.
  destruct (RangeIdent_restrict_spec permutations2 Hp2 (pr_pkg (pkg_request a)) (pr_pkg (pkg_request b))
    (restrict_mode (cmp_min (pr_inclusion_policy (pkg_request a)) (pr_inclusion_policy (pkg_request b)))))
    as (c & pkg & -> & _ & Hc); [apply Ha|apply Hb|]. cbn [mbind res_bind].
  destruct c as [|reason']; cbn [is_ok negb] in Hc |- *.
  - destruct (restrict_options_spec (pro_options a) (pro_options b)) as (c & out & -> & Ho);
      [apply Ha|apply Hb|]. destruct c; cbn [is_ok] in Ho; [done|].
    destruct Ho as [k Hk]. destruct (in_pool_no_clash p a b k Ha Hb Hk).
  - intros _. destruct Hc as [Hc|[[Hno|Hno] _]]; [by eapply in_pool_repositories in Hc| |].
    + apply (Hno (round_tags v)). rewrite !admits_iff in * by (done || apply Ha || apply Hb). tauto.
    + apply (Hno (agreed (req_name a))). unfold agrees in *. unfold build_allowed.
      assert (req_name b = req_name a) as En by (unfold req_name; by rewrite (ip_name p a Ha), (ip_name p b Hb)).
      rewrite En in Hbb. unfold req_build in *.
      destruct (ri_build (pr_pkg (pkg_request a))), (ri_build (pr_pkg (pkg_request b))); done.
Qed.
End questions.

(** ** Packages and states *)

Section sound.
Context {Repo Recipe T C Pattern : Type} `{!SourceOps Repo Recipe} `{!Versioned T, !ComponentOps C, !Package T C}.
Context `{!ComponentRequires C, !ComponentEmbeds C, !SolverPackage T C, !Hasher T, !GlobOps Pattern}.
Context (request_priority_order : list Pattern).
Context (hash_order : list Component -> list Component) (Hperm : forall l, hash_order l ≡ₚ l).
Context (permutations2 : forall A : Type, list A -> list (A * A)) (Hp2 : permutations2_spec permutations2).
Context (pool : rstr -> Pool) (Hpool : pools_wf pool) (agreed : rstr -> Build) (rank : rstr -> nat).
(** The requests a solve starts with, and the states it went through. *)
Context (initial : list PkgRequestWithOptions) (here : State Repo Recipe T -> Prop).
Implicit Types (s state base : State Repo Recipe T) (r : PkgRequestWithOptions) (spec : T) (q : Question)
  (change : Change Repo Recipe T) (changes : list (Change Repo Recipe T)).

Abbreviation pooled := (pooled pool).
Abbreviation agrees := (agrees agreed).
Abbreviation ask := (ask agreed).
Abbreviation asks q rs := (forallb (ask q) rs).
Abbreviation good_question := (good_question permutations2).
Abbreviation answers spec r := (is_ok (check_satisfies_pkg_request (C := C) hash_order spec r)).
Abbreviation apply_changes := (apply_changes request_priority_order permutations2).
Abbreviation get_merged_request := (SolverState.get_merged_request permutations2).

(** What a package may bring into a solve. *)
Definition wants spec r : Prop :=
  RequestWithOptions_Pkg r ∈ sp_runtime_requirements spec \/
  exists component, component ∈ pk_components spec /\ RequestWithOptions_Pkg r ∈ co_requirements component.
Definition proper r : Prop := in_pool (pool (req_name r)) r /\ agrees r = true.
Record good_package spec : Prop := {
  good_plain : plain_version (spec_version spec);
  good_embeds : sp_embedded spec = [];
  good_build : Build_is_embedded (pk_build spec) = false;
  good_wants r : wants spec r -> proper r /\ rank (req_name r) < rank (pk_name spec);
}.

(** The identifier is that of a state that was gone through, in which the package was not resolved but
    some was requested, and which only had packages that are there now. *)
Definition came_from s (name : rstr) (id : StateId) : Prop :=
  exists s0, here s0 /\ st_id s0 = id /\ get_current_resolve s0 name = None /\ requests_of s0 <> [] /\
    forall n, is_Some (get_current_resolve s0 n) -> is_Some (get_current_resolve s n).
(** Whatever answers the requests of the state answers the request. *)
Definition demanded s r : Prop :=
  forall q, good_question q -> asks q (requests_for s (req_name r)) = true -> ask q r = true.
(** The requests that a resolved package answers in full, not only with its
    version: the first ones, and the requirements of packages that are resolved. *)
Definition firm s r : Prop :=
  r ∈ initial \/ exists name resolved source id, get_current_resolve s name = Some (resolved, source, id) /\
    RequestWithOptions_Pkg r ∈ sp_runtime_requirements (ch_object resolved).
Record sound_resolve s (name : rstr) (resolved : CachedHash T) (source : PackageSource Repo Recipe) (id : StateId) : Prop := {
  sr_good : good_package (ch_object resolved);
  sr_admitted : asks (Q_admits (spec_version (ch_object resolved))) (requests_for s name) = true;
  sr_requested : requests_for s name <> [];
  sr_demands r : RequestWithOptions_Pkg r ∈ sp_runtime_requirements (ch_object resolved) -> demanded s r;
  sr_not_embedded : embedding_parent source = None;
  sr_came_from : came_from s name id;
  sr_answers r : usable (C := C) (ch_object resolved) -> req_name r = name -> firm s r -> answers (ch_object resolved) r = true;
}.
Record sound s : Prop := {
  so_wf : state_wf s;
  so_pooled : pooled (requests_of s);
  so_agreed : asks Q_agreed (requests_of s) = true;
  so_resolved name resolved source id :
    get_current_resolve s name = Some (resolved, source, id) -> sound_resolve s name resolved source id;
}.

Lemma questions n : merges permutations2 ask good_question (pool n).
Proof. apply (questions_merge permutations2 Hp2 agreed (C := C) hash_order Hperm), Hpool. Qed.
Lemma agreed_named s n : asks Q_agreed (requests_of s) = true -> asks Q_agreed (requests_for s n) = true.
Proof.
  rewrite !forallb_forall. intros H r. unfold requests_for, named. rewrite filter_In. intros [Hr _]. by apply H.
Qed.
Lemma agreed_all s : (forall n, asks Q_agreed (requests_for s n) = true) -> asks Q_agreed (requests_of s) = true.
Proof.
  intros H. apply forallb_forall. intros r Hr. specialize (H (req_name r)). rewrite forallb_forall in H. apply H.
  unfold requests_for, named. rewrite filter_In, bool_decide_eq_true. done.
Qed.
Lemma asks_none (l : list PkgRequestWithOptions) : asks Q_none l = true <-> l = [].
Proof. by destruct l. Qed.

(** The merged request for a package that is resolved. *)
Lemma merged_of_resolved s name resolved source id :
  sound s -> get_current_resolve s name = Some (resolved, source, id) ->
  exists m, get_merged_request s name = Ok m /\ in_pool (pool name) m /\ agrees m = true /\
    forall q, good_question q -> ask q m = asks q (requests_for s name).
Proof.
  intros Hs Hres. destruct (so_resolved s Hs _ _ _ _ Hres) as [Hg Ha Hne _ _ _ _].
  destruct (Hpool name) as [Hn Hc]. pose proof (so_pooled s Hs) as Hp. rewrite pooled_named in Hp. specialize (Hp name).
  change (named name (requests_of s)) with (requests_for s name) in Hp.
  pose proof (agreed_named s name (so_agreed s Hs)) as Hag.
  assert (exists m, get_merged_request s name = Ok m) as [m Hm].
  { unfold SolverState.get_merged_request. rewrite merge_requests_named by done.
    fold (requests_for s name). pose proof (named_all name (requests_of s)) as Hnames.
    change (named name (requests_of s)) with (requests_for s name) in Hnames.
    destruct (requests_for s name) as [|r rs] eqn:E; [done|]. clear Hne E.
    apply Forall_cons in Hp as [Hr Hp]. apply Forall_cons in Hnames as [Hrn Hnames].
    cbn [forallb] in Ha, Hag. apply andb_true_iff in Ha as [Ha1 Ha], Hag as [Hag1 Hag].
    cbn [merge_requests]. rewrite bool_decide_eq_true_2 by done. cbn [negb].
    revert r Hr Hrn Ha1 Hag1. induction Hp as [|r2 rs Hr2 Hp IH]; intros r Hr Hrn Ha1 Hag1; [by eexists|].
    apply Forall_cons in Hnames as [Hr2n Hnames]. cbn [forallb] in Ha, Hag.
    apply andb_true_iff in Ha as [Ha2 Ha], Hag as [Hag2 Hag]. cbn [merge_requests].
    rewrite bool_decide_eq_true_2 by congruence. cbn [negb].
    destruct (agreeing_restrict permutations2 Hp2 agreed (C := C) hash_order Hperm (pool name) r r2
      (spec_version (ch_object resolved)) Hc Hr Hr2) as (m & E & Hmp); [apply Hg|done..|].
    rewrite E. cbn [total mbind res_bind]. pose proof (restrict_name _ _ _ _ _ E) as Hmn.
    destruct (questions name r r2 Hr Hr2) as (c & m' & E' & _ & Hq). rewrite E in E'. injection E' as <- <-.
    apply IH; try done; [congruence|..].
    - rewrite (proj1 (Hq (Q_admits _) (good_plain _ Hg)) eq_refl). cbn [SoundStates.ask] in *. by rewrite Ha1, Ha2.
    - rewrite (proj1 (Hq Q_agreed I) eq_refl). cbn [SoundStates.ask] in *. by rewrite Hag1, Hag2. }
  exists m. split; [done|].
  destruct (get_merged_request_asked permutations2 ask good_question (pool name) s m (questions name)) as [Hin Hq];
    rewrite ?Hn; [done..|]. rewrite Hn in Hq. split; [done|]. split; [|done].
  change (ask Q_agreed m = true). by rewrite Hq.
Qed.

(** ** What changes make of sound states *)

Definition request_change change : Prop := package_set change = None /\ steps_back change = false.
Lemma apply_changes_wf changes parent s σ s' σ' :
  Forall (fun c => steps_back c = false) changes -> state_wf s ->
  apply_changes parent s changes σ = (Ok s', σ') -> state_wf s'.
Proof.
  intros Hf. revert s σ. induction Hf as [|change changes Hc Hf IH]; intros s σ Hs; [by intros [= <- _]|].
  cbn [SolverState.apply_changes]. intros (s1 & σ1 & H1 & H2)%SM_bind_Ok. eapply IH, H2.
  eapply Change_apply_wf, H1; [done|]. by destruct change.
Qed.
Lemma requests_keep_packages changes parent s σ s' σ' :
  Forall request_change changes -> apply_changes parent s changes σ = (Ok s', σ') -> st_packages s' = st_packages s.
Proof.
  intros Hf. revert s σ. induction Hf as [|change changes [Hset Hback] Hf IH]; intros s σ; [by intros [= <- _]|].
  cbn [SolverState.apply_changes]. intros (s1 & σ1 & H1 & H2)%SM_bind_Ok. rewrite (IH _ _ H2).
  destruct change; try done; cbn [SolverState.Change_apply] in H1.
  - unfold RequestPackage_apply in H1. apply SM_bind_Ok in H1 as ([cloned l] & σ2 & _ & H1).
    apply SM_bind_Ok in H1 as (l' & σ3 & _ & H1). by injection H1 as <- _.
  - by injection H1 as <- _.
  - by injection H1 as <- _.
Qed.

(** The state asks what another one does, and what is asked by some requests. *)
Definition asks_more s s' (rs : list PkgRequestWithOptions) : Prop := forall q n, good_question q ->
  asks q (requests_for s' n) = asks q (requests_for s n) && asks q (named n rs).
Lemma asks_more_answers s s' rs q n :
  asks_more s s' rs -> good_question q -> asks q (requests_for s' n) = true ->
  asks q (requests_for s n) = true /\ asks q (named n rs) = true.
Proof. intros H Hq. rewrite H by done. by rewrite andb_true_iff. Qed.
Lemma asks_more_requested s s' rs n : asks_more s s' rs -> requests_for s n <> [] -> requests_for s' n <> [].
Proof. intros H Hne Hnil%asks_none. apply Hne, asks_none. by apply (asks_more_answers s s' rs Q_none n H I). Qed.
Lemma demanded_more s s' rs r : asks_more s s' rs -> demanded s r -> demanded s' r.
Proof. intros H Hr q Hq Ha. apply Hr; [done|]. by apply (asks_more_answers s s' rs q (req_name r) H Hq). Qed.
Lemma demanded_made s s' rs r r' : asks_more s s' rs -> r' ∈ rs -> demands r' r -> demanded s' r.
Proof.
  intros H Hr' [Hn Hp Hv Hb Ho Hi Hc] q Hq Ha. destruct (asks_more_answers s s' rs q _ H Hq Ha) as [_ Hm].
  assert (ask q r' = true) as Hask.
  { rewrite forallb_forall in Hm. apply Hm. unfold named. rewrite filter_In, bool_decide_eq_true, <-list_elem_of_In.
    done. }
  revert Hask. destruct q as [v| | | |fits]; cbn [SoundStates.ask]; [|by rewrite Hi| |done|apply (kept_demands _ _ Hq); by split].
  - unfold admits, is_version_applicable. by rewrite Hp, Hv.
  - unfold SoundStates.agrees, req_build. by rewrite Hn, Hb.
Qed.
Lemma named_asks q n rs : (forall r, r ∈ rs -> req_name r = n -> ask q r = true) -> asks q (named n rs) = true.
Proof.
  intros H. apply forallb_forall. intros r. unfold named. rewrite filter_In, bool_decide_eq_true, <-list_elem_of_In.
  intros [Hr Hn]. by apply H.
Qed.

Lemma sound_resolve_kept s s' rs name resolved source id :
  asks_more s s' rs -> (forall n, is_Some (get_current_resolve s n) -> is_Some (get_current_resolve s' n)) ->
  (forall r, r ∈ rs -> req_name r = name -> admits (spec_version (ch_object resolved)) r = true) ->
  (forall r, usable (C := C) (ch_object resolved) -> req_name r = name -> firm s' r ->
     firm s r \/ answers (ch_object resolved) r = true) ->
  sound_resolve s name resolved source id -> sound_resolve s' name resolved source id.
Proof.
  intros Hm Hres Hr Hfirm [Hg Ha Hne Hd Hsrc Hfrom Hans]. split; try done.
  - rewrite Hm by apply Hg. rewrite Ha. by apply (named_asks (Q_admits _)).
  - by eapply asks_more_requested.
  - intros r Hin. by eapply demanded_more, Hd.
  - destruct Hfrom as (s0 & Hwf & Hid & Hn & Hq & Hsub). exists s0. split_and!; auto.
  - intros r Hu Hn Hf. destruct (Hfirm r Hu Hn Hf); auto.
Qed.

(** The changes that request, of a state: where they lead and what is asked there. *)
Lemma changes_asked changes parent s σ :
  state_wf s -> pooled (requests_of s) -> asks Q_agreed (requests_of s) = true ->
  Forall (fun c => steps_back c = false) changes -> Forall proper (made changes) ->
  exists s' σ', apply_changes parent s changes σ = (Ok s', σ') /\ state_wf s' /\ pooled (requests_of s') /\
    asks Q_agreed (requests_of s') = true /\ asks_more s s' (made changes) /\
    forall n, Some n ∉ package_set <$> changes -> get_current_resolve s' n = get_current_resolve s n.
Proof.
  intros Hwf Hp Hag Hf Hm. unfold proper in Hm. rewrite Forall_and in Hm. destruct Hm as [Hm Hma].
  destruct (decision_asked request_priority_order permutations2 pool Hpool ask good_question questions changes parent s σ
    Hf Hp Hm) as (s' & σ' & E & Hp' & Ha & Hget); [apply Hwf|].
  exists s', σ'. split; [done|]. split; [by eapply apply_changes_wf|]. split; [done|]. split_and!; [|by intros q n Hq; apply Ha|done].
  apply agreed_all. intros n. rewrite Ha by done. rewrite (agreed_named s n Hag). apply (named_asks Q_agreed).
  rewrite Forall_forall in Hma. intros r Hr _. by apply Hma.
Qed.
(** Requests that the packages resolved already answer. *)
Lemma requests_sound changes parent s σ :
  sound s -> Forall request_change changes -> Forall proper (made changes) ->
  (forall r resolved source id, r ∈ made changes -> get_current_resolve s (req_name r) = Some (resolved, source, id) ->
     admits (spec_version (ch_object resolved)) r = true) ->
  exists s' σ', apply_changes parent s changes σ = (Ok s', σ') /\ sound s' /\ asks_more s s' (made changes).
Proof.
  intros [Hwf Hp Hag Hres] Hf Hm Hadm.
  destruct (changes_asked changes parent s σ) as (s' & σ' & E & Hwf' & Hp' & Hag' & Ha & _); try done.
  { eapply Forall_impl; [exact Hf|]. by intros c [_ ?]. }
  exists s', σ'. split_and!; [done| |done]. pose proof (requests_keep_packages _ _ _ _ _ _ Hf E) as Hpk.
  split; [done..|]. intros name resolved source id. unfold get_current_resolve. rewrite Hpk. intros Hr.
  apply (sound_resolve_kept s s' (made changes)); [done| | | |by apply Hres].
  - intros n. unfold get_current_resolve. by rewrite Hpk.
  - intros r Hin <-. by eapply Hadm.
  - intros r _ _ Hfirm. left. unfold firm, get_current_resolve in *. by rewrite Hpk in Hfirm.
Qed.

(** A package that may be resolved, with the requests that come with it. *)
Record resolvable s changes spec (source : PackageSource Repo Recipe) : Prop := {
  rv_good : good_package spec;
  rv_new : get_current_resolve s (pk_name spec) = None;
  rv_admitted : asks (Q_admits (spec_version spec)) (requests_for s (pk_name spec)) = true;
  rv_requested : requests_for s (pk_name spec) <> [];
  rv_other r : r ∈ made changes -> req_name r <> pk_name spec;
  rv_demands r : RequestWithOptions_Pkg r ∈ sp_runtime_requirements spec -> exists r', r' ∈ made changes /\ demands r' r;
  rv_source : embedding_parent source = None;
  rv_answers r : usable (C := C) spec -> req_name r = pk_name spec -> firm s r -> answers spec r = true;
  rv_requires r resolved source' id : RequestWithOptions_Pkg r ∈ sp_runtime_requirements spec ->
    get_current_resolve s (req_name r) = Some (resolved, source', id) -> usable (C := C) (ch_object resolved) ->
    answers (ch_object resolved) r = true;
}.
Definition sets change spec (source : PackageSource Repo Recipe) : Prop :=
  change = Change_SetPackage spec source \/ change = Change_SetPackageBuild spec source.
Lemma resolve_sound first changes spec source parent s σ :
  sound s -> here s -> sets first spec source -> resolvable s changes spec source ->
  Forall request_change changes -> Forall proper (made changes) ->
  (forall r resolved source id, r ∈ made changes -> get_current_resolve s (req_name r) = Some (resolved, source, id) ->
     admits (spec_version (ch_object resolved)) r = true) ->
  exists s' σ', apply_changes parent s (first :: changes) σ = (Ok s', σ') /\ sound s' /\ asks_more s s' (made changes).
Proof.
  intros [Hwf Hp Hag Hres] Hhere Hset Hrv Hf Hm Hadm.
  assert (made (first :: changes) = made changes) as Hmade by (by destruct Hset as [-> | ->]).
  destruct (changes_asked (first :: changes) parent s σ) as (s' & σ' & E & Hwf' & Hp' & Hag' & Ha & _);
    rewrite ?Hmade in *; try done.
  { constructor; [by destruct Hset as [-> | ->]|]. eapply Forall_impl; [exact Hf|]. by intros c [_ ?]. }
  exists s', σ'. split_and!; [done| |done].
  assert (st_packages s' = bmap_insert (pk_name spec) (CachedHash_spec spec, source, st_id s) (st_packages s)) as Hpk.
  { cbn [SolverState.apply_changes] in E. apply SM_bind_Ok in E as (s1 & σ1 & H1 & H2).
    rewrite (requests_keep_packages _ _ _ _ _ _ Hf H2). destruct Hset as [-> | ->]; by injection H1 as <- _. }
  assert (forall n, get_current_resolve s' n = if decide (n = pk_name spec) then Some (CachedHash_spec spec, source, st_id s)
    else get_current_resolve s n) as Hget.
  { intros n. unfold get_current_resolve. rewrite Hpk. case_decide as Hn; [subst n; by apply bmap_get_insert_eq, Hwf|].
    by apply bmap_get_insert_ne; [apply Hwf|]. }
  assert (forall n, is_Some (get_current_resolve s n) -> is_Some (get_current_resolve s' n)) as Hsub.
  { intros n Hn. rewrite Hget. by case_decide. }
  assert (forall r, firm s' r -> firm s r \/ RequestWithOptions_Pkg r ∈ sp_runtime_requirements spec) as Hfirm.
  { intros r [Hr|(name & resolved & src & id & Hr & Hin)]; [by left; left|]. rewrite Hget in Hr. case_decide; [right|].
    - by injection Hr as <- _ _.
    - left. right. by eexists _, _, _, _. }
  split; [done..|]. intros name resolved src id. rewrite Hget. case_decide as Hn.
  - intros [= <- <- <-]. subst name. destruct Hrv as [Hg Hnew Hadmitted Hrq Hother Hd Hsrc Hans _].
    split; cbn [CachedHash_spec ch_object]; try done.
    + rewrite Ha by apply Hg. rewrite Hadmitted. apply named_asks. intros r Hr Hn. by apply Hother in Hr.
    + by eapply asks_more_requested.
    + intros r (r' & Hr' & Hd')%Hd. by eapply demanded_made.
    + exists s. split_and!; [done..| |done]. intros Hnil. apply Hrq. unfold requests_for. by rewrite Hnil.
    + intros r Hu Hn [Hr|Hr]%Hfirm; [by apply Hans|]. destruct (good_wants _ Hg r) as [_ Hlt]; [by left|]. rewrite Hn in Hlt. lia.
  - intros Hr. apply (sound_resolve_kept s s' (made changes)); [done..| | |by apply Hres].
    + intros r Hin <-. by eapply Hadm.
    + intros r Hu <- [Hfr|Hreq]%Hfirm; [by left|right]. by eapply (rv_requires _ _ _ _ Hrv).
Qed.

(** ** Decisions for packages *)

Lemma proper_same r r' :
  req_name r' = req_name r -> ri_repository_name (pr_pkg (pkg_request r')) = ri_repository_name (pr_pkg (pkg_request r)) ->
  ri_version (pr_pkg (pkg_request r')) = ri_version (pr_pkg (pkg_request r)) ->
  pr_prerelease_policy (pkg_request r') = pr_prerelease_policy (pkg_request r) ->
  req_build r' = req_build r -> pro_options r' = pro_options r -> proper r -> proper r'.
Proof.
  intros Hn Hrep Hv Hp Hb Ho [[Hin1 Hin2 Hin3 Hin4 Hin5 Hin6 Hin7] Ha]. unfold proper, SoundStates.agrees. rewrite Hn, Hb.
  split; [|exact Ha]. unfold req_name in Hn. split; rewrite ?Hn, ?Hrep, ?Hv, ?Hp, ?Ho; done.
Qed.
Lemma with_components_proper components r : proper r -> proper (with_request_components components r).
Proof. by apply proper_same. Qed.
Lemma default_components_proper r : proper r -> proper (default_components r).
Proof. unfold default_components. case_bool_decide; [apply with_components_proper|done]. Qed.
Lemma default_build_proper (component : C) r : proper r -> proper (default_build_components component r).
Proof.
  unfold default_build_components. destruct (_ && _ && _); [apply with_components_proper|done].
Qed.
Lemma with_requester_proper r r' requested_by : with_requester r requested_by = Ok r' -> proper r -> proper r'.
Proof. intros (p & Hp%total_Ok & [= <-])%bind_Ok. apply bind_Ok in Hp as (key & _ & [= <-]). by apply proper_same. Qed.

(** Changes that request packages of a rank below a bound, and nothing else that
    matters here. *)
Definition requests_below (n : nat) changes : Prop :=
  Forall request_change changes /\ Forall (fun r => proper r /\ rank (req_name r) < n) (made changes).
Lemma requests_below_nil n : requests_below n [].
Proof. by split. Qed.
Lemma requests_below_app n l k : requests_below n l -> requests_below n k -> requests_below n (l ++ k).
Proof. intros [? ?] [? ?]. unfold requests_below. rewrite made_app, !Forall_app. done. Qed.
Lemma requests_below_request n r prioritize :
  proper r -> rank (req_name r) < n -> requests_below n [Change_RequestPackage r prioritize].
Proof. intros Hr Hn. split; [by repeat constructor|]. by constructor. Qed.
Lemma requests_below_concat {A} n (f : A -> res ParentError (list (SolverState.Change Repo Recipe T))) l changes :
  concat_changes f l = Ok changes -> (forall x ys, x ∈ l -> f x = Ok ys -> requests_below n ys) -> requests_below n changes.
Proof.
  intros (ls & Hls & ->)%concat_changes_Ok Hf.
  assert (Forall (requests_below n) ls) as Hl.
  { apply Forall_forall. intros ys Hys. apply list_elem_of_lookup in Hys as [i Hi].
    destruct (Forall2_lookup_r _ _ _ _ _ Hls Hi) as (x & Hx & E). eapply Hf; [|exact E].
    by eapply list_elem_of_lookup_2. }
  clear Hls. induction Hl as [|ys ls Hy _ IH]; [apply requests_below_nil|]. by apply requests_below_app.
Qed.

Section built.
Context (base : State Repo Recipe T) (Hbase : sound base).
Abbreviation pkg_request_to_changes := (pkg_request_to_changes (C := C) hash_order permutations2 base).

Lemma requirements_below n f requirements requested_by changes :
  (forall r, RequestWithOptions_Pkg r ∈ requirements -> proper r /\ rank (req_name r) < n) ->
  (forall r ys, proper r -> rank (req_name r) < n -> f r = Ok ys -> requests_below n ys) ->
  requirements_changes f requirements requested_by = Ok changes -> requests_below n changes.
Proof.
  intros Hr Hf H. apply (requests_below_concat _ _ _ _ H). intros [r|r] ys Hin.
  - intros (r' & Hr' & Hy)%bind_Ok. destruct (Hr r Hin) as [Hp Hn]. eapply Hf; [..|exact Hy].
    + by eapply with_requester_proper.
    + assert (req_name r' = req_name r) as -> by (by eapply with_requester_demands). done.
  - intros [= <-]. split; [by repeat constructor|constructor].
Qed.
Lemma pkg_request_below n fuel r changes :
  proper r -> rank (req_name r) < n -> pkg_request_to_changes fuel r = Ok changes -> requests_below n changes.
Proof.
  revert r changes. induction fuel as [|fuel IH]; intros r changes Hr Hn; [done|]. cbn [Decisions.pkg_request_to_changes].
  assert (requests_below n [RequestPackage_new (default_components r)]) as Hone.
  { apply requests_below_request; [by apply default_components_proper|]. by rewrite default_components_name. }
  rewrite default_components_name. destruct (get_current_resolve base (req_name r)) as [[[resolved source] id]|] eqn:Eres;
    [|by intros [= <-]].
  destruct (SolverState.get_merged_request _ _ _) as [m|e|]; [|by intros [= <-]|done].
  case_bool_decide; [by intros [= <-]|]. intros (more & Hmore & [= <-])%bind_Ok.
  change (RequestPackage_new ?x :: more) with ([RequestPackage_new (Repo := Repo) (Recipe := Recipe) (T := T) x] ++ more).
  apply requests_below_app; [done|]. apply (requests_below_concat _ _ _ _ Hmore). intros component ys Hc.
  destruct (negb _); [intros [= <-]; apply requests_below_nil|].
  apply requirements_below; [|by intros q zs; apply IH].
  destruct (so_resolved base Hbase _ _ _ _ Eres) as [Hg _ _ _ _ _ _]. intros q Hq.
  destruct (good_wants _ Hg q) as [Hp Hlt]; [right; by exists component|]. split; [done|].
  assert (pk_name (ch_object resolved) = req_name r) as Hname; [|rewrite Hname in Hlt; lia].
  pose proof (wf_specs base (so_wf base Hbase)) as Hf. rewrite Forall_forall in Hf.
  unfold get_current_resolve in Eres. apply bmap_get_elem_of in Eres as (k & Hk & ->%cmp_eq). symmetry. by apply (Hf _ Hk).
Qed.

Section package.
Context (Build_from_str : rstr -> option Build).
Context (same_embedded : EmbeddedPackageSpec C -> EmbeddedPackageSpec C -> bool).
Context (entries_order : list (EmbeddedPackageSpec C * list Component) ->
                         list (EmbeddedPackageSpec C * list Component)).
Context (selected : list Component).

Lemma nothing_embedded (components : list C) (required : list Component) : merged_embedded same_embedded [] components required = [].
Proof.
  unfold merged_embedded. induction components as [|component components IH]; [done|]. cbn [foldl].
  destruct (negb _); [done|].
  assert (forall l, foldl (fun merged embedded_package =>
    foldl (fun merged e => merge_embedded same_embedded e (cep_components embedded_package) merged) merged
      (packages_matching_embedded_package [] embedded_package)) [] l = []) as -> by (by induction l).
  done.
Qed.
(** What a package brings along. *)
Lemma package_changes_below set_package fuel first spec changes :
  good_package spec ->
  package_changes hash_order permutations2 same_embedded entries_order base selected set_package fuel first spec = Ok changes ->
  exists rest, changes = first ++ rest /\ requests_below (rank (pk_name spec)) rest.
Proof.
  intros Hg H. unfold package_changes in H. apply bind_Ok in H as (required & Hr & H).
  apply bind_Ok in H as (cs & Hc & H). apply bind_Ok in H as (embedded & He & [= <-]).
  eexists. split; [done|]. apply requests_below_app; [|apply requests_below_app; [|apply requests_below_app]].
  - eapply requirements_below, Hr; [|by intros r ys; apply pkg_request_below].
    intros r Hin. apply (good_wants _ Hg). by left.
  - apply (requests_below_concat _ _ _ _ Hc). intros component ys Hin. destruct (negb _);
      [intros [= <-]; apply requests_below_nil|].
    intros H. apply (requests_below_concat _ _ _ _ H). intros [r|r] zs Hreq.
    + intros (r' & Hr' & Hz)%bind_Ok. destruct (good_wants _ Hg r) as [Hp Hn]; [right; by exists component|].
      assert (req_name (default_build_components component r') = req_name r) as Hname by
        (etrans; [apply default_build_demands|by eapply with_requester_demands]).
      eapply pkg_request_below; [|by rewrite Hname|exact Hz].
      by eapply default_build_proper, with_requester_proper.
    + intros [= <-]. split; [by repeat constructor|constructor].
  - unfold embedded_changes in He. rewrite (good_embeds _ Hg) in He. rewrite nothing_embedded in He.
    rewrite (bool_decide_eq_true_2 ([] = [])), andb_false_r in He by done. injection He as <-. apply requests_below_nil.
  - split; [by repeat constructor|constructor].
Qed.

(** The changes after the first one of a decision for a package. *)
Record brings spec (rest : list (Change Repo Recipe T)) : Prop := {
  br_below : requests_below (rank (pk_name spec)) rest;
  br_demands r : RequestWithOptions_Pkg r ∈ sp_runtime_requirements spec -> exists r', r' ∈ made rest /\ demands r' r;
}.
Lemma package_changes_brings set_package fuel first spec changes :
  good_package spec -> request_made first = None ->
  package_changes hash_order permutations2 same_embedded entries_order base selected set_package fuel [first] spec = Ok changes ->
  exists rest, changes = first :: rest /\ brings spec rest.
Proof.
  intros Hg Hf H. destruct (package_changes_below _ _ _ _ _ Hg H) as (rest & -> & Hr). exists rest. split; [done|].
  split; [done|]. intros r Hreq.
  destruct (package_changes_demands hash_order permutations2 same_embedded entries_order base selected _ _ _ _ _ r H)
    as (r' & Hr' & Hd); [by left|]. exists r'. split; [|done]. revert Hr'. unfold made. cbn [app omap list_omap].
  by rewrite Hf.
Qed.
Lemma resolve_package_brings depth fuel spec source d :
  good_package spec ->
  resolve_package (C := C) hash_order permutations2 Build_from_str same_embedded entries_order base selected depth fuel
    spec source = Ok d ->
  exists rest, dec_changes d = Change_SetPackage spec source :: rest /\ brings spec rest.
Proof.
  intros Hg. destruct depth as [|depth]; [done|]. intros (changes & (parent & Hparent & H)%bind_Ok & [= <-])%bind_Ok.
  assert (parent = []) as ->; [|by apply package_changes_brings in H].
  pose proof (good_build _ Hg) as Hb. unfold parent_changes in Hparent.
  destruct (pk_build spec) as [|p|]; [by injection Hparent as <-|done|by injection Hparent as <-].
Qed.
Lemma build_package_brings depth fuel recipe spec d :
  good_package spec ->
  build_package (C := C) hash_order permutations2 Build_from_str same_embedded entries_order base selected depth fuel
    recipe spec = Ok d ->
  exists rest, dec_changes d = SetPackageBuild_new spec recipe :: rest /\ brings spec rest.
Proof. intros Hg (changes & H & [= <-])%bind_Ok. by apply package_changes_brings in H. Qed.
End package.
End built.

(** ** Decisions that lead to sound states *)

Lemma merged_asked s name m :
  pooled (requests_of s) -> get_merged_request s name = Ok m ->
  in_pool (pool name) m /\ requests_for s name <> [] /\
  forall q, good_question q -> ask q m = asks q (requests_for s name).
Proof.
  intros Hp Hm. destruct (Hpool name) as [Hn _]. rewrite pooled_named in Hp. specialize (Hp name).
  destruct (get_merged_request_asked permutations2 ask good_question (pool name) s m (questions name)) as [Hin Hq];
    rewrite ?Hn; [done..|]. rewrite Hn in Hq. split_and!; [done| |done].
  intros Hnil%asks_none. rewrite <-(Hq Q_none I) in Hnil. done.
Qed.
Lemma merged_proper s name m :
  pooled (requests_of s) -> asks Q_agreed (requests_of s) = true -> get_merged_request s name = Ok m ->
  req_name m = name /\ proper m.
Proof.
  intros Hp Ha Hm. pose proof (get_merged_request_name permutations2 _ _ _ Hm) as Hn.
  destruct (merged_asked s name m Hp Hm) as (Hin & _ & Hq). split; [done|]. unfold proper. rewrite Hn. split; [done|].
  change (ask Q_agreed m = true). rewrite Hq by done. by apply agreed_named.
Qed.
(** The version of a resolved package that a decision does not invalidate. *)
Lemma kept_admitted s changes r resolved source id :
  sound s -> Forall proper (made changes) -> r ∈ made changes ->
  reconsider_invalidated_resolve permutations2 s changes = Ok None ->
  get_current_resolve s (req_name r) = Some (resolved, source, id) ->
  admits (spec_version (ch_object resolved)) r = true.
Proof.
  intros Hs Hm Hr Hcheck%not_invalidated Hres. rewrite Forall_forall in Hm, Hcheck.
  destruct (merged_of_resolved s _ _ _ _ Hs Hres) as (m & Hmerged & _).
  eapply (kept_admits (C := C) hash_order permutations2 pool Hpool Hperm Hp2 s); [apply Hs|by apply Hm|exact Hres|exact Hmerged| |by apply Hcheck].
  apply (good_plain _ (sr_good _ _ _ _ _ (so_resolved s Hs _ _ _ _ Hres))).
Qed.
Lemma requests_below_other spec rest r :
  requests_below (rank (pk_name spec)) rest -> r ∈ made rest -> req_name r <> pk_name spec.
Proof. intros [_ H] Hr Hn. rewrite Forall_forall in H. destruct (H r Hr) as [_ Hlt]. rewrite Hn in Hlt. lia. Qed.
Lemma requests_below_proper n rest : requests_below n rest -> Forall proper (made rest).
Proof. intros [_ H]. eapply Forall_impl; [exact H|]. by intros r [? _]. Qed.

(** What a package was checked for before it is resolved. *)
Record accepted s spec r : Prop := {
  acc_admits : admits (spec_version spec) r = true;
  acc_answers : usable (C := C) spec -> answers spec r = true;
  acc_requires r' resolved source id : RequestWithOptions_Pkg r' ∈ sp_runtime_requirements spec ->
    get_current_resolve s (req_name r') = Some (resolved, source, id) -> usable (C := C) (ch_object resolved) ->
    answers (ch_object resolved) r' = true;
}.
Lemma decision_sound s first rest spec source m parent σ :
  sound s -> here s -> (forall r, r ∈ initial -> demanded s r) -> sets first spec source -> good_package spec -> embedding_parent source = None ->
  get_current_resolve s (pk_name spec) = None -> get_merged_request s (pk_name spec) = Ok m ->
  accepted s spec m -> brings spec rest ->
  reconsider_invalidated_resolve permutations2 s (first :: rest) = Ok None ->
  exists s' σ', apply_changes parent s (first :: rest) σ = (Ok s', σ') /\ sound s' /\ asks_more s s' (made rest).
Proof.
  intros Hs Hhere Hinitial Hset Hg Hsrc Hnew Hm [Hadm Hans Hreq] [Hb Hd] Hcheck.
  destruct (merged_asked s _ m (so_pooled s Hs) Hm) as (_ & Hne & Hq).
  assert (made (first :: rest) = made rest) as Hmade by (by destruct Hset as [-> | ->]).
  apply (resolve_sound first rest spec source); [done..| |apply Hb|by eapply requests_below_proper|].
  - split; [done..| |done| |done|done| |done].
    + rewrite <-Hq; [done|]. apply Hg.
    + intros r. by apply requests_below_other.
    + intros r Hu Hn Hfirm. pose proof (answers_kept permutations2 Hp2 (C := C) hash_order Hperm spec Hu) as Hk.
      assert (demanded s r) as Hr.
      { destruct Hfirm as [Hr|(name & resolved & src & id & Hr & Hin)]; [by apply Hinitial|].
        by apply (sr_demands _ _ _ _ _ (so_resolved s Hs _ _ _ _ Hr)). }
      apply (Hr (Q_fits _) Hk). rewrite Hn, <-(Hq (Q_fits _) Hk). by apply Hans.
  - intros r resolved source' id Hr. apply (kept_admitted s (first :: rest)); rewrite ?Hmade; [done| |done..].
    by eapply requests_below_proper.
Qed.
(** Going back and requesting a package that was not resolved there. *)
Lemma reconsider_sound dest r counter base state σ :
  sound dest -> proper r -> get_current_resolve dest (req_name r) = None ->
  exists s' σ', apply_changes base state [Change_StepBack dest counter; RequestPackage_prioritize r] σ = (Ok s', σ') /\
    sound s' /\ asks_more dest s' [r].
Proof.
  intros Hs Hr Hnew. destruct (count_step_back counter σ) as [[u|e|] σ1] eqn:E; [|by unfold count_step_back in E..].
  destruct (requests_sound [RequestPackage_prioritize r] base dest σ1 Hs) as (s' & σ' & Ha & Hs' & Hm).
  { by repeat constructor. }
  { by constructor. }
  { intros r' resolved source id ->%list_elem_of_singleton. by rewrite Hnew. }
  exists s', σ'. split; [|done]. rewrite <-Ha. cbn [SolverState.apply_changes SolverState.Change_apply].
  unfold StepBack_apply, mbind, SM_bind. by rewrite E.
Qed.
(** The state a resolved package was added to. *)
Lemma earlier_state s dest name id n :
  came_from s name id -> (forall s0, here s0 -> st_id s0 = id -> s0 = dest) -> (n = name \/ get_current_resolve s n = None) ->
  get_current_resolve dest n = None /\ requests_of dest <> [].
Proof.
  intros (s0 & Hhere & Hid & Hnone & Hne & Hsub) Hd Hn. rewrite <-(Hd s0 Hhere Hid). split; [|done].
  destruct Hn as [->|Hn]; [done|]. apply eq_None_not_Some. intros Hsome%Hsub. rewrite Hn in Hsome. by destruct Hsome.
Qed.
Lemma invalidated_found s changes r id :
  reconsider_invalidated_resolve permutations2 s changes = Ok (Some (Invalidated_Reconsider r id)) ->
  r ∈ made changes /\ exists resolved source, get_current_resolve s (req_name r) = Some (resolved, source, id).
Proof.
  induction changes as [|change changes IH]; [done|].
  destruct change as [request prioritize| | | | |]; cbn [reconsider_invalidated_resolve]; try done.
  destruct (invalidated_by permutations2 s request) as [[problem|]|[]|] eqn:E; cbn [mbind res_bind]; [|by intros [? ?]%IH; split; [right|]|done].
  intros [= ->]. revert E. unfold invalidated_by.
  destruct (get_current_resolve s (req_name request)) as [[[resolved source] sid]|] eqn:Eres; [|done].
  destruct (SolverState.get_merged_request _ _ _) as [m|e|]; [|done..].
  destruct (stale_reason _ _ _ _) as [[[conflict reason]|]|[]|]; cbn [mbind res_bind]; [|done..].
  destruct (_ || _); [done|]. intros [= <- <-]. split; [by left|by eexists _, _].
Qed.
End sound.

(** What is sound stays so when more states have been gone through. *)
Section here.
Context {Repo Recipe T C : Type} `{!SourceOps Repo Recipe} `{!Versioned T, !ComponentOps C, !Package T C}.
Context `{!ComponentRequires C, !SolverPackage T C, !Hasher T}.
Context (hash_order : list Component -> list Component) (permutations2 : forall A : Type, list A -> list (A * A)).
Context (pool : rstr -> Pool) (agreed : rstr -> Build) (rank : rstr -> nat) (initial : list PkgRequestWithOptions).
Lemma sound_here (here here' : State Repo Recipe T -> Prop) (s : State Repo Recipe T) :
  (forall s, here s -> here' s) -> sound hash_order permutations2 pool agreed rank initial here s ->
  sound hash_order permutations2 pool agreed rank initial here' s.
Proof.
  intros Hle [Hwf Hp Ha Hres]. split; [done..|]. intros name resolved source id Hr.
  destruct (Hres _ _ _ _ Hr) as [H1 H2 H3 H4 H5 (s0 & H6 & H7) H8]. split; try done. exists s0. auto.
Qed.
End here.
