(* ===== verification/StepSound.v ===== *)
(** * Sound steps

    A step of the solver ([StepState]) on a sound state makes a decision that
    leads to a sound state ([SoundStates]), provided the repositories hold
    packages as the soundness of states needs them. *)

From stdpp Require Import gmap.
From S2P Require Import Prelude Strings Collections Names Version VersionOrder VersionText.
From S2P Require Import Compat RangeData Reasons CompatCheck Intersection VersionRange RangeTheory.
From S2P Require Import Components Options Idents Requests RequestEq Opts Requirements ComponentSpecs.
From S2P Require Import Satisfy Embedded PackageSpec MergeTheory RequestPools Encoding Solution.
From S2P Require Import SolverState SolverTheory SolverRequests Validation ValidationTheory Decisions DecisionTheory.
From S2P Require Import BuildKeys PackageIterators IteratorTheory Graph ImpossibleChecks StepSolver StepState SoundStates.

(** ** Problems that blame an embedder

    They come from packages that are resolved as embedded ones only. *)

Definition blames_embedder (c : Compatibility) : bool :=
  match c with Incompatible (ComponentsMissing (EmbeddedComponentsNotProvided _ _ _ _)) => true | _ => false end.
Abbreviation blameless c := (blames_embedder c = false).

Lemma first_problem_blameless {A} (check : A -> Compatibility) l :
  Forall (fun x => blameless (check x)) l -> blameless (first_problem check l).
Proof.
  induction 1 as [|x l Hx _ IH]; [done|]. cbn [first_problem]. by destruct (check x).
Qed.
Lemma first_problem_res_blameless {E A} (check : A -> res E Compatibility) l c :
  (forall x c, x ∈ l -> check x = Ok c -> blameless c) -> first_problem_res check l = Ok c -> blameless c.
Proof.
  induction l as [|x l IH]; intros H; [by intros [= <-]|]. cbn [first_problem_res].
  destruct (check x) as [[|reason]|e|] eqn:Ec; cbn [mbind res_bind]; [|intros [= <-]; eapply H; [by left|done]|done..].
  apply IH. intros y c' Hy. apply H. by right.
Qed.
Ltac blameless := repeat case_match; simplify_eq/=; try done.

Lemma wildcard_blameless self i ps v : blameless (wildcard_applicable self i ps v).
Proof. revert i v. induction ps as [|a ps IH]; intros i [|b v]; [done..|]. cbn [wildcard_applicable]. blameless. Qed.
Lemma default_applicable_blameless lower upper v : blameless (default_is_applicable lower upper v).
Proof. unfold default_is_applicable. destruct lower, upper; blameless. Qed.
Fixpoint is_applicable_blameless (r : VersionRange) v : blameless (is_applicable r v).
Proof.
  destruct r as [| | | |rules| | | | | | | |]; cbn [is_applicable]; try apply default_applicable_blameless.
  - unfold DoubleEqualsVersion_is_applicable. blameless.
  - unfold DoubleNotEqualsVersion_is_applicable. blameless.
  - unfold EqualsVersion_is_applicable. blameless.
  - apply first_problem_blameless. induction rules as [|r rules IH]; constructor; [apply is_applicable_blameless|exact IH].
  - unfold GreaterThanRange_is_applicable. blameless.
  - unfold GreaterThanOrEqualToRange_is_applicable. blameless.
  - unfold LessThanRange_is_applicable. blameless.
  - unfold LessThanOrEqualToRange_is_applicable. blameless.
  - unfold NotEqualsVersion_is_applicable. blameless.
  - apply wildcard_blameless.
Qed.
Lemma check_compat_blameless self base other required : blameless (check_compat self base other required).
Proof.
  unfold check_compat. destruct (VersionParts_eq _ _).
  - destruct (_ && _); [done|]. cbn [check_tags]. blameless.
  - generalize 0 at 1. induction (compat_parts self) as [|rule rules IH]; intros i; [done|]. cbn [check_parts].
    destruct (_ !! i); [|done]. repeat case_match; try done; apply IH.
Qed.
Fixpoint is_satisfied_by_blameless {V} `{Versioned V} (r : VersionRange) (spec : V) required :
  blameless (is_satisfied_by r spec required).
Proof.
  destruct r as [r| | | |rules| | | | | | | |]; cbn [is_satisfied_by]; try apply (is_applicable_blameless (_ _)).
  - unfold CompatRange_is_satisfied_by. destruct (ltb _ _); [done|].
    destruct (match cr_required r with Some r => r | None => required end); [done|apply check_compat_blameless..].
  - apply first_problem_blameless. induction rules as [|r rules IH]; constructor; [apply is_satisfied_by_blameless|exact IH].
Qed.
Lemma version_applicable_blameless r v : blameless (is_version_applicable r v).
Proof. unfold is_version_applicable. destruct (_ && _); [done|]. apply (is_applicable_blameless (Range_Filter _)). Qed.
Lemma check_satisfies_blameless {T C} `{Package T C} (hash_order : list Component -> list Component) (spec : T) r :
  blameless (check_satisfies_pkg_request (C := C) hash_order spec r).
Proof.
  unfold check_satisfies_pkg_request. case_match; [done|]. case_match; [done|]. case_match; [done|].
  assert (blameless (check_components (C := C) hash_order (pr_pkg (pkg_request r)) spec)) as Hc.
  { unfold check_components. blameless. }
  destruct (check_components _ _ _); [|done].
  pose proof (is_satisfied_by_blameless (Range_Filter (ri_version (pr_pkg (pkg_request r)))) spec RuleBinary) as Hs.
  destruct (is_satisfied_by _ _ _); [|done]. case_match; [done|].
  apply first_problem_blameless. apply Forall_forall. intros [o|o] _; [done|]. cbn [check_option].
  unfold check_required_option. blameless.
Qed.

Section sound.
Context {Repo Recipe T C Error Pattern : Type} `{!SourceOps Repo Recipe} `{!Versioned T, !ComponentOps C, !Package T C}.
Context `{!ComponentEmbeds C, !ComponentRequires C, !SolverPackage T C, !SolverRecipe Recipe, !Hasher T}.
Context `{!GlobOps Pattern, !RepoOps Repo Recipe T Error, !BuildableRecipe Repo Recipe T}.
Context `{!SolveParameters Repo T C Error Pattern}.
Context (Hperm : forall l, hash_order l ≡ₚ l) (Hp2 : permutations2_spec permutations2).
Context (pool : rstr -> Pool) (Hpool : pools_wf pool) (agreed : rstr -> Build) (rank : rstr -> nat).
(** The requests of the solver, and the states it went through. *)
Context (builders : list (Change Repo Recipe T)) (here : State Repo Recipe T -> Prop).
Implicit Types (state : State Repo Recipe T) (spec : T) (source : PackageSource Repo Recipe)
  (r : PkgRequestWithOptions) (d : Decision Repo Recipe T).

Abbreviation sound := (sound hash_order permutations2 pool agreed rank (made builders) here).
Abbreviation came_from := (came_from here).
Abbreviation accepted := (accepted (C := C) hash_order).
Abbreviation good_question := (good_question permutations2).
Abbreviation answers spec r := (is_ok (check_satisfies_pkg_request (C := C) hash_order spec r)).
Abbreviation good_package := (good_package pool agreed rank).
Abbreviation proper := (proper pool agreed).

(** *** What the validators answer *)

Lemma embedded_against_state_blameless spec (embedded : EmbeddedPackageSpec C) state c :
  validate_embedded_package_against_state hash_order permutations2 spec embedded state = Ok c -> blameless c.
Proof.
  unfold validate_embedded_package_against_state. repeat case_match; intros; simplify_eq/=; done.
Qed.
Lemma required_components_blameless spec request state c :
  validate_embedded_packages_in_required_components (C := C) hash_order permutations2 spec request state = Ok c -> blameless c.
Proof.
  apply first_problem_res_blameless. intros component c' _. case_bool_decide; [by intros [= <-]|].
  apply first_problem_res_blameless. intros embedded c'' _. apply embedded_against_state_blameless.
Qed.
Lemma existing_state_blameless state request c :
  sound state ->
  validate_request_against_existing_state (C := C) hash_order permutations2 state request = Ok c -> blameless c.
Proof.
  intros Hs. destruct request as [request|request]; [|by intros [= <-]]. cbn [validate_request_against_existing_state].
  destruct (state_requests _ _ _) as [existing|[]|]; [|by intros [= <-]|done..].
  destruct (PkgRequestWithOptions_restrict _ _ _) as [[[|reason] restricted]|[]|]; cbn [total mbind res_bind];
    [|by intros [= <-]|done].
  destruct (get_current_resolve state (req_name restricted)) as [[[resolved source] id]|] eqn:Eres; [|by intros [= <-]].
  rewrite (sr_not_embedded _ _ _ _ _ _ _ _ _ _ _ _ (so_resolved _ _ _ _ _ _ _ _ Hs _ _ _ _ Eres)).
  destruct (validate_request_against_existing_resolve _ _ _ _) as [|reason] eqn:E.
  - apply first_problem_res_blameless. intros component c' _. repeat case_bool_decide; try by intros [= <-].
    apply first_problem_res_blameless. intros embedded c'' _.
    destruct (validate_embedded_package_against_state _ _ _ _ _) as [[]|e|]; cbn [mbind res_bind]; by intros [= <-].
  - intros [= <-]. revert E. unfold validate_request_against_existing_resolve.
    destruct (check_satisfies_pkg_request _ _ _); [|by intros [= <-]]. case_match; by intros [= <-].
Qed.
Lemma checked_blameless (name : rstr) (check : PkgRequestWithOptions -> res ValidationError Compatibility) state c :
  (forall request, check request = Ok c -> blameless c) ->
  (request ← question_mark (state_requests permutations2 state name); check request) = Ok c -> blameless c.
Proof. intros H. destruct (question_mark _) as [request|e|]; cbn [mbind res_bind]; [apply H|done..]. Qed.
Lemma validator_blameless validator state spec source σ c σ' :
  sound state ->
  validate_package (C := C) hash_order permutations2 parse_version_range display_reason validator state spec source σ = (Ok c, σ') ->
  blameless c.
Proof.
  intros Hs. destruct validator; cbn [validate_package].
  - by intros [= <- _].
  - unfold validate_components. destruct (Build_is_embedded _); [by intros [= <- _]|]. intros [= H _]. revert H.
    apply checked_blameless. intros request. unfold check_for_missing_components.
    destruct (negb _); [by intros [= <-]|]. apply required_components_blameless.
  - unfold deprecation_against_request. destruct (negb _); [by intros [= <- _]|]. intros [= H _]. revert H.
    apply checked_blameless. intros request. case_match; by intros [= <-].
  - intros [= H _]. revert H. apply checked_blameless. intros request. apply required_components_blameless.
  - intros [= H _]. revert H. apply first_problem_res_blameless. intros request c' _. destruct (superseded _ _ _); [by intros [= <-]|].
    destruct (check_satisfies_var_request _ _ _) as [[]|[]|]; cbn [total mbind res_bind]; by intros [= <-].
  - unfold pkg_request_against_request. destruct (state_requests _ _ _) as [request|[]|]; [|by intros [= <- _]..|done].
    destruct (repository_problem _ _); [by intros [= <- _]|].
    pose proof (version_applicable_blameless (pkg_request request) (spec_version spec)) as Hv.
    destruct (is_version_applicable _ _); intros [= <- _]; [apply check_satisfies_blameless|done].
  - intros [= H _]. revert H. apply first_problem_res_blameless. intros request c' _. by apply existing_state_blameless.
  - destruct (get_option_map state σ) as [[options|e|] σ1]; intros [= <- _].
    apply first_problem_blameless, Forall_forall. intros [r|r] _; [done|]. apply first_problem_blameless, Forall_forall.
    intros [name value] _. unfold check_option_value. blameless.
Qed.
Lemma validators_blameless validators state spec source σ c σ' :
  sound state ->
  Solver_validate_package (C := C) hash_order permutations2 parse_version_range display_reason validators state spec source σ
    = (Ok c, σ') -> blameless c.
Proof.
  intros Hs. unfold Solver_validate_package. revert σ. induction validators as [|validator validators IH]; intros σ;
    cbn [ask_all]; [by intros [= <- _]|].
  destruct (validate_package _ _ _ _ _ _ _ _ _) as [[[|reason]|e|] σ1] eqn:E; [apply IH| |done..].
  intros [= <- _]. by eapply validator_blameless.
Qed.
Lemma validators_pass validator validators state spec source σ σ' :
  validator ∈ validators ->
  Solver_validate_package (C := C) hash_order permutations2 parse_version_range display_reason validators state spec source σ
    = (Ok Compatible, σ') ->
  exists σ1 σ2, validate_package (C := C) hash_order permutations2 parse_version_range display_reason validator state spec source σ1
    = (Ok Compatible, σ2).
Proof.
  unfold Solver_validate_package. revert σ. induction validators as [|v validators IH]; intros σ;
    [by intros ?%elem_of_nil|]. intros Hin. cbn [ask_all].
  destruct (validate_package _ _ _ _ _ _ _ _ _) as [[[|reason]|e|] σ1] eqn:E; [|done..].
  apply elem_of_cons in Hin as [<-|Hin]; [|by apply IH]. intros _. by exists σ, σ1.
Qed.
(** A package that is accepted answers the merged request for it, and the packages
    it requires that are there answer its requirements. *)
Lemma validators_accept validators state spec source σ σ' :
  Validator_PackageRequest ∈ validators -> Validator_PkgRequirements ∈ validators ->
  sound state -> good_package spec ->
  Solver_validate_package (C := C) hash_order permutations2 parse_version_range display_reason validators state spec source σ
    = (Ok Compatible, σ') ->
  exists m, get_merged_request permutations2 state (pk_name spec) = Ok m /\ accepted state spec m.
Proof using Hp2 Hperm Hpool.
  intros Hv Hv' Hs Hg E. destruct (validators_pass _ _ _ _ _ _ _ Hv E) as (σ1 & σ2 & E1).
  destruct (validators_pass _ _ _ _ _ _ _ Hv' E) as (σ3 & σ4 & E2). cbn [validate_package] in E1, E2.
  injection E1 as E1 _. injection E2 as E2 _. apply pkg_request_validated in E1 as (m & Hm & _ & Hadm & Hans).
  exists m. split; [done|]. split; [done|done|]. intros r resolved src id Hr Hres Hu.
  unfold validate_pkg_requirements in E2. rewrite first_problem_res_compatible, Forall_forall in E2. apply E2 in Hr as Hr'.
  destruct (good_wants _ _ _ _ Hg r) as [[Hin _] _]; [by left|]. destruct (Hpool (req_name r)) as [Hn Hc].
  destruct (so_resolved _ _ _ _ _ _ _ _ Hs _ _ _ _ Hres) as [_ _ Hne _ _ _ _].
  pose proof (so_pooled _ _ _ _ _ _ _ _ Hs) as Hp. rewrite pooled_named in Hp. specialize (Hp (req_name r)).
  eapply (pkg_requirement_validated hash_order Hperm permutations2 Hp2 (pool (req_name r)) state r); rewrite ?Hn; done.
Qed.

(** *** Cursors over good packages *)

(** The repositories, and the packages made of their recipes. *)
Class GoodRepositories : Prop := {
  gr_read repo build spec :
    read_package (Recipe := Recipe) repo build = Ok spec -> good_package spec /\ pk_name spec = id_base (id_base build);
  gr_list repo pkg builds build :
    list_package_builds (Recipe := Recipe) (T := T) repo pkg = Ok builds -> build ∈ builds ->
    id_base (id_base build) = id_base pkg;
  gr_recipe repo pkg (recipe : Recipe) :
    repo_recipe (T := T) repo pkg = Ok recipe -> id_base (recipe_ident recipe) = id_base pkg;
  gr_built (recipe : Recipe) options (solution : Solution Repo Recipe T) spec :
    generate_binary_build recipe options solution = Ok spec ->
    good_package spec /\ pk_name spec = id_base (recipe_ident recipe);
  gr_order l : builds_order l ≡ₚ l;
}.

Section good.
Context {Hrepos : GoodRepositories}.
Abbreviation Iterator := (RepositoryPackageIterator (Repo := Repo) (Recipe := Recipe) (T := T)).
Abbreviation Builds := (BuildIterator (Repo := Repo) (Recipe := Recipe) (T := T)).
Abbreviation BuildWithRepos := (BuildWithRepos (Repo := Repo) (Recipe := Recipe) (T := T)).

Record good_item (n : rstr) (item : rstr * (T * PackageSource Repo Recipe)) : Prop := {
  gt_package : good_package item.2.1;
  gt_name : pk_name item.2.1 = n;
  gt_source : exists repo components, item.2.2 = Source_Repository repo components;
}.
Definition good_builds (n : rstr) (builds : Builds) : Prop :=
  match builds with
  | RepositoryBuildIterator builds => Forall (fun e => id_base (id_base e.1) = n) builds
  | EmptyBuildIterator => True
  | SortedBuildIterator builds => Forall (Forall (good_item n)) builds
  end.
Record good_iterator (n : rstr) (it : Iterator) : Prop := {
  gi_name : pi_package_name it = n;
  gi_builds : Forall (fun e => good_builds n e.2) (pi_builds_map it);
}.

Lemma read_build_good n build repos result item :
  id_base (id_base build) = n -> Forall (good_item n) result ->
  read_build (Recipe := Recipe) (T := T) (Error := Error) build repos result = Ok (Some item) -> Forall (good_item n) item.
Proof.
  intros Hn. revert result. induction repos as [|[name repo] repos IH]; intros result Hres; [by intros [= <-]|].
  cbn [read_build]. destruct (not_found _); [done|].
  destruct (read_package repo build) as [spec|e|] eqn:Er; cbn [storage mbind res_bind]; [|done..].
  destruct (or_if_not_found _ _) as [components|e|]; cbn [mbind res_bind]; [|done..]. apply IH.
  destruct (gr_read _ _ _ Er) as [Hg Hname].
  assert (forall k, good_item n (k, (spec, Source_Repository repo components))) as Hitem.
  { intros k. split; cbn [fst snd]; [done|congruence|by eexists _, _]. }
  clear -Hres Hitem. induction Hres as [|[k v] result Hx Hl IH]; cbn [hm_insert]; [by constructor|].
  case_bool_decide; by constructor.
Qed.
Lemma drain_good n builds items :
  Forall (fun e : BuildIdent * list (rstr * Repo) => id_base (id_base e.1) = n) builds ->
  drain (Recipe := Recipe) (T := T) (Error := Error) builds = Ok items -> Forall (Forall (good_item n)) items.
Proof.
  intros Hb. revert items. induction Hb as [|[build repos] builds Hn _ IH]; intros items; [intros [= <-]; apply Forall_nil_2|].
  cbn [drain]. intros (item & Hitem & (rest & Hrest & [= <-])%bind_Ok)%bind_Ok.
  destruct item as [item|]; [|by apply IH]. constructor; [|by apply IH].
  by apply (read_build_good n) in Hitem.
Qed.
Lemma drain_builds_good n builds items :
  good_builds n builds -> drain_builds (Error := Error) builds = Ok items -> Forall (Forall (good_item n)) items.
Proof.
  destruct builds as [builds| |builds]; cbn [good_builds drain_builds]; [apply drain_good|intros _ [= <-]; apply Forall_nil_2|by intros Hb [= <-]].
Qed.
Lemma sort_builds_elements impossible (builds sorted : list BuildWithRepos) item :
  sort_by_build_option_values build_key_name_order parse_version_range hash_str builds impossible = Ok sorted ->
  item ∈ sorted -> item ∈ builds.
Proof.
  unfold sort_by_build_option_values. destruct (sort_builds _ _) as [names values].
  destruct (_ <? _); [by intros [= <-]|]. intros (keys & _ & [= <-])%bind_Ok.
  rewrite list_elem_of_In, in_map_iff. intros ([k x] & <- & He). apply list_elem_of_In in He.
  rewrite (sort_reverse_perm (zip keys builds)) in He. by apply elem_of_zip_r in He.
Qed.
Lemma sorted_good n builds impossible sorted :
  good_builds n builds ->
  SortedBuildIterator_new (Error := Error) build_key_name_order parse_version_range hash_str builds impossible = Ok sorted ->
  good_builds n sorted.
Proof.
  intros Hb (items & Hitems & (l & Hl & [= <-])%bind_Ok)%bind_Ok. apply (drain_builds_good n) in Hitems; [|done].
  cbn [good_builds]. rewrite Forall_forall in Hitems |- *. intros item Hin. apply Hitems.
  destruct (sort_by_build_option_values _ _ _ _ impossible) as [l'|[]|] eqn:E; cbn [total] in Hl; [|done].
  injection Hl as ->. by eapply sort_builds_elements.
Qed.
Lemma add_builds_good pkg stubs repos builds recipe result :
  Forall (fun e : BuildIdent * list (rstr * Repo) => id_base (id_base e.1) = id_base pkg) builds ->
  add_builds (Recipe := Recipe) (T := T) (Error := Error) pkg stubs repos builds recipe = Ok result ->
  Forall (fun e => id_base (id_base e.1) = id_base pkg) result.
Proof.
  revert builds recipe. induction repos as [|[name repo] repos IH]; intros builds recipe Hb; [by intros [= <-]|].
  cbn [add_builds]. destruct (list_package_builds repo pkg) as [found|e|] eqn:El; cbn [storage mbind res_bind]; [|done..].
  match goal with |- mbind _ ?x = _ -> _ => destruct x as [recipe'|e|]; cbn [mbind res_bind]; [|done..] end.
  apply IH. pose proof (fun build => gr_list _ _ _ build El) as Hf. clear El IH.
  revert builds Hb. induction found as [|build found IH]; intros builds Hb; [done|]. cbn [foldl].
  apply IH; [intros b Hin; apply Hf; by right|]. unfold add_build. destruct (xorb _ _); [done|].
  generalize (hm_insert (fun a b => bool_decide (a = b)) name repo (default [] (hm_get BuildIdent_eq build builds))) as v.
  intros v. assert (id_base (id_base build) = id_base pkg) as Hname by (apply Hf; by left).
  clear -Hb Hname. induction Hb as [|[k w] builds Hk Hl IH]; cbn [hm_insert]; [by constructor|].
  destruct (BuildIdent_eq k build); by constructor.
Qed.
Lemma repository_builds_good pkg repos stubs builds :
  RepositoryBuildIterator_new (Recipe := Recipe) (Error := Error) builds_order pkg repos stubs = Ok builds ->
  good_builds (id_base pkg) builds.
Proof.
  intros (l & Hl & [= <-])%bind_Ok. cbn [good_builds]. apply add_builds_good in Hl; [|constructor].
  by rewrite sort_by_key_perm, gr_order.
Qed.
Lemma set_builds_good n version builds it :
  good_iterator n it -> good_builds n builds -> good_iterator n (PackageIterators.set_builds version builds it).
Proof.
  intros [Hn Hb] Hbuilds. split; [done|]. cbn [pi_builds_map PackageIterators.set_builds with_builds].
  clear Hn. induction Hb as [|[k v] m Hk Hm IH]; cbn [hm_insert]; [by repeat constructor|].
  destruct (Version_eq k version); by constructor.
Qed.
Lemma get_builds_good n it version builds :
  good_iterator n it -> hm_get Version_eq version (pi_builds_map it) = Some builds -> good_builds n builds.
Proof.
  intros [_ Hb] (k & _ & Hin)%assoc_get_elem. rewrite Forall_forall in Hb. by apply (Hb _ Hin).
Qed.
Lemma new_iterator_good n repos : good_iterator n (PackageIterator_new n repos).
Proof. by repeat constructor. Qed.
Lemma async_clone_good n it : good_iterator n it -> good_iterator n (async_clone (Error := Error) it).
Proof.
  intros [Hn _]. unfold async_clone.
  assert (forall vs vm stubs, good_iterator n (mkPackageIterator (pi_package_name it) (pi_repos it) vs vm [] None stubs)) as Hc.
  { intros vs vm stubs. by repeat constructor. }
  assert (good_iterator n (PackageIterator_new (pi_package_name it) (pi_repos it))) as Hnew by (rewrite Hn; apply new_iterator_good).
  destruct (pi_versions it); [apply Hc|]. destruct (build_version_map it) as [vm|[e|name|]|]; try apply Hc.
  destruct (is_package_not_found e); [done|apply Hc].
Qed.
Lemma next_good n it res it' :
  good_iterator n it -> next (Recipe := Recipe) (T := T) (Error := Error) builds_order versions_order it = (res, it') -> good_iterator n it'.
Proof.
  assert (forall fuel it res it', good_iterator n it ->
    next_loop (Error := Error) builds_order versions_order fuel it = (res, it') -> good_iterator n it') as Hloop.
  { intros fuel. induction fuel as [|fuel IH]; intros self r' self' Hself; [by intros [= _ <-]|]. cbn [next_loop].
    enough (match next_turn (Error := Error) builds_order versions_order self with
            | inl (_, self') | inr self' => good_iterator n self' end) as Hturn.
    { destruct (next_turn _ _ self) as [[answer self1]|self1]; [by intros [= _ <-]|by apply IH]. }
    clear IH r' self'. assert (good_iterator n (activate self)) as Hact.
    { unfold activate. destruct (pi_active_version self), (pi_versions self) as [[|v' vs]|]; try done. by destruct Hself. }
    unfold next_turn. destruct (pi_active_version (activate self)) as [version|].
    2: { destruct (pi_embedded_stubs _); [done|]. destruct Hact. by repeat constructor. }
    destruct (hm_get Version_eq version (pi_version_map (activate self))) as [repos|]; [|done].
    unfold version_builds. destruct (hm_get Version_eq version (pi_builds_map (activate self))) as [builds|].
    { destruct (builds_is_empty builds); [by destruct Hact|done]. }
    destruct (RepositoryBuildIterator_new _ _ _ _) as [builds|e|] eqn:E; [| |done].
    - apply repository_builds_good in E. cbn [id_base] in E. rewrite (gi_name _ _ Hact) in E.
      pose proof (set_builds_good n version builds _ Hact E) as [? ?]. destruct (builds_is_empty builds); by split.
    - destruct (invalid_spec _); [by destruct Hact|done]. }
  intros Hit. unfold next. destruct (pi_versions it); [by apply Hloop|].
  destruct (start versions_order it) as [it1|e|] eqn:E; [|by intros [= _ <-]..].
  apply Hloop. apply bind_Ok in E as (vm & _ & [= <-]). by destruct Hit.
Qed.

(** *** States and decisions that keep what was asked of the solver *)

Context (dead : State Repo Recipe T).
Abbreviation Solver := (Solver Repo Recipe T).
Abbreviation Graph := (Graph Repo Recipe T).
Abbreviation St := (St (Repo := Repo) (Recipe := Recipe) (T := T) (Error := Error)).
Abbreviation StepEnv := (StepEnv (Repo := Repo) (Recipe := Recipe) (T := T)).
Abbreviation asks q rs := (forallb (ask agreed q) rs).
Abbreviation asks_more := (asks_more permutations2 agreed).
Abbreviation demanded := (demanded permutations2 agreed).
Abbreviation Decision_apply := (Decision_apply request_priority_order permutations2).

(** The initial state of graphs. *)
Record dead_state : Prop := {
  ds_wf : state_wf dead;
  ds_requests : requests_of dead = [];
  ds_packages : st_packages dead = [];
}.
(** The requests of the state answer those the solver was given. *)
Definition asked state : Prop := forall q n, good_question q ->
  asks q (requests_for state n) = true -> asks q (named n (made builders)) = true.
Definition good_state state : Prop := sound state /\ (state = dead \/ asked state).
Definition leads state d : Prop := forall σ s' σ',
  Decision_apply (dec_changes d) state σ = (Ok s', σ') -> good_state s'.
Record good_node (node : Node Repo Recipe T) : Prop := {
  gn_state : good_state (nd_state node);
  gn_iterators name it : nd_iterators node !! name = Some it -> good_iterator name it;
}.
Definition good_graph (graph : Graph) : Prop := forall id node,
  g_nodes graph !! id = Some node -> Node_id node = id /\ good_node node.

Lemma asked_more s s' rs : asks_more s s' rs -> asked s -> asked s'.
Proof. intros Hm Ha q n Hq H. apply Ha; [done|]. by apply (asks_more_answers permutations2 agreed s s' rs q n Hm Hq). Qed.
Lemma good_asked state : dead_state -> good_state state -> requests_of state <> [] -> sound state /\ asked state.
Proof.
  intros [Hwf Hr _] [Hs [->|Ha]] Hne; [|done]. by rewrite Hr in Hne.
Qed.
Lemma asked_demanded state r : asked state -> r ∈ made builders -> demanded state r.
Proof.
  intros Ha Hr q Hq H. apply Ha in H; [|done]. rewrite forallb_forall in H. apply H.
  unfold named. rewrite filter_In, bool_decide_eq_true, <-list_elem_of_In. done.
Qed.

(** *** Computations that keep the solver and the cursor good *)

Record good_solver (self : Solver) : Prop := {
  gs_request : Validator_PackageRequest ∈ sv_validators self;
  gs_requirements : Validator_PkgRequirements ∈ sv_validators self;
  gs_builders : sv_initial_state_builders self = builders;
}.
Record good_env (n : rstr) (e : StepEnv) : Prop := {
  ge_solver : good_solver (en_solver e);
  ge_iterator : good_iterator n (en_iterator e);
}.
Definition holds {A} (n : rstr) (m : St A) (P : A -> Prop) : Prop := forall e, good_env n e ->
  good_env n (m e).2 /\ forall a, (m e).1 = Ok a -> P a.

Lemma holds_weaken {A} n (m : St A) (P Q : A -> Prop) : holds n m P -> (forall a, P a -> Q a) -> holds n m Q.
Proof. intros H HPQ e [He Ha]%H. split; [done|]. auto. Qed.
Lemma holds_ret {A} n (a : A) (P : A -> Prop) : P a -> holds n (mret a) P.
Proof. intros HP e He. split; [done|]. by intros a' [= <-]. Qed.
Lemma holds_bind {A B} n (m : St A) (f : A -> St B) (P : A -> Prop) (Q : B -> Prop) :
  holds n m P -> (forall a, P a -> holds n (f a) Q) -> holds n (mbind f m) Q.
Proof.
  intros Hm Hf e He. destruct (Hm e He) as [He1 HP]. unfold mbind, St_bind.
  destruct (m e) as [[a|x|] e1]; cbn [fst snd] in *; [|by split..]. apply Hf; [by apply HP|done].
Qed.
Lemma holds_lift {A} n (r : res (SolveError Error) A) (P : A -> Prop) :
  (forall a, r = Ok a -> P a) -> holds n (lift r : St A) P.
Proof. intros H e He. by split. Qed.
Lemma holds_throw {A} n x (P : A -> Prop) : holds n (throw x : St A) P.
Proof. by apply holds_lift. Qed.
Lemma holds_asks {A} n (f : StepEnv -> A) (P : A -> Prop) : (forall e, good_env n e -> P (f e)) -> holds n (StepState.asks (Error := Error) f) P.
Proof. intros H e He. split; [done|]. intros a [= <-]. by apply H. Qed.
Lemma holds_any {A} n (f : StepEnv -> A) : holds n (StepState.asks (Error := Error) f) (fun _ => True).
Proof. by apply holds_asks. Qed.
Lemma holds_solver n (f : Solver -> Solver) :
  (forall self, sv_validators (f self) = sv_validators self) ->
  (forall self, sv_initial_state_builders (f self) = sv_initial_state_builders self) ->
  holds n (modify_solver (Error := Error) f) (fun _ => True).
Proof. intros Hv Hb e [[Hs1 Hs2 Hs3] Hi]. split; [|done]. split; [|done]. split; cbn [en_solver modify_solver snd]; by rewrite ?Hv, ?Hb. Qed.
Lemma holds_count n steps skipped versions builds total :
  holds n (modify_solver (Error := Error) (count steps skipped versions builds total)) (fun _ => True).
Proof. by apply holds_solver. Qed.
Lemma holds_push_note n note : holds n (push_note (Error := Error) note) (fun _ => True).
Proof. intros e [Hs Hi]. by split. Qed.
Lemma holds_set_compat n compat : holds n (set_compat (Error := Error) compat) (fun _ => True).
Proof. intros e [Hs Hi]. by split. Qed.
Lemma holds_iterator n (f : Iterator -> Iterator) :
  (forall it, good_iterator n it -> good_iterator n (f it)) -> holds n (modify_iterator (Error := Error) f) (fun _ => True).
Proof. intros H e [Hs Hi]. split; [|done]. split; [done|]. by apply H. Qed.
Lemma holds_store {E A} n (error : E -> SolveError Error) f (P : A -> Prop) :
  (forall σ a σ', f σ = (Ok a, σ') -> P a) -> holds n (with_store error f) P.
Proof.
  intros H e [Hs Hi]. unfold with_store. destruct (f (en_store e)) as [r σ] eqn:Ef. split; [by split|].
  cbn [fst]. intros a Ha. destruct r; [|done..]. injection Ha as ->. by eapply H.
Qed.
Lemma holds_checker {A} n f : holds n (with_checker (Error := Error) f : St A) (fun _ => True).
Proof.
  intros e [[Hs1 Hs2 Hs3] Hi]. unfold with_checker. destruct (f _) as [r checker]. split; [|done]. split; [by split|done].
Qed.
Lemma holds_catch {A} n (m : St A) (P : A -> Prop) :
  holds n m P -> holds n (catch m) (fun result => forall a, result = Ok a -> P a).
Proof.
  intros H e He. destruct (H e He) as [He1 HP]. unfold catch. destruct (m e) as [[a|x|] e1]; cbn [fst snd] in *.
  - split; [done|]. intros r [= <-]. exact HP.
  - split; [done|]. by intros r [= <-].
  - by split.
Qed.

(** *** A step on a sound state *)

Section step.
Context (Hdead : dead_state) (graph : Graph) (Hgraph : good_graph graph) (current : N).
Context (state : State Repo Recipe T) (Hstate : sound state) (Hasked : asked state).
(** The graph has the states that were gone through. *)
Context (Hhere : here state) (Hgone : forall s0 node, here s0 -> g_nodes graph !! State_full_id s0 = Some node -> nd_state node = s0).
Context (request : PkgRequestWithOptions).
Context (Hrequest : get_merged_request permutations2 state (req_name request) = Ok request).
Context (Hnew : get_current_resolve state (req_name request) = None).
Context (resolve_new_build : Recipe -> State Repo Recipe T -> St T).
Context (Hbuild : forall n recipe, holds n (resolve_new_build recipe state)
  (fun spec => good_package spec /\ pk_name spec = id_base (recipe_ident recipe))).
Abbreviation holds_here m P := (holds (req_name request) m P).

Lemma request_proper : proper request.
Proof. by eapply (merged_proper (C := C) hash_order Hperm permutations2 Hp2 pool Hpool agreed state); [apply Hstate..|]. Qed.

Lemma target_holds name id m :
  came_from state name id -> (m = name \/ get_current_resolve state m = None) ->
  holds_here (target_state graph current id)
    (fun dest => sound dest /\ asked dest /\ get_current_resolve dest m = None).
Proof.
  intros Hfrom Hm. unfold target_state. destruct (g_nodes graph !! full_hash id) as [node|] eqn:E; [|apply holds_throw].
  case_bool_decide; [by apply holds_lift|]. apply holds_ret.
  destruct (Hgraph _ _ E) as [Hid [Hgood _]].
  destruct (earlier_state here state (nd_state node) name id m Hfrom) as [Hnone Hne]; [|done|].
  { intros s0 Hs0 <-. symmetry. by apply (Hgone s0 node Hs0). }
  destruct (good_asked _ Hdead Hgood Hne). done.
Qed.
Lemma reconsider_leads dest r counter :
  sound dest -> asked dest -> proper r -> get_current_resolve dest (req_name r) = None ->
  leads state (reconsider_package dest r counter).
Proof.
  intros Hd Ha Hr Hnone σ s' σ'. cbn [dec_changes reconsider_package Decision_new].
  unfold SolverState.Decision_apply. destruct (reconsider_sound (C := C) request_priority_order hash_order Hperm permutations2 Hp2
    pool Hpool agreed rank (made builders) here dest r counter state state σ Hd Hr Hnone) as (s1 & σ1 & E & Hs1 & Hm).
  rewrite E. intros [= <- <-]. split; [done|right]. by eapply asked_more.
Qed.

(** A decision that has still to be checked. *)
Definition candidate d : Prop :=
  Forall proper (made (dec_changes d)) /\
  (reconsider_invalidated_resolve permutations2 state (dec_changes d) = Ok None -> leads state d).
Definition finds (m : St (option (Decision Repo Recipe T))) : Prop :=
  holds_here m (fun found => forall d, found = Some d -> candidate d).

Lemma holds_here_bind {A B} (m : St A) (f : A -> St B) P Q :
  holds_here m P -> (forall a, P a -> holds_here (f a) Q) -> holds_here (mbind f m) Q.
Proof. apply holds_bind. Qed.
Lemma finds_none : finds (mret None).
Proof. by apply holds_ret. Qed.
Lemma finds_bind {A} (m : St A) (f : A -> St (option (Decision Repo Recipe T))) P :
  holds_here m P -> (forall a, P a -> finds (f a)) -> finds (mbind f m).
Proof. apply holds_bind. Qed.
Lemma skip_none (m : St unit) : holds_here m (fun _ => True) -> finds (_ ← m; mret None).
Proof. intros H. eapply finds_bind; [exact H|]. intros a _. apply finds_none. Qed.
Lemma skip_build_holds spec compat : holds_here (skip_build spec compat) (fun _ => True).
Proof. eapply holds_here_bind; [apply holds_push_note|]. intros a _. apply holds_count. Qed.
Lemma skip_message_holds spec message : holds_here (skip_with_message spec message) (fun _ => True).
Proof. eapply holds_here_bind; [apply holds_push_note|]. intros a _. apply holds_count. Qed.

Lemma reconsider_candidate dest r counter :
  sound dest -> asked dest -> proper r -> get_current_resolve dest (req_name r) = None ->
  candidate (reconsider_package dest r counter).
Proof. intros Hd Ha Hr Hnone. split; [by constructor|]. intros _. by apply reconsider_leads. Qed.
Lemma reconsider_conflicting_finds spec name : finds (reconsider_conflicting graph current state request spec name).
Proof.
  unfold reconsider_conflicting. destruct (get_current_resolve state name) as [[[resolved source] id]|] eqn:Eres; [|apply holds_throw].
  destruct (Build_is_embedded _); [apply skip_none, skip_build_holds|].
  pose proof (sr_came_from _ _ _ _ _ _ _ _ _ _ _ _ (so_resolved _ _ _ _ _ _ _ _ Hstate _ _ _ _ Eres)) as Hfrom.
  eapply finds_bind; [apply (target_holds name id (req_name request)); [exact Hfrom|by right]|].
  intros dest (Hd & Ha & Hnone). eapply finds_bind; [apply holds_any|]. intros counter _. apply holds_ret.
  intros d [= <-]. apply reconsider_candidate; [done..|apply request_proper|done].
Qed.

(** A decision for a package that was accepted. *)
Lemma package_candidate first rest spec source :
  sets first spec source -> good_package spec -> embedding_parent source = None -> pk_name spec = req_name request ->
  accepted state spec request -> brings pool agreed rank spec rest ->
  candidate (Decision_new (first :: rest)).
Proof.
  intros Hset Hg Hsrc Hn Hacc Hb. unfold candidate. cbn [dec_changes Decision_new].
  assert (made (first :: rest) = made rest) as Hmade by (by destruct Hset as [-> | ->]).
  split.
  - rewrite Hmade. eapply requests_below_proper, Hb.
  - intros Hcheck σ s' σ'. unfold SolverState.Decision_apply. cbn [dec_changes Decision_new].
    destruct (decision_sound (C := C) request_priority_order hash_order Hperm permutations2 Hp2 pool Hpool agreed rank
      (made builders) here state first rest spec source request state σ) as (s1 & σ1 & E & Hs1 & Hm); rewrite ?Hn; try done.
    { intros r. by apply asked_demanded. }
    rewrite E. intros [= <- <-]. split; [done|right]. by eapply asked_more.
Qed.

Lemma validate_holds spec source : good_package spec ->
  holds_here (validate state spec source) (fun compat => blameless compat /\
    (compat = Compatible -> pk_name spec = req_name request -> accepted state spec request)).
Proof.
  intros Hg e He. unfold validate. revert e He.
  change (holds_here (validators ← StepState.asks (fun e => sv_validators (en_solver e));
    with_store SolveValidationError (Solver_validate_package (C := C) hash_order permutations2 parse_version_range display_reason
      validators state spec source))
    (fun compat => blameless compat /\
       (compat = Compatible -> pk_name spec = req_name request -> accepted state spec request))).
  apply (holds_here_bind _ _ (fun validators => Validator_PackageRequest ∈ validators /\ Validator_PkgRequirements ∈ validators)).
  { apply holds_asks. intros e He. split; apply He. }
  intros validators [Hv Hv']. apply holds_store. intros σ compat σ' E. split; [by eapply validators_blameless|].
  intros -> Hn. destruct (validators_accept _ _ _ _ _ _ Hv Hv' Hstate Hg E) as (m & Hm & Hacc).
  rewrite Hn, Hrequest in Hm. by injection Hm as <-.
Qed.
Lemma unresolved_holds : holds_here (unresolved_requests_of state) (fun _ => True).
Proof. by apply holds_store. Qed.
Lemma requirements_holds unresolved spec : holds_here (check_requirements unresolved spec) (fun _ => True).
Proof. eapply holds_here_bind; [apply holds_any|]. intros repos _. apply holds_checker. Qed.

Lemma resolve_build_finds spec source :
  good_package spec -> embedding_parent source = None -> pk_name spec = req_name request ->
  accepted state spec request -> finds (resolve_build state request spec source).
Proof.
  intros Hg Hsrc Hn Hadm. unfold resolve_build. eapply finds_bind; [apply holds_any|]. intros checks _.
  apply (finds_bind _ _ (fun _ => True)).
  { destruct (check_before_resolving checks); [|by apply holds_ret].
    eapply holds_here_bind; [apply unresolved_holds|]. intros unresolved _. apply requirements_holds. }
  intros possible _. destruct (negb _); [apply skip_none, skip_build_holds|].
  apply (finds_bind _ _ candidate); [|intros d Hd; apply holds_ret; by intros d' [= <-]].
  apply holds_lift. intros d Ed. destruct (resolve_package _ _ _ _ _ _ _ _ _ _ _) as [d'|e|] eqn:E; try done.
  injection Ed as ->. pose proof E as (changes & _ & Hd)%bind_Ok. injection Hd as <-.
  apply (resolve_package_brings hash_order permutations2 pool agreed rank (made builders) here state Hstate) in E as (rest & Hrest & Hb); [|done].
  cbn [dec_changes Decision_new] in Hrest. subst changes. eapply package_candidate; [by left|done..].
Qed.
Lemma try_binary_build_finds item :
  good_item (req_name request) item -> finds (try_binary_build graph current state request item.2.1 item.2.2).
Proof.
  intros [Hg Hn (repo & components & Hsrc)]. unfold try_binary_build. eapply finds_bind; [by apply validate_holds|].
  intros [|reason] [Hblame Hok]; [apply resolve_build_finds; rewrite ?Hsrc; auto|].
  destruct reason; try (apply skip_none, skip_build_holds); [|apply reconsider_conflicting_finds].
  destruct p; [apply skip_none, skip_build_holds..|done].
Qed.
Lemma build_decision_finds spec recipe new_spec :
  good_package new_spec -> pk_name new_spec = req_name request -> accepted state new_spec request ->
  finds (build_decision state request spec recipe new_spec).
Proof.
  intros Hg Hn Hadm. unfold build_decision. destruct (build_package _ _ _ _ _ _ _ _ _ _ _) as [d|e|] eqn:E.
  - apply holds_ret. intros d' [= <-]. pose proof E as (changes & _ & Hd)%bind_Ok. injection Hd as <-.
    apply (build_package_brings hash_order permutations2 pool agreed rank (made builders) here state Hstate) in E as (rest & Hrest & Hb); [|done].
    cbn [dec_changes Decision_new] in Hrest. subst changes. eapply package_candidate; [by right|done..].
  - apply skip_none, skip_message_holds.
  - by apply holds_lift.
Qed.
Lemma try_recipe_finds spec recipe :
  id_base (recipe_ident recipe) = req_name request -> finds (try_recipe resolve_new_build state request spec recipe).
Proof.
  intros Hn. unfold try_recipe. apply (finds_bind _ _ (fun _ => True)).
  { eapply holds_here_bind; [apply holds_any|]. intros validators _. by apply holds_store. }
  intros compat _. eapply finds_bind; [apply holds_set_compat|]. intros u _.
  destruct (negb _); [apply skip_none, skip_message_holds|].
  eapply finds_bind; [apply holds_catch, Hbuild|]. intros [new_spec|e|] Hspec;
    [|apply skip_none, skip_message_holds|by apply holds_lift].
  destruct (Hspec _ eq_refl) as [Hg Hname]. eapply finds_bind; [by apply validate_holds|]. intros compat' [_ Hok].
  eapply finds_bind; [apply holds_set_compat|]. intros u' _.
  destruct compat' as [|reason]; [|apply skip_none, skip_message_holds]. cbn [is_ok negb].
  apply build_decision_finds; [done|congruence|]. apply Hok; congruence.
Qed.
Lemma try_source_build_finds pkg item :
  good_item (req_name request) item -> finds (try_source_build resolve_new_build state request pkg item.2.1 item.2.2).
Proof.
  intros [Hg Hn (repo & components & Hsrc)]. rewrite Hsrc. cbn [try_source_build read_source_recipe].
  destruct (repo_recipe repo (id_base (pk_ident item.2.1))) as [recipe|e|] eqn:E; cbn [map_error].
  - destruct (recipe_is_deprecated recipe); [apply skip_none, holds_push_note|]. apply try_recipe_finds.
    apply gr_recipe in E. cbn [pk_ident id_base] in E. congruence.
  - destruct (is_package_not_found e); [apply skip_none, holds_push_note|apply holds_throw].
  - by apply holds_lift.
Qed.

(** What the check of a decision lets through. *)
Lemma check_decision_leads d : candidate d -> holds_here (check_decision graph current state d) (leads state).
Proof.
  intros [Hm Hlead]. unfold check_decision.
  apply (holds_here_bind _ _ (fun found => reconsider_invalidated_resolve permutations2 state (dec_changes d) = Ok found)).
  { apply holds_lift. intros found. destruct (reconsider_invalidated_resolve _ _ _) as [f|[]|]; cbn [total]; congruence. }
  intros found' Ef. destruct found' as [[r reason|r id]|]; [apply holds_throw| |apply holds_ret; by apply Hlead].
  apply invalidated_found in Ef as [Hr (resolved & source & Hres)].
  pose proof (sr_came_from _ _ _ _ _ _ _ _ _ _ _ _ (so_resolved _ _ _ _ _ _ _ _ Hstate _ _ _ _ Hres)) as Hfrom.
  eapply holds_here_bind; [apply (target_holds (req_name r) id (req_name r)); [exact Hfrom|by left]|].
  intros dest (Hd & Ha & Hnone). eapply holds_here_bind; [apply holds_any|]. intros counter _. apply holds_ret.
  rewrite Forall_forall in Hm. apply reconsider_leads; auto.
Qed.
Abbreviation leads_on m := (holds_here m (fun found => forall d, found = Some d -> leads state d)).
Lemma try_build_leads pkg item :
  good_item (req_name request) item ->
  leads_on (try_build resolve_new_build graph current state request pkg item.2.1 item.2.2).
Proof.
  intros Hi. unfold try_build. eapply holds_here_bind.
  { destruct (_ && _); [apply try_source_build_finds|apply try_binary_build_finds]; exact Hi. }
  intros [d|] Hd; [|by apply holds_ret]. eapply holds_here_bind; [apply check_decision_leads; by apply Hd|].
  intros d' Hl. eapply holds_here_bind; [apply holds_any|]. intros notes _. apply holds_ret. intros d'' [= <-]. exact Hl.
Qed.
Lemma try_repos_leads pkg items :
  Forall (good_item (req_name request)) items ->
  leads_on (try_repos resolve_new_build graph current state request pkg (List.map snd items)).
Proof.
  induction 1 as [|[k [spec source]] items Hi _ IH]; [by apply holds_ret|]. cbn [List.map try_repos snd].
  eapply holds_here_bind; [apply (try_build_leads pkg (k, (spec, source)) Hi)|].
  intros [d|] Hd; [apply holds_ret; by intros d' [= <-]; apply Hd|exact IH].
Qed.
Lemma try_builds_leads pkg version builds :
  Forall (Forall (good_item (req_name request))) builds ->
  leads_on (try_builds resolve_new_build graph current state request pkg version builds).
Proof.
  induction 1 as [|hm builds Hhm Hb IH]; [by apply holds_ret|]. cbn [try_builds].
  eapply holds_here_bind; [by apply holds_iterator; intros it Hit; apply set_builds_good|]. intros u _.
  eapply holds_here_bind; [apply holds_count|]. intros u' _.
  eapply holds_here_bind; [by apply try_repos_leads|].
  intros [d|] Hd; [apply holds_ret; by intros d' [= <-]; apply Hd|exact IH].
Qed.
Lemma check_specs_holds unresolved specs found : holds_here (check_specs unresolved specs found) (fun _ => True).
Proof.
  revert found. induction specs as [|spec specs IH]; intros found; [by apply holds_ret|]. cbn [check_specs].
  eapply holds_here_bind; [apply requirements_holds|]. intros compat _. apply IH.
Qed.
Lemma sort_version_holds version builds :
  good_builds (req_name request) builds ->
  holds_here (sort_version state version builds) (good_builds (req_name request)).
Proof.
  intros Hb. unfold sort_version. destruct (is_sorted_build_iterator builds); [by apply holds_ret|].
  eapply holds_here_bind; [apply holds_any|]. intros checks _. apply (holds_here_bind _ _ (fun _ => True)).
  { destruct (use_in_build_keys checks); [|by apply holds_ret].
    eapply holds_here_bind; [apply unresolved_holds|]. intros unresolved _.
    apply (holds_here_bind _ _ (fun _ => True)); [by apply holds_lift|]. intros items _. apply check_specs_holds. }
  intros impossible _. apply (holds_here_bind _ _ (fun _ => True)); [by apply holds_store|]. intros options _.
  apply (holds_here_bind _ _ (good_builds (req_name request))).
  { apply holds_lift. intros sorted Hsorted. destruct (SortedBuildIterator_new _ _ _ _ _) as [l|e|] eqn:E; [|done..].
    injection Hsorted as <-. by eapply sorted_good. }
  intros sorted Hsorted. eapply holds_here_bind; [by apply holds_iterator; intros it Hit; apply set_builds_good|].
  intros u _. by apply holds_ret.
Qed.
Lemma try_version_leads pkg version : leads_on (try_version resolve_new_build graph current state request pkg version).
Proof.
  unfold try_version. eapply holds_here_bind; [apply holds_set_compat|]. intros u _.
  apply (holds_here_bind _ _ (good_builds (req_name request))).
  { apply holds_asks. intros e [_ Hi]. destruct (hm_get Version_eq version (pi_builds_map (en_iterator e))) eqn:E; [|done].
    by eapply get_builds_good. }
  intros builds Hb. destruct (negb _).
  - eapply holds_here_bind; [apply holds_count|]. intros u1 _.
    eapply holds_here_bind; [by apply holds_iterator; intros it Hit; apply set_builds_good|]. intros u2 _.
    eapply holds_here_bind; [apply holds_push_note|]. intros u3 _. by apply holds_ret.
  - eapply holds_here_bind; [by apply sort_version_holds|]. intros sorted Hsorted. apply try_builds_leads.
    destruct sorted; cbn [sorted_builds good_builds] in *; [constructor..|done].
Qed.
Lemma next_version_holds : holds_here (next_version request) (fun _ => True).
Proof.
  intros e [Hs Hi]. unfold next_version. destruct (next _ _ _) as [answer it] eqn:E. split; [|done].
  split; [done|]. by eapply next_good, E.
Qed.
Lemma try_versions_leads fuel : holds_here (try_versions resolve_new_build graph current state request fuel) (leads state).
Proof.
  induction fuel as [|fuel IH]; [by apply holds_lift|]. cbn [try_versions].
  eapply holds_here_bind; [apply next_version_holds|]. intros [[pkg version]|] _.
  - eapply holds_here_bind; [apply try_version_leads|].
    intros [d|] Hd; [by apply holds_ret, Hd|exact IH].
  - eapply holds_here_bind; [apply holds_any|]. intros notes _. apply holds_throw.
Qed.
End step.

(** *** The step of a node *)

Lemma get_iterator_good self node name it node' :
  good_node node -> StepState.get_iterator self node name = (it, node') ->
  good_iterator name it /\ good_node node' /\ nd_state node' = nd_state node.
Proof.
  intros [Hs Hi]. unfold StepState.get_iterator, Graph.get_iterator. destruct (nd_iterators node !! name) as [it'|] eqn:E.
  - intros [= <- <-]. split_and!; [by apply Hi|by split|done].
  - intros [= <- <-]. pose proof (new_iterator_good name (sv_repos self)) as Hnew. split_and!; [done| |done].
    split; [done|]. intros k it'. cbn [set_iterator with_iterators nd_iterators].
    destruct (decide (k = name)) as [->|Hne].
    + rewrite lookup_insert_eq. intros [= <-]. by apply async_clone_good.
    + rewrite lookup_insert_ne by done. apply Hi.
Qed.
Lemma put_iterator_good before node name it :
  good_node node -> good_iterator name it ->
  good_node (put_iterator before name it node) /\ nd_state (put_iterator before name it node) = nd_state node.
Proof.
  intros [Hs Hi] Hit. unfold put_iterator. destruct (Graph.get_iterator before name); [|by split].
  split; [|done]. split; [done|]. intros k it'. cbn [with_iterators nd_iterators].
  destruct (decide (k = name)) as [->|Hne]; [rewrite lookup_insert_eq; by intros [= <-]|].
  rewrite lookup_insert_ne by done. apply Hi.
Qed.
Lemma step_state_good resolve_new_build graph self node σ answer self' node' σ' :
  dead_state -> good_graph graph -> good_solver self -> good_node node -> here (nd_state node) ->
  (forall s0 node, here s0 -> g_nodes graph !! State_full_id s0 = Some node -> nd_state node = s0) ->
  (forall state n recipe, holds n (resolve_new_build recipe state)
     (fun spec => good_package spec /\ pk_name spec = id_base (recipe_ident recipe))) ->
  step_state resolve_new_build graph self node σ = (answer, (self', node', σ')) ->
  good_solver self' /\ good_node node' /\ nd_state node' = nd_state node /\
  (forall d, answer = Ok (Some d) -> leads (nd_state node) d) /\
  (answer = Ok None -> get_next_request permutations2 (nd_state node) = Ok None).
Proof.
  intros Hdead Hgraph Hself Hnode Hhere Hgone Hbuild. unfold step_state.
  pose proof (first_unresolved_spec permutations2 (nd_state node) (requests_of (nd_state node))) as Hnext.
  fold (get_next_request permutations2 (nd_state node)) in Hnext.
  destruct (get_next_request permutations2 (nd_state node)) as [[[m|request name cause]|]|[]|] eqn:E.
  - destruct Hnext as (l & q & l' & Hl & _ & [Hnew _] & Hm).
    assert (requests_of (nd_state node) <> []) as Hne by (rewrite Hl; by destruct l).
    destruct (good_asked _ Hdead (gn_state _ Hnode) Hne) as [Hsound Hasked].
    assert (get_merged_request permutations2 (nd_state node) (req_name q) = Ok m) as Hmerged.
    { revert Hm. unfold next_request. destruct (SolverState.get_merged_request _ _ _) as [m'|[n|? ? ?]|]; [|by case_match|done..].
      by intros [= <-]. }
    pose proof (get_merged_request_name permutations2 _ _ _ Hmerged) as Hq. rewrite <-Hq in Hmerged, Hnew.
    destruct (StepState.get_iterator _ _ _) as [it node1] eqn:Ei.
    apply get_iterator_good in Ei as (Hit & Hnode1 & Hst1); [|done].
    match goal with |- context [try_versions ?b ?g ?i ?s ?q ?f ?e] =>
      pose proof (try_versions_leads Hdead g Hgraph i s Hsound Hasked Hhere Hgone q Hmerged Hnew b (Hbuild s) f e) as Hv;
      destruct (try_versions b g i s q f e) as [found e'] eqn:Ev end.
    destruct Hv as [[Hs' Hi'] Hleads]; [split; [by split; apply Hself|done]|]. cbn [fst snd] in Hs', Hi', Hleads.
    intros [= <- <- <- <-]. destruct (put_iterator_good node node1 (req_name m) (en_iterator e') Hnode1 Hi') as [Hn Hst].
    split_and!; [done|done|congruence| |].
    + intros d Hd. destruct found as [d'|x|]; [|done..]. injection Hd as ->. by apply Hleads.
    + by destruct found.
  - by intros [= <- <- <- <-].
  - destruct (check_providers _ _) as [found e]. intros [= <- <- <- <-]. split_and!; try done.
    intros d. by destruct found.
  - by intros [= <- <- <- <-].
Qed.
End good.
End sound.
