(* ===== verification/SolveSound.v ===== *)
(** * Sound solves

    The stream of steps ([SolverRuntime]) only ever reaches sound states
    ([SoundStates], [StepSound]), so a solution meets what was requested of the
    solver and what its packages require. *)

From stdpp Require Import gmap.
From S2P Require Import Prelude Strings Collections Names Version VersionOrder VersionText.
From S2P Require Import Compat RangeData Reasons CompatCheck Intersection VersionRange RangeTheory.
From S2P Require Import Components Options Idents Requests RequestEq Opts Requirements ComponentSpecs.
From S2P Require Import Satisfy Embedded PackageSpec MergeTheory RequestPools Encoding Solution.
From S2P Require Import SolverState SolverTheory SolverRequests Validation ValidationTheory Decisions DecisionTheory.
From S2P Require Import BuildKeys PackageIterators IteratorTheory Graph ImpossibleChecks StepSolver StepState.
From S2P Require Import SolverRuntime World SoundStates StepSound.

(** The solution meets a request: there is a package for it, unless the request is
    for a package that is already present; it has a version that the request admits;
    and it answers the request ([check_satisfies_request]) if it is a built package
    that is not deprecated. *)
Definition meets {Repo Recipe T C : Type} `{!Versioned T, !ComponentOps C, !Package T C}
    (hash_order : list Component -> list Component) (solution : Solution Repo Recipe T) (r : PkgRequestWithOptions) : Prop :=
  match Solution_get solution (req_name r) with
  | Some item => admits (spec_version (sr_spec item)) r = true /\
      (usable (C := C) (sr_spec item) -> check_satisfies_pkg_request (C := C) hash_order (sr_spec item) r = Compatible)
  | None => pr_inclusion_policy (pkg_request r) = IfAlreadyPresent
  end.

Section sound.
Context {Repo Recipe T C Error Pattern : Type} `{!SourceOps Repo Recipe} `{!Versioned T, !ComponentOps C, !Package T C}.
Context `{!ComponentEmbeds C, !ComponentRequires C, !SolverPackage T C, !SolverRecipe Recipe, !Hasher T}.
Context `{!GlobOps Pattern, !RepoOps Repo Recipe T Error, !BuildableRecipe Repo Recipe T}.
Context `{!SolveParameters Repo T C Error Pattern}.
Context (Hperm : forall l, hash_order l ≡ₚ l) (Hp2 : permutations2_spec permutations2).
Context (pool : rstr -> Pool) (Hpool : pools_wf pool) (agreed : rstr -> Build) (rank : rstr -> nat).
Context {Hrepos : GoodRepositories (C := C) pool agreed rank}.
(** The queue pops an entry it has. *)
Context (Hpop : forall history entry rest, pop_history history = Some (entry, rest) ->
  entry ∈ history /\ forall e, e ∈ rest -> e ∈ history).
Context (builders : list (Change Repo Recipe T)) (dead : State Repo Recipe T) (Hdead : dead_state dead).
Implicit Types (state : State Repo Recipe T) (d : Decision Repo Recipe T).

Abbreviation Solver := (Solver Repo Recipe T).
Abbreviation Graph := (Graph Repo Recipe T).
Abbreviation Runtime := (SolverRuntime (Repo := Repo) (Recipe := Recipe) (T := T)).
Abbreviation St := (St (Repo := Repo) (Recipe := Recipe) (T := T) (Error := Error)).
(** The states of a graph: a node is never given another state, so that the
    identifier of a state that was gone through finds that state. *)
Definition visited (graph : Graph) state : Prop := exists node, g_nodes graph !! State_full_id state = Some node /\ nd_state node = state.
Abbreviation sound graph := (sound hash_order permutations2 pool agreed rank (made builders) (visited graph)).
Abbreviation proper := (proper pool agreed).
Abbreviation good_package := (good_package pool agreed rank).
Abbreviation good_state graph := (good_state pool agreed rank builders (visited graph) dead).
Abbreviation good_iterator := (good_iterator pool agreed rank).
Abbreviation good_node graph := (good_node pool agreed rank builders (visited graph) dead).
Abbreviation good_graph graph := (good_graph pool agreed rank builders (visited graph) dead graph).
Abbreviation good_solver := (good_solver builders).
Abbreviation leads graph := (leads pool agreed rank builders (visited graph) dead).
Abbreviation good_question := (good_question permutations2).
Abbreviation demanded := (demanded permutations2 agreed).
Abbreviation meets := (meets (C := C) hash_order).
Abbreviation root := (State_full_id dead).

(** ** Branches *)

(** The nodes of a graph stay, with their states. *)
Definition extends (graph graph' : Graph) : Prop := forall id node, g_nodes graph !! id = Some node ->
  exists node', g_nodes graph' !! id = Some node' /\ nd_state node' = nd_state node.
#[local] Instance extends_preorder : PreOrder extends.
Proof.
  split; [by intros graph id node H; exists node|]. intros g1 g2 g3 H1 H2 id node (n2 & Hn2 & <-)%H1.
  apply H2 in Hn2 as (n3 & Hn3 & <-). by exists n3.
Qed.
Lemma extends_some (graph graph' : Graph) id : extends graph graph' -> is_Some (g_nodes graph !! id) -> is_Some (g_nodes graph' !! id).
Proof. intros He [node (node' & Hn & _)%He]. by exists node'. Qed.
Lemma extends_visited (graph graph' : Graph) state : extends graph graph' -> visited graph state -> visited graph' state.
Proof. intros He (node & (node' & Hn & Hs)%He & <-). exists node'. split; congruence. Qed.
Lemma good_state_extends (graph graph' : Graph) state : extends graph graph' -> good_state graph state -> good_state graph' state.
Proof.
  intros He [Hs Ha]. split; [|done]. eapply sound_here, Hs. intros s. by apply extends_visited.
Qed.
Lemma good_node_extends (graph graph' : Graph) node : extends graph graph' -> good_node graph node -> good_node graph' node.
Proof. intros He [Hs Hi]. split; [by eapply good_state_extends|done]. Qed.
Lemma visited_once (graph : Graph) state node :
  visited graph state -> g_nodes graph !! State_full_id state = Some node -> nd_state node = state.
Proof. intros (node' & Hn & <-) H. congruence. Qed.
Lemma good_graph_visited (graph : Graph) id node : good_graph graph -> g_nodes graph !! id = Some node -> visited graph (nd_state node).
Proof. intros Hg H. exists node. split; [|done]. destruct (Hg _ _ H) as [Hid _]. unfold Node_id in Hid. by rewrite Hid. Qed.

(** A node is set for another one with its state, or for a new state. *)
Definition replaces (graph : Graph) node : Prop := forall old, g_nodes graph !! Node_id node = Some old -> nd_state node = nd_state old.
Lemma set_node_extends (graph : Graph) node : replaces graph node -> extends graph (set_node node graph).
Proof.
  intros Hr id old Ho. cbn [set_node g_nodes]. destruct (decide (id = Node_id node)) as [->|Hne].
  - exists node. rewrite lookup_insert_eq. split; [done|]. by apply Hr.
  - exists old. by rewrite lookup_insert_ne.
Qed.
Lemma set_node_good (graph : Graph) node : good_graph graph -> replaces graph node -> good_node (set_node node graph) node -> good_graph (set_node node graph).
Proof.
  intros Hg Hr Hn id node'. pose proof (set_node_extends graph node Hr) as He. cbn [set_node g_nodes]. destruct (decide (id = Node_id node)) as [->|Hne].
  - rewrite lookup_insert_eq. by intros [= <-].
  - rewrite lookup_insert_ne by done. intros [Hid Hgood]%Hg. split; [done|]. by eapply good_node_extends.
Qed.
Lemma insert_node_good (graph graph' : Graph) old d s :
  good_graph graph -> good_node graph old -> good_state graph s ->
  insert_node (Error := Error) graph old d s = Ok graph' ->
  good_graph graph' /\ g_root graph' = g_root graph /\ is_Some (g_nodes graph' !! State_full_id s) /\ extends graph graph'.
Proof.
  intros Hg Hold Hs. unfold insert_node. destruct (g_nodes graph !! State_full_id s) as [node|] eqn:E.
  { intros [= <-]. split_and!; [done|done|by rewrite E|done]. }
  destruct (iterators_from graph old d) as [from|] eqn:Ef; [|done]. intros [= <-].
  assert (good_node graph from) as Hfrom.
  { unfold iterators_from in Ef. destruct (dec_changes d) as [|[] [|? []]]; first [by injection Ef as <-|by apply Hg in Ef as [_ ?]]. }
  set (node := with_iterators _ _). assert (replaces graph node) as Hr.
  { intros old' Ho. unfold Node_id, node in Ho. cbn [with_iterators Node_new nd_state] in Ho. congruence. }
  pose proof (set_node_extends graph node Hr) as He. split_and!; [|done| |done].
  - apply set_node_good; [done..|]. apply (good_node_extends graph); [done|]. split; [done|]. intros name it.
    cbn [node with_iterators nd_iterators]. rewrite lookup_fmap.
    destruct (nd_iterators from !! name) as [it'|] eqn:Ei; [|done]. intros [= <-]. apply async_clone_good. by apply Hfrom.
  - cbn [set_node g_nodes]. unfold Node_id. cbn [node with_iterators Node_new nd_state]. by rewrite lookup_insert_eq.
Qed.
Lemma add_edge_good (graph graph' : Graph) source id d :
  good_graph graph -> add_edge graph source id d = Ok graph' ->
  good_graph graph' /\ g_root graph' = g_root graph /\ extends graph graph'.
Proof.
  intros Hg. unfold add_edge. destruct (g_nodes graph !! source) as [old|] eqn:Eo; [|done].
  destruct (g_nodes graph !! id) as [new|] eqn:En; [|done]. intros (old' & Ho & H)%bind_Ok.
  destruct (Hg _ _ Eo) as [Hid [Hs Hi]].
  assert (good_node graph old' /\ nd_state old' = nd_state old) as [Hold' Hst].
  { unfold add_output in Ho. case_bool_decide; [done|]. injection Ho as <-. by split; [split|]. }
  assert (replaces graph old') as Hr.
  { intros old2. unfold Node_id in *. rewrite Hst, Hid. congruence. }
  pose proof (set_node_extends graph old' Hr) as He1.
  pose proof (set_node_good graph old' Hg Hr (good_node_extends _ _ _ He1 Hold')) as Hg1.
  destruct (g_nodes (set_node old' graph) !! id) as [new'|] eqn:En'; [|done]. injection H as <-.
  destruct (Hg1 _ _ En') as [Hid' [Hs' Hi']].
  assert (replaces (set_node old' graph) (add_input (nd_state old) d new')) as Hr'.
  { intros new2 Hn2. unfold Node_id in Hid', Hn2. cbn [add_input nd_state] in Hn2 |- *. rewrite Hid', En' in Hn2. by injection Hn2 as <-. }
  pose proof (set_node_extends _ _ Hr') as He2. split_and!; [|done|by etrans].
  apply set_node_good; [done..|]. apply (good_node_extends _ _ _ He2). by split.
Qed.
Lemma add_branch_good (graph : Graph) source node d σ answer graph' σ' :
  good_graph graph -> g_nodes graph !! source = Some node -> leads graph (nd_state node) d ->
  add_branch (Error := Error) request_priority_order permutations2 graph source d σ = ((answer, graph'), σ') ->
  good_graph graph' /\ g_root graph' = g_root graph /\ extends graph graph' /\
  (forall id, answer = Ok id -> is_Some (g_nodes graph' !! id)).
Proof.
  intros Hg Hnode Hl. unfold add_branch. rewrite Hnode.
  destruct (Decision_apply _ _ (dec_changes d) (nd_state node) σ) as [[s|e|] σ1] eqn:E; [|by intros [= <- <- _]..].
  apply Hl in E. destruct (insert_node _ _ _ _) as [graph1|e|] eqn:Ei; [|by intros [= <- <- _]..].
  apply insert_node_good in Ei as (Hg1 & Hr1 & Hs1 & Hk1); [|done|by eapply Hg|done].
  destruct (is_step_back d); [intros [= <- <- _]; split_and!; [done..|by intros id [= <-]]|].
  destruct (add_edge _ _ _ _) as [graph2|e|] eqn:Ee; [|by intros [= <- <- _]..].
  apply add_edge_good in Ee as (Hg2 & Hr2 & Hk2); [|done]. intros [= <- <- _].
  split_and!; [done|congruence|by etrans|intros id [= <-]; by eapply extends_some].
Qed.

(** ** The runtime *)

(** Everything but the decision that comes next. *)
Record good_runtime (self : Runtime) : Prop := {
  gr_graph : good_graph (rt_graph self);
  gr_root : g_root (rt_graph self) = root;
  gr_root_node : exists node, g_nodes (rt_graph self) !! root = Some node /\ nd_state node = dead;
  gr_solver : good_solver (rt_solver self);
  gr_history entry : entry ∈ rt_history self -> is_Some (g_nodes (rt_graph self) !! entry.1.1);
  gr_current id : rt_current_node self = Some id -> is_Some (g_nodes (rt_graph self) !! id);
}.
(** The decision leads on from the current node; without one, nothing is left to
    be resolved there.  The root is where a solve fails. *)
Definition decided (self : Runtime) : Prop :=
  rt_current_node self = Some root \/
  match rt_decision self with
  | Some d => exists node, g_nodes (rt_graph self) !! default root (rt_current_node self) = Some node /\ leads (rt_graph self) (nd_state node) d
  | None => exists id node, rt_current_node self = Some id /\ g_nodes (rt_graph self) !! id = Some node /\
              get_next_request permutations2 (nd_state node) = Ok None
  end.
(** Going back, which is possible from anywhere. *)
Definition stepping (self : Runtime) : Prop :=
  exists d, rt_decision self = Some d /\ forall state, leads (rt_graph self) state d.
Lemma stepping_decided self : good_runtime self -> stepping self -> decided self.
Proof.
  intros [_ _ Hroot _ _ Hcur] (d & Hd & Hl). right. rewrite Hd.
  assert (is_Some (g_nodes (rt_graph self) !! default root (rt_current_node self))) as [node Hnode].
  { destruct (rt_current_node self) as [id|]; [by apply Hcur|]. destruct Hroot as (node & Hn & _). by exists node. }
  exists node. split; [done|]. apply Hl.
Qed.

Lemma step_back_to_good node self self' :
  good_runtime self -> step_back_to (Error := Error) node self = Ok self' ->
  good_runtime self' /\ stepping self' /\ rt_current_node self' = rt_current_node self.
Proof.
  intros Hself. unfold step_back_to. destruct (g_nodes (rt_graph self) !! node) as [n|] eqn:E; [|done]. intros [= <-].
  pose proof Hself as [Hg _ _ _ _ _]. split_and!; [by destruct Hself| |done].
  eexists. split; [done|]. intros state σ s' σ'. cbn. unfold SolverState.Decision_apply.
  cbn [dec_changes as_decision Decision_new SolverState.apply_changes SolverState.Change_apply].
  unfold StepBack_apply. intros (s1 & σ1 & (u & σ2 & _ & [= <- _])%SM_bind_Ok & [= <- _])%SM_bind_Ok.
  apply Hg in E as [_ [Hn _]]. exact Hn.
Qed.
Lemma take_a_step_back_good held self self' :
  good_runtime self -> take_a_step_back (Error := Error) held self = Ok self' ->
  good_runtime self' /\ stepping self' /\ rt_current_node self' = rt_current_node self.
Proof.
  intros Hself. unfold take_a_step_back.
  destruct (pop_history (rt_history self)) as [[[[node hash] level] rest]|] eqn:E.
  - apply Hpop in E as [_ Hrest]. case_bool_decide; [done|].
    intros (H1 & H2 & H3)%step_back_to_good; [done|]. destruct Hself as [? ? ? ? Hh ?].
    split; try done. intros entry He. by apply Hh, Hrest.
  - apply step_back_to_good, Hself.
Qed.

(** Counting leaves all that matters. *)
Lemma count_error_good (details : ErrorDetails) self self' :
  count_error_of (Error := Error) details self = Ok self' ->
  (good_runtime self -> good_runtime self') /\ (stepping self -> stepping self') /\
  rt_current_node self' = rt_current_node self.
Proof.
  intros (solver & Hs & [= <-])%bind_Ok. destruct (increment_error_count _ _) as [solver'|[]|] eqn:E; [|done].
  injection Hs as ->. apply bind_Ok in E as (frequency & _ & [= <-]).
  split_and!; [|done..]. intros [? ? ? Hs ? ?]. split; try done. by destruct Hs.
Qed.
Lemma count_problems_good requested_by (solver : Solver) :
  good_solver solver -> good_solver (count_problems requested_by solver).
Proof.
  revert solver. induction requested_by as [|req requested_by IH]; intros solver Hs; [done|].
  unfold count_problems. cbn [foldl]. apply IH. destruct req; try done. by destruct Hs.
Qed.
Lemma with_solver_good solver self : good_runtime self -> good_solver solver -> good_runtime (with_solver solver self).
Proof. intros [] Hs. by split. Qed.
Lemma add_notes_good notes self : good_runtime self -> good_runtime (add_notes_to_decision notes self).
Proof. by intros []. Qed.
Lemma add_notes_stepping notes self : stepping self -> stepping (add_notes_to_decision notes self).
Proof.
  intros (d & Hd & Hl). exists (add_notes notes d). split; [|done]. cbn [add_notes_to_decision with_decision rt_decision].
  by rewrite Hd.
Qed.
Lemma recover_good held request notes self self' :
  good_runtime self -> recover (Error := Error) held request notes self = Ok self' ->
  good_runtime self' /\ stepping self' /\ rt_current_node self' = rt_current_node self.
Proof.
  intros Hself (self1 & H1 & (pkg & _ & (self2 & H2 & [= <-])%bind_Ok)%bind_Ok)%bind_Ok.
  apply take_a_step_back_good in H1 as (Hg1 & Hs1 & Hc1); [|by apply with_solver_good, count_problems_good, Hself].
  apply count_error_good in H2 as (Hg2 & Hs2 & Hc2).
  split_and!; [by apply add_notes_good, Hg2|by apply add_notes_stepping, Hs2|]. cbn. rewrite Hc2. exact Hc1.
Qed.
Lemma count_until_good requested_by (solver : Solver) :
  good_solver solver -> good_solver (count_until_command_line requested_by solver).2.
Proof.
  revert solver. induction requested_by as [|req requested_by IH]; intros solver Hs; [done|].
  cbn [count_until_command_line]. destruct req; try done; apply IH, (count_problems_good [_]), Hs.
Qed.
Lemma after_error_good held err self answer self' :
  good_runtime self -> after_error held err self = Ok (answer, self') ->
  answer = None -> good_runtime self' /\ stepping self' /\ rt_current_node self' = rt_current_node self.
Proof.
  intros Hself. unfold after_error.
  assert (forall request notes, (self ← recover (Error := Error) held request notes self; Ok (None, self)) = Ok (answer, self') ->
    answer = None -> good_runtime self' /\ stepping self' /\ rt_current_node self' = rt_current_node self) as Hrecover.
  { intros request notes (self1 & H1 & [= <- <-])%bind_Ok _. by eapply recover_good. }
  assert (match request_conflict (Error := Error) err with
          | Some (request, cause) => self ← recover (Error := Error) held request [Note_Other cause] self; Ok (None, self)
          | None => self ← count_error_of (ErrorMessage (display_error err)) self; Ok (Some err, self)
          end = Ok (answer, self') ->
    answer = None -> good_runtime self' /\ stepping self' /\ rt_current_node self' = rt_current_node self) as Hother.
  { destruct (request_conflict err) as [[request cause]|]; [apply Hrecover|]. by intros (self1 & _ & [= <- _])%bind_Ok. }
  destruct err; try exact Hother; [apply Hrecover|].
  unfold recover_not_found. pose proof (count_until_good (get_requesters request) (rt_solver self) (gr_solver _ Hself)) as Hs.
  destruct (count_until_command_line _ _) as [command_line solver]. destruct command_line; [by intros [= <- _]|].
  intros (cause & _ & (self1 & H1 & (self2 & H2 & [= <- <-])%bind_Ok)%bind_Ok)%bind_Ok _.
  apply take_a_step_back_good in H1 as (Hg1 & Hs1 & Hc1); [|by apply with_solver_good].
  apply count_error_good in H2 as (Hg2 & Hs2 & Hc2). split_and!; [auto..|]. rewrite Hc2. exact Hc1.
Qed.

(** ** The stream of steps *)

Section stream.
Context (resolve_new_build : Recipe -> State Repo Recipe T -> St T).
Context (Hbuild : forall state n recipe, holds pool agreed rank builders n (resolve_new_build recipe state)
  (fun spec => good_package spec /\ pk_name spec = id_base (recipe_ident recipe))).
Definition yields_good (yielded : Yielded (Repo := Repo) (Recipe := Recipe) (T := T) (Error := Error)) (self : Runtime) : Prop :=
  match yielded with Yield_Item _ => good_runtime self /\ decided self | Yield_End => False | _ => True end.

Lemma step_current_good id item self σ yielded self' σ' :
  good_runtime self -> rt_current_node self = Some id ->
  step_current resolve_new_build id item self σ = (yielded, self', σ') -> yields_good yielded self'.
Proof.
  intros Hself Hcur. unfold step_current. pose proof Hself as [Hg Hroot Hrootn Hsv Hh Hc].
  destruct (g_nodes (rt_graph self) !! id) as [node|] eqn:En; [|by intros [= <- _ _]].
  destruct (Hg _ _ En) as [Hid Hnode].
  destruct (step_state _ _ _ _ _) as [answer [[solver node'] σ1]] eqn:Es.
  apply (step_state_good Hperm Hp2 pool Hpool agreed rank builders (visited (rt_graph self)) dead) in Es
    as (Hsolver & Hnode' & Hst & Hleads & Hdone); [|done..|by eapply good_graph_visited|intros s0 n0; apply visited_once|done].
  assert (Node_id node' = id) as Hid' by (unfold Node_id in *; by rewrite Hst).
  assert (replaces (rt_graph self) node') as Hrep by (intros old; rewrite Hid'; congruence).
  pose proof (set_node_extends _ _ Hrep) as Hext.
  assert (good_runtime (with_graph (set_node node' (rt_graph self)) (with_solver solver self))) as Hgood.
  { split; cbn [with_graph with_solver rt_graph rt_solver rt_history rt_current_node].
    - apply set_node_good; [done..|]. by eapply good_node_extends.
    - done.
    - destruct Hrootn as (n0 & (n1 & Hn1 & Hs1)%Hext & Hs0). exists n1. split; congruence.
    - done.
    - intros entry He. by eapply extends_some, Hh.
    - intros k Hk. by eapply extends_some, Hc. }
  destruct answer as [decision|err|].
  - intros [= <- <- _]. split.
    + destruct Hgood as [H1 H2 H3 H4 H5 H6]. split; try done. intros entry He.
      cbn [with_history with_decision rt_history rt_graph] in *. unfold push_history in He.
      destruct (existsb _ _).
      * apply list_elem_of_fmap in He as (e & -> & He). apply H5 in He. by destruct (_ =? _)%N.
      * apply elem_of_app in He as [He|He%list_elem_of_singleton]; [by apply H5|]. subst entry. cbn [fst].
        rewrite <-Hid'. cbn [set_node g_nodes with_graph rt_graph]. by rewrite lookup_insert_eq.
    + right. cbn [with_history with_decision rt_decision rt_current_node rt_graph with_graph with_solver].
      assert (g_nodes (set_node node' (rt_graph self)) !! id = Some node') as Hlk.
      { rewrite <-Hid'. cbn [set_node g_nodes]. apply lookup_insert_eq. }
      rewrite Hcur. cbn [default]. destruct decision as [d|].
      * exists node'. split; [done|]. rewrite Hst. intros τ s' τ' Happly. eapply good_state_extends; [exact Hext|]. by eapply Hleads.
      * exists id, node'. split_and!; [done..|]. rewrite Hst. by apply Hdone.
  - destruct (after_error id err _) as [[[err'|] self1]|e|] eqn:Ea; try by intros [= <- _ _].
    intros [= <- <- _]. apply after_error_good in Ea as (H1 & H2 & H3); [|done..]. split; [done|].
    by apply stepping_decided.
  - by intros [= <- _ _].
Qed.
Lemma check_first_good id item self σ yielded self' σ' :
  good_runtime self -> rt_current_node self = Some id ->
  check_first resolve_new_build id item self σ = (yielded, self', σ') -> yields_good yielded self'.
Proof.
  intros Hself Hcur. unfold check_first. destruct (g_nodes (rt_graph self) !! id) as [node|]; [|by intros [= <- _ _]].
  destruct (check_initial_requests _); [|by apply step_current_good].
  assert (forall unresolved specs, holds pool agreed rank builders [] (count_impossible (Error := Error) unresolved specs) (fun _ => True))
    as Hcount.
  { intros unresolved specs. induction specs as [|spec specs IH]; [by apply holds_ret|]. cbn [count_impossible].
    eapply holds_bind; [eapply holds_bind; [apply holds_any|intros repos _; apply holds_checker]|]. intros compat _.
    eapply holds_bind; [exact IH|]. intros rest _. by apply holds_ret. }
  assert (holds pool agreed rank builders [] (check_initial_requests_for_impossible_requests (Error := Error) (nd_state node))
    (fun _ => True)) as Hcheck.
  { unfold check_initial_requests_for_impossible_requests.
    apply (holds_bind _ _ _ _ _ _ _ (fun _ => True)); [by apply holds_store|]. intros requests _.
    apply (holds_bind _ _ _ _ _ _ _ (fun _ => True)); [by apply holds_lift|]. intros specs _.
    eapply holds_bind; [apply Hcount|]. intros n _. destruct (0 <? n)%N; [apply holds_throw|by apply holds_ret]. }
  match goal with |- context [check_initial_requests_for_impossible_requests ?s ?e] =>
    destruct (Hcheck e) as [[Hs _] _];
      [split; [apply Hself|apply new_iterator_good]|destruct (check_initial_requests_for_impossible_requests s e) as [answer e']] end.
  cbn [snd] in Hs. destruct answer as [u|err|]; [|by destruct (count_error_of _ _); intros [= <- _ _]|by intros [= <- _ _]].
  apply step_current_good; [by apply with_solver_good|done].
Qed.
Lemma iter_turn_good first_iter self σ yielded first_iter' self' σ' :
  good_runtime self -> decided self ->
  iter_turn resolve_new_build first_iter self σ = (yielded, (first_iter', self'), σ') ->
  match yielded with
  | Yield_End => self' = self /\ (rt_decision self = None \/ rt_current_node self = Some root)
  | _ => yields_good yielded self'
  end.
Proof.
  intros Hself Hdec. unfold iter_turn. rewrite (gr_root _ Hself).
  destruct (rt_decision self) as [d|] eqn:Ed; [|intros [= <- _ <- _]; by auto].
  case_bool_decide as Hcur; [intros [= <- _ <- _]; by auto|].
  destruct Hdec as [?|Hdec]; [done|]. rewrite Ed in Hdec. destruct Hdec as (node & Hnode & Hleads).
  rewrite Hnode. destruct (add_branch _ _ _ _ _ _) as [[answer graph] σ1] eqn:Ea.
  apply (add_branch_good _ _ node) in Ea as (Hg & Hr & Hk & Hid); [|by apply Hself|done..].
  destruct Hself as [_ Hroot Hrootn Hsv Hh Hc].
  assert (good_runtime (with_graph graph (with_decision None self))) as Hgood.
  { split; cbn [with_graph with_decision rt_graph rt_solver rt_history rt_current_node]; [done|congruence| |done|..].
    - destruct Hrootn as (n0 & (n1 & Hn1 & Hs1)%Hk & Hs0). exists n1. split; congruence.
    - intros entry He. by eapply extends_some, Hh.
    - intros k He. by eapply extends_some, Hc. }
  destruct answer as [id|e|]; [| |by intros [= <- _ _ _]].
  - match goal with |- context [(if first_iter then ?a else ?b) id ?item ?rt σ1] =>
      assert (forall y rt' σ2, (if first_iter then a else b) id item rt σ1 = (y, rt', σ2) -> yields_good y rt') as Hstep end.
    { intros y rt' σ2. assert (good_runtime (with_current (Some id) (with_graph graph (with_decision None self)))) as Hgood'.
      { destruct Hgood as [? ? ? ? ? ?]. split; try done. intros k [= <-]. by apply Hid. }
      destruct first_iter; [by apply check_first_good|by apply step_current_good]. }
    destruct ((if first_iter then _ else _) _ _ _ _) as [[y rt'] σ2]. intros [= <- _ <- _].
    specialize (Hstep _ _ _ eq_refl). by destruct y.
  - destruct (take_a_step_back None _) as [rt'|e'|] eqn:Et; [|by intros [= <- _ _ _]..]. intros [= <- _ <- _].
    apply take_a_step_back_good in Et as (H1 & H2 & H3); [|done]. split; [done|by apply stepping_decided].
Qed.
Lemma iterate_good fuel first_iter self σ self' σ' :
  good_runtime self -> decided self -> iterate resolve_new_build fuel first_iter self σ = (Ok tt, self', σ') ->
  good_runtime self' /\ decided self' /\ (rt_decision self' = None \/ rt_current_node self' = Some root).
Proof.
  revert first_iter self σ. induction fuel as [|fuel IH]; intros first_iter self σ Hself Hdec; [done|].
  cbn [iterate]. destruct (iter_turn _ _ _ _) as [[y [first_iter' self1]] σ1] eqn:E.
  apply iter_turn_good in E; [|done..]. destruct y; cbn [yields_good] in E; [|done| |done].
  - destruct E as [H1 H2]. by apply IH.
  - destruct E as [-> Hend]. by intros [= <- _].
Qed.
End stream.

(** ** Solutions *)

(** A request that is answered by whatever answers the requests of the state. *)
Lemma answered_meets graph state sol r :
  sound graph state -> get_next_request permutations2 state = Ok None -> as_solution permutations2 state = Ok sol ->
  demanded state r -> firm (C := C) (made builders) state r -> meets sol r.
Proof.
  intros Hs Hnext Hsol Hr Hfirm. destruct (as_solution_spec permutations2 state sol (so_wf _ _ _ _ _ _ _ _ Hs) Hsol) as (_ & _ & Hget).
  unfold SolveSound.meets. destruct (Hget (req_name r)) as [-> _]. unfold solved.
  destruct (get_current_resolve state (req_name r)) as [[[resolved source] id]|] eqn:Eres.
  - destruct (merged_of_resolved (C := C) hash_order Hperm permutations2 Hp2 pool Hpool agreed rank (made builders) (visited graph)
      state _ _ _ _ Hs Eres) as (m & -> & _).
    pose proof (so_resolved _ _ _ _ _ _ _ _ Hs _ _ _ _ Eres) as [Hg Ha _ _ _ _ Hans]. cbn [sr_spec]. split.
    + apply (Hr (Q_admits _)); [apply Hg|exact Ha].
    + intros Hu. specialize (Hans r Hu eq_refl Hfirm). by destruct (check_satisfies_pkg_request _ _ _).
  - pose proof (first_unresolved_spec permutations2 state (requests_of state)) as Hall.
    unfold get_next_request in Hnext. rewrite Hnext in Hall. apply (bool_decide_eq_true _), (Hr Q_passive); [done|].
    apply forallb_forall. intros q Hq. unfold requests_for, named in Hq. rewrite filter_In, bool_decide_eq_true in Hq.
    destruct Hq as [Hq Hn]. rewrite Forall_forall in Hall. apply list_elem_of_In, Hall in Hq. cbn [SoundStates.ask].
    apply bool_decide_eq_true. unfold wanted in Hq. rewrite Hn in Hq.
    destruct (pr_inclusion_policy (pkg_request q)); [|done]. by destruct Hq.
Qed.
Lemma items_resolved graph state sol item :
  sound graph state -> as_solution permutations2 state = Ok sol -> item ∈ items sol ->
  exists resolved source id, get_current_resolve state (sr_name item) = Some (resolved, source, id) /\
    sr_spec item = ch_object resolved.
Proof.
  intros Hs Hsol Hin. destruct (as_solution_spec permutations2 state sol (so_wf _ _ _ _ _ _ _ _ Hs) Hsol) as (_ & Hnd & Hget).
  pose proof (Solution_get_unique sol item Hnd Hin) as Hitem. destruct (Hget (sr_name item)) as [Hsolved _].
  rewrite Hitem in Hsolved. unfold solved in Hsolved.
  destruct (get_current_resolve state (sr_name item)) as [[[resolved source] id]|]; [|done].
  destruct (get_merged_request _ _ _); [|done..]. injection Hsolved as ->. by eexists _, _, _.
Qed.
(** What a solution of a state holds for. *)
Definition solved_by (sol : Solution Repo Recipe T) : Prop :=
  Forall (meets sol) (made builders) /\
  forall item r, item ∈ items sol -> RequestWithOptions_Pkg r ∈ sp_runtime_requirements (sr_spec item) -> meets sol r.
Lemma state_solved graph state sol :
  sound graph state -> asked agreed builders state -> get_next_request permutations2 state = Ok None ->
  as_solution permutations2 state = Ok sol -> solved_by sol.
Proof.
  intros Hs Ha Hnext Hsol. split.
  - apply Forall_forall. intros r Hr. eapply answered_meets; [done..| |by left]. by eapply asked_demanded.
  - intros item r Hin Hr. destruct (items_resolved _ _ _ _ Hs Hsol Hin) as (resolved & source & id & Hres & Hspec).
    rewrite Hspec in Hr. eapply answered_meets; [done..| |right; by eexists _, _, _, _].
    by apply (sr_demands _ _ _ _ _ _ _ _ _ _ _ _ (so_resolved _ _ _ _ _ _ _ _ Hs _ _ _ _ Hres)).
Qed.

(** ** The start *)

Lemma dead_no_packages n : get_current_resolve dead n = None.
Proof. unfold get_current_resolve. by rewrite (ds_packages _ Hdead). Qed.
Lemma dead_sound graph : sound graph dead.
Proof.
  split; [apply Hdead|rewrite (ds_requests _ Hdead); constructor|by rewrite (ds_requests _ Hdead)|]. intros name resolved source id. by rewrite dead_no_packages.
Qed.
Lemma default_dead base σ σ' :
  default_state (Repo := Repo) (Recipe := Recipe) (C := C) σ = (Ok base, σ') -> dead_state base.
Proof.
  intros Hbase. pose proof (State_new_wf (C := C) _ _ _ _ _ _ _ Hbase) as Hwf.
  unfold default_state, State_new in Hbase. cbn in Hbase. injection Hbase as <- _. by split.
Qed.
(** The state that the solver's requests make of the one without any. *)
Lemma builders_sound parent σ s σ' base :
  dead_state base -> Forall request_change builders -> Forall proper (made builders) ->
  apply_changes request_priority_order permutations2 parent base builders σ = (Ok s, σ') ->
  (forall graph, sound graph s) /\ forall q n, good_question q ->
    forallb (ask agreed q) (requests_for s n) = forallb (ask agreed q) (named n (made builders)).
Proof.
  intros Hbase Hr Hp Ha. assert (forall n, get_current_resolve base n = None) as Hnone.
  { intros n. unfold get_current_resolve. by rewrite (ds_packages _ Hbase). }
  assert (forall graph, sound graph base) as Hs.
  { intros graph. split; [apply Hbase|rewrite (ds_requests _ Hbase); constructor|by rewrite (ds_requests _ Hbase)|]. intros name resolved source id. by rewrite Hnone. }
  assert (forall graph, sound graph s /\ asks_more permutations2 agreed base s (made builders)) as H.
  { intros graph. destruct (requests_sound (C := C) request_priority_order hash_order Hperm permutations2 Hp2 pool Hpool agreed rank
      (made builders) (visited graph) builders parent base σ (Hs graph) Hr Hp) as (s' & σ1 & E & Hs' & Hm).
    { intros r resolved source id _. by rewrite Hnone. }
    rewrite E in Ha. by injection Ha as <- <-. }
  split; [apply H|]. intros q n Hq. destruct (H (Graph_new dead)) as [_ Hm]. rewrite (Hm q n Hq).
  unfold requests_for. by rewrite (ds_requests _ Hbase).
Qed.
Lemma start_good solver :
  good_solver solver -> Forall request_change builders -> Forall proper (made builders) ->
  good_runtime (SolverRuntime_new dead solver) /\ decided (SolverRuntime_new dead solver).
Proof.
  intros Hs Hr Hp. split; [split|right]; cbn [SolverRuntime_new rt_graph rt_solver rt_history rt_current_node rt_decision].
  - intros id node. cbn [Graph_new g_nodes]. rewrite lookup_singleton_Some. intros [<- <-]. split; [done|].
    split; [split; [apply dead_sound|by left]|done].
  - done.
  - exists (Node_new dead). cbn [Graph_new g_nodes]. by rewrite lookup_singleton_eq.
  - done.
  - by intros entry ?%elem_of_nil.
  - done.
  - exists (Node_new dead). split; [cbn [Graph_new g_nodes default]; by rewrite lookup_singleton_eq|].
    intros σ s' σ'. cbn [Node_new nd_state dec_changes Decision_new]. rewrite (gs_builders _ _ Hs).
    intros [Hsound Ha]%builders_sound; [|done..]. split; [done|right]. intros q n Hq. by rewrite Ha.
Qed.
Lemma current_solution_solved self solution σ σ' :
  good_runtime self -> decided self -> (rt_decision self = None \/ rt_current_node self = Some root) ->
  Forall request_change builders -> Forall proper (made builders) ->
  current_solution (Error := Error) (C := C) self σ = (Ok solution, σ') -> solved_by solution.
Proof.
  intros Hself Hdec Hend Hr Hp. unfold current_solution.
  destruct (rt_current_node self) as [id|] eqn:Ecur; [|done].
  destruct (g_nodes (rt_graph self) !! id) as [node|] eqn:En; [|done].
  destruct (gr_graph _ Hself _ _ En) as [Hid Hnode]. destruct (gn_state _ _ _ _ _ _ _ Hnode) as [Hs Ha].
  destruct (get_pkg_requests (rt_solver self) σ) as [[requests|e|] σ1] eqn:Er; [|done..].
  rewrite (gr_root _ Hself). destruct (bool_decide (id = root)) eqn:Eroot; cbn [andb].
  - apply bool_decide_eq_true in Eroot as ->. destruct (negb (bool_decide (requests = []))) eqn:Enil; [done|].
    apply negb_false_iff, bool_decide_eq_true in Enil as ->.
    destruct (as_solution permutations2 (nd_state node)) as [sol|e|] eqn:Esol; intros [= <- _].
    assert (made builders = []) as Hmade.
    { revert Er. unfold get_pkg_requests, solver_initial_state, get_initial_state. rewrite (gs_builders _ _ (gr_solver _ Hself)).
      intros (s & σ2 & (base & σ3 & Hbase & Happly)%SM_bind_Ok & Hreq)%SM_bind_Ok. injection Hreq as Hreq _.
      assert (dead_state base) as Hb.
      { by eapply default_dead. }
      apply builders_sound in Happly as [_ Hq]; [|done..].
      destruct (made builders) as [|r rs] eqn:Em; [done|]. exfalso.
      specialize (Hq Q_none (req_name r) I). unfold requests_for, named in Hq. rewrite Hreq in Hq.
      cbn [List.filter] in Hq. rewrite bool_decide_eq_true_2 in Hq by done. done. }
    split; [by rewrite Hmade|]. intros item r Hin _.
    destruct (items_resolved _ _ _ _ Hs Esol Hin) as (resolved & source & id & Hres & _). exfalso.
    destruct (gr_root_node _ Hself) as (node0 & Hn0 & Hdead0). assert (node0 = node) as -> by congruence.
    by rewrite Hdead0, dead_no_packages in Hres.
  - apply bool_decide_eq_false in Eroot. destruct Ha as [Ha|Ha]; [by unfold Node_id in Hid; rewrite Ha in Hid|].
    destruct Hend as [Hnone|Hroot]; [|congruence].
    destruct Hdec as [?|Hdec]; [congruence|]. rewrite Hnone in Hdec. destruct Hdec as (id' & node' & Hid' & Hn' & Hnext).
    assert (node' = node) as -> by congruence.
    destruct (as_solution permutations2 (nd_state node)) as [sol|e|] eqn:Esol; intros [= <- _].
    by eapply state_solved.
Qed.
Lemma resolve_new_build_good solver_solve state n recipe :
  holds pool agreed rank builders n (resolve_new_build (Error := Error) (C := C) solver_solve recipe state)
    (fun spec => good_package spec /\ pk_name spec = id_base (recipe_ident recipe)).
Proof.
  unfold resolve_new_build. apply (holds_bind _ _ _ _ _ _ _ (fun _ => True)).
  { unfold start_build. eapply holds_bind; [apply holds_any|]. intros started _.
    destruct (existsb _ _); [apply holds_throw|by apply holds_solver]. }
  intros u _. apply (holds_bind _ _ _ _ _ _ _ (fun _ => True)); [by apply holds_store|]. intros options _.
  apply (holds_bind _ _ _ _ _ _ _ (fun _ => True)); [by apply holds_lift|]. intros options' _.
  apply (holds_bind _ _ _ _ _ _ _ (fun _ => True)); [by apply holds_store|]. intros counter _.
  eapply holds_bind; [apply holds_any|]. intros solver _.
  apply (holds_bind _ _ _ _ _ _ _ (fun _ => True)); [by apply holds_store|]. intros solution _.
  apply holds_lift. intros spec. destruct (generate_binary_build _ _ _) as [spec'|e|] eqn:E; intros [= <-]. by eapply gr_built, E.
Qed.
End sound.

(** ** What a solve promises *)

Section solve.
Context {Repo Recipe T C Error Pattern : Type} `{!SourceOps Repo Recipe} `{!Versioned T, !ComponentOps C, !Package T C}.
Context `{!ComponentEmbeds C, !ComponentRequires C, !SolverPackage T C, !SolverRecipe Recipe, !Hasher T}.
Context `{!GlobOps Pattern, !RepoOps Repo Recipe T Error, !BuildableRecipe Repo Recipe T}.
Context `{!SolveParameters Repo T C Error Pattern}.
Context (Hperm : forall l, hash_order l ≡ₚ l) (Hp2 : permutations2_spec permutations2).
Context (pool : rstr -> Pool) (Hpool : pools_wf pool) (agreed : rstr -> Build) (rank : rstr -> nat).
Context {Hrepos : GoodRepositories (C := C) pool agreed rank}.
Context (Hpop : forall history entry rest, pop_history history = Some (entry, rest) ->
  entry ∈ history /\ forall e, e ∈ rest -> e ∈ history).

(** C7: the solution of a solve meets every request the solver was given and
    every run-time requirement of the packages it consists of: there is a package
    for it, unless it is only for a package already present; its version is one
    that the request admits; and the package answers the request - its name,
    version, pre-release policy, components, build and options - if it is a built
    one that is not deprecated.  So whatever the solver went through - steps back,
    packages reconsidered with tighter requests, builds made from source - no
    request was lost and no package outlived a request that excludes it.

    The validators include those of requests and of package requirements.  The
    packages of the repositories, and those that recipes build, have versions
    without an epsilon, embed nothing, and only require packages of a lower rank
    (there are no cycles); what they require and what the solver was given are
    requests by interval rules from the pool of their package, with one build of it
    at most; repositories list builds under their names.  Nothing is said of the
    order in which packages are found, and nothing is assumed of the hash that
    identifies states: a graph keeps one state for an identifier. *)
Theorem solution_meets_requests depth fuel dead σ0 σ1 (solver solver' : Solver Repo Recipe T) σ solution σ' :
  default_state (C := C) σ0 = (Ok dead, σ1) ->
  Validator_PackageRequest ∈ sv_validators solver -> Validator_PkgRequirements ∈ sv_validators solver ->
  Forall request_change (sv_initial_state_builders solver) ->
  Forall (proper pool agreed) (made (sv_initial_state_builders solver)) ->
  SolverRuntime.solve (Error := Error) (C := C) depth fuel dead solver σ = (Ok solution, solver', σ') ->
  Forall (meets (C := C) hash_order solution) (made (sv_initial_state_builders solver)) /\
  forall item r, item ∈ items solution -> RequestWithOptions_Pkg r ∈ sp_runtime_requirements (sr_spec item) ->
    meets (C := C) hash_order solution r.
Proof.
  intros Hdead%default_dead Hv Hv' Hr Hp. destruct depth as [|depth]; [done|]. cbn [SolverRuntime.solve]. unfold solve_with.
  destruct (iterate _ _ _ _ _) as [[answer self] σ2] eqn:E. destruct answer as [[]|e|]; [|done..].
  destruct (start_good Hperm Hp2 pool Hpool agreed rank (sv_initial_state_builders solver) dead Hdead solver (Build_good_solver _ _ Hv Hv' eq_refl) Hr Hp)
    as [Hg Hd].
  eapply (iterate_good Hperm Hp2 pool Hpool agreed rank Hpop (sv_initial_state_builders solver) dead Hdead) in E;
    [|intros state n recipe; by apply (resolve_new_build_good pool agreed rank (Hrepos := Hrepos))|exact Hg|exact Hd].
  destruct E as (Hg' & Hd' & Hend).
  destruct (current_solution self σ2) as [found σ3] eqn:Es. intros [= -> _ _].
  by apply (current_solution_solved Hperm Hp2 pool Hpool agreed rank (sv_initial_state_builders solver) dead Hdead self solution σ2 σ3).
Qed.
End solve.

(** ** A concrete instance

    The solve of [World] in which a library is reconsidered. *)

Definition world_pool (n : rstr) : Pool := mkPool n (lit "origin") (below [2]%N) false (fun _ => []).
Definition world_build (n : rstr) : Build := Build_empty.
Definition world_rank (n : rstr) : nat := if bool_decide (n = lit "app") then 1 else 0.
Lemma world_pools_wf : pools_wf world_pool.
Proof. intros n. split; [done|]. by intros x y ->%list_elem_of_singleton ->%list_elem_of_singleton. Qed.
Lemma world_proper n rules : rules = [] \/ rules = below [2]%N -> proper world_pool world_build (wants_version n rules).
Proof.
  intros Hr. split; [|done]. split; [done|by left| | |done|constructor|done].
  - destruct Hr as [-> | ->]; by repeat constructor.
  - intros x. destruct Hr as [-> | ->]; [by intros ?%elem_of_nil|done].
Qed.
Lemma initial_components_proper r : proper world_pool world_build r -> proper world_pool world_build (initial_components r).
Proof. unfold initial_components. case_bool_decide; [apply with_components_proper|done]. Qed.
Lemma repo_of_good world : Forall (good_package (C := ComponentSpec) world_pool world_build world_rank) world ->
  GoodRepositories (RepoOps0 := repo_of world) (C := ComponentSpec) world_pool world_build world_rank.
Proof.
  rewrite Forall_forall. intros Hw. split.
  - intros repo build spec. cbn [read_package repo_of]. destruct (List.find _ world) as [found|] eqn:E; [|done].
    intros [= <-]. apply find_some in E as [Hin Heq]. split; [by apply Hw, list_elem_of_In|].
    apply andb_true_iff in Heq as [[Hn%bool_decide_eq_true _]%andb_true_iff _]. exact Hn.
  - intros repo pkg builds build [= <-] (spec & -> & Hin)%list_elem_of_fmap.
    apply list_elem_of_In, filter_In in Hin as [_ [Hn%bool_decide_eq_true _]%andb_true_iff]. exact Hn.
  - done.
  - done.
  - intros l. reflexivity.
Qed.
Lemma package_good name version requirements :
  plain_version (from_parts version) ->
  Forall (fun r => proper world_pool world_build r /\ world_rank (req_name r) < world_rank name) requirements ->
  good_package (C := ComponentSpec) world_pool world_build world_rank (package name version requirements []).
Proof.
  rewrite Forall_forall. intros Hv Hr. split; [done..|]. intros r [Hin|(component & Hc & Hin)].
  - apply list_elem_of_fmap in Hin as (r' & [= ->] & Hin). by apply Hr.
  - apply list_elem_of_singleton in Hc as ->. by apply elem_of_nil in Hin.
Qed.
Lemma old_library_good : Forall (good_package (C := ComponentSpec) world_pool world_build world_rank) old_library.
Proof.
  unfold old_library. rewrite !Forall_cons. split_and!; [..|apply Forall_nil_2]; apply package_good; try done; try apply Forall_nil_2.
  apply Forall_singleton. split; [apply world_proper; by right|vm_compute; lia].
Qed.

Lemma pop_lowest_elem history entry rest : pop_lowest history = Some (entry, rest) ->
  entry ∈ history /\ forall e, e ∈ rest -> e ∈ history.
Proof.
  destruct history as [|x history]; [done|]. unfold pop_lowest.
  remember (List.filter _ (x :: history)) as kept eqn:Hkept. intros [= <- <-]. split.
  - assert (forall m l, foldl lowest m l = m \/ foldl lowest m l ∈ l) as Hm.
    { intros m l. revert m. induction l as [|y l IH]; intros m; [by left|]. cbn [foldl]. rewrite elem_of_cons.
      destruct (IH (lowest m y)) as [-> | Hin]; [|by auto]. unfold lowest. destruct (_ <? _)%N; auto. }
    rewrite elem_of_cons. apply Hm.
  - intros e. rewrite Hkept, !list_elem_of_In, filter_In. tauto.
Qed.

Lemma solution_meets_requests_witness :
  exists solution solver' σ',
    world_solve old_library 40 [wants_version (lit "lib") []; wants_version (lit "app") []] = (Ok solution, solver', σ') /\
    solution_packages solution = [(lit "lib", [1; 5]%N); (lit "app", [1]%N)] /\
    Forall (meets (C := ComponentSpec) (hash_order (SolveParameters := SolveParameters_world)) solution)
      (made (sv_initial_state_builders (world_solver [wants_version (lit "lib") []; wants_version (lit "app") []]))).
Proof.
  pose proof library_reconsidered as Hshown.
  destruct (world_solve old_library 40 [wants_version (lit "lib") []; wants_version (lit "app") []])
    as [[[solution|e|] solver'] σ'] eqn:E; [|discriminate..].
  exists solution, solver', σ'. split_and!; [done..|].
  eapply (solution_meets_requests (SolveParameters0 := SolveParameters_world) (RepoOps0 := repo_of old_library)
    (fun l => reflexivity l) permutations2_lex_spec world_pool world_pools_wf world_build world_rank
    (Hrepos := repo_of_good _ old_library_good) pop_lowest_elem); [exact world_start_default| | | | |exact E].
  - apply (bool_decide_unpack _). vm_compute. exact I.
  - apply (bool_decide_unpack _). vm_compute. exact I.
  - by repeat constructor.
  - repeat apply Forall_cons_2; [| |apply Forall_nil_2].
    + apply initial_components_proper, (world_proper (lit "lib")). by left.
    + apply initial_components_proper, (world_proper (lit "app")). by left.
Defined.
