(* ===== verification/StepTheory.v ===== *)
(** * Steps end

    The loop over versions of a step ([StepState.try_versions]) ends: its fuel
    is counted from the turns the cursor has left, and is always enough.  The
    reason is that a version that was tried has no builds left, so the cursor
    moves on.  Computations that leave the cursor alone are in the hint database
    [keeps]. *)

From stdpp Require Import gmap.
From S2P Require Import Prelude Strings Collections Names Version VersionOrder VersionText.
From S2P Require Import Compat RangeData Reasons CompatCheck VersionRange RangeTheory Components Options Idents.
From S2P Require Import Requests RequestEq Opts Requirements ComponentSpecs Satisfy Embedded PackageSpec.
From S2P Require Import Encoding Solution SolverState Validation Decisions BuildKeys PackageIterators.
From S2P Require Import IteratorTheory Graph ImpossibleChecks StepSolver StepState SolverRuntime.

Section ends.
Context {Repo Recipe T C Error Pattern : Type} `{!SourceOps Repo Recipe} `{!Versioned T, !ComponentOps C, !Package T C}.
Context `{!ComponentEmbeds C, !ComponentRequires C, !SolverPackage T C, !SolverRecipe Recipe, !Hasher T}.
Context `{!GlobOps Pattern, !RepoOps Repo Recipe T Error, !BuildableRecipe Repo Recipe T}.
Context `{!SolveParameters Repo T C Error Pattern}.
Abbreviation St := (St (Repo := Repo) (Recipe := Recipe) (T := T) (Error := Error)).
Abbreviation Iterator := (RepositoryPackageIterator (Repo := Repo) (Recipe := Recipe) (T := T)).
Abbreviation next := (next (Recipe := Recipe) (T := T) (Error := Error) builds_order versions_order).
Abbreviation next_loop := (next_loop (Recipe := Recipe) (T := T) (Error := Error) builds_order versions_order).
Abbreviation next_turn := (next_turn (Recipe := Recipe) (T := T) (Error := Error) builds_order versions_order).
Abbreviation left := (turns_left (Recipe := Recipe) (T := T) versions_order).
Abbreviation started := (started (Repo := Repo) (Recipe := Recipe) (T := T) (Error := Error)).

(** ** Computations that leave the cursor alone *)

Definition keeps {A} (m : St A) : Prop := forall e, en_iterator (m e).2 = en_iterator e.
Lemma keeps_ret {A} (a : A) : keeps (mret a).
Proof. done. Qed.
Lemma keeps_bind {A B} (m : St A) (f : A -> St B) : keeps m -> (forall a, keeps (f a)) -> keeps (mbind f m).
Proof.
  intros Hm Hf e. unfold mbind, St_bind. specialize (Hm e). destruct (m e) as [[a|x|] e1]; [|done..].
  cbn [snd] in Hm. by rewrite Hf.
Qed.
Lemma keeps_lift {A} (r : res (SolveError Error) A) : keeps (lift r : St A).
Proof. done. Qed.
Lemma keeps_throw {A} x : keeps (throw x : St A).
Proof. done. Qed.
Lemma keeps_asks {A} f : keeps (asks f : St A).
Proof. done. Qed.
Lemma keeps_solver f : keeps (modify_solver f : St unit).
Proof. done. Qed.
Lemma keeps_note note : keeps (push_note note : St unit).
Proof. done. Qed.
Lemma keeps_compat compat : keeps (set_compat compat : St unit).
Proof. done. Qed.
Lemma keeps_store {E A} (error : E -> SolveError Error) f : keeps (with_store error f : St A).
Proof. intros e. unfold with_store. by destruct (f _). Qed.
Lemma keeps_checker {A} f : keeps (with_checker f : St A).
Proof. intros e. unfold with_checker. by destruct (f _). Qed.
Lemma keeps_catch {A} (m : St A) : keeps m -> keeps (catch m).
Proof. intros H e. unfold catch. specialize (H e). by destruct (m e) as [[]]. Qed.
End ends.
Create HintDb keeps discriminated.
#[export] Hint Resolve keeps_ret keeps_lift keeps_throw keeps_asks keeps_solver keeps_note keeps_compat
  keeps_store keeps_checker : keeps.
Ltac keeps := repeat first [progress intros | solve [auto with keeps] | apply keeps_bind | apply keeps_catch | case_match].

Section step.
Context {Repo Recipe T C Error Pattern : Type} `{!SourceOps Repo Recipe} `{!Versioned T, !ComponentOps C, !Package T C}.
Context `{!ComponentEmbeds C, !ComponentRequires C, !SolverPackage T C, !SolverRecipe Recipe, !Hasher T}.
Context `{!GlobOps Pattern, !RepoOps Repo Recipe T Error, !BuildableRecipe Repo Recipe T}.
Context `{!SolveParameters Repo T C Error Pattern}.
Abbreviation St := (St (Repo := Repo) (Recipe := Recipe) (T := T) (Error := Error)).
Abbreviation StepEnv := (StepEnv (Repo := Repo) (Recipe := Recipe) (T := T)).
Abbreviation Iterator := (RepositoryPackageIterator (Repo := Repo) (Recipe := Recipe) (T := T)).
Abbreviation next := (next (Recipe := Recipe) (T := T) (Error := Error) builds_order versions_order).
Abbreviation next_loop := (next_loop (Recipe := Recipe) (T := T) (Error := Error) builds_order versions_order).
Abbreviation next_turn := (next_turn (Recipe := Recipe) (T := T) (Error := Error) builds_order versions_order).
Abbreviation left := (turns_left (Repo := Repo) (Recipe := Recipe) (T := T) versions_order).
Abbreviation started := (started (Repo := Repo) (Recipe := Recipe) (T := T) (Error := Error)).

Lemma resolve_new_build_keeps solve recipe state : keeps (resolve_new_build (Error := Error) (C := C) solve recipe state).
Proof. unfold resolve_new_build, start_build. keeps. Qed.

Context (resolve_new_build : Recipe -> State Repo Recipe T -> St T).
Context (Hkeeps : forall recipe state, keeps (resolve_new_build recipe state)).
Context (graph : Graph Repo Recipe T) (current : N) (state : State Repo Recipe T) (request : PkgRequestWithOptions).

Lemma try_build_keeps pkg spec source : keeps (try_build resolve_new_build graph current state request pkg spec source).
Proof.
  unfold try_build, try_source_build, try_recipe, build_decision, try_binary_build, resolve_build, reconsider_conflicting,
    reconsider_embedder, check_decision, target_state, validate, validate_the_recipe, check_requirements,
    unresolved_requests_of, skip_build, skip_with_message.
  keeps.
Qed.
Lemma try_repos_keeps pkg values : keeps (try_repos resolve_new_build graph current state request pkg values).
Proof. induction values as [|[spec source] values IH]; [done|]. apply keeps_bind; [apply try_build_keeps|by intros [d|]]. Qed.

(** ** The turns that are left *)

(** The builds of the active version, if there is one, are used up. *)
Definition spent (it : Iterator) : Prop :=
  match pi_active_version it with
  | Some version => exists builds, hm_get Version_eq version (pi_builds_map it) = Some builds /\ builds_is_empty builds = true
  | None => True
  end.
Lemma turn_some (it : Iterator) pkg version it' :
  next_turn it = inl (Ok (Some (pkg, version)), it') ->
  left it' = left it /\ pi_active_version it' = Some version /\ (is_Some (pi_versions it) -> is_Some (pi_versions it')) /\
  ~ (spent it /\ is_Some (pi_active_version it)).
Proof.
  unfold PackageIterators.next_turn, turns_left, spent, version_builds, activate.
  destruct it as [name repos vs vm bm act stubs].
  destruct act as [v|]; [|destruct vs as [[|v vs]|]]; unfold PackageIterators.set_builds, with_builds, with_active, with_versions;
    cbn [pi_active_version pi_versions pi_version_map pi_builds_map pi_embedded_stubs pi_package_name pi_repos default length];
    try (by destruct stubs);
    (destruct (hm_get Version_eq v vm) as [rs|]; [|done]);
    (destruct (hm_get Version_eq v bm) as [b|];
       [destruct (builds_is_empty b) eqn:Eb; [done|]; intros [= _ <- <-]
       |destruct (RepositoryBuildIterator_new _ _ _ _) as [b|e|];
          [destruct (builds_is_empty b); [done|]; intros [= _ <- <-]
          |match goal with |- context [invalid_spec ?x] => by destruct (invalid_spec x) end|done]]);
    cbn; split_and!; try done; try lia.
  all: try by intros [_ [? [=]]].
  all: intros [(b' & Hb & He) _]; congruence.
Qed.
Lemma loop_some fuel (it : Iterator) pkg version it' :
  is_Some (pi_versions it) -> next_loop fuel it = (Ok (Some (pkg, version)), it') ->
  left it' <= left it /\ pi_active_version it' = Some version /\ is_Some (pi_versions it') /\
  (spent it -> is_Some (pi_active_version it) -> left it' < left it).
Proof.
  revert it. induction fuel as [|fuel IH]; intros it Hv; [done|]. cbn [PackageIterators.next_loop].
  destruct (next_turn it) as [[r it1]|it1] eqn:Et.
  - intros [= -> ->]. destruct (turn_some _ _ _ _ Et) as (Hl & Ha & Hvs & Hs). split_and!; [lia|done|auto|].
    intros H1 H2. by destruct Hs.
  - intros H. pose proof (turn_left _ _ _ _ Et). pose proof (turn_versions _ _ _ _ Et Hv) as Hv1.
    destruct (IH _ Hv1 H) as (Hl & Ha & Hvs & _). split_and!; [lia|done..|lia].
Qed.
Lemma next_some (it : Iterator) pkg version it' :
  next it = (Ok (Some (pkg, version)), it') ->
  left it' <= left (started it) /\ pi_active_version it' = Some version /\ is_Some (pi_versions it') /\
  (is_Some (pi_versions it) -> spent it -> is_Some (pi_active_version it) -> left it' < left it).
Proof.
  unfold PackageIterators.next, StepState.started. destruct (pi_versions it) as [vs|] eqn:Ev.
  - intros H. apply loop_some in H as (? & ? & ? & ?); [|by rewrite Ev]. split_and!; auto.
  - destruct (start versions_order it) as [it1|e|] eqn:Es; [|done..]. intros H.
    assert (is_Some (pi_versions it1)) as Hv by (apply bind_Ok in Es as (vm & _ & [= <-]); by eexists).
    apply loop_some in H as (? & ? & ? & _); [|done]. split_and!; [done..|]. by intros [? [=]].
Qed.

(** ** A version that is used up *)

Lemma St_bind_Ok {A B} (m : St A) (f : A -> St B) e b e' :
  mbind f m e = (Ok b, e') -> exists a e1, m e = (Ok a, e1) /\ f a e1 = (Ok b, e').
Proof. unfold mbind, St_bind. destruct (m e) as [[a|x|] e1]; [|done..]. intros H. by exists a, e1. Qed.
Lemma keeps_eq {A} (m : St A) e r e' : keeps m -> m e = (r, e') -> en_iterator e' = en_iterator e.
Proof. intros H E. specialize (H e). by rewrite E in H. Qed.
(** Where the cursor is, the builds apart. *)
Definition same_place (it it' : Iterator) : Prop :=
  pi_versions it' = pi_versions it /\ pi_version_map it' = pi_version_map it /\
  pi_active_version it' = pi_active_version it /\ pi_embedded_stubs it' = pi_embedded_stubs it.
Lemma same_place_left it it' : same_place it it' -> left it' = left it.
Proof. unfold turns_left. by intros (-> & -> & -> & ->). Qed.
Definition builds_at version (it : Iterator) := hm_get Version_eq version (pi_builds_map it).
Lemma builds_at_set version builds it : builds_at version (PackageIterators.set_builds version builds it) = Some builds.
Proof.
  unfold builds_at. cbn [pi_builds_map PackageIterators.set_builds with_builds].
  rewrite (assoc_get_insert Version_eq Version_eq_refl Version_eq_trans). by rewrite Version_eq_refl.
Qed.
Lemma modify_eq f e u e' : (modify_iterator f : St unit) e = (Ok u, e') -> en_iterator e' = f (en_iterator e).
Proof. by intros [= _ <-]. Qed.

Lemma try_builds_spent pkg version builds e e' :
  builds_at version (en_iterator e) = Some (SortedBuildIterator builds) ->
  try_builds resolve_new_build graph current state request pkg version builds e = (Ok None, e') ->
  same_place (en_iterator e) (en_iterator e') /\ builds_at version (en_iterator e') = Some (SortedBuildIterator []).
Proof.
  revert e. induction builds as [|hm builds IH]; intros e Hb; [intros [= <-]; by split|]. cbn [try_builds].
  intros (u1 & e1 & H1 & (u2 & e2 & H2 & (found & e3 & H3 & H)%St_bind_Ok)%St_bind_Ok)%St_bind_Ok.
  apply modify_eq in H1. apply keeps_eq in H2; [|apply keeps_solver]. apply keeps_eq in H3; [|apply try_repos_keeps].
  destruct found as [d|]; [done|]. apply IH in H as [Hs Hf]; [|by rewrite H3, H2, H1, builds_at_set].
  split; [|done]. by rewrite H3, H2, H1 in Hs.
Qed.
Lemma try_version_spent pkg version e e' :
  try_version resolve_new_build graph current state request pkg version e = (Ok None, e') ->
  same_place (en_iterator e) (en_iterator e') /\
  exists builds, builds_at version (en_iterator e') = Some builds /\ builds_is_empty builds = true.
Proof.
  unfold try_version. intros (u1 & e1 & H1 & (builds & e2 & H2 & H)%St_bind_Ok)%St_bind_Ok.
  apply keeps_eq in H1; [|apply keeps_compat]. injection H2 as Hbuilds <-. destruct (negb _).
  - apply St_bind_Ok in H as (u3 & e3 & H3 & (u4 & e4 & H4 & (u5 & e5 & H5 & [= <-])%St_bind_Ok)%St_bind_Ok).
    apply keeps_eq in H3; [|apply keeps_solver]. apply modify_eq in H4. apply keeps_eq in H5; [|apply keeps_note].
    rewrite H5, H4, H3, H1. split; [done|]. exists EmptyBuildIterator. by rewrite builds_at_set.
  - apply St_bind_Ok in H as (sorted & e3 & H3 & H).
    assert (same_place (en_iterator e1) (en_iterator e3) /\
            exists l, sorted = SortedBuildIterator l /\ builds_at version (en_iterator e3) = Some sorted) as (Hs & l & -> & Hat).
    { revert H3. unfold sort_version. destruct (is_sorted_build_iterator builds) eqn:Eb.
      - intros [= <- <-]. split; [done|]. destruct builds as [| |l]; [done..|]. exists l. split; [done|].
        revert Hbuilds. unfold builds_at, version_builds. by destruct (hm_get _ _ _) as [b'|]; intros [= ->].
      - intros (c & e4 & H4 & (i & e5 & H5 & (o & e6 & H6 & (b & e7 & H7 & (u & e8 & H8 & [= <- <-])%St_bind_Ok)%St_bind_Ok)%St_bind_Ok)%St_bind_Ok)%St_bind_Ok.
        apply keeps_eq in H4; [|apply keeps_asks]. apply keeps_eq in H6; [|apply keeps_store].
        injection H7 as H7 <-. apply modify_eq in H8.
        assert (en_iterator e5 = en_iterator e4) as H5'.
        { eapply keeps_eq, H5. unfold check_builds_for_impossible_requests, unresolved_requests_of.
          destruct (use_in_build_keys c); [|by keeps]. apply keeps_bind; [apply keeps_store|]. intros unresolved.
          apply keeps_bind; [apply keeps_lift|]. intros items. generalize (@nil (BuildIdent * Compatibility)).
          induction (finished_order _) as [|spec specs IH]; intros found; [done|].
          cbn [check_specs]. unfold check_requirements. keeps. }
        rewrite H8, H6, H5', H4. split; [done|]. rewrite builds_at_set.
        destruct (SortedBuildIterator_new _ _ _ _ _) as [b'|x|] eqn:Es; [|done..]. injection H7 as ->.
        apply bind_Ok in Es as (l1 & _ & (l2 & _ & [= <-])%bind_Ok). by exists l2. }
    cbn [sorted_builds] in H. apply try_builds_spent in H as [Hs' Hat']; [|done].
    rewrite <-H1. split; [|by eexists]. destruct Hs as (? & ? & ? & ?), Hs' as (? & ? & ? & ?).
    unfold same_place. split_and!; congruence.
Qed.

(** ** The loop over versions *)

Lemma next_version_some e pkg version e' :
  next_version request e = (Ok (Some (pkg, version)), e') ->
  next (en_iterator e) = (Ok (Some (pkg, version)), en_iterator e').
Proof.
  unfold next_version. destruct (next (en_iterator e)) as [[r|[]|] it] eqn:En; cbn [map_error]; try done.
  - by intros [= -> <-].
  - by case_match.
Qed.

(** The loop without fuel: the turns it takes until it returns, [r]. *)
Inductive tried (e : StepEnv) : res (SolveError Error) (Decision Repo Recipe T) * StepEnv -> Prop :=
| tried_missing x e1 :
    next_version request e = (Err x, e1) -> tried e (Err x, e1)
| tried_panicked e1 :
    next_version request e = (Panicked, e1) -> tried e (Panicked, e1)
| tried_all e1 :
    next_version request e = (Ok None, e1) ->
    tried e (Err (OutOfOptions (pkg_request request) (en_notes e1)), e1)
| tried_fails pkg version e1 x e2 :
    next_version request e = (Ok (Some (pkg, version)), e1) ->
    try_version resolve_new_build graph current state request pkg version e1 = (Err x, e2) -> tried e (Err x, e2)
| tried_panics pkg version e1 e2 :
    next_version request e = (Ok (Some (pkg, version)), e1) ->
    try_version resolve_new_build graph current state request pkg version e1 = (Panicked, e2) -> tried e (Panicked, e2)
| tried_found pkg version e1 decision e2 :
    next_version request e = (Ok (Some (pkg, version)), e1) ->
    try_version resolve_new_build graph current state request pkg version e1 = (Ok (Some decision), e2) ->
    tried e (Ok decision, e2)
| tried_next pkg version e1 e2 r :
    next_version request e = (Ok (Some (pkg, version)), e1) ->
    try_version resolve_new_build graph current state request pkg version e1 = (Ok None, e2) ->
    tried e2 r -> tried e r.

Abbreviation try_versions := (try_versions resolve_new_build graph current state request).
(** One turn, and what remains of the loop. *)
Lemma tried_turn fuel e :
  (forall pkg version e1 e2, next (en_iterator e) = (Ok (Some (pkg, version)), en_iterator e1) ->
     try_version resolve_new_build graph current state request pkg version e1 = (Ok None, e2) ->
     tried e2 (try_versions fuel e2)) ->
  tried e (try_versions (S fuel) e).
Proof.
  intros Hrest. cbn [StepState.try_versions]. unfold mbind, St_bind.
  destruct (next_version request e) as [[[[pkg version]|]|x|] e1] eqn:En.
  - destruct (try_version _ _ _ _ _ _ _ e1) as [[[d|]|x|] e2] eqn:Et.
    + by eapply tried_found.
    + eapply tried_next; [done..|]. eapply Hrest, Et. by apply next_version_some.
    + by eapply tried_fails.
    + by eapply tried_panics.
  - by apply tried_all.
  - by apply tried_missing.
  - by apply tried_panicked.
Qed.
(** Between turns, the builds of the active version are used up. *)
Definition between (it : Iterator) : Prop :=
  is_Some (pi_versions it) /\ is_Some (pi_active_version it) /\ spent it.
Lemma try_version_between pkg version it e e' :
  next it = (Ok (Some (pkg, version)), en_iterator e) ->
  try_version resolve_new_build graph current state request pkg version e = (Ok None, e') ->
  between (en_iterator e') /\ left (en_iterator e') = left (en_iterator e).
Proof.
  intros (_ & Ha & Hv & _)%next_some [Hplace Hspent]%try_version_spent. split; [|by apply same_place_left].
  destruct Hplace as (Hv2 & _ & Ha2 & _). unfold between, spent. rewrite Hv2, Ha2, Ha. by split_and!.
Qed.
Lemma try_versions_between fuel e :
  between (en_iterator e) -> left (en_iterator e) < fuel -> tried e (try_versions fuel e).
Proof.
  revert e. induction fuel as [|fuel IH]; intros e (Hv & Ha & Hs) Hf; [lia|]. apply tried_turn.
  intros pkg version e1 e2 Hn Ht. pose proof (next_some _ _ _ _ Hn) as (_ & _ & _ & Hlt). specialize (Hlt Hv Hs Ha).
  apply (try_version_between _ _ _ _ _ Hn) in Ht as [Hb Hl]. apply IH; [done|lia].
Qed.
Lemma try_versions_tried e : tried e (try_versions (versions_fuel (en_iterator e)) e).
Proof.
  apply tried_turn. intros pkg version e1 e2 Hn Ht. pose proof (next_some _ _ _ _ Hn) as (Hle & _).
  apply (try_version_between _ _ _ _ _ Hn) in Ht as [Hb Hl]. apply try_versions_between; [done|lia].
Qed.
End step.

Section ends.
Context {Repo Recipe T C Error Pattern : Type} `{!SourceOps Repo Recipe} `{!Versioned T, !ComponentOps C, !Package T C}.
Context `{!ComponentEmbeds C, !ComponentRequires C, !SolverPackage T C, !SolverRecipe Recipe, !Hasher T}.
Context `{!GlobOps Pattern, !RepoOps Repo Recipe T Error, !BuildableRecipe Repo Recipe T}.
Context `{!SolveParameters Repo T C Error Pattern}.
Implicit Types (request : PkgRequestWithOptions).

(** C20: a step ends. Whatever the cursor of the request has in it, whether it was
    started or not, and whatever the solves for builds from source answer, the
    fuel of a step lets the loop over versions run until it returns: until a
    build decides, an error is raised or the versions are used up. *)
Theorem step_ends solve graph current state request (e : StepEnv (Repo := Repo) (Recipe := Recipe) (T := T)) :
  tried (Error := Error) (C := C) (Pattern := Pattern) (resolve_new_build solve) graph current state request e
    (try_versions (resolve_new_build solve) graph current state request (versions_fuel (Error := Error) (en_iterator e)) e).
Proof. apply try_versions_tried. intros recipe s. apply resolve_new_build_keeps. Qed.
End ends.
