(* ===== verification/TagSpec.v ===== *)
(** * Tag specs

    Models the [TagSpec] half of crates/spfs/src/tracking/tag.rs: the
    [org/name~version] text form of a reference into a tag stream. *)

From S2P Require Import Prelude Strings Names Encoding.

(** ** Tag specs *)

Record TagSpec := mkTagSpec { ts_org : option rstr; ts_name : rstr; ts_version : N }.
#[export] Instance TagSpec_eq_dec : EqDecision TagSpec.
Proof. solve_decision. Defined.

(** The part of a spec an error message is about. *)
Inductive tag_part := TagOrg | TagName | TagVersion.
Inductive TagSpecError :=
| TagNameEmpty (spec : rstr)
| TagInvalidAt (part : tag_part) (index : nat) (before : rstr) (c : char) (after : rstr)
| TagVersionParse.

Definition is_tag_name_char (ch : char) : bool :=
  (ch =? c_hyphen)%N || (ch =? c_underscore)%N || (ch =? c_dot)%N || is_ascii_alphanumeric ch.
Definition is_tag_org_char (ch : char) : bool :=
  (ch =? c_hyphen)%N || (ch =? c_underscore)%N || (ch =? c_dot)%N || (ch =? c_slash)%N ||
  is_ascii_alphanumeric ch.
Definition is_tag_version_char (ch : char) : bool :=
  (ch =? c_hyphen)%N || (ch =? c_underscore)%N || (ch =? c_dot)%N || is_ascii_digit ch.

Definition find_name_error (name : rstr) : option nat := position (fun ch => negb (is_tag_name_char ch)) name.
Definition find_org_error (org : rstr) : option nat := position (fun ch => negb (is_tag_org_char ch)) org.
Definition find_version_error (version : rstr) : option nat :=
  position (fun ch => negb (is_tag_version_char ch)) version.

(** The error for an invalid character: its message slices the text by byte
    offset on both sides. *)
Definition tag_char_error (part : tag_part) (s : rstr) (index : nat) : res TagSpecError unit :=
  match slice_to s (N.of_nat index), s !! index, slice_from s (N.of_nat index + 1) with
  | Some before, Some c, Some after => Err (TagInvalidAt part index before c after)
  | _, _, _ => Panicked
  end.

Definition check_tag_part (part : tag_part) (s : rstr) (index : option nat) : res TagSpecError unit :=
  match index with Some index => tag_char_error part s index | None => Ok tt end.

(** [rsplitn(2, '/')], with an empty org when there is none, and
    [splitn(2, '~')], with version 0 when there is none. *)
Definition org_and_name_version (spec : rstr) : rstr * rstr :=
  match rsplit_once c_slash spec with Some p => p | None => ([], spec) end.
Definition name_and_version (name_version : rstr) : rstr * rstr :=
  match split_once c_tilde name_version with Some p => p | None => (name_version, lit "0") end.

Definition split_tag_spec (spec : rstr) : res TagSpecError TagSpec :=
  let '(org, name_version) := org_and_name_version spec in
  let '(name, version) := name_and_version name_version in
  if str_is_empty name then Err (TagNameEmpty spec)
  else
    _ ← check_tag_part TagOrg org (find_org_error org);
    _ ← check_tag_part TagName name (find_name_error name);
    _ ← check_tag_part TagVersion version (find_version_error version);
    match parse_u64 version with
    | Some v => Ok (mkTagSpec (if str_is_empty org then None else Some org) name v)
    | None => Err TagVersionParse
    end.

Definition TagSpec_parse (spec : rstr) : res TagSpecError TagSpec := split_tag_spec spec.

(** [TagSpec::path]. *)
Definition TagSpec_path (self : TagSpec) : rstr :=
  match ts_org self with Some org => org ++ [c_slash] ++ ts_name self | None => ts_name self end.

Definition TagSpec_with_version (self : TagSpec) (version : N) : TagSpec :=
  mkTagSpec (ts_org self) (ts_name self) version.

(** [Display for TagSpec]. *)
Definition TagSpec_to_string (self : TagSpec) : rstr :=
  match self with
  | mkTagSpec None name version =>
      if (version =? 0)%N then name else name ++ [c_tilde] ++ dec version
  | mkTagSpec (Some org) name version =>
      if (version =? 0)%N then org ++ [c_slash] ++ name
      else org ++ [c_slash] ++ name ++ [c_tilde] ++ dec version
  end.

Definition build_tag_spec (org : option rstr) (name : rstr) (version : N) : res TagSpecError TagSpec :=
  let path := match org with Some org => org ++ [c_slash] ++ name | None => name end in
  let spec := if negb (version =? 0)%N then path ++ [c_tilde] ++ dec version else path in
  TagSpec_parse spec.

(** ** Well-formed specs *)

Definition TagSpec_ok (t : TagSpec) : Prop :=
  match ts_org t with
  | Some org => org <> [] /\ forallb is_tag_org_char org = true
  | None => True
  end /\
  ts_name t <> [] /\ forallb is_tag_name_char (ts_name t) = true /\ is_u64 (ts_version t).

(** The scan for an invalid character either accepts the whole string or splits
    it at the first invalid one. *)
Lemma position_invalid_spec (p : char -> bool) s :
  match position (fun ch => negb (p ch)) s with
  | None => forallb p s = true
  | Some i => exists a c b, s = a ++ c :: b /\ length a = i /\ forallb p a = true /\ p c = false
  end.
Proof.
  induction s as [|x s IH]; simpl; [done|]. destruct (p x) eqn:Hx; simpl.
  - destruct (position _ s) as [i|]; simpl; [|done].
    destruct IH as (a & c & b & -> & <- & Ha & Hc). exists (x :: a), c, b. simpl. by rewrite Hx.
  - by exists [], x, s.
Qed.

Lemma check_tag_part_outcome part (p : char -> bool) s :
  (forall c, p c = true -> (c <? 128)%N = true) ->
  match check_tag_part part s (position (fun ch => negb (p ch)) s) with
  | Ok _ => forallb p s = true
  | Err _ => forallb p s = false /\ first_invalid_not_ascii p s = false
  | Panicked => first_invalid_not_ascii p s = true
  end.
Proof.
  intros Hp. pose proof (position_invalid_spec p s) as H.
  destruct (position _ s) as [i|]; simpl; [|done].
  destruct H as (a & c & b & -> & <- & Ha & Hc). unfold tag_char_error.
  rewrite slice_to_app, slice_from_app, list_lookup_middle by eauto using forallb_weaken.
  unfold first_invalid_not_ascii. rewrite find_app_first, forallb_app by done. simpl.
  rewrite Hc, andb_false_r.
  destruct (N.ltb_spec c 128), (N.leb_spec 128 c); by try lia.
Qed.

Lemma check_tag_part_ok part (p : char -> bool) s :
  forallb p s = true -> check_tag_part part s (position (fun ch => negb (p ch)) s) = Ok tt.
Proof.
  intros Hs. pose proof (position_invalid_spec p s) as H. destruct (position _ s) as [i|]; [|done].
  destruct H as (a & c & b & -> & _ & _ & Hc). rewrite forallb_app in Hs. simpl in Hs.
  by rewrite Hc, andb_false_r in Hs.
Qed.

Lemma tag_org_char_ascii ch : is_tag_org_char ch = true -> (ch <? 128)%N = true.
Proof.
  unfold is_tag_org_char. rewrite !orb_true_iff, !N.eqb_eq.
  intros [[[[-> | ->]| ->]| ->]|H]; try done. by apply alphanumeric_ascii.
Qed.
Lemma tag_name_char_org ch : is_tag_name_char ch = true -> is_tag_org_char ch = true.
Proof.
  unfold is_tag_name_char, is_tag_org_char. rewrite !orb_true_iff. tauto.
Qed.
Lemma tag_version_char_name ch : is_tag_version_char ch = true -> is_tag_name_char ch = true.
Proof.
  unfold is_tag_name_char, is_tag_version_char, is_ascii_alphanumeric. rewrite !orb_true_iff. tauto.
Qed.
Lemma digit_tag_version ch : is_ascii_digit ch = true -> is_tag_version_char ch = true.
Proof. unfold is_tag_version_char. intros ->. apply orb_true_r. Qed.
#[local] Hint Resolve tag_org_char_ascii tag_name_char_org tag_version_char_name digit_tag_version : spk.


(** The [name~version] tail of a printed spec. *)
Definition name_version_text (name : rstr) (version : N) : rstr :=
  if (version =? 0)%N then name else name ++ [c_tilde] ++ dec version.

Lemma TagSpec_to_string_text t :
  TagSpec_to_string t =
  match ts_org t with Some org => org ++ [c_slash] | None => [] end ++
  name_version_text (ts_name t) (ts_version t).
Proof.
  destruct t as [[org|] name v]; unfold name_version_text; simpl;
    destruct (v =? 0)%N; simpl; by rewrite <-?(assoc_L (++)).
Qed.

Lemma name_version_split name v :
  forallb is_tag_name_char name = true -> is_u64 v ->
  exists w, name_and_version (name_version_text name v) = (name, w) /\
    forallb is_tag_version_char w = true /\ parse_u64 w = Some v.
Proof.
  intros Hn Hv. assert (str_contains c_tilde name = false) as Ht by by eapply str_contains_class.
  unfold name_and_version, name_version_text. destruct (N.eqb_spec v 0) as [->|_].
  - apply split_once_None in Ht as ->. by eexists.
  - simpl. rewrite split_once_app by done. eexists. split_and!; [done| |].
    + eapply forallb_weaken; [|apply dec_digits]. auto with spk.
    + by apply parse_uint_dec.
Qed.

Lemma name_version_no_slash name v :
  forallb is_tag_name_char name = true -> str_contains c_slash (name_version_text name v) = false.
Proof.
  intros Hn. assert (str_contains c_slash name = false) as Hs by by eapply str_contains_class.
  unfold name_version_text. case_match; [done|]. rewrite !str_contains_app, Hs. simpl.
  eapply str_contains_class; [apply dec_digits|done].
Qed.

Lemma split_tag_spec_to_string t :
  TagSpec_ok t -> split_tag_spec (TagSpec_to_string t) = Ok t.
Proof.
  destruct t as [org name v]. intros (Horg & Hne & Hname & Hv). simpl in Horg, Hne, Hname, Hv.
  assert (org_and_name_version (TagSpec_to_string (mkTagSpec org name v)) =
          (default [] org, name_version_text name v)) as Hsplit.
  { unfold org_and_name_version. rewrite TagSpec_to_string_text. simpl. pose proof (name_version_no_slash name v Hname) as Hs.
    destruct org as [org|]; simpl.
    - rewrite <-(assoc_L (++)). simpl. by rewrite rsplit_once_app.
    - by apply rsplit_once_None in Hs as ->. }
  destruct (name_version_split name v Hname Hv) as (w & Hw & Hwc & Hp).
  unfold split_tag_spec. rewrite Hsplit, Hw.
  destruct name as [|c name]; [done|]. cbn [str_is_empty].
  unfold find_org_error, find_name_error, find_version_error.
  assert (forallb is_tag_org_char (default [] org) = true) by (destruct org; naive_solver).
  rewrite !check_tag_part_ok by done.
  cbn [mbind res_bind]. rewrite Hp. destruct org as [[|o org]|]; naive_solver.
Qed.

Lemma build_tag_spec_ok t :
  TagSpec_ok t -> build_tag_spec (ts_org t) (ts_name t) (ts_version t) = Ok t.
Proof.
  intros Ht. rewrite <-(split_tag_spec_to_string t Ht).
  unfold build_tag_spec, TagSpec_parse. f_equal.
  destruct t as [[org|] name v]; simpl; destruct (v =? 0)%N; simpl; by rewrite <-?(assoc_L (++)).
Qed.

(** What each outcome of [split_tag_spec] says of its input. *)
Lemma check_tag_part_panics part (p : char -> bool) s :
  (forall c, p c = true -> (c <? 128)%N = true) ->
  check_tag_part part s (position (fun ch => negb (p ch)) s) = Panicked ->
  exists c, c ∈ s /\ (128 <= c)%N.
Proof.
  intros Hp E. pose proof (check_tag_part_outcome part p s Hp) as H. rewrite E in H.
  unfold first_invalid_not_ascii in H. destruct (List.find _ s) as [c|] eqn:F; [|done].
  apply find_some in F as [F _]. exists c. split; [by apply list_elem_of_In|by apply N.leb_le].
Qed.

Lemma rsplit_once_subset sep s a b c :
  rsplit_once sep s = Some (a, b) -> c ∈ a \/ c ∈ b -> c ∈ s.
Proof.
  revert a. induction s as [|x s IH]; intros a; simpl; [done|].
  destruct (rsplit_once sep s) as [[a' b']|].
  - intros [= <- <-]. rewrite !elem_of_cons. naive_solver.
  - destruct (x =? sep)%N; [|done]. intros [= <- <-]. rewrite elem_of_nil, elem_of_cons. naive_solver.
Qed.

Lemma split_once_subset sep s a b c :
  split_once sep s = Some (a, b) -> c ∈ a \/ c ∈ b -> c ∈ s.
Proof.
  intros [-> _]%split_once_Some. rewrite elem_of_app, elem_of_cons. naive_solver.
Qed.

(** The parts the text is cut into only hold its characters and the default
    version's. *)
Lemma tag_parts_subset spec org nv name version c :
  org_and_name_version spec = (org, nv) -> name_and_version nv = (name, version) ->
  (128 <= c)%N -> c ∈ org \/ c ∈ name \/ c ∈ version -> c ∈ spec.
Proof.
  unfold org_and_name_version, name_and_version. intros E1 E2 Hc Hin.
  assert (c ∈ org \/ c ∈ nv) as Hin'.
  { destruct (split_once c_tilde nv) as [[a b]|] eqn:E; simplify_eq/=.
    - pose proof (split_once_subset _ _ _ _ c E). naive_solver.
    - destruct Hin as [?|[?|Hz]]; [by left|by right|].
      change (c ∈ [48%N]) in Hz. apply list_elem_of_singleton in Hz. lia. }
  destruct (rsplit_once c_slash spec) as [[a b]|] eqn:E; simplify_eq/=.
  - by eapply rsplit_once_subset.
  - destruct Hin' as [H|H]; [by apply elem_of_nil in H|done].
Qed.

(** ** Properties of specs *)

(** The text form of a tag spec.  Every well-formed spec prints to a text
    that parses back to it, and [build_tag_spec] on its parts rebuilds it. *)
Theorem tag_spec_roundtrip t :
  TagSpec_ok t ->
  TagSpec_parse (TagSpec_to_string t) = Ok t /\
  build_tag_spec (ts_org t) (ts_name t) (ts_version t) = Ok t.
Proof.
  intros Ht. split; [by apply split_tag_spec_to_string|by apply build_tag_spec_ok].
Qed.

Lemma tag_spec_roundtrip_witness :
  TagSpec_parse (lit "spi/base/main~4") =
    Ok (mkTagSpec (Some (lit "spi/base")) (lit "main") 4).
Proof.
  exact (proj1 (tag_spec_roundtrip (mkTagSpec (Some (lit "spi/base")) (lit "main") 4)
    ltac:(vm_compute; repeat split; discriminate))).
Defined.

(** Parsing a tag spec.  A parsed spec is well formed (a non-empty name of
    ASCII alphanumerics, [-], [_] and [.], an org that is absent or non-empty
    and may hold slashes, a version that fits in [u64]); the parser unwinds
    only on text with a character outside ASCII. *)
Theorem split_tag_spec_outcome spec :
  match split_tag_spec spec with
  | Ok t => TagSpec_ok t
  | Err _ => True
  | Panicked => exists c, c ∈ spec /\ (128 <= c)%N
  end.
Proof.
  unfold split_tag_spec.
  destruct (org_and_name_version spec) as [org nv] eqn:E1.
  destruct (name_and_version nv) as [name version] eqn:E2.
  pose proof (fun c => tag_parts_subset spec org nv name version c E1 E2) as Hsub.
  destruct name as [|x name]; [done|]. cbn [str_is_empty].
  pose proof (check_tag_part_outcome TagOrg is_tag_org_char org ltac:(eauto with spk)) as Ho.
  destruct (check_tag_part TagOrg org _) eqn:Eo; [|done|].
  2:{ apply check_tag_part_panics in Eo as (c & ? & ?); [|by eauto with spk]. exists c. naive_solver. }
  pose proof (check_tag_part_outcome TagName is_tag_name_char (x :: name) ltac:(eauto with spk)) as Hn.
  cbn [mbind res_bind]. destruct (check_tag_part TagName _ _) eqn:En; [|done|].
  2:{ apply check_tag_part_panics in En as (c & ? & ?); [|by eauto with spk]. exists c. naive_solver. }
  cbn [mbind res_bind]. destruct (check_tag_part TagVersion _ _) eqn:Ev; [|done|].
  2:{ apply check_tag_part_panics in Ev as (c & ? & ?); [|by eauto with spk]. exists c. naive_solver. }
  cbn [mbind res_bind]. destruct (parse_u64 version) eqn:Ep; [|done].
  apply parse_uint_le in Ep. unfold TagSpec_ok; simpl. destruct org as [|o org]; by split_and!.
Qed.

(** A tag spec whose first illegal character is not ASCII, such as [é] or
    [repo/é], makes the parser unwind while it builds the error message. *)
Theorem split_tag_spec_panics_on_e_acute :
  split_tag_spec [233]%N = Panicked /\ split_tag_spec (lit "repo/" ++ [233]%N) = Panicked /\
  split_tag_spec (lit "a:b") = Err (TagInvalidAt TagName 1 (lit "a") c_colon (lit "b")).
Proof. vm_compute. done. Qed.
