(* ===== verification/Tags.v ===== *)
(** * Tags

    Models the [Tag] half of crates/spfs/src/tracking/tag.rs: the record, its
    derived ordering (time first) and its binary form.  Timestamps are chrono's:
    their type, their order and their RFC 3339 text form are parameters. *)

From S2P Require Import Prelude Strings Names Encoding TagSpec.

Inductive TagError :=
| TagSpecErr (e : TagSpecError)
| TagEncodingErr (e : EncodingError)
| TagTimeErr
| TagConfigErr.

(** The [?] conversion of an encoding error into the crate's error type. *)
Definition enc {A} (r : res EncodingError A) : res TagError A :=
  match r with Ok a => Ok a | Err e => Err (TagEncodingErr e) | Panicked => Panicked end.
Definition spec_err {A} (r : res TagSpecError A) : res TagError A :=
  match r with Ok a => Ok a | Err e => Err (TagSpecErr e) | Panicked => Panicked end.

(** What the code uses of [chrono::DateTime<Utc>]. *)
Class Timestamp (time : Type) := {
  to_rfc3339 : time -> rstr;
  parse_from_rfc3339 : rstr -> option time;
  trunc_subsecs : N -> time -> time;
}.

(** RFC 3339 text is ASCII without NUL and parses back to the same instant. *)
Class TimestampLaws (time : Type) `{!Timestamp time} : Prop := {
  rfc3339_ascii (t : time) : forallb (fun c => c <? 128)%N (to_rfc3339 t) = true;
  rfc3339_no_nul (t : time) : str_contains 0%N (to_rfc3339 t) = false;
  rfc3339_roundtrip (t : time) : parse_from_rfc3339 (to_rfc3339 t) = Some t;
}.

Record Tag {time : Type} := mkTag {
  tag_time : time;
  tag_org : option rstr;
  tag_name : rstr;
  tag_target : Digest;
  tag_parent : Digest;
  tag_user : rstr;
}.
Arguments Tag time : clear implicits.
#[export] Instance Tag_eq_dec {time} `{!EqDecision time} : EqDecision (Tag time).
Proof. solve_decision. Defined.

Section tag.
Context {time : Type} `{!Timestamp time}.

(** [Tag::new], with the configured user and the clock's reading. *)
Definition Tag_new (config_user : res TagError rstr) (now : time) (org : option rstr)
    (name : rstr) (target : Digest) : res TagError (Tag time) :=
  user ← config_user;
  spec ← spec_err (build_tag_spec org name 0);
  Ok (mkTag _ (trunc_subsecs 6 now) (ts_org spec) (ts_name spec) target NULL_DIGEST user).

Definition Tag_to_spec (self : Tag time) (version : N) : TagSpec :=
  mkTagSpec (tag_org self) (tag_name self) version.

Definition Tag_path (self : Tag time) : rstr :=
  match tag_org self with Some org => org ++ [c_slash] ++ tag_name self | None => tag_name self end.

(** [split('@').next()]. *)
Definition Tag_username_without_org (self : Tag time) : rstr :=
  match split 64%N (tag_user self) with w :: _ => w | [] => [] end.

(** [Encodable for Tag]. *)
Definition Tag_encode (writer : list N) (self : Tag time) : res TagError (list N) :=
  writer ← enc (write_string writer (match tag_org self with Some org => org | None => [] end));
  writer ← enc (write_string writer (tag_name self));
  writer ← enc (write_digest writer (tag_target self));
  writer ← enc (write_string writer (tag_user self));
  writer ← enc (write_string writer (to_rfc3339 (tag_time self)));
  enc (write_digest writer (tag_parent self)).

(** [Decodable for Tag]. *)
Definition Tag_decode (r : reader) : res TagError (Tag time * reader) :=
  '(org, r) ← enc (read_string r);
  let org := if str_is_empty org then None else Some org in
  '(name, r) ← enc (read_string r);
  '(target, r) ← enc (read_digest r);
  '(user, r) ← enc (read_string r);
  '(text, r) ← enc (read_string r);
  time ← (match parse_from_rfc3339 text with Some t => Ok t | None => Err TagTimeErr end);
  '(parent, r) ← enc (read_digest r);
  Ok (mkTag _ time org name target parent user, r).

(** [Digestible for Tag]: the digest of the encoded bytes. *)
Definition Tag_digest (sha256 : list N -> Digest) (self : Tag time) : res TagError Digest :=
  bytes ← Tag_encode [] self; Ok (sha256 bytes).

(** The derived [Ord]: field by field in declaration order, time first. *)
Definition Tag_key (t : Tag time) : time * (option rstr * (rstr * (Digest * (Digest * rstr)))) :=
  (tag_time t, (tag_org t, (tag_name t, (tag_target t, (tag_parent t, tag_user t))))).
#[export] Instance cmp_Tag `{!Cmp time} : Cmp (Tag time) := cmp_on Tag_key.

(** ** Facts *)

(** The tags the encoding can represent: strings without NUL (of scalar values,
    as every Rust string), full-size digests, no empty org. *)
Definition text_ok (s : rstr) : bool := forallb is_scalar s && negb (str_contains 0%N s).
Definition Tag_ok (t : Tag time) : bool :=
  match tag_org t with Some org => text_ok org && negb (str_is_empty org) | None => true end &&
  text_ok (tag_name t) && text_ok (tag_user t) &&
  (length (digest_bytes (tag_target t)) =? DIGEST_SIZE) &&
  (length (digest_bytes (tag_parent t)) =? DIGEST_SIZE).

(** The encoded form. *)
Definition tag_bytes (t : Tag time) : list N :=
  as_bytes (default [] (tag_org t)) ++ [0%N] ++ as_bytes (tag_name t) ++ [0%N] ++
  digest_bytes (tag_target t) ++ as_bytes (tag_user t) ++ [0%N] ++
  as_bytes (to_rfc3339 (tag_time t)) ++ [0%N] ++ digest_bytes (tag_parent t).

Lemma text_ok_split s : text_ok s = true -> forallb is_scalar s = true /\ str_contains 0%N s = false.
Proof. unfold text_ok. by rewrite andb_true_iff, negb_true_iff. Qed.

Lemma write_string_ok writer s :
  text_ok s = true -> write_string writer s = Ok (writer ++ as_bytes s ++ [0%N]).
Proof.
  intros [_ Hn]%text_ok_split. unfold write_string, write_all. by rewrite Hn, <-(assoc_L (++)).
Qed.

Lemma rfc3339_text_ok `{!TimestampLaws time} (t : time) : text_ok (to_rfc3339 t) = true.
Proof.
  unfold text_ok. rewrite rfc3339_no_nul, andb_true_r.
  eapply forallb_weaken; [|apply (rfc3339_ascii t)]. cbv beta. intros c Hc%N.ltb_lt.
  unfold is_scalar. by rewrite (proj2 (N.ltb_lt c 55296)) by lia.
Qed.

Lemma Tag_ok_split t :
  Tag_ok t = true ->
  text_ok (default [] (tag_org t)) = true /\ tag_org t <> Some [] /\
  text_ok (tag_name t) = true /\ text_ok (tag_user t) = true /\
  length (digest_bytes (tag_target t)) = DIGEST_SIZE /\
  length (digest_bytes (tag_parent t)) = DIGEST_SIZE.
Proof.
  unfold Tag_ok. rewrite !andb_true_iff, !Nat.eqb_eq. intros [[[[Ho Hn] Hu] Ht] Hp].
  split_and!; try done.
  - destruct (tag_org t); [|done]. by apply andb_true_iff in Ho as [Ho _].
  - intros E. rewrite E in Ho. done.
Qed.

Lemma Tag_encode_ok `{!TimestampLaws time} writer t :
  Tag_ok t = true -> Tag_encode writer t = Ok (writer ++ tag_bytes t).
Proof.
  intros (Ho & _ & Hn & Hu & _ & _)%Tag_ok_split.
  unfold Tag_encode, tag_bytes. change (match tag_org t with Some org => org | None => [] end)
    with (default [] (tag_org t)).
  do 4 (rewrite write_string_ok by auto using rfc3339_text_ok; cbn [enc mbind res_bind write_digest]).
  unfold write_digest, write_all. cbn [enc mbind res_bind].
  by rewrite <-!(assoc_L (++)).
Qed.

(** *** Decoding, for any kind of stream

    [R r bytes] says that the reader [r] will deliver [bytes]. *)
Section decode.
Context (R : reader -> list N -> Prop) (P : rstr -> Prop) `{!TimestampLaws time}.
Definition reads {A} (read : reader -> res EncodingError (A * reader)) (bytes : list N) (a : A) :=
  forall r rest, R r (bytes ++ rest) -> exists r', read r = Ok (a, r') /\ R r' rest.
Context (Hstring : forall s, P s -> reads read_string (as_bytes s ++ [0%N]) s).
Context (Hdigest : forall d, length (digest_bytes d) = DIGEST_SIZE ->
  reads read_digest (digest_bytes d) d).

Lemma Tag_decode_reads t r rest :
  Tag_ok t = true -> P (default [] (tag_org t)) -> P (tag_name t) -> P (tag_user t) ->
  P (to_rfc3339 (tag_time t)) -> R r (tag_bytes t ++ rest) ->
  exists r', Tag_decode r = Ok (t, r') /\ R r' rest.
Proof.
  intros (_ & Hne & _ & _ & Ht & Hp)%Tag_ok_split Po Pn Pu Pt Hr.
  unfold Tag_decode, tag_bytes in *. rewrite <-!(assoc_L (++)) in Hr.
  rewrite (assoc_L (++) (as_bytes (default _ _))) in Hr.
  apply Hstring in Hr as (r1 & -> & Hr); [|done]. cbn [enc mbind res_bind].
  rewrite (assoc_L (++) (as_bytes (tag_name _))) in Hr.
  apply Hstring in Hr as (r2 & -> & Hr); [|done]. cbn [enc mbind res_bind].
  apply Hdigest in Hr as (r3 & -> & Hr); [|done]. cbn [enc mbind res_bind].
  rewrite (assoc_L (++) (as_bytes (tag_user _))) in Hr.
  apply Hstring in Hr as (r4 & -> & Hr); [|done]. cbn [enc mbind res_bind].
  rewrite (assoc_L (++) (as_bytes (to_rfc3339 _))) in Hr.
  apply Hstring in Hr as (r5 & -> & Hr); [|done]. cbn [enc mbind res_bind].
  rewrite rfc3339_roundtrip. cbn [mbind res_bind].
  apply Hdigest in Hr as (r6 & -> & Hr); [|done]. cbn [enc mbind res_bind].
  exists r6. split; [|done]. destruct t as [? [[|c org]|] ? ? ? ?]; done.
Qed.
End decode.

(** The whole of a byte slice as a reader: one chunk. *)
Definition slice_reader (bytes : list N) : reader := push_chunk bytes [].

Lemma slice_reader_cons bytes : bytes <> [] -> slice_reader bytes = [bytes].
Proof. by destruct bytes. Qed.

Lemma Tag_decode_slice `{!TimestampLaws time} t rest :
  Tag_ok t = true -> Tag_decode (slice_reader (tag_bytes t ++ rest)) = Ok (t, slice_reader rest).
Proof.
  intros Hok. pose proof (Tag_ok_split t Hok) as (Ho & _ & Hn & Hu & _ & _).
  destruct (Tag_decode_reads (fun r bytes => r = slice_reader bytes) (fun s => text_ok s = true)) with
    (t := t) (r := slice_reader (tag_bytes t ++ rest)) (rest := rest) as (r' & -> & ->);
    auto using rfc3339_text_ok.
  - intros s [Hs Hnul]%text_ok_split r rest' ->. eexists. split; [|done].
    rewrite slice_reader_cons by by destruct (as_bytes s). rewrite <-(assoc_L (++)). simpl.
    by rewrite read_string_one_chunk.
  - intros d Hd r rest' ->. eexists. split; [|done].
    assert (digest_bytes d <> []) as Hne by by (intros E; rewrite E in Hd).
    rewrite slice_reader_cons by by destruct (digest_bytes d).
    unfold read_digest. cbn [read_exact]. rewrite length_app, Hd.
    destruct (Nat.leb_spec DIGEST_SIZE (DIGEST_SIZE + length rest')); [|lia].
    rewrite <-Hd at 1 2. rewrite take_app_length, drop_app_length. cbn [mbind res_bind].
    unfold Digest_from_bytes. rewrite Hd. by destruct d.
Qed.
End tag.

#[export] Instance cmp_Digest_laws : CmpLaws Digest := cmp_laws_by_key digest_bytes (fun _ _ => eq_refl).
#[export] Instance cmp_Digest_leibniz : CmpLeibniz Digest.
Proof. intros [x] [y] E. change (cmp x y = Eq) in E. apply cmp_eq in E. by subst. Qed.
#[export] Instance cmp_Tag_laws {time} `{CmpLaws time} : CmpLaws (Tag time) :=
  cmp_laws_by_key Tag_key (fun _ _ => eq_refl).
#[export] Instance cmp_Tag_leibniz {time} `{CmpLeibniz time} : CmpLeibniz (Tag time).
Proof.
  intros t1 t2 E. change (cmp (Tag_key t1) (Tag_key t2) = Eq) in E. apply cmp_eq in E.
  destruct t1, t2. unfold Tag_key in E. simpl in E. by simplify_eq.
Qed.

(** ** Properties *)

(** The binary form of a tag.  Every tag whose strings have no NUL, whose
    org is not the empty string and whose digests have the full size encodes,
    and decodes back to itself: from one slice always, and, when its strings
    are ASCII, from a stream however it is buffered. *)
Theorem tag_roundtrip {time} `{!Timestamp time, !TimestampLaws time} (writer : list N) (t : Tag time) :
  Tag_ok t = true ->
  exists bytes,
    Tag_encode writer t = Ok (writer ++ bytes) /\
    Tag_decode (slice_reader bytes) = Ok (t, []) /\
    (forallb (fun c => c <? 128)%N (default [] (tag_org t) ++ tag_name t ++ tag_user t) = true ->
     decodes Tag_decode bytes t).
Proof.
  intros Hok. exists (tag_bytes t). split_and!.
  - by apply Tag_encode_ok.
  - rewrite <-(app_nil_r (tag_bytes t)). by apply Tag_decode_slice.
  - rewrite !forallb_app, !andb_true_iff. intros (Ao & An & Au) r rest Hr Hrem.
    pose proof (Tag_ok_split t Hok) as (Ho & _ & Hn & Hu & _ & _).
    destruct (Tag_decode_reads (fun r bytes => reader_ok r /\ remaining r = bytes)
      (fun s => forallb (fun c => c <? 128)%N s = true /\ str_contains 0%N s = false)) with
      (t := t) (r := r) (rest := rest) as (r' & -> & ? & ?); eauto;
      try by (split; [done|by apply text_ok_split]).
    + intros s [Ha Hs] q rest' [Hq Hrq]. rewrite as_bytes_ascii in Hrq by done.
      destruct (read_string_decodes s Ha Hs q rest') as (q' & -> & ? & ?); eauto.
    + intros d Hd q rest' [Hq Hrq].
      destruct (read_digest_decodes d Hd q rest') as (q' & -> & ? & ?); eauto.
    + split; [apply rfc3339_ascii|apply rfc3339_no_nul].
Qed.

(** Instants as seconds, printed in decimal: a concrete clock. *)
Record seconds := mkSeconds { secs : N }.
#[export] Instance seconds_eq_dec : EqDecision seconds.
Proof. solve_decision. Defined.
#[export] Instance cmp_seconds : Cmp seconds := cmp_on secs.
#[export] Instance cmp_seconds_laws : CmpLaws seconds := cmp_laws_by_key secs (fun _ _ => eq_refl).
#[export] Instance cmp_seconds_leibniz : CmpLeibniz seconds.
Proof. intros [x] [y] E. change (cmp x y = Eq) in E. apply cmp_eq in E. by subst. Qed.
#[export] Instance seconds_timestamp : Timestamp seconds := {
  to_rfc3339 := fun t => dec (secs t);
  parse_from_rfc3339 := fun s => mkSeconds <$> parse_uint (digits_value 0 s) s;
  trunc_subsecs := fun _ t => t;
}.
#[export] Instance seconds_laws : TimestampLaws seconds.
Proof.
  split; intros [t]; simpl.
  - eapply forallb_weaken; [|apply dec_digits]. intros c Hc. apply alphanumeric_ascii.
    unfold is_ascii_alphanumeric. by rewrite Hc, orb_true_r.
  - eapply str_contains_class; [apply dec_digits|done].
  - by rewrite dec_value, parse_uint_dec.
Qed.

Lemma tag_roundtrip_witness :
  let t := mkTag _ (mkSeconds 12) (Some (lit "spi")) (lit "main") NULL_DIGEST NULL_DIGEST (lit "me") in
  Tag_ok t = true /\ exists bytes, Tag_encode [] t = Ok ([] ++ bytes) /\
    Tag_decode (slice_reader bytes) = Ok (t, []) /\
    (forallb (fun c => c <? 128)%N (default [] (tag_org t) ++ tag_name t ++ tag_user t) = true ->
     decodes Tag_decode bytes t).
Proof. intros t. split; [reflexivity|]. exact (tag_roundtrip [] t eq_refl). Defined.
