(* ===== verification/TagFile.v ===== *)
(** * Tag files

    Models the on-disk tag stream of crates/spfs/src/storage/fs/tag.rs:
    [write_tags_to_path], which appends size-prefixed tags from oldest to
    newest, and [TagIter], the state machine that indexes such a file forwards
    and then yields its tags backwards, newest first.  The responses of the
    operating system (not ready yet, an error, a read of some of the bytes) are
    an explicit sequence of events, so that the theorems hold for every
    scheduling of the I/O. *)

From S2P Require Import Prelude Strings Encoding TagSpec Tags.

(** ** Asynchronous I/O *)

Inductive Poll (A : Type) := Pending | Ready (a : A).
Arguments Pending {A}.
Arguments Ready {A} a.

(** One response to a [poll_read] or [poll_complete]: [IoReady n] lets a read
    transfer up to [n] bytes. *)
Inductive io_event := IoPending | IoError | IoReady (n : nat).

Definition io_fine (ev : io_event) : bool := match ev with IoError => false | _ => true end.
Definition io_is_ready (ev : io_event) : bool := match ev with IoReady _ => true | _ => false end.

(** An open file and its position, which may be past the end. *)
Record TagReader := mkTagReader { content : list N; pos : N }.

Definition available (r : TagReader) : list N :=
  drop (N.to_nat (N.min (pos r) (N.of_nat (length (content r))))) (content r).

(** A read into [space] bytes: at least one byte unless there is no space or
    nothing is left ([None] is an I/O error). *)
Definition poll_read (ev : io_event) (space : nat) (r : TagReader) : Poll (option (list N * TagReader)) :=
  match ev with
  | IoPending => Pending
  | IoError => Ready None
  | IoReady n =>
      let data := take (Nat.min (Nat.max 1 n) space) (available r) in
      Ready (Some (data, mkTagReader (content r) (pos r + N.of_nat (length data))))
  end.

Definition poll_complete (ev : io_event) : Poll (option unit) :=
  match ev with IoPending => Pending | IoError => Ready None | IoReady _ => Ready (Some tt) end.

Inductive SeekFrom := SeekStart (n : N) | SeekCurrent (z : Z).

Definition i64_max : Z := 9223372036854775807.

(** The target of a seek must be a non-negative [i64]. *)
Definition start_seek (r : TagReader) (s : SeekFrom) : option TagReader :=
  let target := match s with SeekStart n => Z.of_N n | SeekCurrent z => (Z.of_N (pos r) + z)%Z end in
  if ((0 <=? target) && (target <=? i64_max))%Z
  then Some (mkTagReader (content r) (Z.to_N target)) else None.

(** ** Vectors and integers *)

(** [Vec::pop]. *)
Definition vec_pop {A} (l : list A) : option (A * list A) :=
  match last l with Some x => Some (x, removelast l) | None => None end.
(** [Vec::resize] of a byte vector with zeros. *)
Definition vec_resize (n : nat) (l : list N) : list N := take n l ++ repeat 0%N (n - length l).

Definition u64_add (a b : N) : N := ((a + b) mod (u64_max + 1))%N.
(** [as i64]. *)
Definition u64_as_i64 (n : N) : Z := i64_of_bits n.

(** ** The iterator *)

Inductive TagFileError := StorageReadError | InvalidSizeIndex | TagDecodeError (e : TagError).

Inductive TagIterState :=
| ReadingIndex (reader : TagReader) (bytes_read : nat)
| SeekingIndex (reader : TagReader)
| SeekingTag (reader : TagReader) (size : N)
| ReadingTag (reader : TagReader) (bytes_read : nat).

Record TagIter := mkTagIter {
  it_buf : list N;
  it_sizes : list N;
  it_state : option TagIterState;
}.

Definition SIZE_LEN : nat := 8.

Definition TagIter_new (reader : TagReader) : TagIter :=
  mkTagIter (repeat 0%N SIZE_LEN) [] (Some (ReadingIndex reader 0)).

Section iter.
Context {time : Type} `{!Timestamp time}.

(** What one arm of [poll_next] does: call itself again, return, or unwind. *)
Inductive arm :=
| Again
| Return (p : Poll (option (res TagFileError (Tag time))))
| Unwind.

Definition fail (e : TagFileError) : arm := Return (Ready (Some (Err e))).

(** The buffer after [data] is read at offset [at_]. *)
Definition fill (buf : list N) (at_ : nat) (data : list N) : list N :=
  take at_ buf ++ data ++ drop (at_ + length data) buf.

(** The [ReadingIndex] arm. *)
Definition poll_reading_index (buf sizes : list N) (reader : TagReader) (bytes_read : nat)
    (ev : io_event) : TagIter * arm :=
  if length buf <? bytes_read then (mkTagIter buf sizes None, Unwind) else
  match poll_read ev (length buf - bytes_read) reader with
  | Pending => (mkTagIter buf sizes (Some (ReadingIndex reader bytes_read)), Return Pending)
  | Ready None => (mkTagIter buf sizes None, fail StorageReadError)
  | Ready (Some (data, reader)) =>
      let buf := fill buf bytes_read data in
      let count := length data in
      if count =? 0 then
        match vec_pop sizes with
        | Some (size, sizes) =>
            let last_tag_start :=
              foldl (fun c s => u64_add (u64_add c s) (N.of_nat SIZE_LEN)) (N.of_nat SIZE_LEN) sizes in
            match start_seek reader (SeekStart last_tag_start) with
            | None => (mkTagIter buf sizes None, fail StorageReadError)
            | Some reader => (mkTagIter buf sizes (Some (SeekingTag reader size)), Again)
            end
        | None => (mkTagIter buf sizes None, Return (Ready None))
        end
      else
        let bytes_read := bytes_read + count in
        if bytes_read <? length buf
        then (mkTagIter buf sizes (Some (ReadingIndex reader bytes_read)), Again)
        else if negb (bytes_read =? SIZE_LEN) then (mkTagIter buf sizes None, Unwind)
        else
          let size := i64_of_bits (from_be_bytes (take bytes_read buf)) in
          if (size <? 0)%Z then (mkTagIter buf sizes None, fail InvalidSizeIndex)
          else
            let sizes := sizes ++ [Z.to_N size] in
            match start_seek reader (SeekCurrent size) with
            | None => (mkTagIter buf sizes None, fail StorageReadError)
            | Some reader => (mkTagIter buf sizes (Some (SeekingIndex reader)), Again)
            end
  end.

(** The [ReadingTag] arm. *)
Definition poll_reading_tag (buf sizes : list N) (reader : TagReader) (bytes_read : nat)
    (ev : io_event) : TagIter * arm :=
  if length buf <? bytes_read then (mkTagIter buf sizes None, Unwind) else
  match poll_read ev (length buf - bytes_read) reader with
  | Pending => (mkTagIter buf sizes (Some (ReadingTag reader bytes_read)), Return Pending)
  | Ready None => (mkTagIter buf sizes None, fail StorageReadError)
  | Ready (Some (data, reader)) =>
      let buf := fill buf bytes_read data in
      let bytes_read := bytes_read + length data in
      if bytes_read <? length buf
      then (mkTagIter buf sizes (Some (ReadingTag reader bytes_read)), Again)
      else
        match Tag_decode (slice_reader buf) with
        | Err err => (mkTagIter buf sizes None, fail (TagDecodeError err))
        | Panicked => (mkTagIter buf sizes None, Unwind)
        | Ok (tag, _) =>
            match vec_pop sizes with
            | Some (size, sizes) =>
                let next_tag_offset :=
                  u64_add (u64_add (N.of_nat bytes_read) (N.of_nat SIZE_LEN)) size in
                match start_seek reader (SeekCurrent (- u64_as_i64 next_tag_offset)) with
                | None => (mkTagIter buf sizes None, fail StorageReadError)
                | Some reader =>
                    (mkTagIter buf sizes (Some (SeekingTag reader size)), Return (Ready (Some (Ok tag))))
                end
            | None => (mkTagIter buf sizes None, Return (Ready (Some (Ok tag))))
            end
        end
  end.

(** [TagIter::poll_next], one arm. *)
Definition poll_arm (self : TagIter) (ev : io_event) : TagIter * arm :=
  let '(mkTagIter buf sizes state) := self in
  match state with
  | Some (ReadingIndex reader bytes_read) => poll_reading_index buf sizes reader bytes_read ev
  | Some (SeekingIndex reader) =>
      match poll_complete ev with
      | Pending => (mkTagIter buf sizes (Some (SeekingIndex reader)), Return Pending)
      | Ready None => (mkTagIter buf sizes None, fail StorageReadError)
      | Ready (Some _) =>
          (mkTagIter (vec_resize SIZE_LEN buf) sizes (Some (ReadingIndex reader 0)), Again)
      end
  | Some (SeekingTag reader size) =>
      match poll_complete ev with
      | Pending => (mkTagIter buf sizes (Some (SeekingTag reader size)), Return Pending)
      | Ready None => (mkTagIter buf sizes None, fail StorageReadError)
      | Ready (Some _) =>
          (mkTagIter (vec_resize (N.to_nat size) buf) sizes (Some (ReadingTag reader 0)), Again)
      end
  | Some (ReadingTag reader bytes_read) => poll_reading_tag buf sizes reader bytes_read ev
  | None => (self, Return (Ready None))
  end.

(** Drain the stream, polling again whenever it is pending: the items it yields
    and whether it ended, within the given responses. *)
Fixpoint drain (self : TagIter) (evs : list io_event) : list (res TagFileError (Tag time)) * bool :=
  match evs with
  | [] => ([], false)
  | ev :: evs =>
      match poll_arm self ev with
      | (self, Again) | (self, Return Pending) => drain self evs
      | (self, Return (Ready (Some item))) =>
          let '(items, ended) := drain self evs in (item :: items, ended)
      | (_, Return (Ready None)) => ([], true)
      | (_, Unwind) => ([Panicked], false)
      end
  end.

(** ** Writing *)

(** [write_tags_to_path] on a file that holds [file]. *)
Fixpoint write_tags_to_path (file : list N) (tags : list (Tag time)) : res TagError (list N) :=
  match tags with
  | [] => Ok file
  | tag :: tags =>
      buf ← Tag_encode [] tag;
      file ← enc (write_int file (Z.of_nat (length buf)));
      write_tags_to_path (write_all file buf) tags
  end.

(** ** The content of a tag file *)

(** Tags with their encoded form, oldest first. *)
Abbreviation entry := (Tag time * list N)%type.
Definition entry_ok (p : entry) : Prop := exists rest, Tag_decode (slice_reader p.2) = Ok (p.1, rest).
Definition frame (p : entry) : list N := be_bytes SIZE_LEN (N.of_nat (length p.2)) ++ p.2.
Definition frames (es : list entry) : list N := es ≫= frame.
Definition lens (es : list entry) : list N := (fun p => N.of_nat (length p.2)) <$> es.

Lemma frames_app es es' : frames (es ++ es') = frames es ++ frames es'.
Proof. unfold frames. by rewrite bind_app. Qed.
Lemma frames_cons e es :
  frames (e :: es) = be_bytes SIZE_LEN (N.of_nat (length e.2)) ++ e.2 ++ frames es.
Proof. change (frames (e :: es)) with (frame e ++ frames es). symmetry. apply (assoc_L (++)). Qed.
Lemma length_frames_cons e es :
  length (frames (e :: es)) = SIZE_LEN + length e.2 + length (frames es).
Proof. rewrite frames_cons, !length_app, be_bytes_length. lia. Qed.

Lemma length_frames_snoc e es :
  length (frames (es ++ [e])) = length (frames es) + SIZE_LEN + length e.2.
Proof.
  rewrite frames_app, length_app, length_frames_cons. change (length (frames [])) with 0. lia.
Qed.

Lemma vec_pop_snoc {A} (l : list A) x : vec_pop (l ++ [x]) = Some (x, l).
Proof. unfold vec_pop. by rewrite last_snoc, removelast_last. Qed.

Lemma u64_add_small a b : (a + b <= u64_max)%N -> u64_add a b = (a + b)%N.
Proof. intros. unfold u64_add. apply N.mod_small. lia. Qed.

(** Offsets stay in range on files shorter than 2^63 bytes. *)
Lemma last_tag_start_spec es c :
  (c + N.of_nat (length (frames es)) <= Z.to_N i64_max)%N ->
  foldl (fun c s => u64_add (u64_add c s) (N.of_nat SIZE_LEN)) c (lens es) =
  (c + N.of_nat (length (frames es)))%N.
Proof.
  revert c. induction es as [|e es IH]; intros c Hc; [unfold frames; simpl; lia|].
  rewrite length_frames_cons in *. change (lens (e :: es)) with (N.of_nat (length e.2) :: lens es).
  cbn [foldl]. unfold u64_max, i64_max, SIZE_LEN in *.
  rewrite (u64_add_small c), u64_add_small by (unfold u64_max; lia). rewrite IH; lia.
Qed.

Lemma start_seek_ok r s target :
  match s with SeekStart n => Z.of_N n | SeekCurrent z => (Z.of_N (pos r) + z)%Z end = Z.of_N target ->
  (target <= Z.to_N i64_max)%N -> start_seek r s = Some (mkTagReader (content r) target).
Proof.
  intros E Ht. unfold start_seek, i64_max in *. rewrite E.
  rewrite (proj2 (Z.leb_le 0 _)), (proj2 (Z.leb_le (Z.of_N target) _)) by lia. simpl.
  by rewrite N2Z.id.
Qed.

(** A read from the middle of a block. *)
Lemma poll_read_block n pre block post b space :
  poll_read (IoReady n) space (mkTagReader (pre ++ block ++ post) (N.of_nat (length pre + b))) =
  let data := take (Nat.min (Nat.max 1 n) space) (drop b (block ++ post)) in
  Ready (Some (data, mkTagReader (pre ++ block ++ post) (N.of_nat (length pre + b + length data)))).
Proof.
  simpl. unfold available. simpl.
  replace (drop _ (pre ++ block ++ post)) with (drop b (block ++ post)).
  { do 4 f_equal. lia. }
  assert (drop b (block ++ post) = drop (length pre + b) (pre ++ block ++ post)) as ->
    by by rewrite <-drop_drop, drop_app_length.
  destruct (decide (length pre + b <= length (pre ++ block ++ post))).
  - rewrite N.min_l by lia. by rewrite Nat2N.id.
  - rewrite N.min_r by lia. rewrite Nat2N.id, drop_all. apply drop_ge. lia.
Qed.

(** A read into a partly filled buffer makes progress and keeps the buffer a
    prefix of the block being read. *)
Lemma read_block n block post buf b :
  length buf = length block -> take b buf = take b block -> b <= length block ->
  let data := take (Nat.min (Nat.max 1 n) (length buf - b)) (drop b (block ++ post)) in
  (b < length block -> 0 < length data) /\ b + length data <= length block /\
  length (fill buf b data) = length block /\
  take (b + length data) (fill buf b data) = take (b + length data) block.
Proof.
  intros Hlen Hb Hlt. rewrite drop_app_le by lia. rewrite take_app_le by (rewrite length_drop; lia).
  cbv zeta. set (k := Nat.min _ _). assert ((b < length block -> 0 < k) /\ k <= length block - b) as Hk by lia. clearbody k.
  assert (length (take k (drop b block)) = k) as Hd by (rewrite length_take, length_drop; lia).
  unfold fill. rewrite Hd. split_and!; [lia|lia| |].
  - rewrite !length_app, Hd, length_take, length_drop. lia.
  - rewrite (assoc_L (++)), take_app_length'; [|rewrite length_app, Hd, length_take; lia].
    rewrite Hb. apply take_take_drop.
Qed.

(** ** The invariant of the iterator

    [iter_inv es it rem need]: on the file of [es], the iterator [it] has the
    tags [rem] left to yield, and [need] ready responses are enough for it to
    yield them and end. *)
Definition tag_cost (es : list entry) : nat := foldr (fun p n => length p.2 + 2 + n) 1 es.

Inductive iter_inv (es : list entry) : TagIter -> list (Tag time) -> nat -> Prop :=
| inv_reading_index pre post buf b :
    es = pre ++ post -> length buf = SIZE_LEN -> b < SIZE_LEN -> (post = [] -> b = 0) ->
    (forall e post', post = e :: post' ->
       take b buf = take b (be_bytes SIZE_LEN (N.of_nat (length e.2)))) ->
    iter_inv es
      (mkTagIter buf (lens pre)
         (Some (ReadingIndex (mkTagReader (frames es) (N.of_nat (length (frames pre) + b))) b)))
      (reverse es.*1) (9 * length post - b + 1 + tag_cost es)
| inv_seeking_index pre post buf :
    es = pre ++ post -> length buf = SIZE_LEN ->
    iter_inv es
      (mkTagIter buf (lens pre)
         (Some (SeekingIndex (mkTagReader (frames es) (N.of_nat (length (frames pre)))))))
      (reverse es.*1) (1 + 9 * length post + 1 + tag_cost es)
| inv_seeking_tag pre e post buf :
    es = pre ++ e :: post ->
    iter_inv es
      (mkTagIter buf (lens pre)
         (Some (SeekingTag (mkTagReader (frames es) (N.of_nat (length (frames pre) + SIZE_LEN)))
                  (N.of_nat (length e.2)))))
      (reverse (pre ++ [e]).*1) (tag_cost (e :: pre))
| inv_reading_tag pre e post buf b :
    es = pre ++ e :: post -> length buf = length e.2 -> take b buf = take b e.2 ->
    b < length e.2 \/ b = 0 ->
    iter_inv es
      (mkTagIter buf (lens pre)
         (Some (ReadingTag (mkTagReader (frames es) (N.of_nat (length (frames pre) + SIZE_LEN + b))) b)))
      (reverse (pre ++ [e]).*1) (length e.2 - b + 1 + tag_cost pre)
| inv_done buf sizes : iter_inv es (mkTagIter buf sizes None) [] 1.

(** What a step from an invariant state may be. *)
Definition step_ok (es : list entry) (rem : list (Tag time)) (need : nat) (ev : io_event)
    (out : TagIter * arm) : Prop :=
  match out with
  | (it, Again) => exists need', iter_inv es it rem need' /\ need' < need /\ io_is_ready ev = true
  | (it, Return Pending) => iter_inv es it rem need /\ io_is_ready ev = false
  | (it, Return (Ready (Some item))) =>
      exists t rem' need', item = Ok t /\ rem = t :: rem' /\ iter_inv es it rem' need' /\
                           need' < need /\ io_is_ready ev = true
  | (_, Return (Ready None)) => rem = []
  | (_, Unwind) => False
  end.

Lemma tag_cost_snoc e es : tag_cost (es ++ [e]) = tag_cost (e :: es).
Proof. induction es as [|e' es IH]; simpl in *; lia. Qed.
Lemma lens_snoc e es : lens (es ++ [e]) = lens es ++ [N.of_nat (length e.2)].
Proof. unfold lens. by rewrite fmap_app. Qed.

Section steps.
Context (es : list entry) (Hes : Forall entry_ok es)
  (Hsize : (N.of_nat (length (frames es)) <= Z.to_N i64_max)%N).

(** At the end of the index the iterator seeks to the last tag. *)
Lemma index_end_step buf n :
  length buf = SIZE_LEN ->
  step_ok es (reverse es.*1) (1 + tag_cost es) (IoReady n)
    (poll_reading_index buf (lens es) (mkTagReader (frames es) (N.of_nat (length (frames es) + 0))) 0
       (IoReady n)).
Proof.
  intros Hbuf. unfold poll_reading_index. rewrite Hbuf.
  cbn [poll_read]. rewrite Nat.add_0_r. unfold available. cbn [pos content].
  rewrite N.min_id, Nat2N.id, drop_all, take_nil. cbn [length Nat.ltb Nat.leb Nat.eqb].
  destruct es as [|e' es' _] eqn:E using rev_ind; [done|]. rewrite <-E in *.
  assert (lens es = lens es' ++ [N.of_nat (length e'.2)]) as -> by by rewrite E, lens_snoc.
  rewrite vec_pop_snoc.
  assert (length (frames es) = length (frames es') + SIZE_LEN + length e'.2) as Hl.
  { rewrite E. apply length_frames_snoc. }
  rewrite last_tag_start_spec by (rewrite Hl in Hsize; lia).
  erewrite start_seek_ok with (target := N.of_nat (length (frames es') + SIZE_LEN));
    [|lia|rewrite Hl in Hsize; lia].
  exists (tag_cost (e' :: es')). split_and!; [|rewrite E, tag_cost_snoc; lia|done].
  rewrite E at 4. by apply inv_seeking_tag with (post := []).
Qed.

Lemma size_bits e pre post :
  es = pre ++ e :: post ->
  i64_of_bits (from_be_bytes (be_bytes SIZE_LEN (N.of_nat (length e.2)))) = Z.of_nat (length e.2) /\
  (N.of_nat (length (frames pre) + SIZE_LEN + length e.2) <= Z.to_N i64_max)%N.
Proof.
  intros E. assert (N.of_nat (length (frames pre) + SIZE_LEN + length e.2) <= Z.to_N i64_max)%N as Hle.
  { rewrite E, frames_app, length_app, length_frames_cons in Hsize. lia. }
  split; [|done]. unfold i64_max, SIZE_LEN in *.
  rewrite from_be_bytes_be_bytes by (change (256 ^ N.of_nat 8)%N with 18446744073709551616%N; lia).
  unfold i64_of_bits. rewrite (proj2 (N.ltb_lt _ _)) by lia. lia.
Qed.

(** Reading bytes of a size: the index grows when the size is complete. *)
Lemma index_step pre e post buf b n :
  es = pre ++ e :: post -> length buf = SIZE_LEN -> b < SIZE_LEN ->
  take b buf = take b (be_bytes SIZE_LEN (N.of_nat (length e.2))) ->
  step_ok es (reverse es.*1) (9 * length (e :: post) - b + 1 + tag_cost es) (IoReady n)
    (poll_reading_index buf (lens pre)
       (mkTagReader (frames es) (N.of_nat (length (frames pre) + b))) b (IoReady n)).
Proof.
  intros E Hbuf Hb Htake. set (block := be_bytes SIZE_LEN (N.of_nat (length e.2))) in *.
  assert (length block = SIZE_LEN) as Hblock by apply be_bytes_length.
  assert (frames es = frames pre ++ block ++ (e.2 ++ frames post)) as Hfr
    by by rewrite E, frames_app, frames_cons.
  destruct (size_bits e pre post E) as [Hbits Hle]. fold block in Hbits.
  destruct (read_block n block (e.2 ++ frames post) buf b ltac:(congruence) Htake ltac:(lia))
    as (Hpos & Hbound & Hfill & Hpre).
  unfold poll_reading_index. rewrite (proj2 (Nat.ltb_ge _ _)) by lia.
  rewrite Hfr at 1. rewrite poll_read_block. cbv zeta. rewrite <-Hfr.
  set (data := take (Nat.min _ _) _) in *. clearbody data.
  rewrite (proj2 (Nat.eqb_neq (length data) 0)) by lia. rewrite Hfill, Hblock in *.
  destruct (Nat.ltb_spec (b + length data) SIZE_LEN) as [Hlt|Hge].
  - exists (9 * length (e :: post) - (b + length data) + 1 + tag_cost es).
    split_and!; [|unfold SIZE_LEN in *; cbn [length]; lia|done]. rewrite <-(Nat.add_assoc (length (frames pre))).
    apply inv_reading_index with (post := e :: post); try done.
    intros e' post' [= <- <-]. done.
  - assert (b + length data = SIZE_LEN) as Heq by lia. rewrite Heq in *. rewrite Nat.eqb_refl. simpl negb.
    rewrite Hpre, take_ge, Hbits by lia. cbv iota.
    rewrite (proj2 (Z.ltb_ge _ 0)) by lia.
    erewrite start_seek_ok with (target := N.of_nat (length (frames (pre ++ [e]))));
      [|rewrite length_frames_snoc; simpl; lia|rewrite length_frames_snoc; lia].
    exists (1 + 9 * length post + 1 + tag_cost es). split_and!; [|unfold SIZE_LEN in *; cbn [length]; lia|done]. simpl content.
    replace (lens pre ++ [Z.to_N (Z.of_nat (length e.2))]) with (lens (pre ++ [e]))
      by (rewrite lens_snoc; do 2 f_equal; lia).
    apply inv_seeking_index with (post := post); [by rewrite E, <-(assoc_L (++))|].
    by rewrite Hfill.
Qed.

(** Reading bytes of a tag: it is yielded when complete, after seeking back to
    the tag before it. *)
Lemma tag_step pre e post buf b n :
  es = pre ++ e :: post -> length buf = length e.2 -> take b buf = take b e.2 ->
  b < length e.2 \/ b = 0 ->
  step_ok es (reverse (pre ++ [e]).*1) (length e.2 - b + 1 + tag_cost pre) (IoReady n)
    (poll_reading_tag buf (lens pre)
       (mkTagReader (frames es) (N.of_nat (length (frames pre) + SIZE_LEN + b))) b (IoReady n)).
Proof.
  intros E Hbuf Htake Hb. set (head := frames pre ++ be_bytes SIZE_LEN (N.of_nat (length e.2))).
  assert (frames es = head ++ e.2 ++ frames post) as Hfr.
  { unfold head. by rewrite E, frames_app, frames_cons, <-(assoc_L (++)). }
  assert (length head = length (frames pre) + SIZE_LEN) as Hhead
    by (unfold head; by rewrite length_app, be_bytes_length).
  destruct (size_bits e pre post E) as [_ Hle].
  destruct (read_block n e.2 (frames post) buf b Hbuf Htake ltac:(lia)) as (Hpos & Hbound & Hfill & Hpre).
  unfold poll_reading_tag. rewrite (proj2 (Nat.ltb_ge _ _)) by lia.
  rewrite Hfr at 1. rewrite <-Hhead, poll_read_block. cbv zeta. rewrite <-Hfr, Hhead.
  set (data := take (Nat.min _ _) _) in *. clearbody data. rewrite Hfill in *.
  destruct (Nat.ltb_spec (b + length data) (length e.2)) as [Hlt|Hge].
  { exists (length e.2 - (b + length data) + 1 + tag_cost pre). split_and!; [|lia|done].
    rewrite <-Nat.add_assoc. apply inv_reading_tag with (post := post); auto. }
  assert (b + length data = length e.2) as Heq by lia. rewrite <-Nat.add_assoc, Heq in *.
  rewrite take_ge, take_ge in Hpre by lia. rewrite Hpre.
  assert (entry_ok e) as (rest & ->)
    by (eapply Forall_forall; [exact Hes|]; rewrite E; set_solver).
  rewrite fmap_app, reverse_app. simpl.
  clear Hfill Hpos Htake Hfr Hhead head. destruct pre as [|e' pre' _] using rev_ind.
  { exists e.1, [], 1. split_and!; try done; [constructor|simpl; lia]. }
  rewrite lens_snoc, vec_pop_snoc. rewrite length_frames_snoc in *.
  assert (u64_add (u64_add (N.of_nat (length e.2)) (N.of_nat SIZE_LEN)) (N.of_nat (length e'.2)) =
          N.of_nat (length e.2 + SIZE_LEN + length e'.2)) as ->.
  { unfold i64_max in Hle.
    rewrite (u64_add_small (N.of_nat _)), u64_add_small by (unfold u64_max; lia). lia. }
  unfold u64_as_i64, i64_of_bits. unfold i64_max in Hle. rewrite (proj2 (N.ltb_lt _ _)) by lia.
  erewrite start_seek_ok with (target := N.of_nat (length (frames pre') + SIZE_LEN));
    [|simpl; lia|unfold i64_max; lia].
  exists e.1, (reverse (pre' ++ [e']).*1), (tag_cost (e' :: pre')).
  split_and!; try done; [|rewrite tag_cost_snoc; lia].
  apply inv_seeking_tag with (post := e :: post). by rewrite E, <-(assoc_L (++)).
Qed.

Lemma poll_arm_step it rem need ev :
  iter_inv es it rem need -> io_fine ev = true -> step_ok es rem need ev (poll_arm it ev).
Proof.
  intros Hinv Hev.
  destruct Hinv as [pre post buf b E Hbuf Hb Hend Htake|pre post buf E Hbuf|pre e post buf E
    |pre e post buf b E Hbuf Htake Hb|buf sizes]; cbn [poll_arm].
  - destruct ev as [| |n]; [|done|].
    + unfold poll_reading_index. rewrite (proj2 (Nat.ltb_ge _ _)) by lia. split; [|done].
      by constructor.
    + destruct post as [|e post].
      * rewrite app_nil_r in E. subst pre. rewrite Hend by done. by apply index_end_step.
      * apply index_step; eauto.
  - destruct ev as [| |n]; [|done|]; cbn [poll_complete]; [split; [by constructor|done]|].
    exists (9 * length post - 0 + 1 + tag_cost es). split_and!; [|lia|done].
    rewrite <-(Nat.add_0_r (length (frames pre))). constructor; try done.
    + unfold vec_resize. by rewrite <-Hbuf, take_ge, length_app, repeat_length, Nat.sub_diag by lia.
    + unfold SIZE_LEN. lia.
  - destruct ev as [| |n]; [|done|]; cbn [poll_complete]; [split; [by econstructor|done]|].
    exists (length e.2 - 0 + 1 + tag_cost pre). split_and!; [|simpl; lia|done].
    rewrite <-(Nat.add_0_r (length (frames pre) + SIZE_LEN)). apply inv_reading_tag with (post := post); auto.
    unfold vec_resize. rewrite Nat2N.id, length_app, length_take, repeat_length. lia.
  - destruct ev as [| |n]; [|done|by eapply tag_step].
    unfold poll_reading_tag. rewrite (proj2 (Nat.ltb_ge _ _)) by lia. split; [|done]. by econstructor.
  - done.
Qed.

(** The items yielded so far, and all of them once the responses suffice. *)
Lemma drain_spec evs it rem need :
  iter_inv es it rem need -> forallb io_fine evs = true ->
  (exists k, (drain it evs).1 = Ok <$> take k rem) /\
  ((drain it evs).2 = true -> (drain it evs).1 = Ok <$> rem) /\
  (need <= length (List.filter io_is_ready evs) -> (drain it evs).2 = true).
Proof.
  revert it rem need. induction evs as [|ev evs IH]; intros it rem need Hinv.
  { intros _. simpl. split_and!; [by exists 0|done|]. destruct Hinv; simpl; lia. }
  simpl. intros [Hev Hevs]%andb_true_iff. pose proof (poll_arm_step it rem need ev Hinv Hev) as Hs.
  destruct (poll_arm it ev) as [it' [|[|[item|]]|]]; simpl in Hs.
  - destruct Hs as (need' & Hinv' & Hlt & ->). destruct (IH _ _ _ Hinv' Hevs) as (? & ? & Hn).
    split_and!; [done..|]. simpl. intros. apply Hn. lia.
  - destruct Hs as (Hinv' & ->). by apply IH.
  - destruct Hs as (t & rem' & need' & -> & -> & Hinv' & Hlt & ->).
    destruct (IH _ _ _ Hinv' Hevs) as ([k Hk] & He & Hn).
    destruct (drain it' evs) as [items ended]; simpl in *. split_and!.
    + exists (S k). simpl. by rewrite Hk.
    + intros. by rewrite He.
    + intros. apply Hn. lia.
  - subst. split_and!; [by exists 0|done|done].
  - done.
Qed.
End steps.

(** ** Writing *)

Definition tag_entry (t : Tag time) : entry := (t, tag_bytes t).

Lemma be_bytes_mod k n : be_bytes k (n mod 256 ^ N.of_nat k) = be_bytes k n.
Proof.
  revert n. induction k as [|k IH]; intros n; [done|]. cbn [be_bytes].
  rewrite Nat2N.inj_succ, N.pow_succ_r', N.Div0.mod_mul_r by lia.
  rewrite (N.mul_comm 256), N.div_add by lia. rewrite N.Div0.mod_add, N.Div0.mod_mod.
  rewrite (N.div_small (n mod 256)) by by apply N.mod_lt. by rewrite N.add_0_l, IH.
Qed.

Lemma write_size n : be_bytes SIZE_LEN (i64_bits (Z.of_nat n)) = be_bytes SIZE_LEN (N.of_nat n).
Proof.
  rewrite <-(be_bytes_mod _ (N.of_nat n)). f_equal. unfold i64_bits, SIZE_LEN.
  change (256 ^ N.of_nat 8)%N with 18446744073709551616%N.
  rewrite Z2N.inj_mod by lia. f_equal. lia.
Qed.

Lemma write_tags_to_path_frames `{!TimestampLaws time} file tags :
  Forall (fun t => Tag_ok t = true) tags ->
  write_tags_to_path file tags = Ok (file ++ frames (tag_entry <$> tags)).
Proof.
  intros Hok. revert file. induction Hok as [|t tags Ht Hok IH]; intros file.
  { simpl. by rewrite app_nil_r. }
  cbn [write_tags_to_path]. rewrite Tag_encode_ok by done. cbn [mbind res_bind enc write_int app].
  unfold write_all. rewrite IH. f_equal. rewrite <-!(assoc_L (++)). f_equal.
  rewrite fmap_cons, frames_cons. f_equal. apply write_size.
Qed.

Lemma tag_entry_ok `{!TimestampLaws time} t : Tag_ok t = true -> entry_ok (tag_entry t).
Proof.
  intros Ht. exists []. simpl. rewrite <-(app_nil_r (tag_bytes t)). by apply Tag_decode_slice.
Qed.

Lemma tag_cost_bound es : tag_cost es <= length (frames es) + 2 * length es + 1.
Proof. induction es as [|e es IH]; [simpl; lia|]. rewrite length_frames_cons. simpl in *. lia. Qed.

Lemma drain_tag_file `{!TimestampLaws time} (tags : list (Tag time)) evs :
  Forall (fun t => Tag_ok t = true) tags -> forallb io_fine evs = true ->
  (N.of_nat (length (frames (tag_entry <$> tags))) <= Z.to_N i64_max)%N ->
  let '(items, ended) := drain (TagIter_new (mkTagReader (frames (tag_entry <$> tags)) 0)) evs in
  (exists k, items = Ok <$> take k (reverse tags)) /\
  (ended = true -> items = Ok <$> reverse tags) /\
  (length (frames (tag_entry <$> tags)) + 11 * length tags + 2 <= length (List.filter io_is_ready evs) ->
   ended = true).
Proof.
  intros Hok Hevs Hsize. set (es := tag_entry <$> tags) in *.
  assert (Forall entry_ok es) as Hes.
  { apply Forall_fmap. eapply Forall_impl; [exact Hok|]. intros. by apply tag_entry_ok. }
  assert (es.*1 = tags) as Htags by (unfold es; rewrite <-list_fmap_compose; apply list_fmap_id).
  assert (iter_inv es (TagIter_new (mkTagReader (frames es) 0)) (reverse tags)
            (9 * length es - 0 + 1 + tag_cost es)) as Hinv.
  { rewrite <-Htags. apply (inv_reading_index es [] es (repeat 0%N SIZE_LEN) 0); try done. unfold SIZE_LEN. lia. }
  destruct (drain_spec es Hes Hsize evs _ _ _ Hinv Hevs) as (Hk & He & Hn).
  destruct (drain _ evs) as [items ended]. simpl in *. split_and!; [done..|].
  intros Hlen. apply Hn. etrans; [|exact Hlen]. pose proof (tag_cost_bound es) as Hc.
  assert (length es = length tags) as Hl by apply length_fmap. lia.
Qed.

(** ** A file whose only tag is cut short *)
Section truncated.
Context (e : list N) (k : nat) (Hk : k < length e)
  (Hmax : (N.of_nat (SIZE_LEN + length e) <= Z.to_N i64_max)%N).
Definition cut_file : list N := be_bytes SIZE_LEN (N.of_nat (length e)) ++ take k e.

Inductive cut_inv : TagIter -> Prop :=
| cut_reading_size buf b :
    length buf = SIZE_LEN -> b < SIZE_LEN ->
    take b buf = take b (be_bytes SIZE_LEN (N.of_nat (length e))) ->
    cut_inv (mkTagIter buf [] (Some (ReadingIndex (mkTagReader cut_file (N.of_nat b)) b)))
| cut_seeking_index buf :
    length buf = SIZE_LEN ->
    cut_inv (mkTagIter buf [N.of_nat (length e)]
      (Some (SeekingIndex (mkTagReader cut_file (N.of_nat (SIZE_LEN + length e))))))
| cut_reading_end buf :
    length buf = SIZE_LEN ->
    cut_inv (mkTagIter buf [N.of_nat (length e)]
      (Some (ReadingIndex (mkTagReader cut_file (N.of_nat (SIZE_LEN + length e))) 0)))
| cut_seeking_tag buf :
    cut_inv (mkTagIter buf []
      (Some (SeekingTag (mkTagReader cut_file (N.of_nat SIZE_LEN)) (N.of_nat (length e)))))
| cut_reading_tag buf b :
    length buf = length e -> b <= k ->
    cut_inv (mkTagIter buf []
      (Some (ReadingTag (mkTagReader cut_file (N.of_nat (SIZE_LEN + b))) b))).

Lemma cut_length : length cut_file = SIZE_LEN + k.
Proof. unfold cut_file. rewrite length_app, be_bytes_length, length_take. lia. Qed.

Lemma cut_size_step buf b n :
  length buf = SIZE_LEN -> b < SIZE_LEN ->
  take b buf = take b (be_bytes SIZE_LEN (N.of_nat (length e))) ->
  exists it', cut_inv it' /\
    let out := poll_reading_index buf [] (mkTagReader cut_file (N.of_nat b)) b (IoReady n) in
    out = (it', Again) \/ out = (it', Return Pending).
Proof.
  intros Hbuf Hb Htake. cbv zeta. set (size := be_bytes SIZE_LEN (N.of_nat (length e))) in *.
  assert (length size = SIZE_LEN) as Hs by apply be_bytes_length.
  destruct (read_block n size (take k e) buf b ltac:(congruence) Htake ltac:(lia))
    as (Hpos & Hbound & Hfill & Hpre).
  unfold poll_reading_index. rewrite (proj2 (Nat.ltb_ge _ _)) by lia.
  change cut_file with ([] ++ size ++ take k e) at 1 2.
  rewrite <-(Nat.add_0_l b), (poll_read_block n []). cbv zeta.
  change ([] ++ size ++ take k e) with cut_file. rewrite !Nat.add_0_l.
  set (data := take (Nat.min _ _) _) in *. clearbody data.
  rewrite (proj2 (Nat.eqb_neq (length data) 0)) by lia. rewrite Hfill, Hs in *.
  destruct (Nat.ltb_spec (b + length data) SIZE_LEN) as [Hlt|Hge].
  { eexists. split; [|by left]. by constructor. }
  assert (b + length data = SIZE_LEN) as Heq by lia. rewrite Heq in *. rewrite Nat.eqb_refl.
  rewrite Hpre, take_ge by lia. unfold size. unfold SIZE_LEN, i64_max in Hmax.
  rewrite from_be_bytes_be_bytes
    by (change (256 ^ N.of_nat SIZE_LEN)%N with 18446744073709551616%N; lia).
  unfold i64_of_bits. rewrite (proj2 (N.ltb_lt _ _)) by lia. simpl negb. cbv iota.
  rewrite (proj2 (Z.ltb_ge _ 0)) by lia.
  erewrite start_seek_ok with (target := N.of_nat (SIZE_LEN + length e));
    [|simpl; lia|unfold SIZE_LEN, i64_max; lia].
  eexists. split; [|by left]. rewrite N2Z.id. by constructor.
Qed.

Lemma cut_step it ev :
  cut_inv it -> io_fine ev = true ->
  exists it', cut_inv it' /\ (poll_arm it ev = (it', Again) \/ poll_arm it ev = (it', Return Pending)).
Proof.
  intros Hinv Hev. destruct ev as [| |n]; [|done|].
  { exists it. split; [done|]. right.
    destruct Hinv; cbn [poll_arm]; unfold poll_reading_index, poll_reading_tag; try done;
      rewrite (proj2 (Nat.ltb_ge _ _)) by lia; done. }
  pose proof cut_length as Hlen. set (size := be_bytes SIZE_LEN (N.of_nat (length e))) in *.
  assert (length size = SIZE_LEN) as Hs by apply be_bytes_length.
  destruct Hinv as [buf b Hbuf Hb Htake|buf Hbuf|buf Hbuf|buf|buf b Hbuf Hb]; cbn [poll_arm].
  - by apply cut_size_step.
  - eexists. split; [|by left]. constructor. unfold vec_resize.
    by rewrite <-Hbuf, take_ge, length_app, repeat_length, Nat.sub_diag by lia.
  - unfold poll_reading_index. rewrite (proj2 (Nat.ltb_ge _ _)) by lia. cbn [poll_read].
    unfold available. cbn [pos content]. rewrite Hlen, N.min_r by lia.
    rewrite Nat2N.id, <-Hlen, drop_all, take_nil. cbn [length Nat.eqb vec_pop last removelast foldl].
    erewrite start_seek_ok with (target := N.of_nat SIZE_LEN); [|done|unfold SIZE_LEN, i64_max; lia].
    eexists. split; [|by left]. constructor.
  - eexists. split; [|by left]. rewrite <-(Nat.add_0_r SIZE_LEN). constructor; [|lia].
    unfold vec_resize. rewrite Nat2N.id, length_app, length_take, repeat_length. lia.
  - unfold poll_reading_tag. rewrite (proj2 (Nat.ltb_ge _ _)) by lia.
    pose proof (poll_read_block n size (take k e) [] b (length buf - b)) as Hread.
    rewrite app_nil_r, Hs in Hread. change (size ++ take k e) with cut_file in Hread.
    cbv zeta in Hread. rewrite Hread.
    set (data := take (Nat.min _ _) _).
    assert (b + length data <= k /\ length (fill buf b data) = length e) as [Hle Hfill].
    { assert (b + length data <= k)
        by (unfold data; rewrite length_take, length_drop, length_take; lia).
      split; [done|]. unfold fill. rewrite !length_app, length_take, length_drop. lia. }
    rewrite Hfill, (proj2 (Nat.ltb_lt _ _)) by lia. eexists. split; [|by left].
    rewrite <-Nat.add_assoc. by constructor.
Qed.

Lemma cut_drain it evs : cut_inv it -> forallb io_fine evs = true -> drain it evs = ([], false).
Proof.
  revert it. induction evs as [|ev evs IH]; intros it Hinv; [done|]. simpl.
  intros [Hev Hevs]%andb_true_iff.
  destruct (cut_step it ev Hinv Hev) as (it' & Hinv' & [-> | ->]); by apply IH.
Qed.
End truncated.
End iter.
Arguments arm time : clear implicits.

(** ** Properties *)

(** C30: tag files.  Writing tags (oldest first) to a fresh file of less than
    2^63 bytes and iterating it back, for every sequence of error-free I/O
    responses: the iterator never unwinds or fails, the tags it has yielded are
    a prefix of the written tags from newest to oldest, all of them once the
    stream has ended, and it has ended once as many responses were ready as the
    file has bytes, plus eleven per tag and two. *)
Theorem tag_file_roundtrip {time} `{!Timestamp time, !TimestampLaws time}
    (tags : list (Tag time)) (evs : list io_event) :
  Forall (fun t => Tag_ok t = true) tags -> forallb io_fine evs = true ->
  exists file,
    write_tags_to_path [] tags = Ok file /\
    ((N.of_nat (length file) <= Z.to_N i64_max)%N ->
     let '(items, ended) := drain (TagIter_new (mkTagReader file 0)) evs in
     (exists k, items = Ok <$> take k (reverse tags)) /\
     (ended = true -> items = Ok <$> reverse tags) /\
     (length file + 11 * length tags + 2 <= length (List.filter io_is_ready evs) -> ended = true)).
Proof.
  intros Hok Hevs. eexists. split; [by rewrite write_tags_to_path_frames|]. intros Hsize.
  by apply drain_tag_file.
Qed.

Definition sample_tag (n : N) : Tag seconds :=
  mkTag _ (mkSeconds n) None (lit "a") NULL_DIGEST NULL_DIGEST (lit "u").

Lemma tag_file_roundtrip_witness :
  exists file, write_tags_to_path [] [sample_tag 1; sample_tag 2] = Ok file /\
    let '(items, ended) := drain (TagIter_new (mkTagReader file 0)) (repeat (IoReady 100) 20) in
    items = [Ok (sample_tag 2); Ok (sample_tag 1)] /\ ended = true.
Proof.
  destruct (tag_file_roundtrip [sample_tag 1; sample_tag 2] (repeat (IoReady 100) 20)
    ltac:(repeat constructor) ltac:(reflexivity)) as (file & Hf & Hd).
  exists file. split; [exact Hf|]. assert (Hf' := Hf). vm_compute in Hf'. injection Hf' as <-.
  specialize (Hd ltac:(vm_compute; discriminate)). vm_compute. split; reflexivity.
Defined.

(** A tag file cut off inside its (only) tag.  Whatever the I/O responses,
    [TagIter] neither yields a tag, nor reports an error, nor ends: at the end
    of the file [ReadingTag] calls [poll_next] again without progress. *)
Theorem cut_tag_file_never_ends {time} `{!Timestamp time} (e : list N) (k : nat) (evs : list io_event) :
  k < length e -> (N.of_nat (SIZE_LEN + length e) <= Z.to_N i64_max)%N -> forallb io_fine evs = true ->
  drain (time := time) (TagIter_new (mkTagReader (cut_file e k) 0)) evs = ([], false).
Proof.
  intros Hk Hmax Hevs. apply (cut_drain e k); try done. apply (cut_reading_size e k (repeat 0%N SIZE_LEN) 0); try done.
  unfold SIZE_LEN. lia.
Qed.

Lemma cut_tag_file_never_ends_witness :
  drain (time := seconds) (TagIter_new (mkTagReader (cut_file [1; 2; 3]%N 2) 0)) (repeat (IoReady 9) 50) =
  ([], false).
Proof.
  apply (cut_tag_file_never_ends [1; 2; 3]%N 2); [simpl; lia|vm_compute; discriminate|reflexivity].
Defined.
