(* ===== verification/TagStorage.v ===== *)
(** * Tag storage

    Models the tag database of a file-system repository,
    crates/spfs/src/storage/fs/tag.rs, and the provided methods of the
    [TagStorage] trait, crates/spfs/src/storage/tag.rs.  The state is the tags
    directory: its files (tag files, lock files and working files) and its
    directories.  An operation maps a state to a result and a new state; the
    stream a tag file is read through is [TagFile.drain]. *)

From stdpp Require Import gmap.
From S2P Require Import Prelude Strings Encoding TagSpec Tags TagFile.

(** ** Paths

    A path below the tags directory, as its components from the file name up. *)
Abbreviation path := (list rstr).

Definition TAG_NAMESPACE_MARKER : rstr := lit "#ns".
Definition TAG_EXT : rstr := lit "tag".
Definition is_normal (component : rstr) : bool :=
  negb (bool_decide (component = lit ".")) && negb (bool_decide (component = lit "..")).

(** [PathBuf::set_file_name]. *)
Definition set_file_name (p : path) (name : rstr) : path :=
  match p with
  | c :: p' => if bool_decide (c = lit "..") then name :: p else name :: p'
  | [] => [name]
  end.

(** The lock and the working file of a tag file: [tag.lock] and [tag.work]
    replace the extension [tag]. *)
Definition lock_path (p : path) : path :=
  match p with c :: p => (c ++ lit ".lock") :: p | [] => [] end.
Definition working_path (p : path) : path :=
  match p with c :: p => (c ++ lit ".work") :: p | [] => [] end.

Inductive StorageError :=
| UnknownReference (spec : rstr)
| AlreadyLocked
| LockError
| StorageWriteError
| StorageTag (e : TagError)
| StorageFile (e : TagFileError).

(** The directory tree below [tags] and the repository's tag namespace. *)
Record repo := mkRepo {
  files : gmap path (list N);
  dirs : gset path;
  tag_namespace : option rstr;
}.

(** Operations that change the tree whether or not they succeed. *)
Definition M (A : Type) : Type := repo -> res StorageError A * repo.
#[export] Instance M_ret : MRet M := fun A a s => (Ok a, s).
#[export] Instance M_bind : MBind M := fun A B f m s =>
  match m s with
  | (Ok a, s) => f a s
  | (Err e, s) => (Err e, s)
  | (Panicked, s) => (Panicked, s)
  end.
Definition lift {A} (r : res StorageError A) : M A := fun s => (r, s).
Definition tag_err {A} (r : res TagError A) : res StorageError A :=
  match r with Ok a => Ok a | Err e => Err (StorageTag e) | Panicked => Panicked end.

Definition set_files (f : gmap path (list N)) (s : repo) : repo :=
  mkRepo f (dirs s) (tag_namespace s).

(** The directories that have to exist for a path to. *)
Fixpoint ancestors (p : path) : list path :=
  match p with [] => [] | _ :: p => p :: ancestors p end.

(** [makedirs_with_perms] of the parent. *)
Definition makedirs_parent (p : path) : M unit := fun s =>
  (Ok tt, mkRepo (files s) (dirs s ∪ list_to_set (ancestors p)) (tag_namespace s)).

Definition parent_exists (p : path) (s : repo) : bool := bool_decide (tail p ∈ dirs s).

(** [TagLock::new]: create the lock file exclusively; when it exists until the
    time limit, or its directory is missing, that is an error. *)
Definition TagLock_new (p : path) : M unit := fun s =>
  if negb (parent_exists p s) then (Err LockError, s)
  else if bool_decide (is_Some (files s !! lock_path p)) then (Err AlreadyLocked, s)
  else (Ok tt, set_files (<[lock_path p := []]> (files s)) s).
(** [Drop for TagLock], and [TagLock::remove]. *)
Definition TagLock_drop (p : path) (s : repo) : repo := set_files (delete (lock_path p) (files s)) s.

(** Run [body] with the lock held; it is dropped however [body] ends. *)
Definition with_lock {A} (p : path) (body : M A) : M A := fun s =>
  match TagLock_new p s with
  | (Ok _, s) => let '(r, s) := body s in (r, TagLock_drop p s)
  | (Err e, s) => (Err e, s)
  | (Panicked, s) => (Panicked, s)
  end.

(** [tokio::fs::remove_file]; [None] when the file is missing. *)
Definition remove_file (p : path) (s : repo) : option repo :=
  match files s !! p with Some _ => Some (set_files (delete p (files s)) s) | None => None end.

Section storage.
Context {time : Type} `{!Timestamp time, !Cmp time, !EqDecision time}.
(** The components [RelativePath::components] finds in a relative path. *)
Context (rel_components : rstr -> list rstr).

Definition tags_root_in_namespace (namespace : option rstr) : path :=
  match namespace with
  | Some ns =>
      foldl (fun root component => (component ++ TAG_NAMESPACE_MARKER) :: root) []
        (List.filter is_normal (rel_components ns))
  | None => []
  end.

(** [TagExt::to_path]; the components [.] disappear in a path. *)
Definition TagSpec_to_path (self : TagSpec) (root : path) : path :=
  let filepath :=
    reverse (List.filter (fun c => negb (bool_decide (c = lit "."))) (rel_components (TagSpec_path self)))
      ++ root in
  set_file_name filepath (ts_name self ++ [c_dot] ++ TAG_EXT).

(** [read_tag_file]: the items the stream yields.  Twelve responses per byte
    and two are enough to index and read any file of tags. *)
Definition read_tag_file (file : list N) : list (res TagFileError (Tag time)) * bool :=
  drain (TagIter_new (mkTagReader file 0)) (repeat (IoReady (length file)) (12 * length file + 2)).

(** [read_tag_in_namespace]. *)
Definition read_tag_in_namespace (namespace : option rstr) (tag : TagSpec) :
    M (list (res TagFileError (Tag time)) * bool) := fun s =>
  let path := TagSpec_to_path tag (tags_root_in_namespace namespace) in
  match files s !! path with
  | None => (Err (UnknownReference (TagSpec_to_string tag)), s)
  | Some file => (Ok (read_tag_file file), s)
  end.

(** [read_tag]. *)
Definition read_tag (tag : TagSpec) : M (list (res TagFileError (Tag time)) * bool) := fun s =>
  read_tag_in_namespace (tag_namespace s) tag s.

(** [write_tags]: through the working file, which [write_tags_to_path] opens
    for appending; no tags remove the file. *)
Definition write_tags (original : path) (tags : list (Tag time)) : M unit := fun s =>
  let working := working_path original in
  match tags with
  | [] =>
      match remove_file original s with
      | Some s => (Ok tt, s)
      | None => (Err StorageWriteError, s)
      end
  | _ =>
      match write_tags_to_path (default [] (files s !! working)) tags with
      | Ok file => (Ok tt, set_files (<[original := file]> (delete working (files s))) s)
      | Err e => (Err (StorageTag e), set_files (delete working (files s)) s)
      | Panicked => (Panicked, s)
      end
  end.

(** The loop of [insert_tag_in_namespace] over the stream, newest first, that
    rebuilds the file's tags, oldest first; [None] when the tag is present. *)
Fixpoint insert_loop (tag : Tag time) (stream : list (res TagFileError (Tag time)))
    (tags : list (Tag time)) (inserted : bool) : res StorageError (option (list (Tag time))) :=
  match stream with
  | [] => Ok (Some (if inserted then tags else tag :: tags))
  | Err e :: _ => Err (StorageFile e)
  | Panicked :: _ => Panicked
  | Ok next :: stream =>
      if inserted then insert_loop tag stream (next :: tags) true
      else match cmp next tag with
           | Lt => insert_loop tag stream (next :: tag :: tags) true
           | Gt => insert_loop tag stream (next :: tags) false
           | Eq => Ok None
           end
  end.

(** A stream that never ends never lets its reader go on. *)
Definition if_ended {A} (ended : bool) (r : res StorageError A) : res StorageError A :=
  match r with Ok a => if ended then Ok a else Panicked | r => r end.

(** [insert_tag_in_namespace]. *)
Definition insert_tag_in_namespace (namespace : option rstr) (tag : Tag time) : M unit :=
  tag_spec ← lift (tag_err (spec_err (build_tag_spec (tag_org tag) (tag_name tag) 0)));
  let filepath := TagSpec_to_path tag_spec (tags_root_in_namespace namespace) in
  makedirs_parent filepath;;
  with_lock filepath (fun s =>
    match read_tag_in_namespace namespace tag_spec s with
    | (Ok (stream, ended), s) =>
        match insert_loop tag stream [] false with
        | Ok None => (Ok tt, s)
        | r => match if_ended ended r with
               | Ok (Some tags) => write_tags filepath tags s
               | Ok None => (Ok tt, s)
               | Err e => (Err e, s)
               | Panicked => (Panicked, s)
               end
        end
    | (Err (UnknownReference _), s) => write_tags filepath [tag] s
    | (Err e, s) => (Err e, s)
    | (Panicked, s) => (Panicked, s)
    end).

Definition insert_tag (tag : Tag time) : M unit := fun s =>
  insert_tag_in_namespace (tag_namespace s) tag s.

(** The loop of [remove_tag_in_namespace]. *)
Fixpoint remove_loop (tag : Tag time) (stream : list (res TagFileError (Tag time)))
    (tags : list (Tag time)) : res StorageError (list (Tag time)) :=
  match stream with
  | [] => Ok tags
  | Err e :: _ => Err (StorageFile e)
  | Panicked :: _ => Panicked
  | Ok next :: stream => remove_loop tag stream (if decide (next = tag) then tags else next :: tags)
  end.

(** [remove_tag_in_namespace]: the stream it filters is [read_tag]'s, of the
    repository's namespace. *)
Definition remove_tag_in_namespace (namespace : option rstr) (tag : Tag time) : M unit :=
  tag_spec ← lift (tag_err (spec_err (build_tag_spec (tag_org tag) (tag_name tag) 0)));
  let filepath := TagSpec_to_path tag_spec (tags_root_in_namespace namespace) in
  with_lock filepath (
    stream ← read_tag tag_spec;
    tags ← lift (if_ended stream.2 (remove_loop tag stream.1 []));
    write_tags filepath tags).

Definition remove_tag (tag : Tag time) : M unit := fun s =>
  remove_tag_in_namespace (tag_namespace s) tag s.

(** Is the directory empty? *)
Definition dir_is_empty (d : path) (s : repo) : bool :=
  forallb (fun p => negb (bool_decide (tail p = d)) || bool_decide (p = []))
    ((map_to_list (files s)).*1 ++ elements (dirs s)).

(** The loop that removes the parents that became empty, up to [root]. *)
Fixpoint remove_empty_parents (root : path) (filepath : path) (s : repo) : repo :=
  match filepath with
  | [] => s
  | _ :: parent =>
      if bool_decide (parent = root) then s
      else if negb (bool_decide (parent ∈ dirs s)) then s
      else if dir_is_empty parent s
      then remove_empty_parents root parent (mkRepo (files s) (dirs s ∖ {[parent]}) (tag_namespace s))
      else s
  end.

(** [remove_tag_stream_in_namespace]. *)
Definition remove_tag_stream_in_namespace (namespace : option rstr) (tag : TagSpec) : M unit :=
  tag_spec ← lift (tag_err (spec_err (build_tag_spec (ts_org tag) (ts_name tag) 0)));
  let root := tags_root_in_namespace namespace in
  let filepath := TagSpec_to_path tag_spec root in
  (fun s : repo =>
    match with_lock filepath (fun s =>
        match remove_file filepath s with
        | Some s => (Ok tt, s)
        | None => (Err (UnknownReference (TagSpec_to_string tag)), s)
        end) s with
    | (Err LockError, s) => (Err (UnknownReference (TagSpec_to_string tag)), s)
    | (Ok _, s) => (Ok tt, remove_empty_parents root filepath s)
    | r => r
    end) : M unit.

(** [resolve_tag_in_namespace]: the loop over the enumerated stream. *)
Fixpoint resolve_loop (tag_spec : TagSpec) (version : N) (stream : list (res TagFileError (Tag time)))
    (ended : bool) : res StorageError (Tag time) :=
  match stream with
  | [] => if ended then Err (UnknownReference (TagSpec_to_string tag_spec)) else Panicked
  | Err e :: _ => Err (StorageFile e)
  | Panicked :: _ => Panicked
  | Ok tag :: stream =>
      if (ts_version tag_spec =? version)%N then Ok tag
      else resolve_loop tag_spec (version + 1) stream ended
  end.

Definition resolve_tag_in_namespace (namespace : option rstr) (tag_spec : TagSpec) : M (Tag time) :=
  stream ← read_tag_in_namespace namespace tag_spec;
  lift (resolve_loop tag_spec 0 stream.1 stream.2).

Definition resolve_tag (tag_spec : TagSpec) : M (Tag time) := fun s =>
  resolve_tag_in_namespace (tag_namespace s) tag_spec s.

Definition has_tag (tag_spec : TagSpec) (s : repo) : bool := res_is_ok (resolve_tag tag_spec s).1.

(** [push_tag]. *)
Definition push_tag (sha256 : list N -> Digest) (config_user : res TagError rstr) (now : time)
    (tag : TagSpec) (target : Digest) : M (Tag time) := fun s =>
  let push parent_ref :=
    (new_tag ← lift (tag_err (Tag_new config_user now (ts_org tag) (ts_name tag) target));
     let new_tag := mkTag _ (tag_time new_tag) (tag_org new_tag) (tag_name new_tag) (tag_target new_tag)
                      parent_ref (tag_user new_tag) in
     insert_tag new_tag;; mret new_tag) in
  match resolve_tag tag s with
  | (Ok parent, s) =>
      if decide (tag_target parent = target) then (Ok parent, s)
      else (parent_ref ← lift (tag_err (Tag_digest sha256 parent)); push parent_ref) s
  | (Err _, s) => push NULL_DIGEST s
  | (Panicked, s) => (Panicked, s)
  end.
End storage.
