(* ===== verification/TagTheory.v ===== *)
(** * Tag storage refines a database of sorted tag streams

    The abstract database maps a tag's path to its stream, newest tag first.
    The operations of [TagStorage] on a directory tree are simulated by the
    obvious operations on such a map. *)

From stdpp Require Import gmap.
From S2P Require Import Prelude Strings Names Encoding TagSpec Tags TagFile TagStorage.

(** ** The abstract database *)

Abbreviation tagdb time := (gmap path (list (Tag time))).

Section spec.
Context {time : Type} `{!Timestamp time, !Cmp time, !EqDecision time}.

Definition newer (x y : Tag time) : Prop := cmp x y = Gt.

(** Insertion in order, newest first; a tag that is present stays as it is. *)
Fixpoint tag_insert (t : Tag time) (l : list (Tag time)) : list (Tag time) :=
  match l with
  | [] => [t]
  | x :: l' =>
      match cmp x t with
      | Lt => t :: l
      | Gt => x :: tag_insert t l'
      | Eq => l
      end
  end.

Definition db_insert (p : path) (t : Tag time) (db : tagdb time) : tagdb time :=
  <[p := tag_insert t (default [] (db !! p))]> db.
(** An empty stream does not exist. *)
Definition db_put (p : path) (l : list (Tag time)) (db : tagdb time) : tagdb time :=
  match l with [] => delete p db | _ => <[p := l]> db end.
(** ** What a tree of files stands for *)

(** The file of a stream: its tags from oldest to newest. *)
Definition file_of (l : list (Tag time)) : list N := frames (tag_entry <$> reverse l).
Definition stream_ok (l : list (Tag time)) : Prop :=
  l <> [] /\ Forall (fun t => Tag_ok t = true) l /\ StronglySorted newer l /\
  (N.of_nat (length (file_of l)) <= Z.to_N i64_max)%N.

Definition is_tag_path (p : path) : Prop := exists name parent, p = (name ++ lit ".tag") :: parent.

(** The tree holds exactly the streams of [db]: no lock or working file is
    left, every directory on the way to a file exists. *)
Record represents (s : repo) (db : tagdb time) : Prop := {
  rep_files : files s = file_of <$> db;
  rep_streams p l : db !! p = Some l -> stream_ok l /\ is_tag_path p /\ tail p ∈ dirs s;
}.
End spec.

(** ** Facts about the abstract database *)

Section spec_facts.
Context {time : Type} `{!Timestamp time} `{!Cmp time, !CmpLaws time, !CmpLeibniz time, !EqDecision time}.
Implicit Types (t x : Tag time) (l : list (Tag time)).

Lemma elem_of_tag_insert t l x : x ∈ tag_insert t l <-> x = t \/ x ∈ l.
Proof.
  induction l as [|y l IH]; simpl; [set_solver|]. destruct (cmp y t) eqn:E.
  - apply cmp_eq in E as ->. set_solver.
  - set_solver.
  - rewrite !elem_of_cons, IH. tauto.
Qed.

Lemma newer_trans x y z : newer x y -> newer y z -> newer x z.
Proof. unfold newer. rewrite !cmp_gt_lt. intros ??. by eapply cmp_lt_trans. Qed.

Lemma tag_insert_sorted t l : StronglySorted newer l -> StronglySorted newer (tag_insert t l).
Proof.
  induction 1 as [|x l Hl IH Hx]; simpl; [by repeat constructor|]. destruct (cmp x t) eqn:E.
  - by constructor.
  - constructor; [by constructor|]. apply cmp_gt_lt in E. constructor; [done|].
    eapply Forall_impl; [exact Hx|]. intros. by eapply newer_trans.
  - constructor; [done|]. apply Forall_forall. intros y [-> |Hy]%elem_of_tag_insert; [done|].
    by eapply Forall_forall in Hx.
Qed.

Lemma tag_insert_present t l : StronglySorted newer l -> t ∈ l -> tag_insert t l = l.
Proof.
  induction 1 as [|x l Hl IH Hx]; [by intros ?%elem_of_nil|]. intros [-> |Ht]%elem_of_cons; simpl.
  - by rewrite cmp_refl.
  - eapply Forall_forall in Hx; [|exact Ht]. rewrite Hx. by rewrite IH.
Qed.

Lemma tag_insert_newest t l : Forall (newer t) l -> tag_insert t l = t :: l.
Proof. destruct l as [|x l]; [done|]. intros [Hx _]%Forall_cons. apply cmp_gt_lt in Hx. simpl. by rewrite Hx. Qed.

Lemma sorted_filter f l : StronglySorted newer l -> StronglySorted newer (List.filter f l).
Proof.
  induction 1 as [|x l Hl IH Hx]; simpl; [constructor|]. case_match; [|done]. constructor; [done|].
  apply Forall_forall. intros y Hy. apply list_elem_of_In, filter_In in Hy as [Hy _].
  eapply Forall_forall; [exact Hx|]. by apply list_elem_of_In.
Qed.

(** ** The loops on streams *)

Lemma insert_loop_rest t l acc : insert_loop t (Ok <$> l) acc true = Ok (Some (reverse l ++ acc)).
Proof.
  revert acc. induction l as [|x l IH]; intros acc; simpl; [done|].
  by rewrite IH, reverse_cons, <-(assoc_L (++)).
Qed.

Lemma insert_loop_spec t l acc :
  StronglySorted newer l ->
  insert_loop t (Ok <$> l) acc false =
  Ok (if decide (t ∈ l) then None else Some (reverse (tag_insert t l) ++ acc)).
Proof.
  intros Hl. revert acc. induction Hl as [|x l Hl IH Hx]; intros acc;
    cbn [fmap list_fmap insert_loop tag_insert].
  { by rewrite decide_False by by intros ?%elem_of_nil. }
  destruct (cmp x t) eqn:E.
  - apply cmp_eq in E as ->. rewrite decide_True; [done|]. set_solver.
  - rewrite insert_loop_rest, decide_False.
    + by rewrite !reverse_cons, <-!(assoc_L (++)).
    + intros [-> |Ht]%elem_of_cons; [by rewrite cmp_refl in E|].
      eapply Forall_forall in Hx; [|exact Ht]. unfold newer in Hx. congruence.
  - rewrite IH. assert (t ∈ x :: l <-> t ∈ l) as Hiff.
    { rewrite elem_of_cons. split; [|tauto]. intros [-> |]; [|done]. by rewrite cmp_refl in E. }
    destruct (decide (t ∈ l)); [by rewrite decide_True by tauto|].
    rewrite decide_False by tauto. by rewrite reverse_cons, <-(assoc_L (++)).
Qed.

Lemma remove_loop_spec t l acc :
  remove_loop t (Ok <$> l) acc =
  Ok (reverse (List.filter (fun x => negb (bool_decide (x = t))) l) ++ acc).
Proof.
  revert acc. induction l as [|x l IH]; intros acc; cbn [fmap list_fmap remove_loop List.filter]; [done|].
  rewrite IH. destruct (decide (x = t)).
  { by rewrite bool_decide_true. }
  rewrite bool_decide_false by done. cbn [negb].
  by rewrite reverse_cons, <-(assoc_L (++)).
Qed.

Lemma resolve_loop_spec spec n l :
  (n <= ts_version spec)%N ->
  resolve_loop spec n (Ok <$> l) true =
  match l !! N.to_nat (ts_version spec - n) with
  | Some t => Ok t
  | None => Err (UnknownReference (TagSpec_to_string spec))
  end.
Proof.
  revert n. induction l as [|x l IH]; intros n Hn; cbn [fmap list_fmap resolve_loop]; [by rewrite lookup_nil|].
  destruct (N.eqb_spec (ts_version spec) n) as [->|Hne].
  - by rewrite N.sub_diag.
  - rewrite IH by lia. replace (N.to_nat (ts_version spec - n)) with
      (S (N.to_nat (ts_version spec - (n + 1)))) by lia. done.
Qed.

(** Reading the file of a stream. *)
Lemma read_tag_file_spec `{!TimestampLaws time} l :
  stream_ok l -> read_tag_file (file_of l) = (Ok <$> l, true).
Proof.
  intros (_ & Hok & _ & Hsize). unfold read_tag_file, file_of in *.
  set (n := 12 * _ + 2). set (evs := repeat _ n).
  pose proof (drain_tag_file (reverse l) evs) as H.
  destruct (drain _ evs) as [items ended]. destruct H as (_ & He & Hn).
  - by apply Forall_reverse.
  - unfold evs. generalize n. induction n0; simpl; done.
  - done.
  - assert (ended = true) as ->.
    { apply Hn. assert (length (List.filter io_is_ready evs) = n) as ->.
      { unfold evs. generalize n. induction n0 as [|k IH]; simpl; [done|]. by rewrite IH. }
      assert (forall es : list (Tag time * list N), length es <= length (frames es)) as Hle.
      { induction es as [|e es IH]; [simpl; lia|]. rewrite length_frames_cons. unfold SIZE_LEN. simpl. lia. }
      specialize (Hle (tag_entry <$> reverse l)). rewrite length_fmap in Hle. lia. }
    by rewrite He, reverse_involutive by done.
Qed.
End spec_facts.

(** ** Paths *)

Lemma tag_path_to_path rel_components spec root : is_tag_path (TagSpec_to_path rel_components spec root).
Proof.
  unfold is_tag_path, TagSpec_to_path, set_file_name. repeat case_match; eexists _, _; done.
Qed.

Lemma suffix_last (s : rstr) (c : char) w : last (s ++ w ++ [c]) = Some c.
Proof. by rewrite (assoc_L (++)), last_snoc. Qed.

Lemma lock_path_not_tag p : is_tag_path p -> ~ is_tag_path (lock_path p).
Proof.
  intros (name & q & ->) (name' & q' & [= E _]). apply (f_equal last) in E.
  change (lit ".lock") with (lit ".loc" ++ [107%N]) in E.
  change (lit ".tag") with (lit ".ta" ++ [103%N]) in E at 2. by rewrite !suffix_last in E.
Qed.

Lemma working_path_not_tag p : is_tag_path p -> ~ is_tag_path (working_path p).
Proof.
  intros (name & q & ->) (name' & q' & [= E _]). apply (f_equal last) in E.
  change (lit ".work") with (lit ".wor" ++ [107%N]) in E.
  change (lit ".tag") with (lit ".ta" ++ [103%N]) in E at 2. by rewrite !suffix_last in E.
Qed.

Lemma lock_not_working p : is_tag_path p -> lock_path p <> working_path p.
Proof. intros (name & q & ->) [= E%app_inv_head]. done. Qed.

(** ** Simulation *)

Section simulation.
Context {time : Type} `{!Timestamp time, !TimestampLaws time}
  `{!Cmp time, !CmpLaws time, !CmpLeibniz time, !EqDecision time}.
Context (rel_components : rstr -> list rstr).
Implicit Types (t x : Tag time) (l : list (Tag time)) (db : tagdb time) (s : repo) (p : path).

Abbreviation locate ns spec := (TagSpec_to_path rel_components spec (tags_root_in_namespace rel_components ns)).

Lemma represents_lookup s db p : represents s db -> files s !! p = file_of <$> db !! p.
Proof. intros [-> _]. by rewrite lookup_fmap. Qed.

Lemma represents_no_file s db p : represents s db -> ~ is_tag_path p -> files s !! p = None.
Proof.
  intros Hr Hp. rewrite (represents_lookup s db) by done. destruct (db !! p) as [l|] eqn:E; [|done].
  apply (rep_streams _ _ Hr) in E as (_ & ? & _). done.
Qed.

(** The state inside the lock. *)
Definition locked p s : repo := set_files (<[lock_path p := []]> (files s)) s.

Lemma with_lock_represents {A} p (body : M A) s db :
  represents s db -> is_tag_path p -> tail p ∈ dirs s ->
  with_lock p body s = let '(r, s') := body (locked p s) in (r, TagLock_drop p s').
Proof.
  intros Hr Hp Hd. unfold with_lock, TagLock_new, parent_exists.
  rewrite bool_decide_true by done. cbn [negb].
  rewrite (represents_no_file s db (lock_path p)) by auto using lock_path_not_tag.
  by rewrite bool_decide_false by by intros [? ?].
Qed.

(** Dropping the lock gives back the tree. *)
Lemma drop_locked p s db :
  represents s db -> is_tag_path p -> TagLock_drop p (locked p s) = s.
Proof.
  intros Hr Hp. unfold TagLock_drop, locked, set_files. simpl. destruct s as [f d n]. simpl. f_equal.
  apply delete_insert_id. by eapply (represents_no_file (mkRepo f d n)), lock_path_not_tag.
Qed.

(** Writing a stream inside the lock, then dropping the lock. *)
Lemma write_tags_locked p l s db :
  represents s db -> is_tag_path p -> tail p ∈ dirs s -> stream_ok l ->
  exists s', write_tags p (reverse l) (locked p s) = (Ok tt, s') /\
    represents (TagLock_drop p s') (<[p := l]> db) /\
    tag_namespace (TagLock_drop p s') = tag_namespace s.
Proof.
  intros Hr Hp Hd Hl. pose proof Hl as (Hne & Hok & _ & _).
  unfold write_tags. destruct (reverse l) as [|x k] eqn:E.
  { by apply (f_equal reverse) in E; rewrite reverse_involutive in E. }
  rewrite <-E. clear x k E. cbn [locked set_files files].
  assert (files s !! working_path p = None) as Hw
    by (eapply represents_no_file; [done|by apply working_path_not_tag]).
  rewrite lookup_insert_ne by by apply lock_not_working.
  rewrite Hw. simpl default. rewrite write_tags_to_path_frames by by apply Forall_reverse.
  eexists. split_and!; [done| |done]. unfold TagLock_drop, set_files. simpl.
  assert (lock_path p <> p) by (intros E; apply (lock_path_not_tag p); congruence).
  assert (files s !! lock_path p = None) as Hlock
    by (eapply represents_no_file; [done|by apply lock_path_not_tag]).
  split; simpl.
  - rewrite delete_insert_ne by done.
    rewrite delete_delete, delete_insert_eq. 
    rewrite (delete_id _ (lock_path p)), (delete_id _ (working_path p)) by done.
    rewrite (rep_files _ _ Hr), fmap_insert. done.
  - intros q k [[<- <-]|[Hq Hk]]%lookup_insert_Some; [done|]. by apply (rep_streams _ _ Hr).
Qed.

(** Reading in a tree that holds the database, locked or not. *)
Lemma read_represents ns spec s db :
  represents s db ->
  read_tag_in_namespace (time := time) rel_components ns spec s =
  (match db !! locate ns spec with
   | Some l => Ok (Ok <$> l, true)
   | None => Err (UnknownReference (TagSpec_to_string spec))
   end, s).
Proof.
  intros Hr. unfold read_tag_in_namespace. rewrite (represents_lookup s db) by done.
  destruct (db !! _) as [l|] eqn:E; simpl; [|done].
  apply (rep_streams _ _ Hr) in E as (Hl & _). by rewrite read_tag_file_spec.
Qed.

Lemma read_locked ns ns' spec spec' s db :
  represents s db ->
  read_tag_in_namespace (time := time) rel_components ns spec (locked (locate ns' spec') s) =
  (match db !! locate ns spec with
   | Some l => Ok (Ok <$> l, true)
   | None => Err (UnknownReference (TagSpec_to_string spec))
   end, locked (locate ns' spec') s).
Proof.
  intros Hr. unfold read_tag_in_namespace. cbn [locked set_files files].
  rewrite lookup_insert_ne.
  2:{ intros E. apply (lock_path_not_tag (locate ns' spec')); [|rewrite E]; apply tag_path_to_path. }
  pose proof (read_represents ns spec s db Hr) as Hread. unfold read_tag_in_namespace in Hread.
  destruct (files s !! _), (db !! _); simplify_eq/=; congruence.
Qed.

Lemma represents_makedirs s db p :
  represents s db ->
  exists s', makedirs_parent p s = (Ok tt, s') /\ represents s' db /\ (p <> [] -> tail p ∈ dirs s') /\
             tag_namespace s' = tag_namespace s.
Proof.
  intros Hr. eexists. split_and!; [done| | |done].
  - split; simpl; [apply (rep_files _ _ Hr)|]. intros q l Hq. apply (rep_streams _ _ Hr) in Hq. set_solver.
  - intros Hp. destruct p as [|c p]; [done|]. simpl. set_solver.
Qed.

Lemma tag_to_spec_build t :
  TagSpec_ok (Tag_to_spec t 0) ->
  tag_err (spec_err (build_tag_spec (tag_org t) (tag_name t) 0)) = Ok (Tag_to_spec t 0).
Proof. intros Ht. apply build_tag_spec_ok in Ht. simpl in Ht. by rewrite Ht. Qed.

Lemma tag_path_nonempty p : is_tag_path p -> p <> [].
Proof. by intros (? & ? & ->). Qed.

(** Insertion. *)
Lemma insert_sim s db ns t :
  let p := locate ns (Tag_to_spec t 0) in
  represents s db -> TagSpec_ok (Tag_to_spec t 0) -> Tag_ok t = true ->
  (N.of_nat (length (file_of (tag_insert t (default [] (db !! p))))) <= Z.to_N i64_max)%N ->
  exists s', insert_tag_in_namespace rel_components ns t s = (Ok tt, s') /\
             represents s' (db_insert p t db) /\ tag_namespace s' = tag_namespace s.
Proof.
  intros p Hr Hspec Hok Hsize. pose proof (tag_path_to_path rel_components (Tag_to_spec t 0)
    (tags_root_in_namespace rel_components ns)) as Hp. fold p in Hp.
  unfold insert_tag_in_namespace, mbind, M_bind, lift. rewrite tag_to_spec_build by done. fold p.
  destruct (represents_makedirs s db p Hr) as (s1 & -> & Hr1 & Hd%(fun H => H (tag_path_nonempty p Hp)) & Hn).
  rewrite (with_lock_represents _ _ _ db) by done. cbv beta.
  pose proof (read_locked ns ns (Tag_to_spec t 0) (Tag_to_spec t 0) s1 db Hr1) as Hread.
  fold p in Hread. rewrite Hread. clear Hread.
  unfold db_insert. destruct (db !! p) as [l|] eqn:E; simpl default in *.
  - pose proof (rep_streams _ _ Hr1 p l E) as ((Hne & Hlok & Hsort & Hlsize) & _ & _).
    rewrite insert_loop_spec by done. destruct (decide (t ∈ l)).
    + rewrite tag_insert_present, insert_id by done. rewrite (drop_locked p s1 db) by done. eauto.
    + cbn [if_ended]. rewrite app_nil_r.
      destruct (write_tags_locked p (tag_insert t l) s1 db) as (s2 & -> & Hr2 & Hn2); try done.
      { split_and!; try done; [|apply Forall_forall|by apply tag_insert_sorted].
        - destruct l as [|x l]; simpl; [done|]. by case_match.
        - intros x [-> |Hx]%elem_of_tag_insert; [done|]. by eapply Forall_forall in Hlok. }
      rewrite <-Hn. eauto.
  - destruct (write_tags_locked p [t] s1 db) as (s2 & Hw & Hr2 & Hn2); try done.
    { split_and!; try done; [by constructor|by repeat constructor]. }
    change (reverse [t]) with [t] in Hw. rewrite Hw, <-Hn. eauto.
Qed.

(** Resolution. *)
Lemma resolve_sim s db ns spec :
  represents s db ->
  resolve_tag_in_namespace rel_components ns spec s =
  (match db !! locate ns spec ≫= (.!! N.to_nat (ts_version spec)) with
   | Some t => Ok t
   | None => Err (UnknownReference (TagSpec_to_string spec))
   end, s).
Proof.
  intros Hr. unfold resolve_tag_in_namespace, mbind at 1, M_bind.
  rewrite (read_represents ns spec s db Hr). destruct (db !! _) as [l|]; simpl; [|done].
  unfold lift. rewrite resolve_loop_spec by lia. rewrite N.sub_0_r. by destruct (l !! _).
Qed.

(** Removal. *)
Lemma length_file_of_cons t l :
  length (file_of (t :: l)) = length (file_of l) + SIZE_LEN + length (tag_bytes t).
Proof.
  unfold file_of. rewrite reverse_cons, fmap_app. simpl. by rewrite length_frames_snoc.
Qed.

Lemma length_file_of_filter f l : length (file_of (List.filter f l)) <= length (file_of l).
Proof.
  induction l as [|x l IH]; simpl; [done|]. case_match; rewrite ?length_file_of_cons; lia.
Qed.

Lemma stream_ok_filter f l : stream_ok l -> List.filter f l <> [] -> stream_ok (List.filter f l).
Proof.
  intros (_ & Hok & Hs & Hsize) Hne. split_and!; [done| |by apply sorted_filter|].
  - rewrite Forall_forall in *. intros x Hx. apply list_elem_of_In, filter_In in Hx as [Hx _].
    by apply Hok, list_elem_of_In.
  - pose proof (length_file_of_filter f l). lia.
Qed.

Lemma represents_delete s db p :
  represents s db -> represents (set_files (delete p (files s)) s) (delete p db).
Proof.
  intros Hr. split; simpl.
  - by rewrite (rep_files _ _ Hr), fmap_delete.
  - intros q l [_ Hq]%lookup_delete_Some. by apply (rep_streams _ _ Hr).
Qed.

(** Removing a file inside the lock, then dropping the lock. *)
Lemma remove_file_locked p l s db :
  represents s db -> is_tag_path p -> db !! p = Some l ->
  exists s', remove_file p (locked p s) = Some s' /\
             TagLock_drop p s' = set_files (delete p (files s)) s.
Proof.
  intros Hr Hp E. unfold remove_file. cbn [locked set_files files].
  assert (lock_path p <> p) by (intros Ep; apply (lock_path_not_tag p); congruence).
  rewrite lookup_insert_ne by done. rewrite (represents_lookup s db), E by done. simpl.
  eexists. split; [done|]. unfold TagLock_drop, set_files. simpl. f_equal.
  rewrite delete_delete, delete_insert_eq, (delete_id _ (lock_path p)); [done|].
  eapply represents_no_file; [done|]. by apply lock_path_not_tag.
Qed.

(** The stream that is read is the one of the repository's namespace, the one
    that is written the one of the given namespace. *)
Definition without t l : list (Tag time) := List.filter (fun x => negb (bool_decide (x = t))) l.

Lemma remove_sim_at s db ns t spec l l' :
  let p := locate (tag_namespace s) spec in
  let p' := locate ns spec in
  represents s db -> tag_err (spec_err (build_tag_spec (tag_org t) (tag_name t) 0)) = Ok spec ->
  db !! p = Some l -> db !! p' = Some l' ->
  exists s', remove_tag_in_namespace rel_components ns t s = (Ok tt, s') /\
             represents s' (db_put p' (without t l) db) /\ tag_namespace s' = tag_namespace s.
Proof.
  intros p p' Hr Hspec E E'. pose proof (rep_streams _ _ Hr p l E) as (Hl & _).
  pose proof (rep_streams _ _ Hr p' l' E') as (_ & Hp & Hd).
  unfold remove_tag_in_namespace, mbind, M_bind, lift.
  rewrite Hspec. fold p'. rewrite (with_lock_represents _ _ _ db) by done.
  unfold read_tag. cbn [locked set_files tag_namespace]. fold (locked p' s).
  pose proof (read_locked (tag_namespace s) ns spec spec s db Hr)
    as Hread. fold p p' in Hread. rewrite Hread, E. clear Hread. cbn [fst snd].
  rewrite remove_loop_spec, app_nil_r. cbn [if_ended]. fold (without t l).
  destruct (without t l) as [|x k] eqn:F.
  - change (reverse []) with (@nil (Tag time)). cbn [write_tags].
    destruct (remove_file_locked p' l' s db Hr Hp E') as (s' & -> & Hs'). simpl db_put.
    exists (TagLock_drop p' s'). rewrite Hs'. split_and!; [done|by apply represents_delete|done].
  - rewrite <-F. destruct (write_tags_locked p' (without t l) s db) as (s' & -> & Hr' & Hn); try done.
    { apply stream_ok_filter; [done|]. unfold without in F. by rewrite F. }
    exists (TagLock_drop p' s'). split_and!; [done| |done]. by rewrite F in *.
Qed.

Lemma remove_sim s db ns t l l' :
  let p := locate (tag_namespace s) (Tag_to_spec t 0) in
  let p' := locate ns (Tag_to_spec t 0) in
  represents s db -> TagSpec_ok (Tag_to_spec t 0) -> db !! p = Some l -> db !! p' = Some l' ->
  exists s', remove_tag_in_namespace rel_components ns t s = (Ok tt, s') /\
             represents s' (db_put p' (without t l) db) /\ tag_namespace s' = tag_namespace s.
Proof. intros p p' Hr Hspec%tag_to_spec_build. by apply remove_sim_at. Qed.
(** Without a stream in the repository's namespace, nothing happens to it. *)
Lemma remove_sim_none s db t spec :
  represents s db -> tag_err (spec_err (build_tag_spec (tag_org t) (tag_name t) 0)) = Ok spec ->
  db !! locate (tag_namespace s) spec = None ->
  exists e, remove_tag_in_namespace rel_components (tag_namespace s) t s = (Err e, s).
Proof.
  intros Hr Hspec E. unfold remove_tag_in_namespace, mbind, M_bind, lift. rewrite Hspec.
  set (p := locate (tag_namespace s) spec) in *. assert (is_tag_path p) as Hp by apply tag_path_to_path.
  destruct (decide (tail p ∈ dirs s)) as [Hd|Hd].
  - rewrite (with_lock_represents _ _ _ db) by done. unfold read_tag. cbn [locked set_files tag_namespace]. fold (locked p s).
    pose proof (read_locked (tag_namespace s) (tag_namespace s) spec spec s db Hr) as Hread. fold p in Hread. rewrite Hread, E.
    rewrite (drop_locked _ _ db) by done. eauto.
  - unfold with_lock, TagLock_new, parent_exists. rewrite bool_decide_false by done. cbn [negb]. eauto.
Qed.

Lemma dir_not_empty s db p l :
  represents s db -> db !! p = Some l -> dir_is_empty (tail p) s = false.
Proof.
  intros Hr E. apply not_true_iff_false. unfold dir_is_empty. rewrite forallb_forall. intros H.
  assert (In p ((map_to_list (files s)).*1 ++ elements (dirs s))) as Hin.
  { apply in_or_app. left. apply list_elem_of_In, list_elem_of_fmap. exists (p, file_of l). split; [done|].
    apply elem_of_map_to_list. by rewrite (represents_lookup s db), E. }
  apply H in Hin. rewrite bool_decide_true in Hin by done. simpl in Hin.
  apply (rep_streams _ _ Hr) in E as (_ & Hp%tag_path_nonempty & _).
  by rewrite bool_decide_false in Hin.
Qed.

Lemma remove_empty_parents_sim root p s db :
  represents s db -> represents (remove_empty_parents root p s) db /\
                     tag_namespace (remove_empty_parents root p s) = tag_namespace s.
Proof.
  revert s. induction p as [|c p IH]; intros s Hr; simpl; [done|].
  case_bool_decide; [done|]. case_match; [done|]. destruct (dir_is_empty p s) eqn:Hempty; [|done].
  apply (IH (mkRepo _ _ _)). split; simpl; [apply (rep_files _ _ Hr)|].
  intros q l E. pose proof (rep_streams _ _ Hr q l E) as (? & ? & Hd). split_and!; try done.
  apply elem_of_difference. split; [done|]. rewrite elem_of_singleton. intros Eq.
  rewrite <-Eq in Hempty. by rewrite (dir_not_empty s db q l) in Hempty.
Qed.

Lemma remove_stream_sim s db ns spec l :
  let p := locate ns (TagSpec_with_version spec 0) in
  represents s db -> TagSpec_ok (TagSpec_with_version spec 0) -> db !! p = Some l ->
  exists s', remove_tag_stream_in_namespace rel_components ns spec s = (Ok tt, s') /\
             represents s' (delete p db) /\ tag_namespace s' = tag_namespace s.
Proof.
  intros p Hr Hspec E. pose proof (rep_streams _ _ Hr p l E) as (Hl & Hp & Hd).
  unfold remove_tag_stream_in_namespace, mbind, M_bind, lift.
  pose proof (build_tag_spec_ok _ Hspec) as Hb. simpl in Hb. rewrite Hb. cbn [spec_err tag_err].
  fold (TagSpec_with_version spec 0). fold p. rewrite (with_lock_represents _ _ _ db) by done. cbv beta.
  destruct (remove_file_locked p l s db Hr Hp E) as (s' & -> & Hs').
  rewrite Hs'. eexists. split; [done|].
  destruct (remove_empty_parents_sim (tags_root_in_namespace rel_components ns) p _ _
    (represents_delete s db p Hr)) as [? ->]. done.
Qed.

(** A pushed tag is well formed. *)
Lemma tag_text_ok (w : rstr) : forallb is_tag_org_char w = true -> text_ok w = true.
Proof.
  intros Hs. unfold text_ok. apply andb_true_iff. split.
  - eapply forallb_weaken; [|exact Hs]. intros c Hc%tag_org_char_ascii%N.ltb_lt.
    unfold is_scalar. by rewrite (proj2 (N.ltb_lt c 55296)) by lia.
  - apply negb_true_iff. by eapply str_contains_class.
Qed.

Lemma tag_of_spec_ok spec now target parent user :
  TagSpec_ok spec -> text_ok user = true -> length (digest_bytes target) = DIGEST_SIZE ->
  length (digest_bytes parent) = DIGEST_SIZE ->
  Tag_ok (mkTag time now (ts_org spec) (ts_name spec) target parent user) = true.
Proof.
  intros (Ho & _ & Hn & _) Hu Ht Hp. unfold Tag_ok. simpl.
  rewrite Ht, Hp, Hu, Nat.eqb_refl, !andb_true_r. apply andb_true_iff. split.
  - destruct (ts_org spec) as [org|]; [|done]. destruct Ho as [Hne Ho]. apply andb_true_iff.
    split; [by apply tag_text_ok|]. by destruct org.
  - apply tag_text_ok. eapply forallb_weaken; [|exact Hn]. apply tag_name_char_org.
Qed.

(** Pushing.  [head] is the tag the spec resolves to, if any. *)
Definition pushed_tag (sha256 : list N -> Digest) (user : rstr) (now : time) (spec : TagSpec)
    (target : Digest) (head : option (Tag time)) : Tag time :=
  mkTag _ (trunc_subsecs 6 now) (ts_org spec) (ts_name spec) target
    (match head with Some t => sha256 (tag_bytes t) | None => NULL_DIGEST end) user.

Lemma push_inserts sha256 user now spec target s db :
  let head := db !! locate (tag_namespace s) spec ≫= (.!! N.to_nat (ts_version spec)) in
  represents s db -> TagSpec_ok spec ->
  (forall t, head = Some t -> tag_target t <> target) ->
  let t := pushed_tag sha256 user now spec target head in
  push_tag rel_components sha256 (Ok user) now spec target s =
  (insert_tag rel_components t;; mret t) s.
Proof.
  intros head Hr Hspec Hnew t. unfold push_tag, resolve_tag. rewrite (resolve_sim s db) by done. fold head.
  assert (build_tag_spec (ts_org spec) (ts_name spec) 0 = Ok (TagSpec_with_version spec 0)) as Hb.
  { apply (build_tag_spec_ok (TagSpec_with_version spec 0)).
    destruct Hspec as (? & ? & ? & _). by split_and!. }
  destruct head as [h|] eqn:E.
  - rewrite decide_False by auto. unfold mbind, M_bind, lift.
    assert (Tag_ok h = true) as Hok.
    { unfold head in E. apply bind_Some in E as (l & Hl & Hh).
      apply (rep_streams _ _ Hr) in Hl as ((_ & Hall & _) & _).
      rewrite Forall_forall in Hall. by eapply Hall, list_elem_of_lookup_2. }
    unfold Tag_digest. rewrite Tag_encode_ok by done. cbn [mbind res_bind tag_err app].
    unfold Tag_new, mbind, res_bind. by rewrite Hb.
  - unfold mbind, M_bind, lift, Tag_new, mbind, res_bind. by rewrite Hb.
Qed.

(** A tag with a later time is newer. *)
Lemma later_newer t x : clt (tag_time x) (tag_time t) -> newer t x.
Proof.
  intros H. unfold newer. apply cmp_gt_lt. unfold cmp, cmp_Tag, cmp_on, Tag_key. rewrite cmp_pair.
  simpl. unfold clt in H. by rewrite H.
Qed.
End simulation.

(** ** Properties *)

Section properties.
Context {time : Type} `{!Timestamp time, !TimestampLaws time}
  `{!Cmp time, !CmpLaws time, !CmpLeibniz time, !EqDecision time}.
Context (rel_components : rstr -> list rstr).
Implicit Types (t x : Tag time) (l : list (Tag time)) (db : tagdb time) (s : repo) (p : path).

(** C3: insertion refines sorted insertion.  On a tree that holds the streams
    of [db], inserting a well-formed tag succeeds and leaves a tree that holds
    [db] with the tag inserted in order in its own stream; the streams stay
    strictly sorted, a tag that is present is not duplicated, no lock or
    working file is left behind. *)
Theorem insert_tag_refines s db ns t :
  let p := TagSpec_to_path rel_components (Tag_to_spec t 0) (tags_root_in_namespace rel_components ns) in
  represents s db -> TagSpec_ok (Tag_to_spec t 0) -> Tag_ok t = true ->
  (N.of_nat (length (file_of (tag_insert t (default [] (db !! p))))) <= Z.to_N i64_max)%N ->
  exists s', insert_tag_in_namespace rel_components ns t s = (Ok tt, s') /\
             represents s' (db_insert p t db) /\ tag_namespace s' = tag_namespace s.
Proof. intros. by apply insert_sim. Qed.

(** C38: resolution refines indexing: version [n] of a tag is the [n]-th newest
    tag of its stream, and anything else is an unknown reference. *)
Theorem resolve_tag_refines s db ns spec :
  represents s db ->
  resolve_tag_in_namespace rel_components ns spec s =
  (match db !! TagSpec_to_path rel_components spec (tags_root_in_namespace rel_components ns)
           ≫= (.!! N.to_nat (ts_version spec)) with
   | Some t => Ok t
   | None => Err (UnknownReference (TagSpec_to_string spec))
   end, s).
Proof. apply resolve_sim. Qed.

(** Removal, in the repository's own namespace.  Removing a tag removes it
    from its stream, and the stream with its last tag; removing a stream
    removes all of it, and none of the directories another stream needs. *)
Theorem remove_tag_refines s db t l :
  let p := TagSpec_to_path rel_components (Tag_to_spec t 0)
             (tags_root_in_namespace rel_components (tag_namespace s)) in
  represents s db -> TagSpec_ok (Tag_to_spec t 0) -> db !! p = Some l ->
  (exists s', remove_tag rel_components t s = (Ok tt, s') /\ represents s' (db_put p (without t l) db)) /\
  (exists s', remove_tag_stream_in_namespace rel_components (tag_namespace s) (Tag_to_spec t 0) s = (Ok tt, s') /\
              represents s' (delete p db)).
Proof.
  intros p Hr Hspec E. split.
  - destruct (remove_sim rel_components s db (tag_namespace s) t l l Hr Hspec E E) as (s' & ? & ? & _). eauto.
  - destruct (remove_stream_sim rel_components s db (tag_namespace s) (Tag_to_spec t 0) l Hr Hspec E)
      as (s' & ? & ? & _). eauto.
Qed.

(** Removing a tag in a namespace other than the repository's replaces that
    namespace's stream by the repository's own stream of the same name (less
    the tag): the given namespace's other tags are lost. *)
Theorem remove_tag_other_namespace s db ns t l l' :
  let path ns := TagSpec_to_path rel_components (Tag_to_spec t 0) (tags_root_in_namespace rel_components ns) in
  represents s db -> TagSpec_ok (Tag_to_spec t 0) ->
  db !! path (tag_namespace s) = Some l -> db !! path ns = Some l' ->
  exists s', remove_tag_in_namespace rel_components ns t s = (Ok tt, s') /\
             represents s' (db_put (path ns) (without t l) db).
Proof.
  intros path Hr Hspec E E'.
  destruct (remove_sim rel_components s db ns t l l' Hr Hspec E E') as (s' & ? & ? & _). eauto.
Qed.

(** Pushing a new target.  Given a clock that is past every tag of the
    stream, pushing onto the newest version yields a tag with that target whose
    parent is the digest of the previous head; it becomes version 0 and every
    earlier version moves back by one. *)
Theorem push_tag_resolves (sha256 : list N -> Digest) user now spec target s db :
  let p := TagSpec_to_path rel_components spec (tags_root_in_namespace rel_components (tag_namespace s)) in
  let l := default [] (db !! p) in
  let t := pushed_tag sha256 user now spec target (head l) in
  represents s db -> TagSpec_ok spec -> ts_version spec = 0%N -> text_ok user = true ->
  length (digest_bytes target) = DIGEST_SIZE ->
  (forall bytes, length (digest_bytes (sha256 bytes)) = DIGEST_SIZE) ->
  Forall (fun x => clt (tag_time x) (trunc_subsecs 6 now)) l ->
  (forall h, head l = Some h -> tag_target h <> target) ->
  (N.of_nat (length (file_of (t :: l))) <= Z.to_N i64_max)%N ->
  exists s', push_tag rel_components sha256 (Ok user) now spec target s = (Ok t, s') /\
    represents s' (<[p := t :: l]> db) /\
    (resolve_tag rel_components spec s').1 = Ok t /\
    (forall v, (resolve_tag rel_components (TagSpec_with_version spec (v + 1)) s').1 =
       match l !! N.to_nat v with
       | Some x => Ok x
       | None => Err (UnknownReference (TagSpec_to_string (TagSpec_with_version spec (v + 1))))
       end).
Proof.
  intros p l t Hr Hspec Hv Huser Htarget Hsha Hnow Hnew Hsize.
  assert (db !! p ≫= (.!! N.to_nat (ts_version spec)) = head l) as Hhead.
  { unfold l. rewrite Hv. destruct (db !! p) as [[|x k]|]; done. }
  rewrite (push_inserts rel_components sha256 user now spec target s db Hr Hspec)
    by (fold p; by rewrite Hhead).
  fold p. rewrite Hhead. fold t.
  assert (Tag_to_spec t 0 = spec) as Hts by (destruct spec; simpl in *; by subst).
  assert (Tag_ok t = true) as Hok.
  { apply tag_of_spec_ok; try done. destruct (head l); [apply Hsha|done]. }
  assert (tag_insert t l = t :: l) as Hins.
  { apply tag_insert_newest. eapply Forall_impl; [exact Hnow|]. intros x Hx. by apply later_newer. }
  unfold mbind, M_bind, insert_tag.
  destruct (insert_sim rel_components s db (tag_namespace s) t Hr) as (s' & -> & Hr' & Hn);
    rewrite ?Hts; fold p; try done.
  { fold l. by rewrite Hins. }
  rewrite Hts in Hr'. fold p in Hr'. unfold db_insert in Hr'. fold l in Hr'. rewrite Hins in Hr'.
  exists s'. split; [done|]. split; [done|].
  unfold resolve_tag. rewrite Hn. split.
  - rewrite (resolve_sim _ s' _ _ _ Hr'). fold p. rewrite lookup_insert_eq. simpl. by rewrite Hv.
  - intros v. rewrite (resolve_sim _ s' _ _ _ Hr').
    assert (TagSpec_to_path rel_components (TagSpec_with_version spec (v + 1))
      (tags_root_in_namespace rel_components (tag_namespace s)) = p) as -> by done.
    rewrite lookup_insert_eq. simpl. replace (N.to_nat (v + 1)) with (S (N.to_nat v)) by lia.
    simpl. by destruct (l !! N.to_nat v).
Qed.

(** A working file left behind by an interrupted process is appended to and
    becomes part of the next tag file. *)
Lemma stale_working_file_kept p s stale l :
  Forall (fun t => Tag_ok t = true) l -> l <> [] -> files s !! working_path p = Some stale ->
  exists s', write_tags p (reverse l) s = (Ok tt, s') /\ files s' !! p = Some (stale ++ file_of l).
Proof.
  intros Hok Hne Hw. unfold write_tags. destruct (reverse l) as [|x k] eqn:E.
  { by apply (f_equal reverse) in E; rewrite reverse_involutive in E. }
  rewrite <-E, Hw. simpl default. rewrite write_tags_to_path_frames by by apply Forall_reverse.
  eexists. split; [done|]. simpl. by rewrite lookup_insert_eq.
Qed.
End properties.

(** ** Witnesses *)

(** Components of a relative path: the non-empty words between slashes. *)
Definition words (s : rstr) : list rstr :=
  List.filter (fun c => negb (str_is_empty c)) (split c_slash s).

Definition tag_at (n : N) : Tag seconds :=
  mkTag _ (mkSeconds n) (Some (lit "spi")) (lit "main") (mkDigest (repeat n DIGEST_SIZE)) NULL_DIGEST
    (lit "me").
Definition main_spec : TagSpec := mkTagSpec (Some (lit "spi")) (lit "main") 0.
Definition main_path : path := [lit "main.tag"; lit "spi"].
Definition ns_path : path := [lit "main.tag"; lit "spi"; lit "n#ns"].

(** A tree with one stream, and one with a second stream in namespace [n]. *)
Definition one_db : tagdb seconds := {[main_path := [tag_at 2; tag_at 1]]}.
Definition two_db : tagdb seconds := <[ns_path := [tag_at 5; tag_at 2]]> one_db.
Definition one_repo : repo := mkRepo (file_of <$> one_db) {[ [lit "spi"] ]} None.
Definition two_repo : repo :=
  mkRepo (file_of <$> two_db) {[ [lit "spi"]; [lit "spi"; lit "n#ns"] ]} None.

Lemma pair_stream_ok a b :
  (b < a)%N -> Tag_ok (tag_at a) = true -> Tag_ok (tag_at b) = true ->
  (N.of_nat (length (file_of [tag_at a; tag_at b])) <= Z.to_N i64_max)%N ->
  stream_ok [tag_at a; tag_at b].
Proof.
  intros Hab Ha Hb Hsize. split_and!; [done|by repeat constructor| |done].
  repeat constructor. apply later_newer. by apply N.compare_lt_iff.
Qed.

Lemma one_repo_represents : represents one_repo one_db.
Proof.
  split; [done|]. intros p l Hl. unfold one_db in Hl.
  apply lookup_singleton_Some in Hl as [<- <-].
  split_and!; [by apply pair_stream_ok|by eexists (lit "main"), _|]. simpl. set_solver.
Qed.

Lemma two_repo_represents : represents two_repo two_db.
Proof.
  split; [done|]. intros p l Hl. unfold two_db, one_db in Hl.
  apply lookup_insert_Some in Hl as [[<- <-]|[_ Hl]];
    [|apply lookup_singleton_Some in Hl as [<- <-]];
    (split_and!; [by apply pair_stream_ok|by eexists (lit "main"), _|]); simpl; set_solver.
Qed.

Lemma main_spec_ok : TagSpec_ok main_spec.
Proof. by repeat split. Qed.

Lemma insert_tag_refines_witness :
  exists s', insert_tag_in_namespace words None (tag_at 3) one_repo = (Ok tt, s') /\
    represents s' (db_insert main_path (tag_at 3) one_db) /\ tag_namespace s' = None.
Proof.
  exact (insert_tag_refines words one_repo one_db None (tag_at 3) one_repo_represents main_spec_ok
    ltac:(reflexivity) ltac:(vm_compute; discriminate)).
Defined.

Lemma resolve_tag_refines_witness :
  resolve_tag_in_namespace words None (TagSpec_with_version main_spec 1) one_repo = (Ok (tag_at 1), one_repo).
Proof.
  exact (resolve_tag_refines words one_repo one_db None (TagSpec_with_version main_spec 1) one_repo_represents).
Defined.

Lemma remove_tag_refines_witness :
  exists s', remove_tag words (tag_at 2) one_repo = (Ok tt, s') /\
    represents s' (db_put main_path [tag_at 1] one_db).
Proof.
  exact (proj1 (remove_tag_refines words one_repo one_db (tag_at 2) [tag_at 2; tag_at 1]
    one_repo_represents main_spec_ok ltac:(reflexivity))).
Defined.

Lemma remove_tag_other_namespace_witness :
  exists s', remove_tag_in_namespace words (Some (lit "n")) (tag_at 2) two_repo = (Ok tt, s') /\
    represents s' (db_put ns_path [tag_at 1] two_db).
Proof.
  exact (remove_tag_other_namespace words two_repo two_db (Some (lit "n")) (tag_at 2)
    [tag_at 2; tag_at 1] [tag_at 5; tag_at 2] two_repo_represents main_spec_ok
    ltac:(reflexivity) ltac:(reflexivity)).
Defined.

Lemma push_tag_resolves_witness :
  exists s', (push_tag words (fun _ => NULL_DIGEST) (Ok (lit "me")) (mkSeconds 9) main_spec
                (mkDigest (repeat 9%N DIGEST_SIZE)) one_repo).2 = s' /\
    (resolve_tag words main_spec s').1 =
      Ok (pushed_tag (fun _ => NULL_DIGEST) (lit "me") (mkSeconds 9) main_spec
            (mkDigest (repeat 9%N DIGEST_SIZE)) (Some (tag_at 2))).
Proof.
  destruct (push_tag_resolves words (fun _ => NULL_DIGEST) (lit "me") (mkSeconds 9) main_spec
    (mkDigest (repeat 9%N DIGEST_SIZE)) one_repo one_db one_repo_represents main_spec_ok)
    as (s' & Hp & _ & Hres & _); try reflexivity.
  - repeat constructor.
  - intros h [= <-]. vm_compute. discriminate.
  - vm_compute. discriminate.
  - exists s'. split; [exact (f_equal snd Hp)|exact Hres].
Defined.
