(* ===== verification/Entry.v ===== *)
(** * Manifest entries

    Models crates/spfs/src/tracking/entry.rs: the tree of directories, files and
    masks a manifest consists of, its equality, its conversions and [update],
    which layers one tree over another. *)

From S2P Require Import Prelude Strings Encoding.

#[local] Set Warnings "-register-all".

(** ** Hash maps

    A [HashMap] is the list of its items in iteration order, one per key. *)
Section hashmap.
Context {K V : Type} `{!EqDecision K}.
Implicit Types (k : K) (v : V) (m : list (K * V)).

Fixpoint hm_get k m : option V :=
  match m with
  | [] => None
  | (k', v) :: m => if bool_decide (k = k') then Some v else hm_get k m
  end.
Fixpoint hm_insert k v m : list (K * V) :=
  match m with
  | [] => [(k, v)]
  | (k', v') :: m => if bool_decide (k = k') then (k', v) :: m else (k', v') :: hm_insert k v m
  end.
Definition hm_remove k m : list (K * V) := List.filter (fun p => negb (bool_decide (p.1 = k))) m.

Lemma hm_get_insert k k' v m :
  hm_get k' (hm_insert k v m) = if bool_decide (k' = k) then Some v else hm_get k' m.
Proof.
  induction m as [|[x y] m IH]; simpl; [done|]. destruct (bool_decide_reflect (k = x)) as [->|Hne]; simpl.
  - by case_bool_decide.
  - rewrite IH. repeat case_bool_decide; congruence.
Qed.

Lemma hm_get_remove k k' m : hm_get k' (hm_remove k m) = if bool_decide (k' = k) then None else hm_get k' m.
Proof.
  unfold hm_remove. induction m as [|[x y] m IH]; simpl; [by case_bool_decide|].
  destruct (bool_decide_reflect (x = k)) as [->|Hne]; simpl; rewrite IH.
  - by case_bool_decide.
  - repeat case_bool_decide; congruence.
Qed.

Lemma hm_get_elem k v m : hm_get k m = Some v -> (k, v) ∈ m.
Proof.
  induction m as [|[x y] m IH]; simpl; [done|]. case_bool_decide; [|set_solver].
  intros [= ->]. subst. set_solver.
Qed.

Lemma hm_get_nodup k v m : NoDup m.*1 -> (k, v) ∈ m -> hm_get k m = Some v.
Proof.
  induction m as [|[x y] m IH]; simpl; [by intros _ ?%elem_of_nil|].
  intros [Hx Hm]%NoDup_cons [[= -> ->]|Hin]%elem_of_cons; [by rewrite bool_decide_true|].
  rewrite bool_decide_false; [by apply IH|]. intros ->. apply Hx.
  apply list_elem_of_fmap. by exists (x, v).
Qed.

Lemma hm_get_None k m : hm_get k m = None <-> k ∉ m.*1.
Proof.
  induction m as [|[x y] m IH]; simpl; [set_solver|]. rewrite not_elem_of_cons, <-IH.
  case_bool_decide; naive_solver.
Qed.

Lemma hm_insert_keys k v m x : x ∈ (hm_insert k v m).*1 <-> x = k \/ x ∈ m.*1.
Proof.
  induction m as [|[y z] m IH]; simpl; [set_solver|]. case_bool_decide; simpl; set_solver.
Qed.

Lemma hm_insert_nodup k v m : NoDup m.*1 -> NoDup (hm_insert k v m).*1.
Proof.
  induction m as [|[y z] m IH]; simpl; [intros; repeat constructor; set_solver|].
  intros [Hy Hm]%NoDup_cons. case_bool_decide; simpl; constructor; auto.
  rewrite hm_insert_keys. naive_solver.
Qed.

Lemma hm_remove_nodup k m : NoDup m.*1 -> NoDup (hm_remove k m).*1.
Proof.
  unfold hm_remove. induction m as [|[y z] m IH]; simpl; [done|]. intros [Hy Hm]%NoDup_cons.
  case_match; simpl; [|by auto]. constructor; [|by auto]. intros Hin. apply Hy.
  apply list_elem_of_fmap in Hin as ([y' z'] & -> & Hin). simpl in *.
  apply list_elem_of_In, filter_In, proj1, list_elem_of_In in Hin.
  apply list_elem_of_fmap. by exists (y', z').
Qed.
End hashmap.

(** ** Kinds *)

Inductive EntryKind := KTree | KBlob (size : N) | KMask.
#[export] Instance EntryKind_eq_dec : EqDecision EntryKind.
Proof. solve_decision. Defined.

Definition is_tree (k : EntryKind) : bool := match k with KTree => true | _ => false end.
Definition is_blob (k : EntryKind) : bool := match k with KBlob _ => true | _ => false end.
Definition is_mask (k : EntryKind) : bool := match k with KMask => true | _ => false end.

Definition EntryKind_to_string (k : EntryKind) : rstr :=
  match k with KTree => lit "tree" | KBlob _ => lit "file" | KMask => lit "mask" end.

Inductive EntryError := InvalidEntryKind (s : rstr) | EntryEncoding (e : EncodingError).

Definition EntryKind_from_str (s : rstr) : res EntryError EntryKind :=
  if bool_decide (s = lit "tree") then Ok KTree
  else if bool_decide (s = lit "file") then Ok (KBlob 0)
  else if bool_decide (s = lit "mask") then Ok KMask
  else Err (InvalidEntryKind s).

(** [Ord for EntryKind]: trees are greater than everything else. *)
#[export] Instance cmp_EntryKind : Cmp EntryKind := fun self other =>
  match is_tree self, is_tree other with
  | true, false => Gt
  | false, true => Lt
  | _, _ => Eq
  end.

Definition EntryKind_encode (writer : list N) (self : EntryKind) : res EntryError (list N) :=
  match write_string writer (EntryKind_to_string self) with
  | Ok w => Ok w
  | Err e => Err (EntryEncoding e)
  | Panicked => Panicked
  end.
Definition EntryKind_decode (r : reader) : res EntryError (EntryKind * reader) :=
  match read_string r with
  | Ok (s, r) => k ← EntryKind_from_str s; Ok (k, r)
  | Err e => Err (EntryEncoding e)
  | Panicked => Panicked
  end.

(** ** Entries *)

Inductive Entry {T : Type} := mkEntry {
  kind : EntryKind;
  object : Digest;
  mode : N;
  entries : list (rstr * Entry);
  user_data : T;
  legacy_size : N;
}.
Arguments Entry T : clear implicits.

(** [EMPTY_DIGEST]: the SHA-256 of the empty string. *)
Definition EMPTY_DIGEST : Digest := mkDigest
  [227; 176; 196; 66; 152; 252; 28; 20; 154; 251; 244; 200; 153; 111; 185; 36;
   39; 174; 65; 228; 100; 155; 147; 76; 164; 149; 153; 27; 120; 82; 184; 85]%N.

Section entry.
Context {T : Type}.
Implicit Types e a b : Entry T.

(** The modes are octal: 0o0777, 0o0120777, 0o0040777, 0o0100777. *)
Definition mask_with_data (user_data : T) : Entry T := mkEntry _ KMask NULL_DIGEST 511 [] user_data 0.
Definition empty_symlink_with_data (user_data : T) : Entry T :=
  mkEntry _ (KBlob 0) EMPTY_DIGEST 41471 [] user_data 0.
Definition empty_dir_with_open_perms_with_data (user_data : T) : Entry T :=
  mkEntry _ KTree NULL_DIGEST 16895 [] user_data 0.
Definition empty_file_with_open_perms_with_data (user_data : T) : Entry T :=
  mkEntry _ (KBlob 0) EMPTY_DIGEST 33279 [] user_data 0.

Definition size e : N := match kind e with KBlob size => size | _ => 0 end.
Definition size_for_legacy_encode e : N :=
  match kind e with KBlob size => size | _ => legacy_size e end.

(** [PartialOrd for Entry]. *)
Definition Entry_partial_cmp a b : option comparison :=
  match kind a, kind b with
  | KTree, KTree => None
  | KTree, _ => Some Gt
  | _, KTree => Some Lt
  | _, _ => None
  end.

(** [Entry::update]: layer [other] over [self]. *)
Fixpoint Entry_update (self other : Entry T) {struct other} : Entry T :=
  let entries' :=
    if negb (is_tree (kind other)) then entries self
    else
      foldl (fun es p =>
        match p with
        | (name, node) =>
            let es := if is_mask (kind node) then hm_remove name es else es in
            match hm_get name es with
            | Some existing => hm_insert name (Entry_update existing node) es
            | None => hm_insert name node es
            end
        end) (entries self) (entries other) in
  mkEntry _ (kind other) (object other) (mode other) entries' (user_data self) (legacy_size self).
End entry.

(** [PartialEq for Entry]: user data and legacy sizes do not count. *)
Fixpoint Entry_eq {T T2 : Type} (self : Entry T) (other : Entry T2) : bool :=
  if negb (bool_decide (kind self = kind other)) || negb (mode self =? mode other)%N ||
     negb (size self =? size other)%N || negb (bool_decide (object self = object other)) then false
  else if negb (length (entries self) =? length (entries other)) then false
  else forallb (fun p =>
    match p with
    | (name, value) =>
        match hm_get name (entries other) with
        | Some other => Entry_eq value other
        | None => false
        end
    end) (entries self).

Fixpoint strip_user_data {T : Type} (self : Entry T) : Entry unit :=
  mkEntry _ (kind self) (object self) (mode self)
    (map (fun p => match p with (n, e) => (n, strip_user_data e) end) (entries self)) tt (legacy_size self).

(** Clone the user data into the entry and its children. *)
Fixpoint and_user_data {T T1 : Type} (self : Entry T) (data : T1) : Entry T1 :=
  mkEntry _ (kind self) (object self) (mode self)
    (map (fun p => match p with (n, e) => (n, and_user_data e data) end) (entries self)) data (legacy_size self).

(** Children get the default. *)
Fixpoint with_user_data {T T1 : Type} (default : T1) (self : Entry T) (data : T1) : Entry T1 :=
  mkEntry _ (kind self) (object self) (mode self)
    (map (fun p => match p with (n, e) => (n, with_user_data default e default) end) (entries self))
    data (legacy_size self).
