(* ===== verification/Manifest.v ===== *)
(** * Manifests

    Models crates/spfs/src/tracking/manifest.rs: looking up, creating and
    walking the entries of a tree, and the order manifest nodes are sorted in;
    and crates/spfs/src/tracking/diff.rs, the comparison of two manifests.  A
    manifest is its root entry (the object header it also carries belongs to
    the object graph).  Computing a manifest from a directory on disk is I/O and
    not part of the model. *)

From S2P Require Import Prelude Strings Collections Encoding Entry.

#[local] Set Warnings "-register-all".

(** ** Relative paths

    What the code uses of the relative_path crate. *)
Inductive component := Normal (s : rstr) | CurDir | ParentDir.

Class RelPath := {
  rel_normalize : rstr -> rstr;
  rel_components : rstr -> list component;
  rel_join : rstr -> rstr -> rstr;
}.

Inductive MkError :=
| AlreadyExists (path : rstr)
| InvalidFilename (path : rstr)
| NotADirectory (path : rstr)
| NotFound (path : rstr).

(** [Manifest::trim_leading_slash]. *)
Fixpoint trim_leading_slash (path : rstr) : rstr :=
  match path with
  | c :: rest =>
      if (c =? c_slash)%N then trim_leading_slash rest
      else if (c =? c_dot)%N then
        match rest with
        | c' :: rest' => if (c' =? c_slash)%N then trim_leading_slash rest' else path
        | [] => path
        end
      else path
  | [] => []
  end.

Section manifest.
Context {T : Type}.
Implicit Types e root : Entry T.

(** The loop of [get_path] over the steps of the path. *)
Fixpoint descend (e : Entry T) (steps : list rstr) : option (Entry T) :=
  match steps with
  | [] => Some e
  | step :: steps =>
      if is_tree (kind e) then
        match hm_get step (entries e) with Some e => descend e steps | None => None end
      else None
  end.

Definition get_path root (path : rstr) : option (Entry T) :=
  let path := trim_end_matches c_slash (trim_leading_slash path) in
  if str_is_empty path then Some root else descend root (split c_slash path).

Definition manifest_is_empty root : bool := length (entries root) =? 0.

Definition list_entries_in_dir root (path : rstr) : option (list (rstr * Entry T)) :=
  match get_path root path with
  | Some e => if is_tree (kind e) then Some (entries e) else None
  | None => None
  end.
Definition list_dir root (path : rstr) : option (list rstr) :=
  match list_entries_in_dir root path with Some es => Some es.*1 | None => None end.
Definition read_dir root (path : rstr) : option (list (rstr * Entry T)) := list_entries_in_dir root path.

Definition set_entries e (es : list (rstr * Entry T)) : Entry T :=
  mkEntry _ (kind e) (object e) (mode e) es (user_data e) (legacy_size e).

Context `{!RelPath}.

(** The descent of [mknod] below [entry], and the insertion at its end. *)
Fixpoint mknod_at (path : rstr) (entry : Entry T) (steps : list component) (last : option component)
    (new_entry : Entry T) : res MkError (Entry T) :=
  match steps with
  | Normal step :: steps =>
      match hm_get step (entries entry) with
      | None => Err (NotFound path)
      | Some e =>
          if negb (is_tree (kind e)) then Err (NotADirectory path)
          else e ← mknod_at path e steps last new_entry; Ok (set_entries entry (hm_insert step e (entries entry)))
      end
  | _ :: steps => mknod_at path entry steps last new_entry
  | [] =>
      match last with
      | None => Err (NotFound path)
      | Some (Normal step) => Ok (set_entries entry (hm_insert step new_entry (entries entry)))
      | Some _ => Err (InvalidFilename path)
      end
  end.

(** [Manifest::mknod]: the updated root. *)
Definition mknod root (path : rstr) (new_entry : Entry T) : res MkError (Entry T) :=
  let path := trim_leading_slash path in
  if str_is_empty path then Err (AlreadyExists path)
  else
    let path := rel_normalize path in
    let components := rel_components path in
    mknod_at path root (removelast components) (last components) new_entry.

Context (default_data : T).

Definition mkdir root (path : rstr) : res MkError (Entry T) :=
  mknod root path (empty_dir_with_open_perms_with_data default_data).
Definition mkfile root (path : rstr) : res MkError (Entry T) :=
  mknod root path (empty_file_with_open_perms_with_data default_data).

(** The loop of [mkdirs]: missing directories are created on the way down. *)
Fixpoint mkdirs_at (path : rstr) (entry : Entry T) (steps : list component) : Entry T * option MkError :=
  match steps with
  | [] => (entry, None)
  | Normal step :: steps =>
      let child := match hm_get step (entries entry) with
                   | Some e => e
                   | None => empty_dir_with_open_perms_with_data default_data
                   end in
      if negb (is_tree (kind child)) then (set_entries entry (hm_insert step child (entries entry)), Some (NotADirectory path))
      else
        let '(child, err) := mkdirs_at path child steps in
        (set_entries entry (hm_insert step child (entries entry)), err)
  | _ :: steps => mkdirs_at path entry steps
  end.
Definition mkdirs root (path : rstr) : Entry T * option MkError :=
  let path := trim_leading_slash path in
  if str_is_empty path then (root, Some (AlreadyExists path))
  else
    let path := rel_normalize path in
    mkdirs_at path root (rel_components path).

(** ** Walking *)

Record ManifestNode := mkNode { node_path : rstr; node_entry : Entry T }.

(** [ManifestWalker]: what is left of the children, and the walk of the
    directory yielded last. *)
Inductive ManifestWalker := mkWalker {
  prefix : rstr;
  children : list (rstr * Entry T);
  active_child : option ManifestWalker;
}.

Definition ManifestWalker_new root : ManifestWalker := mkWalker [c_slash] (entries root) None.
Definition with_prefix (self : ManifestWalker) (prefix : rstr) : ManifestWalker :=
  mkWalker prefix (children self) (active_child self).

(** The second half of [next]: the next child of this directory. *)
Definition walker_next_child (prefix : rstr) (children : list (rstr * Entry T)) :
    option ManifestNode * ManifestWalker :=
  match children with
  | [] => (None, mkWalker prefix [] None)
  | (name, child) :: children =>
      (Some (mkNode (rel_join prefix name) child),
       mkWalker prefix children
         (if is_tree (kind child)
          then Some (with_prefix (ManifestWalker_new child) (rel_join prefix name)) else None))
  end.

Fixpoint walker_next (self : ManifestWalker) : option ManifestNode * ManifestWalker :=
  match self with
  | mkWalker prefix children None => walker_next_child prefix children
  | mkWalker prefix children (Some child) =>
      match walker_next child with
      | (Some next, child) => (Some next, mkWalker prefix children (Some child))
      | (None, _) => walker_next_child prefix children
      end
  end.

(** Iterate to the end; [None] when [fuel] calls of [next] were not enough. *)
Fixpoint walk_collect (fuel : nat) (w : ManifestWalker) : option (list ManifestNode) :=
  match fuel with
  | O => None
  | S fuel =>
      match walker_next w with
      | (Some node, w) => cons node <$> walk_collect fuel w
      | (None, _) => Some []
      end
  end.

(** The number of entries below an entry, which is the number of nodes. *)
Fixpoint entry_count (e : Entry T) : nat :=
  foldr (fun p n => match p with (_, e) => S (entry_count e) + n end) 0 (entries e).

(** [manifest.walk()], collected. *)
Definition walk root : option (list ManifestNode) :=
  walk_collect (S (entry_count root)) (ManifestWalker_new root).
End manifest.
Arguments ManifestNode T : clear implicits.
Arguments ManifestWalker T : clear implicits.

(** ** The order of nodes *)

Section order.
Context {T : Type} `{!RelPath}.

(** The loop of [Ord for ManifestNode] over the zipped components. *)
Fixpoint node_cmp_loop (self_kind other_kind : EntryKind) (l r : list component) : comparison :=
  match l, r with
  | [], [] => Eq
  | _ :: _, [] => Gt
  | [], _ :: _ => Lt
  | Normal left_ :: l, Normal right_ :: r =>
      let '(k0, k1) :=
        match l, r with
        | Normal _ :: _, Normal _ :: _ => (KTree, KTree)
        | _ :: _, [] => (KTree, other_kind)
        | [], _ :: _ => (self_kind, KTree)
        | _, _ => (self_kind, other_kind)
        end in
      match thenc (cmp k1 k0) (cmp left_ right_) with
      | Eq => node_cmp_loop self_kind other_kind l r
      | c => c
      end
  | _ :: l, _ :: r => node_cmp_loop self_kind other_kind l r
  end.

#[export] Instance cmp_ManifestNode : Cmp (ManifestNode T) := fun self other =>
  node_cmp_loop (kind (node_entry self)) (kind (node_entry other))
    (rel_components (rel_normalize (node_path self))) (rel_components (rel_normalize (node_path other))).
End order.

(** ** Diffs *)

Inductive DiffMode {U1 U2 : Type} :=
| Unchanged (e : Entry U1)
| Changed (a : Entry U1) (b : Entry U2)
| Added (e : Entry U2)
| Removed (e : Entry U1).
Arguments DiffMode U1 U2 : clear implicits.

Definition is_unchanged {U1 U2} (d : DiffMode U1 U2) : bool := match d with Unchanged _ => true | _ => false end.
Definition is_changed {U1 U2} (d : DiffMode U1 U2) : bool := match d with Changed _ _ => true | _ => false end.
Definition is_added {U1 U2} (d : DiffMode U1 U2) : bool := match d with Added _ => true | _ => false end.
Definition is_removed {U1 U2} (d : DiffMode U1 U2) : bool := match d with Removed _ => true | _ => false end.

(** [Display for DiffMode]. *)
Definition DiffMode_to_string {U1 U2} (d : DiffMode U1 U2) : rstr :=
  match d with
  | Unchanged _ => lit "="
  | Changed _ _ => lit "~"
  | Added _ => lit "+"
  | Removed _ => lit "-"
  end.
(** [DiffMode::user_data]. *)
Definition diff_user_data {U1} (d : DiffMode U1 U1) : U1 :=
  match d with
  | Unchanged e | Changed e _ | Added e | Removed e => user_data e
  end.

Record Diff {U1 U2 : Type} := mkDiff { diff_mode : DiffMode U1 U2; diff_path_of : rstr }.
Arguments Diff U1 U2 : clear implicits.

Inductive DiffPathResult {U1 U2 : Type} :=
| DiffFound (d : Diff U1 U2)
| PathMissingFromBothManifests
| UselessMask.
Arguments DiffPathResult U1 U2 : clear implicits.

(** Whether the program is built with debug assertions. *)
Class BuildProfile := debug_assertions : bool.

Definition diff_path `{!BuildProfile} {U1 U2} (a : Entry U1) (b : Entry U2) (path : rstr) :
    res Empty_set (DiffPathResult U1 U2) :=
  match get_path a path, get_path b path with
  | None, None => Ok PathMissingFromBothManifests
  | Some a_entry, Some b_entry =>
      if bool_decide (kind b_entry = KMask) then Ok (DiffFound (mkDiff _ _ (Removed a_entry) path))
      else if Entry_eq a_entry b_entry then Ok (DiffFound (mkDiff _ _ (Unchanged a_entry) path))
      else Ok (DiffFound (mkDiff _ _ (Changed a_entry b_entry) path))
  | None, Some b_entry =>
      if bool_decide (kind b_entry = KMask) then if debug_assertions then Panicked else Ok UselessMask
      else Ok (DiffFound (mkDiff _ _ (Added b_entry) path))
  | Some e, None => Ok (DiffFound (mkDiff _ _ (Removed e) path))
  end.

(** The loop of [compute_diff] over the sorted nodes, with the visited paths. *)
Fixpoint diff_loop `{!BuildProfile} {U} (a b : Entry U) (all_entries : list (ManifestNode U)) (visited : list rstr) :
    res Empty_set (list (Diff U U)) :=
  match all_entries with
  | [] => Ok []
  | entry :: all_entries =>
      if bool_decide (node_path entry ∈ visited) then diff_loop a b all_entries visited
      else
        let visited := node_path entry :: visited in
        result ← diff_path a b (node_path entry);
        match result with
        | DiffFound d => changes ← diff_loop a b all_entries visited; Ok (d :: changes)
        | _ => diff_loop a b all_entries visited
        end
  end.

(** [None] when the walk ran out of fuel. *)
Definition compute_diff `{!BuildProfile, !RelPath} {U} (a b : Entry U) : option (res Empty_set (list (Diff U U))) :=
  match walk a, walk b with
  | Some wa, Some wb => Some (diff_loop a b (sort_slice (wa ++ wb)) [])
  | _, _ => None
  end.
