(* ===== verification/Layers.v ===== *)
(** * Layering

    The theory of [Entry::update]: what is visible at each path of a stack of
    layers, entry equality, and creating entries. *)

From S2P Require Import Prelude Strings Collections Encoding Entry Manifest.

#[local] Set Warnings "-register-all".

(** ** Induction over entries *)

Section induction.
Context {T : Type} (P : Entry T -> Prop).
Context (step : forall k o m es u l, Forall (fun p => P p.2) es -> P (mkEntry _ k o m es u l)).
Fixpoint Entry_induction (e : Entry T) : P e :=
  match e with
  | mkEntry _ k o m es u l =>
      step k o m es u l
        ((fix go es : Forall (fun p => P p.2) es :=
            match es with
            | [] => Forall_nil_2 _
            | p :: es => Forall_cons_2 _ p es (Entry_induction p.2) (go es)
            end) es)
  end.
End induction.

(** ** Well-formed entries: one item per name, children only in directories *)

Inductive entry_ok {T} : Entry T -> Prop :=
| entry_ok_intro e :
    NoDup (entries e).*1 -> (is_tree (kind e) = false -> entries e = []) ->
    Forall (fun p => entry_ok p.2) (entries e) -> entry_ok e.

Section layers.
Context {T : Type}.
Implicit Types a b e : Entry T.

Lemma entry_ok_nodup e : entry_ok e -> NoDup (entries e).*1.
Proof. by destruct 1. Qed.
Lemma entry_ok_leaf e : entry_ok e -> is_tree (kind e) = false -> entries e = [].
Proof. by destruct 1. Qed.
Lemma entry_ok_child e name child : entry_ok e -> hm_get name (entries e) = Some child -> entry_ok child.
Proof.
  destruct 1 as [e _ _ Hc]. intros Hin%hm_get_elem. rewrite Forall_forall in Hc. exact (Hc _ Hin).
Qed.

(** What layering decides at a path. *)
Definition attr e : EntryKind * Digest * N := (kind e, object e, mode e).

(** One child of a layered directory. *)
Definition layer_child (existing : option (Entry T)) (node : Entry T) : Entry T :=
  if is_mask (kind node) then node
  else match existing with Some existing => Entry_update existing node | None => node end.

Lemma update_fold_get name (l es : list (rstr * Entry T)) :
  NoDup l.*1 ->
  hm_get name (foldl (fun es p =>
    match p with
    | (name, node) =>
        let es := if is_mask (kind node) then hm_remove name es else es in
        match hm_get name es with
        | Some existing => hm_insert name (Entry_update existing node) es
        | None => hm_insert name node es
        end
    end) es l) =
  match hm_get name l with
  | Some node => Some (layer_child (hm_get name es) node)
  | None => hm_get name es
  end.
Proof.
  revert es. induction l as [|[n node] l IH]; intros es; simpl; [done|].
  intros [Hn Hl]%NoDup_cons. rewrite IH by done.
  set (es' := match hm_get n (if is_mask (kind node) then hm_remove n es else es) with
              | Some existing => _ | None => _ end).
  assert (forall x, hm_get x es' = if bool_decide (x = n) then Some (layer_child (hm_get n es) node)
                                   else hm_get x es) as Hes.
  { intros x. unfold es', layer_child. destruct (is_mask (kind node)).
    - rewrite hm_get_remove, bool_decide_true by done. rewrite hm_get_insert, hm_get_remove.
      by case_bool_decide.
    - destruct (hm_get n es) eqn:E; rewrite hm_get_insert; by case_bool_decide. }
  rewrite Hes. case_bool_decide as Heq; [|done]. subst.
  apply hm_get_None in Hn. by rewrite Hn.
Qed.

Lemma update_get a b name :
  entry_ok b -> is_tree (kind b) = true ->
  hm_get name (entries (Entry_update a b)) =
  match hm_get name (entries b) with
  | Some node => Some (layer_child (hm_get name (entries a)) node)
  | None => hm_get name (entries a)
  end.
Proof.
  intros Hb Ht. destruct b as [k o m es u l]. simpl in *. rewrite Ht. simpl.
  apply update_fold_get. by apply entry_ok_nodup in Hb.
Qed.

Lemma update_attr a b : attr (Entry_update a b) = attr b.
Proof. by destruct b. Qed.

(** A layer hides a path below one of its files or masks. *)
Fixpoint shadowed (b : Entry T) (steps : list rstr) : bool :=
  match steps with
  | [] => false
  | step :: steps =>
      if is_tree (kind b) then
        match hm_get step (entries b) with Some e => shadowed e steps | None => false end
      else true
  end.

(** What two layers show at a path: the upper one wins where it has an entry
    and hides what is below its files and masks. *)
Definition over (b : Entry T) (below : list rstr -> option (EntryKind * Digest * N)) (steps : list rstr) :
    option (EntryKind * Digest * N) :=
  match descend b steps with
  | Some e => Some (attr e)
  | None => if shadowed b steps then None else below steps
  end.

Definition view e (steps : list rstr) : option (EntryKind * Digest * N) := attr <$> descend e steps.

Lemma over_ext b f g steps : f steps = g steps -> over b f steps = over b g steps.
Proof. unfold over. by intros ->. Qed.

Lemma update_view a b steps :
  entry_ok a -> entry_ok b -> view (Entry_update a b) steps = over b (view a) steps.
Proof.
  revert a b. induction steps as [|step steps IH]; intros a b Ha Hb.
  { unfold view, over. simpl. by rewrite update_attr. }
  unfold view at 1. unfold over. cbn [descend shadowed].
  assert (kind (Entry_update a b) = kind b) as -> by by destruct b.
  destruct (is_tree (kind b)) eqn:Ht; [|done].
  rewrite update_get by done. destruct (hm_get step (entries b)) as [node|] eqn:Eb.
  - pose proof (entry_ok_child b step node Hb Eb) as Hnode.
    unfold layer_child. destruct (is_mask (kind node)) eqn:Hm.
    { destruct steps as [|s steps]; [done|].
      assert (is_tree (kind node) = false) as Hnt by by destruct (kind node).
      cbn [descend shadowed]. by rewrite Hnt. }
    destruct (hm_get step (entries a)) as [existing|] eqn:Ea.
    + pose proof (entry_ok_child a step existing Ha Ea) as Hex.
      assert (is_tree (kind a) = true) as Hta.
      { destruct (is_tree (kind a)) eqn:E; [done|]. by rewrite (entry_ok_leaf a Ha E) in Ea. }
      specialize (IH existing node Hex Hnode). unfold view, over in IH. rewrite IH.
      unfold view. cbn [descend]. by rewrite Hta, Ea.
    + assert (view a (step :: steps) = None) as ->.
      { unfold view. cbn [descend]. rewrite Ea. by destruct (is_tree (kind a)). }
      destruct (descend node steps); simpl; [done|]. by destruct (shadowed node steps).
  - unfold view. cbn [descend]. destruct (is_tree (kind a)) eqn:Hta; [done|].
    by rewrite (entry_ok_leaf a Ha Hta).
Qed.

(** ** Stacks of layers *)

(** No file of [b] takes the place of a directory of [a] that has children. *)
Definition no_dir_replaced a b : Prop := forall steps ea eb,
  descend a steps = Some ea -> descend b steps = Some eb ->
  is_tree (kind eb) = false -> is_mask (kind eb) = false -> entries ea = [].

Lemma update_fold_nodup (l es : list (rstr * Entry T)) :
  NoDup es.*1 ->
  NoDup (foldl (fun es p =>
    match p with
    | (name, node) =>
        let es := if is_mask (kind node) then hm_remove name es else es in
        match hm_get name es with
        | Some existing => hm_insert name (Entry_update existing node) es
        | None => hm_insert name node es
        end
    end) es l).*1.
Proof.
  revert es. induction l as [|[n node] l IH]; intros es Hes; simpl; [done|]. apply IH.
  repeat case_match; auto using hm_insert_nodup, hm_remove_nodup.
Qed.

Lemma update_ok a b :
  entry_ok a -> entry_ok b -> is_mask (kind b) = false -> no_dir_replaced a b ->
  entry_ok (Entry_update a b).
Proof.
  revert a. induction b as [k o m es u l IH] using Entry_induction. intros a Ha Hb Hm Hno.
  pose proof (entry_ok_nodup _ Ha) as Hnd. destruct (is_tree k) eqn:Ht.
  - constructor.
    + simpl. rewrite Ht. by apply update_fold_nodup.
    + simpl. congruence.
    + apply Forall_forall. intros [name child] Hin. simpl.
      apply hm_get_nodup in Hin; [|simpl; rewrite Ht; by apply update_fold_nodup].
      rewrite update_get in Hin by done. simpl in Hin.
      destruct (hm_get name es) as [node|] eqn:En; [|by eapply entry_ok_child in Hin].
      simplify_eq. pose proof (entry_ok_child (mkEntry _ k o m es u l) name node Hb En) as Hnode.
      unfold layer_child. destruct (is_mask (kind node)) eqn:Hmn; [done|].
      destruct (hm_get name (entries a)) as [existing|] eqn:Ea; [|done].
      rewrite Forall_forall in IH. apply (IH (name, node)); [by apply hm_get_elem|..]; try done.
      { exact (entry_ok_child a name existing Ha Ea). }
      intros steps ea eb Hda Hdb. apply (Hno (name :: steps)); cbn [descend].
      * destruct (is_tree (kind a)) eqn:Hta; [by rewrite Ea|]. by rewrite (entry_ok_leaf a Ha Hta) in Ea.
      * simpl. by rewrite Ht, En.
  - specialize (Hno [] a _ eq_refl eq_refl Ht Hm).
    constructor; simpl; rewrite Ht; simpl; rewrite Hno; by constructor.
Qed.

Fixpoint stackable (base : Entry T) (layers : list (Entry T)) : Prop :=
  match layers with
  | [] => True
  | b :: layers =>
      entry_ok b /\ is_tree (kind b) = true /\ no_dir_replaced base b /\ stackable (Entry_update base b) layers
  end.

Lemma over_fold_ext layers (f g : list rstr -> option (EntryKind * Digest * N)) steps :
  (forall steps, f steps = g steps) ->
  foldl (fun below b => over b below) f layers steps = foldl (fun below b => over b below) g layers steps.
Proof.
  revert f g. induction layers as [|b layers IH]; intros f g Hfg; simpl; [done|].
  apply IH. intros. by apply over_ext.
Qed.

Lemma stack_view base layers steps :
  entry_ok base -> stackable base layers ->
  view (foldl Entry_update base layers) steps =
  foldl (fun below b => over b below) (view base) layers steps.
Proof.
  revert base. induction layers as [|b layers IH]; intros base Hbase; simpl; [done|].
  intros (Hb & Ht & Hno & Hs). rewrite IH; [|apply update_ok; try done; by destruct (kind b)|done].
  apply over_fold_ext. intros. by apply update_view.
Qed.

(** ** Children *)

Lemma view_child e name steps child :
  is_tree (kind e) = true -> hm_get name (entries e) = Some child ->
  view e (name :: steps) = view child steps.
Proof. intros Ht E. unfold view. cbn [descend]. by rewrite Ht, E. Qed.

Lemma view_no_child e name steps :
  hm_get name (entries e) = None -> view e (name :: steps) = None.
Proof. intros E. unfold view. cbn [descend]. rewrite E. by destruct (is_tree (kind e)). Qed.
End layers.

(** ** Equality *)

Section equality.
Context {T T2 : Type}.
Implicit Types (a : Entry T) (b : Entry T2).

Lemma Entry_eq_attr a b : Entry_eq a b = true -> attr a = attr b.
Proof.
  destruct a as [k o m es u l]. simpl. unfold attr. simpl.
  destruct (bool_decide_reflect (k = kind b)); [|done]. destruct (N.eqb_spec m (mode b)); [|done].
  destruct (_ =? size b)%N; [|done]. destruct (bool_decide_reflect (o = object b)); [|done].
  intros _. simpl. congruence.
Qed.

Lemma Entry_eq_children a b name :
  NoDup (entries a).*1 -> NoDup (entries b).*1 -> Entry_eq a b = true ->
  match hm_get name (entries a), hm_get name (entries b) with
  | Some x, Some y => Entry_eq x y = true
  | None, None => True
  | _, _ => False
  end.
Proof.
  intros Ha Hb E. assert (length (entries a) = length (entries b) /\
    forall n x, (n, x) ∈ entries a -> exists y, hm_get n (entries b) = Some y /\ Entry_eq x y = true) as [Hlen Hsub].
  { destruct a as [k o m es u l]. simpl in *. destruct (_ || _); [done|].
    destruct (Nat.eqb_spec (length es) (length (entries b))); [|done]. split; [done|].
    intros n x Hin%list_elem_of_In. simpl in E. rewrite forallb_forall in E. specialize (E _ Hin). simpl in E.
    destruct (hm_get n (entries b)) as [y|]; [|done]. eauto. }
  destruct (hm_get name (entries a)) as [x|] eqn:Ea.
  - apply hm_get_elem in Ea. destruct (Hsub _ _ Ea) as (y & -> & ?). done.
  - destruct (hm_get name (entries b)) as [y|] eqn:Eb; [|done].
    apply hm_get_None in Ea. apply hm_get_elem in Eb.
    assert ((entries a).*1 ⊆ (entries b).*1) as Hincl.
    { intros n Hn. apply list_elem_of_fmap in Hn as ([n' x] & -> & Hin).
      destruct (Hsub _ _ Hin) as (z & Hz & _). apply hm_get_elem in Hz.
      apply list_elem_of_fmap. by exists (n', z). }
    assert (name ∈ (entries b).*1) as Hn by (apply list_elem_of_fmap; by exists (name, y)).
    assert (length (name :: (entries a).*1) <= length (entries b).*1) as Hle.
    { apply submseteq_length, NoDup_submseteq; [by constructor|]. intros n [-> |?]%elem_of_cons; auto. }
    simpl in Hle. rewrite !length_fmap in Hle. lia.
Qed.

Lemma Entry_eq_view a b steps :
  entry_ok a -> entry_ok b -> Entry_eq a b = true -> view a steps = view b steps.
Proof.
  revert a b. induction steps as [|step steps IH]; intros a b Ha Hb E.
  { unfold view. simpl. by rewrite (Entry_eq_attr a b E). }
  pose proof (Entry_eq_attr a b E) as Hattr. injection Hattr as Hk _ _.
  pose proof (Entry_eq_children a b step (entry_ok_nodup _ Ha) (entry_ok_nodup _ Hb) E) as Hc.
  destruct (hm_get step (entries a)) as [x|] eqn:Ea, (hm_get step (entries b)) as [y|] eqn:Eb; try done.
  - destruct (is_tree (kind a)) eqn:Ht; [|by rewrite (entry_ok_leaf a Ha Ht) in Ea].
    rewrite (view_child a step steps x), (view_child b step steps y) by congruence.
    apply IH; [by eapply entry_ok_child..|done].
  - by rewrite (view_no_child a), (view_no_child b).
Qed.

Lemma view_Entry_eq a b :
  entry_ok a -> entry_ok b -> (forall steps, view a steps = view b steps) -> Entry_eq a b = true.
Proof.
  revert b. induction a as [k o m es u l IH] using Entry_induction. intros b Ha Hb Hv.
  pose proof (Hv []) as H0. injection H0 as Hk Ho Hm. simpl in Hk, Ho, Hm.
  pose proof (entry_ok_nodup _ Ha) as Hna. pose proof (entry_ok_nodup _ Hb) as Hnb. simpl in Hna.
  assert (forall name, match hm_get name es, hm_get name (entries b) with
    | Some x, Some y => forall steps, view x steps = view y steps
    | None, None => True | _, _ => False end) as Hc.
  { intros name. destruct (is_tree k) eqn:Ht.
    - assert (is_tree (kind b) = true) as Htb by by rewrite <-Hk.
      destruct (hm_get name es) as [x|] eqn:Ea, (hm_get name (entries b)) as [y|] eqn:Eb; try done.
      + intros steps. specialize (Hv (name :: steps)).
        by rewrite (view_child _ name steps x), (view_child b name steps y) in Hv by done.
      + specialize (Hv [name]).
        by rewrite (view_child _ name [] x), (view_no_child b) in Hv by done.
      + specialize (Hv [name]). by rewrite view_no_child, (view_child b name [] y) in Hv by done.
    - pose proof (entry_ok_leaf _ Ha Ht) as E1. simpl in E1.
      pose proof (entry_ok_leaf _ Hb ltac:(congruence)) as E2. by rewrite E1, E2. }
  cbn [Entry_eq kind mode object entries]. unfold size. cbn [kind].
  rewrite Hk, Ho, Hm, !bool_decide_true, !N.eqb_refl by done. cbn [negb orb].
  assert (es.*1 ≡ₚ (entries b).*1) as Hperm.
  { apply NoDup_Permutation; [done..|]. intros n. specialize (Hc n).
    destruct (hm_get n es) as [x|] eqn:E1, (hm_get n (entries b)) as [y|] eqn:E2; try done.
    - apply hm_get_elem in E1, E2. split; intros _; apply list_elem_of_fmap; [by exists (n, y)|by exists (n, x)].
    - apply hm_get_None in E1, E2. tauto. }
  apply Permutation_length in Hperm. rewrite !length_fmap in Hperm.
  rewrite Hperm, Nat.eqb_refl. cbn [negb]. apply forallb_forall. intros [n x] Hin%list_elem_of_In.
  specialize (Hc n). rewrite (hm_get_nodup n x) in Hc by done.
  destruct (hm_get n (entries b)) as [y|] eqn:Eb; [|done].
  rewrite Forall_forall in IH. apply (IH (n, x)); [done|..|done].
  - eapply (entry_ok_child _ n x Ha). by apply hm_get_nodup.
  - by eapply entry_ok_child.
Qed.
End equality.

(** ** Properties *)

(** C4: layering. Updating a base with layers, bottom to top, shows at every
    path what the topmost layer that has an entry there shows, except that a
    layer hides everything below its own files and masks. The layers are
    directories, and none of them puts a file in the place of a directory that
    has children by then ([stackable]): the code keeps the children in that
    case, as [file_over_dir_resurrects] shows. *)
Theorem layers_view {T} (base : Entry T) (layers : list (Entry T)) (steps : list rstr) :
  entry_ok base -> stackable base layers ->
  view (foldl Entry_update base layers) steps =
  foldl (fun below b => over b below) (view base) layers steps.
Proof. apply stack_view. Qed.

(** Equality of entries is equality of what they show: two well-formed
    entries are equal exactly when every path has the same kind, content and
    mode in both, whatever the order of their hash maps and their user data. *)
Theorem entry_eq_is_view_eq {T T2} (a : Entry T) (b : Entry T2) :
  entry_ok a -> entry_ok b ->
  Entry_eq a b = true <-> forall steps, view a steps = view b steps.
Proof. intros Ha Hb. split; [intros; by apply Entry_eq_view|by apply view_Entry_eq]. Qed.

Definition dir_of (es : list (rstr * Entry unit)) : Entry unit :=
  mkEntry _ KTree NULL_DIGEST 16895 es tt 0.
Definition file_entry : Entry unit := empty_file_with_open_perms_with_data tt.
Definition mask_entry : Entry unit := mask_with_data tt.

(** A file layered over a directory keeps the directory's children in the
    entry, where a third layer that makes it a directory again brings them
    back, although the second layer hides them. *)
Theorem file_over_dir_resurrects :
  let base := dir_of [(lit "d", dir_of [(lit "f", file_entry)])] in
  let file_layer := dir_of [(lit "d", file_entry)] in
  let dir_layer := dir_of [(lit "d", dir_of [])] in
  view (Entry_update base file_layer) [lit "d"; lit "f"] = None /\
  view (Entry_update (Entry_update base file_layer) dir_layer) [lit "d"; lit "f"] = Some (attr file_entry) /\
  over dir_layer (over file_layer (view base)) [lit "d"; lit "f"] = None.
Proof. vm_compute. done. Qed.

Lemma dir_of_ok es : NoDup es.*1 -> Forall (fun p => entry_ok p.2) es -> entry_ok (dir_of es).
Proof. by constructor. Qed.
Lemma leaf_ok (e : Entry unit) : entries e = [] -> entry_ok e.
Proof. intros E. constructor; rewrite E; by constructor. Qed.

(** Well-formedness of concrete entries. *)
Ltac concrete_entry_ok :=
  repeat first [apply Forall_nil_2 | apply Forall_cons_2 | progress simpl snd
               | apply leaf_ok; reflexivity
               | apply dir_of_ok; [apply (bool_decide_unpack (NoDup _)); reflexivity|]].

Lemma layers_view_witness :
  let base := dir_of [(lit "d", dir_of [(lit "f", file_entry)])] in
  let layer := dir_of [(lit "d", mask_entry); (lit "g", file_entry)] in
  view (foldl Entry_update base [layer]) [lit "g"] = Some (attr file_entry) /\
  view (foldl Entry_update base [layer]) [lit "d"; lit "f"] = None.
Proof.
  intros base layer.
  assert (entry_ok base /\ stackable base [layer]) as [Hb Hs].
  { split; [|split_and!; try done].
    - unfold base. concrete_entry_ok.
    - unfold layer. concrete_entry_ok.
    - intros steps ea eb Ha Hb Ht Hm. destruct steps as [|s steps]; [by simplify_eq/=|].
      cbn [descend base dir_of kind is_tree entries hm_get] in Ha.
      destruct (bool_decide_reflect (s = lit "d")) as [->|Hne]; [|done].
      cbn [descend layer dir_of kind is_tree entries hm_get] in Hb.
      rewrite bool_decide_true in Hb by done. destruct steps; by simplify_eq/=. }
  split.
  - rewrite (layers_view base [layer] [lit "g"] Hb Hs). reflexivity.
  - rewrite (layers_view base [layer] [lit "d"; lit "f"] Hb Hs). reflexivity.
Defined.

Lemma entry_eq_is_view_eq_witness :
  let a := dir_of [(lit "x", file_entry); (lit "y", mask_entry)] in
  let b := dir_of [(lit "y", mask_entry); (lit "x", file_entry)] in
  view a [lit "y"] = view b [lit "y"].
Proof.
  intros a b. apply (entry_eq_is_view_eq a b); [unfold a|unfold b|reflexivity]; concrete_entry_ok.
Defined.
