(* ===== verification/Diffs.v ===== *)
(** * Walking and comparing manifests

    The theory of [ManifestWalker], of the order of manifest nodes, of
    [compute_diff] and of creating entries. *)

From S2P Require Import Prelude Strings Collections Encoding Entry Manifest Layers.

(** ** Names and paths *)

(** A file name: one normal path component. *)
Definition name_ok (s : rstr) : bool :=
  negb (str_is_empty s) && negb (str_contains c_slash s) &&
  negb (bool_decide (s = lit ".")) && negb (bool_decide (s = lit "..")).

(** The absolute path of a list of names. *)
Definition slash_path (l : list rstr) : rstr := c_slash :: join [c_slash] l.

(** The documented behaviour of relative_path on such paths. *)
Class RelPathLaws `{!RelPath} : Prop := {
  rel_join_names (l : list rstr) (name : rstr) :
    forallb name_ok (l ++ [name]) = true -> rel_join (slash_path l) name = slash_path (l ++ [name]);
  rel_components_names (l : list rstr) :
    forallb name_ok l = true -> rel_components (rel_normalize (slash_path l)) = Normal <$> l;
  rel_components_relative (l : list rstr) :
    forallb name_ok l = true -> rel_components (rel_normalize (join [c_slash] l)) = Normal <$> l;
}.

Lemma name_ok_split s :
  name_ok s = true -> s <> [] /\ str_contains c_slash s = false /\ s <> lit "." /\ s <> lit "..".
Proof.
  unfold name_ok. rewrite !andb_true_iff, !negb_true_iff, !bool_decide_eq_false.
  intros [[[? ?] ?] ?]. split_and!; try done. by intros ->.
Qed.

Lemma trim_leading_name w rest :
  name_ok w = true -> (rest = [] \/ exists r, rest = c_slash :: r) ->
  trim_leading_slash (w ++ rest) = w ++ rest.
Proof.
  intros (Hne & Hs & Hdot & _)%name_ok_split Hrest.
  destruct w as [|c w]; [done|]. unfold str_contains in Hs. cbn [existsb] in Hs.
  apply orb_false_iff in Hs as [Hc Hw]. cbn [app trim_leading_slash].
  rewrite N.eqb_sym, Hc. destruct (N.eqb_spec c c_dot) as [->|]; [|done].
  destruct w as [|c' w]; [done|]. cbn [existsb] in Hw. apply orb_false_iff in Hw as [Hc' _]. cbn [app].
  by rewrite N.eqb_sym, Hc'.
Qed.

Lemma trim_end_last c s x : x <> c -> trim_end_matches c (s ++ [x]) = s ++ [x].
Proof.
  intros Hx. induction s as [|y s IH]; simpl.
  - destruct (N.eqb_spec x c); congruence.
  - rewrite IH. by destruct (s ++ [x]) eqn:E; [destruct s|].
Qed.

Lemma join_last l w : w <> [] -> exists s x, join [c_slash] (l ++ [w]) = s ++ [x] /\ x ∈ w.
Proof.
  intros Hw. destruct w as [|x w _] using rev_ind; [done|]. clear Hw.
  destruct l as [|y l]; [by exists w, x; set_solver|].
  revert y. induction l as [|z l IH]; intros y.
  - exists (y ++ [c_slash] ++ w), x. split; [by rewrite <-!(assoc_L (++))|set_solver].
  - destruct (IH z) as (s & x' & E & Hx'). exists (y ++ [c_slash] ++ s), x'.
    change (join [c_slash] ((y :: z :: l) ++ [w ++ [x]])) with
      (y ++ [c_slash] ++ join [c_slash] ((z :: l) ++ [w ++ [x]])).
    rewrite E. split; [by rewrite <-!(assoc_L (++))|done].
Qed.

Lemma trim_leading_join l :
  forallb name_ok l = true -> trim_leading_slash (join [c_slash] l) = join [c_slash] l.
Proof.
  destruct l as [|w [|w' l]]; [done|..]; intros [Hw _]%andb_true_iff.
  - simpl. rewrite <-(app_nil_r w) at 1. rewrite trim_leading_name by auto. apply app_nil_r.
  - change (join [c_slash] (w :: w' :: l)) with (w ++ c_slash :: join [c_slash] (w' :: l)).
    apply trim_leading_name; eauto.
Qed.

(** A path of names is looked up name by name. *)
Lemma get_path_names {T} (root : Entry T) l :
  forallb name_ok l = true -> get_path root (slash_path l) = descend root l.
Proof.
  intros Hl. unfold get_path, slash_path. cbn [trim_leading_slash]. rewrite N.eqb_refl.
  rewrite trim_leading_join by done. destruct l as [|w l _] using rev_ind; [done|].
  rewrite forallb_app in Hl. apply andb_true_iff in Hl as [Hl Hw]. simpl in Hw. rewrite andb_true_r in Hw.
  pose proof (name_ok_split w Hw) as (Hne & Hs & _ & _).
  destruct (join_last l w Hne) as (s & x & E & Hx).
  assert (x <> c_slash) as Hxs.
  { intros ->. unfold str_contains in Hs. apply not_true_iff_false in Hs. apply Hs.
    apply existsb_exists. exists c_slash. split; [by apply list_elem_of_In|done]. }
  rewrite E, trim_end_last by done. rewrite <-E.
  destruct (str_is_empty (join [c_slash] (l ++ [w]))) eqn:Hemp.
  { rewrite E in Hemp. by destruct s. }
  rewrite split_join; [done|by destruct l|]. apply Forall_forall. intros v Hv.
  assert (name_ok v = true) as Hok.
  { apply elem_of_app in Hv as [Hv| ->%list_elem_of_singleton]; [|done].
    rewrite forallb_forall in Hl. by apply Hl, list_elem_of_In. }
  by apply name_ok_split in Hok as (_ & ? & _).
Qed.

(** ** The walk *)

Section walk.
Context {T : Type} `{!RelPath}.
Implicit Types (e : Entry T) (w : ManifestWalker T).

(** Depth first, each directory before its content. *)
Fixpoint preorder (prefix : rstr) (e : Entry T) : list (ManifestNode T) :=
  List.flat_map (fun p =>
    match p with
    | (name, child) =>
        mkNode (rel_join prefix name) child ::
        (if is_tree (kind child) then preorder (rel_join prefix name) child else [])
    end) (entries e).

Definition preorder_children (prefix : rstr) (es : list (rstr * Entry T)) : list (ManifestNode T) :=
  List.flat_map (fun p =>
    mkNode (rel_join prefix p.1) p.2 ::
    (if is_tree (kind p.2) then preorder (rel_join prefix p.1) p.2 else [])) es.

Lemma preorder_unfold prefix e : preorder prefix e = preorder_children prefix (entries e).
Proof. destruct e as [k o m es u l]. simpl. unfold preorder_children. induction es as [|[]]; simpl; congruence. Qed.

(** What a walker still has to yield. *)
Fixpoint pending (w : ManifestWalker T) : list (ManifestNode T) :=
  match w with
  | mkWalker prefix children active =>
      match active with Some child => pending child | None => [] end ++ preorder_children prefix children
  end.

Lemma walker_next_child_spec prefix children :
  match walker_next_child prefix children with
  | (Some n, w) => preorder_children prefix children = n :: pending w
  | (None, _) => preorder_children prefix children = []
  end.
Proof.
  destruct children as [|[name child] children]; simpl; [done|].
  destruct (is_tree (kind child)); simpl; [|done].
  unfold with_prefix. simpl. by rewrite preorder_unfold.
Qed.

Fixpoint walker_next_spec (w : ManifestWalker T) :
  match walker_next w with
  | (Some n, w') => pending w = n :: pending w'
  | (None, _) => pending w = []
  end.
Proof.
  destruct w as [prefix children [child|]]; cbn [walker_next pending].
  - pose proof (walker_next_spec child) as IH. destruct (walker_next child) as [[n|] child'].
    + by rewrite IH.
    + rewrite IH. apply walker_next_child_spec.
  - apply walker_next_child_spec.
Qed.

Lemma walk_collect_pending fuel w : length (pending w) < fuel -> walk_collect fuel w = Some (pending w).
Proof.
  revert w. induction fuel as [|fuel IH]; intros w Hf; [lia|]. simpl.
  pose proof (walker_next_spec w) as Hn. destruct (walker_next w) as [[n|] w']; rewrite Hn in *; [|done].
  simpl in Hf. by rewrite IH by lia.
Qed.

Lemma preorder_length prefix e : length (preorder prefix e) <= entry_count e.
Proof.
  revert prefix. induction e as [k o m es u l IH] using Entry_induction. intros prefix.
  rewrite preorder_unfold. simpl. unfold preorder_children.
  induction IH as [|[name child] es Hc IHes]; simpl in *; [done|].
  rewrite length_app. specialize (Hc (rel_join prefix name)).
  destruct (is_tree (kind child)); simpl in *; lia.
Qed.

Lemma walk_preorder root : walk root = Some (preorder [c_slash] root).
Proof.
  unfold walk. rewrite walk_collect_pending; unfold ManifestWalker_new; simpl; rewrite <-preorder_unfold.
  - done.
  - pose proof (preorder_length [c_slash] root). lia.
Qed.

(** Every name below an entry is a file name. *)
Definition names_ok e : Prop := forall steps e', descend e steps = Some e' -> forallb name_ok steps = true.

Lemma elem_of_preorder_children prefix es n :
  n ∈ preorder_children prefix es <->
  exists name child, (name, child) ∈ es /\
    (n = mkNode (rel_join prefix name) child \/
     is_tree (kind child) = true /\ n ∈ preorder (rel_join prefix name) child).
Proof.
  unfold preorder_children. induction es as [|[name child] es IH].
  { split; [by intros ?%elem_of_nil|by intros (? & ? & ?%elem_of_nil & _)]. }
  cbn [List.flat_map fst snd]. rewrite elem_of_app, IH, elem_of_cons.
  assert (n ∈ (if is_tree (kind child) then preorder (rel_join prefix name) child else []) <->
          is_tree (kind child) = true /\ n ∈ preorder (rel_join prefix name) child) as Hif.
  { destruct (is_tree (kind child)); [tauto|]. rewrite elem_of_nil. naive_solver. }
  rewrite Hif. split.
  - intros [[-> |[? ?]]|(x & c & Hin & Hc)].
    + exists name, child. set_solver.
    + exists name, child. set_solver.
    + exists x, c. split; [|done]. set_solver.
  - intros (x & c & [[= -> ->]|Hin]%elem_of_cons & Hc); [tauto|]. right. eauto.
Qed.
End walk.

Section walk_spec.
Context {T : Type} `{!RelPath, !RelPathLaws}.
Implicit Types (e : Entry T).

Lemma names_ok_child e name child :
  names_ok e -> is_tree (kind e) = true -> hm_get name (entries e) = Some child ->
  name_ok name = true /\ names_ok child.
Proof.
  intros He Ht Hc. split.
  - specialize (He [name] child). simpl in He. rewrite Ht, Hc in He. specialize (He eq_refl).
    by rewrite andb_true_r in He.
  - intros steps e' Hd. specialize (He (name :: steps) e'). cbn [descend] in He.
    rewrite Ht, Hc in He. specialize (He Hd). simpl in He. by apply andb_true_iff in He as [_ ?].
Qed.

(** The nodes of a walk are the entries below the root with their paths. *)
Lemma elem_of_preorder e l n :
  entry_ok e -> names_ok e -> is_tree (kind e) = true -> forallb name_ok l = true ->
  n ∈ preorder (slash_path l) e <->
  exists steps e', steps <> [] /\ descend e steps = Some e' /\ n = mkNode (slash_path (l ++ steps)) e'.
Proof.
  revert l. induction e as [k o m es u leg IH] using Entry_induction. intros l Hok Hn Ht Hl.
  rewrite preorder_unfold, elem_of_preorder_children. cbn [entries].
  pose proof (entry_ok_nodup _ Hok) as Hnd. simpl in Hnd, Ht.
  assert (forall name child, hm_get name es = Some child ->
    name_ok name = true /\ names_ok child /\ entry_ok child /\ forallb name_ok (l ++ [name]) = true /\
    rel_join (slash_path l) name = slash_path (l ++ [name])) as Hchild.
  { intros name child Hc. destruct (names_ok_child _ name child Hn Ht Hc) as [Hname Hnc].
    pose proof (entry_ok_child _ name child Hok Hc). rewrite forallb_app. simpl. rewrite Hl, Hname.
    split_and!; try done. apply rel_join_names. rewrite forallb_app. simpl. by rewrite Hl, Hname. }
  rewrite Forall_forall in IH. split.
  - intros (name & child & Hin & Hc). pose proof (hm_get_nodup _ _ _ Hnd Hin) as Hget.
    destruct (Hchild name child Hget) as (Hname & Hnc & Hokc & Hl' & Hj). rewrite Hj in Hc.
    destruct Hc as [-> |[Htc Hin']].
    + exists [name], child. simpl. by rewrite Ht, Hget.
    + apply (IH (name, child) Hin) in Hin' as (steps & e' & Hne & Hd & ->); try done.
      exists (name :: steps), e'. cbn [descend kind entries]. rewrite Ht, Hget.
      by rewrite <-(assoc_L (++)).
  - intros (steps & e' & Hne & Hd & ->). destruct steps as [|name steps]; [done|].
    cbn [descend kind entries] in Hd. rewrite Ht in Hd.
    destruct (hm_get name es) as [child|] eqn:Hget; [|done].
    destruct (Hchild name child Hget) as (Hname & Hnc & Hokc & Hl' & Hj).
    exists name, child. split; [by apply hm_get_elem|]. rewrite Hj.
    destruct steps as [|s steps]; [left; by simplify_eq/=|]. right.
    assert (is_tree (kind child) = true) as Htc.
    { cbn [descend] in Hd. by destruct (is_tree (kind child)). }
    split; [done|]. apply (IH (name, child)); try done; [by apply hm_get_elem|].
    exists (s :: steps), e'. by rewrite <-(assoc_L (++)).
Qed.

(** ** Diffs *)

(** The result of comparing two manifests at a list of names. *)
Definition diff_at (a b : Entry T) (steps : list rstr) : option (DiffMode T T) :=
  match descend a steps, descend b steps with
  | Some x, Some y =>
      Some (if is_mask (kind y) then Removed x else if Entry_eq x y then Unchanged x else Changed x y)
  | Some x, None => Some (Removed x)
  | None, Some y => if is_mask (kind y) then None else Some (Added y)
  | None, None => None
  end.

(** A mask in [b] of a path that [a] does not have. *)
Definition masks_nothing (a b : Entry T) (steps : list rstr) : Prop :=
  descend a steps = None /\ exists y, descend b steps = Some y /\ is_mask (kind y) = true.

Section profile.
Context `{!BuildProfile}.

Lemma diff_path_at a b steps :
  forallb name_ok steps = true ->
  diff_path a b (slash_path steps) =
  match diff_at a b steps with
  | Some d => Ok (DiffFound (mkDiff _ _ d (slash_path steps)))
  | None => match descend b steps with
            | Some _ => if debug_assertions then Panicked else Ok UselessMask
            | None => Ok PathMissingFromBothManifests
            end
  end.
Proof.
  intros Hs. unfold diff_path, diff_at. rewrite !get_path_names by done.
  assert (forall k, bool_decide (k = KMask) = is_mask k) as Hm by by intros [].
  destruct (descend a steps), (descend b steps); rewrite ?Hm; by repeat case_match.
Qed.
Lemma diff_path_panics a b steps :
  forallb name_ok steps = true ->
  diff_path a b (slash_path steps) = Panicked <-> debug_assertions = true /\ masks_nothing a b steps.
Proof.
  intros Hs. rewrite diff_path_at by done. unfold diff_at, masks_nothing.
  destruct (descend a steps) as [x|], (descend b steps) as [y|].
  - split; [done|by intros (_ & [=] & _)].
  - split; [done|by intros (_ & [=] & _)].
  - destruct (is_mask (kind y)) eqn:E; [destruct debug_assertions|]; (split; [|by intros (? & _ & z & [= <-] & ?); congruence]); [|done..].
    intros _. split_and!; [done..|]. by exists y.
  - split; [done|by intros (_ & _ & y & [=] & _)].
Qed.
Lemma diff_path_path a b path (d : Diff T T) : diff_path a b path = Ok (DiffFound d) -> diff_path_of d = path.
Proof. unfold diff_path. repeat case_match; intros; by simplify_eq/=. Qed.

(** The nodes the loop compares. *)
Definition compared (nodes : list (ManifestNode T)) (visited : list rstr) (path : rstr) : Prop :=
  path ∈ node_path <$> nodes /\ ~ path ∈ visited.
Lemma compared_cons n nodes visited path :
  compared (n :: nodes) visited path <->
  (path = node_path n /\ ~ path ∈ visited) \/ compared nodes (node_path n :: visited) path.
Proof.
  unfold compared. rewrite fmap_cons, !elem_of_cons. destruct (decide (path = node_path n)) as [->|]; naive_solver.
Qed.
Lemma compared_visited n nodes visited path :
  node_path n ∈ visited -> compared (n :: nodes) visited path <-> compared nodes visited path.
Proof. intros Hv. unfold compared. rewrite fmap_cons, elem_of_cons. naive_solver. Qed.
Lemma compared_found n nodes visited (Q : rstr -> Prop) :
  ~ node_path n ∈ visited ->
  (exists path, compared (n :: nodes) visited path /\ Q path) <->
  Q (node_path n) \/ exists path, compared nodes (node_path n :: visited) path /\ Q path.
Proof.
  intros Hv. split.
  - intros (path & [[-> _]|Hp]%compared_cons & HQ); [by left|right; by exists path].
  - intros [HQ|(path & Hp & HQ)]; [exists (node_path n)|exists path]; rewrite compared_cons; auto.
Qed.

(** The loop has an item for every path it compares that gives one, unless it
    compares one that panics. *)
Lemma diff_loop_spec (a b : Entry T) nodes visited :
  match diff_loop a b nodes visited with
  | Ok ds => NoDup (diff_path_of <$> ds) /\
      (forall d, d ∈ ds <-> exists path, compared nodes visited path /\ diff_path a b path = Ok (DiffFound d)) /\
      (forall path, compared nodes visited path -> diff_path a b path <> Panicked)
  | Err e => False
  | Panicked => exists path, compared nodes visited path /\ diff_path a b path = Panicked
  end.
Proof.
  revert visited. induction nodes as [|n nodes IH]; intros visited; cbn [diff_loop].
  { unfold compared. split_and!; [constructor| |].
    - intros d. split; [by intros ?%elem_of_nil|by intros (? & [?%elem_of_nil _] & _)].
    - by intros path [?%elem_of_nil _]. }
  case_bool_decide as Hv.
  { specialize (IH visited). pose proof (fun path => compared_visited n nodes visited path Hv) as Hc.
    destruct (diff_loop a b nodes visited) as [ds|e|]; [|done|].
    - setoid_rewrite Hc. exact IH.
    - setoid_rewrite Hc. exact IH. }
  specialize (IH (node_path n :: visited)). pose proof (compared_cons n nodes visited) as Hc.
  assert (compared (n :: nodes) visited (node_path n)) as Hn by (apply Hc; by left).
  destruct (diff_path a b (node_path n)) as [[d| |]|[]|] eqn:E; cbn [mbind res_bind]; [..|by exists (node_path n)];
    destruct (diff_loop a b nodes (node_path n :: visited)) as [ds|e|]; cbn [mbind res_bind];
    try done; try (destruct IH as (path & Hp & Hd); exists path; split; [apply Hc; by right|done]);
    destruct IH as (Hnd & Hin & Hok).
  - split_and!.
    + rewrite fmap_cons. constructor; [|done]. intros (d' & Ed & (path & [_ Hp] & Hd)%Hin)%list_elem_of_fmap.
      apply diff_path_path in Hd, E. rewrite <-Hd, <-Ed, E in Hp. set_solver.
    + intros d'. rewrite elem_of_cons, Hin, compared_found, E by done. split; (intros [Hd|Hd]; [left; congruence|by right]).
    + intros path [[-> _]|Hp]%Hc; [by rewrite E|by apply Hok].
  - split_and!; [done| |].
    + intros d'. rewrite Hin, compared_found, E by done. split; [by right|by intros [|]].
    + intros path [[-> _]|Hp]%Hc; [by rewrite E|by apply Hok].
  - split_and!; [done| |].
    + intros d'. rewrite Hin, compared_found, E by done. split; [by right|by intros [|]].
    + intros path [[-> _]|Hp]%Hc; [by rewrite E|by apply Hok].
Qed.
End profile.

End walk_spec.

(** ** The order of nodes *)

(** Directories before everything else, then by name, at each level. *)
Fixpoint node_key (k : EntryKind) (l : list rstr) : list (bool * rstr) :=
  match l with
  | [] => []
  | [x] => [(negb (is_tree k), x)]
  | x :: l => (false, x) :: node_key k l
  end.

Lemma node_cmp_loop_key k1 k2 l r :
  node_cmp_loop k1 k2 (Normal <$> l) (Normal <$> r) = cmp (node_key k1 l) (node_key k2 r).
Proof.
  assert (forall k0 k1 (a b : rstr), thenc (cmp k1 k0) (cmp a b) =
    cmp (negb (is_tree k0), a) (negb (is_tree k1), b)) as Hkey by by intros [] [].
  revert r. induction l as [|x l IH]; intros [|y r]; [done|by destruct r|by destruct l|].
  destruct l as [|x' l], r as [|y' r].
  - change (node_cmp_loop k1 k2 (Normal <$> [x]) (Normal <$> [y])) with
      (match thenc (cmp k2 k1) (cmp x y) with Eq => Eq | c => c end).
    rewrite Hkey. unfold cmp at 2, cmp_list. simpl. by destruct (cmp (_, x) (_, y)).
  - change (node_cmp_loop k1 k2 (Normal <$> [x]) (Normal <$> y :: y' :: r)) with
      (match thenc (cmp KTree k1) (cmp x y) with Eq => Lt | c => c end).
    rewrite Hkey. unfold cmp at 2, cmp_list. simpl. destruct (cmp (_, x) (_, y)); [|done..].
    by destruct r.
  - change (node_cmp_loop k1 k2 (Normal <$> x :: x' :: l) (Normal <$> [y])) with
      (match thenc (cmp k2 KTree) (cmp x y) with Eq => Gt | c => c end).
    rewrite Hkey. unfold cmp at 2, cmp_list. simpl. destruct (cmp (_, x) (_, y)); [|done..].
    by destruct l.
  - specialize (IH (y' :: r)).
    change (node_cmp_loop k1 k2 (Normal <$> x :: x' :: l) (Normal <$> y :: y' :: r)) with
      (match cmp x y with Eq => node_cmp_loop k1 k2 (Normal <$> x' :: l) (Normal <$> y' :: r) | c => c end).
    rewrite IH.
    change (node_key k1 (x :: x' :: l)) with ((false, x) :: node_key k1 (x' :: l)).
    change (node_key k2 (y :: y' :: r)) with ((false, y) :: node_key k2 (y' :: r)).
    change (cmp ((false, x) :: node_key k1 (x' :: l)) ((false, y) :: node_key k2 (y' :: r))) with
      (thenc (cmp (false, x) (false, y)) (cmp (node_key k1 (x' :: l)) (node_key k2 (y' :: r)))).
    rewrite cmp_pair. change (cmp false false) with Eq. simpl thenc. by destruct (cmp x y).
Qed.

Lemma node_key_dir l : node_key KTree l = pair false <$> l.
Proof. induction l as [|x [|y l] IH]; [done..|]. simpl in *. by rewrite IH. Qed.

Lemma node_key_below k l x xs : node_key k (l ++ x :: xs) = (pair false <$> l) ++ node_key k (x :: xs).
Proof.
  induction l as [|y l IH]; [done|]. rewrite <-!app_comm_cons, fmap_cons, <-app_comm_cons, <-IH.
  by destruct l.
Qed.

Lemma cmp_strict_prefix {A} `{CmpLaws A} (l k : list A) : k <> [] -> cmp l (l ++ k) = Lt.
Proof.
  intros Hk. unfold cmp, cmp_list. induction l as [|x l IH]; simpl; [by destruct k|].
  by rewrite cmp_refl.
Qed.

Lemma node_key_nonempty k x xs : node_key k (x :: xs) <> [].
Proof. by destruct xs. Qed.

(** ** Creating entries *)

(** The rest of [q] after the prefix [p]. *)
Fixpoint strip_prefix (p q : list rstr) : option (list rstr) :=
  match p, q with
  | [], _ => Some q
  | x :: p, y :: q => if bool_decide (x = y) then strip_prefix p q else None
  | _ :: _, [] => None
  end.

Section mknod.
Context {T : Type}.
Implicit Types (e root new : Entry T).

Definition parent_is_dir root (dir : list rstr) : bool :=
  match descend root dir with Some d => is_tree (kind d) | None => false end.

Lemma view_set_entries root name child q :
  is_tree (kind root) = true ->
  view (set_entries root (hm_insert name child (entries root))) q =
  match q with
  | [] => Some (attr root)
  | x :: q' => if bool_decide (x = name) then view child q' else view root q
  end.
Proof.
  intros Ht. unfold view. destruct q as [|x q]; [done|]. cbn [descend set_entries kind entries].
  rewrite Ht, hm_get_insert. by case_bool_decide.
Qed.

Lemma mknod_at_spec path root dir name new :
  is_tree (kind root) = true ->
  if parent_is_dir root dir then
    exists root', mknod_at path root (Normal <$> dir) (Some (Normal name)) new = Ok root' /\
      is_tree (kind root') = true /\
      forall q, view root' q = match strip_prefix (dir ++ [name]) q with
                               | Some rest => view new rest
                               | None => view root q
                               end
  else exists err, mknod_at path root (Normal <$> dir) (Some (Normal name)) new = Err err.
Proof.
  revert root. induction dir as [|step dir IH]; intros root Ht; unfold parent_is_dir.
  - simpl. rewrite Ht. eexists. split_and!; [done|done|]. intros q. rewrite view_set_entries by done.
    destruct q as [|x q]; simpl; [done|]. repeat case_bool_decide; by simplify_eq.
  - rewrite fmap_cons. cbn [descend mknod_at]. rewrite Ht.
    destruct (hm_get step (entries root)) as [child|] eqn:Ec; [|by eexists].
    destruct (is_tree (kind child)) eqn:Htc; cbn [negb].
    + specialize (IH child Htc). unfold parent_is_dir in IH.
      destruct (match descend child dir with Some d => is_tree (kind d) | None => false end).
      * destruct IH as (child' & -> & Htc' & Hv). cbn [mbind res_bind]. eexists. split_and!; [done|done|].
        intros q. rewrite view_set_entries by done. destruct q as [|x q]; simpl; [done|].
        destruct (bool_decide_reflect (x = step)) as [->|Hne].
        -- rewrite (bool_decide_true (step = step)) by done. rewrite Hv.
           destruct (strip_prefix _ q); [done|]. symmetry. by apply view_child.
        -- by rewrite (bool_decide_false (step = x)) by congruence.
      * destruct IH as (err & ->). by eexists.
    + destruct (match descend child dir with Some d => is_tree (kind d) | None => false end) eqn:E.
      { destruct dir; simpl in E; rewrite Htc in E; done. }
      by eexists.
Qed.
End mknod.

(** ** Properties *)

(** The walk.  Collecting a [ManifestWalker] ends and yields, each under its
    absolute path, exactly the entries below the root. *)
Theorem walk_yields_entries {T} `{!RelPath, !RelPathLaws} (root : Entry T) :
  entry_ok root -> names_ok root -> is_tree (kind root) = true ->
  exists nodes, walk root = Some nodes /\
    forall n, n ∈ nodes <->
      exists steps e, steps <> [] /\ descend root steps = Some e /\ n = mkNode (slash_path steps) e /\
                      get_path root (node_path n) = Some e.
Proof.
  intros Hok Hn Ht. exists (preorder [c_slash] root). split; [apply walk_preorder|]. intros n.
  change [c_slash] with (slash_path []). rewrite elem_of_preorder by done. simpl app. split.
  - intros (steps & e & Hne & Hd & ->). exists steps, e. split_and!; try done. simpl.
    rewrite get_path_names; [done|by eapply Hn].
  - intros (steps & e & Hne & Hd & -> & _). eauto.
Qed.

(** The order manifest nodes are sorted in is, at each level of their paths,
    directories first and then by name; it is therefore a total order on paths
    and kinds, and a directory comes before everything it contains. *)
Theorem node_order {T} `{!RelPath, !RelPathLaws} (n m : ManifestNode T) (l r : list rstr) :
  node_path n = slash_path l -> node_path m = slash_path r ->
  forallb name_ok l = true -> forallb name_ok r = true ->
  cmp n m = cmp (node_key (kind (node_entry n)) l) (node_key (kind (node_entry m)) r) /\
  (forall x xs, r = l ++ x :: xs -> kind (node_entry n) = KTree -> cmp n m = Lt).
Proof.
  intros Hn Hm Hl Hr.
  assert (cmp n m = cmp (node_key (kind (node_entry n)) l) (node_key (kind (node_entry m)) r)) as E.
  { unfold cmp at 1, cmp_ManifestNode. rewrite Hn, Hm, !rel_components_names by done.
    apply node_cmp_loop_key. }
  split; [exact E|]. intros x xs -> Hk. rewrite E, Hk, node_key_dir, node_key_below.
  apply cmp_strict_prefix, node_key_nonempty.
Qed.

(** C36: diffs are complete and exact.  The diff of two manifests has one item
    for every path that exists in either, but for masks in the second of what the
    first does not have, and says unchanged, changed, added or removed as the two
    sides compare there.  With debug assertions, a mask of nothing is a panic
    instead. *)
Theorem compute_diff_exact {T} `{!BuildProfile, !RelPath, !RelPathLaws} (a b : Entry T) :
  entry_ok a -> entry_ok b -> names_ok a -> names_ok b ->
  is_tree (kind a) = true -> is_tree (kind b) = true ->
  let useless steps := forallb name_ok steps = true /\ masks_nothing a b steps in
  (compute_diff a b = Some Panicked /\ debug_assertions = true /\ exists steps, useless steps) \/
  (exists ds, compute_diff a b = Some (Ok ds) /\ (debug_assertions = true -> forall steps, ~ useless steps) /\
    NoDup (diff_path_of <$> ds) /\
    forall d, d ∈ ds <->
      exists steps, steps <> [] /\ diff_path_of d = slash_path steps /\
                    diff_at a b steps = Some (diff_mode d) /\ forallb name_ok steps = true).
Proof.
  intros Ha Hb Hna Hnb Hta Htb useless. unfold compute_diff. rewrite !walk_preorder.
  change [c_slash] with (slash_path []). set (nodes := sort_slice _).
  assert (forall path, compared nodes [] path <-> exists steps e, steps <> [] /\ path = slash_path steps /\
    forallb name_ok steps = true /\ (descend a steps = Some e \/ descend b steps = Some e)) as Hc.
  { intros path. unfold compared, nodes. rewrite list_elem_of_fmap.
    setoid_rewrite (sort_slice_perm (preorder (slash_path []) a ++ preorder (slash_path []) b)).
    setoid_rewrite elem_of_app. setoid_rewrite elem_of_preorder; try done. split.
    - intros [(n & -> & [(steps & e & ? & ? & ->)|(steps & e & ? & ? & ->)]) _]; exists steps, e; cbn; eauto 10.
    - intros (steps & e & Hne & -> & Hs & He). split; [|by intros ?%elem_of_nil].
      exists (mkNode (slash_path steps) e). split; [done|]. destruct He; eauto 10. }
  pose proof (diff_loop_spec a b nodes []) as Hspec. destruct (diff_loop a b nodes []) as [ds|e|]; [right|done|left].
  - destruct Hspec as (Hnd & Hin & Hok). exists ds. split_and!; [done| |done|].
    + intros Hdebug steps [Hs Hm]. destruct (Hm) as (Hda & y & Hy & _).
      apply (Hok (slash_path steps)); [|by apply diff_path_panics]. apply Hc. exists steps, y. split_and!; try done; [|by right].
      intros ->. by destruct a.
    + intros d. rewrite Hin. split.
      * intros (path & (steps & e & Hne & -> & Hs & He)%Hc & Hd). pose proof (diff_path_path _ _ _ _ Hd) as Hp.
        rewrite diff_path_at in Hd by done. exists steps. split_and!; try done.
        destruct (diff_at a b steps); [by simplify_eq/=|]. by destruct (descend b steps), debug_assertions.
      * intros (steps & Hne & Hp & Hd & Hs). exists (slash_path steps). split.
        -- apply Hc. unfold diff_at in Hd. destruct (descend a steps) as [x|] eqn:Ex; [exists steps, x; split_and!; auto|].
           destruct (descend b steps) as [y|] eqn:Ey; [exists steps, y; split_and!; auto|done].
        -- rewrite diff_path_at, Hd by done. destruct d as [md p]. cbn in *. by subst.
  - destruct Hspec as (path & (steps & e & Hne & -> & Hs & He)%Hc & [Hdebug Hm]%diff_path_panics); [|done].
    split_and!; [done..|]. by exists steps.
Qed.

(** Creating an entry.  [mknod] succeeds exactly when the parent is a
    directory of the manifest; then the new entry is what its path shows and
    every other path shows what it did. *)
Theorem mknod_exact {T} `{!RelPath, !RelPathLaws} (root new : Entry T) (dir : list rstr) (name : rstr) :
  is_tree (kind root) = true -> forallb name_ok (dir ++ [name]) = true ->
  if parent_is_dir root dir then
    exists root', mknod root (slash_path (dir ++ [name])) new = Ok root' /\
      forall q, view root' q = match strip_prefix (dir ++ [name]) q with
                               | Some rest => view new rest
                               | None => view root q
                               end
  else exists err, mknod root (slash_path (dir ++ [name])) new = Err err.
Proof.
  intros Ht Hok. unfold mknod, slash_path. cbn [trim_leading_slash]. rewrite N.eqb_refl.
  rewrite trim_leading_join by done.
  assert (join [c_slash] (dir ++ [name]) <> []) as Hne.
  { pose proof Hok as Hok'. rewrite forallb_app in Hok'. apply andb_true_iff in Hok' as [_ Hn].
    simpl in Hn. rewrite andb_true_r in Hn. apply name_ok_split in Hn as (Hn & _).
    destruct (join_last dir name Hn) as (s & x & -> & _). by destruct s. }
  destruct (join [c_slash] (dir ++ [name])) as [|c p] eqn:E; [done|]. cbn [str_is_empty]. rewrite <-E.
  rewrite rel_components_relative by done. rewrite fmap_app. change (Normal <$> [name]) with [Normal name].
  rewrite last_snoc, removelast_last.
  pose proof (mknod_at_spec (rel_normalize (join [c_slash] (dir ++ [name]))) root dir name new Ht) as Hs.
  destruct (parent_is_dir root dir); [|done]. destruct Hs as (root' & ? & _ & ?). eauto.
Qed.

(** ** Witnesses *)

(** A path library for paths of names. *)
Definition to_component (s : rstr) : component :=
  if bool_decide (s = lit ".") then CurDir else if bool_decide (s = lit "..") then ParentDir else Normal s.
#[export] Instance simple_paths : RelPath := {
  rel_normalize := fun p => p;
  rel_components := fun p => to_component <$> List.filter (fun s => negb (str_is_empty s)) (split c_slash p);
  rel_join := fun p name =>
    match last p with Some c => if (c =? c_slash)%N then p ++ name else p ++ [c_slash] ++ name | None => name end;
}.

Lemma names_components l :
  forallb name_ok l = true ->
  to_component <$> List.filter (fun s => negb (str_is_empty s)) l = Normal <$> l.
Proof.
  induction l as [|w l IH]; [done|]. simpl. intros [Hw Hl]%andb_true_iff.
  pose proof (name_ok_split w Hw) as (Hne & _ & Hd & Hdd). destruct w as [|c w]; [done|]. simpl.
  f_equal; [|by apply IH]. unfold to_component. by rewrite !bool_decide_false by done.
Qed.

Lemma names_no_slash l : forallb name_ok l = true -> Forall (fun w => str_contains c_slash w = false) l.
Proof.
  rewrite forallb_forall. intros H. apply Forall_forall. intros w Hw%list_elem_of_In.
  by apply H, name_ok_split in Hw as (_ & ? & _).
Qed.

Lemma join_snoc (sep : rstr) l w : l <> [] -> join sep (l ++ [w]) = join sep l ++ sep ++ w.
Proof.
  intros Hl. induction l as [|x l IH]; [done|]. destruct l as [|y l]; [done|].
  change (join sep ((x :: y :: l) ++ [w])) with (x ++ sep ++ join sep ((y :: l) ++ [w])).
  change (join sep (x :: y :: l)) with (x ++ sep ++ join sep (y :: l)).
  rewrite IH by done. by rewrite <-!(assoc_L (++)).
Qed.

#[export] Instance simple_paths_laws : RelPathLaws.
Proof.
  assert (forall l, forallb name_ok l = true ->
    rel_components (rel_normalize (join [c_slash] l)) = Normal <$> l) as Hrel.
  { intros l Hl. simpl. destruct l as [|w l]; [done|].
    rewrite split_join by (done || by apply names_no_slash). by apply names_components. }
  split; [|intros l Hl|exact Hrel].
  - intros l name Hl. unfold slash_path. simpl. destruct l as [|w l _] using rev_ind; [done|].
    rewrite forallb_app in Hl. apply andb_true_iff in Hl as [Hl _]. rewrite forallb_app in Hl.
    apply andb_true_iff in Hl as [_ Hw]. simpl in Hw. rewrite andb_true_r in Hw.
    pose proof (name_ok_split w Hw) as (Hne & Hs & _).
    destruct (join_last l w Hne) as (s & x & E & Hx).
    assert (last (c_slash :: join [c_slash] (l ++ [w])) = Some x) as ->
      by (rewrite E, app_comm_cons; apply last_snoc).
    assert ((x =? c_slash)%N = false) as ->.
    { apply N.eqb_neq. intros ->. apply not_true_iff_false in Hs. apply Hs. apply existsb_exists.
      exists c_slash. split; [by apply list_elem_of_In|done]. }
    rewrite (join_snoc _ (l ++ [w])) by by destruct l. done.
  - rewrite <-(Hrel l Hl). simpl. done.
Qed.

Definition two_files : Entry unit :=
  dir_of [(lit "d", dir_of [(lit "f", file_entry)]); (lit "g", file_entry)].
Definition masked_dir : Entry unit := dir_of [(lit "d", mask_entry); (lit "g", file_entry)].

Lemma two_files_ok : entry_ok two_files.
Proof. unfold two_files. concrete_entry_ok. Qed.
Lemma masked_dir_ok : entry_ok masked_dir.
Proof. unfold masked_dir. concrete_entry_ok. Qed.
Lemma two_files_names : names_ok two_files.
Proof.
  intros steps e' H. destruct steps as [|s steps]; [done|]. simpl in H.
  repeat case_bool_decide; subst; try done; destruct steps as [|s' steps]; try done; simpl in H;
    repeat case_bool_decide; subst; try done; by destruct steps.
Qed.
Lemma masked_dir_names : names_ok masked_dir.
Proof.
  intros steps e' H. destruct steps as [|s steps]; [done|]. simpl in H.
  repeat case_bool_decide; subst; try done; by destruct steps.
Qed.

Lemma walk_yields_entries_witness :
  exists nodes, walk two_files = Some nodes /\
    (mkNode (lit "/d/f") file_entry ∈ nodes).
Proof.
  destruct (walk_yields_entries two_files two_files_ok two_files_names ltac:(reflexivity))
    as (nodes & Hw & Hn).
  exists nodes. split; [exact Hw|]. apply Hn. exists [lit "d"; lit "f"], file_entry.
  split_and!; try reflexivity. discriminate.
Defined.

Lemma node_order_witness :
  cmp (mkNode (lit "/d") (dir_of [])) (mkNode (lit "/d/f") file_entry) = Lt.
Proof.
  apply (proj2 (node_order (mkNode (lit "/d") (dir_of [])) (mkNode (lit "/d/f") file_entry)
    [lit "d"] [lit "d"; lit "f"] eq_refl eq_refl eq_refl eq_refl) (lit "f") []); reflexivity.
Defined.

#[local] Instance debug_profile : BuildProfile := true.
(** A mask of nothing stops a debug build. *)
Example useless_mask_panics :
  compute_diff (dir_of [(lit "f", file_entry)]) (dir_of [(lit "g", mask_entry)]) = Some Panicked.
Proof. vm_compute. reflexivity. Qed.
Lemma compute_diff_exact_witness :
  exists ds, compute_diff two_files masked_dir = Some (Ok ds) /\ NoDup (diff_path_of <$> ds) /\
    (mkDiff _ _ (Removed (dir_of [(lit "f", file_entry)])) (lit "/d") ∈ ds).
Proof.
  destruct (compute_diff_exact two_files masked_dir two_files_ok masked_dir_ok two_files_names
    masked_dir_names ltac:(reflexivity) ltac:(reflexivity)) as [(Hp & _)|(ds & Hc & _ & Hnd & Hd)]; [vm_compute in Hp; done|].
  exists ds. split_and!; [exact Hc|exact Hnd|]. apply Hd. exists [lit "d"].
  split_and!; try reflexivity. discriminate.
Defined.

Lemma mknod_exact_witness :
  exists root', mknod two_files (lit "/d/h") mask_entry = Ok root' /\
    view root' [lit "d"; lit "h"] = Some (attr mask_entry).
Proof.
  destruct (mknod_exact two_files mask_entry [lit "d"] (lit "h") ltac:(reflexivity) ltac:(reflexivity))
    as (root' & Hm & Hv).
  exists root'. split; [exact Hm|]. rewrite Hv. reflexivity.
Defined.
