(* ===== verification/Objects.v ===== *)
(** * Objects of the graph

    Models crates/spfs/src/graph: the platforms, layers, manifests and blobs that
    are persisted (platform.rs, stack.rs, layer.rs, annotation.rs, manifest.rs,
    tree.rs, entry.rs, blob.rs), their header, digests, legacy binary form and
    children (object.rs, kind.rs).

    An object is its header's bytes and its contents.  The flatbuffers crate,
    which lays out the contents in memory and reads them back, is a parameter of
    the definitions that use its format; a buffer of a manifest has at least one
    tree, as everything that builds one sees to. *)

From stdpp Require Import gmap.
From S2P Require Import Prelude Strings Collections Encoding TagSpec Tags Entry Manifest.

#[local] Set Warnings "-register-all".

#[export] Instance Digest_countable : Countable Digest :=
  inj_countable' digest_bytes mkDigest (fun d => match d with mkDigest _ => eq_refl end).

(** ** Errors *)

Inductive ObjectKind := KindBlob | KindManifest | KindLayer | KindPlatform | KindTree | KindMask.
#[export] Instance ObjectKind_eq_dec : EqDecision ObjectKind.
Proof. solve_decision. Defined.

(** The errors of objects and of the repositories that store them. *)
Inductive SpfsError :=
| HeaderTooShort
| HeaderMissingPrefix
| UnexpectedKind (kind : N)
| UnknownEncoding (format : N)
| UnknownDigestStrategy (strategy : N)
| InvalidFlatbuffer
| InvalidLayer (reason : rstr)
| EncodingErr (e : EncodingError)
| EntryErr (e : EntryError)
| UnknownObject (digest : Digest)
| UnknownReference (reference : rstr)
| AmbiguousReference (reference : rstr)
| NotCorrectKind (desired : ObjectKind) (digest : Digest)
| ObjectMissingPayload (digest : Digest)
| StorageReadError (what : rstr)
| StorageWriteError (what : rstr)
| NoRenderStorage
| StringError (message : rstr).

Definition encoded {A} (r : res EncodingError A) : res SpfsError A := map_error EncodingErr r.

(** ** Headers *)

Definition ObjectKind_number (kind : ObjectKind) : N :=
  match kind with
  | KindBlob => 0 | KindManifest => 1 | KindLayer => 2 | KindPlatform => 3 | KindTree => 4 | KindMask => 5
  end.
Definition ObjectKind_from_u8 (number : N) : option ObjectKind :=
  List.find (fun kind => (ObjectKind_number kind =? number)%N)
    [KindBlob; KindManifest; KindLayer; KindPlatform; KindTree; KindMask].

Inductive DigestStrategy := DigestLegacy | WithKindAndSalt.
Inductive EncodingFormat := EncodingLegacy | FlatBuffers.
Definition DigestStrategy_number (s : DigestStrategy) : N := match s with DigestLegacy => 0 | WithKindAndSalt => 1 end.
Definition DigestStrategy_from_u8 (value : N) : option DigestStrategy :=
  match value with 0%N => Some DigestLegacy | 1%N => Some WithKindAndSalt | _ => None end.
Definition EncodingFormat_number (f : EncodingFormat) : N := match f with EncodingLegacy => 0 | FlatBuffers => 1 end.
Definition EncodingFormat_from_u8 (value : N) : option EncodingFormat :=
  match value with 0%N => Some EncodingLegacy | 1%N => Some FlatBuffers | _ => None end.

(** The first bytes of an object: [--SPFS--], a newline and eight more. *)
Definition HEADER_PREFIX : list N := as_bytes (lit "--SPFS--") ++ [c_newline].
Definition HEADER_SIZE : nat := 17.
Definition header_byte (offset : nat) (header : list N) : N := nth (9 + offset) header 0%N.
Definition digest_strategy_number (header : list N) : N := header_byte 0 header.
Definition encoding_format_number (header : list N) : N := header_byte 1 header.
Definition object_kind_number (header : list N) : N := header_byte 7 header.
Definition digest_strategy (header : list N) : option DigestStrategy :=
  DigestStrategy_from_u8 (digest_strategy_number header).
Definition encoding_format (header : list N) : option EncodingFormat :=
  EncodingFormat_from_u8 (encoding_format_number header).
Definition object_kind (header : list N) : option ObjectKind := ObjectKind_from_u8 (object_kind_number header).

(** [Header::new]: the header that a buffer starts with. *)
Definition Header_new (buf : list N) : res SpfsError (list N) :=
  if length buf <? HEADER_SIZE then Err HeaderTooShort
  else if bool_decide (take 9 buf = HEADER_PREFIX) then Ok (take HEADER_SIZE buf)
  else Err HeaderMissingPrefix.

Record HeaderBuilder := mkHeaderBuilder {
  hb_digest_strategy : DigestStrategy; hb_encoding_format : EncodingFormat; hb_object_kind : ObjectKind
}.
(** The storage section of the configuration; without one, the oldest formats. *)
Definition StorageConfig : Type := option (DigestStrategy * EncodingFormat).
Definition HeaderBuilder_new (config : StorageConfig) (kind : ObjectKind) : HeaderBuilder :=
  match config with
  | Some (strategy, format) => mkHeaderBuilder strategy format kind
  | None => mkHeaderBuilder DigestLegacy EncodingLegacy kind
  end.
Definition with_object_kind (kind : ObjectKind) (self : HeaderBuilder) : HeaderBuilder :=
  mkHeaderBuilder (hb_digest_strategy self) (hb_encoding_format self) kind.
Definition HeaderBuilder_copy_from (self : HeaderBuilder) (other : list N) : HeaderBuilder :=
  mkHeaderBuilder (default (hb_digest_strategy self) (digest_strategy other))
    (default (hb_encoding_format self) (encoding_format other))
    (default (hb_object_kind self) (object_kind other)).
Definition HeaderBuilder_build (self : HeaderBuilder) : list N :=
  HEADER_PREFIX ++
  [DigestStrategy_number (hb_digest_strategy self); EncodingFormat_number (hb_encoding_format self); 0; 0; 0; 0; 0;
   ObjectKind_number (hb_object_kind self)]%N.

(** ** Stacks

    The linked list from the bottom up. *)
Definition Stack : Type := list Digest.
Fixpoint Stack_push (digest : Digest) (self : Stack) : Stack * bool :=
  match self with
  | [] => ([digest], true)
  | value :: next =>
      if bool_decide (value = digest) then
        match next with
        | [] => (self, false)
        | _ => Stack_push digest next
        end
      else let '(next, changed) := Stack_push digest next in (value :: next, changed)
  end.
Definition Stack_extend (self : Stack) (items : list Digest) : Stack :=
  foldl (fun self digest => (Stack_push digest self).1) self items.
Definition Stack_from_iter (items : list Digest) : Stack := Stack_extend [] items.
Definition to_top_down (self : Stack) : list Digest := reverse self.
(** How stacks are stored in text: from the top down. *)
Definition Stack_serialize (self : Stack) : list Digest := to_top_down self.
Definition Stack_deserialize (items : list Digest) : Stack := Stack_from_iter (reverse items).

(** ** Contents *)

Inductive AnnotationValue := AnnotationString (value : rstr) | AnnotationBlob (digest : Digest).
Record Annotation := mkAnnotation { an_key : rstr; an_value : AnnotationValue }.
Definition Annotation_child_objects (self : Annotation) : list Digest :=
  match an_value self with AnnotationBlob digest => [digest] | AnnotationString _ => [] end.
(** The length of a string is in bytes; a digest's is 32. *)
Definition Annotation_size (self : Annotation) : N :=
  match an_value self with AnnotationString value => str_len value | AnnotationBlob digest => N.of_nat (length (digest_bytes digest)) end.

(** An entry of a tree: the size that is stored is that of a blob, or a number
    that only digests take into account. *)
Record GEntry := mkGEntry { ge_name : rstr; ge_kind : EntryKind; ge_mode : N; ge_size_for_legacy_encode : N; ge_object : Digest }.
(** [Entry::build]: the kind of a blob keeps its size in the size field. *)
Definition GEntry_build (name : rstr) (kind : EntryKind) (mode size : N) (object : Digest) : GEntry :=
  mkGEntry name (if is_blob kind then KBlob size else kind) mode size object.
Definition GEntry_from {T} (name : rstr) (entry : Entry T) : GEntry :=
  GEntry_build name (kind entry) (mode entry) (size_for_legacy_encode entry) (object entry).
Definition GEntry_size (self : GEntry) : N := match ge_kind self with KBlob size => size | _ => 0 end.
Definition GTree : Type := list GEntry.

Record GManifest := mkGManifest { gm_root : GTree; gm_trees : list GTree }.
Definition iter_trees (self : GManifest) : list GTree := gm_root self :: gm_trees self.
Definition iter_entries (self : GManifest) : list GEntry := concat (iter_trees self).
Definition GManifest_child_objects (self : GManifest) : list Digest :=
  bset_extend [] (ge_object <$> List.filter (fun entry => is_blob (ge_kind entry)) (iter_entries self)).

Record Layer := mkLayer { ly_manifest : option Digest; ly_annotations : list Annotation }.
Definition Layer_child_objects (self : Layer) : list Digest :=
  match ly_manifest self with Some digest => [digest] | None => [] end ++
  (ly_annotations self ≫= Annotation_child_objects).
(** [PartialEq]: only the manifest counts. *)
Definition Layer_eq (self other : Layer) : bool := bool_decide (ly_manifest self = ly_manifest other).

Record Platform := mkPlatform { pf_layers : list Digest }.
Definition Platform_from_stack (stack : Stack) : Platform := mkPlatform (Stack_extend [] stack).
Definition Platform_from_iter (items : list Digest) : Platform := Platform_from_stack (Stack_from_iter items).
Definition to_stack (self : Platform) : Stack := Stack_from_iter (pf_layers self).

Record Blob := mkBlob { bl_payload : Digest; bl_size : N }.

Inductive Enum :=
| ObjPlatform (platform : Platform)
| ObjLayer (layer : Layer)
| ObjManifest (manifest : GManifest)
| ObjBlob (blob : Blob).
Record Object := mkObject { obj_header : list N; to_enum : Enum }.
Definition Enum_kind (self : Enum) : ObjectKind :=
  match self with
  | ObjPlatform _ => KindPlatform | ObjLayer _ => KindLayer | ObjManifest _ => KindManifest | ObjBlob _ => KindBlob
  end.
Definition Enum_child_objects (self : Enum) : list Digest :=
  match self with
  | ObjPlatform platform => pf_layers platform
  | ObjLayer layer => Layer_child_objects layer
  | ObjManifest manifest => GManifest_child_objects manifest
  | ObjBlob _ => []
  end.
Definition child_objects (self : Object) : list Digest := Enum_child_objects (to_enum self).
(** [kind] and [has_payload] go by the header, which was validated. *)
Definition Object_kind (self : Object) : res SpfsError ObjectKind :=
  match object_kind (obj_header self) with Some kind => Ok kind | None => Panicked end.
Definition has_payload_of (self : Object) : res SpfsError bool := (fun kind => bool_decide (kind = KindBlob)) <$> Object_kind self.
Definition new_with_default_header (config : StorageConfig) (contents : Enum) : Object :=
  mkObject (HeaderBuilder_build (HeaderBuilder_new config (Enum_kind contents))) contents.
Definition Blob_new (config : StorageConfig) (payload : Digest) (size : N) : Object :=
  new_with_default_header config (ObjBlob (mkBlob payload size)).

(** ** Binary form *)

Definition AnnotationValue_legacy_encode (writer : list N) (self : AnnotationValue) : res SpfsError (list N) :=
  encoded match self with
          | AnnotationString v => writer ← write_uint8 writer 1; write_string writer v
          | AnnotationBlob v => writer ← write_uint8 writer 2; write_digest writer v
          end.
Definition Annotation_legacy_encode (writer : list N) (self : Annotation) : res SpfsError (list N) :=
  writer ← encoded (write_string writer (an_key self));
  AnnotationValue_legacy_encode writer (an_value self).
Definition Layer_digest_encode (writer : list N) (self : Layer) : res SpfsError (list N) :=
  match ly_manifest self, ly_annotations self with
  | Some digest, annotations =>
      writer ← encoded (write_digest writer digest);
      try_fold Annotation_legacy_encode writer annotations
  | None, _ :: _ => try_fold Annotation_legacy_encode writer (ly_annotations self)
  | None, [] => Err (InvalidLayer (lit "it has no manifest or annotation data"))
  end.
Definition Layer_legacy_encode (writer : list N) (self : Layer) : res SpfsError (list N) :=
  match ly_annotations self, ly_manifest self with
  | _ :: _, _ => Err (InvalidLayer (lit "it has annotation data. Annotations are not supported with legacy encoding"))
  | [], Some digest => encoded (write_digest writer digest)
  | [], None => Err (InvalidLayer (lit "it has no manifest data"))
  end.
(** [digest_encode] and [legacy_encode] of platforms, from the top down. *)
Definition Platform_encode (writer : list N) (self : Platform) : res SpfsError (list N) :=
  writer ← encoded (write_uint64 writer (N.of_nat (length (pf_layers self))));
  try_fold (fun writer digest => encoded (write_digest writer digest)) writer (reverse (pf_layers self)).
(** [digest_encode] and [legacy_encode] of entries, trees and manifests. *)
Definition GEntry_encode (writer : list N) (self : GEntry) : res SpfsError (list N) :=
  writer ← encoded (write_digest writer (ge_object self));
  writer ← map_error EntryErr (EntryKind_encode writer (ge_kind self));
  writer ← encoded (write_uint64 writer (ge_mode self));
  writer ← encoded (write_uint64 writer (ge_size_for_legacy_encode self));
  encoded (write_string writer (ge_name self)).
Definition by_name : Cmp GEntry := cmp_on ge_name.
Definition GTree_encode (writer : list N) (self : GTree) : res SpfsError (list N) :=
  writer ← encoded (write_uint64 writer (N.of_nat (length self)));
  try_fold GEntry_encode writer (@sort_slice _ by_name self).
Definition GManifest_encode (writer : list N) (self : GManifest) : res SpfsError (list N) :=
  writer ← GTree_encode writer (gm_root self);
  writer ← encoded (write_uint64 writer (N.of_nat (length (gm_trees self))));
  try_fold GTree_encode writer (gm_trees self).
Definition Blob_legacy_encode (writer : list N) (self : Blob) : res SpfsError (list N) :=
  writer ← encoded (write_digest writer (bl_payload self));
  encoded (write_uint64 writer (bl_size self)).

(** [Vec::with_capacity] panics when the bytes asked for do not fit an [isize]. *)
Definition with_capacity (count element_size : N) : res SpfsError unit :=
  if (9223372036854775807 <? count * element_size)%N then Panicked else Ok tt.
(** A loop that reads [count] items. *)
Fixpoint read_times {A} (read : reader -> res SpfsError (A * reader)) (count : nat) (r : reader) :
    res SpfsError (list A * reader) :=
  match count with
  | O => Ok ([], r)
  | S count =>
      '(item, r) ← read r;
      '(items, r) ← read_times read count r;
      Ok (item :: items, r)
  end.
Definition GEntry_legacy_decode (r : reader) : res SpfsError (GEntry * reader) :=
  '(object, r) ← encoded (read_digest r);
  '(kind, r) ← map_error EntryErr (EntryKind_decode r);
  '(mode, r) ← encoded (read_uint64 r);
  '(size, r) ← encoded (read_uint64 r);
  '(name, r) ← encoded (read_string r);
  let kind := if is_blob kind then KBlob size else kind in
  Ok (GEntry_build name kind (mode mod 4294967296) size object, r).
Definition GTree_legacy_decode (r : reader) : res SpfsError (GTree * reader) :=
  '(entry_count, r) ← encoded (read_uint64 r);
  read_times GEntry_legacy_decode (N.to_nat entry_count) r.
(** The capacity is one more than the count, which wraps. *)
Definition GManifest_legacy_decode (r : reader) : res SpfsError (GManifest * reader) :=
  '(root, r) ← GTree_legacy_decode r;
  '(num_trees, r) ← encoded (read_uint64 r);
  _ ← with_capacity (u64_add num_trees 1) 4;
  '(trees, r) ← read_times GTree_legacy_decode (N.to_nat num_trees) r;
  Ok (mkGManifest root trees, r).
Definition Platform_legacy_decode (r : reader) : res SpfsError (Platform * reader) :=
  '(num_layers, r) ← encoded (read_uint64 r);
  _ ← with_capacity num_layers 32;
  '(layers, r) ← read_times (fun r => encoded (read_digest r)) (N.to_nat num_layers) r;
  Ok (Platform_from_iter (reverse layers), r).
Definition Layer_legacy_decode (r : reader) : res SpfsError (Layer * reader) :=
  '(digest, r) ← encoded (read_digest r); Ok (mkLayer (Some digest) [], r).
Definition Blob_legacy_decode (r : reader) : res SpfsError (Blob * reader) :=
  '(payload, r) ← encoded (read_digest r);
  '(size, r) ← encoded (read_uint64 r);
  Ok (mkBlob payload size, r).

(** The layout of contents by the flatbuffers crate, and its reading back. *)
Class Flatbuffers := { flatbuffer_of : Enum -> list N; flatbuffer_root : list N -> option Enum }.
Section objects.
Context `{!Flatbuffers} (config : StorageConfig).

Definition Enum_legacy_encode (writer : list N) (self : Enum) : res SpfsError (list N) :=
  match self with
  | ObjBlob blob => Blob_legacy_encode writer blob
  | ObjManifest manifest => GManifest_encode writer manifest
  | ObjLayer layer => Layer_legacy_encode writer layer
  | ObjPlatform platform => Platform_encode writer platform
  end.
(** [Encodable for FlatObject]. *)
Definition Object_encode (writer : list N) (self : Object) : res SpfsError (list N) :=
  match encoding_format (obj_header self) with
  | None => Panicked
  | Some EncodingLegacy => Enum_legacy_encode (write_all writer (obj_header self)) (to_enum self)
  | Some FlatBuffers => Ok (write_all (write_all writer (obj_header self)) (flatbuffer_of (to_enum self)))
  end.
(** The contents in the legacy format, by the kind in the header. *)
Definition Enum_legacy_decode (kind : ObjectKind) (r : reader) : res SpfsError Enum :=
  match kind with
  | KindBlob => '(blob, _) ← Blob_legacy_decode r; Ok (ObjBlob blob)
  | KindManifest => '(manifest, _) ← GManifest_legacy_decode r; Ok (ObjManifest manifest)
  | KindLayer => '(layer, _) ← Layer_legacy_decode r; Ok (ObjLayer layer)
  | KindPlatform => '(platform, _) ← Platform_legacy_decode r; Ok (ObjPlatform platform)
  | KindTree | KindMask => Err (UnexpectedKind (ObjectKind_number kind))
  end.
(** [Object::new], with how the buffered reader cuts the bytes after the header. *)
Definition Object_new (buffered : list N -> reader) (bytes : list N) : res SpfsError Object :=
  header ← Header_new bytes;
  match object_kind header, encoding_format header with
  | None, _ => Err (UnexpectedKind (object_kind_number header))
  | Some _, None => Err (UnknownEncoding (encoding_format_number header))
  | Some kind, Some EncodingLegacy =>
      contents ← Enum_legacy_decode kind (buffered (drop HEADER_SIZE bytes));
      let builder := HeaderBuilder_copy_from (HeaderBuilder_new config kind) header in
      Ok (mkObject (HeaderBuilder_build (with_object_kind kind builder)) contents)
  | Some _, Some FlatBuffers =>
      match flatbuffer_root (drop HEADER_SIZE bytes) with
      | None => Err InvalidFlatbuffer
      | Some contents => Ok (mkObject header contents)
      end
  end.

(** ** Digests *)

Context (sha256 : list N -> Digest).
Definition DIGEST_SALT : list N :=
  as_bytes (lit "spfs digest da8d8e62-9459-11ee-adab-00155dcb338b") ++ [0%N].
Definition Enum_digest_encode (writer : list N) (self : Enum) : res SpfsError (list N) :=
  match self with
  | ObjPlatform platform => Platform_encode writer platform
  | ObjLayer layer => Layer_digest_encode writer layer
  | ObjManifest manifest => GManifest_encode writer manifest
  | ObjBlob _ => Panicked
  end.
(** What the hasher is given. *)
Definition hashed_text (header : list N) (strategy : DigestStrategy) (contents : Enum) : res SpfsError (list N) :=
  Enum_digest_encode
    match strategy with
    | DigestLegacy => []
    | WithKindAndSalt => DIGEST_SALT ++ [object_kind_number header]
    end contents.
(** [Digestible for FlatObject]: a blob has the digest of its payload. *)
Definition Object_digest (self : Object) : res SpfsError Digest :=
  match digest_strategy (obj_header self) with
  | None => Err (UnknownDigestStrategy (digest_strategy_number (obj_header self)))
  | Some strategy =>
      match to_enum self with
      | ObjBlob blob => Ok (bl_payload blob)
      | contents => sha256 <$> hashed_text (obj_header self) strategy contents
      end
  end.
Definition GTree_digest (self : GTree) : res SpfsError Digest := sha256 <$> GTree_encode [] self.
End objects.
