(* ===== verification/ObjectTheory.v ===== *)
(** * Theory of objects

    Stacks hold every digest once, in the order in which they were pushed last;
    objects are read back from their binary form; and what is hashed determines
    the contents ([Objects]). *)

From stdpp Require Import gmap.
From S2P Require Import Prelude Strings Collections Encoding TagSpec Tags Entry Manifest Objects.

#[local] Set Warnings "-register-all".

(** ** Stacks *)

Lemma Stack_push_new d self : d ∉ self -> Stack_push d self = (self ++ [d], true).
Proof.
  induction self as [|v self IH]; [done|]. intros [Hv Hn]%not_elem_of_cons. cbn [Stack_push].
  rewrite bool_decide_false by done. by rewrite IH.
Qed.
Lemma Stack_push_spec d self : NoDup self ->
  Stack_push d self = (List.filter (fun v => negb (bool_decide (v = d))) self ++ [d], negb (bool_decide (last self = Some d))).
Proof.
  induction 1 as [|v self Hv Hself IH]; [done|]. cbn [Stack_push List.filter].
  destruct (bool_decide_reflect (v = d)) as [-> | Hd]; cbn [negb].
  - destruct self as [|v' self]; [by rewrite bool_decide_true|]. rewrite Stack_push_new by done.
    rewrite bool_decide_false.
    + f_equal. symmetry. f_equal. apply (forallb_filter_id (fun v => negb (bool_decide (v = d)))), forallb_forall.
      intros x Hx%list_elem_of_In. apply negb_true_iff, bool_decide_eq_false. by intros ->.
    + cbn [last]. intros Hl. apply Hv, last_Some_elem_of, Hl.
  - rewrite IH. cbn [app]. f_equal. destruct self as [|v' self]; [|done].
    cbn [last]. by rewrite !bool_decide_false by congruence.
Qed.
(** The digests of a list without those that come again. *)
Fixpoint last_occurrences (items : list Digest) : list Digest :=
  match items with
  | [] => []
  | d :: items => if bool_decide (d ∈ items) then last_occurrences items else d :: last_occurrences items
  end.
Lemma elem_of_last_occurrences d items : d ∈ last_occurrences items <-> d ∈ items.
Proof. induction items as [|x items IH]; [done|]. cbn [last_occurrences]. case_bool_decide; set_solver. Qed.
Lemma last_occurrences_NoDup items : NoDup (last_occurrences items).
Proof.
  induction items as [|x items IH]; cbn [last_occurrences]; [constructor|]. case_bool_decide; [done|].
  constructor; [by rewrite elem_of_last_occurrences|done].
Qed.
Lemma last_occurrences_snoc items d :
  last_occurrences (items ++ [d]) = List.filter (fun v => negb (bool_decide (v = d))) (last_occurrences items) ++ [d].
Proof.
  induction items as [|x items IH]; [done|]. cbn [last_occurrences app]. rewrite IH.
  destruct (decide (x = d)) as [-> | Hx].
  - rewrite bool_decide_true by set_solver. case_bool_decide; [done|]. cbn [List.filter].
    by rewrite bool_decide_true.
  - rewrite (bool_decide_ext (x ∈ items ++ [d]) (x ∈ items)) by set_solver.
    case_bool_decide; [done|]. cbn [List.filter]. by rewrite bool_decide_false.
Qed.
Lemma last_occurrences_id items : NoDup items -> last_occurrences items = items.
Proof. induction 1 as [|x items Hx _ IH]; [done|]. cbn [last_occurrences]. by rewrite bool_decide_false, IH. Qed.
Lemma Stack_from_iter_spec items : Stack_from_iter items = last_occurrences items.
Proof.
  unfold Stack_from_iter, Stack_extend. induction items as [|d items IH] using rev_ind; [done|].
  rewrite foldl_app, IH. cbn [foldl]. rewrite Stack_push_spec by apply last_occurrences_NoDup.
  by rewrite last_occurrences_snoc.
Qed.
Lemma Platform_from_iter_spec items : Platform_from_iter items = mkPlatform (last_occurrences items).
Proof.
  unfold Platform_from_iter, Platform_from_stack. rewrite Stack_from_iter_spec.
  change (Stack_extend []) with Stack_from_iter. rewrite Stack_from_iter_spec.
  by rewrite last_occurrences_id by apply last_occurrences_NoDup.
Qed.

(** A stack made of any digests holds each of them once, where it was pushed
    last; pushing says whether the stack changed; and a stack that is written from
    the top down is read back. *)
Theorem stack_exact items d :
  let stack := Stack_from_iter items in
  stack = last_occurrences items /\ NoDup stack /\
  Stack_push d stack = (Stack_from_iter (items ++ [d]), negb (bool_decide (last stack = Some d))) /\
  ((Stack_push d stack).2 = false <-> (Stack_push d stack).1 = stack) /\
  Stack_deserialize (Stack_serialize stack) = stack.
Proof.
  cbn zeta. rewrite !Stack_from_iter_spec. pose proof (last_occurrences_NoDup items) as Hn.
  rewrite Stack_push_spec, last_occurrences_snoc by done. cbn [fst snd]. split_and!; [done..| |].
  - rewrite negb_false_iff, bool_decide_eq_true. split.
    + intros (l & El)%last_Some. rewrite El in Hn |- *. rewrite List.filter_app. cbn [List.filter].
      rewrite bool_decide_true by done. cbn [negb]. rewrite app_nil_r. f_equal.
      apply (forallb_filter_id (fun v => negb (bool_decide (v = d)))), forallb_forall.
      intros x Hx%list_elem_of_In. apply negb_true_iff, bool_decide_eq_false. intros ->.
      apply NoDup_app in Hn as (_ & Hn & _). apply (Hn d Hx). by left.
    + intros <-. apply last_snoc.
  - unfold Stack_deserialize, Stack_serialize, to_top_down.
    by rewrite reverse_involutive, Stack_from_iter_spec, last_occurrences_id.
Qed.

(** ** Codecs

    Bytes that [write] appends for [a], whatever was written before, and that
    [read] reads [b] from, however the stream is cut. *)
Definition codec {E A B} (write : list N -> A -> res E (list N)) (read : reader -> res E (B * reader)) (a : A) (b : B) : Prop :=
  exists bytes, (forall writer, write writer a = Ok (writer ++ bytes)) /\ decodes read bytes b.
Lemma decodes_ret {E A} (a : A) : decodes (fun r => Ok (a, r) : res E _) [] a.
Proof. intros r rest Hr Hrem. by exists r. Qed.
Lemma decodes_bind {E A B} (read : reader -> res E (A * reader)) (next : A -> reader -> res E (B * reader)) bytes bytes' a b :
  decodes read bytes a -> decodes (next a) bytes' b -> decodes (fun r => '(x, r) ← read r; next x r) (bytes ++ bytes') b.
Proof.
  intros Ha Hb r rest Hr Hrem. rewrite <-(assoc_L (++)) in Hrem.
  destruct (Ha r _ Hr Hrem) as (r1 & -> & Hrem1 & Hr1). exact (Hb r1 rest Hr1 Hrem1).
Qed.
Lemma decodes_fmap {E A B} (f : A -> B) (read : reader -> res E (A * reader)) bytes a :
  decodes read bytes a -> decodes (fun r => '(x, r) ← read r; Ok (f x, r)) bytes (f a).
Proof. intros H r rest Hr Hrem. destruct (H r rest Hr Hrem) as (r' & -> & ?). by exists r'. Qed.
Lemma decodes_map_error {E E' A} (f : E -> E') (read : reader -> res E (A * reader)) bytes a :
  decodes read bytes a -> decodes (fun r => map_error f (read r)) bytes a.
Proof. intros H r rest Hr Hrem. destruct (H r rest Hr Hrem) as (r' & -> & ?). by exists r'. Qed.
Lemma codec_error {E E' A B} (f : E -> E') (write : list N -> A -> res E (list N)) (read : reader -> res E (B * reader)) a b :
  codec write read a b -> codec (fun w a => map_error f (write w a)) (fun r => map_error f (read r)) a b.
Proof.
  intros (bytes & Hw & Hr). exists bytes. split; [intros w; by rewrite Hw|]. by apply decodes_map_error.
Qed.
Lemma codec_list {A B} (write : list N -> A -> res SpfsError (list N)) (read : reader -> res SpfsError (B * reader)) l k :
  Forall2 (codec write read) l k -> codec (try_fold write) (read_times read (length l)) l k.
Proof.
  induction 1 as [|a b l k (bytes & Hw & Hr) Hl (bytes' & Hw' & Hr')].
  - exists []. split; [intros w; by rewrite app_nil_r|apply decodes_ret].
  - exists (bytes ++ bytes'). split.
    + intros w. cbn [try_fold]. rewrite Hw. cbn [mbind res_bind]. by rewrite Hw', (assoc_L (++)).
    + cbn [read_times length]. by apply (decodes_bind _ _ _ _ b (b :: k) Hr), decodes_fmap.
Qed.

(** ** The legacy form *)

(** What the form represents: digests of 32 bytes, ASCII names without NUL, numbers
    within their width, and the size of a blob stored as such. *)
Definition digest_ok (d : Digest) : Prop := length (digest_bytes d) = DIGEST_SIZE /\ Forall (fun b => (b < 256)%N) (digest_bytes d).
Definition name_ok (s : rstr) : Prop := forallb (fun c => c <? 128)%N s = true /\ str_contains 0%N s = false.
Definition entry_ok (e : GEntry) : Prop :=
  digest_ok (ge_object e) /\ name_ok (ge_name e) /\ is_u32 (ge_mode e) /\ is_u64 (ge_size_for_legacy_encode e) /\
  match ge_kind e with KBlob size => size = ge_size_for_legacy_encode e | _ => True end.
Definition tree_ok (t : GTree) : Prop := is_u64 (N.of_nat (length t)) /\ Forall entry_ok t.

Lemma uint64_codec u : is_u64 u -> codec write_uint64 read_uint64 u u.
Proof.
  intros Hu. exists (be_bytes 8 u). split; [done|].
  apply (decodes_map 8 (fun buf => Ok (from_be_bytes buf))); [apply be_bytes_length|].
  by rewrite from_be_bytes_be_bytes by (unfold is_u64, u64_max in Hu; lia).
Qed.
Lemma digest_codec d : digest_ok d -> codec write_digest read_digest d d.
Proof. intros [Hd _]. exists (digest_bytes d). split; [done|]. by apply read_digest_decodes. Qed.
Lemma string_codec s : name_ok s -> codec write_string read_string s s.
Proof.
  intros [Ha Hn]. exists (s ++ [0%N]). split; [|by apply read_string_decodes].
  intros w. unfold write_string, write_all. by rewrite Hn, as_bytes_ascii, (assoc_L (++)).
Qed.
Lemma kind_codec k : codec EntryKind_encode EntryKind_decode k (match k with KBlob _ => KBlob 0 | k => k end).
Proof.
  destruct (string_codec (EntryKind_to_string k)) as (bytes & Hw & Hr); [by destruct k|].
  exists bytes. split; [intros w; unfold EntryKind_encode; by rewrite Hw|].
  intros r rest Hok Hrem. destruct (Hr r rest Hok Hrem) as (r' & E & ?). exists r'. unfold EntryKind_decode.
  rewrite E. by destruct k.
Qed.

Lemma decodes_ext {E A} (read read' : reader -> res E (A * reader)) bytes a :
  (forall r, read r = read' r) -> decodes read bytes a -> decodes read' bytes a.
Proof. intros H Hd r rest Hr Hrem. rewrite <-H. by apply Hd. Qed.
Lemma entry_codec e : entry_ok e -> codec GEntry_encode GEntry_legacy_decode e e.
Proof.
  intros (Hd & Hn & Hm & Hs & Hk).
  destruct (digest_codec _ Hd) as (b1 & W1 & R1). destruct (kind_codec (ge_kind e)) as (b2 & W2 & R2).
  assert (is_u64 (ge_mode e)) as Hm' by (unfold is_u32, is_u64, u32_max, u64_max in *; lia).
  destruct (uint64_codec _ Hm') as (b3 & W3 & R3). destruct (uint64_codec _ Hs) as (b4 & W4 & R4).
  destruct (string_codec _ Hn) as (b5 & W5 & R5).
  exists (b1 ++ b2 ++ b3 ++ b4 ++ b5). split.
  - intros w. unfold GEntry_encode. rewrite W1. cbn [encoded map_error mbind res_bind]. rewrite W2.
    cbn [encoded map_error mbind res_bind]. rewrite W3. cbn [encoded map_error mbind res_bind]. rewrite W4.
    cbn [encoded map_error mbind res_bind]. rewrite W5. cbn [encoded map_error]. by rewrite !(assoc_L (++)).
  - unfold GEntry_legacy_decode.
    eapply decodes_bind; [apply decodes_map_error, R1|]. eapply decodes_bind; [apply decodes_map_error, R2|].
    eapply decodes_bind; [apply decodes_map_error, R3|]. eapply decodes_bind; [apply decodes_map_error, R4|].
    rewrite <-(app_nil_r b5). eapply decodes_bind; [apply decodes_map_error, R5|].
    rewrite N.mod_small by (unfold is_u32, u32_max in Hm; lia).
    destruct e as [name [] mode size object]; cbn in Hk; subst; apply decodes_ret.
Qed.

(** The legacy form keeps the entries of a tree sorted by name. *)
Definition sorted_tree (t : GTree) : GTree := @sort_slice _ by_name t.
Lemma sorted_tree_perm t : sorted_tree t ≡ₚ t.
Proof. apply sort_slice_perm. Qed.
Lemma codec_all {A} (write : list N -> A -> res SpfsError (list N)) (read : reader -> res SpfsError (A * reader)) (f : A -> A) l :
  Forall (fun a => codec write read a (f a)) l -> codec (try_fold write) (read_times read (length l)) l (f <$> l).
Proof. intros H. apply codec_list. induction H; by constructor. Qed.
(** A list after its length. *)
Lemma codec_counted {A} (write : list N -> list A -> res SpfsError (list N)) (read : nat -> reader -> res SpfsError (list A * reader))
    (check : N -> res SpfsError unit) l k :
  is_u64 (N.of_nat (length l)) -> check (N.of_nat (length l)) = Ok tt -> codec write (read (length l)) l k ->
  codec (fun w l => w ← encoded (write_uint64 w (N.of_nat (length l))); write w l)
    (fun r => '(count, r) ← encoded (read_uint64 r); _ ← check count; read (N.to_nat count) r) l k.
Proof.
  intros Hn Hc (bytes & Hw & Hr). destruct (uint64_codec _ Hn) as (bytes' & Hw' & Hr'). exists (bytes' ++ bytes). split.
  - intros w. rewrite Hw'. cbn [encoded map_error mbind res_bind]. by rewrite Hw, (assoc_L (++)).
  - eapply decodes_bind; [apply decodes_map_error, Hr'|]. cbv beta. rewrite Hc, Nat2N.id. exact Hr.
Qed.
Lemma tree_codec t : tree_ok t -> codec GTree_encode GTree_legacy_decode t (sorted_tree t).
Proof.
  intros [Hn Ht]. pose proof (sorted_tree_perm t) as Hperm.
  assert (codec (try_fold GEntry_encode) (read_times GEntry_legacy_decode (length t)) (sorted_tree t) (sorted_tree t)) as (bytes & Hw & Hr).
  { replace (length t) with (length (sorted_tree t)) by (by rewrite Hperm).
    pose proof (codec_all GEntry_encode GEntry_legacy_decode id (sorted_tree t)) as H. rewrite list_fmap_id in H.
    apply H. rewrite Hperm. eapply Forall_impl; [exact Ht|]. intros e He. by apply entry_codec. }
  apply (codec_counted (fun w t => try_fold GEntry_encode w (sorted_tree t)) (read_times GEntry_legacy_decode) (fun _ => Ok tt)); [done..|].
  by exists bytes.
Qed.
Definition manifest_ok (m : GManifest) : Prop :=
  tree_ok (gm_root m) /\ Forall tree_ok (gm_trees m) /\ (N.of_nat (length (gm_trees m)) < 2305843009213693951)%N.
Definition sorted_manifest (m : GManifest) : GManifest := mkGManifest (sorted_tree (gm_root m)) (sorted_tree <$> gm_trees m).
Lemma manifest_codec m : manifest_ok m -> codec GManifest_encode GManifest_legacy_decode m (sorted_manifest m).
Proof.
  intros (Hroot & Htrees & Hn). destruct (tree_codec _ Hroot) as (bytes & Hw & Hr).
  destruct (codec_counted (try_fold GTree_encode) (read_times GTree_legacy_decode)
    (fun count => with_capacity (u64_add count 1) 4) (gm_trees m) (sorted_tree <$> gm_trees m)) as (bytes' & Hw' & Hr').
  { unfold is_u64, u64_max. lia. }
  { unfold with_capacity, u64_add, u64_max. rewrite N.mod_small by lia. by rewrite (proj2 (N.ltb_ge _ _)) by lia. }
  { apply codec_all. eapply Forall_impl; [exact Htrees|]. intros t Ht. by apply tree_codec. }
  exists (bytes ++ bytes'). split.
  - intros w. unfold GManifest_encode. rewrite Hw. cbn [mbind res_bind]. rewrite Hw'. by rewrite (assoc_L (++)).
  - eapply decodes_bind; [exact Hr|]. apply (decodes_fmap (mkGManifest (sorted_tree (gm_root m)))) in Hr'.
    eapply decodes_ext, Hr'. intros r. cbv beta.
    destruct (encoded (read_uint64 r)) as [[count r']|e|]; [|done..]. cbn [mbind res_bind]. by destruct (with_capacity _ _).
Qed.
Definition platform_ok (p : Platform) : Prop :=
  NoDup (pf_layers p) /\ Forall digest_ok (pf_layers p) /\ (N.of_nat (length (pf_layers p)) < 288230376151711744)%N.
Lemma platform_codec p : platform_ok p -> codec Platform_encode Platform_legacy_decode p p.
Proof.
  intros (Hnd & Hd & Hn).
  destruct (codec_counted (fun w l => try_fold (fun w d => encoded (write_digest w d)) w (reverse l))
    (read_times (fun r => encoded (read_digest r))) (fun count => with_capacity count 32) (pf_layers p) (reverse (pf_layers p)))
    as (bytes & Hw & Hr).
  { unfold is_u64, u64_max. lia. }
  { unfold with_capacity. by rewrite (proj2 (N.ltb_ge _ _)) by lia. }
  { destruct (codec_all (fun w d => encoded (write_digest w d)) (fun r => encoded (read_digest r)) id (reverse (pf_layers p)))
      as (bytes & Hw & Hr).
    - apply Forall_reverse. eapply Forall_impl; [exact Hd|]. intros d Hdig. by apply codec_error, digest_codec.
    - rewrite list_fmap_id in Hr. rewrite length_reverse in Hr. by exists bytes. }
  exists bytes. split; [exact Hw|]. apply (decodes_fmap (fun l => Platform_from_iter (reverse l))) in Hr.
  rewrite reverse_involutive, Platform_from_iter_spec, last_occurrences_id in Hr by done.
  destruct p as [layers]. eapply decodes_ext, Hr. intros r. cbv beta. unfold Platform_legacy_decode.
  destruct (encoded (read_uint64 r)) as [[count r']|e|]; [|done..]. cbn [mbind res_bind]. by destruct (with_capacity _ _).
Qed.

(** ** Objects *)

Definition contents_ok (contents : Enum) : Prop :=
  match contents with
  | ObjBlob blob => digest_ok (bl_payload blob) /\ is_u64 (bl_size blob)
  | ObjManifest manifest => manifest_ok manifest
  | ObjLayer layer => (exists d, ly_manifest layer = Some d /\ digest_ok d) /\ ly_annotations layer = []
  | ObjPlatform platform => platform_ok platform
  end.
Definition sorted_contents (contents : Enum) : Enum :=
  match contents with ObjManifest manifest => ObjManifest (sorted_manifest manifest) | contents => contents end.
(** Decoding when nothing follows. *)
Lemma decodes_whole {E A} (read : reader -> res E (A * reader)) bytes a r :
  decodes read bytes a -> reader_ok r -> remaining r = bytes -> exists r', read r = Ok (a, r').
Proof. intros H Hr Hrem. destruct (H r [] Hr) as (r' & -> & _); [by rewrite app_nil_r|]. by exists r'. Qed.
Lemma contents_legacy contents r : contents_ok contents -> reader_ok r ->
  exists bytes, (forall w, Enum_legacy_encode w contents = Ok (w ++ bytes)) /\
    (remaining r = bytes -> Enum_legacy_decode (Enum_kind contents) r = Ok (sorted_contents contents)).
Proof.
  intros Hc Hr. destruct contents as [platform|layer|manifest|blob]; cbn [contents_ok] in Hc; cbn [Enum_legacy_encode Enum_kind Enum_legacy_decode].
  - destruct (platform_codec _ Hc) as (bytes & Hw & Hd). exists bytes. split; [done|]. intros Hrem.
    by destruct (decodes_whole _ _ _ _ Hd Hr Hrem) as (r' & ->).
  - destruct Hc as ((d & Hm & Hd) & Ha). destruct layer as [m a]. cbn in Hm, Ha. subst.
    exists (digest_bytes d). split; [done|]. intros Hrem. unfold Layer_legacy_decode.
    by destruct (decodes_whole _ _ _ _ (read_digest_decodes d (proj1 Hd)) Hr Hrem) as (r' & ->).
  - destruct (manifest_codec _ Hc) as (bytes & Hw & Hd). exists bytes. split; [done|]. intros Hrem.
    by destruct (decodes_whole _ _ _ _ Hd Hr Hrem) as (r' & ->).
  - destruct Hc as [Hp Hs]. destruct (digest_codec _ Hp) as (b1 & W1 & R1). destruct (uint64_codec _ Hs) as (b2 & W2 & R2).
    exists (b1 ++ b2). split.
    + intros w. unfold Blob_legacy_encode. rewrite W1. cbn [encoded map_error mbind res_bind].
      rewrite W2. by rewrite <-(assoc_L (++)).
    + intros Hrem. assert (decodes Blob_legacy_decode (b1 ++ b2) blob) as Hd.
      { eapply decodes_bind; [apply decodes_map_error, R1|]. destruct blob.
        apply (decodes_fmap (mkBlob bl_payload)), decodes_map_error, R2. }
      by destruct (decodes_whole _ _ _ _ Hd Hr Hrem) as (r' & ->).
Qed.

(** A header that was built tells what it was built with. *)
Lemma header_built builder rest :
  let header := HeaderBuilder_build builder in
  Header_new (header ++ rest) = Ok header /\ drop HEADER_SIZE (header ++ rest) = rest /\
  digest_strategy header = Some (hb_digest_strategy builder) /\
  encoding_format header = Some (hb_encoding_format builder) /\ object_kind header = Some (hb_object_kind builder).
Proof. destruct builder as [[] [] []]; by split_and!. Qed.

Class FlatbuffersLaws `{!Flatbuffers} : Prop := flatbuffer_roundtrip contents : flatbuffer_root (flatbuffer_of contents) = Some contents.

(** C27: an object in the legacy format is written, and is read back with the same
    header and contents, whatever way the reader is buffered, with the entries of a
    manifest's trees in the order of their names; if the format represents it:
    digests of 32 bytes, ASCII names without NUL, numbers within their width, layers
    with a manifest and without annotations, platforms without a layer twice. *)
Theorem object_roundtrip `{!Flatbuffers} config buffered strategy contents :
  (forall bytes, reader_ok (buffered bytes) /\ remaining (buffered bytes) = bytes) ->
  contents_ok contents ->
  let header := HeaderBuilder_build (mkHeaderBuilder strategy EncodingLegacy (Enum_kind contents)) in
  exists bytes, Object_encode [] (mkObject header contents) = Ok bytes /\
    Object_new config buffered bytes = Ok (mkObject header (sorted_contents contents)).
Proof.
  intros Hbuf Hok header.
  destruct (contents_legacy contents (buffered [])) as (bytes & Hw & _); [done|by apply Hbuf|].
  exists (header ++ bytes). unfold Object_encode, Object_new. cbn [obj_header to_enum].
  destruct (header_built (mkHeaderBuilder strategy EncodingLegacy (Enum_kind contents)) bytes) as (Hh & Hd & Hs & Hf & Hk).
  fold header in Hh, Hd, Hs, Hf, Hk. rewrite Hf, Hh, Hd. cbn [hb_encoding_format mbind res_bind]. rewrite Hf, Hk. cbn [hb_encoding_format hb_object_kind].
  split; [by rewrite Hw|].
  destruct (contents_legacy contents (buffered bytes)) as (bytes' & Hw' & Hdec); [done|by apply Hbuf|].
  assert (bytes' = bytes) as -> by (specialize (Hw []); rewrite Hw' in Hw; by injection Hw).
  rewrite Hdec by apply Hbuf. cbn [mbind res_bind]. unfold HeaderBuilder_copy_from. by rewrite Hs, Hf, Hk.
Qed.
(** In the flatbuffers format what is read back is what the library reads back. *)
Lemma flatbuffer_object_roundtrip `{!Flatbuffers, !FlatbuffersLaws} config buffered strategy contents :
  let header := HeaderBuilder_build (mkHeaderBuilder strategy FlatBuffers (Enum_kind contents)) in
  exists bytes, Object_encode [] (mkObject header contents) = Ok bytes /\ Object_new config buffered bytes = Ok (mkObject header contents).
Proof.
  intros header. exists (header ++ flatbuffer_of contents). unfold Object_encode, Object_new. cbn [obj_header to_enum].
  destruct (header_built (mkHeaderBuilder strategy FlatBuffers (Enum_kind contents)) (flatbuffer_of contents)) as (Hh & Hd & Hs & Hf & Hk).
  fold header in Hh, Hd, Hs, Hf, Hk. rewrite Hf, Hh, Hd. cbn [hb_encoding_format mbind res_bind].
  rewrite Hf, Hk. cbn [hb_encoding_format]. by rewrite flatbuffer_roundtrip.
Qed.

(** A layout by the bits of a number, for a concrete instance. *)
#[export] Instance AnnotationValue_eq_dec : EqDecision AnnotationValue.
Proof. solve_decision. Defined.
#[export] Instance Annotation_eq_dec : EqDecision Annotation.
Proof. solve_decision. Defined.
#[export] Instance Layer_eq_dec : EqDecision Layer.
Proof. solve_decision. Defined.
#[export] Instance GEntry_eq_dec : EqDecision GEntry.
Proof. solve_decision. Defined.
#[export] Instance GManifest_eq_dec : EqDecision GManifest.
Proof. solve_decision. Defined.
#[export] Instance Platform_eq_dec : EqDecision Platform.
Proof. solve_decision. Defined.
#[export] Instance Blob_eq_dec : EqDecision Blob.
Proof. solve_decision. Defined.
#[export] Instance Enum_eq_dec : EqDecision Enum.
Proof. solve_decision. Defined.
#[export] Instance Object_eq_dec : EqDecision Object.
Proof. solve_decision. Defined.
Definition kind_code (k : EntryKind) : option (option N) :=
  match k with KTree => None | KMask => Some None | KBlob size => Some (Some size) end.
Definition kind_of_code (c : option (option N)) : EntryKind :=
  match c with None => KTree | Some None => KMask | Some (Some size) => KBlob size end.
#[export] Instance EntryKind_countable : Countable EntryKind :=
  inj_countable' kind_code kind_of_code (fun k => match k with KTree | KMask | KBlob _ => eq_refl end).
#[export] Instance GEntry_countable : Countable GEntry :=
  inj_countable' (fun e => (ge_name e, ge_kind e, ge_mode e, ge_size_for_legacy_encode e, ge_object e))
    (fun p => let '(n, k, m, s, o) := p in mkGEntry n k m s o) (fun e => match e with mkGEntry _ _ _ _ _ => eq_refl end).
#[export] Instance Annotation_countable : Countable Annotation :=
  inj_countable' (fun a => (an_key a, match an_value a with AnnotationString s => inl s | AnnotationBlob d => inr d end))
    (fun p => mkAnnotation p.1 match p.2 with inl s => AnnotationString s | inr d => AnnotationBlob d end)
    (fun a => match a with mkAnnotation _ (AnnotationString _) | mkAnnotation _ (AnnotationBlob _) => eq_refl end).
Definition contents_code (contents : Enum) :
    (list Digest + (option Digest * list Annotation)) + ((GTree * list GTree) + (Digest * N)) :=
  match contents with
  | ObjPlatform p => inl (inl (pf_layers p))
  | ObjLayer l => inl (inr (ly_manifest l, ly_annotations l))
  | ObjManifest m => inr (inl (gm_root m, gm_trees m))
  | ObjBlob b => inr (inr (bl_payload b, bl_size b))
  end.
Definition contents_of_code (c : (list Digest + (option Digest * list Annotation)) + ((GTree * list GTree) + (Digest * N))) : Enum :=
  match c with
  | inl (inl layers) => ObjPlatform (mkPlatform layers)
  | inl (inr (m, a)) => ObjLayer (mkLayer m a)
  | inr (inl (r, t)) => ObjManifest (mkGManifest r t)
  | inr (inr (p, s)) => ObjBlob (mkBlob p s)
  end.
#[export] Instance Enum_countable : Countable Enum.
Proof. by refine (inj_countable' contents_code contents_of_code _); intros [[]|[]|[]|[]]. Defined.
Fixpoint bits (n : positive) : list N :=
  match n with xH => [] | xO n => 0%N :: bits n | xI n => 1%N :: bits n end.
Definition of_bits (l : list N) : positive := foldr (fun b n => if (b =? 0)%N then xO n else xI n) xH l.
Lemma of_bits_bits n : of_bits (bits n) = n.
Proof. induction n as [n IH|n IH|]; cbn; [by f_equal..|done]. Qed.
#[export] Instance number_layout : Flatbuffers :=
  {| flatbuffer_of := fun contents => bits (encode contents);
     flatbuffer_root := fun bytes => decode (of_bits bytes) |}.
#[export] Instance number_layout_laws : FlatbuffersLaws.
Proof. intros contents. cbn. rewrite of_bits_bits. apply decode_encode. Qed.

Lemma slice_reader_whole bytes : reader_ok (slice_reader bytes) /\ remaining (slice_reader bytes) = bytes.
Proof.
  split; [apply push_chunk_ok; constructor|]. unfold slice_reader. rewrite push_chunk_remaining. apply app_nil_r.
Qed.
Definition sample_manifest : GManifest :=
  mkGManifest [mkGEntry (lit "b") (KBlob 3) 33188 3 NULL_DIGEST; mkGEntry (lit "a") (KBlob 5) 33188 5 NULL_DIGEST] [].
Lemma object_roundtrip_witness :
  exists bytes header, length bytes = 143 /\
    Object_new None slice_reader bytes =
      Ok (mkObject header (ObjManifest
        (mkGManifest [mkGEntry (lit "a") (KBlob 5) 33188 5 NULL_DIGEST; mkGEntry (lit "b") (KBlob 3) 33188 3 NULL_DIGEST] []))).
Proof.
  destruct (object_roundtrip None slice_reader WithKindAndSalt (ObjManifest sample_manifest)) as (bytes & Hw & Hr).
  - exact slice_reader_whole.
  - split; [split; [done|]|by repeat constructor]. by repeat constructor.
  - exists bytes, (HeaderBuilder_build (mkHeaderBuilder WithKindAndSalt EncodingLegacy KindManifest)). split; [|exact Hr].
    vm_compute in Hw. injection Hw as <-. reflexivity.
Defined.

(** ** What is hashed *)

Lemma codec_prefix {E A B} (write : list N -> A -> res E (list N)) (read : reader -> res E (B * reader)) a a' b b' bytes bytes' x y :
  codec write read a b -> codec write read a' b' -> write [] a = Ok bytes -> write [] a' = Ok bytes' ->
  bytes ++ x = bytes' ++ y -> b = b' /\ x = y.
Proof.
  intros (c & Hw & Hr) (c' & Hw' & Hr') Ha Ha' Heq. rewrite Hw in Ha. rewrite Hw' in Ha'. injection Ha as <-. injection Ha' as <-.
  cbn [app] in Heq. destruct (slice_reader_whole (c ++ x)) as [Hok Hrem].
  destruct (Hr _ x Hok Hrem) as (r & E1 & R1 & _). 
  destruct (Hr' _ y Hok) as (r' & E2 & R2 & _); [by rewrite Hrem|]. rewrite E1 in E2. injection E2 as <- <-. by subst.
Qed.
(** Encodings of equal bytes are of equal contents. *)
Lemma codec_inj {E A B} (write : list N -> A -> res E (list N)) (read : reader -> res E (B * reader)) w a a' b b' :
  codec write read a b -> codec write read a' b' -> write w a = write w a' -> b = b'.
Proof.
  intros Ha Ha' Heq. pose proof Ha as (c & Hw & _). pose proof Ha' as (c' & Hw' & _).
  rewrite Hw, Hw' in Heq. injection Heq as Heq%app_inv_head.
  apply (codec_prefix write read a a' b b' c c' [] []); [done..|by rewrite Hw|by rewrite Hw'|by rewrite Heq].
Qed.

(** The annotations of a layer follow one another without their number. *)
Definition annotation_ok (a : Annotation) : Prop :=
  name_ok (an_key a) /\ match an_value a with AnnotationString s => name_ok s | AnnotationBlob d => digest_ok d end.
Definition Annotation_read (r : reader) : res SpfsError (Annotation * reader) :=
  '(key, r) ← encoded (read_string r);
  '(value_kind, r) ← encoded (read_uint8 r);
  if (value_kind =? 1)%N then '(v, r) ← encoded (read_string r); Ok (mkAnnotation key (AnnotationString v), r)
  else '(v, r) ← encoded (read_digest r); Ok (mkAnnotation key (AnnotationBlob v), r).
Lemma uint8_decodes b : (b < 256)%N -> decodes read_uint8 (be_bytes 1 b) b.
Proof.
  intros Hb. apply (decodes_map 1 (fun buf => Ok (from_be_bytes buf))); [apply be_bytes_length|].
  by rewrite from_be_bytes_be_bytes.
Qed.
Lemma annotation_codec a : annotation_ok a -> codec Annotation_legacy_encode Annotation_read a a.
Proof.
  intros [Hk Hv]. destruct (string_codec _ Hk) as (b1 & W1 & R1). destruct a as [key [s|d]]; cbn [an_key an_value] in *.
  - destruct (string_codec _ Hv) as (b2 & W2 & R2). exists (b1 ++ be_bytes 1 1 ++ b2). split.
    + intros w. unfold Annotation_legacy_encode. rewrite W1. cbn [encoded map_error mbind res_bind].
      unfold AnnotationValue_legacy_encode. cbn [an_value]. unfold write_uint8, write_all. cbn [mbind res_bind].
      rewrite W2. by rewrite !(assoc_L (++)).
    + eapply decodes_bind; [apply decodes_map_error, R1|]. eapply decodes_bind; [apply decodes_map_error, uint8_decodes; done|].
      apply (decodes_fmap (fun v => mkAnnotation key (AnnotationString v))), decodes_map_error, R2.
  - destruct (digest_codec _ Hv) as (b2 & W2 & R2). exists (b1 ++ be_bytes 1 2 ++ b2). split.
    + intros w. unfold Annotation_legacy_encode. rewrite W1. cbn [encoded map_error mbind res_bind].
      unfold AnnotationValue_legacy_encode. cbn [an_value]. unfold write_uint8, write_all. cbn [mbind res_bind].
      rewrite W2. by rewrite !(assoc_L (++)).
    + eapply decodes_bind; [apply decodes_map_error, R1|]. eapply decodes_bind; [apply decodes_map_error, uint8_decodes; done|].
      apply (decodes_fmap (fun v => mkAnnotation key (AnnotationBlob v))), decodes_map_error, R2.
Qed.
Lemma annotation_bytes a : annotation_ok a -> exists b bytes, forall w, Annotation_legacy_encode w a = Ok (w ++ b :: bytes).
Proof.
  intros Ha. destruct (annotation_codec a Ha) as ([|b bytes] & Hw & Hr); [|by exists b, bytes].
  by destruct (Hr [] [] (Forall_nil_2 _) eq_refl) as (r & [=] & _).
Qed.
Lemma annotations_inj l k w :
  Forall annotation_ok l -> Forall annotation_ok k ->
  try_fold Annotation_legacy_encode w l = try_fold Annotation_legacy_encode w k -> l = k.
Proof.
  assert (forall l, Forall annotation_ok l -> exists bytes, forall w, try_fold Annotation_legacy_encode w l = Ok (w ++ bytes)) as Hbytes.
  { intros l' Hl'. destruct (codec_all Annotation_legacy_encode Annotation_read id l') as (bytes & Hw & _); [|by exists bytes].
    eapply Forall_impl; [exact Hl'|]. apply annotation_codec. }
  intros Hl. revert k w. induction Hl as [|a l Ha Hl IH]; intros k w Hk Heq.
  - destruct Hk as [|a k Ha Hk]; [done|]. exfalso. destruct (annotation_bytes a Ha) as (b & bytes & Hw), (Hbytes k Hk) as (rest & Hrest).
    cbn [try_fold] in Heq. rewrite Hw in Heq. cbn [mbind res_bind] in Heq. rewrite Hrest in Heq. injection Heq as Heq.
    apply (f_equal length) in Heq. rewrite !length_app in Heq. cbn [length] in Heq. lia.
  - destruct Hk as [|a' k Ha' Hk].
    + exfalso. destruct (annotation_bytes a Ha) as (b & bytes & Hw), (Hbytes l Hl) as (rest & Hrest).
      cbn [try_fold] in Heq. rewrite Hw in Heq. cbn [mbind res_bind] in Heq. rewrite Hrest in Heq. injection Heq as Heq.
      apply (f_equal length) in Heq. rewrite !length_app in Heq. cbn [length] in Heq. lia.
    + pose proof (annotation_codec a Ha) as (b & Hw & _). pose proof (annotation_codec a' Ha') as (b' & Hw' & _).
      destruct (Hbytes l Hl) as (x & Hx), (Hbytes k Hk) as (y & Hy).
      assert (a = a' /\ x = y) as [-> <-].
      { eapply (codec_prefix Annotation_legacy_encode Annotation_read a a' a a' b b' x y); [by apply annotation_codec..|by rewrite Hw|by rewrite Hw'|].
        cbn [try_fold] in Heq. rewrite Hw, Hw' in Heq. cbn [mbind res_bind] in Heq. rewrite Hx, Hy in Heq.
        injection Heq as Heq. rewrite <-!(assoc_L (++)) in Heq. by apply app_inv_head in Heq. }
      f_equal. apply (IH k []); [done|]. by rewrite Hx, Hy.
Qed.

Definition hashed_ok (contents : Enum) : Prop :=
  match contents with
  | ObjBlob _ => False
  | ObjManifest manifest => manifest_ok manifest
  | ObjLayer layer => (exists d, ly_manifest layer = Some d /\ digest_ok d) /\ Forall annotation_ok (ly_annotations layer)
  | ObjPlatform platform => platform_ok platform
  end.
Lemma hashed_bytes contents : hashed_ok contents -> exists bytes, forall w, Enum_digest_encode w contents = Ok (w ++ bytes).
Proof.
  destruct contents as [platform|layer|manifest|blob]; cbn [hashed_ok Enum_digest_encode]; [| | |done].
  - intros (bytes & Hw & _)%platform_codec. by exists bytes.
  - intros [(d & Hm & Hd) Ha]. unfold Layer_digest_encode. rewrite Hm.
    destruct (codec_all Annotation_legacy_encode Annotation_read id (ly_annotations layer)) as (bytes & Hw & _).
    { eapply Forall_impl; [exact Ha|]. apply annotation_codec. }
    exists (digest_bytes d ++ bytes). intros w. unfold write_digest, write_all. cbn [encoded map_error mbind res_bind].
    by rewrite Hw, (assoc_L (++)).
  - intros (bytes & Hw & _)%manifest_codec. by exists bytes.
Qed.
Lemma hashed_inj contents contents' w :
  hashed_ok contents -> hashed_ok contents' -> Enum_kind contents = Enum_kind contents' ->
  Enum_digest_encode w contents = Enum_digest_encode w contents' -> sorted_contents contents = sorted_contents contents'.
Proof.
  destruct contents as [p|l|m|], contents' as [p'|l'|m'|]; cbn [hashed_ok Enum_kind Enum_digest_encode sorted_contents]; try done.
  - intros H%platform_codec H'%platform_codec _ Heq. f_equal. exact (codec_inj _ _ w _ _ _ _ H H' Heq).
  - intros [(d & Hm & Hd) Ha] [(d' & Hm' & Hd') Ha'] _. unfold Layer_digest_encode. rewrite Hm, Hm'.
    unfold write_digest, write_all. cbn [encoded map_error mbind res_bind]. intros Heq.
    destruct (hashed_bytes (ObjLayer l)) as (b & Hb); [by split; [exists d|]|].
    assert (d = d') as <-.
    { destruct (codec_all Annotation_legacy_encode Annotation_read id (ly_annotations l)) as (x & Hx & _);
        [eapply Forall_impl; [exact Ha|]; apply annotation_codec|].
      destruct (codec_all Annotation_legacy_encode Annotation_read id (ly_annotations l')) as (y & Hy & _);
        [eapply Forall_impl; [exact Ha'|]; apply annotation_codec|].
      rewrite Hx, Hy in Heq. injection Heq as Heq. rewrite <-!(assoc_L (++)) in Heq. apply app_inv_head in Heq.
      apply app_inj_1 in Heq as [Heq _]; [|by rewrite (proj1 Hd), (proj1 Hd')]. by destruct d, d'; cbn in Heq; subst. }
    apply annotations_inj in Heq; [|done..]. destruct l, l'. cbn in *. by subst.
  - intros H%manifest_codec H'%manifest_codec _ Heq. f_equal. exact (codec_inj _ _ w _ _ _ _ H H' Heq).
Qed.

(** C28: salted digests identify objects.  Two objects other than blobs, whose
    headers say that they are hashed with their kind and the salt, and whose texts
    SHA-256 does not confuse, have the same digest only when they are of one kind
    and have the same contents, the order of the entries in a tree aside.  Layers
    have manifests; names are ASCII without NUL, digests have 32 bytes and numbers
    are within their width. *)
Theorem digest_identifies (sha256 : list N -> Digest) format format' contents contents' d :
  let salted f c := HeaderBuilder_build (mkHeaderBuilder WithKindAndSalt f (Enum_kind c)) in
  (forall text text', hashed_text (salted format contents) WithKindAndSalt contents = Ok text ->
     hashed_text (salted format' contents') WithKindAndSalt contents' = Ok text' -> sha256 text = sha256 text' -> text = text') ->
  hashed_ok contents -> hashed_ok contents' ->
  Object_digest sha256 (mkObject (salted format contents) contents) = Ok d ->
  Object_digest sha256 (mkObject (salted format' contents') contents') = Ok d ->
  Enum_kind contents = Enum_kind contents' /\ sorted_contents contents = sorted_contents contents'.
Proof.
  assert (forall f c, hashed_ok c -> exists bytes, (forall w, Enum_digest_encode w c = Ok (w ++ bytes)) /\
    hashed_text (HeaderBuilder_build (mkHeaderBuilder WithKindAndSalt f (Enum_kind c))) WithKindAndSalt c =
      Ok (DIGEST_SALT ++ ObjectKind_number (Enum_kind c) :: bytes) /\
    Object_digest sha256 (mkObject (HeaderBuilder_build (mkHeaderBuilder WithKindAndSalt f (Enum_kind c))) c) =
      Ok (sha256 (DIGEST_SALT ++ ObjectKind_number (Enum_kind c) :: bytes))) as Hdig.
  { intros f c Hc. destruct (hashed_bytes c Hc) as (bytes & Hw). exists bytes. split; [done|].
    assert (object_kind_number (HeaderBuilder_build (mkHeaderBuilder WithKindAndSalt f (Enum_kind c))) = ObjectKind_number (Enum_kind c)) as Hn
      by (by destruct f, c).
    assert (hashed_text (HeaderBuilder_build (mkHeaderBuilder WithKindAndSalt f (Enum_kind c))) WithKindAndSalt c =
      Ok (DIGEST_SALT ++ ObjectKind_number (Enum_kind c) :: bytes)) as Ht by (unfold hashed_text; by rewrite Hn, Hw, <-(assoc_L (++))).
    split; [exact Ht|]. unfold Object_digest. cbn [obj_header to_enum].
    destruct (header_built (mkHeaderBuilder WithKindAndSalt f (Enum_kind c)) []) as (_ & _ & -> & _). cbn [hb_digest_strategy].
    destruct c; [..|done]; by rewrite Ht. }
  intros salted Hfree Hc Hc' Hd Hd'. destruct (Hdig format contents Hc) as (b & Hw & T & E), (Hdig format' contents' Hc') as (b' & Hw' & T' & E').
  unfold salted in *. rewrite Hd in E. rewrite E, E' in Hd'. apply (inj Ok), eq_sym, (Hfree _ _ T T') in Hd'.
  revert Hd'. generalize DIGEST_SALT. intros salt E2%app_inv_head.
  injection E2 as Hk ->. assert (Enum_kind contents = Enum_kind contents') as Hkind
    by (destruct (Enum_kind contents), (Enum_kind contents'); done).
  split; [done|]. apply (hashed_inj _ _ []); [done..|]. by rewrite Hw, Hw'.
Qed.
(** A hash to 32 bytes, for examples. *)
Definition sum_digest (bytes : list N) : Digest :=
  mkDigest ((foldr N.add 0 bytes mod 256)%N :: (foldl (fun h b => (31 * h + b) mod 256) 7 bytes)%N :: repeat 0%N 30).
Lemma sum_digest_ok bytes : digest_ok (sum_digest bytes).
Proof.
  split; [done|]. apply Forall_cons. split; [by apply N.mod_lt|]. apply Forall_cons. split; [|by repeat constructor].
  change ((foldl (fun h b => (31 * h + b) mod 256) 7 bytes < 256)%N). assert (7 < 256)%N as H by done. revert H. generalize 7%N. induction bytes as [|b bytes IH]; [done|].
  intros n _. apply IH. by apply N.mod_lt.
Qed.
(** The entries of a tree in another order: the same digest, and as it has to be the
    same entries. *)
Abbreviation other_manifest := (mkGManifest (reverse (gm_root sample_manifest)) []).
Lemma digest_identifies_witness : exists digest,
  Object_digest sum_digest (new_with_default_header (Some (WithKindAndSalt, FlatBuffers)) (ObjManifest sample_manifest)) = Ok digest /\
  Object_digest sum_digest (new_with_default_header (Some (WithKindAndSalt, EncodingLegacy)) (ObjManifest other_manifest)) = Ok digest /\
  sorted_contents (ObjManifest sample_manifest) = sorted_contents (ObjManifest other_manifest).
Proof.
  eexists. split; [vm_compute; reflexivity|]. split; [vm_compute; reflexivity|].
  assert (hashed_ok (ObjManifest sample_manifest)) as Hok by (split; [split; [done|]|by repeat constructor]; by repeat constructor).
  assert (hashed_ok (ObjManifest other_manifest)) as Hok' by (split; [split; [done|]|by repeat constructor]; by repeat constructor).
  eapply (digest_identifies sum_digest FlatBuffers EncodingLegacy (ObjManifest sample_manifest) (ObjManifest other_manifest) _); [|exact Hok|exact Hok'|vm_compute; reflexivity|vm_compute; reflexivity].
  intros text text' H H' _. assert (Ok text = Ok text' :> res SpfsError (list N)) as E; [|by injection E]. rewrite <-H, <-H'. vm_compute. reflexivity.
Defined.
(** Without a manifest, the annotations of a layer may read like the manifest of
    another one. *)
Example layer_digest_ambiguous :
  let annotated := mkLayer None [mkAnnotation (lit "key") (AnnotationString (lit "an annotation of this size"))] in
  exists d, digest_ok d /\ Layer_digest_encode [] annotated = Layer_digest_encode [] (mkLayer (Some d) []).
Proof.
  eexists (mkDigest _). split; [|vm_compute; reflexivity]. split; [reflexivity|]. apply (bool_decide_unpack _). vm_compute. exact I.
Qed.
