(* ===== verification/ObjectStore.v ===== *)
(** * Object and payload storage

    Models the objects and payloads of a file-system repository
    (crates/spfs/src/storage/fs/database.rs, payloads.rs, hash_store.rs), the
    typed readers of storage/blob.rs, manifest.rs, layer.rs and platform.rs,
    [commit_blob] of storage/repository.rs, and the provided methods, the walker
    and the iterator of graph/database.rs.

    A repository is what its files hold.  Which operations of the operating system
    fail is a parameter; so are the order in which directories are listed and the
    text of digests in base 32. *)

From stdpp Require Import gmap.
From S2P Require Import Prelude Strings Collections Encoding TagSpec Tags Entry Manifest Objects.

#[local] Set Warnings "-register-all".

(** The calls that may fail for other reasons than that there is no file. *)
Inductive FsCall :=
| OpenObject | StatObject | UnlinkObject | WriteObject
| OpenPayload | UnlinkPayload | WritePayload.

Class FileSystem (time : Type) := {
  fails : FsCall -> Digest -> bool;
  listing : list Digest -> list Digest;
  base32 : list N -> rstr;
  sha256 : list N -> Digest;
  buffered : list N -> reader;
  storage_config : StorageConfig;
  object_layout :: Flatbuffers;
  later :: Cmp time;
}.

(** An object file: what is made of its bytes, and when it was written. *)
Record Stored {time : Type} := mkStored { so_object : res SpfsError Object; so_mtime : time }.
Arguments Stored time : clear implicits.
Arguments mkStored {time} so_object so_mtime.
Record Repo {time : Type} := mkRepo { objects : gmap Digest (Stored time); payloads : gmap Digest (list N) }.
Arguments Repo time : clear implicits.
Arguments mkRepo {time} objects payloads.

Section store.
Context {time : Type} `{!FileSystem time}.
Abbreviation Repo := (Repo time).
Implicit Types (σ : Repo) (digest : Digest).
Definition failure (call : FsCall) : SpfsError :=
  match call with
  | OpenObject => StorageReadError (lit "open object file")
  | StatObject => StorageReadError (lit "symlink_metadata on digest path")
  | UnlinkObject => StorageWriteError (lit "remove_file on object file")
  | WriteObject => StorageWriteError (lit "write_all on object file")
  | OpenPayload => StorageReadError (lit "open on payload")
  | UnlinkPayload => StorageWriteError (lit "remove_file on payload")
  | WritePayload => StorageWriteError (lit "copy on hash store object file")
  end.
Definition attempt (call : FsCall) digest : res SpfsError unit :=
  if fails call digest then Err (failure call) else Ok tt.
Definition with_objects (f : gmap Digest (Stored time) -> gmap Digest (Stored time)) σ : Repo := mkRepo (f (objects σ)) (payloads σ).
Definition with_payloads (f : gmap Digest (list N) -> gmap Digest (list N)) σ : Repo := mkRepo (objects σ) (f (payloads σ)).

(** ** Objects *)

Definition has_object σ digest : bool := bool_decide (is_Some (objects σ !! digest)).
Definition read_object σ digest : res SpfsError Object :=
  match objects σ !! digest with
  | None => Err (UnknownObject digest)
  | Some stored => _ ← attempt OpenObject digest; so_object stored
  end.
Definition remove_object digest σ : res SpfsError unit * Repo :=
  match objects σ !! digest with
  | None => (Ok tt, σ)
  | Some _ => if fails UnlinkObject digest then (Err (failure UnlinkObject), σ) else (Ok tt, with_objects (delete digest) σ)
  end.
Definition remove_object_if_older_than (older_than : time) digest σ : res SpfsError bool * Repo :=
  match objects σ !! digest with
  | None => (Err (UnknownObject digest), σ)
  | Some stored =>
      if fails StatObject digest then (Err (failure StatObject), σ)
      else if geb (so_mtime stored) older_than then (Ok false, σ)
      else if fails UnlinkObject digest then (Err (failure UnlinkObject), σ)
      else (Ok true, with_objects (delete digest) σ)
  end.
(** An object that is there already is not written again. *)
Definition write_object (now : time) (obj : Object) σ : res SpfsError unit * Repo :=
  match Object_digest sha256 obj with
  | Err e => (Err e, σ)
  | Panicked => (Panicked, σ)
  | Ok digest =>
      if has_object σ digest then (Ok tt, σ)
      else match Object_encode [] obj with
           | Err e => (Err e, σ)
           | Panicked => (Panicked, σ)
           | Ok bytes =>
               if fails WriteObject digest then (Err (failure WriteObject), σ)
               else (Ok tt, with_objects <[digest := mkStored (Object_new storage_config buffered bytes) now]> σ)
           end
  end.
(** [read_blob], [read_manifest], [read_layer] and [read_platform]. *)
Definition read_kind {A} (desired : ObjectKind) (into : Enum -> option A) σ digest : res SpfsError A :=
  obj ← read_object σ digest;
  match into (to_enum obj) with Some a => Ok a | None => Err (NotCorrectKind desired digest) end.
Definition read_blob := read_kind KindBlob (fun c => match c with ObjBlob b => Some b | _ => None end).
Definition read_manifest := read_kind KindManifest (fun c => match c with ObjManifest m => Some m | _ => None end).
Definition read_layer := read_kind KindLayer (fun c => match c with ObjLayer l => Some l | _ => None end).
Definition read_platform := read_kind KindPlatform (fun c => match c with ObjPlatform p => Some p | _ => None end).

(** ** Payloads *)

Definition has_payload σ digest : bool := bool_decide (is_Some (payloads σ !! digest)).
Definition open_payload σ digest : res SpfsError (list N) :=
  match payloads σ !! digest with
  | Some bytes => _ ← attempt OpenPayload digest; Ok bytes
  | None =>
      match read_blob σ digest with
      | Ok _ => Err (ObjectMissingPayload digest)
      | Err (NotCorrectKind KindBlob d) => Err (NotCorrectKind KindBlob d)
      | Err _ => Err (UnknownObject digest)
      | Panicked => Panicked
      end
  end.
Definition remove_payload digest σ : res SpfsError unit * Repo :=
  match payloads σ !! digest with
  | None => (Err (UnknownObject digest), σ)
  | Some _ => if fails UnlinkPayload digest then (Err (failure UnlinkPayload), σ) else (Ok tt, with_payloads (delete digest) σ)
  end.
Definition write_data (bytes : list N) σ : res SpfsError (Digest * N) * Repo :=
  let digest := sha256 bytes in
  if fails WritePayload digest then (Err (failure WritePayload), σ)
  else (Ok (digest, N.of_nat (length bytes)), with_payloads <[digest := bytes]> σ).
Definition commit_blob (now : time) (bytes : list N) σ : res SpfsError Digest * Repo :=
  match write_data bytes σ with
  | (Ok (digest, size), σ) =>
      match write_object now (Blob_new storage_config digest size) σ with
      | (Ok _, σ) => (Ok digest, σ)
      | (Err e, σ) => (Err e, σ)
      | (Panicked, σ) => (Panicked, σ)
      end
  | (Err e, σ) => (Err e, σ)
  | (Panicked, σ) => (Panicked, σ)
  end.

(** ** Listing and walking *)

Inductive DigestSearchCriteria := SearchAll | StartsWith (partial : list N).
Fixpoint bytes_start_with (prefix bytes : list N) : bool :=
  match prefix, bytes with
  | [], _ => true
  | p :: prefix, b :: bytes => (p =? b)%N && bytes_start_with prefix bytes
  | _ :: _, [] => false
  end.
Definition matches_search (criteria : DigestSearchCriteria) digest : bool :=
  match criteria with SearchAll => true | StartsWith partial => bytes_start_with partial (digest_bytes digest) end.
Definition find_digests σ (criteria : DigestSearchCriteria) : list Digest :=
  List.filter (matches_search criteria) (listing (map_to_list (objects σ)).*1).
Definition iter_payload_digests σ : list Digest := listing (map_to_list (payloads σ)).*1.
(** [DatabaseIterator]: every digest with its object, or an error about it. *)
Definition iter_object σ digest : res SpfsError (Digest * Object) :=
  match read_object σ digest with
  | Ok obj => Ok (digest, obj)
  | Err _ => Err (StringError (lit "Error reading object " ++ base32 (digest_bytes digest)))
  | Panicked => Panicked
  end.
Definition iter_objects σ : list (res SpfsError (Digest * Object)) := iter_object σ <$> find_digests σ SearchAll.

(** [DatabaseWalker]: one call of [next]; an object that cannot be read does not
    end the walk. *)
Definition DatabaseWalker : Type := list Digest.
Definition DatabaseWalker_new (root : Digest) : DatabaseWalker := [root].
Definition database_walker_next σ (queue : DatabaseWalker) : option (res SpfsError (Digest * Object)) * DatabaseWalker :=
  match queue with
  | [] => (None, [])
  | digest :: queue =>
      match read_object σ digest with
      | Ok obj => (Some (Ok (digest, obj)), queue ++ child_objects obj)
      | Err e => (Some (Err e), queue)
      | Panicked => (Some Panicked, queue)
      end
  end.
Fixpoint walk_objects (fuel : nat) σ (queue : DatabaseWalker) : option (list (res SpfsError (Digest * Object))) :=
  match fuel with
  | O => None
  | S fuel =>
      match database_walker_next σ queue with
      | (None, _) => Some []
      | (Some item, queue) => cons item <$> walk_objects fuel σ queue
      end
  end.

(** ** Short digests *)

(** [&bytes[..size]], which panics when there are not that many. *)
Definition byte_prefix (size : nat) (bytes : list N) : res SpfsError (list N) :=
  if size <=? length bytes then Ok (take size bytes) else Panicked.
(** The inner loop of [get_shortened_digest]: five more bytes until they differ. *)
Fixpoint lengthen (fuel : nat) digest (other : Digest) (size : nat) : res SpfsError nat :=
  match fuel with
  | O => Panicked
  | S fuel =>
      o ← byte_prefix size (digest_bytes other);
      s ← byte_prefix size (digest_bytes digest);
      if bool_decide (o = s) then
        _ ← byte_prefix (size + 5) (digest_bytes digest); lengthen fuel digest other (size + 5)
      else Ok size
  end.
Definition get_shortened_digest σ digest : res SpfsError rstr :=
  partial ← byte_prefix 5 (digest_bytes digest);
  size ← try_fold (fun size other =>
      o ← byte_prefix size (digest_bytes other);
      s ← byte_prefix size (digest_bytes digest);
      if negb (bool_decide (o = s)) || bool_decide (other = digest) then Ok size
      else lengthen 8 digest other size) 5 (find_digests σ (StartsWith partial));
  base32 <$> byte_prefix size (digest_bytes digest).
Definition PartialDigest_to_digest (partial : list N) : option Digest := res_ok (Digest_from_bytes partial).
(** The provided [resolve_full_digest]. *)
Definition resolve_full_digest σ (partial : list N) : res SpfsError Digest :=
  match PartialDigest_to_digest partial with
  | Some digest => Ok digest
  | None =>
      match find_digests σ (StartsWith partial) with
      | [] => Err (UnknownReference (base32 partial))
      | [digest] => Ok digest
      | _ => Err (AmbiguousReference (base32 partial))
      end
  end.
End store.
Arguments DatabaseWalker : clear implicits.
