(* ===== verification/TagListing.v ===== *)
(** * Listing tags

    Models the parts of the tag database of a file-system repository that look at
    its directories: [ls_tags_in_namespace], [find_tags_in_namespace] and
    [TagStreamIter] of crates/spfs/src/storage/fs/tag.rs, the provided methods of
    crates/spfs/src/storage/tag.rs that use them, and tag_namespace.rs.

    The state is that of [TagStorage].  The order in which directories are listed
    is a parameter. *)

From stdpp Require Import gmap.
From S2P Require Import Prelude Strings Names Encoding TagSpec Tags TagFile TagStorage TagTheory.

#[local] Set Warnings "-register-all".

(** ** Namespaces *)

(** [TagNamespaceBuf::new]: exactly one component. *)
Inductive NamespaceError := NamespaceEmpty | NamespaceNested.
Definition TagNamespaceBuf_new (rel_components : rstr -> list rstr) (p : rstr) : res NamespaceError rstr :=
  match rel_components p with
  | [] => Err NamespaceEmpty
  | [_] => Ok p
  | _ => Err NamespaceNested
  end.
Definition try_set_tag_namespace (namespace : option rstr) (s : repo) : option rstr * repo :=
  (tag_namespace s, mkRepo (files s) (dirs s) namespace).

(** ** Names of files *)

(** [Path::file_stem] and [Path::extension] of a file name. *)
Definition file_parts (name : rstr) : rstr * option rstr :=
  if bool_decide (name = lit "..") then (name, None)
  else match rsplit_once c_dot name with
       | None | Some ([], _) => (name, None)
       | Some (stem, extension) => (stem, Some extension)
       end.
Definition has_tag_ext (name : rstr) : bool := bool_decide ((file_parts name).2 = Some TAG_EXT).
Fixpoint split_once_str (pat s : rstr) : option (rstr * rstr) :=
  if str_starts_with pat s then Some ([], drop (length pat) s)
  else match s with
       | [] => None
       | c :: s => (fun q => (c :: q.1, q.2)) <$> split_once_str pat s
       end.
Definition str_ends_with (pat s : rstr) : bool := str_starts_with (reverse pat) (reverse s).

Inductive EntryType := EntryFolder (name : rstr) | EntryNamespace (name : rstr) | EntryTag (name : rstr).
Definition EntryType_display (self : EntryType) : rstr :=
  match self with
  | EntryFolder e => e ++ [c_slash]
  | EntryNamespace e => e ++ TAG_NAMESPACE_MARKER
  | EntryTag e => e
  end.

Section listing.
Context {time : Type} `{!Timestamp time, !Cmp time, !EqDecision time}.
Context (rel_components : rstr -> list rstr) (order : list path -> list path).
Abbreviation stream := (list (res TagFileError (Tag time)) * bool)%type.

(** ** Directories *)

Definition dir_entry (s : repo) (p : path) : option EntryType :=
  match p with
  | [] => None
  | name :: _ =>
      if has_tag_ext name then Some (EntryTag (file_parts name).1)
      else if bool_decide (p ∈ dirs s) then
        Some (match split_once_str TAG_NAMESPACE_MARKER name with
              | Some (name, _) => EntryNamespace name
              | None => EntryFolder name
              end)
      else None
  end.
Definition all_paths (s : repo) : list path := (map_to_list (files s)).*1 ++ elements (dirs s).
Definition in_dir (d p : path) : bool := negb (bool_decide (p = [])) && bool_decide (tail p = d).
Definition ls_tags_in_namespace (namespace : option rstr) (p : rstr) (s : repo) : list (res StorageError EntryType) :=
  let filepath := reverse (List.filter (fun c => negb (bool_decide (c = lit "."))) (rel_components p))
                    ++ tags_root_in_namespace rel_components namespace in
  if bool_decide (filepath ∈ dirs s) then
    Ok <$> omap (dir_entry s) (order (List.filter (in_dir filepath) (all_paths s)))
  else if bool_decide (is_Some (files s !! filepath)) then [Err (StorageFile StorageReadError)]
  else [].
Definition ls_tags (p : rstr) (s : repo) := ls_tags_in_namespace (tag_namespace s) p s.
Definition ls_tag_namespaces (s : repo) : list (res StorageError rstr) :=
  omap (fun r => match r with
                 | Ok (EntryNamespace name) => Some (Ok name)
                 | Ok _ => None
                 | Err e => Some (Err e)
                 | Panicked => Some Panicked
                 end) (ls_tags_in_namespace None [] s).

(** ** Streams *)

(** The part of a path below [root]. *)
Definition strip_root (root p : path) : option path :=
  let n := length p - length root in
  if bool_decide (drop n p = root) then Some (take n p) else None.
(** [tag_from_path], of a path without the root. *)
Definition tag_from_path (rel : path) : res StorageError TagSpec :=
  match rel with
  | [] => Err (UnknownReference [])
  | filename :: _ =>
      tag_err (spec_err (TagSpec_parse (join [c_slash] (reverse (set_file_name rel (file_parts filename).1)))))
  end.
(** Whether the walk of [TagStreamIter] takes a file for a tag: the directories
    of other namespaces are passed over. *)
Definition is_stream_file (rel : path) : bool :=
  match rel with
  | [] => false
  | filename :: parents => has_tag_ext filename && negb (existsb (str_ends_with TAG_NAMESPACE_MARKER) parents)
  end.
(** The items of a walk over files; an error is the last. *)
Fixpoint stream_items (walked : list (path * list N)) : list (res StorageError (TagSpec * stream)) :=
  match walked with
  | [] => []
  | (rel, file) :: walked =>
      if is_stream_file rel then
        match tag_from_path rel with
        | Ok spec => Ok (spec, read_tag_file file) :: stream_items walked
        | Err e => [Err e]
        | Panicked => [Panicked]
        end
      else stream_items walked
  end.
Definition files_below (root : path) (s : repo) : list (path * list N) :=
  omap (fun p => rel ← strip_root root p; file ← files s !! p; Some (rel, file)) (order (map_to_list (files s)).*1).
Definition iter_tag_streams_in_namespace (namespace : option rstr) (s : repo) : list (res StorageError (TagSpec * stream)) :=
  let root := tags_root_in_namespace rel_components namespace in
  if bool_decide (root ∈ dirs s) then stream_items (files_below root s) else [Err (StorageFile StorageReadError)].
Definition iter_tag_streams (s : repo) : list (res StorageError (TagSpec * stream)) := iter_tag_streams_in_namespace (tag_namespace s) s.

(** The first version of a stream that has the target. *)
Fixpoint find_version (digest : Digest) (spec : TagSpec) (i : N) (items : list (res TagFileError (Tag time))) (ended : bool) :
    option (res StorageError TagSpec) :=
  match items with
  | [] => if ended then None else Some Panicked
  | Ok tag :: items =>
      if bool_decide (tag_target tag = digest) then Some (Ok (TagSpec_with_version spec i))
      else find_version digest spec (i + 1) items ended
  | Err e :: _ => Some (Err (StorageFile e))
  | Panicked :: _ => Some Panicked
  end.
Definition find_tags_in_namespace (namespace : option rstr) (digest : Digest) (s : repo) : list (res StorageError TagSpec) :=
  omap (fun r : res StorageError (TagSpec * stream) => match r with
                 | Ok (spec, (items, ended)) => find_version digest spec 0 items ended
                 | Err e => Some (Err e)
                 | Panicked => Some Panicked
                 end) (iter_tag_streams_in_namespace namespace s).
Definition find_tags (digest : Digest) (s : repo) : list (res StorageError TagSpec) := find_tags_in_namespace (tag_namespace s) digest s.
(** Every stream with its newest tag. *)
Definition iter_tags_in_namespace (namespace : option rstr) (s : repo) : list (res StorageError (TagSpec * Tag time)) :=
  omap (fun r : res StorageError (TagSpec * stream) => match r with
                 | Ok (spec, (Ok first :: _, _)) => Some (Ok (spec, first))
                 | Ok (spec, (Err e :: _, _)) => Some (Err (StorageFile e))
                 | Ok (_, (Panicked :: _, _)) => Some Panicked
                 | Ok (_, ([], ended)) => if ended then None else Some Panicked
                 | Err e => Some (Err e)
                 | Panicked => Some Panicked
                 end) (iter_tag_streams_in_namespace namespace s).
Definition iter_tags (s : repo) : list (res StorageError (TagSpec * Tag time)) := iter_tags_in_namespace (tag_namespace s) s.
Definition has_tag_in_namespace (namespace : option rstr) (tag : TagSpec) (s : repo) : bool :=
  res_is_ok (resolve_tag_in_namespace (time := time) rel_components namespace tag s).1.
(** [unlock_tag_in_namespace]. *)
Definition unlock_tag_in_namespace (namespace : option rstr) (tag : TagSpec) (s : repo) : repo :=
  TagLock_drop (TagSpec_to_path rel_components tag (tags_root_in_namespace rel_components namespace)) s.
End listing.

(** ** Facts *)

(** *** Characters *)

Definition no_hash (w : rstr) : Prop := str_contains 35%N w = false.
Lemma starts_with_app pat s t : str_starts_with pat s = true -> str_starts_with pat (s ++ t) = true.
Proof. revert s. induction pat as [|c pat IH]; intros [|x s]; cbn; try done. rewrite !andb_true_iff. intros [-> H]. auto. Qed.
Lemma no_hash_ends w : no_hash w -> str_ends_with TAG_NAMESPACE_MARKER w = false.
Proof.
  intros Hw. unfold str_ends_with. change (reverse TAG_NAMESPACE_MARKER) with [115; 110; 35]%N.
  destruct (str_starts_with _ (reverse w)) eqn:E; [|done]. exfalso.
  assert (35%N ∈ reverse w) as Hin.
  { destruct (reverse w) as [|a [|b [|c r]]]; cbn [str_starts_with] in E; rewrite ?andb_false_r in E; try done.
    rewrite !andb_true_iff, !N.eqb_eq in E. destruct E as (<- & <- & <- & _). set_solver. }
  rewrite elem_of_reverse in Hin. unfold no_hash, str_contains in Hw. apply not_true_iff_false in Hw. apply Hw, existsb_exists.
  exists 35%N. split; [by apply list_elem_of_In|done].
Qed.
Lemma split_once_marker w s : no_hash w -> split_once_str TAG_NAMESPACE_MARKER (w ++ TAG_NAMESPACE_MARKER ++ s) = Some (w, s).
Proof.
  unfold no_hash, str_contains. induction w as [|c w IH]; [done|]. intros [Hc Hw]%orb_false_iff. cbn [app split_once_str].
  destruct (str_starts_with TAG_NAMESPACE_MARKER (c :: _)) eqn:E.
  - change TAG_NAMESPACE_MARKER with [35; 110; 115]%N in E. cbn [str_starts_with] in E. apply andb_true_iff in E as [E _]. rewrite N.eqb_eq in E. subst c. done.
  - by rewrite IH.
Qed.
(** The words of a text have no other characters than it. *)
Lemma split_chars sep s w c : w ∈ split sep s -> c ∈ w -> c ∈ s.
Proof.
  revert w. induction s as [|x s IH]; intros w; cbn [split].
  - intros ->%list_elem_of_singleton. by intros ?%elem_of_nil.
  - destruct (x =? sep)%N.
    + intros [-> |Hw]%elem_of_cons; [by intros ?%elem_of_nil|]. intros Hc. apply elem_of_cons. right. by apply (IH w).
    + destruct (split sep s) as [|w' ws] eqn:E; [by apply split_nonempty in E|]. intros [-> |Hw]%elem_of_cons Hc.
      * apply elem_of_cons in Hc as [-> |Hc]; [by left|]. right. apply (IH w'); [by left|done].
      * right. apply (IH w); [by right|done].
Qed.
Lemma split_app_last sep a b : str_contains sep b = false -> split sep (a ++ sep :: b) = split sep a ++ [b].
Proof.
  intros Hb. induction a as [|c a IH]; cbn [app split].
  - by rewrite N.eqb_refl, split_no_sep.
  - rewrite IH. destruct (c =? sep)%N; [done|]. destruct (split sep a) eqn:E; [by apply split_nonempty in E|done].
Qed.
Lemma rsplit_once_Some sep s a b : rsplit_once sep s = Some (a, b) -> s = a ++ sep :: b.
Proof.
  revert a. induction s as [|c s IH]; intros a; cbn [rsplit_once]; [done|].
  destruct (rsplit_once sep s) as [[a' b']|].
  - intros [= <- <-]. cbn [app]. f_equal. by apply IH.
  - destruct (N.eqb_spec c sep) as [->|]; [by intros [= <- <-]|done].
Qed.
Lemma file_parts_tag name : name <> [] -> file_parts (name ++ [c_dot] ++ TAG_EXT) = (name, Some TAG_EXT).
Proof.
  intros Hne. unfold file_parts. rewrite bool_decide_false.
  - change ([c_dot] ++ TAG_EXT) with (c_dot :: TAG_EXT). rewrite rsplit_once_app by done. by destruct name.
  - intros H. apply (f_equal length) in H. rewrite length_app in H. cbn in H. lia.
Qed.

(** *** From a stream to its file and back *)

Section listing_facts.
Context {time : Type} `{!Timestamp time}.
Context (rel_components : rstr -> list rstr) (order : list path -> list path).
Hypothesis order_perm : forall l, order l ≡ₚ l.
Implicit Types (spec : TagSpec) (root : path) (s : repo).
Abbreviation locate ns spec := (TagSpec_to_path rel_components spec (tags_root_in_namespace rel_components ns)).

(** A spec whose path is the words between its slashes. *)
Definition tidy spec : Prop := TagSpec_ok spec /\
  rel_components (TagSpec_path spec) = split c_slash (TagSpec_path spec) /\
  forallb is_normal (split c_slash (TagSpec_path spec)) = true.
Lemma name_no_slash spec : TagSpec_ok spec -> str_contains c_slash (ts_name spec) = false.
Proof. intros (_ & _ & Hname & _). by eapply str_contains_class. Qed.
Definition org_words spec : list rstr := match ts_org spec with Some org => split c_slash org | None => [] end.
Lemma path_words spec : TagSpec_ok spec -> split c_slash (TagSpec_path spec) = org_words spec ++ [ts_name spec].
Proof.
  intros Hok. pose proof (name_no_slash spec Hok) as Hn. unfold TagSpec_path, org_words.
  destruct (ts_org spec) as [org|]; [|by apply split_no_sep]. by apply split_app_last.
Qed.
Lemma org_word_no_hash spec w : TagSpec_ok spec -> w ∈ org_words spec -> no_hash w.
Proof.
  intros (Horg & _). unfold org_words. destruct (ts_org spec) as [org|]; [|by intros ?%elem_of_nil]. destruct Horg as [_ Horg].
  intros Hw. unfold no_hash, str_contains. apply not_true_iff_false. intros (c & Hc & E)%existsb_exists. apply N.eqb_eq in E. subst c.
  apply list_elem_of_In, (split_chars _ _ _ _ Hw), list_elem_of_In in Hc. rewrite forallb_forall in Horg. by specialize (Horg _ Hc).
Qed.
Lemma list_filter_all {A} (p : A -> bool) l : forallb p l = true -> List.filter p l = l.
Proof. induction l as [|x l IH]; cbn; [done|]. intros [-> H]%andb_true_iff. by rewrite IH. Qed.
Definition stream_file spec : path := (ts_name spec ++ [c_dot] ++ TAG_EXT) :: reverse (org_words spec).
Lemma locate_tidy spec root : tidy spec -> TagSpec_to_path rel_components spec root = stream_file spec ++ root.
Proof.
  intros (Hok & Hrel & Hnormal). unfold TagSpec_to_path. rewrite Hrel, list_filter_all.
  - rewrite path_words, reverse_app by done. cbn [reverse rev_append app set_file_name].
    rewrite bool_decide_false; [done|]. intros Hdot. rewrite path_words, forallb_app, Hdot, andb_false_r in Hnormal by done. done.
  - eapply forallb_weaken; [|exact Hnormal]. intros c. unfold is_normal. by intros [-> _]%andb_true_iff.
Qed.
Lemma strip_root_app root rel : strip_root root (rel ++ root) = Some rel.
Proof.
  unfold strip_root. rewrite length_app, Nat.add_sub, drop_app_length, take_app_length. by rewrite bool_decide_true.
Qed.
Lemma tag_from_path_tidy spec : tidy spec -> tag_from_path (stream_file spec) = Ok (TagSpec_with_version spec 0).
Proof.
  intros (Hok & _ & _). pose proof Hok as (_ & Hne & _). unfold tag_from_path, stream_file. rewrite file_parts_tag by done. cbn [fst set_file_name].
  rewrite bool_decide_false.
  2:{ intros H. apply (f_equal length) in H. rewrite length_app in H. cbn in H. destruct (ts_name spec); [done|]. cbn in H. lia. }
  rewrite reverse_cons, reverse_involutive, <-path_words, join_split by done.
  assert (TagSpec_ok (TagSpec_with_version spec 0)) as Hok0.
  { destruct Hok as (H1 & H2 & H3 & _). by split_and!. }
  assert (TagSpec_path spec = TagSpec_to_string (TagSpec_with_version spec 0)) as -> by by destruct spec as [[org|] name v].
  unfold TagSpec_parse. by rewrite split_tag_spec_to_string.
Qed.
Lemma stream_file_kind spec : TagSpec_ok spec -> is_stream_file (stream_file spec) = true.
Proof.
  intros Hok. pose proof Hok as (_ & Hne & _). unfold is_stream_file, stream_file, has_tag_ext. rewrite file_parts_tag by done.
  rewrite bool_decide_true by done. cbn [andb]. apply negb_true_iff, not_true_iff_false. intros (w & Hw & E)%existsb_exists.
  apply list_elem_of_In, elem_of_reverse, (org_word_no_hash _ _ Hok), no_hash_ends in Hw. by rewrite Hw in E.
Qed.

(** *** What is listed *)

(** The stream of a tag that has a file is listed, unless the listing fails. *)
Lemma stream_items_listed walked spec file : tidy spec -> (stream_file spec, file) ∈ walked ->
  Ok (TagSpec_with_version spec 0, read_tag_file file) ∈ stream_items (time := time) walked \/
  exists r, r ∈ stream_items (time := time) walked /\ res_is_ok r = false.
Proof.
  intros Htidy. induction walked as [|[rel f] walked IH]; [by intros ?%elem_of_nil|]. cbn [stream_items]. intros [[= <- <-]|Hin]%elem_of_cons.
  - rewrite stream_file_kind, tag_from_path_tidy by (done || apply Htidy). left. by left.
  - destruct (IH Hin) as [Hok|(r & Hr & Hno)]; (destruct (is_stream_file rel); [|by eauto]); (destruct (tag_from_path rel) as [sp|e|];
      [|right; eexists; split; [by left|done]..]); [left; by right|right; exists r; split; [by right|done]].
Qed.
Lemma stream_listed ns spec s file : tidy spec -> files s !! locate ns spec = Some file ->
  Ok (TagSpec_with_version spec 0, read_tag_file file) ∈ iter_tag_streams_in_namespace (time := time) rel_components order ns s \/
  exists r, r ∈ iter_tag_streams_in_namespace (time := time) rel_components order ns s /\ res_is_ok r = false.
Proof.
  intros Htidy Hfile. unfold iter_tag_streams_in_namespace. case_bool_decide; [|right; eexists; split; [by left|done]].
  apply stream_items_listed; [done|]. apply list_elem_of_omap. eexists. split.
  - rewrite order_perm. apply list_elem_of_fmap. exists (locate ns spec, file). split; [done|]. by apply elem_of_map_to_list.
  - cbn [fst]. rewrite locate_tidy, strip_root_app by done. cbn [mbind option_bind]. by rewrite <-locate_tidy, Hfile.
Qed.
(** A namespace that has a directory is listed. *)
Definition plain_namespace (n : rstr) : Prop := rel_components n = [n] /\ is_normal n = true /\ no_hash n.
Lemma plain_root n : plain_namespace n -> tags_root_in_namespace rel_components (Some n) = [n ++ TAG_NAMESPACE_MARKER].
Proof. intros (Hrel & Hn & _). unfold tags_root_in_namespace. rewrite Hrel. cbn [List.filter]. by rewrite Hn. Qed.
Lemma marker_no_ext n : has_tag_ext (n ++ TAG_NAMESPACE_MARKER) = false.
Proof.
  unfold has_tag_ext, file_parts. destruct (bool_decide (_ = lit "..")); [done|]. apply bool_decide_eq_false.
  destruct (rsplit_once c_dot (n ++ TAG_NAMESPACE_MARKER)) as [[[|c stem] extension]|] eqn:E; cbn [snd]; [by intros [=]| |by intros [=]].
  intros [= ->]. apply rsplit_once_Some in E. apply (f_equal last) in E.
  change TAG_NAMESPACE_MARKER with (lit "#n" ++ [115%N]) in E. rewrite suffix_last in E.
  change ((c :: stem) ++ c_dot :: TAG_EXT) with ((c :: stem) ++ lit ".ta" ++ [103%N]) in E. rewrite suffix_last in E. done.
Qed.
Lemma namespace_listed n s : plain_namespace n -> rel_components [] = [] -> [] ∈ dirs s ->
  tags_root_in_namespace rel_components (Some n) ∈ dirs s -> Ok n ∈ ls_tag_namespaces rel_components order s.
Proof.
  intros Hn Hnil Hroot Hdir. rewrite plain_root in Hdir by done. unfold ls_tag_namespaces. apply list_elem_of_omap.
  exists (Ok (EntryNamespace n)). split; [|done]. unfold ls_tags_in_namespace. rewrite Hnil.
  change (reverse (List.filter _ []) ++ _) with (@nil rstr). rewrite bool_decide_true by done.
  apply list_elem_of_fmap. eexists. split; [done|]. apply list_elem_of_omap. exists [n ++ TAG_NAMESPACE_MARKER]. split.
  - rewrite order_perm. apply list_elem_of_In, List.filter_In. split; [|done]. apply list_elem_of_In. unfold all_paths.
    apply elem_of_app. right. by apply elem_of_elements.
  - unfold dir_entry. rewrite marker_no_ext, bool_decide_true by done.
    destruct Hn as (_ & _ & Hn). by rewrite <-(app_nil_r TAG_NAMESPACE_MARKER), split_once_marker.
Qed.
End listing_facts.
