(* ===== verification/Clean.v ===== *)
(** * Cleaning a repository

    Models crates/spfs/src/prune.rs and clean.rs: which tags are pruned, the
    concurrent visit of all that the remaining tags reach, and the removal of the
    objects and payloads that were not visited.

    The tasks of the visit run concurrently; what they do between two points at
    which they may be suspended is one step here, and a schedule says which task
    takes the next step and which of its digests it turns to.  The removals, which
    are concurrent as well, concern different files and follow the order of the
    listing.  The streams of tags are listed when the visit starts; the source lists
    them as it goes, and the only tags it removes are those of streams it listed.
    Reporters, and the cleaning of renders and proxies, are left out. *)

From stdpp Require Import gmap.
From S2P Require Import Prelude Strings Collections Encoding TagSpec Tags Entry Manifest Objects ObjectStore.

#[local] Set Warnings "-register-all".

(** ** Pruning *)

Record PruneParameters {time : Type} := mkPruneParameters {
  prune_if_older_than : option time;
  keep_if_newer_than : option time;
  prune_if_version_more_than : option N;
  keep_if_version_less_than : option N;
}.
Arguments PruneParameters time : clear implicits.
Arguments mkPruneParameters {time} _ _ _ _.
Definition PruneParameters_default {time} : PruneParameters time := mkPruneParameters None None None None.
Definition PruneParameters_is_empty {time} (self : PruneParameters time) : bool :=
  match prune_if_older_than self, prune_if_version_more_than self with None, None => true | _, _ => false end.
Definition opt_holds {A} (p : A -> bool) (o : option A) : bool := match o with Some a => p a | None => false end.
Definition should_prune {time} `{!Cmp time} (self : PruneParameters time) (spec : TagSpec) (tag : Tag time) : bool :=
  if opt_holds (fun less => ts_version spec <? less)%N (keep_if_version_less_than self) then false
  else if opt_holds (gtb (tag_time tag)) (keep_if_newer_than self) then false
  else if opt_holds (fun more => more <? ts_version spec)%N (prune_if_version_more_than self) then true
  else opt_holds (ltb (tag_time tag)) (prune_if_older_than self).

(** ** What cleaning reports *)

#[export] Instance TagSpec_countable : Countable TagSpec :=
  inj_countable' (fun s => (ts_org s, ts_name s, ts_version s)) (fun p => mkTagSpec p.1.1 p.1.2 p.2)
    (fun s => match s with mkTagSpec _ _ _ => eq_refl end).

Record CleanResult {time : Type} := mkCleanResult {
  visited_tags : N;
  pruned_tags : gmap (option rstr) (gmap TagSpec (list (Tag time)));
  visited_objects : N;
  removed_objects : gset Digest;
  visited_payloads : N;
  removed_payloads : gset Digest;
  errors : list SpfsError;
}.
Arguments CleanResult time : clear implicits.
Arguments mkCleanResult {time} _ _ _ _ _ _ _.
Definition CleanResult_default {time} : CleanResult time := mkCleanResult 0 ∅ 0 ∅ 0 ∅ [].
Definition clean_is_ok {time} (self : CleanResult time) : bool := bool_decide (errors self = []).
Definition into_all_tags {time} (self : CleanResult time) : list (Tag time) :=
  (map_to_list (pruned_tags self)).*2 ≫= (fun tags => (map_to_list tags).*2 ≫= id).
(** [AddAssign]: a tag spec's list is replaced, the rest is added. *)
Definition extend_pruned {time} (self rhs : gmap (option rstr) (gmap TagSpec (list (Tag time)))) :=
  union_with (fun mine theirs => Some (theirs ∪ mine)) self rhs.
Definition clean_add {time} (self rhs : CleanResult time) : CleanResult time :=
  mkCleanResult (u64_add (visited_tags self) (visited_tags rhs)) (extend_pruned (pruned_tags self) (pruned_tags rhs))
    (u64_add (visited_objects self) (visited_objects rhs)) (removed_objects self ∪ removed_objects rhs)
    (u64_add (visited_payloads self) (visited_payloads rhs)) (removed_payloads self ∪ removed_payloads rhs)
    (errors self ++ errors rhs).

(** ** The cleaner *)

Record Cleaner {time : Type} := mkCleaner {
  tag_stream_concurrency : nat;
  removal_concurrency : nat;
  discover_concurrency : nat;
  dry_run : bool;
  must_be_older_than : time;
  prune_all_tag_namespaces : bool;
  prune_repeated_tags : option N;
  prune_params : PruneParameters time;
}.
Arguments Cleaner time : clear implicits.
Arguments mkCleaner {time} _ _ _ _ _ _ _ _.
Definition Cleaner_new {time} (now : time) : Cleaner time := mkCleaner 500 500 50 false now false None PruneParameters_default.
Definition with_tag_stream_concurrency {time} n (self : Cleaner time) : Cleaner time :=
  mkCleaner n (removal_concurrency self) (discover_concurrency self) (dry_run self) (must_be_older_than self)
    (prune_all_tag_namespaces self) (prune_repeated_tags self) (prune_params self).
Definition with_dry_run {time} d (self : Cleaner time) : Cleaner time :=
  mkCleaner (tag_stream_concurrency self) (removal_concurrency self) (discover_concurrency self) d (must_be_older_than self)
    (prune_all_tag_namespaces self) (prune_repeated_tags self) (prune_params self).
Definition with_required_age_cutoff {time} t (self : Cleaner time) : Cleaner time :=
  mkCleaner (tag_stream_concurrency self) (removal_concurrency self) (discover_concurrency self) (dry_run self) t
    (prune_all_tag_namespaces self) (prune_repeated_tags self) (prune_params self).
Definition with_prune_all_tag_namespaces {time} p (self : Cleaner time) : Cleaner time :=
  mkCleaner (tag_stream_concurrency self) (removal_concurrency self) (discover_concurrency self) (dry_run self)
    (must_be_older_than self) p (prune_repeated_tags self) (prune_params self).
Definition with_prune_repeated_tags {time} p (self : Cleaner time) : Cleaner time :=
  mkCleaner (tag_stream_concurrency self) (removal_concurrency self) (discover_concurrency self) (dry_run self)
    (must_be_older_than self) (prune_all_tag_namespaces self) p (prune_params self).
Definition with_prune_params {time} f (self : Cleaner time) : Cleaner time :=
  mkCleaner (tag_stream_concurrency self) (removal_concurrency self) (discover_concurrency self) (dry_run self)
    (must_be_older_than self) (prune_all_tag_namespaces self) (prune_repeated_tags self) (f (prune_params self)).

(** What the cleaner uses of the tags of a repository ([TagStorage]). *)
Class TagDatabase (D time : Type) := {
  get_tag_namespace : D -> option rstr;
  ls_tag_namespaces : D -> list (res SpfsError rstr);
  iter_tag_streams_in_namespace : D -> option rstr -> list (res SpfsError TagSpec);
  read_tag_in_namespace : D -> option rstr -> TagSpec -> res SpfsError (list (res SpfsError (Tag time)));
  remove_tag_in_namespace : D -> option rstr -> Tag time -> res SpfsError unit * D;
}.

(** The repository being cleaned, and the digests that were found attached. *)
Record Cleaning {D time : Type} := mkCleaning { cl_tags : D; cl_repo : Repo time; attached : gset Digest }.
Arguments Cleaning D time : clear implicits.
Arguments mkCleaning {D time} _ _ _.

Section clean.
Context {D time : Type} `{!FileSystem time, !TagDatabase D time} (self : Cleaner time).
Abbreviation Cleaning := (Cleaning D time).
Abbreviation CleanResult := (CleanResult time).
Implicit Types (c : Cleaning) (digest : Digest).

(** ** One stream of tags *)

Definition should_prune_this_namespace (tag_namespace_to_prune tag_namespace_to_visit : option rstr) : bool :=
  prune_all_tag_namespaces self ||
  match tag_namespace_to_prune, tag_namespace_to_visit with
  | Some prune, Some visit => bool_decide (prune = visit)
  | None, None => true
  | _, _ => false
  end.
(** The loop over the history: the tags to prune and the targets to keep. *)
Fixpoint sort_history (prunes : bool) (history : list (Tag time)) (i : N) (seen_targets : gmap Digest N)
    (to_prune : list (Tag time)) (to_keep : list Digest) : list (Tag time) * list Digest :=
  match history with
  | [] => (to_prune, to_keep)
  | tag :: history =>
      let repeated :=
        match seen_targets !! tag_target tag, prune_repeated_tags self with
        | Some seen_count, Some keep_number => prunes && (keep_number <=? seen_count)%N
        | _, _ => false
        end in
      if repeated then sort_history prunes history (i + 1) seen_targets (to_prune ++ [tag]) to_keep
      else
        let count := match seen_targets !! tag_target tag with Some seen_count => (seen_count + 1)%N | None => 1%N end in
        let seen_targets := <[tag_target tag := count]> seen_targets in
        if prunes && should_prune (prune_params self) (Tag_to_spec tag i) tag
        then sort_history prunes history (i + 1) seen_targets (to_prune ++ [tag]) to_keep
        else sort_history prunes history (i + 1) seen_targets to_prune (to_keep ++ [tag_target tag])
  end.
Fixpoint remove_tags (namespace : option rstr) (to_prune : list (Tag time)) (tags : D) : res SpfsError unit * D :=
  match to_prune with
  | [] => (Ok tt, tags)
  | tag :: to_prune =>
      if dry_run self then remove_tags namespace to_prune tags
      else match remove_tag_in_namespace tags namespace tag with
           | (Ok _, tags) => remove_tags namespace to_prune tags
           | r => r
           end
  end.
Definition pruning_result (namespace : option rstr) (tag_spec : TagSpec) (to_prune : list (Tag time)) (to_keep : list Digest) : CleanResult :=
  mkCleanResult (u64_add (N.of_nat (length to_prune)) (N.of_nat (length to_keep))) {[namespace := {[tag_spec := to_prune]}]} 0 ∅ 0 ∅ [].
Definition prune_tag_stream (tag_namespace_to_prune tag_namespace_to_visit : option rstr) (tag_spec : TagSpec) (tags : D) :
    res SpfsError (CleanResult * list Digest) * D :=
  let prunes := should_prune_this_namespace tag_namespace_to_prune tag_namespace_to_visit in
  match stream ← read_tag_in_namespace tags tag_namespace_to_visit tag_spec; try_map id stream with
  | Err e => (Err e, tags)
  | Panicked => (Panicked, tags)
  | Ok history =>
      let '(to_prune, to_keep) := sort_history prunes history 0 ∅ [] [] in
      match remove_tags tag_namespace_to_visit to_prune tags with
      | (Ok _, tags) => (Ok (pruning_result tag_namespace_to_visit tag_spec to_prune to_keep, to_keep), tags)
      | (Err e, tags) => (Err e, tags)
      | (Panicked, tags) => (Panicked, tags)
      end
  end.

(** ** Visiting what is attached *)

(** [visit_attached_objects] up to its children: they, and what it reports. *)
Definition visit_attached_object digest c : res SpfsError (list Digest * CleanResult) * Cleaning :=
  if bool_decide (digest ∈ attached c) then (Ok ([], CleanResult_default), c)
  else
    let c := mkCleaning (cl_tags c) (cl_repo c) ({[digest]} ∪ attached c) in
    (match read_object (cl_repo c) digest with
     | Ok obj =>
         let payloads := match to_enum obj with ObjBlob _ => 1%N | _ => 0%N end in
         Ok (child_objects obj, mkCleanResult 0 ∅ 1 ∅ payloads ∅ [])
     | Err (UnknownObject _) => Ok ([], CleanResult_default)
     | Err e => Ok ([], mkCleanResult 0 ∅ 0 ∅ 0 ∅ [e])
     | Panicked => Panicked
     end, c).

(** A task ([prune_tag_stream_and_walk]): it prunes a stream, and then has
    digests to visit. *)
Inductive Future :=
| Prunes (tag_namespace : option rstr) (tag_spec : TagSpec)
| Walks (todo : list Digest) (result : CleanResult).
(** A step of a task: it goes on, or it returns. *)
Definition step_future (tag_namespace_to_prune : option rstr) (choice : nat) (future : Future) c :
    (Future + res SpfsError CleanResult) * Cleaning :=
  match future with
  | Prunes tag_namespace tag_spec =>
      let '(r, tags) := prune_tag_stream tag_namespace_to_prune tag_namespace tag_spec (cl_tags c) in
      (match r with
       | Ok (result, to_keep) => inl (Walks to_keep result)
       | Err e => inr (Err e)
       | Panicked => inr Panicked
       end, mkCleaning tags (cl_repo c) (attached c))
  | Walks [] result => (inr (Ok result), c)
  | Walks (first :: others) result =>
      let todo := first :: others in
      let i := choice mod length todo in
      let '(r, c) := visit_attached_object (nth i todo first) c in
      (match r with
       | Ok (children, found) => inl (Walks (take i todo ++ drop (S i) todo ++ children) (clean_add result found))
       | Err e => inr (Err e)
       | Panicked => inr Panicked
       end, c)
  end.

(** ** The tasks together

    The schedule gives, for every step, the task and its digest. *)
Record TaskPool := mkTaskPool { tasks : list Future; cleaning : Cleaning; steps : nat }.
Context (schedule : nat -> nat * nat).

(** [FuturesUnordered::try_next]: steps until a task returns; [None] when there
    was not enough fuel. *)
Fixpoint try_next (tag_namespace_to_prune : option rstr) (fuel : nat) (pool : TaskPool) :
    option (option (res SpfsError CleanResult) * TaskPool) :=
  match tasks pool with
  | [] => Some (None, pool)
  | first :: others =>
      match fuel with
      | O => None
      | S fuel =>
          let '(turn, choice) := schedule (steps pool) in
          let i := turn mod S (length others) in
          let rest := take i (tasks pool) ++ drop (S i) (tasks pool) in
          match step_future tag_namespace_to_prune choice (nth i (tasks pool) first) (cleaning pool) with
          | (inl future, c) => try_next tag_namespace_to_prune fuel (mkTaskPool (future :: rest) c (S (steps pool)))
          | (inr r, c) => Some (Some r, mkTaskPool rest c (S (steps pool)))
          end
      end
  end.
(** Let tasks finish until no more than [limit] are left; what they return is
    dropped. *)
Fixpoint drain_to (tag_namespace_to_prune : option rstr) (limit fuel : nat) (pool : TaskPool) : option (res SpfsError unit * TaskPool) :=
  if length (tasks pool) <=? limit then Some (Ok tt, pool)
  else
    match fuel with
    | O => None
    | S fuel =>
        match try_next tag_namespace_to_prune fuel pool with
        | None => None
        | Some (Some (Err e), pool) => Some (Err e, pool)
        | Some (Some Panicked, pool) => Some (Panicked, pool)
        | Some (_, pool) => drain_to tag_namespace_to_prune limit fuel pool
        end
    end.
(** Let all tasks finish, and add up what they return. *)
Fixpoint drain_all (tag_namespace_to_prune : option rstr) (fuel : nat) (result : CleanResult) (pool : TaskPool) :
    option (res SpfsError CleanResult * TaskPool) :=
  match fuel with
  | O => None
  | S fuel =>
      match try_next tag_namespace_to_prune fuel pool with
      | None => None
      | Some (None, pool) => Some (Ok result, pool)
      | Some (Some (Ok r), pool) => drain_all tag_namespace_to_prune fuel (clean_add result r) pool
      | Some (Some (Err e), pool) => Some (Err e, pool)
      | Some (Some Panicked, pool) => Some (Panicked, pool)
      end
  end.
(** The streams of all namespaces, and those outside of any. *)
Definition streams_in (tags : D) (namespace : option rstr) : list (res SpfsError (option rstr * TagSpec)) :=
  List.map (fun r => spec ← r; Ok (namespace, spec)) (iter_tag_streams_in_namespace tags namespace).
Definition all_tag_streams (tags : D) : list (res SpfsError (option rstr * TagSpec)) :=
  (ls_tag_namespaces tags ≫= (fun r => match r with
                                       | Ok namespace => streams_in tags (Some namespace)
                                       | Err e => [Err e]
                                       | Panicked => [Panicked]
                                       end)) ++ streams_in tags None.
Fixpoint walk_streams (tag_namespace_to_prune : option rstr) (fuel : nat) (streams : list (res SpfsError (option rstr * TagSpec))) (pool : TaskPool) :
    option (res SpfsError CleanResult * TaskPool) :=
  match streams with
  | [] => drain_all tag_namespace_to_prune fuel CleanResult_default pool
  | Err e :: _ => Some (Err e, pool)
  | Panicked :: _ => Some (Panicked, pool)
  | Ok (tag_namespace, tag_spec) :: streams =>
      let limit := tag_stream_concurrency self in
      match (if limit <? length (tasks pool) then drain_to tag_namespace_to_prune (limit / 2) fuel pool else Some (Ok tt, pool)) with
      | None => None
      | Some (Err e, pool) => Some (Err e, pool)
      | Some (Panicked, pool) => Some (Panicked, pool)
      | Some (Ok _, pool) =>
          walk_streams tag_namespace_to_prune fuel streams
            (mkTaskPool (tasks pool ++ [Prunes tag_namespace tag_spec]) (cleaning pool) (steps pool))
      end
  end.

(** ** Removing what was not visited *)

(** One object that the listing yields. *)
Definition remove_unvisited_object digest (removed : gset Digest) c : res SpfsError (gset Digest) * Cleaning :=
  match iter_object (cl_repo c) digest with
  | Err e => (Err e, c)
  | Panicked => (Panicked, c)
  | Ok (_, object) =>
      if bool_decide (digest ∈ attached c) then (Ok removed, c)
      else
        let '(r, repo) :=
          if dry_run self then (Ok true, cl_repo c)
          else match remove_object_if_older_than (must_be_older_than self) digest (cl_repo c) with
               | (Err (UnknownObject _), repo) => (Ok true, repo)
               | r => r
               end in
        let c := mkCleaning (cl_tags c) repo (attached c) in
        match r with
        | Err e => (Err e, c)
        | Panicked => (Panicked, c)
        | Ok false => (Ok removed, mkCleaning (cl_tags c) (cl_repo c) ({[digest]} ∪ attached c))
        | Ok true =>
            match to_enum object with
            | ObjBlob blob =>
                if dry_run self then (Ok ({[bl_payload blob]} ∪ removed), c)
                else
                  let '(r, repo) := remove_payload (bl_payload blob) (cl_repo c) in
                  let c := mkCleaning (cl_tags c) repo (attached c) in
                  match r with
                  | Ok _ | Err (UnknownObject _) => (Ok ({[bl_payload blob]} ∪ removed), c)
                  | Err e => (Err e, c)
                  | Panicked => (Panicked, c)
                  end
            | _ => (Ok removed, c)
            end
        end
  end.
(** One payload that the listing yields, with the number visited so far. *)
Definition remove_unvisited_payload payload (found : gset Digest * N) c : res SpfsError (gset Digest * N) * Cleaning :=
  if bool_decide (payload ∈ attached c) then (Ok found, c)
  else
    let found := ({[payload]} ∪ found.1, u64_add found.2 1) in
    if dry_run self then (Ok found, c)
    else
      let '(r, repo) := remove_payload payload (cl_repo c) in
      let c := mkCleaning (cl_tags c) repo (attached c) in
      match r with
      | Ok _ | Err (UnknownObject _) => (Ok found, c)
      | Err e => (Err e, c)
      | Panicked => (Panicked, c)
      end.
Fixpoint each {A} (remove : Digest -> A -> Cleaning -> res SpfsError A * Cleaning) (digests : list Digest) (a : A) c :
    res SpfsError A * Cleaning :=
  match digests with
  | [] => (Ok a, c)
  | digest :: digests =>
      match remove digest a c with
      | (Ok a, c) => each remove digests a c
      | r => r
      end
  end.
(** What the first loop counts is lost, as are the objects it removes: only
    payloads are reported. *)
Definition remove_unvisited_objects_and_payloads c : res SpfsError CleanResult * Cleaning :=
  match each remove_unvisited_object (find_digests (cl_repo c) SearchAll) ∅ c with
  | (Err e, c) => (Err e, c)
  | (Panicked, c) => (Panicked, c)
  | (Ok removed, c) =>
      match each remove_unvisited_payload (iter_payload_digests (cl_repo c)) (removed, 0%N) c with
      | (Err e, c) => (Err e, c)
      | (Panicked, c) => (Panicked, c)
      | (Ok (removed, visited), c) => (Ok (mkCleanResult 0 ∅ 0 ∅ visited removed []), c)
      end
  end.

(** [prune_all_tags_and_clean], but for renders and proxies. *)
Definition prune_all_tags_and_clean (fuel : nat) c : option (res SpfsError CleanResult * Cleaning) :=
  match walk_streams (get_tag_namespace (cl_tags c)) fuel (all_tag_streams (cl_tags c)) (mkTaskPool [] c 0) with
  | None => None
  | Some (Err e, pool) => Some (Err e, cleaning pool)
  | Some (Panicked, pool) => Some (Panicked, cleaning pool)
  | Some (Ok result, pool) =>
      if negb (clean_is_ok result) then Some (Ok result, cleaning pool)
      else
        match remove_unvisited_objects_and_payloads (cleaning pool) with
        | (Ok removed, c) => Some (Ok (clean_add result removed), c)
        | r => Some r
        end
  end.
End clean.
Arguments Future time : clear implicits.
Arguments TaskPool D time : clear implicits.
