(* ===== verification/CleanTheory.v ===== *)
(** * What cleaning keeps

    Whatever the schedule of its tasks, cleaning a repository ([Clean]) removes no
    object and no payload that a tag it keeps can reach, as long as there are no
    more streams of tags than the cleaner processes at a time; and what it
    does not keep is removed.  A cleaning ends. *)

From stdpp Require Import gmap.
From S2P Require Import Prelude Strings Collections Encoding TagSpec Tags Entry Manifest Objects ObjectStore Clean.

#[local] Set Warnings "-register-all".

(** What cleaning relies on: in the namespace of the repository, removing a tag
    leaves nothing of it and adds no tag.  [tags_ok] is the invariant of the
    database of tags. *)
Class TagDatabaseLaws (D time : Type) `{!TagDatabase D time} := {
  tags_ok : D -> Prop;
  remove_tag_ok d t r d' : tags_ok d -> remove_tag_in_namespace d (get_tag_namespace d) t = (r, d') ->
    tags_ok d' /\ get_tag_namespace d' = get_tag_namespace d;
  remove_tag_shrinks d t r d' : tags_ok d -> remove_tag_in_namespace d (get_tag_namespace d) t = (r, d') ->
    forall ns spec l, read_tag_in_namespace d' ns spec = Ok l ->
      exists l0, read_tag_in_namespace d ns spec = Ok l0 /\ forall x, x ∈ l -> x ∈ l0;
  remove_tag_gone d (t : Tag time) d' : tags_ok d -> remove_tag_in_namespace d (get_tag_namespace d) t = (Ok tt, d') ->
    forall spec l, read_tag_in_namespace d' (get_tag_namespace d) spec = Ok l -> Ok t ∉ l;
}.

(** What can be reached from some digests by reading objects. *)
Inductive reachable {time} `{!FileSystem time} (repo : Repo time) (roots : Digest -> Prop) : Digest -> Prop :=
| reach_root d : roots d -> reachable repo roots d
| reach_child parent obj d :
    reachable repo roots parent -> read_object repo parent = Ok obj -> d ∈ child_objects obj -> reachable repo roots d.

Section clean.
Context {D time : Type} `{!FileSystem time, !TagDatabase D time, !TagDatabaseLaws D time} (self : Cleaner time).
Abbreviation Cleaning := (Cleaning D time).
Abbreviation Future := (Future time).
Implicit Types (c : Cleaning) (d : Digest) (tasks : list Future).

(** ** Pruning a stream *)

Lemma sort_history_keeps prunes history i seen pr ke to_prune to_keep :
  sort_history self prunes history i seen pr ke = (to_prune, to_keep) ->
  (forall t, t ∈ pr -> t ∈ to_prune) /\ (forall d, d ∈ ke -> d ∈ to_keep) /\
  forall t, t ∈ history -> t ∈ to_prune \/ tag_target t ∈ to_keep.
Proof.
  revert i seen pr ke. induction history as [|tag history IH]; intros i seen pr ke; cbn [sort_history].
  - intros [= <- <-]. split_and!; [done..|]. by intros t ?%elem_of_nil.
  - assert (forall i seen pr' ke', (forall t, t ∈ pr -> t ∈ pr') -> (forall d, d ∈ ke -> d ∈ ke') ->
      (tag ∈ pr' \/ tag_target tag ∈ ke') -> sort_history self prunes history i seen pr' ke' = (to_prune, to_keep) ->
      (forall t, t ∈ pr -> t ∈ to_prune) /\ (forall d, d ∈ ke -> d ∈ to_keep) /\
      forall t, t ∈ tag :: history -> t ∈ to_prune \/ tag_target t ∈ to_keep) as Hstep.
    { intros i' seen' pr' ke' Hpr Hke Htag Hrec. apply IH in Hrec as (Hp & Hk & Hh). split_and!; [auto..|].
      intros t [-> | Ht]%elem_of_cons; [destruct Htag; auto|by apply Hh]. }
    match goal with |- context [if ?repeated then _ else _] => destruct repeated end;
      [|match goal with |- context [if ?pruned then _ else _] => destruct pruned end]; apply Hstep;
      intros; rewrite ?elem_of_app, ?list_elem_of_singleton; auto.
Qed.
Lemma sort_history_unpruned history i seen pr ke to_prune to_keep :
  sort_history self false history i seen pr ke = (to_prune, to_keep) -> to_prune = pr.
Proof.
  revert i seen pr ke. induction history as [|tag history IH]; intros i seen pr ke; cbn [sort_history andb].
  - by intros [= <- _].
  - destruct (seen !! tag_target tag), (prune_repeated_tags self); apply IH.
Qed.
(** From one database to a later one: the invariant, and no new tags. *)
Definition shrinks (tags tags' : D) : Prop :=
  (tags_ok tags' /\ get_tag_namespace tags' = get_tag_namespace tags) /\
  forall ns spec l, read_tag_in_namespace tags' ns spec = Ok l ->
    exists l0, read_tag_in_namespace tags ns spec = Ok l0 /\ forall x, x ∈ l -> x ∈ l0.
Lemma shrinks_refl tags : tags_ok tags -> shrinks tags tags.
Proof. intros H. split; [done|]. eauto. Qed.
Lemma shrinks_trans tags1 tags2 tags3 : shrinks tags1 tags2 -> shrinks tags2 tags3 -> shrinks tags1 tags3.
Proof.
  intros [[_ Hn1] H1] [[Hok Hn2] H2]. split; [split; [done|congruence]|]. intros ns spec l Hl.
  destruct (H2 _ _ _ Hl) as (l1 & Hl1 & Hs1), (H1 _ _ _ Hl1) as (l0 & Hl0 & Hs0). eauto.
Qed.
Lemma remove_tag_shrinks_all tags t r tags' : tags_ok tags ->
  remove_tag_in_namespace tags (get_tag_namespace tags) t = (r, tags') -> shrinks tags tags'.
Proof. intros Hok H. split; [by apply (remove_tag_ok _ _ _ _ Hok H)|by apply (remove_tag_shrinks _ _ _ _ Hok H)]. Qed.
Lemma remove_tags_shrinks ns to_prune tags r tags' : tags_ok tags -> (to_prune <> [] -> ns = get_tag_namespace tags) ->
  remove_tags self ns to_prune tags = (r, tags') -> shrinks tags tags'.
Proof.
  revert tags. induction to_prune as [|t to_prune IH]; intros tags Hok Hns; cbn [remove_tags].
  { intros [= <- <-]. by apply shrinks_refl. }
  specialize (Hns ltac:(done)) as ->. destruct (dry_run self); [by apply IH|].
  destruct (remove_tag_in_namespace tags _ t) as [[u|e|] tags1] eqn:E; apply (remove_tag_shrinks_all _ _ _ _ Hok) in E as Hs;
    [|by intros [= <- <-]..].
  destruct (Hs) as [[Hok1 Hns1] _]. intros H. by apply (shrinks_trans _ _ _ Hs), (IH tags1 Hok1).
Qed.
Lemma remove_tags_gone ns to_prune tags tags' : tags_ok tags -> (to_prune <> [] -> ns = get_tag_namespace tags) ->
  dry_run self = false -> remove_tags self ns to_prune tags = (Ok tt, tags') ->
  forall t spec l, t ∈ to_prune -> read_tag_in_namespace tags' ns spec = Ok l -> Ok t ∉ l.
Proof.
  intros Hok Hns Hdry. revert tags Hok Hns. induction to_prune as [|t to_prune IH]; intros tags Hok Hns; cbn [remove_tags]; [by intros _ t spec l ?%elem_of_nil|].
  specialize (Hns ltac:(done)) as ->.
  rewrite Hdry. destruct (remove_tag_in_namespace tags _ t) as [[[]|e|] tags1] eqn:E; [|done..].
  destruct (remove_tag_ok _ _ _ _ Hok E) as [Hok1 Hns1].
  intros H t' spec l [-> | Ht]%elem_of_cons Hl; [|by apply (IH tags1 Hok1 ltac:(done) H _ _ _ Ht Hl)].
  destruct (remove_tags_shrinks _ _ tags1 _ _ Hok1 ltac:(done) H) as [_ Hs].
  destruct (Hs _ _ _ Hl) as (l1 & Hl1 & Hsub). intros Hin.
  by apply (remove_tag_gone _ _ _ Hok E _ _ Hl1), Hsub.
Qed.
(** The tags left in a stream that was pruned are those to keep. *)
Lemma prune_tag_stream_keeps ns spec tags r tags' : tags_ok tags -> prune_all_tag_namespaces self = false ->
  prune_tag_stream self (get_tag_namespace tags) ns spec tags = (r, tags') ->
  shrinks tags tags' /\
  (dry_run self = false -> forall result to_keep, r = Ok (result, to_keep) -> errors result = [] /\
     forall l t, read_tag_in_namespace tags' ns spec = Ok l -> Ok t ∈ l -> tag_target t ∈ to_keep).
Proof.
  intros Hok Hall. unfold prune_tag_stream. destruct (read_tag_in_namespace tags ns spec) as [stream|e|] eqn:Er; cbn [mbind res_bind];
    [|intros [= <- <-]; split; [by apply shrinks_refl|done]..].
  destruct (try_map id stream) as [history|e|] eqn:Em; [|intros [= <- <-]; split; [by apply shrinks_refl|done]..].
  destruct (sort_history _ _ history _ _ _ _) as [to_prune to_keep] eqn:Es.
  assert (to_prune <> [] -> ns = get_tag_namespace tags) as Hns.
  { intros Hne. unfold should_prune_this_namespace in Es. rewrite Hall in Es. cbn [orb] in Es.
    destruct (get_tag_namespace tags) as [n|], ns as [n'|]; [|by apply sort_history_unpruned in Es..|done].
    case_bool_decide; [by subst|by apply sort_history_unpruned in Es]. }
  destruct (remove_tags self ns to_prune tags) as [[[]|e|] tags1] eqn:E; intros [= <- <-];
    (split; [by apply (remove_tags_shrinks _ _ _ _ _ Hok Hns E)|]); intros Hdry ? ? [=]; subst.
  split; [done|]. intros l t Hl Ht. destruct (remove_tags_shrinks _ _ _ _ _ Hok Hns E) as [_ Hs].
  destruct (Hs _ _ _ Hl) as (l0 & Hl0 & Hsub). rewrite Er in Hl0. injection Hl0 as <-. apply Hsub in Ht as Hin.
  assert (t ∈ history) as Hh.
  { apply try_map_Ok in Em. apply list_elem_of_lookup in Hin as [i Hi]. destruct (Forall2_lookup_l _ _ _ _ _ Em Hi) as (t' & Ht' & [= ->]).
    by apply list_elem_of_lookup_2 in Ht'. }
  apply sort_history_keeps in Es as (_ & _ & Hkept). destruct (Hkept t Hh) as [Hpr|Hke]; [|done].
  by destruct (remove_tags_gone _ _ _ _ Hok Hns Hdry E _ _ _ Hpr Hl).
Qed.

(** ** The invariant of the visit *)

Definition unreadable (repo : Repo time) d : Prop :=
  exists e, read_object repo d = Err e /\ (forall d', e <> UnknownObject d').
Definition pending tasks : list Digest := tasks ≫= (fun f => match f with Walks todo _ => todo | Prunes _ _ => [] end).
Definition reported tasks : list SpfsError :=
  tasks ≫= (fun f => match f with Walks _ result => errors result | Prunes _ _ => [] end).
(** The targets of the tags that a stream holds now. *)
Definition targets (tags : D) ns spec d : Prop :=
  exists l t, read_tag_in_namespace tags ns spec = Ok l /\ Ok t ∈ l /\ tag_target t = d.

Section visit.
Context (start : Cleaning).
Abbreviation ns0 := (get_tag_namespace (cl_tags start)).
Hypothesis own_namespace : prune_all_tag_namespaces self = false.
(** [errs] is what the tasks that returned reported; [started] are the streams
    that tasks were made for. *)
Record visiting (started : list (option rstr * TagSpec)) tasks c (errs : list SpfsError) : Prop := {
  vi_repo : cl_repo c = cl_repo start;
  vi_tags : tags_ok (cl_tags c) /\ get_tag_namespace (cl_tags c) = get_tag_namespace (cl_tags start);
  vi_closed d obj child : d ∈ attached c -> read_object (cl_repo start) d = Ok obj -> child ∈ child_objects obj ->
    child ∈ attached c \/ child ∈ pending tasks;
  vi_errors d : d ∈ attached c -> unreadable (cl_repo start) d -> reported tasks ++ errs <> [];
  vi_targets ns spec d : (ns, spec) ∈ started -> Prunes ns spec ∉ tasks -> targets (cl_tags c) ns spec d ->
    d ∈ attached c \/ d ∈ pending tasks;
}.
Lemma pending_cons f tasks d : d ∈ pending (f :: tasks) <->
  d ∈ match f with Walks todo _ => todo | Prunes _ _ => [] end \/ d ∈ pending tasks.
Proof. unfold pending. cbn [mbind list_bind]. by rewrite elem_of_app. Qed.
Lemma pending_perm tasks tasks' : tasks ≡ₚ tasks' -> pending tasks ≡ₚ pending tasks'.
Proof. intros H. unfold pending. by rewrite H. Qed.
Lemma reported_perm tasks tasks' : tasks ≡ₚ tasks' -> reported tasks ≡ₚ reported tasks'.
Proof. intros H. unfold reported. by rewrite H. Qed.
Lemma visiting_perm started tasks tasks' c errs : tasks ≡ₚ tasks' -> visiting started tasks c errs -> visiting started tasks' c errs.
Proof.
  intros Hp [Hrepo Htags Hclosed Herrs Htargets]. pose proof (pending_perm _ _ Hp) as Hpend. split; [done|done|..].
  - intros d obj child. rewrite <-Hpend. apply Hclosed.
  - intros d Hd Hu He. apply (Herrs d Hd Hu). apply app_eq_nil in He as [He ->].
    apply reported_perm in Hp. rewrite He in Hp. by apply Permutation_nil_r in Hp as ->.
  - intros ns spec d Hs Hn. rewrite <-Hpend. rewrite <-Hp in Hn. by apply Htargets.
Qed.
Lemma targets_shrink tags tags' ns spec d :
  (forall ns' spec' l, read_tag_in_namespace tags' ns' spec' = Ok l ->
     exists l0, read_tag_in_namespace tags ns' spec' = Ok l0 /\ forall x, x ∈ l -> x ∈ l0) ->
  targets tags' ns spec d -> targets tags ns spec d.
Proof. intros H (l & t & Hl & Ht & Hd). destruct (H _ _ _ Hl) as (l0 & Hl0 & Hsub). exists l0, t. auto. Qed.

(** A task that prunes. *)
Lemma step_prunes started ns spec tasks c errs r tags' :
  dry_run self = false -> visiting started (Prunes ns spec :: tasks) c errs ->
  prune_tag_stream self ns0 ns spec (cl_tags c) = (r, tags') ->
  (forall result to_keep, r = Ok (result, to_keep) ->
     visiting started (Walks to_keep result :: tasks) (mkCleaning tags' (cl_repo c) (attached c)) errs) /\
  cl_repo c = cl_repo start.
Proof.
  intros Hdry [Hrepo Htags Hclosed Herrs Htargets] E. destruct Htags as [Hok Hns0]. rewrite <-Hns0 in E.
  apply (prune_tag_stream_keeps _ _ _ _ _ Hok own_namespace) in E as [[[Hok' Hns'] Hshrink] Hkeep]. split; [|done].
  intros result to_keep ->. destruct (Hkeep Hdry _ _ eq_refl) as [Hno Hkept].
  split; cbn [cl_repo cl_tags attached]; [done|split; [done|congruence]|..].
  - intros d obj child Hd Hr Hc. rewrite pending_cons. destruct (Hclosed _ _ _ Hd Hr Hc) as [Hin|Hin]; [by left|].
    apply pending_cons in Hin as [?%elem_of_nil|]; by auto.
  - intros d Hd Hu. unfold reported. cbn [mbind list_bind]. rewrite Hno. by apply (Herrs d Hd Hu).
  - intros ns' spec' d Hs Hn Ht. rewrite pending_cons. destruct (decide (ns' = ns /\ spec' = spec)) as [[-> ->]|Hne].
    + destruct Ht as (l & t & Hl & Hin & <-). right. left. by apply (Hkept l).
    + assert (d ∈ attached c \/ d ∈ pending (Prunes ns spec :: tasks)) as [Hin|Hin].
      * apply (Htargets ns' spec'); [done| |by apply (targets_shrink _ _ _ _ _ Hshrink)].
        rewrite elem_of_cons in Hn |- *. intros [[= -> ->]|Hin]; [by apply Hne|]. apply Hn. by right.
      * by left.
      * apply pending_cons in Hin as [?%elem_of_nil|]; by auto.
Qed.
(** A task that visits a digest it has to. *)
Lemma step_visits started tasks c errs d todo todo' result r c' :
  visiting started (Walks todo result :: tasks) c errs -> todo ≡ₚ d :: todo' ->
  visit_attached_object d c = (r, c') ->
  cl_repo c' = cl_repo start /\
  forall children found, r = Ok (children, found) ->
    visiting started (Walks (todo' ++ children) (clean_add result found) :: tasks) c' errs.
Proof.
  intros [Hrepo Htags Hclosed Herrs Htargets] Htodo. unfold visit_attached_object.
  assert (forall x, x ∈ pending (Walks todo result :: tasks) <-> x = d \/ x ∈ todo' \/ x ∈ pending tasks) as Hpend.
  { intros x. rewrite pending_cons, Htodo, elem_of_cons. tauto. }
  assert (forall x, reported (x :: tasks) = match x with Walks _ result => errors result | _ => [] end ++ reported tasks) as Hrep by done.
  case_bool_decide as Hatt.
  { intros [= <- <-]. split; [done|]. intros children found [= <- <-]. rewrite app_nil_r. split; [done|done|..].
    - intros x obj child Hx Hr Hc. rewrite pending_cons. destruct (Hclosed _ _ _ Hx Hr Hc) as [|[->|[]]%Hpend]; auto.
    - intros x Hx Hu. rewrite Hrep. cbn [clean_add errors CleanResult_default]. rewrite app_nil_r, <-(Hrep (Walks todo result)). by apply (Herrs x).
    - intros ns spec x Hs Hn Ht. rewrite pending_cons.
      assert (Prunes ns spec ∉ Walks todo result :: tasks) as Hn' by (rewrite elem_of_cons in Hn |- *; intros [[=]|]; auto).
      destruct (Htargets _ _ _ Hs Hn' Ht) as [|[->|[]]%Hpend]; auto. }
  intros [= <- <-]. cbn [cl_repo]. split; [done|]. intros children found Hread.
  assert (forall x, x ∈ attached c \/ x ∈ pending (Walks todo result :: tasks) ->
            x ∈ {[d]} ∪ attached c \/ x ∈ pending (Walks (todo' ++ children) (clean_add result found) :: tasks)) as Hmono.
  { intros x. rewrite Hpend, pending_cons, elem_of_union, elem_of_singleton, elem_of_app. tauto. }
  rewrite Hrepo in Hread. split; cbn [cl_repo attached cl_tags]; [done|done|..].
  - intros x obj child [->%elem_of_singleton | Hx]%elem_of_union Hr Hc.
    + rewrite Hr in Hread. injection Hread as <- <-. right. rewrite pending_cons, elem_of_app. auto.
    + apply Hmono. by apply (Hclosed x obj).
  - intros x Hx Hu. rewrite Hrep. cbn [clean_add errors]. apply elem_of_union in Hx as [->%elem_of_singleton | Hx].
    + destruct Hu as (e & He & Hknown). rewrite He in Hread.
      assert (errors found = [e]) as -> by (destruct e; try (by injection Hread as <- <-); by destruct (Hknown digest)).
      by destruct (errors result).
    + intros Hnil. apply (Herrs x Hx Hu). rewrite Hrep. apply app_eq_nil in Hnil as [Hnil ->].
      apply app_eq_nil in Hnil as [Hnil ->]. by apply app_eq_nil in Hnil as [-> _].
  - intros ns spec x Hs Hn Ht. apply Hmono, (Htargets ns spec); [done| |done].
    rewrite elem_of_cons in Hn |- *. intros [[=]|]; auto.
Qed.
Lemma nth_rest {A} (l : list A) i x : i < length l -> l ≡ₚ nth i l x :: take i l ++ drop (S i) l.
Proof.
  revert i. induction l as [|y l IH]; intros i Hi; [cbn in Hi; lia|]. destruct i as [|i]; [done|]. cbn [nth take drop app].
  rewrite (IH i) at 1 by (cbn in Hi; lia). by rewrite Permutation_swap.
Qed.
Lemma step_future_visiting started choice f tasks c errs r c' :
  dry_run self = false -> visiting started (f :: tasks) c errs -> step_future self ns0 choice f c = (r, c') ->
  cl_repo c' = cl_repo start /\
  match r with
  | inl f' => visiting started (f' :: tasks) c' errs
  | inr (Ok result) => visiting started tasks c' (errs ++ errors result)
  | inr _ => True
  end.
Proof.
  intros Hdry Hv. destruct f as [ns spec|[|first others] result]; cbn [step_future].
  - destruct (prune_tag_stream self ns0 ns spec (cl_tags c)) as [r0 tags'] eqn:E.
    destruct (step_prunes _ _ _ _ _ _ _ _ Hdry Hv E) as [Hok Hrepo]. intros [= <- <-]. split; [done|].
    destruct r0 as [[result to_keep]|e|]; [|done..]. by apply Hok.
  - intros [= <- <-]. destruct Hv as [Hrepo Htags Hclosed Herrs Htargets]. split; [done|]. split; [done|done|..].
    + intros d obj child Hd Hr Hc. destruct (Hclosed _ _ _ Hd Hr Hc) as [|[?%elem_of_nil|]%pending_cons]; auto; done.
    + intros d Hd Hu Hnil. apply (Herrs d Hd Hu). unfold reported in *. cbn [mbind list_bind].
      apply app_eq_nil in Hnil as [-> Hnil]. apply app_eq_nil in Hnil as [-> ->]. done.
    + intros ns spec d Hs Hn Ht.
      destruct (Htargets ns spec d Hs) as [|[?%elem_of_nil|]%pending_cons]; auto; [|done].
      rewrite elem_of_cons. intros [[=]|]; auto.
  - set (i := choice mod length (first :: others)).
    destruct (visit_attached_object (nth i (first :: others) first) c) as [r0 c0] eqn:E.
    assert (i < length (first :: others)) as Hi by (apply Nat.mod_upper_bound; done).
    destruct (step_visits _ _ _ _ _ _ _ _ _ _ Hv (nth_rest _ _ _ Hi) E) as [Hrepo Hok]. intros [= <- <-]. split; [done|].
    destruct r0 as [[children found]|e|]; [|done..]. rewrite (assoc_L (++)). by apply Hok.
Qed.

(** ** The tasks together *)

Context (schedule : nat -> nat * nat).
Abbreviation TaskPool := (TaskPool D time).
Implicit Types (pool : TaskPool).
Lemma try_next_visiting fuel started pool errs r pool' :
  dry_run self = false -> visiting started (tasks pool) (cleaning pool) errs ->
  try_next self schedule ns0 fuel pool = Some (r, pool') ->
  cl_repo (cleaning pool') = cl_repo start /\
  match r with
  | None => tasks pool' = [] /\ visiting started [] (cleaning pool') errs
  | Some (Ok result) => visiting started (tasks pool') (cleaning pool') (errs ++ errors result)
  | Some _ => True
  end.
Proof.
  intros Hdry. revert pool. induction fuel as [|fuel IH]; intros [ts c n] Hv; cbn [try_next tasks cleaning steps] in *.
  - destruct ts; [|done]. intros [= <- <-]. split; [by apply (vi_repo _ _ _ _ Hv)|done].
  - destruct ts as [|first others]; [intros [= <- <-]; split; [by apply (vi_repo _ _ _ _ Hv)|done]|].
    destruct (schedule n) as [turn choice]. set (i := turn mod S (length others)).
    assert (i < length (first :: others)) as Hi by (apply Nat.mod_upper_bound; done).
    apply (visiting_perm _ _ _ _ _ (nth_rest _ _ first Hi)) in Hv.
    destruct (step_future self ns0 choice _ c) as [[f'|r0] c'] eqn:E;
      apply (step_future_visiting _ _ _ _ _ _ _ _ Hdry Hv) in E as [Hrepo Hv'].
    + by apply IH.
    + intros [= <- <-]. cbn [cleaning tasks]. split; [done|]. by destruct r0.
Qed.
Lemma drain_all_visiting fuel started result pool r pool' :
  dry_run self = false -> visiting started (tasks pool) (cleaning pool) (errors result) ->
  drain_all self schedule ns0 fuel result pool = Some (r, pool') ->
  cl_repo (cleaning pool') = cl_repo start /\
  forall result', r = Ok result' -> visiting started [] (cleaning pool') (errors result').
Proof.
  intros Hdry. revert result pool. induction fuel as [|fuel IH]; intros result pool Hv; cbn [drain_all]; [done|].
  destruct (try_next self schedule ns0 fuel pool) as [[r0 pool0]|] eqn:E; [|done].
  apply (try_next_visiting _ _ _ _ _ _ Hdry Hv) in E as [Hrepo Hv0]. destruct r0 as [[found|e|]|].
  - apply IH. exact Hv0.
  - by intros [= <- <-].
  - by intros [= <- <-].
  - intros [= <- <-]. split; [done|]. intros result' [= <-]. by destruct Hv0.
Qed.
Definition oks (streams : list (res SpfsError (option rstr * TagSpec))) : list (option rstr * TagSpec) :=
  omap res_ok streams.
Lemma walk_streams_visiting fuel streams started pool r pool' :
  dry_run self = false -> visiting started (tasks pool) (cleaning pool) [] ->
  length (tasks pool) + length streams <= S (tag_stream_concurrency self) ->
  walk_streams self schedule ns0 fuel streams pool = Some (r, pool') ->
  cl_repo (cleaning pool') = cl_repo start /\
  forall result, r = Ok result -> visiting (started ++ oks streams) [] (cleaning pool') (errors result).
Proof.
  intros Hdry. revert started pool. induction streams as [|[[ns spec]|e|] streams IH]; intros started pool Hv Hn; cbn [walk_streams].
  - unfold oks. cbn [omap list_omap]. rewrite app_nil_r. by apply drain_all_visiting.
  - rewrite (proj2 (Nat.ltb_ge _ _)) by (cbn [length] in Hn; lia). intros Hw.
    replace (started ++ oks (Ok (ns, spec) :: streams)) with ((started ++ [(ns, spec)]) ++ oks streams) by (by rewrite <-(assoc_L (++))).
    eapply IH; [| |exact Hw].
    + cbn [tasks cleaning]. apply (visiting_perm _ (Prunes ns spec :: tasks pool)); [by rewrite (comm (++) (tasks pool))|].
      destruct Hv as [Hrepo Htags Hclosed Herrs Htargets]. split; [done|done|done|done|].
      intros ns' spec' d Hs Hnot Ht. rewrite pending_cons.
      destruct (Htargets ns' spec' d) as [|]; [|set_solver|done|by left|by auto].
      apply elem_of_app in Hs as [Hs|[= -> ->]%list_elem_of_singleton]; [done|]. exfalso. apply Hnot. by left.
    + cbn [tasks]. rewrite length_app. cbn [length] in *. lia.
  - intros [= <- <-]. split; [by apply (vi_repo _ _ _ _ Hv)|done].
  - intros [= <- <-]. split; [by apply (vi_repo _ _ _ _ Hv)|done].
Qed.

End visit.

(** ** The removals *)

(** Blobs are stored under the digests of their payloads, as [write_object] does. *)
Definition blobs_named (repo : Repo time) : Prop := forall d obj blob,
  read_object repo d = Ok obj -> to_enum obj = ObjBlob blob -> bl_payload blob = d.
Definition too_new (repo : Repo time) d : Prop :=
  exists stored, objects repo !! d = Some stored /\ geb (so_mtime stored) (must_be_older_than self) = true.
(** After the objects [done] were looked at, from the state [c0]: what was not
    attached is gone, unless it was too new. *)
Record removing c0 (done : list Digest) c : Prop := {
  re_attached d : d ∈ attached c <-> d ∈ attached c0 \/ d ∈ done /\ too_new (cl_repo c0) d;
  re_objects d : objects (cl_repo c) !! d =
    if decide (d ∈ done /\ d ∉ attached c) then None else objects (cl_repo c0) !! d;
  re_payloads d : payloads (cl_repo c) !! d = None \/ payloads (cl_repo c) !! d = payloads (cl_repo c0) !! d;
  re_kept d : d ∈ attached c \/ d ∉ done -> payloads (cl_repo c) !! d = payloads (cl_repo c0) !! d;
}.
Definition intact c0 c : Prop := forall d, d ∈ attached c0 ->
  objects (cl_repo c) !! d = objects (cl_repo c0) !! d /\ payloads (cl_repo c) !! d = payloads (cl_repo c0) !! d.
Lemma removing_intact c0 done c : removing c0 done c -> intact c0 c.
Proof.
  intros [Ha Ho _ Hk] d Hd. assert (d ∈ attached c) as Hin by (apply Ha; by left).
  split; [|apply Hk; by left]. rewrite Ho. by rewrite decide_False by tauto.
Qed.
Lemma removing_start c : removing c [] c.
Proof. split; [set_solver| |by right|done]. intros d. rewrite decide_False; [done|]. by intros [?%elem_of_nil _]. Qed.
Lemma read_object_same repo repo' d : objects repo !! d = objects repo' !! d -> read_object repo d = read_object repo' d.
Proof. unfold read_object. by intros ->. Qed.

Lemma remove_unvisited_object_spec c0 done c d removed r c' :
  dry_run self = false -> blobs_named (cl_repo c0) -> removing c0 done c ->
  remove_unvisited_object self d removed c = (r, c') ->
  intact c0 c' /\ (res_is_ok r = true -> removing c0 (d :: done) c').
Proof.
  intros Hdry Hblobs Hre. pose proof (removing_intact _ _ _ Hre) as Hin. unfold remove_unvisited_object, iter_object.
  destruct (read_object (cl_repo c) d) as [obj|e|] eqn:Er; [|by intros [= <- <-]..].
  assert (objects (cl_repo c) !! d = objects (cl_repo c0) !! d /\ is_Some (objects (cl_repo c0) !! d)) as [Hsame [stored Hstored]].
  { destruct Hre as [_ Ho _ _]. specialize (Ho d). unfold read_object in Er. destruct (decide _); [by rewrite Ho in Er|].
    split; [done|]. rewrite <-Ho. by destruct (objects (cl_repo c) !! d) as [s|]; [exists s|]. }
  assert (forall b, to_enum obj = ObjBlob b -> bl_payload b = d) as Hname.
  { intros b Hb. apply (Hblobs d obj b); [|done]. by rewrite <-(read_object_same _ _ _ Hsame). }
  destruct Hre as [Ha Ho Hp Hk]. case_bool_decide as Hatt.
  { intros [= <- <-]. split; [done|]. intros _. split; [|intros x; rewrite Ho|done|].
    - intros x. rewrite Ha, elem_of_cons. split; [tauto|]. intros [|[[-> |] ?]]; [tauto| |tauto]. by apply Ha in Hatt.
    - destruct (decide (x = d)) as [-> | Hx]; [by rewrite !decide_False by tauto|].
      apply decide_ext. rewrite elem_of_cons. tauto.
    - intros x Hx. apply Hk. rewrite elem_of_cons in Hx. tauto. }
  rewrite Hdry. unfold remove_object_if_older_than. rewrite Hsame, Hstored.
  destruct (fails StatObject d); [by intros [= <- <-]|].
  destruct (geb (so_mtime stored) (must_be_older_than self)) eqn:Hnew.
  { intros [= <- <-]. assert (too_new (cl_repo c0) d) as Htoo by by exists stored.
    assert (removing c0 (d :: done) (mkCleaning (cl_tags c) (cl_repo c) ({[d]} ∪ attached c))) as Hre.
    { split; cbn [attached cl_repo].
      - intros x. rewrite elem_of_union, elem_of_singleton, Ha, elem_of_cons. split; [|tauto]. intros [-> |]; tauto.
      - intros x. rewrite Ho. destruct (decide (x = d)) as [-> | Hx].
        + rewrite <-Ho, Hsame. rewrite decide_False by set_solver. done.
        + apply decide_ext. set_solver.
      - done.
      - intros x Hx. destruct (decide (x = d)) as [-> | Hne]; [|apply Hk; set_solver].
        destruct (decide (d ∈ done)) as [Hd|Hd]; [|by apply Hk; right].
        exfalso. apply Hatt, Ha. by right. }
    split; [by apply (removing_intact _ _ _ Hre)|done]. }
  destruct (fails UnlinkObject d); [by intros [= <- <-]|].
  set (c1 := mkCleaning (cl_tags c) (with_objects (delete d) (cl_repo c)) (attached c)).
  assert (~ too_new (cl_repo c0) d) as Hold by (intros (s & Hs & Hg); congruence).
  assert (forall repo, objects repo = delete d (objects (cl_repo c)) ->
            (forall x, x <> d -> payloads repo !! x = payloads (cl_repo c) !! x) ->
            payloads repo !! d = None \/ payloads repo !! d = payloads (cl_repo c) !! d ->
            removing c0 (d :: done) (mkCleaning (cl_tags c) repo (attached c))) as Hfinal.
  { intros repo Hobj Hpay Hd. split; cbn [attached cl_repo].
    - intros x. rewrite Ha, elem_of_cons. split; [tauto|]. intros [|[[-> |] ?]]; tauto.
    - intros x. rewrite Hobj. destruct (decide (x = d)) as [-> | Hx].
      + rewrite lookup_delete_eq, decide_True; [done|]. split; [by left|done].
      + rewrite lookup_delete_ne, Ho by done. apply decide_ext. set_solver.
    - intros x. destruct (decide (x = d)) as [-> | Hx]; [|rewrite Hpay by done; apply Hp].
      destruct Hd as [-> | ->]; [by left|apply Hp].
    - intros x Hx. assert (x <> d) as Hne by (intros ->; destruct Hx as [|Hx]; [done|apply Hx; by left]).
      rewrite Hpay by done. apply Hk. set_solver. }
  assert (removing c0 (d :: done) c1) as Hre1 by (by apply Hfinal; [| |right]).
  destruct (to_enum obj) as [p|l|m|b] eqn:Eb; try (intros [= <- <-]; split; [by apply (removing_intact _ _ _ Hre1)|done]).
  rewrite (Hname b eq_refl). unfold remove_payload. cbn [c1 cl_repo payloads with_objects].
  destruct (payloads (cl_repo c) !! d) as [bytes|] eqn:Epay; [|intros [= <- <-]; split; [by apply (removing_intact _ _ _ Hre1)|done]].
  destruct (fails UnlinkPayload d); [intros [= <- <-]; split; [by apply (removing_intact _ _ _ Hre1)|done]|].
  intros [= <- <-]. assert (removing c0 (d :: done) (mkCleaning (cl_tags c) (with_payloads (delete d) (cl_repo c1)) (attached c))) as Hre2.
  { apply Hfinal; cbn [objects payloads with_payloads with_objects cl_repo c1]; [done| |left; apply lookup_delete_eq].
    intros x Hx. by rewrite lookup_delete_ne. }
  split; [by apply (removing_intact _ _ _ Hre2)|done].
Qed.
Lemma remove_objects_spec c0 digests done removed c r c' :
  dry_run self = false -> blobs_named (cl_repo c0) -> removing c0 done c ->
  each (remove_unvisited_object self) digests removed c = (r, c') ->
  intact c0 c' /\ (res_is_ok r = true -> removing c0 (reverse digests ++ done) c').
Proof.
  intros Hdry Hblobs. revert done removed c. induction digests as [|d digests IH]; intros done removed c Hre; cbn [each].
  - intros [= <- <-]. split; [by apply (removing_intact _ _ _ Hre)|done].
  - destruct (remove_unvisited_object self d removed c) as [[a|e|] c1] eqn:E;
      apply (remove_unvisited_object_spec _ _ _ _ _ _ _ Hdry Hblobs Hre) in E as [Hin Hok]; [|by intros [= <- <-]..].
    rewrite reverse_cons, <-(assoc_L (++)). by apply IH, Hok.
Qed.


(** The payloads, for the most part those whose objects are gone. *)
Definition payloads_kept c c' : Prop := cl_tags c' = cl_tags c /\ attached c' = attached c /\ objects (cl_repo c') = objects (cl_repo c) /\
  forall d, payloads (cl_repo c') !! d = payloads (cl_repo c) !! d \/ (d ∉ attached c) /\ payloads (cl_repo c') !! d = None.
Lemma remove_payloads_spec digests found c r c' :
  dry_run self = false -> each (remove_unvisited_payload self) digests found c = (r, c') ->
  payloads_kept c c' /\
  (res_is_ok r = true -> forall d, d ∈ digests -> d ∉ attached c -> payloads (cl_repo c') !! d = None).
Proof.
  intros Hdry. revert found c. induction digests as [|d digests IH]; intros found c; cbn [each].
  { intros [= <- <-]. split; [by split_and!; auto|]. by intros _ d ?%elem_of_nil. }
  assert (forall c1, payloads_kept c c1 -> (d ∉ attached c -> payloads (cl_repo c1) !! d = None) ->
    forall found, each (remove_unvisited_payload self) digests found c1 = (r, c') -> payloads_kept c c' /\
      (res_is_ok r = true -> forall x, x ∈ d :: digests -> x ∉ attached c -> payloads (cl_repo c') !! x = None)) as Hrest.
  { intros c1 (Ht & Ha & Ho & Hp) Hd found' Hrec. apply IH in Hrec as [(Ht' & Ha' & Ho' & Hp') Hgone].
    rewrite Ha in Ha', Hp', Hgone. split.
    - split_and!; [congruence..|]. intros x. destruct (Hp' x) as [-> |]; auto.
    - intros Hok x [-> |Hx]%elem_of_cons Hn; [|by apply Hgone]. destruct (Hp' d) as [-> |[]]; auto. }
  unfold remove_unvisited_payload at 1. case_bool_decide as Hatt; [by apply Hrest; [split_and!; auto|]|].
  rewrite Hdry. unfold remove_payload. destruct (payloads (cl_repo c) !! d) as [bytes|] eqn:Epay.
  - destruct (fails UnlinkPayload d).
    + intros [= <- <-]. split; [by split_and!; auto|done].
    + apply Hrest; cbn [cl_tags cl_repo attached objects payloads with_payloads]; [|by rewrite lookup_delete_eq].
      split_and!; [done..|]. cbn [cl_repo payloads with_payloads]. intros x.
      destruct (decide (x = d)) as [-> |]; [right; by rewrite lookup_delete_eq|left; by rewrite lookup_delete_ne].
  - apply Hrest; cbn [cl_tags cl_repo attached]; [split_and!; auto|done].
Qed.

(** Everything together, from the state in which the visit left the digests. *)
Lemma remove_unvisited_spec c r c' :
  dry_run self = false -> blobs_named (cl_repo c) ->
  remove_unvisited_objects_and_payloads self c = (r, c') ->
  intact c c' /\
  (res_is_ok r = true -> (forall l, listing l ≡ₚ l) -> forall d, d ∉ attached c -> ~ too_new (cl_repo c) d ->
     objects (cl_repo c') !! d = None /\ payloads (cl_repo c') !! d = None).
Proof.
  intros Hdry Hblobs. unfold remove_unvisited_objects_and_payloads.
  destruct (each (remove_unvisited_object self) _ ∅ c) as [[removed|e|] c1] eqn:E1;
    apply (remove_objects_spec _ _ _ _ _ _ _ Hdry Hblobs (removing_start c)) in E1 as [Hin Hok]; [|by intros [= <- <-]..].
  specialize (Hok eq_refl). rewrite app_nil_r in Hok. destruct Hok as [Ha Ho Hp Hk].
  destruct (each (remove_unvisited_payload self) _ _ c1) as [r2 c2] eqn:E2.
  apply (remove_payloads_spec _ _ _ _ _ Hdry) in E2 as [(_ & _ & Hobj & Hpay) Hgone].
  assert (intact c c2) as Hin2.
  { intros d Hd. destruct (Hin d Hd) as [<- <-]. rewrite Hobj. split; [done|]. destruct (Hpay d) as [|[Hn _]]; [done|].
    destruct Hn. apply Ha. by left. }
  destruct r2 as [[removed2 visited]|e|]; intros [= <- <-]; (split; [done|]); [|done..].
  intros _ Hlist d Hd Hold. assert (d ∉ attached c1) as Hn1 by (rewrite Ha; tauto). split.
  - rewrite Hobj, Ho. destruct (decide _) as [|Hno]; [done|].
    destruct (objects (cl_repo c) !! d) as [stored|] eqn:Es; [|done]. exfalso. apply Hno. split; [|done].
    apply elem_of_reverse. unfold find_digests. rewrite list_elem_of_In, List.filter_In. split; [|done].
    apply list_elem_of_In. rewrite Hlist. apply list_elem_of_fmap. exists (d, stored). split; [done|]. by apply elem_of_map_to_list.
  - destruct (payloads (cl_repo c1) !! d) as [bytes|] eqn:Ep.
    + apply Hgone; [done| |done]. unfold iter_payload_digests. rewrite Hlist. apply list_elem_of_fmap. exists (d, bytes).
      split; [done|]. by apply elem_of_map_to_list.
    + destruct (Hpay d) as [|[]]; congruence.
Qed.
End clean.

(** ** The whole of it *)

Section cleaned.
Context {D time : Type} `{!FileSystem time, !TagDatabase D time} (self : Cleaner time).
Abbreviation Cleaning := (Cleaning D time).
Abbreviation Future := (Future time).
Implicit Types (c : Cleaning) (d : Digest).

(** What every step of a task preserves, the visit preserves. *)
Section preserved.
Context (schedule : nat -> nat * nat) (ns0 : option rstr) (P : list Future -> Cleaning -> Prop).
Hypothesis P_perm : forall ts ts' c, ts ≡ₚ ts' -> P ts c -> P ts' c.
Hypothesis P_step : forall f ts c choice r c', P (f :: ts) c -> step_future self ns0 choice f c = (r, c') ->
  match r with inl f' => P (f' :: ts) c' | inr _ => P ts c' end.
Hypothesis P_prunes : forall ns spec ts c, P ts c -> P (Prunes ns spec :: ts) c.

Lemma try_next_preserves fuel pool r pool' :
  P (tasks pool) (cleaning pool) -> try_next self schedule ns0 fuel pool = Some (r, pool') -> P (tasks pool') (cleaning pool').
Proof.
  revert pool. induction fuel as [|fuel IH]; intros [ts c n] Hv; cbn [try_next tasks cleaning steps] in *.
  - destruct ts; [|done]. by intros [= <- <-].
  - destruct ts as [|first others]; [by intros [= <- <-]|]. destruct (schedule n) as [turn choice].
    set (i := turn mod S (length others)).
    assert (i < length (first :: others)) as Hi by (apply Nat.mod_upper_bound; done).
    apply (P_perm _ _ _ (nth_rest _ _ first Hi)) in Hv.
    destruct (step_future self ns0 choice _ c) as [[f'|r0] c'] eqn:E; apply (P_step _ _ _ _ _ _ Hv) in E as Hv'; [by apply IH|].
    by intros [= <- <-].
Qed.
Lemma drain_to_preserves limit fuel pool r pool' :
  P (tasks pool) (cleaning pool) -> drain_to self schedule ns0 limit fuel pool = Some (r, pool') -> P (tasks pool') (cleaning pool').
Proof.
  revert pool. induction fuel as [|fuel IH]; intros pool Hv; cbn [drain_to]; (destruct (length (tasks pool) <=? limit); [by intros [= <- <-]|]); [done|].
  destruct (try_next self schedule ns0 fuel pool) as [[[[found|e|]|] pool0]|] eqn:E; [..|done];
    apply (try_next_preserves _ _ _ _ Hv) in E; [by apply IH|by intros [= <- <-]..|by apply IH].
Qed.
Lemma drain_all_preserves fuel result pool r pool' :
  P (tasks pool) (cleaning pool) -> drain_all self schedule ns0 fuel result pool = Some (r, pool') -> P (tasks pool') (cleaning pool').
Proof.
  revert result pool. induction fuel as [|fuel IH]; intros result pool Hv; cbn [drain_all]; [done|].
  destruct (try_next self schedule ns0 fuel pool) as [[[[found|e|]|] pool0]|] eqn:E; [..|done];
    apply (try_next_preserves _ _ _ _ Hv) in E; [by apply IH|by intros [= <- <-]..].
Qed.
Lemma walk_streams_preserves fuel streams pool r pool' :
  P (tasks pool) (cleaning pool) -> walk_streams self schedule ns0 fuel streams pool = Some (r, pool') ->
  P (tasks pool') (cleaning pool').
Proof.
  revert pool. induction streams as [|[[ns spec]|e|] streams IH]; intros pool Hv; cbn [walk_streams];
    [by apply drain_all_preserves| |by intros [= <- <-]..].
  assert (forall pool1, P (tasks pool1) (cleaning pool1) ->
    walk_streams self schedule ns0 fuel streams (mkTaskPool (tasks pool1 ++ [Prunes ns spec]) (cleaning pool1) (steps pool1)) = Some (r, pool') ->
    P (tasks pool') (cleaning pool')) as Hrest.
  { intros pool1 H1. apply IH. cbn [tasks cleaning]. apply (P_perm (Prunes ns spec :: tasks pool1)); [by rewrite (comm (++) (tasks pool1))|].
    by apply P_prunes. }
  destruct (_ <? _); [|by apply Hrest]. destruct (drain_to _ _ _ _ _ pool) as [[[u|e|] pool1]|] eqn:E; [..|done];
    apply (drain_to_preserves _ _ _ _ _ Hv) in E; [by apply Hrest|by intros [= <- <-]..].
Qed.
End preserved.
Lemma each_preserves {A} (P : Cleaning -> Prop) (remove : Digest -> A -> Cleaning -> res SpfsError A * Cleaning) digests a c r c' :
  (forall d a c r c', P c -> remove d a c = (r, c') -> P c') -> P c -> each remove digests a c = (r, c') -> P c'.
Proof.
  intros Hremove. revert a c. induction digests as [|d digests IH]; intros a c Hc; cbn [each]; [by intros [= _ <-]|].
  destruct (remove d a c) as [[a'|e|] c1] eqn:E; apply (Hremove _ _ _ _ _ Hc) in E; [by apply IH|by intros [= _ <-]..].
Qed.
Lemma remove_unvisited_preserves c r c' :
  remove_unvisited_objects_and_payloads self c = (r, c') ->
  cl_tags c' = cl_tags c /\ (dry_run self = true -> cl_repo c' = cl_repo c).
Proof.
  set (P c' := cl_tags c' = cl_tags c /\ (dry_run self = true -> cl_repo c' = cl_repo c)).
  assert (forall d a c1 r c2, P c1 -> remove_unvisited_object self d a c1 = (r, c2) -> P c2) as Hobj.
  { intros d a c1 r0 c2 Hc. unfold remove_unvisited_object. destruct (iter_object _ d) as [[x obj]|e|]; [|by intros [= _ <-]..].
    case_bool_decide; [by intros [= _ <-]|]. unfold P in *. destruct (dry_run self).
    - destruct (to_enum obj); intros [= _ <-]; done.
    - destruct (remove_object_if_older_than _ d _) as [[[]|[]|] repo]; destruct (to_enum obj) as [| | |b];
        try (destruct (remove_payload (bl_payload b) _) as [[u|[]|] repo1]); intros [= _ <-]; (split; [apply Hc|done]). }
  assert (forall d a c1 r c2, P c1 -> remove_unvisited_payload self d a c1 = (r, c2) -> P c2) as Hpay.
  { intros d a c1 r0 c2 Hc. unfold remove_unvisited_payload. case_bool_decide; [by intros [= _ <-]|]. unfold P in *.
    destruct (dry_run self); [by intros [= _ <-]|].
    destruct (remove_payload d _) as [[u|[]|] repo1]; intros [= _ <-]; (split; [apply Hc|done]). }
  unfold remove_unvisited_objects_and_payloads. intros H.
  destruct (each (remove_unvisited_object self) _ ∅ c) as [[removed|e|] c1] eqn:E1;
    apply (each_preserves P _ _ _ _ _ _ Hobj) in E1; [|done|by injection H as _ <-|done|by injection H as _ <-|done].
  destruct (each (remove_unvisited_payload self) _ _ c1) as [[[]|e|] c2] eqn:E2; apply (each_preserves P _ _ _ _ _ _ Hpay E1) in E2;
    by injection H as _ <-.
Qed.

(** The visit only succeeds when the listing of the streams does. *)
Lemma walk_streams_ok schedule ns0 fuel streams pool result pool' :
  walk_streams self schedule ns0 fuel streams pool = Some (Ok result, pool') -> forall x, x ∈ streams -> res_is_ok x = true.
Proof.
  revert pool. induction streams as [|[[ns spec]|e|] streams IH]; intros pool; cbn [walk_streams]; [by intros _ x ?%elem_of_nil| |done..].
  intros H. assert (exists pool1, walk_streams self schedule ns0 fuel streams pool1 = Some (Ok result, pool')) as [pool1 H1].
  { destruct (_ <? _); [destruct (drain_to _ _ _ _ _ pool) as [[[u|e|] pool1]|]; [|done..]|]; by eexists. }
  intros x [-> |Hx]%elem_of_cons; [done|by apply (IH _ H1)].
Qed.

(** *** A dry run *)

Lemma remove_tags_dry ns to_prune (tags : D) : dry_run self = true -> remove_tags self ns to_prune tags = (Ok tt, tags).
Proof. intros Hdry. induction to_prune as [|t to_prune IH]; cbn [remove_tags]; [done|]. by rewrite Hdry. Qed.
Lemma step_future_dry ns0 f choice c r c' :
  dry_run self = true -> step_future self ns0 choice f c = (r, c') -> cl_tags c' = cl_tags c /\ cl_repo c' = cl_repo c.
Proof.
  intros Hdry. destruct f as [ns spec|[|first others] result]; cbn [step_future]; [|by intros [= _ <-]|].
  - unfold prune_tag_stream. destruct (read_tag_in_namespace (cl_tags c) ns spec) as [stream|e|]; cbn [mbind res_bind]; [|by intros [= _ <-]..].
    destruct (try_map id stream) as [history|e|]; [|by intros [= _ <-]..].
    destruct (sort_history _ _ history _ _ _ _) as [to_prune to_keep]. rewrite remove_tags_dry by done. by intros [= _ <-].
  - set (i := nth _ _ _). unfold visit_attached_object. case_bool_decide; [by intros [= _ <-]|].
    destruct (read_object (cl_repo _) i) as [obj|[]|]; by intros [= _ <-].
Qed.
End cleaned.

Lemma dry_run_unchanged {D time : Type} `{!FileSystem time, !TagDatabase D time} (self : Cleaner time) schedule fuel c outcome c' :
  dry_run self = true -> prune_all_tags_and_clean self schedule fuel c = Some (outcome, c') ->
  cl_tags c' = cl_tags c /\ cl_repo c' = cl_repo c.
Proof.
  intros Hdry. unfold prune_all_tags_and_clean. destruct (walk_streams _ _ _ _ _ _) as [[r pool]|] eqn:E; [|done].
  apply (walk_streams_preserves self schedule _ (fun _ c' => cl_tags c' = cl_tags c /\ cl_repo c' = cl_repo c)) in E; [|done| |done..].
  2:{ intros f ts c1 choice r0 c2 [H1 H2] Hs. apply (step_future_dry _ _ _ _ _ _ _ Hdry) in Hs as [H3 H4].
      destruct r0; split; congruence. }
  destruct E as [Ht Hr]. destruct r as [result|e|]; [|by intros [= _ <-]..]. destruct (clean_is_ok result); [|by intros [= _ <-]].
  cbn [negb]. destruct (remove_unvisited_objects_and_payloads self (cleaning pool)) as [r c2] eqn:E.
  apply (remove_unvisited_preserves self) in E as [H1 H2]. specialize (H2 Hdry).
  destruct r as [removed|e|]; intros [= _ <-]; split; congruence.
Qed.

Section main.
Context {D time : Type} `{!FileSystem time, !TagDatabase D time, !TagDatabaseLaws D time} (self : Cleaner time).
Context (schedule : nat -> nat * nat) (tags : D) (repo : Repo time).
Let start : Cleaning D time := mkCleaning tags repo ∅.
Hypothesis tags_start : tags_ok tags.
Hypothesis own_namespace : prune_all_tag_namespaces self = false.

(** What the visit leaves, when it does not fail. *)
Lemma walked_visiting fuel r pool :
  length (all_tag_streams tags) <= S (tag_stream_concurrency self) -> dry_run self = false ->
  walk_streams self schedule (get_tag_namespace tags) fuel (all_tag_streams tags) (mkTaskPool [] start 0) = Some (r, pool) ->
  cl_repo (cleaning pool) = repo /\
  forall result, r = Ok result -> visiting start (oks (all_tag_streams tags)) [] (cleaning pool) (errors result).
Proof.
  intros Hfew Hdry E. eapply (walk_streams_visiting self start own_namespace schedule _ _ []) in E; [done|done| |done].
  split; cbn [tasks cleaning start attached cl_repo]; [done|done|..]; intros *; [by intros ?%not_elem_of_empty..|by intros ?%elem_of_nil].
Qed.
Lemma reachable_attached c errs ns spec d :
  visiting start (oks (all_tag_streams tags)) [] c errs -> Ok (ns, spec) ∈ all_tag_streams tags ->
  reachable repo (targets (cl_tags c) ns spec) d -> d ∈ attached c.
Proof.
  intros [_ _ Hclosed _ Htargets] Hs. induction 1 as [d Hd|parent obj d _ IH Hr Hc].
  - destruct (Htargets ns spec d) as [|[]%elem_of_nil]; [|by apply not_elem_of_nil|done|done].
    unfold oks. apply list_elem_of_omap. by exists (Ok (ns, spec)).
  - by destruct (Hclosed parent obj d IH Hr Hc) as [|[]%elem_of_nil].
Qed.

(** Nothing is attached but what some tag reached in the beginning. *)
Definition rooted d : Prop := exists ns spec, targets tags ns spec d.
Lemma sort_history_within prunes history i seen pr ke to_prune to_keep d :
  sort_history self prunes history i seen pr ke = (to_prune, to_keep) -> d ∈ to_keep ->
  d ∈ ke \/ exists t, t ∈ history /\ tag_target t = d.
Proof.
  revert i seen pr ke. induction history as [|tag history IH]; intros i seen pr ke; cbn [sort_history]; [intros [= _ <-]; by left|].
  assert (forall i seen pr ke', (d ∈ ke' -> d ∈ ke \/ tag_target tag = d) ->
    sort_history self prunes history i seen pr ke' = (to_prune, to_keep) -> d ∈ to_keep ->
    d ∈ ke \/ exists t, t ∈ tag :: history /\ tag_target t = d) as Hstep.
  { intros i' seen' pr' ke' Hke Hs Hd. destruct (IH _ _ _ _ Hs Hd) as [[|]%Hke|(t & Ht & <-)]; [by left|right..].
    - exists tag. split; [by left|done].
    - exists t. split; [by right|done]. }
  match goal with |- context [if ?repeated then _ else _] => destruct repeated end;
    [|match goal with |- context [if ?pruned then _ else _] => destruct pruned end]; apply Hstep; auto.
  rewrite elem_of_app, list_elem_of_singleton. intuition.
Qed.
Lemma prune_tag_stream_within ns0 ns spec (db : D) result to_keep db' d :
  prune_tag_stream self ns0 ns spec db = (Ok (result, to_keep), db') -> d ∈ to_keep -> targets db ns spec d.
Proof.
  unfold prune_tag_stream. destruct (read_tag_in_namespace db ns spec) as [stream|e|] eqn:Er; cbn [mbind res_bind]; [|done..].
  destruct (try_map id stream) as [history|e|] eqn:Em; [|done..].
  destruct (sort_history _ _ history _ _ _ _) as [pr ke] eqn:Es. destruct (remove_tags self ns pr db) as [[[]|e|] db1]; [|done..].
  intros [= _ <- _] Hd. destruct (sort_history_within _ _ _ _ _ _ _ _ _ Es Hd) as [[]%elem_of_nil|(t & Ht & <-)].
  exists stream, t. split_and!; [done| |done]. apply try_map_Ok in Em. apply list_elem_of_lookup in Ht as [i Hi].
  destruct (Forall2_lookup_r _ _ _ _ _ Em Hi) as (x & Hx & Hid). apply list_elem_of_lookup. exists i. by rewrite Hx, <-Hid.
Qed.
Definition within (ts : list (Future time)) (c : Cleaning D time) : Prop :=
  cl_repo c = repo /\ shrinks tags (cl_tags c) /\
  forall d, d ∈ attached c \/ d ∈ pending ts -> reachable repo rooted d.
Lemma visit_within x (c : Cleaning D time) r c' : visit_attached_object x c = (r, c') ->
  cl_repo c' = cl_repo c /\ cl_tags c' = cl_tags c /\ (forall d, d ∈ attached c' -> d = x \/ d ∈ attached c) /\
  forall children found, r = Ok (children, found) -> forall d, d ∈ children ->
    exists obj, read_object (cl_repo c) x = Ok obj /\ d ∈ child_objects obj.
Proof.
  unfold visit_attached_object. case_bool_decide; cbn [cl_repo].
  - intros [= <- <-]. split_and!; [done|done|auto|]. by intros ? ? [= <- _] d ?%elem_of_nil.
  - intros [= Hr <-]. cbn [cl_repo cl_tags attached]. split_and!; [done|done|set_solver|]. intros children found -> d Hd.
    destruct (read_object (cl_repo c) x) as [obj|e|]; [injection Hr as <- _; eauto| |done].
    destruct e; injection Hr as <- _; by apply elem_of_nil in Hd.
Qed.
Lemma step_future_within f ts c choice r c' :
  within (f :: ts) c -> step_future self (get_tag_namespace tags) choice f c = (r, c') ->
  match r with inl f' => within (f' :: ts) c' | inr _ => within ts c' end.
Proof.
  intros (Hrepo & Hs & Hd). assert (forall d, d ∈ pending ts -> reachable repo rooted d) as Hts.
  { intros d Hin. apply Hd. right. rewrite pending_cons. by right. }
  destruct f as [ns spec|[|first others] result]; cbn [step_future].
  - destruct (prune_tag_stream self _ ns spec (cl_tags c)) as [r0 db'] eqn:E. intros [= <- <-].
    destruct (Hs) as [[Hok Hns] Hsub]. rewrite <-Hns in E.
    destruct (prune_tag_stream_keeps _ _ _ _ _ _ Hok own_namespace E) as [Hs' _].
    assert (forall d, d ∈ attached c -> reachable repo rooted d) as Hatt by (intros d Hin; apply Hd; by left).
    destruct r0 as [[result to_keep]|e|]; (split; [done|]; split; [by apply (shrinks_trans _ _ _ Hs)|]); cbn [attached].
    + intros d [Hin|[Hin|Hin]%pending_cons]; [by apply Hatt| |by apply Hts]. apply reach_root. exists ns, spec.
      destruct (prune_tag_stream_within _ _ _ _ _ _ _ _ E Hin) as (l & t & Hl & Ht & Htarget).
      destruct (Hsub _ _ _ Hl) as (l0 & Hl0 & Hl1). exists l0, t. auto.
    + intros d [Hin|Hin]; auto.
    + intros d [Hin|Hin]; auto.
  - intros [= <- <-]. split; [done|]. split; [done|]. intros d [Hin|Hin]; [apply Hd; by left|by apply Hts].
  - set (i := choice mod length (first :: others)). assert (i < length (first :: others)) as Hi by (apply Nat.mod_upper_bound; done).
    pose proof (nth_rest (first :: others) i first Hi) as Hp. set (x := nth i _ first) in *.
    assert (forall d, d = x \/ d ∈ take i (first :: others) ++ drop (S i) (first :: others) -> reachable repo rooted d) as Htodo.
    { intros d Hin. apply Hd. right. rewrite pending_cons. left. rewrite Hp, elem_of_cons. done. }
    destruct (visit_attached_object x c) as [r0 c0] eqn:E. intros [= <- <-].
    destruct (visit_within _ _ _ _ E) as (Hrepo' & Htags' & Hatt & Hchildren). rewrite Hrepo in Hrepo', Hchildren.
    assert (forall d, d ∈ attached c0 -> reachable repo rooted d) as Hc0.
    { intros d [-> |Hin]%Hatt; [apply Htodo; by left|apply Hd; by left]. }
    destruct r0 as [[children found]|e|]; (split; [done|]); (split; [by rewrite Htags'|]); intros d [Hin|Hin]; auto.
    rewrite pending_cons, (assoc_L (++)), elem_of_app in Hin. destruct Hin as [[Hin|Hin]|Hin]; [apply Htodo; by right| |by apply Hts].
    destruct (Hchildren _ _ eq_refl d Hin) as (obj & Hr & Hc). apply (reach_child _ _ x obj); [apply Htodo; by left|done|done].
Qed.
Lemma walked_within fuel r pool :
  walk_streams self schedule (get_tag_namespace tags) fuel (all_tag_streams tags) (mkTaskPool [] start 0) = Some (r, pool) ->
  within (tasks pool) (cleaning pool).
Proof.
  apply (walk_streams_preserves self schedule _ within).
  - intros ts ts' c0 Hp (H1 & H2 & H3). split_and!; [done..|]. intros x. rewrite <-(pending_perm _ _ Hp). apply H3.
  - apply step_future_within.
  - intros ns spec ts c0 (H1 & H2 & H3). split_and!; [done..|]. intros x [Hx|[[]%elem_of_nil|Hx]%pending_cons]; apply H3; auto.
  - cbn [tasks cleaning start]. split_and!; [done|by apply shrinks_refl|]. by intros x [[]%not_elem_of_empty|[]%elem_of_nil].
Qed.
End main.

(** How cleaning ends: without a removal, or with one after a visit that
    reported no errors. *)
Lemma cleaned_inv {D time : Type} `{!FileSystem time, !TagDatabase D time} (self : Cleaner time) schedule fuel (c : Cleaning D time) outcome c' :
  prune_all_tags_and_clean self schedule fuel c = Some (outcome, c') ->
  exists r pool, walk_streams self schedule (get_tag_namespace (cl_tags c)) fuel (all_tag_streams (cl_tags c)) (mkTaskPool [] c 0) = Some (r, pool) /\
    ((c' = cleaning pool /\ forall result, outcome = Ok result -> errors result <> []) \/
     exists result removed, r = Ok result /\ errors result = [] /\
       remove_unvisited_objects_and_payloads self (cleaning pool) = (removed, c') /\ res_is_ok outcome = res_is_ok removed).
Proof.
  unfold prune_all_tags_and_clean. destruct (walk_streams _ _ _ _ _ _) as [[r pool]|] eqn:E; [|done]. intros H. exists r, pool. split; [done|].
  destruct r as [result|e|]; [|by injection H as <- <-; left..]. unfold clean_is_ok in H. case_bool_decide as Herr; cbn [negb] in H.
  - right. exists result. destruct (remove_unvisited_objects_and_payloads self (cleaning pool)) as [[removed|e|] c2];
      injection H as <- <-; by eexists.
  - injection H as <- <-. left. split; [done|]. by intros ? [= <-].
Qed.

Section theorems.
Context {D time : Type} `{!FileSystem time, !TagDatabase D time, !TagDatabaseLaws D time}.
Context (self : Cleaner time) (schedule : nat -> nat * nat) (tags : D) (repo : Repo time) (fuel : nat).

Lemma cleaned_keeps outcome c' ns spec d :
  tags_ok tags -> blobs_named repo -> prune_all_tag_namespaces self = false ->
  length (all_tag_streams tags) <= S (tag_stream_concurrency self) ->
  prune_all_tags_and_clean self schedule fuel (mkCleaning tags repo ∅) = Some (outcome, c') ->
  Ok (ns, spec) ∈ all_tag_streams tags -> reachable repo (targets (cl_tags c') ns spec) d ->
  objects (cl_repo c') !! d = objects repo !! d /\ payloads (cl_repo c') !! d = payloads repo !! d.
Proof.
  intros Htags Hblobs Hown Hfew E Hs Hd. destruct (dry_run self) eqn:Hdry.
  { apply dry_run_unchanged in E as [_ ->]; done. }
  apply cleaned_inv in E as (r & pool & Hw & Hend).
  destruct (walked_visiting self schedule tags repo Htags Hown _ _ _ Hfew Hdry Hw) as [Hrepo Hv].
  destruct Hend as [[-> _]|(result & removed & -> & Herr & Hrem & _)]; [by rewrite Hrepo|].
  destruct (remove_unvisited_preserves _ _ _ _ Hrem) as [Ht _]. rewrite Ht in Hd.
  rewrite <-Hrepo in Hblobs |- *. apply (remove_unvisited_spec _ _ _ _ Hdry Hblobs) in Hrem as [Hin _].
  apply Hin. by apply (reachable_attached tags repo _ _ ns spec _ (Hv result eq_refl) Hs).
Qed.

Lemma cleaned_shrinks outcome c' :
  tags_ok tags -> prune_all_tag_namespaces self = false ->
  prune_all_tags_and_clean self schedule fuel (mkCleaning tags repo ∅) = Some (outcome, c') -> shrinks tags (cl_tags c').
Proof.
  intros Htags Hown E. apply cleaned_inv in E as (r & pool & Hw & Hend).
  assert (shrinks tags (cl_tags (cleaning pool))) as Hs by by apply (walked_within self schedule tags repo Htags Hown) in Hw as (_ & ? & _).
  destruct Hend as [[-> _]|(result & removed & _ & _ & Hrem & _)]; [done|].
  by apply remove_unvisited_preserves in Hrem as [-> _].
Qed.
(** A listing that fails keeps everything. *)
Lemma cleaned_failed_listing outcome c' x :
  tags_ok tags -> prune_all_tag_namespaces self = false ->
  prune_all_tags_and_clean self schedule fuel (mkCleaning tags repo ∅) = Some (outcome, c') ->
  x ∈ all_tag_streams tags -> res_is_ok x = false -> cl_repo c' = repo.
Proof.
  intros Htags Hown E Hx Hno. apply cleaned_inv in E as (r & pool & Hw & Hend).
  pose proof (walked_within self schedule tags repo Htags Hown _ _ _ Hw) as (Hrepo & _ & _).
  destruct Hend as [[-> _]|(result & removed & -> & _)]; [done|]. cbn [cl_tags] in Hw.
  by rewrite (walk_streams_ok _ _ _ _ _ _ _ _ Hw x Hx) in Hno.
Qed.

(** Nothing a tag needs is removed.  However the tasks are interleaved,
    whichever operations fail and however the cleaning ends: what can be reached
    from the tags that are left in a stream keeps its object and its payload, if
    only the repository's own namespace is pruned and there are no more streams
    than the cleaner processes at a time (and one). *)
Theorem clean_keeps_reachable outcome c' ns spec d :
  tags_ok tags -> blobs_named repo -> prune_all_tag_namespaces self = false ->
  length (all_tag_streams tags) <= S (tag_stream_concurrency self) ->
  prune_all_tags_and_clean self schedule fuel (mkCleaning tags repo ∅) = Some (outcome, c') ->
  Ok (ns, spec) ∈ all_tag_streams tags -> reachable repo (targets (cl_tags c') ns spec) d ->
  objects (cl_repo c') !! d = objects repo !! d /\ payloads (cl_repo c') !! d = payloads repo !! d.
Proof. apply cleaned_keeps. Qed.

(** C21: what cannot be read is not passed over. If an object that can be
    reached from a tag that is left cannot be read (but for its not being
    there), then nothing is removed and the outcome is not a success without
    errors. The cleaning is not a dry run and only prunes the namespace of the
    repository, and there are not more streams of tags than run at a time, and
    one: beyond that errors are lost. *)
Theorem clean_stops_on_unreadable outcome c' ns spec d :
  tags_ok tags -> prune_all_tag_namespaces self = false -> dry_run self = false ->
  length (all_tag_streams tags) <= S (tag_stream_concurrency self) ->
  prune_all_tags_and_clean self schedule fuel (mkCleaning tags repo ∅) = Some (outcome, c') ->
  Ok (ns, spec) ∈ all_tag_streams tags -> reachable repo (targets (cl_tags c') ns spec) d -> unreadable repo d ->
  cl_repo c' = repo /\ forall result, outcome = Ok result -> errors result <> [].
Proof.
  intros Htags Hown Hdry Hfew E Hs Hd Hun. apply cleaned_inv in E as (r & pool & Hw & Hend).
  destruct (walked_visiting self schedule tags repo Htags Hown _ _ _ Hfew Hdry Hw) as [Hrepo Hv].
  destruct Hend as [[-> Hok]|(result & removed & -> & Herr & Hrem & _)]; [by rewrite Hrepo|].
  destruct (remove_unvisited_preserves _ _ _ _ Hrem) as [Ht _]. rewrite Ht in Hd.
  pose proof (reachable_attached tags repo _ _ ns spec _ (Hv result eq_refl) Hs Hd) as Hatt.
  by destruct (vi_errors _ _ _ _ _ (Hv result eq_refl) d Hatt Hun).
Qed.

(** C22: what no tag needs is removed.  When cleaning succeeds without errors, an
    object that none of the initial tags reached, and that is older than the
    cutoff, is gone, and so is its payload. *)
Theorem clean_removes_unreachable result c' d :
  tags_ok tags -> blobs_named repo -> prune_all_tag_namespaces self = false -> dry_run self = false ->
  (forall l, listing l ≡ₚ l) ->
  prune_all_tags_and_clean self schedule fuel (mkCleaning tags repo ∅) = Some (Ok result, c') -> errors result = [] ->
  ~ reachable repo (rooted tags) d -> ~ too_new self repo d ->
  objects (cl_repo c') !! d = None /\ payloads (cl_repo c') !! d = None.
Proof.
  intros Htags Hblobs Hown Hdry Hlist E Herr Hd Hold. apply cleaned_inv in E as (r & pool & Hw & [[-> Hok]|Hend]).
  { by destruct (Hok result eq_refl). }
  destruct Hend as (walked & removed & -> & _ & Hrem & Hok).
  apply (walked_within self schedule tags repo Htags Hown) in Hw as (Hrepo & _ & Hin).
  rewrite <-Hrepo in Hold, Hblobs. apply (remove_unvisited_spec _ _ _ _ Hdry Hblobs) in Hrem as [_ Hgone].
  apply Hgone; [by rewrite <-Hok|done| |done]. intros Hatt. apply Hd, Hin. by left.
Qed.
End theorems.

(** A dry run changes nothing: whatever the schedule and the outcome, the
    tags, the objects and the payloads of the repository are as they were. *)
Theorem clean_dry_run {D time : Type} `{!FileSystem time, !TagDatabase D time} (self : Cleaner time) schedule fuel c outcome c' :
  dry_run self = true -> prune_all_tags_and_clean self schedule fuel c = Some (outcome, c') ->
  cl_tags c' = cl_tags c /\ cl_repo c' = cl_repo c.
Proof. apply dry_run_unchanged. Qed.

(** * Cleaning ends

    Every task of a cleaning gets to its end, whatever the objects refer to
    (themselves included) and whichever task is scheduled: a digest is visited
    once.  The fuel of the tasks is enough, and more of it changes nothing. *)

(** Induction on three measures, the first counting most. *)
Lemma lex_ind {A} (f g h : A -> nat) (P : A -> Prop) :
  (forall a, (forall b, f b < f a \/ f b = f a /\ (g b < g a \/ g b = g a /\ h b < h a) -> P b) -> P a) -> forall a, P a.
Proof.
  intros Hstep a. remember (f a) as n eqn:Hn. revert a Hn. induction (lt_wf n) as [n _ IHn]. intros a Hn.
  remember (g a) as m eqn:Hm. revert a Hn Hm. induction (lt_wf m) as [m _ IHm]. intros a Hn Hm.
  remember (h a) as k eqn:Hk. revert a Hn Hm Hk. induction (lt_wf k) as [k _ IHk]. intros a Hn Hm Hk.
  apply Hstep. intros b [Hb|[Hb [Hb'|[Hb' Hb'']]]].
  - by apply (IHn (f b)); [lia|].
  - by apply (IHm (g b)); [lia|lia|].
  - by apply (IHk (h b)); lia.
Qed.

Section ends.
Context {D time : Type} `{!FileSystem time, !TagDatabase D time} (self : Cleaner time).
Context (schedule : nat -> nat * nat) (ns0 : option rstr).
Abbreviation TaskPool := (TaskPool D time).
Implicit Types (c : Cleaning D time) (pool : TaskPool).

(** ** What a step uses up *)

Definition is_prunes (f : Future time) : bool := match f with Prunes _ _ => true | Walks _ _ => false end.
Definition to_prune_count (ts : list (Future time)) : nat := length (List.filter is_prunes ts).
Definition unvisited c : nat := stdpp.base.size (dom (objects (cl_repo c)) ∖ attached c).
Lemma to_prune_perm ts ts' : ts ≡ₚ ts' -> to_prune_count ts = to_prune_count ts'.
Proof.
  intros H. unfold to_prune_count. induction H as [|f ts ts' _ IH|f g ts|ts ts' ts'' _ IH1 _ IH2]; cbn [List.filter];
    [done|destruct (is_prunes f); cbn [length]; lia|destruct (is_prunes f), (is_prunes g); done|congruence].
Qed.
Definition uses_up (ts : list (Future time)) c ts' c' : Prop :=
  to_prune_count ts' < to_prune_count ts \/ to_prune_count ts' = to_prune_count ts /\
    (unvisited c' < unvisited c \/ unvisited c' = unvisited c /\ length (pending ts') < length (pending ts)).
Lemma visit_uses_up d c r c' : visit_attached_object d c = (r, c') ->
  unvisited c' < unvisited c \/ unvisited c' = unvisited c /\ forall children found, r = Ok (children, found) -> children = [].
Proof.
  unfold visit_attached_object. case_bool_decide as Hatt; [intros [= <- <-]; right; split; [done|by intros ? ? [= <- _]]|].
  cbn [cl_repo]. intros [= Hr <-]. unfold unvisited. cbn [cl_repo attached]. unfold read_object in Hr.
  destruct (objects (cl_repo c) !! d) as [stored|] eqn:E.
  - left. apply subset_size. assert (d ∈ dom (objects (cl_repo c))) by (apply elem_of_dom; by exists stored). set_solver.
  - right. apply not_elem_of_dom in E. split; [f_equal; set_solver|]. intros children found ->. by injection Hr as <- _.
Qed.
Lemma step_future_uses_up f ts c choice f' c' :
  step_future self ns0 choice f c = (inl f', c') -> uses_up (f :: ts) c (f' :: ts) c'.
Proof.
  unfold uses_up. destruct f as [ns spec|[|first others] result]; cbn [step_future].
  - destruct (prune_tag_stream _ _ _ _ _) as [[[result to_keep]|e|] tags]; [|done..]. intros [= <- <-]. left. cbn. lia.
  - done.
  - set (i := choice mod length (first :: others)). assert (i < length (first :: others)) as Hi by (apply Nat.mod_upper_bound; done).
    pose proof (Permutation_length (nth_rest (first :: others) i first Hi)) as Hlen.
    destruct (visit_attached_object _ c) as [[[children found]|e|] c0] eqn:E; [|done..]. intros [= <- <-]. right. split; [done|].
    destruct (visit_uses_up _ _ _ _ E) as [Hless|[-> Hnone]]; [by left|right]. split; [done|].
    rewrite (Hnone _ _ eq_refl), app_nil_r. unfold pending. cbn [mbind list_bind]. rewrite !length_app. cbn [length] in *.
    rewrite length_app in Hlen. cbn [drop] in Hlen. lia.
Qed.

(** ** The tasks *)

Lemma try_next_more fuel fuel' pool r : fuel <= fuel' -> try_next self schedule ns0 fuel pool = Some r ->
  try_next self schedule ns0 fuel' pool = Some r.
Proof.
  revert fuel' pool. induction fuel as [|fuel IH]; intros [|fuel'] pool Hle; cbn [try_next]; (destruct (tasks pool); [done|]);
    try done; try lia. destruct (schedule (steps pool)) as [turn choice].
  destruct (step_future _ _ _ _ _) as [[future|r0] c]; [|done]. apply IH. lia.
Qed.
Lemma try_next_ends pool : exists fuel r pool', try_next self schedule ns0 fuel pool = Some (r, pool') /\
  match r with Some _ => length (tasks pool') < length (tasks pool) | None => tasks pool' = [] end.
Proof.
  apply (lex_ind (fun pool => to_prune_count (tasks pool)) (fun pool => unvisited (cleaning pool)) (fun pool => length (pending (tasks pool)))
    (fun pool => exists fuel r pool', try_next self schedule ns0 fuel pool = Some (r, pool') /\
       match r with Some _ => length (tasks pool') < length (tasks pool) | None => tasks pool' = [] end)).
  clear pool. intros [ts c n] IH. destruct ts as [|first others]; [by exists 0; eexists None, _|].
  destruct (schedule n) as [turn choice] eqn:Es. set (i := turn mod S (length others)).
  assert (i < length (first :: others)) as Hi by (apply Nat.mod_upper_bound; done).
  pose proof (nth_rest _ _ first Hi) as Hp. pose proof (Permutation_length Hp) as Hlen. cbn [length] in Hlen.
  destruct (step_future self ns0 choice (nth i (first :: others) first) c) as [[f|r] c'] eqn:E.
  - destruct (IH (mkTaskPool (f :: take i (first :: others) ++ drop (S i) (first :: others)) c' (S n))) as (fuel & r & pool' & H & Hless).
    + cbn [tasks cleaning]. rewrite (to_prune_perm _ _ Hp), (Permutation_length (pending_perm _ _ Hp)).
      by apply (step_future_uses_up _ (take i (first :: others) ++ drop (S i) (first :: others))) in E.
    + exists (S fuel), r, pool'. cbn [try_next tasks steps cleaning]. rewrite Es. fold i. rewrite E. split; [done|].
      destruct r; [|done]. cbn [tasks length] in *. lia.
  - exists 1, (Some r), (mkTaskPool (take i (first :: others) ++ drop (S i) (first :: others)) c' (S n)).
    cbn [try_next tasks steps cleaning length]. rewrite Es. fold i. rewrite E. split; [done|lia].
Qed.
Lemma drain_to_more limit fuel fuel' pool r : fuel <= fuel' -> drain_to self schedule ns0 limit fuel pool = Some r ->
  drain_to self schedule ns0 limit fuel' pool = Some r.
Proof.
  revert fuel' pool. induction fuel as [|fuel IH]; intros [|fuel'] pool Hle; cbn [drain_to]; (destruct (length (tasks pool) <=? limit); [done|]);
    try done; try lia.
  destruct (try_next self schedule ns0 fuel pool) as [[r0 pool0]|] eqn:E; [|done].
  rewrite (try_next_more fuel fuel' pool (r0, pool0)) by (done || lia). destruct r0 as [[found|e|]|]; [|done..|]; apply IH; lia.
Qed.
Lemma drain_all_more fuel fuel' result pool r : fuel <= fuel' -> drain_all self schedule ns0 fuel result pool = Some r ->
  drain_all self schedule ns0 fuel' result pool = Some r.
Proof.
  revert fuel' result pool. induction fuel as [|fuel IH]; intros [|fuel'] result pool Hle; cbn [drain_all]; try done; try lia.
  destruct (try_next self schedule ns0 fuel pool) as [[r0 pool0]|] eqn:E; [|done].
  rewrite (try_next_more fuel fuel' pool (r0, pool0)) by (done || lia). destruct r0 as [[found|e|]|]; [|done..]. apply IH. lia.
Qed.
Lemma drain_to_ends limit pool : exists fuel r, drain_to self schedule ns0 limit fuel pool = Some r.
Proof.
  remember (length (tasks pool)) as n eqn:Hn. revert pool Hn. induction (lt_wf n) as [n _ IH]. intros pool ->.
  destruct (try_next_ends pool) as (fuel & r & pool' & H & Hless).
  destruct (length (tasks pool) <=? limit) eqn:El; [exists 0; cbn [drain_to]; rewrite El; by eexists|].
  destruct r as [[found|e|]|].
  - destruct (IH _ Hless pool' eq_refl) as (fuel' & r & H'). exists (S (fuel `max` fuel')), r. cbn [drain_to].
    rewrite El, (try_next_more fuel (fuel `max` fuel') _ _ ltac:(lia) H). by apply (drain_to_more _ fuel'); [lia|].
  - exists (S fuel). cbn [drain_to]. rewrite El, H. by eexists.
  - exists (S fuel). cbn [drain_to]. rewrite El, H. by eexists.
  - exists (S fuel), (Ok tt, pool'). cbn [drain_to]. rewrite El, H. destruct fuel; cbn [drain_to]; by rewrite Hless.
Qed.
Lemma drain_all_ends result pool : exists fuel r, drain_all self schedule ns0 fuel result pool = Some r.
Proof.
  remember (length (tasks pool)) as n eqn:Hn. revert result pool Hn. induction (lt_wf n) as [n _ IH]. intros result pool ->.
  destruct (try_next_ends pool) as (fuel & r & pool' & H & Hless). destruct r as [[found|e|]|].
  - destruct (IH _ Hless (clean_add result found) pool' eq_refl) as (fuel' & r & H'). exists (S (fuel `max` fuel')), r. cbn [drain_all].
    rewrite (try_next_more fuel (fuel `max` fuel') _ _ ltac:(lia) H). by apply (drain_all_more fuel'); [lia|].
  - exists (S fuel). cbn [drain_all]. rewrite H. by eexists.
  - exists (S fuel). cbn [drain_all]. rewrite H. by eexists.
  - exists (S fuel). cbn [drain_all]. rewrite H. by eexists.
Qed.
Lemma walk_streams_more fuel fuel' streams pool r : fuel <= fuel' -> walk_streams self schedule ns0 fuel streams pool = Some r ->
  walk_streams self schedule ns0 fuel' streams pool = Some r.
Proof.
  intros Hle. revert pool. induction streams as [|[[ns spec]|e|] streams IH]; intros pool; cbn [walk_streams]; [by apply drain_all_more| |done..].
  destruct (_ <? _); [|apply IH].
  destruct (drain_to self schedule ns0 _ fuel pool) as [r0|] eqn:E; [|done].
  rewrite (drain_to_more _ fuel fuel' pool r0) by done. destruct r0 as [[u|e|] pool0]; [apply IH|done..].
Qed.
Lemma walk_streams_ends streams pool : exists fuel r, walk_streams self schedule ns0 fuel streams pool = Some r.
Proof.
  revert pool. induction streams as [|[[ns spec]|e|] streams IH]; intros pool; cbn [walk_streams]; [apply drain_all_ends| |by exists 0; eexists..].
  destruct (_ <? _) eqn:El; [|apply IH]. destruct (drain_to_ends (tag_stream_concurrency self / 2) pool) as (fuel & [[u|e|] pool0] & H);
    [|exists fuel; rewrite H; by eexists..].
  destruct (IH (mkTaskPool (tasks pool0 ++ [Prunes ns spec]) (cleaning pool0) (steps pool0))) as (fuel' & r & H').
  exists (fuel `max` fuel'), r. rewrite (drain_to_more _ fuel (fuel `max` fuel') _ _ ltac:(lia) H). by apply (walk_streams_more fuel'); [lia|].
Qed.
End ends.

(** C23: cleaning ends, whatever the objects, the tags and the schedule are: there
    is a number of steps after which it has returned, and its outcome does not
    depend on how much fuel there was beyond. *)
Theorem clean_ends {D time : Type} `{!FileSystem time, !TagDatabase D time} (self : Cleaner time) schedule (c : Cleaning D time) :
  exists enough outcome c', forall fuel, enough <= fuel ->
    prune_all_tags_and_clean self schedule fuel c = Some (outcome, c').
Proof.
  destruct (walk_streams_ends self schedule (get_tag_namespace (cl_tags c)) (all_tag_streams (cl_tags c)) (mkTaskPool [] c 0))
    as (enough & [r pool] & H).
  assert (forall fuel, enough <= fuel -> prune_all_tags_and_clean self schedule fuel c = prune_all_tags_and_clean self schedule enough c) as Hmore.
  { intros fuel Hle. unfold prune_all_tags_and_clean. by rewrite (walk_streams_more self schedule _ _ fuel _ _ _ Hle H), H. }
  assert (exists outcome c', prune_all_tags_and_clean self schedule enough c = Some (outcome, c')) as (outcome & c' & Hend).
  { unfold prune_all_tags_and_clean. rewrite H. destruct r as [result|e|]; [|by eexists _, _..]. destruct (negb _); [by eexists _, _|].
    destruct (remove_unvisited_objects_and_payloads self _) as [[removed|e|] c']; by eexists _, _. }
  exists enough, outcome, c'. intros fuel Hle. by rewrite Hmore.
Qed.
