(* ===== verification/CleanCases.v ===== *)
(** * Cleaning file-system repositories

    The tag database of a file-system repository ([TagStorage], [TagListing])
    promises what cleaning relies on ([CleanTheory.TagDatabaseLaws]): as long as
    its files are those of sorted streams, and every tag is in the stream that
    bears its name.  Then concrete runs: the witnesses of the theorems of cleaning,
    and what happens where their hypotheses do not hold or where they end. *)

From stdpp Require Import gmap.
From S2P Require Import Prelude Strings Names Collections Encoding TagSpec Tags TagFile TagStorage TagTheory TagListing.
From S2P Require Import Entry Manifest Objects ObjectTheory ObjectStore Clean CleanTheory.

#[local] Set Warnings "-register-all".

Section database.
Context {time : Type} `{!Timestamp time, !TimestampLaws time} `{!Cmp time, !CmpLaws time, !CmpLeibniz time, !EqDecision time}.
Context (rel_components : rstr -> list rstr) (order : list path -> list path).
(** The errors of the tag storage among those of the program. *)
Context (storage_error : StorageError -> SpfsError) (file_error : TagFileError -> SpfsError).
Abbreviation locate ns spec := (TagSpec_to_path rel_components spec (tags_root_in_namespace rel_components ns)).

Implicit Types (l : list (Tag time)) (db : tagdb time) (s : repo) (p : path) (ns : option rstr).

(** The stream is read to its end; one that does not end stops its reader. *)
Definition stream_read (r : res StorageError (list (res TagFileError (Tag time)) * bool)) : res SpfsError (list (res SpfsError (Tag time))) :=
  '(items, ended) ← map_error storage_error r; Ok ((map_error file_error <$> items) ++ if ended : bool then [] else [Panicked]).
#[local] Instance fs_tags : TagDatabase repo time := {
  get_tag_namespace := tag_namespace;
  ls_tag_namespaces s := map_error storage_error <$> TagListing.ls_tag_namespaces rel_components order s;
  iter_tag_streams_in_namespace s ns :=
    (fun r => '(spec, _) ← map_error storage_error r; Ok spec) <$> TagListing.iter_tag_streams_in_namespace (time := time) rel_components order ns s;
  read_tag_in_namespace s ns spec := stream_read (TagStorage.read_tag_in_namespace rel_components ns spec s).1;
  remove_tag_in_namespace s ns tag :=
    let '(r, s) := TagStorage.remove_tag_in_namespace rel_components ns tag s in (map_error storage_error r, s);
}.

(** Every tag of the repository's namespace is in the stream of its name. *)
Definition well_filed (ns : option rstr) (db : tagdb time) : Prop := forall spec l t, db !! locate ns spec = Some l -> t ∈ l ->
  TagSpec_ok (Tag_to_spec t 0) /\ locate ns (Tag_to_spec t 0) = locate ns spec.
Definition fs_tags_ok (s : repo) : Prop := exists db, represents s db /\ well_filed (tag_namespace s) db.

Lemma read_fs s db ns spec : represents s db ->
  Clean.read_tag_in_namespace s ns spec =
  match db !! locate ns spec with
  | Some l => Ok (Ok <$> l)
  | None => Err (storage_error (TagStorage.UnknownReference (TagSpec_to_string spec)))
  end.
Proof.
  intros Hr. cbn [Clean.read_tag_in_namespace fs_tags]. rewrite (read_represents _ ns spec s db Hr). cbn [fst].
  destruct (db !! _) as [l|]; [|done]. cbn. rewrite app_nil_r. f_equal. rewrite <-list_fmap_compose. done.
Qed.
Lemma elem_of_oks {E A} (x : A) (l : list A) : (Ok x : res E A) ∈ Ok <$> l <-> x ∈ l.
Proof. rewrite list_elem_of_fmap. split; [by intros (y & [= <-] & Hy)|eauto]. Qed.
Lemma elem_of_without t x (l : list (Tag time)) : x ∈ without t l <-> x ∈ l /\ x <> t.
Proof.
  unfold without. rewrite list_elem_of_In, List.filter_In, <-list_elem_of_In, negb_true_iff, bool_decide_eq_false. done.
Qed.
Lemma db_put_lookup (p q : path) (l l' : list (Tag time)) (db : tagdb time) : db_put p l db !! q = Some l' -> q = p /\ l' = l \/ q <> p /\ db !! q = Some l'.
Proof.
  unfold db_put. destruct l as [|x k]; rewrite ?lookup_delete_Some, ?lookup_insert_Some; [|naive_solver].
  intros [Hne E]. by right.
Qed.
(** What removing a tag does to such a repository. *)
Lemma remove_fs s db t r s' : represents s db -> well_filed (tag_namespace s) db ->
  Clean.remove_tag_in_namespace s (tag_namespace s) t = (r, s') ->
  tag_namespace s' = tag_namespace s /\
  exists db', represents s' db' /\
    (forall p l', db' !! p = Some l' -> exists l, db !! p = Some l /\ forall x, x ∈ l' -> x ∈ l) /\
    (r = Ok tt -> forall spec l', db' !! locate (tag_namespace s) spec = Some l' -> t ∉ l').
Proof.
  intros Hr Hfiled. cbn [Clean.remove_tag_in_namespace fs_tags].
  destruct (tag_err (spec_err (build_tag_spec (tag_org t) (tag_name t) 0))) as [spec|e|] eqn:Es.
  2,3: unfold TagStorage.remove_tag_in_namespace, mbind, M_bind, lift; rewrite Es; intros [= <- <-]; split; [done|]; exists db; split_and!; [done|eauto|done].
  destruct (db !! locate (tag_namespace s) spec) as [l|] eqn:E.
  - destruct (remove_sim_at rel_components s db (tag_namespace s) t spec l l Hr Es E E) as (s1 & -> & Hr1 & Hns).
    intros [= <- <-]. split; [done|]. eexists. split; [exact Hr1|]. split.
    + intros p l' [[-> ->]|[_ Hp]]%db_put_lookup; [exists l|exists l'; auto]. split; [done|]. by intros x [Hx _]%elem_of_without.
    + intros _ spec' l' [[Hp ->]|[Hp Hl]]%db_put_lookup Hin; [by apply elem_of_without in Hin as [_ []]|].
      destruct (Hfiled _ _ _ Hl Hin) as [Hok Hloc]. apply tag_to_spec_build in Hok. rewrite Es in Hok. injection Hok as ->.
      by rewrite Hloc in Hp.
  - destruct (remove_sim_none rel_components s db t spec Hr Es E) as [e ->]. intros [= <- <-]. split; [done|].
    exists db. split_and!; [done|eauto|done].
Qed.
#[local, program] Instance fs_tags_laws : TagDatabaseLaws repo time := {| tags_ok := fs_tags_ok |}.
Next Obligation.
  intros s t r s' (db & Hr & Hfiled) H. destruct (remove_fs _ _ _ _ _ Hr Hfiled H) as (Hns & db' & Hr' & Hsub & _).
  split; [|done]. exists db'. split; [done|]. intros spec l x Hl Hx. rewrite Hns in *.
  destruct (Hsub _ _ Hl) as (l0 & Hl0 & Hin). by apply (Hfiled _ l0); [|apply Hin].
Qed.
Next Obligation.
  intros s t r s' (db & Hr & Hfiled) H ns spec l Hl. destruct (remove_fs _ _ _ _ _ Hr Hfiled H) as (Hns & db' & Hr' & Hsub & _).
  rewrite (read_fs _ _ _ _ Hr') in Hl. destruct (db' !! _) as [k|] eqn:E; [|done]. injection Hl as <-.
  destruct (Hsub _ _ E) as (k0 & E0 & Hin). exists (Ok <$> k0). rewrite (read_fs _ _ _ _ Hr), E0. split; [done|].
  intros x (y & -> & Hy)%list_elem_of_fmap. apply list_elem_of_fmap. eauto.
Qed.
Next Obligation.
  intros s t s' (db & Hr & Hfiled) H spec l Hl. destruct (remove_fs _ _ _ _ _ Hr Hfiled H) as (_ & db' & Hr' & _ & Hgone).
  cbn [get_tag_namespace fs_tags] in Hl. rewrite (read_fs _ _ _ _ Hr') in Hl. destruct (db' !! _) as [k|] eqn:E; [|done].
  injection Hl as <-. rewrite elem_of_oks. by apply (Hgone eq_refl spec).
Qed.

(** ** What the tags that are left need *)

Lemma reachable_mono `{!FileSystem time} (objs : Repo time) (roots roots' : Digest -> Prop) d :
  (forall x, roots x -> roots' x) -> reachable objs roots d -> reachable objs roots' d.
Proof. intros H. induction 1 as [d Hd|parent obj d _ IH Hr Hc]; [apply reach_root; auto|by apply (reach_child _ _ parent obj)]. Qed.
Lemma resolve_loop_in spec i (items : list (res TagFileError (Tag time))) ended tag :
  resolve_loop spec i items ended = Ok tag -> Ok tag ∈ items.
Proof.
  revert i. induction items as [|[x|e|] items IH]; intros i; cbn [resolve_loop]; [by destruct ended| |done..].
  destruct (_ =? _)%N; [intros [= ->]; by left|]. intros H. right. by apply (IH _ H).
Qed.
(** The namespaces that the cleaner finds: their directories are at the top. *)
Definition found_namespace ns (s : repo) : Prop :=
  match ns with None => True | Some n => plain_namespace rel_components n /\ tags_root_in_namespace rel_components ns ∈ dirs s end.
Hypothesis order_perm : forall ps : list path, order ps ≡ₚ ps.
Hypothesis components_nil : rel_components [] = [].
Lemma in_stream_list ns spec s file : [] ∈ dirs s -> found_namespace ns s -> tidy rel_components spec ->
  files s !! locate ns spec = Some file ->
  Ok (ns, TagSpec_with_version spec 0) ∈ all_tag_streams s \/ exists x, x ∈ all_tag_streams s /\ res_is_ok x = false.
Proof.
  intros Hroot Hns Htidy Hfile.
  assert (Ok (ns, TagSpec_with_version spec 0) ∈ streams_in s ns \/ exists x, x ∈ streams_in s ns /\ res_is_ok x = false) as Hin.
  { assert (streams_in s ns = (fun r => '(sp, _) ← map_error storage_error r; Ok (ns, sp)) <$>
      TagListing.iter_tag_streams_in_namespace (time := time) rel_components order ns s) as ->.
    { unfold streams_in. cbn [iter_tag_streams_in_namespace fs_tags]. rewrite <-(list_fmap_compose (B := res SpfsError TagSpec)).
      apply list_fmap_ext. by intros i [[sp st]|e|]. }
    destruct (stream_listed rel_components order order_perm ns spec s file Htidy Hfile) as [Hok|(r & Hr & Hno)].
    - left. apply list_elem_of_fmap. eexists. split; [|exact Hok]. done.
    - right. eexists. split; [apply list_elem_of_fmap; exists r; split; [done|exact Hr]|by destruct r as [[]| |]]. }
  assert (forall x, x ∈ streams_in s ns -> x ∈ all_tag_streams s) as Hall.
  { intros x Hx. unfold all_tag_streams. apply elem_of_app. destruct ns as [n|]; [left|by right]. destruct Hns as [Hplain Hdir].
    apply list_elem_of_bind. exists (Ok n). split; [done|]. cbn [ls_tag_namespaces fs_tags]. apply list_elem_of_fmap. exists (Ok n). split; [done|].
    by apply namespace_listed. }
  destruct Hin as [Hok|(x & Hx & Hno)]; [left|right; exists x]; auto.
Qed.

(** C8: what a tag resolves to after a cleaning is all there. However the
    cleaning of a file-system repository went: whatever can be reached from the
    target of a tag that can still be resolved has the object and the payload it
    had before.

    The tag files are those of sorted streams of their tags; the tag is written
    in normal form, and is in the top level or in a namespace there; blobs are
    named by their payloads; only the namespace of the repository is pruned; and
    there are not more streams of tags than run at a time, and one: beyond that
    errors are lost ([clean_loses_errors]). *)
Theorem fs_clean_keeps_tagged `{!FileSystem time} (self : Cleaner time) schedule fuel s (objs : Repo time) outcome c' ns spec tag s' d :
  fs_tags_ok s -> [] ∈ dirs s -> found_namespace ns s -> tidy rel_components spec ->
  blobs_named objs -> prune_all_tag_namespaces self = false ->
  length (all_tag_streams s) <= S (tag_stream_concurrency self) ->
  prune_all_tags_and_clean self schedule fuel (mkCleaning s objs ∅) = Some (outcome, c') ->
  resolve_tag_in_namespace rel_components ns spec (cl_tags c') = (Ok tag, s') ->
  reachable objs (fun x => x = tag_target tag) d ->
  objects (cl_repo c') !! d = objects objs !! d /\ payloads (cl_repo c') !! d = payloads objs !! d.
Proof.
  intros Hok Hroot Hns Htidy Hblobs Hown Hfew Hclean Hresolve Hd. change (tags_ok s) in Hok.
  assert (exists items, Clean.read_tag_in_namespace (cl_tags c') ns (TagSpec_with_version spec 0) = Ok items /\ Ok tag ∈ items) as (l & Hl & Htag).
  { unfold resolve_tag_in_namespace, mbind, M_bind, lift in Hresolve. cbn [Clean.read_tag_in_namespace fs_tags].
    unfold TagStorage.read_tag_in_namespace in *. change (locate ns (TagSpec_with_version spec 0)) with (locate ns spec).
    destruct (files (cl_tags c') !! locate ns spec) as [file|]; [|done]. injection Hresolve as Hresolve _.
    cbn [fst]. unfold stream_read. destruct (read_tag_file file) as [items ended]. cbn [map_error mbind res_bind]. eexists. split; [done|].
    apply elem_of_app. left. apply list_elem_of_fmap. exists (Ok tag). split; [done|]. by apply resolve_loop_in in Hresolve. }
  destruct (cleaned_shrinks self schedule s objs fuel outcome c' Hok Hown Hclean) as [_ Hs].
  destruct (Hs _ _ _ Hl) as (l0 & Hl0 & _).
  assert (exists file, files s !! locate ns spec = Some file) as [file Hfile].
  { cbn [Clean.read_tag_in_namespace fs_tags] in Hl0. unfold TagStorage.read_tag_in_namespace in Hl0.
    change (locate ns (TagSpec_with_version spec 0)) with (locate ns spec) in Hl0. destruct (files s !! locate ns spec); [by eexists|done]. }
  destruct (in_stream_list ns spec s file Hroot Hns Htidy Hfile) as [Hin|(x & Hx & Hno)].
  - apply (cleaned_keeps self schedule s objs fuel outcome c' ns (TagSpec_with_version spec 0) d Hok Hblobs Hown Hfew Hclean Hin).
    apply (reachable_mono objs (fun x => x = tag_target tag)); [|done]. intros x ->. by exists l, tag.
  - by rewrite (cleaned_failed_listing self schedule s objs fuel outcome c' x Hok Hown Hclean Hx Hno).
Qed.
End database.

(** * Cleanings of small repositories *)

(** ** A file system *)

Definition dg (n : N) : Digest := mkDigest (repeat n DIGEST_SIZE).
(** Some objects cannot be opened. *)
Definition demo_fs_in (in_order : list Digest -> list Digest) (cannot_open : list Digest) : FileSystem seconds := {|
  fails := fun call digest => match call with OpenObject => bool_decide (digest ∈ cannot_open) | _ => false end;
  listing := in_order;
  base32 := fun _ => [];
  sha256 := fun bytes => dg (N.of_nat (length bytes));
  buffered := slice_reader;
  storage_config := None;
  object_layout := number_layout;
  later := cmp_seconds;
|}.
Definition demo_fs : list Digest -> FileSystem seconds := demo_fs_in (fun l => l).
Definition stored_at (t : N) (contents : Enum) : Stored seconds :=
  mkStored (Ok (new_with_default_header None contents)) (mkSeconds t).
Definition layer_of (d : Digest) : Enum := ObjLayer (mkLayer (Some d) []).
Definition manifest_of (d : Digest) : Enum := ObjManifest (mkGManifest [mkGEntry (lit "f") (KBlob 3) 33188 3 d] []).
Definition blob_of (d : Digest) : Enum := ObjBlob (mkBlob d 3).
(** Layer 2 has manifest 3, which has blob 4; the blobs 1 and 9 are apart. *)
Definition demo_objects : Repo seconds :=
  mkRepo {[ dg 2 := stored_at 5 (layer_of (dg 3)); dg 3 := stored_at 5 (manifest_of (dg 4)); dg 4 := stored_at 5 (blob_of (dg 4));
            dg 1 := stored_at 5 (blob_of (dg 1)); dg 9 := stored_at 5 (blob_of (dg 9)) ]}
         {[ dg 4 := [7%N]; dg 1 := [8%N]; dg 9 := [9%N] ]}.
Lemma demo_blobs_named bad : blobs_named (FileSystem0 := demo_fs bad) demo_objects.
Proof.
  intros d obj blob Hr Hb. unfold read_object in Hr. destruct (objects demo_objects !! d) as [stored|] eqn:E; [|done].
  cbn [attempt mbind res_bind] in Hr. unfold attempt in Hr. destruct (fails OpenObject d); [done|]. cbn [mbind res_bind] in Hr.
  unfold demo_objects in E. cbn [objects] in E.
  repeat (apply lookup_insert_Some in E as [[<- <-]|[_ E]]; [injection Hr as <-; cbn in Hb; try done; by injection Hb as <-|]).
  apply lookup_singleton_Some in E as [<- <-]. injection Hr as <-. cbn in Hb. by injection Hb as <-.
Qed.

(** ** Cleaning with a tag of two versions *)

(** Version 1 and later ones are pruned; objects older than the instant 100 may
    be removed. *)
Definition demo_cleaner : Cleaner seconds :=
  mkCleaner 500 500 50 false (mkSeconds 100) false None (mkPruneParameters None None (Some 0%N) None).
Definition demo_tags : repo := TagStorage.mkRepo (file_of <$> one_db) {[ []; [lit "spi"] ]} None.
Definition text_error {E} (_ : E) : SpfsError := StringError (lit "tags").
#[local] Instance demo_tag_database : TagDatabase repo seconds := fs_tags words id text_error text_error.
#[local] Instance demo_tag_laws : TagDatabaseLaws repo seconds := fs_tags_laws words id text_error text_error.
Definition clean_demo (bad : list Digest) : option (res SpfsError (CleanResult seconds) * Cleaning repo seconds) :=
  prune_all_tags_and_clean (FileSystem0 := demo_fs bad) demo_cleaner (fun n => (n, n)) 50 (mkCleaning demo_tags demo_objects ∅).
Definition demo_outcome bad : res SpfsError (CleanResult seconds) := default Panicked (fst <$> clean_demo bad).
Definition demo_after bad : Cleaning repo seconds := default (mkCleaning demo_tags demo_objects ∅) (snd <$> clean_demo bad).
Lemma demo_run bad : is_Some (clean_demo bad) -> clean_demo bad = Some (demo_outcome bad, demo_after bad).
Proof. unfold demo_outcome, demo_after. destruct (clean_demo bad) as [[r c]|]; [done|by intros [? ?]]. Qed.
Definition short (d : Digest) : N := hd 0%N (digest_bytes d).
Example clean_demo_removes :
  short <$> elements (dom (objects (cl_repo (demo_after [])))) = [2; 4; 3]%N /\
  short <$> elements (dom (payloads (cl_repo (demo_after [])))) = [4%N] /\
  (resolve_tag words main_spec (cl_tags (demo_after []))).1 = Ok (tag_at 2) /\
  res_is_ok (resolve_tag words (time := seconds) (TagSpec_with_version main_spec 1) (cl_tags (demo_after []))).1 = false.
Proof. vm_compute. repeat split. Qed.

(** *** The hypotheses of the theorems, here *)

Lemma demo_tags_represents : represents demo_tags one_db.
Proof.
  split; [done|]. intros p l Hl. unfold one_db in Hl. apply lookup_singleton_Some in Hl as [<- <-].
  split_and!; [by apply pair_stream_ok|by eexists (lit "main"), _|]. simpl. set_solver.
Qed.
Lemma demo_tags_ok : fs_tags_ok words demo_tags.
Proof.
  exists one_db. split; [apply demo_tags_represents|]. intros spec l t Hl Ht. unfold one_db in Hl.
  apply lookup_singleton_Some in Hl as [Hp <-]. rewrite <-Hp.
  apply elem_of_cons in Ht as [-> |Ht]; [by split; [apply main_spec_ok|]|].
  apply list_elem_of_singleton in Ht as ->. by split; [apply main_spec_ok|].
Qed.
Lemma demo_ends : is_Some (clean_demo []).
Proof. vm_compute. eexists. reflexivity. Qed.
Lemma demo_streams : all_tag_streams (D := repo) (time := seconds) demo_tags = [Ok (None, main_spec)].
Proof. vm_compute. reflexivity. Qed.
Lemma main_spec_tidy : tidy words main_spec.
Proof. by split; [apply main_spec_ok|]. Qed.
Lemma demo_reaches roots : roots (dg 2) -> reachable (FileSystem0 := demo_fs []) demo_objects roots (dg 4).
Proof.
  intros H. apply (reach_child _ _ (dg 3) (new_with_default_header None (manifest_of (dg 4)))); [|vm_compute; reflexivity|by left].
  apply (reach_child _ _ (dg 2) (new_with_default_header None (layer_of (dg 3)))); [by apply reach_root|vm_compute; reflexivity|by left].
Qed.
Lemma clean_keeps_reachable_witness :
  objects (cl_repo (demo_after [])) !! dg 4 = Some (stored_at 5 (blob_of (dg 4))) /\ payloads (cl_repo (demo_after [])) !! dg 4 = Some [7%N].
Proof.
  destruct (clean_keeps_reachable (FileSystem0 := demo_fs []) demo_cleaner (fun n => (n, n)) demo_tags demo_objects 50
    (demo_outcome []) (demo_after []) None main_spec (dg 4)) as [Ho Hp].
  - exact demo_tags_ok.
  - apply demo_blobs_named.
  - reflexivity.
  - apply Nat.leb_le. vm_compute. reflexivity.
  - exact (demo_run [] demo_ends).
  - rewrite demo_streams. by left.
  - apply demo_reaches. exists [Ok (tag_at 2)], (tag_at 2). split_and!; [vm_compute; reflexivity|by left|reflexivity].
  - rewrite Ho, Hp. split; vm_compute; reflexivity.
Defined.
Lemma fs_clean_keeps_tagged_witness :
  objects (cl_repo (demo_after [])) !! dg 4 = Some (stored_at 5 (blob_of (dg 4))) /\ payloads (cl_repo (demo_after [])) !! dg 4 = Some [7%N].
Proof.
  destruct (fs_clean_keeps_tagged words id text_error text_error (fun _ => reflexivity _) eq_refl (FileSystem0 := demo_fs [])
    demo_cleaner (fun n => (n, n)) 50 demo_tags demo_objects (demo_outcome []) (demo_after []) None main_spec (tag_at 2)
    (cl_tags (demo_after [])) (dg 4)) as [Ho Hp].
  - exact demo_tags_ok.
  - vm_compute. reflexivity.
  - exact I.
  - exact main_spec_tidy.
  - apply demo_blobs_named.
  - reflexivity.
  - apply Nat.leb_le. vm_compute. reflexivity.
  - exact (demo_run [] demo_ends).
  - vm_compute. reflexivity.
  - apply demo_reaches. reflexivity.
  - rewrite Ho, Hp. split; vm_compute; reflexivity.
Defined.

(** An object that cannot be read: manifest 3. *)
Lemma demo_ends_unreadable : is_Some (clean_demo [dg 3]).
Proof. vm_compute. eexists. reflexivity. Qed.
Lemma clean_stops_on_unreadable_witness :
  cl_repo (demo_after [dg 3]) = demo_objects /\ forall result, demo_outcome [dg 3] = Ok result -> errors result <> [].
Proof.
  apply (clean_stops_on_unreadable (FileSystem0 := demo_fs [dg 3]) demo_cleaner (fun n => (n, n)) demo_tags demo_objects 50
    (demo_outcome [dg 3]) (demo_after [dg 3]) None main_spec (dg 3)).
  - exact demo_tags_ok.
  - reflexivity.
  - reflexivity.
  - apply Nat.leb_le. vm_compute. reflexivity.
  - exact (demo_run [dg 3] demo_ends_unreadable).
  - rewrite demo_streams. by left.
  - apply (reach_child _ _ (dg 2) (new_with_default_header None (layer_of (dg 3)))); [|vm_compute; reflexivity|by left].
    apply reach_root. exists [Ok (tag_at 2)], (tag_at 2). split_and!; [vm_compute; reflexivity|by left|reflexivity].
  - eexists. split; [vm_compute; reflexivity|done].
Defined.

(** Blob 9, which no tag reaches. *)
Definition demo_family (d : Digest) : Prop := d = dg 1 \/ d = dg 2 \/ d = dg 3 \/ d = dg 4.
Lemma demo_rooted d : rooted (time := seconds) demo_tags d -> demo_family d.
Proof.
  intros (ns & spec & l & t & Hl & Ht & <-). rewrite (read_fs words id text_error text_error demo_tags one_db ns spec demo_tags_represents) in Hl.
  unfold one_db in Hl. destruct (_ !! _) as [k|] eqn:E; [|done]. apply lookup_singleton_Some in E as [_ <-]. injection Hl as <-.
  apply elem_of_cons in Ht as [[= ->]|Ht]; [right; by left|]. apply list_elem_of_singleton in Ht as [= ->]. by left.
Qed.
Lemma demo_unreachable d : reachable (FileSystem0 := demo_fs []) demo_objects (rooted (time := seconds) demo_tags) d -> demo_family d.
Proof.
  induction 1 as [d Hd|parent obj d _ IH Hr Hc]; [by apply demo_rooted|].
  destruct IH as [-> |[-> |[-> | ->]]]; vm_compute in Hr; injection Hr as <-; vm_compute in Hc; try (by inversion Hc);
    apply list_elem_of_singleton in Hc as ->; unfold demo_family; auto.
Qed.
Definition demo_result : CleanResult seconds := default CleanResult_default (res_ok (demo_outcome [])).
Lemma clean_removes_unreachable_witness :
  objects (cl_repo (demo_after [])) !! dg 9 = None /\ payloads (cl_repo (demo_after [])) !! dg 9 = None.
Proof.
  apply (clean_removes_unreachable (FileSystem0 := demo_fs []) demo_cleaner (fun n => (n, n)) demo_tags demo_objects 50 demo_result
    (demo_after []) (dg 9)).
  - exact demo_tags_ok.
  - apply demo_blobs_named.
  - reflexivity.
  - reflexivity.
  - intros l. reflexivity.
  - replace (Ok demo_result) with (demo_outcome []) by (vm_compute; reflexivity). exact (demo_run [] demo_ends).
  - vm_compute. reflexivity.
  - intros H. apply demo_unreachable in H. destruct H as [H|[H|[H|H]]]; vm_compute in H; discriminate H.
  - intros (stored & Hs & Hnew). vm_compute in Hs. injection Hs as <-. vm_compute in Hnew. discriminate Hnew.
Defined.

(** A dry run of the same. *)
Definition dry_demo : option (res SpfsError (CleanResult seconds) * Cleaning repo seconds) :=
  prune_all_tags_and_clean (FileSystem0 := demo_fs []) (with_dry_run true demo_cleaner) (fun n => (n, n)) 50 (mkCleaning demo_tags demo_objects ∅).
Lemma dry_demo_ends : is_Some dry_demo.
Proof. vm_compute. eexists. reflexivity. Qed.
Lemma clean_dry_run_witness : exists outcome c', dry_demo = Some (outcome, c') /\ cl_tags c' = demo_tags /\ cl_repo c' = demo_objects.
Proof.
  destruct dry_demo as [[outcome c']|] eqn:E; [|by destruct dry_demo_ends as [? H]; rewrite E in H]. exists outcome, c'. split; [done|].
  exact (clean_dry_run (FileSystem0 := demo_fs []) (with_dry_run true demo_cleaner) (fun n => (n, n)) 50
    (mkCleaning demo_tags demo_objects ∅) outcome c' eq_refl E).
Defined.

(** ** What the theorems leave out *)

(** Tags as a list of streams. *)
Definition find_stream (tags : list (TagSpec * list (Tag seconds))) (spec : TagSpec) : list (Tag seconds) :=
  concat (List.map snd (List.filter (fun stream => bool_decide (stream.1 = spec)) tags)).
Definition list_tags : TagDatabase (list (TagSpec * list (Tag seconds))) seconds := {|
  get_tag_namespace := fun _ => None;
  ls_tag_namespaces := fun _ => [];
  iter_tag_streams_in_namespace := fun tags ns => match ns with None => List.map (fun stream => Ok stream.1) tags | Some _ => [] end;
  read_tag_in_namespace := fun tags _ spec => Ok (Ok <$> find_stream tags spec);
  remove_tag_in_namespace := fun tags _ tag =>
    (Ok tt, List.map (fun stream => (stream.1, List.filter (fun t => negb (bool_decide (t = tag))) stream.2)) tags);
|}.
Definition clean_list (fs : FileSystem seconds) (concurrency : nat) (names : list rstr) (objs : Repo seconds) :
    option (res SpfsError (CleanResult seconds) * list N * list N) :=
  (fun r => (r.1, short <$> elements (dom (objects (cl_repo r.2))), short <$> elements (dom (payloads (cl_repo r.2))))) <$>
  prune_all_tags_and_clean (TagDatabase0 := list_tags) (FileSystem0 := fs) (with_tag_stream_concurrency concurrency demo_cleaner) (fun n => (n, n)) 50
    (mkCleaning (List.map (fun name => (mkTagSpec None name 0, [tag_at 2])) names) objs ∅).

(** More streams than are processed at a time: what the first tasks report is
    lost, the error about layer 2 included, and its manifest and blob are gone
    before the removal comes to the layer itself. *)
Example clean_loses_errors :
  (fun r => (r.1.2, r.2)) <$> clean_list (demo_fs_in reverse [dg 2]) 1 [lit "a"; lit "b"; lit "c"] demo_objects = Some ([2]%N, [] : list N) /\
  (fun r => (r.1.2, r.2)) <$> clean_list (demo_fs_in reverse [dg 2]) 500 [lit "a"; lit "b"; lit "c"] demo_objects =
    Some ([2; 4; 9; 1; 3]%N, [4; 9; 1]%N).
Proof. vm_compute. split; reflexivity. Qed.

(** A layer that is too new to be removed stays, and its manifest goes. *)
Definition new_layer : Repo seconds :=
  mkRepo (<[dg 5 := stored_at 200 (layer_of (dg 6))]> (<[dg 6 := stored_at 5 (manifest_of (dg 4))]> (objects demo_objects))) (payloads demo_objects).
Example clean_detaches_new_layer :
  (fun r => r.1.2) <$> clean_list (demo_fs []) 500 [lit "a"] new_layer = Some [2; 5; 4; 3]%N.
Proof. vm_compute. reflexivity. Qed.

(** A payload whose blob is not written yet goes, however new it is. *)
Example clean_removes_new_payload :
  snd <$> clean_list (demo_fs []) 500 [lit "a"] (mkRepo (objects demo_objects) (<[dg 7 := [1%N]]> (payloads demo_objects))) = Some [4]%N.
Proof. vm_compute. reflexivity. Qed.

(** Two objects are removed; the result does not name them. *)
Example clean_forgets_objects :
  (fun r => (removed_objects r, visited_objects r)) <$> res_ok (demo_outcome []) = Some (∅, 3%N) /\
  short <$> elements (dom (objects demo_objects)) = [2; 4; 9; 1; 3]%N.
Proof. vm_compute. split; reflexivity. Qed.
