(* ===== verification/Sync.v ===== *)
(** * Syncing repositories

    Models crates/spfs/src/sync.rs: copying the tags, objects and payloads that an
    environment needs from one repository to another, with the results and
    summaries of sync/reporter.rs.

    The futures of a sync run concurrently.  What they share is the set of
    processed digests and the destination; a step is at most one access to either,
    with what follows up to the next one.  A schedule gives for every step the way
    to the future that takes it.  The source does not change meanwhile.

    The semaphores, which hold back manifests and payloads when there are many, are
    left out: the runs with them are among those here.  So are reporters, the
    permissions of payloads, and reading environments from text. *)

From stdpp Require Import gmap.
From S2P Require Import Prelude Strings Collections Encoding TagSpec Tags Entry Manifest Objects ObjectStore.

#[local] Set Warnings "-register-all".

(** ** Policies *)

Inductive SyncPolicy := MissingDataOnly | LatestTags | LatestTagsAndResyncObjects | ResyncEverything.
Definition check_existing_tags (self : SyncPolicy) : bool := match self with MissingDataOnly => true | _ => false end.
Definition check_existing_objects (self : SyncPolicy) : bool :=
  match self with MissingDataOnly | LatestTags => true | _ => false end.
Definition check_existing_payloads (self : SyncPolicy) : bool := match self with ResyncEverything => false | _ => true end.

(** ** Results *)

Inductive SyncPayloadResult := PayloadSkipped | PayloadDuplicate | PayloadSynced (size : N).
Inductive SyncBlobResult := BlobSkipped | BlobDuplicate | BlobSynced (blob : Object) (result : SyncPayloadResult).
Inductive SyncEntryResult := EntrySkipped | EntryDuplicate | EntrySynced (result : SyncBlobResult).
Inductive SyncManifestResult :=
| ManifestSkipped | ManifestDuplicate | ManifestSynced (manifest : Object) (results : list SyncEntryResult).
Inductive SyncObjectResult : Type :=
| ObjectDuplicate
| ObjectIgnorable
| OfPlatform (r : SyncPlatformResult)
| OfLayer (r : SyncLayerResult)
| OfBlob (r : SyncBlobResult)
| OfManifest (r : SyncManifestResult)
| OfAnnotation (r : SyncAnnotationResult)
with SyncPlatformResult : Type :=
| PlatformSkipped | PlatformDuplicate | PlatformSynced (platform : Object) (results : list SyncObjectResult)
with SyncLayerResult : Type :=
| LayerSkipped | LayerDuplicate | LayerSynced (layer : Object) (results : list SyncObjectResult)
with SyncAnnotationResult : Type :=
| AnnotationInternalValue | AnnotationDuplicate | AnnotationSynced (digest : Digest) (result : SyncObjectResult).
Inductive SyncTagResult := TagSkipped | TagDuplicate | TagSynced (tag : TagSpec) (result : SyncObjectResult).
Inductive SyncEnvItemResult := EnvTag (r : SyncTagResult) | EnvObject (r : SyncObjectResult).

Record SyncSummary := mkSyncSummary {
  skipped_tags : N; synced_tags : N; skipped_objects : N; synced_objects : N;
  skipped_payloads : N; synced_payloads : N; synced_payload_bytes : N;
}.
Definition SyncSummary_default : SyncSummary := mkSyncSummary 0 0 0 0 0 0 0.
Definition skipped_one_object : SyncSummary := mkSyncSummary 0 0 1 0 0 0 0.
Definition synced_one_object : SyncSummary := mkSyncSummary 0 0 0 1 0 0 0.
Definition skipped_one_payload : SyncSummary := mkSyncSummary 0 0 0 0 1 0 0.
(** [AddAssign] and [Sum]. *)
Definition summary_add (self rhs : SyncSummary) : SyncSummary :=
  mkSyncSummary (u64_add (skipped_tags self) (skipped_tags rhs)) (u64_add (synced_tags self) (synced_tags rhs))
    (u64_add (skipped_objects self) (skipped_objects rhs)) (u64_add (synced_objects self) (synced_objects rhs))
    (u64_add (skipped_payloads self) (skipped_payloads rhs)) (u64_add (synced_payloads self) (synced_payloads rhs))
    (u64_add (synced_payload_bytes self) (synced_payload_bytes rhs)).
Definition summary_sum (l : list SyncSummary) : SyncSummary := fold_left summary_add l SyncSummary_default.
Definition SyncPayloadResult_summary (self : SyncPayloadResult) : SyncSummary :=
  match self with
  | PayloadSkipped | PayloadDuplicate => skipped_one_payload
  | PayloadSynced size => mkSyncSummary 0 0 0 0 0 1 size
  end.
Definition SyncBlobResult_summary (self : SyncBlobResult) : SyncSummary :=
  match self with
  | BlobSkipped | BlobDuplicate => skipped_one_object
  | BlobSynced _ result => summary_add (SyncPayloadResult_summary result) synced_one_object
  end.
Definition SyncEntryResult_summary (self : SyncEntryResult) : SyncSummary :=
  match self with
  | EntrySkipped | EntryDuplicate => SyncSummary_default
  | EntrySynced result => summary_add (SyncBlobResult_summary result) synced_one_object
  end.
Definition SyncManifestResult_summary (self : SyncManifestResult) : SyncSummary :=
  match self with
  | ManifestSkipped | ManifestDuplicate => skipped_one_object
  | ManifestSynced _ results => summary_add (summary_sum (List.map SyncEntryResult_summary results)) synced_one_object
  end.
Definition SyncAnnotationResult_summary (self : SyncAnnotationResult) : SyncSummary :=
  match self with
  | AnnotationInternalValue | AnnotationDuplicate => SyncSummary_default
  | AnnotationSynced _ _ => synced_one_object
  end.
Fixpoint SyncObjectResult_summary (self : SyncObjectResult) : SyncSummary :=
  match self with
  | ObjectDuplicate => skipped_one_object
  | ObjectIgnorable => SyncSummary_default
  | OfPlatform res => SyncPlatformResult_summary res
  | OfLayer res => SyncLayerResult_summary res
  | OfBlob res => SyncBlobResult_summary res
  | OfManifest res => SyncManifestResult_summary res
  | OfAnnotation res => SyncAnnotationResult_summary res
  end
with SyncPlatformResult_summary (self : SyncPlatformResult) : SyncSummary :=
  match self with
  | PlatformSkipped | PlatformDuplicate => skipped_one_object
  | PlatformSynced _ results => summary_add (summary_sum (List.map SyncObjectResult_summary results)) synced_one_object
  end
with SyncLayerResult_summary (self : SyncLayerResult) : SyncSummary :=
  match self with
  | LayerSkipped | LayerDuplicate => skipped_one_object
  | LayerSynced _ results => summary_add (summary_sum (List.map SyncObjectResult_summary results)) synced_one_object
  end.
Definition SyncTagResult_summary (self : SyncTagResult) : SyncSummary :=
  match self with
  | TagSkipped | TagDuplicate => mkSyncSummary 1 0 0 0 0 0 0
  | TagSynced _ result => summary_add (SyncObjectResult_summary result) (mkSyncSummary 0 1 0 0 0 0 0)
  end.
Definition SyncEnvItemResult_summary (self : SyncEnvItemResult) : SyncSummary :=
  match self with EnvTag r => SyncTagResult_summary r | EnvObject r => SyncObjectResult_summary r end.
Definition SyncEnvResult_summary (results : list SyncEnvItemResult) : SyncSummary :=
  summary_sum (List.map SyncEnvItemResult_summary results).

(** ** The syncer *)

(** What is synced: a file with a list of items is not an object of spfs. *)
Inductive EnvSpecItem := ItemTagSpec (spec : TagSpec) | ItemPartialDigest (partial : list N) | ItemDigest (digest : Digest) | ItemSpecFile.

(** What syncing uses of the tags of a repository ([TagStorage]). *)
Class TagSync (D time : Type) := {
  sync_resolve_tag : D -> TagSpec -> res SpfsError (Tag time);
  sync_insert_tag : D -> Tag time -> res SpfsError unit * D;
}.
(** The source, whose calls fail differently. *)
Record Source {D time : Type} := mkSource {
  src_tags : D; src_repo : Repo time; src_fails : FsCall -> Digest -> bool; src_listing : list Digest -> list Digest }.
Arguments Source D time : clear implicits.
Arguments mkSource {D time} _ _ _ _.
(** What changes: the destination and the digests that were processed. *)
Record Syncing {D time : Type} := mkSyncing { dest_tags : D; dest : Repo time; processed : gset Digest }.
Arguments Syncing D time : clear implicits.
Arguments mkSyncing {D time} _ _ _.

(** A future among others takes a step: it goes on, or it is taken out with what it
    returned. *)
Section step_nth.
Context {S A R : Type} (step : A -> S -> (A + R) * S).
Fixpoint step_nth (i : nat) (l : list A) (s : S) {struct l} : (list A + R * list A) * S :=
  match l with
  | [] => (inl [], s)
  | a :: l =>
      match i with
      | O => match step a s with (inl a, s) => (inl (a :: l), s) | (inr r, s) => (inr (r, l), s) end
      | Datatypes.S i =>
          match step_nth i l s with (inl l, s) => (inl (a :: l), s) | (inr (r, l), s) => (inr (r, a :: l), s) end
      end
  end.
End step_nth.

Section sync.
Context {D time : Type} `{fs : !FileSystem time, !TagSync D time} (policy : SyncPolicy) (src : Source D time).
Abbreviation Syncing := (Syncing D time).
Implicit Types (s : Syncing) (digest : Digest).

Definition src_fs : FileSystem time := {|
  fails := src_fails src; listing := src_listing src; base32 := base32; sha256 := sha256; buffered := buffered;
  storage_config := storage_config; object_layout := object_layout; later := later |}.
Definition src_object digest : res SpfsError Object := @read_object time src_fs (src_repo src) digest.
Definition src_manifest digest : res SpfsError Object :=
  obj ← src_object digest;
  match to_enum obj with ObjManifest _ => Ok obj | _ => Err (NotCorrectKind KindManifest digest) end.
Definition src_payload digest : res SpfsError (list N) := @open_payload time src_fs (src_repo src) digest.
Definition src_full_digest (partial : list N) : res SpfsError Digest := @resolve_full_digest time src_fs (src_repo src) partial.

Definition process digest s : Syncing := mkSyncing (dest_tags s) (dest s) ({[digest]} ∪ processed s).
Definition with_dest (repo : Repo time) s : Syncing := mkSyncing (dest_tags s) repo (processed s).
(** A result of the destination, and what it changed. *)
Definition on_dest {A} (r : res SpfsError A * Repo time) s : res SpfsError A * Syncing := (r.1, with_dest r.2 s).
(** [?]: what a future does with a result. *)
Definition and_then {A B R} (r : res SpfsError A) (next : A -> B + res SpfsError R) : B + res SpfsError R :=
  match r with Ok a => next a | Err e => inr (Err e) | Panicked => inr Panicked end.

(** *** Payloads and blobs *)

Inductive PayloadFuture := PayloadStart | PayloadExists | PayloadWrite.
(** [sync_payload_with_perms_opt]. *)
Definition sync_payload digest (future : PayloadFuture) s : (PayloadFuture + res SpfsError SyncPayloadResult) * Syncing :=
  match future with
  | PayloadStart =>
      if bool_decide (digest ∈ processed s) then (inr (Ok PayloadDuplicate), s)
      else (inl (if check_existing_payloads policy then PayloadExists else PayloadWrite), s)
  | PayloadExists => if has_payload (dest s) digest then (inr (Ok PayloadSkipped), s) else (inl PayloadWrite, s)
  | PayloadWrite =>
      match src_payload digest with
      | Err e => (inr (Err e), s)
      | Panicked => (inr Panicked, s)
      | Ok payload =>
          let '(r, s) := on_dest (write_data payload (dest s)) s in
          (and_then r (fun '(created_digest, size) =>
             if bool_decide (digest = created_digest) then inr (Ok (PayloadSynced size))
             else inr (Err (StringError (lit "Source repository provided payload that did not match the requested digest")))), s)
      end
  end.

Inductive BlobFuture :=
| BlobStart | BlobExists | BlobPayloadExists | BlobSkip
| BlobPayload (future : PayloadFuture)
| BlobWrite (result : SyncPayloadResult) | BlobProcess (result : SyncPayloadResult).
(** [sync_blob_with_perms_opt], with the object and its contents. *)
Definition sync_blob (now : time) (obj : Object) (blob : Blob) (future : BlobFuture) s : (BlobFuture + res SpfsError SyncBlobResult) * Syncing :=
  let digest := bl_payload blob in
  match future with
  | BlobStart =>
      if bool_decide (digest ∈ processed s) then (inr (Ok BlobDuplicate), s)
      else (inl (if check_existing_objects policy then BlobExists else BlobPayload PayloadStart), s)
  | BlobExists => (inl (if has_object (dest s) digest then BlobPayloadExists else BlobPayload PayloadStart), s)
  | BlobPayloadExists => (inl (if has_payload (dest s) digest then BlobSkip else BlobPayload PayloadStart), s)
  | BlobSkip => (inr (Ok BlobSkipped), process digest s)
  | BlobPayload future =>
      let '(r, s) := sync_payload digest future s in
      (match r with inl future => inl (BlobPayload future) | inr r => and_then r (fun result => inl (BlobWrite result)) end, s)
  | BlobWrite result =>
      let '(r, s) := on_dest (write_object now obj (dest s)) s in (and_then r (fun _ => inl (BlobProcess result)), s)
  | BlobProcess result => (inr (Ok (BlobSynced obj result)), process digest s)
  end.
(** [sync_entry]: the blob of an entry of a manifest. *)
Record EntryFuture := mkEntryFuture { ef_object : Object; ef_blob : Blob; ef_future : BlobFuture }.
Definition entry_future (entry : GEntry) : EntryFuture :=
  mkEntryFuture (Blob_new storage_config (ge_object entry) (GEntry_size entry)) (mkBlob (ge_object entry) (GEntry_size entry)) BlobStart.
Definition sync_entry (now : time) (future : EntryFuture) s : (EntryFuture + res SpfsError SyncEntryResult) * Syncing :=
  let '(r, s) := sync_blob now (ef_object future) (ef_blob future) (ef_future future) s in
  (match r with
   | inl f => inl (mkEntryFuture (ef_object future) (ef_blob future) f)
   | inr r => and_then r (fun result => inr (Ok (EntrySynced result)))
   end, s).

(** *** Objects *)

Inductive SyncFuture :=
| SyncDigest (digest : Digest)                        (** [sync_digest] *)
| ReadFallback (digest : Digest) (err : SpfsError)    (** reading from the destination *)
| SyncObject (obj : Object)                           (** [sync_object] *)
| ObjectExists (digest : Digest) (obj : Object)       (** [has_object] *)
| BlobFutureOf (obj : Object) (blob : Blob) (future : BlobFuture)
| ManifestEntries (obj : Object) (running : list EntryFuture) (results : list SyncEntryResult)
| PlatformLayers (obj : Object) (running : list SyncFuture) (results : list SyncObjectResult)
| LayerManifest (obj : Object) (layer : Layer) (manifest : SyncFuture)
| LayerAnnotations (obj : Object) (todo : list Annotation) (results : list SyncObjectResult)
| LayerAnnotation (obj : Object) (digest : Digest) (annotation : SyncFuture) (todo : list Annotation) (results : list SyncObjectResult).

(** [read_object_with_fallback], up to what it asks of the destination. *)
Definition read_object_with_fallback digest : SyncFuture + res SpfsError SyncObjectResult :=
  match src_object digest with
  | Ok obj => inl (SyncObject obj)
  | Err err => if check_existing_objects policy then inl (ReadFallback digest err) else inr (Err err)
  | Panicked => inr Panicked
  end.
Definition duplicate_of (contents : Enum) : SyncObjectResult :=
  match contents with
  | ObjPlatform _ => OfPlatform PlatformDuplicate | ObjLayer _ => OfLayer LayerDuplicate
  | ObjManifest _ => OfManifest ManifestDuplicate | ObjBlob _ => OfBlob BlobDuplicate
  end.
Definition skipped_of (contents : Enum) : SyncObjectResult :=
  match contents with
  | ObjPlatform _ => OfPlatform PlatformSkipped | ObjLayer _ => OfLayer LayerSkipped
  | ObjManifest _ => OfManifest ManifestSkipped | ObjBlob _ => OfBlob BlobSkipped
  end.
(** The annotations of a layer, after its manifest. *)
Definition layer_annotations (obj : Object) (layer : Layer) (manifest : SyncObjectResult) : SyncFuture :=
  LayerAnnotations obj (ly_annotations layer)
    (manifest :: match ly_annotations layer with [] => [OfAnnotation AnnotationInternalValue] | _ => [] end).
(** What an object that has to be synced waits for. *)
Definition begin_object (obj : Object) : SyncFuture + res SpfsError SyncObjectResult :=
  match to_enum obj with
  | ObjPlatform platform => inl (PlatformLayers obj (SyncDigest <$> pf_layers platform) [])
  | ObjLayer layer =>
      match ly_manifest layer with
      | Some manifest_digest => and_then (src_manifest manifest_digest) (fun manifest => inl (LayerManifest obj layer (SyncObject manifest)))
      | None => inl (layer_annotations obj layer (OfManifest ManifestSkipped))
      end
  | ObjManifest manifest =>
      inl (ManifestEntries obj (entry_future <$> List.filter (fun e => is_blob (ge_kind e)) (iter_entries manifest)) [])
  | ObjBlob blob => inl (BlobFutureOf obj blob BlobStart)
  end.
(** [sync_platform], [sync_layer], [sync_manifest] up to the question whether the
    destination has the object, and [sync_blob]. *)
Definition sync_object (obj : Object) s : (SyncFuture + res SpfsError SyncObjectResult) * Syncing :=
  match to_enum obj with
  | ObjBlob blob => (inl (BlobFutureOf obj blob BlobStart), s)
  | contents =>
      match Object_digest sha256 obj with
      | Err e => (inr (Err e), s)
      | Panicked => (inr Panicked, s)
      | Ok digest =>
          if bool_decide (digest ∈ processed s) then (inr (Ok (duplicate_of contents)), s)
          else
            let s := process digest s in
            (if check_existing_objects policy then inl (ObjectExists digest obj) else begin_object obj, s)
      end
  end.
(** All is there that the object refers to. *)
Definition finish (now : time) (obj : Object) (result : SyncObjectResult) s : (SyncFuture + res SpfsError SyncObjectResult) * Syncing :=
  let '(r, s) := on_dest (write_object now obj (dest s)) s in (and_then r (fun _ => inr (Ok result)), s).

Fixpoint sync_future (path : list nat) (now : time) (future : SyncFuture) s {struct future} : (SyncFuture + res SpfsError SyncObjectResult) * Syncing :=
  match future with
  | SyncDigest digest =>
      if bool_decide (digest ∈ processed s) then (inr (Ok ObjectDuplicate), s) else (read_object_with_fallback digest, s)
  | ReadFallback digest err =>
      (match read_object (dest s) digest with
       | Ok obj => inl (SyncObject obj)
       | Err _ => inr (Err err)
       | Panicked => inr Panicked
       end, s)
  | SyncObject obj => sync_object obj s
  | ObjectExists digest obj => (if has_object (dest s) digest then inr (Ok (skipped_of (to_enum obj))) else begin_object obj, s)
  | BlobFutureOf obj blob future =>
      let '(r, s) := sync_blob now obj blob future s in
      (match r with inl future => inl (BlobFutureOf obj blob future) | inr r => and_then r (fun result => inr (Ok (OfBlob result))) end, s)
  | ManifestEntries obj running results =>
      match running with
      | [] => finish now obj (OfManifest (ManifestSynced obj results)) s
      | _ :: _ =>
          let '(r, s) := step_nth (sync_entry now) (hd 0 path mod length running) running s in
          (match r with
           | inl running => inl (ManifestEntries obj running results)
           | inr (r, running) => and_then r (fun result => inl (ManifestEntries obj running (results ++ [result])))
           end, s)
      end
  | PlatformLayers obj running results =>
      match running with
      | [] => finish now obj (OfPlatform (PlatformSynced obj results)) s
      | _ :: _ =>
          let '(r, s) := step_nth (sync_future (tl path) now) (hd 0 path mod length running) running s in
          (match r with
           | inl running => inl (PlatformLayers obj running results)
           | inr (r, running) => and_then r (fun result => inl (PlatformLayers obj running (results ++ [result])))
           end, s)
      end
  | LayerManifest obj layer manifest =>
      let '(r, s) := sync_future path now manifest s in
      (match r with
       | inl manifest => inl (LayerManifest obj layer manifest)
       | inr r => and_then r (fun result => inl (layer_annotations obj layer result))
       end, s)
  | LayerAnnotations obj [] results => finish now obj (OfLayer (LayerSynced obj results)) s
  | LayerAnnotations obj (annotation :: todo) results =>
      match an_value annotation with
      | AnnotationString _ => (inl (LayerAnnotations obj todo (results ++ [OfAnnotation AnnotationInternalValue])), s)
      | AnnotationBlob digest =>
          if bool_decide (digest ∈ processed s)
          then (inl (LayerAnnotations obj todo (results ++ [OfAnnotation AnnotationDuplicate])), s)
          else (inl (LayerAnnotation obj digest (SyncDigest digest) todo results), s)
      end
  | LayerAnnotation obj digest annotation todo results =>
      let '(r, s) := sync_future path now annotation s in
      (match r with
       | inl annotation => inl (LayerAnnotation obj digest annotation todo results)
       | inr r => and_then r (fun result => inl (LayerAnnotations obj todo (results ++ [OfAnnotation (AnnotationSynced digest result)])))
       end, s)
  end.

(** *** Environments *)

Inductive ItemFuture :=
| SyncItem (item : EnvSpecItem)
| PartialFallback (partial : list N) (err : SpfsError)
| ItemObject (future : SyncFuture)
| ReadTag (spec : TagSpec)
| ItemTag (spec : TagSpec) (resolved : Tag time) (future : SyncFuture)
| InsertTag (spec : TagSpec) (resolved : Tag time) (result : SyncObjectResult).
Definition as_item (r : SyncFuture + res SpfsError SyncObjectResult) : ItemFuture + res SpfsError SyncEnvItemResult :=
  match r with inl future => inl (ItemObject future) | inr r => and_then r (fun result => inr (Ok (EnvObject result))) end.
(** [sync_env_item], [sync_partial_digest] and [sync_tag]. *)
Definition sync_env_item (path : list nat) (now : time) (future : ItemFuture) s : (ItemFuture + res SpfsError SyncEnvItemResult) * Syncing :=
  match future with
  | SyncItem (ItemDigest digest) => (inl (ItemObject (SyncDigest digest)), s)
  | SyncItem (ItemPartialDigest partial) =>
      (match src_full_digest partial with
       | Ok digest => as_item (read_object_with_fallback digest)
       | Err err => if check_existing_objects policy then inl (PartialFallback partial err) else inr (Err err)
       | Panicked => inr Panicked
       end, s)
  | SyncItem (ItemTagSpec spec) =>
      (if check_existing_tags policy then
         match sync_resolve_tag (dest_tags s) spec with
         | Ok _ => inr (Ok (EnvTag TagSkipped))
         | Err _ => inl (ReadTag spec)
         | Panicked => inr Panicked
         end
       else inl (ReadTag spec), s)
  | SyncItem ItemSpecFile => (inr (Ok (EnvObject ObjectIgnorable)), s)
  | PartialFallback partial err =>
      (match resolve_full_digest (dest s) partial with
       | Ok digest => as_item (read_object_with_fallback digest)
       | Err _ => inr (Err err)
       | Panicked => inr Panicked
       end, s)
  | ItemObject future => let '(r, s) := sync_future path now future s in (as_item r, s)
  | ReadTag spec =>
      (and_then (sync_resolve_tag (src_tags src) spec) (fun resolved => inl (ItemTag spec resolved (SyncDigest (tag_target resolved)))), s)
  | ItemTag spec resolved future =>
      let '(r, s) := sync_future path now future s in
      (match r with
       | inl future => inl (ItemTag spec resolved future)
       | inr r => and_then r (fun result => inl (InsertTag spec resolved result))
       end, s)
  | InsertTag spec resolved result =>
      let '(r, tags) := sync_insert_tag (dest_tags s) resolved in
      (and_then r (fun _ => inr (Ok (EnvTag (TagSynced spec result)))), mkSyncing tags (dest s) (processed s))
  end.

(** For every step, the way to the future that takes it and the time. *)
Context (schedule : nat -> list nat * time).

(** The loop of [sync_env], from its [step]th step; [None] when there was not
    enough fuel. *)
Fixpoint sync_items (fuel step : nat) (running : list ItemFuture) (results : list SyncEnvItemResult) s :
    option (res SpfsError (list SyncEnvItemResult) * Syncing) :=
  match running with
  | [] => Some (Ok results, s)
  | _ =>
      match fuel with
      | O => None
      | S fuel =>
          let '(path, now) := schedule step in
          let '(r, s) := step_nth (sync_env_item (tl path) now) (hd 0 path mod length running) running s in
          match r with
          | inl running => sync_items fuel (S step) running results s
          | inr (Ok result, running) => sync_items fuel (S step) running (results ++ [result]) s
          | inr (Err e, _) => Some (Err e, s)
          | inr (Panicked, _) => Some (Panicked, s)
          end
      end
  end.
Definition sync_env (fuel : nat) (env : list EnvSpecItem) s : option (res SpfsError (list SyncEnvItemResult) * Syncing) :=
  sync_items fuel 0 (SyncItem <$> env) [] s.
End sync.
Arguments ItemFuture time : clear implicits.
