(* ===== verification/SyncTheory.v ===== *)
(** * What syncing copies

    The theory of [Sync]: an invariant of the destination and of the futures of a
    sync, which every step keeps, and what it says when all futures have returned. *)

From stdpp Require Import gmap.
From S2P Require Import CleanTheory Prelude Strings Collections Encoding TagSpec Tags Entry Manifest Objects ObjectStore Sync.

#[local] Set Warnings "-register-all".

Lemma step_nth_spec {S A R} (step : A -> S -> (A + R) * S) i l s r s' : i < length l -> step_nth step i l s = (r, s') ->
  exists l1 a l2 q, l = l1 ++ a :: l2 /\ step a s = (q, s') /\
    r = match q with inl a' => inl (l1 ++ a' :: l2) | inr x => inr (x, l1 ++ l2) end.
Proof.
  revert i r s'. induction l as [|a l IH]; intros i r s' Hi; cbn [length] in Hi; [lia|]. destruct i as [|i]; cbn [step_nth].
  - intros H. destruct (step a s) as [q s0] eqn:E. exists [], a, l, q. by destruct q; injection H as <- <-.
  - intros H. destruct (step_nth step i l s) as [r0 s0] eqn:E. apply IH in E as (l1 & b & l2 & q & -> & Hs & ->); [|lia].
    exists (a :: l1), b, l2, q. by destruct q; injection H as <- <-.
Qed.
Lemma mod_length {A} (n : nat) (a : A) l : n mod length (a :: l) < length (a :: l).
Proof. by apply Nat.mod_upper_bound. Qed.

Section future_ind.
Variable P : SyncFuture -> Prop.
Definition on_its_own (t : SyncFuture) : bool :=
  match t with PlatformLayers _ _ _ | LayerManifest _ _ _ | LayerAnnotation _ _ _ _ _ => false | _ => true end.
Hypothesis Hown : forall t, on_its_own t = true -> P t.
Hypothesis Hplatform : forall obj running results, (forall t, t ∈ running -> P t) -> P (PlatformLayers obj running results).
Hypothesis Hlayer : forall obj layer t, P t -> P (LayerManifest obj layer t).
Hypothesis Hannotation : forall obj d t todo results, P t -> P (LayerAnnotation obj d t todo results).
Lemma future_ind t : P t.
Proof.
  revert t. fix IH 1. intros t. destruct t; try (by apply Hown).
  - apply Hplatform. induction running as [|t running IHr]; [clear IH; by intros t ?%elem_of_nil|].
    intros u [-> | Hu]%elem_of_cons; [apply IH|clear IH; by apply IHr].
  - apply Hlayer, IH.
  - apply Hannotation, IH.
Qed.
End future_ind.

Section sync.
Context {D time : Type} `{fs : !FileSystem time, !TagSync D time} (policy : SyncPolicy) (src : Source D time).
(** What digests identify: no two objects of different kinds have the same. *)
Context (kind_of : Digest -> ObjectKind).
Abbreviation Syncing := (Syncing D time).
Implicit Types (s : Syncing) (d c x : Digest) (t : SyncFuture) (σ : Repo time).

(** ** Repositories *)

Definition fits d (obj : Object) : Prop := Object_digest sha256 obj = Ok d /\ Enum_kind (to_enum obj) = kind_of d.
(** What is read after writing the object. *)
Definition rewrites d (obj : Object) : Prop := forall bytes obj',
  Object_encode [] obj = Ok bytes -> Object_new storage_config buffered bytes = Ok obj' -> fits d obj'.
Record source_ok : Prop := {
  source_fits : forall d obj, src_object src d = Ok obj -> fits d obj /\ rewrites d obj;
  source_entries : forall d obj manifest entry, src_object src d = Ok obj -> to_enum obj = ObjManifest manifest ->
    entry ∈ iter_entries manifest -> is_blob (ge_kind entry) = true ->
    kind_of (ge_object entry) = KindBlob /\ rewrites (ge_object entry) (Blob_new storage_config (ge_object entry) (GEntry_size entry));
}.
Definition stored σ d : Prop := is_Some (objects σ !! d).
Definition paid σ d : Prop := is_Some (payloads σ !! d).
Definition dest_ok σ : Prop := forall d obj, read_object σ d = Ok obj -> fits d obj.
(** A blob is only whole with its payload. *)
Definition whole σ d : Prop := stored σ d /\ (kind_of d = KindBlob -> paid σ d).
(** What a repository lacks of the objects it stores. *)
Definition gap σ c : Prop := exists d obj, stored σ d /\ src_object src d = Ok obj /\ c ∈ child_objects obj /\ ~ whole σ c.

Lemma has_object_stored σ d : has_object σ d = true <-> stored σ d.
Proof. apply bool_decide_eq_true. Qed.
Lemma has_object_missing σ d : has_object σ d = false <-> ~ stored σ d.
Proof. apply bool_decide_eq_false. Qed.
Lemma has_payload_paid σ d : has_payload σ d = true <-> paid σ d.
Proof. apply bool_decide_eq_true. Qed.
Lemma has_payload_missing σ d : has_payload σ d = false <-> ~ paid σ d.
Proof. apply bool_decide_eq_false. Qed.
Lemma read_stored σ d obj : read_object σ d = Ok obj -> stored σ d.
Proof. unfold read_object, stored. destruct (objects σ !! d); [by eexists|done]. Qed.
Lemma fits_inj d d' obj : fits d obj -> fits d' obj -> d = d'.
Proof. intros [H _] [H' _]. congruence. Qed.
Lemma blob_new_digest d size : Object_digest sha256 (Blob_new storage_config d size) = Ok d.
Proof. unfold Object_digest, Blob_new, new_with_default_header. cbn [obj_header to_enum]. by destruct storage_config as [[[] []]|]. Qed.

(** ** States *)

Record le s s' : Prop := {
  le_processed : processed s ⊆ processed s';
  le_stored : forall d, stored (dest s) d -> stored (dest s') d;
  le_paid : forall d, paid (dest s) d -> paid (dest s') d;
  le_new : forall d, stored (dest s') d -> stored (dest s) d \/ kind_of d = KindBlob \/ exists obj, src_object src d = Ok obj;
}.
#[export] Instance le_preorder : PreOrder le.
Proof. split; [split; auto|]. intros a b e [? ? ? Hn] [? ? ? Hn']. split; [set_solver|auto..]. intros d Hd. destruct (Hn' d Hd) as [|]; auto. Qed.
Definition settled s d : Prop := whole (dest s) d \/ d ∈ processed s.
(** What was missing below what is stored, and the blobs that were processed but
    are not there, when the sync started. *)
Context (missing lost : Digest -> Prop).
Record state_ok s : Prop := {
  state_dest : dest_ok (dest s);
  state_closed : forall d obj c, stored (dest s) d -> src_object src d = Ok obj -> c ∈ child_objects obj -> settled s c \/ missing c;
  state_blobs : forall c, c ∈ processed s -> kind_of c = KindBlob -> whole (dest s) c \/ lost c;
}.
Lemma whole_le s s' d : le s s' -> whole (dest s) d -> whole (dest s') d.
Proof. intros [_ Hs Hp _] [? ?]. split; auto. Qed.
Lemma settled_le s s' d : le s s' -> settled s d -> settled s' d.
Proof. intros Hle [H|H]; [left; by eapply whole_le|right; by apply Hle]. Qed.
Lemma closed_le s s' d : le s s' -> settled s d \/ missing d -> settled s' d \/ missing d.
Proof. intros Hle [?|?]; [left; by eapply settled_le|by right]. Qed.
Lemma lost_le s s' d : le s s' -> whole (dest s) d \/ lost d -> whole (dest s') d \/ lost d.
Proof. intros Hle [?|?]; [left; by eapply whole_le|by right]. Qed.

Lemma process_ok d s : state_ok s -> (kind_of d = KindBlob -> whole (dest s) d \/ lost d) -> state_ok (process d s) /\ le s (process d s).
Proof.
  intros [Hd Hc Hb] Hblob. assert (le s (process d s)) as Hle by (split; cbn [process dest processed]; [set_solver|auto..]).
  split; [split; cbn [process dest processed]|done].
  - done.
  - intros e obj c He Hr Hin. apply (closed_le s); [done|by eapply Hc].
  - intros c [->%elem_of_singleton|Hin]%elem_of_union; auto.
Qed.
Lemma write_spec now obj d σ r σ' : fits d obj -> write_object now obj σ = (r, σ') ->
  (forall x, stored σ x -> stored σ' x) /\ payloads σ' = payloads σ /\ (forall x, stored σ' x -> stored σ x \/ x = d) /\
  (r = Ok tt -> stored σ' d) /\ (dest_ok σ -> rewrites d obj \/ stored σ d -> dest_ok σ').
Proof.
  intros [Hd Hk]. unfold write_object. rewrite Hd. destruct (has_object σ d) eqn:E.
  { intros [= <- <-]. apply has_object_stored in E. by split_and!; auto. }
  destruct (Object_encode [] obj) as [bytes|e|] eqn:Ee; cycle 1.
  1,2: by intros [= <- <-]; split_and!; auto.
  destruct (fails WriteObject d); intros [= <- <-]; [by split_and!; auto|]. apply has_object_missing in E.
  unfold stored, with_objects. cbn [objects payloads]. split_and!; [|done| | |].
  - intros x Hx. destruct (decide (x = d)) as [->|Hne]; [rewrite lookup_insert_eq; by eexists|by rewrite lookup_insert_ne].
  - intros x. destruct (decide (x = d)) as [->|Hne]; [auto|rewrite lookup_insert_ne by done; auto].
  - intros _. rewrite lookup_insert_eq. by eexists.
  - intros Hf [Hw|?]; [|done]. intros x o. unfold read_object. cbn [objects]. destruct (decide (x = d)) as [->|Hne].
    + rewrite lookup_insert_eq. unfold attempt. destruct (fails OpenObject d); [done|]. cbn [so_object mbind res_bind]. intros Hn. exact (Hw _ _ Ee Hn).
    + rewrite lookup_insert_ne by done. apply (Hf x o).
Qed.
Lemma write_ok now obj d s r σ' : state_ok s -> fits d obj -> rewrites d obj \/ stored (dest s) d ->
  kind_of d = KindBlob \/ (exists o, src_object src d = Ok o) -> (forall obj' c, src_object src d = Ok obj' -> c ∈ child_objects obj' -> settled s c) ->
  write_object now obj (dest s) = (r, σ') -> state_ok (with_dest σ' s) /\ le s (with_dest σ' s) /\ (r = Ok tt -> stored σ' d).
Proof.
  intros [Hd Hc Hb] Hf Hw Hnew Hch H. destruct (write_spec _ _ _ _ _ _ Hf H) as (Hmono & Hpay & Hback & Hst & Hfits).
  assert (le s (with_dest σ' s)) as Hle by (split; cbn [with_dest dest processed];
    [done|done|by unfold paid; rewrite Hpay|by intros x [| ->]%Hback; auto]).
  split_and!; [split; cbn [with_dest dest processed]|done|done].
  - by apply Hfits.
  - intros x obj' c Hs Hr Hin. apply (closed_le s); [done|]. destruct (Hback _ Hs) as [Ho | ->]; [by eapply Hc|left; by eapply Hch].
  - intros c Hin Hk. apply (lost_le s (with_dest σ' s)); auto.
Qed.

(** ** Payloads and blobs *)

Lemma same_objects_ok s σ : state_ok s -> objects σ = objects (dest s) -> (forall d, paid (dest s) d -> paid σ d) ->
  state_ok (with_dest σ s) /\ le s (with_dest σ s).
Proof.
  intros [Hf Hc Hb] Ho Hpaid. assert (forall x, stored σ x <-> stored (dest s) x) as Hs by (intros; unfold stored; by rewrite Ho).
  assert (le s (with_dest σ s)) as Hle by (split; cbn [with_dest dest processed]; [done|intros; by apply Hs|done|intros; left; by apply Hs]). split; [|done].
  split; cbn [with_dest dest processed].
  - intros d obj. unfold read_object. rewrite Ho. apply Hf.
  - intros d obj c Hd Hr Hin. apply (closed_le s); [done|]. eapply Hc; [by apply Hs|done..].
  - intros c Hin Hk. apply (lost_le s (with_dest σ s)); auto.
Qed.
Lemma payload_step d f s r s' : state_ok s -> kind_of d = KindBlob -> sync_payload policy src d f s = (r, s') ->
  state_ok s' /\ le s s' /\ processed s' = processed s /\ (forall result, r = inr (Ok result) -> paid (dest s') d \/ lost d).
Proof.
  intros Hok Hk. destruct f; cbn [sync_payload].
  - case_bool_decide as Hin; intros [= <- <-]; split_and!; try done. intros _ _.
    destruct (state_blobs _ Hok d Hin Hk) as [[_ Hp]|?]; [left; by apply Hp|by right].
  - destruct (has_payload (dest s) d) eqn:E; intros [= <- <-]; split_and!; try done. intros _ _. left. by apply has_payload_paid.
  - destruct (src_payload src d) as [payload|e|]; [|by intros [= <- <-]..].
    unfold write_data, on_dest. destruct (fails WritePayload (sha256 payload)); cbn [fst snd and_then]; intros [= <- <-].
    + destruct (same_objects_ok s (dest s) Hok eq_refl) as [H1 H2]; [done|]. by split_and!.
    + destruct (same_objects_ok s (with_payloads <[sha256 payload:=payload]> (dest s)) Hok eq_refl) as [H1 H2].
      { intros x. unfold paid, with_payloads. cbn [payloads]. intros Hx. destruct (decide (x = sha256 payload)) as [->|Hne];
          [rewrite lookup_insert_eq; by eexists|by rewrite lookup_insert_ne]. }
      split_and!; [done..|]. intros result. case_bool_decide as Hd; [|done]. intros _. left. unfold paid, with_dest, with_payloads.
      cbn [dest payloads]. rewrite Hd, lookup_insert_eq. by eexists.
Qed.

(** What is known of a blob being synced. *)
Definition blob_ready s (obj : Object) (blob : Blob) (f : BlobFuture) : Prop :=
  let d := bl_payload blob in
  fits d obj /\ kind_of d = KindBlob /\
  match f with
  | BlobStart => rewrites d obj \/ check_existing_objects policy = true /\ stored (dest s) d
  | BlobExists => rewrites d obj \/ stored (dest s) d
  | BlobPayloadExists => stored (dest s) d
  | BlobSkip => whole (dest s) d
  | BlobProcess _ => stored (dest s) d /\ (whole (dest s) d \/ lost d)
  | BlobPayload _ => rewrites d obj \/ stored (dest s) d
  | BlobWrite _ => (rewrites d obj \/ stored (dest s) d) /\ (paid (dest s) d \/ lost d)
  end.
Lemma blob_ready_le s s' obj blob f : le s s' -> blob_ready s obj blob f -> blob_ready s' obj blob f.
Proof.
  intros Hle (? & ? & H). split_and!; [done..|]. pose proof (whole_le s s' (bl_payload blob) Hle). destruct Hle as [_ Hs Hp _].
  destruct f; naive_solver.
Qed.
(** Nothing is left undone that was under way. *)
Definition passes s s' (under_way under_way' : list Digest) : Prop :=
  (forall x, x ∈ under_way -> stored (dest s') x \/ x ∈ under_way') /\
  (forall x, x ∈ processed s' -> x ∈ processed s \/ stored (dest s') x \/ x ∈ under_way').
Definition advance {A R} s (r : A + res SpfsError R) s' (ready : A -> Prop) (result : R -> Prop)
    (under_way : list Digest) (under_way' : A -> list Digest) : Prop :=
  match r with
  | inl a => state_ok s' /\ le s s' /\ ready a /\ passes s s' under_way (under_way' a)
  | inr (Ok a) => state_ok s' /\ le s s' /\ result a /\ passes s s' under_way []
  | inr _ => True
  end.
Lemma passes_same s s' l : processed s' = processed s -> passes s s' l l.
Proof. intros H. split; [auto|]. rewrite H. auto. Qed.
Lemma passes_process s d l : stored (dest s) d -> passes s (process d s) l l.
Proof. intros Hd. split; [auto|]. intros x Hx. cbn [process processed] in Hx. apply elem_of_union in Hx as [->%elem_of_singleton|Hx]; auto. Qed.
Lemma blob_step now obj blob f s r s' : source_ok -> state_ok s -> blob_ready s obj blob f -> sync_blob policy src now obj blob f s = (r, s') ->
  advance s r s' (blob_ready s' obj blob) (fun _ => settled s' (bl_payload blob)) [] (fun _ => []).
Proof.
  intros Hsrc Hok (Hf & Hk & H). destruct f; cbn [sync_blob].
  - case_bool_decide as Hin; intros [= <- <-]; cbn [advance]; split_and!; try done; [by right|by apply passes_same| |by apply passes_same].
    destruct (check_existing_objects policy) eqn:Ec; split_and!; try done; cbn; naive_solver.
  - intros [= <- <-]. cbn [advance]. split_and!; try done; [|by apply passes_same].
    destruct (has_object (dest s) (bl_payload blob)) eqn:E; split_and!; try done. by apply has_object_stored.
  - intros [= <- <-]. cbn [advance]. split_and!; try done; [|by apply passes_same].
    destruct (has_payload (dest s) (bl_payload blob)) eqn:E; split_and!; try done; [|by right].
    split; [done|]. intros _. by apply has_payload_paid.
  - intros [= <- <-]. cbn [advance]. destruct (process_ok (bl_payload blob) s Hok ltac:(auto)). destruct H.
    split_and!; try done; [by left|by apply passes_process].
  - destruct (sync_payload _ _ _ _ s) as [q s0] eqn:E. apply payload_step in E as (Hok' & Hle & Hp & Hr); [|done..].
    intros [= <- <-]. assert (rewrites (bl_payload blob) obj \/ stored (dest s0) (bl_payload blob)) as H'.
    { destruct H as [?|?]; [by left|right; by apply Hle]. }
    destruct q as [f'|[result|e|]]; cbn [and_then advance]; try done; split_and!; try done; try (by apply passes_same).
    by exact (conj Hf (conj Hk (conj H' (Hr _ eq_refl)))).
  - destruct (write_object now obj (dest s)) as [q σ'] eqn:E. cbn [on_dest fst snd]. intros [= <- <-]. destruct H as [Hw Hp].
    apply (write_ok _ _ (bl_payload blob)) in E as (Hok' & Hle & Hst); [|done..|by left|].
    + destruct q as [[]|e|]; cbn [and_then advance]; try done. specialize (Hst eq_refl). split_and!; try done; [|by apply passes_same].
      split_and!; try done. destruct Hp as [Hp|?]; [left|by right]. split; [done|]. intros _. by apply Hle.
    + intros obj' c Hr Hc. destruct (source_fits Hsrc _ _ Hr) as [[_ Hk'] _]. rewrite Hk in Hk'. unfold child_objects in Hc.
      destruct (to_enum obj'); try done. by apply elem_of_nil in Hc.
  - intros [= <- <-]. cbn [advance]. destruct H as [Hs Hw]. destruct (process_ok (bl_payload blob) s Hok ltac:(auto)).
    split_and!; try done; [right; cbn; set_solver|by apply passes_process].
Qed.

(** ** Futures that run together *)

Section join.
Context {A R : Type} (ok : Syncing -> A -> Prop) (aims : Syncing -> Digest -> A -> Prop) (good : Syncing -> R -> Prop).
Context (own : A -> list Digest) (step : A -> Syncing -> (A + res SpfsError R) * Syncing).
(** All [children] are there or being copied. *)
Definition waits s (children : list Digest) (running : list A) : Prop :=
  (forall a, a ∈ running -> ok s a) /\ (forall c, c ∈ children -> settled s c \/ exists a, a ∈ running /\ aims s c a).
Hypothesis ok_le : forall s s' a, le s s' -> ok s a -> ok s' a.
Hypothesis aims_le : forall s s' c a, le s s' -> aims s c a -> aims s' c a.
Lemma waits_le s s' children running : le s s' -> waits s children running -> waits s' children running.
Proof.
  intros Hle [Hall Hc]. split; [intros a Ha; apply (ok_le s); auto|].
  intros c Hin. destruct (Hc c Hin) as [?|(a & ? & ?)]; [left; by eapply settled_le|right; exists a; split; [done|by eapply aims_le]].
Qed.
(** The future in the middle is replaced by [q']. *)
Lemma waits_replace s s' children l1 a l2 q' : le s s' -> waits s children (l1 ++ a :: l2) -> (forall b, b ∈ q' -> ok s' b) ->
  (forall c, aims s c a -> settled s' c \/ exists b, b ∈ q' /\ aims s' c b) -> waits s' children (l1 ++ q' ++ l2).
Proof.
  intros Hle [Hall Hc] Hq' Hca. split.
  - intros b. rewrite !elem_of_app. intros [Hb|[Hb|Hb]]; [|auto|]; (apply (ok_le s); [done|]); apply Hall; rewrite elem_of_app, elem_of_cons; auto.
  - intros c Hin. destruct (Hc c Hin) as [?|(b & Hb & Hcb)]; [left; by eapply settled_le|].
    rewrite elem_of_app, elem_of_cons in Hb. destruct Hb as [Hb|[-> | Hb]];
      [right; exists b; rewrite !elem_of_app; split; [auto|by eapply aims_le]| |right; exists b; rewrite !elem_of_app; split; [auto|by eapply aims_le]].
    destruct (Hca c Hcb) as [|(b & ? & ?)]; [by left|right; exists b; rewrite !elem_of_app; auto].
Qed.
Lemma passes_replace s s' (base : list Digest) l1 a l2 own' q' : passes s s' (own a) own' -> (forall x, x ∈ own' -> x ∈ flat_map own q') ->
  passes s s' (base ++ flat_map own (l1 ++ a :: l2)) (base ++ flat_map own (l1 ++ q' ++ l2)).
Proof.
  intros [Hp1 Hp2] Hq. assert (forall x, x ∈ own' -> x ∈ base ++ flat_map own (l1 ++ q' ++ l2)) as Hown.
  { intros x Hx. rewrite !flat_map_app, !elem_of_app. auto. }
  split; [|intros x Hx; destruct (Hp2 x Hx) as [|[|]]; auto].
  intros x. rewrite !flat_map_app, !elem_of_app. cbn [flat_map]. rewrite elem_of_app. intros [|[|[Hx|]]]; auto 7.
  destruct (Hp1 x Hx) as [|Hx']; auto 7.
Qed.
Lemma join_step s children running i r s' (base : list Digest) :
  (forall a q s', a ∈ running -> ok s a -> step a s = (q, s') ->
     advance s q s' (fun a' => ok s' a' /\ forall c, aims s c a -> aims s' c a') (fun result => good s' result /\ forall c, aims s c a -> settled s' c) (own a) own) ->
  waits s children running -> i < length running -> step_nth step i running s = (r, s') ->
  let after running' := state_ok s' /\ le s s' /\ waits s' children running' /\
    passes s s' (base ++ flat_map own running) (base ++ flat_map own running') in
  match r with inl running' => after running' | inr (Ok result, running') => after running' /\ good s' result | inr _ => True end.
Proof.
  intros Hstep Hwait Hi H after. apply step_nth_spec in H as (l1 & a & l2 & q & -> & Hs & ->); [|done].
  assert (a ∈ l1 ++ a :: l2) as Ha by (rewrite elem_of_app, elem_of_cons; auto).
  pose proof (Hstep _ _ _ Ha (proj1 Hwait a Ha) Hs) as Hadv.
  destruct q as [a'|[result|e|]]; cbn [advance] in Hadv; [| |done..]; destruct Hadv as (Hok & Hle & [Hgood Hgoal] & Hp).
  - split_and!; [done..|apply (waits_replace s _ _ _ a _ [a'])|apply (passes_replace _ _ _ _ _ _ _ [a'] Hp)]; try done.
    + by intros b ->%list_elem_of_singleton.
    + intros c Hc. right. exists a'. split; [by apply list_elem_of_singleton|auto].
    + intros x Hx. cbn [flat_map]. by rewrite app_nil_r.
  - split; [|done]. split_and!; [done..|apply (waits_replace s _ _ _ a _ [])|apply (passes_replace _ _ _ _ _ _ _ [] Hp)]; try done; auto.
    by intros b ?%elem_of_nil.
Qed.
End join.

(** ** Futures of objects *)

Definition own_digest (obj : Object) : list Digest := match Object_digest sha256 obj with Ok d => [d] | _ => [] end.
(** The digests that were marked as processed before what they need was there. *)
Fixpoint owned t : list Digest :=
  match t with
  | SyncDigest _ | ReadFallback _ _ | SyncObject _ | BlobFutureOf _ _ _ => []
  | ObjectExists _ obj | ManifestEntries obj _ _ | LayerAnnotations obj _ _ => own_digest obj
  | PlatformLayers obj running _ => own_digest obj ++ flat_map owned running
  | LayerManifest obj _ t | LayerAnnotation obj _ t _ _ => own_digest obj ++ owned t
  end.
Definition origin s d (obj : Object) : Prop :=
  src_object src d = Ok obj \/ check_existing_objects policy = true /\ stored (dest s) d.
Definition entry_aims s c (e : EntryFuture) : Prop := blob_ready s (ef_object e) (ef_blob e) (ef_future e) /\ bl_payload (ef_blob e) = c.
Definition entry_ok s (e : EntryFuture) : Prop := exists c, entry_aims s c e.
Definition annotated s (children : list Digest) (todo : list Annotation) : Prop :=
  forall c, c ∈ children -> settled s c \/ c ∈ todo ≫= Annotation_child_objects.
(** What is known of a future that copies what the digest identifies. *)
Inductive ready s : Digest -> SyncFuture -> Prop :=
| ready_digest d : ready s d (SyncDigest d)
| ready_fallback d e : check_existing_objects policy = true -> ready s d (ReadFallback d e)
| ready_object d obj : fits d obj -> origin s d obj -> ready s d (SyncObject obj)
| ready_exists d obj : fits d obj -> origin s d obj -> (forall b, to_enum obj <> ObjBlob b) -> ready s d (ObjectExists d obj)
| ready_blob obj blob f : to_enum obj = ObjBlob blob -> blob_ready s obj blob f -> ready s (bl_payload blob) (BlobFutureOf obj blob f)
| ready_manifest d obj m running results : src_object src d = Ok obj -> to_enum obj = ObjManifest m ->
    waits entry_ok entry_aims s (child_objects obj) running -> ready s d (ManifestEntries obj running results)
| ready_platform d obj p running results : src_object src d = Ok obj -> to_enum obj = ObjPlatform p ->
    (forall t, t ∈ running -> exists c, ready s c t) ->
    (forall c, c ∈ child_objects obj -> settled s c \/ exists t, t ∈ running /\ ready s c t) ->
    ready s d (PlatformLayers obj running results)
| ready_layer d obj layer m t : src_object src d = Ok obj -> to_enum obj = ObjLayer layer ->
    ly_manifest layer = Some m -> ready s m t -> ready s d (LayerManifest obj layer t)
| ready_annotations d obj layer todo results : src_object src d = Ok obj -> to_enum obj = ObjLayer layer ->
    annotated s (child_objects obj) todo -> ready s d (LayerAnnotations obj todo results)
| ready_annotation d obj layer c t todo results : src_object src d = Ok obj -> to_enum obj = ObjLayer layer ->
    ready s c t -> (forall x, x ∈ child_objects obj -> settled s x \/ x = c \/ x ∈ todo ≫= Annotation_child_objects) ->
    ready s d (LayerAnnotation obj c t todo results).
#[local] Hint Constructors ready : core.

Lemma origin_le s s' d obj : le s s' -> origin s d obj -> origin s' d obj.
Proof. intros [_ Hs _ _] [H|[? ?]]; [by left|right; auto]. Qed.
Lemma entry_aims_le s s' c e : le s s' -> entry_aims s c e -> entry_aims s' c e.
Proof. intros Hle [? ?]. split; [by eapply blob_ready_le|done]. Qed.
Lemma entry_ok_le s s' e : le s s' -> entry_ok s e -> entry_ok s' e.
Proof. intros Hle [c ?]. exists c. by eapply entry_aims_le. Qed.
Lemma annotated_le s s' children todo : le s s' -> annotated s children todo -> annotated s' children todo.
Proof. intros Hle H c Hc. destruct (H c Hc); [left; by eapply settled_le|by right]. Qed.
Lemma ready_le s s' t : le s s' -> forall d, ready s d t -> ready s' d t.
Proof.
  intros Hle. induction t as [t Hown|obj running results IH|obj layer t IH|obj c t todo results IH] using future_ind; intros d H.
  - destruct t; try done; inversion H; subst; eauto using origin_le, blob_ready_le, annotated_le.
    apply (ready_manifest _ _ _ m); [done..|]. eapply waits_le; [| |done..]; eauto using entry_ok_le, entry_aims_le.
  - inversion H as [| | | | | |? ? p ? ? Hr He Hall Hc| | |]; subst. apply (ready_platform _ _ _ p); [done..| |].
    + intros t Ht. destruct (Hall t Ht) as [c ?]. exists c. by apply IH.
    + intros c Hin. destruct (Hc c Hin) as [?|(t & Ht & ?)]; [left; by eapply settled_le|right; exists t; split; [done|by apply IH]].
  - inversion H; subst. eauto.
  - inversion H as [| | | | | | | | |? ? layer' ? ? ? ? Hr He Ht Hc]; subst. apply (ready_annotation _ _ _ layer'); [done..|by apply IH|].
    intros x Hx. destruct (Hc x Hx) as [?|?]; [left; by eapply settled_le|by right].
Qed.

Definition future_ok s t : Prop := exists c, ready s c t.
Lemma future_ok_le s s' t : le s s' -> future_ok s t -> future_ok s' t.
Proof. intros Hle [c ?]. exists c. by eapply ready_le. Qed.
Lemma from_source s d obj : fits d obj -> origin s d obj -> check_existing_objects policy = false \/ ~ stored (dest s) d -> src_object src d = Ok obj.
Proof. intros Hf [H|[Hc Hs]] Hno; [done|]. destruct Hno; [congruence|done]. Qed.
Lemma own_digest_fits d obj : fits d obj -> own_digest obj = [d].
Proof. intros [H _]. unfold own_digest. by rewrite H. Qed.
Lemma not_blob_kind d obj : fits d obj -> (forall b, to_enum obj <> ObjBlob b) -> kind_of d <> KindBlob.
Proof. intros [_ <-] Hb. destruct (to_enum obj); try done. by destruct (Hb blob). Qed.

Lemma not_blob_whole s d obj : fits d obj -> (forall b, to_enum obj <> ObjBlob b) -> stored (dest s) d -> settled s d.
Proof. intros Hf Hb Hs. left. split; [done|]. by intros Hk%(not_blob_kind d obj Hf Hb). Qed.

(** ** A step *)

Lemma entry_aims_start s e : kind_of (ge_object e) = KindBlob -> rewrites (ge_object e) (Blob_new storage_config (ge_object e) (GEntry_size e)) ->
  entry_aims s (ge_object e) (entry_future e).
Proof.
  intros Hk Hw. split; [|done]. split_and!; cbn [entry_future ef_blob bl_payload]; [|done|by left].
  split; [apply blob_new_digest|by rewrite Hk].
Qed.
Lemma begin_ready s d obj : source_ok -> src_object src d = Ok obj -> fits d obj -> (forall b, to_enum obj <> ObjBlob b) ->
  match begin_object src obj with inl t => ready s d t /\ d ∈ owned t | inr (Ok _) => False | inr _ => True end.
Proof.
  intros Hsrc Hr Hf Hb. pose proof (own_digest_fits _ _ Hf) as Hd. unfold begin_object.
  destruct (to_enum obj) as [p|layer|m|b] eqn:E; [| | |by destruct (Hb b)].
  - split; [|cbn [owned]; rewrite Hd; apply elem_of_cons; by left]. apply (ready_platform _ _ _ p); [done..| |].
    + intros t Ht. apply list_elem_of_fmap in Ht as (c & -> & _). by exists c.
    + intros c Hc. right. exists (SyncDigest c). split; [|done]. apply list_elem_of_fmap. exists c. split; [done|].
      unfold child_objects in Hc. by rewrite E in Hc.
  - destruct (ly_manifest layer) as [dm|] eqn:Em.
    + unfold src_manifest. destruct (src_object src dm) as [mo|e|] eqn:Er; [|done..]. cbn [mbind res_bind and_then].
      destruct (to_enum mo); cbn [and_then]; try done. split; [|cbn [owned]; rewrite Hd; apply elem_of_cons; by left].
      eapply ready_layer; [done..|]. apply ready_object; [by apply Hsrc|by left].
    + split; [|cbn [owned layer_annotations]; rewrite Hd; apply elem_of_cons; by left].
      eapply ready_annotations; [done..|]. intros c Hc. right. unfold child_objects in Hc. rewrite E in Hc. cbn [Enum_child_objects] in Hc.
      unfold Layer_child_objects in Hc. by rewrite Em in Hc.
  - split; [|cbn [owned]; rewrite Hd; apply elem_of_cons; by left]. apply (ready_manifest _ _ _ m); [done..|]. split.
    + intros a Ha. apply list_elem_of_fmap in Ha as (e & -> & He). apply list_elem_of_In, List.filter_In in He as [He Hbl].
      apply list_elem_of_In in He. destruct (source_entries Hsrc _ _ _ _ Hr E He Hbl). eexists. by apply entry_aims_start.
    + intros c Hc. right. unfold child_objects in Hc. rewrite E in Hc. apply bset_extend_elem in Hc as [Hc%elem_of_nil|Hc]; [done|].
      apply list_elem_of_fmap in Hc as (e & -> & He). exists (entry_future e). split; [apply list_elem_of_fmap; by exists e|].
      apply list_elem_of_In, List.filter_In in He as [He Hbl]. apply list_elem_of_In in He.
      destruct (source_entries Hsrc _ _ _ _ Hr E He Hbl). by apply entry_aims_start.
Qed.
Abbreviation advances s r s' d t := (advance s r s' (ready s' d) (fun _ => settled s' d) (owned t) owned).
Lemma begin_step s d obj t : source_ok -> state_ok s -> src_object src d = Ok obj -> fits d obj -> (forall b, to_enum obj <> ObjBlob b) ->
  (forall x, x ∈ owned t -> x = d) -> advances s (begin_object src obj) s d t.
Proof.
  intros Hsrc Hok Hr Hf Hb Ht. pose proof (begin_ready s d obj Hsrc Hr Hf Hb) as H.
  destruct (begin_object src obj) as [t'|[result|e|]]; cbn [advance]; try done. destruct H as [Hready Hin].
  split_and!; [done..|]. split; [|auto]. intros x Hx. right. by rewrite (Ht x Hx).
Qed.
Lemma object_step s d obj r s' : source_ok -> state_ok s -> fits d obj -> origin s d obj -> sync_object policy src obj s = (r, s') ->
  advances s r s' d (SyncObject obj).
Proof.
  intros Hsrc Hok Hf Hor. unfold sync_object. destruct (to_enum obj) as [p|layer|m|b] eqn:E; cycle 3.
  { intros [= <- <-]. cbn [advance]. destruct Hf as [Hd Hk]. assert (d = bl_payload b) as ->.
    { unfold Object_digest in Hd. rewrite E in Hd. destruct (digest_strategy _); [by injection Hd|done]. }
    rewrite E in Hk. split_and!; [done..| |by apply passes_same]. apply ready_blob; [done|]. split_and!; [split; [done|by rewrite E]|done|].
    destruct Hor as [Hs|?]; [left; by apply Hsrc|by right]. }
  all: destruct (Object_digest sha256 obj) as [d'|e|] eqn:Ed; [|by intros [= <- <-]..];
    assert (d' = d) as -> by (destruct Hf; congruence);
    (case_bool_decide as Hin; [intros [= <- <-]; cbn [advance]; split_and!; [done..|by right|by apply passes_same]|]);
    assert (forall b, to_enum obj <> ObjBlob b) as Hb by (by rewrite E);
    destruct (process_ok d s Hok) as [Hok' Hle]; [by intros Hk%(not_blob_kind d obj Hf Hb)|];
    (assert (forall x, x ∈ processed (process d s) -> x ∈ processed s \/ x = d) as Hproc
       by (cbn [process processed]; intros x [?%elem_of_singleton|?]%elem_of_union; auto));
    destruct (check_existing_objects policy) eqn:Ec; intros [= <- <-]; cbn [advance];
    [split_and!; [done..|apply ready_exists; [done|by eapply origin_le|done]|]; (split; [by intros x ?%elem_of_nil|]); cbn [owned];
       rewrite (own_digest_fits d) by done; intros x [?| ->]%Hproc; [by left|right; right; by apply list_elem_of_singleton] |];
    (pose proof (begin_ready (process d s) d obj Hsrc (from_source _ _ _ Hf Hor (or_introl Ec)) Hf Hb) as H;
     destruct (begin_object src obj) as [t'|[result|e|]]; cbn [advance]; try done; destruct H as [Hready Hown];
     split_and!; [done..|]; split; [by intros x ?%elem_of_nil|intros x [?| ->]%Hproc; auto]).
Qed.
Lemma finish_step now s d obj result r s' : source_ok -> state_ok s -> src_object src d = Ok obj -> (forall b, to_enum obj <> ObjBlob b) ->
  (forall c, c ∈ child_objects obj -> settled s c) -> finish now obj result s = (r, s') ->
  advance s r s' (ready s' d) (fun _ => settled s' d) (own_digest obj) owned.
Proof.
  intros Hsrc Hok Hr Hb Hc. destruct (source_fits Hsrc _ _ Hr) as [Hf Hw]. unfold finish, on_dest.
  destruct (write_object now obj (dest s)) as [q σ'] eqn:E. cbn [fst snd]. intros [= <- <-].
  apply (write_ok _ _ d) in E as (Hok' & Hle & Hst); [|done|done|by left|by right; exists obj|].
  - destruct q as [[]|e|]; cbn [and_then advance]; try done. split_and!; [done..|eapply not_blob_whole; [done..|by apply Hst]|].
    split; [|intros x Hx; by left]. rewrite (own_digest_fits d) by done. intros x ->%list_elem_of_singleton. left. by apply Hst.
  - intros obj' c Hr' Hin. apply Hc. congruence.
Qed.
Lemma advance_bind {A A' R R'} s (r : A + res SpfsError R) s' (ready : A -> Prop) (ready' : A' -> Prop) goal goal' own own' own1 own1'
    (f : A -> A') (g : R -> A' + res SpfsError R') base :
  advance s r s' ready goal own own1 ->
  (forall x, x ∈ own' -> x ∈ base \/ x ∈ own) -> (forall a x, x ∈ base \/ x ∈ own1 a -> x ∈ own1' (f a)) ->
  (forall a, ready a -> le s s' -> ready' (f a)) ->
  (forall result, goal result -> state_ok s' -> le s s' -> passes s s' base base -> advance s (g result) s' ready' goal' base own1') ->
  advance s (match r with inl a => inl (f a) | inr r => and_then r g end) s' ready' goal' own' own1'.
Proof.
  intros H Hbase Hown Hready Hresult. destruct r as [a|[result|e|]]; cbn [advance and_then] in *; [| |done..];
    destruct H as (Hok & Hle & Hg & Hp1 & Hp2).
  - split_and!; [done|done|by apply Hready|]. split.
    + intros x [Hx|Hx]%Hbase; [right; apply Hown; by left|destruct (Hp1 x Hx); auto].
    + intros x Hx. destruct (Hp2 x Hx) as [|[|]]; auto.
  - assert (passes s s' base base) as Hp by (split; [auto|intros x Hx; destruct (Hp2 x Hx) as [|[|[]%elem_of_nil]]; auto]).
    pose proof (Hresult result Hg Hok Hle Hp) as Hadv. destruct (g result) as [a'|[result'|e|]]; cbn [advance] in *; [| |done..];
      destruct Hadv as (? & ? & ? & Hq1 & Hq2); split_and!; try done; (split; [|done]);
      intros x [Hx|Hx]%Hbase; auto; destruct (Hp1 x Hx) as [|[]%elem_of_nil]; auto.
Qed.
Lemma entry_step now e s c r s' : source_ok -> state_ok s -> entry_aims s c e -> sync_entry policy src now e s = (r, s') ->
  advance s r s' (entry_aims s' c) (fun _ => settled s' c) [] (fun _ => []).
Proof.
  intros Hsrc Hok [He <-]. unfold sync_entry. destruct (sync_blob _ _ _ _ _ _ s) as [q s0] eqn:E.
  apply blob_step in E; [|done..]. intros [= <- <-].
  apply (advance_bind s q s0 _ (entry_aims s0 (bl_payload (ef_blob e))) _ (fun _ => settled s0 (bl_payload (ef_blob e))) [] [] (fun _ => []) (fun _ => [])
    (mkEntryFuture (ef_object e) (ef_blob e)) (fun result => inr (Ok (EntrySynced result))) [] E); [auto|intros a x []; done|by intros a Ha _|].
  intros result Hg Hok' Hle Hp. by split_and!.
Qed.
Lemma flat_map_none {A B} (l : list A) : flat_map (fun _ => @nil B) l = [].
Proof. by induction l. Qed.
Lemma blob_of_not {A} obj (a : A) (f : A -> Enum) : to_enum obj = f a -> (forall b, f a <> ObjBlob b) -> forall b, to_enum obj <> ObjBlob b.
Proof. by intros ->. Qed.
Lemma waits_done {A} ok (aims : Syncing -> Digest -> A -> Prop) s children : waits ok aims s children [] -> forall c, c ∈ children -> settled s c.
Proof. intros [_ Hc] c Hin. destruct (Hc c Hin) as [?|(a & []%elem_of_nil & _)]. done. Qed.
Lemma step_for {A R} (aims : Syncing -> Digest -> A -> Prop) own s a (q : A + res SpfsError R) s' :
  (forall c, aims s c a -> advance s q s' (aims s' c) (fun _ => settled s' c) (own a) own) -> (exists c, aims s c a) ->
  advance s q s' (fun a' => (exists c, aims s' c a') /\ forall c, aims s c a -> aims s' c a') (fun _ => True /\ forall c, aims s c a -> settled s' c)
    (own a) own.
Proof.
  intros Hadv [c Hc]. pose proof (Hadv c Hc) as H. destruct q as [a'|[result|e|]]; cbn [advance] in *; try done;
    destruct H as (? & ? & ? & ?); split_and!; eauto; intros c' Hc'; by destruct (Hadv c' Hc') as (_ & _ & ? & _).
Qed.
Ltac no_blob E := by (intros ?; rewrite E).

Lemma manifest_step path now obj running results s d r s' : source_ok -> state_ok s -> ready s d (ManifestEntries obj running results) ->
  sync_future policy src path now (ManifestEntries obj running results) s = (r, s') -> advances s r s' d (ManifestEntries obj running results).
Proof.
  intros Hsrc Hok Hready. inversion Hready as [| | | | |? ? m ? ? Hr He Hw| | | |]; subst. cbn [sync_future].
  destruct running as [|e0 running]; [apply finish_step; [done..|no_blob He|by eapply waits_done]|].
  destruct (step_nth _ _ _ s) as [q s0] eqn:E. intros [= <- <-].
  apply (join_step entry_ok entry_aims (fun _ _ => True) (fun _ => []) (sync_entry policy src now) entry_ok_le entry_aims_le s (child_objects obj)
    _ _ _ _ (own_digest obj)) in E; [|intros; apply (step_for entry_aims (fun _ => [])); [intros; by eapply entry_step|done]|done|apply mod_length].
  destruct q as [running'|[[result|e|] running']]; cbn [advance and_then owned]; try done; rewrite !flat_map_none, app_nil_r in E;
    [destruct E as (? & ? & ? & ?)|destruct E as [(? & ? & ? & ?) _]]; split_and!; try done; by eapply ready_manifest.
Qed.
Lemma annotations_step path now obj todo results s d r s' : source_ok -> state_ok s -> ready s d (LayerAnnotations obj todo results) ->
  sync_future policy src path now (LayerAnnotations obj todo results) s = (r, s') -> advances s r s' d (LayerAnnotations obj todo results).
Proof.
  intros Hsrc Hok Hready. inversion Hready as [| | | | | | | |? ? layer ? ? Hr He Hc|]; subst. cbn [sync_future].
  destruct todo as [|annotation todo].
  { apply finish_step; [done..|no_blob He|]. intros c Hin. by destruct (Hc c Hin) as [|[]%elem_of_nil]. }
  unfold annotated in Hc. cbn [mbind list_bind] in Hc. unfold Annotation_child_objects in Hc at 1.
  destruct (an_value annotation) as [value|digest]; [|case_bool_decide as Hin]; intros [= <- <-]; cbn [advance owned];
    rewrite ?app_nil_r; (split_and!; [done..| |by apply passes_same]).
  - by eapply ready_annotations.
  - eapply ready_annotations; [done..|]. intros c Hx. destruct (Hc c Hx) as [?|[->%list_elem_of_singleton|?]%elem_of_app]; [by left|by left; right|by right].
  - eapply ready_annotation; [done..|apply ready_digest|]. intros c Hx.
    destruct (Hc c Hx) as [?|[->%list_elem_of_singleton|?]%elem_of_app]; auto.
Qed.
Lemma future_step t path now : source_ok -> forall s d r s', state_ok s -> ready s d t -> sync_future policy src path now t s = (r, s') ->
  advances s r s' d t.
Proof.
  intros Hsrc. revert path. induction t as [t Hown|obj running results IH|obj layer t IH|obj c t todo results IH] using future_ind;
    intros path s d r s' Hok Hready.
  - destruct t as [d0|d0 e|obj|d0 obj|obj blob f|obj running results| | |obj todo results|]; try done;
      try (by apply manifest_step); try (by apply annotations_step); cbn [sync_future]; inversion Hready; subst; try rename d0 into d.
    + case_bool_decide as Hin; intros [= <- <-]; [cbn [advance]; split_and!; [done..|by right|by apply passes_same]|].
      unfold read_object_with_fallback. destruct (src_object src d) as [obj|e|] eqn:Er; [|destruct (check_existing_objects policy) eqn:Ec|done];
        cbn [advance]; try done; (split_and!; [done..| |by apply passes_same]); [|by apply ready_fallback].
      apply ready_object; [by apply Hsrc|by left].
    + destruct (read_object (dest s) d) as [obj|e'|] eqn:Er; intros [= <- <-]; cbn [advance]; try done.
      split_and!; [done..| |by apply passes_same]. apply ready_object; [by apply Hok|right; split; [done|by eapply read_stored]].
    + by apply object_step.
    + destruct (has_object (dest s) d) eqn:Eh; intros [= <- <-].
      * cbn [advance owned]. apply has_object_stored in Eh. split_and!; [done..|by eapply not_blob_whole|]. rewrite (own_digest_fits d) by done.
        split; [|auto]. intros x ->%list_elem_of_singleton. by left.
      * apply has_object_missing in Eh. eapply begin_step; [done|done|by eapply from_source; eauto|done..|].
        cbn [owned]. rewrite (own_digest_fits d) by done. by intros x ->%list_elem_of_singleton.
    + destruct (sync_blob _ _ _ _ _ _ s) as [q s0] eqn:E. apply blob_step in E; [|done..]. intros [= <- <-].
      eapply (advance_bind _ _ _ _ (ready s0 (bl_payload blob)) _ (fun _ => settled s0 (bl_payload blob)) [] [] (fun _ => []) owned (BlobFutureOf obj blob) _ [] E);
        [auto|by intros a x []|intros f' Hf _; by apply ready_blob|].
      intros result Hg Hok' Hle Hp. by split_and!.
  - inversion Hready as [| | | | | |? ? p ? ? Hr He Hall Hc| | |]; subst. cbn [sync_future]. destruct running as [|t0 running].
    { cbn [owned flat_map]. rewrite app_nil_r. apply finish_step; [done..|no_blob He|]. by apply (waits_done future_ok ready). }
    destruct (step_nth _ _ _ s) as [q s0] eqn:E. intros [= <- <-].
    apply (join_step future_ok ready (fun _ _ => True) owned (sync_future policy src (tail path) now)
      future_ok_le (fun s s' c a Hle => ready_le s s' a Hle c) s (child_objects obj) _ _ _ _ (own_digest obj)) in E;
      [|intros; apply (step_for ready owned); [intros; by eapply IH|done]|done|apply mod_length].
    destruct q as [running'|[[result|e|] running']]; cbn [advance and_then owned]; try done;
      [destruct E as (? & ? & [? ?] & ?)|destruct E as [(? & ? & [? ?] & ?) _]]; split_and!; try done; by eapply ready_platform.
  - inversion Hready as [| | | | | | |? ? ? m ? Hr He Hm Ht| |]; subst. cbn [sync_future].
    destruct (sync_future policy src path now t s) as [q s0] eqn:E. intros [= <- <-]. apply (IH path s m) in E; [|done..].
    eapply (advance_bind _ _ _ _ (ready s0 d) _ (fun _ => settled s0 d) _ (owned (LayerManifest obj layer t)) _ owned (LayerManifest obj layer) _ (own_digest obj) E);
      [intros x; cbn [owned]; by rewrite elem_of_app|intros a x; cbn [owned]; by rewrite elem_of_app|intros a Ha _; by eapply ready_layer|].
    intros result Hg Hok' Hle Hp. split_and!; try done. eapply ready_annotations; [done..|]. intros x Hx. unfold child_objects in Hx.
    rewrite He in Hx. cbn [Enum_child_objects] in Hx. unfold Layer_child_objects in Hx. rewrite Hm in Hx.
    apply elem_of_app in Hx as [->%list_elem_of_singleton|Hx]; auto.
  - inversion Hready as [| | | | | | | | |? ? layer ? ? ? ? Hr He Ht Hc]; subst. cbn [sync_future].
    destruct (sync_future policy src path now t s) as [q s0] eqn:E. intros [= <- <-]. apply (IH path s c) in E; [|done..].
    eapply (advance_bind _ _ _ _ (ready s0 d) _ (fun _ => settled s0 d) _ (owned (LayerAnnotation obj c t todo results)) _ owned
      (fun t => LayerAnnotation obj c t todo results) _ (own_digest obj) E);
      [intros x; cbn [owned]; by rewrite elem_of_app|intros a x; cbn [owned]; by rewrite elem_of_app| |].
    + intros a Ha Hle. eapply ready_annotation; [done..|]. intros x Hx. destruct (Hc x Hx) as [?|?]; [left; by eapply settled_le|by right].
    + intros result Hg Hok' Hle Hp. split_and!; try done. eapply ready_annotations; [done..|]. intros x Hx.
      destruct (Hc x Hx) as [?|[-> | ?]]; [left; by eapply settled_le|by left|by right].
Qed.

(** ** Items of an environment *)

Implicit Types (i : ItemFuture time).
(** What an item asks for: a tag that the destination has already may be skipped. *)
Definition asked_for (item : EnvSpecItem) d : Prop :=
  match item with
  | ItemDigest digest => d = digest
  | ItemPartialDigest partial => src_full_digest src partial = Ok d
  | ItemTagSpec spec => check_existing_tags policy = false /\ tag_target <$> sync_resolve_tag (src_tags src) spec = Ok d
  | ItemSpecFile => False
  end.
Definition item_ok s i : Prop :=
  match i with
  | SyncItem _ | ReadTag _ => True
  | PartialFallback partial err => src_full_digest src partial = Err err
  | ItemObject t => future_ok s t
  | ItemTag spec resolved t => sync_resolve_tag (src_tags src) spec = Ok resolved /\ ready s (tag_target resolved) t
  | InsertTag spec resolved _ => sync_resolve_tag (src_tags src) spec = Ok resolved /\ settled s (tag_target resolved)
  end.
Definition pursues s d i : Prop :=
  match i with
  | SyncItem item => asked_for item d
  | PartialFallback partial _ => src_full_digest src partial = Ok d
  | ItemObject t => ready s d t
  | ReadTag spec => tag_target <$> sync_resolve_tag (src_tags src) spec = Ok d
  | ItemTag _ resolved _ | InsertTag _ resolved _ => tag_target resolved = d
  end.
Definition item_owned i : list Digest :=
  match i with ItemObject t | ItemTag _ _ t => owned t | _ => [] end.
(** A tag that was synced has its target. *)
Definition tag_synced s (result : SyncEnvItemResult) : Prop :=
  match result with
  | EnvTag (TagSynced spec _) => exists resolved, sync_resolve_tag (src_tags src) spec = Ok resolved /\ settled s (tag_target resolved)
  | _ => True
  end.
Lemma item_ok_le s s' i : le s s' -> item_ok s i -> item_ok s' i.
Proof. intros Hle. destruct i; cbn [item_ok]; intuition eauto using future_ok_le, ready_le, settled_le. Qed.
Lemma pursues_le s s' d i : le s s' -> pursues s d i -> pursues s' d i.
Proof. intros Hle. destruct i; cbn [pursues]; eauto using ready_le. Qed.
Lemma tag_synced_le s s' result : le s s' -> tag_synced s result -> tag_synced s' result.
Proof. intros Hle. destruct result as [[| |spec r]|r]; cbn [tag_synced]; try done. intros (t & ? & ?). exists t. eauto using settled_le. Qed.
Lemma fallback_ready s d : source_ok ->
  match read_object_with_fallback policy src d with inl t => ready s d t /\ owned t = [] | inr (Ok _) => False | inr _ => True end.
Proof.
  intros Hsrc. unfold read_object_with_fallback. destruct (src_object src d) as [obj|e|] eqn:Er; [|destruct (check_existing_objects policy) eqn:Ec|];
    try done; (split; [|done]); [|by apply ready_fallback].
  apply ready_object; [by apply Hsrc|by left].
Qed.
Lemma with_tags_ok tags s : state_ok s -> state_ok (mkSyncing tags (dest s) (processed s)) /\ le s (mkSyncing tags (dest s) (processed s)).
Proof. intros [? ? ?]. split; split; auto. Qed.
Abbreviation item_advances s q s' i := (advance s q s' (fun i' => item_ok s' i' /\ forall d, pursues s d i -> pursues s' d i')
  (fun result => tag_synced s' result /\ forall d, pursues s d i -> settled s' d) (item_owned i) item_owned).
Ltac advanced := refine (conj _ (conj _ (conj (conj _ _) _))).
Lemma as_item_step s d i : source_ok -> state_ok s -> item_owned i = [] -> (forall x, pursues s x i -> x = d) ->
  item_advances s (as_item (read_object_with_fallback policy src d)) s i.
Proof.
  intros Hsrc Hok Hown Hp. pose proof (fallback_ready s d Hsrc) as H.
  destruct (read_object_with_fallback policy src d) as [t|[r|e|]]; cbn [as_item and_then advance]; try done. destruct H as [Hr Ho].
  advanced; [done..|by exists d|by intros x ->%Hp|cbn [item_owned]; rewrite Hown, Ho; by apply passes_same].
Qed.
Lemma item_step path now s i r s' : source_ok -> state_ok s -> item_ok s i -> sync_env_item policy src path now i s = (r, s') ->
  item_advances s r s' i.
Proof.
  intros Hsrc Hok Hi. destruct i as [[spec|partial|d|]|partial err|t|spec|spec resolved t|spec resolved result]; cbn [sync_env_item].
  - destruct (check_existing_tags policy) eqn:Ec; [destruct (sync_resolve_tag (dest_tags s) spec)|]; intros [= <- <-]; cbn [advance]; try done;
      (advanced; [done..| |by apply passes_same]); intros d [Hc Hd]; first [congruence|done].
  - destruct (src_full_digest src partial) as [d|e|] eqn:Ed; [|destruct (check_existing_objects policy) eqn:Ec|]; intros [= <- <-]; try done.
    + apply as_item_step; [done..|]. cbn [pursues asked_for]. rewrite Ed. by intros x [= ->].
    + cbn [advance]. advanced; [done..|by apply passes_same].
  - intros [= <- <-]. cbn [advance]. advanced; [done..|by exists d| |by apply passes_same]. intros x ->. apply ready_digest.
  - intros [= <- <-]. cbn [advance]. advanced; [done..|by apply passes_same].
  - destruct (resolve_full_digest (dest s) partial) as [d|e|] eqn:Ed; intros [= <- <-]; try done.
    apply as_item_step; [done..|]. cbn [pursues item_ok] in *. by rewrite Hi.
  - destruct Hi as [d0 Hd0]. destruct (sync_future policy src path now t s) as [q s0] eqn:E. intros [= <- <-].
    assert (forall d, ready s d t -> advances s q s0 d t) as Hadv by (intros; by eapply future_step).
    pose proof (Hadv d0 Hd0) as H. destruct q as [t'|[result|e|]]; cbn [as_item and_then advance] in *; try done;
      destruct H as (Hok' & Hle & Hr & Hp); advanced; try done; [by exists d0|..]; intros d Hd; by destruct (Hadv d Hd) as (_ & _ & ? & _).
  - destruct (sync_resolve_tag (src_tags src) spec) as [resolved|e|] eqn:Er; intros [= <- <-]; cbn [and_then advance]; try done.
    advanced; [done..|split; [done|apply ready_digest]| |by apply passes_same]. cbn [pursues]. rewrite Er. by intros d [= ->].
  - destruct Hi as [Hr Ht]. destruct (sync_future policy src path now t s) as [q s0] eqn:E. intros [= <- <-].
    apply (future_step t path now Hsrc _ (tag_target resolved)) in E; [|done..].
    destruct q as [t'|[result|e|]]; cbn [and_then advance] in *; try done; destruct E as (Hok' & Hle & Hset & Hp); by advanced.
  - destruct Hi as [Hr Ht]. destruct (sync_insert_tag (dest_tags s) resolved) as [q tags]. intros [= <- <-].
    destruct (with_tags_ok tags s Hok) as [Hok' Hle]. destruct q as [[]|e|]; cbn [and_then advance]; try done.
    advanced; [done..|exists resolved; split; [done|by eapply settled_le]| |by apply passes_same].
    intros d <-. by eapply settled_le.
Qed.

(** ** The environment *)

Definition settled_up_to s (running : list (ItemFuture time)) : Prop :=
  forall x, x ∈ processed s -> stored (dest s) x \/ x ∈ flat_map item_owned running.
Lemma passes_settled s s' running running' : le s s' -> settled_up_to s running ->
  passes s s' ([] ++ flat_map item_owned running) ([] ++ flat_map item_owned running') -> settled_up_to s' running'.
Proof.
  intros Hle Hs [Hp1 Hp2] x Hx. destruct (Hp2 x Hx) as [Hx'|[|]]; [|by left|by right].
  destruct (Hs x Hx') as [?|Ho]; [left; by apply Hle|]. destruct (Hp1 x Ho); auto.
Qed.
Lemma sync_items_spec schedule children fuel step running results s out s' : source_ok -> state_ok s ->
  waits item_ok pursues s children running -> settled_up_to s running -> (forall r, r ∈ results -> tag_synced s r) ->
  sync_items policy src schedule fuel step running results s = Some (Ok out, s') ->
  state_ok s' /\ le s s' /\ (forall c, c ∈ children -> settled s' c) /\ settled_up_to s' [] /\ (forall r, r ∈ out -> tag_synced s' r).
Proof.
  intros Hsrc. revert step running results s. induction fuel as [|fuel IH]; intros step running results s Hok Hw Hup Htags; cbn [sync_items];
    (destruct running as [|i0 running]; [intros [= <- <-]; split_and!; try done; by eapply waits_done|]); [done|].
  destruct (schedule step) as [path now]. destruct (step_nth _ _ _ s) as [q s0] eqn:E.
  apply (join_step item_ok pursues tag_synced item_owned (sync_env_item policy src (tail path) now) item_ok_le
    (fun s s' c a Hle => pursues_le s s' c a Hle) s children _ _ _ _ []) in E; [|intros; by eapply item_step|done|apply mod_length].
  destruct q as [running'|[[result|e|] running']]; [| |done..].
  - destruct E as (Hok' & Hle & Hw' & Hp). intros H. apply IH in H as (? & ? & ? & ? & ?); [|done|done|by eapply passes_settled|].
    { split_and!; try done. by etrans. }
    intros r Hr. eapply tag_synced_le; [done|by apply Htags].
  - destruct E as [(Hok' & Hle & Hw' & Hp) Hgood]. intros H. apply IH in H as (? & ? & ? & ? & ?); [|done|done|by eapply passes_settled|].
    { split_and!; try done. by etrans. }
    intros r [Hr | ->%list_elem_of_singleton]%elem_of_app; [|done]. eapply tag_synced_le; [done|by apply Htags].
Qed.
Lemma waits_env s env children : (forall c, c ∈ children -> exists item, item ∈ env /\ asked_for item c) ->
  waits item_ok pursues s children (SyncItem <$> env).
Proof.
  intros H. split; [intros i Hi; by apply list_elem_of_fmap in Hi as (item & -> & _)|]. intros c Hc. right.
  destruct (H c Hc) as (item & Hin & Hw). exists (SyncItem item). split; [|done]. apply list_elem_of_fmap. by exists item.
Qed.
(** What the source has below a digest, as far as nothing was missing there from
    what the destination stored already. *)
Inductive beneath d : Digest -> Prop :=
| beneath_itself : beneath d d
| beneath_child parent obj x : beneath d parent -> src_object src parent = Ok obj -> x ∈ child_objects obj -> ~ missing x -> beneath d x.
Lemma all_settled s : (forall d, ~ lost d) -> state_ok s -> settled_up_to s [] -> forall d, settled s d -> whole (dest s) d.
Proof.
  intros Hlost Hok Hup d [?|Hd]; [done|]. destruct (Hup d Hd) as [Hs|[]%elem_of_nil]. split; [done|].
  intros Hk. destruct (state_blobs _ Hok d Hd Hk) as [[_ Hp]|Hl]; [by apply Hp|by destruct (Hlost d)].
Qed.
Lemma whole_below s d x : (forall d, ~ lost d) -> state_ok s -> settled_up_to s [] -> settled s d -> beneath d x -> whole (dest s) x.
Proof.
  intros Hlost Hok Hup Hd H. induction H as [|parent obj x _ IH Hr Hin Hm]; [by apply all_settled|].
  apply all_settled; try done. by destruct (state_closed _ Hok parent obj x (proj1 IH) Hr Hin).
Qed.
End sync.
(** C9: a sync that succeeds, whichever future was scheduled when, copies what it
    was asked for, and the targets of the tags it synced: everything that the
    source has below them, with the payloads of blobs, except below what the
    destination lacked, when the sync started, of objects it stored.  It leaves no
    new gaps: what is missing afterwards below an object that is stored was missing
    below one before, so a destination without gaps stays so.  The syncer is new, or
    has only processed what is there. *)
Theorem sync_copies {D time : Type} `{fs : !FileSystem time, !TagSync D time} policy (src : Source D time) kind_of schedule fuel env s results s' :
  source_ok src kind_of -> dest_ok kind_of (dest s) -> (forall d, d ∈ processed s -> whole kind_of (dest s) d) ->
  sync_env policy src schedule fuel env s = Some (Ok results, s') ->
  let copied d := forall x, beneath src (gap src kind_of (dest s)) d x ->
    has_object (dest s') x = true /\ (kind_of x = KindBlob -> has_payload (dest s') x = true) in
  dest_ok kind_of (dest s') /\ (forall c, gap src kind_of (dest s') c -> gap src kind_of (dest s) c) /\
  (forall item d, item ∈ env -> asked_for policy src item d -> copied d) /\
  (forall spec r, EnvTag (TagSynced spec r) ∈ results -> exists tag, sync_resolve_tag (src_tags src) spec = Ok tag /\ copied (tag_target tag)).
Proof.
  intros Hsrc Hdest Hproc Hrun copied. set (missing := gap src kind_of (dest s)). set (lost := fun _ : Digest => False).
  assert (state_ok src kind_of missing lost s) as Hok.
  { split; [done| |by left; auto]. intros d obj c Hd Hr Hc. destruct (decide (has_object (dest s) c = true)) as [Ho|Ho].
    - destruct (decide (has_payload (dest s) c = true)) as [Hp|Hp]; [left; left; split; [by apply has_object_stored|intros _; by apply has_payload_paid]|].
      destruct (decide (kind_of c = KindBlob)) as [Hk|Hk]; [right|left; left; split; [by apply has_object_stored|done]].
      exists d, obj. split_and!; [done..|]. intros [_ Hw]. by apply Hp, has_payload_paid, Hw.
    - right. exists d, obj. split_and!; [done..|]. intros [Hs _]. by apply Ho, has_object_stored. }
  assert (forall children : list Digest, (forall c, c ∈ children -> exists item, item ∈ env /\ asked_for policy src item c) ->
    state_ok src kind_of missing lost s' /\ (forall c, c ∈ children -> settled kind_of s' c) /\ settled_up_to s' [] /\
    forall r, r ∈ results -> tag_synced src kind_of s' r) as Hsync.
  { intros children Hch. apply (sync_items_spec policy src kind_of missing lost schedule children) in Hrun as (? & _ & ? & ? & ?); [by split_and!|done|done|by apply waits_env|..].
    - intros x Hx. left. by apply Hproc.
    - by intros r ?%elem_of_nil. }
  destruct (Hsync []) as (Hok' & _ & Hup & Htags); [by intros c ?%elem_of_nil|].
  assert (forall d, settled kind_of s' d -> copied d) as Hcopied.
  { intros d Hd x Hx. destruct (whole_below src kind_of missing lost s' d x) as [Hs Hp]; try done; [by intros ? []|].
    split; [by apply has_object_stored|]. intros Hk. by apply has_payload_paid, Hp. }
  split_and!; [apply Hok'| | |].
  - intros c (d & obj & Hd & Hr & Hc & Hw). destruct (state_closed _ _ _ _ _ Hok' d obj c Hd Hr Hc) as [Hs|]; [|done].
    destruct Hw. apply (all_settled src kind_of missing lost); [by intros ? []|done..].
  - intros item d Hin Hw. apply Hcopied. destruct (Hsync [d]) as (_ & Hd & _).
    + intros c ->%list_elem_of_singleton. by exists item.
    + by apply Hd, list_elem_of_singleton.
  - intros spec r Hin. destruct (Htags _ Hin) as (tag & Hr & Ht). exists tag. split; [done|by apply Hcopied].
Qed.
