(* ===== verification/SyncEnds.v ===== *)
(** * Syncing ends

    A sync ([Sync]) returns, whatever the objects refer to, whatever the destination
    lacks and whichever future is scheduled, and takes nothing from the
    destination, however it returns.  The blobs that it processed have their
    payloads. *)

From stdpp Require Import gmap.
From S2P Require Import CleanTheory Prelude Strings Collections Encoding TagSpec Tags Entry Manifest Objects ObjectStore Sync SyncTheory.

#[local] Set Warnings "-register-all".

(** ** What a future has left to do *)

Definition payload_left (f : PayloadFuture) : nat := match f with PayloadStart => 3 | PayloadExists => 2 | PayloadWrite => 1 end.
Definition blob_left (f : BlobFuture) : nat :=
  match f with
  | BlobStart => 9 | BlobExists => 8 | BlobPayloadExists => 7 | BlobSkip => 1
  | BlobPayload f => 2 + payload_left f | BlobWrite _ => 2 | BlobProcess _ => 1
  end.
Definition annotations_left (todo : list Annotation) : nat := 1 + 15 * length todo.
(** What a new object will have left, once it is known to be missing. *)
Definition object_left (obj : Object) : nat :=
  match to_enum obj with
  | ObjPlatform p => 1 + 13 * length (pf_layers p)
  | ObjLayer layer => 1 + annotations_left (ly_annotations layer)
  | ObjManifest m => 1 + 9 * length (List.filter (fun e => is_blob (ge_kind e)) (iter_entries m))
  | ObjBlob _ => 10
  end.
Fixpoint left_of (t : SyncFuture) : nat :=
  match t with
  | SyncDigest _ => 13
  | ReadFallback _ _ => 12
  | SyncObject obj => match to_enum obj with ObjBlob _ => 11 | _ => 1 end
  | ObjectExists _ obj => 1 + object_left obj
  | BlobFutureOf _ _ f => 1 + blob_left f
  | ManifestEntries _ running _ => 1 + list_sum (List.map (fun e => blob_left (ef_future e)) running)
  | PlatformLayers _ running _ => 1 + list_sum (List.map left_of running)
  | LayerManifest _ layer t => annotations_left (ly_annotations layer) + left_of t
  | LayerAnnotations _ todo _ => annotations_left todo
  | LayerAnnotation _ _ t todo _ => annotations_left todo + left_of t
  end.
Lemma sum_replace {A} (f : A -> nat) l1 a l2 l' :
  list_sum (List.map f (l1 ++ l' ++ l2)) + f a = list_sum (List.map f (l1 ++ a :: l2)) + list_sum (List.map f l').
Proof. rewrite !List.map_app, !list_sum_app. change (list_sum (List.map f (a :: l2))) with (f a + list_sum (List.map f l2)). lia. Qed.
Lemma sum_const {A B} (f : B -> nat) (g : A -> B) n l : (forall a, f (g a) = n) -> list_sum (List.map f (g <$> l)) = n * length l.
Proof. intros H. induction l as [|a l IH]; cbn; [lia|]. unfold list_sum in IH. rewrite IH, H. lia. Qed.

Lemma payload_left_pos f : 0 < payload_left f.
Proof. destruct f; cbn; lia. Qed.
Lemma blob_left_pos f : 0 < blob_left f.
Proof. destruct f; cbn; lia. Qed.
Lemma left_of_pos t : 0 < left_of t.
Proof. destruct t as [| |obj| | | | | | |]; cbn; try lia; [destruct (to_enum obj); lia|..]; unfold annotations_left; lia. Qed.

Section ends.
Context {D time : Type} `{fs : !FileSystem time, !TagSync D time} (policy : SyncPolicy) (src : Source D time) (kind_of : Digest -> ObjectKind).
Abbreviation Syncing := (Syncing D time).
(** Whatever was missing when the sync started. *)
Abbreviation anything := (fun _ : Digest => True).
Abbreviation state_ok := (state_ok src kind_of anything anything).
Abbreviation ready := (ready policy src kind_of anything).
Abbreviation le := (le src kind_of).
Implicit Types (s : Syncing) (d : Digest) (t : SyncFuture).

Lemma payload_less d f s f' s' : sync_payload policy src d f s = (inl f', s') -> payload_left f' < payload_left f.
Proof.
  destruct f; cbn [sync_payload].
  - case_bool_decide; [done|]. intros [= <- _]. destruct (check_existing_payloads policy); cbn; lia.
  - destruct (has_payload _ _); [done|]. intros [= <- _]. cbn. lia.
  - destruct (src_payload src d) as [payload|e|]; [|done..]. destruct (on_dest _ s) as [[[d' n]|e|] s0]; cbn [and_then]; [case_bool_decide|..]; done.
Qed.
Lemma blob_less now obj blob f s f' s' : sync_blob policy src now obj blob f s = (inl f', s') -> blob_left f' < blob_left f.
Proof.
  destruct f; cbn [sync_blob].
  - case_bool_decide; [done|]. intros [= <- _]. destruct (check_existing_objects policy); cbn; lia.
  - intros [= <- _]. destruct (has_object _ _); cbn; lia.
  - intros [= <- _]. destruct (has_payload _ _); cbn; lia.
  - done.
  - destruct (sync_payload _ _ _ _ s) as [q s0] eqn:E. destruct q as [f0|[r|e|]]; cbn [and_then]; [|intros [= <- _]; pose proof (payload_left_pos future); cbn; lia|done..].
    intros [= <- _]. apply payload_less in E. cbn. lia.
  - destruct (on_dest _ s) as [[[]|e|] s0]; cbn [and_then]; [|done..]. intros [= <- _]. cbn. lia.
  - done.
Qed.

(** ** The digests that may still be processed *)

Context (start : Syncing).
Definition universe : gset Digest := dom (objects (src_repo src)) ∪ dom (objects (dest start)).
Definition unprocessed s : nat := stdpp.base.size (universe ∖ processed s).
Definition known s : Prop := le start s.
Lemma unprocessed_le s s' : le s s' -> unprocessed s' <= unprocessed s.
Proof. intros [Hp _ _ _]. unfold unprocessed. apply subseteq_size. intros x [? ?]%elem_of_difference. apply elem_of_difference. auto. Qed.
Lemma src_object_in d obj : src_object src d = Ok obj -> d ∈ universe.
Proof.
  unfold src_object, read_object. intros H. apply elem_of_union_l, elem_of_dom. destruct (objects (src_repo src) !! d); [by eexists|done].
Qed.
Lemma origin_in s d obj : known s -> kind_of d <> KindBlob -> origin policy src s d obj -> d ∈ universe.
Proof.
  intros Hs Hk [Hr|[_ Hst]]; [by eapply src_object_in|]. destruct (le_new _ _ _ _ Hs d Hst) as [Ho|[?|[o Hr]]]; [|done|by eapply src_object_in].
  by apply elem_of_union_r, elem_of_dom.
Qed.
Definition shorter s w s' w' : Prop := unprocessed s' < unprocessed s \/ unprocessed s' <= unprocessed s /\ w' < w.
Lemma process_shorter s d w w' : d ∈ universe -> d ∉ processed s -> shorter s w (process d s) w'.
Proof. intros Hu Hd. left. unfold unprocessed. apply subset_size. cbn [process processed]. set_solver. Qed.
Lemma begin_left obj t : begin_object src obj = inl t -> left_of t <= object_left obj.
Proof.
  unfold begin_object, object_left. destruct (to_enum obj) as [p|layer|m|b].
  - intros [= <-]. cbn [left_of]. by rewrite (sum_const left_of SyncDigest 13).
  - destruct (ly_manifest layer) as [dm|]; [|intros [= <-]; cbn [left_of layer_annotations]; lia].
    unfold src_manifest. destruct (src_object src dm) as [mo|e|]; [|done..]. cbn [mbind res_bind].
    destruct (to_enum mo) eqn:E; cbn [and_then]; try done. intros [= <-]. cbn [left_of]. rewrite E. lia.
  - intros [= <-]. cbn [left_of]. by rewrite (sum_const (fun e => blob_left (ef_future e)) entry_future 9).
  - by intros [= <-].
Qed.
Lemma process_object_shorter s d obj w w' : known s -> fits kind_of d obj -> origin policy src s d obj -> (forall b, to_enum obj <> ObjBlob b) ->
  d ∉ processed s -> shorter s w (process d s) w'.
Proof. intros Hs Hf Hor Hb. apply process_shorter, (origin_in s d obj); [done| |done]. by eapply not_blob_kind. Qed.
(** A step leaves less to do. *)
Definition lessens {A} (weight : A -> nat) s (a : A) (q : A + res SpfsError SyncObjectResult) s' : Prop :=
  match q with inl a' => shorter s (weight a) s' (weight a') | inr _ => True end.
Lemma same_shorter s w w' : w' < w -> shorter s w s w'.
Proof. by right. Qed.
Lemma object_shorter s d obj q s' : known s -> fits kind_of d obj -> origin policy src s d obj -> sync_object policy src obj s = (q, s') ->
  lessens left_of s (SyncObject obj) q s'.
Proof.
  intros Hs Hf Hor. unfold sync_object.
  destruct (to_enum obj) as [p|layer|m|b] eqn:E; [| | |intros [= <- <-]; apply same_shorter; cbn [left_of]; rewrite E; cbn; lia].
  all: assert (forall b, to_enum obj <> ObjBlob b) as Hb by (by rewrite E); pose proof (proj1 Hf) as Hd; rewrite Hd;
    (case_bool_decide as Hin; [by intros [= <- <-]|]); intros [= <- <-];
    destruct (check_existing_objects policy); [by eapply process_object_shorter|];
    destruct (begin_object src obj) as [t|r]; [by eapply process_object_shorter|done].
Qed.
(** A step of a future: it has less left, or it returns. *)
Definition steps_down {A R} (weight : A -> nat) s (w : nat) (q : A + res SpfsError R) s' : Prop :=
  match q with inl a' => shorter s w s' (weight a') | inr (Ok _) => unprocessed s' <= unprocessed s | inr _ => True end.
Lemma shorter_plus s w s' w' k k' : shorter s w s' w' -> k' <= k -> shorter s (k + w) s' (k' + w').
Proof. intros [?|[? ?]] ?; [by left|right; lia]. Qed.
Lemma join_shorter {A R} (weight : A -> nat) (step : A -> Syncing -> (A + res SpfsError R) * Syncing) running i s r s' :
  (forall a q s', a ∈ running -> step a s = (q, s') -> steps_down weight s (weight a) q s') -> (forall a, 0 < weight a) ->
  i < length running -> step_nth step i running s = (r, s') ->
  let total l := list_sum (List.map weight l) in
  match r with
  | inl running' => shorter s (total running) s' (total running')
  | inr (Ok _, running') => shorter s (total running) s' (total running')
  | inr _ => True
  end.
Proof.
  intros Hstep Hpos Hi H total. apply step_nth_spec in H as (l1 & a & l2 & q & -> & Hs & ->); [|done].
  assert (a ∈ l1 ++ a :: l2) as Ha by (rewrite elem_of_app, elem_of_cons; auto).
  specialize (Hstep _ _ _ Ha Hs). pose proof (Hpos a). unfold total.
  destruct q as [a'|[x|e|]]; cbn [steps_down] in Hstep; [| |done..].
  - pose proof (sum_replace weight l1 a l2 [a']) as Hsum. change (list_sum (List.map weight [a'])) with (weight a' + 0) in Hsum.
    destruct Hstep as [?|[? ?]]; [by left|right]. cbn [app] in Hsum. lia.
  - pose proof (sum_replace weight l1 a l2 []) as Hsum. change (list_sum (List.map weight [])) with 0 in Hsum.
    right. cbn [app] in Hsum. lia.
Qed.
Lemma steps_down_le {A R} (weight : A -> nat) s w (q : A + res SpfsError R) s' P Q f g :
  (match q with inl a' => shorter s w s' (weight a') | inr _ => True end) -> advance src kind_of anything anything s q s' P Q f g -> steps_down weight s w q s'.
Proof. destruct q as [a'|[x|e|]]; cbn [steps_down advance]; try done. intros _ (_ & Hle & _). by apply unprocessed_le. Qed.
Lemma manifest_shorter path now obj running results s d q s' : source_ok src kind_of -> state_ok s -> ready s d (ManifestEntries obj running results) ->
  sync_future policy src path now (ManifestEntries obj running results) s = (q, s') ->
  match q with inl t' => shorter s (left_of (ManifestEntries obj running results)) s' (left_of t') | inr _ => True end.
Proof.
  intros Hsrc Hok Hready. cbn [sync_future]. inversion Hready as [| | | | |? ? m ? ? Hr He Hw| | | |]; subst. destruct running as [|e0 running].
  { unfold finish. destruct (on_dest _ s) as [[[]|e|] s0]; cbn [and_then]; by intros [= <- _]. }
  destruct (step_nth _ _ _ s) as [q0 s0] eqn:E. intros [= <- <-].
  apply (join_shorter (fun e => blob_left (ef_future e))) in E; [|clear E|intros; apply blob_left_pos|apply mod_length].
  - destruct q0 as [running'|[[r|e|] running']]; cbn [and_then left_of]; try done; by apply (shorter_plus _ _ _ _ 1 1) in E.
  - intros a q s' Ha Ea. destruct (proj1 Hw a Ha) as [c Hc].
    pose proof (entry_step policy src kind_of anything anything now a s c q s' Hsrc Hok Hc Ea) as Hadv. eapply steps_down_le; [|exact Hadv].
    unfold sync_entry in Ea. destruct (sync_blob _ _ _ _ _ _ s) as [q1 s1] eqn:E. injection Ea as <- <-.
    destruct q1 as [f'|[r|e|]]; cbn [and_then advance] in *; try done. apply blob_less in E. right. split; [apply unprocessed_le, Hadv|done].
Qed.
Lemma future_shorter t path now : source_ok src kind_of -> forall s d q s', state_ok s -> known s -> ready s d t ->
  sync_future policy src path now t s = (q, s') -> match q with inl t' => shorter s (left_of t) s' (left_of t') | inr _ => True end.
Proof.
  intros Hsrc. revert path. induction t as [t Hown|obj running results IH|obj layer t IH|obj c t todo results IH] using future_ind;
    intros path s d q s' Hok Hs Hready.
  - destruct t as [d0|d0 e|obj|d0 obj|obj blob f|obj running results| | |obj todo results|]; try done.
    + cbn [sync_future]. case_bool_decide; intros [= <- <-]; [done|]. unfold read_object_with_fallback.
      destruct (src_object src d0) as [obj|e|]; [|destruct (check_existing_objects policy)|]; try done; apply same_shorter; cbn; [|lia].
      destruct (to_enum obj); lia.
    + cbn [sync_future]. intros [= <- <-]. destruct (read_object (dest s) d0) as [obj|e'|]; try done. apply same_shorter. cbn.
      destruct (to_enum obj); lia.
    + inversion Hready; subst. by eapply object_shorter.
    + cbn [sync_future]. intros [= <- <-]. destruct (has_object _ _); [done|]. destruct (begin_object src obj) as [t|r] eqn:E; [|done].
      apply begin_left in E. apply same_shorter. cbn [left_of]. lia.
    + cbn [sync_future]. pose proof (future_step policy src kind_of anything anything (BlobFutureOf obj blob f) path now Hsrc s d q s' Hok Hready) as Hadv.
      cbn [sync_future] in Hadv. destruct (sync_blob _ _ _ _ _ _ s) as [q0 s0] eqn:E. intros [= <- <-]. specialize (Hadv eq_refl).
      destruct q0 as [f'|[r|e|]]; cbn [and_then advance] in *; try done. right. apply blob_less in E. cbn [left_of].
      split; [apply unprocessed_le, Hadv|lia].
    + by eapply manifest_shorter.
    + cbn [sync_future]. destruct todo as [|annotation todo].
      { unfold finish. destruct (on_dest _ s) as [[[]|e|] s0]; cbn [and_then]; by intros [= <- _]. }
      destruct (an_value annotation); [|case_bool_decide]; intros [= <- <-]; apply same_shorter; cbn [left_of]; unfold annotations_left; cbn [length]; lia.
  - cbn [sync_future]. inversion Hready as [| | | | | |? ? p ? ? Hr He Hall Hc| | |]; subst. destruct running as [|t0 running].
    { unfold finish. destruct (on_dest _ s) as [[[]|e|] s0]; cbn [and_then]; by intros [= <- _]. }
    destruct (step_nth _ _ _ s) as [q0 s0] eqn:E. intros [= <- <-].
    apply (join_shorter left_of) in E; [|clear E|intros; apply left_of_pos|apply mod_length].
    + destruct q0 as [running'|[[r|e|] running']]; cbn [and_then left_of]; try done; by apply (shorter_plus _ _ _ _ 1 1) in E.
    + intros a q s' Ha Ea. destruct (Hall a Ha) as [c Hc'].
      pose proof (future_step policy src kind_of anything anything a (tail path) now Hsrc s c q s' Hok Hc' Ea) as Hadv. eapply steps_down_le; [|exact Hadv].
      by eapply IH.
  - inversion Hready as [| | | | | | |? ? ? m ? Hr He Hm Ht| |]; subst. cbn [sync_future].
    destruct (sync_future policy src path now t s) as [q0 s0] eqn:E. intros [= <- <-].
    pose proof (future_step policy src kind_of anything anything t path now Hsrc s m q0 s0 Hok Ht E) as Hadv. apply (IH path s m) in E; [|done..].
    destruct q0 as [t'|[r|e|]]; cbn [and_then left_of advance] in *; try done; [by apply shorter_plus|].
    right. split; [apply unprocessed_le, Hadv|]. pose proof (left_of_pos t). unfold layer_annotations. cbn [left_of]. lia.
  - inversion Hready as [| | | | | | | | |? ? layer ? ? ? ? Hr He Ht Hc]; subst. cbn [sync_future].
    destruct (sync_future policy src path now t s) as [q0 s0] eqn:E. intros [= <- <-].
    pose proof (future_step policy src kind_of anything anything t path now Hsrc s c q0 s0 Hok Ht E) as Hadv. apply (IH path s c) in E; [|done..].
    destruct q0 as [t'|[r|e|]]; cbn [and_then left_of advance] in *; try done; [by apply shorter_plus|].
    right. split; [apply unprocessed_le, Hadv|]. pose proof (left_of_pos t). lia.
Qed.

(** ** The environment *)

Definition item_left (i : ItemFuture time) : nat :=
  match i with
  | SyncItem _ => 17 | PartialFallback _ _ => 15 | ItemObject t => 1 + left_of t
  | ReadTag _ => 16 | ItemTag _ _ t => 2 + left_of t | InsertTag _ _ _ => 1
  end.
Lemma item_left_pos i : 0 < item_left i.
Proof. destruct i; cbn; lia. Qed.
Lemma fallback_left d t : read_object_with_fallback policy src d = inl t -> left_of t <= 12.
Proof.
  unfold read_object_with_fallback. destruct (src_object src d) as [obj|e|]; [|destruct (check_existing_objects policy)|]; try done; intros [= <-]; cbn; [|lia].
  destruct (to_enum obj); lia.
Qed.
Lemma item_shorter path now i s q s' : source_ok src kind_of -> state_ok s -> known s -> item_ok policy src kind_of anything s i ->
  sync_env_item policy src path now i s = (q, s') -> match q with inl i' => shorter s (item_left i) s' (item_left i') | inr _ => True end.
Proof.
  intros Hsrc Hok Hs Hi. assert (forall d w, 14 <= w -> match as_item (time := time) (read_object_with_fallback policy src d) with
    inl i' => shorter s w s (item_left i') | inr _ => True end) as Hread.
  { intros d w Hw. destruct (read_object_with_fallback policy src d) as [t|[r|e|]] eqn:E; cbn [as_item and_then]; try done.
    apply fallback_left in E. apply same_shorter. cbn [item_left]. lia. }
  destruct i as [[spec|partial|d|]|partial err|t|spec|spec resolved t|spec resolved result]; cbn [sync_env_item].
  - intros [= <- <-]. destruct (check_existing_tags policy); [destruct (sync_resolve_tag _ _)|]; try done; apply same_shorter; cbn; lia.
  - intros [= <- <-]. destruct (src_full_digest src partial); [apply Hread; cbn; lia|destruct (check_existing_objects policy)|]; try done.
    apply same_shorter. cbn. lia.
  - intros [= <- <-]. apply same_shorter. cbn. lia.
  - by intros [= <- <-].
  - intros [= <- <-]. destruct (resolve_full_digest (dest s) partial); try done. apply Hread. cbn. lia.
  - destruct Hi as [d Hd]. destruct (sync_future policy src path now t s) as [q0 s0] eqn:E. intros [= <- <-].
    apply (future_shorter t path now Hsrc s d) in E; [|done..]. destruct q0 as [t'|[r|e|]]; cbn [as_item and_then item_left]; try done.
    by apply (shorter_plus _ _ _ _ 1 1).
  - intros [= <- <-]. destruct (sync_resolve_tag _ _); cbn [and_then]; try done. apply same_shorter. cbn. lia.
  - destruct Hi as [_ Hd]. destruct (sync_future policy src path now t s) as [q0 s0] eqn:E. intros [= <- <-].
    pose proof (future_step policy src kind_of anything anything t path now Hsrc s _ q0 s0 Hok Hd E) as Hadv.
    apply (future_shorter t path now Hsrc s (tag_target resolved)) in E; [|done..].
    destruct q0 as [t'|[r|e|]]; cbn [and_then item_left advance] in *; try done; [by apply (shorter_plus _ _ _ _ 2 2)|].
    right. split; [apply unprocessed_le, Hadv|]. pose proof (left_of_pos t). lia.
  - destruct (sync_insert_tag _ _) as [r tags]. intros [= <- _]. by destruct r as [[]|e|].
Qed.
Lemma sync_items_end schedule step running results s : source_ok src kind_of -> state_ok s -> known s ->
  (forall i, i ∈ running -> item_ok policy src kind_of anything s i) ->
  exists fuel outcome, sync_items policy src schedule fuel step running results s = Some outcome.
Proof.
  intros Hsrc. revert step running results s.
  enough (forall a : Syncing * list (ItemFuture time), forall step results, state_ok a.1 -> known a.1 -> (forall i, i ∈ a.2 -> item_ok policy src kind_of anything a.1 i) ->
    exists fuel outcome, sync_items policy src schedule fuel step a.2 results a.1 = Some outcome) as H by (intros; by apply (H (s, running))).
  intros a. pattern a. revert a. apply (lex_ind (fun a => unprocessed a.1) (fun a => list_sum (List.map item_left a.2)) (fun _ => 0)).
  intros [s running] IH step results Hok Hs Hall. cbn [fst snd] in *. destruct running as [|i0 running]; [by exists 0; eexists|].
  destruct (schedule step) as [path now] eqn:Es.
  destruct (step_nth (sync_env_item policy src (tail path) now) (hd 0 path mod length (i0 :: running)) (i0 :: running) s) as [q s0] eqn:E.
  pose proof E as Hstep. pose proof E as Hless. apply (join_shorter item_left) in Hless; [|clear E|apply item_left_pos|apply mod_length]; cycle 1.
  { intros i q' s' Hi Ei. eapply steps_down_le; [by eapply item_shorter; eauto|by eapply item_step; eauto]. }
  apply (join_step src kind_of anything anything (item_ok policy src kind_of anything) (pursues policy src kind_of anything) (tag_synced src kind_of) item_owned (sync_env_item policy src (tail path) now)
    (item_ok_le policy src kind_of anything) (fun s s' c a Hle => pursues_le policy src kind_of anything s s' c a Hle) s [] _ _ _ _ []) in E;
    [|intros; by eapply item_step; eauto|split; [done|by intros c ?%elem_of_nil]|apply mod_length].
  assert (forall running' step' results', state_ok s0 /\ le s s0 /\ (forall i, i ∈ running' -> item_ok policy src kind_of anything s0 i) ->
    shorter s (list_sum (List.map item_left (i0 :: running))) s0 (list_sum (List.map item_left running')) ->
    exists fuel outcome, sync_items policy src schedule fuel step' running' results' s0 = Some outcome) as Hnext.
  { intros running' step' results' (Hok' & Hle & Hall') Hsh. apply (IH (s0, running')); cbn [fst snd]; try done; [|unfold known; by etrans].
    destruct Hsh as [?|[? ?]]; [by left|]. destruct (decide (unprocessed s0 = unprocessed s)); [right; split; [done|by left]|left; lia]. }
  destruct q as [running'|[[r|e|] running']].
  - destruct (Hnext running' (S step) results) as (fuel & outcome & H); [by destruct E as (? & ? & [? _] & _)|done|].
    exists (S fuel), outcome. cbn [sync_items]. by rewrite Es, Hstep.
  - destruct (Hnext running' (S step) (results ++ [r])) as (fuel & outcome & H); [by destruct E as [(? & ? & [? _] & _) _]|done|].
    exists (S fuel), outcome. cbn [sync_items]. by rewrite Es, Hstep.
  - exists 1. eexists. cbn [sync_items]. by rewrite Es, Hstep.
  - exists 1. eexists. cbn [sync_items]. by rewrite Es, Hstep.
Qed.
End ends.

(** ** Nothing is taken away *)

Section adds.
Context {D time : Type} `{fs : !FileSystem time, !TagSync D time} (policy : SyncPolicy) (src : Source D time).
Abbreviation Syncing := (Syncing D time).
Implicit Types (s : Syncing) (d : Digest) (t : SyncFuture).
Record adds s s' : Prop := {
  adds_objects : objects (dest s) ⊆ objects (dest s');
  adds_payloads : forall d, paid (dest s) d -> paid (dest s') d;
  adds_processed : processed s ⊆ processed s';
}.
#[export] Instance adds_preorder : PreOrder adds.
Proof. split; [by split|]. intros a b c [? ? ?] [? ? ?]. split; [by etrans|auto|by etrans]. Qed.
Lemma process_adds d s : adds s (process d s).
Proof. split; [done|done|]. cbn [process processed]. set_solver. Qed.
Lemma write_object_adds now obj s : adds s (on_dest (write_object now obj (dest s)) s).2.
Proof.
  unfold write_object. destruct (Object_digest sha256 obj) as [d|e|]; [|by split..]. destruct (has_object (dest s) d) eqn:E; [by split|].
  destruct (Object_encode [] obj); [|by split..]. destruct (fails WriteObject d); [by split|]. split; cbn; [|done..].
  apply insert_subseteq. apply has_object_missing in E. unfold stored in E. by apply eq_None_not_Some.
Qed.
Lemma payload_adds d f s : adds s (sync_payload policy src d f s).2.
Proof.
  destruct f; cbn [sync_payload]; [by case_bool_decide|by destruct (has_payload _ _)|].
  destruct (src_payload src d) as [payload|e|]; [|done..]. unfold write_data, on_dest. destruct (fails _ _); [by split|]. split; cbn; [done| |done].
  intros x. unfold paid. cbn. intros Hx. destruct (decide (x = sha256 payload)) as [->|]; [rewrite lookup_insert_eq; by eexists|by rewrite lookup_insert_ne].
Qed.
Lemma blob_adds now obj blob f s : adds s (sync_blob policy src now obj blob f s).2.
Proof.
  destruct f; cbn [sync_blob]; try done; [by case_bool_decide|apply process_adds| | |apply process_adds].
  - pose proof (payload_adds (bl_payload blob) future s) as H. by destruct (sync_payload _ _ _ _ s).
  - pose proof (write_object_adds now obj s) as H. by destruct (on_dest _ s).
Qed.
Lemma step_nth_adds {A R} (step : A -> Syncing -> (A + R) * Syncing) l i s : (forall a s, a ∈ l -> adds s (step a s).2) -> adds s (step_nth step i l s).2.
Proof.
  revert i s. induction l as [|a l IH]; intros i s H; [done|]. destruct i as [|i]; cbn [step_nth].
  - specialize (H a s). destruct (step a s) as [[a'|r] s']; apply H, elem_of_cons; by left.
  - specialize (IH i s). destruct (step_nth step i l s) as [[l'|[r l']] s']; apply IH; intros; apply H, elem_of_cons; by right.
Qed.
Lemma finish_adds now obj result s : adds s (finish now obj result s).2.
Proof. unfold finish. pose proof (write_object_adds now obj s) as H. by destruct (on_dest _ s). Qed.
Lemma future_adds t path now s : adds s (sync_future policy src path now t s).2.
Proof.
  revert path s. induction t as [t Hown|obj running results IH|obj layer t IH|obj c t todo results IH] using future_ind; intros path s.
  - destruct t as [d|d e|obj|d obj|obj blob f|obj running results| | |obj todo results|]; try done; cbn [sync_future].
    + by case_bool_decide.
    + unfold sync_object. destruct (to_enum obj); [..|done]; (destruct (Object_digest _ _); [|done..]); (case_bool_decide; [done|]); apply process_adds.
    + pose proof (blob_adds now obj blob f s) as H. by destruct (sync_blob _ _ _ _ _ _ s).
    + destruct running; [apply finish_adds|].
      match goal with |- context [step_nth ?f ?i ?l s] => pose proof (step_nth_adds f l i s) as H; destruct (step_nth f i l s) end. apply H.
      intros a s' _. unfold sync_entry. pose proof (blob_adds now (ef_object a) (ef_blob a) (ef_future a) s') as H'. by destruct (sync_blob _ _ _ _ _ _ s').
    + destruct todo as [|annotation todo]; [apply finish_adds|]. destruct (an_value annotation); [done|by case_bool_decide].
  - cbn [sync_future]. destruct running; [apply finish_adds|].
    match goal with |- context [step_nth ?f ?i ?l s] => pose proof (step_nth_adds f l i s) as H; destruct (step_nth f i l s) end. apply H.
    intros a s' Ha. by apply IH.
  - cbn [sync_future]. specialize (IH path s). by destruct (sync_future _ _ _ _ _ s).
  - cbn [sync_future]. specialize (IH path s). by destruct (sync_future _ _ _ _ _ s).
Qed.
Lemma item_adds path now i s : adds s (sync_env_item policy src path now i s).2.
Proof.
  destruct i as [[spec|partial|d|]|partial err|t|spec|spec resolved t|spec resolved result]; cbn [sync_env_item]; try done.
  - pose proof (future_adds t path now s) as H. by destruct (sync_future _ _ _ _ _ s).
  - pose proof (future_adds t path now s) as H. by destruct (sync_future _ _ _ _ _ s).
  - destruct (sync_insert_tag _ _). by split.
Qed.
Lemma sync_items_adds schedule fuel step running results s outcome s' :
  sync_items policy src schedule fuel step running results s = Some (outcome, s') -> adds s s'.
Proof.
  revert step running results s. induction fuel as [|fuel IH]; intros step running results s; cbn [sync_items];
    (destruct running as [|i0 running]; [by intros [= _ <-]|]); [done|]. destruct (schedule step) as [path now].
  match goal with |- context [step_nth ?f ?i ?l s] => pose proof (step_nth_adds f l i s (fun a s _ => item_adds _ _ a s)) as H; destruct (step_nth f i l s) as [q s0] end.
  cbn [snd] in H. destruct q as [running'|[[r|e|] running']]; [| |by intros [= _ <-]..]; intros Hrun; etrans; [done|by eapply IH|done|by eapply IH].
Qed.
Lemma sync_items_more schedule fuel fuel' step running results s outcome : fuel <= fuel' ->
  sync_items policy src schedule fuel step running results s = Some outcome -> sync_items policy src schedule fuel' step running results s = Some outcome.
Proof.
  revert fuel' step running results s. induction fuel as [|fuel IH]; intros [|fuel'] step running results s Hle; cbn [sync_items]; (destruct running; [done|]);
    try done; try lia. destruct (schedule step) as [path now]. destruct (step_nth _ _ _ s) as [[running'|[[r|e|] running']] s0]; try done; apply IH; lia.
Qed.
End adds.

(** ** Syncing again *)

Section again.
Context {D time : Type} `{fs : !FileSystem time, !TagSync D time} (policy : SyncPolicy) (src : Source D time) (σ : Repo time).
Context (Hpolicy : check_existing_objects policy = true).
Definition has_all (d : Digest) (obj : Object) : Prop :=
  Object_digest sha256 obj = Ok d /\ stored σ d /\ forall blob, to_enum obj = ObjBlob blob -> paid σ d.
(** A future that finds everything there. *)
Definition looks (i : ItemFuture time) : Prop :=
  match i with
  | SyncItem (ItemDigest d) | ItemObject (SyncDigest d) => exists obj, src_object src d = Ok obj /\ has_all d obj
  | ItemObject (SyncObject obj) => exists d, has_all d obj
  | ItemObject (ObjectExists d obj) => stored σ d
  | ItemObject (BlobFutureOf obj blob (BlobStart | BlobExists | BlobPayloadExists | BlobSkip)) => stored σ (bl_payload blob) /\ paid σ (bl_payload blob)
  | _ => False
  end.
Lemma looks_step path now i (s : Syncing D time) q s' : dest s = σ -> looks i -> sync_env_item policy src path now i s = (q, s') ->
  dest s' = σ /\ dest_tags s' = dest_tags s /\ match q with inl i' => looks i' | inr r => exists x, r = Ok x end.
Proof.
  intros Hs Hi. destruct i as [[| |d|]| |t| | |]; try done; [by intros [= <- <-]|]. destruct t as [d| |obj|d obj|obj blob f| | | | |]; try done; cbn [sync_env_item sync_future].
  - destruct Hi as (obj & Hr & Hall). unfold read_object_with_fallback. rewrite Hr. case_bool_decide; intros [= <- <-]; split_and!; try done; [by eexists|by exists d].
  - destruct Hi as (d & Hd & Hst & Hp). unfold sync_object. rewrite Hd, Hpolicy. destruct (to_enum obj) as [| | |blob] eqn:E;
      try (case_bool_decide; intros [= <- <-]; split_and!; try done; by eexists). intros [= <- <-]. split_and!; try done.
    unfold Object_digest in Hd. rewrite E in Hd. destruct (digest_strategy _); [|done]. injection Hd as <-. split; [done|by eapply Hp].
  - cbn [looks] in Hi. apply has_object_stored in Hi. rewrite Hs, Hi. intros [= <- <-]. split_and!; try done. by eexists.
  - destruct f; try done; destruct Hi as [Hst Hp]; cbn [sync_blob]; rewrite ?Hpolicy.
    + case_bool_decide; intros [= <- <-]; split_and!; try done. by eexists.
    + apply has_object_stored in Hst as Hh. rewrite Hs, Hh. by intros [= <- <-].
    + apply has_payload_paid in Hp as Hh. rewrite Hs, Hh. by intros [= <- <-].
    + intros [= <- <-]. split_and!; try done. by eexists.
Qed.
Lemma looks_items schedule fuel step running results (s : Syncing D time) outcome s' : dest s = σ -> (forall i, i ∈ running -> looks i) ->
  sync_items policy src schedule fuel step running results s = Some (outcome, s') -> dest s' = σ /\ dest_tags s' = dest_tags s /\ exists x, outcome = Ok x.
Proof.
  revert step running results s. induction fuel as [|fuel IH]; intros step running results s Hs Hall; cbn [sync_items];
    (destruct running as [|i0 running]; [intros [= <- <-]; split_and!; try done; by eexists|]); [done|]. destruct (schedule step) as [path now].
  destruct (step_nth _ _ _ s) as [q s0] eqn:E. apply step_nth_spec in E as (l1 & a & l2 & q0 & El & Ea & ->); [|apply mod_length].
  assert (forall i, i ∈ l1 ++ l2 -> looks i) as Hrest by (intros i Hi; apply Hall; rewrite El, elem_of_app, elem_of_cons; apply elem_of_app in Hi; tauto).
  apply looks_step in Ea as (Hs' & Ht & Hq); [|done|apply Hall; rewrite El, elem_of_app, elem_of_cons; auto].
  destruct q0 as [a'|r0]; [intros H; apply IH in H as (? & ? & ?); [split_and!; try done; congruence|done|]|].
  - intros i. rewrite elem_of_app, elem_of_cons. intros [?|[-> |?]]; [|done|]; apply Hrest, elem_of_app; auto.
  - destruct Hq as [r ->]. intros H. apply IH in H as (? & ? & ?); [split_and!; try done; congruence|done..].
Qed.
End again.

(** C24: a sync between repositories whose objects have the digests they are stored
    under ends, whichever future is scheduled when, whatever the destination lacks
    and whatever the syncer has processed before: there is a number of steps after
    which it has returned, and more fuel changes nothing. *)
Theorem sync_ends {D time : Type} `{fs : !FileSystem time, !TagSync D time} policy (src : Source D time) kind_of schedule env s :
  source_ok src kind_of -> dest_ok kind_of (dest s) ->
  exists enough outcome s', forall fuel, enough <= fuel -> sync_env policy src schedule fuel env s = Some (outcome, s').
Proof.
  intros Hsrc Hdest.
  assert (state_ok src kind_of (fun _ => True) (fun _ => True) s) as Hok by (split; auto).
  destruct (sync_items_end policy src kind_of s schedule 0 (SyncItem <$> env) [] s) as (enough & [outcome s'] & H); [done|done|by unfold known| |].
  - intros i Hi. by apply list_elem_of_fmap in Hi as (item & -> & _).
  - exists enough, outcome, s'. intros fuel Hle. by eapply sync_items_more.
Qed.

(** However a sync returns, with an error included, it takes nothing from the
    destination: the objects that were there are unchanged, and the payloads are
    still there. *)
Theorem sync_only_adds {D time : Type} `{fs : !FileSystem time, !TagSync D time} policy (src : Source D time) schedule fuel env s outcome s' :
  sync_env policy src schedule fuel env s = Some (outcome, s') ->
  (forall d stored_as, objects (dest s) !! d = Some stored_as -> objects (dest s') !! d = Some stored_as) /\
  (forall d, has_payload (dest s) d = true -> has_payload (dest s') d = true).
Proof.
  intros [Ho Hp _]%sync_items_adds. split; [intros d o Hd; exact (lookup_weaken _ _ _ _ Hd Ho)|]. intros d Hd. by apply has_payload_paid, Hp, has_payload_paid.
Qed.

(** Syncing digests whose objects the destination has, without resyncing
    objects, succeeds and changes nothing, whether or not anything below them is
    missing: the syncer does not look further. *)
Theorem sync_again {D time : Type} `{fs : !FileSystem time, !TagSync D time} policy (src : Source D time) schedule fuel digests s outcome s' :
  check_existing_objects policy = true ->
  (forall d, d ∈ digests -> exists obj, src_object src d = Ok obj /\ has_all (dest s) d obj) ->
  sync_env policy src schedule fuel (ItemDigest <$> digests) s = Some (outcome, s') ->
  dest s' = dest s /\ dest_tags s' = dest_tags s /\ exists results, outcome = Ok results.
Proof.
  intros Hpolicy Hall Hrun. eapply (looks_items policy src (dest s)) in Hrun as (? & ? & ?); [done..|].
  intros i Hi. apply list_elem_of_fmap in Hi as (item & -> & (d & -> & Hd)%list_elem_of_fmap). by apply Hall.
Qed.

(** * The payloads of what a syncer processed

    When objects are synced again whether or not the destination has them, as
    repairs do, a blob that a syncer has processed has its payload, whatever was
    missing from the destination before. *)

(** A step of one of several futures keeps what is known of all of them. *)
Lemma step_nth_inv {S A R} (I : S -> Prop) (grow : S -> S -> Prop) (P : S -> A -> Prop) (step : A -> S -> (A + R) * S) l i s r s' :
  (forall s s' a, grow s s' -> P s a -> P s' a) ->
  (forall a s q s', a ∈ l -> I s -> P s a -> step a s = (q, s') -> I s' /\ grow s s' /\ match q with inl a' => P s' a' | inr _ => True end) ->
  I s -> (forall a, a ∈ l -> P s a) -> i < length l -> step_nth step i l s = (r, s') ->
  I s' /\ match r with inl l' | inr (_, l') => forall a, a ∈ l' -> P s' a end.
Proof.
  intros Hmono Hstep Hi Hall Hlt E. apply step_nth_spec in E as (l1 & a & l2 & q & -> & Es & ->); [|done].
  assert (a ∈ l1 ++ a :: l2) as Ha by (rewrite elem_of_app, elem_of_cons; auto).
  destruct (Hstep a s q s' Ha Hi (Hall a Ha) Es) as (Hi' & Hg & Hq). split; [done|].
  assert (forall b, b ∈ l1 ++ l2 -> P s' b) as Hrest.
  { intros b Hb. apply (Hmono s); [done|]. apply Hall. rewrite elem_of_app, elem_of_cons. apply elem_of_app in Hb. tauto. }
  destruct q as [a'|x]; [|done]. intros b. rewrite elem_of_app, elem_of_cons. intros [?|[-> |?]]; [|done|]; apply Hrest, elem_of_app; auto.
Qed.

Section payloads.
Context {D time : Type} `{fs : !FileSystem time, !TagSync D time} (policy : SyncPolicy) (src : Source D time) (kind_of : Digest -> ObjectKind).
Context (Hpolicy : check_existing_objects policy = false) (Hsrc : source_ok src kind_of).
Abbreviation Syncing := (Syncing D time).
Implicit Types (s : Syncing) (d : Digest) (t : SyncFuture).

Definition vouched s : Prop := forall d, d ∈ processed s -> kind_of d = KindBlob -> paid (dest s) d.
Definition blob_pays s d (f : BlobFuture) : Prop :=
  kind_of d = KindBlob /\ match f with BlobSkip | BlobWrite _ | BlobProcess _ => paid (dest s) d | _ => True end.
Definition entry_pays s (e : EntryFuture) : Prop := blob_pays s (bl_payload (ef_blob e)) (ef_future e).
(** What is known of a future that syncs anew: what it writes is identified by its
    digest, and the payload comes before the blob. *)
Inductive pays s : SyncFuture -> Prop :=
| pays_digest d : pays s (SyncDigest d)
| pays_object d obj : src_object src d = Ok obj -> pays s (SyncObject obj)
| pays_blob obj blob f : blob_pays s (bl_payload blob) f -> pays s (BlobFutureOf obj blob f)
| pays_manifest obj running results : (forall e, e ∈ running -> entry_pays s e) -> pays s (ManifestEntries obj running results)
| pays_platform obj running results : (forall t, t ∈ running -> pays s t) -> pays s (PlatformLayers obj running results)
| pays_layer obj layer t : pays s t -> pays s (LayerManifest obj layer t)
| pays_annotations obj todo results : pays s (LayerAnnotations obj todo results)
| pays_annotation obj d t todo results : pays s t -> pays s (LayerAnnotation obj d t todo results).
#[local] Hint Constructors pays : core.

Lemma blob_pays_adds s s' d f : adds s s' -> blob_pays s d f -> blob_pays s' d f.
Proof. intros [_ Hp _] [Hk H]. split; [done|]. destruct f; auto. Qed.
Lemma entry_pays_adds s s' e : adds s s' -> entry_pays s e -> entry_pays s' e.
Proof. apply blob_pays_adds. Qed.
Lemma pays_adds s s' t : adds s s' -> pays s t -> pays s' t.
Proof.
  intros Hg. induction t as [t Ht|obj running results IH|obj layer t IH|obj c t todo results IH] using future_ind; intros H.
  - destruct t; try done; inversion H; subst; eauto using blob_pays_adds, entry_pays_adds.
  - inversion H; subst. auto.
  - inversion H; subst. auto.
  - inversion H; subst. auto.
Qed.
Lemma vouched_adds s s' : vouched s -> adds s s' -> processed s' = processed s -> vouched s'.
Proof. intros Hv [_ Hp _] Hs d. rewrite Hs. intros Hd Hk. apply Hp. auto. Qed.
Lemma vouched_process s d : vouched s -> (kind_of d = KindBlob -> paid (dest s) d) -> vouched (process d s).
Proof. intros Hv Hd x. cbn [process processed dest]. intros [->%elem_of_singleton|Hx]%elem_of_union; [done|]. by apply Hv. Qed.
Lemma payload_processed d f s r s' : sync_payload policy src d f s = (r, s') -> processed s' = processed s.
Proof.
  destruct f; cbn [sync_payload]; [case_bool_decide; by intros [= _ <-]|destruct (has_payload _ _); by intros [= _ <-]|].
  destruct (src_payload src d) as [payload|e|]; [|by intros [= _ <-]..]. destruct (write_data payload (dest s)) as [w σ]. cbn [on_dest fst snd]. by intros [= _ <-].
Qed.
Lemma payload_pays d f s r s' : vouched s -> kind_of d = KindBlob -> sync_payload policy src d f s = (inr (Ok r), s') -> paid (dest s') d.
Proof.
  intros Hv Hk. destruct f; cbn [sync_payload].
  - case_bool_decide; intros [= _ <-]. by apply Hv.
  - destruct (has_payload _ _) eqn:E; intros [= _ <-]. by apply has_payload_paid.
  - destruct (src_payload src d) as [payload|e|]; try done. unfold write_data, on_dest.
    destruct (fails WritePayload (sha256 payload)); cbn [fst snd and_then]; [done|]. case_bool_decide as Hd; [|done]. intros [= _ <-].
    unfold paid, with_dest, with_payloads. cbn [dest payloads]. rewrite Hd, lookup_insert_eq. by eexists.
Qed.
Lemma payload_vouched d f s r s' : vouched s -> sync_payload policy src d f s = (r, s') -> vouched s' /\ adds s s'.
Proof.
  intros Hv E. pose proof (payload_adds policy src d f s) as Hg. rewrite E in Hg. split; [|done]. eapply vouched_adds; [done..|]. by eapply payload_processed.
Qed.
Lemma blob_pays_step now obj blob f s q s' : vouched s -> blob_pays s (bl_payload blob) f -> sync_blob policy src now obj blob f s = (q, s') ->
  vouched s' /\ match q with inl f' => blob_pays s' (bl_payload blob) f' | inr _ => True end.
Proof.
  intros Hv [Hk Hf]. destruct f; cbn [sync_blob].
  - case_bool_decide; intros [= <- <-]; [done|]. by rewrite Hpolicy.
  - intros [= <- <-]. by destruct (has_object _ _).
  - intros [= <- <-]. split; [done|]. destruct (has_payload _ _) eqn:E; [|done]. split; [done|]. by apply has_payload_paid.
  - intros [= <- <-]. split; [by apply vouched_process|done].
  - destruct (sync_payload _ _ _ _ s) as [r s0] eqn:E. intros [= <- <-]. split; [by eapply payload_vouched|].
    destruct r as [f'|[r|e|]]; cbn [and_then]; try done. split; [done|]. by eapply payload_pays.
  - pose proof (write_object_adds now obj s) as Hg. destruct (write_object now obj (dest s)) as [r σ]. cbn [on_dest fst snd] in *. intros [= <- <-].
    split; [by eapply vouched_adds|]. destruct r as [[]|e|]; cbn [and_then]; try done. split; [done|]. by apply Hg.
  - intros [= <- <-]. split; [by apply vouched_process|done].
Qed.
Lemma finish_vouched now obj result s q s' : vouched s -> finish now obj result s = (q, s') -> vouched s' /\ match q with inl t' => pays s' t' | inr _ => True end.
Proof.
  intros Hv. unfold finish. pose proof (write_object_adds now obj s) as Hg. destruct (write_object now obj (dest s)) as [r σ]. cbn [on_dest fst snd] in *.
  intros [= <- <-]. split; [by eapply vouched_adds|]. by destruct r.
Qed.
Lemma begin_pays s d obj : src_object src d = Ok obj -> match begin_object src obj with inl t => pays s t | inr _ => True end.
Proof.
  intros Hr. unfold begin_object. destruct (to_enum obj) as [p|layer|m|b] eqn:E.
  - apply pays_platform. intros t (c & -> & _)%list_elem_of_fmap. auto.
  - destruct (ly_manifest layer) as [dm|]; [|apply pays_annotations]. unfold src_manifest. destruct (src_object src dm) as [mo|e|] eqn:Em; try done.
    cbn [mbind res_bind]. destruct (to_enum mo); cbn [and_then]; try done. eauto.
  - apply pays_manifest. intros e (entry & -> & Hin)%list_elem_of_fmap. apply list_elem_of_In, List.filter_In in Hin as [He Hb]. apply list_elem_of_In in He.
    split; [|done]. by destruct (source_entries _ _ Hsrc _ _ _ _ Hr E He Hb).
  - destruct (source_fits _ _ Hsrc _ _ Hr) as [[Hd Hk] _]. apply pays_blob. split; [|done]. rewrite E in Hk. cbn [Enum_kind] in Hk.
    assert (d = bl_payload b) as <-; [|done]. unfold Object_digest in Hd. rewrite E in Hd. destruct (digest_strategy _); [by injection Hd|done].
Qed.
Lemma object_vouched s d obj q s' : vouched s -> src_object src d = Ok obj -> sync_object policy src obj s = (q, s') ->
  vouched s' /\ match q with inl t' => pays s' t' | inr _ => True end.
Proof.
  intros Hv Hr. destruct (source_fits _ _ Hsrc _ _ Hr) as [Hf _]. pose proof (fun s => begin_pays s d obj Hr) as Hbegin. unfold sync_object. rewrite (proj1 Hf), Hpolicy.
  assert ((forall b, to_enum obj <> ObjBlob b) -> vouched (process d s)) as Hp.
  { intros Hb. apply vouched_process; [done|]. by intros ?%(not_blob_kind kind_of d obj Hf Hb). }
  destruct (to_enum obj) as [p|layer|m|b] eqn:E; [| | |intros [= <- <-]; split; [done|]; specialize (Hbegin s); unfold begin_object in Hbegin; by rewrite E in Hbegin].
  all: case_bool_decide; intros [= <- <-]; [done|]; split; [by apply Hp|apply Hbegin].
Qed.
Lemma future_pays t path now s q s' : vouched s -> pays s t -> sync_future policy src path now t s = (q, s') ->
  vouched s' /\ match q with inl t' => pays s' t' | inr _ => True end.
Proof.
  revert path s q s'. induction t as [t Hown|obj running results IH|obj layer t IH|obj c t todo results IH] using future_ind; intros path s q s' Hv Ht.
  - destruct t as [d|d e|obj|d obj|obj blob f|obj running results| | |obj todo results|]; try done; cbn [sync_future]; inversion Ht; subst.
    + case_bool_decide; intros [= <- <-]; [done|]. split; [done|]. unfold read_object_with_fallback. rewrite Hpolicy. destruct (src_object src d) eqn:Er; try done. eauto.
    + by eapply object_vouched.
    + destruct (sync_blob _ _ _ _ _ _ s) as [r s0] eqn:E. intros [= <- <-]. apply blob_pays_step in E as [Hv' Hf]; [|done..]. split; [done|].
      destruct r as [f'|[r|e|]]; cbn [and_then]; auto.
    + destruct running as [|e0 running]; [by apply finish_vouched|]. destruct (step_nth _ _ _ s) as [r s0] eqn:E. intros [= <- <-].
      apply (step_nth_inv vouched adds entry_pays) in E as [Hv' Hall]; [|exact entry_pays_adds| |done..|apply mod_length].
      * split; [done|]. destruct r as [running'|[[r|e|] running']]; cbn [and_then]; auto.
      * intros e s1 q1 s2 _ Hv1 He. pose proof (blob_adds policy src now (ef_object e) (ef_blob e) (ef_future e) s1) as Hg. unfold sync_entry.
        destruct (sync_blob _ _ _ _ _ _ s1) as [r1 s3] eqn:E1. intros [= <- <-]. apply blob_pays_step in E1 as [Hv2 Hf]; [|done..]. split_and!; [done..|].
        destruct r1 as [f'|[r1|e1|]]; cbn [and_then]; auto.
    + destruct todo as [|annotation todo]; [by apply finish_vouched|]. destruct (an_value annotation); [|case_bool_decide]; intros [= <- <-]; auto.
  - cbn [sync_future]. inversion Ht as [| | | |? ? ? Hall| | |]; subst. destruct running as [|t0 running]; [by apply finish_vouched|].
    destruct (step_nth _ _ _ s) as [r s0] eqn:E. intros [= <- <-].
    apply (step_nth_inv vouched adds pays) in E as [Hv' Hall']; [|exact pays_adds| |done..|apply mod_length].
    + split; [done|]. destruct r as [running'|[[r|e|] running']]; cbn [and_then]; auto.
    + intros a s1 q1 s2 Ha Hv1 Hp E1. pose proof (future_adds policy src a (tail path) now s1) as Hg. rewrite E1 in Hg.
      apply IH in E1 as [? ?]; [|done..]. split_and!; done.
  - cbn [sync_future]. inversion Ht; subst. destruct (sync_future policy src path now t s) as [r s0] eqn:E. intros [= <- <-].
    apply IH in E as [Hv' Hp]; [|done..]. split; [done|]. destruct r as [t'|[r|e|]]; cbn [and_then]; auto. apply pays_annotations.
  - cbn [sync_future]. inversion Ht; subst. destruct (sync_future policy src path now t s) as [r s0] eqn:E. intros [= <- <-].
    apply IH in E as [Hv' Hp]; [|done..]. split; [done|]. destruct r as [t'|[r|e|]]; cbn [and_then]; auto.
Qed.
End payloads.
