(* ===== verification/GraphManifest.v ===== *)
(** * Manifests of the object graph

    Models the rest of crates/spfs/src/graph/manifest.rs: building the manifest
    that is persisted from a tracked one, a tree for each directory, and making the
    tracked one again; and that the latter undoes the former.

    Trees are found by their digest, and one that several directories have in
    common is stored once.  A tracked manifest's header, which only says how it is
    written, is left out. *)

From stdpp Require Import gmap.
From S2P Require Import Prelude Strings Collections Encoding TagSpec Tags Entry Manifest Objects ObjectTheory Layers.

#[local] Set Warnings "-register-all".

Section manifest.
Context {T : Type} `{!RelPath} (sha256 : list N -> Digest).

(** [expect]. *)
Definition expected {A} (r : res SpfsError A) : res SpfsError A := match r with Ok a => Ok a | _ => Panicked end.

(** ** Building *)

(** The filter with the trees that were seen. *)
Fixpoint unseen_trees (seen : list Digest) (trees : list GTree) : res SpfsError (list GTree) :=
  match trees with
  | [] => Ok []
  | t :: trees =>
      digest ← expected (GTree_digest sha256 t);
      if bool_decide (digest ∈ seen) then unseen_trees seen trees else cons t <$> unseen_trees (digest :: seen) trees
  end.
(** An entry with the trees of its directory, which were built before. *)
Definition build_entry (node : ManifestNode T * res SpfsError (list GTree)) : res SpfsError (GEntry * list GTree) :=
  let '(node, built) := node in
  let e := node_entry node in
  match kind e with
  | KTree =>
      sub ← built;
      match sub with
      | [] => Panicked
      | sub_root :: _ =>
          sub_root_digest ← expected (GTree_digest sha256 sub_root);
          Ok (GEntry_build (node_path node) KTree (mode e) (size_for_legacy_encode e) sub_root_digest, sub)
      end
  | _ => Ok (GEntry_from (node_path node) e, [])
  end.
Fixpoint build_from_entry (source : Entry T) : res SpfsError (list GTree) :=
  let entries := @sort_slice _ (cmp_on fst)
    (List.map (fun '(name, e) => (mkNode name e, build_from_entry e)) (entries source)) in
  built ← try_map build_entry entries;
  unseen_trees [] (built.*1 :: concat built.*2).
Definition ManifestBuilder_build (config : StorageConfig) (source : Entry T) : res SpfsError Object :=
  trees ← build_from_entry source;
  match trees with
  | [] => Panicked
  | root :: trees => Ok (new_with_default_header config (ObjManifest (mkGManifest root trees)))
  end.

(** ** Reading *)

Definition ManifestTreeCache : Type := list (Digest * GTree).
Definition get_tree_cache (self : GManifest) : ManifestTreeCache :=
  foldl (fun cache tree =>
    match GTree_digest sha256 tree with Ok digest => hm_insert digest tree cache | _ => cache end) [] (iter_trees self).
Definition get_tree (self : GManifest) (digest : Digest) : option GTree :=
  List.find (fun t => bool_decide (res_ok (GTree_digest sha256 t) = Some digest)) (iter_trees self).
Definition set_object (object : Digest) (e : Entry unit) : Entry unit :=
  mkEntry _ (kind e) object (mode e) (entries e) (user_data e) (legacy_size e).
(** The recursion goes through the cache; a manifest with a cycle would never end. *)
Fixpoint iter_tree (fuel : nat) (cache : ManifestTreeCache) (tree : GTree) (parent : Entry unit) : res SpfsError (Entry unit) :=
  match fuel with
  | O => Panicked
  | S fuel =>
      try_fold (fun parent entry =>
        let new_entry := mkEntry _ (ge_kind entry) (ge_object entry) (ge_mode entry) [] tt (ge_size_for_legacy_encode entry) in
        new_entry ←
          (if is_tree (ge_kind entry) then
             match hm_get (ge_object entry) cache with
             | None => Panicked
             | Some tree => iter_tree fuel cache tree (set_object NULL_DIGEST new_entry)
             end
           else Ok new_entry);
        Ok (set_entries parent (hm_insert (ge_name entry) new_entry (entries parent)))) parent tree
  end.
Definition to_tracking_manifest (fuel : nat) (self : GManifest) : res SpfsError (Entry unit) :=
  iter_tree fuel (get_tree_cache self) (gm_root self) (empty_dir_with_open_perms_with_data tt).
End manifest.

(** ** What can be stored

    Names, digests and numbers as the binary form has them; a directory has no
    digest of its own. *)
Section trees.
Context {T : Type} `{relpath : !RelPath} (sha256 : list N -> Digest).
(** The trees that are hashed for a directory: its own and those below it. *)
Fixpoint hashed_trees (e : Entry T) : list GTree :=
  match build_from_entry sha256 e with Ok (t :: _) => [t] | _ => [] end ++
  concat (List.map (fun p => match p with (_, c) => hashed_trees c end) (entries e)).
(** Trees that SHA-256 does not confuse. *)
Definition collision_free (trees : list GTree) : Prop :=
  forall t t' text text', t ∈ trees -> t' ∈ trees -> GTree_encode [] t = Ok text -> GTree_encode [] t' = Ok text' ->
    sha256 text = sha256 text' -> text = text'.
Lemma hashed_child e name c t : (name, c) ∈ entries e -> t ∈ hashed_trees c -> t ∈ hashed_trees e.
Proof.
  destruct e as [k o m es u l]. cbn [entries hashed_trees]. intros Hc Ht. apply elem_of_app. right.
  apply list_elem_of_In, in_concat. exists (hashed_trees c). split; [|by apply list_elem_of_In].
  apply in_map_iff. exists (name, c). split; [done|by apply list_elem_of_In].
Qed.
Lemma hashed_root e t L : build_from_entry sha256 e = Ok (t :: L) -> t ∈ hashed_trees e.
Proof. intros H. destruct e. cbn [hashed_trees]. rewrite H. by left. Qed.
End trees.

Section theory.
Context {T : Type} `{relpath : !RelPath} (sha256 : list N -> Digest).
(** The trees that are met, which are not confused. *)
Context (F : list GTree) (F_free : collision_free sha256 F).
Context (sha256_size : forall bytes, digest_ok (sha256 bytes)).
Implicit Types (e c : Entry T) (t : GTree) (g : GEntry) (L : list GTree).

Definition child_ok (p : rstr * Entry T) : Prop :=
  name_ok p.1 /\ is_u32 (mode p.2) /\ is_u64 (size_for_legacy_encode p.2) /\
  if is_tree (kind p.2) then object p.2 = NULL_DIGEST else digest_ok (object p.2).
Inductive storable : Entry T -> Prop :=
| storable_intro e : NoDup (entries e).*1 -> (is_tree (kind e) = false -> entries e = []) -> is_u64 (N.of_nat (length (entries e))) ->
    Forall (fun p => child_ok p /\ storable p.2) (entries e) -> storable e.

(** ** Trees and their digests *)

Lemma tree_digest_ok t : tree_ok t -> exists d, GTree_digest sha256 t = Ok d /\ digest_ok d.
Proof.
  intros Ht. destruct (tree_codec t Ht) as (bytes & Hw & _). exists (sha256 bytes). unfold GTree_digest. rewrite Hw. split; [done|apply sha256_size].
Qed.
Lemma tree_digest_perm t t' d : t ∈ F -> t' ∈ F -> tree_ok t -> tree_ok t' -> GTree_digest sha256 t = Ok d -> GTree_digest sha256 t' = Ok d -> t ≡ₚ t'.
Proof using F_free.
  intros HF HF' Ht Ht'. unfold GTree_digest. destruct (GTree_encode [] t) as [b|e|] eqn:E; [|done..]. destruct (GTree_encode [] t') as [b'|e|] eqn:E'; [|done..].
  intros [= <-] [= Hb]. apply (F_free _ _ _ _ HF' HF E' E) in Hb. subst b'.
  rewrite <-(sorted_tree_perm t), <-(sorted_tree_perm t').
  by rewrite (codec_inj _ _ [] _ _ _ _ (tree_codec t Ht) (tree_codec t' Ht') (eq_trans E (eq_sym E'))).
Qed.
Definition has_digest L d : Prop := exists t, t ∈ L /\ GTree_digest sha256 t = Ok d.
Lemma unseen_trees_spec seen L : Forall tree_ok L -> exists L', unseen_trees sha256 seen L = Ok L' /\
  (forall t, t ∈ L' -> t ∈ L) /\ (forall d, has_digest L d -> d ∈ seen \/ has_digest L' d).
Proof.
  intros HL. revert seen. induction HL as [|t L Ht HL IH]; intros seen; cbn [unseen_trees].
  - exists []. split_and!; [done..|]. intros d (t & []%elem_of_nil & _).
  - destruct (tree_digest_ok t Ht) as (d & Hd & _). rewrite Hd. cbn [expected mbind res_bind]. case_bool_decide as Hin.
    + destruct (IH seen) as (L' & HL' & Hsub & Hdig). exists L'. split_and!; [done|intros; apply elem_of_cons; auto|].
      intros d' (t' & [-> | Ht']%elem_of_cons & Hd'); [left; congruence|]. apply Hdig. by exists t'.
    + destruct (IH (d :: seen)) as (L' & HL' & Hsub & Hdig). rewrite HL'. exists (t :: L'). split_and!; [done|..].
      * intros t' [-> | Ht']%elem_of_cons; apply elem_of_cons; auto.
      * intros d' (t' & [-> | Ht']%elem_of_cons & Hd'); [right; exists t; split; [by left|congruence]|].
        destruct (Hdig d') as [[-> | Hs]%elem_of_cons|(t'' & ? & ?)]; [by exists t'|right; exists t; split; [by left|done]|by left|].
        right. exists t''. split; [by right|done].
Qed.
(** The first tree is always new. *)
Lemma unseen_trees_first t L L' : tree_ok t -> unseen_trees sha256 [] (t :: L) = Ok L' -> exists L0, L' = t :: L0.
Proof.
  intros Ht. cbn [unseen_trees]. destruct (tree_digest_ok t Ht) as (d & -> & _). cbn [expected mbind res_bind].
  rewrite bool_decide_false by apply not_elem_of_nil. destruct (unseen_trees _ _ L) as [L0|e|]; [|done..]. intros [= <-]. by exists L0.
Qed.

(** ** The tree of a directory *)

(** The trees that a directory's entries refer to have their digests in [L]. *)
Inductive describes L : Entry T -> GTree -> Prop :=
| describes_intro e t : ge_name <$> t ≡ₚ (entries e).*1 -> Forall (fun p => exists g, g ∈ t /\ pictures L p g) (entries e) -> describes L e t
with pictures L : rstr * Entry T -> GEntry -> Prop :=
| pictures_leaf name c : is_tree (kind c) = false -> pictures L (name, c) (GEntry_from name c)
| pictures_tree name c tc d : kind c = KTree -> describes L c tc -> tc ∈ F -> tree_ok tc -> GTree_digest sha256 tc = Ok d -> has_digest L d ->
    pictures L (name, c) (GEntry_build name KTree (mode c) (size_for_legacy_encode c) d).
Lemma describes_perm L e t t' : t ≡ₚ t' -> describes L e t -> describes L e t'.
Proof.
  intros Hp Hdesc. inversion Hdesc as [e0 t0 Hn Hall]; subst. constructor; [by rewrite <-Hp|]. eapply Forall_impl; [exact Hall|]. intros p (g & Hg & ?). exists g. by rewrite <-Hp.
Qed.
Lemma describes_mono L L' e t : (forall d, has_digest L d -> has_digest L' d) -> describes L e t -> describes L' e t.
Proof.
  intros Hd. revert t. induction e as [k o m es u l IH] using Entry_induction. intros t Hdesc0. inversion Hdesc0 as [e t0 Hn Hall]; subst. cbn [entries] in *.
  constructor; cbn [entries]; [done|]. rewrite Forall_forall in *. intros p Hp. destruct (Hall p Hp) as (g & Hg & Hpic). exists g. split; [done|].
  inversion Hpic as [|name c tc d Hk Hdesc HF Hok Hdig Hhas]; subst; [by constructor|]. eapply pictures_tree; eauto. by apply (IH _ Hp).
Qed.
Lemma pictures_mono L L' p g : (forall d, has_digest L d -> has_digest L' d) -> pictures L p g -> pictures L' p g.
Proof. intros Hd H. inversion H; subst; [by constructor|]. eapply pictures_tree; eauto using describes_mono. Qed.
Lemma list_choice {A B} (P : A -> B -> Prop) l : (forall a, a ∈ l -> exists b, P a b) -> exists k, Forall2 P l k.
Proof.
  induction l as [|a l IH]; intros H; [by exists []; constructor|]. destruct (H a) as [b Hb]; [by left|].
  destruct IH as [k Hk]; [intros x Hx; apply H; by right|]. exists (b :: k). by constructor.
Qed.
(** What is built for an entry of a directory. *)
Definition built_for (x : ManifestNode T * res SpfsError (list GTree)) (y : GEntry * list GTree) : Prop :=
  build_entry sha256 x = Ok y /\ pictures y.2 (node_path x.1, node_entry x.1) y.1 /\ ObjectTheory.entry_ok y.1 /\ Forall tree_ok y.2 /\
  ge_name y.1 = node_path x.1 /\ forall t, t ∈ y.2 -> t ∈ F.
Lemma build_entry_spec name c built : child_ok (name, c) ->
  (kind c = KTree -> exists t L0, built = Ok (t :: L0) /\ (forall x, x ∈ t :: L0 -> x ∈ F) /\ Forall tree_ok (t :: L0) /\ describes (t :: L0) c t) ->
  exists y, built_for (mkNode name c, built) y.
Proof.
  intros (Hname & Hmode & Hsize & Hobj) Hbuilt. cbn [fst snd] in *. destruct (is_tree (kind c)) eqn:Ek.
  - assert (kind c = KTree) as Hk by (by destruct (kind c)). destruct (Hbuilt Hk) as (t & L0 & -> & HF & Hok & Hdesc).
    destruct (tree_digest_ok t) as (d & Hd & Hdok); [by inversion Hok|]. eexists. split_and!; cbn [fst snd node_path node_entry].
    + unfold build_entry. cbn [node_entry node_path]. rewrite Hk. cbn [mbind res_bind]. rewrite Hd. reflexivity.
    + cbn [fst snd]. apply (pictures_tree _ name c t d Hk Hdesc); [by apply HF; left|by inversion Hok|done|]. exists t. split; [by left|done].
    + cbn [fst]. unfold GEntry_build. cbn [is_blob]. by split_and!.
    + done.
    + done.
    + exact HF.
  - exists (GEntry_from name c, []). assert (build_entry sha256 (mkNode name c, built) = Ok (GEntry_from name c, [])) as Hb.
    { unfold build_entry. cbn [node_entry node_path]. by destruct (kind c). }
    split_and!; cbn [fst snd node_path node_entry]; [done|by constructor| |done|done|by intros t []%elem_of_nil]. unfold GEntry_from, GEntry_build, ObjectTheory.entry_ok.
    cbn [ge_object ge_name ge_mode ge_size_for_legacy_encode ge_kind]. split_and!; try done. by destruct (is_blob (kind c)) eqn:Eb; [|destruct (kind c)].
Qed.
Lemma build_spec e : storable e -> (forall t, t ∈ hashed_trees sha256 e -> t ∈ F) ->
  exists t L0, build_from_entry sha256 e = Ok (t :: L0) /\ (forall x, x ∈ t :: L0 -> x ∈ F) /\ Forall tree_ok (t :: L0) /\ describes (t :: L0) e t.
Proof.
  induction e as [k o m es u l IH] using Entry_induction. intros H HF. inversion H as [e Hnd Hleaf Hlen Hall]; subst. cbn [entries kind] in *.
  pose proof (hashed_root sha256 (mkEntry T k o m es u l)) as Hfirst. revert Hfirst.
  cbn [build_from_entry entries]. set (nodes := List.map _ es). set (sorted := sort_slice nodes).
  assert (sorted ≡ₚ nodes) as Hperm by apply sort_slice_perm.
  destruct (list_choice built_for sorted) as (built & Hbuilt).
  { intros x Hx. rewrite Hperm in Hx. apply list_elem_of_fmap in Hx as ([name c] & -> & Hc). rewrite Forall_forall in IH, Hall.
    destruct (Hall _ Hc) as [Hok Hst]. apply build_entry_spec; [done|]. intros _. apply (IH _ Hc); [done|]. intros t Ht. apply HF. by apply (hashed_child sha256 _ name c). }
  assert (try_map (build_entry sha256) sorted = Ok built) as ->.
  { apply try_map_Ok. eapply Forall2_impl; [exact Hbuilt|]. by intros x y [? _]. }
  cbn [mbind res_bind]. intros Hfirst. assert (ge_name <$> built.*1 ≡ₚ es.*1) as Hnames.
  { transitivity ((fun x => node_path x.1) <$> sorted).
    - apply Permutation_refl'. clear -Hbuilt. induction Hbuilt as [|x y sorted built (_ & _ & _ & _ & Hn & _) _ IHb]; [done|]. cbn. by rewrite Hn, IHb.
    - rewrite Hperm. apply Permutation_refl'. unfold nodes. clear. induction es as [|[n c] es IHe]; [done|]. cbn. by f_equal. }
  assert (tree_ok built.*1) as Hroot.
  { split; [|apply Forall_fmap, (Forall2_Forall_r _ _ _ _ Hbuilt), Forall_true; by intros x y (_ & _ & ? & _)].
    by rewrite <-(length_fmap ge_name), Hnames, length_fmap. }
  assert (Forall tree_ok (built.*1 :: concat built.*2)) as Hok.
  { constructor; [done|]. apply Forall_concat, Forall_fmap, (Forall2_Forall_r _ _ _ _ Hbuilt), Forall_true. by intros x y (_ & _ & _ & ? & _). }
  destruct (unseen_trees_spec [] _ Hok) as (L' & HL' & Hsub & Hdig).
  destruct (unseen_trees_first _ _ _ Hroot HL') as (L0 & ->). exists built.*1, L0. split_and!; [done|..].
  - intros t [Ht|Ht]%Hsub%elem_of_cons; [subst; by apply HF, (Hfirst _ L0)|].
    apply list_elem_of_In, in_concat in Ht as (sub & Hs%list_elem_of_In & Ht%list_elem_of_In).
    apply list_elem_of_fmap in Hs as (y & -> & Hy). apply list_elem_of_lookup in Hy as [i Hi].
    destruct (Forall2_lookup_r _ _ _ _ _ Hbuilt Hi) as (x & _ & _ & _ & _ & _ & _ & Hin). by apply Hin.
  - rewrite Forall_forall in *. intros t Ht. by apply Hok, Hsub.
  - constructor; cbn [entries]; [done|]. apply Forall_forall. intros [name c] Hc.
    assert ((mkNode name c, build_from_entry sha256 c) ∈ sorted) as Hin by (rewrite Hperm; apply list_elem_of_fmap; by exists (name, c)).
    apply list_elem_of_lookup in Hin as [i Hi]. destruct (Forall2_lookup_l _ _ _ _ _ Hbuilt Hi) as ([g sub] & Hy & _ & Hpic & _).
    cbn [fst snd node_path node_entry] in Hpic. exists g. assert ((g, sub) ∈ built) as Hgin by (by eapply list_elem_of_lookup_2).
    split; [apply list_elem_of_fmap; by exists (g, sub)|]. eapply pictures_mono; [|exact Hpic]. intros d (t & Ht & Hd).
    destruct (Hdig d) as [[]%elem_of_nil|?]; [|done]. exists t. split; [|done]. apply elem_of_cons. right.
    apply list_elem_of_In, in_concat. exists sub. split; apply list_elem_of_In; [apply list_elem_of_fmap; by exists (g, sub)|done].
Qed.

(** ** Reading the trees again *)

Definition cache_finds (cache : ManifestTreeCache) L : Prop :=
  forall d, has_digest L d -> exists t, hm_get d cache = Some t /\ t ∈ F /\ tree_ok t /\ GTree_digest sha256 t = Ok d.
Lemma tree_cache_finds root trees : (forall t, t ∈ root :: trees -> t ∈ F) -> Forall tree_ok (root :: trees) -> cache_finds (get_tree_cache sha256 (mkGManifest root trees)) (root :: trees).
Proof.
  intros HF HL. unfold get_tree_cache, iter_trees. cbn [gm_root gm_trees]. revert HF HL. generalize (root :: trees). intros L HF HL.
  enough (forall (cache : ManifestTreeCache) d, (exists t, hm_get d cache = Some t /\ t ∈ F /\ tree_ok t /\ GTree_digest sha256 t = Ok d) \/ has_digest L d ->
    exists t, hm_get d (foldl (fun cache tree => match GTree_digest sha256 tree with Ok digest => hm_insert digest tree cache | _ => cache end) cache L) = Some t /\
      t ∈ F /\ tree_ok t /\ GTree_digest sha256 t = Ok d) as H by (intros d Hd; apply H; by right).
  induction HL as [|t L Ht HL IH]; intros cache d; cbn [foldl]; [by intros [?|(t & []%elem_of_nil & _)]|].
  destruct (tree_digest_ok t Ht) as (d0 & Hd0 & _). rewrite Hd0. intros H. apply IH; [intros x Hx; apply HF; by right|].
  destruct (decide (d = d0)) as [->|Hne]; [left; exists t; rewrite hm_get_insert, bool_decide_true by done; split_and!; [done|apply HF; by left|done|done]|].
  destruct H as [(t' & Hg & ?)|(t' & [-> | Hin]%elem_of_cons & Hd')]; [left; exists t'; by rewrite hm_get_insert, bool_decide_false|congruence|].
  right. by exists t'.
Qed.
Lemma hm_insert_fresh {V} k (v : V) (m : list (rstr * V)) : k ∉ m.*1 -> hm_insert k v m = m ++ [(k, v)].
Proof.
  induction m as [|[x y] m IH]; [done|]. intros [Hx Hm]%not_elem_of_cons. cbn [hm_insert]. rewrite bool_decide_false by done.
  by rewrite IH.
Qed.
(** Reading a tree whose entries are all read. *)
Lemma read_entries (conv : GEntry -> res SpfsError (Entry unit)) t rs parent : Forall2 (fun g r => conv g = Ok r) t rs ->
  NoDup (ge_name <$> t) -> (forall n, n ∈ (entries parent).*1 -> n ∉ ge_name <$> t) ->
  try_fold (fun parent g => new_entry ← conv g; Ok (set_entries parent (hm_insert (ge_name g) new_entry (entries parent)))) parent t =
    Ok (set_entries parent (entries parent ++ zip (ge_name <$> t) rs)).
Proof.
  intros H. revert parent. induction H as [|g r t rs Hg _ IH]; intros parent Hnd Hfresh; cbn [try_fold fmap list_fmap zip].
  - rewrite app_nil_r. by destruct parent.
  - rewrite Hg. cbn [mbind res_bind]. apply NoDup_cons in Hnd as [Hn Hnd].
    assert (ge_name g ∉ (entries parent).*1) as Hf by (intros Hin; by apply (Hfresh _ Hin), elem_of_cons; left).
    rewrite (hm_insert_fresh _ _ _ Hf), IH; [|done|].
    + cbn [set_entries entries]. by rewrite <-(assoc_L (++)).
    + cbn [set_entries entries]. intros n. rewrite fmap_app, elem_of_app. intros [Hin|Hin] Ht.
      * apply (Hfresh _ Hin), elem_of_cons. by right.
      * apply list_elem_of_singleton in Hin as ->. done.
Qed.
Fixpoint depth (e : Entry T) : nat := S (list_max (List.map (fun p => match p with (_, c) => depth c end) (entries e))).
Lemma depth_child e name c : (name, c) ∈ entries e -> depth c < depth e.
Proof.
  destruct e as [k o m es u l]. cbn [entries depth]. intros Hc.
  assert (depth c <= list_max (List.map (fun p => match p with (_, c) => depth c end) es)); [|lia].
  pose proof (proj1 (list_max_le (List.map (fun p => match p with (_, c) => depth c end) es) _) (le_n _)) as Hall.
  rewrite Forall_forall in Hall. apply Hall, list_elem_of_In, in_map_iff. exists (name, c). split; [done|by apply list_elem_of_In].
Qed.
(** What a directory's children are read as. *)
Definition read_children e (es : list (rstr * Entry unit)) : Prop :=
  length es = length (entries e) /\ forall name c, (name, c) ∈ entries e -> exists r, hm_get name es = Some r /\ Entry_eq c r = true.
Lemma read_children_eq e r : kind e = kind r -> mode e = mode r -> object e = object r -> read_children e (entries r) -> Entry_eq e r = true.
Proof.
  intros Hk Hm Ho [Hlen Hall]. destruct e as [k o m es u l], r as [k' o' m' es' u' l']. cbn [kind mode object entries] in *. subst.
  cbn [Entry_eq kind mode object entries]. unfold size. cbn [kind]. rewrite !bool_decide_true by done. rewrite !N.eqb_refl, Hlen, Nat.eqb_refl.
  cbn [negb orb]. apply forallb_forall. intros [name c] Hc%list_elem_of_In. destruct (Hall _ _ Hc) as (r & Hr & He).
  cbn [hm_get]. by rewrite Hr.
Qed.
Lemma described_entry L e t g : storable e -> describes L e t -> g ∈ t -> exists c, (ge_name g, c) ∈ entries e /\ pictures L (ge_name g, c) g.
Proof.
  intros Hst Hdesc Hg. inversion Hdesc as [e0 t0 Hn Hall]; subst. inversion Hst as [e0 Hnd _ _ _]; subst. rewrite Forall_forall in Hall.
  assert (ge_name g ∈ (entries e).*1) as Hin by (rewrite <-Hn; apply list_elem_of_fmap; by exists g).
  apply list_elem_of_fmap in Hin as ([name c] & Hname & Hc). cbn [fst] in Hname. destruct (Hall _ Hc) as (g' & Hg' & Hpic). exists c.
  assert (ge_name g' = name) as Hname' by (by inversion Hpic). assert (g' = g) as ->.
  { assert (NoDup (ge_name <$> t)) as Hnt by (by rewrite Hn). apply list_elem_of_lookup in Hg as [i Hi]. apply list_elem_of_lookup in Hg' as [j Hj].
    assert (j = i) as -> by (apply (NoDup_lookup _ _ _ name Hnt); rewrite list_lookup_fmap; [rewrite Hj|rewrite Hi]; cbn; congruence). congruence. }
  by rewrite Hname.
Qed.
Lemma read_spec e : storable e -> forall L t parent fuel cache, cache_finds cache L -> describes L e t -> depth e <= fuel -> entries parent = [] ->
  exists es, iter_tree fuel cache t parent = Ok (set_entries parent es) /\ read_children e es.
Proof.
  induction e as [k o m es u l IH] using Entry_induction. set (e := mkEntry T k o m es u l) in *.
  intros Hst L t parent fuel cache Hcache Hdesc Hfuel Hparent. destruct fuel as [|fuel]; [cbn [depth e] in Hfuel; lia|].
  set (conv := fun entry : GEntry =>
    let new_entry := mkEntry _ (ge_kind entry) (ge_object entry) (ge_mode entry) [] tt (ge_size_for_legacy_encode entry) in
    if is_tree (ge_kind entry) then
      match hm_get (ge_object entry) cache with None => Panicked | Some tree => iter_tree fuel cache tree (set_object NULL_DIGEST new_entry) end
    else Ok new_entry).
  change (iter_tree (S fuel) cache t parent) with (try_fold (fun parent g =>
    new_entry ← conv g; Ok (set_entries parent (hm_insert (ge_name g) new_entry (entries parent)))) parent t).
  inversion Hst as [e0 Hnd Hleaf Hlen Hall]; subst. inversion Hdesc as [e0 t0 Hn _]; subst. rewrite Forall_forall in IH, Hall.
  destruct (list_choice (fun g r => conv g = Ok r /\ exists c, (ge_name g, c) ∈ entries e /\ Entry_eq c r = true) t) as (rs & Hrs).
  { intros g Hg. destruct (described_entry L e t g Hst Hdesc Hg) as (c & Hc & Hpic). pose proof (depth_child _ _ _ Hc) as Hdepth.
    inversion Hpic as [name c0 Hk|name c0 tc d Hk Hdesc' HtF Htok Hdig Hhas]; subst.
    - exists (mkEntry _ (kind c) (object c) (mode c) [] tt (size_for_legacy_encode c)). destruct (Hall _ Hc) as [_ Hstc]. cbn [snd] in Hstc.
      inversion Hstc as [c1 _ Hleafc _ _]; subst. split; [|exists c; split; [done|]].
      + unfold conv, GEntry_from, GEntry_build. cbn [ge_kind ge_object ge_mode ge_size_for_legacy_encode]. unfold size_for_legacy_encode.
        by destruct (kind c) eqn:Ek; cbn [is_blob is_tree]; rewrite ?Ek.
      + apply read_children_eq; [done..|]. split; cbn [entries]; [by rewrite Hleafc|]. rewrite Hleafc by done. by intros ? ? ?%elem_of_nil.
    - destruct (Hcache d Hhas) as (t' & Hget & Ht'F & Ht'ok & Hd'). pose proof (describes_perm L c tc t' (tree_digest_perm tc t' d HtF Ht'F Htok Ht'ok Hdig Hd') Hdesc') as Hdc.
      destruct (Hall _ Hc) as [(_ & _ & _ & Hobj) Hstc]. cbn [fst snd] in Hobj, Hstc. rewrite Hk in Hobj. cbn [is_tree] in Hobj.
      destruct (IH _ Hc Hstc L t' (mkEntry _ KTree NULL_DIGEST (mode c) [] tt (size_for_legacy_encode c)) fuel cache Hcache Hdc) as (es' & Hread & Hchildren);
        [cbn [snd]; lia|done|]. cbn [fst snd] in Hread, Hchildren. eexists. split; [|exists c; split; [done|]].
      + unfold conv, GEntry_build. cbn [ge_kind ge_object ge_mode ge_size_for_legacy_encode is_blob is_tree]. rewrite Hget. exact Hread.
      + apply read_children_eq; cbn [set_entries kind mode object entries]; done. }
  assert (Forall2 (fun g r => conv g = Ok r) t rs) as Hconv by (eapply Forall2_impl; [exact Hrs|]; by intros ? ? [? _]).
  pose proof (Forall2_length _ _ _ Hrs) as Hl. exists (zip (ge_name <$> t) rs). split.
  - rewrite (read_entries conv t rs parent Hconv); [by rewrite Hparent| |by rewrite Hparent; intros ? ?%elem_of_nil]. by rewrite Hn.
  - split; [rewrite length_zip_with, length_fmap, <-Hl, Nat.min_id, <-(length_fmap ge_name), Hn; apply length_fmap|].
    intros name c Hc. assert (name ∈ ge_name <$> t) as Hin by (rewrite Hn; apply list_elem_of_fmap; by exists (name, c)).
    apply list_elem_of_fmap in Hin as (g & -> & Hg). apply list_elem_of_lookup in Hg as [i Hi].
    destruct (Forall2_lookup_l _ _ _ _ _ Hrs Hi) as (r & Hr & _ & c' & Hc' & Heq). exists r.
    assert (c' = c) as -> by (apply (hm_get_nodup _ _ _ Hnd) in Hc, Hc'; congruence). split; [|done].
    apply hm_get_nodup; [rewrite fst_zip by (rewrite length_fmap; lia); by rewrite Hn|].
    apply (list_elem_of_lookup_2 _ i), lookup_zip_with_Some. exists (ge_name g), r. split_and!; [done| |done]. by rewrite list_lookup_fmap, Hi.
Qed.
End theory.

(** C26: a tracked manifest is built into a manifest whose trees make it again: as
    far as its entries and their contents, kinds, modes and sizes go, and with
    directories that look the same stored once.  It holds for any hash to 32 bytes
    that does not confuse the trees of this manifest, and for manifests that can be
    stored: ASCII names without NUL that differ in a directory, modes and sizes
    within their width, digests of 32 bytes for files and none for directories, and
    the root that of a new manifest. *)
Theorem manifest_survives {T : Type} `{!RelPath} (sha256 : list N -> Digest) config (e : Entry T) fuel :
  (forall bytes, digest_ok (sha256 bytes)) -> collision_free sha256 (hashed_trees sha256 e) -> storable e ->
  kind e = KTree -> mode e = 16895%N -> object e = NULL_DIGEST -> depth e <= fuel ->
  exists root trees, ManifestBuilder_build sha256 config e = Ok (new_with_default_header config (ObjManifest (mkGManifest root trees))) /\
    exists r, to_tracking_manifest sha256 fuel (mkGManifest root trees) = Ok r /\ Entry_eq e r = true.
Proof.
  intros Hsize Hfree Hst Hk Hm Ho Hfuel.
  destruct (build_spec sha256 _ Hsize e Hst (fun t Ht => Ht)) as (root & trees & Hb & HF & Hok & Hdesc). exists root, trees.
  split; [unfold ManifestBuilder_build; by rewrite Hb|].
  destruct (read_spec sha256 _ Hfree e Hst _ _ (empty_dir_with_open_perms_with_data tt) fuel _ (tree_cache_finds sha256 _ Hsize root trees HF Hok) Hdesc) as (es & Hr & Hc);
    [done..|].
  exists (set_entries (empty_dir_with_open_perms_with_data tt) es). split; [exact Hr|]. by apply read_children_eq.
Qed.

(** ** A small manifest *)

From S2P Require Import Diffs.

(** Two directories that look the same, and a mask. *)
Definition directory (children : list (rstr * Entry unit)) : Entry unit := mkEntry _ KTree NULL_DIGEST 16895 children tt 0.
Definition small_file : Entry unit := mkEntry _ (KBlob 3) (sum_digest [7; 8; 9]%N) 33188 [] tt 0.
Definition two_same : Entry unit :=
  directory [(lit "b", directory [(lit "f", small_file)]); (lit "a", directory [(lit "f", small_file)]);
             (lit "m", mkEntry _ KMask NULL_DIGEST 511 [] tt 0)].
Lemma two_same_storable : storable two_same.
Proof.
  assert (forall n, digest_ok (sum_digest n)) as Hsum by exact sum_digest_ok.
  assert (digest_ok NULL_DIGEST) as Hnull by (split; [done|]; by repeat constructor).
  assert (storable (directory [(lit "f", small_file)])) as Hdir.
  { constructor; [apply (bool_decide_unpack _); vm_compute; exact I|done|done|]. constructor; [|constructor].
    split; [split; [done|split_and!; [done|done|exact (Hsum _)]]|]. by repeat constructor. }
  constructor; [apply (bool_decide_unpack _); vm_compute; exact I|done|done|].
  repeat (constructor; [split; [split; [done|split_and!; [done|done|first [exact Hnull|reflexivity]]]|try exact Hdir]|]); [|constructor]. by repeat constructor.
Qed.
Lemma two_same_free : collision_free sum_digest (hashed_trees sum_digest two_same).
Proof.
  intros t t' text text' Ht Ht' E E'.
  assert (forallb (fun t => forallb (fun t' => match GTree_encode [] t, GTree_encode [] t' with
    | Ok x, Ok y => implb (bool_decide (sum_digest x = sum_digest y)) (bool_decide (x = y)) | _, _ => true end)
    (hashed_trees sum_digest two_same)) (hashed_trees sum_digest two_same) = true) as H by (vm_compute; reflexivity).
  rewrite forallb_forall in H. specialize (H t (proj1 (list_elem_of_In _ _) Ht)). cbv beta in H. rewrite forallb_forall in H.
  specialize (H t' (proj1 (list_elem_of_In _ _) Ht')). cbv beta in H. rewrite E, E' in H. intros Hs.
  rewrite bool_decide_eq_true_2 in H by exact Hs. by apply bool_decide_eq_true in H.
Qed.
Lemma manifest_survives_witness : exists root trees r,
  ManifestBuilder_build sum_digest None two_same = Ok (new_with_default_header None (ObjManifest (mkGManifest root trees))) /\
  to_tracking_manifest sum_digest 3 (mkGManifest root trees) = Ok r /\ Entry_eq two_same r = true.
Proof.
  destruct (manifest_survives sum_digest None two_same 3) as (root & trees & Hb & r & Hr & He);
    [exact sum_digest_ok|exact two_same_free|exact two_same_storable|done..|vm_compute; lia|]. exists root, trees, r. exact (conj Hb (conj Hr He)).
Defined.
(** The tree of the two directories is stored once. *)
Example same_tree_once : match build_from_entry sum_digest two_same with Ok trees => length trees | _ => 0 end = 2.
Proof. vm_compute. reflexivity. Qed.
