(* ===== verification/Check.v ===== *)
(** * Checking repositories

    Models crates/spfs/src/check.rs: whether all that an environment, the tags or
    the objects of a repository refer to is there, and the repair of what is not
    by syncing it from another repository.

    As in [Sync], a step of a future is at most one access to what the futures
    share: the progress of the digests that were met, the repository and the
    syncer.  Semaphores, the buffers that bound how many futures run at once,
    reporters and the permissions of payloads are left out. *)

From stdpp Require Import gmap.
From S2P Require Import Prelude Strings Collections Encoding TagSpec Tags Entry Manifest Objects ObjectStore Sync.

#[local] Set Warnings "-register-all".

(** ** Results *)

Inductive CheckPayloadResult := PayloadMissing (digest : Digest) | PayloadRepaired | PayloadOk.
#[export] Instance CheckPayloadResult_eq_dec : EqDecision CheckPayloadResult.
Proof. solve_decision. Defined.
Inductive CheckBlobResult :=
| CheckBlobDuplicate
| CheckBlobMissing (digest : Digest)
| CheckBlobChecked (repaired : bool) (blob : Object) (result : CheckPayloadResult).
Inductive CheckAnnotationResult :=
| CheckInternalValue
| CheckAnnotationChecked (digest : Digest) (result : CheckBlobResult) (repaired : bool).
(** The results of platforms, layers and manifests are records of the same fields. *)
Inductive CheckObjectResult :=
| CheckDuplicate
| CheckIgnorable
| CheckMissing (digest : Digest)
| CheckPlatform (repaired : bool) (platform : Object) (results : list CheckObjectResult)
| CheckLayer (repaired : bool) (layer : Object) (results : list CheckObjectResult)
| CheckBlob (r : CheckBlobResult)
| CheckManifest (repaired : bool) (manifest : Object) (results : list CheckObjectResult)
| CheckAnnotation (r : CheckAnnotationResult).
Inductive CheckTagResult {time : Type} := CheckTagMissing | CheckTagChecked (tag : Tag time) (result : CheckObjectResult).
Arguments CheckTagResult time : clear implicits.
Inductive CheckTagStreamResult {time : Type} := StreamMissing | StreamChecked (tag : TagSpec) (results : list (CheckTagResult time)).
Arguments CheckTagStreamResult time : clear implicits.
Inductive CheckEnvItemResult {time : Type} := CheckEnvTag (r : CheckTagResult time) | CheckEnvObject (r : CheckObjectResult).
Arguments CheckEnvItemResult time : clear implicits.

Record CheckSummary := mkCheckSummary {
  missing_tags : N; checked_tags : N; missing_objects : gset Digest; repaired_objects : N; checked_objects : N;
  missing_payloads : gset Digest; repaired_payloads : N; checked_payloads : N; checked_payload_bytes : N;
}.
Definition CheckSummary_default : CheckSummary := mkCheckSummary 0 0 ∅ 0 0 ∅ 0 0 0.
Definition checked_one_object : CheckSummary := mkCheckSummary 0 0 ∅ 0 1 ∅ 0 0 0.
Definition check_add (self rhs : CheckSummary) : CheckSummary :=
  mkCheckSummary (u64_add (missing_tags self) (missing_tags rhs)) (u64_add (checked_tags self) (checked_tags rhs))
    (missing_objects self ∪ missing_objects rhs) (u64_add (repaired_objects self) (repaired_objects rhs))
    (u64_add (checked_objects self) (checked_objects rhs)) (missing_payloads self ∪ missing_payloads rhs)
    (u64_add (repaired_payloads self) (repaired_payloads rhs)) (u64_add (checked_payloads self) (checked_payloads rhs))
    (u64_add (checked_payload_bytes self) (checked_payload_bytes rhs)).
Definition check_sum (l : list CheckSummary) : CheckSummary := fold_left check_add l CheckSummary_default.
Definition CheckPayloadResult_summary (self : CheckPayloadResult) : CheckSummary :=
  match self with
  | PayloadMissing digest => mkCheckSummary 0 0 ∅ 0 0 {[digest]} 0 0 0
  | PayloadRepaired => mkCheckSummary 0 0 ∅ 0 0 ∅ 1 1 0
  | PayloadOk => mkCheckSummary 0 0 ∅ 0 0 ∅ 0 1 0
  end.
Definition blob_size (blob : Object) : N := match to_enum blob with ObjBlob b => bl_size b | _ => 0 end.
Definition CheckBlobResult_summary (self : CheckBlobResult) : CheckSummary :=
  match self with
  | CheckBlobDuplicate => CheckSummary_default
  | CheckBlobMissing digest => mkCheckSummary 0 0 {[digest]} 0 1 ∅ 0 0 0
  | CheckBlobChecked repaired blob result =>
      check_add (CheckPayloadResult_summary result) (mkCheckSummary 0 0 ∅ (if repaired then 1 else 0) 1 ∅ 0 0 (blob_size blob))
  end.
Definition CheckAnnotationResult_summary (self : CheckAnnotationResult) : CheckSummary :=
  match self with CheckInternalValue => CheckSummary_default | CheckAnnotationChecked _ result _ => CheckBlobResult_summary result end.
(** The summary of an object with others below it. *)
Definition group_summary (repaired : bool) (results : list CheckSummary) : CheckSummary :=
  let summary := check_add (check_sum results) checked_one_object in
  if repaired then check_add summary (mkCheckSummary 0 0 ∅ 1 0 ∅ 0 0 0) else summary.
Fixpoint CheckObjectResult_summary (self : CheckObjectResult) : CheckSummary :=
  match self with
  | CheckDuplicate | CheckIgnorable => CheckSummary_default
  | CheckMissing digest => mkCheckSummary 0 0 {[digest]} 0 0 ∅ 0 0 0
  | CheckPlatform repaired _ results | CheckLayer repaired _ results | CheckManifest repaired _ results =>
      group_summary repaired (List.map CheckObjectResult_summary results)
  | CheckBlob res => CheckBlobResult_summary res
  | CheckAnnotation res => CheckAnnotationResult_summary res
  end.
Definition CheckTagResult_summary {time} (self : CheckTagResult time) : CheckSummary :=
  match self with
  | CheckTagMissing => mkCheckSummary 1 0 ∅ 0 0 ∅ 0 0 0
  | CheckTagChecked _ result => check_add (CheckObjectResult_summary result) (mkCheckSummary 0 1 ∅ 0 0 ∅ 0 0 0)
  end.
Definition CheckTagStreamResult_summary {time} (self : CheckTagStreamResult time) : CheckSummary :=
  match self with
  | StreamMissing => mkCheckSummary 1 0 ∅ 0 0 ∅ 0 0 0
  | StreamChecked _ results => check_sum (List.map CheckTagResult_summary results)
  end.
Definition CheckEnvItemResult_summary {time} (self : CheckEnvItemResult time) : CheckSummary :=
  match self with CheckEnvTag r => CheckTagResult_summary r | CheckEnvObject r => CheckObjectResult_summary r end.
Definition CheckEnvResult_summary {time} (results : list (CheckEnvItemResult time)) : CheckSummary :=
  check_sum (List.map CheckEnvItemResult_summary results).
Definition set_repaired (self : CheckObjectResult) : CheckObjectResult :=
  match self with
  | CheckDuplicate | CheckIgnorable | CheckMissing _ => self
  | CheckPlatform _ platform results => CheckPlatform true platform results
  | CheckLayer _ layer results => CheckLayer true layer results
  | CheckBlob (CheckBlobChecked _ blob result) => CheckBlob (CheckBlobChecked true blob result)
  | CheckBlob r => CheckBlob r
  | CheckManifest _ manifest results => CheckManifest true manifest results
  | CheckAnnotation (CheckAnnotationChecked digest result _) => CheckAnnotation (CheckAnnotationChecked digest result true)
  | CheckAnnotation r => CheckAnnotation r
  end.
(** [TryFrom<CheckObjectResult> for CheckBlobResult]. *)
Definition as_blob_result (value : CheckObjectResult) : res SpfsError CheckBlobResult :=
  match value with
  | CheckDuplicate => Ok CheckBlobDuplicate
  | CheckMissing digest => Ok (CheckBlobMissing digest)
  | CheckBlob result => Ok result
  | _ => Err (StringError (lit "Unexpected CheckObjectResult variant when converting to CheckBlobResult"))
  end.

(** ** The checker *)

Inductive CheckProgress := LoadStarted | CheckStarted.
#[export] Instance CheckProgress_eq_dec : EqDecision CheckProgress.
Proof. solve_decision. Defined.
(** The repository is the destination of the syncer. *)
Record Checking {D time : Type} := mkChecking { syncer : Syncing D time; progress : gmap Digest CheckProgress }.
Arguments Checking D time : clear implicits.
Arguments mkChecking {D time} _ _.
Definition repo_of {D time} (s : Checking D time) : Repo time := dest (syncer s).

(** What checking uses of the tags of a repository ([TagStorage], [TagListing]). *)
Class TagCheck (D time : Type) := {
  check_read_tag : D -> TagSpec -> res SpfsError (list (res SpfsError (Tag time)));
  check_resolve_tag : D -> TagSpec -> res SpfsError (Tag time);
  check_iter_tags : D -> list (res SpfsError TagSpec);
}.

Section check.
Context {D time : Type} `{fs : !FileSystem time, !TagSync D time, !TagCheck D time} (repair_with : option (Source D time)).
Abbreviation Checking := (Checking D time).
Implicit Types (s : Checking) (digest : Digest).
Definition repair_policy : SyncPolicy := LatestTagsAndResyncObjects.
Definition set_progress digest (p : CheckProgress) s : Checking := mkChecking (syncer s) (<[digest := p]> (progress s)).
Definition with_syncer (sync : Syncing D time) s : Checking := mkChecking sync (progress s).

Inductive CheckFuture :=
| CheckDigest (digest : Digest)                                        (** [check_digest_with_perms_opt] *)
| LoadObject (digest : Digest)                                         (** [read_object_with_fallback] *)
| RepairObject (digest : Digest) (source : Source D time) (sync : SyncFuture)
| ReloadObject (digest : Digest)
| CheckObject (obj : Object) (repaired : bool)                         (** [check_object_with_perms_opt] *)
| CheckPayload (obj : Object) (blob : Blob) (repaired : bool)          (** [check_payload_with_perms_opt] *)
| RepairPayload (obj : Object) (blob : Blob) (repaired : bool) (source : Source D time) (sync : PayloadFuture)
| CheckChildren (obj : Object) (repaired : bool) (running : list CheckFuture) (results : list CheckObjectResult)
| CheckLayerManifest (obj : Object) (layer : Layer) (repaired : bool) (manifest : CheckFuture)
| CheckAnnotations (obj : Object) (repaired : bool) (todo : list Annotation) (results : list CheckObjectResult)
| CheckAnnotationOf (obj : Object) (repaired : bool) (digest : Digest) (annotation : CheckFuture) (todo : list Annotation) (results : list CheckObjectResult).

Definition flagged (repaired : bool) (result : CheckObjectResult) : CheckObjectResult := if repaired then set_repaired result else result.
Definition blob_checked (obj : Object) (repaired : bool) (result : CheckPayloadResult) : CheckObjectResult :=
  flagged repaired (CheckBlob (CheckBlobChecked (bool_decide (result = PayloadRepaired)) obj result)).
Definition children_checked (obj : Object) (repaired : bool) (results : list CheckObjectResult) : CheckObjectResult :=
  flagged repaired
    match to_enum obj with
    | ObjManifest _ => CheckManifest false obj results
    | ObjLayer _ => CheckLayer false obj results
    | _ => CheckPlatform false obj results
    end.
(** The annotations of a layer, after its manifest. *)
Definition check_annotations (obj : Object) (layer : Layer) (repaired : bool) (manifest : CheckObjectResult) : CheckFuture :=
  CheckAnnotations obj repaired (ly_annotations layer)
    (manifest :: match ly_annotations layer with [] => [CheckAnnotation CheckInternalValue] | _ => [] end).
(** [check_platform], [check_layer], [check_manifest], [must_check_blob_with_perms_opt]. *)
Definition check_contents (obj : Object) (repaired : bool) : CheckFuture :=
  match to_enum obj with
  | ObjPlatform platform => CheckChildren obj repaired (CheckDigest <$> pf_layers platform) []
  | ObjManifest manifest =>
      CheckChildren obj repaired ((fun e => CheckDigest (ge_object e)) <$> List.filter (fun e => is_blob (ge_kind e)) (iter_entries manifest)) []
  | ObjLayer layer =>
      match ly_manifest layer with
      | Some manifest => CheckLayerManifest obj layer repaired (CheckDigest manifest)
      | None => check_annotations obj layer repaired CheckIgnorable
      end
  | ObjBlob blob => CheckPayload obj blob repaired
  end.
Definition read_again digest (repaired : bool) s (missing : CheckFuture + res SpfsError CheckObjectResult) : CheckFuture + res SpfsError CheckObjectResult :=
  match read_object (repo_of s) digest with
  | Ok obj => inl (CheckObject obj repaired)
  | Err (UnknownObject _) => missing
  | Err e => inr (Err e)
  | Panicked => inr Panicked
  end.

Fixpoint check_future (path : list nat) (now : time) (future : CheckFuture) s : (CheckFuture + res SpfsError CheckObjectResult) * Checking :=
  match future with
  | CheckDigest digest =>
      match progress s !! digest with
      | Some _ => (inr (Ok CheckDuplicate), s)
      | None => (inl (LoadObject digest), set_progress digest LoadStarted s)
      end
  | LoadObject digest =>
      (read_again digest false s
         match repair_with with
         | Some source => inl (RepairObject digest source (SyncDigest digest))
         | None => inr (Ok (CheckMissing digest))
         end, s)
  | RepairObject digest source sync =>
      let '(r, sync) := sync_future repair_policy source path now sync (syncer s) in
      (match r with
       | inl sync => inl (RepairObject digest source sync)
       | inr (Ok _) => inl (ReloadObject digest)
       | inr (Err _) => inr (Ok (CheckMissing digest))
       | inr Panicked => inr Panicked
       end, with_syncer sync s)
  | ReloadObject digest => (read_again digest true s (inr (Ok (CheckMissing digest))), s)
  | CheckObject obj repaired =>
      match Object_digest sha256 obj with
      | Err e => (inr (Err e), s)
      | Panicked => (inr Panicked, s)
      | Ok digest =>
          if bool_decide (progress s !! digest = Some CheckStarted) then (inr (Ok CheckDuplicate), s)
          else (inl (check_contents obj repaired), set_progress digest CheckStarted s)
      end
  | CheckPayload obj blob repaired =>
      (if has_payload (repo_of s) (bl_payload blob) then inr (Ok (blob_checked obj repaired PayloadOk))
       else match repair_with with
            | Some source => inl (RepairPayload obj blob repaired source PayloadStart)
            | None => inr (Ok (blob_checked obj repaired (PayloadMissing (bl_payload blob))))
            end, s)
  | RepairPayload obj blob repaired source sync =>
      let '(r, sync) := sync_payload repair_policy source (bl_payload blob) sync (syncer s) in
      (match r with
       | inl sync => inl (RepairPayload obj blob repaired source sync)
       | inr (Ok _) => inr (Ok (blob_checked obj repaired PayloadRepaired))
       | inr (Err _) => inr (Ok (blob_checked obj repaired (PayloadMissing (bl_payload blob))))
       | inr Panicked => inr Panicked
       end, with_syncer sync s)
  | CheckChildren obj repaired running results =>
      match running with
      | [] => (inr (Ok (children_checked obj repaired results)), s)
      | _ :: _ =>
          let '(r, s) := step_nth (check_future (tl path) now) (hd 0 path mod length running) running s in
          (match r with
           | inl running => inl (CheckChildren obj repaired running results)
           | inr (r, running) => and_then r (fun result => inl (CheckChildren obj repaired running (results ++ [result])))
           end, s)
      end
  | CheckLayerManifest obj layer repaired manifest =>
      let '(r, s) := check_future path now manifest s in
      (match r with
       | inl manifest => inl (CheckLayerManifest obj layer repaired manifest)
       | inr r => and_then r (fun result => inl (check_annotations obj layer repaired result))
       end, s)
  | CheckAnnotations obj repaired [] results => (inr (Ok (children_checked obj repaired results)), s)
  | CheckAnnotations obj repaired (annotation :: todo) results =>
      (inl match an_value annotation with
           | AnnotationString _ => CheckAnnotations obj repaired todo (results ++ [CheckAnnotation CheckInternalValue])
           | AnnotationBlob digest => CheckAnnotationOf obj repaired digest (CheckDigest digest) todo results
           end, s)
  | CheckAnnotationOf obj repaired digest annotation todo results =>
      let '(r, s) := check_future path now annotation s in
      (match r with
       | inl annotation => inl (CheckAnnotationOf obj repaired digest annotation todo results)
       | inr r =>
           and_then r (fun result =>
             and_then (as_blob_result result) (fun result =>
               inl (CheckAnnotations obj repaired todo (results ++ [CheckAnnotation (CheckAnnotationChecked digest result false)]))))
       end, s)
  end.

(** ** Tags and environments *)

Inductive CheckItem :=
| CheckItemStart (item : EnvSpecItem)
| CheckItemObject (future : CheckFuture)
| CheckItemTag (tag : Tag time) (future : CheckFuture).
Definition as_check_item (r : CheckFuture + res SpfsError CheckObjectResult) : CheckItem + res SpfsError (CheckEnvItemResult time) :=
  match r with inl future => inl (CheckItemObject future) | inr r => and_then r (fun result => inr (Ok (CheckEnvObject result))) end.
(** [check_env_item], [check_partial_digest], [check_tag_spec] and [check_tag]. *)
Definition check_env_item (path : list nat) (now : time) (future : CheckItem) s : (CheckItem + res SpfsError (CheckEnvItemResult time)) * Checking :=
  match future with
  | CheckItemStart (ItemDigest digest) => (inl (CheckItemObject (CheckDigest digest)), s)
  | CheckItemStart (ItemPartialDigest partial) =>
      (and_then (resolve_full_digest (repo_of s) partial) (fun digest => inl (CheckItemObject (CheckDigest digest))), s)
  | CheckItemStart (ItemTagSpec spec) =>
      (match check_resolve_tag (dest_tags (syncer s)) spec with
       | Ok tag => inl (CheckItemTag tag (CheckDigest (tag_target tag)))
       | Err (UnknownReference _) => inr (Ok (CheckEnvTag CheckTagMissing))
       | Err e => inr (Err e)
       | Panicked => inr Panicked
       end, s)
  | CheckItemStart ItemSpecFile => (inr (Ok (CheckEnvObject CheckIgnorable)), s)
  | CheckItemObject future => let '(r, s) := check_future path now future s in (as_check_item r, s)
  | CheckItemTag tag future =>
      let '(r, s) := check_future path now future s in
      (match r with
       | inl future => inl (CheckItemTag tag future)
       | inr r => and_then r (fun result => inr (Ok (CheckEnvTag (CheckTagChecked tag result))))
       end, s)
  end.
(** [check_tag_stream]: the tags of the stream one after the other. *)
Inductive CheckStream :=
| StreamStart (spec : res SpfsError TagSpec)
| StreamNext (spec : TagSpec) (todo : list (res SpfsError (Tag time))) (results : list (CheckTagResult time))
| StreamTag (spec : TagSpec) (tag : Tag time) (future : CheckFuture) (todo : list (res SpfsError (Tag time))) (results : list (CheckTagResult time)).
Definition check_tag_stream (path : list nat) (now : time) (future : CheckStream) s : (CheckStream + res SpfsError (CheckTagStreamResult time)) * Checking :=
  match future with
  | StreamStart spec =>
      (and_then spec (fun spec =>
         match check_read_tag (dest_tags (syncer s)) spec with
         | Ok stream => inl (StreamNext spec stream [])
         | Err (UnknownReference _) => inr (Ok StreamMissing)
         | Err e => inr (Err e)
         | Panicked => inr Panicked
         end), s)
  | StreamNext spec [] results => (inr (Ok (StreamChecked spec results)), s)
  | StreamNext spec (tag :: todo) results => (and_then tag (fun tag => inl (StreamTag spec tag (CheckDigest (tag_target tag)) todo results)), s)
  | StreamTag spec tag future todo results =>
      let '(r, s) := check_future path now future s in
      (match r with
       | inl future => inl (StreamTag spec tag future todo results)
       | inr r => and_then r (fun result => inl (StreamNext spec todo (results ++ [CheckTagChecked tag result])))
       end, s)
  end.

Context (schedule : nat -> list nat * time).
(** Futures that run together until all have returned; [None] when there was not
    enough fuel. *)
Fixpoint collect {A R} (step_of : list nat -> time -> A -> Checking -> (A + res SpfsError R) * Checking) (fuel step : nat) (running : list A) (results : list R) s :
    option (res SpfsError (list R) * Checking) :=
  match running with
  | [] => Some (Ok results, s)
  | _ =>
      match fuel with
      | O => None
      | S fuel =>
          let '(path, now) := schedule step in
          let '(r, s) := step_nth (step_of (tl path) now) (hd 0 path mod length running) running s in
          match r with
          | inl running => collect step_of fuel (S step) running results s
          | inr (Ok result, running) => collect step_of fuel (S step) running (results ++ [result]) s
          | inr (Err e, _) => Some (Err e, s)
          | inr (Panicked, _) => Some (Panicked, s)
          end
      end
  end.
Definition check_env (fuel : nat) (env : list EnvSpecItem) s := collect check_env_item fuel 0 (CheckItemStart <$> env) [] s.
Definition check_all_objects (fuel : nat) s := collect check_future fuel 0 (CheckDigest <$> find_digests (repo_of s) SearchAll) [] s.
Definition check_all_tags (fuel : nat) s := collect check_tag_stream fuel 0 (StreamStart <$> check_iter_tags (dest_tags (syncer s))) [] s.
End check.
Arguments CheckFuture D time : clear implicits.
Arguments CheckItem D time : clear implicits.
Arguments CheckStream D time : clear implicits.
