(* ===== verification/CheckTheory.v ===== *)
(** * What checking reports

    The theory of [Check]: an invariant of the progress of a check and of its
    futures, which every step keeps, and what it says of the summary when all
    futures have returned. *)

From stdpp Require Import gmap.
From S2P Require Import CleanTheory Prelude Strings Collections Encoding TagSpec Tags Entry Manifest Objects ObjectStore Sync SyncTheory SyncEnds Check.

#[local] Set Warnings "-register-all".

(** ** What a summary reports *)

(** Something that is not there: an object or a payload. *)
Inductive Loss := NoObject (digest : Digest) | NoPayload (digest : Digest).
Definition reports (m : CheckSummary) (l : Loss) : Prop :=
  match l with NoObject d => d ∈ missing_objects m | NoPayload d => d ∈ missing_payloads m end.
Definition lost (r : CheckObjectResult) : Loss -> Prop := reports (CheckObjectResult_summary r).
Definition told (rs : list CheckObjectResult) (l : Loss) : Prop := exists r, r ∈ rs /\ lost r l.

Lemma reports_add a b l : reports (check_add a b) l <-> reports a l \/ reports b l.
Proof. destruct l; cbn; set_solver. Qed.
Lemma reports_none m l : missing_objects m = ∅ -> missing_payloads m = ∅ -> ~ reports m l.
Proof. intros Ho Hp. destruct l; cbn; rewrite ?Ho, ?Hp; set_solver. Qed.
Lemma reports_default l : ~ reports CheckSummary_default l.
Proof. by apply reports_none. Qed.
Lemma reports_fold ms m l : reports (fold_left check_add ms m) l <-> reports m l \/ exists m', m' ∈ ms /\ reports m' l.
Proof.
  revert m. induction ms as [|m' ms IH]; intros m; cbn [fold_left].
  - split; [auto|]. intros [?|(m' & []%elem_of_nil & _)]. done.
  - rewrite IH, reports_add. setoid_rewrite elem_of_cons. naive_solver.
Qed.
Lemma reports_sum ms l : reports (check_sum ms) l <-> exists m, m ∈ ms /\ reports m l.
Proof. unfold check_sum. rewrite reports_fold. pose proof (reports_default l). tauto. Qed.
Lemma reports_group repaired ms l : reports (group_summary repaired ms) l <-> exists m, m ∈ ms /\ reports m l.
Proof.
  rewrite <-reports_sum. unfold group_summary. pose proof (reports_none checked_one_object l eq_refl eq_refl).
  pose proof (reports_none (mkCheckSummary 0 0 ∅ 1 0 ∅ 0 0 0) l eq_refl eq_refl). cbv zeta. destruct repaired; do 2 rewrite ?reports_add; tauto.
Qed.
Lemma reports_map (f : CheckObjectResult -> CheckSummary) rs l : (exists m, m ∈ List.map f rs /\ reports m l) <-> exists r, r ∈ rs /\ reports (f r) l.
Proof.
  split.
  - intros (m & (r & <- & Hr%list_elem_of_In)%list_elem_of_In%in_map_iff & Hm). by exists r.
  - intros (r & Hr & Hl). exists (f r). split; [|done]. apply list_elem_of_In, in_map_iff. exists r. split; [done|by apply list_elem_of_In].
Qed.
Lemma lost_flagged repaired r l : lost (flagged repaired r) l <-> lost r l.
Proof.
  destruct repaired; [|done]. unfold lost. cbn [flagged]. destruct r as [| | |b p rs|b y rs|[|d|b o r]|b m rs|[|d r b]]; try done; cbn [set_repaired CheckObjectResult_summary];
    by rewrite !reports_group.
Qed.
Lemma lost_children obj repaired rs l : lost (children_checked obj repaired rs) l <-> told rs l.
Proof.
  unfold children_checked. rewrite lost_flagged. unfold lost, told. destruct (to_enum obj); cbn [CheckObjectResult_summary]; by rewrite reports_group, reports_map.
Qed.
Lemma lost_blob obj repaired result l : lost (blob_checked obj repaired result) l <-> match result with PayloadMissing d => l = NoPayload d | _ => False end.
Proof.
  unfold blob_checked. rewrite lost_flagged. unfold lost. cbn [CheckObjectResult_summary CheckBlobResult_summary]. rewrite reports_add.
  destruct result, l; cbn; set_solver.
Qed.
Lemma lost_as_blob r b l : as_blob_result r = Ok b -> reports (CheckBlobResult_summary b) l <-> lost r l.
Proof. by destruct r; try done; intros [= <-]. Qed.
Lemma lost_missing d l : lost (CheckMissing d) l <-> l = NoObject d.
Proof. destruct l; cbn; set_solver. Qed.
Lemma told_app rs rs' l : told (rs ++ rs') l <-> told rs l \/ told rs' l.
Proof. unfold told. setoid_rewrite elem_of_app. naive_solver. Qed.
Lemma told_nil l : ~ told [] l.
Proof. by intros (r & []%elem_of_nil & _). Qed.
Lemma told_one r l : told [r] l <-> lost r l.
Proof. unfold told. setoid_rewrite list_elem_of_singleton. naive_solver. Qed.
Lemma told_annotations layer l :
  ~ told match ly_annotations layer with [] => [CheckAnnotation CheckInternalValue] | _ => [] end l.
Proof. destruct (ly_annotations layer); [rewrite told_one; apply reports_default|apply told_nil]. Qed.

Section check.
Context {D time : Type} `{fs : !FileSystem time, !TagSync D time, !TagCheck D time} (repair_with : option (Source D time)).
Abbreviation Checking := (Checking D time).
Abbreviation CheckFuture := (CheckFuture D time).
Implicit Types (s : Checking) (d c x : Digest) (t : CheckFuture) (σ : Repo time) (f : list CheckObjectResult) (h : list (Digest * CheckProgress)).

Section future_ind.
Variable P : CheckFuture -> Prop.
Definition alone (t : CheckFuture) : bool :=
  match t with CheckChildren _ _ _ _ | CheckLayerManifest _ _ _ _ | CheckAnnotationOf _ _ _ _ _ _ => false | _ => true end.
Hypothesis Halone : forall t, alone t = true -> P t.
Hypothesis Hchildren : forall obj repaired running results, (forall t, t ∈ running -> P t) -> P (CheckChildren obj repaired running results).
Hypothesis Hlayer : forall obj layer repaired t, P t -> P (CheckLayerManifest obj layer repaired t).
Hypothesis Hannotation : forall obj repaired d t todo results, P t -> P (CheckAnnotationOf obj repaired d t todo results).
Lemma check_future_ind t : P t.
Proof.
  revert t. fix IH 1. intros t. destruct t; try (by apply Halone).
  - apply Hchildren. induction running as [|t running IHr]; [clear IH; by intros t ?%elem_of_nil|].
    intros u [-> | Hu]%elem_of_cons; [apply IH|clear IH; by apply IHr].
  - apply Hlayer, IH.
  - apply Hannotation, IH.
Qed.
End future_ind.

(** ** States *)

(** Objects are stored under their digests. *)
Definition named σ : Prop := forall d obj, read_object σ d = Ok obj -> Object_digest sha256 obj = Ok d.
Definition met s d : Prop := is_Some (progress s !! d).
Definition begun s d : Prop := progress s !! d = Some CheckStarted.
(** What never goes away. *)
Record grows s s' : Prop := {
  grows_syncer : adds (syncer s) (syncer s');
  grows_met : forall d, met s d -> met s' d;
  grows_begun : forall d, begun s d -> begun s' d;
}.
#[export] Instance grows_preorder : PreOrder grows.
Proof. split; [by split|]. intros a b e [? ? ?] [? ? ?]. split; [by etrans|auto..]. Qed.
Lemma read_grows s s' d obj : grows s s' -> read_object (repo_of s) d = Ok obj -> read_object (repo_of s') d = Ok obj.
Proof.
  intros [[Ho _ _] _ _]. unfold read_object, repo_of. destruct (objects (dest (syncer s)) !! d) as [o|] eqn:E; [|done].
  by rewrite (lookup_weaken _ _ _ _ E Ho).
Qed.
Lemma named_grows s s' : grows s s' -> named (repo_of s') -> named (repo_of s).
Proof. intros Hg Hn d obj Hr. by eapply Hn, read_grows. Qed.
Lemma set_progress_grows d p s : (begun s d -> p = CheckStarted) -> grows s (set_progress d p s).
Proof.
  intros Hp. split; [done|..]; unfold met, begun in *; cbn [set_progress progress]; intros x Hx.
  - destruct (decide (x = d)) as [->|]; [rewrite lookup_insert_eq; by eexists|by rewrite lookup_insert_ne].
  - destruct (decide (x = d)) as [->|]; [rewrite lookup_insert_eq; by rewrite Hp|by rewrite lookup_insert_ne].
Qed.
Lemma with_syncer_grows s sync : adds (syncer s) sync -> grows s (with_syncer sync s).
Proof. by split. Qed.
Lemma step_nth_grows {A R} (step : A -> Checking -> (A + R) * Checking) l i s : (forall a s, a ∈ l -> grows s (step a s).2) -> grows s (step_nth step i l s).2.
Proof.
  revert i s. induction l as [|a l IH]; intros i s H; [done|]. destruct i as [|i]; cbn [step_nth].
  - specialize (H a s). destruct (step a s) as [[a'|r] s']; apply H, elem_of_cons; by left.
  - specialize (IH i s). destruct (step_nth step i l s) as [[l'|[r l']] s']; apply IH; intros; apply H, elem_of_cons; by right.
Qed.
Lemma check_future_grows t path now s : grows s (check_future repair_with path now t s).2.
Proof.
  revert path s. induction t as [t Ht|obj repaired running results IH|obj layer repaired t IH|obj repaired d t todo results IH] using check_future_ind; intros path s.
  - destruct t as [d|d|d src f|d|obj repaired|obj blob repaired|obj blob repaired src f| | |obj repaired todo results|]; try done; cbn [check_future].
    + destruct (progress s !! d) eqn:E; [done|]. apply set_progress_grows. unfold begun. by rewrite E.
    + pose proof (future_adds repair_policy src f path now (syncer s)) as H. destruct (sync_future _ _ _ _ _ _). by apply with_syncer_grows.
    + destruct (Object_digest sha256 obj) as [d|e|]; [|done..]. case_bool_decide; [done|]. by apply set_progress_grows.
    + pose proof (payload_adds repair_policy src (bl_payload blob) f (syncer s)) as H. destruct (sync_payload _ _ _ _ _). by apply with_syncer_grows.
    + by destruct todo.
  - cbn [check_future]. destruct running as [|t0 running]; [done|].
    match goal with |- context [step_nth ?f ?i ?l s] => pose proof (step_nth_grows f l i s) as H; destruct (step_nth f i l s) end. apply H.
    intros a s' Ha. by apply IH.
  - cbn [check_future]. specialize (IH path s). by destruct (check_future _ _ _ _ _).
  - cbn [check_future]. specialize (IH path s). by destruct (check_future _ _ _ _ _).
Qed.

(** ** What a future has met and what it has found *)

Fixpoint found t : list CheckObjectResult :=
  match t with
  | CheckChildren _ _ running results => results ++ flat_map found running
  | CheckLayerManifest _ _ _ t => found t
  | CheckAnnotations _ _ _ results => results
  | CheckAnnotationOf _ _ _ t _ results => results ++ found t
  | _ => []
  end.
Definition holds (p : CheckProgress) (obj : Object) : list (Digest * CheckProgress) := (fun d => (d, p)) <$> own_digest obj.
(** The digests whose progress the future is responsible for. *)
Fixpoint held t : list (Digest * CheckProgress) :=
  match t with
  | CheckDigest _ => []
  | LoadObject d | RepairObject d _ _ | ReloadObject d => [(d, LoadStarted)]
  | CheckObject obj _ => holds LoadStarted obj
  | CheckPayload obj _ _ | RepairPayload obj _ _ _ _ | CheckAnnotations obj _ _ _ => holds CheckStarted obj
  | CheckChildren obj _ running _ => holds CheckStarted obj ++ flat_map held running
  | CheckLayerManifest obj _ _ t | CheckAnnotationOf obj _ _ t _ _ => holds CheckStarted obj ++ held t
  end.
Lemma holds_named s d obj p : named (repo_of s) -> read_object (repo_of s) d = Ok obj -> holds p obj = [(d, p)].
Proof. intros Hn Hr%Hn. unfold holds, own_digest. by rewrite Hr. Qed.

(** What is known of a digest that was checked: its children were met, and its
    payload is there, was reported, or was synced before. *)
Definition settled s f d : Prop := exists obj, read_object (repo_of s) d = Ok obj /\ (forall c, c ∈ child_objects obj -> met s c) /\
  forall blob, to_enum obj = ObjBlob blob ->
    has_payload (repo_of s) (bl_payload blob) = true \/ told f (NoPayload (bl_payload blob)) \/ repair_with <> None /\ bl_payload blob ∈ processed (syncer s).
Definition resolved s f d (p : CheckProgress) : Prop := match p with LoadStarted => told f (NoObject d) | CheckStarted => settled s f d end.
Lemma resolved_grows s s' f f' d p : grows s s' -> (forall l, told f l -> told f' l) -> resolved s f d p -> resolved s' f' d p.
Proof.
  intros Hg Hf. destruct p; cbn [resolved]; [auto|]. intros (obj & Hr & Hc & Hb). exists obj. split_and!; [by eapply read_grows|intros; apply Hg; auto|].
  intros blob E. destruct (Hb blob E) as [Hp|[?|[Hrep Hp]]]; [left|by right; left; auto|right; right].
  - apply has_payload_paid. apply has_payload_paid in Hp. by apply (grows_syncer _ _ Hg).
  - split; [done|]. by apply (grows_syncer _ _ Hg).
Qed.
(** A step: the progress it makes is in what is held after it, and what is no
    longer held has been resolved. *)
Record advances s h f s' h' f' : Prop := {
  adv_grows : grows s s';
  adv_new : forall d p, progress s' !! d = Some p -> progress s !! d = Some p \/ (d, p) ∈ h';
  adv_held : forall d p, (d, p) ∈ h -> progress s' !! d = Some p -> (d, p) ∈ h' \/ resolved s' f' d p;
  adv_told : forall l, told f l -> told f' l;
}.
Definition covered s h f : Prop := forall d p, progress s !! d = Some p -> (d, p) ∈ h \/ resolved s f d p.
Lemma covered_advances s h f s' h' f' : covered s h f -> advances s h f s' h' f' -> covered s' h' f'.
Proof.
  intros Hc [Hg Hn Hh Ht] d p Hp. destruct (Hn d p Hp) as [Ho|]; [|by left]. destruct (Hc d p Ho) as [|Hr]; [by apply Hh|].
  right. by eapply resolved_grows.
Qed.
Lemma advances_frame s h f s' h' f' H F H' F' : advances s h f s' h' f' -> (forall e, e ∈ H -> e ∈ h \/ e ∈ H') -> (forall e, e ∈ h' -> e ∈ H') ->
  (forall l, told F l -> told f l \/ told F' l) -> (forall l, told f' l -> told F' l) -> advances s H F s' H' F'.
Proof.
  intros [Hg Hn Hh Ht] H1 H2 H3 H4. split; [done|..].
  - intros d p Hp. destruct (Hn d p Hp); auto.
  - intros d p [Hd|]%H1 Hp; [|by left]. destruct (Hh d p Hd Hp) as [|Hr]; [auto|right]. exact (resolved_grows s' s' _ _ _ _ (reflexivity _) H4 Hr).
  - intros l Hl. destruct (H3 l Hl); auto.
Qed.
Lemma advances_same s s' h f h' f' : grows s s' -> progress s' = progress s -> (forall d p, (d, p) ∈ h -> progress s !! d = Some p -> (d, p) ∈ h' \/ resolved s' f' d p) ->
  (forall l, told f l -> told f' l) -> advances s h f s' h' f'.
Proof. intros Hg Hp Hh Ht. split; [done| |by rewrite Hp|done]. rewrite Hp. auto. Qed.

(** ** What is known of futures *)

Context (sync0 : Syncing D time) (asked : Digest -> Prop) (kind_of : Digest -> ObjectKind).
Context (Hsource : forall source, repair_with = Some source -> source_ok source kind_of).
(** Without a source to repair with, nothing is changed, what is looked at can be
    reached from what was asked for, and what is reported is not there; with one,
    the blobs that were synced have their payloads. *)
Definition steady s : Prop := (repair_with = None -> syncer s = sync0) /\ vouched kind_of (syncer s).
Definition rooted d : Prop := repair_with = None -> reachable (dest sync0) asked d.
Definition absent σ d : Prop := exists x, read_object σ d = Err (UnknownObject x).
Definition unpaid σ (roots : Digest -> Prop) d : Prop := exists x obj blob, reachable σ roots x /\ read_object σ x = Ok obj /\
  to_enum obj = ObjBlob blob /\ bl_payload blob = d /\ has_payload σ d = false.
Definition truly (l : Loss) : Prop := repair_with = None ->
  match l with NoObject d => reachable (dest sync0) asked d /\ absent (dest sync0) d | NoPayload d => unpaid (dest sync0) asked d end.
Definition truthful f : Prop := forall l, told f l -> truly l.
Class Tracks A R := {
  t_ok : Checking -> A -> Prop;
  t_held : A -> list (Digest * CheckProgress);
  t_found : A -> list CheckObjectResult;
  t_aims : Digest -> A -> Prop;
  t_results : R -> list CheckObjectResult;
  t_targets : R -> list Digest;
}.
(** A step of a future: it goes on, or returns what it has found. *)
Definition advance {A R} `{Tracks A R} s (a : A) (q : A + res SpfsError R) s' : Prop :=
  match q with
  | inl a' => steady s' /\ t_ok s' a' /\ advances s (t_held a) (t_found a) s' (t_held a') (t_found a') /\ forall c, t_aims c a -> met s' c \/ t_aims c a'
  | inr (Ok r) => steady s' /\ advances s (t_held a) (t_found a) s' [] (t_results r) /\ (forall c, t_aims c a -> met s' c) /\
      truthful (t_results r) /\ forall d, d ∈ t_targets r -> met s' d
  | inr _ => True
  end.
Definition waits {A R} `{Tracks A R} s (children : Digest -> Prop) (running : list A) : Prop :=
  (forall a, a ∈ running -> t_ok s a) /\ forall c, children c -> met s c \/ exists a, a ∈ running /\ t_aims c a.
Ltac framed := intros *; rewrite ?flat_map_app, ?elem_of_app, ?told_app; cbn [flat_map]; rewrite ?elem_of_app, ?told_app; tauto.
Lemma check_waits_replace {A R} `{Tracks A R} s s' children l1 a l2 q' : (forall s s' a, grows s s' -> t_ok s a -> t_ok s' a) -> grows s s' ->
  waits s children (l1 ++ a :: l2) -> (forall b, b ∈ q' -> t_ok s' b) -> (forall c, t_aims c a -> met s' c \/ exists b, b ∈ q' /\ t_aims c b) ->
  waits s' children (l1 ++ q' ++ l2).
Proof.
  intros Hmono Hg [Hall Hc] Hq' Hca. split.
  - intros b. rewrite !elem_of_app. intros [Hb|[Hb|Hb]]; [|auto|]; (apply (Hmono s); [done|]); apply Hall; rewrite elem_of_app, elem_of_cons; auto.
  - intros c Hin. destruct (Hc c Hin) as [?|(b & Hb & Hcb)]; [left; by apply Hg|]. rewrite elem_of_app, elem_of_cons in Hb.
    destruct Hb as [Hb|[-> |Hb]]; [right; exists b; rewrite !elem_of_app; auto| |right; exists b; rewrite !elem_of_app; auto].
    destruct (Hca c Hcb) as [|(b & ? & ?)]; [by left|right; exists b; rewrite !elem_of_app; auto].
Qed.
Lemma check_join_step {A R} `{Tracks A R} (step : A -> Checking -> (A + res SpfsError R) * Checking) s children bh bf running i r s' :
  (forall s s' a, grows s s' -> t_ok s a -> t_ok s' a) ->
  (forall a q s', a ∈ running -> t_ok s a -> step a s = (q, s') -> advance s a q s') ->
  waits s children running -> i < length running -> step_nth step i running s = (r, s') ->
  let after f running' := steady s' /\ waits s' children running' /\
    advances s (bh ++ flat_map t_held running) (bf ++ flat_map t_found running) s' (bh ++ flat_map t_held running') (f ++ flat_map t_found running') in
  match r with
  | inl running' => after bf running'
  | inr (Ok result, running') => after (bf ++ t_results result) running' /\ truthful (t_results result) /\ forall d, d ∈ t_targets result -> met s' d
  | inr _ => True
  end.
Proof.
  intros Hmono Hstep Hw Hi E after. apply step_nth_spec in E as (l1 & a & l2 & q & -> & Es & ->); [|done].
  assert (a ∈ l1 ++ a :: l2) as Ha by (rewrite elem_of_app, elem_of_cons; auto).
  pose proof (Hstep _ _ _ Ha (proj1 Hw a Ha) Es) as Hadv. destruct q as [a'|[result|e|]]; cbn [advance] in Hadv; [| |done..].
  - destruct Hadv as (Hs & Hok & Hadv & Haims). split_and!; [done|apply (check_waits_replace s _ _ _ a _ [a'])|]; try done; [apply Hadv| | |].
    + by intros b ->%list_elem_of_singleton.
    + intros c [?|?]%Haims; [by left|right]. exists a'. split; [by apply list_elem_of_singleton|done].
    + eapply advances_frame; [exact Hadv|framed..].
  - destruct Hadv as (Hs & Hadv & Haims & Ht & Hm). split; [|done]. split_and!; [done|apply (check_waits_replace s _ _ _ a _ [])|]; try done; [apply Hadv| | |].
    + by intros b ?%elem_of_nil.
    + auto.
    + eapply advances_frame; [exact Hadv|..]; [framed|by intros e ?%elem_of_nil|framed|framed].
Qed.

(** ** Futures of objects *)

Definition promised s t c : Prop := met s c \/ t = CheckDigest c.
Inductive ok s : CheckFuture -> Prop :=
| ok_digest d : rooted d -> ok s (CheckDigest d)
| ok_load d : rooted d -> met s d -> ok s (LoadObject d)
| ok_repair d source sync : repair_with = Some source -> met s d -> pays source kind_of (syncer s) sync -> ok s (RepairObject d source sync)
| ok_reload d : repair_with <> None -> met s d -> ok s (ReloadObject d)
| ok_object d obj repaired : rooted d -> met s d -> read_object (repo_of s) d = Ok obj -> ok s (CheckObject obj repaired)
| ok_payload d obj blob repaired : rooted d -> begun s d -> read_object (repo_of s) d = Ok obj -> to_enum obj = ObjBlob blob ->
    ok s (CheckPayload obj blob repaired)
| ok_repair_payload d obj blob repaired source sync : repair_with <> None -> begun s d -> read_object (repo_of s) d = Ok obj -> to_enum obj = ObjBlob blob ->
    ok s (RepairPayload obj blob repaired source sync)
| ok_children d obj repaired running results : rooted d -> begun s d -> read_object (repo_of s) d = Ok obj -> (forall blob, to_enum obj <> ObjBlob blob) ->
    (forall t, t ∈ running -> ok s t) -> (forall c, c ∈ child_objects obj -> met s c \/ exists t, t ∈ running /\ t = CheckDigest c) ->
    truthful results -> ok s (CheckChildren obj repaired running results)
| ok_layer d obj layer repaired m t : rooted d -> begun s d -> read_object (repo_of s) d = Ok obj -> to_enum obj = ObjLayer layer ->
    ly_manifest layer = Some m -> ok s t -> promised s t m -> ok s (CheckLayerManifest obj layer repaired t)
| ok_annotations d obj layer repaired todo results : rooted d -> begun s d -> read_object (repo_of s) d = Ok obj -> to_enum obj = ObjLayer layer ->
    (forall c, c ∈ child_objects obj -> met s c \/ c ∈ todo ≫= Annotation_child_objects) ->
    (forall c, c ∈ todo ≫= Annotation_child_objects -> c ∈ child_objects obj) -> truthful results ->
    ok s (CheckAnnotations obj repaired todo results)
| ok_annotation d obj layer repaired c t todo results : rooted d -> begun s d -> read_object (repo_of s) d = Ok obj -> to_enum obj = ObjLayer layer ->
    ok s t -> promised s t c -> (forall x, x ∈ child_objects obj -> met s x \/ x = c \/ x ∈ todo ≫= Annotation_child_objects) ->
    (forall x, x ∈ todo ≫= Annotation_child_objects -> x ∈ child_objects obj) -> truthful results ->
    ok s (CheckAnnotationOf obj repaired c t todo results).
#[local] Hint Constructors ok : core.
#[export] Instance future_tracks : Tracks CheckFuture CheckObjectResult := {
  t_ok := ok; t_held := held; t_found := found; t_aims c t := t = CheckDigest c; t_results r := [r]; t_targets _ := [];
}.
Lemma ok_grows s s' t : grows s s' -> ok s t -> ok s' t.
Proof.
  intros Hg. assert (forall d obj, read_object (repo_of s) d = Ok obj -> read_object (repo_of s') d = Ok obj) as Hr by (intros; by eapply read_grows).
  destruct Hg as [Hadd Hm Hb]. assert (forall t c, promised s t c -> promised s' t c) as Hp by (intros ? ? [?|?]; [left; auto|by right]).
  induction t as [t Ht|obj repaired running results IH|obj layer repaired t IH|obj repaired d t todo results IH] using check_future_ind; intros H.
  - destruct t; try done; inversion H; subst; eauto using pays_adds. eapply ok_annotations; eauto.
    match goal with Hc : forall c, _ -> met s c \/ _ |- _ => intros c [?|?]%Hc; auto end.
  - inversion H as [| | | | | | |d ? ? ? ? Hd ? ? ? Hall Hc ?| | |]; subst. apply (ok_children s' d); [done|by apply Hb|by apply Hr|done|auto| |done]. intros c [?|?]%Hc; auto.
  - inversion H as [| | | | | | | |d ? ? ? m ? ? Hd ? ? ? Ht Hpm| |]; subst. apply (ok_layer s' d _ _ _ m); auto.
  - inversion H as [| | | | | | | | | |d0 ? ? ? ? ? ? ? Hd ? ? ? Ht ? Hc ?]; subst. apply (ok_annotation s' d0 _ layer); auto. intros x [?|?]%Hc; auto.
Qed.

(** ** Steps *)

Lemma goes_on s s' t t' : grows s s' -> progress s' = progress s -> steady s' -> ok s' t' -> (forall e, e ∈ held t -> e ∈ held t') ->
  (forall l, told (found t) l -> told (found t') l) -> (forall c, t <> CheckDigest c) -> advance s t (inl t') s'.
Proof.
  intros Hg Hp Hs Hok Hh Hf Ht. cbn [advance t_ok t_held t_found t_aims future_tracks]. split_and!; [done..| |by intros c ?%Ht].
  apply advances_same; try done. intros d p ? _. left. auto.
Qed.
Lemma returns s s' t r : grows s s' -> progress s' = progress s -> steady s' -> (forall d p, (d, p) ∈ held t -> progress s !! d = Some p -> resolved s' [r] d p) ->
  (forall l, told (found t) l -> lost r l) -> (forall c, t = CheckDigest c -> met s c) -> (forall l, lost r l -> truly l) -> advance s t (inr (Ok r)) s'.
Proof.
  intros Hg Hp Hs Hh Hf Ht Hr. cbn [advance t_ok t_held t_found t_aims t_results t_targets future_tracks]. split_and!; [done|..].
  - apply advances_same; try done; [auto|]. intros l ?%Hf. by apply told_one.
  - intros c ?%Ht. by apply Hg.
  - intros l ?%told_one. auto.
  - by intros d ?%elem_of_nil.
Qed.
Lemma rooted_child s d obj c : steady s -> rooted d -> read_object (repo_of s) d = Ok obj -> c ∈ child_objects obj -> rooted c.
Proof. intros Hs Hd Hr Hc Hn. apply (reach_child _ _ d obj); [by apply Hd|unfold repo_of in Hr; by rewrite (proj1 Hs Hn) in Hr|done]. Qed.
Lemma truly_repairing l : repair_with <> None -> truly l.
Proof. by intros H Hn. Qed.
Lemma rooted_repairing d : repair_with <> None -> rooted d.
Proof. by intros H Hn. Qed.
Lemma progress_set d p s : progress (set_progress d p s) !! d = Some p.
Proof. apply lookup_insert_eq. Qed.
(** The progress of a digest goes on to [p]. *)
Lemma moves_on s d p t t' : steady s -> (begun s d -> p = CheckStarted) -> ok (set_progress d p s) t' -> (d, p) ∈ held t' -> (forall e, e ∈ held t -> e.1 = d /\ e.2 <> p) ->
  found t = [] -> (forall c, t = CheckDigest c -> c = d) -> advance s t (inl t') (set_progress d p s).
Proof.
  intros Hs Hb Hok Hin Hh Hf Ht. cbn [advance t_ok t_held t_found t_aims future_tracks]. split_and!; [done..| |].
  - split; [by apply set_progress_grows|..].
    + intros x q. cbn [set_progress progress]. destruct (decide (x = d)) as [->|]; [rewrite lookup_insert_eq; intros [= <-]; by right|rewrite lookup_insert_ne by done; auto].
    + intros x q [Hx Hq]%Hh. cbn [fst snd] in *. subst x. rewrite progress_set. congruence.
    + rewrite Hf. by intros l ?%told_nil.
  - intros c ->%Ht. left. unfold met. rewrite progress_set. by eexists.
Qed.
Lemma read_again_step s t d repaired missing : steady s -> met s d -> (forall e, e ∈ held t -> e = (d, LoadStarted)) -> found t = [] -> (forall c, t <> CheckDigest c) ->
  named (repo_of s) -> rooted d -> (absent (repo_of s) d -> advance s t missing s) -> advance s t (read_again d repaired s missing) s.
Proof.
  intros Hs Hm Hh Hf Ht Hn Hd Hmiss. unfold read_again. destruct (read_object (repo_of s) d) as [obj|e|] eqn:Er; [| |done].
  - apply goes_on; try done; [by eapply ok_object| |by rewrite Hf; intros l ?%told_nil]. intros e ->%Hh. cbn [held].
    rewrite (holds_named s d) by done. by apply list_elem_of_singleton.
  - destruct e; try done. apply Hmiss. by eexists.
Qed.
Lemma missing_step s s' t d : grows s s' -> progress s' = progress s -> steady s' -> (forall e, e ∈ held t -> e = (d, LoadStarted)) -> found t = [] -> (forall c, t <> CheckDigest c) ->
  truly (NoObject d) -> advance s t (inr (Ok (CheckMissing d))) s'.
Proof.
  intros Hg Hp Hs Hh Hf Ht Hl. apply returns; try done.
  - intros x q [= -> ->]%Hh _. cbn [resolved]. apply told_one. by apply lost_missing.
  - rewrite Hf. by intros l ?%told_nil.
  - intros c Hc. by destruct (Ht c).
  - by intros l ->%lost_missing.
Qed.
Lemma absent_truly s d : steady s -> rooted d -> absent (repo_of s) d -> truly (NoObject d).
Proof. intros Hs Hd Ha Hn. split; [by apply Hd|]. unfold repo_of in Ha. by rewrite (proj1 Hs Hn) in Ha. Qed.
Lemma layer_children layer obj : to_enum obj = ObjLayer layer ->
  forall c, c ∈ child_objects obj <-> ly_manifest layer = Some c \/ c ∈ ly_annotations layer ≫= Annotation_child_objects.
Proof.
  intros E c. unfold child_objects. rewrite E. cbn [Enum_child_objects]. unfold Layer_child_objects. rewrite elem_of_app.
  destruct (ly_manifest layer); [rewrite list_elem_of_singleton|rewrite elem_of_nil]; naive_solver.
Qed.
Lemma annotations_ok s d obj layer repaired result : steady s -> rooted d -> begun s d -> read_object (repo_of s) d = Ok obj -> to_enum obj = ObjLayer layer ->
  (forall c, ly_manifest layer = Some c -> met s c) -> truthful [result] -> ok s (check_annotations obj layer repaired result).
Proof.
  intros Hs Hd Hb Hr E Hm Ht. apply (ok_annotations s d _ layer); try done.
  - intros c [?|?]%(layer_children layer obj E); auto.
  - intros c Hc. apply (layer_children layer obj E). by right.
  - intros l. change (result :: ?x) with ([result] ++ x). rewrite told_app. intros [?|[]%told_annotations]. auto.
Qed.
Lemma contents_ok s d obj repaired : steady s -> rooted d -> begun s d -> read_object (repo_of s) d = Ok obj -> ok s (check_contents obj repaired).
Proof.
  intros Hs Hd Hb Hr. assert (forall c, c ∈ child_objects obj -> rooted c) as Hc by (intros; by eapply rooted_child).
  unfold check_contents. destruct (to_enum obj) as [p|layer|m|b] eqn:E; [| | |by eapply ok_payload].
  - apply (ok_children s d); try done; [by rewrite E|..|by intros l ?%told_nil]; intros c Hin.
    + apply list_elem_of_fmap in Hin as (x & -> & Hx). apply ok_digest, Hc. unfold child_objects. by rewrite E.
    + right. exists (CheckDigest c). split; [|done]. apply list_elem_of_fmap. exists c. split; [done|]. unfold child_objects in Hin. by rewrite E in Hin.
  - destruct (ly_manifest layer) as [m|] eqn:Em.
    + apply (ok_layer s d _ layer _ m); try done; [|by right]. apply ok_digest, Hc, (layer_children layer obj E). by left.
    + apply (annotations_ok s d); try done; [by rewrite Em|]. intros l []%told_one%reports_default.
  - assert (forall c, c ∈ child_objects obj <-> exists e, c = ge_object e /\ e ∈ List.filter (fun e => is_blob (ge_kind e)) (iter_entries m)) as Hch.
    { intros c. unfold child_objects. rewrite E. cbn [Enum_child_objects]. unfold GManifest_child_objects. rewrite elem_of_bset_extend, elem_of_nil, list_elem_of_fmap. naive_solver. }
    apply (ok_children s d); try done; [by rewrite E|..|by intros l ?%told_nil]; intros c Hin.
    + apply list_elem_of_fmap in Hin as (e & -> & He). apply ok_digest, Hc, Hch. by exists e.
    + apply Hch in Hin as (e & -> & He). right. exists (CheckDigest (ge_object e)). split; [|done]. apply list_elem_of_fmap. by exists e.
Qed.
Lemma payload_synced policy src d future (sync : Syncing D time) r sync' : sync_payload policy src d future sync = (inr (Ok r), sync') -> paid (dest sync') d \/ d ∈ processed sync'.
Proof.
  destruct future; cbn [sync_payload].
  - case_bool_decide; intros [= _ <-]. by right.
  - destruct (has_payload _ _) eqn:E; intros [= _ <-]. left. by apply has_payload_paid.
  - destruct (src_payload src d) as [payload|e|]; try done. unfold write_data, on_dest.
    destruct (fails WritePayload (sha256 payload)); cbn [fst snd and_then]; [done|]. case_bool_decide as Hd; [|done]. intros [= _ <-]. left.
    unfold paid, with_dest, with_payloads. cbn [dest payloads]. rewrite Hd, lookup_insert_eq. by eexists.
Qed.
Lemma blob_returns s s' t d obj blob repaired result : grows s s' -> progress s' = progress s -> steady s' -> named (repo_of s) -> held t = holds CheckStarted obj -> found t = [] ->
  (forall c, t <> CheckDigest c) -> read_object (repo_of s) d = Ok obj -> to_enum obj = ObjBlob blob ->
  match result with
  | PayloadMissing p => p = bl_payload blob /\ truly (NoPayload p)
  | _ => has_payload (repo_of s') (bl_payload blob) = true \/ repair_with <> None /\ bl_payload blob ∈ processed (syncer s')
  end -> advance s t (inr (Ok (blob_checked obj repaired result))) s'.
Proof.
  intros Hg Hp Hs Hn Hh Hf Ht Hr E Hres. apply returns; try done.
  - intros x q. rewrite Hh, (holds_named s d) by done. intros [= -> ->]%list_elem_of_singleton _. cbn [resolved]. exists obj. split_and!; [by eapply read_grows|..].
    + unfold child_objects. rewrite E. cbn [Enum_child_objects]. by intros c ?%elem_of_nil.
    + rewrite E. intros b [= <-]. rewrite told_one, lost_blob. destruct result as [p| |]; [right; left; by destruct Hres as [-> _]|tauto..].
  - rewrite Hf. by intros l ?%told_nil.
  - intros c Hc. by destruct (Ht c).
  - intros l Hl%lost_blob. destruct result as [p| |]; [subst l; by destruct Hres|done..].
Qed.
(** A future that waits for that of an object; [rest] is what it will come to later. *)
Lemma lift_step {A R} `{Tracks A R} s s' t q (wrap : CheckFuture -> A) (next : CheckObjectResult -> A + res SpfsError R) base results (top : Prop) (rest : Digest -> Prop) :
  advance s t q s' -> (forall u, t_held (wrap u) = base ++ held u) -> (forall u, t_found (wrap u) = results ++ found u) ->
  (forall u c, t_aims c (wrap u) <-> top /\ u = CheckDigest c \/ rest c) ->
  (forall u, steady s' -> grows s s' -> (forall c, promised s t c -> promised s' u c) -> ok s' u -> t_ok s' (wrap u)) ->
  (forall r, steady s' -> grows s s' -> (forall c, promised s t c -> met s' c) -> truthful [r] ->
     match next r with
     | inl a => t_ok s' a /\ (forall e, e ∈ base -> e ∈ t_held a) /\ (forall l, told (results ++ [r]) l -> told (t_found a) l) /\ forall c, rest c -> t_aims c a
     | inr (Ok x) => base = [] /\ (forall l, told (results ++ [r]) l -> told (t_results x) l) /\ truthful (t_results x) /\
         (forall c, ~ rest c) /\ forall d, d ∈ t_targets x -> met s' d
     | inr _ => True
     end) ->
  advance s (wrap t) (match q with inl u => inl (wrap u) | inr r => and_then r next end) s'.
Proof.
  intros Hadv Hh Hf Hw Hgo Hret. destruct q as [u|[r|e|]]; cbn [and_then]; [| |done..].
  - destruct Hadv as (Hs & Hok & Hadv & Haims). cbn [t_ok t_held t_found t_aims future_tracks] in *. cbn [advance].
    assert (forall c, promised s t c -> promised s' u c) as Hp by (intros c [?|?]; [left; by apply Hadv|by apply Haims]).
    split_and!; [done|apply Hgo; [done|by apply Hadv|done..]|eapply advances_frame; [exact Hadv|rewrite ?Hh, ?Hf; framed..]|].
    intros c [[Htop Hc]|?]%Hw; [|right; apply Hw; by right]. destruct (Hp c) as [?|?]; [by right|by left|right; apply Hw; by left].
  - destruct Hadv as (Hs & Hadv & Haims & Ht & _). cbn [t_ok t_held t_found t_aims t_results future_tracks] in *.
    assert (forall c, promised s t c -> met s' c) as Hm by (intros c [?|?]; [by apply Hadv|by apply Haims]).
    specialize (Hret r Hs (adv_grows _ _ _ _ _ _ Hadv) Hm Ht). destruct (next r) as [a|[x|e|]]; cbn [advance]; [| |done..].
    + destruct Hret as (Hok & Hb & Hl & Hrest). split_and!; [done..| |intros c [[_ Hc]|?]%Hw; [left; apply Hm; by right|auto]].
      eapply advances_frame; [exact Hadv|rewrite ?Hh, ?Hf..]; [intros e; rewrite elem_of_app; intros [?|?]; auto|by intros e ?%elem_of_nil|..].
      * intros l. rewrite told_app. intros [?|?]; [right; apply Hl, told_app|]; auto.
      * intros l ?. apply Hl, told_app. auto.
    + destruct Hret as (-> & Hl & Htr & Hrest & Htg). split_and!; [done| |intros c [[_ Hc]|Hc]%Hw; [apply Hm; by right|by destruct (Hrest c)]|done..].
      eapply advances_frame; [exact Hadv|rewrite ?Hh, ?Hf..]; [framed|by intros e ?%elem_of_nil|..].
      * intros l. rewrite told_app. intros [?|?]; [right; apply Hl, told_app|]; auto.
      * intros l ?. apply Hl, told_app. auto.
Qed.
Lemma steady_repairing sync s : repair_with <> None -> vouched kind_of sync -> steady (with_syncer sync s).
Proof. by intros H Hv; split. Qed.
Lemma alone_step t path now s q s' : alone t = true -> steady s -> named (repo_of s) -> ok s t ->
  check_future repair_with path now t s = (q, s') -> advance s t q s'.
Proof.
  intros Ht Hs Hn Hok. destruct t as [d|d|d source sync|d|obj repaired|obj blob repaired|obj blob repaired source sync| | |obj repaired todo results|]; try done; cbn [check_future].
  - inversion Hok; subst. destruct (progress s !! d) eqn:E; intros [= <- <-].
    + apply returns; try done; [by intros ? ? ?%elem_of_nil|by intros l ?%told_nil| |by intros l ?%reports_default]. intros x [= ->]. unfold met. rewrite E. by eexists.
    + apply moves_on; try done; [unfold begun; by rewrite E| |by left|by intros e ?%elem_of_nil|by intros x [= ->]].
      apply ok_load; [done|]. unfold met. rewrite progress_set. by eexists.
  - inversion Hok; subst. intros [= <- <-]. apply read_again_step; try done; [by intros e ?%list_elem_of_singleton|]. intros Ha.
    destruct repair_with as [source|] eqn:Erep.
    + apply goes_on; try done. apply ok_repair; [by rewrite Erep|done|apply pays_digest].
    + apply missing_step; try done; [by intros e ?%list_elem_of_singleton|by eapply absent_truly].
  - inversion Hok as [| |? ? ? Hrep Hm Hpays| | | | | | | |]; subst. pose proof (future_adds repair_policy source sync path now (syncer s)) as Hg.
    assert (repair_with <> None) as Hnot by (by rewrite Hrep).
    destruct (sync_future _ _ _ _ _ _) as [r sync'] eqn:Esync. intros [= <- <-]. apply with_syncer_grows in Hg as Hg'.
    apply (future_pays repair_policy source kind_of eq_refl (Hsource source Hrep)) in Esync as [Hv Hpays']; [|apply Hs|done].
    assert (steady (with_syncer sync' s)) as Hs' by by apply steady_repairing. assert (met (with_syncer sync' s) d) as Hm' by done.
    destruct r as [f'|[r|e|]]; [by apply goes_on; try done; apply ok_repair| | |done].
    + by apply goes_on; try done; apply ok_reload.
    + apply missing_step; try done; first [by intros e' ?%list_elem_of_singleton|by apply truly_repairing].
  - inversion Hok; subst. intros [= <- <-]. apply read_again_step; try done; [by intros e ?%list_elem_of_singleton|by apply rooted_repairing|].
    intros _. apply missing_step; try done; first [by intros e ?%list_elem_of_singleton|by apply truly_repairing].
  - inversion Hok as [| | | |d ? ? Hd Hm Hr| | | | | |]; subst. rewrite (Hn d obj Hr). case_bool_decide as Hb; intros [= <- <-].
    + apply returns; try done; [|by intros l ?%told_nil|by intros l ?%reports_default]. intros x p. cbn [held]. rewrite (holds_named s d) by done.
      intros [= -> ->]%list_elem_of_singleton. by rewrite Hb.
    + assert (begun (set_progress d CheckStarted s) d) as Hb' by apply progress_set.
      assert (ok (set_progress d CheckStarted s) (check_contents obj repaired)) as Hok' by by apply (contents_ok _ d).
      apply moves_on; try done.
      * assert ((d, CheckStarted) ∈ holds CheckStarted obj) by (rewrite (holds_named s d) by done; by apply list_elem_of_singleton).
        unfold check_contents, check_annotations. destruct (to_enum obj); [|destruct (ly_manifest layer)|..]; cbn [held]; rewrite ?elem_of_app; auto.
      * intros e. cbn [held]. rewrite (holds_named s d) by done. by intros ->%list_elem_of_singleton.
  - inversion Hok as [| | | | |d ? ? ? Hd Hb Hr E| | | | |]; subst. destruct (has_payload _ _) eqn:Ep; [|destruct repair_with as [source|] eqn:Erep]; intros [= <- <-].
    + apply (blob_returns s s _ d obj blob); try done. by left.
    + apply goes_on; try done. apply (ok_repair_payload s d); try done. by rewrite Erep.
    + apply (blob_returns s s _ d obj blob); try done. split; [done|]. intros _. unfold repo_of in *. rewrite <-(proj1 Hs Erep). exists d, obj, blob. split_and!; try done.
      rewrite (proj1 Hs Erep). by apply Hd.
  - inversion Hok as [| | | | | |d ? ? ? ? ? Hrep Hb Hr E| | | |]; subst. pose proof (payload_adds repair_policy source (bl_payload blob) sync (syncer s)) as Hg.
    destruct (sync_payload _ _ _ _ _) as [r sync'] eqn:Esync. intros [= <- <-]. apply with_syncer_grows in Hg as Hg'.
    pose proof (payload_vouched _ _ kind_of _ _ _ _ _ (proj2 Hs) Esync) as [Hv _]. assert (steady (with_syncer sync' s)) as Hs' by by apply steady_repairing.
    destruct r as [f'|[r|e|]]; [| | |done].
    + apply goes_on; try done. apply (ok_repair_payload _ d); try done; by eapply read_grows.
    + apply (blob_returns s (with_syncer sync' s) _ d obj blob); try done. apply payload_synced in Esync as [Hp|Hp]; [left|by right]. by apply has_payload_paid.
    + apply (blob_returns s (with_syncer sync' s) _ d obj blob); try done. split; [done|by apply truly_repairing].
  - inversion Hok as [| | | | | | | | |d ? layer ? ? ? Hd Hb Hr E Hc Ha Htr|]; subst. destruct todo as [|annotation todo]; intros [= <- <-].
    + apply returns; try done; [|intros l ?; by apply lost_children|intros l ?%lost_children; auto]. intros x p. cbn [held]. rewrite (holds_named s d) by done.
      intros [= -> ->]%list_elem_of_singleton _. exists obj. split_and!; [done| |by rewrite E]. intros c [?|[]%elem_of_nil]%Hc. done.
    + assert (forall c, c ∈ (annotation :: todo) ≫= Annotation_child_objects <->
        c ∈ match an_value annotation with AnnotationBlob digest => [digest] | _ => [] end \/ c ∈ todo ≫= Annotation_child_objects) as Hcons.
      { intros c. cbn [mbind list_bind]. unfold Annotation_child_objects at 1. by rewrite elem_of_app. }
      destruct (an_value annotation) as [v|digest].
      * apply goes_on; try done; [|cbn [found]; framed]. apply (ok_annotations s d _ layer); try done.
        -- intros c [?|[[]%elem_of_nil|?]%Hcons]%Hc; auto.
        -- intros c ?. apply Ha, Hcons. by right.
        -- intros l [?|[]%told_one%reports_default]%told_app. auto.
      * apply goes_on; try done; [|cbn [found held]; framed..]. apply (ok_annotation s d _ layer); try done.
        -- apply ok_digest. apply (rooted_child s d obj); try done. apply Ha, Hcons. left. by apply list_elem_of_singleton.
        -- by right.
        -- intros c [?|[->%list_elem_of_singleton|?]%Hcons]%Hc; auto.
        -- intros c ?. apply Ha, Hcons. by right.
Qed.
Lemma check_future_step t path now s q s' : steady s -> named (repo_of s) -> ok s t -> check_future repair_with path now t s = (q, s') -> advance s t q s'.
Proof.
  revert path s q s'. induction t as [t Ht|obj repaired running results IH|obj layer repaired t IH|obj repaired c t todo results IH] using check_future_ind;
    intros path s q s' Hs Hn Hok; [by apply alone_step|..]; cbn [check_future].
  - inversion Hok as [| | | | | | |d ? ? ? ? Hd Hb Hr Hblob Hall Hc Htr| | |]; subst. destruct running as [|t0 running].
    { intros [= <- <-]. apply returns; try done; [| |intros l ?%lost_children; auto].
      - intros x p. cbn [held flat_map]. rewrite app_nil_r, (holds_named s d) by done. intros [= -> ->]%list_elem_of_singleton _. exists obj.
        split_and!; [done| |by intros b E; destruct (Hblob b)]. intros c [?|(t & []%elem_of_nil & _)]%Hc. done.
      - intros l. cbn [found flat_map]. rewrite app_nil_r. by rewrite lost_children. }
    destruct (step_nth _ _ _ s) as [r s0] eqn:E. intros [= <- <-].
    apply (check_join_step (check_future repair_with (tail path) now) s (fun c => c ∈ child_objects obj) (holds CheckStarted obj) results) in E;
      [|intros; by eapply ok_grows|intros; by eapply IH|by split|apply mod_length].
    assert (forall s0 f running', grows s s0 -> waits s0 (fun c => c ∈ child_objects obj) running' -> truthful f -> ok s0 (CheckChildren obj repaired running' f)) as Hok'.
    { intros s1 f running' Hg [Hall' Hc'] Hf. apply (ok_children s1 d); try done; [by apply Hg|by eapply read_grows]. }
    destruct r as [running'|[[r|e|] running']]; cbn [and_then]; [| |done..].
    + destruct E as (Hs' & Hw & Hadv). cbn [advance t_ok t_held t_found t_aims future_tracks]. split_and!; try done. apply Hok'; try done. apply Hadv.
    + destruct E as [(Hs' & Hw & Hadv) [Htr' _]]. cbn [advance t_ok t_held t_found t_aims future_tracks]. split_and!; try done. apply Hok'; try done; [apply Hadv|].
      intros l [?|?]%told_app; auto.
  - inversion Hok as [| | | | | | | |d ? ? ? m ? Hd Hb Hr E Em Ht Hp| |]; subst. destruct (check_future repair_with path now t s) as [q0 s0] eqn:E0. intros [= <- <-].
    apply IH in E0; [|done..]. apply (lift_step s s0 t q0 (CheckLayerManifest obj layer repaired) _ (holds CheckStarted obj) [] False (fun _ => False) E0); try done; [naive_solver|..].
    + intros u Hs' Hg Hpr Hu. apply (ok_layer s0 d _ _ _ m); try done; [by apply Hg|by eapply read_grows|by apply Hpr].
    + intros r Hs' Hg Hpr Htr. split_and!; [|done| |done].
      * apply (annotations_ok s0 d); try done; [by apply Hg|by eapply read_grows|rewrite Em; intros c [= <-]; by apply Hpr].
      * intros l Hl. unfold check_annotations. cbn [t_found future_tracks found]. change (r :: ?x) with ([r] ++ x). apply told_app. by left.
  - inversion Hok as [| | | | | | | | | |d ? layer ? ? ? ? ? Hd Hb Hr E Ht Hp Hc Ha Htr]; subst. destruct (check_future repair_with path now t s) as [q0 s0] eqn:E0. intros [= <- <-].
    apply IH in E0; [|done..]. apply (lift_step s s0 t q0 (fun t => CheckAnnotationOf obj repaired c t todo results) _ (holds CheckStarted obj) results False (fun _ => False) E0); try done; [naive_solver|..].
    + intros u Hs' Hg Hpr Hu. apply (ok_annotation s0 d _ layer); try done; [by apply Hg|by eapply read_grows|by apply Hpr|]. intros x [?|?]%Hc; [left; by apply Hg|by right].
    + intros r Hs' Hg Hpr Htr'. destruct (as_blob_result r) as [b|e|] eqn:Eb; cbn [and_then]; try done. pose proof (lost_as_blob r b) as Hl.
      assert (forall l, told [CheckAnnotation (CheckAnnotationChecked c b false)] l <-> told [r] l) as Hone by (intros l; rewrite !told_one; by apply Hl).
      split_and!; [|done|intros l; cbn [t_found future_tracks found]; by rewrite !told_app, Hone|done]. apply (ok_annotations s0 d _ layer); try done; [by apply Hg|by eapply read_grows|..].
      * intros x [?|[-> |?]]%Hc; [left; by apply Hg|left; by apply Hpr|by right].
      * intros l [?|?%Hone]%told_app; auto.
Qed.

(** ** Checks *)

Section together.
Context {A R : Type} `{!Tracks A R} (step_of : list nat -> time -> A -> Checking -> (A + res SpfsError R) * Checking).
Hypothesis ok_mono : forall s s' a, grows s s' -> t_ok s a -> t_ok s' a.
Hypothesis step_grows : forall path now a s, grows s (step_of path now a s).2.
Hypothesis step_advance : forall path now a s q s', steady s -> named (repo_of s) -> t_ok s a -> step_of path now a s = (q, s') -> advance s a q s'.
Context (schedule : nat -> list nat * time).
Lemma collect_grows fuel step running results s outcome s' : collect schedule step_of fuel step running results s = Some (outcome, s') -> grows s s'.
Proof.
  revert step running results s. induction fuel as [|fuel IH]; intros step running results s; cbn [collect];
    (destruct running as [|a0 running]; [by intros [= _ <-]|]); [done|]. destruct (schedule step) as [path now].
  match goal with |- context [step_nth ?f ?i ?l s] => pose proof (step_nth_grows f l i s (fun a s _ => step_grows _ _ a s)) as H; destruct (step_nth f i l s) as [q s0] end.
  cbn [snd] in H. destruct q as [running'|[[r|e|] running']]; [| |by intros [= _ <-]..]; intros Hrun; etrans; [done|by eapply IH|done|by eapply IH].
Qed.
(** What holds of the results so far, and when all futures have returned. *)
Record so_far s (children : Digest -> Prop) (running : list A) (results : list R) : Prop := {
  so_steady : steady s;
  so_waits : waits s children running;
  so_covered : covered s (flat_map t_held running) (flat_map t_results results ++ flat_map t_found running);
  so_truthful : truthful (flat_map t_results results);
  so_targets : forall r d, r ∈ results -> d ∈ t_targets r -> met s d;
}.
Lemma so_far_step s children running results i r s' : named (repo_of s) -> so_far s children running results -> i < length running ->
  forall path now, step_nth (step_of path now) i running s = (r, s') ->
  match r with
  | inl running' => so_far s' children running' results
  | inr (Ok result, running') => so_far s' children running' (results ++ [result])
  | inr _ => True
  end.
Proof.
  intros Hn [Hs Hw Hc Ht Htg] Hi path now E.
  apply (check_join_step (step_of path now) s children [] (flat_map t_results results)) in E; [|done|intros; by eapply step_advance|done|done].
  destruct r as [running'|[[result|e|] running']]; [| |done..].
  - destruct E as (Hs' & Hw' & Hadv). split; try done; [by eapply covered_advances|]. intros r d Hr Hd. apply Hadv. by eapply Htg.
  - destruct E as [(Hs' & Hw' & Hadv) [Htr Hm]]. assert (flat_map t_results (results ++ [result]) = flat_map t_results results ++ t_results result) as Hres.
    { rewrite flat_map_app. cbn [flat_map]. by rewrite app_nil_r. }
    split; rewrite ?Hres; try done; [by eapply covered_advances|intros l [?|?]%told_app; auto|].
    intros r d [Hr| ->%list_elem_of_singleton]%elem_of_app Hd; [apply Hadv; by eapply Htg|auto].
Qed.
Lemma collect_spec fuel step running results s children out s' : (forall s, steady s -> grows s s' -> named (repo_of s)) -> collect schedule step_of fuel step running results s = Some (Ok out, s') ->
  so_far s children running results -> so_far s' children [] out.
Proof.
  revert step running results s. induction fuel as [|fuel IH]; intros step running results s Hn; cbn [collect];
    (destruct running as [|a0 running]; [by intros [= <- <-]|]); [done|]. destruct (schedule step) as [path now].
  destruct (step_nth _ _ _ s) as [q s0] eqn:E. intros Hrun Hso.
  assert (grows s s0) as Hg by (replace s0 with (step_nth (step_of (tail path) now) (hd 0 path mod length (a0 :: running)) (a0 :: running) s).2 by (by rewrite E); by apply step_nth_grows).
  assert (forall running' results', collect schedule step_of fuel (S step) running' results' s0 = Some (Ok out, s') -> named (repo_of s)) as Hn'.
  { intros running' results' H%collect_grows. apply Hn; [exact (so_steady _ _ _ _ Hso)|by etrans]. }
  destruct q as [running'|[[r|e|] running']]; try done; (eapply IH; [done|exact Hrun|]); by eapply (so_far_step s children _ _ _ _ _ ltac:(by eapply Hn') Hso (mod_length _ _ _) _ _ E).
Qed.
(** What was met is settled or reported, and so is what is below it, as far as
    the check could read. *)
Inductive within_reach σ (missing : gset Digest) (roots : Digest -> Prop) : Digest -> Prop :=
| within_root d : roots d -> within_reach σ missing roots d
| within_child parent obj d : within_reach σ missing roots parent -> parent ∉ missing -> read_object σ parent = Ok obj -> d ∈ child_objects obj ->
    within_reach σ missing roots d.
Definition accounted s (m : CheckSummary) d : Prop := d ∈ missing_objects m \/ exists obj, read_object (repo_of s) d = Ok obj /\
  forall blob, to_enum obj = ObjBlob blob -> has_payload (repo_of s) (bl_payload blob) = true \/ bl_payload blob ∈ missing_payloads m.
Lemma all_accounted s children out m d : so_far s children [] out ->
  (repair_with <> None -> forall x obj blob, read_object (repo_of s) x = Ok obj -> to_enum obj = ObjBlob blob -> kind_of (bl_payload blob) = KindBlob) -> (forall l, told (flat_map t_results out) l -> reports m l) ->
  within_reach (repo_of s) (missing_objects m) (fun d => children d \/ exists r, r ∈ out /\ d ∈ t_targets r) d -> accounted s m d.
Proof.
  intros [[_ Hv] [_ Hw] Hc _ Ht] Hkind Hm. rewrite app_nil_r in Hc.
  assert (forall x, met s x -> x ∈ missing_objects m \/ settled s (flat_map t_results out) x) as Hmet.
  { intros x [p Hp]. destruct (Hc x p Hp) as [[]%elem_of_nil|Hr]. destruct p; cbn [resolved] in Hr; [left|by right]. by apply (Hm (NoObject x)). }
  intros H. assert (met s d) as Hd.
  { induction H as [d [Hch|(r & Hr & Hd)]|parent obj d _ IH Hp Hr Hd].
    - destruct (Hw d Hch) as [|(a & []%elem_of_nil & _)]. done.
    - by eapply Ht.
    - destruct (Hmet parent IH) as [|(obj' & Hr' & Hch & _)]; [done|]. rewrite Hr in Hr'. injection Hr' as <-. auto. }
  destruct (Hmet d Hd) as [|(obj & Hr & _ & Hb)]; [by left|right]. exists obj. split; [done|]. intros blob E.
  destruct (Hb blob E) as [|[Hp|[Hrep Hp]]]; [by left|right; by apply (Hm (NoPayload _))|left].
  apply has_payload_paid, Hv; [done|]. by eapply Hkind.
Qed.
End together.
End check.
