(* ===== verification/CheckReport.v ===== *)
(** * The reports of checks

    What the summary of a check says ([Check], [CheckTheory]): everything that was
    asked for is accounted for, and without repairing the report is exact, and the
    check ends. *)

From stdpp Require Import gmap.
From S2P Require Import CleanTheory Prelude Strings Collections Encoding TagSpec Tags Entry Manifest Objects ObjectStore Sync SyncTheory SyncEnds Check CheckTheory.

#[local] Set Warnings "-register-all".

(** What an item of an environment asks for. *)
Definition asks_for {D time : Type} `{FileSystem time, !TagCheck D time} (sync : Syncing D time) (item : EnvSpecItem) (d : Digest) : Prop :=
  match item with
  | ItemDigest digest => digest = d
  | ItemPartialDigest partial => resolve_full_digest (dest sync) partial = Ok d
  | ItemTagSpec spec => exists tag, check_resolve_tag (dest_tags sync) spec = Ok tag /\ tag_target tag = d
  | ItemSpecFile => False
  end.

Section items.
Context {D time : Type} `{fs : !FileSystem time, !TagSync D time, !TagCheck D time} (repair_with : option (Source D time)).
Context (sync0 : Syncing D time) (asked : Digest -> Prop) (kind_of : Digest -> ObjectKind).
Context (Hsource : forall source, repair_with = Some source -> source_ok source kind_of).
Abbreviation Checking := (Checking D time).
Abbreviation rooted := (rooted repair_with sync0 asked).
Abbreviation ok := (ok repair_with sync0 asked kind_of).
Abbreviation steady := (steady repair_with sync0 kind_of).
Abbreviation truthful := (truthful repair_with sync0 asked).
#[local] Instance object_tracks : Tracks (D := D) (time := time) (CheckFuture D time) CheckObjectResult := future_tracks repair_with sync0 asked kind_of.
Abbreviation advance := (advance repair_with sync0 asked kind_of).
Implicit Types (s : Checking) (d c : Digest) (t : CheckFuture D time).

(** ** Items of an environment *)

Definition item_of (i : CheckItem D time) : option (CheckFuture D time) :=
  match i with CheckItemStart _ => None | CheckItemObject t | CheckItemTag _ t => Some t end.
Definition env_results (r : CheckEnvItemResult time) : list CheckObjectResult :=
  match r with CheckEnvTag (CheckTagChecked _ r) | CheckEnvObject r => [r] | CheckEnvTag CheckTagMissing => [] end.
#[local] Instance item_tracks : Tracks (CheckItem D time) (CheckEnvItemResult time) := {
  t_ok s i := match i with
    | CheckItemStart item => forall d, asks_for sync0 item d -> rooted d
    | CheckItemObject t => ok s t
    | CheckItemTag tag t => ok s t /\ promised s t (tag_target tag)
    end;
  t_held i := from_option held [] (item_of i);
  t_found i := from_option found [] (item_of i);
  t_aims d i := match i with
    | CheckItemStart item => item = ItemDigest d \/ repair_with = None /\ asks_for sync0 item d
    | CheckItemObject t | CheckItemTag _ t => t = CheckDigest d
    end;
  t_results := env_results;
  t_targets r := match r with CheckEnvTag (CheckTagChecked tag _) => [tag_target tag] | _ => [] end;
}.
Lemma item_ok_grows s s' (i : CheckItem D time) : grows s s' -> t_ok s i -> t_ok s' i.
Proof.
  intros Hg. destruct i as [item|t|tag t]; cbn [t_ok item_tracks]; [done|by apply ok_grows|]. intros [Ht Hp]. split; [by eapply ok_grows|].
  destruct Hp as [?|?]; [left; by apply Hg|by right].
Qed.
Lemma check_env_item_grows path now i s : grows s (check_env_item repair_with path now i s).2.
Proof.
  destruct i as [[spec|partial|d|]|t|tag t]; cbn [check_env_item]; try done; pose proof (check_future_grows repair_with t path now s) as H; by destruct (check_future _ _ _ _ _).
Qed.
(** An item that asks for nothing more, or for one digest. *)
Lemma start_step s item (q : CheckItem D time + res SpfsError (CheckEnvItemResult time)) : steady s ->
  match q with
  | inl i => t_ok s i /\ t_held i = [] /\ forall d, item = ItemDigest d \/ repair_with = None /\ asks_for sync0 item d -> t_aims d i
  | inr (Ok r) => (forall l, ~ told (env_results r) l) /\ t_targets r = [] /\ forall d, ~ (item = ItemDigest d \/ repair_with = None /\ asks_for sync0 item d)
  | inr _ => True
  end -> advance s (CheckItemStart item) q s.
Proof.
  intros Hs. destruct q as [i|[r|e|]]; cbn [CheckTheory.advance]; [| |done..].
  - intros (Hok & Hh & Ha). split_and!; [done..| |intros c ?; right; by apply Ha]. apply advances_same; [done..|by intros ? ? ?%elem_of_nil|by intros l ?%told_nil].
  - intros (Hl & Ht & Ha). split_and!; [done|apply advances_same; [done..|by intros ? ? ?%elem_of_nil|by intros l ?%told_nil]|by intros c ?%Ha|by intros l ?%Hl|].
    rewrite Ht. by intros d ?%elem_of_nil.
Qed.
Lemma check_item_step path now (i : CheckItem D time) s q s' : steady s -> named (repo_of s) -> t_ok s i -> check_env_item repair_with path now i s = (q, s') -> advance s i q s'.
Proof.
  intros Hs Hn Hok. destruct i as [[spec|partial|d|]|t|tag t]; cbn [check_env_item].
  - destruct (check_resolve_tag _ spec) as [tag|e|] eqn:Er; intros [= <- <-]; cbn [t_ok item_tracks] in Hok.
    + apply start_step; [done|]. assert (forall tag', repair_with = None -> check_resolve_tag (dest_tags sync0) spec = Ok tag' -> tag' = tag) as Htag.
      { intros tag' Hnone Ht. rewrite <-(proj1 Hs Hnone) in Ht. congruence. }
      split_and!; [|done|]; cbn [t_ok t_aims item_tracks].
      * split; [|by right]. apply ok_digest. intros Hnone. apply (Hok (tag_target tag)); [|done]. exists tag. split; [|done]. by rewrite <-(proj1 Hs Hnone).
      * intros d [?|(Hnone & tag' & ->%(Htag _ Hnone) & ->)]; done.
    + apply start_step; [done|]. destruct e; try done. cbn. split_and!; [by intros l ?%told_nil|done|].
      intros d [?|(Hnone & tag' & Ht & _)]; [done|]. rewrite <-(proj1 Hs Hnone) in Ht. congruence.
    + by apply start_step.
  - destruct (resolve_full_digest _ partial) as [d|e|] eqn:Er; intros [= <- <-]; apply start_step; try done. cbn [t_ok t_aims item_tracks asks_for] in *.
    split_and!; [|done|].
    + apply ok_digest. intros Hnone. apply (Hok d); [|done]. by rewrite <-(proj1 Hs Hnone).
    + intros x [?|[Hnone Hx]]; [done|]. rewrite <-(proj1 Hs Hnone) in Hx. unfold repo_of in Er. congruence.
  - intros [= <- <-]. apply start_step; [done|]. cbn [t_ok t_aims item_tracks asks_for] in *. split_and!; [by apply ok_digest, Hok|done|].
    intros x [[= ->]|[_ ->]]; done.
  - intros [= <- <-]. apply start_step; [done|]. cbn. split_and!; [by intros l ?%told_one%reports_default|done|]. by intros d [?|[_ ?]].
  - destruct (check_future repair_with path now t s) as [q0 s0] eqn:E. intros [= <- <-]. apply check_future_step with (asked := asked) (sync0 := sync0) (kind_of := kind_of) in E; [|done..].
    unfold as_check_item. apply (lift_step repair_with sync0 asked kind_of s s0 t q0 CheckItemObject _ [] [] True (fun _ => False) E); try done; [naive_solver|].
    intros r Hs' Hg Hp Htr. cbn [t_results t_targets item_tracks env_results app]. split_and!; try done; [auto|by intros d ?%elem_of_nil].
  - destruct Hok as [Hok Htag]. destruct (check_future repair_with path now t s) as [q0 s0] eqn:E. intros [= <- <-].
    apply check_future_step with (asked := asked) (sync0 := sync0) (kind_of := kind_of) in E; [|done..].
    apply (lift_step repair_with sync0 asked kind_of s s0 t q0 (CheckItemTag tag) _ [] [] True (fun _ => False) E); try done; [naive_solver| |].
    + intros u Hs' Hg Hp Hu. split; [done|by apply Hp].
    + intros r Hs' Hg Hp Htr. cbn [t_results t_targets item_tracks env_results app]. split_and!; try done; [auto|]. intros d ->%list_elem_of_singleton. by apply Hp.
Qed.

(** ** Streams of tags *)

Definition stream_asks (sync : Syncing D time) (spec : res SpfsError TagSpec) d : Prop := exists sp stream tag,
  spec = Ok sp /\ check_read_tag (dest_tags sync) sp = Ok stream /\ Ok tag ∈ stream /\ tag_target tag = d.
Definition to_come (todo : list (res SpfsError (Tag time))) d : Prop := exists tag, Ok tag ∈ todo /\ tag_target tag = d.
Definition tag_results (results : list (CheckTagResult time)) : list CheckObjectResult :=
  flat_map (fun r => match r with CheckTagChecked _ r => [r] | CheckTagMissing => [] end) results.
Definition stream_results (r : CheckTagStreamResult time) : list CheckObjectResult := match r with StreamChecked _ results => tag_results results | StreamMissing => [] end.
#[local] Instance stream_tracks : Tracks (CheckStream D time) (CheckTagStreamResult time) := {
  t_ok s i := match i with
    | StreamStart spec => forall d, stream_asks sync0 spec d -> rooted d
    | StreamNext _ todo results => (forall d, to_come todo d -> rooted d) /\ truthful (tag_results results)
    | StreamTag _ _ t todo results => (forall d, to_come todo d -> rooted d) /\ truthful (tag_results results) /\ ok s t
    end;
  t_held i := match i with StreamTag _ _ t _ _ => held t | _ => [] end;
  t_found i := match i with StreamTag _ _ t _ results => tag_results results ++ found t | StreamNext _ _ results => tag_results results | _ => [] end;
  t_aims d i := match i with
    | StreamStart spec => repair_with = None /\ stream_asks sync0 spec d
    | StreamNext _ todo _ => to_come todo d
    | StreamTag _ _ t todo _ => True /\ t = CheckDigest d \/ to_come todo d
    end;
  t_results := stream_results;
  t_targets _ := [];
}.
Lemma stream_ok_grows s s' (i : CheckStream D time) : grows s s' -> t_ok s i -> t_ok s' i.
Proof. intros Hg. destruct i; cbn [t_ok stream_tracks]; try done. intros (? & ? & ?). split_and!; try done. by eapply ok_grows. Qed.
Lemma check_tag_stream_grows path now i s : grows s (check_tag_stream repair_with path now i s).2.
Proof.
  destruct i as [spec|spec [|tag todo] results|spec tag t todo results]; cbn [check_tag_stream]; try done.
  pose proof (check_future_grows repair_with t path now s) as H; by destruct (check_future _ _ _ _ _).
Qed.
Lemma stream_step path now (i : CheckStream D time) s q s' : steady s -> named (repo_of s) -> t_ok s i -> check_tag_stream repair_with path now i s = (q, s') -> advance s i q s'.
Proof.
  intros Hs Hn Hok. destruct i as [spec|spec [|tag todo] results|spec tag t todo results]; cbn [check_tag_stream].
  - destruct spec as [spec|e|]; cbn [and_then]; [|by intros [= <- <-]..]. assert (repair_with = None -> dest_tags (syncer s) = dest_tags sync0) as Ht by (intros; by rewrite (proj1 Hs)).
    destruct (check_read_tag _ spec) as [stream|e|] eqn:Er; intros [= <- <-]; [| |done]; cbn [t_ok stream_tracks] in Hok.
    + cbn [CheckTheory.advance t_ok t_held t_found t_aims stream_tracks]. split_and!; [done| |by intros l ?%told_nil| |].
      * intros d (tag & Htag & Hd) Hnone. apply (Hok d); [|done]. exists spec, stream, tag. by rewrite <-Ht.
      * apply advances_same; [done..|by intros ? ? ?%elem_of_nil|by intros l ?%told_nil].
      * intros c (Hnone & sp & stream' & tag & [= <-] & Hr & ? & ?). right. exists tag. split; [|done]. rewrite <-(Ht Hnone) in Hr. congruence.
    + destruct e; try done. cbn [CheckTheory.advance t_held t_found t_aims t_results t_targets stream_tracks stream_results]. split_and!; [done| | |by intros l ?%told_nil|by intros d ?%elem_of_nil].
      * apply advances_same; [done..|by intros ? ? ?%elem_of_nil|by intros l ?%told_nil].
      * intros c (Hnone & sp & stream' & tag & [= <-] & Hr & _). rewrite <-(Ht Hnone) in Hr. congruence.
  - intros [= <- <-]. destruct Hok as [_ Htr]. cbn [CheckTheory.advance t_held t_found t_aims t_results t_targets stream_tracks stream_results].
    split_and!; [done| | |done|by intros d ?%elem_of_nil]; [|by intros c (tag & []%elem_of_nil & _)]. apply advances_same; [done..|by intros ? ? ?%elem_of_nil|done].
  - intros [= <- <-]. destruct Hok as [Hr Htr]. destruct tag as [tag|e|]; cbn [and_then]; [|done..].
    cbn [CheckTheory.advance t_ok t_held t_found t_aims stream_tracks]. split_and!; [done| |done| | |].
    + intros d (tag' & ? & ?). apply Hr. exists tag'. split; [by apply elem_of_cons; right|done].
    + apply ok_digest, Hr. exists tag. split; [by apply elem_of_cons; left|done].
    + apply advances_same; [done..|by intros ? ? ?%elem_of_nil|]. cbn [found]. by rewrite app_nil_r.
    + intros c (tag' & [[= ->]|?]%elem_of_cons & Htag); right; [left; by rewrite Htag|right; by exists tag'].
  - destruct Hok as (Hr & Htr & Hok). destruct (check_future repair_with path now t s) as [q0 s0] eqn:E. intros [= <- <-].
    apply check_future_step with (asked := asked) (sync0 := sync0) (kind_of := kind_of) in E; [|done..].
    apply (lift_step repair_with sync0 asked kind_of s s0 t q0 (fun t => StreamTag spec tag t todo results) _ [] (tag_results results) True (to_come todo) E); try done.
    intros r Hs' Hg Hp Htr'. cbn [t_ok t_held t_found t_aims stream_tracks]. unfold tag_results. rewrite flat_map_app. cbn [flat_map app].
    split_and!; try done. intros l [?|?]%told_app; auto.
Qed.

(** ** Reports *)

Lemma so_far_start {A R} `{!Tracks (D := D) (time := time) A R} s children (running : list A) : steady s -> progress s = ∅ -> waits s children running ->
  so_far repair_with sync0 asked kind_of s children running ([] : list R).
Proof.
  intros Hs Hp Hw. split; [done..|intros d p; by rewrite Hp, lookup_empty|by intros l ?%told_nil|by intros r d ?%elem_of_nil].
Qed.
(** Without repairing, a report is exact. *)
Lemma exact {A R} `{!Tracks (D := D) (time := time) A R} s children (out : list R) m : repair_with = None -> named (dest sync0) -> so_far repair_with sync0 asked kind_of s children ([] : list A) out ->
  (forall d, asked d -> children d) -> (forall l, reports m l <-> told (flat_map t_results out) l) ->
  syncer s = sync0 /\ (forall d, d ∈ missing_objects m <-> reachable (dest sync0) asked d /\ absent (dest sync0) d) /\
  forall d, d ∈ missing_payloads m <-> unpaid (dest sync0) asked d.
Proof.
  intros Hnone Hn Hso Hch Hm. pose proof (proj1 (so_steady _ _ _ _ _ _ _ _ Hso) Hnone) as Hs. assert (repo_of s = dest sync0) as Hrepo by (unfold repo_of; by rewrite Hs).
  assert (forall l, reports m l -> match l with NoObject d => reachable (dest sync0) asked d /\ absent (dest sync0) d | NoPayload d => unpaid (dest sync0) asked d end) as Htrue.
  { intros l Hl%Hm. exact (so_truthful _ _ _ _ _ _ _ _ Hso l Hl Hnone). }
  assert (forall d, reachable (dest sync0) asked d -> accounted s m d) as Hall.
  { intros d Hd. apply (all_accounted repair_with sync0 asked kind_of s children out m d Hso); [done|intros l ?; by apply Hm|]. rewrite Hrepo.
    induction Hd as [d Ha|parent obj d _ IH Hr Hd]; [apply within_root; left; auto|]. eapply within_child; [done| |done..].
    intros [_ [x Hx]]%(Htrue (NoObject parent)). congruence. }
  split_and!; [done|..]; intros d; (split; [by apply (Htrue (NoObject d)) || apply (Htrue (NoPayload d))|]).
  - intros [Hd [x Hx]]. destruct (Hall d Hd) as [|(obj & Hr & _)]; [done|]. rewrite Hrepo in Hr. congruence.
  - intros (x & obj & blob & Hx & Hr & E & <- & Hp). destruct (Hall x Hx) as [[_ [y Hy]]%(Htrue (NoObject x))|(obj' & Hr' & Hb)]; [congruence|].
    rewrite Hrepo in Hr', Hb. rewrite Hr in Hr'. injection Hr' as <-. destruct (Hb blob E) as [|]; [congruence|done].
Qed.

Lemma reports_flat {R} (f : R -> CheckSummary) (g : R -> list CheckObjectResult) (rs : list R) l : (forall r, reports (f r) l <-> told (g r) l) ->
  reports (check_sum (List.map f rs)) l <-> told (flat_map g rs) l.
Proof.
  intros H. rewrite reports_sum. induction rs as [|r rs IH]; cbn [List.map flat_map].
  - split; [by intros (m & ?%elem_of_nil & _)|by intros ?%told_nil].
  - rewrite told_app, <-H, <-IH. setoid_rewrite elem_of_cons. naive_solver.
Qed.
Lemma reports_tag (r : CheckTagResult time) l : reports (CheckTagResult_summary r) l <-> told match r with CheckTagChecked _ r => [r] | CheckTagMissing => [] end l.
Proof.
  destruct r as [|tag r]; cbn [CheckTagResult_summary].
  - split; [|by intros ?%told_nil]. by intros ?%reports_none.
  - rewrite reports_add, told_one. pose proof (reports_none (mkCheckSummary 0 1 ∅ 0 0 ∅ 0 0 0) l eq_refl eq_refl). unfold lost. tauto.
Qed.
Lemma reports_env results l : reports (CheckEnvResult_summary (time := time) results) l <-> told (flat_map env_results results) l.
Proof. apply reports_flat. intros [r|r]; cbn [CheckEnvItemResult_summary]; [apply reports_tag|]. cbn [env_results]. by rewrite told_one. Qed.
Lemma reports_objects results l : reports (check_sum (List.map CheckObjectResult_summary results)) l <-> told (flat_map (fun r => [r]) results) l.
Proof. apply reports_flat. intros r. by rewrite told_one. Qed.
Lemma reports_streams results l : reports (check_sum (List.map (CheckTagStreamResult_summary (time := time)) results)) l <-> told (flat_map stream_results results) l.
Proof.
  apply reports_flat. intros [|spec rs]; cbn [CheckTagStreamResult_summary stream_results]; [|apply reports_flat; intros r; apply reports_tag].
  split; [|by intros ?%told_nil]. by intros ?%reports_none.
Qed.
Lemma objects_so_far schedule fuel s results s' : steady s -> progress s = ∅ -> (forall s, steady s -> grows s s' -> named (repo_of s)) ->
  (forall d, d ∈ find_digests (repo_of s) SearchAll -> rooted d) -> check_all_objects repair_with schedule fuel s = Some (Ok results, s') ->
  so_far repair_with sync0 asked kind_of s' (fun d => d ∈ find_digests (repo_of s) SearchAll) ([] : list (CheckFuture D time)) results.
Proof.
  intros Hs Hp Hn Hroot Hrun. eapply (collect_spec repair_with sync0 asked kind_of (check_future repair_with)); [exact (ok_grows repair_with sync0 asked kind_of)|..|exact Hn|exact Hrun|].
  - intros path now t s1. apply check_future_grows.
  - intros path now t s1 q s2 ? ? ?. by apply check_future_step.
  - apply so_far_start; [done..|split].
    + intros t (d & -> & Hd)%list_elem_of_fmap. by apply ok_digest, Hroot.
    + intros c Hc. right. exists (CheckDigest c). split; [|done]. apply list_elem_of_fmap. by exists c.
Qed.
Lemma tags_so_far schedule fuel s results s' : steady s -> progress s = ∅ -> (forall s, steady s -> grows s s' -> named (repo_of s)) ->
  (forall spec d, spec ∈ check_iter_tags (dest_tags (syncer s)) -> stream_asks sync0 spec d -> rooted d) -> check_all_tags repair_with schedule fuel s = Some (Ok results, s') ->
  so_far repair_with sync0 asked kind_of s' (fun d => repair_with = None /\ exists spec, spec ∈ check_iter_tags (dest_tags (syncer s)) /\ stream_asks sync0 spec d)
    ([] : list (CheckStream D time)) results.
Proof.
  intros Hs Hp Hn Hroot Hrun. eapply (collect_spec repair_with sync0 asked kind_of (check_tag_stream repair_with)); [exact stream_ok_grows|exact check_tag_stream_grows|exact stream_step|exact Hn|exact Hrun|].
  apply so_far_start; [done..|split].
  - intros i (spec & -> & Hi)%list_elem_of_fmap d. by apply Hroot.
  - intros c (Hnone & spec & Hspec & Hc). right. exists (StreamStart spec). split; [apply list_elem_of_fmap; by exists spec|by split].
Qed.
Lemma env_so_far schedule fuel env s results s' : steady s -> progress s = ∅ -> (forall s, steady s -> grows s s' -> named (repo_of s)) ->
  (forall item d, item ∈ env -> asks_for sync0 item d -> rooted d) -> check_env repair_with schedule fuel env s = Some (Ok results, s') ->
  so_far repair_with sync0 asked kind_of s' (fun d => ItemDigest d ∈ env \/ repair_with = None /\ exists item, item ∈ env /\ asks_for sync0 item d) ([] : list (CheckItem D time)) results.
Proof.
  intros Hs Hp Hn Hroot Hrun. eapply (collect_spec repair_with sync0 asked kind_of (check_env_item repair_with)); [exact item_ok_grows|exact check_env_item_grows|exact check_item_step|done|exact Hrun|].
  apply so_far_start; [done..|split].
  - intros i (item & -> & Hi)%list_elem_of_fmap d. by apply Hroot.
  - intros c [Hc|(Hnone & item & Hi & Hc)]; right; [exists (CheckItemStart (ItemDigest c))|exists (CheckItemStart item)];
      (split; [apply list_elem_of_fmap; eexists; split; [reflexivity|done]|]); [by left|right; by split].
Qed.
End items.

Lemma vouched_none {D time : Type} (sync : Syncing D time) : vouched (fun _ => KindPlatform) sync.
Proof. by intros d _. Qed.
(** Without repairs it does not matter what the kinds of digests are. *)
Lemma no_source {D time : Type} `{fs : !FileSystem time, !TagSync D time} (source : Source D time) : None = Some source -> source_ok source (fun _ => KindPlatform).
Proof. done. Qed.
Lemma unrepaired_steady {D time : Type} (s : Checking D time) : steady None (syncer s) (fun _ => KindPlatform) s.
Proof. split; [done|apply vouched_none]. Qed.
Lemma unrepaired_named {D time : Type} `{fs : !FileSystem time, !TagSync D time} (s s' : Checking D time) : named (repo_of s) ->
  forall s0, steady None (syncer s) (fun _ => KindPlatform) s0 -> grows s0 s' -> named (repo_of s0).
Proof. intros Hn s0 [Hs _] _. unfold repo_of. by rewrite (Hs eq_refl). Qed.

(** C11: whatever repairs are made, and whichever future is scheduled when, a check of an
    environment that returns accounts for all that it was asked for: every digest
    that can be reached from the digests of the environment, or from the targets
    of the tags that were found, without going through an object that was
    reported, is reported itself, or can be read; and the payload of a blob that
    can be read is there or is reported. *)
Theorem check_accounts {D time : Type} `{fs : !FileSystem time, !TagSync D time, !TagCheck D time} (repair_with : option (Source D time)) kind_of
    schedule fuel env s results s' d :
  (forall source, repair_with = Some source -> source_ok source kind_of) ->
  progress s = ∅ -> processed (syncer s) = ∅ -> (forall x obj, read_object (repo_of s') x = Ok obj -> fits kind_of x obj) ->
  check_env repair_with schedule fuel env s = Some (Ok results, s') ->
  within_reach (repo_of s') (missing_objects (CheckEnvResult_summary results))
    (fun x => ItemDigest x ∈ env \/ exists tag r, CheckEnvTag (CheckTagChecked tag r) ∈ results /\ tag_target tag = x) d ->
  accounted s' (CheckEnvResult_summary results) d.
Proof.
  intros Hsource Hp Hproc Hfits Hrun Hd. set (asked := fun x => exists item, item ∈ env /\ asks_for (syncer s) item x).
  assert (steady repair_with (syncer s) kind_of s) as Hs by (split; [done|]; intros x; rewrite Hproc; by intros ?%not_elem_of_empty).
  assert (named (repo_of s')) as Hn by (intros x obj Hr; by apply Hfits).
  pose proof (env_so_far repair_with (syncer s) asked kind_of Hsource schedule fuel env s results s' Hs Hp (fun s0 _ Hg => named_grows s0 s' Hg Hn)
    (fun item x Hi Ha _ => reach_root _ _ x (ex_intro _ item (conj Hi Ha))) Hrun) as Hso.
  eapply all_accounted; [exact Hso| |intros l; by rewrite reports_env|].
  - intros _ x obj blob Hr E. destruct (Hfits x obj Hr) as [Hx Hk]. rewrite E in Hk. unfold Object_digest in Hx. rewrite E in Hx.
    destruct (digest_strategy _); [|done]. injection Hx as ->. done.
  - induction Hd as [x Hx|parent obj x _ IH ? ? ?]; [apply within_root|by eapply within_child]. destruct Hx as [?|(tag & r & Hr & <-)]; [by left; left|right].
    exists (CheckEnvTag (CheckTagChecked tag r)). split; [done|]. by apply list_elem_of_singleton.
Qed.

(** C10: a check of an environment without a source to repair from changes nothing, and
    its report is exact, whichever future was scheduled when: the missing objects
    are those that can be reached from what the environment asks for and are
    unknown to the repository, and the missing payloads those of the blobs that
    can be reached and whose payload is not there. *)
Theorem check_exact {D time : Type} `{fs : !FileSystem time, !TagSync D time, !TagCheck D time} schedule fuel env (s : Checking D time) results s' :
  progress s = ∅ -> named (repo_of s) -> check_env None schedule fuel env s = Some (Ok results, s') ->
  let asked x := exists item, item ∈ env /\ asks_for (syncer s) item x in
  syncer s' = syncer s /\
  (forall d, d ∈ missing_objects (CheckEnvResult_summary results) <-> reachable (repo_of s) asked d /\ absent (repo_of s) d) /\
  (forall d, d ∈ missing_payloads (CheckEnvResult_summary results) <-> unpaid (repo_of s) asked d).
Proof.
  intros Hp Hn Hrun asked. pose proof (env_so_far None (syncer s) asked _ no_source schedule fuel env s results s' (unrepaired_steady s) Hp (unrepaired_named s s' Hn)
    (fun item x Hi Ha _ => reach_root _ _ x (ex_intro _ item (conj Hi Ha))) Hrun) as Hso.
  apply (exact None (syncer s) asked _ s' _ results (CheckEnvResult_summary results) eq_refl Hn Hso); [by right|]. intros l. apply reports_env.
Qed.

(** So are the reports of a check of all objects: what is missing is what some stored
    object lacks. *)
Theorem check_all_objects_exact {D time : Type} `{fs : !FileSystem time, !TagSync D time, !TagCheck D time} schedule fuel (s : Checking D time) results s' :
  progress s = ∅ -> named (repo_of s) -> check_all_objects None schedule fuel s = Some (Ok results, s') ->
  let asked x := x ∈ find_digests (repo_of s) SearchAll in
  let summary := check_sum (List.map CheckObjectResult_summary results) in
  syncer s' = syncer s /\
  (forall d, d ∈ missing_objects summary <-> reachable (repo_of s) asked d /\ absent (repo_of s) d) /\
  (forall d, d ∈ missing_payloads summary <-> unpaid (repo_of s) asked d).
Proof.
  intros Hp Hn Hrun asked summary. pose proof (objects_so_far None (syncer s) asked _ no_source schedule fuel s results s' (unrepaired_steady s) Hp (unrepaired_named s s' Hn)
    (fun x Hx _ => reach_root _ _ x Hx) Hrun) as Hso.
  apply (exact None (syncer s) asked _ s' _ results summary eq_refl Hn Hso); [done|]. intros l. apply reports_objects.
Qed.
(** And those of a check of all tags, with their histories. *)
Theorem check_all_tags_exact {D time : Type} `{fs : !FileSystem time, !TagSync D time, !TagCheck D time} schedule fuel (s : Checking D time) results s' :
  progress s = ∅ -> named (repo_of s) -> check_all_tags None schedule fuel s = Some (Ok results, s') ->
  let asked x := exists spec, spec ∈ check_iter_tags (dest_tags (syncer s)) /\ stream_asks (syncer s) spec x in
  let summary := check_sum (List.map CheckTagStreamResult_summary results) in
  syncer s' = syncer s /\
  (forall d, d ∈ missing_objects summary <-> reachable (repo_of s) asked d /\ absent (repo_of s) d) /\
  (forall d, d ∈ missing_payloads summary <-> unpaid (repo_of s) asked d).
Proof.
  intros Hp Hn Hrun asked summary. pose proof (tags_so_far None (syncer s) asked _ no_source schedule fuel s results s' (unrepaired_steady s) Hp (unrepaired_named s s' Hn)
    (fun spec x Hi Ha _ => reach_root _ _ x (ex_intro _ spec (conj Hi Ha))) Hrun) as Hso.
  apply (exact None (syncer s) asked _ s' _ results summary eq_refl Hn Hso); [by split|]. intros l. apply reports_streams.
Qed.

(** * Checking ends

    A check that does not repair returns, whatever the objects refer to and
    whichever future is scheduled. *)

(** ** What a future has left to do *)

Definition notes_left (todo : list Annotation) : nat := 1 + 5 * length todo.
Fixpoint left_to_check {D time} (t : CheckFuture D time) : nat :=
  match t with
  | CheckDigest _ => 3
  | LoadObject _ => 2
  | CheckChildren _ _ running _ => 1 + list_sum (List.map left_to_check running)
  | CheckLayerManifest _ layer _ t => notes_left (ly_annotations layer) + left_to_check t
  | CheckAnnotations _ _ todo _ => notes_left todo
  | CheckAnnotationOf _ _ _ t todo _ => notes_left todo + left_to_check t
  | _ => 1
  end.
Lemma left_to_check_pos {D time} (t : CheckFuture D time) : 0 < left_to_check t.
Proof. destruct t; cbn; try lia; unfold notes_left; lia. Qed.

Section ends.
Context {D time : Type} `{fs : !FileSystem time, !TagSync D time, !TagCheck D time} (sync0 : Syncing D time) (asked : Digest -> Prop).
Context (Hnamed : named (dest sync0)).
Abbreviation Checking := (Checking D time).
Abbreviation kind_of := (fun _ : Digest => KindPlatform).
Abbreviation steady := (steady None sync0 kind_of).
Abbreviation ok := (ok None sync0 asked kind_of).
Abbreviation advance := (advance None sync0 asked kind_of).
#[local] Instance object_tracks' : Tracks (D := D) (time := time) (CheckFuture D time) CheckObjectResult := future_tracks None sync0 asked kind_of.
Implicit Types (s : Checking) (d : Digest) (t : CheckFuture D time).

Lemma steady_repo s : steady s -> repo_of s = dest sync0.
Proof. intros Hs. unfold repo_of. by rewrite (proj1 Hs eq_refl). Qed.
Lemma steady_named s : steady s -> named (repo_of s).
Proof. intros Hs. by rewrite steady_repo. Qed.
#[local] Instance begun_dec s d : Decision (begun s d).
Proof. unfold begun. apply _. Defined.
(** The stored objects whose check has not begun. *)
Definition waiting s : gset Digest := filter (fun d => ~ begun s d) (dom (objects (dest sync0))).
Definition unbegun s : nat := stdpp.base.size (waiting s).
Lemma waiting_grows s s' : grows s s' -> waiting s' ⊆ waiting s.
Proof. intros Hg d. unfold waiting. rewrite !elem_of_filter. intros [Hb ?]. split; [|done]. intros Hb'. by apply Hb, Hg. Qed.
Lemma unbegun_grows s s' : grows s s' -> unbegun s' <= unbegun s.
Proof. intros ?%waiting_grows. unfold unbegun. by apply subseteq_size. Qed.
Definition less_left s w s' w' : Prop := unbegun s' < unbegun s \/ unbegun s' <= unbegun s /\ w' < w.
Lemma begin_less s d obj w w' : steady s -> read_object (repo_of s) d = Ok obj -> ~ begun s d -> less_left s w (set_progress d CheckStarted s) w'.
Proof.
  intros Hs Hr Hb. left. unfold unbegun. apply subset_size. split; [by apply waiting_grows, set_progress_grows|]. intros Hsub.
  assert (d ∈ waiting s) as Hd.
  { unfold waiting. rewrite elem_of_filter. split; [done|]. apply elem_of_dom. rewrite <-(steady_repo s Hs). by eapply read_stored. }
  apply Hsub in Hd. unfold waiting in Hd. apply elem_of_filter in Hd as [Hd _]. apply Hd. unfold begun. apply progress_set.
Qed.
Lemma less_plus s w s' w' k k' : less_left s w s' w' -> k' <= k -> less_left s (k + w) s' (k' + w').
Proof. intros [?|[? ?]] ?; [by left|right; lia]. Qed.
(** A step: there is less left, or the future returns. *)
Definition lessens {A R} (weight : A -> nat) s (a : A) (q : A + res SpfsError R) s' : Prop :=
  match q with inl a' => less_left s (weight a) s' (weight a') | inr (Ok _) => unbegun s' <= unbegun s | inr _ => True end.
Lemma join_less {A R} (weight : A -> nat) (step : A -> Checking -> (A + res SpfsError R) * Checking) running i s r s' :
  (forall a q s', a ∈ running -> step a s = (q, s') -> lessens weight s a q s') -> (forall a, 0 < weight a) ->
  i < length running -> step_nth step i running s = (r, s') ->
  let total l := list_sum (List.map weight l) in
  match r with
  | inl running' | inr (Ok _, running') => less_left s (total running) s' (total running')
  | inr _ => True
  end.
Proof.
  intros Hstep Hpos Hi H total. apply step_nth_spec in H as (l1 & a & l2 & q & -> & Hs & ->); [|done].
  assert (a ∈ l1 ++ a :: l2) as Ha by (rewrite elem_of_app, elem_of_cons; auto).
  specialize (Hstep _ _ _ Ha Hs). pose proof (Hpos a). unfold total.
  destruct q as [a'|[x|e|]]; cbn [lessens] in Hstep; [| |done..].
  - pose proof (sum_replace weight l1 a l2 [a']) as Hsum. change (list_sum (List.map weight [a'])) with (weight a' + 0) in Hsum.
    destruct Hstep as [?|[? ?]]; [by left|right]. cbn [app] in Hsum. lia.
  - pose proof (sum_replace weight l1 a l2 []) as Hsum. change (list_sum (List.map weight [])) with 0 in Hsum.
    right. cbn [app] in Hsum. lia.
Qed.
Lemma advance_lessens {A R} `{!Tracks (D := D) (time := time) A R} (weight : A -> nat) s a (q : A + res SpfsError R) s' : advance s a q s' ->
  match q with inl a' => less_left s (weight a) s' (weight a') | inr _ => True end -> lessens weight s a q s'.
Proof. destruct q as [a'|[r|e|]]; cbn [lessens CheckTheory.advance]; try done. intros (_ & Hadv & _) _. apply unbegun_grows, Hadv. Qed.
Lemma same_less s w w' : w' < w -> less_left s w s w'.
Proof. by right. Qed.
Lemma step_grows_of s t path now q s' : check_future None path now t s = (q, s') -> unbegun s' <= unbegun s.
Proof. intros H. pose proof (check_future_grows None t path now s) as Hg. rewrite H in Hg. by apply unbegun_grows. Qed.
Lemma future_less t path now s q s' : steady s -> ok s t -> check_future None path now t s = (q, s') ->
  match q with inl t' => less_left s (left_to_check t) s' (left_to_check t') | inr _ => True end.
Proof.
  revert path s q s'. induction t as [t Ht|obj repaired running results IH|obj layer repaired t IH|obj repaired c t todo results IH] using check_future_ind;
    intros path s q s' Hs Hok; cbn [check_future].
  - destruct t as [d|d|d source sync|d|obj repaired|obj blob repaired|obj blob repaired source sync| | |obj repaired todo results|]; try done; cbn [check_future].
    + destruct (progress s !! d) eqn:E; intros [= <- <-]; [done|]. right. split; [|cbn; lia]. apply unbegun_grows, set_progress_grows. unfold begun. by rewrite E.
    + intros [= <- <-]. unfold read_again. destruct (read_object _ _) as [obj|[]|]; try done. apply same_less. cbn. lia.
    + by inversion Hok.
    + by inversion Hok.
    + inversion Hok as [| | | |d ? ? Hd Hm Hr| | | | | |]; subst. rewrite (steady_named s Hs d obj Hr). case_bool_decide; intros [= <- <-]; [done|].
      by eapply begin_less.
    + destruct (has_payload _ _); by intros [= <- <-].
    + by inversion Hok.
    + destruct todo as [|annotation todo]; intros [= <- <-]; [done|]. apply same_less. destruct (an_value annotation); cbn [left_to_check]; unfold notes_left; cbn [length]; lia.
  - inversion Hok as [| | | | | | |d ? ? ? ? Hd Hb Hr Hblob Hall Hc Htr| | |]; subst. destruct running as [|t0 running]; [by intros [= <- <-]|].
    destruct (step_nth _ _ _ s) as [r s0] eqn:E. intros [= <- <-]. apply (join_less left_to_check) in E; [|clear E|intros; apply left_to_check_pos|apply mod_length].
    + destruct r as [running'|[[r|e|] running']]; cbn [and_then left_to_check]; try done; by apply (less_plus _ _ _ _ 1 1) in E.
    + intros a q s' Ha Ea. apply advance_lessens; [eapply check_future_step; try done; [by apply steady_named|by apply Hall]|by eapply IH; auto].
  - inversion Hok; subst. destruct (check_future None path now t s) as [q0 s0] eqn:E. intros [= <- <-]. pose proof (step_grows_of _ _ _ _ _ _ E).
    apply IH in E; [|done..]. destruct q0 as [t'|[r|e|]]; cbn [and_then left_to_check] in *; try done; [by apply less_plus|].
    right. split; [done|]. unfold check_annotations. cbn [left_to_check]. pose proof (left_to_check_pos t). lia.
  - inversion Hok; subst. destruct (check_future None path now t s) as [q0 s0] eqn:E. intros [= <- <-]. pose proof (step_grows_of _ _ _ _ _ _ E).
    apply IH in E; [|done..]. destruct q0 as [t'|[r|e|]]; cbn [and_then left_to_check] in *; try done; [by apply less_plus|].
    destruct (as_blob_result r); cbn [and_then]; try done. right. split; [done|]. cbn [left_to_check]. pose proof (left_to_check_pos t). lia.
Qed.

(** ** Futures that run together *)

Section together.
Context {A R : Type} `{!Tracks (D := D) (time := time) A R} (step_of : list nat -> time -> A -> Checking -> (A + res SpfsError R) * Checking) (weight : A -> nat).
Hypothesis ok_mono : forall s s' a, grows s s' -> t_ok s a -> t_ok s' a.
Hypothesis step_advance : forall path now a s q s', steady s -> named (repo_of s) -> t_ok s a -> step_of path now a s = (q, s') -> advance s a q s'.
Hypothesis step_less : forall path now a s q s', steady s -> t_ok s a -> step_of path now a s = (q, s') ->
  match q with inl a' => less_left s (weight a) s' (weight a') | inr _ => True end.
Hypothesis weight_pos : forall a, 0 < weight a.
Context (schedule : nat -> list nat * time).
Lemma collect_end step running results s : so_far None sync0 asked kind_of s (fun _ => False) running results ->
  exists fuel outcome, collect schedule step_of fuel step running results s = Some outcome.
Proof.
  revert step running results s. enough (forall a : Checking * list A, forall step results, so_far None sync0 asked kind_of a.1 (fun _ => False) a.2 results ->
    exists fuel outcome, collect schedule step_of fuel step a.2 results a.1 = Some outcome) as H by (intros; by apply (H (s, running))).
  intros a. pattern a. revert a. apply (lex_ind (fun a => unbegun a.1) (fun a => list_sum (List.map weight a.2)) (fun _ => 0)).
  intros [s running] IH step results Hso. cbn [fst snd] in *. destruct running as [|a0 running]; [by exists 0; eexists|].
  destruct (schedule step) as [path now] eqn:Es.
  destruct (step_nth (step_of (tail path) now) (hd 0 path mod length (a0 :: running)) (a0 :: running) s) as [q s0] eqn:E.
  pose proof E as Hless. apply (join_less weight) in Hless; [|clear E|done|apply mod_length]; cycle 1.
  { intros a q' s' Ha Ea. destruct Hso as [Hs [Hall _] _ _ _]. apply advance_lessens; [eapply step_advance|eapply step_less]; eauto using steady_named. }
  pose proof (so_far_step None sync0 asked kind_of step_of ok_mono step_advance s (fun _ => False) (a0 :: running) results _ q s0
    (steady_named s (so_steady _ _ _ _ _ _ _ _ Hso)) Hso (mod_length _ _ _) _ _ E) as Hnext.
  assert (forall running' step' results', so_far None sync0 asked kind_of s0 (fun _ => False) running' results' ->
    less_left s (list_sum (List.map weight (a0 :: running))) s0 (list_sum (List.map weight running')) ->
    exists fuel outcome, collect schedule step_of fuel step' running' results' s0 = Some outcome) as Hgo.
  { intros running' step' results' Hso' Hsh. apply (IH (s0, running')); cbn [fst snd]; [|done].
    destruct Hsh as [?|[? ?]]; [by left|]. destruct (decide (unbegun s0 = unbegun s)); [right; split; [done|by left]|left; lia]. }
  destruct q as [running'|[[r|e|] running']].
  - destruct (Hgo running' (S step) results) as (fuel & outcome & H); [done..|]. exists (S fuel), outcome. cbn [collect]. by rewrite Es, E.
  - destruct (Hgo running' (S step) (results ++ [r])) as (fuel & outcome & H); [done..|]. exists (S fuel), outcome. cbn [collect]. by rewrite Es, E.
  - exists 1. eexists. cbn [collect]. by rewrite Es, E.
  - exists 1. eexists. cbn [collect]. by rewrite Es, E.
Qed.
End together.
Lemma collect_more {A R} (step_of : list nat -> time -> A -> Checking -> (A + res SpfsError R) * Checking) schedule fuel fuel' step running results s outcome : fuel <= fuel' ->
  collect schedule step_of fuel step running results s = Some outcome -> collect schedule step_of fuel' step running results s = Some outcome.
Proof.
  revert fuel' step running results s. induction fuel as [|fuel IH]; intros [|fuel'] step running results s Hle; cbn [collect]; (destruct running; [done|]);
    try done; try lia. destruct (schedule step) as [path now]. destruct (step_nth _ _ _ s) as [[running'|[[r|e|] running']] s0]; try done; apply IH; lia.
Qed.

(** ** Items and streams *)

Definition item_left_to_check (i : CheckItem D time) : nat :=
  match i with CheckItemStart _ => 5 | CheckItemObject t | CheckItemTag _ t => 1 + left_to_check t end.
Lemma item_left_to_check_pos i : 0 < item_left_to_check i.
Proof. destruct i; cbn; lia. Qed.
#[local] Instance item_tracks' : Tracks (D := D) (time := time) (CheckItem D time) (CheckEnvItemResult time) := item_tracks None sync0 asked kind_of.
Lemma item_less path now i s q s' : steady s -> t_ok s i -> check_env_item None path now i s = (q, s') ->
  match q with inl i' => less_left s (item_left_to_check i) s' (item_left_to_check i') | inr _ => True end.
Proof.
  intros Hs Hok. destruct i as [[spec|partial|d|]|t|tag t]; cbn [check_env_item].
  - destruct (check_resolve_tag _ spec) as [tag|[]|]; intros [= <- <-]; try done. apply same_less. cbn. lia.
  - destruct (resolve_full_digest _ partial); intros [= <- <-]; cbn [and_then]; try done. apply same_less. cbn. lia.
  - intros [= <- <-]. apply same_less. cbn. lia.
  - by intros [= <- <-].
  - destruct (check_future None path now t s) as [q0 s0] eqn:E. intros [= <- <-]. apply future_less in E; [|done..].
    destruct q0 as [t'|[r|e|]]; cbn [as_check_item and_then item_left_to_check]; try done. by apply (less_plus _ _ _ _ 1 1).
  - destruct (check_future None path now t s) as [q0 s0] eqn:E. intros [= <- <-]. apply future_less in E; [|done|by apply Hok].
    destruct q0 as [t'|[r|e|]]; cbn [and_then item_left_to_check]; try done. by apply (less_plus _ _ _ _ 1 1).
Qed.
Definition tags_left (todo : list (res SpfsError (Tag time))) : nat := 1 + 4 * length todo.
Definition stream_left (i : CheckStream D time) : nat :=
  match i with
  | StreamStart (Ok spec) => match check_read_tag (dest_tags sync0) spec with Ok stream => 1 + tags_left stream | _ => 1 end
  | StreamStart _ => 1
  | StreamNext _ todo _ => tags_left todo
  | StreamTag _ _ t todo _ => tags_left todo + left_to_check t
  end.
Lemma stream_left_pos i : 0 < stream_left i.
Proof. destruct i as [[spec|e|]| |]; cbn; unfold tags_left; try lia. destruct (check_read_tag _ _); lia. Qed.
#[local] Instance stream_tracks' : Tracks (D := D) (time := time) (CheckStream D time) (CheckTagStreamResult time) := stream_tracks None sync0 asked kind_of.
Lemma stream_less path now i s q s' : steady s -> t_ok s i -> check_tag_stream None path now i s = (q, s') ->
  match q with inl i' => less_left s (stream_left i) s' (stream_left i') | inr _ => True end.
Proof.
  intros Hs Hok. destruct i as [spec|spec [|tag todo] results|spec tag t todo results]; cbn [check_tag_stream].
  - destruct spec as [spec|e|]; cbn [and_then]; [|by intros [= <- <-]..]. destruct (check_read_tag _ spec) as [stream|[]|] eqn:Er; intros [= <- <-]; try done.
    apply same_less. cbn [stream_left]. rewrite (proj1 Hs eq_refl) in Er. rewrite Er. lia.
  - by intros [= <- <-].
  - intros [= <- <-]. destruct tag; cbn [and_then]; try done. apply same_less. cbn [stream_left left_to_check]. unfold tags_left. cbn [length]. lia.
  - destruct (check_future None path now t s) as [q0 s0] eqn:E. intros [= <- <-]. pose proof (step_grows_of _ _ _ _ _ _ E). apply future_less in E; [|done|by apply Hok].
    destruct q0 as [t'|[r|e|]]; cbn [and_then stream_left]; try done; [by apply less_plus|]. right. split; [done|]. pose proof (left_to_check_pos t). lia.
Qed.
End ends.

