(* ===== verification/SyncCases.v ===== *)
(** * Syncs and checks of small repositories

    Concrete runs of [Sync] and [Check]: the witnesses of their theorems, what a
    failed sync leaves behind, a repair, and what the summaries count. *)

From stdpp Require Import gmap.
From S2P Require Import Prelude Strings Names Collections Encoding TagSpec Tags TagFile TagStorage TagTheory TagListing.
From S2P Require Import Entry Manifest Objects ObjectTheory ObjectStore CleanTheory CleanCases Sync SyncTheory SyncEnds.

#[local] Set Warnings "-register-all".

(** ** Tags of file-system repositories *)

#[export] Instance fs_tag_sync : TagSync repo seconds := {
  sync_resolve_tag s spec := map_error text_error (TagStorage.resolve_tag words spec s).1;
  sync_insert_tag s tag := let '(r, s) := TagStorage.insert_tag words tag s in (map_error text_error r, s);
}.

(** ** A source *)

Definition sum_digest (bytes : list N) : Digest := dg (foldl (fun a b => (a * 7 + b + 1) mod 251)%N 0%N bytes).
#[export] Instance sync_fs : FileSystem seconds := {|
  fails := fun _ _ => false; listing := id; base32 := fun _ => []; sha256 := sum_digest; buffered := slice_reader;
  storage_config := None; object_layout := number_layout; later := cmp_seconds |}.
Definition new_object : Enum -> Object := new_with_default_header None.
Definition digest_of (contents : Enum) : Digest := default (dg 0) (res_ok (Object_digest sum_digest (new_object contents))).
Definition file_bytes : list N := [7; 8; 9]%N.
Definition file_blob : Digest := sum_digest file_bytes.
(** Two platforms that share a layer. *)
Definition full_manifest : Enum := manifest_of file_blob.
Definition empty_manifest : Enum := ObjManifest (mkGManifest [] []).
Definition full_layer : Enum := layer_of (digest_of full_manifest).
Definition empty_layer : Enum := layer_of (digest_of empty_manifest).
Definition one_layer : Enum := ObjPlatform (mkPlatform [digest_of full_layer]).
Definition two_layers : Enum := ObjPlatform (mkPlatform [digest_of full_layer; digest_of empty_layer]).
Definition sync_contents : list Enum :=
  [blob_of file_blob; full_manifest; empty_manifest; full_layer; empty_layer; one_layer; two_layers].
Definition demo_repo : Repo seconds :=
  mkRepo (list_to_map ((fun contents => (digest_of contents, stored_at 5 contents)) <$> sync_contents)) {[ file_blob := file_bytes ]}.
Definition no_repo : Repo seconds := mkRepo ∅ ∅.
Definition source_failing (bad : FsCall -> Digest -> bool) : Source repo seconds := mkSource demo_tags demo_repo bad id.
Definition demo_source : Source repo seconds := source_failing (fun _ _ => false).
Definition nothing_yet : Syncing repo seconds := mkSyncing demo_tags no_repo ∅.
(** Six steps of the first item, and then the second one first. *)
Definition second_first (n : nat) : list nat * seconds := ([if n <? 6 then 0 else 1; n], mkSeconds (N.of_nat n)).
Definition both : list EnvSpecItem := [ItemDigest (digest_of one_layer); ItemDigest (digest_of two_layers)].

Abbreviation demo_sync := (sync_env MissingDataOnly demo_source second_first 200 both nothing_yet).
Definition results_of (r : option (res SpfsError (list SyncEnvItemResult) * Syncing repo seconds)) : res SpfsError (list SyncEnvItemResult) :=
  default Panicked (fst <$> r).
Definition after (r : option (res SpfsError (list SyncEnvItemResult) * Syncing repo seconds)) : Syncing repo seconds :=
  default nothing_yet (snd <$> r).
Example demo_distinct : NoDup (digest_of <$> sync_contents).
Proof. vm_compute. apply (bool_decide_unpack _). vm_compute. exact I. Qed.
Example demo_sync_copies : res_is_ok (results_of demo_sync) = true /\
  bool_decide (dom (objects (dest (after demo_sync))) = dom (objects demo_repo)) = true /\ bool_decide (payloads (dest (after demo_sync)) = payloads demo_repo) = true.
Proof. vm_compute. split_and!; reflexivity. Qed.

(** ** A failed sync *)

(** The payload cannot be opened at first. *)
Definition bad_payload : FsCall -> Digest -> bool := fun call d => match call with OpenPayload => true | _ => false end.
Abbreviation failed_sync := (sync_env MissingDataOnly (source_failing bad_payload) second_first 200 both nothing_yet).
Abbreviation second_sync :=
  (sync_env MissingDataOnly demo_source second_first 200 [ItemDigest (digest_of two_layers)] (mkSyncing demo_tags (dest (after failed_sync)) ∅)).
(** The sync fails, and leaves a platform without one of its layers: the layer was
    being synced for the other platform. *)
Example failed_sync_leaves_gap : res_is_ok (results_of failed_sync) = false /\
  has_object (dest (after failed_sync)) (digest_of two_layers) = true /\ has_object (dest (after failed_sync)) (digest_of full_layer) = false.
Proof. vm_compute. split_and!; reflexivity. Qed.
(** The next sync finds the platform, skips it, and succeeds: the layer is still
    missing. *)
Example gap_remains : results_of second_sync = Ok [EnvObject (OfPlatform PlatformSkipped)] /\
  has_object (dest (after second_sync)) (digest_of full_layer) = false.
Proof. vm_compute. split_and!; reflexivity. Qed.

(** ** The hypotheses of the theorems, here *)

Definition demo_kind (d : Digest) : ObjectKind := match src_object demo_source d with Ok obj => Enum_kind (to_enum obj) | _ => KindBlob end.
Lemma demo_cases d obj : src_object demo_source d = Ok obj -> exists contents, contents ∈ sync_contents /\ d = digest_of contents /\ obj = new_object contents.
Proof.
  unfold src_object, read_object. cbn [src_repo demo_source source_failing demo_repo objects].
  destruct (_ !! d) as [stored|] eqn:E; [|done]. apply elem_of_list_to_map_2, list_elem_of_fmap in E as (contents & [= -> ->] & Hc).
  intros [= <-]. by exists contents.
Qed.
(** What is written is what is read, and bears its digest. *)
Definition round_trips (contents : Enum) : bool :=
  match Object_digest sum_digest (new_object contents) with
  | Ok d => bool_decide (d = digest_of contents) && bool_decide (Enum_kind contents = demo_kind d)
  | _ => false
  end &&
  match Object_encode [] (new_object contents) with
  | Ok bytes => match Object_new None slice_reader bytes with Ok obj => bool_decide (obj = new_object contents) | _ => true end
  | _ => true
  end.
Lemma sound_fits contents : round_trips contents = true ->
  fits demo_kind (digest_of contents) (new_object contents) /\ rewrites demo_kind (digest_of contents) (new_object contents).
Proof.
  unfold round_trips. intros [Hd Hw]%andb_true_iff. assert (fits demo_kind (digest_of contents) (new_object contents)) as Hf.
  { unfold fits. cbn [sha256 sync_fs]. destruct (Object_digest _ _) as [d|e|]; [|done..]. apply andb_true_iff in Hd as [->%bool_decide_eq_true Hk].
    split; [done|]. by apply bool_decide_eq_true in Hk. }
  split; [done|]. intros bytes obj He Hn. cbn [object_layout sync_fs] in He. rewrite He in Hw. cbn [storage_config buffered sync_fs object_layout] in Hn.
  rewrite Hn in Hw. apply bool_decide_eq_true in Hw. by subst.
Qed.
Lemma demo_sound : forallb round_trips sync_contents = true.
Proof. vm_compute. reflexivity. Qed.
Lemma demo_source_ok : source_ok demo_source demo_kind.
Proof.
  assert (forall contents, contents ∈ sync_contents -> round_trips contents = true) as Hs.
  { intros contents Hc. apply list_elem_of_In in Hc. revert contents Hc. apply forallb_forall, demo_sound. }
  split.
  - intros d obj (contents & Hc & -> & ->)%demo_cases. by apply sound_fits, Hs.
  - intros d obj m entry (contents & Hc & -> & ->)%demo_cases Hm He Hb.
    assert (entry = mkGEntry (lit "f") (KBlob 3) 33188 3 file_blob) as ->.
    { repeat (apply elem_of_cons in Hc as [-> |Hc]; [cbn in Hm; try done; injection Hm as <-; cbn in He;
        first [by apply elem_of_nil in He|by apply list_elem_of_singleton in He]|]). by apply elem_of_nil in Hc. }
    cbn [ge_object]. split; [vm_compute; reflexivity|]. change file_blob with (digest_of (blob_of file_blob)) at 1.
    change (Blob_new storage_config file_blob _) with (new_object (blob_of file_blob)). apply sound_fits, Hs. by left.
Qed.
Lemma demo_dest_ok : dest_ok demo_kind no_repo.
Proof. intros d obj. unfold read_object. cbn [objects no_repo]. by rewrite lookup_empty. Qed.
Lemma demo_no_gap c : ~ gap demo_source demo_kind no_repo c.
Proof. intros (d & obj & [o Ho] & _). cbn [objects no_repo] in Ho. rewrite lookup_empty in Ho. discriminate Ho. Qed.
Lemma nothing_processed d : d ∈ processed nothing_yet -> whole demo_kind (dest nothing_yet) d.
Proof. cbn [processed nothing_yet]. intros Hd. destruct (not_elem_of_empty d Hd). Qed.
Definition returned {A} (r : option A) : bool := match r with Some _ => true | None => false end.
Lemma demo_run_of (r : option (res SpfsError (list SyncEnvItemResult) * Syncing repo seconds)) : returned r = true -> r = Some (results_of r, after r).
Proof. unfold results_of, after. by destruct r as [[? ?]|]. Qed.
Lemma res_ok_eq {E A} (r : res E A) : res_is_ok r = true -> exists a, r = Ok a.
Proof. destruct r; [by eexists|done..]. Qed.
Lemma demo_kind_blob : demo_kind file_blob = KindBlob.
Proof. vm_compute. reflexivity. Qed.
Lemma demo_sync_ends : returned demo_sync = true.
Proof. vm_compute. reflexivity. Qed.
Lemma blob_below : beneath demo_source (gap demo_source demo_kind no_repo) (digest_of one_layer) file_blob.
Proof.
  apply (beneath_child _ _ _ (digest_of full_manifest) (new_object full_manifest)); [|vm_compute; reflexivity|vm_compute; by left|apply demo_no_gap].
  apply (beneath_child _ _ _ (digest_of full_layer) (new_object full_layer)); [|vm_compute; reflexivity|vm_compute; by left|apply demo_no_gap].
  apply (beneath_child _ _ _ (digest_of one_layer) (new_object one_layer)); [apply beneath_itself|vm_compute; reflexivity|vm_compute; by left|apply demo_no_gap].
Qed.

Lemma sync_copies_witness :
  has_object (dest (after demo_sync)) file_blob = true /\ has_payload (dest (after demo_sync)) file_blob = true.
Proof.
  assert (exists results, results_of demo_sync = Ok results) as [results Hr] by (apply res_ok_eq; vm_compute; reflexivity).
  destruct (sync_copies MissingDataOnly demo_source demo_kind second_first 200 both nothing_yet results (after demo_sync)) as (_ & _ & H & _).
  - exact demo_source_ok.
  - exact demo_dest_ok.
  - exact nothing_processed.
  - rewrite <-Hr. exact (demo_run_of demo_sync demo_sync_ends).
  - destruct (H (ItemDigest (digest_of one_layer)) (digest_of one_layer)) with (x := file_blob) as [Ho Hp]; [by left|reflexivity|exact blob_below|].
    exact (conj Ho (Hp demo_kind_blob)).
Defined.
Lemma sync_ends_witness : exists fuel outcome s', sync_env MissingDataOnly demo_source second_first fuel both nothing_yet = Some (outcome, s').
Proof.
  destruct (sync_ends MissingDataOnly demo_source demo_kind second_first both nothing_yet) as (enough & outcome & s' & H).
  - exact demo_source_ok.
  - exact demo_dest_ok.
  - exists enough, outcome, s'. apply H. lia.
Defined.
Definition demo_done : Syncing repo seconds := mkSyncing demo_tags demo_repo ∅.
Abbreviation third_sync := (sync_env MissingDataOnly demo_source second_first 200 both demo_done).
Lemma third_sync_ends : returned third_sync = true.
Proof. vm_compute. reflexivity. Qed.
(** A sync that fails does not touch what was there. *)
Abbreviation failed_again :=
  (sync_env ResyncEverything (source_failing bad_payload) second_first 200 both demo_done).
Lemma failed_again_ends : returned failed_again = true.
Proof. vm_compute. reflexivity. Qed.
Lemma sync_only_adds_witness : res_is_ok (results_of failed_again) = false /\ has_payload (dest (after failed_again)) file_blob = true.
Proof.
  split; [vm_compute; reflexivity|].
  destruct (sync_only_adds ResyncEverything (source_failing bad_payload) second_first 200 both demo_done (results_of failed_again) (after failed_again)
    (demo_run_of failed_again failed_again_ends)) as [_ H].
  apply H. vm_compute. reflexivity.
Defined.
Lemma sync_again_witness : dest (after third_sync) = demo_repo.
Proof.
  destruct (sync_again MissingDataOnly demo_source second_first 200 [digest_of one_layer; digest_of two_layers] demo_done (results_of third_sync) (after third_sync))
    as [H _]; [reflexivity| |exact (demo_run_of third_sync third_sync_ends)|exact H].
  intros d Hd. apply elem_of_cons in Hd as [-> |Hd%list_elem_of_singleton]; [exists (new_object one_layer)|subst d; exists (new_object two_layers)];
    (split; [vm_compute; reflexivity|]); (split; [vm_compute; reflexivity|split; [vm_compute; by eexists|done]]).
Defined.

(** ** Summaries *)

(** The blob of an entry is counted twice among the synced objects: once for
    itself and once for the entry, which is not an object. *)
Example entry_counted_twice blob :
  SyncEntryResult_summary (EntrySynced (BlobSynced blob (PayloadSynced 3))) = mkSyncSummary 0 0 0 2 0 1 3.
Proof. vm_compute. reflexivity. Qed.
(** The payload of an annotation is not counted at all. *)
Example annotation_payload_not_counted digest blob size :
  SyncAnnotationResult_summary (AnnotationSynced digest (OfBlob (BlobSynced blob (PayloadSynced size)))) = synced_one_object.
Proof. reflexivity. Qed.

(** * Checks of small repositories *)

From S2P Require Import Check CheckTheory CheckReport.

(** ** Tags of file-system repositories *)

Definition storage_error (e : StorageError) : SpfsError :=
  match e with TagStorage.UnknownReference reference => Objects.UnknownReference reference | e => text_error e end.
#[export] Instance fs_tag_check : TagCheck repo seconds := {
  check_read_tag s spec := stream_read storage_error text_error (TagStorage.read_tag words spec s).1;
  check_resolve_tag s spec := map_error storage_error (TagStorage.resolve_tag words spec s).1;
  check_iter_tags s := (fun r => '(spec, _) ← map_error storage_error r; Ok spec) <$> TagListing.iter_tags (time := seconds) words id s;
}.

(** ** A damaged repository *)

(** One of the layers is missing, and the only payload. *)
Definition damaged : Repo seconds := mkRepo (delete (digest_of empty_layer) (objects demo_repo)) ∅.
Definition unchecked (repo : Repo seconds) : Checking TagStorage.repo seconds := mkChecking (mkSyncing demo_tags repo ∅) ∅.
Abbreviation demo_check := (check_env None second_first 200 both (unchecked damaged)).
Abbreviation demo_repair := (check_env (Some demo_source) second_first 300 both (unchecked damaged)).
Abbreviation Outcome := (option (res SpfsError (list (CheckEnvItemResult seconds)) * Checking TagStorage.repo seconds)).
Definition report_of (r : Outcome) : res SpfsError (list (CheckEnvItemResult seconds)) := default Panicked (fst <$> r).
Definition checked_after (r : Outcome) : Checking TagStorage.repo seconds := default (unchecked damaged) (snd <$> r).
Definition summary_of (r : Outcome) : CheckSummary := default CheckSummary_default (CheckEnvResult_summary <$> res_ok (report_of r)).
Example demo_check_reports : elements (missing_objects (summary_of demo_check)) = [digest_of empty_layer] /\
  elements (missing_payloads (summary_of demo_check)) = [file_blob] /\ checked_objects (summary_of demo_check) = 5%N.
Proof. vm_compute. split_and!; reflexivity. Qed.
(** The repair syncs what is missing.  The blob whose payload was missing is
    counted as a repaired object, though it was there. *)
Example demo_repair_repairs : missing_objects (summary_of demo_repair) = ∅ /\ missing_payloads (summary_of demo_repair) = ∅ /\
  repaired_objects (summary_of demo_repair) = 2%N /\ repaired_payloads (summary_of demo_repair) = 1%N /\
  has_object (repo_of (checked_after demo_repair)) (digest_of empty_layer) = true /\ has_payload (repo_of (checked_after demo_repair)) file_blob = true.
Proof. vm_compute. split_and!; reflexivity. Qed.

(** ** The hypotheses of the theorems, here *)

Definition fits_itself (repo : Repo seconds) (d : Digest) : bool :=
  match read_object repo d with
  | Ok obj => match Object_digest sum_digest obj with Ok d' => bool_decide (d' = d) && bool_decide (Enum_kind (to_enum obj) = demo_kind d) | _ => false end
  | _ => true
  end.
Lemma fits_of repo : forallb (fits_itself repo) (elements (dom (objects repo))) = true -> forall d obj, read_object repo d = Ok obj -> fits demo_kind d obj.
Proof.
  intros H d obj Hr. assert (d ∈ elements (dom (objects repo))) as Hd.
  { apply elem_of_elements, elem_of_dom. by eapply read_stored. }
  apply list_elem_of_In in Hd. rewrite forallb_forall in H. specialize (H d Hd). unfold fits_itself in H. rewrite Hr in H. unfold fits.
  change sha256 with sum_digest. destruct (Object_digest sum_digest obj) as [d'|e|]; try done. apply andb_true_iff in H as [->%bool_decide_eq_true Hk].
  split; [done|]. by apply bool_decide_eq_true in Hk.
Qed.
Lemma run_of (r : Outcome) : returned r = true -> r = Some (report_of r, checked_after r).
Proof. unfold report_of, checked_after. by destruct r as [[? ?]|]. Qed.
Lemma demo_check_ends : returned demo_check = true.
Proof. vm_compute. reflexivity. Qed.
Lemma demo_repair_ends : returned demo_repair = true.
Proof. vm_compute. reflexivity. Qed.
Lemma damaged_named : named damaged.
Proof. assert (forallb (fits_itself damaged) (elements (dom (objects damaged))) = true) as H by (vm_compute; reflexivity). intros d obj Hr. exact (proj1 (fits_of damaged H d obj Hr)). Qed.
Lemma repaired_fits : forallb (fits_itself (repo_of (checked_after demo_repair))) (elements (dom (objects (repo_of (checked_after demo_repair))))) = true.
Proof. vm_compute. reflexivity. Qed.
Lemma demo_sources source : Some demo_source = Some source -> source_ok source demo_kind.
Proof. intros H. injection H as <-. exact demo_source_ok. Qed.
Lemma empty_layer_reached : reachable damaged (fun x => exists item, item ∈ both /\ asks_for (syncer (unchecked damaged)) item x) (digest_of empty_layer).
Proof.
  apply (reach_child _ _ (digest_of two_layers) (new_object two_layers)); [|vm_compute; reflexivity|vm_compute; by right; left].
  apply reach_root. exists (ItemDigest (digest_of two_layers)). split; [by right; left|reflexivity].
Qed.
Lemma empty_layer_absent : absent damaged (digest_of empty_layer).
Proof. exists (digest_of empty_layer). vm_compute. reflexivity. Qed.

Lemma check_exact_witness : digest_of empty_layer ∈ missing_objects (summary_of demo_check) /\ syncer (checked_after demo_check) = syncer (unchecked damaged).
Proof.
  assert (exists results, report_of demo_check = Ok results) as [results Hr] by (apply res_ok_eq; vm_compute; reflexivity).
  destruct (check_exact second_first 200 both (unchecked damaged) results (checked_after demo_check)) as (Hs & Ho & _).
  - reflexivity.
  - exact damaged_named.
  - rewrite <-Hr. exact (run_of demo_check demo_check_ends).
  - split; [|exact Hs]. unfold summary_of. rewrite Hr. exact (proj2 (Ho (digest_of empty_layer)) (conj empty_layer_reached empty_layer_absent)).
Defined.
Lemma check_accounts_witness : accounted (checked_after demo_repair) (summary_of demo_repair) (digest_of two_layers).
Proof.
  assert (exists results, report_of demo_repair = Ok results) as [results Hr] by (apply res_ok_eq; vm_compute; reflexivity).
  unfold summary_of. rewrite Hr. apply (check_accounts (Some demo_source) demo_kind second_first 300 both (unchecked damaged) results (checked_after demo_repair)).
  - exact demo_sources.
  - reflexivity.
  - reflexivity.
  - exact (fits_of _ repaired_fits).
  - rewrite <-Hr. exact (run_of demo_repair demo_repair_ends).
  - apply within_root. left. by right; left.
Defined.

(** ** Tags *)

Abbreviation tags_check := (check_all_tags None second_first 200 (unchecked damaged)).
(** The targets of the only tag and of its history are not in the repository. *)
Example tags_checked : returned tags_check = true.
Proof. vm_compute. reflexivity. Qed.

(** ** Summaries *)

(** A blob that an annotation refers to and that is missing is counted among the
    objects that were checked; other missing objects are not. *)
Example missing_annotation_counted digest :
  checked_objects (CheckObjectResult_summary (CheckAnnotation (CheckAnnotationChecked digest (CheckBlobMissing digest) false))) = 1%N /\
  checked_objects (CheckObjectResult_summary (CheckMissing digest)) = 0%N.
Proof. split; reflexivity. Qed.
(** The bytes of a payload that is missing are counted among those that were
    checked. *)
Example missing_payload_counted blob digest :
  checked_payloads (CheckBlobResult_summary (CheckBlobChecked false blob (PayloadMissing digest))) = 0%N /\
  checked_payload_bytes (CheckBlobResult_summary (CheckBlobChecked false blob (PayloadMissing digest))) = u64_add 0 (blob_size blob).
Proof. split; reflexivity. Qed.
