(* ===== verification/Repositories.v ===== *)
(** * Package repositories

    Models crates/spk-storage/src/storage/repository.rs, the operations of a
    repository of packages over what its storage provides, and mem.rs, the storage
    that is kept in memory: publishing, updating and removing packages with the
    stubs of the packages that are embedded in them, recipes, and listings.

    A storage is the interface [Storage]; packages are the interface
    [StoredPackage], of which the package specs of [PackageSpec] are an instance.
    [HashMap]s and [HashSet]s are lists without duplicates; [order] is the order in
    which they are walked. *)

From S2P Require Import Prelude Encoding Entry Strings Collections Names Version VersionOrder VersionText.
From S2P Require Import Compat RangeData Reasons CompatCheck VersionRange Components Options Idents.
From S2P Require Import Requests RequestEq Opts Requirements ComponentSpecs Satisfy Embedded PackageSpec.
From S2P Require Import Solution PackageIterators.

(** ** Errors and events *)

Inductive RepositoryError :=
| PackageNotFound (pkg : AnyIdent)
| VersionExists (pkg : VersionIdent)
| InvalidPackageSpec (message : rstr)
| InvalidBuild (message : rstr)       (** [SpkIdentBuildError] *)
| RequirementFailed (e : RequirementsError)
| StorageFailed (message : rstr).     (** the others *)
Inductive PublishPolicy := OverwriteVersion | DoNotOverwriteVersion.
Inductive PackageEvent := Published | Modified | Removed | GenerateFullIndex.

(** [Eq] of names. *)
Definition name_eq (a b : rstr) : bool := bool_decide (a = b).
Definition BuildIdent_can_embed (self : BuildIdent) : bool := match id_target self with BuildBuildId _ => true | _ => false end.
Definition not_found {A} (pkg : BuildIdent) : res RepositoryError A := Err (PackageNotFound (BuildIdent_to_any_ident pkg)).
Definition recipe_not_found {A} (pkg : VersionIdent) : res RepositoryError A := Err (PackageNotFound (VersionIdent_to_any_ident pkg None)).

(** *** Sets and maps *)

Section hash.
Context {K V : Type} (eqb : K -> K -> bool).
Definition hm_remove (k : K) (m : list (K * V)) : list (K * V) := List.filter (fun e => negb (eqb e.1 k)) m.
Definition hm_contains (k : K) (m : list (K * V)) : bool := match hm_get eqb k m with Some _ => true | None => false end.
Definition hm_extend (m entries : list (K * V)) : list (K * V) := foldl (fun m '(k, v) => hm_insert eqb k v m) m entries.
End hash.
Definition hs_extend {K} (eqb : K -> K -> bool) (s items : list K) : list K := (hm_extend eqb ((fun x => (x, tt)) <$> s) ((fun x => (x, tt)) <$> items)).*1.

(** ** Packages and recipes *)

(** What a repository asks of packages ([Package], [PackageMut], [Deprecate] and
    [DownstreamRequirements]) and of recipes. *)
Class StoredPackage (P Req : Type) := {
  sp_ident : P -> BuildIdent;
  sp_is_deprecated : P -> bool;
  sp_eq : P -> P -> bool;
  sp_components : P -> list Component;
  sp_embedded_as_packages : P -> res rstr (list (P * option Component));
  sp_downstream_runtime_requirements : P -> list Component -> res RepositoryError (list Req);
  sp_insert_or_merge : Req -> P -> res RepositoryError P;
  sp_set_build : Build -> P -> P;
  sp_set_deprecated : bool -> P -> res RepositoryError P;
  sp_matches_all_filters : P -> res RepositoryError bool;
}.
Class StoredRecipe (R : Type) := recipe_ident : R -> VersionIdent.
Definition ComponentMap : Type := list (Component * Digest).

(** ** Storages *)

(** The operations that a kind of storage provides ([Storage], and the methods of
    [Repository] without a default). *)
Class Storage (D R P : Type) := {
  get_concrete_package_builds : VersionIdent -> D -> res RepositoryError (list BuildIdent);
  get_embedded_package_builds : VersionIdent -> D -> res RepositoryError (list BuildIdent);
  publish_embed_stub_to_storage : P -> D -> res RepositoryError unit * D;
  publish_package_to_storage : P -> ComponentMap -> D -> res RepositoryError unit * D;
  publish_recipe_to_storage : R -> PublishPolicy -> D -> res RepositoryError unit * D;
  read_components_from_storage : BuildIdent -> D -> res RepositoryError ComponentMap;
  read_package_from_storage : BuildIdent -> D -> res RepositoryError P;
  remove_embed_stub_from_storage : BuildIdent -> D -> res RepositoryError unit * D;
  remove_package_from_storage : BuildIdent -> D -> res RepositoryError unit * D;
  list_packages : D -> res RepositoryError (list rstr);
  list_package_versions : rstr -> D -> res RepositoryError (list Version);
  list_build_components : BuildIdent -> D -> res RepositoryError (list Component);
  read_embed_stub : BuildIdent -> D -> res RepositoryError P;
  read_recipe : VersionIdent -> D -> res RepositoryError R;
  remove_recipe : VersionIdent -> D -> res RepositoryError unit * D;
}.

Section repository.
Context {D R P Req : Type} `{!StoredPackage P Req, !StoredRecipe R, !Storage D R P}.
(** The order of hashed collections, and whether the messages of an event are sent. *)
Context (order : forall A : Type, list A -> list A) (sends : PackageEvent -> BuildIdent -> res RepositoryError unit).

(** A repository, with the events that were announced. *)
Record Repository := mkRepository { storage : D; events : list (PackageEvent * BuildIdent) }.
Definition Op (A : Type) : Type := Repository -> res RepositoryError A * Repository.
Definition op_ret {A} (a : A) : Op A := fun s => (Ok a, s).
Definition op_of {A} (r : res RepositoryError A) : Op A := fun s => (r, s).
Definition op_bind {A B} (m : Op A) (f : A -> Op B) : Op B := fun s =>
  let '(r, s) := m s in
  match r with Ok a => f a s | Err e => (Err e, s) | Panicked => (Panicked, s) end.
Notation "a <- m ; f" := (op_bind m (fun a => f)) (at level 60, m at next level, right associativity).
Definition reads {A} (f : D -> res RepositoryError A) : Op A := fun s => (f (storage s), s).
Definition writes (f : D -> res RepositoryError unit * D) : Op unit := fun s =>
  let '(r, d) := f (storage s) in (r, mkRepository d (events s)).
Definition announce_package_event (event : PackageEvent) (ident : BuildIdent) : Op unit := fun s =>
  match sends event ident with Ok tt => (Ok tt, mkRepository (storage s) (events s ++ [(event, ident)])) | r => (r, s) end.
Fixpoint each {A} (f : A -> Op unit) (l : list A) : Op unit :=
  match l with [] => op_ret tt | a :: l => _ <- f a; each f l end.

(** *** Stubs of embedded packages *)

Definition embedded_by (parent : P) (components : list Component) : Build :=
  BuildEmbedded (EmbeddedPackage (mkEmbeddedSourcePackage (IdentPartsBuf_from (sp_ident parent)) components None)).
Fixpoint with_requirements (requests : list Req) (spec : P) : res RepositoryError P :=
  match requests with [] => Ok spec | request :: requests => spec ← sp_insert_or_merge request spec; with_requirements requests spec end.
(** The stub of an embedded package. *)
Definition embed_stub (parent embedded : P) (components : list Component) : res RepositoryError P :=
  requests ← sp_downstream_runtime_requirements parent components;
  embedded ← with_requirements requests embedded;
  sp_set_deprecated (sp_is_deprecated parent) (sp_set_build (embedded_by parent components) embedded).
Definition create_embedded_stub_for_spec (parent embedded : P) (components : list Component) : Op unit :=
  stub <- op_of (embed_stub parent embedded components);
  _ <- writes (publish_embed_stub_to_storage stub);
  announce_package_event Modified (sp_ident stub).
Definition stub_ident (parent embedded : P) (components : list Component) : BuildIdent :=
  with_target (sp_ident embedded) (embedded_by parent components).
Definition remove_embedded_stub_for_spec (parent embedded : P) (components : list Component) : Op unit :=
  let embedded_pkg_ident := stub_ident parent embedded components in
  _ <- writes (remove_embed_stub_from_storage embedded_pkg_ident);
  announce_package_event Modified embedded_pkg_ident.
(** The components that provide each embedded package: those at the top level are
    provided by the run component. *)
Definition Providers : Type := list (P * list Component).
Definition add_provider (providers : Providers) (embed : P * option Component) : Providers :=
  hm_insert sp_eq embed.1 (bset_insert (default ComponentRun embed.2) (default [] (hm_get sp_eq embed.1 providers))) providers.
Definition get_embedded_providers (package : P) : res RepositoryError Providers :=
  match sp_embedded_as_packages package with
  | Ok embeds => Ok (foldl add_provider [] embeds)
  | Err e => Err (StorageFailed e)
  | Panicked => Panicked
  end.
(** [PartialEq] of the maps. *)
Definition providers_eq (a b : Providers) : bool :=
  (length a =? length b) && forallb (fun '(k, v) => bool_decide (hm_get sp_eq k b = Some v)) a.

(** *** Reading *)

Definition read_package (pkg : BuildIdent) : Op P :=
  if Build_is_embed_stub (id_target pkg) then reads (read_embed_stub pkg) else reads (read_package_from_storage pkg).
Definition read_components (pkg : BuildIdent) : Op ComponentMap :=
  if Build_is_embed_stub (id_target pkg) then
    embedded_spec <- read_package pkg;
    op_ret (hm_extend (fun a b => bool_decide (a = b)) [] ((fun name => (name, EMPTY_DIGEST)) <$> sp_components embedded_spec))
  else reads (read_components_from_storage pkg).
Definition list_package_builds (pkg : VersionIdent) : Op (list BuildIdent) :=
  concrete <- reads (get_concrete_package_builds pkg);
  embedded <- reads (get_embedded_package_builds pkg);
  op_ret (order _ (hs_extend BuildIdent_eq concrete embedded)).
Definition is_build_deprecated (build : BuildIdent) : Op bool := spec <- read_package build; op_ret (sp_is_deprecated spec).
(** An active build makes its version one. *)
Definition is_active (spec : P) : res RepositoryError bool :=
  if sp_is_deprecated spec || Build_is_source (id_target (sp_ident spec)) then Ok false else sp_matches_all_filters spec.
Fixpoint any_active (builds : list BuildIdent) : Op bool :=
  match builds with
  | [] => op_ret false
  | build :: builds =>
      spec <- read_package build;
      active <- op_of (is_active spec);
      if active : bool then op_ret true else any_active builds
  end.
Fixpoint highest_active (name : rstr) (versions : list Version) : Op (option Version) :=
  match versions with
  | [] => op_ret None
  | version :: versions =>
      builds <- list_package_builds (mkIdent name version);
      active <- any_active builds;
      if active : bool then op_ret (Some version) else highest_active name versions
  end.
Definition highest_package_version (name : rstr) : Op (option Version) :=
  versions <- reads (list_package_versions name);
  highest_active name (@sort_slice _ (fun a b => Version_cmp b a) versions).

(** *** Publishing *)

Definition publish_recipe (spec : R) : Op unit := writes (publish_recipe_to_storage spec DoNotOverwriteVersion).
Definition force_publish_recipe (spec : R) : Op unit := writes (publish_recipe_to_storage spec OverwriteVersion).
Definition create_stubs (package : P) (providers : Providers) : Op unit :=
  each (fun '(embed, components) => create_embedded_stub_for_spec package embed components) (order _ providers).
Definition publish_package (package : P) (components : ComponentMap) : Op unit :=
  if Build_is_embedded (id_target (sp_ident package)) then op_of (Err (InvalidBuild (lit "Cannot publish embedded package")))
  else
    _ <- writes (publish_package_to_storage package components);
    _ <- (if BuildIdent_can_embed (sp_ident package) then
            providers <- op_of (get_embedded_providers package);
            create_stubs package providers
          else op_ret tt);
    announce_package_event Published (sp_ident package).
Definition remove_package (pkg : BuildIdent) : Op unit :=
  _ <- (fun s =>
          match read_package pkg s with
          | (Ok spec, s) =>
              if BuildIdent_can_embed (sp_ident spec) then
                (providers <- op_of (get_embedded_providers spec);
                 each (fun '(embed, components) => remove_embedded_stub_for_spec spec embed components) (order _ providers)) s
              else (Ok tt, s)
          | (Err _, s) => (Ok tt, s)
          | (Panicked, s) => (Panicked, s)
          end);
  _ <- writes (remove_package_from_storage pkg);
  announce_package_event Removed pkg.

(** What of the stubs has to change when a package was updated: those that appeared
    or disappeared first. *)
Definition without (a b : Providers) : Providers := List.filter (fun e => negb (hm_contains sp_eq e.1 b)) a.
Definition returning (a b : Providers) : Providers :=
  if length a <=? length b then List.filter (fun e => hm_contains sp_eq e.1 b) a else List.filter (fun e => hm_contains sp_eq e.1 a) b.
Definition update_stubs (package original : P) : Op unit :=
  original_providers <- op_of (get_embedded_providers original);
  new_providers <- op_of (get_embedded_providers package);
  match original_providers, new_providers with
  | [], [] => op_ret tt
  | _, _ =>
      let changed := negb (providers_eq original_providers new_providers) in
      let status_changed := negb (Bool.eqb (sp_is_deprecated original) (sp_is_deprecated package)) in
      if negb changed && status_changed then create_stubs package new_providers
      else if changed then
        _ <- each (fun '(embed, components) => remove_embedded_stub_for_spec package embed components) (order _ (without original_providers new_providers));
        _ <- create_stubs package (without new_providers original_providers);
        if status_changed then
          each (fun '(embed, _) => match hm_get sp_eq embed new_providers with
                                   | Some components => create_embedded_stub_for_spec package embed components
                                   | None => op_ret tt
                                   end) (order _ (returning original_providers new_providers))
        else op_ret tt
      else op_ret tt
  end.
Definition update_package (package : P) : Op unit := fun s =>
  let '(original, s) := if BuildIdent_can_embed (sp_ident package) then let '(r, s) := read_package (sp_ident package) s in (Some r, s) else (None, s) in
  (_ <- (if original is Some Panicked then op_of Panicked else op_ret tt);
   components <- read_components (sp_ident package);
   _ <- writes (publish_package_to_storage package components);
   _ <- announce_package_event Modified (sp_ident package);
   match original with
   | Some (Ok original) => update_stubs package original
   | _ => op_ret tt
   end) s.
End repository.
Arguments Repository D : clear implicits.
Arguments mkRepository {D} _ _.

(** What the cursors of a solve ask of a repository. *)
Section repo_ops.
Context {D R P Req : Type} `{!StoredPackage P Req, !StoredRecipe R, !Storage D R P} (order : forall A : Type, list A -> list A).
#[export] Instance repository_ops : RepoOps (Repository D) R P RepositoryError := {
  PackageIterators.list_package_versions s name := list_package_versions name (storage s);
  PackageIterators.list_package_builds s pkg := (list_package_builds order pkg s).1;
  PackageIterators.repo_recipe s pkg := read_recipe pkg (storage s);
  PackageIterators.read_package s pkg := (read_package pkg s).1;
  PackageIterators.read_components s pkg := (read_components pkg s).1;
  PackageIterators.is_package_not_found e := match e with PackageNotFound _ => true | _ => false end;
  PackageIterators.is_invalid_package_spec e := match e with InvalidPackageSpec _ => true | _ => false end;
}.
End repo_ops.

(** ** Repositories in memory *)

Abbreviation VersionMap T := (list (Version * T)).
Abbreviation PackageMap T := (list (rstr * VersionMap T)).
Abbreviation BuildMap P := (list (Build * (P * ComponentMap))).
Abbreviation StubMap P := (list (Build * P)).
Record MemRepository {R P : Type} := mkMem { specs : PackageMap R; packages : PackageMap (BuildMap P); embedded_stubs : PackageMap (StubMap P) }.
Arguments MemRepository R P : clear implicits.
Arguments mkMem {R P} _ _ _.

Section mem.
Context {R P Req : Type} `{!StoredPackage P Req, !StoredRecipe R} (order : forall A : Type, list A -> list A).
Abbreviation Mem := (MemRepository R P).

Definition versions_of {T} (name : rstr) (m : PackageMap T) : option (VersionMap T) := hm_get name_eq name m.
Definition lookup_version {T} (pkg : VersionIdent) (m : PackageMap T) : option T :=
  versions ← versions_of (id_base pkg) m; hm_get Version_eq (id_target pkg) versions.
Definition lookup_build {T} (pkg : BuildIdent) (m : PackageMap (list (Build * T))) : option T :=
  builds ← lookup_version (id_base pkg) m; hm_get Build_eq (id_target pkg) builds.
(** [entry(..).or_default()] twice, and [insert]. *)
Definition insert_version {T} (pkg : VersionIdent) (f : option T -> T) (m : PackageMap T) : PackageMap T :=
  let versions := default [] (versions_of (id_base pkg) m) in
  hm_insert name_eq (id_base pkg) (hm_insert Version_eq (id_target pkg) (f (hm_get Version_eq (id_target pkg) versions)) versions) m.
Definition insert_build {T} (pkg : BuildIdent) (v : T) (m : PackageMap (list (Build * T))) : PackageMap (list (Build * T)) :=
  insert_version (id_base pkg) (fun builds => hm_insert Build_eq (id_target pkg) v (default [] builds)) m.
Definition builds_in {T} (pkg : VersionIdent) (m : PackageMap (list (Build * T))) : list BuildIdent :=
  (fun b => VersionIdent_to_build_ident pkg b) <$> (default [] (lookup_version pkg m)).*1.
Definition mem_publish_embed_stub (spec : P) (s : Mem) : res RepositoryError unit * Mem :=
  (Ok tt, mkMem (specs s) (packages s) (insert_build (sp_ident spec) spec (embedded_stubs s))).
Definition mem_publish_package (package : P) (components : ComponentMap) (s : Mem) : res RepositoryError unit * Mem :=
  (Ok tt, mkMem (specs s) (insert_build (sp_ident package) (package, components) (packages s)) (embedded_stubs s)).
Definition mem_publish_recipe (spec : R) (policy : PublishPolicy) (s : Mem) : res RepositoryError unit * Mem :=
  let ident := recipe_ident spec in
  match policy, lookup_version ident (specs s) with
  | DoNotOverwriteVersion, Some _ => (Err (VersionExists ident), s)
  | _, _ => (Ok tt, mkMem (insert_version ident (fun _ => spec) (specs s)) (packages s) (embedded_stubs s))
  end.
Definition or_not_found {A} (pkg : BuildIdent) (r : option A) : res RepositoryError A :=
  match r with Some a => Ok a | None => not_found pkg end.
(** What is left of a map, without the entries that became empty. *)
Definition put_versions {T} (name : rstr) (versions : VersionMap T) (m : PackageMap T) : PackageMap T :=
  match versions with [] => hm_remove name_eq name m | _ => hm_insert name_eq name versions m end.
Definition mem_remove_embed_stub (pkg : BuildIdent) (s : Mem) : res RepositoryError unit * Mem :=
  if negb (Build_is_embedded (id_target pkg))
  then (Err (StorageFailed (lit "Package must identify an embedded package in order to be removed: " ++ BuildIdent_fmt false pkg)), s)
  else
    match versions_of (id_base (id_base pkg)) (embedded_stubs s) with
    | None => (not_found pkg, s)
    | Some versions =>
        match hm_get Version_eq (id_target (id_base pkg)) versions with
        | None => (not_found pkg, s)
        | Some builds =>
            if hm_contains Build_eq (id_target pkg) builds then
              let versions :=
                match hm_remove Build_eq (id_target pkg) builds with
                | [] => hm_remove Version_eq (id_target (id_base pkg)) versions
                | builds => hm_insert Version_eq (id_target (id_base pkg)) builds versions
                end in
              (Ok tt, mkMem (specs s) (packages s) (put_versions (id_base (id_base pkg)) versions (embedded_stubs s)))
            else (not_found pkg, s)
        end
    end.
(** The maps of the versions and of the names stay, also when they are empty. *)
Definition mem_remove_package (pkg : BuildIdent) (s : Mem) : res RepositoryError unit * Mem :=
  match versions_of (id_base (id_base pkg)) (packages s) with
  | None => (not_found pkg, s)
  | Some versions =>
      match hm_get Version_eq (id_target (id_base pkg)) versions with
      | None => (not_found pkg, s)
      | Some builds =>
          if hm_contains Build_eq (id_target pkg) builds then
            let versions := hm_insert Version_eq (id_target (id_base pkg)) (hm_remove Build_eq (id_target pkg) builds) versions in
            (Ok tt, mkMem (specs s) (hm_insert name_eq (id_base (id_base pkg)) versions (packages s)) (embedded_stubs s))
          else (not_found pkg, s)
      end
  end.
Definition mem_remove_recipe (pkg : VersionIdent) (s : Mem) : res RepositoryError unit * Mem :=
  match versions_of (id_base pkg) (specs s) with
  | None => (recipe_not_found pkg, s)
  | Some versions =>
      if hm_contains Version_eq (id_target pkg) versions
      then (Ok tt, mkMem (put_versions (id_base pkg) (hm_remove Version_eq (id_target pkg) versions) (specs s)) (packages s) (embedded_stubs s))
      else (recipe_not_found pkg, s)
  end.
Definition mem_list_packages (s : Mem) : list rstr :=
  order _ (hs_extend name_eq (hs_extend name_eq (hs_extend name_eq [] (specs s).*1) (packages s).*1) (embedded_stubs s).*1).
Definition version_keys {T} (name : rstr) (m : PackageMap T) : list Version := (default [] (versions_of name m)).*1.
Definition mem_list_package_versions (name : rstr) (s : Mem) : list Version :=
  order _ (hs_extend Version_eq (hs_extend Version_eq (hs_extend Version_eq [] (version_keys name (specs s))) (version_keys name (packages s))) (version_keys name (embedded_stubs s))).
#[export] Instance mem_storage : Storage Mem R P := {
  get_concrete_package_builds pkg s := Ok (order _ (builds_in pkg (packages s)));
  get_embedded_package_builds pkg s := Ok (order _ (builds_in pkg (embedded_stubs s)));
  publish_embed_stub_to_storage := mem_publish_embed_stub;
  publish_package_to_storage := mem_publish_package;
  publish_recipe_to_storage := mem_publish_recipe;
  read_components_from_storage pkg s := or_not_found pkg (snd <$> lookup_build pkg (packages s));
  read_package_from_storage pkg s := or_not_found pkg (fst <$> lookup_build pkg (packages s));
  remove_embed_stub_from_storage := mem_remove_embed_stub;
  remove_package_from_storage := mem_remove_package;
  list_packages s := Ok (mem_list_packages s);
  list_package_versions name s := Ok (mem_list_package_versions name s);
  list_build_components pkg s := Ok (order _ (default [] (snd <$> lookup_build pkg (packages s))).*1);
  read_embed_stub pkg s := or_not_found pkg (lookup_build pkg (embedded_stubs s));
  read_recipe pkg s := match lookup_version pkg (specs s) with Some recipe => Ok recipe | None => recipe_not_found pkg end;
  remove_recipe := mem_remove_recipe;
}.
End mem.

(** ** Packages of specs *)

(** The packages that are published: [PackageSpec]. The equality is the derived
    one; [filters] are those of the host options. *)
Section package_specs.
Context (permutations2 : forall A : Type, list A -> list (A * A)) (from_str : rstr -> res rstr VersionRange).
Context (spec_eq : PackageSpec ComponentSpec -> PackageSpec ComponentSpec -> bool) (filters : option (list (rstr * rstr))).
Definition insert_or_merge_spec (request : RequestWithOptions) (spec : PackageSpec ComponentSpec) : res RepositoryError (PackageSpec ComponentSpec) :=
  match insert_or_merge_install_requirement permutations2 (PinnedRequest_from_with_options request) spec with
  | Ok (None, spec) => Ok spec
  | Ok (Some e, _) => Err (RequirementFailed e)
  | _ => Panicked
  end.
Definition never_fails {A} (r : res Empty_set A) : res RepositoryError A := match r with Ok a => Ok a | _ => Panicked end.
#[export] Instance spec_package : StoredPackage (PackageSpec ComponentSpec) RequestWithOptions := {
  sp_ident := ps_pkg;
  sp_is_deprecated := ps_deprecated;
  sp_eq := spec_eq;
  sp_components spec := cs_name <$> is_components (ps_install spec);
  sp_embedded_as_packages spec := Ok (embedded_as_packages spec);
  sp_downstream_runtime_requirements spec _ := never_fails (downstream_runtime_requirements permutations2 spec);
  sp_insert_or_merge := insert_or_merge_spec;
  sp_set_build := set_build;
  sp_set_deprecated deprecated spec := Ok (set_deprecated deprecated spec);
  sp_matches_all_filters spec := never_fails (matches_all_filters from_str spec filters);
}.
End package_specs.
