(* ===== verification/RepositoryTheory.v ===== *)
(** * What package repositories keep

    The laws of a storage of packages ([Repositories]), which the storage in memory
    satisfies, and what publishing, updating and removing packages do to the
    packages and to the stubs of what they embed. *)

From S2P Require Import Prelude Encoding Entry Strings Collections Names Version VersionOrder VersionText.
From S2P Require Import Compat RangeData Reasons CompatCheck VersionRange Components Options Idents.
From S2P Require Import Requests RequestEq Opts Requirements ComponentSpecs Satisfy Embedded PackageSpec MergeTheory.
From S2P Require Import Solution PackageIterators IteratorTheory Repositories.

(** ** Equalities *)

Definition lawful {K} (eqb : K -> K -> bool) : Prop := (forall x, eqb x x = true) /\ forall x y z, eqb x y = true -> eqb x z = eqb y z.
Lemma lawful_sym {K} (eqb : K -> K -> bool) x y : lawful eqb -> eqb x y = eqb y x.
Proof.
  intros [Hr Ht]. destruct (eqb x y) eqn:E; [|destruct (eqb y x) eqn:E'; [|done]].
  - rewrite <-(Ht x y x E). by rewrite Hr.
  - pose proof (Ht y x y E') as H. rewrite Hr in H. congruence.
Qed.
Lemma lawful_cong {K} (eqb : K -> K -> bool) x y z : lawful eqb -> eqb x y = true -> eqb z x = eqb z y.
Proof. intros Hl E. rewrite (lawful_sym eqb z x), (lawful_sym eqb z y) by done. by apply Hl. Qed.
Lemma lawful_of {K} (eqb : K -> K -> bool) : (forall x, eqb x x = true) -> (forall x y, eqb x y = true -> eqb y x = true) ->
  (forall x y z, eqb x y = true -> eqb y z = true -> eqb x z = true) -> lawful eqb.
Proof.
  intros Hr Hs Ht. split; [done|]. intros x y z E. destruct (eqb y z) eqn:E1; [by eapply Ht|]. destruct (eqb x z) eqn:E2; [|done].
  rewrite <-E1. symmetry. apply (Ht _ x); auto.
Qed.
Lemma name_lawful : lawful name_eq.
Proof. split; unfold name_eq; [intros x; by apply bool_decide_eq_true|]. by intros x y z ->%bool_decide_eq_true. Qed.
Lemma Version_lawful : lawful Version_eq.
Proof. split; [exact Version_eq_refl|exact Version_eq_trans]. Qed.
Lemma Build_lawful : lawful Build_eq.
Proof. apply lawful_of; [exact Build_eq_refl|exact Build_eq_sym|exact Build_eq_trans]. Qed.
Lemma pair_lawful {A B C} (f : C -> A) (g : C -> B) ea eb : lawful ea -> lawful eb -> lawful (fun x y => ea (f x) (f y) && eb (g x) (g y)).
Proof.
  intros [Ha Ha'] [Hb Hb']. split; [intros x; by rewrite Ha, Hb|]. intros x y z [H1 H2]%andb_true_iff. by rewrite (Ha' _ _ _ H1), (Hb' _ _ _ H2).
Qed.
Lemma VersionIdent_lawful : lawful VersionIdent_eq.
Proof. exact (pair_lawful id_base id_target _ _ name_lawful Version_lawful). Qed.
Lemma BuildIdent_lawful : lawful BuildIdent_eq.
Proof. exact (pair_lawful id_base id_target _ _ VersionIdent_lawful Build_lawful). Qed.

Section maps.
Context {K V : Type} (eqb : K -> K -> bool) (Hl : lawful eqb).
Lemma get_insert k k' (v : V) m : hm_get eqb k (hm_insert eqb k' v m) = if eqb k' k then Some v else hm_get eqb k m.
Proof. apply assoc_get_insert; apply Hl. Qed.
Lemma get_cong k k' (m : list (K * V)) : eqb k k' = true -> hm_get eqb k m = hm_get eqb k' m.
Proof. intros E. induction m as [|[x v] m IH]; [done|]. cbn [hm_get]. by rewrite IH, (lawful_cong eqb k k' x). Qed.
Lemma get_remove k k' (m : list (K * V)) : hm_get eqb k (hm_remove eqb k' m) = if eqb k' k then None else hm_get eqb k m.
Proof.
  induction m as [|[x v] m IH]; [by destruct (eqb k' k)|]. cbn [hm_remove List.filter fst]. fold (hm_remove eqb k' m). destruct (eqb x k') eqn:E; cbn [negb hm_get].
  - rewrite IH. rewrite (proj2 Hl _ _ k E). by destruct (eqb k' k).
  - rewrite IH. destruct (eqb x k) eqn:E'; [|done]. destruct (eqb k' k) eqn:E''; [|done].
    rewrite <-(lawful_cong eqb x k k' Hl E'), (lawful_sym eqb k' x Hl) in E''. congruence.
Qed.
Lemma contains_get k (m : list (K * V)) : hm_contains eqb k m = match hm_get eqb k m with Some _ => true | None => false end.
Proof. done. Qed.
Lemma get_some_iff k (m : list (K * V)) : hm_get eqb k m <> None <-> exists k', k' ∈ m.*1 /\ eqb k' k = true.
Proof.
  induction m as [|[x v] m IH]; [split; [done|by intros (k' & []%elem_of_nil & _)]|]. cbn [hm_get fmap list_fmap fst]. destruct (eqb x k) eqn:E.
  - split; [|done]. intros _. exists x. split; [by left|done].
  - rewrite IH. split; [intros (k' & He & H); exists k'; split; [by right|done]|]. intros (k' & [->|He]%elem_of_cons & H); [congruence|by exists k'].
Qed.
Lemma get_in k (v : V) m : hm_get eqb k m = Some v -> exists k', eqb k' k = true /\ (k', v) ∈ m.
Proof.
  induction m as [|[x w] m IH]; [done|]. cbn [hm_get]. destruct (eqb x k) eqn:E; [intros [= ->]; exists x; split; [done|by left]|].
  intros (k' & ? & ?)%IH. exists k'. split; [done|by right].
Qed.
Lemma extend_keys k (m entries : list (K * V)) :
  (exists k', k' ∈ (hm_extend eqb m entries).*1 /\ eqb k' k = true) <-> (exists k', k' ∈ m.*1 /\ eqb k' k = true) \/ exists k', k' ∈ entries.*1 /\ eqb k' k = true.
Proof.
  unfold hm_extend. revert m. induction entries as [|[x v] entries IH]; intros m; cbn [foldl].
  - split; [by left|]. intros [?|(k' & []%elem_of_nil & _)]. done.
  - rewrite IH, <-!get_some_iff, get_insert. destruct (eqb x k) eqn:E.
    + split; [|by left]. intros _. right. rewrite get_some_iff. exists x. split; [by left|done].
    + cbn [hm_get fmap list_fmap fst]. by rewrite E.
Qed.
End maps.
Lemma hs_extend_keys {K} (eqb : K -> K -> bool) (s items : list K) k : lawful eqb ->
  (exists k', k' ∈ hs_extend eqb s items /\ eqb k' k = true) <-> (exists k', k' ∈ s /\ eqb k' k = true) \/ exists k', k' ∈ items /\ eqb k' k = true.
Proof.
  intros Hl. unfold hs_extend. rewrite (extend_keys eqb Hl). by rewrite <-!list_fmap_compose, !list_fmap_id.
Qed.

(** ** The laws of storages *)

(** A storage whose calls only fail as documented: it is three maps.  The storage
    in memory has these laws ([mem_laws]).  A storage that can fail otherwise has
    not: one of spfs, for instance, does not publish a package without a run
    component. *)
Class StorageLaws (D R P Req : Type) `{!StoredPackage P Req, !StoredRecipe R, !Storage D R P} := {
  package_at : D -> BuildIdent -> option (P * ComponentMap);
  stub_at : D -> BuildIdent -> option P;
  recipe_at : D -> VersionIdent -> option R;
  law_concrete_builds d v : exists l, get_concrete_package_builds v d = Ok l /\
    forall i, (exists b, b ∈ l /\ BuildIdent_eq b i = true) <-> VersionIdent_eq v (id_base i) = true /\ package_at d i <> None;
  law_embedded_builds d v : exists l, get_embedded_package_builds v d = Ok l /\
    forall i, (exists b, b ∈ l /\ BuildIdent_eq b i = true) <-> VersionIdent_eq v (id_base i) = true /\ stub_at d i <> None;
  package_at_eq d i j : BuildIdent_eq i j = true -> package_at d i = package_at d j;
  stub_at_eq d i j : BuildIdent_eq i j = true -> stub_at d i = stub_at d j;
  law_read_package d i : read_package_from_storage i d = or_not_found i (fst <$> package_at d i);
  law_read_components d i : read_components_from_storage i d = or_not_found i (snd <$> package_at d i);
  law_read_stub d i : read_embed_stub i d = or_not_found i (stub_at d i);
  law_read_recipe d v : read_recipe v d = match recipe_at d v with Some r => Ok r | None => recipe_not_found v end;
  law_publish_package d p c : exists d', publish_package_to_storage p c d = (Ok tt, d') /\
    (forall i, package_at d' i = if BuildIdent_eq (sp_ident p) i then Some (p, c) else package_at d i) /\
    (forall i, stub_at d' i = stub_at d i) /\ forall v, recipe_at d' v = recipe_at d v;
  law_publish_stub d p : exists d', publish_embed_stub_to_storage p d = (Ok tt, d') /\
    (forall i, package_at d' i = package_at d i) /\
    (forall i, stub_at d' i = if BuildIdent_eq (sp_ident p) i then Some p else stub_at d i) /\ forall v, recipe_at d' v = recipe_at d v;
  law_publish_recipe d r policy :
    match policy, recipe_at d (recipe_ident r) with
    | DoNotOverwriteVersion, Some _ => publish_recipe_to_storage r policy d = (Err (VersionExists (recipe_ident r)), d)
    | _, _ => exists d', publish_recipe_to_storage r policy d = (Ok tt, d') /\
        (forall i, package_at d' i = package_at d i) /\ (forall i, stub_at d' i = stub_at d i) /\
        forall v, recipe_at d' v = if VersionIdent_eq (recipe_ident r) v then Some r else recipe_at d v
    end;
  law_remove_package d i :
    match package_at d i with
    | None => remove_package_from_storage i d = (not_found i, d)
    | Some _ => exists d', remove_package_from_storage i d = (Ok tt, d') /\
        (forall j, package_at d' j = if BuildIdent_eq i j then None else package_at d j) /\
        (forall j, stub_at d' j = stub_at d j) /\ forall v, recipe_at d' v = recipe_at d v
    end;
  law_remove_stub d i : Build_is_embedded (id_target i) = true ->
    match stub_at d i with
    | None => remove_embed_stub_from_storage i d = (not_found i, d)
    | Some _ => exists d', remove_embed_stub_from_storage i d = (Ok tt, d') /\
        (forall j, package_at d' j = package_at d j) /\
        (forall j, stub_at d' j = if BuildIdent_eq i j then None else stub_at d j) /\ forall v, recipe_at d' v = recipe_at d v
    end;
  law_remove_recipe d v :
    match recipe_at d v with
    | None => remove_recipe v d = (recipe_not_found v, d)
    | Some _ => exists d', remove_recipe v d = (Ok tt, d') /\
        (forall i, package_at d' i = package_at d i) /\ (forall i, stub_at d' i = stub_at d i) /\
        forall w, recipe_at d' w = if VersionIdent_eq v w then None else recipe_at d w
    end;
}.
(** Changing what is not compared keeps the rest of a package. *)
Class StoredPackageLaws (P Req : Type) `{!StoredPackage P Req} : Prop := {
  sp_eq_lawful : lawful sp_eq;
  sp_eq_ident p p' : sp_eq p p' = true -> BuildIdent_eq (sp_ident p) (sp_ident p') = true;
  sp_merge_ident r p p' : sp_insert_or_merge r p = Ok p' -> sp_ident p' = sp_ident p;
  sp_build_ident b p : sp_ident (sp_set_build b p) = with_target (sp_ident p) b;
  sp_deprecated_ident d p p' : sp_set_deprecated d p = Ok p' -> sp_ident p' = sp_ident p /\ sp_is_deprecated p' = d;
}.

(** *** The storage in memory *)

Section mem.
Context {R P Req : Type} `{!StoredPackage P Req, !StoredRecipe R} (order : forall A : Type, list A -> list A).
Abbreviation Mem := (MemRepository R P).
Existing Instance mem_storage.
Implicit Types (i j : BuildIdent) (v w : VersionIdent).

Lemma lookup_version_eq {T} v w (m : PackageMap T) : VersionIdent_eq v w = true -> lookup_version v m = lookup_version w m.
Proof.
  intros [H1 H2]%andb_true_iff. unfold lookup_version, versions_of. rewrite (get_cong _ name_lawful _ _ _ H1).
  destruct (hm_get name_eq _ m); [|done]. cbn. by apply get_cong; [apply Version_lawful|].
Qed.
Lemma lookup_build_eq {T} i j (m : PackageMap (list (Build * T))) : BuildIdent_eq i j = true -> lookup_build i m = lookup_build j m.
Proof.
  intros [H1 H2]%andb_true_iff. unfold lookup_build. rewrite (lookup_version_eq _ _ _ H1).
  destruct (lookup_version _ m); [|done]. cbn. by apply get_cong; [apply Build_lawful|].
Qed.
(** Replacing the versions of a name, with what is in them. *)
Lemma lookup_put_version {T} v w (t : option T) versions (m m' : PackageMap T) :
  versions_of (id_base v) m = Some versions \/ versions_of (id_base v) m = None /\ versions = [] ->
  (forall name, versions_of name m' = if name_eq (id_base v) name then
     match t with Some t => Some (hm_insert Version_eq (id_target v) t versions) | None => match hm_remove Version_eq (id_target v) versions with [] => None | l => Some l end end
   else versions_of name m) ->
  lookup_version w m' = if VersionIdent_eq v w then t else lookup_version w m.
Proof.
  intros Hv Hm'. unfold lookup_version. rewrite Hm'. unfold VersionIdent_eq. fold (name_eq (id_base v) (id_base w)). destruct (name_eq (id_base v) (id_base w)) eqn:En; [|done]. cbn [andb].
  assert (versions_of (id_base w) m = versions_of (id_base v) m) as Hw by (unfold versions_of; symmetry; by apply get_cong; [apply name_lawful|]).
  rewrite Hw. assert (forall l, hm_get Version_eq (id_target w) l = ((l' ← (match l with [] => None | _ => Some l end : option (VersionMap T)); hm_get Version_eq (id_target w) l') : option T)) as Hnil by (by intros []).
  assert ((versions0 ← versions_of (id_base v) m; hm_get Version_eq (id_target w) versions0) = hm_get Version_eq (id_target w) versions) as Hold by (by destruct Hv as [-> |[-> ->]]).
  rewrite Hold. destruct t as [t|]; cbn.
  - apply get_insert, Version_lawful.
  - rewrite <-(get_remove _ Version_lawful). rewrite Hnil. by destruct (hm_remove _ _ versions).
Qed.
Lemma lookup_insert_version {T} v w f (m : PackageMap T) :
  lookup_version w (insert_version v f m) = if VersionIdent_eq v w then Some (f (lookup_version v m)) else lookup_version w m.
Proof.
  apply (lookup_put_version v w _ (default [] (versions_of (id_base v) m))).
  - destruct (versions_of (id_base v) m); [by left|by right].
  - intros name. unfold insert_version, versions_of. rewrite get_insert by apply name_lawful. destruct (name_eq (id_base v) name); [|done].
    f_equal. f_equal. unfold lookup_version, versions_of. by destruct (hm_get name_eq (id_base v) m).
Qed.
Lemma lookup_insert_build {T} i j (x : T) (m : PackageMap (list (Build * T))) :
  lookup_build j (insert_build i x m) = if BuildIdent_eq i j then Some x else lookup_build j m.
Proof.
  unfold lookup_build, insert_build. rewrite lookup_insert_version. unfold BuildIdent_eq. destruct (VersionIdent_eq (id_base i) (id_base j)) eqn:E; [|done].
  cbn. rewrite get_insert by apply Build_lawful. rewrite (lookup_version_eq _ _ m E). by destruct (Build_eq (id_target i) (id_target j)), (lookup_version (id_base j) m).
Qed.
Lemma remove_build {T} i j builds t (m m' : PackageMap (list (Build * T))) : lookup_version (id_base i) m = Some builds ->
  default [] t = hm_remove Build_eq (id_target i) builds ->
  (forall w, lookup_version w m' = if VersionIdent_eq (id_base i) w then t else lookup_version w m) ->
  lookup_build j m' = if BuildIdent_eq i j then None else lookup_build j m.
Proof.
  intros Hb Ht Hm'. unfold lookup_build. rewrite Hm'. unfold BuildIdent_eq. destruct (VersionIdent_eq (id_base i) (id_base j)) eqn:E; [|done].
  rewrite <-(lookup_version_eq _ _ m E), Hb. cbn [andb mbind option_bind]. rewrite <-(get_remove _ Build_lawful), <-Ht. by destruct t.
Qed.
Lemma version_parts {T} v (m : PackageMap T) :
  lookup_version v m = match versions_of (id_base v) m with Some versions => hm_get Version_eq (id_target v) versions | None => None end.
Proof. unfold lookup_version. by destruct (versions_of _ m). Qed.
Lemma build_parts {T} i (m : PackageMap (list (Build * T))) :
  lookup_build i m = match versions_of (id_base (id_base i)) m with
                     | Some versions => match hm_get Version_eq (id_target (id_base i)) versions with Some builds => hm_get Build_eq (id_target i) builds | None => None end
                     | None => None
                     end.
Proof. unfold lookup_build. rewrite version_parts. destruct (versions_of _ m) as [versions|]; [|done]. by destruct (hm_get _ _ versions). Qed.
Lemma put_versions_get {T} name name' (versions : VersionMap T) m :
  versions_of name' (put_versions name versions m) = if name_eq name name' then match versions with [] => None | l => Some l end else versions_of name' m.
Proof.
  unfold put_versions, versions_of. destruct versions; [rewrite get_remove by apply name_lawful|rewrite get_insert by apply name_lawful]; by destruct (name_eq name name').
Qed.
Lemma insert_not_nil {K V} (eqb : K -> K -> bool) k (v : V) m : hm_insert eqb k v m <> [].
Proof. destruct m as [|[k' v'] m]; cbn; [done|by destruct (eqb k' k)]. Qed.
Lemma mem_remove_stub_spec i (s : Mem) : Build_is_embedded (id_target i) = true ->
  match lookup_build i (embedded_stubs s) with
  | None => mem_remove_embed_stub i s = (not_found i, s)
  | Some _ => exists stubs, mem_remove_embed_stub i s = (Ok tt, mkMem (specs s) (packages s) stubs) /\
      forall j, lookup_build j stubs = if BuildIdent_eq i j then None else lookup_build j (embedded_stubs s)
  end.
Proof.
  intros He. unfold mem_remove_embed_stub. rewrite He. cbn [negb]. rewrite build_parts.
  destruct (versions_of (id_base (id_base i)) (embedded_stubs s)) as [versions|] eqn:Ev; [|done].
  destruct (hm_get Version_eq (id_target (id_base i)) versions) as [builds|] eqn:Eb; [|done].
  unfold hm_contains. destruct (hm_get Build_eq (id_target i) builds); [|done]. eexists. split; [reflexivity|]. intros j.
  apply (remove_build i j builds (match hm_remove Build_eq (id_target i) builds with [] => None | l => Some l end)); [by rewrite version_parts, Ev|by destruct (hm_remove _ _ builds)|].
  intros w. apply (lookup_put_version (id_base i) w _ versions); [by left|]. intros name. rewrite put_versions_get. destruct (name_eq _ name); [|done].
  destruct (hm_remove Build_eq (id_target i) builds) as [|b l]; [by destruct (hm_remove _ _ versions)|]. pose proof (insert_not_nil Version_eq (id_target (id_base i)) (b :: l) versions).
  by destruct (hm_insert _ _ _ _).
Qed.
Lemma mem_remove_package_spec i (s : Mem) :
  match lookup_build i (packages s) with
  | None => mem_remove_package i s = (not_found i, s)
  | Some _ => exists pkgs, mem_remove_package i s = (Ok tt, mkMem (specs s) pkgs (embedded_stubs s)) /\
      forall j, lookup_build j pkgs = if BuildIdent_eq i j then None else lookup_build j (packages s)
  end.
Proof.
  unfold mem_remove_package. rewrite build_parts.
  destruct (versions_of (id_base (id_base i)) (packages s)) as [versions|] eqn:Ev; [|done].
  destruct (hm_get Version_eq (id_target (id_base i)) versions) as [builds|] eqn:Eb; [|done].
  unfold hm_contains. destruct (hm_get Build_eq (id_target i) builds); [|done]. eexists. split; [reflexivity|]. intros j.
  apply (remove_build i j builds (Some (hm_remove Build_eq (id_target i) builds))); [by rewrite version_parts, Ev|done|].
  intros w. apply (lookup_put_version (id_base i) w _ versions); [by left|]. intros name. unfold versions_of. by rewrite get_insert by apply name_lawful.
Qed.
Lemma mem_remove_recipe_spec v (s : Mem) :
  match lookup_version v (specs s) with
  | None => mem_remove_recipe v s = (recipe_not_found v, s)
  | Some _ => exists rs, mem_remove_recipe v s = (Ok tt, mkMem rs (packages s) (embedded_stubs s)) /\
      forall w, lookup_version w rs = if VersionIdent_eq v w then None else lookup_version w (specs s)
  end.
Proof.
  unfold mem_remove_recipe. rewrite version_parts. destruct (versions_of (id_base v) (specs s)) as [versions|] eqn:Ev; [|done].
  unfold hm_contains. destruct (hm_get Version_eq (id_target v) versions); [|done]. eexists. split; [reflexivity|]. intros w.
  apply (lookup_put_version v w None versions); [by left|]. intros name. rewrite put_versions_get. destruct (name_eq _ name); [|done]. by destruct (hm_remove _ _ versions).
Qed.
Lemma builds_in_iff {T} v i (m : PackageMap (list (Build * T))) : (forall A (l : list A), order A l ≡ₚ l) ->
  (exists b, b ∈ order _ (builds_in v m) /\ BuildIdent_eq b i = true) <-> VersionIdent_eq v (id_base i) = true /\ lookup_build i m <> None.
Proof.
  intros Ho. setoid_rewrite Ho. unfold builds_in, BuildIdent_eq. setoid_rewrite list_elem_of_fmap. split.
  - intros (b & (x & -> & Hx) & [Hv Hb]%andb_true_iff). cbn in Hv, Hb. split; [done|]. unfold lookup_build. rewrite <-(lookup_version_eq _ _ m Hv).
    destruct (lookup_version v m) as [builds|]; [|by apply elem_of_nil in Hx]. cbn in *. apply get_some_iff. by exists x.
  - intros [Hv Hb]. unfold lookup_build in Hb. rewrite <-(lookup_version_eq _ _ m Hv) in Hb. destruct (lookup_version v m) as [builds|]; [|done].
    cbn in Hb. apply get_some_iff in Hb as (x & Hx & E). exists (VersionIdent_to_build_ident v x). split; [by exists x|]. cbn. by rewrite Hv, E.
Qed.
Context (order_perm : forall A (l : list A), order A l ≡ₚ l).
#[export] Program Instance mem_laws : StorageLaws Mem R P Req (Storage0 := mem_storage order) := {|
  package_at s i := lookup_build i (packages s);
  stub_at s i := lookup_build i (embedded_stubs s);
  recipe_at s v := lookup_version v (specs s);
|}.
Next Obligation. intros s v. eexists. split; [reflexivity|]. intros i. by apply builds_in_iff. Qed.
Next Obligation. intros s v. eexists. split; [reflexivity|]. intros i. by apply builds_in_iff. Qed.
Next Obligation. intros s i j E. by apply lookup_build_eq. Qed.
Next Obligation. intros s i j E. by apply lookup_build_eq. Qed.
Next Obligation. done. Qed.
Next Obligation. done. Qed.
Next Obligation. done. Qed.
Next Obligation. done. Qed.
Next Obligation. intros s p c. eexists. split; [reflexivity|]. split_and!; [|done..]. intros i. apply lookup_insert_build. Qed.
Next Obligation. intros s p. eexists. split; [reflexivity|]. split_and!; [done| |done]. intros i. apply lookup_insert_build. Qed.
Next Obligation.
  intros s r policy. cbn. unfold mem_publish_recipe. destruct policy; [|destruct (lookup_version (recipe_ident r) (specs s)) eqn:E; [done|]];
    (eexists; split; [reflexivity|]; split_and!; [done..|]; intros v; apply lookup_insert_version).
Qed.
Next Obligation.
  intros s i. pose proof (mem_remove_package_spec i s) as H. destruct (lookup_build i (packages s)); [|done]. destruct H as (m & H & Hm). eexists. by split; [exact H|].
Qed.
Next Obligation.
  intros s i He. pose proof (mem_remove_stub_spec i s He) as H. destruct (lookup_build i (embedded_stubs s)); [|done]. destruct H as (m & H & Hm). eexists. by split; [exact H|].
Qed.
Next Obligation.
  intros s v. pose proof (mem_remove_recipe_spec v s) as H. destruct (lookup_version v (specs s)); [|done]. destruct H as (m & H & Hm). eexists. by split; [exact H|].
Qed.
End mem.

(** ** What the operations do *)

Section theory.
Context {D R P Req : Type} `{!StoredPackage P Req, !StoredRecipe R, !Storage D R P, !StorageLaws D R P Req, !StoredPackageLaws P Req}.
Context (order : forall A : Type, list A -> list A) (sends : PackageEvent -> BuildIdent -> res RepositoryError unit).
Context (order_perm : forall A (l : list A), order A l ≡ₚ l) (Hsends : forall event ident, sends event ident = Ok tt).
Abbreviation Repo := (Repository D).
Abbreviation stub := (P * list Component)%type.
Implicit Types (s : Repo) (p parent : P) (i j : BuildIdent) (prs : list stub) (e : stub).

Lemma bind_ok {A B} (m : Op A) (f : A -> Op B) s a s' : m s = (Ok a, s') -> op_bind m f s = f a s'.
Proof. unfold op_bind. by intros ->. Qed.
Lemma bind_err {A B} (m : Op A) (f : A -> Op B) s err s' : m s = (Err err, s') -> op_bind m f s = (Err err, s').
Proof. unfold op_bind. by intros ->. Qed.
Lemma each_spec {A} (f : A -> Op unit) (I : list A -> Repo -> Prop) l s : I [] s ->
  (forall done a rest s', l = done ++ a :: rest -> I done s' -> exists s'', f a s' = (Ok tt, s'') /\ I (done ++ [a]) s'') ->
  exists s', each f l s = (Ok tt, s') /\ I l s'.
Proof.
  intros H0 Hstep. assert (forall rest done s', l = done ++ rest -> I done s' -> exists s'', each f rest s' = (Ok tt, s'') /\ I l s'') as Hgo; [|by apply (Hgo l [] s)].
  clear H0 s. induction rest as [|a rest IH]; intros done s' -> Hd; [exists s'; by rewrite app_nil_r in *|].
  destruct (Hstep done a rest s' eq_refl Hd) as (s1 & Hf & H1). destruct (IH (done ++ [a]) s1) as (s2 & He & H2); [by rewrite <-app_assoc|done|].
  exists s2. split; [|done]. cbn [each]. by rewrite (bind_ok _ _ _ _ _ Hf).
Qed.

(** The abstract contents of a repository. *)
Abbreviation pkg s i := (package_at (storage s) i).
Abbreviation stb s i := (stub_at (storage s) i).
Abbreviation rcp s v := (recipe_at (storage s) v).
(** The same packages and recipes, and more events. *)
Definition only_stubs (new : list (PackageEvent * BuildIdent)) s s' : Prop :=
  (forall i, pkg s' i = pkg s i) /\ (forall v, rcp s' v = rcp s v) /\ events s' = events s ++ new.
Lemma only_stubs_refl s : only_stubs [] s s.
Proof. split_and!; [done..|by rewrite app_nil_r]. Qed.
Lemma only_stubs_trans a b s s' s'' : only_stubs a s s' -> only_stubs b s' s'' -> only_stubs (a ++ b) s s''.
Proof.
  intros (Hp & Hr & He) (Hp' & Hr' & He'). split_and!; [intros i; by rewrite Hp', Hp|intros v; by rewrite Hr', Hr|by rewrite He', He, app_assoc].
Qed.
Lemma announce_ok event i s : announce_package_event sends event i s = (Ok tt, mkRepository (storage s) (events s ++ [(event, i)])).
Proof. unfold announce_package_event. by rewrite Hsends. Qed.
Lemma writes_ok f s d : f (storage s) = (Ok tt, d) -> writes f s = (Ok tt, mkRepository d (events s)).
Proof. unfold writes. by intros ->. Qed.
Lemma writes_err f s err d : f (storage s) = (Err err, d) -> writes f s = (Err err, mkRepository d (events s)).
Proof. unfold writes. by intros ->. Qed.

(** *** Stubs *)

Lemma with_requirements_ident reqs p p' : with_requirements reqs p = Ok p' -> sp_ident p' = sp_ident p.
Proof.
  revert p. induction reqs as [|r reqs IH]; intros p; cbn [with_requirements]; [by intros [= ->]|]. destruct (sp_insert_or_merge r p) as [p1| |] eqn:E; [|done..].
  cbn. intros H%IH. rewrite H. by eapply sp_merge_ident.
Qed.
Lemma embed_stub_ident parent e x : embed_stub parent e.1 e.2 = Ok x -> sp_ident x = stub_ident parent e.1 e.2 /\ sp_is_deprecated x = sp_is_deprecated parent.
Proof.
  unfold embed_stub. destruct (sp_downstream_runtime_requirements parent e.2) as [reqs| |]; [|done..]. cbn.
  destruct (with_requirements reqs e.1) as [p| |] eqn:E; [|done..]. cbn. intros (Hi & Hd)%sp_deprecated_ident.
  split; [|done]. rewrite Hi, sp_build_ident. by rewrite (with_requirements_ident _ _ _ E).
Qed.
Abbreviation ident_of parent e := (stub_ident parent e.1 e.2).
Lemma ident_of_embedded parent e : Build_is_embedded (id_target (ident_of parent e)) = true /\ Build_is_embed_stub (id_target (ident_of parent e)) = true.
Proof. done. Qed.
(** What is at an identifier once stubs were created: the stub of one of the
    embedded packages that have it, or what was there. *)
Definition stubbed parent prs i (old new : option P) : Prop :=
  (exists e x, e ∈ prs /\ BuildIdent_eq (ident_of parent e) i = true /\ embed_stub parent e.1 e.2 = Ok x /\ new = Some x) \/
  ((forall e, e ∈ prs -> BuildIdent_eq (ident_of parent e) i = false) /\ new = old).
Definition modified parent prs : list (PackageEvent * BuildIdent) := (fun e => (Modified, ident_of parent e)) <$> prs.
Definition stubs_defined parent prs : Prop := forall e, e ∈ prs -> exists x, embed_stub parent e.1 e.2 = Ok x.
Lemma stubbed_perm parent prs prs' i old new : prs ≡ₚ prs' -> stubbed parent prs i old new -> stubbed parent prs' i old new.
Proof.
  intros Hp [(e & x & He & H)|[Hn H]]; [left; exists e, x; by rewrite <-Hp|right]. split; [|done]. intros e He. apply Hn. by rewrite Hp.
Qed.
Lemma create_ok parent e x s : embed_stub parent e.1 e.2 = Ok x ->
  exists s', create_embedded_stub_for_spec sends parent e.1 e.2 s = (Ok tt, s') /\ only_stubs [(Modified, ident_of parent e)] s s' /\
    forall i, stb s' i = if BuildIdent_eq (ident_of parent e) i then Some x else stb s i.
Proof.
  intros Hx. destruct (embed_stub_ident _ _ _ Hx) as [Hi _]. destruct (law_publish_stub (storage s) x) as (d & Hw & Hp & Hs & Hr).
  exists (mkRepository d (events s ++ [(Modified, ident_of parent e)])). split; [|split; [split_and!; [exact Hp|exact Hr|reflexivity]|intros i; rewrite <-Hi; apply Hs]].
  unfold create_embedded_stub_for_spec. rewrite Hx. erewrite bind_ok by reflexivity. erewrite bind_ok by (by apply writes_ok).
  rewrite announce_ok. by rewrite Hi.
Qed.
Lemma create_all parent prs s : stubs_defined parent prs ->
  exists s', each (fun '(embed, components) => create_embedded_stub_for_spec sends parent embed components) prs s = (Ok tt, s') /\
    only_stubs (modified parent prs) s s' /\ forall i, stubbed parent prs i (stb s i) (stb s' i).
Proof.
  intros Hd. apply (each_spec _ (fun done s' => only_stubs (modified parent done) s s' /\ forall i, stubbed parent done i (stb s i) (stb s' i))).
  - split; [apply only_stubs_refl|]. intros i. right. by split; [intros e ?%elem_of_nil|].
  - intros done e rest s' -> [Ho Hs]. destruct (Hd e) as (x & Hx); [apply elem_of_app; right; by left|].
    destruct (create_ok parent e x s' Hx) as (s'' & Hc & Ho' & Hs'). exists s''. split; [by destruct e|]. split.
    + unfold modified in *. rewrite fmap_app. by eapply only_stubs_trans.
    + intros i. rewrite Hs'. destruct (BuildIdent_eq (ident_of parent e) i) eqn:E; [left; exists e, x; split_and!; [apply elem_of_app; right; by left|done..]|].
      destruct (Hs i) as [(e' & x' & He' & H)|[Hn H]]; [left; exists e', x'; split; [apply elem_of_app; by left|done]|right].
      split; [|done]. intros e' [?| ->%list_elem_of_singleton]%elem_of_app; auto.
Qed.
Lemma create_stubs_ok parent prs s : stubs_defined parent prs ->
  exists s', create_stubs order sends parent prs s = (Ok tt, s') /\ only_stubs (modified parent (order _ prs)) s s' /\
    forall i, stubbed parent prs i (stb s i) (stb s' i).
Proof.
  intros Hd. destruct (create_all parent (order _ prs) s) as (s' & H & Ho & Hs); [intros e; rewrite order_perm; apply Hd|].
  exists s'. split_and!; [exact H|exact Ho|]. intros i. by eapply stubbed_perm; [apply order_perm|].
Qed.

(** Stubs that are all there, under different identifiers, can be removed. *)
Definition removed parent prs i (old new : option P) : Prop :=
  new = if existsb (fun e => BuildIdent_eq (ident_of parent e) i) prs then None else old.
Definition distinct parent prs : Prop := NoDup prs /\ forall e e', e ∈ prs -> e' ∈ prs -> BuildIdent_eq (ident_of parent e) (ident_of parent e') = true -> e = e'.
Lemma distinct_sub parent prs prs' : (forall e, e ∈ prs' -> e ∈ prs) -> NoDup prs' -> distinct parent prs -> distinct parent prs'.
Proof. intros Hs Hn [_ Hd]. split; [done|]. auto. Qed.
Lemma remove_ok parent e x s : stb s (ident_of parent e) = Some x ->
  exists s', remove_embedded_stub_for_spec sends parent e.1 e.2 s = (Ok tt, s') /\ only_stubs [(Modified, ident_of parent e)] s s' /\
    forall i, stb s' i = if BuildIdent_eq (ident_of parent e) i then None else stb s i.
Proof.
  intros Hx. pose proof (law_remove_stub (storage s) (ident_of parent e) eq_refl) as H. rewrite Hx in H. destruct H as (d & Hw & Hp & Hs & Hr).
  exists (mkRepository d (events s ++ [(Modified, ident_of parent e)])). split; [|split; [split_and!; [exact Hp|exact Hr|reflexivity]|exact Hs]].
  unfold remove_embedded_stub_for_spec. erewrite bind_ok by (by apply writes_ok). by rewrite announce_ok.
Qed.
Lemma remove_all parent prs s : distinct parent prs -> (forall e, e ∈ prs -> stb s (ident_of parent e) <> None) ->
  exists s', each (fun '(embed, components) => remove_embedded_stub_for_spec sends parent embed components) prs s = (Ok tt, s') /\
    only_stubs (modified parent prs) s s' /\ forall i, removed parent prs i (stb s i) (stb s' i).
Proof.
  intros Hd Hin. apply (each_spec _ (fun done s' => only_stubs (modified parent done) s s' /\ forall i, removed parent done i (stb s i) (stb s' i))).
  - split; [apply only_stubs_refl|done].
  - intros done e rest s' -> [Ho Hs]. destruct (stb s' (ident_of parent e)) as [x|] eqn:Hx.
    + destruct (remove_ok parent e x s' Hx) as (s'' & Hc & Ho' & Hs'). exists s''. split; [by destruct e|]. split.
      * unfold modified in *. rewrite fmap_app. by eapply only_stubs_trans.
      * intros i. unfold removed in *. rewrite Hs', Hs, existsb_app. cbn [existsb]. rewrite orb_false_r. by destruct (existsb _ done), (BuildIdent_eq (ident_of parent e) i).
    + exfalso. rewrite Hs in Hx. destruct (existsb _ done) eqn:Ex.
      * apply existsb_exists in Ex as (e' & He'%list_elem_of_In & E). destruct Hd as [Hn Hd].
        assert (e' = e) as -> by (apply Hd; [apply elem_of_app; by left|apply elem_of_app; right; by left|done]).
        apply NoDup_app in Hn as (_ & Hn & _). apply (Hn e He'). by left.
      * apply (Hin e); [apply elem_of_app; right; by left|done].
Qed.
Lemma removed_perm parent prs prs' i old new : prs ≡ₚ prs' -> removed parent prs i old new -> removed parent prs' i old new.
Proof.
  intros Hp ->. unfold removed. assert (forall f : stub -> bool, existsb f prs = existsb f prs') as ->; [|done]. intros f. apply Bool.eq_iff_eq_true. rewrite !existsb_exists. setoid_rewrite <-list_elem_of_In. by setoid_rewrite Hp.
Qed.

(** *** Publishing and removing *)

Definition providers_of p : res RepositoryError (list stub) := if BuildIdent_can_embed (sp_ident p) then get_embedded_providers p else Ok [].
Lemma published p c s : exists s', writes (publish_package_to_storage p c) s = (Ok tt, s') /\
  (forall i, pkg s' i = if BuildIdent_eq (sp_ident p) i then Some (p, c) else pkg s i) /\
  (forall i, stb s' i = stb s i) /\ (forall v, rcp s' v = rcp s v) /\ events s' = events s.
Proof.
  destruct (law_publish_package (storage s) p c) as (d & Hw & Hp & Hs & Hr). exists (mkRepository d (events s)). by split; [apply writes_ok|].
Qed.
(** After publishing, the package and its components are stored, every embedded
    package has a stub, and everything else is as before. *)
Theorem publish_package_effect p c prs s : Build_is_embedded (id_target (sp_ident p)) = false ->
  providers_of p = Ok prs -> stubs_defined p prs ->
  exists s', publish_package order sends p c s = (Ok tt, s') /\
    (forall i, pkg s' i = if BuildIdent_eq (sp_ident p) i then Some (p, c) else pkg s i) /\
    (forall i, stubbed p prs i (stb s i) (stb s' i)) /\ (forall v, rcp s' v = rcp s v) /\
    events s' = events s ++ modified p (order _ prs) ++ [(Published, sp_ident p)].
Proof.
  intros He Hprs Hd. unfold publish_package. rewrite He. destruct (published p c s) as (s1 & Hw & Hp & Hs & Hr & Hev). rewrite (bind_ok _ _ _ _ _ Hw).
  unfold providers_of in Hprs.
  assert (exists s2, (if BuildIdent_can_embed (sp_ident p) then op_bind (op_of (get_embedded_providers p)) (create_stubs order sends p) else op_ret tt) s1 = (Ok tt, s2) /\
    only_stubs (modified p (order _ prs)) s1 s2 /\ forall i, stubbed p prs i (stb s1 i) (stb s2 i)) as (s2 & H2 & (Hp2 & Hr2 & He2) & Hs2).
  { destruct (BuildIdent_can_embed (sp_ident p)).
    - rewrite Hprs. by apply create_stubs_ok.
    - injection Hprs as <-. exists s1. split; [done|]. replace (order stub []) with ([] : list stub) by (symmetry; apply Permutation_nil_r, order_perm).
      split; [apply only_stubs_refl|]. intros i. right. by split; [intros e []%elem_of_nil|]. }
  rewrite (bind_ok _ _ _ _ _ H2), announce_ok. eexists. split; [reflexivity|]. cbn [storage events]. split_and!.
  - intros i. by rewrite Hp2, Hp.
  - intros i. rewrite <-Hs. apply Hs2.
  - intros v. by rewrite Hr2, Hr.
  - by rewrite He2, Hev, <-app_assoc.
Qed.
Lemma read_package_ok i s p c : Build_is_embed_stub (id_target i) = false -> pkg s i = Some (p, c) -> read_package i s = (Ok p, s).
Proof. intros He Hp. unfold read_package. rewrite He. unfold reads. by rewrite law_read_package, Hp. Qed.
(** Removing a package removes its stubs, and nothing else. *)
Theorem remove_package_effect i p c prs s : Build_is_embed_stub (id_target i) = false -> pkg s i = Some (p, c) ->
  providers_of p = Ok prs -> distinct p prs -> (forall e, e ∈ prs -> stb s (ident_of p e) <> None) ->
  exists s', remove_package order sends i s = (Ok tt, s') /\
    (forall j, pkg s' j = if BuildIdent_eq i j then None else pkg s j) /\
    (forall j, removed p prs j (stb s j) (stb s' j)) /\ (forall v, rcp s' v = rcp s v) /\
    events s' = events s ++ modified p (order _ prs) ++ [(Removed, i)].
Proof.
  intros He Hi Hprs [Hn Hd] Hin. unfold remove_package. unfold providers_of in Hprs.
  edestruct (remove_all p (order _ prs) s) as (s1 & H1 & (Hp1 & Hr1 & He1) & Hs1); [split; [by rewrite order_perm|intros e e'; rewrite !order_perm; apply Hd]|intros e; rewrite order_perm; apply Hin|].
  erewrite bind_ok.
  2:{ rewrite (read_package_ok i s p c He Hi). instantiate (1 := s1). instantiate (1 := tt). destruct (BuildIdent_can_embed (sp_ident p)).
      - rewrite Hprs. exact H1.
      - injection Hprs as <-. replace (order stub []) with ([] : list stub) in H1 by (symmetry; apply Permutation_nil_r, order_perm). exact H1. }
  pose proof (law_remove_package (storage s1) i) as Hl. rewrite (Hp1 i), Hi in Hl. destruct Hl as (d & Hw & Hp & Hs & Hr).
  erewrite bind_ok by (by apply writes_ok). rewrite announce_ok. eexists. split; [reflexivity|]. cbn [storage events]. split_and!.
  - intros j. by rewrite Hp, Hp1.
  - intros j. rewrite Hs. by eapply removed_perm; [apply order_perm|].
  - intros v. by rewrite Hr, Hr1.
  - by rewrite He1, <-app_assoc.
Qed.
(** C13: removing a package undoes publishing it: packages, stubs and recipes
    are as before, when nothing was stored under its identifier or those of its
    stubs, and its embedded packages have stubs, each of its own
    ([embedded_twice_stays] shows why). In any storage with the laws of
    [StorageLaws], whose calls do not fail, like the one in memory. *)
Theorem remove_undoes_publish p c prs s : Build_is_embedded (id_target (sp_ident p)) = false ->
  providers_of p = Ok prs -> stubs_defined p prs -> distinct p prs ->
  pkg s (sp_ident p) = None -> (forall e, e ∈ prs -> stb s (ident_of p e) = None) ->
  exists s', op_bind (publish_package order sends p c) (fun _ => remove_package order sends (sp_ident p)) s = (Ok tt, s') /\
    (forall i, pkg s' i = pkg s i) /\ (forall i, stb s' i = stb s i) /\ forall v, rcp s' v = rcp s v.
Proof.
  intros He Hprs Hdef Hd Hi Hin.
  destruct (publish_package_effect p c prs s He Hprs Hdef) as (s1 & H1 & Hp1 & Hs1 & Hr1 & _). rewrite (bind_ok _ _ _ _ _ H1).
  destruct (remove_package_effect (sp_ident p) p c prs s1) as (s2 & H2 & Hp2 & Hs2 & Hr2 & _); [by destruct (id_target (sp_ident p))|by rewrite Hp1, (proj1 BuildIdent_lawful)|done|done| |].
  { intros e Hine. destruct (Hs1 (ident_of p e)) as [(e' & x & _ & _ & _ & ->)|[Hno _]]; [done|]. specialize (Hno e Hine). by rewrite (proj1 BuildIdent_lawful) in Hno. }
  exists s2. split_and!; [done| | |].
  - intros i. rewrite Hp2, Hp1. destruct (BuildIdent_eq (sp_ident p) i) eqn:E; [|done]. by rewrite <-(package_at_eq _ _ _ E).
  - intros i. rewrite Hs2. destruct (existsb _ prs) eqn:Ex.
    + apply existsb_exists in Ex as (e & Hine%list_elem_of_In & E). rewrite <-(stub_at_eq _ _ _ E). by rewrite Hin.
    + destruct (Hs1 i) as [(e & x & Hine%list_elem_of_In & E & _)|[_ H]]; [|done].
      assert (existsb (fun e => BuildIdent_eq (ident_of p e) i) prs = true) by (apply existsb_exists; by exists e). congruence.
  - intros v. by rewrite Hr2, Hr1.
Qed.
(** *** Updating *)

(** The keys of a map of providers are distinct. *)
Abbreviation unique := (StronglySorted (fun a b : stub => sp_eq a.1 b.1 = false)).
Lemma insert_unique k v prs : unique prs -> unique (hm_insert sp_eq k v prs).
Proof.
  induction 1 as [|[x w] prs Hs IH Hx]; [by repeat constructor|]. cbn [hm_insert]. destruct (sp_eq x k) eqn:E; [by constructor|]. constructor; [done|].
  clear IH Hs. induction Hx as [|[y u] prs Hy Hx IHx]; [by repeat constructor|]. cbn [hm_insert]. destruct (sp_eq y k); constructor; [exact Hy|exact Hx|exact Hy|exact IHx].
Qed.
Lemma providers_unique p prs : get_embedded_providers p = Ok prs -> unique prs.
Proof.
  unfold get_embedded_providers. destruct (sp_embedded_as_packages p) as [embeds| |]; [|done..]. intros [= <-].
  assert (forall acc, unique acc -> unique (foldl add_provider acc embeds)) as H; [|apply H; constructor].
  induction embeds as [|x embeds IH]; intros acc Ha; [done|]. by apply IH, insert_unique.
Qed.
Lemma get_member e e' prs : unique prs -> e ∈ prs -> sp_eq e'.1 e.1 = true -> hm_get sp_eq e'.1 prs = Some e.2.
Proof.
  pose proof sp_eq_lawful as Hl. induction 1 as [|[x w] prs Hs IH Hx]; [by intros []%elem_of_nil|]. cbn [hm_get]. intros [->|He]%elem_of_cons E.
  - cbn in *. by rewrite (lawful_sym _ _ _ Hl), E.
  - rewrite Forall_forall in Hx. specialize (Hx e He). cbn in Hx. rewrite (lawful_cong _ _ _ x Hl E), Hx. auto.
Qed.
Lemma get_partner k v prs : hm_get sp_eq k prs = Some v -> exists e, e ∈ prs /\ sp_eq e.1 k = true /\ e.2 = v.
Proof. intros (k' & E & He)%(get_in sp_eq). by exists (k', v). Qed.
Lemma contains_partner k prs : hm_contains sp_eq k prs = true <-> exists e, e ∈ prs /\ sp_eq e.1 k = true.
Proof.
  pose proof sp_eq_lawful as Hl. unfold hm_contains. induction prs as [|[x v] prs IH]; [split; [done|by intros (e & []%elem_of_nil & _)]|]. cbn [hm_get]. destruct (sp_eq x k) eqn:E.
  - split; [|done]. intros _. exists (x, v). split; [by left|done].
  - rewrite IH. split; [intros (e & He & H); exists e; split; [by right|done]|]. intros (e & [->|He]%elem_of_cons & H); [cbn in H; congruence|by exists e].
Qed.
(** Maps of the same size of which one has the keys of the other have the same keys. *)
Lemma keys_le prs prs' : unique prs -> (forall e, e ∈ prs -> exists e', e' ∈ prs' /\ sp_eq e'.1 e.1 = true) -> length prs <= length prs'.
Proof.
  pose proof sp_eq_lawful as Hl. intros Hu. revert prs'. induction Hu as [|x prs Hs IH Hx]; intros prs' H; [cbn; lia|].
  destruct (H x) as (e' & (a & b & ->)%list_elem_of_split & E); [by left|]. rewrite length_app. cbn. enough (length prs <= length (a ++ b)) as Hle by (rewrite length_app in Hle; lia).
  apply IH. intros e He. rewrite Forall_forall in Hx. specialize (Hx e He). cbn in Hx. destruct (H e) as (e'' & Hin & E''); [by right|]. exists e''. split; [|done].
  apply elem_of_app in Hin as [?|[->|?]%elem_of_cons]; [apply elem_of_app; by left| |apply elem_of_app; by right].
  exfalso. rewrite (proj2 Hl _ _ e.1 E) in E''. congruence.
Qed.
Lemma same_keys old new e : unique old -> unique new -> providers_eq old new = true -> e ∈ new -> exists e', e' ∈ old /\ sp_eq e'.1 e.1 = true /\ e'.2 = e.2.
Proof.
  pose proof sp_eq_lawful as Hl. intros Hu Hu' [Hlen%Nat.eqb_eq Hall]%andb_true_iff He. rewrite forallb_forall in Hall.
  assert (forall o, o ∈ old -> exists n, n ∈ new /\ sp_eq n.1 o.1 = true /\ n.2 = o.2) as Hpart.
  { intros [k v] Ho%list_elem_of_In. specialize (Hall _ Ho). by apply bool_decide_eq_true, get_partner in Hall. }
  destruct (hm_contains sp_eq e.1 old) eqn:Ec.
  - apply contains_partner in Ec as (o & Ho & E). exists o. split_and!; [done..|]. destruct (Hpart o Ho) as (n & Hn & En & <-).
    pose proof (get_member e n new Hu' He) as H1. pose proof (get_member n n new Hu' Hn (proj1 Hl _)) as H2. rewrite H1 in H2; [congruence|].
    by rewrite (proj2 Hl _ _ e.1 En).
  - exfalso. apply list_elem_of_split in He as (a & b & ->). assert (length old <= length (a ++ b)) as Hle; [|rewrite !length_app in *; cbn in Hlen; lia].
    apply keys_le; [done|]. intros o Ho. destruct (Hpart o Ho) as (n & Hn & En & _). exists n. split; [|done].
    apply elem_of_app in Hn as [?|[->|?]%elem_of_cons]; [apply elem_of_app; by left| |apply elem_of_app; by right].
    enough (hm_contains sp_eq e.1 old = true) by congruence. apply contains_partner. exists o. split; [done|]. by rewrite (lawful_sym _ _ _ Hl).
Qed.

(** Every embedded package has a stub, with the deprecation of the package. *)
Definition at_status parent (x : option P) : Prop := exists p, x = Some p /\ sp_is_deprecated p = sp_is_deprecated parent.
Definition synced parent prs s : Prop := forall e, e ∈ prs -> at_status parent (stb s (ident_of parent e)).
Lemma stubbed_status parent prs i old new : stubbed parent prs i old new -> at_status parent old -> at_status parent new.
Proof. intros [(e & x & _ & _ & Hx & ->)|[_ ->]]; [|done]. intros _. exists x. split; [done|]. by eapply embed_stub_ident. Qed.
Lemma stubbed_member parent prs e i old new : stubbed parent prs i old new -> e ∈ prs -> BuildIdent_eq (ident_of parent e) i = true -> at_status parent new.
Proof.
  intros [(e' & x & _ & _ & Hx & ->)|[Hno _]] He E; [|rewrite Hno in E; done]. exists x. split; [done|]. by eapply embed_stub_ident.
Qed.
Lemma stubbed_none parent prs i old new : stubbed parent prs i old new -> (forall e, e ∈ prs -> BuildIdent_eq (ident_of parent e) i = false) -> new = old.
Proof. intros [(e & _ & He & E & _)|[_ ?]] Hno; [|done]. by rewrite Hno in E. Qed.
Lemma partner_ident parent e e' : sp_eq e.1 e'.1 = true -> e.2 = e'.2 -> BuildIdent_eq (ident_of parent e) (ident_of parent e') = true.
Proof.
  intros [Hv _]%sp_eq_ident%andb_true_iff Hc. apply andb_true_iff. split; [exact Hv|]. unfold stub_ident. rewrite Hc. apply Build_eq_refl.
Qed.
Lemma without_in e a b : e ∈ without a b <-> e ∈ a /\ forall e', e' ∈ b -> sp_eq e'.1 e.1 = false.
Proof.
  unfold without. rewrite !list_elem_of_In, List.filter_In, negb_true_iff. split; intros [He H]; (split; [done|]).
  - intros e' He'. destruct (sp_eq e'.1 e.1) eqn:E; [|done]. rewrite (proj2 (contains_partner e.1 b)) in H; [done|by exists e'].
  - destruct (hm_contains sp_eq e.1 b) eqn:E; [|done]. apply contains_partner in E as (e' & He' & E). by rewrite H in E.
Qed.
Lemma filter_nodup {A} (f : A -> bool) l : NoDup l -> NoDup (List.filter f l).
Proof. induction 1 as [|x l Hx Hn IH]; [constructor|]. cbn. destruct (f x); [|done]. constructor; [|done]. by rewrite list_elem_of_In, List.filter_In, <-list_elem_of_In; intros []. Qed.
(** What is in both maps is in the one or in the other. *)
Lemma returning_in e old new : e ∈ returning old new -> (e ∈ old \/ e ∈ new) /\ (exists a, a ∈ old /\ sp_eq a.1 e.1 = true) /\ exists b, b ∈ new /\ sp_eq b.1 e.1 = true.
Proof.
  pose proof (proj1 sp_eq_lawful) as Hr. unfold returning. destruct (length old <=? length new); rewrite list_elem_of_In, List.filter_In, <-list_elem_of_In; intros (He & Hc%contains_partner);
    (split_and!; [auto| |]); eauto.
Qed.
Lemma returning_has o n old new : unique old -> o ∈ old -> n ∈ new -> sp_eq o.1 n.1 = true -> o ∈ returning old new \/ n ∈ returning old new.
Proof.
  intros _ Ho Hn E. unfold returning. destruct (length old <=? length new); [left|right]; rewrite list_elem_of_In, List.filter_In, <-list_elem_of_In; (split; [done|]); apply contains_partner; eauto.
  exists n. split; [done|]. by rewrite (lawful_sym _ _ _ sp_eq_lawful).
Qed.
Lemma each_ext {A} (f g : A -> Op unit) l s : (forall a, a ∈ l -> f a = g a) -> each f l s = each g l s.
Proof.
  revert s. induction l as [|a l IH]; intros s H; [done|]. cbn [each]. rewrite (H a) by by left. unfold op_bind. destruct (g a s) as [r s']. destruct r; [|done..]. apply IH. intros b Hb. apply H. by right.
Qed.

Lemma each_map {A B} (g : A -> B) (f : B -> Op unit) l s : each f (g <$> l) s = each (fun a => f (g a)) l s.
Proof. revert s. induction l as [|a l IH]; intros s; [done|]. rewrite fmap_cons. cbn [each]. unfold op_bind. destruct (f (g a) s) as [[]]; [|done..]. apply IH. Qed.

(** An embedded package with the components that provide it now. *)
Definition provided_by (new : list stub) (e : stub) : stub := (e.1, default e.2 (hm_get sp_eq e.1 new)).
(** What is needed to update stubs: those that were there are, with the package's
    deprecation, under different identifiers, and those that are made can be. *)
Record updatable o p old new s : Prop := {
  up_old : get_embedded_providers o = Ok old;
  up_new : get_embedded_providers p = Ok new;
  up_ident : sp_ident o = sp_ident p;
  up_defined : stubs_defined p (new ++ (provided_by new <$> returning old new));
  up_distinct : distinct p old;
  up_synced : synced o old s;
}.
Definition status_changed o p : bool := negb (Bool.eqb (sp_is_deprecated o) (sp_is_deprecated p)).
(** Other components provided it. *)
Definition moved (prs : list stub) (e : stub) : Prop := exists a, a ∈ prs /\ sp_eq a.1 e.1 = true /\ a.2 <> e.2.
Definition absent p (new : list stub) (e : stub) : Prop := forall e', e' ∈ new -> BuildIdent_eq (ident_of p e') (ident_of p e) = false.
(** What an update makes of the stubs: it makes those of embedded packages that are
    new, or were provided by the same components, or when the deprecation changes;
    it removes those of packages that are not embedded any more, but not those of
    packages that other components provide now. *)
Record stubs_updated o p old new s s' : Prop := {
  su_synced e : e ∈ new -> status_changed o p = true \/ ~ moved old e -> at_status p (stb s' (ident_of p e));
  su_gone e : e ∈ old -> absent p new e -> ~ moved new e -> stb s' (ident_of p e) = None;
  su_stale e : e ∈ old -> absent p new e -> moved new e -> stb s' (ident_of p e) = stb s (ident_of p e);
}.
Lemma same_status o p x : status_changed o p = false -> at_status o x -> at_status p x.
Proof. intros H%negb_false_iff%eqb_prop (q & -> & Hq). exists q. by rewrite Hq. Qed.
Lemma ident_of_same o p e : sp_ident o = sp_ident p -> ident_of o e = ident_of p e.
Proof. intros H. unfold stub_ident, embedded_by. by rewrite H. Qed.
Lemma provided_partner b e new : unique new -> b ∈ new -> sp_eq b.1 e.1 = true -> (provided_by new e).2 = b.2.
Proof.
  intros Hun Hb E. unfold provided_by. cbn [snd]. by rewrite (get_member b e new Hun Hb) by by rewrite (lawful_sym _ _ _ sp_eq_lawful).
Qed.
Lemma provided_ident p b e new : unique new -> b ∈ new -> sp_eq b.1 e.1 = true ->
  BuildIdent_eq (ident_of p b) (ident_of p (provided_by new e)) = true.
Proof. intros Hun Hb E. apply partner_ident; [exact E|]. symmetry. by apply provided_partner. Qed.
Lemma moved_same prs e a : ~ moved prs e -> a ∈ prs -> sp_eq a.1 e.1 = true -> a.2 = e.2.
Proof. intros Hm Ha E. destruct (decide (a.2 = e.2)) as [|Hne]; [done|]. destruct Hm. by exists a. Qed.
(** The stubs that stay get the deprecation of the package. *)
Lemma returning_ok o p old new s s' : updatable o p old new s ->
  exists s'' l, (if status_changed o p then
      each (fun '(embed, _) => match hm_get sp_eq embed new with
                               | Some components => create_embedded_stub_for_spec sends p embed components
                               | None => op_ret tt
                               end) (order _ (returning old new))
    else op_ret tt) s' = (Ok tt, s'') /\
    only_stubs (modified p l) s' s'' /\ (forall i, stubbed p l i (stb s' i) (stb s'' i)) /\
    (forall e, e ∈ l -> exists b, b ∈ new /\ BuildIdent_eq (ident_of p b) (ident_of p e) = true) /\
    (status_changed o p = true -> forall e, e ∈ returning old new -> provided_by new e ∈ l).
Proof.
  intros [Hold Hnew Hid Hdef Hdis Hsync]. pose proof (providers_unique _ _ Hnew) as Hun. destruct (status_changed o p).
  - destruct (create_all p (provided_by new <$> order _ (returning old new)) s') as (s'' & He & Ho & Hs).
    { intros e (a & -> & Ha)%list_elem_of_fmap. rewrite order_perm in Ha. apply Hdef, elem_of_app. right. by apply list_elem_of_fmap_2. }
    exists s'', (provided_by new <$> order _ (returning old new)). split_and!; [|done|done| |].
    + rewrite <-He, each_map. apply each_ext. intros [k v]. rewrite order_perm. intros (_ & _ & (b & Hb & E))%returning_in. cbn in E.
      assert (hm_get sp_eq k new = Some b.2) as Hg; [|unfold provided_by; cbn [fst snd]; by rewrite Hg].
      apply (get_member b (k, v) new Hun Hb). by rewrite (lawful_sym _ _ _ sp_eq_lawful).
    + intros e (a & -> & Ha)%list_elem_of_fmap. rewrite order_perm in Ha. apply returning_in in Ha as (_ & _ & (b & Hb & E)). exists b. split; [done|]. by apply provided_ident.
    + intros _ e He'. apply list_elem_of_fmap_2. by rewrite order_perm.
  - exists s', []. split_and!; [done|apply only_stubs_refl| |by intros e []%elem_of_nil|done]. intros i. right. by split; [intros e []%elem_of_nil|].
Qed.
Lemma update_changed o p old new s : updatable o p old new s ->
  exists s' new_events,
    op_bind (each (fun '(embed, components) => remove_embedded_stub_for_spec sends p embed components) (order _ (without old new))) (fun _ =>
    op_bind (create_stubs order sends p (without new old)) (fun _ =>
      if status_changed o p then
        each (fun '(embed, _) => match hm_get sp_eq embed new with
                                 | Some components => create_embedded_stub_for_spec sends p embed components
                                 | None => op_ret tt
                                 end) (order _ (returning old new))
      else op_ret tt)) s = (Ok tt, s') /\ only_stubs new_events s s' /\ stubs_updated o p old new s s'.
Proof.
  intros Hu. pose proof sp_eq_lawful as Hl. destruct (Hu) as [Hold Hnew Hid Hdef Hdis Hsync].
  pose proof (providers_unique _ _ Hold) as Huo. pose proof (providers_unique _ _ Hnew) as Hun.
  destruct (remove_all p (order _ (without old new)) s) as (s1 & H1 & Ho1 & Hs1).
  { apply (distinct_sub p old); [intros e; rewrite order_perm; by intros []%without_in|rewrite order_perm; by apply filter_nodup, Hdis|done]. }
  { intros e. rewrite order_perm. intros [He _]%without_in. destruct (Hsync e He) as (x & Hx & _). rewrite <-(ident_of_same _ _ e Hid). congruence. }
  rewrite (bind_ok _ _ _ _ _ H1).
  destruct (create_stubs_ok p (without new old) s1) as (s2 & H2 & Ho2 & Hs2); [intros e []%without_in; apply Hdef, elem_of_app; by left|].
  rewrite (bind_ok _ _ _ _ _ H2). destruct (returning_ok o p old new s s2 Hu) as (s3 & l & H3 & Ho3 & Hs3 & Hl1 & Hl2).
  exists s3. eexists. split; [exact H3|]. split; [exact (only_stubs_trans _ _ _ _ _ Ho1 (only_stubs_trans _ _ _ _ _ Ho2 Ho3))|].
  assert (forall e, absent p new e -> stb s3 (ident_of p e) = stb s1 (ident_of p e)) as Hleft.
  { intros e Hno. rewrite (stubbed_none _ _ _ _ _ (Hs3 _)).
    2:{ intros b (c & Hcin & E)%Hl1. rewrite <-(proj2 BuildIdent_lawful _ _ _ E). by apply Hno. }
    apply (stubbed_none _ _ _ _ _ (Hs2 _)). intros b [? _]%without_in. by apply Hno. }
  assert (forall a e, a ∈ old -> (exists b, b ∈ new /\ sp_eq b.1 a.1 = true) -> BuildIdent_eq (ident_of p a) (ident_of p e) = true ->
    stb s1 (ident_of p e) = stb s (ident_of p e)) as Hstays.
  { intros a e Ha (b & Hb & E) Hi. rewrite Hs1. replace (existsb _ _) with false; [done|].
    symmetry; apply not_true_iff_false; intros (a' & Ha'%list_elem_of_In & E')%existsb_exists.
    rewrite order_perm in Ha'. apply without_in in Ha' as [Ha' Hno]. rewrite <-(lawful_cong _ _ _ (ident_of p a') BuildIdent_lawful Hi) in E'.
    rewrite (proj2 Hdis a' a Ha' Ha E') in Hno. by rewrite Hno in E. }
  split.
  - intros e He Hcase. destruct (hm_contains sp_eq e.1 old) eqn:Ec.
    + apply contains_partner in Ec as (a & Ha & E). destruct (status_changed o p) eqn:Hst.
      * assert (exists r, r ∈ returning old new /\ sp_eq e.1 r.1 = true) as (r & Hr & Er).
        { destruct (returning_has a e old new Huo Ha He E) as [Hr|Hr]; [exists a; split; [done|]; by rewrite (lawful_sym _ _ _ Hl)|exists e; split; [done|apply Hl]]. }
        apply (stubbed_member p l (provided_by new r) _ _ _ (Hs3 _)); [by apply Hl2|].
        rewrite (lawful_sym _ _ _ BuildIdent_lawful). by apply provided_ident.
      * destruct Hcase as [|Hm]; [done|]. pose proof (moved_same _ _ _ Hm Ha E) as Hae.
        assert (BuildIdent_eq (ident_of p a) (ident_of p e) = true) as Hi by by apply partner_ident.
        apply (stubbed_status _ _ _ _ _ (Hs3 _)), (stubbed_status _ _ _ _ _ (Hs2 _)). rewrite (Hstays a e Ha); [| |done].
        -- rewrite <-(stub_at_eq _ _ _ Hi), <-(ident_of_same _ _ a Hid). by apply (same_status o p), Hsync.
        -- exists e. split; [done|]. by rewrite (lawful_sym _ _ _ Hl).
    + apply (stubbed_status _ _ _ _ _ (Hs3 _)). apply (stubbed_member p (without new old) e _ _ _ (Hs2 _)); [|apply BuildIdent_lawful].
      apply without_in. split; [done|]. intros a Ha. destruct (sp_eq a.1 e.1) eqn:E; [|done]. rewrite (proj2 (contains_partner e.1 old)) in Ec; [done|by exists a].
  - intros e He Hno Hm. rewrite Hleft, Hs1 by done. replace (existsb _ _) with true; [done|]. symmetry. apply existsb_exists. exists e.
    rewrite <-list_elem_of_In, order_perm. split; [|apply BuildIdent_lawful].
    apply without_in. split; [done|]. intros c Hcin. destruct (sp_eq c.1 e.1) eqn:E; [|done].
    pose proof (moved_same _ _ _ Hm Hcin E) as Hce. pose proof (partner_ident p c e E Hce) as Hi. by rewrite Hno in Hi.
  - intros e He Hno (b & Hb & E & _). rewrite Hleft by done. apply (Hstays e e He); [by exists b|apply BuildIdent_lawful].
Qed.
Lemma update_stubs_ok o p old new s : updatable o p old new s ->
  exists s' new_events, update_stubs order sends p o s = (Ok tt, s') /\ only_stubs new_events s s' /\ stubs_updated o p old new s s'.
Proof.
  intros Hu. destruct (Hu) as [Hold Hnew Hid Hdef Hdis Hsync]. pose proof (providers_unique _ _ Hold) as Huo. pose proof (providers_unique _ _ Hnew) as Hun.
  unfold update_stubs. rewrite Hold, Hnew. do 2 (erewrite bind_ok by reflexivity). fold (status_changed o p).
  assert (providers_eq old new = true -> forall e, e ∈ old -> ~ absent p new e) as Hsame.
  { intros [_ Hall]%andb_true_iff [k v] He Hno. rewrite forallb_forall in Hall. specialize (Hall (k, v) (proj1 (list_elem_of_In _ _) He)). apply bool_decide_eq_true, get_partner in Hall as (e' & He' & E & E').
    specialize (Hno e' He'). by rewrite (partner_ident p e' (k, v)) in Hno. }
  assert (forall s', providers_eq old new = true -> (forall e, e ∈ new -> at_status p (stb s' (ident_of p e))) -> stubs_updated o p old new s s') as Hall.
  { intros s' Heq Hs. split; [by auto|..]; intros e He Hno; by destruct (Hsame Heq e He). }
  destruct (providers_eq old new) eqn:Eq; cbn [negb andb].
  - destruct (status_changed o p) eqn:Hst.
    + destruct (create_stubs_ok p new s) as (s' & H & Ho & Hs); [intros e He; apply Hdef, elem_of_app; by left|].
      assert (synced p new s') as Hsy by (intros e He; apply (stubbed_member p new e _ _ _ (Hs _)); [done|apply BuildIdent_lawful]).
      destruct old as [|x old], new as [|y new]; try (exists s'; eexists; split_and!; [done..|]; by apply Hall).
      exists s, []. split_and!; [done|apply only_stubs_refl|]. apply Hall; [done|]. by intros e []%elem_of_nil.
    + exists s, []. split_and!; [by destruct old, new|apply only_stubs_refl|]. apply Hall; [done|]. intros e He. destruct (same_keys old new e Huo Hun Eq He) as (a & Ha & E & E').
      rewrite <-(stub_at_eq _ _ _ (partner_ident p a e E E')), <-(ident_of_same _ _ a Hid). by apply (same_status o p), Hsync.
  - destruct (update_changed o p old new s Hu) as (s' & ev & H & Hrest). exists s', ev. split; [|exact Hrest]. destruct old as [|x old], new as [|y new]; [done|exact H..].
Qed.
(** C12: updating a package replaces it and keeps its components. Then an
    embedded package has a stub with the deprecation of the package, unless it
    was embedded before in other components and the deprecation is the same; one
    that is not embedded any more has none, but one that is embedded in other
    components now leaves its stub behind. In any storage with the laws of
    [StorageLaws]; for a package that is stored with its stubs, whose embedded
    packages have identifiers of their own for which stubs can be made
    ([updatable]). *)
Theorem update_keeps_stubs o p c old new s : BuildIdent_can_embed (sp_ident p) = true -> pkg s (sp_ident p) = Some (o, c) -> updatable o p old new s ->
  exists s', update_package order sends p s = (Ok tt, s') /\
    (forall i, pkg s' i = if BuildIdent_eq (sp_ident p) i then Some (p, c) else pkg s i) /\ (forall v, rcp s' v = rcp s v) /\
    stubs_updated o p old new s s'.
Proof.
  intros Hcan Hp Hu. assert (Build_is_embed_stub (id_target (sp_ident p)) = false) as He by (unfold BuildIdent_can_embed in Hcan; by destruct (id_target (sp_ident p))).
  unfold update_package. rewrite Hcan, (read_package_ok _ _ _ _ He Hp).
  destruct (published p c s) as (s1 & Hw & Hp1 & Hs1 & Hr1 & _). erewrite bind_ok by reflexivity. erewrite bind_ok.
  2:{ unfold read_components. rewrite He. unfold reads. by rewrite law_read_components, Hp. }
  rewrite (bind_ok _ _ _ _ _ Hw), (bind_ok _ _ _ _ _ (announce_ok _ _ _)).
  destruct (update_stubs_ok o p old new (mkRepository (storage s1) (events s1 ++ [(Modified, sp_ident p)]))) as (s' & ev & H & (Hp2 & Hr2 & _) & [Hsy Hg Hst]).
  { destruct Hu. split; try done. intros e Hin. cbn. rewrite Hs1. auto. }
  exists s'. split_and!; [exact H|intros i; rewrite Hp2; apply Hp1|intros v; rewrite Hr2; apply Hr1|]. split; [done|done|].
  intros e Hin Hno Hm. rewrite (Hst e Hin Hno Hm). apply Hs1.
Qed.
(** *** The highest version *)

Lemma bind_ret_ok {A B} (m : Op A) (f : A -> Op B) s b s' : op_bind m f s = (Ok b, s') -> exists a s1, m s = (Ok a, s1) /\ f a s1 = (Ok b, s').
Proof. unfold op_bind. destruct (m s) as [[a| |] s1]; [|done..]. intros H. by exists a, s1. Qed.
(** A version is active when one of its builds can be chosen. *)
Definition version_active name v s : Prop := exists builds b spec, list_package_builds order (mkIdent name v) s = (Ok builds, s) /\
  b ∈ builds /\ read_package b s = (Ok spec, s) /\ is_active spec = Ok true.
(** The builds of a version can be listed and read. *)
Definition readable name v s : Prop := exists builds, list_package_builds order (mkIdent name v) s = (Ok builds, s) /\
  forall b, b ∈ builds -> exists spec a, read_package b s = (Ok spec, s) /\ is_active spec = Ok a.
Lemma any_active_exact builds s : (forall b, b ∈ builds -> exists spec a, read_package b s = (Ok spec, s) /\ is_active spec = Ok a) ->
  exists a, any_active builds s = (Ok a, s) /\ (a = true <-> exists b spec, b ∈ builds /\ read_package b s = (Ok spec, s) /\ is_active spec = Ok true).
Proof.
  induction builds as [|b builds IH]; intros H; [exists false; split; [done|]; split; [done|by intros (? & ? & []%elem_of_nil & _)]|].
  destruct (H b) as (spec & a & Hr & Ha); [by left|]. cbn [any_active]. rewrite (bind_ok _ _ _ _ _ Hr), Ha. erewrite bind_ok by reflexivity. destruct a.
  - exists true. split; [done|]. split; [|done]. intros _. exists b, spec. by split_and!; [left| |].
  - destruct IH as (a & H1 & H2); [intros b' Hb'; apply H; by right|]. exists a. split; [exact H1|]. rewrite H2. split.
    + intros (b' & spec' & Hb' & Hrest). exists b', spec'. by split; [right|].
    + intros (b' & spec' & [->|Hb']%elem_of_cons & Hr' & Ha'); [rewrite Hr in Hr'; injection Hr' as <-; congruence|by exists b', spec'].
Qed.
#[local] Instance flip_laws : @CmpLaws Version (fun a b => Version_cmp b a).
Proof.
  pose proof Version_cmp_laws as [Ha Ht Hc]. unfold cmp, cmp_Version in *. split; unfold cmp; intros.
  - apply Ha.
  - by eapply Ht.
  - rewrite (Ha x z), (Ha y z). f_equal. apply Hc. by rewrite Ha, H.
Qed.
Lemma highest_active_exact name versions s : (forall v, v ∈ versions -> readable name v s) ->
  StronglySorted (fun a b => Version_cmp b a <> Gt) versions ->
  exists r, highest_active order name versions s = (Ok r, s) /\
    match r with
    | Some v => v ∈ versions /\ version_active name v s /\ forall w, w ∈ versions -> version_active name w s -> Version_cmp w v <> Gt
    | None => forall v, v ∈ versions -> ~ version_active name v s
    end.
Proof.
  intros Hr Hs. induction Hs as [|v versions Hs IH Hv]; [exists None; split; [done|by intros v []%elem_of_nil]|].
  destruct (Hr v) as (builds & Hl & Hb); [by left|]. destruct (any_active_exact builds s Hb) as (a & Ha & Hexact).
  cbn [highest_active]. rewrite (bind_ok _ _ _ _ _ Hl), (bind_ok _ _ _ _ _ Ha). rewrite Forall_forall in Hv. destruct a.
  - exists (Some v). split; [done|]. split_and!; [by left| |].
    + destruct (proj1 Hexact eq_refl) as (b & spec & ? & ? & ?). by exists builds, b, spec.
    + intros w [->|Hw]%elem_of_cons _; [|by apply Hv]. change (Version_cmp v v) with (cmp v v). by rewrite cmp_refl.
  - assert (~ version_active name v s) as Hno.
    { intros (builds' & b & spec & Hl' & Hb' & Hrest). rewrite Hl in Hl'. injection Hl' as <-. enough (false = true) by done. apply Hexact. by exists b, spec. }
    destruct IH as (r & H1 & H2); [intros w Hw; apply Hr; by right|]. exists r. split; [exact H1|]. destruct r as [w|].
    + destruct H2 as (Hw & Hact & Hmax). split_and!; [by right|done|]. by intros u [->|Hu]%elem_of_cons Hact'; [|apply Hmax].
    + intros w [->|Hw]%elem_of_cons; auto.
Qed.
(** C14: the highest version of a package is one that has a build that can be chosen,
    and none that is higher has one; that there is none is reported only when no
    version has one. *)
Theorem highest_package_version_exact name versions s : list_package_versions name (storage s) = Ok versions ->
  (forall v, v ∈ versions -> readable name v s) ->
  exists r, highest_package_version order name s = (Ok r, s) /\
    match r with
    | Some v => v ∈ versions /\ version_active name v s /\ forall w, w ∈ versions -> version_active name w s -> Version_cmp w v <> Gt
    | None => forall v, v ∈ versions -> ~ version_active name v s
    end.
Proof.
  intros Hv Hr. unfold highest_package_version. erewrite bind_ok by (unfold reads; by rewrite Hv).
  set (sorted := @sort_slice Version (fun a b => Version_cmp b a) versions). assert (sorted ≡ₚ versions) as Hp by apply (@sort_slice_perm Version (fun a b => Version_cmp b a)).
  destruct (highest_active_exact name sorted s) as (r & H & Hrest).
  - intros v. rewrite Hp. apply Hr.
  - apply (@sort_slice_sorted Version (fun a b => Version_cmp b a) flip_laws).
  - exists r. split; [exact H|]. destruct r as [v|].
    + destruct Hrest as (Hin & Hact & Hmax). split_and!; [by rewrite <-Hp|done|]. intros w. rewrite <-Hp. apply Hmax.
    + intros v. rewrite <-Hp. apply Hrest.
Qed.
(** *** Listing *)

(** The builds of a version are those of its packages and of its stubs. *)
Theorem list_package_builds_exact v s : exists builds, list_package_builds order v s = (Ok builds, s) /\
  forall i, (exists b, b ∈ builds /\ BuildIdent_eq b i = true) <-> VersionIdent_eq v (id_base i) = true /\ (pkg s i <> None \/ stb s i <> None).
Proof.
  destruct (law_concrete_builds (storage s) v) as (l & Hl & Hc), (law_embedded_builds (storage s) v) as (l' & Hl' & He).
  exists (order _ (hs_extend BuildIdent_eq l l')). split.
  - unfold list_package_builds. erewrite bind_ok by (unfold reads; by rewrite Hl). erewrite bind_ok by (unfold reads; by rewrite Hl'). done.
  - intros i. setoid_rewrite order_perm. rewrite (hs_extend_keys _ _ _ _ BuildIdent_lawful), Hc, He. tauto.
Qed.

(** *** What every operation keeps *)

Definition keeps (I : Repo -> Prop) {A} (m : Op A) : Prop := forall s, I s -> I (m s).2.
Lemma op_keeps_bind I {A B} (m : Op A) (f : A -> Op B) : keeps I m -> (forall a, keeps I (f a)) -> keeps I (op_bind m f).
Proof. intros Hm Hf s Hs. unfold op_bind. specialize (Hm s Hs). destruct (m s) as [[a| |] s']; [by apply Hf|done..]. Qed.
Lemma keeps_if I {A} (b : bool) (m n : Op A) : (b = true -> keeps I m) -> (b = false -> keeps I n) -> keeps I (if b then m else n).
Proof. destruct b; auto. Qed.
Lemma keeps_each I {A} (f : A -> Op unit) l : (forall a, keeps I (f a)) -> keeps I (each f l).
Proof. intros Hf. induction l as [|a l IH]; [by intros s|]. by apply op_keeps_bind. Qed.
(** Concrete packages are kept among the packages and stubs among the stubs. *)
Definition kinds s : Prop :=
  (forall i, pkg s i <> None -> Build_is_embed_stub (id_target i) = false) /\ (forall i, stb s i <> None -> Build_is_embed_stub (id_target i) = true).
Lemma embed_stub_cong i j : BuildIdent_eq i j = true -> Build_is_embed_stub (id_target i) = Build_is_embed_stub (id_target j).
Proof. intros [_ H]%andb_true_iff. by destruct (id_target i) as [|[]|], (id_target j) as [|[]|]. Qed.
Lemma keeps_announce event i : keeps kinds (announce_package_event sends event i).
Proof. intros s Hs. unfold announce_package_event. by destruct (sends event i) as [[]| |]. Qed.
Lemma keeps_publish_package p c : Build_is_embed_stub (id_target (sp_ident p)) = false -> keeps kinds (writes (publish_package_to_storage p c)).
Proof.
  intros He s [Hp Hs]. destruct (law_publish_package (storage s) p c) as (d & Hw & Hp' & Hs' & _). rewrite (writes_ok _ _ _ Hw). split; cbn; intros i.
  - rewrite Hp'. destruct (BuildIdent_eq (sp_ident p) i) eqn:E; [|apply Hp]. intros _. by rewrite <-(embed_stub_cong _ _ E).
  - rewrite Hs'. apply Hs.
Qed.
Lemma keeps_of I {A B} (r : res RepositoryError A) (f : A -> Op B) : (forall a, r = Ok a -> keeps I (f a)) -> keeps I (op_bind (op_of r) f).
Proof. intros Hf s Hs. unfold op_bind, op_of. destruct r as [a| |]; [by apply Hf|done..]. Qed.
Lemma keeps_pure I {A} (r : res RepositoryError A) : keeps I (op_of r).
Proof. by intros s. Qed.
Lemma keeps_publish_stub x : Build_is_embed_stub (id_target (sp_ident x)) = true -> keeps kinds (writes (publish_embed_stub_to_storage x)).
Proof.
  intros He s [Hp Hs]. destruct (law_publish_stub (storage s) x) as (d & Hw & Hp' & Hs' & _). rewrite (writes_ok _ _ _ Hw). split; cbn; intros i.
  - rewrite Hp'. apply Hp.
  - rewrite Hs'. destruct (BuildIdent_eq (sp_ident x) i) eqn:E; [|apply Hs]. intros _. by rewrite <-(embed_stub_cong _ _ E).
Qed.
Lemma keeps_create parent embed components : keeps kinds (create_embedded_stub_for_spec sends parent embed components).
Proof.
  apply keeps_of. intros x Hx. destruct (embed_stub_ident parent (embed, components) x Hx) as [Hi _].
  apply op_keeps_bind; [|intros; apply keeps_announce]. apply keeps_publish_stub. by rewrite Hi.
Qed.
Lemma keeps_create_stubs parent prs : keeps kinds (create_stubs order sends parent prs).
Proof. apply keeps_each. intros []. apply keeps_create. Qed.
Lemma keeps_remove_stub parent embed components : keeps kinds (remove_embedded_stub_for_spec sends parent embed components).
Proof.
  apply op_keeps_bind; [|intros; apply keeps_announce]. intros s [Hp Hs]. pose proof (law_remove_stub (storage s) (stub_ident parent embed components) eq_refl) as H.
  destruct (stub_at _ _); [|by rewrite (writes_err _ _ _ _ H)]. destruct H as (d & Hw & Hp' & Hs' & _). rewrite (writes_ok _ _ _ Hw). split; cbn; intros i.
  - rewrite Hp'. apply Hp.
  - rewrite Hs'. destruct (BuildIdent_eq _ i); [done|apply Hs].
Qed.
Lemma keeps_remove_package i : keeps kinds (writes (remove_package_from_storage i)).
Proof.
  intros s [Hp Hs]. pose proof (law_remove_package (storage s) i) as H. destruct (package_at _ _); [|by rewrite (writes_err _ _ _ _ H)].
  destruct H as (d & Hw & Hp' & Hs' & _). rewrite (writes_ok _ _ _ Hw). split; cbn; intros j.
  - rewrite Hp'. destruct (BuildIdent_eq i j); [done|apply Hp].
  - rewrite Hs'. apply Hs.
Qed.
Lemma reads_same {A} (f : D -> res RepositoryError A) s : (reads f s).2 = s.
Proof. done. Qed.
Lemma read_package_same i s : (read_package i s).2 = s.
Proof. unfold read_package. by destruct (Build_is_embed_stub _). Qed.
Lemma read_components_same i s : (read_components i s).2 = s.
Proof.
  unfold read_components. destruct (Build_is_embed_stub _); [|done]. unfold op_bind. pose proof (read_package_same i s). destruct (read_package i s) as [[]]; done.
Qed.
(** An update of a stub of an embedded package stores it as a package. *)
Lemma update_stub_stored p s : Build_is_embed_stub (id_target (sp_ident p)) = true -> stb s (sp_ident p) <> None ->
  pkg (update_package order sends p s).2 (sp_ident p) <> None.
Proof.
  intros He Hstub. destruct (stb s (sp_ident p)) as [x|] eqn:Ex; [|done]. unfold update_package.
  assert (BuildIdent_can_embed (sp_ident p) = false) as -> by (unfold BuildIdent_can_embed; by destruct (id_target (sp_ident p)) as [|[]|]).
  assert (exists c, read_components (sp_ident p) s = (Ok c, s)) as [c Hc].
  { unfold read_components, read_package. rewrite He. unfold op_bind, reads. rewrite law_read_stub, Ex. by eexists. }
  destruct (published p c s) as (s1 & Hw & Hp & _). erewrite bind_ok by reflexivity. rewrite (bind_ok _ _ _ _ _ Hc), (bind_ok _ _ _ _ _ Hw).
  assert (pkg s1 (sp_ident p) <> None) as H by (by rewrite Hp, (proj1 BuildIdent_lawful)).
  unfold op_bind, announce_package_event. destruct (sends Modified (sp_ident p)) as [[]| |]; exact H.
Qed.
(** C15: every operation, also one that fails, leaves concrete builds among the
    packages and builds of embedded packages among the stubs; but an update of the
    stub of an embedded package leaves it among the packages. *)
Theorem operations_keep_kinds : (forall p c, keeps kinds (publish_package order sends p c)) /\ (forall i, keeps kinds (remove_package order sends i)) /\
  (forall p, Build_is_embed_stub (id_target (sp_ident p)) = false -> keeps kinds (update_package order sends p)) /\
  (forall r, keeps kinds (publish_recipe r)) /\ (forall r, keeps kinds (force_publish_recipe r)) /\
  (forall v, keeps kinds (writes (remove_recipe v))) /\
  (forall p s, Build_is_embed_stub (id_target (sp_ident p)) = true -> stb s (sp_ident p) <> None -> ~ kinds (update_package order sends p s).2).
Proof.
  assert (forall r policy, keeps kinds (writes (publish_recipe_to_storage r policy))) as Hrecipe.
  { intros r policy s [Hp Hs]. pose proof (law_publish_recipe (storage s) r policy) as H.
    destruct policy; [|destruct (recipe_at (storage s) (recipe_ident r))].
    2: by rewrite (writes_err _ _ _ _ H).
    all: destruct H as (d & Hw & Hp' & Hs' & _); rewrite (writes_ok _ _ _ Hw); split; cbn; intros i; rewrite ?Hp', ?Hs'; auto. }
  split_and!; [..|intros r; apply Hrecipe|intros r; apply Hrecipe| |].
  - intros p c. apply keeps_if; [intros _; apply keeps_pure|intros He]. apply op_keeps_bind; [apply keeps_publish_package; by destruct (id_target (sp_ident p))|intros _].
    apply op_keeps_bind; [|intros; apply keeps_announce]. apply keeps_if; [|by intros _ s]. intros _. apply keeps_of. intros prs _. apply keeps_create_stubs.
  - intros i. apply op_keeps_bind; [|intros _; apply op_keeps_bind; [apply keeps_remove_package|intros; apply keeps_announce]].
    intros s Hs. pose proof (read_package_same i s). destruct (read_package i s) as [[p| |] s']; cbn in *; subst; [|done..].
    destruct (BuildIdent_can_embed (sp_ident p)); [|done]. revert s Hs. apply (keeps_of kinds). intros prs _. apply keeps_each. intros []. apply keeps_remove_stub.
  - intros p He s Hs. unfold update_package. pose proof (read_package_same (sp_ident p) s) as Hsame.
    assert (forall original : option (res RepositoryError P), keeps kinds (op_bind (if original is Some Panicked then op_of Panicked else op_ret tt) (fun _ =>
      op_bind (read_components (sp_ident p)) (fun components => op_bind (writes (publish_package_to_storage p components)) (fun _ =>
      op_bind (announce_package_event sends Modified (sp_ident p)) (fun _ => match original with Some (Ok original) => update_stubs order sends p original | _ => op_ret tt end)))))) as Hgo.
    { intros original. apply op_keeps_bind; [by destruct original as [[]|]; intros s'|intros _]. apply op_keeps_bind; [intros s' Hs'; by rewrite read_components_same|intros c].
      apply op_keeps_bind; [by apply keeps_publish_package|intros _]. apply op_keeps_bind; [apply keeps_announce|intros _].
      destruct original as [[o| |]|]; [|by intros s'..]. apply keeps_of. intros old _. apply keeps_of. intros new _.
      destruct old, new; [by intros s'| | |]; (apply keeps_if; [intros _; apply keeps_create_stubs|intros _]; apply keeps_if; [intros _|by intros _ s'];
        apply op_keeps_bind; [apply keeps_each; intros []; apply keeps_remove_stub|intros _]; apply op_keeps_bind; [apply keeps_create_stubs|intros _];
        apply keeps_if; [intros _|by intros _ s']; apply keeps_each; intros [embed ?]; destruct (hm_get sp_eq embed _); [apply keeps_create|by intros s']). }
    destruct (BuildIdent_can_embed (sp_ident p)); [destruct (read_package (sp_ident p) s) as [r s']; cbn in Hsame; subst s'; exact (Hgo (Some r) s Hs)|exact (Hgo None s Hs)].
  - intros v s [Hp Hs]. pose proof (law_remove_recipe (storage s) v) as H. destruct (recipe_at _ _); [|by rewrite (writes_err _ _ _ _ H)].
    destruct H as (d & Hw & Hp' & Hs' & _). rewrite (writes_ok _ _ _ Hw). split; cbn; intros i; rewrite ?Hp', ?Hs'; auto.
  - intros p s He Hstub [Hp _]. specialize (Hp (sp_ident p) (update_stub_stored p s He Hstub)). congruence.
Qed.
(** So every build that is listed can be read. *)
Lemma kinds_readable v s : kinds s -> (forall p, exists a, is_active p = Ok a) -> readable (id_base v) (id_target v) s.
Proof.
  intros [Hp Hs] Ha. destruct (list_package_builds_exact v s) as (builds & Hl & Hb). exists builds. destruct v as [name version]. split; [exact Hl|].
  intros b Hin. assert (pkg s b <> None \/ stb s b <> None) as Hst by (apply (Hb b); exists b; split; [done|apply BuildIdent_lawful]).
  assert (exists spec, read_package b s = (Ok spec, s)) as (spec & Hr); [|destruct (Ha spec) as (a & Ha'); by exists spec, a].
  unfold read_package. destruct (Build_is_embed_stub (id_target b)) eqn:E; unfold reads; rewrite ?law_read_stub, ?law_read_package.
  - destruct (stb s b) as [x|] eqn:Ex; [by exists x|]. destruct Hst as [H|H]; [by rewrite Hp in E|done].
  - destruct (pkg s b) as [[x c]|] eqn:Ex; [by exists x|]. destruct Hst as [H|H]; [done|by rewrite Hs in E].
Qed.
End theory.

(** ** Packages of specs *)

Section package_specs.
Context (permutations2 : forall A : Type, list A -> list (A * A)) (from_str : rstr -> res rstr VersionRange).
Context (spec_eq : PackageSpec ComponentSpec -> PackageSpec ComponentSpec -> bool) (filters : option (list (rstr * rstr))).
Context (eq_lawful : lawful spec_eq) (eq_ident : forall p p', spec_eq p p' = true -> BuildIdent_eq (ps_pkg p) (ps_pkg p') = true).
Lemma insert_or_merge_spec_ident r p p' : insert_or_merge_spec permutations2 r p = Ok p' -> ps_pkg p' = ps_pkg p.
Proof.
  unfold insert_or_merge_spec, insert_or_merge_install_requirement. destruct (insert_or_merge_pinned _ _ _) as [[[e|] reqs]| |]; [..|done|done]; cbn;
    unfold install_mut, new_from_parts; destruct (calculate_install_requirements_with_options _ _); cbn; try done. by intros [= <-].
Qed.
Lemma spec_package_laws : @StoredPackageLaws _ _ (spec_package permutations2 from_str spec_eq filters).
Proof. split; [exact eq_lawful|exact eq_ident|exact insert_or_merge_spec_ident|done|]. by intros d p p' [= <-]. Qed.
End package_specs.

(** ** Examples *)

Section examples.
Abbreviation Spec := (PackageSpec ComponentSpec).
Definition demo_order (A : Type) (l : list A) : list A := l.
Definition demo_sends (event : PackageEvent) (ident : BuildIdent) : res RepositoryError unit := Ok tt.
Definition demo_eq (a b : Spec) : bool := BuildIdent_eq (ps_pkg a) (ps_pkg b) && Bool.eqb (ps_deprecated a) (ps_deprecated b).
#[local] Instance demo_package : StoredPackage Spec RequestWithOptions := spec_package (fun _ _ => []) (fun _ => Err []) demo_eq None.
#[local] Instance demo_recipe : StoredRecipe VersionIdent := fun r => r.
#[local] Instance demo_storage : Storage (MemRepository VersionIdent Spec) VersionIdent Spec := mem_storage demo_order.
Lemma demo_perm A (l : list A) : demo_order A l ≡ₚ l.
Proof. done. Qed.
Lemma demo_sent event ident : demo_sends event ident = Ok tt.
Proof. done. Qed.
#[local] Instance demo_laws : StorageLaws (MemRepository VersionIdent Spec) VersionIdent Spec RequestWithOptions := mem_laws demo_order demo_perm.
#[local] Instance demo_package_laws : StoredPackageLaws Spec RequestWithOptions.
Proof.
  apply spec_package_laws; [|by intros p p' [H _]%andb_true_iff]. apply (pair_lawful ps_pkg ps_deprecated _ Bool.eqb BuildIdent_lawful). split; [by intros []|]. by intros [] [] [].
Qed.
Definition demo_version (name : rstr) (n : N) : VersionIdent := mkIdent name (from_parts [n]).
Definition demo_embedded (n : N) (deprecated : bool) : EmbeddedPackageSpec ComponentSpec :=
  em_set_deprecated deprecated (EmbeddedPackageSpec_new (mkIdent (demo_version (lit "qt") n) (BuildEmbedded EmbeddedUnknown))).
Definition demo_spec (deprecated : bool) (embedded : list (EmbeddedPackageSpec ComponentSpec)) : Spec :=
  mkPackageSpec (mkIdent (demo_version (lit "maya") 1) Build_empty) Compat_default deprecated [] (mkInstallSpec [] embedded []) [].
Abbreviation demo_start := (mkRepository (mkMem [] [] []) [] : Repository (MemRepository VersionIdent Spec)).
Abbreviation demo_published spec := (publish_package demo_order demo_sends spec [] demo_start).2.
Abbreviation demo_stub spec n := (stub_ident spec (PackageSpec_from (demo_embedded n false)) [ComponentRun]).
Abbreviation demo_read i s := (match read_package i s with (Ok p, _) => Some (ps_deprecated p) | _ => None end).

(** Publishing makes the stub, updating deprecates it and replaces it, and removing
    removes it. *)
Lemma embedded_stub_follows :
  let spec := demo_spec false [demo_embedded 5 false] in
  let spec' := demo_spec true [demo_embedded 5 false] in
  let spec'' := demo_spec true [demo_embedded 6 false] in
  let s := demo_published spec in
  let s' := (update_package demo_order demo_sends spec' s).2 in
  let s'' := (update_package demo_order demo_sends spec'' s').2 in
  let s''' := (remove_package demo_order demo_sends (ps_pkg spec) s'').2 in
  (demo_read (demo_stub spec 5) s = Some false /\ demo_read (demo_stub spec 5) s' = Some true) /\
  (demo_read (demo_stub spec 5) s'' = None /\ demo_read (demo_stub spec 6) s'' = Some true) /\
  demo_read (demo_stub spec 6) s''' = None /\ demo_read (ps_pkg spec) s''' = None.
Proof. vm_compute. by split_and!. Qed.
(** The version of a package that was removed is still listed. *)
Lemma removed_version_is_listed :
  let spec := demo_spec false [] in
  let s := (remove_package demo_order demo_sends (ps_pkg spec) (demo_published spec)).2 in
  demo_read (ps_pkg spec) s = None /\ list_packages (storage s) = Ok [lit "maya"] /\ list_package_versions (lit "maya") (storage s) = Ok [from_parts [1]%N].
Proof. vm_compute. by split_and!. Qed.
(** Two embedded packages of one version share a stub: what embeds them cannot be
    removed. *)
Lemma embedded_twice_stays :
  let spec := demo_spec false [demo_embedded 5 false; demo_embedded 5 true] in
  let '(r, s) := remove_package demo_order demo_sends (ps_pkg spec) (demo_published spec) in
  r = not_found (demo_stub spec 5) /\ demo_read (ps_pkg spec) s = Some false.
Proof. vm_compute. by split. Qed.
(** *** Instances of the theorems *)

Abbreviation demo_one := (demo_spec false [demo_embedded 5 false]).
Abbreviation demo_two := (demo_spec true [demo_embedded 6 false]).
Abbreviation demo_provider n := (PackageSpec_from (demo_embedded n false), [ComponentRun]).
Lemma demo_stub_distinct n : distinct demo_one [demo_provider n].
Proof. split; [apply NoDup_singleton|]. by intros e e' ->%list_elem_of_singleton ->%list_elem_of_singleton. Qed.
Lemma demo_defined d n embedded : stubs_defined (demo_spec d embedded) [demo_provider n] <-> exists x, embed_stub (demo_spec d embedded) (demo_provider n).1 [ComponentRun] = Ok x.
Proof. split; [intros H; by apply (H (demo_provider n)); left|]. by intros H e ->%list_elem_of_singleton. Qed.
Lemma remove_undoes_publish_witness : exists s',
  op_bind (publish_package demo_order demo_sends demo_one []) (fun _ => remove_package demo_order demo_sends (sp_ident demo_one)) demo_start = (Ok tt, s') /\
  forall i, stub_at (storage s') i = None.
Proof.
  destruct (remove_undoes_publish demo_order demo_sends demo_perm demo_sent demo_one [] [demo_provider 5] demo_start) as (s' & H & _ & Hs & _).
  - reflexivity.
  - vm_compute. reflexivity.
  - apply demo_defined. eexists. vm_compute. reflexivity.
  - apply demo_stub_distinct.
  - reflexivity.
  - reflexivity.
  - exists s'. split; [exact H|exact Hs].
Defined.
(** One embedded package stays, one is new and one is not embedded any more; the
    package becomes deprecated. *)
Abbreviation demo_before := (demo_spec false [demo_embedded 5 false; demo_embedded 6 false]).
Abbreviation demo_after := (demo_spec true [demo_embedded 6 false; demo_embedded 7 false]).
Lemma update_keeps_stubs_witness : exists s', update_package demo_order demo_sends demo_after (demo_published demo_before) = (Ok tt, s') /\
  at_status demo_after (stub_at (storage s') (demo_stub demo_after 6)) /\ at_status demo_after (stub_at (storage s') (demo_stub demo_after 7)) /\
  stub_at (storage s') (demo_stub demo_after 5) = None.
Proof.
  destruct (update_keeps_stubs demo_order demo_sends demo_perm demo_sent demo_before demo_after [] [demo_provider 5; demo_provider 6]
    [demo_provider 6; demo_provider 7] (demo_published demo_before)) as (s' & H & _ & _ & [Hs Hg _]).
  - reflexivity.
  - vm_compute. reflexivity.
  - split.
    + vm_compute. reflexivity.
    + vm_compute. reflexivity.
    + reflexivity.
    + intros e He. assert (provided_by [demo_provider 6; demo_provider 7] <$> returning [demo_provider 5; demo_provider 6] [demo_provider 6; demo_provider 7] = [demo_provider 6]) as Hr by (vm_compute; reflexivity).
      rewrite Hr in He. cbn [app] in He. rewrite !elem_of_cons in He. destruct He as [->|[->|[->|[]%elem_of_nil]]]; eexists; vm_compute; reflexivity.
    + split; [constructor; [|apply NoDup_singleton]; intros Hin%list_elem_of_singleton; by apply (f_equal (fun e => demo_eq e.1 (demo_provider 6).1)) in Hin|].
      intros e e'. rewrite !elem_of_cons. intros [->|[->|[]%elem_of_nil]] [->|[->|[]%elem_of_nil]] E; [done|vm_compute in E; done..|done].
    + intros e. rewrite !elem_of_cons. intros [->|[->|[]%elem_of_nil]]; (eexists; split; [vm_compute; reflexivity|reflexivity]).
  - exists s'. split; [exact H|]. split_and!.
    + apply (Hs (demo_provider 6)); [by left|left; reflexivity].
    + apply (Hs (demo_provider 7)); [right; by left|left; reflexivity].
    + apply (Hg (demo_provider 5)); [by left| |].
      * intros e. rewrite !elem_of_cons. intros [->|[->|[]%elem_of_nil]]; vm_compute; reflexivity.
      * intros (a & Ha & E & _). rewrite !elem_of_cons in Ha. destruct Ha as [->|[->|[]%elem_of_nil]]; vm_compute in E; done.
Defined.
Lemma highest_package_version_exact_witness : exists r, highest_package_version demo_order (lit "maya") (demo_published demo_one) = (Ok r, demo_published demo_one) /\
  match r with
  | Some v => v ∈ [from_parts [1]%N] /\ version_active demo_order (lit "maya") v (demo_published demo_one) /\
      forall w, w ∈ [from_parts [1]%N] -> version_active demo_order (lit "maya") w (demo_published demo_one) -> Version_cmp w v <> Gt
  | None => forall v, v ∈ [from_parts [1]%N] -> ~ version_active demo_order (lit "maya") v (demo_published demo_one)
  end.
Proof.
  apply (highest_package_version_exact demo_order); [vm_compute; reflexivity|].
  intros v ->%list_elem_of_singleton. exists [ps_pkg demo_one]. split; [vm_compute; reflexivity|].
  intros b ->%list_elem_of_singleton. exists demo_one, true. split; [vm_compute; reflexivity|reflexivity].
Defined.
Lemma operations_keep_kinds_witness : kinds (update_package demo_order demo_sends demo_two (demo_published demo_one)).2.
Proof.
  destruct (operations_keep_kinds demo_order demo_sends) as (Hp & _ & Hu & _). apply Hu; [reflexivity|]. apply Hp. by split.
Defined.
End examples.
